(* ===== verification/_CoqProject ===== *)
-Q . S2P
Prelude.v
CDouble.v
CMemory.v
PicUtils.v
Bmpread.v
PicDemo.v
Pqueue.v
HeapPermute.v
Chain.v
Base64.v
SortedSet.v
AvlTree.v
HashFunc.v
HashTable.v
HashMap.v
Bstrlib.v
BstrSearch.v
BstrOps.v
BstrSplit.v
BstrReplace.v
BstrPair.v
BstrStream.v
BstrRead.v
Utf8.v
Json.v
JsonWrite.v
JsonRead.v
Md5.v
FastTimer.v
SkipList.v
CString.v
SharedCodec.v
SharedText.v
SharedIo.v
FastBuffer.v
HashCount.v
BlockedQueue.v
Mpool.v
