(* ===== verification/Prelude.v ===== *)
(** * The C code of c-workspace: a verification development

    The repository's own program is pic-recognizer (c/pic-recognizer), which finds
    the marked answer on a scanned sheet. Around it stand the libraries the
    repository carries under c/libs: the bitmap loader the recogniser calls, and
    general ones (priority queue, permutations; FastCommon's chain, AVL tree, skip list,
    hash table, base64 codec, MD5 digest and JSON parser; the better string library with its
    UTF-8 helpers) which it keeps for its other programs.
    Paths below are relative to src/c.

    ** How C is modelled (this file, CMemory.v, CDouble.v)

    Definitions are executable functions in the error monad [res] of this file:
    [Done a] is a run that returns, [Undef] is one that does what C leaves undefined
    (an access outside an object, a read of released memory, signed overflow), and
    [OutOfFuel] is a loop cut off by its fuel. An [int] is an integer of Z: [cint]
    makes a result outside 32 bits [Undef], [u8], [u16], [u32] and [u64] wrap. Arrays
    are lists indexed by Z, with [load] and [store] checking the bounds; loops are
    [for_up], [for_loop] or structural recursion on fuel. No theorem holds because
    fuel ran out: each states that the run is [Done], so the fuel used suffices (in
    SharedIo.v a run also waits for the next result of a system call, and the theorems say
    exactly when).
    Fuel is taken from the size of the data (the length of a list, the number of
    nodes, of bytes or of bits), and the theorems' proofs contain the argument.
    CMemory.v adds a heap of byte blocks and header structures with a state monad
    over [res], allocation that may fail as a list of outcomes and fresh memory with
    arbitrary content. A ghost flag of the heap, [oom], which no code reads, is raised by
    an allocation that fails and by nothing else ([Flagged]): a theorem on a function that may
    report an error for lack of memory says that the flag is up then, so the error is not
    there while memory lasts ([flagged_lucky]). CDouble.v has the double arithmetic used, on the Standard
    Library's executable binary64 floats.

    ** Files

    - PicUtils.v is pic-recognizer/utils.c: points, ranges, contexts and the traversal
      by rows with a callback. Bmpread.v is libs/bmpread/bmpread.c: the little-endian
      readers, the validation of the headers, the four line decoders and the release of
      resources on every path. The bitmaps it takes are described by the bytes of the file
      ([acceptable]); pointers into the output are offsets, and the one formed before the
      buffer, which C does not define, is reported ([reversed_end_outside]). PicDemo.v is pic-recognizer/demo.c: [main] calls the
      loader, turns its bytes into coordinates, scans rows for runs, locates the answer
      areas and counts dark pixels. Its theorems compose with those of Bmpread.v: the
      coordinates are those of the picture the file describes ([bitmap_coordinates]),
      and [main]'s answer is the area with most dark pixels ([marked_area]); the
      conditions under which it misses strokes or leaves its buffers are stated too.
    - Pqueue.v is libs/pqueue/pqueue.c: a heap in an array, with the caller's five
      callbacks as a record and the entries' fields as a store only they touch. The
      invariant (heap order, positions recorded, no duplicates, sizes) is kept by
      insertion, change of priority, removal and popping, and each does to the
      multiset of entries what it says.
    - HeapPermute.v is libs/heap-permutation.h: the callback sees each arrangement of
      the array, n! of them, all distinct when the cells are.
    - Chain.v is libs/fastcommon/src/chain.c on a heap of nodes: the operations refine
      those of a list, whatever the mode the chain is in.
    - Base64.v is libs/fastcommon/src/base64.c: encoding equals a reference encoder,
      decoding inverts it, contexts built by the initialisers and setters are sound.
    - SortedSet.v has the lists sorted by a comparison function that the ordered containers
      refine. AvlTree.v is libs/fastcommon/src/avl_tree.c: the tree refines such a list,
      stays balanced and of logarithmic depth. SkipList.v is
      libs/fastcommon/src/skiplist_set.c: for all values of rand() a set's life, from its
      initialisation to its destruction, is that of the list, and each level links the
      nodes that have it. The node allocators of fast_mblock.c appear there as allocation
      of objects, each given back to the allocator it came from.
    - HashFunc.v, HashTable.v, HashMap.v are libs/fastcommon/src/hash.c: the hash
      functions (CRC32 against polynomial division), the table with chains, locks, limits
      and growth, and the theorems that a session of operations refines a map from keys
      to values, with the space each value has and the number of slots, from which the
      memory in use, the refusals for the limit and the growth follow.
    - HashCount.v is [hash_inc_value] of hash.c: counters kept as decimal texts.
    - CString.v has the C library's functions on strings and decimal numbers that the next
      files use. SharedCodec.v, SharedText.v, SharedIo.v are libs/fastcommon/src/shared_func.c:
      integers as bytes, hexadecimal and URL encodings, printed numbers and sizes; changing,
      trimming, splitting, searching and replacing texts; complete reads and writes, lines,
      whole files and their replacement, against the results of the system calls.
      FastBuffer.v is libs/fastcommon/src/fast_buffer.c, a growing text, against a text and
      the size of its block; what [vsnprintf] makes of a format is given.
    - Mpool.v is libs/fastcommon/src/fast_mpool.c: regions cut from trunks. In any session
      they lie apart and keep their contents, and the pool's destruction gives all back.
    - BlockedQueue.v is libs/fastcommon/src/common_blocked_queue.c and fast_blocked_queue.c:
      queues between threads. What is done under the lock is a function on a heap of nodes;
      a step relation has the threads that lock, wait and signal, with spurious wake-ups.
      For all interleavings the data come out in order; one consumer is always woken, while
      of two one can be left asleep ([lost_wakeup]).
    - FastTimer.v is libs/fastcommon/src/fast_timer.c: a time wheel of doubly linked slots,
      whose calls list exactly the entries that are due, provided times are changed as the
      theorem on changes says.
    - Md5.v is libs/fastcommon/src/md5.c: the digest of a text read in pieces is that of a
      reference definition with constants computed from the sine.
    - Bstrlib.v is libs/bstrlib/bstrlib.c: strings with allocation, copying,
      concatenation, assignment, insertion, deletion, trimming and replacement on the
      heap of CMemory.v, including operands that share a buffer and allocations that
      fail. BstrOps.v has theorems on those operations, BstrSearch.v the comparisons and
      searches against the definition of an occurrence, BstrSplit.v the lists of strings,
      splitting and joining with their round trip, BstrReplace.v find-and-replace against
      a left-to-right reference replacement. BstrStream.v is the library's buffered streams
      over a source that is a parameter; BstrRead.v, with the two-string heaps of BstrPair.v,
      shows that reads take lines and counts of characters off the text to come.
    - Utf8.v is utf8util.c and buniutil.c of the same library: iterating over the code
      points of a text, and appending code points to a string, against the encoding's
      definition.
    - Json.v, JsonWrite.v, JsonRead.v are libs/fastcommon/src/json_parser.c on the same
      heap: writing and reading arrays and maps of strings, with the round trip, the
      texts accepted and the release of memory on errors.

    A [Record] stands for each struct, with its fields' names; a pointer to an object
    that is not shared is the object itself (or [option] of it where the code tests for
    NULL), a shared one is an address in an explicit store. Functions that change an
    object through a pointer return the new object. A callback is an argument of the
    definition, with a state for what it acts on.

    ** What is not modelled

    Printing (apart from the answer letter and the entries a dump goes through), directories
    and socket input and output, the creation of threads, timers and
    process control, which are calls of the operating system; the third-party test harness
    libs/munit and the macro containers of libs/uthash; the C++ tree under src/cpp, which
    the C code does not use. Of libraries modelled in part, the parts left are: of bstrlib.c,
    formatted output; of hash.c, the printing of statistics; of shared_func.c,
    what asks for times, processes, descriptors' flags and addresses of hosts; of FastCommon,
    the flat and multi skip lists, the object allocators, the INI reader and the conversion of
    character sets. *)
From stdpp Require Export base tactics numbers list list_numbers gmap sorting.
From Stdlib Require Export ZArith Lia.

Set Default Proof Using "Type".
#[export] Set Warnings "-clear-no-such-hyp".
#[global] Open Scope Z_scope.

(** * Outcomes of a C computation

    [Done a]    : the code runs to completion with value [a];
    [Undef]     : the code performs an operation the C standard leaves undefined
                  (access outside an object, signed overflow, null dereference);
    [OutOfFuel] : the bound given to a loop that is not structurally
                  recursive was too small (theorems show it never is). *)
Inductive res (A : Type) : Type :=
| Done (a : A)
| Undef
| OutOfFuel.
Arguments Done {A} a.
Arguments Undef {A}.
Arguments OutOfFuel {A}.

#[global] Instance res_ret : MRet res := λ A a, Done a.
#[global] Instance res_bind : MBind res := λ A B f m,
  match m with Done a => f a | Undef => Undef | OutOfFuel => OutOfFuel end.
#[global] Instance res_fmap : FMap res := λ A B f m,
  match m with Done a => Done (f a) | Undef => Undef | OutOfFuel => OutOfFuel end.

(** [returns m P]: the computation completes and its value satisfies [P]. *)
Definition returns {A} (m : res A) (P : A → Prop) : Prop :=
  match m with Done a => P a | _ => False end.

(** An option read as a computation: [None] is an invalid access. *)
Definition of_opt {A} (o : option A) : res A :=
  match o with Some a => Done a | None => Undef end.

(** * Integers of the platform (LP64: 32-bit int, 64-bit long and size_t) *)
Definition INT_MAX : Z := 2 ^ 31 - 1.
Definition INT_MIN : Z := - 2 ^ 31.
Definition UINT32_MAX : Z := 2 ^ 32 - 1.
Definition SIZE_MAX : Z := 2 ^ 64 - 1.
Definition INT64_MAX : Z := 2 ^ 63 - 1.

Definition in_int (z : Z) : bool := (INT_MIN <=? z) && (z <=? INT_MAX).

(** The result of a signed [int] operation: overflow is undefined. *)
Definition cint (z : Z) : res Z := if in_int z then Done z else Undef.

(** Conversions to unsigned types wrap around. *)
Definition u8 (z : Z) : Z := z mod 2 ^ 8.
Definition u16 (z : Z) : Z := z mod 2 ^ 16.
Definition u32 (z : Z) : Z := z mod 2 ^ 32.
Definition u64 (z : Z) : Z := z mod 2 ^ 64.

(** Reinterpretation of a w-bit pattern as two's complement. *)
Definition sext (w z : Z) : Z :=
  let m := z mod 2 ^ w in if m <? 2 ^ (w - 1) then m else m - 2 ^ w.

(** * Arrays: lists addressed by a [Z] index, bounds checked *)
Definition zlen {A} (l : list A) : Z := Z.of_nat (length l).

Definition zget {A} (l : list A) (i : Z) : option A :=
  if 0 <=? i then l !! Z.to_nat i else None.

Definition zset {A} (l : list A) (i : Z) (x : A) : option (list A) :=
  if (0 <=? i) && (i <? zlen l) then Some (<[Z.to_nat i := x]> l) else None.

(** Total update, used to state what a checked store leaves behind. *)
Definition zupd {A} (l : list A) (i : Z) (x : A) : list A := <[Z.to_nat i := x]> l.

Definition load {A} (l : list A) (i : Z) : res A := of_opt (zget l i).
Definition store {A} (l : list A) (i : Z) (x : A) : res (list A) := of_opt (zset l i x).

(** * Loops *)

(** [for (i = lo; n iterations left; i += step) body]: the number of
    iterations is computed from the loop bounds by the caller. *)
Fixpoint for_loop {S} (n : nat) (step i : Z) (body : Z → S → res S) (s : S) : res S :=
  match n with
  | O => Done s
  | S n' => s' ← body i s; for_loop n' step (i + step) body s'
  end.

(** [for (i = lo; i < hi; i++) body]. *)
Definition for_up {S} (lo hi : Z) (body : Z → S → res S) (s : S) : res S :=
  for_loop (Z.to_nat (hi - lo)) 1 lo body s.

(** [while (cond) body], with a bound on the number of iterations. *)
Fixpoint while_loop {S} (fuel : nat) (cond : S → bool) (body : S → res S) (s : S) : res S :=
  if cond s then
    match fuel with
    | O => OutOfFuel
    | Datatypes.S fuel' => s' ← body s; while_loop fuel' cond body s'
    end
  else Done s.

(** Sequential composition over a list. *)
Fixpoint fold_res {S A} (f : A → S → res S) (l : list A) (s : S) : res S :=
  match l with
  | [] => Done s
  | x :: l' => s' ← f x s; fold_res f l' s'
  end.

(** The [n] cells of [l] from index [i] on. *)
Definition zslice {A} (l : list A) (i n : Z) : list A :=
  take (Z.to_nat n) (drop (Z.to_nat i) l).

(** [l] with [xs] written from index [off] on. *)
Definition zwrite {A} (l : list A) (off : Z) (xs : list A) : list A :=
  take (Z.to_nat off) l ++ xs ++ drop (Z.to_nat (off + zlen xs)) l.

(** A value of an unsigned char. *)
Definition is_byte (x : Z) : Prop := 0 ≤ x < 256.

(** Sum of a list of integers. *)
Definition zsum (l : list Z) : Z := foldr Z.add 0 l.

(** * Tactics *)

(** [lia] decides division and remainder by constants. *)
Ltac Zify.zify_post_hook ::= Z.to_euclidean_division_equations.

(** Boolean comparisons in hypotheses become propositions. *)
Ltac propify :=
  repeat match goal with
  | H : (_ && _) = true |- _ => apply andb_true_iff in H; destruct H
  | H : (_ && _) = false |- _ => apply andb_false_iff in H
  | H : (_ || _) = true |- _ => apply orb_true_iff in H
  | H : (_ || _) = false |- _ => apply orb_false_iff in H; destruct H
  | H : negb _ = true |- _ => apply negb_true_iff in H
  | H : negb _ = false |- _ => apply negb_false_iff in H
  | H : (_ <=? _) = true |- _ => apply Z.leb_le in H
  | H : (_ <=? _) = false |- _ => apply Z.leb_gt in H
  | H : (_ <? _) = true |- _ => apply Z.ltb_lt in H
  | H : (_ <? _) = false |- _ => apply Z.ltb_ge in H
  | H : (_ =? _) = true |- _ => apply Z.eqb_eq in H
  | H : (_ =? _) = false |- _ => apply Z.eqb_neq in H
  end.

(** Split every [if] on a boolean of the goal. *)
Ltac case_if :=
  match goal with
  | |- context [if ?b then _ else _] =>
      lazymatch type of b with bool => destruct b eqn:?; propify end
  end.

Ltac lia_bool := propify; try lia.

(** Linear arithmetic with the platform's limits expanded. *)
Ltac int_lia := unfold INT_MIN, INT_MAX, UINT32_MAX, SIZE_MAX, INT64_MAX in *; lia.

(** * Lemmas *)

(** ** Computations *)
Section returns.
Context {A B : Type}.
Implicit Types (m : res A) (P : A → Prop).

Lemma returns_ret (a : A) P : P a → returns (Done a) P.
Proof. done. Qed.

Lemma returns_mret (a : A) P : P a → returns (mret a) P.
Proof. done. Qed.

Lemma returns_bind (f : A → res B) m (Q : B → Prop) :
  returns m (λ a, returns (f a) Q) → returns (m ≫= f) Q.
Proof. by destruct m. Qed.

Lemma returns_mono m P (Q : A → Prop) :
  returns m P → (∀ a, P a → Q a) → returns m Q.
Proof. destruct m; naive_solver. Qed.

Lemma returns_inv m P : returns m P → ∃ a, m = Done a ∧ P a.
Proof. destruct m; naive_solver. Qed.

Lemma returns_done m a : m = Done a → returns m (λ x, x = a).
Proof. by intros ->. Qed.

Lemma returns_eq m a : returns m (λ x, x = a) → m = Done a.
Proof. destruct m; naive_solver. Qed.

Lemma bind_done (f : A → res B) m b :
  m ≫= f = Done b → ∃ a, m = Done a ∧ f a = Done b.
Proof. destruct m; naive_solver. Qed.
End returns.

Lemma done_bind {A B} (a : A) (f : A → res B) : Done a ≫= f = f a.
Proof. done. Qed.

Lemma bind_mret_fmap {A B} (f : A → B) (m : res A) : (x ← m; mret (f x)) = f <$> m.
Proof. by destruct m. Qed.

Lemma cint_ok z : INT_MIN ≤ z ≤ INT_MAX → cint z = Done z.
Proof.
  intros [??]. unfold cint, in_int.
  by rewrite (proj2 (Z.leb_le _ _)), (proj2 (Z.leb_le _ _)).
Qed.

Lemma cint_inv z z' : cint z = Done z' → z' = z ∧ INT_MIN ≤ z ≤ INT_MAX.
Proof.
  unfold cint, in_int. case_if; intros; simplify_eq. lia.
Qed.

(** ** Arrays *)
Section arrays.
Context {A : Type}.
Implicit Types (l : list A) (i j : Z) (x : A).

Lemma zlen_nonneg l : 0 ≤ zlen l.
Proof. unfold zlen; lia. Qed.

Lemma zlen_nil : zlen (@nil A) = 0.
Proof. done. Qed.

Lemma zlen_cons x l : zlen (x :: l) = zlen l + 1.
Proof. unfold zlen; simpl; lia. Qed.

Lemma zlen_app l k : zlen (l ++ k) = zlen l + zlen k.
Proof. unfold zlen. rewrite length_app. lia. Qed.

Lemma zlen_zupd l i x : zlen (zupd l i x) = zlen l.
Proof. unfold zlen, zupd. by rewrite length_insert. Qed.

Lemma zlen_replicate n x : zlen (replicate n x) = Z.of_nat n.
Proof. unfold zlen. by rewrite length_replicate. Qed.

Lemma zget_Some_range l i x : zget l i = Some x → 0 ≤ i < zlen l.
Proof.
  unfold zget, zlen. case_if; [|done]. intros ?%lookup_lt_Some. lia.
Qed.

Lemma zget_is_Some l i : 0 ≤ i < zlen l → is_Some (zget l i).
Proof.
  unfold zget, zlen. intros. case_if; [|lia].
  apply lookup_lt_is_Some. lia.
Qed.

Lemma zget_None l i : zget l i = None ↔ ¬ (0 ≤ i < zlen l).
Proof.
  split.
  - intros H [x Hx]%zget_is_Some. congruence.
  - destruct (zget l i) eqn:E; [|done]. by intros []; apply zget_Some_range in E.
Qed.

Lemma zget_nat l (n : nat) : zget l (Z.of_nat n) = l !! n.
Proof. unfold zget. case_if; [|lia]. by rewrite Nat2Z.id. Qed.

Lemma zget_of_lookup l i : 0 ≤ i → zget l i = l !! Z.to_nat i.
Proof. intros. unfold zget. by case_if; [|lia]. Qed.

Lemma zget_zupd_eq l i x : 0 ≤ i < zlen l → zget (zupd l i x) i = Some x.
Proof.
  unfold zget, zupd, zlen. intros. case_if; [|lia].
  apply list_lookup_insert_eq. lia.
Qed.

Lemma zget_zupd_ne l i j x : 0 ≤ i → i ≠ j → zget (zupd l i x) j = zget l j.
Proof.
  unfold zget, zupd. intros. case_if; [|done].
  apply list_lookup_insert_ne. lia.
Qed.

Lemma zset_ok l i x : 0 ≤ i < zlen l → zset l i x = Some (zupd l i x).
Proof. unfold zset. intros. case_if; [done|]. destruct Heqb; lia_bool. Qed.

Lemma zset_inv l i x l' : zset l i x = Some l' → 0 ≤ i < zlen l ∧ l' = zupd l i x.
Proof. unfold zset. case_if; intros; simplify_eq. done. Qed.

Lemma load_ok l i x : zget l i = Some x → load l i = Done x.
Proof. unfold load. by intros ->. Qed.

Lemma load_inv l i x : load l i = Done x → zget l i = Some x.
Proof. unfold load. destruct (zget l i); naive_solver. Qed.

Lemma store_ok l i x : 0 ≤ i < zlen l → store l i x = Done (zupd l i x).
Proof. intros. unfold store. by rewrite zset_ok. Qed.

Lemma store_inv l i x l' : store l i x = Done l' → 0 ≤ i < zlen l ∧ l' = zupd l i x.
Proof.
  unfold store. destruct (zset l i x) eqn:E; [|done].
  intros; simplify_eq/=. by apply zset_inv.
Qed.

Lemma load_oob l i : ¬ (0 ≤ i < zlen l) → load l i = Undef.
Proof. intros ?%zget_None. unfold load. by rewrite H. Qed.

Lemma store_oob l i x : ¬ (0 ≤ i < zlen l) → store l i x = Undef.
Proof.
  intros. unfold store. destruct (zset l i x) eqn:E; [|done].
  by apply zset_inv in E as [??].
Qed.

Lemma zlist_eq l k :
  zlen l = zlen k → (∀ i, 0 ≤ i < zlen l → zget l i = zget k i) → l = k.
Proof.
  intros Hlen H. apply list_eq_same_length with (length l).
  - unfold zlen in Hlen. lia.
  - done.
  - intros n x y Hn Hx Hy.
    specialize (H (Z.of_nat n)). rewrite !zget_nat in H.
    unfold zlen in *. rewrite H in Hx by lia. congruence.
Qed.
End arrays.

(** Accesses to the middle of a concatenation. *)
Section middle.
Context {A : Type}.
Implicit Types (l k : list A) (x : A).

Lemma zget_app_mid l x k : zget (l ++ x :: k) (zlen l) = Some x.
Proof. unfold zlen. rewrite zget_nat. by apply list_lookup_middle. Qed.

Lemma zget_app_l l k i : i < zlen l → zget (l ++ k) i = zget l i.
Proof.
  unfold zlen. intros. destruct (decide (0 ≤ i)).
  - rewrite !zget_of_lookup by lia. apply lookup_app_l. lia.
  - rewrite (proj2 (zget_None (l ++ k) i)) by lia. symmetry. apply zget_None. lia.
Qed.

Lemma zget_app_r l k i : zlen l ≤ i → zget (l ++ k) i = zget k (i - zlen l).
Proof.
  unfold zlen. intros. rewrite !zget_of_lookup by lia.
  rewrite lookup_app_r by lia. f_equal. lia.
Qed.

Lemma zupd_app_mid l x y k : zupd (l ++ x :: k) (zlen l) y = l ++ y :: k.
Proof.
  unfold zupd, zlen. rewrite Nat2Z.id.
  replace (length l) with (length l + 0)%nat by lia.
  by rewrite insert_app_r.
Qed.

Lemma load_app_mid l x k : load (l ++ x :: k) (zlen l) = Done x.
Proof. apply load_ok, zget_app_mid. Qed.

Lemma store_app_mid l x y k : store (l ++ x :: k) (zlen l) y = Done (l ++ y :: k).
Proof.
  rewrite store_ok, zupd_app_mid; [done|].
  rewrite zlen_app, zlen_cons. pose proof (zlen_nonneg l). pose proof (zlen_nonneg k). lia.
Qed.

Lemma store_app_end l y : store l (zlen l) y = Undef.
Proof. apply store_oob. lia. Qed.
End middle.

(** Lengths of list expressions, then arithmetic. *)
Ltac zlen_simpl :=
  rewrite ?zlen_zupd, ?zlen_replicate, ?zlen_app, ?zlen_cons;
  repeat match goal with
  | |- context [zlen (@nil ?A)] => change (zlen (@nil A)) with 0
  end.
Ltac zlen_lia := zlen_simpl; lia.

(** ** Loops *)
Lemma for_loop_inv {S} (P : Z → S → Prop) (body : Z → S → res S) n step i s :
  P i s →
  (∀ k s, 0 ≤ k < Z.of_nat n → P (i + k * step) s →
     returns (body (i + k * step) s) (P (i + (k + 1) * step))) →
  returns (for_loop n step i body s) (P (i + Z.of_nat n * step)).
Proof.
  revert i s. induction n as [|n IH]; intros i s H0 Hstep; simpl.
  - rewrite Z.add_0_r. exact H0.
  - apply returns_bind. pose proof (Hstep 0 s) as Hb.
    rewrite Z.mul_0_l, Z.add_0_r in Hb.
    eapply returns_mono; [apply Hb; [lia|done]|]. intros s' Hs'.
    replace (i + Z.of_nat (Datatypes.S n) * step)
      with ((i + step) + Z.of_nat n * step) by lia.
    apply IH.
    + by replace (i + step) with (i + (0 + 1) * step) by lia.
    + intros k t Hk Ht.
      replace (i + step + (k + 1) * step) with (i + ((k + 1) + 1) * step) by lia.
      replace (i + step + k * step) with (i + (k + 1) * step) in * by lia.
      apply Hstep; [lia|done].
Qed.

Lemma for_up_inv {S} (P : Z → S → Prop) (body : Z → S → res S) lo hi s :
  lo ≤ hi → P lo s →
  (∀ k s, lo ≤ k < hi → P k s → returns (body k s) (P (k + 1))) →
  returns (for_up lo hi body s) (P hi).
Proof.
  intros Hle H0 Hstep. unfold for_up.
  replace hi with (lo + Z.of_nat (Z.to_nat (hi - lo)) * 1) at 2 by lia.
  apply for_loop_inv; [done|].
  intros k t Hk Ht. rewrite !Z.mul_1_r in *.
  replace (lo + (k + 1)) with (lo + k + 1) by lia. apply Hstep; [lia|done].
Qed.

(** A loop whose measure decreases terminates within its fuel. *)
Lemma while_inv {S} (P : S → Prop) (measure : S → Z) fuel cond (body : S → res S) s :
  P s → measure s ≤ Z.of_nat fuel →
  (∀ s, P s → cond s = true →
     0 < measure s ∧ returns (body s) (λ s', P s' ∧ measure s' < measure s)) →
  returns (while_loop fuel cond body s) (λ s', P s' ∧ cond s' = false).
Proof.
  revert s. induction fuel as [|fuel IH]; intros s HP Hm Hbody; simpl.
  - destruct (cond s) eqn:Hc; [|done]. destruct (Hbody s HP Hc). lia.
  - destruct (cond s) eqn:Hc; [|done]. destruct (Hbody s HP Hc) as [? Hb].
    apply returns_bind. eapply returns_mono; [exact Hb|]. intros s' [HP' Hm'].
    apply IH; [done|lia|done].
Qed.

Lemma for_up_empty {S} (body : Z → S → res S) lo hi s :
  hi ≤ lo → for_up lo hi body s = Done s.
Proof. intros. unfold for_up. by replace (Z.to_nat (hi - lo)) with O by lia. Qed.

Lemma for_up_step {S} (body : Z → S → res S) lo hi s :
  lo < hi → for_up lo hi body s = (s' ← body lo s; for_up (lo + 1) hi body s').
Proof.
  intros. unfold for_up.
  replace (Z.to_nat (hi - lo)) with (Datatypes.S (Z.to_nat (hi - (lo + 1)))) by lia.
  done.
Qed.

Lemma for_up_fold {S} (body : Z → S → res S) lo hi s :
  for_up lo hi body s = fold_res body (seqZ lo (hi - lo)) s.
Proof.
  unfold for_up, seqZ. remember (Z.to_nat (hi - lo)) as n. clear Heqn hi.
  revert lo s. induction n as [|n IH]; intros lo s; [done|].
  cbn [for_loop seq fmap list_fmap fold_res].
  replace (Z.of_nat 0 + lo) with lo by lia.
  destruct (body lo s); [|done..]. cbn. rewrite IH.
  f_equal. rewrite <-fmap_S_seq, <-list_fmap_compose. apply list_fmap_ext.
  intros. simpl. lia.
Qed.

Lemma fold_res_app {S A} (f : A → S → res S) l k s :
  fold_res f (l ++ k) s = (s' ← fold_res f l s; fold_res f k s').
Proof.
  revert s. induction l as [|x l IH]; intros s; [done|]. simpl.
  destruct (f x s); [|done..]. apply IH.
Qed.

Lemma for_up_split {S} (body : Z → S → res S) lo mid hi s :
  lo ≤ mid ≤ hi → for_up lo hi body s = (s' ← for_up lo mid body s; for_up mid hi body s').
Proof.
  intros. rewrite for_up_fold. replace (hi - lo) with ((mid - lo) + (hi - mid)) by lia.
  rewrite seqZ_app by lia. rewrite fold_res_app, for_up_fold.
  destruct (fold_res body (seqZ lo (mid - lo)) s); [|done..]. simpl.
  rewrite for_up_fold. by replace (lo + (mid - lo)) with mid by lia.
Qed.

Lemma for_up_ext {S} (f g : Z → S → res S) lo hi s :
  (∀ k s, lo ≤ k < hi → f k s = g k s) → for_up lo hi f s = for_up lo hi g s.
Proof.
  intros Hfg. rewrite !for_up_fold.
  assert (∀ k, k ∈ seqZ lo (hi - lo) → lo ≤ k < hi) as Hr.
  { intros k Hk. apply elem_of_seqZ in Hk. lia. }
  revert s Hr. generalize (seqZ lo (hi - lo)). intros l.
  induction l as [|k l IH]; intros s Hr; [done|]. simpl.
  rewrite Hfg by (apply Hr; left). destruct (g k s); [|done..].
  apply IH. intros. apply Hr. by right.
Qed.

(** A loop that consumes the cells of an array one by one. *)
Lemma for_up_cells {S A} (f : A → S → res S) (l r : list A) s :
  for_up 0 (zlen l) (λ i s, x ← load (l ++ r) i; f x s) s = fold_res f l s.
Proof.
  enough (∀ k pre s, l ++ r = pre ++ k ++ r →
    for_loop (length k) 1 (zlen pre) (λ i s, x ← load (l ++ r) i; f x s) s = fold_res f k s) as H.
  { unfold for_up. rewrite Z.sub_0_r. unfold zlen. rewrite Nat2Z.id. by apply (H l []). }
  induction k as [|x k IH]; intros pre t E; [done|]. cbn [for_loop length fold_res].
  rewrite E. change ((x :: k) ++ r) with (x :: k ++ r). rewrite load_app_mid.
  cbn [mbind res_bind]. destruct (f x t) as [t'| |]; [|done..].
  cbn [mbind res_bind]. change (x :: k ++ r) with ((x :: k) ++ r). rewrite <-E.
  replace (zlen pre + 1) with (zlen (pre ++ [x])) by (by rewrite zlen_app).
  apply IH. by rewrite E, <-app_assoc.
Qed.

Lemma zsum_cons x l : zsum (x :: l) = x + zsum l.
Proof. done. Qed.

Lemma zsum_perm l l' : l ≡ₚ l' → zsum l = zsum l'.
Proof. induction 1; rewrite ?zsum_cons in *; lia. Qed.

Lemma sext32_id z : 0 ≤ z ≤ INT_MAX → sext 32 z = z.
Proof.
  intros Hz. unfold sext. rewrite Z.mod_small by int_lia. rewrite (proj2 (Z.ltb_lt z _)) by int_lia. done.
Qed.

(** ** Filling and slicing arrays *)
Section fill.
Context {A : Type}.
Implicit Types (l : list A).

Lemma zlen_fmap {B} (f : B → A) (k : list B) : zlen (f <$> k) = zlen k.
Proof. unfold zlen. by rewrite length_fmap. Qed.

Lemma zlen_seqZ lo n : 0 ≤ n → zlen (seqZ lo n) = n.
Proof. intros. unfold zlen. rewrite length_seqZ. lia. Qed.

Lemma zget_fmap_seqZ (f : Z → A) lo n i :
  0 ≤ i < n → zget (f <$> seqZ lo n) i = Some (f (lo + i)).
Proof.
  intros. rewrite zget_of_lookup by lia. rewrite list_lookup_fmap.
  rewrite lookup_seqZ_lt by lia. simpl. f_equal. f_equal. lia.
Qed.

Lemma zget_zslice l i n j :
  0 ≤ i → 0 ≤ j < n → zget (zslice l i n) j = zget l (i + j).
Proof.
  intros. unfold zslice. rewrite !zget_of_lookup by lia.
  rewrite lookup_take_lt by lia. rewrite lookup_drop. f_equal. lia.
Qed.

Lemma zlen_zslice l i n :
  0 ≤ i → 0 ≤ n → i + n ≤ zlen l → zlen (zslice l i n) = n.
Proof. unfold zslice, zlen. intros. rewrite length_take, length_drop. lia. Qed.

(** A loop that stores [f i] in every cell [i] leaves exactly those values. *)
Lemma for_up_fill (f : Z → A) (b : list A) n body :
  zlen b = n →
  (∀ i b, 0 ≤ i < n → zlen b = n → body i b = Done (zupd b i (f i))) →
  for_up 0 n body b = Done (f <$> seqZ 0 n).
Proof.
  intros Hlen Hbody. pose proof (zlen_nonneg b).
  apply returns_eq.
  eapply returns_mono; [apply for_up_inv with
    (P := λ k b, zlen b = n ∧ ∀ j, 0 ≤ j < k → zget b j = Some (f j))|].
  - lia.
  - split; [done|]. intros; lia.
  - intros k b' Hk [Hl Hb]. rewrite Hbody by done. split.
    + by rewrite zlen_zupd.
    + intros j Hj. destruct (decide (j = k)) as [->|].
      * apply zget_zupd_eq. lia.
      * rewrite zget_zupd_ne by lia. apply Hb. lia.
  - intros b' [Hl Hb]. apply zlist_eq.
    + rewrite zlen_fmap, zlen_seqZ by lia. done.
    + intros i Hi. rewrite Hb by lia. rewrite zget_fmap_seqZ by lia. done.
Qed.
End fill.

(** ** Block writes *)

Lemma zwrite_nil {A} (dt : list A) off : zwrite dt off [] = dt.
Proof. unfold zwrite. cbn. by rewrite Z.add_0_r, take_drop. Qed.

Lemma zwrite_cons {A} (dt : list A) off x xs :
  0 ≤ off < zlen dt → zwrite (zupd dt off x) (off + 1) xs = zwrite dt off (x :: xs).
Proof.
  intros Hoff. unfold zwrite, zupd. rewrite zlen_cons.
  replace (Z.to_nat (off + 1)) with (S (Z.to_nat off)) by lia.
  rewrite (take_S_r _ _ x).
  2: { apply list_lookup_insert_eq. unfold zlen in Hoff. lia. }
  rewrite take_insert_ge by lia. rewrite <-app_assoc. simpl. do 3 f_equal.
  pose proof (zlen_nonneg xs). rewrite drop_insert_lt by lia. f_equal. lia.
Qed.

Lemma zslice_cons {A} (l : list A) i n x :
  0 ≤ i → 0 < n → zget l i = Some x → zslice l i n = x :: zslice l (i + 1) (n - 1).
Proof.
  intros Hi Hn Hx. unfold zslice. rewrite zget_of_lookup in Hx by lia.
  rewrite (drop_S _ x) by done.
  replace (Z.to_nat n) with (S (Z.to_nat (n - 1))) by lia. simpl.
  do 3 f_equal. lia.
Qed.

Lemma zlen_take {A} (l : list A) n : 0 ≤ n ≤ zlen l → zlen (take (Z.to_nat n) l) = n.
Proof. unfold zlen. rewrite length_take. lia. Qed.

Lemma zlen_drop {A} (l : list A) n : 0 ≤ n ≤ zlen l → zlen (drop (Z.to_nat n) l) = zlen l - n.
Proof. unfold zlen. rewrite length_drop. lia. Qed.

Lemma zlen_zwrite {A} (l : list A) off xs :
  0 ≤ off → off + zlen xs ≤ zlen l → zlen (zwrite l off xs) = zlen l.
Proof.
  intros. pose proof (zlen_nonneg xs). unfold zwrite. rewrite !zlen_app.
  rewrite zlen_take, zlen_drop by lia. lia.
Qed.

Lemma zslice_zwrite {A} (l : list A) off xs :
  0 ≤ off → off + zlen xs ≤ zlen l → zslice (zwrite l off xs) off (zlen xs) = xs.
Proof.
  intros. unfold zslice, zwrite. rewrite drop_app_length' by (rewrite length_take; unfold zlen in *; lia).
  apply take_app_length'. unfold zlen. lia.
Qed.

Lemma zget_take {A} (l : list A) n i :
  i < n → zget (take (Z.to_nat n) l) i = zget l i.
Proof.
  intros. unfold zget. case_if; [|done]. rewrite lookup_take_lt by lia. done.
Qed.

Lemma zget_drop {A} (l : list A) n i :
  0 ≤ n → 0 ≤ i → zget (drop (Z.to_nat n) l) i = zget l (n + i).
Proof.
  intros. rewrite !zget_of_lookup by lia. rewrite lookup_drop. f_equal. lia.
Qed.

Lemma zget_zwrite_in {A} (l : list A) off xs i :
  0 ≤ off → off + zlen xs ≤ zlen l → 0 ≤ i < zlen xs →
  zget (zwrite l off xs) (off + i) = zget xs i.
Proof.
  intros. unfold zwrite. rewrite zget_app_r by (rewrite zlen_take by lia; lia).
  rewrite zlen_take by lia. rewrite zget_app_l by lia. f_equal. lia.
Qed.

Lemma zget_zwrite_one {A} (l : list A) i x : 0 ≤ i < zlen l → zget (zwrite l i [x]) i = Some x.
Proof.
  intros. replace i with (i + 0) at 2 by lia. rewrite zget_zwrite_in; [done|..]; change (zlen [x]) with 1; lia.
Qed.

Lemma zget_zwrite_out {A} (l : list A) off xs i :
  0 ≤ off → off + zlen xs ≤ zlen l → i < off ∨ off + zlen xs ≤ i →
  zget (zwrite l off xs) i = zget l i.
Proof.
  intros. pose proof (zlen_nonneg xs). unfold zwrite. destruct (decide (i < off)).
  - rewrite zget_app_l by (rewrite zlen_take by lia; lia). apply zget_take. lia.
  - rewrite zget_app_r by (rewrite zlen_take by lia; lia). rewrite zlen_take by lia.
    rewrite zget_app_r by lia. rewrite zget_drop by lia. f_equal. lia.
Qed.

(** Two adjacent blocks. *)
Lemma zwrite_app {A} (l : list A) off xs ys :
  0 ≤ off → off + zlen xs + zlen ys ≤ zlen l →
  zwrite (zwrite l off xs) (off + zlen xs) ys = zwrite l off (xs ++ ys).
Proof.
  intros. pose proof (zlen_nonneg xs). pose proof (zlen_nonneg ys).
  apply zlist_eq; [rewrite !zlen_zwrite by (rewrite ?zlen_zwrite, ?zlen_app; lia); done|].
  intros i. rewrite !zlen_zwrite by (rewrite ?zlen_zwrite; lia). intros Hi.
  destruct (decide (i < off)).
  { rewrite !zget_zwrite_out by (rewrite ?zlen_zwrite, ?zlen_app; lia). done. }
  destruct (decide (off + zlen xs + zlen ys ≤ i)).
  { rewrite !zget_zwrite_out by (rewrite ?zlen_zwrite, ?zlen_app; lia). done. }
  replace i with (off + (i - off)) by lia.
  rewrite (zget_zwrite_in l off (xs ++ ys)) by (rewrite ?zlen_app; lia).
  destruct (decide (i < off + zlen xs)).
  - rewrite zget_zwrite_out, zget_zwrite_in, zget_app_l by (rewrite ?zlen_zwrite; lia). done.
  - replace (off + (i - off)) with (off + zlen xs + (i - off - zlen xs)) by lia.
    rewrite zget_zwrite_in, zget_app_r by (rewrite ?zlen_zwrite; lia). done.
Qed.

(** The next cell after a written block. *)
Lemma store_zwrite {A} (l : list A) off xs x :
  0 ≤ off → off + zlen xs < zlen l →
  store (zwrite l off xs) (off + zlen xs) x = Done (zwrite l off (xs ++ [x])).
Proof.
  intros Hoff Hlt. pose proof (zlen_nonneg xs).
  rewrite store_ok by (rewrite zlen_zwrite; lia). f_equal. apply zlist_eq.
  - rewrite zlen_zupd, !zlen_zwrite; rewrite ?zlen_app, ?zlen_cons; change (zlen []) with 0; lia.
  - intros i. rewrite zlen_zupd, zlen_zwrite by lia. intros Hi.
    assert (zlen (xs ++ [x]) = zlen xs + 1) as Hl by (by rewrite zlen_app).
    destruct (decide (i = off + zlen xs)) as [->|Hne].
    + rewrite zget_zupd_eq by (rewrite zlen_zwrite; lia).
      rewrite zget_zwrite_in by lia. by rewrite zget_app_mid.
    + rewrite zget_zupd_ne by lia. destruct (decide (off ≤ i < off + zlen xs)).
      * replace i with (off + (i - off)) by lia. rewrite !zget_zwrite_in by lia.
        by rewrite zget_app_l by lia.
      * by rewrite !zget_zwrite_out by lia.
Qed.

(** A cell inside a written block. *)
Lemma store_zwrite_in {A} (l : list A) off xs x y ys :
  0 ≤ off → off + zlen (xs ++ x :: ys) ≤ zlen l →
  store (zwrite l off (xs ++ x :: ys)) (off + zlen xs) y = Done (zwrite l off (xs ++ y :: ys)).
Proof.
  intros Hoff Hle. pose proof (zlen_nonneg xs). pose proof (zlen_nonneg ys).
  assert (∀ z, zlen (xs ++ z :: ys) = zlen xs + zlen ys + 1) as Hl.
  { intros z. rewrite zlen_app, zlen_cons. lia. }
  rewrite Hl in Hle. rewrite store_ok by (rewrite zlen_zwrite; rewrite ?Hl; lia).
  f_equal. apply zlist_eq.
  - rewrite zlen_zupd, !zlen_zwrite; rewrite ?Hl; lia.
  - intros i. rewrite zlen_zupd, zlen_zwrite by (rewrite ?Hl; lia). intros Hi.
    destruct (decide (i = off + zlen xs)) as [->|Hne].
    + rewrite zget_zupd_eq by (rewrite zlen_zwrite; rewrite ?Hl; lia).
      rewrite zget_zwrite_in by (rewrite ?Hl; lia). by rewrite zget_app_mid.
    + rewrite zget_zupd_ne by lia.
      destruct (decide (off ≤ i < off + zlen xs + zlen ys + 1)).
      * replace i with (off + (i - off)) by lia. rewrite !zget_zwrite_in by (rewrite ?Hl; lia).
        destruct (decide (i - off < zlen xs)); [by rewrite !zget_app_l by lia|].
        rewrite !zget_app_r by lia. change (?z :: ys) with ([z] ++ ys).
        rewrite (zget_app_r [x] ys), (zget_app_r [y] ys) by (rewrite zlen_cons, zlen_nil; lia). done.
      * by rewrite !zget_zwrite_out by (rewrite ?Hl; lia).
Qed.

(** The block itself. *)
Lemma take_zwrite {A} (l xs : list A) n :
  n = zlen xs → take (Z.to_nat n) (zwrite l 0 xs) = xs.
Proof.
  intros ->. unfold zwrite, zlen. rewrite Nat2Z.id.
  change (take (Z.to_nat 0) l) with (@nil A). by rewrite app_nil_l, take_app_length.
Qed.

Lemma zwrite_take {A} (l xs : list A) off n :
  0 ≤ n ≤ off → off ≤ zlen l → take (Z.to_nat n) (zwrite l off xs) = take (Z.to_nat n) l.
Proof.
  intros Hn Hoff. unfold zwrite. unfold zlen in Hoff.
  rewrite take_app_le by (rewrite length_take; lia). rewrite take_take. f_equal. lia.
Qed.

Lemma zwrite_zero_app {A} (l xs : list A) :
  zwrite l 0 xs = xs ++ drop (Z.to_nat (zlen xs)) l.
Proof. done. Qed.

(** ** Bits *)

Lemma testbit_above b k n : 0 ≤ k ≤ n → 0 ≤ b < 2 ^ k → Z.testbit b n = false.
Proof.
  intros Hk Hb. apply Z.testbit_false; [lia|]. rewrite Z.div_small; [done|].
  pose proof (Z.pow_le_mono_r 2 k n). lia.
Qed.

Lemma lor_shiftl_add a b k :
  0 ≤ k → 0 ≤ b < 2 ^ k → Z.lor (Z.shiftl a k) b = a * 2 ^ k + b.
Proof.
  intros Hk Hb.
  assert (Z.land (Z.shiftl a k) b = 0) as H0.
  { apply Z.bits_inj'. intros n Hn. rewrite Z.land_spec, Z.bits_0.
    destruct (decide (n < k)).
    - by rewrite Z.shiftl_spec_low.
    - rewrite (testbit_above b k n) by lia. apply andb_false_r. }
  rewrite <-(Z.lxor_lor _ _ H0), <-Z.add_nocarry_lxor by done.
  by rewrite Z.shiftl_mul_pow2.
Qed.

(** Three bytes packed into an integer. *)
Lemma pack3 b0 b1 b2 :
  0 ≤ b1 < 256 → 0 ≤ b2 < 256 →
  Z.lor (Z.lor (Z.shiftl b0 16) (Z.shiftl b1 8)) b2 = b0 * 65536 + b1 * 256 + b2.
Proof.
  intros H1 H2. change 16 with (8 + 8). rewrite <-Z.shiftl_shiftl, <-Z.shiftl_lor by lia.
  rewrite !lor_shiftl_add by lia. lia.
Qed.

Lemma land_ones_mod a k : 0 ≤ k → Z.land a (2 ^ k - 1) = a mod 2 ^ k.
Proof. intros. rewrite <-Z.land_ones by lia. f_equal. rewrite Z.ones_equiv. lia. Qed.

(** ** Comparison functions

    What the containers expect of the [CompareFunc] they are given: its sign is
    that of a total preorder. *)
Class TotalCompare (cmp : Z → Z → Z) : Prop := {
  compare_refl x : cmp x x = 0;
  compare_swap x y : cmp x y < 0 ↔ 0 < cmp y x;
  compare_trans x y z : cmp x y ≤ 0 → cmp y z ≤ 0 → cmp x z ≤ 0 }.

Section compare.
Context (cmp : Z → Z → Z) `{!TotalCompare cmp}.

Lemma compare_eq_sym x y : cmp x y = 0 ↔ cmp y x = 0.
Proof using All.
  pose proof (compare_swap x y). pose proof (compare_swap y x). split; intros; lia.
Qed.

Lemma compare_le_flip x y : cmp x y ≤ 0 ↔ 0 ≤ cmp y x.
Proof using All.
  pose proof (compare_swap x y). pose proof (compare_swap y x). split; intros; lia.
Qed.

Lemma compare_lt_le x y z : cmp x y < 0 → cmp y z ≤ 0 → cmp x z < 0.
Proof using All.
  intros Hxy Hyz. destruct (Z_lt_dec (cmp x z) 0) as [|Hn]; [done|]. exfalso.
  assert (cmp z x ≤ 0) as Hzx by (apply compare_le_flip; lia).
  pose proof (compare_trans _ _ _ Hyz Hzx) as Hyx. apply compare_swap in Hxy. lia.
Qed.

Lemma compare_le_lt x y z : cmp x y ≤ 0 → cmp y z < 0 → cmp x z < 0.
Proof using All.
  intros Hxy Hyz. destruct (Z_lt_dec (cmp x z) 0) as [|Hn]; [done|]. exfalso.
  assert (cmp z x ≤ 0) as Hzx by (apply compare_le_flip; lia).
  pose proof (compare_trans _ _ _ Hzx Hxy) as Hzy. apply compare_swap in Hyz. lia.
Qed.

Lemma compare_eq_l x y z : cmp x y = 0 → (cmp x z < 0 ↔ cmp y z < 0) ∧ (0 < cmp x z ↔ 0 < cmp y z).
Proof using All.
  intros E. pose proof (proj1 (compare_eq_sym x y) E) as E'.
  assert (∀ a b, cmp a b = 0 → cmp a z < 0 → cmp b z < 0) as H1.
  { intros a b Hab Haz. apply (compare_le_lt b a); [|done]. apply compare_eq_sym in Hab. lia. }
  assert (∀ a b, cmp a b = 0 → 0 < cmp a z → 0 < cmp b z) as H2.
  { intros a b Hab Haz. apply compare_swap in Haz. apply compare_swap.
    apply (compare_lt_le z a); [done|lia]. }
  split; split; eauto.
Qed.
End compare.

(** Integers compared by subtraction. *)
#[export] Instance Zsub_compare : TotalCompare Z.sub.
Proof. split; intros; lia. Qed.

(** ** Hints shared by the components *)
Create HintDb cmem.
Create Rewrite HintDb cmem.
#[export] Hint Rewrite @load_app_mid @store_app_mid @done_bind : cmem.
#[export] Hint Rewrite @zlen_zupd @zlen_app @zlen_cons @zlen_nil @zlen_replicate : cmem.
#[export] Hint Resolve load_ok store_ok cint_ok : cmem.
