(* ===== verification/CDouble.v ===== *)
(** The fragment of C's [double] arithmetic the recogniser and the hash table use: IEEE-754
    binary64 with round-to-nearest-even, on the Standard Library's executable
    [spec_float] (no primitive floats, hence no axioms), conversion from [int]
    and the truncating conversion back to [int]. *)
From Corelib Require Import SpecFloat.
From S2P Require Import Prelude.

Definition dprec : Z := 53.
Definition demax : Z := 1024.

Definition double_of_int (z : Z) : spec_float := binary_normalize dprec demax z 0 false.
Definition dmul : spec_float → spec_float → spec_float := SFmul dprec demax.
Definition ddiv : spec_float → spec_float → spec_float := SFdiv dprec demax.
Definition dadd : spec_float → spec_float → spec_float := SFadd dprec demax.

(** [x <= y], false for a NaN. *)
Definition dle (x y : spec_float) : bool := SFleb x y.

(** [(int) d]: truncation toward zero, undefined when the value does not fit. *)
Definition int_of_double (d : spec_float) : res Z :=
  match d with
  | S754_zero _ => Done 0
  | S754_finite s m e =>
      let v := Z.shiftl (Z.pos m) e in
      cint (if s then - v else v)
  | _ => Undef
  end.

(** A decimal literal: the double nearest to it, given as m * 2^e. *)
Definition dlit (m : positive) (e : Z) : spec_float := S754_finite false m e.
Definition lit_0_95 : spec_float := dlit 8556839292003942 (-53).
Definition lit_0_299 : spec_float := dlit 5386305154335113 (-54).
Definition lit_0_587 : spec_float := dlit 5287225962532962 (-53).
Definition lit_0_114 : spec_float := dlit 8214565720323785 (-56).
