(* ===== verification/CMemory.v ===== *)
(** The C heap as the string library sees it: byte blocks reached through
    pointers, allocation that may fail, and the library's string headers.
    Computations that read and write it are a state monad over [res]. *)
From S2P Require Import Prelude.

(** A pointer is a block and an offset into it; NULL is [None] where a pointer
    may be NULL. *)
Abbreviation ptr := (Z * Z)%type.

Section heap.
Context {H : Type}.

Record heap := Heap {
  structs : gmap Z H;           (** objects with fields, by address *)
  blocks : gmap Z (list Z);     (** byte blocks, by address *)
  next : Z;                     (** addresses from here on are free *)
  outcomes : list bool;         (** of the allocations to come; then success *)
  junk : Z;                     (** value of the bytes of a fresh block *)
  oom : bool }.                 (** ghost: an allocation has failed; nothing reads it *)

Definition M (A : Type) : Type := heap → res (A * heap).
End heap.
Arguments heap H : clear implicits.
Arguments M H A : clear implicits.

(** A heap in which no allocation has failed yet. *)
Abbreviation mkHeap s b n os j := (Heap s b n os j false).

#[global] Instance M_ret H : MRet (M H) := λ A a h, Done (a, h).
#[global] Instance M_bind H : MBind (M H) := λ A B f m h, '(a, h) ← m h; f a h.

Section operations.
Context {H : Type}.
Implicit Types (h : heap H) (p : ptr).

Definition undef {A} : M H A := λ _, Undef.
Definition lift {A} (m : res A) : M H A := λ h, a ← m; mret (a, h).

Definition deref (a : Z) : M H H := λ h,
  match structs h !! a with Some s => mret (s, h) | None => Undef end.

Definition with_structs h (s : gmap Z H) : heap H :=
  Heap s (blocks h) (next h) (outcomes h) (junk h) (oom h).
Definition with_blocks h (b : gmap Z (list Z)) : heap H :=
  Heap (structs h) b (next h) (outcomes h) (junk h) (oom h).

Definition put (a : Z) (s : H) : M H unit := λ h,
  match structs h !! a with
  | Some _ => Done (tt, with_structs h (<[a := s]> (structs h)))
  | None => Undef
  end.

(** Whether the next allocation succeeds. *)
Definition outcome : M H bool := λ h,
  match outcomes h with
  | [] => Done (true, h)
  | o :: os => Done (o, Heap (structs h) (blocks h) (next h) os (junk h) (oom h || negb o))
  end.

Definition malloc (n : Z) : M H (option ptr) := λ h,
  '(ok, h) ← outcome h;
  if (ok : bool) then
    Done (Some (next h, 0), Heap (structs h) (<[next h := replicate (Z.to_nat n) (junk h)]> (blocks h))
      (next h + 1) (outcomes h) (junk h) (oom h))
  else Done (None, h).

(** A header filled with [s]. *)
Definition malloc_struct (s : H) : M H Z := λ h,
  '(ok, h) ← outcome h;
  if (ok : bool) then
    Done (next h, Heap (<[next h := s]> (structs h)) (blocks h) (next h + 1) (outcomes h) (junk h) (oom h))
  else Done (0, h).

Definition free (p : ptr) : M H unit := λ h,
  match blocks h !! p.1 with
  | Some _ => if p.2 =? 0 then Done (tt, with_blocks h (delete p.1 (blocks h))) else Undef
  | None => Undef
  end.

Definition free_struct (a : Z) : M H unit := λ h,
  match structs h !! a with
  | Some _ => Done (tt, with_structs h (delete a (structs h)))
  | None => Undef
  end.

(** The first bytes are kept; the old block is gone. *)
Definition realloc (p : ptr) (n : Z) : M H (option ptr) := λ h,
  '(ok, h) ← outcome h;
  match blocks h !! p.1 with
  | Some buf =>
      if negb (p.2 =? 0) then Undef
      else if (ok : bool) then
        let new := take (Z.to_nat n) buf ++ replicate (Z.to_nat (n - zlen buf)) (junk h) in
        Done (Some (next h, 0), Heap (structs h) (<[next h := new]> (delete p.1 (blocks h)))
          (next h + 1) (outcomes h) (junk h) (oom h))
      else Done (None, h)
  | None => Undef
  end.

Definition load_bytes (p : ptr) (n : Z) : M H (list Z) := λ h,
  match blocks h !! p.1 with
  | Some buf =>
      if (0 <=? p.2) && (0 <=? n) && (p.2 + n <=? zlen buf) then Done (zslice buf p.2 n, h) else Undef
  | None => Undef
  end.

Definition store_bytes (p : ptr) (xs : list Z) : M H unit := λ h,
  match blocks h !! p.1 with
  | Some buf =>
      if (0 <=? p.2) && (p.2 + zlen xs <=? zlen buf) then
        Done (tt, with_blocks h (<[p.1 := zwrite buf p.2 xs]> (blocks h)))
      else Undef
  | None => Undef
  end.

Definition read_byte (p : ptr) : M H Z := λ h,
  match blocks h !! p.1 with
  | Some buf => x ← load buf p.2; mret (x, h)
  | None => Undef
  end.

Definition write_byte (p : ptr) (x : Z) : M H unit := store_bytes p [u8 x].

Definition padd (p : ptr) (n : Z) : ptr := (p.1, p.2 + n).

Definition memmove (d s : ptr) (n : Z) : M H unit :=
  if n =? 0 then mret () else xs ← load_bytes s n; store_bytes d xs.

(** Copying between overlapping regions is undefined. *)
Definition memcpy (d s : ptr) (n : Z) : M H unit :=
  if (d.1 =? s.1) && (d.2 <? s.2 + n) && (s.2 <? d.2 + n) then undef else memmove d s n.

Definition memset (p : ptr) (c n : Z) : M H unit :=
  if n =? 0 then mret () else store_bytes p (replicate (Z.to_nat n) (u8 c)).

(** Whether [p] points into the [n] bytes from [q] on; separate blocks do not
    overlap. *)
Definition points_into (p q : ptr) (n : Z) : bool :=
  (p.1 =? q.1) && (0 <=? p.2 - q.2) && (p.2 - q.2 <? n).
End operations.

(** * Well-formed heaps *)

Record heap_ok {H} (h : heap H) : Prop := {
  ok_next : 0 < next h;
  ok_structs a : next h ≤ a → structs h !! a = None;
  ok_blocks b : next h ≤ b → blocks h !! b = None;
  ok_null : structs h !! 0 = None }.

Lemma heap_ok_smaller {H} (h : heap H) s : heap_ok h → dom s ⊆ dom (structs h) → heap_ok (with_structs h s).
Proof.
  intros [Hn Hs Hb H0] E. assert (∀ a, structs h !! a = None → s !! a = None) as HE.
  { intros a Ha. apply not_elem_of_dom in Ha. apply not_elem_of_dom. intros Hd. by apply Ha, E. }
  split; cbn; auto.
Qed.

(** Same objects and bytes; allocations may have been attempted. *)
Definition same_memory {H} (h h' : heap H) : Prop :=
  structs h' = structs h ∧ blocks h' = blocks h ∧ heap_ok h'.

(** The same memory, an allocation having failed. *)
Definition out_of_memory {H} (h h' : heap H) : Prop := same_memory h h' ∧ oom h' = true.

(** * Rules *)

Section rules.
Context {H : Type}.
Implicit Types (h : heap H).

Lemma M_bind_eq {A B} (m : M H A) (f : A → M H B) h :
  (m ≫= f) h = ('(a, h) ← m h; f a h).
Proof. done. Qed.

Lemma M_returns_bind {A B} (m : M H A) (f : A → M H B) h (Q : B * heap H → Prop) :
  returns (m h) (λ '(a, h'), returns (f a h') Q) → returns ((m ≫= f) h) Q.
Proof.
  unfold mbind, M_bind. intros Hm. apply returns_bind. eapply returns_mono; [exact Hm|].
  by intros [a h'].
Qed.

(** The same from what the first part does. *)
Lemma M_returns_step {A B} (m : M H A) (f : A → M H B) h P (Q : B * heap H → Prop) :
  returns (m h) P → (∀ a h', P (a, h') → returns (f a h') Q) → returns ((m ≫= f) h) Q.
Proof. intros Hm Hf. apply M_returns_bind. eapply returns_mono; [exact Hm|]. intros [a h']. apply Hf. Qed.

Lemma M_bind_ret_r {A} (m : M H A) h : (m ≫= mret) h = m h.
Proof. unfold mbind, M_bind. by destruct (m h) as [[]| |]. Qed.

Lemma deref_ok a s h : structs h !! a = Some s → deref a h = Done (s, h).
Proof. unfold deref. by intros ->. Qed.

Lemma put_ok a s s' h :
  structs h !! a = Some s → put a s' h = Done (tt, with_structs h (<[a := s']> (structs h))).
Proof. unfold put. by intros ->. Qed.

Lemma load_bytes_ok p n buf h :
  blocks h !! p.1 = Some buf → 0 ≤ p.2 → 0 ≤ n → p.2 + n ≤ zlen buf →
  load_bytes p n h = Done (zslice buf p.2 n, h).
Proof. unfold load_bytes. intros -> ???. case_if; [done|]. lia_bool. Qed.

Lemma store_bytes_ok p xs buf h :
  blocks h !! p.1 = Some buf → 0 ≤ p.2 → p.2 + zlen xs ≤ zlen buf →
  store_bytes p xs h = Done (tt, with_blocks h (<[p.1 := zwrite buf p.2 xs]> (blocks h))).
Proof. unfold store_bytes. intros -> ??. case_if; [done|]. lia_bool. Qed.

Lemma outcome_same h :
  heap_ok h → ∃ o os, outcome h = Done (o, Heap (structs h) (blocks h) (next h) os (junk h) (oom h || negb o)).
Proof.
  intros _. unfold outcome. destruct h as [s b n os j f]. cbn.
  destruct os as [|o os]; [exists true, []; by rewrite orb_false_r|by exists o, os].
Qed.
End rules.

(** ** Rules for sequences: what an operation does, then the rest *)

Section steps.
Context {H A : Type}.
Implicit Types (h : heap H) (Q : A * heap H → Prop).

Lemma step_ret {B} (x : B) (k : B → M H A) h Q :
  returns (k x h) Q → returns ((mret x ≫= k) h) Q.
Proof. done. Qed.

Lemma step_lift {B} (m : res B) x (k : B → M H A) h Q :
  m = Done x → returns (k x h) Q → returns ((lift m ≫= k) h) Q.
Proof. by intros ->. Qed.

Lemma step_assoc {B C} (m : M H B) (f : B → M H C) (k : C → M H A) h Q :
  returns ((m ≫= λ x, f x ≫= k) h) Q → returns (((m ≫= f) ≫= k) h) Q.
Proof.
  unfold mbind, M_bind. destruct (m h) as [[x h']| |]; [|done..]. done.
Qed.

Lemma step_deref a s (k : H → M H A) h Q :
  structs h !! a = Some s → returns (k s h) Q → returns ((deref a ≫= k) h) Q.
Proof. intros E. unfold mbind, M_bind. by rewrite (deref_ok a s). Qed.

Lemma step_malloc n (k : option ptr → M H A) h Q :
  heap_ok h →
  (∀ h', out_of_memory h h' → returns (k None h') Q) →
  (∀ h', structs h' = structs h →
     blocks h' = <[next h := replicate (Z.to_nat n) (junk h)]> (blocks h) →
     heap_ok h' → next h ≤ next h' → returns (k (Some (next h, 0)) h') Q) →
  returns ((malloc n ≫= k) h) Q.
Proof.
  intros [Hn Hs Hb H0] Hfail Hok. unfold mbind at 1, M_bind at 1, malloc.
  destruct (outcome_same h) as (o & os & E); [done|].
  rewrite E. cbn [mbind res_bind]. destruct o; cbn [returns structs blocks next outcomes junk].
  - apply Hok; cbn; [done|done| |lia]. split; cbn; [lia|intros; apply Hs; lia| |done].
    intros b Hlt. rewrite lookup_insert_ne by lia. apply Hb. lia.
  - apply Hfail. cbn [negb]. rewrite orb_true_r. repeat split; done.
Qed.

Lemma step_malloc_struct s (k : Z → M H A) h Q :
  heap_ok h →
  (∀ h', out_of_memory h h' → returns (k 0 h') Q) →
  (∀ h', structs h' = <[next h := s]> (structs h) → blocks h' = blocks h →
     heap_ok h' → next h < next h' → returns (k (next h) h') Q) →
  returns ((malloc_struct s ≫= k) h) Q.
Proof.
  intros [Hn Hs Hb H0] Hfail Hok. unfold mbind at 1, M_bind at 1, malloc_struct.
  destruct (outcome_same h) as (o & os & E); [done|].
  rewrite E. cbn [mbind res_bind]. destruct o; cbn [returns structs blocks next outcomes junk].
  - apply Hok; cbn; [done|done| |lia]. split; cbn; [lia| |intros; apply Hb; lia|].
    + intros a Hlt. rewrite lookup_insert_ne by lia. apply Hs. lia.
    + rewrite lookup_insert_ne by lia. done.
  - apply Hfail. cbn [negb]. rewrite orb_true_r. repeat split; done.
Qed.

Lemma step_realloc b n buf (k : option ptr → M H A) h Q :
  heap_ok h → blocks h !! b = Some buf →
  (∀ h', out_of_memory h h' → returns (k None h') Q) →
  (∀ h', structs h' = structs h →
     blocks h' = <[next h := take (Z.to_nat n) buf ++ replicate (Z.to_nat (n - zlen buf)) (junk h)]>
       (delete b (blocks h)) →
     heap_ok h' → next h ≤ next h' → returns (k (Some (next h, 0)) h') Q) →
  returns ((realloc (b, 0) n ≫= k) h) Q.
Proof.
  intros [Hn Hs Hb H0] Hbuf Hfail Hok. unfold mbind at 1, M_bind at 1, realloc.
  destruct (outcome_same h) as (o & os & E); [done|].
  rewrite E. cbn [mbind res_bind fst snd structs blocks next outcomes junk]. rewrite Hbuf.
  cbn [Z.eqb negb]. destruct o; cbn [returns].
  - apply Hok; cbn; [done|done| |lia]. split; cbn; [lia|intros; apply Hs; lia| |done].
    intros c Hlt. rewrite lookup_insert_ne, lookup_delete_ne; [apply Hb; lia| |lia].
    intros ->. rewrite Hb in Hbuf by lia. done.
  - apply Hfail. cbn [negb]. rewrite orb_true_r. repeat split; done.
Qed.
End steps.

Lemma same_memory_refl {H} (h : heap H) : heap_ok h → same_memory h h.
Proof. intros. by split_and!. Qed.

Lemma same_memory_trans {H} (h1 h2 h3 : heap H) :
  same_memory h1 h2 → same_memory h2 h3 → same_memory h1 h3.
Proof. intros (E1 & E2 & _) (E3 & E4 & ?). split_and!; congruence. Qed.

Lemma oom_same {H} (h1 h2 h3 : heap H) : same_memory h1 h2 → out_of_memory h2 h3 → out_of_memory h1 h3.
Proof. intros Hs [Ht Ho]. split; [by eapply same_memory_trans|done]. Qed.

Lemma oom_trans {H} (h1 h2 h3 : heap H) : out_of_memory h1 h2 → out_of_memory h2 h3 → out_of_memory h1 h3.
Proof. intros [Hs _]. by apply oom_same. Qed.

Lemma oom_memory {H} (h h' : heap H) : out_of_memory h h' → same_memory h h'.
Proof. by intros []. Qed.

Lemma heap_ok_fresh {H} (h : heap H) : heap_ok h → structs h !! next h = None ∧ blocks h !! next h = None.
Proof. intros OK. split; [apply ok_structs|apply ok_blocks]; done || lia. Qed.

Section moves.
Context {H A : Type}.
Implicit Types (h : heap H) (Q : A * heap H → Prop).

Lemma with_blocks_id h b : blocks h = b → with_blocks h b = h.
Proof. intros <-. by destruct h. Qed.

Lemma heap_ok_with_blocks h b buf : heap_ok h → is_Some (blocks h !! b) → heap_ok (with_blocks h (<[b := buf]> (blocks h))).
Proof.
  intros [Hn Hs Hb H0] [x Hx]. split; cbn; [done..| |done]. intros b' Hlt.
  rewrite lookup_insert_ne; [by apply Hb|]. intros ->. rewrite Hb in Hx by done. done.
Qed.

Lemma heap_ok_delete_block h b : heap_ok h → heap_ok (with_blocks h (delete b (blocks h))).
Proof.
  intros [Hn Hs Hb H0]. split; cbn; [done..| |done]. intros b' Hlt. rewrite lookup_delete_None. right. by apply Hb.
Qed.

Lemma step_free p buf (k : unit → M H A) h Q :
  blocks h !! p = Some buf → returns (k tt (with_blocks h (delete p (blocks h)))) Q →
  returns ((free (p, 0) ≫= k) h) Q.
Proof. intros E. unfold mbind at 1, M_bind at 1, free. cbn [fst snd]. by rewrite E. Qed.

(** Copying from one block to another. *)
Lemma step_memcpy d s n bd bs (k : unit → M H A) h Q :
  blocks h !! d.1 = Some bd → blocks h !! s.1 = Some bs → d.1 ≠ s.1 →
  0 ≤ n → 0 ≤ d.2 → d.2 + n ≤ zlen bd → 0 ≤ s.2 → s.2 + n ≤ zlen bs →
  returns (k tt (with_blocks h (<[d.1 := zwrite bd d.2 (zslice bs s.2 n)]> (blocks h)))) Q →
  returns ((memcpy d s n ≫= k) h) Q.
Proof.
  intros Hd Hs Hne Hn ? ? ? ? HQ. unfold memcpy. case_if; [lia_bool|]. unfold memmove. case_if.
  - rewrite (with_blocks_id h) in HQ; [done|]. subst n. rewrite insert_id; [done|].
    rewrite Hd. f_equal. unfold zslice. change (Z.to_nat 0) with O. by rewrite take_0, zwrite_nil.
  - assert (zlen (zslice bs s.2 n) = n) as Hl by (rewrite zlen_zslice; lia).
    rewrite M_bind_eq, M_bind_eq, (load_bytes_ok _ _ bs) by done.
    cbn [mbind res_bind]. rewrite (store_bytes_ok _ _ bd) by (done || lia). done.
Qed.
End moves.

(** ** Texts in memory *)

Section texts.
Context {H : Type}.
Implicit Types (h : heap H) (s : ptr) (c : list Z).

(** The bytes [c] at [s]. *)
Definition text h s c : Prop :=
  ∃ b, blocks h !! s.1 = Some b ∧ 0 ≤ s.2 ∧ s.2 + zlen c ≤ zlen b ∧ zslice b s.2 (zlen c) = c.

Lemma text_char h s c i x :
  text h s c → zget c i = Some x → ∃ b, blocks h !! s.1 = Some b ∧ load b (s.2 + i) = Done x.
Proof.
  intros (b & Hb & Hs & Hl & E) Hi. exists b. split; [done|]. apply load_ok.
  pose proof (zget_Some_range _ _ _ Hi). rewrite <-E in Hi. rewrite zget_zslice in Hi by lia. done.
Qed.

Lemma step_read_char {A} h s c i x (k : Z → M H A) Q :
  text h s c → zget c i = Some x → returns (k x h) Q → returns ((read_byte (padd s i) ≫= k) h) Q.
Proof.
  intros HT Hi HQ. destruct (text_char h s c i x HT Hi) as (b & Hb & Hx).
  rewrite M_bind_eq. unfold read_byte, padd. cbn [fst snd]. rewrite Hb, Hx. done.
Qed.

Lemma text_tail h s c x : text h s (x :: c) → text h (padd s 1) c.
Proof.
  intros (b & Hb & Hs & Hl & E). pose proof (zlen_nonneg c). rewrite zlen_cons in *. exists b. cbn. split_and!; [done|lia|lia|].
  assert (drop 1 (zslice b s.2 (zlen c + 1)) = c) as Hd by by rewrite E.
  unfold zslice in *. rewrite <-Hd at 2. rewrite skipn_firstn_comm, drop_drop. f_equal; [lia|f_equal; lia].
Qed.

Lemma text_head h s c x : text h s (x :: c) → ∃ b, blocks h !! s.1 = Some b ∧ load b s.2 = Done x.
Proof. intros HT. destruct (text_char h s _ 0 x HT eq_refl) as (b & Hb & Hx). exists b. by rewrite Z.add_0_r in Hx. Qed.

Lemma text_drop h s c1 c2 : text h s (c1 ++ c2) → text h (padd s (zlen c1)) c2.
Proof.
  revert s. induction c1 as [|x c1 IH]; intros s HT.
  - unfold padd. rewrite Z.add_0_r. by destruct s.
  - apply text_tail, IH in HT. unfold padd in *. cbn [fst snd] in *. rewrite zlen_cons.
    by replace (s.2 + (zlen c1 + 1)) with (s.2 + 1 + zlen c1) by lia.
Qed.
End texts.

(** ** The flag tells whether an allocation failed *)

(** A computation uses up the first outcomes, and raises the flag exactly when
    one of them was a failure. *)
Class Flagged {H A} (m : M H A) : Prop := flagged h a h' :
  m h = Done (a, h') → ∃ used, outcomes h = used ++ outcomes h' ∧ oom h' = oom h || existsb negb used.

Section flags.
Context {H : Type}.
Implicit Types (h : heap H).

Lemma flagged_silent {A} (m : M H A) :
  (∀ h a h', m h = Done (a, h') → outcomes h' = outcomes h ∧ oom h' = oom h) → Flagged m.
Proof. intros Hm h a h' E. exists []. destruct (Hm _ _ _ E) as [-> ->]. by rewrite orb_false_r. Qed.

#[global] Instance flagged_ret {A} (x : A) : Flagged (mret x : M H A).
Proof. apply flagged_silent. intros h a h' E. by injection E as <- <-. Qed.

#[global] Instance flagged_bind {A B} (m : M H A) (f : A → M H B) :
  Flagged m → (∀ x, Flagged (f x)) → Flagged (m ≫= f).
Proof.
  intros Hm Hf h b h' E. rewrite M_bind_eq in E. destruct (m h) as [[x h1]| |] eqn:Em; [|done..].
  cbn [mbind res_bind] in E. destruct (Hm _ _ _ Em) as (u1 & E1 & F1), (Hf x _ _ _ E) as (u2 & E2 & F2).
  exists (u1 ++ u2). split; [by rewrite E1, E2, app_assoc|]. by rewrite F2, F1, existsb_app, orb_assoc.
Qed.

#[global] Instance flagged_lift {A} (m : res A) : Flagged (lift m : M H A).
Proof. apply flagged_silent. intros h a h' E. unfold lift in E. destruct m; [|done..]. by injection E as <- <-. Qed.

#[global] Instance flagged_undef {A} : Flagged (undef : M H A).
Proof. by apply flagged_silent. Qed.

#[global] Instance flagged_deref a : Flagged (deref a : M H H).
Proof. apply flagged_silent. intros h s h' E. unfold deref in E. destruct (structs h !! a); [|done]. by injection E as <- <-. Qed.

#[global] Instance flagged_put a (s : H) : Flagged (put a s).
Proof. apply flagged_silent. intros h x h' E. unfold put in E. destruct (structs h !! a); [|done]. by injection E as _ <-. Qed.

#[global] Instance flagged_outcome : Flagged (outcome : M H bool).
Proof.
  intros h o h' E. unfold outcome in E. destruct (outcomes h) as [|x os] eqn:Eo; injection E as <- <-.
  - exists []. by rewrite Eo, orb_false_r.
  - exists [x]. cbn. by rewrite orb_false_r.
Qed.

Lemma flagged_after {A} (f : bool → heap H → res (A * heap H)) :
  (∀ o, Flagged (f o)) → Flagged (λ h, '(o, h) ← outcome h; f o h).
Proof. intros Hf. apply (flagged_bind (outcome : M H bool) f); [apply _|done]. Qed.

#[global] Instance flagged_malloc n : Flagged (malloc n : M H (option ptr)).
Proof.
  apply flagged_after. intros o. apply flagged_silent. intros h x h' E. destruct o; by injection E as _ <-.
Qed.

#[global] Instance flagged_malloc_struct s : Flagged (malloc_struct s : M H Z).
Proof.
  apply flagged_after. intros o. apply flagged_silent. intros h x h' E. destruct o; by injection E as _ <-.
Qed.

#[global] Instance flagged_realloc p n : Flagged (realloc p n : M H (option ptr)).
Proof.
  apply flagged_after. intros o. apply flagged_silent. intros h x h' E.
  destruct (blocks h !! p.1); [|done]. destruct (negb (p.2 =? 0)); [done|]. destruct o; by injection E as _ <-.
Qed.

#[global] Instance flagged_free p : Flagged (free p : M H unit).
Proof.
  apply flagged_silent. intros h x h' E. unfold free in E. destruct (blocks h !! p.1); [|done].
  case_match; [|done]. by injection E as _ <-.
Qed.

#[global] Instance flagged_free_struct a : Flagged (free_struct a : M H unit).
Proof.
  apply flagged_silent. intros h x h' E. unfold free_struct in E. destruct (structs h !! a); [|done]. by injection E as _ <-.
Qed.

#[global] Instance flagged_load_bytes p n : Flagged (load_bytes p n : M H (list Z)).
Proof.
  apply flagged_silent. intros h x h' E. unfold load_bytes in E. destruct (blocks h !! p.1); [|done].
  case_match; [|done]. by injection E as _ <-.
Qed.

#[global] Instance flagged_store_bytes p xs : Flagged (store_bytes p xs : M H unit).
Proof.
  apply flagged_silent. intros h x h' E. unfold store_bytes in E. destruct (blocks h !! p.1); [|done].
  case_match; [|done]. by injection E as _ <-.
Qed.

#[global] Instance flagged_read_byte p : Flagged (read_byte p : M H Z).
Proof.
  apply flagged_silent. intros h x h' E. unfold read_byte in E. destruct (blocks h !! p.1); [|done].
  destruct (load l p.2); [|done..]. by injection E as _ <-.
Qed.
End flags.

(** Case analysis on the conditions of the code. *)
Ltac flagged_cases := repeat first
  [ progress cbv zeta
  | simple apply flagged_bind; [|intros ?]
  | match goal with |- Flagged (match ?x with _ => _ end) => destruct x end
  | apply _ ].

#[global] Instance flagged_memmove {H} d s n : Flagged (memmove d s n : M H unit).
Proof. unfold memmove. flagged_cases. Qed.

#[global] Instance flagged_memcpy {H} d s n : Flagged (memcpy d s n : M H unit).
Proof. unfold memcpy. flagged_cases. Qed.

#[global] Instance flagged_memset {H} p c n : Flagged (memset p c n : M H unit).
Proof. unfold memset. flagged_cases. Qed.

#[global] Instance flagged_write_byte {H} p x : Flagged (write_byte p x : M H unit).
Proof. unfold write_byte. flagged_cases. Qed.

(** A flag that is up stays up. *)
Lemma flagged_returns {H A} (m : M H A) h (Q : A * heap H → Prop) :
  Flagged m → returns (m h) Q → returns (m h) (λ r, Q r ∧ (oom h = true → oom r.2 = true)).
Proof.
  intros Hm HQ. destruct (m h) as [[a h']| |] eqn:E; [|done..]. split; [done|]. cbn. intros Ho.
  destruct (Hm _ _ _ E) as (u & _ & ->). by rewrite Ho.
Qed.

(** While memory lasts the flag stays down. *)
Lemma flagged_lucky {H A} (m : M H A) h a h' :
  Flagged m → m h = Done (a, h') → Forall (λ o, o = true) (outcomes h) → oom h = false →
  oom h' = false ∧ Forall (λ o, o = true) (outcomes h').
Proof.
  intros Hm E Hf Ho. destruct (Hm _ _ _ E) as (u & Eu & ->). rewrite Eu in Hf. apply Forall_app in Hf as [Hu Hr].
  split; [|done]. rewrite Ho. clear Eu. induction Hu as [|x u -> Hu IH]; [done|]. by apply IH.
Qed.
