(* ===== verification/PicUtils.v ===== *)
(** pic-recognizer/utils.c: the points, ranges and contexts of the answer-sheet
    recogniser, the colour helpers, and the row-by-row traversal of the
    coordinate array with a callback. *)
From S2P Require Import Prelude CDouble.

(** * Data *)

(** [struct Point]: a pixel of the standard coordinate system and its colour
    ([DOT] or [BLANK] after binarisation). *)
Record Point := mkPoint { px : Z; py : Z; pc : Z }.
Record Range := mkRange { from : Point; to : Point }.
(** [struct Context]: the shared context of a traversal; [data] is what its
    [void *] points at. *)
Record Context (D : Type) := mkContext { width : Z; height : Z; data : D }.
Arguments mkContext {D}.
Arguments width {D}.
Arguments height {D}.
Arguments data {D}.

Definition DOT : Z := 1.
Definition BLANK : Z := 0.

#[export] Instance Point_eq_dec : EqDecision Point.
Proof. solve_decision. Defined.
#[export] Instance Range_eq_dec : EqDecision Range.
Proof. solve_decision. Defined.

(** What [malloc] gives: memory that happens to hold something, or NULL. *)
Abbreviation fresh A := (option (Z → A)).

(** [Malloc(type, n)]. Nothing in the program checks for NULL, which it is sure
    to dereference then: that is undefined, and so is a negative count, which asks
    for a huge block. *)
Definition Malloc {A} (mem : fresh A) (n : Z) : res (list A) :=
  match mem with
  | None => Undef
  | Some junk => if n <? 0 then Undef else Done (junk <$> seqZ 0 n)
  end.

(** * Operations *)

Definition get_range_w (r : Range) : res Z :=
  d ← cint (px (to r) - px (from r));
  cint (Z.abs d).

(** The coordinate array is a flat array; [row*width + col] is an [int]. *)
Definition flat_index (row w col : Z) : res Z :=
  a ← cint (row * w); cint (a + col).

(** [process_by_row]: copies each row into one scratch buffer and hands it to
    the callback, which updates the context (here: the state [St] it works on). *)
Definition process_by_row {St} (mem : fresh Point) (coordinate : list Point)
    (w h : Z) (ctx : St)
    (proc : list Point → Z → list Point → St → res St) : res St :=
  coordRow ← Malloc mem w;
  r ← for_up 0 h (λ row '(coordRow, ctx),
        coordRow ← for_up 0 w (λ col coordRow,
            i ← flat_index row w col;
            p ← load coordinate i;
            store coordRow col p) coordRow;
        ctx ← proc coordRow w coordinate ctx;
        mret (coordRow, ctx)) (coordRow, ctx);
  mret (snd r).

(** [r << 16 | g << 8 | b] *)
Definition to_hex (r g b : Z) : Z :=
  Z.lor (Z.lor (Z.shiftl r 16) (Z.shiftl g 8)) b.

(** [0.299 * r + 0.587 * g + 0.114 * b] in double, truncated to int. *)
Definition get_gray (r g b : Z) : res Z :=
  int_of_double
    (dadd (dadd (dmul lit_0_299 (double_of_int r)) (dmul lit_0_587 (double_of_int g)))
          (dmul lit_0_114 (double_of_int b))).

(** * Lemmas *)

(** The rows of a [w] x [h] array stored row after row. *)
Definition rows {A} (l : list A) (w h : Z) : list (list A) :=
  (λ row, zslice l (row * w) w) <$> seqZ 0 h.

Lemma flat_index_ok row w col :
  0 ≤ row * w → 0 ≤ col → row * w + col ≤ INT_MAX →
  flat_index row w col = Done (row * w + col).
Proof.
  intros. unfold flat_index.
  by rewrite cint_ok, done_bind, cint_ok by int_lia.
Qed.

Lemma row_index_bounds row w h col :
  0 ≤ row < h → 0 ≤ col < w → 0 ≤ row * w ∧ row * w + col < w * h.
Proof. intros. nia. Qed.

Lemma zlen_row {A} (l : list A) w h row :
  0 ≤ w → 0 ≤ row < h → zlen l = w * h → zlen (zslice l (row * w) w) = w.
Proof.
  intros. assert ((row + 1) * w ≤ h * w) by (apply Z.mul_le_mono_nonneg_r; lia).
  apply zlen_zslice; nia.
Qed.

Lemma row_copy (coordinate : list Point) w h row (buf : list Point) :
  0 ≤ row < h → zlen coordinate = w * h → w * h ≤ INT_MAX → zlen buf = w →
  for_up 0 w (λ col coordRow,
      i ← flat_index row w col; p ← load coordinate i; store coordRow col p) buf
    = Done (zslice coordinate (row * w) w).
Proof.
  intros Hrow Hlen Hmax Hbuf. pose proof (zlen_nonneg buf).
  set (p0 := mkPoint 0 0 0).
  rewrite (for_up_fill (λ col, default p0 (zget coordinate (row * w + col)))); [|done|].
  - f_equal. apply zlist_eq; rewrite zlen_fmap, zlen_seqZ by lia.
    { symmetry. apply (zlen_row _ _ h); [lia|done..]. }
    intros i Hi. destruct (row_index_bounds row w h i) as [? ?]; [done..|].
    rewrite zget_fmap_seqZ, zget_zslice, Z.add_0_l by lia.
    destruct (zget_is_Some coordinate (row * w + i)) as [x Hx]; [lia|]. by rewrite Hx.
  - intros col b Hcol Hb.
    destruct (row_index_bounds row w h col) as [? ?]; [done..|].
    rewrite flat_index_ok by lia. rewrite done_bind.
    destruct (zget_is_Some coordinate (row * w + col)) as [x Hx]; [lia|].
    rewrite (load_ok _ _ x) by done. rewrite done_bind, store_ok by lia. by rewrite Hx.
Qed.

(** The traversal is the left fold of the callback over the rows. *)
Lemma process_by_row_fold {St} junk (coordinate : list Point) w h (ctx : St) proc :
  0 ≤ w → zlen coordinate = w * h → w * h ≤ INT_MAX →
  process_by_row (Some junk) coordinate w h ctx proc =
  fold_res (λ row ctx, proc row w coordinate ctx) (rows coordinate w h) ctx.
Proof.
  intros Hw Hlen Hmax. unfold process_by_row, Malloc. case_if; [lia|]. rewrite done_bind.
  assert (zlen (junk <$> seqZ 0 w) = w) as Hbuf by (rewrite zlen_fmap, zlen_seqZ; lia).
  revert Hbuf. generalize (junk <$> seqZ 0 w). intros buf Hbuf.
  rewrite for_up_fold. unfold rows. rewrite Z.sub_0_r.
  assert (∀ k, k ∈ seqZ 0 h → 0 ≤ k < h) as Hr.
  { intros k Hk. apply elem_of_seqZ in Hk. lia. }
  revert buf Hbuf ctx Hr. generalize (seqZ 0 h). intros l.
  induction l as [|row l IH]; intros buf Hbuf ctx Hr; [done|].
  cbn [fold_res fmap list_fmap].
  assert (0 ≤ row < h) by (apply Hr; left).
  rewrite (row_copy _ _ h) by done. cbn.
  destruct (proc _ w coordinate ctx) as [ctx'| |]; [|done..]. cbn.
  apply IH; [by apply (zlen_row _ _ h)|]. intros. apply Hr. by right.
Qed.

Lemma to_hex_value r g b :
  0 ≤ r < 256 → 0 ≤ g < 256 → 0 ≤ b < 256 →
  to_hex r g b = r * 65536 + g * 256 + b.
Proof.
  intros. unfold to_hex. by rewrite pack3 by lia.
Qed.

Lemma Malloc_ok {A} (junk : Z → A) n : 0 ≤ n → Malloc (Some junk) n = Done (junk <$> seqZ 0 n).
Proof. intros. unfold Malloc. by case_if; [lia|]. Qed.
