(* ===== verification/Bmpread.v ===== *)
(** libs/bmpread/bmpread.c: the bitmap loader the recogniser uses, from the
    little-endian readers to the decoded RGB buffer. Pointers into a buffer are
    offsets from its start, which may leave it as long as nothing is read or
    written there: C itself does not allow that the pointer is formed, see
    [reversed_end_outside]. A file is its bytes and a position; the results of the
    three allocations are given by an environment. *)
From stdpp Require Import strings.
From S2P Require Import Prelude.

(** * Files (the parts of stdio the loader uses) *)

Record FILE := mkFile { fdata : list Z; fpos : Z }.

(** [fgetc]: the next byte, or [None] at end of file. *)
Definition fgetc (f : FILE) : option (Z * FILE) :=
  b ← zget (fdata f) (fpos f); Some (b, mkFile (fdata f) (fpos f + 1)).

(** [fread(buf, 1, n, fp)]: the bytes delivered (fewer than [n] at the end). *)
Definition fread (n : Z) (f : FILE) : list Z * FILE :=
  let bytes := zslice (fdata f) (fpos f) n in
  (bytes, mkFile (fdata f) (fpos f + zlen bytes)).

(** [fseek(fp, off, SEEK_SET)]: [None] when it fails (negative offset). *)
Definition fseek_set (off : Z) (f : FILE) : option FILE :=
  if off <? 0 then None else Some (mkFile (fdata f) off).

(** * Overflow checks *)

Definition LONG_MAX : Z := INT64_MAX.
Definition PTRDIFF_MAX : Z := INT64_MAX.

Definition CanAdd (a b : Z) : bool := a <=? u64 (SIZE_MAX - b).
Definition CanMultiply (a b : Z) : res bool :=
  if b =? 0 then Undef else mret (a <=? SIZE_MAX / b).
(** The guarded tests are compiled only where the type is too narrow. *)
Definition CanMakeSizeT (x : Z) : bool :=
  if SIZE_MAX <? UINT32_MAX then negb (SIZE_MAX <? x) else true.
Definition CanMakeLong (x : Z) : bool :=
  if LONG_MAX <? UINT32_MAX then negb (LONG_MAX <? x) else true.
Definition CanNegate (x : Z) : bool := negb (x =? INT_MIN).

(** * Little-endian readers: [None] is the 0 they return at end of file *)

Fixpoint read_bytes_loop (bytes : nat) (dest shift : Z) (f : FILE) : option (Z * FILE) :=
  match bytes with
  | O => Some (dest, f)
  | S bytes' =>
      '(byte, f) ← fgetc f;
      read_bytes_loop bytes' (u32 (dest + u32 (Z.shiftl byte shift))) (u32 (shift + 8)) f
  end.

Definition ReadLittleBytes (bytes : nat) (f : FILE) : option (Z * FILE) :=
  read_bytes_loop bytes 0 0 f.

Definition ReadLittleUint32 : FILE → option (Z * FILE) := ReadLittleBytes 4.

Definition ReadLittleInt32 (f : FILE) : option (Z * FILE) :=
  '(t, f) ← ReadLittleBytes 4 f; Some (sext 32 t, f).

Definition ReadLittleUint16 (f : FILE) : option (Z * FILE) :=
  '(t, f) ← ReadLittleBytes 2 f; Some (u16 t, f).

Definition ReadUint8 (f : FILE) : option (Z * FILE) :=
  '(byte, f) ← fgetc f; Some (u8 byte, f).

Record bmp_header := mkHeader { magic0 : Z; magic1 : Z; file_size : Z;
                                unused : Z; data_offset : Z }.

Definition ReadHeader (f : FILE) : option (bmp_header * FILE) :=
  '(m0, f) ← ReadUint8 f;
  '(m1, f) ← ReadUint8 f;
  '(sz, f) ← ReadLittleUint32 f;
  '(un, f) ← ReadLittleUint32 f;
  '(off, f) ← ReadLittleUint32 f;
  Some (mkHeader m0 m1 sz un off, f).

Definition BMP_HEADER_SIZE : Z := 14.

Record bmp_info := mkInfo { info_size : Z; iwidth : Z; iheight : Z; planes : Z;
                            bits : Z; compression : Z }.

Definition ReadInfo (f : FILE) : option (bmp_info * FILE) :=
  '(sz, f) ← ReadLittleUint32 f;
  '(w, f) ← ReadLittleInt32 f;
  '(h, f) ← ReadLittleInt32 f;
  '(pl, f) ← ReadLittleUint16 f;
  '(b, f) ← ReadLittleUint16 f;
  '(c, f) ← ReadLittleUint32 f;
  Some (mkInfo sz w h pl b c, f).

Record bmp_palette_entry := mkEntry { blue : Z; green : Z; red : Z; eunused : Z }.

Definition BMP_PALETTE_ENTRY_SIZE : Z := 4.

(** Reads [n] more entries into [palette] from index [i] on. *)
Fixpoint read_palette_loop (n : nat) (i : Z) (palette : list bmp_palette_entry) (f : FILE)
    : res (option (list bmp_palette_entry * FILE)) :=
  match n with
  | O => mret (Some (palette, f))
  | S n' =>
      match fread 4 f with
      | ([c0; c1; c2; c3], f) =>
          palette ← store palette i (mkEntry c0 c1 c2 c3);
          read_palette_loop n' (i + 1) palette f
      | _ => mret None
      end
  end.

Definition ReadPalette (palette : list bmp_palette_entry) (colors : Z) (f : FILE)
    : res (option (list bmp_palette_entry * FILE)) :=
  read_palette_loop (Z.to_nat colors) 0 palette f.

(** * Arithmetic helpers *)

Fixpoint is_pow2_loop (fuel : nat) (bit x : Z) : res bool :=
  match fuel with
  | O => OutOfFuel
  | S fuel' =>
      if bit =? 0 then mret false
      else if negb (Z.land x bit =? 0) then mret (Z.land x (u32 (Z.lnot bit)) =? 0)
      else is_pow2_loop fuel' (u32 (Z.shiftl bit 1)) x
  end.

(** 32 bits are tried, then the bit is shifted out. *)
Definition IsPowerOf2 (x : Z) : res bool := is_pow2_loop 33 1 x.

Definition GetLineLength (width bpp : Z) : res Z :=
  let bits := u64 (width * bpp) in
  let pad_bits := Z.land (u64 (32 - Z.land bits 0x1f)) 0x1f in
  b ← CanMultiply width bpp;
  if negb b || negb (CanAdd bits pad_bits) then mret 0
  else mret (u64 (bits + pad_bits) / 8).

(** * The reading context *)

Definition BMPREAD_TOP_DOWN : Z := 1.
Definition BMPREAD_BYTE_ALIGN : Z := 2.
Definition BMPREAD_ANY_SIZE : Z := 4.

(** [flags & f] as a condition. *)
Definition has_flag (flags f : Z) : bool := negb (Z.land flags f =? 0).

(** Null pointers are [None]; a pointer that owns memory is [Some] contents. *)
Record read_context := mkCtx {
  flags : Z;
  fp : option FILE;
  header : bmp_header;
  info : bmp_info;
  lines : Z;
  file_line_len : Z;
  rgb_line_len : Z;
  palette : option (list bmp_palette_entry);
  file_data : option (list Z);
  rgb_data : option (list Z) }.

Definition zero_header : bmp_header := mkHeader 0 0 0 0 0.
Definition zero_info : bmp_info := mkInfo 0 0 0 0 0 0.

(** [memset(&ctx, 0, sizeof(read_context))] *)
Definition zero_context : read_context :=
  mkCtx 0 None zero_header zero_info 0 0 0 None None None.

Definition set_flags x c := mkCtx x (fp c) (header c) (info c) (lines c) (file_line_len c)
  (rgb_line_len c) (palette c) (file_data c) (rgb_data c).
Definition set_fp x c := mkCtx (flags c) x (header c) (info c) (lines c) (file_line_len c)
  (rgb_line_len c) (palette c) (file_data c) (rgb_data c).
Definition set_header x c := mkCtx (flags c) (fp c) x (info c) (lines c) (file_line_len c)
  (rgb_line_len c) (palette c) (file_data c) (rgb_data c).
Definition set_info x c := mkCtx (flags c) (fp c) (header c) x (lines c) (file_line_len c)
  (rgb_line_len c) (palette c) (file_data c) (rgb_data c).
Definition set_lines x c := mkCtx (flags c) (fp c) (header c) (info c) x (file_line_len c)
  (rgb_line_len c) (palette c) (file_data c) (rgb_data c).
Definition set_file_line_len x c := mkCtx (flags c) (fp c) (header c) (info c) (lines c) x
  (rgb_line_len c) (palette c) (file_data c) (rgb_data c).
Definition set_rgb_line_len x c := mkCtx (flags c) (fp c) (header c) (info c) (lines c)
  (file_line_len c) x (palette c) (file_data c) (rgb_data c).
Definition set_palette x c := mkCtx (flags c) (fp c) (header c) (info c) (lines c)
  (file_line_len c) (rgb_line_len c) x (file_data c) (rgb_data c).
Definition set_file_data x c := mkCtx (flags c) (fp c) (header c) (info c) (lines c)
  (file_line_len c) (rgb_line_len c) (palette c) x (rgb_data c).
Definition set_rgb_data x c := mkCtx (flags c) (fp c) (header c) (info c) (lines c)
  (file_line_len c) (rgb_line_len c) (palette c) (file_data c) x.

(** The environment: which files open, which of the three allocations
    succeed (given the size asked for) and what fresh memory holds. *)
Record env := mkEnv {
  fopen : string → option (list Z);
  palette_ok : Z → bool;
  file_data_ok : Z → bool;
  rgb_data_ok : Z → bool;
  junk_entry : Z → bmp_palette_entry;
  junk_byte : Z → Z }.

Definition malloc_cells {A} (ok : bool) (junk : Z → A) (n : Z) : option (list A) :=
  if ok then Some (junk <$> seqZ 0 n) else None.

(** Dereferencing a pointer of the context. *)
Definition deref {A} (p : option A) : res A := of_opt p.

(** * Validation *)

(** [Validate], from the palette on (the [info.bits <= 8] block). *)
Definition Validate_palette (e : env) (c : read_context) : res (bool * read_context) :=
  if 8 <? bits (info c) then mret (true, c)
  else
    let colors := Z.shiftl 1 (bits (info c)) in
    match malloc_cells (palette_ok e (colors * BMP_PALETTE_ENTRY_SIZE)) (junk_entry e) colors with
    | None => mret (false, c)
    | Some pal =>
        let c := set_palette (Some pal) c in
        if negb (CanMakeLong (info_size (info c))) then mret (false, c)
        else
          f ← deref (fp c);
          match fseek_set (BMP_HEADER_SIZE + info_size (info c)) f with
          | None => mret (false, c)
          | Some f =>
              r ← ReadPalette pal colors f;
              match r with
              | None => mret (false, c)
              | Some (pal, f) => mret (true, set_fp (Some f) (set_palette (Some pal) c))
              end
          end
    end.

(** [Validate], the allocations that set things up for decoding. *)
Definition Validate_buffers (e : env) (c : read_context) : res (bool * read_context) :=
  match malloc_cells (file_data_ok e (file_line_len c)) (junk_byte e) (file_line_len c) with
  | None => mret (false, c)
  | Some fd =>
      let c := set_file_data (Some fd) c in
      if negb (CanMakeSizeT (lines c)) then mret (false, c)
      else
        b ← CanMultiply (lines c) (rgb_line_len c);
        if negb b then mret (false, c)
        else
          let n := u64 (lines c * rgb_line_len c) in
          match malloc_cells (rgb_data_ok e n) (junk_byte e) n with
          | None => mret (false, c)
          | Some rgb => mret (true, set_rgb_data (Some rgb) c)
          end
  end.

(** [Validate], the computation of the line lengths and of [lines]. *)
Definition Validate_sizes (c : read_context) : res (bool * read_context) :=
  if negb (CanMakeSizeT (iwidth (info c))) then mret (false, c)
  else
    fll ← GetLineLength (u64 (iwidth (info c))) (bits (info c));
    let c := set_file_line_len fll c in
    if fll =? 0 then mret (false, c)
    else
      b ← CanMultiply (u64 (iwidth (info c))) 3;
      if negb b then mret (false, c)
      else
        rll ← (if has_flag (flags c) BMPREAD_BYTE_ALIGN
               then mret (u64 (u64 (iwidth (info c)) * 3))
               else GetLineLength (u64 (iwidth (info c))) 24);
        let c := set_rgb_line_len rll c in
        if negb (has_flag (flags c) BMPREAD_BYTE_ALIGN) && (rll =? 0) then mret (false, c)
        else if negb (CanNegate (iheight (info c))) then mret (false, c)
        else
          ls ← (if iheight (info c) <? 0 then cint (- iheight (info c))
                else mret (iheight (info c)));
          let c := set_lines ls c in
          if negb (has_flag (flags c) BMPREAD_ANY_SIZE) then
            pw ← IsPowerOf2 (u32 (iwidth (info c)));
            if negb pw then mret (false, c)
            else ph ← IsPowerOf2 (u32 (lines c)); mret (ph, c)
          else mret (true, c).

(** The checks on the header fields. *)
Definition header_ok (h : bmp_header) (i : bmp_info) : bool :=
  (magic0 h =? 0x42) && (magic1 h =? 0x4d) &&
  negb ((iwidth i <=? 0) || (iheight i =? 0)) &&
  negb (0 <? compression i) &&
  ((bits i =? 1) || (bits i =? 4) || (bits i =? 8) || (bits i =? 24)).

Definition Validate (e : env) (c : read_context) : res (bool * read_context) :=
  f ← deref (fp c);
  match ReadHeader f with
  | None => mret (false, c)
  | Some (h, f) =>
      let c := set_header h c in
      match ReadInfo f with
      | None => mret (false, c)
      | Some (i, f) =>
          let c := set_fp (Some f) (set_info i c) in
          if negb (header_ok h i) then mret (false, c)
          else
            r ← Validate_sizes c;
            match r with
            | (false, c) => mret (false, c)
            | (true, c) =>
                r ← Validate_palette e c;
                match r with
                | (false, c) => mret (false, c)
                | (true, c) => Validate_buffers e c
                end
            end
      end
  end.

(** * Decoding one scan line

    [p_rgb] and [p_rgb_end] are offsets in the output buffer [rgb], [file] is
    the line of file data, read from offset 0. *)

(** Three stores through [*p_rgb++]. *)
Definition put3 (rgb : list Z) (p r g b : Z) : res (list Z) :=
  rgb ← store rgb p r;
  rgb ← store rgb (p + 1) g;
  store rgb (p + 2) b.

Definition decoder := list Z → Z → Z → list Z → list bmp_palette_entry → res (list Z).

(** State of the decoding loops: output buffer, [p_rgb], [p_file]. *)
Abbreviation dec_state := (list Z * Z * Z)%type.

Definition line_loop (p_rgb_end : Z) (body : dec_state → res dec_state) (s : dec_state)
    : res dec_state :=
  while_loop (Z.to_nat (p_rgb_end - s.1.2)) (λ s, s.1.2 <? p_rgb_end) body s.

Definition Decode24 : decoder := λ rgb p_rgb p_rgb_end file palette,
  r ← line_loop p_rgb_end (λ '(rgb, p, q),
        r ← load file (q + 2);
        g ← load file (q + 1);
        b ← load file (q + 2 - 2);
        rgb ← put3 rgb p r g b;
        mret (rgb, p + 3, q + 3)) (rgb, p_rgb, 0);
  mret r.1.1.

Definition Decode8 : decoder := λ rgb p_rgb p_rgb_end file palette,
  r ← line_loop p_rgb_end (λ '(rgb, p, q),
        lookup ← load file q;
        c ← load palette lookup;
        rgb ← put3 rgb p (red c) (green c) (blue c);
        mret (rgb, p + 3, q + 1)) (rgb, p_rgb, 0);
  mret r.1.1.

Definition Decode4 : decoder := λ rgb p_rgb p_rgb_end file palette,
  r ← line_loop p_rgb_end (λ '(rgb, p, q),
        v ← load file q;
        c ← load palette (Z.shiftr (Z.land v 0xf0) 4);
        rgb ← put3 rgb p (red c) (green c) (blue c);
        if p + 3 <? p_rgb_end then
          v ← load file q;
          c ← load palette (Z.land v 0x0f);
          rgb ← put3 rgb (p + 3) (red c) (green c) (blue c);
          mret (rgb, p + 6, q + 1)
        else mret (rgb, p + 3, q)) (rgb, p_rgb, 0);
  mret r.1.1.

(** The inner [for(bit = 0; bit < 8 && p_rgb < p_rgb_end; bit++)]. *)
Definition bit_loop (p_rgb_end : Z) (file : list Z) (palette : list bmp_palette_entry)
    (q : Z) (rgb : list Z) (p : Z) : res (list Z * Z * Z) :=
  while_loop 8 (λ '(rgb, p, bit), (bit <? 8) && (p <? p_rgb_end)) (λ '(rgb, p, bit),
    v ← load file q;
    c ← load palette (Z.land (Z.shiftr v (7 - bit)) 1);
    rgb ← put3 rgb p (red c) (green c) (blue c);
    mret (rgb, p + 3, bit + 1)) (rgb, p, 0).

Definition Decode1 : decoder := λ rgb p_rgb p_rgb_end file palette,
  r ← line_loop p_rgb_end (λ '(rgb, p, q),
        r ← bit_loop p_rgb_end file palette q rgb p;
        mret (r.1.1, r.1.2, q + 1)) (rgb, p_rgb, 0);
  mret r.1.1.

(** * Decoding the file *)

Definition decoder_for (bits : Z) : option decoder :=
  if bits =? 24 then Some Decode24
  else if bits =? 8 then Some Decode8
  else if bits =? 4 then Some Decode4
  else if bits =? 1 then Some Decode1
  else None.

(** State of the line loop: file, output buffer, line buffer, [p_rgb],
    [p_line_end]. *)
Record lines_state := mkLines { ls_fp : FILE; ls_rgb : list Z; ls_file : list Z;
                                ls_p : Z; ls_end : Z }.

(** [while(p_rgb != p_rgb_end && fread(...) == file_line_len) ...] *)
Fixpoint decode_lines (fuel : nat) (dec : decoder) (pal : list bmp_palette_entry)
    (fll rgb_inc p_rgb_end : Z) (s : lines_state) : res lines_state :=
  if ls_p s =? p_rgb_end then mret s
  else
    let '(got, f) := fread fll (ls_fp s) in
    (* the bytes delivered overwrite the head of the line buffer *)
    let file := got ++ drop (length got) (ls_file s) in
    if negb (zlen got =? fll) then mret (mkLines f (ls_rgb s) file (ls_p s) (ls_end s))
    else
      match fuel with
      | O => OutOfFuel
      | S fuel' =>
          rgb ← dec (ls_rgb s) (ls_p s) (ls_end s) file pal;
          decode_lines fuel' dec pal fll rgb_inc p_rgb_end
            (mkLines f rgb file (ls_p s + rgb_inc) (ls_end s + rgb_inc))
      end.

(** Whether the scan lines keep their order, and the offsets in [rgb_data] of the
    first line and of the end of the scan. *)
Definition keep_order (c : read_context) : bool :=
  Bool.eqb (negb (iheight (info c) <? 0)) (negb (has_flag (flags c) BMPREAD_TOP_DOWN)).
Definition p_rgb_start (c : read_context) : Z :=
  if keep_order c then 0 else (lines c - 1) * rgb_line_len c.
Definition p_rgb_end_of (c : read_context) : Z :=
  if keep_order c then lines c * rgb_line_len c else - rgb_line_len c.

Definition Decode (c : read_context) : res (bool * read_context) :=
  if PTRDIFF_MAX <? rgb_line_len c then mret (false, c)
  else
    let rgb_inc := if keep_order c then rgb_line_len c else - rgb_line_len c in
    let p_rgb := p_rgb_start c in
    let p_rgb_end := p_rgb_end_of c in
    let p_line_end := p_rgb + iwidth (info c) * 3 in
    match decoder_for (bits (info c)) with
    | None => mret (false, c)
    | Some dec =>
        if negb (CanMakeLong (data_offset (header c))) then mret (false, c)
        else
          f ← deref (fp c);
          match fseek_set (data_offset (header c)) f with
          | None => mret (false, c)
          | Some f =>
              rgb ← deref (rgb_data c);
              file ← deref (file_data c);
              s ← decode_lines (Z.to_nat (lines c)) dec (default [] (palette c))
                    (file_line_len c) rgb_inc p_rgb_end
                    (mkLines f rgb file p_rgb p_line_end);
              mret (ls_p s =? p_rgb_end,
                    set_fp (Some (ls_fp s))
                      (set_rgb_data (Some (ls_rgb s)) (set_file_data (Some (ls_file s)) c)))
          end
    end.

(** Closes the file and frees the buffers; the output survives on request. *)
Definition FreeContext (c : read_context) (leave_rgb_data : bool) : read_context :=
  let c := set_fp None c in
  let c := set_palette None c in
  let c := set_file_data None c in
  if negb leave_rgb_data then set_rgb_data None c else c.

(** [bmpread_t] *)
Record bmpread_t := mkBmp { bwidth : Z; bheight : Z; bdata : option (list Z) }.
Definition zero_bmp : bmpread_t := mkBmp 0 0 None.

(** The result: the success flag, what [*p_bmp_out] holds ([None] when the
    pointer is null) and the context left behind, whose pointers are the
    resources still owned. *)
Definition bmpread (e : env) (bmp_file : option string) (flgs : Z)
    (p_bmp_out : option bmpread_t) : res (bool * option bmpread_t * read_context) :=
  let ctx := zero_context in
  match bmp_file with
  | None => mret (false, p_bmp_out, FreeContext ctx false)
  | Some name =>
      match p_bmp_out with
      | None => mret (false, p_bmp_out, FreeContext ctx false)
      | Some _ =>
          let ctx := set_flags flgs ctx in
          match fopen e name with
          | None => mret (false, Some zero_bmp, FreeContext ctx false)
          | Some bytes =>
              '(ok, ctx) ← Validate e (set_fp (Some (mkFile bytes 0)) ctx);
              if negb ok then mret (false, Some zero_bmp, FreeContext ctx false)
              else
                '(ok, ctx) ← Decode ctx;
                if negb ok then mret (false, Some zero_bmp, FreeContext ctx false)
                else
                  mret (true, Some (mkBmp (iwidth (info ctx)) (lines ctx) (rgb_data ctx)),
                        FreeContext ctx true)
          end
      end
  end.

(** Returns what the struct holds afterwards; its buffer is released. *)
Definition bmpread_free (p_bmp : option bmpread_t) : option bmpread_t :=
  match p_bmp with Some _ => Some zero_bmp | None => None end.

(** * Lemmas: the little-endian readers *)

Definition is_byte (b : Z) : Prop := 0 ≤ b < 256.

(** The value of little-endian bytes, and the bytes of a value. *)
Fixpoint le_value (bs : list Z) : Z :=
  match bs with [] => 0 | b :: bs' => b + 256 * le_value bs' end.

Fixpoint le_bytes (n : nat) (v : Z) : list Z :=
  match n with O => [] | S n' => v mod 256 :: le_bytes n' (v / 256) end.

(** A file whose position is inside and whose contents are bytes. *)
Definition file_ok (f : FILE) : Prop := 0 ≤ fpos f ∧ Forall is_byte (fdata f).

Lemma le_value_bound bs : Forall is_byte bs → 0 ≤ le_value bs < 2 ^ (8 * zlen bs).
Proof.
  induction 1 as [|b bs Hb Hbs IH]; [done|]. cbn [le_value]. rewrite zlen_cons.
  pose proof (zlen_nonneg bs). unfold is_byte in Hb.
  replace (8 * (zlen bs + 1)) with (8 * zlen bs + 8) by lia.
  rewrite Z.pow_add_r by lia. change (2 ^ 8) with 256. lia.
Qed.

Lemma le_value_bytes n v : 0 ≤ v < 2 ^ (8 * Z.of_nat n) → le_value (le_bytes n v) = v.
Proof.
  revert v. induction n as [|n IH]; intros v Hv; cbn [le_bytes le_value].
  - change (2 ^ (8 * Z.of_nat 0)) with 1 in Hv. lia.
  - rewrite IH; [lia|].
    replace (8 * Z.of_nat (S n)) with (8 * Z.of_nat n + 8) in Hv by lia.
    rewrite Z.pow_add_r in Hv by lia. change (2 ^ 8) with 256 in Hv. lia.
Qed.

Lemma zlen_le_bytes n v : zlen (le_bytes n v) = Z.of_nat n.
Proof.
  revert v. induction n as [|n IH]; intros v; [done|].
  cbn [le_bytes]. rewrite zlen_cons, IH. lia.
Qed.

Lemma fgetc_byte f b : file_ok f → zget (fdata f) (fpos f) = Some b → is_byte b.
Proof.
  intros [Hp Hf] Hb. rewrite zget_of_lookup in Hb by done.
  by eapply Forall_lookup_1.
Qed.

Lemma read_bytes_value n dest shift f :
  file_ok f → 0 ≤ shift → 0 ≤ dest < 2 ^ shift → shift + 8 * Z.of_nat n ≤ 32 →
  read_bytes_loop n dest shift f =
  if fpos f + Z.of_nat n <=? zlen (fdata f)
  then Some (dest + 2 ^ shift * le_value (zslice (fdata f) (fpos f) (Z.of_nat n)),
             mkFile (fdata f) (fpos f + Z.of_nat n))
  else if (0 <? Z.of_nat n) then None else Some (dest, f).
Proof.
  revert dest shift f.
  induction n as [|n IH]; intros dest shift f Hf Hsh Hd Hmax; cbn [read_bytes_loop].
  - case_if; [|done]. unfold zslice. cbn.
    rewrite Z.mul_0_r, !Z.add_0_r. by destruct f.
  - unfold fgetc. destruct (zget (fdata f) (fpos f)) as [b|] eqn:Hb; cbn [mbind option_bind].
    2: { apply zget_None in Hb. destruct Hf as [Hp _]. repeat case_if; done || lia. }
    pose proof (fgetc_byte f b Hf Hb) as Hbyte. unfold is_byte in Hbyte.
    pose proof (zget_Some_range _ _ _ Hb) as Hr. destruct Hf as [Hp Hbs].
    assert (2 ^ shift * 256 = 2 ^ (shift + 8)) as Hpow by (rewrite Z.pow_add_r; lia).
    assert (2 ^ (shift + 8) ≤ 2 ^ 32) as Hp32 by (apply Z.pow_le_mono_r; lia).
    assert (0 < 2 ^ shift) as Hpos by (apply Z.pow_pos_nonneg; lia).
    rewrite Z.shiftl_mul_pow2 by lia.
    assert (b * 2 ^ shift ≤ 255 * 2 ^ shift) as Hb255 by (apply Z.mul_le_mono_nonneg_r; lia).
    unfold u32. rewrite (Z.mod_small (b * _)) by nia.
    rewrite (Z.mod_small (dest + _)) by nia.
    rewrite (Z.mod_small (shift + 8)) by lia.
    rewrite IH; cbn [fdata fpos]; [|split; [cbn; lia|done]|lia|nia|lia].
    replace (fpos f + 1 + Z.of_nat n) with (fpos f + Z.of_nat (S n)) by lia.
    rewrite (zslice_cons _ _ (Z.of_nat (S n)) b) by (done || lia).
    replace (Z.of_nat (S n) - 1) with (Z.of_nat n) by lia. cbn [le_value].
    case_if.
    + f_equal. f_equal. rewrite <-Hpow. ring.
    + rewrite (proj2 (Z.ltb_lt 0 (Z.of_nat (S n)))) by lia.
      case_if; [done|]. lia.
Qed.

(** All readers of up to four bytes. *)
Lemma ReadLittleBytes_value n f :
  file_ok f → (0 < n ≤ 4)%nat →
  ReadLittleBytes n f =
  if fpos f + Z.of_nat n <=? zlen (fdata f)
  then Some (le_value (zslice (fdata f) (fpos f) (Z.of_nat n)),
             mkFile (fdata f) (fpos f + Z.of_nat n))
  else None.
Proof.
  intros Hf Hn. unfold ReadLittleBytes. rewrite read_bytes_value by (done || lia).
  rewrite Z.mul_1_l, Z.add_0_l. case_if; [done|]. by case_if; [|lia].
Qed.

Lemma zslice_Forall {A} (P : A → Prop) (l : list A) i n : Forall P l → Forall P (zslice l i n).
Proof. intros. unfold zslice. by apply Forall_take, Forall_drop. Qed.

Lemma zslice_zlen_le {A} (l : list A) i n : 0 ≤ n → zlen (zslice l i n) ≤ n.
Proof. intros. unfold zslice, zlen. rewrite length_take. lia. Qed.

(** What a successful read leaves: the file moved on, the value in range. *)
Lemma ReadLittleBytes_inv n f v f' :
  file_ok f → (0 < n ≤ 4)%nat → ReadLittleBytes n f = Some (v, f') →
  f' = mkFile (fdata f) (fpos f + Z.of_nat n) ∧ 0 ≤ v < 2 ^ (8 * Z.of_nat n) ∧
  fpos f + Z.of_nat n ≤ zlen (fdata f) ∧
  v = le_value (zslice (fdata f) (fpos f) (Z.of_nat n)).
Proof.
  intros Hf Hn. rewrite ReadLittleBytes_value by done. case_if; [|done].
  intros [= <- <-]. split; [done|]. destruct Hf as [Hp Hb].
  pose proof (le_value_bound (zslice (fdata f) (fpos f) (Z.of_nat n))) as Hv.
  rewrite zlen_zslice in Hv by lia. split; [|done]. by apply Hv, zslice_Forall.
Qed.

(** * Lemmas: arithmetic helpers *)

Lemma sext32_range v : INT_MIN ≤ sext 32 v ≤ INT_MAX.
Proof. unfold sext. case_if; int_lia. Qed.

Lemma CanMultiply_eq a b : 0 < b → CanMultiply a b = Done (a <=? SIZE_MAX / b).
Proof. intros. unfold CanMultiply. by case_if; [lia|]. Qed.

Lemma CanMultiply_spec a b :
  0 ≤ a → 0 < b → CanMultiply a b = Done (a * b <=? SIZE_MAX).
Proof.
  intros Ha Hb. rewrite CanMultiply_eq by done. f_equal.
  apply eq_true_iff_eq. rewrite !Z.leb_le.
  split; intros H; [|apply Z.div_le_lower_bound; lia].
  etransitivity; [apply Z.mul_le_mono_nonneg_r; [lia|exact H]|].
  rewrite Z.mul_comm. apply Z.mul_div_le. lia.
Qed.

(** DWORD-aligned line length, 0 exactly on overflow. *)
Lemma GetLineLength_value w bpp :
  0 ≤ w → 0 < bpp →
  GetLineLength w bpp =
  Done (if w * bpp <=? 2 ^ 64 - 32 then 4 * ((w * bpp + 31) / 32) else 0).
Proof.
  intros Hw Hb. unfold GetLineLength.
  change 0x1f with (2 ^ 5 - 1). rewrite !land_ones_mod by lia.
  rewrite CanMultiply_spec by lia. cbn [mbind res_bind].
  destruct (w * bpp <=? SIZE_MAX) eqn:Hmul; propify; cbn [negb orb].
  - assert (0 ≤ w * bpp) by nia. revert Hmul H. generalize (w * bpp). intros m Hm Hm0.
    unfold CanAdd, u64. unfold SIZE_MAX in *. rewrite (Z.mod_small m) by lia.
    repeat case_if; propify; f_equal; try lia.
  - unfold SIZE_MAX in Hmul. case_if; [lia|done].
Qed.

Lemma clear_bit_zero x k :
  0 ≤ k < 32 → 0 ≤ x < 2 ^ 32 → Z.testbit x k = true →
  Z.land x (u32 (Z.lnot (2 ^ k))) = 0 ↔ x = 2 ^ k.
Proof.
  intros Hk Hx Hbit. unfold u32. rewrite <-Z.land_ones by lia.
  assert (Z.land x (Z.land (Z.lnot (2 ^ k)) (Z.ones 32)) = Z.ldiff x (2 ^ k)) as ->.
  { rewrite (Z.land_comm _ (Z.ones 32)), Z.land_assoc, Z.land_ones, Z.mod_small by lia.
    apply Z.bits_inj'. intros n Hn. by rewrite Z.land_spec, Z.ldiff_spec, Z.lnot_spec. }
  split; [|intros ->; apply Z.ldiff_diag].
  intros H0. apply Z.bits_inj'. intros n Hn.
  rewrite Z.pow2_bits_eqb by lia. destruct (Z.eqb_spec k n) as [<-|Hne]; [done|].
  assert (Z.testbit (Z.ldiff x (2 ^ k)) n = false) as Hf by (by rewrite H0, Z.bits_0).
  rewrite Z.ldiff_spec, Z.pow2_bits_eqb in Hf by lia.
  destruct (Z.eqb_spec k n); [done|]. by rewrite andb_true_r in Hf.
Qed.

Lemma land_pow2_zero x k : 0 ≤ k → (Z.land x (2 ^ k) =? 0) = negb (Z.testbit x k).
Proof.
  intros Hk. destruct (Z.testbit x k) eqn:Hb; cbn.
  - apply Z.eqb_neq. intros H0.
    assert (Z.testbit (Z.land x (2 ^ k)) k = false) as Hf by (by rewrite H0, Z.bits_0).
    rewrite Z.land_spec, Hb, Z.pow2_bits_true in Hf by lia. done.
  - apply Z.eqb_eq, Z.bits_inj'. intros n Hn. rewrite Z.land_spec, Z.bits_0.
    rewrite Z.pow2_bits_eqb by lia. destruct (Z.eqb_spec k n) as [<-|]; [by rewrite Hb|].
    apply andb_false_r.
Qed.

Definition is_power_of_2 (x : Z) : Prop := ∃ k, 0 ≤ k < 32 ∧ x = 2 ^ k.

Lemma is_pow2_loop_spec fuel k x :
  0 ≤ x < 2 ^ 32 → 0 ≤ k ≤ 32 → Z.of_nat fuel = 33 - k →
  (∀ j, 0 ≤ j < k → Z.testbit x j = false) →
  returns (is_pow2_loop fuel (if k =? 32 then 0 else 2 ^ k) x)
    (λ b, b = true ↔ is_power_of_2 x).
Proof.
  revert k. induction fuel as [|fuel IH]; intros k Hx Hk Hf Hlow; [lia|].
  cbn [is_pow2_loop]. destruct (Z.eqb_spec k 32) as [->|Hk32].
  - cbn. split; [done|]. intros (j & Hj & ->).
    specialize (Hlow j Hj). by rewrite Z.pow2_bits_true in Hlow by lia.
  - assert (0 < 2 ^ k) by (apply Z.pow_pos_nonneg; lia).
    rewrite (proj2 (Z.eqb_neq _ _)) by lia. rewrite land_pow2_zero, negb_involutive by lia.
    destruct (Z.testbit x k) eqn:Hb.
    + cbn. rewrite Z.eqb_eq, clear_bit_zero by (done || lia). split; [eauto with lia|].
      { intros ->. exists k. lia. }
      intros (j & Hj & ->). rewrite Z.pow2_bits_eqb in Hb by lia. apply Z.eqb_eq in Hb. by subst.
    + replace (u32 (Z.shiftl (2 ^ k) 1)) with (if k + 1 =? 32 then 0 else 2 ^ (k + 1)).
      * apply IH; [done|lia|lia|]. intros j Hj.
        destruct (decide (j = k)) as [->|]; [done|]. apply Hlow. lia.
      * rewrite Z.shiftl_mul_pow2, <-Z.pow_add_r by lia. unfold u32.
        destruct (Z.eqb_spec (k + 1) 32) as [->|]; [done|].
        rewrite Z.mod_small; [done|]. split; [apply Z.pow_nonneg; lia|].
        apply Z.pow_lt_mono_r; lia.
Qed.

Lemma IsPowerOf2_returns x :
  0 ≤ x < 2 ^ 32 → returns (IsPowerOf2 x) (λ b, b = true ↔ is_power_of_2 x).
Proof. intros. apply (is_pow2_loop_spec 33 0); [done|lia|done|lia]. Qed.

(** * Lemmas: the line decoders *)

Definition rgb3 (c : Z * Z * Z) : list Z := [c.1.1; c.1.2; c.2].

(** The first [k] pixels, three bytes each. *)
Definition pixels (f : Z → Z * Z * Z) (k : Z) : list Z :=
  concat ((λ i, rgb3 (f i)) <$> seqZ 0 k).

Definition entry_rgb (c : bmp_palette_entry) : Z * Z * Z := (red c, green c, blue c).

Definition pal_rgb (pal : list bmp_palette_entry) (i : Z) : Z * Z * Z :=
  entry_rgb (default (mkEntry 0 0 0 0) (zget pal i)).

Definition byte_at (l : list Z) (i : Z) : Z := default 0 (zget l i).

(** Reference decoding: the colour of pixel [i] of a scan line. *)
Definition pixel_color (bits : Z) (pal : list bmp_palette_entry) (file : list Z) (i : Z)
    : Z * Z * Z :=
  if bits =? 24 then (byte_at file (3 * i + 2), byte_at file (3 * i + 1), byte_at file (3 * i))
  else if bits =? 8 then pal_rgb pal (byte_at file i)
  else if bits =? 4 then
    let v := byte_at file (i / 2) in
    pal_rgb pal (if i mod 2 =? 0 then v / 16 else v mod 16)
  else pal_rgb pal (byte_at file (i / 8) / 2 ^ (7 - i mod 8) mod 2).

(** The bytes of file data a line of [w] pixels needs. *)
Definition line_need (bits w : Z) : Z := (w * bits + 7) / 8.

Lemma pixels_succ f k : 0 ≤ k → pixels f (k + 1) = pixels f k ++ rgb3 (f k).
Proof.
  intros Hk. unfold pixels. rewrite seqZ_app, fmap_app, concat_app by lia.
  rewrite Z.add_0_l. done.
Qed.

Lemma zlen_pixels f k : 0 ≤ k → zlen (pixels f k) = 3 * k.
Proof.
  revert k. apply natlike_ind; [done|]. intros k Hk IH.
  unfold Z.succ. rewrite pixels_succ, zlen_app, IH by done.
  change (zlen (rgb3 (f k))) with 3. lia.
Qed.

(** Writing the next pixel. *)
Lemma put3_pixels f rgb p k r g b :
  0 ≤ p → 0 ≤ k → p + 3 * (k + 1) ≤ zlen rgb → f k = (r, g, b) →
  put3 (zwrite rgb p (pixels f k)) (p + 3 * k) r g b =
  Done (zwrite rgb p (pixels f (k + 1))).
Proof.
  intros Hp Hk Hlen Hf. unfold put3. pose proof (zlen_pixels f k Hk) as Hl.
  rewrite <-Hl at 1. rewrite store_zwrite by lia. cbn [mbind res_bind].
  replace (p + 3 * k + 1) with (p + zlen (pixels f k ++ [r])) by zlen_lia.
  rewrite store_zwrite by zlen_lia. cbn [mbind res_bind].
  replace (p + 3 * k + 2) with (p + zlen ((pixels f k ++ [r]) ++ [g])) by zlen_lia.
  rewrite store_zwrite by zlen_lia.
  f_equal. f_equal. rewrite pixels_succ, Hf by done. by rewrite <-!app_assoc.
Qed.

(** The outer loop of every decoder: states are indexed by the pixels done. *)
Lemma line_loop_pixels (f : Z → Z * Z * Z) (Q : Z → Z → Prop) rgb p w body :
  0 ≤ w → Q 0 0 →
  (∀ k q, 0 ≤ k < w → Q k q →
    returns (body (zwrite rgb p (pixels f k), p + 3 * k, q)) (λ s,
      ∃ k' q', k < k' ≤ w ∧ Q k' q' ∧ s = (zwrite rgb p (pixels f k'), p + 3 * k', q'))) →
  returns (line_loop (p + 3 * w) body (rgb, p, 0))
    (λ s, s.1.1 = zwrite rgb p (pixels f w)).
Proof.
  intros Hw HQ Hbody. unfold line_loop. cbn [fst snd].
  eapply returns_mono.
  - apply while_inv with
      (P := λ s, ∃ k q, 0 ≤ k ≤ w ∧ Q k q ∧ s = (zwrite rgb p (pixels f k), p + 3 * k, q))
      (measure := λ s, p + 3 * w - s.1.2).
    + exists 0, 0. split; [lia|]. split; [done|].
      change (pixels f 0) with (@nil Z). rewrite zwrite_nil. do 2 f_equal. lia.
    + cbn [fst snd]. lia.
    + intros s (k & q & Hk & HQk & ->). cbn [fst snd]. intros Hc. propify.
      split; [lia|]. eapply returns_mono; [apply Hbody; [lia|done]|].
      intros s' (k' & q' & Hk' & HQ' & ->). cbn [fst snd]. split; [|lia].
      exists k', q'. split; [lia|done].
  - intros s [(k & q & Hk & _ & ->) Hc]. cbn [fst snd] in *. propify.
    by replace k with w by lia.
Qed.

Lemma load_byte_at l i : 0 ≤ i < zlen l → load l i = Done (byte_at l i).
Proof.
  intros Hi. destruct (zget_is_Some l i Hi) as [x Hx]. rewrite (load_ok _ _ x Hx).
  unfold byte_at. by rewrite Hx.
Qed.

Lemma byte_at_byte l i : Forall is_byte l → is_byte (byte_at l i).
Proof.
  intros Hl. unfold byte_at. destruct (zget l i) as [x|] eqn:Hx; [|done]. cbn.
  pose proof (zget_Some_range _ _ _ Hx). rewrite zget_of_lookup in Hx by lia.
  by eapply Forall_lookup_1.
Qed.

Lemma load_palette pal i :
  0 ≤ i < zlen pal →
  returns (load pal i) (λ c, (red c, green c, blue c) = pal_rgb pal i).
Proof.
  intros Hi. destruct (zget_is_Some pal i Hi) as [x Hx]. rewrite (load_ok _ _ x Hx).
  cbn. unfold pal_rgb. by rewrite Hx.
Qed.

Definition byte_bits_ok (v : Z) : bool :=
  (Z.shiftr (Z.land v 0xf0) 4 =? v / 16) && (Z.land v 0x0f =? v mod 16) &&
  forallb (λ k, Z.land (Z.shiftr v (7 - k)) 1 =? v / 2 ^ (7 - k) mod 2) (seqZ 0 8).

Lemma byte_bits v : is_byte v → byte_bits_ok v = true.
Proof.
  intros Hv. assert (forallb byte_bits_ok (seqZ 0 256) = true) as H by (by vm_compute).
  rewrite forallb_forall in H. apply H, list_elem_of_In, elem_of_seqZ.
  unfold is_byte in Hv. lia.
Qed.

Lemma nibbles v : is_byte v → Z.shiftr (Z.land v 0xf0) 4 = v / 16 ∧ Z.land v 0x0f = v mod 16.
Proof. intros Hv%byte_bits. unfold byte_bits_ok in Hv. propify. done. Qed.

Lemma bit_of_byte v k :
  is_byte v → 0 ≤ k < 8 → Z.land (Z.shiftr v (7 - k)) 1 = v / 2 ^ (7 - k) mod 2.
Proof.
  intros Hv%byte_bits Hk. unfold byte_bits_ok in Hv. propify.
  match goal with H : forallb _ _ = true |- _ => rewrite forallb_forall in H; specialize (H k) end.
  apply Z.eqb_eq. apply H0. apply list_elem_of_In, elem_of_seqZ. lia.
Qed.

Section decoders.
Context (rgb : list Z) (p w : Z) (file : list Z) (pal : list bmp_palette_entry).
Hypothesis Hp : 0 ≤ p.
Hypothesis Hw : 0 ≤ w.
Hypothesis Hrgb : p + 3 * w ≤ zlen rgb.
Hypothesis Hbytes : Forall is_byte file.

Let result (bits : Z) : list Z := zwrite rgb p (pixels (pixel_color bits pal file) w).

Ltac run_line Inv :=
  apply returns_eq, returns_bind;
  eapply returns_mono; [apply line_loop_pixels with (Q := Inv);
    [exact Hw| |intros k q Hk HQ] | intros s Hs; cbn; exact Hs].

Lemma Decode24_line :
  line_need 24 w ≤ zlen file →
  Decode24 rgb p (p + 3 * w) file pal = Done (result 24).
Proof using Hp Hw Hrgb.
  unfold line_need. intros Hfile. run_line (λ k q : Z, q = 3 * k); [lia|]. subst q.
  rewrite !load_byte_at by lia. cbn [mbind res_bind].
  erewrite put3_pixels; [|lia|lia|lia|].
  - cbn. exists (k + 1), (3 * k + 3). split; [lia|]. split; [lia|]. do 2 f_equal. lia.
  - unfold pixel_color. cbn. do 3 f_equal; lia.
Qed.

Lemma Decode8_line :
  line_need 8 w ≤ zlen file → 256 ≤ zlen pal →
  Decode8 rgb p (p + 3 * w) file pal = Done (result 8).
Proof using Hp Hw Hrgb Hbytes.
  unfold line_need. intros Hfile Hpal. run_line (λ k q : Z, q = k); [lia|]. subst q.
  rewrite load_byte_at by lia. cbn [mbind res_bind].
  pose proof (byte_at_byte file k Hbytes) as Hb. unfold is_byte in Hb.
  apply returns_bind. eapply returns_mono; [apply load_palette; lia|]. intros c Hc.
  erewrite put3_pixels; [|lia|lia|lia|].
  - cbn. exists (k + 1), (k + 1). split; [lia|]. split; [lia|]. do 2 f_equal. lia.
  - unfold pixel_color. cbn. done.
Qed.

Lemma Decode4_line :
  line_need 4 w ≤ zlen file → 16 ≤ zlen pal →
  Decode4 rgb p (p + 3 * w) file pal = Done (result 4).
Proof using Hp Hw Hrgb Hbytes.
  unfold line_need. intros Hfile Hpal.
  run_line (λ k q : Z, q = k / 2 ∧ (k mod 2 = 0 ∨ k = w)); [lia|].
  destruct HQ as [-> [Hev|]]; [|lia].
  pose proof (byte_at_byte file (k / 2) Hbytes) as Hb.
  destruct (nibbles _ Hb) as [Hhi Hlo]. unfold is_byte in Hb.
  rewrite load_byte_at by lia. cbn [mbind res_bind]. rewrite Hhi.
  apply returns_bind. eapply returns_mono; [apply load_palette; lia|]. intros c Hc.
  erewrite put3_pixels; [|lia|lia|lia|].
  2: { unfold pixel_color. cbn. rewrite (proj2 (Z.eqb_eq (k mod 2) 0)) by lia. done. }
  cbn [mbind res_bind]. case_if.
  - rewrite Hlo. apply returns_bind.
    eapply returns_mono; [apply load_palette; lia|]. intros c' Hc'.
    replace (p + 3 * k + 3) with (p + 3 * (k + 1)) by lia.
    erewrite put3_pixels; [|lia|lia|lia|].
    + cbn. exists (k + 1 + 1), (k / 2 + 1). split; [lia|]. split; [lia|]. do 2 f_equal. lia.
    + unfold pixel_color. cbn. replace ((k + 1) / 2) with (k / 2) by lia.
      rewrite (proj2 (Z.eqb_neq ((k + 1) mod 2) 0)) by lia. done.
  - cbn. exists (k + 1), (k / 2). split; [lia|]. split; [lia|]. do 2 f_equal. lia.
Qed.

Lemma bit_loop_line k :
  line_need 1 w ≤ zlen file → 2 ≤ zlen pal → 0 ≤ k < w → k mod 8 = 0 →
  let f := pixel_color 1 pal file in
  returns (bit_loop (p + 3 * w) file pal (k / 8) (zwrite rgb p (pixels f k)) (p + 3 * k))
    (λ s, let k' := Z.min (k + 8) w in
          s.1.1 = zwrite rgb p (pixels f k') ∧ s.1.2 = p + 3 * k').
Proof using Hp Hw Hrgb Hbytes.
  unfold line_need. intros Hfile Hpal Hk Hk8; cbv zeta; set (f := pixel_color 1 pal file). unfold bit_loop. eapply returns_mono.
  - apply while_inv with (measure := λ s, 8 - s.2)
      (P := λ s, ∃ b, 0 ≤ b ≤ 8 ∧ k + b ≤ w ∧
        s = (zwrite rgb p (pixels f (k + b)), p + 3 * (k + b), b)).
    + exists 0. split; [lia|]. split; [lia|]. by rewrite Z.add_0_r.
    + cbn. lia.
    + intros s (b & Hb & Hkb & ->) Hc. propify. cbn [fst snd]. split; [lia|].
      pose proof (byte_at_byte file (k / 8) Hbytes) as Hbyte.
      rewrite load_byte_at by lia. cbn [mbind res_bind].
      rewrite bit_of_byte by (done || lia).
      apply returns_bind. eapply returns_mono; [apply load_palette; lia|]. intros c' Hc'.
      erewrite put3_pixels; [|lia|lia|lia|].
      * cbn. split; [|lia]. exists (b + 1). split; [lia|]. split; [lia|].
        rewrite !Z.add_assoc. do 2 f_equal. lia.
      * unfold f, pixel_color. cbn. rewrite Hc'.
        replace ((k + b) / 8) with (k / 8) by lia.
        by replace ((k + b) mod 8) with b by lia.
  - intros s [(b & Hb & Hkb & ->) Hc]. cbn [fst snd]. propify.
    assert (k + b = Z.min (k + 8) w) as -> by (destruct Hc; propify; lia). done.
Qed.

Lemma Decode1_line :
  line_need 1 w ≤ zlen file → 2 ≤ zlen pal →
  Decode1 rgb p (p + 3 * w) file pal = Done (result 1).
Proof using Hp Hw Hrgb Hbytes.
  intros Hfile Hpal.
  run_line (λ k q : Z, q = (k + 7) / 8 ∧ (k mod 8 = 0 ∨ k = w)); [lia|].
  destruct HQ as [-> [Hev|]]; [|lia].
  replace ((k + 7) / 8) with (k / 8) by lia.
  apply returns_bind. eapply returns_mono; [by apply bit_loop_line|].
  intros [[rgb' p'] b'] [Hr Hq]. cbn in Hr, Hq |- *. subst.
  exists (Z.min (k + 8) w), (k / 8 + 1). split; [lia|]. split; [lia|]. done.
Qed.
End decoders.

(** * Lemmas: decoding the lines of the file *)

Section lines.
Context (dec : decoder) (bits w fll p0 inc nlines N : Z)
        (pal : list bmp_palette_entry) (bytes : list Z) (off : Z).
Hypothesis Hbytes : Forall is_byte bytes.
Hypothesis Hoff : 0 ≤ off.
Hypothesis Hfll : 0 < fll.
Hypothesis Hw : 0 ≤ w.
Hypothesis Hinc : 3 * w ≤ Z.abs inc ∧ inc ≠ 0.
Hypothesis Hrows : ∀ i, 0 ≤ i < nlines → 0 ≤ p0 + i * inc ∧ p0 + i * inc + 3 * w ≤ N.
Hypothesis Hdec : ∀ rgb p file, 0 ≤ p → p + 3 * w ≤ zlen rgb → zlen file = fll →
  Forall is_byte file →
  dec rgb p (p + 3 * w) file pal = Done (zwrite rgb p (pixels (pixel_color bits pal file) w)).

(** Line [i] of the pixel data, in file order. *)
Definition file_line (i : Z) : list Z := zslice bytes (off + i * fll) fll.

Definition rows_done (m : Z) (rgb : list Z) : Prop :=
  zlen rgb = N ∧
  ∀ i j, 0 ≤ i < m → 0 ≤ j < 3 * w →
    zget rgb (p0 + i * inc + j) = zget (pixels (pixel_color bits pal (file_line i)) w) j.

Lemma rows_done_step m rgb :
  0 ≤ m < nlines → rows_done m rgb →
  rows_done (m + 1)
    (zwrite rgb (p0 + m * inc) (pixels (pixel_color bits pal (file_line m)) w)).
Proof using Hw Hinc Hrows.
  intros Hm [Hlen Hrgb]. destruct (Hrows m Hm) as [H0 H1].
  pose proof (zlen_pixels (pixel_color bits pal (file_line m)) w Hw) as Hl.
  split; [by rewrite zlen_zwrite by lia|].
  intros i j Hi Hj. destruct (decide (i = m)) as [->|Hne].
  - by rewrite zget_zwrite_in by lia.
  - rewrite zget_zwrite_out; [apply Hrgb; lia|lia|lia|]. rewrite Hl.
    assert (p0 + i * inc + j - (p0 + m * inc) = (i - m) * inc + j) as Hd by ring.
    assert (i - m ≤ -1) as Hle by lia. destruct Hinc as [Habs Hn0].
    destruct (Z.abs_spec inc) as [[Hs Ha]|[Hs Ha]]; rewrite Ha in Habs.
    + assert ((i - m) * inc ≤ -1 * inc) by (apply Z.mul_le_mono_nonneg_r; lia). lia.
    + assert (-1 * inc ≤ (i - m) * inc) by (apply Z.mul_le_mono_nonpos_r; lia). lia.
Qed.

Lemma decode_lines_spec n m f rgb file :
  Z.of_nat n = nlines - m → 0 ≤ m → fdata f = bytes → fpos f = off + m * fll →
  rows_done m rgb → zlen file = fll →
  returns (decode_lines n dec pal fll inc (p0 + nlines * inc)
             (mkLines f rgb file (p0 + m * inc) (p0 + m * inc + 3 * w)))
    (λ s, ∃ m', m ≤ m' ≤ nlines ∧ ls_p s = p0 + m' * inc ∧ rows_done m' (ls_rgb s) ∧
          zlen (ls_file s) = fll ∧
          (m' < nlines → zlen bytes < off + (m' + 1) * fll) ∧
          (m' = nlines → m < nlines → off + nlines * fll ≤ zlen bytes)).
Proof using All.
  revert m f rgb file.
  induction n as [|n IH]; intros m f rgb file Hn Hm Hf Hpos Hrgb Hfile;
    cbn [decode_lines ls_p ls_fp ls_rgb ls_file ls_end].
  - replace m with nlines in * by lia. rewrite Z.eqb_refl. cbn.
    exists nlines. repeat split; try lia; apply Hrgb || done.
  - rewrite (proj2 (Z.eqb_neq _ _)).
    2: { destruct Hinc as [_ Hn0]. intros Heq.
         assert ((nlines - m) * inc = 0) as H0 by lia. apply Z.mul_eq_0 in H0. lia. }
    unfold fread. rewrite Hf, Hpos.
    pose proof (zslice_zlen_le bytes (off + m * fll) fll) as Hsl.
    assert (0 ≤ m * fll) by nia.
    fold (file_line m) in *. pose proof (zlen_nonneg (file_line m)).
    destruct (zlen (file_line m) =? fll) eqn:Hgot; propify; cbn [negb].
    + assert (off + m * fll + fll ≤ zlen bytes) as Hfit.
      { revert Hgot. unfold file_line, zslice, zlen. rewrite length_take, length_drop. lia. }
      replace (file_line m ++ drop (length (file_line m)) file) with (file_line m).
      2: { rewrite drop_ge, app_nil_r; [done|]. unfold zlen in *. lia. }
      destruct (Hrows m) as [Hr0 Hr1]; [lia|]. pose proof Hrgb as [HN _].
      rewrite Hdec; [|lia|lia|done|by apply zslice_Forall]. cbn [mbind res_bind].
      replace (p0 + m * inc + inc) with (p0 + (m + 1) * inc) by ring.
      replace (p0 + m * inc + 3 * w + inc) with (p0 + (m + 1) * inc + 3 * w) by ring.
      eapply returns_mono; [apply IH; cbn [fdata fpos]|].
      * lia.
      * lia.
      * done.
      * rewrite Hgot. ring.
      * apply rows_done_step; [lia|done].
      * done.
      * intros s (m' & Hm' & Hp & Hd & Hl & Hshort & Hlong). exists m'.
        repeat split; try done; try apply Hd; lia.
    + cbn. exists m. repeat split; try lia; try apply Hrgb.
      * unfold zlen in *. rewrite length_app, length_drop. lia.
      * intros _. revert Hgot. unfold file_line, zslice, zlen.
        rewrite length_take, length_drop. lia.
Qed.

(** From the first line on: complete exactly when the file has all lines. *)
Lemma decode_image rgb file :
  0 < nlines → zlen rgb = N → zlen file = fll →
  returns (decode_lines (Z.to_nat nlines) dec pal fll inc (p0 + nlines * inc)
             (mkLines (mkFile bytes off) rgb file p0 (p0 + w * 3)))
    (λ s, (ls_p s =? p0 + nlines * inc) = (off + nlines * fll <=? zlen bytes) ∧
          ((ls_p s =? p0 + nlines * inc) = true → rows_done nlines (ls_rgb s))).
Proof using All.
  intros Hn Hrgb Hfile.
  assert (mkLines (mkFile bytes off) rgb file p0 (p0 + w * 3) =
          mkLines (mkFile bytes off) rgb file (p0 + 0 * inc) (p0 + 0 * inc + 3 * w)) as ->
    by (f_equal; ring).
  eapply returns_mono; [apply decode_lines_spec; try done; try lia|].
  - cbn. lia.
  - split; [done|]. intros; lia.
  - intros s (m' & Hm' & Hp & Hd & Hl & Hshort & Hlong).
    destruct Hinc as [_ Hinc0]. rewrite Hp.
    assert ((p0 + m' * inc =? p0 + nlines * inc) = (m' =? nlines)) as ->.
    { apply eq_true_iff_eq. rewrite !Z.eqb_eq. nia. }
    split; [|by intros ->%Z.eqb_eq].
    apply eq_true_iff_eq. rewrite Z.eqb_eq, Z.leb_le. split; intros ?; [lia|]. nia.
Qed.
End lines.

(** * Lemmas: validation *)

(** The fields of the file, by their offsets. *)
Definition le_at (bytes : list Z) (o n : Z) : Z := le_value (zslice bytes o n).

Definition header_of (bytes : list Z) : bmp_header :=
  mkHeader (byte_at bytes 0) (byte_at bytes 1) (le_at bytes 2 4) (le_at bytes 6 4)
    (le_at bytes 10 4).

Definition info_of (bytes : list Z) : bmp_info :=
  mkInfo (le_at bytes 14 4) (sext 32 (le_at bytes 18 4)) (sext 32 (le_at bytes 22 4))
    (le_at bytes 26 2) (le_at bytes 28 2) (le_at bytes 30 4).

Definition palette_entry_at (bytes : list Z) (base i : Z) : bmp_palette_entry :=
  let o := base + 4 * i in
  mkEntry (byte_at bytes o) (byte_at bytes (o + 1)) (byte_at bytes (o + 2)) (byte_at bytes (o + 3)).

Definition bmp_line_len (i : bmp_info) : Z := 4 * ((iwidth i * bits i + 31) / 32).

(** The flags by their bits: 0 for rows from the top, 1 for lines without
    padding, 2 for any size. *)
Definition out_line_len (flgs : Z) (i : bmp_info) : Z :=
  if Z.testbit flgs 1 then iwidth i * 3
  else 4 * ((iwidth i * 24 + 31) / 32).

Lemma has_flag_bit flgs k : 0 ≤ k → has_flag flgs (2 ^ k) = Z.testbit flgs k.
Proof. intros. unfold has_flag. rewrite land_pow2_zero by done. apply negb_involutive. Qed.

Lemma has_top_down flgs : has_flag flgs BMPREAD_TOP_DOWN = Z.testbit flgs 0.
Proof. by apply (has_flag_bit flgs 0). Qed.
Lemma has_byte_align flgs : has_flag flgs BMPREAD_BYTE_ALIGN = Z.testbit flgs 1.
Proof. by apply (has_flag_bit flgs 1). Qed.
Lemma has_any_size flgs : has_flag flgs BMPREAD_ANY_SIZE = Z.testbit flgs 2.
Proof. by apply (has_flag_bit flgs 2). Qed.

Lemma le_at_bound bytes o n :
  Forall is_byte bytes → 0 ≤ o → 0 ≤ n → o + n ≤ zlen bytes →
  0 ≤ le_at bytes o n < 2 ^ (8 * n).
Proof.
  intros Hb Ho Hn Hl. unfold le_at.
  pose proof (le_value_bound (zslice bytes o n)) as Hv.
  rewrite zlen_zslice in Hv by lia. by apply Hv, zslice_Forall.
Qed.

(** The readers on a file of bytes. *)
Section readers.
Context (bytes : list Z) (Hb : Forall is_byte bytes).

Lemma read_uint8 o :
  0 ≤ o → ReadUint8 (mkFile bytes o) =
  if o + 1 <=? zlen bytes then Some (byte_at bytes o, mkFile bytes (o + 1)) else None.
Proof using Hb.
  intros Ho. unfold ReadUint8, fgetc. cbn [fdata fpos].
  destruct (zget bytes o) as [b|] eqn:E; cbn [mbind option_bind].
  - pose proof (zget_Some_range _ _ _ E). pose proof (byte_at_byte bytes o Hb) as Hv.
    unfold byte_at in *. rewrite E in *. cbn in *. case_if; [|lia].
    unfold is_byte in Hv. unfold u8. by rewrite Z.mod_small by lia.
  - apply zget_None in E. case_if; [lia|done].
Qed.

Lemma read_uint32 o :
  0 ≤ o → ReadLittleUint32 (mkFile bytes o) =
  if o + 4 <=? zlen bytes then Some (le_at bytes o 4, mkFile bytes (o + 4)) else None.
Proof using Hb. intros. apply (ReadLittleBytes_value 4); [done|lia]. Qed.

Lemma read_int32 o :
  0 ≤ o → ReadLittleInt32 (mkFile bytes o) =
  if o + 4 <=? zlen bytes then Some (sext 32 (le_at bytes o 4), mkFile bytes (o + 4)) else None.
Proof using Hb.
  intros. unfold ReadLittleInt32. rewrite (ReadLittleBytes_value 4) by (done || lia).
  cbn [fdata fpos]. change (Z.of_nat 4) with 4. by case_if.
Qed.

Lemma read_uint16 o :
  0 ≤ o → ReadLittleUint16 (mkFile bytes o) =
  if o + 2 <=? zlen bytes then Some (le_at bytes o 2, mkFile bytes (o + 2)) else None.
Proof using Hb.
  intros. unfold ReadLittleUint16. rewrite (ReadLittleBytes_value 2) by (done || lia).
  cbn [fdata fpos]. change (Z.of_nat 2) with 2. case_if; [|done].
  cbn. unfold u16. pose proof (le_at_bound bytes o 2 Hb) as Hv.
  rewrite Z.mod_small; [done|]. apply Hv; lia.
Qed.

Lemma read_header :
  ReadHeader (mkFile bytes 0) =
  if 14 <=? zlen bytes then Some (header_of bytes, mkFile bytes 14) else None.
Proof using Hb.
  unfold ReadHeader.
  rewrite read_uint8 by lia; case_if; cbn [mbind option_bind]; [|by case_if; [lia|]].
  rewrite read_uint8 by lia; case_if; cbn [mbind option_bind]; [|by case_if; [lia|]].
  do 3 (rewrite read_uint32 by lia; case_if; cbn [mbind option_bind]; [|by case_if; [lia|]]).
  by case_if; [|lia].
Qed.

Lemma read_info :
  ReadInfo (mkFile bytes 14) =
  if 34 <=? zlen bytes then Some (info_of bytes, mkFile bytes 34) else None.
Proof using Hb.
  unfold ReadInfo.
  rewrite read_uint32 by lia; case_if; cbn [mbind option_bind]; [|by case_if; [lia|]].
  do 2 (rewrite read_int32 by lia; case_if; cbn [mbind option_bind]; [|by case_if; [lia|]]).
  do 2 (rewrite read_uint16 by lia; case_if; cbn [mbind option_bind]; [|by case_if; [lia|]]).
  rewrite read_uint32 by lia; case_if; cbn [mbind option_bind]; [|by case_if; [lia|]].
  by case_if; [|lia].
Qed.
End readers.

Lemma read_palette_entries bytes base n i pal :
  0 ≤ base → 0 ≤ i → i + Z.of_nat n ≤ zlen pal →
  returns (read_palette_loop n i pal (mkFile bytes (base + 4 * i))) (λ r,
    match r with
    | None => zlen bytes < base + 4 * (i + Z.of_nat n)
    | Some (pal', f) =>
        (n = 0%nat ∨ base + 4 * (i + Z.of_nat n) ≤ zlen bytes) ∧
        0 ≤ fpos f ∧ fdata f = bytes ∧ zlen pal' = zlen pal ∧
        ∀ j, 0 ≤ j < i + Z.of_nat n →
          zget pal' j = if j <? i then zget pal j else Some (palette_entry_at bytes base j)
    end).
Proof.
  intros Hbase. revert i pal.
  induction n as [|n IH]; intros i pal Hi Hlen; cbn [read_palette_loop].
  - cbn. split; [by left|]. split; [lia|]. do 2 (split; [done|]).
    intros j Hj. by case_if; [|lia].
  - unfold fread. cbn [fdata fpos].
    destruct (decide (base + 4 * i + 4 ≤ zlen bytes)) as [Hfit|Hshort].
    + assert (∀ k, 0 ≤ k < zlen bytes → zget bytes k = Some (byte_at bytes k)) as Hat.
      { intros k Hk. by apply load_inv, load_byte_at. }
      rewrite (zslice_cons bytes (base + 4 * i) 4 _) by (lia || (apply Hat; lia)).
      rewrite (zslice_cons bytes (base + 4 * i + 1) (4 - 1) _) by (lia || (apply Hat; lia)).
      rewrite (zslice_cons bytes (base + 4 * i + 1 + 1) (4 - 1 - 1) _)
        by (lia || (apply Hat; lia)).
      rewrite (zslice_cons bytes (base + 4 * i + 1 + 1 + 1) (4 - 1 - 1 - 1) _)
        by (lia || (apply Hat; lia)).
      change (zslice bytes (base + 4 * i + 1 + 1 + 1 + 1) (4 - 1 - 1 - 1 - 1)) with (@nil Z).
      change (zlen [byte_at bytes (base + 4 * i); byte_at bytes (base + 4 * i + 1);
        byte_at bytes (base + 4 * i + 1 + 1); byte_at bytes (base + 4 * i + 1 + 1 + 1)]) with 4.
      cbn [app]. rewrite store_ok by lia. cbn [mbind res_bind].
      replace (base + 4 * i + 4) with (base + 4 * (i + 1)) by lia.
      eapply returns_mono; [apply IH; [lia|rewrite zlen_zupd; lia]|].
      intros [[pal' f]|]; [|lia]. intros (Hn & Hp & Hf & Hl & Hj).
      split; [right; lia|]. do 2 (split; [done|]). rewrite zlen_zupd in Hl. split; [done|].
      intros j Hjr. rewrite Hj by lia. destruct (decide (j = i)) as [->|Hne].
      * rewrite zget_zupd_eq by lia. repeat case_if; try lia.
        unfold palette_entry_at. do 2 f_equal; f_equal; lia.
      * rewrite zget_zupd_ne by lia. by repeat case_if; try lia.
    + assert (zlen (zslice bytes (base + 4 * i) 4) < 4) as Hl.
      { unfold zslice, zlen in *. rewrite length_take, length_drop. lia. }
      destruct (zslice bytes (base + 4 * i) 4) as [|a [|b [|c [|d [|]]]]]; cbn; lia ||
        (exfalso; unfold zlen in Hl; cbn in Hl; lia).
Qed.

Lemma read_palette bytes base pal :
  0 ≤ base → 0 < zlen pal →
  returns (ReadPalette pal (zlen pal) (mkFile bytes base)) (λ r,
    match r with
    | None => (base + 4 * zlen pal <=? zlen bytes) = false
    | Some (pal', f) =>
        (base + 4 * zlen pal <=? zlen bytes) = true ∧ 0 ≤ fpos f ∧ fdata f = bytes ∧
        pal' = palette_entry_at bytes base <$> seqZ 0 (zlen pal)
    end).
Proof.
  intros Hbase Hpal. unfold ReadPalette.
  replace base with (base + 4 * 0) at 1 by lia.
  eapply returns_mono; [apply read_palette_entries; lia|].
  intros [[pal' f]|].
  - intros (Hn & Hp & Hf & Hl & Hj). rewrite Z2Nat.id in * by lia.
    split; [apply Z.leb_le; lia|]. do 2 (split; [done|]).
    apply zlist_eq; [rewrite zlen_fmap, zlen_seqZ; lia|].
    intros j Hr. rewrite Hj by lia. rewrite zget_fmap_seqZ by lia. by case_if; [lia|].
  - rewrite Z2Nat.id by lia. intros. apply Z.leb_gt. lia.
Qed.

(** The reference power-of-two test. *)
Definition pow2b (x : Z) : bool := existsb (λ k, x =? 2 ^ k) (seqZ 0 32).

Lemma pow2b_spec x : pow2b x = true ↔ is_power_of_2 x.
Proof.
  unfold pow2b, is_power_of_2. rewrite existsb_exists. split.
  - intros (k & Hk%list_elem_of_In%elem_of_seqZ & He). propify. exists k. lia.
  - intros (k & Hk & ->). exists k. rewrite Z.eqb_refl. split; [|done].
    apply list_elem_of_In, elem_of_seqZ. lia.
Qed.

Lemma IsPowerOf2_value x : 0 ≤ x < 2 ^ 32 → IsPowerOf2 x = Done (pow2b x).
Proof.
  intros Hx. destruct (returns_inv _ _ (IsPowerOf2_returns x Hx)) as (b & -> & Hb).
  f_equal. apply eq_true_iff_eq. by rewrite Hb, pow2b_spec.
Qed.

(** Header data the loader accepts, apart from the sizes it demands. *)
Record info_ok (h : bmp_header) (i : bmp_info) : Prop := {
  ok_width : 0 < iwidth i ≤ INT_MAX;
  ok_height : INT_MIN ≤ iheight i ≤ INT_MAX ∧ iheight i ≠ 0;
  ok_bits : bits i = 1 ∨ bits i = 4 ∨ bits i = 8 ∨ bits i = 24;
  ok_info_size : 0 ≤ info_size i < 2 ^ 32;
  ok_offset : 0 ≤ data_offset h < 2 ^ 32 }.

Lemma header_info_ok bytes :
  Forall is_byte bytes → 34 ≤ zlen bytes → header_ok (header_of bytes) (info_of bytes) = true →
  info_ok (header_of bytes) (info_of bytes).
Proof.
  intros Hb Hl Hok. unfold header_ok in Hok. propify.
  assert (iwidth (info_of bytes) ≠ 0 ∧ 0 < iwidth (info_of bytes)) by lia.
  pose proof (sext32_range (le_at bytes 18 4)). pose proof (sext32_range (le_at bytes 22 4)).
  pose proof (le_at_bound bytes 14 4 Hb) as Hi. pose proof (le_at_bound bytes 10 4 Hb) as Ho.
  split; cbn in *; repeat match goal with
    | H : _ ∨ _ |- _ => destruct H; propify
    end; lia.
Qed.

(** The reference acceptance tests, in the order of the code. *)
Definition sizes_accepted (flgs : Z) (i : bmp_info) : bool :=
  negb (iheight i =? INT_MIN) &&
  (Z.testbit flgs 2 || (pow2b (iwidth i) && pow2b (Z.abs (iheight i)))).

Definition palette_accepted (e : env) (bytes : list Z) (i : bmp_info) : bool :=
  (8 <? bits i) ||
  (palette_ok e (2 ^ bits i * 4) && (14 + info_size i + 4 * 2 ^ bits i <=? zlen bytes)).

Definition buffers_accepted (e : env) (flgs : Z) (i : bmp_info) : bool :=
  file_data_ok e (bmp_line_len i) &&
  rgb_data_ok e (Z.abs (iheight i) * out_line_len flgs i).

Definition bmp_palette (bytes : list Z) (i : bmp_info) : option (list bmp_palette_entry) :=
  if 8 <? bits i then None
  else Some (palette_entry_at bytes (14 + info_size i) <$> seqZ 0 (2 ^ bits i)).

Definition with_sizes (c : read_context) : read_context :=
  set_lines (Z.abs (iheight (info c)))
    (set_rgb_line_len (out_line_len (flags c) (info c))
      (set_file_line_len (bmp_line_len (info c)) c)).

Lemma Validate_sizes_spec c :
  info_ok (header c) (info c) →
  returns (Validate_sizes c) (λ r,
    r.1 = sizes_accepted (flags c) (info c) ∧ (r.1 = true → r.2 = with_sizes c)).
Proof.
  intros [Hw [Hh Hh0] Hbits _ _]. unfold Validate_sizes, INT_MAX in *.
  unfold CanMakeSizeT. case_if; [done|]. cbn [negb].
  assert (u64 (iwidth (info c)) = iwidth (info c)) as Hu by (unfold u64; apply Z.mod_small; lia).
  rewrite Hu.
  assert (0 < bits (info c) ≤ 24) as Hb by lia.
  assert (0 < iwidth (info c) * bits (info c) ≤ 24 * 2 ^ 31) as Hwb by nia.
  rewrite GetLineLength_value by lia. case_if; [|lia]. fold (bmp_line_len (info c)).
  cbn [mbind res_bind]. cbv zeta.
  assert (0 < bmp_line_len (info c)) as Hfll by (unfold bmp_line_len; lia).
  case_if; [lia|]. cbn [info set_file_line_len flags].
  rewrite CanMultiply_spec by lia.
  rewrite (proj2 (Z.leb_le _ SIZE_MAX)) by int_lia. cbn [mbind res_bind negb].
  assert ((if has_flag (flags c) BMPREAD_BYTE_ALIGN
           then mret (u64 (iwidth (info c) * 3))
           else GetLineLength (iwidth (info c)) 24) =
          Done (out_line_len (flags c) (info c))) as Hrll.
  { unfold out_line_len. rewrite has_byte_align. destruct (Z.testbit _ 1).
    - unfold u64. by rewrite Z.mod_small by lia.
    - rewrite GetLineLength_value by lia. by case_if; [|lia]. }
  rewrite !Hu, Hrll. cbn [mbind res_bind].
  assert (0 < out_line_len (flags c) (info c)) as Hrll0.
  { unfold out_line_len. case_if; lia. }
  rewrite (proj2 (Z.eqb_neq (out_line_len _ _) 0)) by lia.
  rewrite andb_false_r. cbn [info flags set_rgb_line_len set_file_line_len].
  unfold sizes_accepted, CanNegate.
  destruct (iheight (info c) =? INT_MIN) eqn:Hmin; propify; cbn [negb andb]; [done|].
  assert ((if iheight (info c) <? 0 then cint (- iheight (info c))
           else mret (iheight (info c))) = Done (Z.abs (iheight (info c)))) as ->.
  { case_if; [rewrite cint_ok by int_lia|]; cbn; f_equal; lia. }
  cbn [mbind res_bind info flags lines set_lines set_rgb_line_len set_file_line_len].
  rewrite has_any_size. destruct (Z.testbit _ 2); cbn [negb orb]; [done|].
  unfold u32. rewrite !Z.mod_small by int_lia.
  rewrite !IsPowerOf2_value by int_lia. cbn [mbind res_bind].
  by destruct (pow2b (iwidth _)).
Qed.

Lemma Validate_palette_spec e c bytes pos :
  info_ok (header c) (info c) → fp c = Some (mkFile bytes pos) → 0 ≤ pos → palette c = None →
  returns (Validate_palette e c) (λ r,
    r.1 = palette_accepted e bytes (info c) ∧
    (r.1 = true → ∃ pos', 0 ≤ pos' ∧
       r.2 = set_fp (Some (mkFile bytes pos')) (set_palette (bmp_palette bytes (info c)) c))).
Proof.
  intros [_ _ Hbits Hsz _] Hfp Hpos Hpal.
  unfold Validate_palette, palette_accepted, bmp_palette, BMP_HEADER_SIZE, BMP_PALETTE_ENTRY_SIZE.
  destruct (8 <? bits (info c)) eqn:H8; propify; cbn [orb].
  - split; [done|]. intros _. exists pos. split; [done|]. cbn. unfold set_fp, set_palette. cbn.
    rewrite <-Hfp, <-Hpal. by destruct c.
  - assert (0 < 2 ^ bits (info c)) as Hcol by (apply Z.pow_pos_nonneg; lia).
    rewrite Z.shiftl_mul_pow2, Z.mul_1_l by lia. cbv zeta. unfold malloc_cells.
    destruct (palette_ok e _); cbn [andb]; [|done].
    cbn [fp set_palette info]. rewrite Hfp. cbn [deref of_opt mbind res_bind].
    unfold CanMakeLong. case_if; [done|]. cbn [negb].
    unfold fseek_set. case_if; [lia|]. cbn [fdata].
    assert (zlen (junk_entry e <$> seqZ 0 (2 ^ bits (info c))) = 2 ^ bits (info c)) as Hl.
    { rewrite zlen_fmap, zlen_seqZ; lia. }
    pose proof (read_palette bytes (14 + info_size (info c))
      (junk_entry e <$> seqZ 0 (2 ^ bits (info c)))) as Hr.
    rewrite Hl in Hr. apply returns_bind.
    eapply returns_mono; [apply Hr; lia|].
    intros [[pal' [fd fpos]]|]; [|intros Hf; by rewrite Hf].
    intros (-> & Hp & <- & ->). cbn. split; [done|]. intros _. by exists fpos.
Qed.

Definition with_buffers (e : env) (c : read_context) : read_context :=
  set_rgb_data (Some (junk_byte e <$> seqZ 0 (lines c * rgb_line_len c)))
    (set_file_data (Some (junk_byte e <$> seqZ 0 (file_line_len c))) c).

Lemma Validate_buffers_spec e c :
  0 ≤ lines c ≤ 2 ^ 31 → 0 < rgb_line_len c ≤ 2 ^ 33 - 1 →
  returns (Validate_buffers e c) (λ r,
    r.1 = file_data_ok e (file_line_len c) && rgb_data_ok e (lines c * rgb_line_len c) ∧
    (r.1 = true → r.2 = with_buffers e c)).
Proof.
  intros Hl Hr. unfold Validate_buffers, malloc_cells, with_buffers.
  assert (0 ≤ lines c * rgb_line_len c < 2 ^ 64) as Hn by nia.
  destruct (file_data_ok e _); cbn [andb]; [|done]. cbv zeta.
  cbn [lines rgb_line_len set_file_data]. unfold CanMakeSizeT. case_if; [done|].
  cbn [negb]. rewrite CanMultiply_spec by lia.
  rewrite (proj2 (Z.leb_le _ SIZE_MAX)) by int_lia. cbn [mbind res_bind negb].
  unfold u64. rewrite Z.mod_small by lia. by destruct (rgb_data_ok e _).
Qed.

(** The context [Validate] leaves when it accepts the file. *)
Definition valid_context (e : env) (flgs : Z) (bytes : list Z) (pos : Z) : read_context :=
  let i := info_of bytes in
  let n := Z.abs (iheight i) * out_line_len flgs i in
  mkCtx flgs (Some (mkFile bytes pos)) (header_of bytes) i (Z.abs (iheight i))
    (bmp_line_len i) (out_line_len flgs i) (bmp_palette bytes i)
    (Some (junk_byte e <$> seqZ 0 (bmp_line_len i))) (Some (junk_byte e <$> seqZ 0 n)).

Definition headers_accepted (e : env) (flgs : Z) (bytes : list Z) : bool :=
  (34 <=? zlen bytes) && header_ok (header_of bytes) (info_of bytes) &&
  sizes_accepted flgs (info_of bytes) && palette_accepted e bytes (info_of bytes) &&
  buffers_accepted e flgs (info_of bytes).

Lemma Validate_spec e c flgs bytes :
  Forall is_byte bytes → c = set_fp (Some (mkFile bytes 0)) (set_flags flgs zero_context) →
  returns (Validate e c) (λ r,
    r.1 = headers_accepted e flgs bytes ∧
    (r.1 = true → ∃ pos, 0 ≤ pos ∧ r.2 = valid_context e flgs bytes pos)).
Proof.
  intros Hb ->. unfold Validate, headers_accepted. cbn [fp set_fp deref of_opt mbind res_bind].
  rewrite read_header by done.
  case_if; [|by rewrite (proj2 (Z.leb_gt 34 _)) by lia].
  rewrite read_info by done. destruct (34 <=? zlen bytes) eqn:H34; propify; [|done].
  cbv zeta. cbn [andb].
  destruct (header_ok _ _) eqn:Hok; cbn [negb andb]; [|done].
  pose proof (header_info_ok bytes Hb H34 Hok) as Hi. pose proof Hi as [Hw Hh Hbits _ _].
  apply returns_bind. eapply returns_mono; [by apply Validate_sizes_spec|].
  intros [ok c] [Hsz Hc]. cbn [fst snd] in *. cbn in Hsz. rewrite <-Hsz.
  destruct ok; cbn [andb]; [|done]. rewrite (Hc eq_refl). clear Hc.
  apply returns_bind.
  eapply returns_mono; [apply (Validate_palette_spec e _ bytes 34); done|].
  intros [ok c'] [Hpa Hc]. cbn [fst snd] in *. cbn in Hpa. rewrite <-Hpa.
  destruct ok; cbn [andb]; [|done].
  destruct (Hc eq_refl) as (pos & Hpos & ->). clear Hc.
  eapply returns_mono; [apply Validate_buffers_spec|].
  - change (lines _) with (Z.abs (iheight (info_of bytes))). int_lia.
  - change (rgb_line_len _) with (out_line_len flgs (info_of bytes)).
    unfold out_line_len. case_if; int_lia.
  - intros [ok c''] [Hbu Hc]. cbn [fst snd] in *. split; [done|].
    intros ->. rewrite (Hc eq_refl). by exists pos.
Qed.

(** * Lemmas: decoding the file *)

Lemma zget_pixels f w x k :
  0 ≤ x < w → 0 ≤ k < 3 → zget (pixels f w) (3 * x + k) = zget (rgb3 (f x)) k.
Proof.
  intros Hx Hk. unfold pixels. replace w with (x + (1 + (w - x - 1))) by lia.
  rewrite seqZ_app, fmap_app, concat_app by lia.
  rewrite seqZ_app, fmap_app, concat_app by lia. fold (pixels f x).
  pose proof (zlen_pixels f x) as Hl. rewrite zget_app_r by lia.
  rewrite Hl by lia. replace (3 * x + k - 3 * x) with k by lia.
  rewrite Z.add_0_l. change (concat _) with (rgb3 (f x)) at 1.
  apply zget_app_l. change (zlen (rgb3 (f x))) with 3. lia.
Qed.

Lemma rgb3_component c k : 0 ≤ k < 3 →
  zget (rgb3 c) k = Some (if k =? 0 then c.1.1 else if k =? 1 then c.1.2 else c.2).
Proof.
  intros Hk. assert (k = 0 ∨ k = 1 ∨ k = 2) as [->|[->| ->]] by lia; done.
Qed.

Definition same_order (flgs : Z) (i : bmp_info) : bool :=
  Bool.eqb (negb (iheight i <? 0)) (negb (Z.testbit flgs 0)).

(** The row of the output that row [r] of the file is decoded to. *)
Definition out_row (flgs : Z) (i : bmp_info) (r : Z) : Z :=
  if same_order flgs i then r else Z.abs (iheight i) - 1 - r.

(** Reference decoding of the whole file: pixel [x] of file row [r]. *)
Definition bmp_pixel (bytes : list Z) (r x : Z) : Z * Z * Z :=
  let i := info_of bytes in
  pixel_color (bits i) (default [] (bmp_palette bytes i))
    (file_line (bmp_line_len i) bytes (data_offset (header_of bytes)) r) x.

(** The components of a pixel of a file of bytes are bytes. *)
Lemma bmp_pixel_bytes bytes r x :
  Forall is_byte bytes → let '(cr, cg, cb) := bmp_pixel bytes r x in is_byte cr ∧ is_byte cg ∧ is_byte cb.
Proof.
  intros Hb. unfold bmp_pixel, pixel_color.
  assert (Forall is_byte (file_line (bmp_line_len (info_of bytes)) bytes (data_offset (header_of bytes)) r)) as Hl
    by by apply zslice_Forall.
  assert (∀ i, let '(cr, cg, cb) := pal_rgb (default [] (bmp_palette bytes (info_of bytes))) i in is_byte cr ∧ is_byte cg ∧ is_byte cb) as Hp.
  { intros i. unfold pal_rgb, entry_rgb. destruct (zget _ i) as [c|] eqn:E; [|done]. cbn.
    unfold bmp_palette in E. pose proof (zget_Some_range _ _ _ E) as Hr.
    destruct (8 <? _); cbn in E, Hr; [change (zlen []) with 0 in Hr; lia|].
    rewrite zget_of_lookup in E by lia. apply list_lookup_fmap_Some in E as (j & -> & _).
    cbn. split_and!; by apply byte_at_byte. }
  repeat case_if; try apply Hp. split_and!; by apply byte_at_byte.
Qed.

Definition pixels_present (bytes : list Z) : bool :=
  let i := info_of bytes in
  data_offset (header_of bytes) + Z.abs (iheight i) * bmp_line_len i <=? zlen bytes.

(** [rgb] holds the image: every pixel at its place in its output row. *)
Definition holds_image (flgs : Z) (bytes rgb : list Z) : Prop :=
  let i := info_of bytes in
  zlen rgb = Z.abs (iheight i) * out_line_len flgs i ∧
  ∀ r x k, 0 ≤ r < Z.abs (iheight i) → 0 ≤ x < iwidth i → 0 ≤ k < 3 →
    zget rgb (out_row flgs i r * out_line_len flgs i + 3 * x + k) =
    zget (rgb3 (bmp_pixel bytes r x)) k.

Lemma bmp_palette_length bytes i :
  bits i ≤ 8 → 0 < bits i → zlen (default [] (bmp_palette bytes i)) = 2 ^ bits i.
Proof.
  intros H8 H0. unfold bmp_palette. rewrite (proj2 (Z.ltb_ge _ _)) by lia. cbn.
  rewrite zlen_fmap. apply zlen_seqZ. apply Z.pow_nonneg. lia.
Qed.

Lemma bmp_line_len_need i :
  line_need (bits i) (iwidth i) ≤ bmp_line_len i.
Proof. unfold line_need, bmp_line_len. generalize (iwidth i * bits i). intros. lia. Qed.

(** Every decoder the switch selects decodes a line to the reference. *)
Lemma decoder_for_spec bytes i :
  (bits i = 1 ∨ bits i = 4 ∨ bits i = 8 ∨ bits i = 24) → 0 ≤ iwidth i →
  ∃ dec, decoder_for (bits i) = Some dec ∧
    ∀ rgb p file, 0 ≤ p → p + 3 * iwidth i ≤ zlen rgb → zlen file = bmp_line_len i →
      Forall is_byte file →
      dec rgb p (p + 3 * iwidth i) file (default [] (bmp_palette bytes i)) =
      Done (zwrite rgb p
        (pixels (pixel_color (bits i) (default [] (bmp_palette bytes i)) file) (iwidth i))).
Proof.
  intros Hbits Hw. pose proof (bmp_line_len_need i) as Hneed.
  pose proof (bmp_palette_length bytes i) as Hpal.
  destruct Hbits as [E|[E|[E|E]]]; rewrite E in *; eexists; (split; [reflexivity|]);
    intros rgb p file Hp Hrgb Hfile Hb.
  - apply Decode1_line; try done; rewrite ?Hpal; lia.
  - apply Decode4_line; try done; rewrite ?Hpal; lia.
  - apply Decode8_line; try done; rewrite ?Hpal; lia.
  - apply Decode24_line; try done; lia.
Qed.

Lemma rows_done_image flgs bytes rgb :
  let i := info_of bytes in
  let rll := out_line_len flgs i in
  rows_done (bits i) (iwidth i) (bmp_line_len i)
    (if same_order flgs i then 0 else (Z.abs (iheight i) - 1) * rll)
    (if same_order flgs i then rll else - rll) (Z.abs (iheight i) * rll)
    (default [] (bmp_palette bytes i)) bytes (data_offset (header_of bytes))
    (Z.abs (iheight i)) rgb →
  holds_image flgs bytes rgb.
Proof.
  cbv zeta. intros [Hlen Hrows]. split; [exact Hlen|].
  intros r x k Hr Hx Hk. specialize (Hrows r (3 * x + k)).
  rewrite zget_pixels in Hrows by lia. unfold bmp_pixel. rewrite <-Hrows by lia.
  f_equal. unfold out_row. destruct (same_order _ _); lia.
Qed.

Lemma out_line_len_ge flgs i : 0 < iwidth i → 3 * iwidth i ≤ out_line_len flgs i ≤ 3 * iwidth i + 3.
Proof. intros. unfold out_line_len. destruct (Z.testbit _ _); lia. Qed.

Lemma Decode_spec e flgs bytes pos :
  Forall is_byte bytes → info_ok (header_of bytes) (info_of bytes) → 0 ≤ pos →
  returns (Decode (valid_context e flgs bytes pos)) (λ r,
    r.1 = pixels_present bytes ∧
    ∃ f rgb file, r.2 = set_fp (Some f) (set_rgb_data (Some rgb)
        (set_file_data (Some file) (valid_context e flgs bytes pos))) ∧
      (r.1 = true → holds_image flgs bytes rgb)).
Proof.
  intros Hb [Hw [Hh Hh0] Hbits _ Hoff] Hpos. pose proof (rows_done_image flgs bytes) as Himg.
  cbv zeta in Himg. pose proof (decoder_for_spec bytes (info_of bytes) Hbits) as Hdec.
  pose proof (out_line_len_ge flgs (info_of bytes)) as Hrll. unfold pixels_present.
  unfold Decode, p_rgb_start, p_rgb_end_of, keep_order, valid_context. cbv zeta.
  cbn [flags fp header info lines file_line_len rgb_line_len palette file_data rgb_data].
  rewrite has_top_down. fold (same_order flgs (info_of bytes)).
  assert (0 < bmp_line_len (info_of bytes)) as Hfll.
  { unfold bmp_line_len. assert (0 < iwidth (info_of bytes) * bits (info_of bytes)) by nia. lia. }
  revert Hdec Himg Hrll Hfll Hw Hh Hh0 Hoff.
  generalize (out_line_len flgs (info_of bytes)) as rll.
  generalize (bmp_line_len (info_of bytes)) as fll.
  generalize (data_offset (header_of bytes)) as off.
  generalize (same_order flgs (info_of bytes)) as keep.
  intros keep off fll rll Hdec Himg Hrll Hfll Hw Hh Hh0 Hoff.
  case_if; [unfold PTRDIFF_MAX in *; int_lia|]. destruct Hdec as (dec & -> & Hdec); [lia|].
  unfold CanMakeLong. case_if; [done|]. cbn [negb deref of_opt mbind res_bind].
  unfold fseek_set. case_if; [lia|]. cbn [fdata].
  remember (Z.abs (iheight (info_of bytes))) as h eqn:Eh.
  remember (iwidth (info_of bytes)) as w eqn:Ew.
  replace (if keep then h * rll else - rll)
    with ((if keep then 0 else (h - 1) * rll) + h * (if keep then rll else - rll))
    by (destruct keep; ring).
  set (p0 := if keep then 0 else (h - 1) * rll) in *.
  set (inc := if keep then rll else - rll) in *.
  apply returns_bind. eapply returns_mono.
  - apply (decode_image dec (bits (info_of bytes)) w fll p0 inc h (h * rll));
      try done; rewrite ?zlen_fmap, ?zlen_seqZ; try lia.
    + unfold inc. destruct keep; lia.
    + intros i Hi. unfold p0, inc. destruct keep; nia.
    + nia.
  - intros s [Hall Hd]. cbn [mret res_ret returns fst snd]. split; [done|].
    exists (ls_fp s), (ls_rgb s), (ls_file s). split; [done|]. intros. by apply Himg, Hd.
Qed.

(** * Lemmas: the whole call *)

(** The files the loader accepts: the headers pass the checks, the
    allocations succeed and every scan line is there. *)
Definition readable (e : env) (flgs : Z) (bytes : list Z) : bool :=
  headers_accepted e flgs bytes && pixels_present bytes.

(** The same from the bytes of the file: an uncompressed bitmap that is all there,
    of a size that the flags allow, and memory for it. *)
Record acceptable (e : env) (flgs : Z) (bytes : list Z) : Prop := {
  ac_headers : 34 ≤ zlen bytes;
  ac_magic : zget bytes 0 = Some 66 ∧ zget bytes 1 = Some 77; (* BM *)
  ac_width : 0 < sext 32 (le_at bytes 18 4);
  ac_height : sext 32 (le_at bytes 22 4) ≠ 0 ∧ sext 32 (le_at bytes 22 4) ≠ - 2 ^ 31;
  ac_bits : le_at bytes 28 2 ∈ [1; 4; 8; 24];
  ac_plain : le_at bytes 30 4 = 0;
  ac_sizes : Z.testbit flgs 2 = true ∨
    is_power_of_2 (sext 32 (le_at bytes 18 4)) ∧ is_power_of_2 (Z.abs (sext 32 (le_at bytes 22 4)));
  ac_palette : le_at bytes 28 2 ≤ 8 → 14 + le_at bytes 14 4 + 4 * 2 ^ le_at bytes 28 2 ≤ zlen bytes;
  ac_pixels : le_at bytes 10 4 + Z.abs (sext 32 (le_at bytes 22 4)) * bmp_line_len (info_of bytes) ≤ zlen bytes;
  ac_memory : (le_at bytes 28 2 ≤ 8 → palette_ok e (4 * 2 ^ le_at bytes 28 2) = true) ∧
    file_data_ok e (bmp_line_len (info_of bytes)) = true ∧
    rgb_data_ok e (Z.abs (sext 32 (le_at bytes 22 4)) * out_line_len flgs (info_of bytes)) = true }.

Lemma header_ok_bytes bytes :
  Forall is_byte bytes → 34 ≤ zlen bytes →
  header_ok (header_of bytes) (info_of bytes) = true ↔
    (zget bytes 0 = Some 66 ∧ zget bytes 1 = Some 77) ∧ 0 < sext 32 (le_at bytes 18 4) ∧
    sext 32 (le_at bytes 22 4) ≠ 0 ∧ le_at bytes 30 4 = 0 ∧ le_at bytes 28 2 ∈ [1; 4; 8; 24].
Proof.
  intros Hb Hl. unfold header_ok, header_of, info_of. cbn [magic0 magic1 iwidth iheight compression bits].
  destruct (zget_is_Some bytes 0) as [m0 E0]; [lia|]. destruct (zget_is_Some bytes 1) as [m1 E1]; [lia|].
  unfold byte_at. rewrite E0, E1. cbn [default from_option id].
  pose proof (le_at_bound bytes 30 4 Hb ltac:(lia) ltac:(lia) ltac:(lia)).
  rewrite !andb_true_iff, !negb_true_iff, !orb_true_iff, orb_false_iff, !Z.eqb_eq, Z.eqb_neq, Z.leb_gt, Z.ltb_ge.
  rewrite !elem_of_cons, elem_of_nil. split.
  - intros ((((-> & ->) & ? & ?) & ?) & ?). split_and!; try done; [lia|tauto].
  - intros (([= ->] & [= ->]) & ? & ? & ? & ?). split_and!; try done; [lia|tauto].
Qed.

Lemma readable_acceptable e flgs bytes :
  Forall is_byte bytes → readable e flgs bytes = true ↔ acceptable e flgs bytes.
Proof.
  intros Hb. unfold readable, headers_accepted, sizes_accepted, palette_accepted, buffers_accepted, pixels_present.
  change INT_MIN with (- 2 ^ 31). cbn [iwidth iheight bits info_size data_offset info_of header_of].
  rewrite !andb_true_iff, !orb_true_iff, !andb_true_iff, !Z.leb_le, negb_true_iff, Z.eqb_neq, Z.ltb_lt, !pow2b_spec.
  rewrite (Z.mul_comm _ 4). split.
  - intros (((((Hl & Hh) & Hs) & Hp) & Hm) & Hx). apply header_ok_bytes in Hh as (? & ? & ? & ? & ?); [|done..].
    split; try done; try tauto; [intros ?; lia|]. split; [|tauto]. intros ?. destruct Hp as [|[? _]]; [lia|done].
  - intros [Hl Hmg Hw [Hh Hh'] Hbits Hpl Hs Hp Hx (Hm1 & Hm2 & Hm3)]. split_and!; try done.
    + rewrite header_ok_bytes by done. destruct Hmg. by split_and!.
    + destruct (Z.lt_ge_cases 8 (le_at bytes 28 2)); [by left|right]. auto.
Qed.

Definition image_result (flgs : Z) (bytes : list Z)
    (r : bool * option bmpread_t * read_context) : Prop :=
  if r.1.1 then
    ∃ rgb, r.1.2 = Some (mkBmp (iwidth (info_of bytes)) (Z.abs (iheight (info_of bytes)))
                           (Some rgb)) ∧
           rgb_data r.2 = Some rgb ∧ holds_image flgs bytes rgb
  else r.1.2 = Some zero_bmp ∧ rgb_data r.2 = None.

Definition released (c : read_context) : Prop :=
  fp c = None ∧ palette c = None ∧ file_data c = None.

Lemma headers_accepted_ok e flgs bytes :
  Forall is_byte bytes → headers_accepted e flgs bytes = true →
  info_ok (header_of bytes) (info_of bytes).
Proof. unfold headers_accepted. intros Hb H. propify. by apply header_info_ok. Qed.

Lemma bmpread_opened e name flgs bmp bytes :
  Forall is_byte bytes → fopen e name = Some bytes →
  returns (bmpread e (Some name) flgs (Some bmp)) (λ r,
    released r.2 ∧ r.1.1 = readable e flgs bytes ∧ image_result flgs bytes r).
Proof.
  intros Hb Hopen. unfold bmpread, readable, image_result. rewrite Hopen. cbv zeta.
  apply returns_bind. eapply returns_mono; [by apply Validate_spec with (bytes := bytes)|].
  intros [ok c] [Hok Hc]. cbn [fst snd] in *. rewrite <-Hok.
  destruct ok; cbn [negb andb]; [|done].
  destruct (Hc eq_refl) as (pos & Hpos & ->). clear Hc.
  apply returns_bind. eapply returns_mono; [apply Decode_spec; [done| |done]|].
  { apply (headers_accepted_ok e flgs); done. }
  intros [ok c] Hd. cbn [fst snd] in Hd. destruct Hd as (Hpix & f & rgb & file & -> & Himg).
  rewrite <-Hpix.
  destruct ok; [|done]. cbn. split; [done|]. split; [done|].
  exists rgb. split; [done|]. split; [done|]. by apply Himg.
Qed.

Lemma bmpread_not_opened e bmp_file flgs out :
  (∀ name, bmp_file = Some name → out = None ∨ fopen e name = None) →
  returns (bmpread e bmp_file flgs out) (λ r,
    released r.2 ∧ r.1.1 = false ∧ rgb_data r.2 = None).
Proof.
  intros H. unfold bmpread. destruct bmp_file as [name|]; [|done].
  destruct out as [b|]; [|done]. destruct (H name eq_refl) as [|Hn]; [done|].
  by rewrite Hn.
Qed.

(** * Properties *)

(** C26. On every file of bytes, every set of flags, null arguments and every
    pattern of allocation failures [bmpread] returns, having read and written
    only inside the file's bytes and its buffers, with no arithmetic overflow; it
    closes the file and frees the palette and the line buffer, and the output
    buffer is left allocated exactly on success. (Pointers are offsets here, see
    [reversed_end_outside] for one that C does not let it form.) *)
Theorem bmpread_total e bmp_file flgs out :
  (∀ name bytes, fopen e name = Some bytes → Forall is_byte bytes) →
  returns (bmpread e bmp_file flgs out) (λ r,
    released r.2 ∧ (is_Some (rgb_data r.2) ↔ r.1.1 = true) ∧
    (r.1.1 = true → bdata <$> r.1.2 = Some (rgb_data r.2))).
Proof.
  intros Hbytes.
  assert ((∃ name bytes bmp, bmp_file = Some name ∧ fopen e name = Some bytes ∧ out = Some bmp) ∨
          (∀ name, bmp_file = Some name → out = None ∨ fopen e name = None)) as Hcase.
  { destruct bmp_file as [name|]; [|by right]. destruct out as [bmp|]; [|right; auto].
    destruct (fopen e name) as [bytes|] eqn:E; [left; eauto 10|right; naive_solver]. }
  destruct Hcase as [(name & bytes & bmp & -> & Hopen & ->)|Hno].
  - eapply returns_mono; [apply (bmpread_opened e name flgs bmp bytes); eauto|].
    intros [[ok out'] c] (Hrel & _ & Hres). unfold image_result in Hres. cbn [fst snd] in *.
    split; [done|]. destruct ok.
    + destruct Hres as (rgb & -> & -> & _). split; [|done]. by split; [|eauto].
    + destruct Hres as [-> ->]. split; [|done]. split; [by intros []|done].
  - eapply returns_mono; [by apply bmpread_not_opened|].
    intros [[ok out'] c] (Hrel & -> & ->). cbn [fst snd]. split; [done|].
    split; [|done]. split; [by intros []|done].
Qed.

(** C1. On an opened file [bmpread] succeeds exactly when the file is an
    acceptable bitmap, told by its bytes: BM, positive width, height not 0, 1, 4,
    8 or 24 bits, no compression, powers of two unless the flags allow any size,
    palette and scan lines inside the file; and the allocations succeed. The
    result then has the dimensions of the header, and every pixel
    of the buffer is the reference decoding of the file's pixel, at the row the
    orientation and the flags select; otherwise the output struct is zeroed. *)
Theorem bmpread_image e name flgs bmp bytes :
  fopen e name = Some bytes → Forall is_byte bytes →
  returns (bmpread e (Some name) flgs (Some bmp)) (λ r,
    (r.1.1 = true ↔ acceptable e flgs bytes) ∧ image_result flgs bytes r).
Proof.
  intros Hopen Hb. eapply returns_mono; [by apply bmpread_opened|].
  intros r (_ & Hok & Hres). rewrite Hok. split; [by apply readable_acceptable|done].
Qed.

(** When the lines are reversed, as for a bitmap stored from the bottom that is
    asked for from the top, the end of the scan is before the output buffer, where
    C does not define a pointer. *)
Theorem reversed_end_outside c :
  0 < rgb_line_len c → 0 < iheight (info c) → has_flag (flags c) BMPREAD_TOP_DOWN = true → p_rgb_end_of c < 0.
Proof.
  intros Hr Hh Hf. unfold p_rgb_end_of, keep_order. rewrite Hf, (proj2 (Z.ltb_ge _ _)) by lia. cbn. lia.
Qed.

(** The readers recover a value written as
    little-endian bytes anywhere in a file and move the position past it. *)
Theorem little_endian_roundtrip pre post v :
  Forall is_byte pre → Forall is_byte post → INT_MIN ≤ v ≤ INT_MAX →
  let f n x := mkFile (pre ++ le_bytes n x ++ post) in
  ReadLittleUint32 (f 4%nat (u32 v) (zlen pre)) = Some (u32 v, f 4%nat (u32 v) (zlen pre + 4)) ∧
  ReadLittleInt32 (f 4%nat (u32 v) (zlen pre)) = Some (v, f 4%nat (u32 v) (zlen pre + 4)) ∧
  ReadLittleUint16 (f 2%nat (u16 v) (zlen pre)) = Some (u16 v, f 2%nat (u16 v) (zlen pre + 2)).
Proof.
  intros Hpre Hpost Hv f.
  assert (∀ n x, Forall is_byte (le_bytes n x)) as Hle.
  { induction n; intros; cbn; [constructor|]. constructor; [unfold is_byte; lia|done]. }
  assert (∀ n x, Forall is_byte (pre ++ le_bytes n x ++ post)) as Hall.
  { intros. by repeat apply Forall_app_2. }
  assert (∀ n x, 0 ≤ x < 2 ^ (8 * Z.of_nat n) →
    le_at (pre ++ le_bytes n x ++ post) (zlen pre) (Z.of_nat n) = x) as Hat.
  { intros n x Hx. unfold le_at, zslice, zlen. rewrite !Nat2Z.id.
    rewrite drop_app_length. pose proof (zlen_le_bytes n x) as Hl. unfold zlen in Hl.
    rewrite take_app_length' by lia. by apply le_value_bytes. }
  pose proof (zlen_nonneg pre). pose proof (zlen_nonneg post).
  assert (0 ≤ u32 v < 2 ^ 32 ∧ 0 ≤ u16 v < 2 ^ 16) as [H32 H16] by (unfold u32, u16; lia).
  unfold f. rewrite read_uint32, read_int32, read_uint16 by (done || lia).
  rewrite !zlen_app, !zlen_le_bytes.
  repeat case_if; try lia. rewrite (Hat 4%nat), (Hat 2%nat) by done.
  split; [done|]. split; [|done]. do 3 f_equal.
  unfold sext, u32. case_if; int_lia.
Qed.

(** The bit scan terminates and recognises exactly the 32
    powers of two. *)
Theorem IsPowerOf2_correct x :
  0 ≤ x ≤ UINT32_MAX →
  ∃ b, IsPowerOf2 x = Done b ∧ (b = true ↔ ∃ k, 0 ≤ k < 32 ∧ x = 2 ^ k).
Proof.
  intros Hx. exists (pow2b x). split; [apply IsPowerOf2_value; int_lia|]. apply pow2b_spec.
Qed.

(** A line length is the least multiple of four bytes
    that holds the line's bits; 0 is returned exactly when that does not fit
    in [size_t]. *)
Theorem GetLineLength_correct width bpp :
  0 ≤ width ≤ SIZE_MAX → 0 < bpp ≤ SIZE_MAX →
  returns (GetLineLength width bpp) (λ n,
    if width * bpp + 31 <=? SIZE_MAX
    then n mod 4 = 0 ∧ width * bpp ≤ 8 * n < width * bpp + 32
    else n = 0).
Proof.
  intros Hw Hb. rewrite GetLineLength_value by lia. cbn. unfold SIZE_MAX.
  repeat case_if; lia.
Qed.

(** * Witnesses: a 2x2 bitmap of 24 bits, bottom row first *)

Definition sample_bytes : list Z :=
  [0x42; 0x4d] ++ le_bytes 4 70 ++ le_bytes 4 0 ++ le_bytes 4 54 ++
  le_bytes 4 40 ++ le_bytes 4 2 ++ le_bytes 4 2 ++ le_bytes 2 1 ++ le_bytes 2 24 ++
  le_bytes 4 0 ++ replicate 20 0 ++
  [1; 2; 3; 4; 5; 6; 0; 0] ++ [7; 8; 9; 10; 11; 12; 0; 0].

Definition sample_env : env :=
  mkEnv (λ name, if String.eqb name "sheet.bmp" then Some sample_bytes else None)
    (λ _, true) (λ _, true) (λ _, true) (λ _, mkEntry 0 0 0 0) (λ _, 0).

Example sample_image :
  (λ r : bool * option bmpread_t * read_context, (r.1.1, bdata <$> r.1.2)) <$>
    bmpread sample_env (Some "sheet.bmp"%string)
      (Z.lor BMPREAD_TOP_DOWN BMPREAD_BYTE_ALIGN) (Some zero_bmp) =
  Done (true, Some (Some [9; 8; 7; 12; 11; 10; 3; 2; 1; 6; 5; 4])).
Proof. by vm_compute. Qed.

Lemma sample_bytes_ok : Forall is_byte sample_bytes.
Proof. unfold sample_bytes. cbn. repeat constructor; done. Qed.

Lemma bmpread_total_witness :
  (∀ name bytes, fopen sample_env name = Some bytes → Forall is_byte bytes) ∧
  returns (bmpread sample_env (Some "sheet.bmp"%string) 7 (Some zero_bmp)) (λ r,
    released r.2 ∧ (is_Some (rgb_data r.2) ↔ r.1.1 = true) ∧
    (r.1.1 = true → bdata <$> r.1.2 = Some (rgb_data r.2))).
Proof.
  assert (∀ name bytes, fopen sample_env name = Some bytes → Forall is_byte bytes) as H.
  { intros name bytes. unfold sample_env. cbn [fopen]. case_if; [|done].
    intros [= <-]. apply sample_bytes_ok. }
  split; [exact H|]. apply (bmpread_total sample_env _ 7 _ H).
Defined.

Lemma bmpread_image_witness :
  acceptable sample_env 7 sample_bytes ∧
  returns (bmpread sample_env (Some "sheet.bmp"%string) 7 (Some zero_bmp)) (λ r,
    (r.1.1 = true ↔ acceptable sample_env 7 sample_bytes) ∧ image_result 7 sample_bytes r).
Proof.
  split; [apply readable_acceptable; [apply sample_bytes_ok|by vm_compute]|].
  apply (bmpread_image sample_env "sheet.bmp" 7 zero_bmp sample_bytes eq_refl sample_bytes_ok).
Defined.

Lemma little_endian_roundtrip_witness :
  let f n x := mkFile ([1; 2] ++ le_bytes n x ++ [3]) in
  ReadLittleUint32 (f 4%nat (u32 (-5)) 2) = Some (u32 (-5), f 4%nat (u32 (-5)) (2 + 4)) ∧
  ReadLittleInt32 (f 4%nat (u32 (-5)) 2) = Some (-5, f 4%nat (u32 (-5)) (2 + 4)) ∧
  ReadLittleUint16 (f 2%nat (u16 (-5)) 2) = Some (u16 (-5), f 2%nat (u16 (-5)) (2 + 2)).
Proof.
  apply (little_endian_roundtrip [1; 2] [3] (-5)); repeat constructor; done.
Defined.

Lemma reversed_end_outside_witness :
  p_rgb_end_of (valid_context sample_env BMPREAD_TOP_DOWN sample_bytes 0) < 0.
Proof. by apply (reversed_end_outside (valid_context sample_env BMPREAD_TOP_DOWN sample_bytes 0)). Defined.

Lemma IsPowerOf2_correct_witness :
  0 ≤ 2 ^ 31 ≤ UINT32_MAX ∧
  ∃ b, IsPowerOf2 (2 ^ 31) = Done b ∧ (b = true ↔ ∃ k, 0 ≤ k < 32 ∧ 2 ^ 31 = 2 ^ k).
Proof. split; [done|]. by apply (IsPowerOf2_correct (2 ^ 31)). Defined.

Lemma GetLineLength_correct_witness :
  returns (GetLineLength 5 24) (λ n,
    if 5 * 24 + 31 <=? SIZE_MAX then n mod 4 = 0 ∧ 5 * 24 ≤ 8 * n < 5 * 24 + 32 else n = 0).
Proof. by apply (GetLineLength_correct 5 24). Defined.
