(* ===== verification/PicDemo.v ===== *)
(** pic-recognizer/demo.c: recognition of the marked answer on a scanned sheet. *)
From stdpp Require Import strings.
From S2P Require Import Prelude CDouble PicUtils Bmpread.

(** * Data *)

(** [struct ColorSeqUnit]: a maximal run of equally coloured pixels of a row:
    its length and its last point. *)
Record ColorSeqUnit := mkUnit { count : Z; endP : Point }.

#[export] Instance ColorSeqUnit_eq_dec : EqDecision ColorSeqUnit.
Proof. solve_decision. Defined.

(** * Scanning one row *)

(** [_get_bw_continuous_seq_of_row]: run-length encodes a row into the buffer
    [continuousDotSeq]; returns the index of the last unit and the buffer. *)
Record bw_state := mkBw { bw_last : Point; bw_unit : ColorSeqUnit; bw_index : Z;
                          bw_seq : list ColorSeqUnit }.

Definition bw_step (row : list Point) (col : Z) (s : bw_state) : res bw_state :=
  currP ← load row col;
  if pc currP =? pc (bw_last s) then
    c ← cint (count (bw_unit s) + 1);
    let currUnit := mkUnit c currP in
    cseq ← store (bw_seq s) (bw_index s) currUnit;
    mret (mkBw currP currUnit (bw_index s) cseq)
  else
    seqIndex ← cint (bw_index s + 1);
    let currUnit := mkUnit 1 currP in
    cseq ← store (bw_seq s) seqIndex currUnit;
    mret (mkBw currP currUnit seqIndex cseq).

Definition get_bw_continuous_seq_of_row (row : list Point) (length : Z)
    (continuousDotSeq : list ColorSeqUnit) : res (Z * list ColorSeqUnit) :=
  lastP ← load row 0;
  let currUnit := mkUnit 1 lastP in
  cseq ← store continuousDotSeq 0 currUnit;
  s ← for_up 1 length (bw_step row) (mkBw lastP currUnit 0 cseq);
  mret (bw_index s, bw_seq s).

(** [_is_col_line_row]: does the row hold the expected number of visible
    (dark) runs? *)
Definition is_col_line_row (continuousDotSeq : list ColorSeqUnit)
    (seqLen shouldHaveColumnLineCount : Z) : res bool :=
  visibleDotSeqCount ← for_up 0 (seqLen + 1) (λ i visible,
      u ← load continuousDotSeq i;
      if pc (endP u) =? DOT then cint (visible + 1) else mret visible) 0;
  mret (shouldHaveColumnLineCount =? visibleDotSeqCount).

(** [_locate_col_line_coord_range]: turns the units of a matching row into
    ranges, two units at a time, and appends them to [data] at the position of
    the function's static variable [offset] (threaded as state). *)
Definition locate_step (continuousDotSeq : list ColorSeqUnit) (offset i : Z)
    (s : Z * list Range) : res (Z * list Range) :=
  let '(rangeCount, data) := s in
  u1 ← load continuousDotSeq i;
  u2 ← load continuousDotSeq (i + 1);
  let range := mkRange (endP u1) (endP u2) in
  if (px (to range) =? 0) && (py (to range) =? 0) then mret (rangeCount, data)
  else if px (to range) <? px (from range) then mret (rangeCount, data)
  else
    idx ← cint (offset + rangeCount);
    data ← store data idx range;
    rangeCount ← cint (rangeCount + 1);
    mret (rangeCount, data).

Definition locate_col_line_coord_range (continuousDotSeq : list ColorSeqUnit)
    (seqLen : Z) (offset : Z) (data : list Range) : res (Z * list Range) :=
  r ← for_loop (Z.to_nat ((seqLen + 2) / 2)) 2 0
        (locate_step continuousDotSeq offset) (0, data);
  offset' ← cint (offset + fst r);
  mret (offset', snd r).

(** The state the row callback works on: the context and the static [offset]. *)
Record row_state := mkRowState { rs_ctx : Context (list Range); rs_offset : Z }.

(** [rowProcessor]: scratch buffer of [length / 2 + 1] units for one row.
    [mem] is that freshly allocated buffer. *)
Definition rowProcessor (mem : fresh ColorSeqUnit) (row : list Point) (length : Z)
    (coordinate : list Point) (s : row_state) : res row_state :=
  buf ← Malloc mem (Z.quot length 2 + 1);
  r ← get_bw_continuous_seq_of_row row length buf;
  let '(seqLen, cseq) := r in
  let ctx := rs_ctx s in
  let colLineCount := width ctx in
  b ← is_col_line_row cseq seqLen colLineCount;
  if (b : bool) then
    r ← locate_col_line_coord_range cseq seqLen (rs_offset s) (data ctx);
    let '(offset, data) := r in
    h ← cint (height ctx + 1);
    mret (mkRowState (mkContext (width ctx) h data) offset)
  else mret s.

(** * From the matching rows to the answer areas *)

(** [_try_to_get_answer_area_range], the scan of one column of ranges: the
    running length of the current vertical stroke and the maximum seen. *)
Definition scan_below (w : Z) (ranges : list Range) (top : Range) (col row : Z)
    (s : Z * Z) : res (Z * Z) :=
  let '(verticalContinuousCount, verticalContinuousCountMax) := s in
  i ← flat_index row w col;
  r ← load ranges i;
  same ← (if px (from r) =? px (from top) then
            wr ← get_range_w r; wt ← get_range_w top;
            if wr =? wt then
              d ← cint (py (from r) - py (from top)); mret (d =? row)
            else mret false
          else mret false);
  if (same : bool) then
    c ← cint (verticalContinuousCount + 1); mret (c, verticalContinuousCountMax)
  else mret (1, Z.max verticalContinuousCountMax verticalContinuousCount).

Record area_state := mkArea { vcc : Z; vccMax : Z; topP : list Point; topCount : Z }.

Definition area_column (w h : Z) (ranges : list Range) (col : Z) (s : area_state)
    : res area_state :=
  top ← load ranges col;
  thick ← cint (px (to top) - px (from top));
  if negb (2 <? thick) then mret s
  else
    r ← for_up 1 h (scan_below w ranges top col) (vcc s, vccMax s);
    let '(c, m) := r in
    if 5 <=? m then
      tp ← store (topP s) (topCount s) (from top);
      n ← cint (topCount s + 1);
      mret (mkArea c m tp n)
    else mret (mkArea c m (topP s) (topCount s)).

(** The left-to-right pairing of consecutive top points into areas. *)
Definition pair_areas (topP : list Point) (i : Z) (s : Point * Z * list Range)
    : res (Point * Z * list Range) :=
  let '(prevAreaTopP, areaDotRangeCount, areas) := s in
  currAreaTopP ← load topP i;
  areas ← store areas areaDotRangeCount (mkRange prevAreaTopP currAreaTopP);
  n ← cint (areaDotRangeCount + 1);
  mret (currAreaTopP, n, areas).

Definition try_to_get_answer_area_range (mem : fresh Point)
    (colLineRange2DArray : Context (list Range)) (areaDotRangeArray : list Range)
    : res (list Range) :=
  let w := width colLineRange2DArray in
  let h := height colLineRange2DArray in
  areaTopPArr ← Malloc mem w;
  s ← for_up 0 w (area_column w h (data colLineRange2DArray))
        (mkArea 1 0 areaTopPArr 0);
  prevAreaTopP ← load (topP s) 0;
  r ← for_up 1 (topCount s) (pair_areas (topP s)) (prevAreaTopP, 0, areaDotRangeArray);
  mret (snd r).

(** * From the decoded bitmap to coordinates *)

(** A pixel is [BLANK] when its RGB value exceeds 0xaaaaaa, [DOT] otherwise. *)
Definition color_of (r g b : Z) : Z :=
  if 0xaaaaaa <? to_hex r g b then BLANK else DOT.

Definition coordinate_pixel (arr : list Z) (w realLenPerLine row col : Z)
    (coordinate : list Point) : res (list Point) :=
  pointDataStartPos ← flat_index row realLenPerLine col;
  r ← load arr (pointDataStartPos + 0);
  g ← load arr (pointDataStartPos + 1);
  b ← load arr (pointDataStartPos + 2);
  let xInCo := Z.quot col 3 in
  lineStart ← cint (row * w);
  store coordinate (lineStart + xInCo) (mkPoint xInCo row (color_of r g b)).

Definition make_standard_coordinate (arr : list Z) (w h : Z)
    (coordinate : list Point) : res (list Point) :=
  realLenPerLine ← cint (w * 3);
  for_up 0 h (λ row coordinate,
    for_loop (Z.to_nat ((realLenPerLine + 2) / 3)) 3 0
      (coordinate_pixel arr w realLenPerLine row) coordinate) coordinate.

(** * Counting the dark pixels of an area *)

(** [(int)(areaWidth * 0.95)] *)
Definition full_line_threshold (areaWidth : Z) : res Z :=
  int_of_double (dmul (double_of_int areaWidth) lit_0_95).

Definition count_line (coordinate : list Point) (coorWidth row : Z) (r : Range)
    : res Z :=
  for_up (px (from r)) (px (to r)) (λ col n,
    i ← flat_index row coorWidth col;
    p ← load coordinate i;
    if pc p =? DOT then cint (n + 1) else mret n) 0.

(** The scan of the rows, top to bottom; it stops at the first row dark enough
    to be the bottom border of the box. [n] rows are left below [row]. *)
Fixpoint count_rows (n : nat) (coordinate : list Point) (coorWidth : Z) (r : Range)
    (row totalDot : Z) : res Z :=
  match n with
  | O => mret totalDot
  | S n' =>
      totalDotCountPerLine ← count_line coordinate coorWidth row r;
      areaWidth ← cint (px (to r) - px (from r));
      t ← full_line_threshold areaWidth;
      if t <? totalDotCountPerLine then mret totalDot
      else
        totalDot ← cint (totalDot + totalDotCountPerLine);
        count_rows n' coordinate coorWidth r (row + 1) totalDot
  end.

Definition count_dot_start_with_range (r : Range) (coordinate : list Point)
    (coorWidth coorHeight : Z) : res Z :=
  count_rows (Z.to_nat (coorHeight - py (from r))) coordinate coorWidth r
    (py (from r)) 0.

(** [_scan_to_count_area_with_most_dot]: the index of the area with most dots. *)
Definition most_dot_step (areas : list Range) (coordinate : list Point)
    (coorWidth coorHeight i : Z) (s : Z * Z) : res (Z * Z) :=
  let '(markedAreaIndex, totalDotCountOfArea) := s in
  r ← load areas i;
  curr ← count_dot_start_with_range r coordinate coorWidth coorHeight;
  if totalDotCountOfArea <? curr then mret (i, curr)
  else mret (markedAreaIndex, totalDotCountOfArea).

Definition scan_to_count_area_with_most_dot (areas : list Range)
    (answerAreaCount : Z) (coordinate : list Point) (coorWidth coorHeight : Z)
    : res Z :=
  r ← load areas 0;
  total ← count_dot_start_with_range r coordinate coorWidth coorHeight;
  s ← for_up 1 answerAreaCount (most_dot_step areas coordinate coorWidth coorHeight)
        (0, total);
  mret (fst s).

(** [_print_result]: the letter printed for an area index ([%c] of an int). *)
Definition print_result (areaIndex : Z) : Z := u8 (areaIndex + 65).

(** * The program *)

(** Fresh memory for each type [main] and the functions it calls allocate, and
    what the bitmap struct of its stack frame holds. *)
Record memory := mkMemory { mem_point : fresh Point; mem_unit : fresh ColorSeqUnit;
                            mem_range : fresh Range; junk_bmp : bmpread_t }.

Definition main_flags : Z :=
  Z.lor (Z.lor BMPREAD_TOP_DOWN BMPREAD_ANY_SIZE) BMPREAD_BYTE_ALIGN.

Definition answerAreaCount : Z := 4.

(** From the decoded bitmap to the index of the marked area. *)
Definition recognise (m : memory) (rgb : list Z) (w h : Z) : res Z :=
  n ← cint (w * h);
  coordinate ← Malloc (mem_point m) n;
  coordinate ← make_standard_coordinate rgb w h coordinate;
  h2 ← cint (h * 2);
  allocMemCount ← cint (5 * Z.quot h2 3);
  ranges ← Malloc (mem_range m) allocMemCount;
  s ← process_by_row (mem_point m) coordinate w h
        (mkRowState (mkContext 5 0 ranges) 0) (rowProcessor (mem_unit m));
  areas ← Malloc (mem_range m) answerAreaCount;
  areas ← try_to_get_answer_area_range (mem_point m) (rs_ctx s) areas;
  scan_to_count_area_with_most_dot areas answerAreaCount coordinate w h.

(** [main]: the exit status and the letter printed, if any. *)
Definition main (e : env) (m : memory) : res (Z * option Z) :=
  r ← bmpread e (Some "./333.bmp"%string) main_flags (Some (junk_bmp m));
  let '(ok, bmp, _) := r in
  if negb ok then mret (1, None)
  else
    bmp ← deref bmp;
    rgb ← deref (bdata bmp);
    markedAreaIndex ← recognise m rgb (bwidth bmp) (bheight bmp);
    mret (0, Some (print_result markedAreaIndex)).

(** * Specification: maximal runs *)


(** The runs computed by extending the current unit point by point. *)
Fixpoint runs_onto (u : ColorSeqUnit) (l : list Point) : list ColorSeqUnit :=
  match l with
  | [] => [u]
  | p :: l' =>
      if pc p =? pc (endP u) then runs_onto (mkUnit (count u + 1) p) l'
      else u :: runs_onto (mkUnit 1 p) l'
  end.

Definition runs (row : list Point) : list ColorSeqUnit :=
  match row with [] => [] | p :: l => runs_onto (mkUnit 1 p) l end.

Definition dot_run (u : ColorSeqUnit) : bool := pc (endP u) =? DOT.

(** * Lemmas on the row scan *)



Lemma runs_onto_pos u l : 1 ≤ zlen (runs_onto u l).
Proof.
  revert u. induction l as [|q l IH]; intros u; simpl; [done|].
  case_if; [apply IH|]. rewrite zlen_cons. specialize (IH (mkUnit 1 q)). lia.
Qed.

(** One step of the scan, on a buffer whose current unit is [u]. *)
Lemma bw_step_eq row col q u dn rest :
  load row col = Done q → 1 ≤ count u < INT_MAX → zlen dn < INT_MAX →
  bw_step row col (mkBw (endP u) u (zlen dn) (dn ++ u :: rest)) =
  if pc q =? pc (endP u) then
    let u' := mkUnit (count u + 1) q in
    Done (mkBw (endP u') u' (zlen dn) (dn ++ u' :: rest))
  else match rest with
       | [] => Undef
       | _ :: rest' =>
           let u' := mkUnit 1 q in
           Done (mkBw (endP u') u' (zlen (dn ++ [u])) ((dn ++ [u]) ++ u' :: rest'))
       end.
Proof.
  intros Hq Hu Hd. pose proof (zlen_nonneg dn). unfold bw_step. rewrite Hq. simpl.
  case_if.
  - rewrite cint_ok by int_lia. simpl. by rewrite store_app_mid.
  - rewrite cint_ok by int_lia. simpl.
    replace (zlen dn + 1) with (zlen (dn ++ [u])) by (by rewrite zlen_app).
    replace (dn ++ u :: rest) with ((dn ++ [u]) ++ rest) by (by rewrite <-app_assoc).
    destruct rest as [|r rest]; [by rewrite app_nil_r, store_app_end|].
    by rewrite store_app_mid.
Qed.

Lemma bw_loop l pre dn u rest :
  1 ≤ count u → count u + zlen l ≤ INT_MAX → zlen dn + zlen l < INT_MAX →
  (λ s, (bw_index s, bw_seq s)) <$>
    for_loop (length l) 1 (zlen pre) (bw_step (pre ++ l))
      (mkBw (endP u) u (zlen dn) (dn ++ u :: rest))
  = if zlen (runs_onto u l) <=? 1 + zlen rest
    then Done (zlen dn + zlen (runs_onto u l) - 1,
               dn ++ runs_onto u l ++ drop (length (runs_onto u l) - 1) rest)
    else Undef.
Proof.
  revert pre dn u rest.
  induction l as [|q l IH]; intros pre dn u rest Hu Hc Hd; cbn [for_loop length runs_onto].
  - rewrite zlen_cons, zlen_nil. pose proof (zlen_nonneg rest). case_if; [|lia].
    cbn. f_equal. f_equal. lia.
  - rewrite zlen_cons in Hc, Hd. pose proof (zlen_nonneg l). pose proof (zlen_nonneg dn).
    rewrite (bw_step_eq _ _ q) by (rewrite ?load_app_mid; lia || done).
    replace (zlen pre + 1) with (zlen (pre ++ [q])) by (by rewrite zlen_app).
    replace (pre ++ q :: l) with ((pre ++ [q]) ++ l) by (by rewrite <-app_assoc).
    destruct (pc q =? pc (endP u)) eqn:Hcol; cbn [mbind res_bind].
    + rewrite IH by (simpl; lia). done.
    + pose proof (runs_onto_pos (mkUnit 1 q) l) as Hp. rewrite zlen_cons.
      destruct rest as [|r rest]; cbn [mbind res_bind].
      * rewrite zlen_nil. by case_if; [lia|].
      * rewrite IH by (simpl; rewrite ?zlen_app, ?zlen_cons, ?zlen_nil; lia).
        rewrite zlen_app, !zlen_cons, zlen_nil. do 2 case_if; try lia; [|done].
        f_equal. f_equal; [lia|].
        rewrite <-app_assoc. unfold zlen in Hp. simpl.
        destruct (length (runs_onto (mkUnit 1 q) l)) eqn:E; [lia|]. simpl.
        by rewrite Nat.sub_0_r.
Qed.

(** The row scan computes the runs exactly when the buffer can hold them. *)
Lemma get_bw_runs row buf :
  row ≠ [] → zlen row < INT_MAX →
  get_bw_continuous_seq_of_row row (zlen row) buf =
  if zlen (runs row) <=? zlen buf
  then Done (zlen (runs row) - 1, runs row ++ drop (length (runs row)) buf)
  else Undef.
Proof.
  intros Hne Hlen. destruct row as [|p l]; [done|]. rewrite zlen_cons in *.
  unfold get_bw_continuous_seq_of_row. rewrite (load_ok _ _ p) by done. simpl.
  pose proof (runs_onto_pos (mkUnit 1 p) l) as Hp. pose proof (zlen_nonneg l).
  destruct buf as [|b0 buf].
  { rewrite store_oob by (change (zlen []) with 0; lia). change (zlen []) with 0. simpl. by case_if; [lia|]. }
  rewrite (store_app_mid [] b0 (mkUnit 1 p) buf : store (b0 :: buf) 0 _ = _). simpl.
  unfold for_up. replace (Z.to_nat (zlen l + 1 - 1)) with (length l) by (unfold zlen; lia).
  rewrite bind_mret_fmap.
  etransitivity; [apply (bw_loop l [p] [] (mkUnit 1 p) buf); simpl;
    [lia|lia|rewrite zlen_nil; lia]|].
  rewrite zlen_cons, (Z.add_comm 1), zlen_nil. case_if; [|done].
  f_equal. f_equal. simpl. f_equal. unfold zlen in Hp.
  destruct (length (runs_onto (mkUnit 1 p) l)) eqn:E; [lia|]. simpl. by rewrite Nat.sub_0_r.
Qed.

(** The points of a run are on its row: the last one is the unit's end. *)
Definition keep_range (r : Range) : bool :=
  negb ((px (to r) =? 0) && (py (to r) =? 0)) && negb (px (to r) <? px (from r)).

(** The ranges made of consecutive pairs of units, the rejected ones dropped. *)
Fixpoint pair_ranges (us : list ColorSeqUnit) : list Range :=
  match us with
  | u1 :: u2 :: us' =>
      let r := mkRange (endP u1) (endP u2) in
      if keep_range r then r :: pair_ranges us' else pair_ranges us'
  | _ => []
  end.

Lemma is_col_line_row_count us rest k :
  zlen us ≤ INT_MAX →
  is_col_line_row (us ++ rest) (zlen us - 1) k =
  Done (k =? zlen (List.filter dot_run us)).
Proof.
  intros Hmax. unfold is_col_line_row. replace (zlen us - 1 + 1) with (zlen us) by lia.
  assert (∀ l pre n, 0 ≤ n → n + zlen l ≤ INT_MAX →
    for_loop (length l) 1 (zlen pre) (λ i visible,
      u ← load (pre ++ l ++ rest) i;
      if pc (endP u) =? DOT then cint (visible + 1) else mret visible) n =
    Done (n + zlen (List.filter dot_run l))) as Hloop.
  { induction l as [|u l IH]; intros pre n Hn Hl; simpl.
    - f_equal. unfold zlen. simpl. lia.
    - rewrite zlen_cons in Hl. pose proof (zlen_nonneg l).
      rewrite load_app_mid, done_bind. fold (dot_run u).
      replace (zlen pre + 1) with (zlen (pre ++ [u])) by (by rewrite zlen_app).
      replace (pre ++ u :: l ++ rest) with ((pre ++ [u]) ++ l ++ rest) by (by rewrite <-app_assoc).
      destruct (dot_run u); simpl.
      + rewrite cint_ok by int_lia. simpl. rewrite IH by lia.
        f_equal. rewrite zlen_cons. lia.
      + apply IH; lia. }
  unfold for_up. rewrite Z.sub_0_r. unfold zlen at 1. rewrite Nat2Z.id.
  pose proof (Hloop us [] 0) as H0. simpl in H0. change (zlen []) with 0 in H0.
  rewrite H0 by lia. simpl. done.
Qed.

Lemma locate_step_eq cseq offset i u1 u2 c dt :
  load cseq i = Done u1 → load cseq (i + 1) = Done u2 →
  0 ≤ offset → 0 ≤ c → zlen dt ≤ INT_MAX →
  let r := mkRange (endP u1) (endP u2) in
  (keep_range r = true → offset + c < zlen dt) →
  locate_step cseq offset i (c, dt) =
  if keep_range r then Done (c + 1, zupd dt (offset + c) r) else Done (c, dt).
Proof.
  intros H1 H2 Hoff Hc Hmax r Hfit. unfold locate_step. rewrite H1, H2. cbn [mbind res_bind]. fold r.
  unfold keep_range in *.
  destruct ((px (to r) =? 0) && (py (to r) =? 0)); [done|].
  destruct (px (to r) <? px (from r)); [done|].
  cbn. specialize (Hfit eq_refl).
  rewrite !cint_ok by int_lia. simpl.
  rewrite store_ok by lia. done.
Qed.

Lemma locate_pairs n us rest (dt : list Range) offset c pre :
  length us = (2 * n)%nat → 0 ≤ offset → 0 ≤ c →
  offset + c + zlen (pair_ranges us) ≤ zlen dt → zlen dt ≤ INT_MAX →
  for_loop n 2 (zlen pre) (locate_step (pre ++ us ++ rest) offset) (c, dt) =
  Done (c + zlen (pair_ranges us), zwrite dt (offset + c) (pair_ranges us)).
Proof.
  revert us dt c pre. induction n as [|n IH]; intros us dt c pre Hn Hoff Hc Hfit Hmax.
  { destruct us; [|done]. cbn. rewrite Z.add_0_r, zwrite_nil. done. }
  destruct us as [|u1 [|u2 us]]; [simpl in Hn; lia..|].
  cbn [for_loop pair_ranges] in *. set (r := mkRange (endP u1) (endP u2)) in *.
  pose proof (zlen_nonneg (pair_ranges us)).
  rewrite (locate_step_eq _ _ _ u1 u2); [|apply load_app_mid| |lia..|].
  - fold r. replace (zlen pre + 2) with (zlen (pre ++ [u1; u2]))
      by (by rewrite zlen_app, !zlen_cons).
    replace (pre ++ (u1 :: u2 :: us) ++ rest) with ((pre ++ [u1; u2]) ++ us ++ rest)
      by (by rewrite <-app_assoc).
    destruct (keep_range r); cbn [mbind res_bind].
    + rewrite zlen_cons in *. rewrite IH by (rewrite ?zlen_zupd; simpl in *; lia).
      f_equal. f_equal; [lia|]. rewrite Z.add_assoc. apply zwrite_cons. lia.
    + apply IH; simpl in *; lia.
  - replace (zlen pre + 1) with (zlen (pre ++ [u1])) by (by rewrite zlen_app).
    replace (pre ++ (u1 :: u2 :: us) ++ rest) with ((pre ++ [u1]) ++ u2 :: us ++ rest)
      by (by rewrite <-app_assoc). apply load_app_mid.
  - fold r. intros Hk. rewrite Hk, zlen_cons in Hfit. lia.
Qed.

(** What the row callback does to its state, given the runs [us] of the row and
    the [cells] it reads pairwise (the runs, followed by the never written cell
    after them when their number is odd). *)
Definition row_result (us cells : list ColorSeqUnit) (s : row_state) : row_state :=
  let ctx := rs_ctx s in
  if width ctx =? zlen (List.filter dot_run us) then
    let rs := pair_ranges cells in
    mkRowState (mkContext (width ctx) (height ctx + 1) (zwrite (data ctx) (rs_offset s) rs))
      (rs_offset s + zlen rs)
  else s.

Definition row_fits (us cells : list ColorSeqUnit) (s : row_state) : Prop :=
  let ctx := rs_ctx s in
  width ctx = zlen (List.filter dot_run us) →
  0 ≤ rs_offset s ∧ rs_offset s + zlen (pair_ranges cells) ≤ zlen (data ctx) ∧
  zlen (data ctx) ≤ INT_MAX ∧ INT_MIN ≤ height ctx < INT_MAX.

Lemma scratch_len (junk : Z → ColorSeqUnit) n :
  0 ≤ n → zlen (junk <$> seqZ 0 n) = n.
Proof. intros. by rewrite zlen_fmap, zlen_seqZ. Qed.

(** The callback, once the scan fits in its scratch buffer: [cells] is what
    the second pass reads of that buffer. *)
Lemma rowProcessor_cells junk row coord s n cells rest :
  row ≠ [] → zlen row < INT_MAX →
  zlen (runs row) ≤ zlen row / 2 + 1 →
  runs row ++ drop (length (runs row)) (junk <$> seqZ 0 (zlen row / 2 + 1)) = cells ++ rest →
  length cells = (2 * n)%nat → n = Z.to_nat ((zlen (runs row) + 1) / 2) →
  row_fits (runs row) cells s →
  rowProcessor (Some junk) row (zlen row) coord s = Done (row_result (runs row) cells s).
Proof.
  intros Hne Hlen Hfit Hcells Hn -> Hrow.
  pose proof (zlen_nonneg row). unfold rowProcessor.
  rewrite Z.quot_div_nonneg by lia. rewrite Malloc_ok by lia. cbn [mbind res_bind].
  rewrite get_bw_runs, scratch_len by lia || done. case_if; [|lia]. cbn [mbind res_bind].
  rewrite is_col_line_row_count by int_lia. cbn [mbind res_bind].
  unfold row_result. destruct (width (rs_ctx s) =? _) eqn:Hw; [|done]. propify.
  destruct (Hrow Hw) as (Hoff & Hroom & Hmax & Hh).
  unfold locate_col_line_coord_range.
  replace (zlen (runs row) - 1 + 2) with (zlen (runs row) + 1) by lia. rewrite Hcells.
  rewrite (locate_pairs _ cells rest (data (rs_ctx s)) (rs_offset s) 0 []) by (done || lia).
  pose proof (zlen_nonneg (pair_ranges cells)). cbn.
  rewrite !cint_ok by int_lia. cbn.
  by rewrite Z.add_0_r.
Qed.

(** ** The standard coordinates *)

Definition pixel_at (arr : list Z) (w row col : Z) : Point :=
  let b k := default 0 (zget arr (3 * (row * w + col) + k)) in
  mkPoint col row (color_of (b 0) (b 1) (b 2)).

Definition coords_done (arr : list Z) (w h row col : Z) (c : list Point) : Prop :=
  zlen c = w * h ∧
  ∀ r x, 0 ≤ x < w → 0 ≤ r → r < row ∨ (r = row ∧ x < col) →
    zget c (r * w + x) = Some (pixel_at arr w r x).

Lemma coordinate_pixel_step arr w h row k c :
  0 < w → 0 ≤ row < h → 3 * (w * h) ≤ INT_MAX → 3 * (w * h) ≤ zlen arr →
  0 ≤ k < w → coords_done arr w h row k c →
  returns (coordinate_pixel arr w (w * 3) row (3 * k) c) (coords_done arr w h row (k + 1)).
Proof.
  intros Hw Hrow Hmax Harr Hk [Hlen Hdone].
  destruct (row_index_bounds row w h k) as [Hi Hb]; [done..|].
  unfold coordinate_pixel. rewrite flat_index_ok by lia. cbn [mbind res_bind].
  replace (row * (w * 3) + 3 * k) with (3 * (row * w + k)) by lia.
  destruct (zget_is_Some arr (3 * (row * w + k) + 0)) as [r0 Hr]; [lia|].
  destruct (zget_is_Some arr (3 * (row * w + k) + 1)) as [g0 Hg]; [lia|].
  destruct (zget_is_Some arr (3 * (row * w + k) + 2)) as [b0 Hb0]; [lia|].
  rewrite (load_ok _ _ _ Hr), (load_ok _ _ _ Hg), (load_ok _ _ _ Hb0).
  cbn [mbind res_bind]. rewrite cint_ok by int_lia.
  cbn [mbind res_bind].
  replace (Z.quot (3 * k) 3) with k by (rewrite Z.mul_comm, Z.quot_mul; lia).
  rewrite store_ok by lia. split; [by rewrite zlen_zupd|].
  intros r x Hx Hr0 Hlt. destruct (decide (r = row ∧ x = k)) as [[-> ->]|Hne].
  - rewrite zget_zupd_eq by lia. unfold pixel_at. by rewrite Hr, Hg, Hb0.
  - rewrite zget_zupd_ne; [apply Hdone; lia|lia|].
    intros Heq. destruct (decide (r = row)) as [->|]; [lia|].
    assert (r < row) by lia. assert ((r + 1) * w ≤ row * w) by nia. lia.
Qed.

Lemma make_standard_coordinate_done arr w h c :
  0 < w → 0 ≤ h → 3 * (w * h) ≤ INT_MAX → w * 3 ≤ INT_MAX →
  3 * (w * h) ≤ zlen arr → zlen c = w * h →
  returns (make_standard_coordinate arr w h c) (coords_done arr w h h 0).
Proof.
  intros Hw Hh Hmax Hw3 Harr Hc. unfold make_standard_coordinate.
  rewrite cint_ok by int_lia. cbn [mbind res_bind].
  apply for_up_inv with (P := λ row, coords_done arr w h row 0); [lia|split; [done|lia]|].
  intros row c' Hrow Hc'.
  replace (Z.to_nat ((w * 3 + 2) / 3)) with (Z.to_nat w).
  2: { f_equal. rewrite (Z.add_comm (w * 3)), Z.div_add by lia. by rewrite Z.add_0_l. }
  eapply returns_mono.
  - apply for_loop_inv with (P := λ i c, coords_done arr w h row (i / 3) c); [done|].
    intros k s Hk Hs. replace (0 + k * 3) with (3 * k) in * by lia.
    replace (0 + (k + 1) * 3) with (3 * (k + 1)) by lia.
    rewrite !(Z.mul_comm 3), !Z.div_mul in * by lia. rewrite (Z.mul_comm k).
    apply coordinate_pixel_step; [lia..|done].
  - intros s [Hl Hs]. split; [done|]. intros r x Hx Hr Hlt. apply Hs; [done..|].
    replace ((0 + Z.of_nat (Z.to_nat w) * 3) / 3) with w
      by (rewrite Z.add_0_l, Z2Nat.id, Z.div_mul; lia). lia.
Qed.

(** ** Counting *)

Definition is_dot (p : Point) : bool := pc p =? DOT.

(** Dark pixels of row [row] between the columns of the range. *)
Definition line_dots (coordinate : list Point) (w row : Z) (r : Range) : Z :=
  zlen (List.filter is_dot (zslice coordinate (row * w + px (from r)) (px (to r) - px (from r)))).

(** The sum of the counts up to the first one above the threshold. *)
Fixpoint sum_until (t : Z) (l : list Z) : Z :=
  match l with
  | [] => 0
  | d :: l' => if t <? d then 0 else d + sum_until t l'
  end.

Lemma filter_len_le {A} (f : A → bool) l : zlen (List.filter f l) ≤ zlen l.
Proof.
  induction l as [|x l IH]; [done|]. simpl. rewrite zlen_cons.
  destruct (f x); rewrite ?zlen_cons; lia.
Qed.

Lemma count_line_dots coordinate w h row r :
  0 ≤ row < h → zlen coordinate = w * h → w * h ≤ INT_MAX →
  0 ≤ px (from r) ≤ px (to r) → px (to r) ≤ w →
  count_line coordinate w row r = Done (line_dots coordinate w row r).
Proof.
  intros Hrow Hlen Hmax Hx Hw. unfold count_line, line_dots, for_up.
  set (m := Z.to_nat (px (to r) - px (from r))).
  replace (px (to r) - px (from r)) with (Z.of_nat m) by lia.
  assert (∀ n x acc, Z.of_nat n + x ≤ w → 0 ≤ x → 0 ≤ acc → acc + Z.of_nat n ≤ INT_MAX →
    for_loop n 1 x (λ col n,
      i ← flat_index row w col; p ← load coordinate i;
      if pc p =? DOT then cint (n + 1) else mret n) acc =
    Done (acc + zlen (List.filter is_dot (zslice coordinate (row * w + x) (Z.of_nat n)))))
    as Hloop.
  { induction n as [|n IH]; intros x acc Hn Hx0 Hacc Hsum; cbn [for_loop].
    - cbn. by rewrite Z.add_0_r.
    - destruct (row_index_bounds row w h x) as [? ?]; [done|lia|].
      rewrite flat_index_ok by lia. cbn [mbind res_bind].
      destruct (zget_is_Some coordinate (row * w + x)) as [p Hp]; [lia|].
      rewrite (load_ok _ _ _ Hp). cbn [mbind res_bind].
      rewrite (zslice_cons _ _ _ p) by (done || lia). cbn [List.filter].
      fold (is_dot p). replace (row * w + x + 1) with (row * w + (x + 1)) by lia.
      replace (Z.of_nat (S n) - 1) with (Z.of_nat n) by lia.
      destruct (is_dot p).
      + rewrite cint_ok by int_lia. cbn [mbind res_bind]. rewrite IH by lia.
        rewrite zlen_cons. f_equal. lia.
      + cbn [mbind res_bind mret res_ret]. apply IH; lia. }
  rewrite Hloop; [done|lia..|].
  assert (px (to r) - px (from r) ≤ w * h) by nia. lia.
Qed.

Lemma line_dots_bounds coordinate w row r :
  0 ≤ line_dots coordinate w row r ≤ Z.max 0 (px (to r) - px (from r)).
Proof.
  unfold line_dots. split; [apply zlen_nonneg|].
  etransitivity; [apply filter_len_le|]. unfold zslice, zlen. rewrite length_take. lia.
Qed.

(** The 95% threshold of the code, computed in double, is the exact one. *)
Definition threshold_exact (w : Z) : bool :=
  match full_line_threshold w with Done t => t =? 95 * w / 100 | _ => false end.

Definition THRESHOLD_RANGE : Z := 8192.

Lemma full_line_threshold_exact w :
  0 ≤ w < THRESHOLD_RANGE → full_line_threshold w = Done (95 * w / 100).
Proof.
  intros Hw.
  assert (forallb threshold_exact (seqZ 0 THRESHOLD_RANGE) = true) as H by (by vm_compute).
  rewrite forallb_forall in H. specialize (H w).
  assert (threshold_exact w = true) as Ht.
  { apply H. apply list_elem_of_In, elem_of_seqZ. lia. }
  unfold threshold_exact in Ht.
  destruct (full_line_threshold w); [|done..]. apply Z.eqb_eq in Ht. by rewrite Ht.
Qed.

Lemma count_dot_sum coordinate w h r :
  zlen coordinate = w * h → w * h ≤ INT_MAX →
  0 ≤ px (from r) ≤ px (to r) → px (to r) ≤ w → px (to r) - px (from r) < THRESHOLD_RANGE →
  0 ≤ py (from r) ≤ h →
  count_dot_start_with_range r coordinate w h =
  Done (sum_until (95 * (px (to r) - px (from r)) / 100)
          ((λ row, line_dots coordinate w row r) <$> seqZ (py (from r)) (h - py (from r)))).
Proof.
  intros Hlen Hmax Hx Hw Ht Hy. unfold count_dot_start_with_range.
  set (t := 95 * (px (to r) - px (from r)) / 100).
  set (b := px (to r) - px (from r)) in *.
  assert (0 ≤ b ≤ w) as Hb by (unfold b; lia).
  assert (∀ n row acc, row + Z.of_nat n = h → 0 ≤ row → 0 ≤ acc ≤ row * b →
    count_rows n coordinate w r row acc =
    Done (acc + sum_until t ((λ row, line_dots coordinate w row r) <$> seqZ row (Z.of_nat n))))
    as Hloop.
  { induction n as [|n IH]; intros row acc Hn Hrow Hacc; cbn [count_rows].
    - cbn. by rewrite Z.add_0_r.
    - rewrite (count_line_dots _ _ h) by lia. cbn [mbind res_bind].
      fold b. rewrite (cint_ok b) by (unfold THRESHOLD_RANGE in *; int_lia). cbn [mbind res_bind].
      rewrite full_line_threshold_exact by (unfold THRESHOLD_RANGE in *; lia).
      cbn [mbind res_bind]. fold t.
      rewrite seqZ_cons by lia. cbn [fmap list_fmap sum_until].
      pose proof (line_dots_bounds coordinate w row r) as Hd. fold b in Hd.
      case_if; [by rewrite Z.add_0_r|].
      assert ((row + 1) * b ≤ h * w) by (apply Z.mul_le_mono_nonneg; lia).
      rewrite cint_ok by int_lia. cbn [mbind res_bind].
      replace (Z.pred (Z.of_nat (S n))) with (Z.of_nat n) by lia.
      rewrite IH by lia. f_equal. unfold Z.succ. lia. }
  rewrite Hloop by lia. by rewrite Z2Nat.id by lia.
Qed.

(** ** The area with most dots *)

Lemma most_dot_scan areas coordinate w h n (c : Z → Z) :
  0 < n →
  (∀ k, 0 ≤ k < n → ∃ r, zget areas k = Some r ∧
     count_dot_start_with_range r coordinate w h = Done (c k)) →
  returns (scan_to_count_area_with_most_dot areas n coordinate w h) (λ i,
    0 ≤ i < n ∧ (∀ k, 0 ≤ k < n → c k ≤ c i) ∧ (∀ k, 0 ≤ k < i → c k < c i)).
Proof.
  intros Hn Hc. unfold scan_to_count_area_with_most_dot.
  destruct (Hc 0) as (r0 & Hr0 & Hc0); [lia|].
  rewrite (load_ok _ _ _ Hr0). cbn [mbind res_bind]. rewrite Hc0. cbn [mbind res_bind].
  apply returns_bind. eapply returns_mono.
  - apply for_up_inv with (P := λ k '(i, m),
      m = c i ∧ 0 ≤ i < k ∧ (∀ j, 0 ≤ j < k → c j ≤ c i) ∧ (∀ j, 0 ≤ j < i → c j < c i)).
    + lia.
    + split; [done|]. repeat split; intros; try lia. by replace j with 0 by lia.
    + intros k [i m] Hk (-> & Hi & Hle & Hlt). unfold most_dot_step.
      destruct (Hc k) as (r & Hr & Hck); [lia|].
      rewrite (load_ok _ _ _ Hr). cbn [mbind res_bind]. rewrite Hck. cbn [mbind res_bind].
      case_if; repeat split; try lia.
      * intros j Hj. destruct (decide (j = k)) as [->|]; [lia|].
        specialize (Hle j). lia.
      * intros j Hj. specialize (Hle j). lia.
      * intros j Hj. destruct (decide (j = k)) as [->|]; [lia|]. apply Hle. lia.
      * intros j Hj. apply Hlt. lia.
  - intros [i m] (_ & Hi & Hle & Hlt). done.
Qed.

(** ** The search for vertical strokes *)

(** Coordinates are small non-negative ints, as [make_standard_coordinate]
    produces them. *)
Definition small_range (r : Range) : Prop :=
  0 ≤ px (from r) ≤ INT_MAX ∧ 0 ≤ px (to r) ≤ INT_MAX ∧ 0 ≤ py (from r) ≤ INT_MAX.

(** The range of row [row] continues the stroke that starts at [top]. *)
Definition continues (top r : Range) (row : Z) : bool :=
  (px (from r) =? px (from top)) &&
  (Z.abs (px (to r) - px (from r)) =? Z.abs (px (to top) - px (from top))) &&
  (py (from r) - py (from top) =? row).

Lemma get_range_w_small r :
  small_range r → get_range_w r = Done (Z.abs (px (to r) - px (from r))).
Proof.
  intros (?&?&?). unfold get_range_w. rewrite cint_ok by int_lia. cbn.
  by rewrite cint_ok by int_lia.
Qed.

Lemma scan_below_eq w h ranges top col row c m r :
  0 ≤ row < h → 0 ≤ col < w → w * h ≤ INT_MAX →
  zget ranges (row * w + col) = Some r → small_range r → small_range top →
  0 ≤ c < INT_MAX →
  scan_below w ranges top col row (c, m) =
  Done (if continues top r row then (c + 1, m) else (1, Z.max m c)).
Proof.
  intros Hrow Hcol Hmax Hr Hs Ht Hc. unfold scan_below, continues.
  destruct (row_index_bounds row w h col) as [? ?]; [done..|].
  rewrite flat_index_ok by lia. cbn [mbind res_bind].
  rewrite (load_ok _ _ _ Hr). cbn [mbind res_bind].
  rewrite !get_range_w_small by done.
  destruct (px (from r) =? px (from top)); [|done]. cbn [mbind res_bind andb].
  destruct (Z.abs _ =? Z.abs _); [|done]. cbn [mbind res_bind andb].
  destruct Hs as (?&?&?), Ht as (?&?&?).
  rewrite (cint_ok (_ - _)) by int_lia. cbn [mbind res_bind mret res_ret].
  destruct (_ =? row); [|done]. by rewrite cint_ok by int_lia.
Qed.

Definition grid_small (ranges : list Range) (w h : Z) : Prop :=
  ∀ row col, 0 ≤ row < h → 0 ≤ col < w →
    ∃ r, zget ranges (row * w + col) = Some r ∧ small_range r.

(** The loop below a top range: the maximum never decreases. *)
Lemma scan_column_mono w h ranges top col c m :
  grid_small ranges w h → small_range top → 0 ≤ col < w → 1 ≤ h →
  w * h ≤ INT_MAX → 0 ≤ c → c + h ≤ INT_MAX →
  returns (for_up 1 h (scan_below w ranges top col) (c, m))
    (λ '(c', m'), 0 ≤ c' ∧ c' ≤ c + h ∧ m ≤ m').
Proof.
  intros Hg Ht Hcol Hh Hmax Hc Hch.
  eapply returns_mono.
  - apply for_up_inv with (P := λ k '(c', m'), 0 ≤ c' ∧ c' ≤ c + k ∧ m ≤ m'); [lia|lia|].
    intros k [c' m'] Hk (? & ? & ?).
    destruct (Hg k col) as (r & Hr & Hs); [lia..|].
    rewrite (scan_below_eq _ h _ _ _ _ _ _ r) by (done || lia).
    simpl. destruct (continues top r k); lia.
  - intros [c' m']. lia.
Qed.

(** A column whose rows all continue its top: the count grows, the maximum is
    not touched. *)
Lemma scan_column_perfect w h ranges top col c m :
  small_range top → 0 ≤ col < w → 1 ≤ h → w * h ≤ INT_MAX → 0 ≤ c → c + h ≤ INT_MAX →
  (∀ row, 1 ≤ row < h → ∃ r, zget ranges (row * w + col) = Some r ∧ small_range r ∧
     continues top r row = true) →
  for_up 1 h (scan_below w ranges top col) (c, m) = Done (c + (h - 1), m).
Proof.
  intros Ht Hcol Hh Hmax Hc Hch Hrows. apply returns_eq.
  eapply returns_mono.
  - apply for_up_inv with (P := λ k s, s = (c + (k - 1), m)); [lia|f_equal; lia|].
    intros k s Hk ->. destruct (Hrows k) as (r & Hr & Hs & Hcont); [lia|].
    rewrite (scan_below_eq _ h _ _ _ _ _ _ r), Hcont by (done || lia).
    simpl. f_equal. lia.
  - intros s ->. f_equal; lia.
Qed.

(** A sheet whose columns are all unbroken vertical strokes. *)
Definition perfect_sheet (ranges : list Range) (w h : Z) : Prop :=
  ∀ col, 0 ≤ col < w → ∃ top, zget ranges col = Some top ∧ small_range top ∧
    ∀ row, 1 ≤ row < h → ∃ r, zget ranges (row * w + col) = Some r ∧ small_range r ∧
      continues top r row = true.

Lemma perfect_columns w h ranges tp :
  0 < w → 1 ≤ h → w * h + h < INT_MAX → perfect_sheet ranges w h → zlen tp = w →
  returns (for_up 0 w (area_column w h ranges) (mkArea 1 0 tp 0))
    (λ s, vccMax s = 0 ∧ topCount s = 0 ∧ topP s = tp).
Proof.
  intros Hw Hh Hmax Hp Hlen. eapply returns_mono.
  - apply for_up_inv with (P := λ col s, vccMax s = 0 ∧ topCount s = 0 ∧ topP s = tp ∧
      1 ≤ vcc s ≤ 1 + col * (h - 1)); [lia|repeat split; simpl; done || lia|].
    intros col [c m t n] Hcol (Hm & Hn & Htp & Hc). simpl in *. subst m n t.
    destruct (Hp col) as (top & Htop & Hs & Hrows); [lia|].
    assert (col * (h - 1) + (h - 1) ≤ w * h - w) by nia.
    unfold area_column. rewrite (load_ok _ _ _ Htop). cbn [mbind res_bind].
    pose proof Hs as (?&?&?). rewrite (cint_ok (_ - _)) by int_lia. cbn [mbind res_bind].
    case_if; [repeat split; simpl; done || lia|].
    cbn [vcc vccMax topP topCount].
    rewrite (scan_column_perfect w h ranges top col) by (done || lia).
    cbn. repeat split; simpl; done || lia.
  - intros s (?&?&?&_). done.
Qed.

(** ** The whole sheet *)

(** What the second pass reads of the scratch buffer: the runs, followed by
    the cell after them, which nothing wrote, when their number is odd. *)
Definition row_cells (junk : Z → ColorSeqUnit) (row : list Point) : list ColorSeqUnit :=
  runs row ++ (if Z.even (zlen (runs row)) then [] else [junk (zlen (runs row))]).

Definition matching (k : Z) (row : list Point) : bool :=
  k =? zlen (List.filter dot_run (runs row)).

Definition sheet_ranges (junk : Z → ColorSeqUnit) (k : Z) (rs : list (list Point)) : list Range :=
  concat ((λ row, pair_ranges (row_cells junk row)) <$> List.filter (matching k) rs).

Lemma runs_nonempty row : row ≠ [] → 1 ≤ zlen (runs row).
Proof. destruct row as [|p l]; [done|]. intros _. apply runs_onto_pos. Qed.

(** The callback on a row whose cells fit in the scratch buffer. *)
Lemma rowProcessor_fits junk row coord s :
  row ≠ [] → zlen row < INT_MAX → zlen (row_cells junk row) ≤ zlen row / 2 + 1 →
  row_fits (runs row) (row_cells junk row) s →
  rowProcessor (Some junk) row (zlen row) coord s = Done (row_result (runs row) (row_cells junk row) s).
Proof.
  intros Hne Hlen Hcells Hfits. pose proof (runs_nonempty row Hne) as Hr1.
  pose proof (zlen_nonneg row). unfold row_cells in *.
  destruct (Z.even (zlen (runs row))) eqn:Hev.
  - rewrite app_nil_r in *. apply Zeven_bool_iff, Zeven_div2 in Hev. rewrite Z.div2_div in Hev.
    eapply rowProcessor_cells; try done; unfold zlen in *; lia.
  - rewrite zlen_app in Hcells. change (zlen [_]) with 1 in Hcells.
    rewrite <-Z.negb_odd in Hev. apply negb_false_iff, Zodd_bool_iff, Zodd_div2 in Hev.
    rewrite Z.div2_div in Hev.
    eapply rowProcessor_cells with (n := Z.to_nat ((zlen (runs row) + 1) / 2)); try done.
    + lia.
    + rewrite <-app_assoc. f_equal. apply drop_S.
      rewrite <-zget_nat. fold (zlen (runs row)).
      by rewrite zget_fmap_seqZ by lia.
    + rewrite length_app. cbn [length]. unfold zlen in *. lia.
Qed.

Lemma sheet_ranges_cons junk k row rs :
  sheet_ranges junk k (row :: rs) =
  (if matching k row then pair_ranges (row_cells junk row) else []) ++ sheet_ranges junk k rs.
Proof. unfold sheet_ranges. cbn [List.filter]. by destruct (matching k row). Qed.

Lemma scan_rows junk k w coord rs (dt : list Range) h off :
  (∀ row, row ∈ rs → zlen row = w ∧ zlen (row_cells junk row) ≤ w / 2 + 1) →
  0 < w < INT_MAX → 0 ≤ off → off + zlen (sheet_ranges junk k rs) ≤ zlen dt ≤ INT_MAX →
  0 ≤ h → h + zlen rs ≤ INT_MAX →
  fold_res (λ row ctx, rowProcessor (Some junk) row w coord ctx) rs
    (mkRowState (mkContext k h dt) off) =
  Done (mkRowState (mkContext k (h + zlen (List.filter (matching k) rs))
                      (zwrite dt off (sheet_ranges junk k rs)))
          (off + zlen (sheet_ranges junk k rs))).
Proof.
  intros Hrs Hw. revert dt h off. induction rs as [|row rs IH]; intros dt h off Hoff Hfit Hh Hmax.
  - cbn. by rewrite zwrite_nil, !Z.add_0_r.
  - cbn [fold_res]. destruct (Hrs row) as [Hlen Hcells]; [left|].
    rewrite zlen_cons in Hmax. pose proof (zlen_nonneg rs). rewrite sheet_ranges_cons in *.
    pose proof (zlen_nonneg (sheet_ranges junk k rs)).
    assert (row ≠ []) by (intros ->; cbv in Hlen; lia).
    rewrite <-Hlen in Hcells. rewrite <-Hlen at 1.
    rewrite rowProcessor_fits; [|done|lia|done|].
    + unfold row_result. cbn [rs_ctx width height data rs_offset]. fold (matching k row).
      cbn [mbind res_bind List.filter]. rewrite zlen_app in *.
      destruct (matching k row).
      * pose proof (zlen_nonneg (pair_ranges (row_cells junk row))).
        rewrite IH; [|intros; apply Hrs; by right|lia|rewrite zlen_zwrite; lia|lia|lia].
        rewrite zwrite_app, zlen_cons by lia. f_equal. f_equal; [f_equal|]; lia.
      * change (zlen []) with 0 in *. apply IH; [intros; apply Hrs; by right|lia..].
    + unfold row_fits. cbn [rs_ctx width height data rs_offset].
      intros Hk%Z.eqb_eq. fold (matching k row) in Hk. rewrite Hk, zlen_app in Hfit. int_lia.
Qed.


(** A row whose neighbouring points all differ in colour. *)
Definition alternating (row : list Point) : Prop :=
  ∀ i p q, row !! i = Some p → row !! S i = Some q → pc p ≠ pc q.

Lemma runs_alternating row : alternating row → zlen (runs row) = zlen row.
Proof.
  assert (∀ l u, alternating (endP u :: l) → zlen (runs_onto u l) = zlen l + 1) as H.
  { induction l as [|q l IH]; intros u Ha; [done|]. cbn.
    pose proof (Ha 0%nat (endP u) q eq_refl eq_refl) as Hne.
    case_if; [congruence|]. rewrite !zlen_cons, IH; [lia|].
    intros i a b Hi Hj. by apply (Ha (S i)). }
  destruct row as [|p l]; [done|]. intros Ha. cbn. rewrite H by done. by rewrite zlen_cons.
Qed.

(** The coordinates of an image, as the list the code fills. *)
Definition sheet_of (rgb : list Z) (w h : Z) : list Point :=
  (λ i, pixel_at rgb w (i / w) (i mod w)) <$> seqZ 0 (w * h).

Lemma coords_done_sheet rgb w h c :
  0 < w → 0 ≤ h → coords_done rgb w h h 0 c → c = sheet_of rgb w h.
Proof.
  intros Hw Hh [Hlen Hc]. unfold sheet_of.
  apply zlist_eq; [rewrite zlen_fmap, zlen_seqZ; nia|]. intros i Hi.
  rewrite zget_fmap_seqZ by lia. rewrite Z.add_0_l.
  assert (0 ≤ i mod w < w ∧ 0 ≤ i / w < h) as [Hx Hy].
  { split; [apply Z.mod_pos_bound; lia|].
    split; [apply Z.div_pos; lia|apply Z.div_lt_upper_bound; lia]. }
  rewrite <-(Hc (i / w) (i mod w)) by lia. f_equal.
  pose proof (Z.div_mod i w). lia.
Qed.

(** The ranges of an odd number of runs and the cell read after them. *)
Lemma pair_ranges_odd us j n :
  length us = (2 * n + 1)%nat →
  ∃ u, u ∈ us ∧ pair_ranges (us ++ [j]) =
       pair_ranges us ++ (if keep_range (mkRange (endP u) (endP j))
                          then [mkRange (endP u) (endP j)] else []).
Proof.
  revert us. induction n as [|n IH]; intros us Hn.
  - destruct us as [|u [|]]; [done| |done]. exists u. split; [left|]. done.
  - destruct us as [|u1 [|u2 us]]; [simpl in Hn; lia..|].
    destruct (IH us) as (u & Hu & Heq); [simpl in Hn; lia|].
    exists u. split; [by do 2 right|]. cbn [app pair_ranges]. rewrite Heq.
    by destruct (keep_range (mkRange (endP u1) (endP u2))).
Qed.

Lemma runs_ends row u : u ∈ runs row → endP u ∈ row.
Proof.
  assert (∀ l v, u ∈ runs_onto v l → endP u ∈ endP v :: l) as H.
  { induction l as [|q l IH]; intros v; cbn.
    - intros ->%list_elem_of_singleton. left.
    - case_if.
      + intros Hin%IH. right. exact Hin.
      + intros [->|Hin]%elem_of_cons; [left|]. right. by apply (IH (mkUnit 1 q)). }
  destruct row as [|p l]; [by intros ?%not_elem_of_nil|]. intros Hin. by apply (H l (mkUnit 1 p)).
Qed.

Lemma pair_ranges_length us : 2 * zlen (pair_ranges us) ≤ zlen us.
Proof.
  enough (∀ n us, (length us < n)%nat → 2 * zlen (pair_ranges us) ≤ zlen us) as H
    by (by apply (H (S (length us))); lia).
  clear us. induction n as [|n IH]; intros us Hn; [lia|].
  destruct us as [|u1 [|u2 us]]; [done|done|]. cbn [pair_ranges].
  specialize (IH us). destruct (keep_range _); rewrite ?zlen_cons;
    rewrite ?zlen_cons in *; cbn in Hn; lia.
Qed.

(** * Properties *)


(** The scratch buffer of [length / 2 + 1] units,
    claimed in the code to hold any row, is overrun by every row of three or
    more points whose neighbours all differ. *)
Theorem alternating_row_overflows junk row coord s :
  alternating row → 3 ≤ zlen row < INT_MAX →
  rowProcessor (Some junk) row (zlen row) coord s = Undef.
Proof.
  intros Ha Hlen. assert (row ≠ []) by (intros ->; change (zlen []) with 0 in Hlen; lia).
  unfold rowProcessor. rewrite Z.quot_div_nonneg by lia.
  rewrite Malloc_ok by lia. cbn [mbind res_bind].
  rewrite get_bw_runs, scratch_len, runs_alternating by (done || lia).
  by case_if; [lia|].
Qed.

(** C23. When memory is available, and on every row the runs of one colour,
    with one more unit if their number is odd, fit into the scratch buffer of
    [w / 2 + 1] units (see [alternating_row_overflows] for rows that do not), the
    scan of all rows of a sheet collects, in order, the ranges of the rows that
    show the expected number of dark runs, and counts those rows: the grid the
    answer areas are searched in. The array of ranges must be large enough. *)
Theorem scan_sheet junkp junk k coordinate w h (ranges : list Range) :
  0 < w < INT_MAX → 0 ≤ h ≤ INT_MAX → w * h ≤ INT_MAX → zlen coordinate = w * h →
  (∀ row, row ∈ rows coordinate w h → zlen (row_cells junk row) ≤ w / 2 + 1) →
  let rs := rows coordinate w h in
  zlen (sheet_ranges junk k rs) ≤ zlen ranges ≤ INT_MAX →
  process_by_row (Some junkp) coordinate w h (mkRowState (mkContext k 0 ranges) 0) (rowProcessor (Some junk)) =
  Done (mkRowState (mkContext k (zlen (List.filter (matching k) rs))
                      (zwrite ranges 0 (sheet_ranges junk k rs)))
          (zlen (sheet_ranges junk k rs))).
Proof.
  intros Hw Hh Hmax Hlen Hcells rs Hcap. rewrite process_by_row_fold by (done || lia).
  rewrite (scan_rows junk k); [done| |done|lia|done|done|].
  - intros row Hrow. split; [|by apply Hcells].
    apply list_elem_of_fmap in Hrow as (y & -> & Hy%elem_of_seqZ).
    apply (zlen_row _ _ h); (done || lia).
  - unfold rows. rewrite zlen_fmap, zlen_seqZ; lia.
Qed.

(** On a matching row with an odd number of runs the
    pairing loop reads a unit of the scratch buffer that was never written: what
    the freshly allocated memory holds decides how many ranges are stored. *)
Theorem odd_row_reads_unwritten row coord s :
  row ≠ [] → zlen row < INT_MAX → Forall (λ p, px p ≤ INT_MAX) row →
  Z.even (zlen (runs row)) = false → zlen (runs row) < zlen row / 2 + 1 →
  matching (width (rs_ctx s)) row = true →
  0 ≤ rs_offset s → rs_offset s + zlen (runs row) ≤ zlen (data (rs_ctx s)) ≤ INT_MAX →
  0 ≤ height (rs_ctx s) < INT_MAX →
  ∃ junk1 junk2 s1 s2,
    rowProcessor (Some junk1) row (zlen row) coord s = Done s1 ∧
    rowProcessor (Some junk2) row (zlen row) coord s = Done s2 ∧
    rs_offset s2 = rs_offset s1 + 1.
Proof.
  intros Hne Hlen Hx Hodd Hroom Hmatch Hoff Hcap Hh.
  set (j1 := λ _ : Z, mkUnit 0 (mkPoint 0 0 0)).
  set (j2 := λ _ : Z, mkUnit 0 (mkPoint INT_MAX 1 0)).
  assert (∀ junk, row_cells junk row = runs row ++ [junk (zlen (runs row))]) as Hcells.
  { intros junk. unfold row_cells. by rewrite Hodd. }
  assert (∀ junk, rowProcessor (Some junk) row (zlen row) coord s =
    Done (row_result (runs row) (row_cells junk row) s)) as Hrow.
  { intros junk. apply rowProcessor_fits; [done..| |].
    - rewrite Hcells, zlen_app. change (zlen [_]) with 1. lia.
    - intros _. pose proof (pair_ranges_length (row_cells junk row)) as Hp.
      rewrite Hcells, zlen_app in Hp. change (zlen [_]) with 1 in Hp.
      pose proof (runs_nonempty row Hne). rewrite Hcells. int_lia. }
  exists j1, j2, (row_result (runs row) (row_cells j1 row) s),
    (row_result (runs row) (row_cells j2 row) s).
  do 2 (split; [apply Hrow|]). unfold row_result. fold (matching (width (rs_ctx s)) row).
  rewrite Hmatch. cbn [rs_offset]. rewrite !Hcells.
  rewrite <-Z.negb_odd in Hodd. apply negb_false_iff, Zodd_bool_iff, Zodd_div2 in Hodd.
  rewrite Z.div2_div in Hodd.
  destruct (pair_ranges_odd (runs row) (j1 0) (Z.to_nat (zlen (runs row) / 2)))
    as (u & Hu & Hp1); [unfold zlen in *; lia|].
  destruct (pair_ranges_odd (runs row) (j2 0) (Z.to_nat (zlen (runs row) / 2)))
    as (u' & Hu' & Hp2); [unfold zlen in *; lia|].
  change (j1 (zlen (runs row))) with (j1 0). change (j2 (zlen (runs row))) with (j2 0).
  rewrite Hp1, Hp2. change (keep_range (mkRange (endP u) (endP (j1 0)))) with false.
  assert (keep_range (mkRange (endP u') (endP (j2 0))) = true) as ->.
  { unfold keep_range. cbn [to from]. unfold j2. cbn [endP px py].
    rewrite (proj2 (Z.ltb_ge _ _)); [done|].
    rewrite Forall_forall in Hx. by apply Hx, runs_ends. }
  rewrite !zlen_app. change (zlen []) with 0. change (zlen [_]) with 1. lia.
Qed.

(** C21. From an acceptable bitmap, loaded as the program does, the standard
    coordinates are the bitmap's pixels row by row from the top, whichever way the
    file stores them: colour 0 for an RGB value above 0xaaaaaa, 1 for any other;
    no access leaves the decoded buffer or the array. *)
Theorem bitmap_coordinates e name bmp bytes :
  fopen e name = Some bytes → Forall is_byte bytes → acceptable e main_flags bytes →
  let w := iwidth (info_of bytes) in
  let h := Z.abs (iheight (info_of bytes)) in
  3 * (w * h) ≤ INT_MAX →
  returns (bmpread e (Some name) main_flags (Some bmp)) (λ r,
    ∃ rgb, r.1.2 = Some (mkBmp w h (Some rgb)) ∧ ∀ c, zlen c = w * h →
      returns (make_standard_coordinate rgb w h c) (λ c',
        zlen c' = w * h ∧ ∀ y x, 0 ≤ y < h → 0 ≤ x < w →
          let row := if iheight (info_of bytes) <? 0 then y else h - 1 - y in
          let '(r, g, b) := bmp_pixel bytes y x in
          zget c' (row * w + x) = Some (mkPoint x row (if 0xaaaaaa <? r * 65536 + g * 256 + b then 0 else 1)))).
Proof.
  intros Hopen Hb Hread%readable_acceptable w h Hmax; [|done].
  assert (info_ok (header_of bytes) (info_of bytes)) as [Hw [_ Hh0] _ _ _].
  { unfold readable in Hread. propify. by apply (headers_accepted_ok e main_flags). }
  eapply returns_mono; [by apply bmpread_opened|].
  intros [[ok out] ctx] (_ & Hok & Hres). cbn [fst snd] in *. rewrite Hread in Hok. subst ok.
  unfold image_result in Hres. cbn [fst snd] in Hres.
  destruct Hres as (rgb & -> & _ & Hlen & Himg). exists rgb. split; [done|].
  fold w h in Hlen, Himg, Hw. change (out_line_len main_flags (info_of bytes)) with (w * 3) in *.
  assert (1 ≤ h) by (unfold h; lia). assert (w ≤ w * h) by nia.
  intros c Hc. eapply returns_mono;
    [apply make_standard_coordinate_done; try done; unfold INT_MAX in *; lia|].
  intros c' [Hl Hc']. split; [done|]. intros y x Hy Hx. cbv zeta.
  assert (out_row main_flags (info_of bytes) y = if iheight (info_of bytes) <? 0 then y else h - 1 - y) as Erow.
  { unfold out_row, same_order. change (Z.testbit main_flags 0) with true. fold h. by destruct (_ <? 0). }
  rewrite <-Erow.
  assert (0 ≤ out_row main_flags (info_of bytes) y < h) as Hrow.
  { rewrite Erow. case_if; lia. }
  rewrite (Hc' (out_row main_flags (info_of bytes) y) x) by lia.
  pose proof (λ k, Himg y x k Hy Hx) as Hpix. pose proof (bmp_pixel_bytes bytes y x Hb) as Hbytes.
  destruct (bmp_pixel bytes y x) as [[r g] b]. unfold pixel_at, color_of.
  set (row := out_row main_flags (info_of bytes) y) in *.
  replace (3 * (row * w + x)) with (row * (w * 3) + 3 * x) by lia.
  rewrite !Hpix by lia. cbn -[to_hex]. destruct Hbytes as (? & ? & ?). by rewrite to_hex_value.
Qed.

(** When the bitmap is missing or not acceptable the program
    prints no answer and exits with status 1. *)
Theorem main_unreadable e m :
  (∀ bytes, fopen e "./333.bmp"%string = Some bytes →
     Forall is_byte bytes ∧ ¬ acceptable e main_flags bytes) →
  main e m = Done (1, None).
Proof.
  intros H. unfold main. apply returns_eq.
  destruct (fopen e "./333.bmp"%string) as [bytes|] eqn:Hopen.
  - destruct (H bytes eq_refl) as [Hb Hr].
    rewrite <-readable_acceptable, not_true_iff_false in Hr by done. apply returns_bind.
    eapply returns_mono; [by apply bmpread_opened|].
    intros [[ok out] ctx] (_ & Hok & _). cbn [fst snd] in *. by rewrite Hok, Hr.
  - apply returns_bind. eapply returns_mono; [apply bmpread_not_opened; intros ? [= <-]; by right|].
    intros [[ok out] ctx] (_ & Hok & _). cbn [fst snd] in *. by rewrite Hok.
Qed.

(** An answer area inside the sheet, narrow enough for the exact threshold. *)
Definition area_inside (w h : Z) (r : Range) : Prop :=
  0 ≤ px (from r) ≤ px (to r) ∧ px (to r) ≤ w ∧
  px (to r) - px (from r) < THRESHOLD_RANGE ∧ 0 ≤ py (from r) ≤ h.

(** The dark pixels of an area: its lines from the top, up to the first line
    more than 95% dark. *)
Definition area_dots (coordinate : list Point) (w h : Z) (r : Range) : Z :=
  sum_until (95 * (px (to r) - px (from r)) / 100)
    ((λ row, line_dots coordinate w row r) <$> seqZ (py (from r)) (h - py (from r))).

(** C24. Among answer areas that lie inside the sheet the selected one
    is the first with the most dark pixels, where an area is counted from its
    top line down to the first line more than 95% dark (the floating-point
    threshold is exact). *)
Theorem marked_area areas coordinate w h n :
  zlen coordinate = w * h → w * h ≤ INT_MAX → 0 < n → n ≤ zlen areas →
  Forall (area_inside w h) areas →
  let dots i := from_option (area_dots coordinate w h) 0 (zget areas i) in
  returns (scan_to_count_area_with_most_dot areas n coordinate w h) (λ i,
    0 ≤ i < n ∧ (∀ k, 0 ≤ k < n → dots k ≤ dots i) ∧ (∀ k, 0 ≤ k < i → dots k < dots i)).
Proof.
  intros Hlen Hmax Hn Hareas Hin dots. apply most_dot_scan; [done|].
  intros k Hk. destruct (zget_is_Some areas k) as [r Hr]; [lia|].
  exists r. split; [done|]. unfold dots. rewrite Hr. cbn.
  rewrite zget_of_lookup in Hr by lia.
  pose proof (Forall_lookup_1 _ _ _ _ Hin Hr) as (?&?&?&?).
  by apply count_dot_sum.
Qed.

(** On a sheet whose columns are all unbroken
    vertical strokes the search records no area at all: the running count only
    reaches the maximum at a break, so the output array is left as it was. *)
Theorem unbroken_strokes_ignored junk (ranges areas : list Range) w h :
  0 < w → 1 ≤ h → w * h + h < INT_MAX → perfect_sheet ranges w h →
  try_to_get_answer_area_range (Some junk) (mkContext w h ranges) areas = Done areas.
Proof.
  intros Hw Hh Hmax Hp. unfold try_to_get_answer_area_range. cbn [width height data].
  rewrite Malloc_ok by lia. cbn [mbind res_bind]. apply returns_eq, returns_bind.
  eapply returns_mono; [apply perfect_columns; [done..|rewrite zlen_fmap, zlen_seqZ; lia]|].
  intros s (_ & Hcount & ->). rewrite Hcount.
  destruct (zget_is_Some (junk <$> seqZ 0 w) 0) as [p Hpt];
    [rewrite zlen_fmap, zlen_seqZ; lia|].
  rewrite (load_ok _ _ _ Hpt). cbn [mbind res_bind]. by rewrite for_up_empty by lia.
Qed.

(** The maximum is not reset between columns: once one
    column has shown a stroke of five rows, every later thick column is recorded
    as a border, whatever its own rows are. *)
Theorem stale_maximum_accepted w h (ranges : list Range) col s top :
  grid_small ranges w h → 0 ≤ col < w → 1 ≤ h → w * h ≤ INT_MAX →
  zget ranges col = Some top → 2 < px (to top) - px (from top) →
  5 ≤ vccMax s → 0 ≤ vcc s → vcc s + h ≤ INT_MAX →
  0 ≤ topCount s < zlen (topP s) → zlen (topP s) ≤ INT_MAX →
  returns (area_column w h ranges col s) (λ s',
    topCount s' = topCount s + 1 ∧ zget (topP s') (topCount s) = Some (from top)).
Proof.
  intros Hg Hcol Hh Hmax Htop Hthick Hm Hc Hch Hcount Htp.
  assert (small_range top) as Hs.
  { destruct (Hg 0 col) as (r & Hr & Hs); [lia..|].
    rewrite Z.mul_0_l, Z.add_0_l in Hr. congruence. }
  unfold area_column. rewrite (load_ok _ _ _ Htop). cbn [mbind res_bind].
  pose proof Hs as (?&?&?). rewrite (cint_ok (_ - _)) by int_lia. cbn [mbind res_bind].
  rewrite (proj2 (Z.ltb_lt _ _)) by lia. cbn [negb].
  apply returns_bind. eapply returns_mono; [by apply scan_column_mono|].
  intros [c' m'] (_ & _ & Hm'). rewrite (proj2 (Z.leb_le _ _)) by lia.
  rewrite store_ok by lia. cbn [mbind res_bind]. rewrite cint_ok by int_lia.
  cbn. split; [done|]. by apply zget_zupd_eq.
Qed.

(** * Witnesses *)

(** A row given by its colours. *)
Definition row_of (y : Z) (colours : list Z) : list Point := imap (λ i c, mkPoint (Z.of_nat i) y c) colours.

Definition no_unit (_ : Z) : ColorSeqUnit := mkUnit 0 (mkPoint 0 0 0).
Definition no_point (_ : Z) : Point := mkPoint 0 0 0.
Definition no_range (_ : Z) : Range := mkRange (mkPoint 0 0 0) (mkPoint 0 0 0).


Lemma alternating_row_overflows_witness :
  rowProcessor (Some no_unit) (row_of 0 [0; 1; 0; 1]) 4 [] (mkRowState (mkContext 5 0 []) 0) = Undef.
Proof.
  apply (alternating_row_overflows no_unit (row_of 0 [0; 1; 0; 1])); [|done].
  intros i p q. do 4 (destruct i as [|i]; [by intros [= <-] [= <-]|]). done.
Defined.

Definition sample_rows : list Point := row_of 0 [0; 0; 1; 1; 1; 1] ++ row_of 1 [0; 1; 0; 0; 0; 0].

Lemma scan_sheet_witness :
  process_by_row (Some no_point) sample_rows 6 2 (mkRowState (mkContext 1 0 (no_range <$> seqZ 0 4)) 0)
    (rowProcessor (Some no_unit)) =
  Done (mkRowState (mkContext 1 2 (zwrite (no_range <$> seqZ 0 4) 0
          (sheet_ranges no_unit 1 (rows sample_rows 6 2))))
        (zlen (sheet_ranges no_unit 1 (rows sample_rows 6 2)))).
Proof.
  apply (scan_sheet no_point no_unit 1 sample_rows 6 2); try done.
  intros row [->|[->|[]%not_elem_of_nil]%elem_of_cons]%elem_of_cons; done.
Defined.

Lemma odd_row_reads_unwritten_witness :
  let s := mkRowState (mkContext 1 0 (no_range <$> seqZ 0 4)) 0 in
  ∃ junk1 junk2 s1 s2,
    rowProcessor (Some junk1) (row_of 0 [0; 0; 1; 1; 0; 0]) 6 [] s = Done s1 ∧
    rowProcessor (Some junk2) (row_of 0 [0; 0; 1; 1; 0; 0]) 6 [] s = Done s2 ∧
    rs_offset s2 = rs_offset s1 + 1.
Proof.
  apply (odd_row_reads_unwritten (row_of 0 [0; 0; 1; 1; 0; 0])); try done.
  repeat constructor; done.
Defined.

Lemma bitmap_coordinates_witness :
  acceptable sample_env main_flags sample_bytes ∧
  returns (bmpread sample_env (Some "sheet.bmp"%string) main_flags (Some zero_bmp)) (λ r,
    ∃ rgb, r.1.2 = Some (mkBmp 2 2 (Some rgb)) ∧ ∀ c, zlen c = 2 * 2 →
      returns (make_standard_coordinate rgb 2 2 c) (λ c',
        zlen c' = 2 * 2 ∧ ∀ y x, 0 ≤ y < 2 → 0 ≤ x < 2 →
          let row := if iheight (info_of sample_bytes) <? 0 then y else 2 - 1 - y in
          let '(r, g, b) := bmp_pixel sample_bytes y x in
          zget c' (row * 2 + x) = Some (mkPoint x row (if 0xaaaaaa <? r * 65536 + g * 256 + b then 0 else 1)))).
Proof.
  assert (acceptable sample_env main_flags sample_bytes) as Ha.
  { apply readable_acceptable; [apply sample_bytes_ok|by vm_compute]. }
  split; [exact Ha|].
  apply (bitmap_coordinates sample_env "sheet.bmp" zero_bmp sample_bytes); [done|apply sample_bytes_ok|exact Ha|done].
Defined.

Lemma main_unreadable_witness :
  let e := mkEnv (λ _, None) (λ _, true) (λ _, true) (λ _, true) (λ _, mkEntry 0 0 0 0) (λ _, 0) in
  main e (mkMemory (Some no_point) (Some no_unit) (Some no_range) zero_bmp) = Done (1, None).
Proof. apply main_unreadable. done. Defined.

Definition sample_areas : list Range :=
  [mkRange (mkPoint 0 0 0) (mkPoint 3 0 0); mkRange (mkPoint 3 0 0) (mkPoint 6 0 0)].

Lemma marked_area_witness :
  let dots i := from_option (area_dots sample_rows 6 2) 0 (zget sample_areas i) in
  dots 1 = 0 ∧ dots 0 = 2 ∧
  returns (scan_to_count_area_with_most_dot sample_areas 2 sample_rows 6 2) (λ i,
    0 ≤ i < 2 ∧ (∀ k, 0 ≤ k < 2 → dots k ≤ dots i) ∧ (∀ k, 0 ≤ k < i → dots k < dots i)).
Proof.
  cbv zeta. split; [by vm_compute|]. split; [by vm_compute|].
  apply (marked_area sample_areas sample_rows 6 2 2); try done.
  unfold sample_areas, area_inside, THRESHOLD_RANGE. repeat constructor; cbn; lia.
Defined.

(** Five unbroken strokes, six rows long. *)
Definition stroke_range (i : Z) : Range :=
  mkRange (mkPoint (10 * (i mod 5)) (i / 5) 1) (mkPoint (10 * (i mod 5) + 5) (i / 5) 0).

Lemma unbroken_strokes_ignored_witness :
  perfect_sheet (stroke_range <$> seqZ 0 30) 5 6 ∧
  try_to_get_answer_area_range (Some no_point) (mkContext 5 6 (stroke_range <$> seqZ 0 30)) [] = Done [].
Proof.
  assert (perfect_sheet (stroke_range <$> seqZ 0 30) 5 6) as H.
  { intros col Hcol. exists (stroke_range col). rewrite zget_fmap_seqZ by lia.
    split; [done|]. split; [unfold small_range, stroke_range; cbn -[Z.div Z.modulo]; int_lia|].
    intros row Hrow. exists (stroke_range (row * 5 + col)). rewrite zget_fmap_seqZ by lia.
    split; [done|]. split; [unfold small_range, stroke_range; cbn -[Z.div Z.modulo]; int_lia|].
    unfold continues, stroke_range. cbn [from to px py].
    replace ((row * 5 + col) mod 5) with col by lia. replace ((row * 5 + col) / 5) with row by lia.
    replace (col mod 5) with col by lia. replace (col / 5) with 0 by lia.
    rewrite Z.sub_0_r, !Z.eqb_refl. done. }
  split; [exact H|]. by apply unbroken_strokes_ignored.
Defined.

Lemma stale_maximum_accepted_witness :
  returns (area_column 5 6 (stroke_range <$> seqZ 0 30) 2
             (mkArea 1 5 (no_point <$> seqZ 0 5) 1)) (λ s',
    topCount s' = 2 ∧ zget (topP s') 1 = Some (from (stroke_range 2))).
Proof.
  apply (stale_maximum_accepted 5 6 (stroke_range <$> seqZ 0 30) 2
    (mkArea 1 5 (no_point <$> seqZ 0 5) 1) (stroke_range 2)); try done.
  intros row col Hr Hc. exists (stroke_range (row * 5 + col)). rewrite zget_fmap_seqZ by lia.
  split; [done|]. unfold small_range, stroke_range. cbn -[Z.div Z.modulo]. int_lia.
Defined.
