(* ===== verification/Pqueue.v ===== *)
(** libs/pqueue/pqueue.c: the binary-heap priority queue with callbacks. Nodes
    are addresses; their priority and position fields live in a store that only
    the callbacks of the queue read and write. *)
From S2P Require Import Prelude.

(** * Data *)

(** [void *] entries of the queue. *)
Abbreviation node := Z (only parsing).

(** The five function pointers of the handle, over a store [St] of nodes. *)
Record callbacks (St : Type) := mkCallbacks {
  cmppri : Z → Z → bool;
  getpri : St → node → Z;
  setpri : St → node → Z → St;
  getpos : St → node → Z;
  setpos : St → node → Z → St }.
Arguments mkCallbacks {St}.
Arguments cmppri {St}.
Arguments getpri {St}.
Arguments setpri {St}.
Arguments getpos {St}.
Arguments setpos {St}.

(** [pqueue_t]; slot 0 of [d] is not used. *)
Record pqueue_t (St : Type) := mkQueue {
  size : Z; avail : Z; step : Z; cb : callbacks St; d : list node }.
Arguments mkQueue {St}.
Arguments size {St}.
Arguments avail {St}.
Arguments step {St}.
Arguments cb {St}.
Arguments d {St}.

Definition left (i : Z) : Z := u64 (Z.shiftl i 1).
Definition right (i : Z) : Z := u64 (Z.shiftl i 1 + 1).
Definition parent (i : Z) : Z := Z.shiftr i 1.

Definition PTR_SIZE : Z := 8.

(** A block asked for by its size in bytes, as an array of pointers. *)
Definition alloc_ptrs (ok : bool) (junk : Z → node) (bytes : Z) : option (list node) :=
  if ok then Some (junk <$> seqZ 0 (bytes / PTR_SIZE)) else None.

(** [realloc] keeps the cells that fit. *)
Definition realloc_ptrs (ok : bool) (junk : Z → node) (old : list node) (bytes : Z)
    : option (list node) :=
  if ok then
    let n := Z.to_nat (bytes / PTR_SIZE) in
    Some (take n old ++ drop (length old) (junk <$> seqZ 0 (bytes / PTR_SIZE)))
  else None.

Section ops.
Context {St : Type}.
Implicit Types (q : pqueue_t St) (st : St).

(** [pqueue_init]; [None] is the null result. *)
Definition pqueue_init (handle_ok data_ok : bool) (junk : Z → node) (n : Z)
  (callb : callbacks St) : option (pqueue_t St) :=
if negb handle_ok then None
else
  block ← alloc_ptrs data_ok junk (u64 (u64 (n + 1) * PTR_SIZE));
  Some (mkQueue 1 (u64 (n + 1)) (u64 (n + 1)) callb block).

(** [pqueue_free]: the handle is gone. *)
Definition pqueue_free (q : pqueue_t St) : option (pqueue_t St) := None.

Definition pqueue_size q : Z := u64 (size q - 1).

(** The loop of [bubble_up]: array, store and index of the hole. *)
Fixpoint bubble_loop (fuel : nat) (c : callbacks St) (arr : list node) (st : St) (i pri : Z)
  : res (list node * St * Z) :=
if 1 <? i then
  p ← load arr (parent i);
  if cmppri c (getpri c st p) pri then
    match fuel with
    | O => OutOfFuel
    | S fuel' =>
        arr ← store arr i p;
        bubble_loop fuel' c arr (setpos c st p i) (parent i) pri
    end
  else mret (arr, st, i)
else mret (arr, st, i).

Definition bubble_up (c : callbacks St) (arr : list node) (st : St) (i : Z)
  : res (list node * St) :=
moving_node ← load arr i;
let moving_pri := getpri c st moving_node in
r ← bubble_loop (Z.to_nat i) c arr st i moving_pri;
let '(arr, st, i) := r in
arr ← store arr i moving_node;
mret (arr, setpos c st moving_node i).

Definition maxchild (c : callbacks St) (sz : Z) (arr : list node) (st : St) (i : Z) : res Z :=
let child_node := left i in
if sz <=? child_node then mret 0
else if u64 (child_node + 1) <? sz then
  a ← load arr child_node;
  b ← load arr (u64 (child_node + 1));
  mret (if cmppri c (getpri c st a) (getpri c st b) then u64 (child_node + 1) else child_node)
else mret child_node.

Fixpoint percolate_loop (fuel : nat) (c : callbacks St) (sz : Z) (arr : list node) (st : St)
  (i pri : Z) : res (list node * St * Z) :=
child_node ← maxchild c sz arr st i;
if child_node =? 0 then mret (arr, st, i)
else
  p ← load arr child_node;
  if cmppri c pri (getpri c st p) then
    match fuel with
    | O => OutOfFuel
    | S fuel' =>
        arr ← store arr i p;
        percolate_loop fuel' c sz arr (setpos c st p i) child_node pri
    end
  else mret (arr, st, i).

Definition percolate_down (c : callbacks St) (sz : Z) (arr : list node) (st : St) (i : Z)
  : res (list node * St) :=
moving_node ← load arr i;
let moving_pri := getpri c st moving_node in
r ← percolate_loop (Z.to_nat sz) c sz arr st i moving_pri;
let '(arr, st, i) := r in
arr ← store arr i moving_node;
mret (arr, setpos c st moving_node i).

Definition with_heap q (sz : Z) (arr : list node) : pqueue_t St :=
mkQueue sz (avail q) (step q) (cb q) arr.

(** [pqueue_insert]: 0 on success, 1 when the queue is null or cannot grow. *)
Definition pqueue_insert (realloc_ok : bool) (junk : Z → node) (oq : option (pqueue_t St))
  (st : St) (x : node) : res (Z * option (pqueue_t St) * St) :=
match oq with
| None => mret (1, None, st)
| Some q =>
    let grown :=
      if avail q <=? size q then
        let newsize := u64 (size q + step q) in
        arr ← realloc_ptrs realloc_ok junk (d q) (u64 (PTR_SIZE * newsize));
        Some (mkQueue (size q) newsize (step q) (cb q) arr)
      else Some q in
    match grown with
    | None => mret (1, Some q, st)
    | Some q =>
        let i := size q in
        arr ← store (d q) i x;
        '(arr, st) ← bubble_up (cb q) arr st i;
        mret (0, Some (with_heap q (u64 (i + 1)) arr), st)
    end
end.

Definition pqueue_change_priority q (st : St) (new_pri : Z) (x : node)
  : res (pqueue_t St * St) :=
let old_pri := getpri (cb q) st x in
let st := setpri (cb q) st x new_pri in
let posn := getpos (cb q) st x in
'(arr, st) ← (if cmppri (cb q) old_pri new_pri then bubble_up (cb q) (d q) st posn
              else percolate_down (cb q) (size q) (d q) st posn);
mret (with_heap q (size q) arr, st).

(** [pqueue_remove] always returns 0. *)
Definition pqueue_remove q (st : St) (x : node) : res (pqueue_t St * St) :=
let posn := getpos (cb q) st x in
let sz := u64 (size q - 1) in
last ← load (d q) sz;
arr ← store (d q) posn last;
y ← load arr posn;
'(arr, st) ← (if cmppri (cb q) (getpri (cb q) st x) (getpri (cb q) st y)
              then bubble_up (cb q) arr st posn
              else percolate_down (cb q) sz arr st posn);
mret (with_heap q sz arr, st).

Definition pqueue_pop (oq : option (pqueue_t St)) (st : St)
  : res (option node * option (pqueue_t St) * St) :=
match oq with
| None => mret (None, None, st)
| Some q =>
    if size q =? 1 then mret (None, Some q, st)
    else
      head ← load (d q) 1;
      let sz := u64 (size q - 1) in
      last ← load (d q) sz;
      arr ← store (d q) 1 last;
      '(arr, st) ← percolate_down (cb q) sz arr st 1;
      mret (Some head, Some (with_heap q sz arr), st)
end.

Definition pqueue_peek (oq : option (pqueue_t St)) : res (option node) :=
match oq with
| None => mret None
| Some q =>
    if size q =? 1 then mret None
    else x ← load (d q) 1; mret (Some x)
end.

(** [pqueue_dump]: one line per entry: position, left, right, parent, maxchild
  and the entry handed to the printing callback. *)
Definition pqueue_dump q (st : St) : res (list (Z * Z * Z * Z * Z * node)) :=
for_up 1 (size q) (λ i out,
  m ← maxchild (cb q) (size q) (d q) st i;
  x ← load (d q) i;
  mret (out ++ [(i, left i, right i, parent i, m, x)])) [].

(** The callbacks of the copy [pqueue_print] pops from write nothing. *)
Definition read_only (c : callbacks St) : callbacks St :=
mkCallbacks (cmppri c) (getpri c) (λ st _ _, st) (getpos c) (λ st _ _, st).

(** [while ((e = pqueue_pop(dup))) print(out, e)] *)
Fixpoint print_loop (fuel : nat) (dup : pqueue_t St) (st : St) (out : list node)
  : res (list node) :=
r ← pqueue_pop (Some dup) st;
match r with
| (Some e, Some dup, st) =>
    match fuel with O => OutOfFuel | S fuel' => print_loop fuel' dup st (out ++ [e]) end
| _ => mret out
end.

(** [pqueue_print]: the entries in the order they are printed. The null result
  of [pqueue_init] is dereferenced. *)
Definition pqueue_print (handle_ok data_ok : bool) (junk : Z → node) q (st : St)
  : res (list node) :=
match pqueue_init handle_ok data_ok junk (size q) (read_only (cb q)) with
| None => Undef
| Some dup =>
    if zlen (d q) <? size q then Undef
    else if zlen (d dup) <? size q then Undef
    else
      let arr := zwrite (d dup) 0 (take (Z.to_nat (size q)) (d q)) in
      print_loop (Z.to_nat (size q)) (mkQueue (size q) (avail q) (step q) (cb dup) arr) st []
end.

(** [subtree_is_valid]: positions are [int]s here, the size is a [size_t]. *)
Fixpoint subtree_is_valid (fuel : nat) q (st : St) (pos : Z) : res bool :=
match fuel with
| O => OutOfFuel
| S fuel' =>
    let ok_child child :=
      if child <? size q then
        p ← load (d q) pos;
        c ← load (d q) child;
        if cmppri (cb q) (getpri (cb q) st p) (getpri (cb q) st c) then mret false
        else subtree_is_valid fuel' q st child
      else mret true in
    l ← cint (Z.shiftl pos 1);
    b ← ok_child l;
    if (b : bool) then r ← cint (l + 1); ok_child r else mret false
end.

Definition pqueue_is_valid q (st : St) : res bool :=
subtree_is_valid (S (Z.to_nat (size q))) q st 1.
End ops.

(** * Interfaces: what the queue relies on the callbacks for *)

(** [cmppri a b] reads "a ranks below b": a strict weak order. *)
Class PriorityOrder (cmp : Z → Z → bool) : Prop := {
  cmp_irrefl a : cmp a a = false;
  cmp_trans a b c : cmp a b = true → cmp b c = true → cmp a c = true;
  cmp_ntrans a b c : cmp a b = false → cmp b c = false → cmp a c = false }.

(** Storing a position leaves all priorities alone. *)
Class PriorityStable {St} (c : callbacks St) : Prop := {
  getpri_setpos st x p y : getpri c (setpos c st x p) y = getpri c st y }.

(** The fields of a node behave like fields. *)
Class NodeFields {St} (c : callbacks St) : Prop := {
  fields_stable :: PriorityStable c;
  getpos_setpos st x p y : getpos c (setpos c st x p) y = if y =? x then p else getpos c st y;
  getpri_setpri st x p y : getpri c (setpri c st x p) y = if y =? x then p else getpri c st y;
  getpos_setpri st x p y : getpos c (setpri c st x p) y = getpos c st y }.

#[export] Instance read_only_stable {St} (c : callbacks St) : PriorityStable (read_only c).
Proof. by constructor. Qed.

(** Nodes of a concrete program: a map from addresses to the two fields. *)
Definition node_map : Type := gmap Z (Z * Z).
Definition map_callbacks (cmp : Z → Z → bool) : callbacks node_map :=
  mkCallbacks cmp
    (λ st x, (default (0, 0) (st !! x)).1)
    (λ st x p, <[x := (p, (default (0, 0) (st !! x)).2)]> st)
    (λ st x, (default (0, 0) (st !! x)).2)
    (λ st x p, <[x := ((default (0, 0) (st !! x)).1, p)]> st).

#[export] Instance map_callbacks_fields cmp : NodeFields (map_callbacks cmp).
Proof.
  split; [split|..]; intros st x p y; cbn; unfold node_map in *;
    destruct (decide (y = x)) as [->|Hne];
    rewrite ?lookup_insert_eq, ?lookup_insert_ne by done;
    rewrite ?Z.eqb_refl; try done; by rewrite (proj2 (Z.eqb_neq y x)).
Qed.

#[export] Instance Zlt_order : PriorityOrder Z.ltb.
Proof.
  split.
  - apply Z.ltb_irrefl.
  - intros a b c. rewrite !Z.ltb_lt. lia.
  - intros a b c. rewrite !Z.ltb_ge. lia.
Qed.

#[export] Instance Zgt_order : PriorityOrder Z.gtb.
Proof.
  split.
  - intros a. rewrite Z.gtb_ltb. apply Z.ltb_irrefl.
  - intros a b c. rewrite !Z.gtb_ltb, !Z.ltb_lt. lia.
  - intros a b c. rewrite !Z.gtb_ltb, !Z.ltb_ge. lia.
Qed.

Lemma cmp_asym cmp `{PriorityOrder cmp} a b : cmp a b = true → cmp b a = false.
Proof.
  intros Hab. destruct (cmp b a) eqn:Hba; [|done].
  pose proof (cmp_trans _ _ _ Hab Hba) as Haa. by rewrite cmp_irrefl in Haa.
Qed.

(** * Arrays as heaps *)

Implicit Types (arr : list Z).

(** Entry [k] of the array. *)
Definition nd (arr : list node) (k : Z) : node := default 0 (zget arr k).

(** The entries in use: slots [1 .. sz-1]. *)
Definition entries (arr : list node) (sz : Z) : list node := zslice arr 1 (sz - 1).

(** Exchange of two slots. *)
Definition swap (arr : list node) (i j : Z) : list node :=
  zupd (zupd arr i (nd arr j)) j (nd arr i).

Lemma load_nd arr k : 0 ≤ k < zlen arr → load arr k = Done (nd arr k).
Proof.
  intros Hk. destruct (zget_is_Some arr k Hk) as [x Hx]. unfold nd. rewrite Hx.
  by apply load_ok.
Qed.

Lemma zget_nd arr k : 0 ≤ k < zlen arr → zget arr k = Some (nd arr k).
Proof. intros Hk. destruct (zget_is_Some arr k Hk) as [x Hx]. unfold nd. by rewrite Hx. Qed.

Lemma nd_zupd arr i x k :
  0 ≤ i < zlen arr → nd (zupd arr i x) k = if k =? i then x else nd arr k.
Proof.
  intros Hi. unfold nd. destruct (Z.eqb_spec k i) as [->|].
  - by rewrite zget_zupd_eq.
  - by rewrite zget_zupd_ne by lia.
Qed.

Lemma nd_swap arr i j k :
  0 ≤ i < zlen arr → 0 ≤ j < zlen arr →
  nd (swap arr i j) k = if k =? j then nd arr i else if k =? i then nd arr j else nd arr k.
Proof.
  intros. unfold swap. rewrite nd_zupd by (rewrite zlen_zupd; lia). by rewrite nd_zupd by lia.
Qed.

Lemma zlen_swap arr i j : zlen (swap arr i j) = zlen arr.
Proof. unfold swap. by rewrite !zlen_zupd. Qed.

Lemma nd_ext a b : zlen a = zlen b → (∀ k, 0 ≤ k < zlen a → nd a k = nd b k) → a = b.
Proof.
  intros Hl H. apply zlist_eq; [done|]. intros k Hk. rewrite !zget_nd by lia. by rewrite H.
Qed.

(** Moving an entry into the hole and the hole to its slot is an exchange. *)
Lemma zupd_zupd arr i x y : zupd (zupd arr i x) i y = zupd arr i y.
Proof. unfold zupd. apply list_insert_insert_eq. Qed.

Lemma zupd_nd arr i : 0 ≤ i < zlen arr → zupd arr i (nd arr i) = arr.
Proof.
  intros Hi. unfold zupd. apply list_insert_id.
  pose proof (zget_nd arr i Hi) as Hz. rewrite zget_of_lookup in Hz by lia. done.
Qed.

Lemma swap_perm arr i j : 0 ≤ i < zlen arr → 0 ≤ j < zlen arr → swap arr i j ≡ₚ arr.
Proof.
  intros Hi Hj. apply Permutation_inj. split.
  - pose proof (zlen_swap arr i j). unfold zlen in *. lia.
  - exists (λ n, if Z.of_nat n =? j then Z.to_nat i else if Z.of_nat n =? i then Z.to_nat j else n).
    split.
    + intros a b. cbv beta. repeat case_if; lia.
    + intros n. destruct (decide (Z.of_nat n < zlen arr)) as [Hn|Hn].
      2: { rewrite !lookup_ge_None_2; [done| |]; pose proof (zlen_swap arr i j); unfold zlen in *.
           - repeat case_if; lia.
           - lia. }
      rewrite <-!zget_nat. rewrite !zget_nd by (rewrite ?zlen_swap; repeat case_if; lia).
      f_equal. rewrite nd_swap by done. repeat case_if; try lia; f_equal; lia.
Qed.

Lemma entries_split arr sz :
  1 ≤ sz ≤ zlen arr → arr = take 1 arr ++ entries arr sz ++ drop (Z.to_nat sz) arr.
Proof.
  intros Hsz. unfold entries, zslice. change (Z.to_nat 1) with 1%nat.
  replace (Z.to_nat sz) with (1 + Z.to_nat (sz - 1))%nat by lia.
  rewrite <-drop_drop. by rewrite take_drop, take_drop.
Qed.

Lemma entries_perm a b sz :
  1 ≤ sz ≤ zlen a → zlen a = zlen b → a ≡ₚ b →
  (∀ k, 0 ≤ k < zlen a → k < 1 ∨ sz ≤ k → nd a k = nd b k) →
  entries a sz ≡ₚ entries b sz.
Proof.
  intros Hsz Hlen Hp Hout.
  assert (take 1 a = take 1 b) as H1.
  { apply zlist_eq; [unfold zlen in *; rewrite !length_take; lia|].
    intros k Hk. pose proof (zlen_take a 1) as Hl. change (Z.to_nat 1) with 1%nat in Hl.
    rewrite Hl in Hk by lia. change 1%nat with (Z.to_nat 1). rewrite !zget_take by lia.
    rewrite !zget_nd by lia. f_equal. apply Hout; lia. }
  assert (drop (Z.to_nat sz) a = drop (Z.to_nat sz) b) as H2.
  { apply zlist_eq; [unfold zlen in *; rewrite !length_drop; lia|].
    intros k Hk. rewrite zlen_drop in Hk by lia. rewrite !zget_drop by lia.
    rewrite !zget_nd by lia. f_equal. apply Hout; lia. }
  rewrite (entries_split a sz), (entries_split b sz), H1, H2 in Hp by lia.
  apply Permutation_app_inv_l in Hp. by apply Permutation_app_inv_r in Hp.
Qed.

Lemma zlen_entries arr sz : 1 ≤ sz ≤ zlen arr → zlen (entries arr sz) = sz - 1.
Proof. intros. unfold entries. apply zlen_zslice; lia. Qed.

Lemma entries_nd arr sz x :
  1 ≤ sz ≤ zlen arr → x ∈ entries arr sz ↔ ∃ k, 1 ≤ k < sz ∧ nd arr k = x.
Proof.
  intros Hsz. rewrite list_elem_of_lookup. split.
  - intros (n & Hn). pose proof (lookup_lt_Some _ _ _ Hn) as Hl.
    pose proof (zlen_entries arr sz Hsz) as He. unfold zlen in He.
    exists (1 + Z.of_nat n). split; [lia|]. rewrite <-zget_nat in Hn.
    unfold entries in Hn. rewrite zget_zslice in Hn by lia. unfold nd. by rewrite Hn.
  - intros (k & Hk & <-). exists (Z.to_nat (k - 1)). rewrite <-zget_nat.
    unfold entries. rewrite zget_zslice by lia. rewrite zget_nd by lia. f_equal. f_equal. lia.
Qed.

Lemma entries_NoDup arr sz :
  1 ≤ sz ≤ zlen arr →
  NoDup (entries arr sz) ↔ ∀ i j, 1 ≤ i < sz → 1 ≤ j < sz → nd arr i = nd arr j → i = j.
Proof.
  intros Hsz. rewrite NoDup_alt. pose proof (zlen_entries arr sz Hsz) as He. unfold zlen in He.
  assert (∀ k, 1 ≤ k < sz → entries arr sz !! Z.to_nat (k - 1) = Some (nd arr k)) as Hl.
  { intros k Hk. rewrite <-zget_nat. unfold entries. rewrite zget_zslice by lia.
    rewrite zget_nd by lia. do 2 f_equal. lia. }
  split.
  - intros H i j Hi Hj Hij. pose proof (Hl i Hi) as Hi'. pose proof (Hl j Hj) as Hj'.
    rewrite Hij in Hi'. pose proof (H _ _ _ Hi' Hj'). lia.
  - intros H i j x Hi Hj. pose proof (lookup_lt_Some _ _ _ Hi). pose proof (lookup_lt_Some _ _ _ Hj).
    pose proof (Hl (Z.of_nat i + 1)) as Hi'. pose proof (Hl (Z.of_nat j + 1)) as Hj'.
    replace (Z.to_nat (Z.of_nat i + 1 - 1)) with i in Hi' by lia.
    replace (Z.to_nat (Z.of_nat j + 1 - 1)) with j in Hj' by lia.
    rewrite Hi in Hi'. rewrite Hj in Hj'.
    specialize (Hi' ltac:(lia)). specialize (Hj' ltac:(lia)).
    pose proof (H (Z.of_nat i + 1) (Z.of_nat j + 1)). simplify_eq. lia.
Qed.

(** * Heap order *)

(** [b] has the entries of [a] in slots [1 .. sz-1], possibly reordered. *)
Definition reorder (a b : list node) (sz : Z) : Prop :=
  zlen b = zlen a ∧ b ≡ₚ a ∧ ∀ k, 0 ≤ k < zlen a → k < 1 ∨ sz ≤ k → nd b k = nd a k.

Lemma reorder_refl a sz : reorder a a sz.
Proof. done. Qed.

Lemma reorder_trans a b c sz : reorder a b sz → reorder b c sz → reorder a c sz.
Proof.
  intros (Hl & Hp & Ho) (Hl' & Hp' & Ho'). split; [congruence|].
  split; [by etransitivity|]. intros k Hk Hout. rewrite Ho' by (done || lia). by apply Ho.
Qed.

Lemma reorder_swap arr i j sz :
  1 ≤ i < sz → 1 ≤ j < sz → sz ≤ zlen arr → reorder arr (swap arr i j) sz.
Proof.
  intros Hi Hj Hsz. split; [apply zlen_swap|]. split; [apply swap_perm; lia|].
  intros k Hk Hout. rewrite nd_swap by lia. repeat case_if; lia || done.
Qed.

Lemma reorder_entries a b sz : 1 ≤ sz ≤ zlen a → reorder a b sz → entries b sz ≡ₚ entries a sz.
Proof.
  intros Hsz (Hl & Hp & Ho). apply entries_perm; [lia|done|done|].
  intros k Hk Hout. apply Ho; lia.
Qed.

(** The used entries are pairwise different. *)
Definition distinct (arr : list node) (sz : Z) : Prop :=
  ∀ i j, 1 ≤ i < sz → 1 ≤ j < sz → nd arr i = nd arr j → i = j.

Lemma reorder_distinct a b sz : 1 ≤ sz ≤ zlen a → reorder a b sz → distinct a sz → distinct b sz.
Proof.
  intros Hsz Hr Hd. pose proof Hr as [Hl _].
  unfold distinct in *. rewrite <-!entries_NoDup in * by lia. by rewrite (reorder_entries a b).
Qed.

Section heaps.
Context {St : Type} (c : callbacks St).
Implicit Types (st : St) (v : list Z).

(** [x] ranks below [y]. *)
Definition below st (x y : node) : bool := cmppri c (getpri c st x) (getpri c st y).

Definition same_pri st st' : Prop := ∀ y, getpri c st' y = getpri c st y.

Definition heap st v sz : Prop := ∀ k, 2 ≤ k < sz → below st (nd v (k / 2)) (nd v k) = false.

(** The children of [i] do not rank above its parent. *)
Definition bridged st v sz i : Prop :=
∀ k, 2 ≤ k < sz → k / 2 = i → 2 ≤ i → below st (nd v (i / 2)) (nd v k) = false.

(** Heap order, except that entry [i] may rank too high, or too low. *)
Definition heap_up st v sz i : Prop :=
(∀ k, 2 ≤ k < sz → k ≠ i → below st (nd v (k / 2)) (nd v k) = false) ∧ bridged st v sz i.

Definition heap_down st v sz i : Prop :=
(∀ k, 2 ≤ k < sz → k / 2 ≠ i → below st (nd v (k / 2)) (nd v k) = false) ∧ bridged st v sz i.

(** Every used entry but [i] knows its slot. *)
Definition placed_except st v sz i : Prop :=
∀ k, 1 ≤ k < sz → k ≠ i → getpos c st (nd v k) = k.

Definition placed st v sz : Prop := ∀ k, 1 ≤ k < sz → getpos c st (nd v k) = k.

Lemma below_same_pri st st' x y : same_pri st st' → below st' x y = below st x y.
Proof. intros H. unfold below. by rewrite !H. Qed.

Lemma heap_same_pri st st' v sz : same_pri st st' → heap st v sz → heap st' v sz.
Proof. intros H Hh k Hk. rewrite (below_same_pri st) by done. by apply Hh. Qed.

Lemma same_pri_trans st1 st2 st3 : same_pri st1 st2 → same_pri st2 st3 → same_pri st1 st3.
Proof. intros H1 H2 y. by rewrite H2, H1. Qed.

Context `{!PriorityOrder (cmppri c)}.

Lemma below_irrefl st x : below st x x = false.
Proof. unfold below. apply cmp_irrefl. Qed.

Lemma below_asym st x y : below st x y = true → below st y x = false.
Proof. unfold below. by apply cmp_asym. Qed.

Lemma below_ntrans st x y z : below st x y = false → below st y z = false → below st x z = false.
Proof. unfold below. apply cmp_ntrans. Qed.

(** The root of a heap is not below any entry. *)
Lemma heap_root st v sz k : heap st v sz → 1 ≤ k < sz → below st (nd v 1) (nd v k) = false.
Proof using All.
intros Hh Hk. assert (∃ n : nat, k ≤ Z.of_nat n) as [n Hn] by (exists (Z.to_nat k); lia).
revert k Hk Hn. induction n as [|n IH]; intros k Hk Hn; [lia|].
destruct (decide (k = 1)) as [->|]; [apply below_irrefl|].
apply (below_ntrans _ _ (nd v (k / 2))); [apply IH; lia|apply Hh; lia].
Qed.

(** One step of [bubble_up]: the parent [j] comes down, the hole goes up. *)
Lemma heap_up_step st v sz i :
2 ≤ i < sz → sz ≤ zlen v → below st (nd v (i / 2)) (nd v i) = true →
heap_up st v sz i → heap_up st (swap v i (i / 2)) sz (i / 2).
Proof using All.
intros Hi Hsz Hlow [Hh Hb]. assert (1 ≤ i / 2 < i) as Hj by lia.
pose proof (below_asym _ _ _ Hlow) as Hasym.
split.
- intros k Hk Hne. rewrite !nd_swap by lia.
  destruct (decide (k = i)) as [->|Hki].
  + repeat case_if; done || lia.
  + destruct (decide (k / 2 = i / 2)) as [E|E].
    * rewrite E. repeat case_if; try lia.
      apply (below_ntrans _ _ (nd v (i / 2))); [done|]. rewrite <-E. apply Hh; lia.
    * destruct (decide (k / 2 = i)) as [E'|E'].
      -- repeat case_if; try lia. apply Hb; lia.
      -- repeat case_if; try lia. apply Hh; lia.
- intros k Hk Hkj Hj2. rewrite !nd_swap by lia.
  assert (below st (nd v (i / 2 / 2)) (nd v (i / 2)) = false) as Hgp by (apply Hh; lia).
  repeat case_if; try lia.
  + done.
  + apply (below_ntrans _ _ (nd v (i / 2))); [done|]. rewrite <-Hkj. apply Hh; lia.
Qed.

(** One step of [percolate_down]: the higher child comes up. *)
Lemma heap_down_step st v sz i ch :
1 ≤ i → 2 ≤ ch < sz → ch / 2 = i → sz ≤ zlen v → below st (nd v i) (nd v ch) = true →
(∀ k, 2 ≤ k < sz → k / 2 = i → below st (nd v ch) (nd v k) = false) →
heap_down st v sz i → heap_down st (swap v i ch) sz ch.
Proof using All.
intros Hi Hch Hci Hsz Hlow Hmax [Hh Hb].
pose proof (below_asym _ _ _ Hlow) as Hasym.
split.
- intros k Hk Hne. rewrite !nd_swap by lia.
  destruct (decide (k = ch)) as [->|Hkc].
  + repeat case_if; done || lia.
  + destruct (decide (k / 2 = i)) as [E|E].
    * repeat case_if; try lia. by apply Hmax.
    * destruct (decide (k = i)) as [->|Hki].
      -- repeat case_if; try lia. apply Hb; lia.
      -- repeat case_if; try lia. apply Hh; lia.
- intros k Hk Hkc Hc2. rewrite !nd_swap by lia. rewrite Hci.
  repeat case_if; try lia. rewrite <-Hkc. apply Hh; lia.
Qed.

(** A hole that has reached the root, or a parent not below it, closes. *)
Lemma heap_up_close st v sz i :
heap_up st v sz i → 1 ≤ i → i = 1 ∨ below st (nd v (i / 2)) (nd v i) = false → heap st v sz.
Proof using Type.
intros [Hh _] Hi Hc k Hk. destruct (decide (k = i)) as [->|]; [|by apply Hh].
destruct Hc as [->|]; [lia|done].
Qed.

Lemma heap_down_close st v sz i :
heap_down st v sz i →
(∀ k, 2 ≤ k < sz → k / 2 = i → below st (nd v i) (nd v k) = false) → heap st v sz.
Proof using Type.
intros [Hh _] Hc k Hk. destruct (decide (k / 2 = i)) as [E|]; [|by apply Hh].
rewrite E. by apply Hc.
Qed.

(** Replacing entry [i] of a heap. *)
Lemma heap_replace_up st st' v v' sz i :
heap st v sz → 1 ≤ i < sz →
(∀ k, 1 ≤ k < sz → k ≠ i → nd v' k = nd v k ∧ getpri c st' (nd v' k) = getpri c st (nd v k)) →
cmppri c (getpri c st (nd v i)) (getpri c st' (nd v' i)) = true →
heap_up st' v' sz i.
Proof using All.
intros Hh Hi Hsame Hlow. apply (cmp_asym (cmppri c)) in Hlow. unfold below in *.
assert (∀ k, 1 ≤ k < sz → k ≠ i → getpri c st' (nd v' k) = getpri c st (nd v k)) as Hp
  by (intros; by apply Hsame).
assert (∀ k, 2 ≤ k < sz → cmppri c (getpri c st (nd v (k / 2))) (getpri c st (nd v k)) = false)
  as Hk' by exact Hh.
split; unfold bridged, below.
- intros k Hk Hne. rewrite (Hp k) by lia. destruct (decide (k / 2 = i)) as [E|E].
  + rewrite E. eapply cmp_ntrans; [exact Hlow|]. rewrite <-E. by apply Hk'.
  + rewrite Hp by lia. by apply Hk'.
- intros k Hk E Hi2. rewrite !Hp by lia.
  eapply cmp_ntrans; [apply Hk'; lia|]. rewrite <-E. apply Hk'. lia.
Qed.

Lemma heap_replace_down st st' v v' sz i :
heap st v sz → 1 ≤ i < sz →
(∀ k, 1 ≤ k < sz → k ≠ i → nd v' k = nd v k ∧ getpri c st' (nd v' k) = getpri c st (nd v k)) →
cmppri c (getpri c st (nd v i)) (getpri c st' (nd v' i)) = false →
heap_down st' v' sz i.
Proof using All.
intros Hh Hi Hsame Hlow. unfold below in *.
assert (∀ k, 1 ≤ k < sz → k ≠ i → getpri c st' (nd v' k) = getpri c st (nd v k)) as Hp
  by (intros; by apply Hsame).
assert (∀ k, 2 ≤ k < sz → cmppri c (getpri c st (nd v (k / 2))) (getpri c st (nd v k)) = false)
  as Hk' by exact Hh.
split; unfold bridged, below.
- intros k Hk Hne. rewrite (Hp (k / 2)) by lia. destruct (decide (k = i)) as [->|E].
  + eapply cmp_ntrans; [apply Hk'; lia|exact Hlow].
  + rewrite Hp by lia. by apply Hk'.
- intros k Hk E Hi2. rewrite !Hp by lia.
  eapply cmp_ntrans; [apply Hk'; lia|]. rewrite <-E. apply Hk'. lia.
Qed.
End heaps.

(** * The two repair procedures *)

Lemma parent_div i : parent i = i / 2.
Proof. unfold parent. by rewrite Z.shiftr_div_pow2. Qed.

Lemma left_double i : 0 ≤ i < 2 ^ 62 → left i = 2 * i.
Proof. intros. unfold left, u64. rewrite Z.shiftl_mul_pow2 by lia. rewrite Z.mod_small; lia. Qed.

Section repair.
Context {St : Type} (c : callbacks St) `{!PriorityOrder (cmppri c)} `{!PriorityStable c}.
Implicit Types (st : St).

(** What a repair of the array with entry [m] at the hole leaves: the loop
    turns the virtual array [v] into [v']. *)
Definition repaired (st st' : St) (v v' : list Z) (sz i i' : Z) : Prop :=
  same_pri c st st' ∧ reorder v v' sz ∧
  (NodeFields c → distinct v sz → placed_except c st v sz i → placed_except c st' v' sz i').

Lemma repaired_refl st v sz i : repaired st st v v sz i i.
Proof. split; [done|]. split; [apply reorder_refl|done]. Qed.

(** One exchange between the hole [i] and slot [j], recording the position of
    the entry that moved. *)
Lemma repaired_step st st' v v' sz i j i' :
  1 ≤ i < sz → 1 ≤ j < sz → i ≠ j → sz ≤ zlen v →
  repaired (setpos c st (nd v j) i) st' (swap v i j) v' sz j i' →
  repaired st st' v v' sz i i'.
Proof.
  intros Hi Hj Hne Hsz (Hp & Hr & Hpos). pose proof (reorder_swap v i j sz Hi Hj Hsz) as Hs.
  split; [|split].
  - intros y. rewrite Hp. apply getpri_setpos.
  - by eapply reorder_trans.
  - intros Hf Hd Hpl. apply Hpos; [done| |].
    { apply (reorder_distinct v); [lia|done|done]. }
    intros k Hk Hkj. rewrite nd_swap, (proj2 (Z.eqb_neq k j)), getpos_setpos by lia.
    destruct (decide (k = i)) as [->|Hki].
    + by rewrite !Z.eqb_refl.
    + rewrite (proj2 (Z.eqb_neq k i)) by done. case_if; [|by apply Hpl].
      exfalso. apply Hkj. by apply Hd.
Qed.

Lemma swap_hole arr i j m :
  0 ≤ i < zlen arr → 0 ≤ j < zlen arr → i ≠ j →
  zupd (zupd arr i (nd arr j)) j m = swap (zupd arr i m) i j.
Proof.
  intros. unfold swap. rewrite !nd_zupd by done. rewrite Z.eqb_refl.
  rewrite (proj2 (Z.eqb_neq j i)) by lia. by rewrite zupd_zupd.
Qed.

Lemma bubble_loop_spec sz m fuel arr st i :
  1 ≤ i < sz → sz ≤ zlen arr → i ≤ Z.of_nat fuel →
  heap_up c st (zupd arr i m) sz i →
  returns (bubble_loop fuel c arr st i (getpri c st m)) (λ '(arr', st', i'),
    1 ≤ i' < sz ∧ zlen arr' = zlen arr ∧ heap c st (zupd arr' i' m) sz ∧
    repaired st st' (zupd arr i m) (zupd arr' i' m) sz i i').
Proof using All.
  revert arr st i. induction fuel as [|fuel IH]; intros arr st i Hi Hsz Hf Hh; [lia|].
  cbn [bubble_loop]. case_if.
  - rewrite parent_div, load_nd by lia. cbn [mbind res_bind].
    assert (nd (zupd arr i m) (i / 2) = nd arr (i / 2)) as Hj.
    { rewrite nd_zupd by lia. by case_if; [lia|]. }
    assert (nd (zupd arr i m) i = m) as Hm by (rewrite nd_zupd, Z.eqb_refl by lia; done).
    destruct (cmppri c _ _) eqn:Hc.
    + rewrite store_ok by lia. cbn [mbind res_bind].
      rewrite <-(getpri_setpos (c := c) st (nd arr (i / 2)) i m).
      assert (swap (zupd arr i m) i (i / 2) = zupd (zupd arr i (nd arr (i / 2))) (i / 2) m) as Hs
        by (rewrite swap_hole by lia; done).
      eapply returns_mono; [apply IH; try lia|].
      * rewrite zlen_zupd. lia.
      * rewrite <-Hs. assert (same_pri c st (setpos c st (nd arr (i / 2)) i)) as Hsp
          by (intros y; apply getpri_setpos).
        destruct (heap_up_step c st (zupd arr i m) sz i) as [H1 H2];
          [lia|rewrite zlen_zupd; lia|unfold below; by rewrite Hj, Hm|done|].
        split; unfold bridged; intros; rewrite (below_same_pri c st) by done; auto.
      * intros [[arr' st'] i'] (Hi' & Hl & Hheap & Hrep). rewrite zlen_zupd in Hl.
        split; [done|]. split; [done|]. split.
        { eapply heap_same_pri; [|done]. intros y. symmetry. apply getpri_setpos. }
        rewrite <-Hs, <-Hj in Hrep.
        eapply repaired_step; [done| | |rewrite zlen_zupd|exact Hrep]; lia.
    + cbn. split; [done|]. split; [done|]. split; [|apply repaired_refl].
      apply (heap_up_close c _ _ _ i); [done|lia|]. right. unfold below. by rewrite Hj, Hm.
  - cbn. split; [done|]. split; [done|]. split; [|apply repaired_refl].
    apply (heap_up_close c _ _ _ i); [done|lia|]. left. lia.
Qed.

(** The result of a whole repair of array [arr] at entry [i]. *)
Definition repair_result (st : St) (arr : list Z) (sz i : Z) (r : list Z * St) : Prop :=
  heap c r.2 r.1 sz ∧ same_pri c st r.2 ∧ reorder arr r.1 sz ∧
  (NodeFields c → distinct arr sz → placed_except c st arr sz i → placed c r.2 r.1 sz).

Lemma repair_finish st st' arr arr' sz i i' :
  1 ≤ i < sz → 1 ≤ i' < sz → sz ≤ zlen arr → zlen arr' = zlen arr →
  heap c st (zupd arr' i' (nd arr i)) sz →
  repaired st st' arr (zupd arr' i' (nd arr i)) sz i i' →
  repair_result st arr sz i (zupd arr' i' (nd arr i), setpos c st' (nd arr i) i').
Proof using All.
  intros Hi Hi' Hsz Hl Hh (Hp & Hr & Hpos). unfold repair_result. cbn [fst snd].
  assert (same_pri c st (setpos c st' (nd arr i) i')) as Hsp.
  { intros y. rewrite getpri_setpos. apply Hp. }
  split; [by eapply heap_same_pri|]. split; [done|]. split; [done|].
  intros Hf Hd Hpl k Hk. rewrite getpos_setpos.
  assert (distinct (zupd arr' i' (nd arr i)) sz) as Hd' by (by apply (reorder_distinct arr); [lia|..]).
  destruct (decide (k = i')) as [->|Hne].
  - rewrite nd_zupd, !Z.eqb_refl by lia. done.
  - rewrite (Hpos Hf Hd Hpl) by done. case_if; [|done].
    exfalso. apply Hne, Hd'; [done..|]. rewrite (nd_zupd _ _ _ i'), Z.eqb_refl by lia. done.
Qed.

Lemma bubble_up_spec st arr sz i :
  1 ≤ i < sz → sz ≤ zlen arr → heap_up c st arr sz i →
  returns (bubble_up c arr st i) (repair_result st arr sz i).
Proof using All.
  intros Hi Hsz Hh. unfold bubble_up. rewrite load_nd by lia. cbn [mbind res_bind].
  apply returns_bind.
  eapply returns_mono; [apply (bubble_loop_spec sz (nd arr i)); rewrite ?zupd_nd by lia; done || lia|].
  intros [[arr' st'] i'] (Hi' & Hl & Hheap & Hrep). rewrite zupd_nd in Hrep by lia.
  rewrite store_ok by lia. by apply repair_finish.
Qed.

Lemma maxchild_spec st arr sz i :
  1 ≤ i < sz → sz ≤ zlen arr → sz < 2 ^ 62 →
  returns (maxchild c sz arr st i) (λ ch,
    (ch = 0 ∧ sz ≤ 2 * i) ∨
    (2 ≤ ch < sz ∧ ch / 2 = i ∧
     ∀ k, 2 ≤ k < sz → k / 2 = i → below c st (nd arr ch) (nd arr k) = false)).
Proof using All.
  intros Hi Hsz Hmax. unfold maxchild. rewrite left_double by lia. cbv zeta.
  unfold u64. rewrite (Z.mod_small (2 * i + 1)) by lia.
  case_if; [left; lia|]. case_if.
  - rewrite !load_nd by lia. cbn [mbind res_bind]. cbn [returns mret res_ret]. right.
    fold (below c st (nd arr (2 * i)) (nd arr (2 * i + 1))).
    destruct (below c st _ _) eqn:Hb; (split; [lia|]; split; [lia|]); intros k Hk Hki;
      assert (k = 2 * i ∨ k = 2 * i + 1) as [->| ->] by lia;
      (by apply below_irrefl) || (by apply below_asym) || done.
  - cbn. right. split; [lia|]. split; [lia|]. intros k Hk Hki.
    replace k with (2 * i) by lia. by apply below_irrefl.
Qed.

Lemma maxchild_ext st arr arr' sz i :
  zlen arr' = zlen arr → (∀ k, 2 ≤ k → k / 2 = i → nd arr' k = nd arr k) →
  1 ≤ i < sz → sz ≤ zlen arr → sz < 2 ^ 62 →
  maxchild c sz arr' st i = maxchild c sz arr st i.
Proof using Type.
  intros Hl He Hi Hsz Hmax. unfold maxchild. rewrite left_double by lia.
  unfold u64. rewrite (Z.mod_small (2 * i + 1)) by lia.
  repeat case_if; try done. rewrite !load_nd by lia. by rewrite !He by lia.
Qed.

Lemma percolate_loop_spec sz m fuel arr st i :
  1 ≤ i < sz → sz ≤ zlen arr → sz < 2 ^ 62 → sz - i ≤ Z.of_nat fuel →
  heap_down c st (zupd arr i m) sz i →
  returns (percolate_loop fuel c sz arr st i (getpri c st m)) (λ '(arr', st', i'),
    1 ≤ i' < sz ∧ zlen arr' = zlen arr ∧ heap c st (zupd arr' i' m) sz ∧
    repaired st st' (zupd arr i m) (zupd arr' i' m) sz i i').
Proof using All.
  revert arr st i. induction fuel as [|fuel IH]; intros arr st i Hi Hsz Hmax Hf Hh; [lia|].
  cbn [percolate_loop]. set (v := zupd arr i m) in *.
  assert (zlen v = zlen arr) as Hlv by apply zlen_zupd.
  assert (∀ k, k ≠ i → nd v k = nd arr k) as Hv.
  { intros k Hk. unfold v. rewrite nd_zupd by lia. by case_if; [lia|]. }
  assert (nd v i = m) as Hm by (unfold v; rewrite nd_zupd, Z.eqb_refl by lia; done).
  rewrite <-(maxchild_ext st arr v) by (done || lia || (intros; apply Hv; lia)).
  apply returns_bind. eapply returns_mono; [apply maxchild_spec; lia|].
  intros ch [[-> Hleaf]|(Hch & Hci & Hmaxc)].
  { cbn. split; [done|]. split; [done|]. split; [|apply repaired_refl].
    apply (heap_down_close c _ _ _ i); [done|]. intros; lia. }
  rewrite (proj2 (Z.eqb_neq ch 0)), load_nd by lia. cbn [mbind res_bind].
  assert (ch ≠ i) as Hne by lia. rewrite <-(Hv ch) by done.
  destruct (cmppri c _ _) eqn:Hc.
  - rewrite store_ok by lia. cbn [mbind res_bind].
    assert (swap v i ch = zupd (zupd arr i (nd v ch)) ch m) as Hs.
    { unfold v at 1. rewrite <-swap_hole, <-Hv by lia. done. }
    rewrite <-(getpri_setpos (c := c) st (nd v ch) i m).
    eapply returns_mono; [apply IH; try lia|].
    + rewrite zlen_zupd. lia.
    + rewrite <-Hs. assert (same_pri c st (setpos c st (nd v ch) i)) as Hsp
        by (intros y; apply getpri_setpos).
      destruct (heap_down_step c st v sz i ch) as [H1 H2];
        [lia|done|done|lia|unfold below; by rewrite Hm|done|done|].
      split; unfold bridged; intros; rewrite (below_same_pri c st) by done; auto.
    + intros [[arr' st'] i'] (Hi' & Hl & Hheap & Hrep). rewrite zlen_zupd in Hl.
      split; [done|]. split; [done|]. split.
      { eapply heap_same_pri; [|done]. intros y. symmetry. apply getpri_setpos. }
      rewrite <-Hs in Hrep. eapply repaired_step; [done| | | |exact Hrep]; lia.
  - cbn. split; [done|]. split; [done|]. split; [|apply repaired_refl].
    apply (heap_down_close c _ _ _ i); [done|]. intros k Hk Hki. fold v.
    apply (below_ntrans c _ _ (nd v ch)); [unfold below; by rewrite Hm|]. by apply Hmaxc.
Qed.

Lemma percolate_down_spec st arr sz i :
  1 ≤ i < sz → sz ≤ zlen arr → sz < 2 ^ 62 → heap_down c st arr sz i →
  returns (percolate_down c sz arr st i) (repair_result st arr sz i).
Proof using All.
  intros Hi Hsz Hmax Hh. unfold percolate_down. rewrite load_nd by lia. cbn [mbind res_bind].
  apply returns_bind.
  eapply returns_mono;
    [apply (percolate_loop_spec sz (nd arr i)); rewrite ?zupd_nd by lia; done || lia|].
  intros [[arr' st'] i'] (Hi' & Hl & Hheap & Hrep). rewrite zupd_nd in Hrep by lia.
  rewrite store_ok by lia. by apply repair_finish.
Qed.

(** At the slot just after the used ones there is nothing to repair. *)
Lemma percolate_down_past st arr sz :
  1 ≤ sz < zlen arr → sz < 2 ^ 62 →
  percolate_down c sz arr st sz = Done (arr, setpos c st (nd arr sz) sz).
Proof using Type.
  intros Hsz Hmax. unfold percolate_down. rewrite load_nd by lia. cbn [mbind res_bind].
  assert (maxchild c sz arr st sz = Done 0) as Hm.
  { unfold maxchild. rewrite left_double by lia. by case_if; [|lia]. }
  destruct (Z.to_nat sz) eqn:E; [lia|]. cbn [percolate_loop]. rewrite Hm.
  cbn [mbind res_bind Z.eqb mret res_ret]. rewrite store_ok by lia. cbn.
  by rewrite zupd_nd by lia.
Qed.
End repair.

(** * The queue invariant *)

Lemma entries_snoc arr sz :
  1 ≤ sz < zlen arr → entries arr (sz + 1) = entries arr sz ++ [nd arr sz].
Proof.
  intros Hsz. pose proof (zlen_entries arr sz) as Hl. pose proof (zlen_entries arr (sz + 1)) as Hl'.
  apply zlist_eq; [rewrite zlen_app; change (zlen [_]) with 1; lia|].
  intros k Hk. rewrite Hl' in Hk by lia. unfold entries at 1. rewrite zget_zslice by lia.
  destruct (decide (k < sz - 1)).
  - rewrite zget_app_l by lia. unfold entries. by rewrite zget_zslice by lia.
  - replace k with (zlen (entries arr sz)) at 2 by lia. rewrite zget_app_mid.
    rewrite zget_nd by lia. do 2 f_equal. lia.
Qed.

Lemma entries_ext a b sz :
  1 ≤ sz ≤ zlen a → sz ≤ zlen b → (∀ k, 1 ≤ k < sz → nd a k = nd b k) → entries a sz = entries b sz.
Proof.
  intros Ha Hb He. pose proof (zlen_entries a sz). pose proof (zlen_entries b sz).
  apply zlist_eq; [lia|]. intros k Hk. unfold entries. rewrite !zget_zslice by lia.
  rewrite !zget_nd by lia. f_equal. apply He. lia.
Qed.

(** Taking entry [i] out by moving the last entry into its slot. *)
Lemma entries_take_out arr sz i :
  1 ≤ i ≤ sz → sz < zlen arr →
  entries arr (sz + 1) ≡ₚ nd arr i :: entries (zupd arr i (nd arr sz)) sz.
Proof.
  intros Hi Hsz. pose proof (reorder_swap arr i sz (sz + 1)) as Hr.
  rewrite <-(reorder_entries arr (swap arr i sz) (sz + 1)) by (lia || (apply Hr; lia)).
  rewrite entries_snoc by (rewrite zlen_swap; lia). rewrite nd_swap, Z.eqb_refl by lia.
  rewrite Permutation_app_comm. cbn [app]. apply Permutation_skip.
  rewrite (entries_ext _ (zupd arr i (nd arr sz))); [done|rewrite zlen_swap; lia|rewrite zlen_zupd; lia|].
  intros k Hk. rewrite nd_swap, nd_zupd by lia. repeat case_if; lia || done.
Qed.

Definition MAX_SLOTS : Z := 2 ^ 60.

Section queue.
Context {St : Type}.
Implicit Types (q : pqueue_t St) (st : St).

Definition members q : list node := entries (d q) (size q).

(** Sizes in range and heap order: what popping needs. *)
Record queue_heap q st : Prop := {
  q_size : 1 ≤ size q ≤ zlen (d q);
  q_slots : zlen (d q) < MAX_SLOTS;
  q_heap : heap (cb q) st (d q) (size q) }.

(** The full invariant: entries are distinct and know their slots, too. *)
Record queue_ok q st : Prop := {
  q_order : queue_heap q st;
  q_avail : avail q = zlen (d q);
  q_step : 1 ≤ step q < MAX_SLOTS;
  q_distinct : distinct (d q) (size q);
  q_placed : placed (cb q) st (d q) (size q) }.

Lemma members_distinct q st : queue_ok q st → NoDup (members q).
Proof. intros [[? ? _] _ _ Hd _]. apply entries_NoDup; [lia|done]. Qed.

Lemma member_slot q st x :
  queue_ok q st → x ∈ members q →
  let k := getpos (cb q) st x in 1 ≤ k < size q ∧ nd (d q) k = x.
Proof.
  intros [[? ? _] _ _ _ Hp] Hx. apply entries_nd in Hx as (k & Hk & <-); [|lia].
  cbv zeta. rewrite Hp by done. done.
Qed.

(** The queue after a repair of its array. *)
Lemma repair_queue q st arr sz i r :
  PriorityOrder (cmppri (cb q)) → NodeFields (cb q) →
  repair_result (cb q) st arr sz i r → 1 ≤ sz ≤ zlen arr → zlen arr = avail q →
  zlen arr < MAX_SLOTS → 1 ≤ step q < MAX_SLOTS →
  distinct arr sz → placed_except (cb q) st arr sz i →
  queue_ok (with_heap q sz r.1) r.2 ∧ members (with_heap q sz r.1) ≡ₚ entries arr sz ∧
  same_pri (cb q) st r.2.
Proof.
  intros Hc Hn (Hheap & Hsp & Hr & Hpl) Hsz Hav Hslots Hstep Hd Hpx. pose proof Hr as [Hl _].
  split; [|split; [|done]].
  - split; cbn; try done; [split; cbn; done || lia|congruence| |by apply Hpl].
    by apply (reorder_distinct arr).
  - unfold members. cbn. by apply reorder_entries.
Qed.

Lemma alloc_ptrs_len junk n :
  0 ≤ n < MAX_SLOTS → alloc_ptrs true junk (u64 (n * PTR_SIZE)) = Some (junk <$> seqZ 0 n).
Proof.
  intros Hn. unfold alloc_ptrs, PTR_SIZE, MAX_SLOTS, u64 in *. rewrite Z.mod_small by lia.
  do 3 f_equal. lia.
Qed.

Lemma realloc_ptrs_grow junk old n :
  zlen old ≤ n < MAX_SLOTS →
  ∃ arr, realloc_ptrs true junk old (u64 (PTR_SIZE * n)) = Some arr ∧ zlen arr = n ∧
    ∀ k, 0 ≤ k < zlen old → nd arr k = nd old k.
Proof.
  intros Hn. pose proof (zlen_nonneg old).
  unfold realloc_ptrs, PTR_SIZE, MAX_SLOTS, u64 in *. rewrite Z.mod_small by lia.
  replace (8 * n / 8) with n by lia. eexists. split; [done|].
  rewrite firstn_all2 by (unfold zlen in *; lia).
  rewrite zlen_app. replace (length old) with (Z.to_nat (zlen old)) by (unfold zlen; lia).
  rewrite zlen_drop by (rewrite zlen_fmap, zlen_seqZ; lia).
  rewrite zlen_fmap, zlen_seqZ by lia. split; [lia|].
  intros k Hk. unfold nd. by rewrite zget_app_l by lia.
Qed.

(** Storing a new entry in the first free slot. *)
Lemma insert_at_end q st (arr : list Z) x :
  PriorityOrder (cmppri (cb q)) → NodeFields (cb q) → queue_ok q st →
  size q < zlen arr → zlen arr < MAX_SLOTS → x ∉ members q →
  (∀ k, 0 ≤ k < zlen (d q) → nd arr k = nd (d q) k) → zlen (d q) ≤ zlen arr →
  returns (bubble_up (cb q) (zupd arr (size q) x) st (size q)) (λ r,
    ∀ av, av = zlen arr →
    let q' := mkQueue (size q + 1) av (step q) (cb q) r.1 in
    queue_ok q' r.2 ∧ members q' ≡ₚ x :: members q ∧ same_pri (cb q) st r.2).
Proof.
  intros Hc Hn [[Hsz Hsl Hheap] Hav Hst Hd Hp] Hroom Hmax Hx Hsame Hle.
  assert (∀ k, 1 ≤ k < size q → nd (zupd arr (size q) x) k = nd (d q) k) as Hold.
  { intros k Hk. rewrite nd_zupd by lia. case_if; [lia|]. apply Hsame. lia. }
  assert (nd (zupd arr (size q) x) (size q) = x) as Hnew
    by (rewrite nd_zupd, Z.eqb_refl by lia; done).
  assert (∀ k, 1 ≤ k < size q → nd (d q) k ≠ x) as Hne.
  { intros k Hk <-. apply Hx, entries_nd; [lia|]. eauto. }
  eapply returns_mono; [apply (bubble_up_spec (cb q)) with (sz := size q + 1); try apply _|].
  - lia.
  - rewrite zlen_zupd. lia.
  - split; [|intros k Hk E Hi; lia].
    intros k Hk Hki. rewrite !Hold by lia. apply Hheap. lia.
  - intros r Hr av ->. cbv zeta.
    pose proof (repair_queue (mkQueue (size q + 1) (zlen arr) (step q) (cb q) arr) st
      (zupd arr (size q) x) (size q + 1) (size q) r) as Hq. cbn [cb size avail step] in Hq.
    destruct Hq as (Hok & Hmem & Hsp); rewrite ?zlen_zupd; try done; try lia.
    + intros i j Hi Hj. destruct (decide (i = size q)) as [->|]; destruct (decide (j = size q)) as [->|];
        rewrite ?Hnew, ?Hold by lia; intros E; [done| | |apply Hd; done || lia].
      * exfalso. by apply (Hne j); [lia|].
      * exfalso. by apply (Hne i); [lia|].
    + intros k Hk Hki. rewrite Hold by lia. apply Hp. lia.
    + split; [exact Hok|]. split; [|done]. unfold members in *. cbn [d size with_heap] in *.
      rewrite Hmem, entries_snoc, Hnew by (rewrite zlen_zupd; lia).
      rewrite (entries_ext _ (d q)); [by rewrite Permutation_app_comm|rewrite zlen_zupd; lia|lia|done].
Qed.
End queue.

(** * Lemmas: removing entries *)

Lemma heap_shrink {St} (c : callbacks St) st arr sz : heap c st arr (sz + 1) → heap c st arr sz.
Proof. intros Hh k Hk. apply Hh. lia. Qed.

Section removal.
Context {St : Type} (q : pqueue_t St) (st : St).
Context `{!PriorityOrder (cmppri (cb q))} `{!PriorityStable (cb q)}.

(** Taking out entry [i] and repairing with [repair]; the result is a queue
    without that entry. *)
Definition taken (i : Z) (q' : pqueue_t St) (st' : St) : Prop :=
  members q ≡ₚ nd (d q) i :: members q' ∧ queue_heap q' st' ∧ same_pri (cb q) st st' ∧
  cb q' = cb q ∧ size q' = size q - 1 ∧ (NodeFields (cb q) → queue_ok q st → queue_ok q' st').

Lemma take_result i r :
  queue_heap q st → 1 ≤ i < size q - 1 →
  let arr := zupd (d q) i (nd (d q) (size q - 1)) in
  repair_result (cb q) st arr (size q - 1) i r →
  taken i (with_heap q (size q - 1) r.1) r.2.
Proof using Type.
  intros [Hsz Hsl Hh] Hi arr (Hheap & Hsp & Hr & Hpl). pose proof Hr as [Hl _].
  assert (zlen arr = zlen (d q)) as Hla by apply zlen_zupd.
  split; [|split; [|split; [done|split; [done|split; [done|]]]]].
  - unfold members. cbn [with_heap d size]. rewrite (reorder_entries arr r.1 (size q - 1)) by (lia || done).
    replace (size q) with (size q - 1 + 1) at 1 by lia. apply entries_take_out; lia.
  - split; cbn; lia || done.
  - intros Hn [_ Hav Hst Hd Hp]. 
    assert (distinct arr (size q - 1)) as Hda.
    { intros a b Ha Hb. unfold arr. rewrite !nd_zupd by lia.
      repeat case_if; subst; intros E; try done; apply Hd in E; lia. }
    split; cbn; try done; [split; cbn; lia || done|lia| |].
    + by apply (reorder_distinct arr); [lia|..].
    + apply Hpl; [done|done|]. intros k Hk Hki. unfold arr.
      rewrite nd_zupd by lia. case_if; [lia|]. apply Hp. lia.
Qed.

Lemma take_last st' :
  queue_heap q st → 2 ≤ size q → same_pri (cb q) st st' →
  (NodeFields (cb q) → ∀ y, y ≠ nd (d q) (size q - 1) → getpos (cb q) st' y = getpos (cb q) st y) →
  taken (size q - 1) (with_heap q (size q - 1) (d q)) st'.
Proof using Type.
  intros [Hsz Hsl Hh] H2 Hsp Hpos.
  split; [|split; [|split; [done|split; [done|split; [done|]]]]].
  - unfold members. cbn [with_heap d size].
    replace (size q) with (size q - 1 + 1) at 1 by lia. rewrite entries_snoc by lia.
    by rewrite Permutation_app_comm.
  - split; cbn; [lia|done|]. eapply heap_same_pri; [done|]. intros k Hk. apply Hh. lia.
  - intros Hn [_ Hav Hst Hd Hp]. split; cbn; try done.
    + split; cbn; [lia|done|]. eapply heap_same_pri; [done|]. intros k Hk. apply Hh. lia.
    + intros a b Ha Hb. apply Hd; lia.
    + intros k Hk. rewrite Hpos; [apply Hp; lia|done|]. intros E. apply Hd in E; lia.
Qed.

Lemma pop_spec :
  queue_heap q st → 2 ≤ size q →
  returns (pqueue_pop (Some q) st) (λ '(o, oq, st'),
    ∃ q', o = Some (nd (d q) 1) ∧ oq = Some q' ∧ taken 1 q' st').
Proof using All.
  intros Hq H2. pose proof Hq as [Hsz Hsl Hh]. unfold MAX_SLOTS in *. unfold pqueue_pop.
  case_if; [lia|]. unfold u64. rewrite Z.mod_small by lia.
  rewrite !load_nd by lia. cbn [mbind res_bind]. rewrite store_ok by lia. cbn [mbind res_bind].
  destruct (decide (size q = 2)) as [E|E].
  - rewrite E. change (2 - 1) with 1. rewrite zupd_nd by lia.
    rewrite percolate_down_past by lia. cbn. eexists. do 2 (split; [done|]).
    pose proof (take_last (setpos (cb q) st (nd (d q) 1) 1) Hq H2) as Ht.
    rewrite E in Ht. apply Ht.
    + intros y. apply getpri_setpos.
    + intros Hn y Hy. rewrite getpos_setpos. by rewrite (proj2 (Z.eqb_neq _ _)).
  - apply returns_bind. eapply returns_mono.
    + apply (percolate_down_spec (cb q)) with (sz := size q - 1); try apply _;
        rewrite ?zlen_zupd; try lia.
      apply (heap_replace_down (cb q) st st (d q)); try lia.
      * intros k Hk. apply Hh. lia.
      * intros k Hk Hki. rewrite nd_zupd by lia. by case_if; [lia|].
      * rewrite nd_zupd, Z.eqb_refl by lia. apply (heap_root (cb q) st (d q) (size q)); done || lia.
    + intros [arr st'] Hr. cbn. eexists. do 2 (split; [done|]).
      apply (take_result 1 (arr, st')); [done|lia|done].
Qed.
End removal.

Lemma members_nil {St} (q : pqueue_t St) st : queue_heap q st → members q = [] ↔ size q = 1.
Proof.
  intros [Hsz _ _]. pose proof (zlen_entries (d q) (size q) Hsz) as Hl. unfold members.
  split; intros H.
  - rewrite H in Hl. change (zlen []) with 0 in Hl. lia.
  - destruct (entries _ _) as [|x l] eqn:E; [done|]. rewrite zlen_cons in Hl.
    pose proof (zlen_nonneg l). lia.
Qed.

(** ** Printing *)

#[export] Instance read_only_order {St} (c : callbacks St) :
  PriorityOrder (cmppri c) → PriorityOrder (cmppri (read_only c)).
Proof. done. Qed.

Lemma print_loop_spec {St} fuel (q : pqueue_t St) st out :
  PriorityOrder (cmppri (cb q)) → PriorityStable (cb q) →
  (∀ st x p, setpos (cb q) st x p = st) →
  queue_heap q st → size q ≤ Z.of_nat fuel + 1 →
  returns (print_loop fuel q st out) (λ l, ∃ l', l = out ++ l' ∧ l' ≡ₚ members q ∧
    StronglySorted (λ x y, below (cb q) st x y = false) l').
Proof.
  intros Hc Hs Hro. revert q st out Hc Hs Hro.
  induction fuel as [|fuel IH]; intros q st out Hc Hs Hro Hq Hf; pose proof Hq as [Hsz _ _];
    cbn [print_loop].
  - unfold pqueue_pop. case_if; [|lia]. cbn. exists []. rewrite app_nil_r.
    split; [done|]. rewrite (proj2 (members_nil q st Hq)) by done. split; [done|constructor].
  - destruct (decide (size q = 1)) as [E|E].
    + unfold pqueue_pop. rewrite E. cbn. exists []. rewrite app_nil_r.
      split; [done|]. rewrite (proj2 (members_nil q st Hq)) by done. split; [done|constructor].
    + apply returns_bind. eapply returns_mono; [apply pop_spec; done || lia|].
      intros [[o oq] st'] (q' & -> & -> & Hmem & Hq' & Hsp & Hcb & Hsz' & _).
      eapply returns_mono; [apply IH; rewrite ?Hcb; done || lia|].
      intros l (l' & -> & Hperm & Hsorted). exists (nd (d q) 1 :: l').
      split; [by rewrite <-app_assoc|]. split; [by rewrite Hperm, Hmem|].
      rewrite Hcb in Hsorted. constructor.
      * eapply StronglySorted_ind with (P := λ l, StronglySorted _ l); [constructor| |exact Hsorted].
        intros a k Hk IHk Ha. constructor; [done|]. eapply Forall_impl; [exact Ha|].
        intros b Hb. by rewrite <-(below_same_pri (cb q) st st').
      * apply Forall_forall. intros x Hx.
        assert (x ∈ members q) as Hin by (rewrite Hmem, <-Hperm; by right).
        apply entries_nd in Hin as (k & Hk & <-); [|lia].
        destruct Hq as [_ _ Hh]. by apply (heap_root (cb q) st (d q) (size q)).
Qed.

(** ** Validity check *)

(** [k] is a proper descendant of slot [p]. *)
Inductive descendant (p : Z) : Z → Prop :=
| desc_child k : k / 2 = p → descendant p k
| desc_step k : descendant p (k / 2) → descendant p k.

Lemma descendant_children p k :
  1 ≤ p → descendant p k → k = 2 * p ∨ k = 2 * p + 1 ∨
    descendant (2 * p) k ∨ descendant (2 * p + 1) k.
Proof.
  intros Hp. induction 1 as [k Hk|k Hk IH].
  { assert (k = 2 * p ∨ k = 2 * p + 1) as [->| ->] by lia; auto. }
  destruct IH as [E|[E|[IH|IH]]].
  - right; right; left. by apply desc_child.
  - right; right; right. by apply desc_child.
  - right; right; left. by apply desc_step.
  - right; right; right. by apply desc_step.
Qed.

Lemma descendant_down p k : 1 ≤ p → descendant (2 * p) k ∨ descendant (2 * p + 1) k → descendant p k.
Proof.
  intros Hp [H|H]; induction H as [k Hk|k Hk IH]; try by apply desc_step.
  - apply desc_step, desc_child. rewrite Hk. lia.
  - apply desc_step, desc_child. rewrite Hk. lia.
Qed.

Lemma descendant_root k : 2 ≤ k → descendant 1 k.
Proof.
  intros Hk. assert (∃ n : nat, k ≤ Z.of_nat n) as [n Hn] by (exists (Z.to_nat k); lia).
  revert k Hk Hn. induction n as [|n IH]; intros k Hk Hn; [lia|].
  destruct (decide (k / 2 = 1)); [by apply desc_child|]. apply desc_step, IH; lia.
Qed.

Lemma subtree_spec {St} fuel (q : pqueue_t St) st pos :
  1 ≤ pos → pos < size q ∨ pos = 1 → 1 ≤ size q ≤ zlen (d q) → size q ≤ 2 ^ 29 →
  size q - pos < Z.of_nat fuel → (0 < fuel)%nat →
  returns (subtree_is_valid fuel q st pos) (λ b, b = true ↔
    ∀ k, descendant pos k → k < size q →
      below (cb q) st (nd (d q) (k / 2)) (nd (d q) k) = false).
Proof.
  revert pos. induction fuel as [|fuel IH]; intros pos Hp Hps Hsz Hmax Hf Hf0; [lia|].
  set (ok k := below (cb q) st (nd (d q) (k / 2)) (nd (d q) k) = false).
  cbn [subtree_is_valid].
  assert (∀ child, child = 2 * pos ∨ child = 2 * pos + 1 →
    returns (if child <? size q then
          p ← load (d q) pos;
          c ← load (d q) child;
          if cmppri (cb q) (getpri (cb q) st p) (getpri (cb q) st c) then mret false
          else subtree_is_valid fuel q st child
        else mret true)
      (λ b, b = true ↔ (child < size q → ok child ∧ ∀ k, descendant child k → k < size q → ok k)))
    as Hchild.
  { intros child Hc. case_if; [|cbn; split; [lia|done]].
    rewrite !load_nd by lia. cbn [mbind res_bind].
    assert (ok child ↔ below (cb q) st (nd (d q) pos) (nd (d q) child) = false) as Hok.
    { unfold ok. by replace (child / 2) with pos by lia. }
    fold (below (cb q) st (nd (d q) pos) (nd (d q) child)).
    destruct (below _ _ _ _) eqn:Hb.
    - cbn. split; [done|]. intros H. destruct (H Heqb) as [H1 _]. apply Hok in H1. congruence.
    - eapply returns_mono; [apply IH; lia|]. intros b Hbk. rewrite Hbk.
      split; [|intros H; by apply H]. intros H _. by split; [apply Hok|]. }
  rewrite Z.shiftl_mul_pow2, cint_ok by int_lia. cbn [mbind res_bind].
  replace (pos * 2 ^ 1) with (2 * pos) by lia.
  apply returns_bind. eapply returns_mono; [apply (Hchild (2 * pos)); auto|]. intros b Hb.
  assert (∀ k, descendant pos k → k < size q → 2 * pos < size q) as Hleft.
  { intros k Hk. induction Hk as [k Hk|k Hk IHk]; intros Hlt; [lia|]. apply IHk.
    enough (0 ≤ k / 2) by lia. clear -Hk Hp. induction Hk; lia. }
  destruct b.
  - rewrite cint_ok by int_lia. cbn [mbind res_bind].
    eapply returns_mono; [apply (Hchild (2 * pos + 1)); auto|]. intros b' Hb'. rewrite Hb'.
    destruct Hb as [Hb _]. specialize (Hb eq_refl). split.
    + intros Hr k Hk Hlt. destruct (Hb (Hleft k Hk Hlt)) as [Hl Hll].
      apply descendant_children in Hk as [->|[->|[Hk|Hk]]]; [done|exact (proj1 (Hr Hlt))|exact (Hll k Hk Hlt)| |done].
      destruct (decide (2 * pos + 1 < size q)) as [Hrt|Hrt]; [exact (proj2 (Hr Hrt) k Hk Hlt)|].
      exfalso. assert (2 * pos + 1 < k); [|lia].
      clear -Hk Hp. induction Hk as [k Hk|k Hk IHk]; lia.
    + intros H Hlt. split; [apply H; [|done]; apply desc_child; lia|].
      intros k Hk Hkl. apply H; [|done]. apply descendant_down; auto.
  - cbn. split; [done|]. intros H. apply Hb. intros Hlt.
    split; [apply H; [|done]; apply desc_child; lia|].
    intros k Hk Hkl. apply H; [|done]. apply descendant_down; auto.
Qed.

(** * Properties *)

Section properties.
Context {St : Type}.
Implicit Types (q : pqueue_t St) (st : St).

(** C19. Inserting a new entry into a well-formed queue
    keeps it well-formed and adds exactly that entry, growing the array when it
    is full; when it cannot grow, 1 is returned and nothing has changed. *)
Theorem pqueue_insert_correct q st ok junk x :
  PriorityOrder (cmppri (cb q)) → NodeFields (cb q) → queue_ok q st →
  avail q + step q < MAX_SLOTS → x ∉ members q →
  returns (pqueue_insert ok junk (Some q) st x) (λ '(code, oq, st'),
    if (avail q <=? size q) && negb ok then code = 1 ∧ oq = Some q ∧ st' = st
    else code = 0 ∧ ∃ q', oq = Some q' ∧ queue_ok q' st' ∧ members q' ≡ₚ x :: members q ∧
         same_pri (cb q) st st').
Proof.
  intros Hc Hn Hq Hmax Hx. pose proof Hq as [[Hsz Hsl Hh] Hav Hst _ _].
  assert (∀ arr av, size q < zlen arr → zlen arr < MAX_SLOTS → zlen (d q) ≤ zlen arr →
    (∀ k, 0 ≤ k < zlen (d q) → nd arr k = nd (d q) k) → av = zlen arr →
    returns (arr ← store arr (size q) x;
             '(arr, st) ← bubble_up (cb q) arr st (size q);
             mret (0, Some (with_heap (mkQueue (size q) av (step q) (cb q) (d q)) (u64 (size q + 1)) arr), st))
      (λ '(code, oq, st'), code = 0 ∧ ∃ q', oq = Some q' ∧ queue_ok q' st' ∧
         members q' ≡ₚ x :: members q ∧ same_pri (cb q) st st')) as Hput.
  { intros arr av Hroom Hcap Hle Hsame ->. rewrite store_ok by lia. cbn [mbind res_bind].
    apply returns_bind. eapply returns_mono; [by apply insert_at_end|].
    intros [arr' st'] Hr. cbn. split; [done|]. eexists. split; [done|].
    unfold with_heap, u64. cbn [avail step cb]. unfold MAX_SLOTS in *. rewrite Z.mod_small by lia.
    apply (Hr (zlen arr)). done. }
  unfold pqueue_insert. destruct (avail q <=? size q) eqn:Hfull; propify; cbn [andb].
  - destruct ok; cbn [negb].
    + assert (u64 (size q + step q) = size q + step q) as ->
        by (unfold u64, MAX_SLOTS in *; rewrite Z.mod_small; lia).
      destruct (realloc_ptrs_grow junk (d q) (size q + step q)) as (arr & -> & Hl & Hsame); [lia|].
      cbn [mbind option_bind size d cb]. apply Hput; done || lia.
    + by cbn.
  - destruct q as [sz av stp c arr]. cbn in *. apply Hput; done || lia.
Qed.

(** C18. Popping a well-formed non-empty queue removes and
    returns an entry no other entry outranks, and the rest is a well-formed
    queue of the remaining entries; an empty or null queue gives null. *)
Theorem pqueue_pop_correct q st :
  PriorityOrder (cmppri (cb q)) → NodeFields (cb q) → queue_ok q st →
  returns (pqueue_pop (Some q) st) (λ '(o, oq, st'),
    match o with
    | None => members q = [] ∧ oq = Some q ∧ st' = st
    | Some x => (∀ y, y ∈ members q → below (cb q) st x y = false) ∧
        ∃ q', oq = Some q' ∧ queue_ok q' st' ∧ members q ≡ₚ x :: members q' ∧
              same_pri (cb q) st st'
    end).
Proof.
  intros Hc Hn Hq. pose proof Hq as [Ho _ _ _ _]. pose proof Ho as [Hsz _ Hh].
  destruct (decide (size q = 1)) as [E|E].
  - unfold pqueue_pop. rewrite E. cbn. split; [|done]. by apply (members_nil q st).
  - eapply returns_mono; [apply (pop_spec q st); [done|lia]|].
    intros [[o oq] st'] (q' & -> & -> & Hmem & _ & Hsp & _ & _ & Hok). split.
    + intros y (k & Hk & <-)%entries_nd; [|lia].
      by apply (heap_root (cb q) st (d q) (size q)).
    + exists q'. split; [done|]. split; [by apply Hok|]. done.
Qed.

(** Changing the priority of an entry of a
    well-formed queue gives a well-formed queue of the same entries, in which
    that entry has the new priority and all others keep theirs. *)
Theorem pqueue_change_priority_correct q st p x :
  PriorityOrder (cmppri (cb q)) → NodeFields (cb q) → queue_ok q st → x ∈ members q →
  returns (pqueue_change_priority q st p x) (λ '(q', st'),
    queue_ok q' st' ∧ members q' ≡ₚ members q ∧
    ∀ y, getpri (cb q) st' y = if y =? x then p else getpri (cb q) st y).
Proof.
  intros Hc Hn Hq Hx. destruct (member_slot q st x Hq Hx) as [Hk Hslot].
  pose proof Hq as [[Hsz Hsl Hh] Hav Hst Hd Hp]. unfold pqueue_change_priority.
  rewrite getpos_setpri. set (i := getpos (cb q) st x) in *.
  set (st1 := setpri (cb q) st x p).
  assert (∀ k, 1 ≤ k < size q → k ≠ i →
    nd (d q) k = nd (d q) k ∧ getpri (cb q) st1 (nd (d q) k) = getpri (cb q) st (nd (d q) k)) as Hsame.
  { intros k Hkr Hki. split; [done|]. unfold st1. rewrite getpri_setpri. case_if; [|done].
    exfalso. apply Hki, Hd; [done..|]. congruence. }
  assert (getpri (cb q) st1 (nd (d q) i) = p) as Hnew.
  { unfold st1. by rewrite getpri_setpri, Hslot, Z.eqb_refl. }
  apply returns_bind.
  apply returns_mono with (P := repair_result (cb q) st1 (d q) (size q) i).
  - destruct (cmppri (cb q) _ p) eqn:Hcmp.
    + apply (bubble_up_spec (cb q)); [lia|lia|].
      apply (heap_replace_up (cb q) st st1 (d q)); [done..|]. by rewrite Hslot, <-Hslot, Hnew, Hslot.
    + apply (percolate_down_spec (cb q)); [lia|lia|unfold MAX_SLOTS in *; lia|].
      apply (heap_replace_down (cb q) st st1 (d q)); [done..|]. by rewrite Hslot, <-Hslot, Hnew, Hslot.
  - intros [arr st'] Hr. cbn.
    destruct (repair_queue q st1 (d q) (size q) i (arr, st')) as (Hok & Hmem & Hsp); try done; try lia.
    { intros k Hkr Hki. unfold st1. rewrite getpos_setpri. by apply Hp. }
    split; [done|]. split; [done|]. intros y. rewrite Hsp. apply getpri_setpri.
Qed.

(** Removing an entry of a well-formed queue leaves a
    well-formed queue of exactly the other entries, with their priorities. *)
Theorem pqueue_remove_correct q st x :
  PriorityOrder (cmppri (cb q)) → NodeFields (cb q) → queue_ok q st → x ∈ members q →
  returns (pqueue_remove q st x) (λ '(q', st'),
    queue_ok q' st' ∧ members q ≡ₚ x :: members q' ∧ same_pri (cb q) st st').
Proof.
  intros Hc Hn Hq Hx. destruct (member_slot q st x Hq Hx) as [Hk Hslot].
  pose proof Hq as [Ho Hav Hst Hd Hp]. pose proof Ho as [Hsz Hsl Hh]. unfold pqueue_remove.
  set (i := getpos (cb q) st x) in *. unfold MAX_SLOTS in Hsl.
  unfold u64. rewrite Z.mod_small by lia. rewrite load_nd by lia. cbn [mbind res_bind].
  rewrite store_ok by lia. cbn [mbind res_bind].
  rewrite load_nd by (rewrite zlen_zupd; lia). cbn [mbind res_bind].
  rewrite nd_zupd, Z.eqb_refl by lia.
  destruct (decide (i = size q - 1)) as [E|E].
  - replace (nd (d q) (size q - 1)) with x by congruence. rewrite cmp_irrefl, E.
    rewrite <-Hslot, E, zupd_nd by lia. rewrite percolate_down_past by lia. cbn.
    rewrite <-Hslot, E in *.
    destruct (take_last q st (setpos (cb q) st (nd (d q) (size q - 1)) (size q - 1)))
      as (Hmem & _ & Hsp & _ & _ & Hok); [done|lia|intros y; apply getpri_setpos| |].
    { intros _ y Hy. rewrite getpos_setpos. by rewrite (proj2 (Z.eqb_neq _ _)). }
    split; [by apply Hok|]. done.
  - apply returns_bind.
    set (arr := zupd (d q) i (nd (d q) (size q - 1))).
    assert (zlen arr = zlen (d q)) as Hla by apply zlen_zupd.
    assert (∀ k, 1 ≤ k < size q - 1 → k ≠ i →
      nd arr k = nd (d q) k ∧ getpri (cb q) st (nd arr k) = getpri (cb q) st (nd (d q) k)) as Hsame.
    { intros k Hkr Hki. unfold arr. rewrite nd_zupd by lia. by case_if; [lia|]. }
    assert (nd arr i = nd (d q) (size q - 1)) as Hi by (unfold arr; rewrite nd_zupd, Z.eqb_refl by lia; done).
    assert (heap (cb q) st (d q) (size q - 1)) as Hh' by (intros k Hkr; apply Hh; lia).
    apply returns_mono with (P := repair_result (cb q) st arr (size q - 1) i).
    + destruct (cmppri (cb q) _ _) eqn:Hcmp.
      * apply (bubble_up_spec (cb q)); [lia|lia|].
        apply (heap_replace_up (cb q) st st (d q)); [done|lia|done|]. by rewrite Hi, Hslot.
      * apply (percolate_down_spec (cb q)); [lia|lia|lia|].
        apply (heap_replace_down (cb q) st st (d q)); [done|lia|done|]. by rewrite Hi, Hslot.
    + intros [arr' st'] Hr. cbn.
      destruct (take_result q st i (arr', st')) as (Hmem & _ & Hsp & _ & _ & Hok);
        [done|lia|done|]. rewrite Hslot in Hmem. split; [by apply Hok|]. done.
Qed.

(** [pqueue_print] prints every entry of the queue once,
    from the highest priority down, and touches neither the queue nor the
    entries. *)
Theorem pqueue_print_sorted q st junk :
  PriorityOrder (cmppri (cb q)) → queue_heap q st → size q + 1 < MAX_SLOTS →
  returns (pqueue_print true true junk q st) (λ l,
    l ≡ₚ members q ∧ StronglySorted (λ x y, below (cb q) st x y = false) l).
Proof.
  intros Hc Hq Hav. pose proof Hq as [Hsz Hsl Hh]. unfold MAX_SLOTS in *.
  unfold pqueue_print, pqueue_init. cbn [negb].
  assert (u64 (size q + 1) = size q + 1) as -> by (unfold u64; apply Z.mod_small; lia).
  rewrite alloc_ptrs_len by (unfold MAX_SLOTS; lia). cbn [mbind option_bind].
  case_if; [lia|]. cbn [d cb avail].
  assert (zlen (junk <$> seqZ 0 (size q + 1)) = size q + 1) as Hl
    by (rewrite zlen_fmap, zlen_seqZ; lia).
  rewrite Hl. case_if; [lia|].
  set (arr := zwrite (junk <$> seqZ 0 (size q + 1)) 0 (take (Z.to_nat (size q)) (d q))).
  assert (zlen (take (Z.to_nat (size q)) (d q)) = size q) as Ht by (apply zlen_take; lia).
  assert (zlen arr = size q + 1) as Hla
    by (unfold arr; rewrite zlen_zwrite by lia; done).
  assert (∀ k, 0 ≤ k < size q → nd arr k = nd (d q) k) as Hsame.
  { intros k Hk. unfold nd, arr.
    replace (zget (zwrite _ _ _) k) with
      (zget (zwrite (junk <$> seqZ 0 (size q + 1)) 0 (take (Z.to_nat (size q)) (d q))) (0 + k))
      by (f_equal; lia).
    rewrite zget_zwrite_in by lia. by rewrite zget_take by lia. }
  eapply returns_mono; [apply print_loop_spec; cbn [cb size]|].
  - by apply read_only_order.
  - apply read_only_stable.
  - done.
  - split; cbn; [lia|unfold MAX_SLOTS; lia|]. intros k Hk.
    rewrite !Hsame by lia. by apply Hh.
  - lia.
  - intros l (l' & -> & Hp & Hs). cbn [app cb] in *. split; [|done]. rewrite Hp.
    unfold members. cbn. rewrite (entries_ext arr (d q)); [done|lia|lia|].
    intros k Hk. apply Hsame. lia.
Qed.

(** The validity check of a queue whose positions fit
    in an [int] terminates and says exactly whether no entry outranks its
    parent. *)
Theorem pqueue_is_valid_correct q st :
  1 ≤ size q ≤ zlen (d q) → size q ≤ 2 ^ 29 →
  returns (pqueue_is_valid q st) (λ b, b = true ↔ heap (cb q) st (d q) (size q)).
Proof.
  intros Hsz Hmax. unfold pqueue_is_valid.
  eapply returns_mono; [apply subtree_spec; lia|]. intros b ->. split.
  - intros H k Hk. apply H; [apply descendant_root; lia|lia].
  - intros H k Hk Hlt. apply H. split; [|done]. clear -Hk. induction Hk; lia.
Qed.

(** The allocation size is not checked: asking for
    2^61-1 entries wraps to an empty block, and the first insertion writes
    outside it although the queue believes it has room. *)
Theorem pqueue_init_overflow junk c ok (st : St) x :
  ∃ q, pqueue_init true true junk (2 ^ 61 - 1) c = Some q ∧ avail q = 2 ^ 61 ∧
       pqueue_insert ok junk (Some q) st x = Undef.
Proof. eexists. split; [reflexivity|]. split; reflexivity. Qed.
End properties.

(** * Witnesses: a queue of two nodes at addresses 10 and 11 *)

Definition sample_store : node_map := {[ 10 := (5, 1); 11 := (3, 2); 12 := (9, 0) ]}.
Definition sample_queue : pqueue_t node_map := mkQueue 3 4 4 (map_callbacks Z.ltb) [0; 10; 11; 0].

Lemma sample_queue_ok : queue_ok sample_queue sample_store.
Proof.
  split; [split|..]; cbn [sample_queue size avail step d cb]; try done.
  - intros k Hk. assert (k = 2) as -> by lia. by vm_compute.
  - intros i j Hi Hj. assert (i = 1 ∨ i = 2) as [->| ->] by lia;
      assert (j = 1 ∨ j = 2) as [->| ->] by lia; by vm_compute.
  - intros k Hk. assert (k = 1 ∨ k = 2) as [->| ->] by lia; by vm_compute.
Qed.

Lemma pqueue_insert_correct_witness :
  returns (pqueue_insert true (λ _, 0) (Some sample_queue) sample_store 12) (λ '(code, oq, st'),
    if (avail sample_queue <=? size sample_queue) && negb true
    then code = 1 ∧ oq = Some sample_queue ∧ st' = sample_store
    else code = 0 ∧ ∃ q', oq = Some q' ∧ queue_ok q' st' ∧
         members q' ≡ₚ 12 :: members sample_queue ∧ same_pri (cb sample_queue) sample_store st').
Proof.
  apply (pqueue_insert_correct sample_queue sample_store true (λ _, 0) 12);
    [apply Zlt_order|apply map_callbacks_fields|apply sample_queue_ok|done|].
  intros Hin. repeat (apply elem_of_cons in Hin as [|Hin]; [done|]). by apply elem_of_nil in Hin.
Defined.

Lemma pqueue_pop_correct_witness :
  returns (pqueue_pop (Some sample_queue) sample_store) (λ '(o, oq, st'),
    match o with
    | None => members sample_queue = [] ∧ oq = Some sample_queue ∧ st' = sample_store
    | Some x => (∀ y, y ∈ members sample_queue → below (cb sample_queue) sample_store x y = false) ∧
        ∃ q', oq = Some q' ∧ queue_ok q' st' ∧ members sample_queue ≡ₚ x :: members q' ∧
              same_pri (cb sample_queue) sample_store st'
    end).
Proof.
  apply (pqueue_pop_correct sample_queue sample_store);
    [apply Zlt_order|apply map_callbacks_fields|apply sample_queue_ok].
Defined.

Lemma pqueue_change_priority_correct_witness :
  returns (pqueue_change_priority sample_queue sample_store 7 11) (λ '(q', st'),
    queue_ok q' st' ∧ members q' ≡ₚ members sample_queue ∧
    ∀ y, getpri (cb sample_queue) st' y =
         if y =? 11 then 7 else getpri (cb sample_queue) sample_store y).
Proof.
  apply (pqueue_change_priority_correct sample_queue sample_store 7 11);
    [apply Zlt_order|apply map_callbacks_fields|apply sample_queue_ok|].
  right. left.
Defined.

Lemma pqueue_remove_correct_witness :
  returns (pqueue_remove sample_queue sample_store 10) (λ '(q', st'),
    queue_ok q' st' ∧ members sample_queue ≡ₚ 10 :: members q' ∧
    same_pri (cb sample_queue) sample_store st').
Proof.
  apply (pqueue_remove_correct sample_queue sample_store 10);
    [apply Zlt_order|apply map_callbacks_fields|apply sample_queue_ok|].
  left.
Defined.

Lemma pqueue_print_sorted_witness :
  returns (pqueue_print true true (λ _, 0) sample_queue sample_store) (λ l,
    l ≡ₚ members sample_queue ∧
    StronglySorted (λ x y, below (cb sample_queue) sample_store x y = false) l).
Proof.
  apply (pqueue_print_sorted sample_queue sample_store);
    [apply Zlt_order|apply sample_queue_ok|done].
Defined.

Lemma pqueue_is_valid_correct_witness :
  returns (pqueue_is_valid sample_queue sample_store) (λ b,
    b = true ↔ heap (cb sample_queue) sample_store (d sample_queue) (size sample_queue)).
Proof. by apply (pqueue_is_valid_correct sample_queue sample_store). Defined.
