(* ===== verification/HeapPermute.v ===== *)
(** libs/heap-permutation.h: Heap's algorithm, which hands every permutation of
    the first [n] cells of an array to a callback. The array is mutated in
    place; the callback's calls are recorded as the trace of array contents. *)
From Stdlib Require Import Factorial.
From S2P Require Import Prelude.

(** * Code *)

(** [swap(&v[i], &v[j])] *)
Definition swap_cells (v : list Z) (i j : Z) : res (list Z) :=
  temp ← load v i;
  y ← load v j;
  v ← store v i y;
  store v j temp.

(** [heapPermute(v, n, cb)]: the array left behind and the calls of [cb] so
    far. [n] is a [byte]; the recursion depth is at most [n]. *)
Fixpoint heapPermute (fuel : nat) (v : list Z) (n : Z) (calls : list (list Z))
    : res (list Z * list (list Z)) :=
  match fuel with
  | O => OutOfFuel
  | S fuel' =>
      if n =? 1 then mret (v, calls ++ [v])
      else
        for_up 0 n (λ i '(v, calls),
          '(v, calls) ← heapPermute fuel' v (u8 (n - 1)) calls;
          v ← (if Z.rem n 2 =? 1 then swap_cells v 0 (n - 1) else swap_cells v i (n - 1));
          mret (v, calls)) (v, calls)
  end.

(** * Lemmas *)

Lemma swap_cells_ends (l k r : list Z) x y i j :
  i = zlen l → j = zlen l + 1 + zlen k →
  swap_cells (l ++ x :: k ++ y :: r) i j = Done (l ++ y :: k ++ x :: r).
Proof.
  intros -> ->. unfold swap_cells. rewrite load_app_mid. cbn [mbind res_bind].
  assert (∀ z, zlen l + 1 + zlen k = zlen (l ++ z :: k)) as Hj by (intros; zlen_lia).
  assert (∀ z a, l ++ z :: k ++ a = (l ++ z :: k) ++ a) as Ha by (intros; by rewrite <-app_assoc).
  rewrite (Hj x), Ha, load_app_mid. cbn [mbind res_bind].
  rewrite <-Ha, store_app_mid. cbn [mbind res_bind].
  by rewrite <-(Hj x), (Hj y), Ha, store_app_mid, <-Ha.
Qed.

Lemma swap_cells_same (l r : list Z) x i :
  i = zlen l → swap_cells (l ++ x :: r) i i = Done (l ++ x :: r).
Proof.
  intros ->. unfold swap_cells. rewrite load_app_mid. cbn [mbind res_bind].
  rewrite store_app_mid. cbn [mbind res_bind]. by rewrite store_app_mid.
Qed.

(** [tr] lists the permutations of [p] whose last element is in [ls]. *)
Record covers (p ls : list Z) (tr : list (list Z)) : Prop := {
  cov_sound l : l ∈ tr → l ≡ₚ p ∧ ∃ l' x, l = l' ++ [x] ∧ x ∈ ls;
  cov_complete l' x : x ∈ ls → l' ++ [x] ≡ₚ p → l' ++ [x] ∈ tr;
  cov_once : NoDup p → NoDup tr }.

(** [tr] lists all permutations of [p], each once if its elements differ. *)
Record all_permutations (p : list Z) (tr : list (list Z)) : Prop := {
  perms_all l : l ∈ tr ↔ l ≡ₚ p;
  perms_once : NoDup p → NoDup tr }.

(** Appending the permutations that end in one more element [x]. *)
Lemma covers_chunk p ls tr f x tr' :
  covers p ls tr → all_permutations f tr' → f ++ [x] ≡ₚ p → (NoDup p → x ∉ ls) →
  covers p (x :: ls) (tr ++ ((λ l, l ++ [x]) <$> tr')).
Proof.
  intros [Hs Hc Ho] [Ha Hao] Hp Hx. split.
  - intros l [Hl|Hl]%elem_of_app.
    + destruct (Hs l Hl) as [? (l' & y & -> & Hy)]. split; [done|]. exists l', y. split; [done|by right].
    + apply list_elem_of_fmap in Hl as (l' & -> & Hl'%Ha). split; [by rewrite Hl'|].
      exists l', x. split; [done|left].
  - intros l' y Hy Hl'. apply elem_of_app. apply elem_of_cons in Hy as [->|Hy].
    + right. apply list_elem_of_fmap. exists l'. split; [done|]. apply Ha.
      rewrite <-Hp in Hl'. by apply Permutation_app_inv_r in Hl'.
    + left. by apply Hc.
  - intros Hnd. apply NoDup_app. split; [by apply Ho|]. split.
    + intros l Hl Hl'. apply list_elem_of_fmap in Hl' as (l' & -> & _).
      destruct (Hs _ Hl) as [_ (l2 & y & Heq & Hy)].
      apply app_inj_tail in Heq as [_ ->]. by apply Hx.
    + apply NoDup_fmap_2; [intros a b Hab; by apply app_inj_tail in Hab as [-> _]|]. apply Hao.
      rewrite <-Hp in Hnd. by apply NoDup_app in Hnd as [? _].
Qed.

Lemma covers_all p ls tr : p ≠ [] → ls ≡ₚ p → covers p ls tr → all_permutations p tr.
Proof.
  intros Hne Hls [Hs Hc Ho]. split; [|done]. intros l. split; [intros Hl; by apply Hs|].
  intros Hl. destruct l as [|x l' _] using rev_ind.
  { symmetry in Hl. apply Permutation_nil_r in Hl. done. }
  apply Hc; [|done]. rewrite Hls, <-Hl. apply elem_of_app. right. left.
Qed.

(** What a call leaves in the first cells: for even lengths the last element
    has moved to the front, for odd ones nothing has changed. *)
Definition left_behind (p q : list Z) : Prop :=
  if Z.even (zlen p) then ∃ e z, p = e ++ [z] ∧ q = z :: e else q = p.

Lemma left_behind_perm p q : left_behind p q → q ≡ₚ p.
Proof.
  unfold left_behind. destruct (Z.even _); [|by intros ->].
  intros (e & z & -> & ->). by rewrite Permutation_app_comm.
Qed.

(** The state after [i] rounds: the elements seen last so far are [ls]. *)
Definition after_rounds (p s ls : list Z) (i : Z) : Prop :=
  if Z.even (zlen p) then
    (i = 0 ∧ s = p ∧ ls = []) ∨
    (∃ xs y a b z, p = xs ++ [y] ∧ xs = a ++ z :: b ∧ i = zlen a + 1 ∧
      s = y :: a ++ b ++ [z] ∧ ls ≡ₚ y :: a) ∨
    (i = zlen p ∧ ∃ xs y, p = xs ++ [y] ∧ s = y :: xs ∧ ls ≡ₚ y :: xs)
  else ∃ c e, p = c ++ e ∧ zlen e = i ∧ s = e ++ c ∧ ls ≡ₚ e.

Lemma after_rounds_perm p s ls i : after_rounds p s ls i → s ≡ₚ p.
Proof.
  unfold after_rounds. destruct (Z.even _).
  - intros [(_ & -> & _)|[(xs & y & a & b & z & -> & -> & _ & -> & _)|(_ & xs & y & -> & -> & _)]].
    + done.
    + rewrite (Permutation_app_comm _ [y]). cbn. apply perm_skip, Permutation_app_head.
      symmetry. apply Permutation_cons_append.
    + apply Permutation_cons_append.
  - intros (c & e & -> & _ & -> & _). apply Permutation_app_comm.
Qed.

Lemma Zeven_succ n : Z.even (n + 1) = negb (Z.even n).
Proof. rewrite Z.add_1_r, Z.even_succ, <-Z.negb_even. done. Qed.

Lemma rem_2_odd n : 0 ≤ n → (Z.rem n 2 =? 1) = negb (Z.even n).
Proof.
  intros Hn. rewrite Z.rem_mod_nonneg by lia.
  rewrite Zmod_even. by destruct (Z.even n).
Qed.

(** One round on state [s = f ++ [x]]: the call on [f], then the swap. *)
Lemma round_step p s ls i f x q r :
  0 ≤ i < zlen p → 2 ≤ zlen p → after_rounds p s ls i → s = f ++ [x] → left_behind f q →
  (NoDup p → x ∉ ls) ∧
  ∃ s', (if negb (Z.even (zlen p)) then swap_cells (q ++ x :: r) 0 (zlen p - 1)
         else swap_cells (q ++ x :: r) i (zlen p - 1)) = Done (s' ++ r) ∧
        after_rounds p s' (x :: ls) (i + 1).
Proof.
  intros Hi H2 Hst Hs Hq. pose proof (after_rounds_perm _ _ _ _ Hst) as Hperm.
  assert (zlen p = zlen f + 1) as Hlen.
  { rewrite <-(f_equal Z.of_nat (Permutation_length Hperm) : zlen s = zlen p), Hs, zlen_app. done. }
  unfold after_rounds, left_behind in *. rewrite Hlen, Zeven_succ in *.
  destruct (Z.even (zlen f)) eqn:Hev; cbn [negb] in *.
  - (* odd length: rotation *)
    destruct Hst as (c & e & -> & He & -> & Hls). destruct Hq as (g & z & -> & ->).
    destruct c as [|x' c _] using rev_ind.
    { rewrite zlen_app in Hlen. change (zlen []) with 0 in Hlen. lia. }
    rewrite app_assoc in Hs. apply app_inj_tail in Hs as [Hs ->]. split.
    { intros Hnd Hx. rewrite Hls in Hx. rewrite <-app_assoc in Hnd.
      apply NoDup_app in Hnd as (_ & _ & Hnd). cbn in Hnd.
      apply NoDup_cons in Hnd as [Hnd _]. done. }
    exists (x :: e ++ c). split.
    + rewrite Hs. cbn [app].
      rewrite (swap_cells_ends [] g r z x); [by rewrite <-app_assoc|done|].
      rewrite zlen_app. change (zlen [z]) with 1. change (zlen []) with 0. lia.
    + exists c, (x :: e). rewrite <-app_assoc, zlen_cons. split; [done|]. split; [lia|].
      split; [done|]. by rewrite Hls.
  - (* even length: the i-th cell is exchanged with the last *)
    subst q. destruct Hst as [(-> & -> & ->)|[(xs & y & a & b & z & Hp & -> & -> & -> & Hls)|(-> & _)]].
    3: { lia. }
    + split; [intros _; apply not_elem_of_nil|].
      destruct f as [|w f]; [done|].
      exists (x :: f ++ [w]). subst p. split.
      * cbn [app]. rewrite (swap_cells_ends [] f r w x); [by rewrite <-app_assoc|done|].
        rewrite zlen_cons. change (zlen []) with 0. lia.
      * right; left. exists (w :: f), x, [], f, w. done.
    + rewrite app_assoc, app_comm_cons in Hs. apply app_inj_tail in Hs as [<- ->]. split.
      { intros Hnd Hx. rewrite Hls in Hx. subst p.
        apply elem_of_cons in Hx as [->|Hx].
        - rewrite <-app_assoc in Hnd. apply NoDup_app in Hnd as (_ & _ & Hnd). cbn in Hnd.
          apply NoDup_cons in Hnd as [Hnd _]. apply Hnd, elem_of_app. right. left.
        - rewrite <-app_assoc in Hnd. apply NoDup_app in Hnd as (_ & Hnd & _).
          apply (Hnd x Hx). left. }
      assert (zlen p = zlen a + 1 + zlen b + 1) as Hlp
        by (rewrite Hp, !zlen_app, zlen_cons; change (zlen [y]) with 1; lia).
      destruct b as [|w b].
      * rewrite app_nil_r. change (zlen []) with 0 in Hlp.
        exists (y :: a ++ [x]). split.
        { rewrite zlen_cons. replace (zlen a + 1 + 1 - 1) with (zlen a + 1) by lia.
          rewrite (swap_cells_same (y :: a)) by (rewrite zlen_cons; lia).
          cbn. by rewrite <-app_assoc. }
        right; right. split; [by rewrite zlen_cons|].
        exists (a ++ [x]), y. split; [done|]. split; [done|]. rewrite Hls.
        rewrite Permutation_swap. apply perm_skip, Permutation_cons_append.
      * exists (y :: (a ++ [x]) ++ b ++ [w]). rewrite zlen_cons in Hlp. split.
        { cbn [app]. rewrite <-!app_assoc. cbn [app].
          replace (y :: a ++ w :: b ++ x :: r) with ((y :: a) ++ w :: b ++ x :: r) by done.
          rewrite swap_cells_ends; [done|rewrite zlen_cons; lia|].
          rewrite zlen_cons, zlen_app, !zlen_cons. lia. }
        right; left. exists ((a ++ [x]) ++ w :: b), y, (a ++ [x]), b, w.
        rewrite zlen_app. change (zlen [x]) with 1.
        split; [rewrite Hp, <-!app_assoc; done|]. split; [done|]. split; [lia|].
        split; [done|]. rewrite Hls. rewrite Permutation_swap.
        apply perm_skip, Permutation_cons_append.
Qed.

(** The calls made on [p], whatever follows it in the array. *)
Lemma heapPermute_calls fuel p r calls :
  1 ≤ zlen p ≤ Z.of_nat fuel → zlen p < 256 →
  ∃ q tr, heapPermute fuel (p ++ r) (zlen p) calls =
            Done (q ++ r, calls ++ ((λ l, l ++ r) <$> tr)) ∧
    left_behind p q ∧ all_permutations p tr ∧ length tr = fact (length p).
Proof.
  revert p r calls. induction fuel as [|fuel IH]; intros p r calls Hp H8; [lia|].
  cbn [heapPermute]. destruct (Z.eqb_spec (zlen p) 1) as [E|E].
  { destruct p as [|x [|y p]]; try done; [|rewrite !zlen_cons in E; pose proof (zlen_nonneg p); lia].
    exists [x], [[x]]. split; [done|]. split; [done|]. split; [|done]. split.
    - intros l. rewrite list_elem_of_singleton. split; [by intros ->|].
      intros Hl. by apply Permutation_singleton_r in Hl.
    - intros _. apply NoDup_singleton. }
  assert (∃ s ls tr, for_up 0 (zlen p) (λ i '(v, calls),
            '(v, calls) ← heapPermute fuel v (u8 (zlen p - 1)) calls;
            v ← (if Z.rem (zlen p) 2 =? 1 then swap_cells v 0 (zlen p - 1)
                 else swap_cells v i (zlen p - 1));
            mret (v, calls)) (p ++ r, calls) =
          Done (s ++ r, calls ++ ((λ l, l ++ r) <$> tr)) ∧
    after_rounds p s ls (zlen p) ∧ covers p ls tr ∧
    Z.of_nat (length tr) = zlen p * Z.of_nat (fact (length p - 1))) as (s & ls & tr & Hrun & Hst & Hcov & Hlen).
  { enough (returns (for_up 0 (zlen p) (λ i '(v, calls),
            '(v, calls) ← heapPermute fuel v (u8 (zlen p - 1)) calls;
            v ← (if Z.rem (zlen p) 2 =? 1 then swap_cells v 0 (zlen p - 1)
                 else swap_cells v i (zlen p - 1));
            mret (v, calls)) (p ++ r, calls)) (λ st, ∃ s ls tr,
          st = (s ++ r, calls ++ ((λ l, l ++ r) <$> tr)) ∧
          after_rounds p s ls (zlen p) ∧ covers p ls tr ∧
          Z.of_nat (length tr) = zlen p * Z.of_nat (fact (length p - 1)))) as Hr.
    { apply returns_inv in Hr as (st & -> & s & ls & tr & -> & Hst). by exists s, ls, tr. }
    apply for_up_inv with (P := λ i st, ∃ s ls tr,
      st = (s ++ r, calls ++ ((λ l, l ++ r) <$> tr)) ∧ after_rounds p s ls i ∧ covers p ls tr ∧
      Z.of_nat (length tr) = i * Z.of_nat (fact (length p - 1))).
    - lia.
    - exists p, [], []. split; [by rewrite app_nil_r|]. split; [|split; [|done]].
      + unfold after_rounds. case_if; [by left|]. exists p, []. by rewrite app_nil_r.
      + split; [by intros l ?%not_elem_of_nil|by intros l x ?%not_elem_of_nil|].
        intros _. apply NoDup_nil_2.
    - intros i st Hi (s & ls & tr & -> & Hst & Hcov & Hlen).
      pose proof (after_rounds_perm _ _ _ _ Hst) as Hperm.
      pose proof (Permutation_length Hperm) as Hls.
      destruct s as [|x f _] using rev_ind; [unfold zlen in *; simpl in Hls; lia|].
      rewrite length_app in Hls. cbn [length] in Hls.
      assert (zlen p - 1 = zlen f) as Hf by (unfold zlen; lia).
      unfold u8. rewrite Z.mod_small, Hf, <-app_assoc by lia.
      destruct (IH f ([x] ++ r) (calls ++ ((λ l, l ++ r) <$> tr))) as (q & tr' & -> & Hq & Ha & Hl);
        [lia|lia|]. cbn [mbind res_bind]. rewrite rem_2_odd by lia. rewrite <-Hf.
      destruct (round_step p (f ++ [x]) ls i f x q r) as (Hx & s' & Hsw & Hst'); try done; try lia.
      cbn [app]. rewrite Hsw. cbn.
      exists s', (x :: ls), (tr ++ ((λ l, l ++ [x]) <$> tr')).
      split; [|split; [done|split]].
      + f_equal. rewrite <-app_assoc, fmap_app. do 2 f_equal. rewrite <-list_fmap_compose.
        apply list_fmap_ext. intros k l _. cbn. by rewrite <-app_assoc.
      + by apply (covers_chunk p ls tr f).
      + rewrite length_app, length_fmap, Hl. replace (length p - 1)%nat with (length f) by lia.
        replace (length p - 1)%nat with (length f) in Hlen by lia. lia. }
  exists s, tr. split; [done|]. split; [|split].
  - unfold after_rounds in Hst. unfold left_behind. destruct (Z.even (zlen p)).
    + destruct Hst as [(? & _)|[(xs & y & a & b & z & Hpe & -> & Hi & _)|(_ & xs & y & -> & -> & _)]].
      * lia.
      * exfalso. rewrite Hpe, !zlen_app, zlen_cons in Hi. change (zlen [y]) with 1 in Hi.
        pose proof (zlen_nonneg b). lia.
      * by exists xs, y.
    + destruct Hst as (c & e & -> & He & -> & _). rewrite zlen_app in He.
      destruct c; [by rewrite app_nil_r|]. rewrite zlen_cons in He. pose proof (zlen_nonneg c). lia.
  - apply (covers_all p ls); [intros ->; change (zlen []) with 0 in *; lia|  |done].
    unfold after_rounds in Hst. destruct (Z.even (zlen p)).
    + destruct Hst as [(? & _)|[(xs & y & a & b & z & Hpe & -> & Hi & _)|(_ & xs & y & -> & _ & ->)]].
      * lia.
      * exfalso. rewrite Hpe, !zlen_app, zlen_cons in Hi. change (zlen [y]) with 1 in Hi.
        pose proof (zlen_nonneg b). lia.
      * apply Permutation_cons_append.
    + destruct Hst as (c & e & -> & He & _ & ->). rewrite zlen_app in He.
      destruct c; [done|]. rewrite zlen_cons in He. pose proof (zlen_nonneg c). lia.
  - destruct p as [|a p]; [change (zlen []) with 0 in Hp; lia|]. cbn [length] in *. rewrite Nat.sub_succ, Nat.sub_0_r in Hlen.
    unfold zlen in Hlen. cbn [length] in Hlen. change (fact (S (length p))) with (S (length p) * fact (length p))%nat.
    lia.
Qed.

(** * Properties *)

(** C20. The callback is called once for each of the [n!]
    orders of the first [n] cells: every call sees a permutation of them with
    the rest of the array untouched, every permutation is seen, and no array is
    seen twice when the elements differ. *)
Theorem heapPermute_correct p r :
  1 ≤ zlen p < 256 →
  ∃ v' calls, heapPermute 255 (p ++ r) (zlen p) [] = Done (v', calls) ∧
    length calls = fact (length p) ∧
    (∀ l, l ∈ calls ↔ ∃ p', l = p' ++ r ∧ p' ≡ₚ p) ∧ (NoDup p → NoDup calls).
Proof.
  intros Hp. destruct (heapPermute_calls 255 p r []) as (q & tr & -> & _ & [Ha Ho] & Hl); [lia|lia|].
  eexists _, _. split; [done|]. cbn [app]. split; [by rewrite length_fmap|]. split.
  - intros l. rewrite list_elem_of_fmap. split.
    + intros (p' & -> & Hp'). exists p'. split; [done|]. by apply Ha.
    + intros (p' & -> & Hp'). exists p'. split; [done|]. by apply Ha.
  - intros Hnd. apply NoDup_fmap_2; [|by apply Ho]. intros a b Hab. by apply app_inv_tail in Hab.
Qed.

(** The array is restored for odd [n]; for even [n] its
    first [n] cells end rotated by one place. *)
Theorem heapPermute_array p r calls :
  1 ≤ zlen p < 256 →
  returns (heapPermute 255 (p ++ r) (zlen p) calls) (λ '(v', _),
    if Z.even (zlen p) then ∃ e z, p = e ++ [z] ∧ v' = z :: e ++ r else v' = p ++ r).
Proof.
  intros Hp. destruct (heapPermute_calls 255 p r calls) as (q & tr & -> & Hq & _); [lia|lia|].
  cbn. unfold left_behind in Hq. destruct (Z.even (zlen p)); [|by subst].
  destruct Hq as (e & z & -> & ->). by exists e, z.
Qed.

(** * Witnesses *)

Example heapPermute_123 :
  heapPermute 255 [1; 2; 3] 3 [] =
  Done ([1; 2; 3], [[1; 2; 3]; [2; 1; 3]; [3; 1; 2]; [1; 3; 2]; [2; 3; 1]; [3; 2; 1]]).
Proof. by vm_compute. Qed.

Lemma heapPermute_correct_witness :
  ∃ v' calls, heapPermute 255 ([1; 2; 3] ++ [9]) 3 [] = Done (v', calls) ∧
    length calls = fact 3 ∧
    (∀ l, l ∈ calls ↔ ∃ p', l = p' ++ [9] ∧ p' ≡ₚ [1; 2; 3]) ∧ (NoDup [1; 2; 3] → NoDup calls).
Proof. by apply (heapPermute_correct [1; 2; 3] [9]). Defined.

Lemma heapPermute_array_witness :
  returns (heapPermute 255 ([1; 2] ++ [9]) 2 []) (λ '(v', _),
    if Z.even 2 then ∃ e z, [1; 2] = e ++ [z] ∧ v' = z :: e ++ [9] else v' = [1; 2] ++ [9]).
Proof. by apply (heapPermute_array [1; 2] [9] []). Defined.
