(* ===== verification/Chain.v ===== *)
(** libs/fastcommon/src/chain.c: the singly linked list with head and tail
    pointers. Nodes live in a heap; releasing a node removes it, so that any use
    of a released node is an invalid access. *)
From S2P Require Import Prelude.

(** * Data *)

Definition EINVAL : Z := 22.
Definition ENOMEM : Z := 12.

Definition CHAIN_TYPE_INSERT : Z := 0.
Definition CHAIN_TYPE_APPEND : Z := 1.
Definition CHAIN_TYPE_SORTED : Z := 2.

(** Addresses of nodes; a null pointer is [None]. *)
Abbreviation loc := Z (only parsing).

(** [ChainNode]; [ndata] is the [void *] the client stored. *)
Record ChainNode := mkNode { ndata : Z; next : option loc }.

(** [ChainList]; [freeDataFunc] says whether the function pointer is set. *)
Record ChainList := mkChain { ctype : Z; head : option loc; tail : option loc;
                              freeDataFunc : bool; compareFunc : option (Z → Z → Z) }.

(** The nodes allocated, and the arguments [freeDataFunc] was called with. *)
Record mem := mkMem { nodes : gmap Z ChainNode; freed : list Z }.

Definition set_head p (l : ChainList) := mkChain (ctype l) p (tail l) (freeDataFunc l) (compareFunc l).
Definition set_tail p (l : ChainList) := mkChain (ctype l) (head l) p (freeDataFunc l) (compareFunc l).

(** * Heap accesses *)

Definition load_node (m : mem) (p : option loc) : res ChainNode :=
  match p with Some l => of_opt (nodes m !! l) | None => Undef end.

Definition store_next (m : mem) (p : option loc) (q : option loc) : res mem :=
  match p with
  | Some l =>
      n ← load_node m p;
      mret (mkMem (<[l := mkNode (ndata n) q]> (nodes m)) (freed m))
  | None => Undef
  end.

(** [malloc] of a node, initialised by the two stores that follow it. *)
Definition new_node (m : mem) (n : ChainNode) : loc * mem :=
  let l := fresh (dom (nodes m)) in (l, mkMem (<[l := n]> (nodes m)) (freed m)).

(** [free]: the node must be live. *)
Definition free_node (m : mem) (p : option loc) : res mem :=
  match p with
  | Some l => _ ← load_node m p; mret (mkMem (delete l (nodes m)) (freed m))
  | None => Undef
  end.

(** * Operations *)

Definition chain_init (pList : option ChainList) (type : Z) (freeData : bool)
    (compare : option (Z → Z → Z)) : option ChainList :=
  match pList with
  | None => None
  | Some _ => Some (mkChain type None None freeData compare)
  end.

Definition freeChainNode (m : mem) (l : ChainList) (p : option loc) : res mem :=
  n ← load_node m p;
  let m := if freeDataFunc l then mkMem (nodes m) (freed m ++ [ndata n]) else m in
  free_node m p.

Fixpoint destroy_nodes (fuel : nat) (m : mem) (l : ChainList) (pNode : option loc) : res mem :=
  match pNode with
  | None => mret m
  | Some _ =>
      match fuel with
      | O => OutOfFuel
      | S fuel' =>
          n ← load_node m pNode;
          m ← freeChainNode m l pNode;
          destroy_nodes fuel' m l (next n)
      end
  end.

Definition chain_destroy (m : mem) (pList : option ChainList) : res (mem * option ChainList) :=
  match pList with
  | None => mret (m, None)
  | Some l =>
      match head l with
      | None => mret (m, Some l)
      | Some _ =>
          m ← destroy_nodes (size (nodes m)) m l (head l);
          mret (m, Some (set_tail None (set_head None l)))
      end
  end.

Definition insertNodePrior (ok : bool) (m : mem) (pList : option ChainList) (x : Z)
    : res (Z * mem * option ChainList) :=
  match pList with
  | None => mret (EINVAL, m, None)
  | Some l =>
      if negb ok then mret (ENOMEM, m, Some l)
      else
        let '(pNode, m) := new_node m (mkNode x (head l)) in
        let l := set_head (Some pNode) l in
        mret (0, m, Some (match tail l with None => set_tail (Some pNode) l | Some _ => l end))
  end.

Definition appendNode (ok : bool) (m : mem) (pList : option ChainList) (x : Z)
    : res (Z * mem * option ChainList) :=
  match pList with
  | None => mret (EINVAL, m, None)
  | Some l =>
      if negb ok then mret (ENOMEM, m, Some l)
      else
        let '(pNode, m) := new_node m (mkNode x None) in
        m ← (match tail l with Some _ => store_next m (tail l) (Some pNode) | None => mret m end);
        let l := set_tail (Some pNode) l in
        mret (0, m, Some (match head l with None => set_head (Some pNode) l | Some _ => l end))
  end.

(** The search loop of [insertNodeAsc]: the pair (pPrevious, pNode). *)
Fixpoint asc_position (fuel : nat) (m : mem) (cmp : Z → Z → Z) (x : Z)
    (pPrevious pNode : option loc) : res (option loc * option loc) :=
  match pNode with
  | None => mret (pPrevious, pNode)
  | Some _ =>
      n ← load_node m pNode;
      if cmp (ndata n) x <? 0 then
        match fuel with
        | O => OutOfFuel
        | S fuel' => asc_position fuel' m cmp x pNode (next n)
        end
      else mret (pPrevious, pNode)
  end.

(** The new node is allocated before the search; the search does not see it, so
    it is linked here in one step after it. *)
Definition insertNodeAsc (ok : bool) (m : mem) (pList : option ChainList) (x : Z)
    : res (Z * mem * option ChainList) :=
  match pList with
  | None => mret (EINVAL, m, None)
  | Some l =>
      match compareFunc l with
      | None => mret (EINVAL, m, Some l)
      | Some cmp =>
          if negb ok then mret (ENOMEM, m, Some l)
          else
            '(pPrevious, pNode) ← asc_position (size (nodes m)) m cmp x None (head l);
            let '(pNew, m) := new_node m (mkNode x pNode) in
            '(m, l) ← (match pPrevious with
                       | None => mret (m, set_head (Some pNew) l)
                       | Some _ => m ← store_next m pPrevious (Some pNew); mret (m, l)
                       end);
            mret (0, m, Some (match pNode with None => set_tail (Some pNew) l | Some _ => l end))
      end
  end.

(** [addNode] reads the type of the list it is given. *)
Definition addNode (ok : bool) (m : mem) (pList : option ChainList) (x : Z)
    : res (Z * mem * option ChainList) :=
  match pList with
  | None => Undef
  | Some l =>
      if ctype l =? CHAIN_TYPE_INSERT then insertNodePrior ok m pList x
      else if ctype l =? CHAIN_TYPE_APPEND then appendNode ok m pList x
      else insertNodeAsc ok m pList x
  end.

Definition deleteNodeEx (m : mem) (l : ChainList) (pPreviousNode pDeletedNode : option loc)
    : res (mem * ChainList) :=
  n ← load_node m pDeletedNode;
  '(m, l1) ← (if decide (pDeletedNode = head l) then mret (m, set_head (next n) l)
              else m ← store_next m pPreviousNode (next n); mret (m, l));
  let l2 := if decide (pDeletedNode = tail l1) then set_tail pPreviousNode l1 else l1 in
  m ← freeChainNode m l2 pDeletedNode;
  mret (m, l2).

(** The loop of [deleteToNodePrevious]. *)
Fixpoint free_until (fuel : nat) (m : mem) (l : ChainList) (pNode pDeletedNext : option loc)
    : res mem :=
  match pNode with
  | None => mret m
  | Some _ =>
      if decide (pNode = pDeletedNext) then mret m
      else
        match fuel with
        | O => OutOfFuel
        | S fuel' =>
            n ← load_node m pNode;
            m ← freeChainNode m l pNode;
            free_until fuel' m l (next n) pDeletedNext
        end
  end.

Definition deleteToNodePrevious (m : mem) (l : ChainList) (pPreviousNode pDeletedNext : option loc)
    : res (mem * ChainList) :=
  '(pNode, m, l) ← (match pPreviousNode with
                    | None => mret (head l, m, set_head pDeletedNext l)
                    | Some _ =>
                        n ← load_node m pPreviousNode;
                        m ← store_next m pPreviousNode pDeletedNext;
                        mret (next n, m, l)
                    end);
  m ← free_until (size (nodes m)) m l pNode pDeletedNext;
  mret (m, match pDeletedNext with None => set_tail pPreviousNode l | Some _ => l end).

(** The data of the head node, [None] when the chain is empty. *)
Definition chain_pop_head (m : mem) (l : ChainList) : res (option Z * mem * ChainList) :=
  match head l with
  | None => mret (None, m, l)
  | Some _ =>
      n ← load_node m (head l);
      let l1 := set_head (next n) l in
      let l2 := match head l1 with None => set_tail None l1 | Some _ => l1 end in
      m ← free_node m (head l);
      mret (Some (ndata n), m, l2)
  end.

Fixpoint count_nodes (fuel : nat) (m : mem) (pNode : option loc) (count : Z) : res Z :=
  match pNode with
  | None => mret count
  | Some _ =>
      match fuel with
      | O => OutOfFuel
      | S fuel' =>
          c ← cint (count + 1);
          n ← load_node m pNode;
          count_nodes fuel' m (next n) c
      end
  end.

Definition chain_count (m : mem) (l : ChainList) : res Z :=
  count_nodes (size (nodes m)) m (head l) 0.

(** The loop of [deleteNode]. *)
Fixpoint delete_nodes (fuel : nat) (m : mem) (l : ChainList) (cmp : Z → Z → Z)
    (pPrevious pNode : option loc) (x : Z) (bDeleteAll : bool) (nCount : Z)
    : res (Z * mem * ChainList) :=
  match pNode with
  | None => mret (nCount, m, l)
  | Some _ =>
      match fuel with
      | O => OutOfFuel
      | S fuel' =>
          n ← load_node m pNode;
          let nCompareRes := cmp (ndata n) x in
          if nCompareRes =? 0 then
            '(m, l) ← deleteNodeEx m l pPrevious pNode;
            c ← cint (nCount + 1);
            if negb bDeleteAll then mret (c, m, l)
            else delete_nodes fuel' m l cmp pPrevious (next n) x bDeleteAll c
          else if (0 <? nCompareRes) && (ctype l =? CHAIN_TYPE_SORTED) then mret (nCount, m, l)
          else delete_nodes fuel' m l cmp pNode (next n) x bDeleteAll nCount
      end
  end.

Definition deleteNode (m : mem) (pList : option ChainList) (x : Z) (bDeleteAll : bool)
    : res (Z * mem * option ChainList) :=
  match pList with
  | None => mret (- EINVAL, m, None)
  | Some l =>
      match compareFunc l with
      | None => mret (- EINVAL, m, Some l)
      | Some cmp =>
          '(c, m, l) ← delete_nodes (size (nodes m)) m l cmp None (head l) x bDeleteAll 0;
          mret (c, m, Some l)
      end
  end.

Definition deleteOne (m : mem) (pList : option ChainList) (x : Z) := deleteNode m pList x false.
Definition deleteAll (m : mem) (pList : option ChainList) (x : Z) := deleteNode m pList x true.

(** * Specification: a list of data *)

Fixpoint insert_asc (cmp : Z → Z → Z) (x : Z) (xs : list Z) : list Z :=
  match xs with
  | [] => [x]
  | y :: ys => if cmp y x <? 0 then y :: insert_asc cmp x ys else x :: y :: ys
  end.

(** What deletion keeps and what it removes. *)
Fixpoint delete_spec (cmp : Z → Z → Z) (sorted all : bool) (x : Z) (xs : list Z)
    : list Z * list Z :=
  match xs with
  | [] => ([], [])
  | y :: ys =>
      if cmp y x =? 0 then
        if all then let '(k, r) := delete_spec cmp sorted all x ys in (k, y :: r) else (ys, [y])
      else if (0 <? cmp y x) && sorted then (y :: ys, [])
      else let '(k, r) := delete_spec cmp sorted all x ys in (y :: k, r)
  end.

(** * The representation of a list by linked nodes *)

Implicit Types (ls pre suf : list (Z * Z)) (m : mem) (l : ChainList) (ns : gmap Z ChainNode).

#[local] Arguments freeChainNode : simpl never.

(** The address of the first node, or [q] when there is none. *)
Definition first_loc ls (q : option loc) : option loc :=
  match ls with [] => q | p :: _ => Some p.1 end.

(** Each node of [ls] (address and data) points to the next, the last to [q]. *)
Fixpoint linked ns ls (q : option loc) : Prop :=
  match ls with
  | [] => True
  | p :: ls' => ns !! p.1 = Some (mkNode p.2 (first_loc ls' q)) ∧ linked ns ls' q
  end.

(** [m] holds exactly the nodes of the chain [l], which lists [ls]. *)
Record chain_ok m l ls : Prop := {
  ok_head : head l = first_loc ls None;
  ok_tail : tail l = last ls.*1;
  ok_linked : linked (nodes m) ls None;
  ok_nodup : NoDup ls.*1;
  ok_dom : dom (nodes m) = list_to_set ls.*1 }.

Definition same_kind l l' : Prop :=
  ctype l' = ctype l ∧ freeDataFunc l' = freeDataFunc l ∧ compareFunc l' = compareFunc l.

(** The calls of [freeDataFunc] for the removed data. *)
Definition released l (xs : list Z) : list Z := if freeDataFunc l then xs else [].

Lemma first_loc_app ls1 ls2 q : first_loc (ls1 ++ ls2) q = first_loc ls1 (first_loc ls2 q).
Proof. by destruct ls1. Qed.

Lemma linked_app ns ls1 ls2 q :
  linked ns (ls1 ++ ls2) q ↔ linked ns ls1 (first_loc ls2 q) ∧ linked ns ls2 q.
Proof.
  induction ls1 as [|p ls1 IH]; cbn; [tauto|]. rewrite IH, first_loc_app. tauto.
Qed.

Lemma linked_ext ns ns' ls q :
  (∀ k, k ∈ ls.*1 → ns' !! k = ns !! k) → linked ns ls q → linked ns' ls q.
Proof.
  induction ls as [|p ls IH]; intros He; [done|]. cbn. intros [Hp Hl]. split.
  - rewrite He; [done|left].
  - apply IH; [|done]. intros k Hk. apply He. by right.
Qed.

Lemma linked_insert ns k n ls q : k ∉ ls.*1 → linked ns ls q → linked (<[k := n]> ns) ls q.
Proof.
  intros Hk. apply linked_ext. intros k' Hk'. apply lookup_insert_ne. by intros ->.
Qed.

Lemma linked_delete ns k ls q : k ∉ ls.*1 → linked ns ls q → linked (delete k ns) ls q.
Proof.
  intros Hk. apply linked_ext. intros k' Hk'. apply lookup_delete_ne. by intros ->.
Qed.

(** Redirecting the last node. *)
Lemma linked_redirect ns ls k x q q' :
  k ∉ ls.*1 → linked ns (ls ++ [(k, x)]) q → linked (<[k := mkNode x q']> ns) (ls ++ [(k, x)]) q'.
Proof.
  intros Hk [Hl _]%linked_app. apply linked_app. cbn in *. split.
  - by apply linked_insert.
  - split; [|done]. apply lookup_insert_eq.
Qed.

Lemma chain_size m l ls : chain_ok m l ls → size (nodes m) = length ls.
Proof.
  intros [_ _ _ Hnd Hdom]. rewrite <-size_dom, Hdom, size_list_to_set by done.
  by rewrite length_fmap.
Qed.

Lemma chain_lookup m l pre k x suf :
  chain_ok m l (pre ++ (k, x) :: suf) → nodes m !! k = Some (mkNode x (first_loc suf None)).
Proof. intros [_ _ [_ [Hk _]]%linked_app _ _]. done. Qed.

Lemma chain_head_nil m l : chain_ok m l [] → head l = None ∧ tail l = None.
Proof. intros [-> -> _ _ _]. done. Qed.

(** A node that is not in a list. *)
Lemma fresh_node m l ls : chain_ok m l ls → fresh (dom (nodes m)) ∉ ls.*1.
Proof.
  intros [_ _ _ _ Hdom] Hin. apply (is_fresh (dom (nodes m))). rewrite Hdom at 2.
  by apply elem_of_list_to_set.
Qed.

Lemma last_fst_snoc pre k x : last (pre ++ [(k, x)]).*1 = Some k.
Proof. by rewrite fmap_app, last_app. Qed.

Lemma last_fst_app pre suf k x : last (pre ++ (k, x) :: suf).*1 = last ((k, x) :: suf).*1.
Proof. rewrite fmap_app, last_app. cbn. by destruct (last _) eqn:E; [|apply last_None in E]. Qed.

Lemma last_in suf k : last suf.*1 = Some k → k ∈ suf.*1.
Proof. apply last_Some_elem_of. Qed.

Lemma freeChainNode_ok m l k x q :
  nodes m !! k = Some (mkNode x q) →
  freeChainNode m l (Some k) = Done (mkMem (delete k (nodes m)) (freed m ++ released l [x])).
Proof.
  intros Hk. unfold freeChainNode, free_node, load_node, released. rewrite Hk. cbn.
  destruct (freeDataFunc l); cbn; rewrite Hk; cbn; [done|]. by rewrite app_nil_r.
Qed.

(** Taking the node of [k] out from between [pre] and [suf]. *)
Lemma deleteNodeEx_spec m l pre k x suf :
  chain_ok m l (pre ++ (k, x) :: suf) →
  returns (deleteNodeEx m l (last pre.*1) (Some k)) (λ '(m', l'),
    chain_ok m' l' (pre ++ suf) ∧ same_kind l l' ∧ freed m' = freed m ++ released l [x]).
Proof.
  intros Hok. pose proof (chain_lookup _ _ _ _ _ _ Hok) as Hk. destruct Hok as [Hh Ht Hl Hnd Hdom].
  unfold deleteNodeEx. cbn [load_node]. rewrite Hk. cbn [of_opt mbind res_bind].
  rewrite fmap_app in Hnd. cbn in Hnd. apply NoDup_app in Hnd as (Hnp & Hdisj & Hns).
  apply NoDup_cons in Hns as [Hks Hns].
  assert (k ∉ pre.*1) as Hkp by (intros Hin; apply (Hdisj k Hin); left).
  assert (dom (delete k (nodes m)) = list_to_set (pre ++ suf).*1) as Hdom'.
  { rewrite dom_delete_L, Hdom, !fmap_app. cbn.
    rewrite !list_to_set_app_L. cbn. apply set_eq. intros y.
    rewrite elem_of_difference, !elem_of_union, !elem_of_singleton, !elem_of_list_to_set.
    split; [tauto|]. intros [Hy|Hy]; (split; [by auto|]); intros ->; done. }
  assert (NoDup (pre ++ suf).*1) as Hnd'.
  { rewrite fmap_app. apply NoDup_app. split; [done|]. split; [|done].
    intros y Hy Hy'. apply (Hdisj y Hy). by right. }
  assert (∀ q, (Some k = last (pre ++ (k, x) :: suf).*1 ∧ suf = [] ∧ q = last pre.*1) ∨
               (Some k ≠ last (pre ++ (k, x) :: suf).*1 ∧ suf ≠ [] ∧
                last (pre ++ (k, x) :: suf).*1 = last (pre ++ suf).*1) ∨ q ≠ last pre.*1) as Hlast.
  { intros q. rewrite last_fst_app. destruct suf as [|[k' x'] suf].
    - destruct (decide (q = last pre.*1)); [left; done|right; by right].
    - right; left. rewrite last_fst_app. cbn [fmap list_fmap fst] in *.
      split; [|done]. intros E. symmetry in E. rewrite last_cons in E.
      destruct (last (k' :: suf.*1)) eqn:E'; [|by apply last_None in E'].
      simplify_eq. apply Hks. by apply last_Some_elem_of in E'. }
  destruct pre as [|[kp xp] pre _] using rev_ind.
  - cbn in *. rewrite Hh. destruct (decide (Some k = Some k)); [|done]. cbn [mbind res_bind mret res_ret].
    cbn [tail set_head]. rewrite Ht.
    destruct (Hlast None) as [(E & -> & _)|[(E & Hne & E')|?]]; [| |done].
    + rewrite decide_True by done. rewrite (freeChainNode_ok _ _ _ _ _ Hk). cbn.
      split; [|done]. split; cbn; done.
    + rewrite decide_False by done. rewrite (freeChainNode_ok _ _ _ _ _ Hk). cbn.
      split; [|done]. split; cbn; try done; [congruence|].
      apply linked_delete; [done|]. by destruct Hl.
  - rewrite last_fst_snoc. rewrite <-app_assoc in *. cbn [app] in *.
    assert (kp ≠ k) as Hne.
    { intros ->. apply Hkp. rewrite fmap_app. apply elem_of_app. right. left. }
    assert (head l = first_loc (pre ++ (kp, xp) :: suf) None) as Hh'.
    { rewrite Hh, !first_loc_app. done. }
    assert (Some k ≠ head l) as Hkh.
    { rewrite Hh'. destruct pre as [|[k0 x0] pre]; cbn; [congruence|].
      intros [= ->]. apply Hkp. left. }
    rewrite decide_False by done. cbn [store_next load_node].
    apply linked_app in Hl as [Hlp [Hkpn [_ Hls]]]. cbn in Hkpn.
    rewrite Hkpn. cbn [of_opt mbind res_bind ndata next mret res_ret].
    rewrite Ht.
    assert (linked (<[kp := mkNode xp (first_loc suf None)]> (nodes m))
              (pre ++ (kp, xp) :: suf) None) as Hl'.
    { rewrite fmap_app in Hnp. cbn in Hnp. apply NoDup_app in Hnp as (_ & Hd & _).
      apply linked_app. split; [|split; [apply lookup_insert_eq|]].
      - apply linked_insert; [|done]. intros Hin. apply (Hd kp Hin). left.
      - apply linked_insert; [|done]. intros Hin. apply (Hdisj kp); [|by right].
        rewrite fmap_app. apply elem_of_app. right. left. }
    assert (freeChainNode (mkMem (<[kp := mkNode xp (first_loc suf None)]> (nodes m)) (freed m)) l (Some k) =
      Done (mkMem (delete k (<[kp := mkNode xp (first_loc suf None)]> (nodes m))) (freed m ++ released l [x])))
      as Hfree.
    { apply (freeChainNode_ok (mkMem _ _) l k x (first_loc suf None)). cbn.
      by rewrite lookup_insert_ne. }
    assert (∀ l', head l' = head l → tail l' = last (pre ++ (kp, xp) :: suf).*1 →
      chain_ok (mkMem (delete k (<[kp := mkNode xp (first_loc suf None)]> (nodes m)))
                  (freed m ++ released l [x])) l' (pre ++ (kp, xp) :: suf)) as Hfin.
    { intros l' E1 E2. split; cbn; [congruence|done| |done|].
      - apply linked_delete; [|done]. rewrite fmap_app. intros [Hin|Hin]%elem_of_app.
        + apply Hkp. rewrite fmap_app. apply elem_of_app. by left.
        + cbn in Hin. apply elem_of_cons in Hin as [->|Hin]; done.
      - rewrite dom_delete_L, dom_insert_L. rewrite <-Hdom'.
        rewrite dom_delete_L. apply set_eq. intros y.
        rewrite !elem_of_difference, elem_of_union, !elem_of_singleton, Hdom.
        split; [|tauto]. intros [[->|Hy] Hyk]; (split; [|done]); [|done].
        rewrite elem_of_list_to_set, fmap_app. apply elem_of_app. right. left. }
    destruct (Hlast (last (pre ++ [(kp, xp)]).*1)) as [(E & -> & _)|[(E & Hns' & E')|Hbad]]; [| |done].
    + rewrite decide_True by done.
      change (freeChainNode ?m (set_tail ?p ?l) ?k) with (freeChainNode m l k).
      rewrite Hfree. cbn. split; [|done]. apply Hfin; [done|]. cbn. by rewrite last_fst_snoc.
    + rewrite decide_False by done. rewrite Hfree. cbn. split; [|done]. apply Hfin; [done|]. by rewrite Ht, E', <-app_assoc.
Qed.

(** Linking a new node in between [pre] and [suf]. *)
Lemma insert_between m l l' pre suf x :
  chain_ok m l (pre ++ suf) →
  let k := fresh (dom (nodes m)) in
  let m1 := mkMem (<[k := mkNode x (first_loc suf None)]> (nodes m)) (freed m) in
  head l' = first_loc (pre ++ (k, x) :: suf) None → tail l' = last (pre ++ (k, x) :: suf).*1 →
  returns (match last pre.*1 with
           | None => mret m1
           | Some kp => store_next m1 (Some kp) (Some k)
           end) (λ m', chain_ok m' l' (pre ++ (k, x) :: suf) ∧ freed m' = freed m).
Proof.
  intros Hok k m1 Hh Ht. pose proof (fresh_node _ _ _ Hok) as Hk. fold k in Hk.
  destruct Hok as [_ _ Hl Hnd Hdom]. rewrite fmap_app in Hk, Hnd.
  assert (NoDup (pre ++ (k, x) :: suf).*1) as Hnd'.
  { rewrite fmap_app. cbn. apply NoDup_app in Hnd as (H1 & H2 & H3). apply NoDup_app.
    split; [done|]. split.
    - intros y Hy [->|Hy']%elem_of_cons; [|by apply (H2 y)]. apply Hk, elem_of_app. by left.
    - constructor; [|done]. intros Hin. apply Hk, elem_of_app. by right. }
  assert (dom (nodes m1) = list_to_set (pre ++ (k, x) :: suf).*1) as Hdom'.
  { cbn. rewrite dom_insert_L, Hdom, !fmap_app. cbn. rewrite !list_to_set_app_L. cbn. set_solver. }
  assert ((k ∉ pre.*1) ∧ (k ∉ suf.*1)) as [Hkp Hks]
    by (split; intros Hin; apply Hk, elem_of_app; auto).
  apply linked_app in Hl as [Hlp Hls].
  destruct pre as [|[kp xp] pre _] using rev_ind.
  - cbn. split; [|done]. split; try done. cbn. split; [apply lookup_insert_eq|].
    by apply linked_insert.
  - rewrite last_fst_snoc. cbn [store_next load_node].
    apply linked_app in Hlp as [Hlp [Hkpn _]]. cbn in Hkpn.
    assert (kp ≠ k) as Hne.
    { intros ->. apply Hkp. rewrite fmap_app. apply elem_of_app. right. left. }
    cbn [m1 nodes]. rewrite lookup_insert_ne, Hkpn by done. cbn.
    split; [|done]. split; cbn; [done|done| |done|].
    + rewrite fmap_app in Hnd. apply NoDup_app in Hnd as (Hndp & Hd & _).
      apply NoDup_app in Hndp as (_ & Hdp & _).
      apply linked_app. split.
      * apply (linked_redirect _ _ _ _ (first_loc suf None)).
        { intros Hin. apply (Hdp kp Hin). left. }
        apply linked_app. split; [apply linked_insert; [|done]|].
        { intros Hin. apply Hkp. rewrite fmap_app. apply elem_of_app. by left. }
        split; [|done]. cbn. by rewrite lookup_insert_ne.
      * assert (kp ∉ suf.*1) as Hkps.
        { intros Hin. apply (Hd kp); [|done]. apply elem_of_app. right. left. }
        split; [cbn; by rewrite lookup_insert_ne, lookup_insert_eq|].
        do 2 (apply linked_insert; [done|]). done.
    + rewrite dom_insert_L. cbn in Hdom'. rewrite Hdom'.
      rewrite !fmap_app. cbn. rewrite !list_to_set_app_L. cbn. set_solver.
Qed.

Lemma insertNodePrior_spec m l ls x :
  chain_ok m l ls →
  returns (insertNodePrior true m (Some l) x) (λ '(c, m', ol), ∃ l' k,
    c = 0 ∧ ol = Some l' ∧ chain_ok m' l' ((k, x) :: ls) ∧ same_kind l l' ∧ freed m' = freed m).
Proof.
  intros Hok. unfold insertNodePrior, new_node. cbn [negb mret res_ret returns].
  set (k := fresh (dom (nodes m))).
  set (l' := match tail (set_head (Some k) l) with None => _ | Some _ => _ end).
  exists l', k. pose proof Hok as [Hh Ht _ _ _].
  pose proof (insert_between m l l' [] ls x Hok) as Hb. cbn -[fresh] in Hb. rewrite Hh.
  destruct Hb as [Hb _].
  - unfold l'. by destruct (tail _).
  - assert (tail l' = match tail l with None => Some k | Some t => Some t end) as ->.
    { unfold l'. cbn [tail set_head]. by destruct (tail l) eqn:E; cbn; rewrite ?E. }
    rewrite Ht. destruct ls as [|[k1 x1] ls]; [done|].
    cbn. rewrite !last_cons. by destruct (last ls.*1).
  - do 2 (split; [done|]). split; [exact Hb|]. split; [|done].
    unfold l', same_kind. by destruct (tail _).
Qed.

Lemma appendNode_spec m l ls x :
  chain_ok m l ls →
  returns (appendNode true m (Some l) x) (λ '(c, m', ol), ∃ l' k,
    c = 0 ∧ ol = Some l' ∧ chain_ok m' l' (ls ++ [(k, x)]) ∧ same_kind l l' ∧ freed m' = freed m).
Proof.
  intros Hok. unfold appendNode, new_node. cbn [negb].
  set (k := fresh (dom (nodes m))). pose proof Hok as [Hh Ht _ _ _].
  set (l' := match head (set_tail (Some k) l) with None => _ | Some _ => _ end).
  rewrite <-(app_nil_r ls) in Hok.
  pose proof (insert_between m l l' ls [] x Hok) as Hb. cbn -[fresh] in Hb. fold k in Hb.
  rewrite Ht. apply returns_bind.
  eapply returns_mono; [destruct (last ls.*1); apply Hb|].
  - assert (head l' = match head l with None => Some k | Some t => Some t end) as ->.
    { unfold l'. cbn [head set_tail]. by destruct (head l) eqn:E; cbn; rewrite ?E. }
    rewrite Hh. by destruct ls.
  - unfold l'. rewrite last_fst_snoc. by destruct (head _).
  - assert (head l' = match head l with None => Some k | Some t => Some t end) as ->.
    { unfold l'. cbn [head set_tail]. by destruct (head l) eqn:E; cbn; rewrite ?E. }
    rewrite Hh. by destruct ls.
  - unfold l'. rewrite last_fst_snoc. by destruct (head _).
  - intros m' [Hm' Hf]. cbn. exists l', k. do 2 (split; [done|]). split; [done|]. split; [|done].
    unfold l', same_kind. by destruct (head _).
Qed.

(** Where an ascending insertion stops. *)
Lemma asc_position_spec fuel m l cmp x pre suf :
  chain_ok m l (pre ++ suf) → (length suf ≤ fuel)%nat →
  returns (asc_position fuel m cmp x (last pre.*1) (first_loc suf None)) (λ '(p, q),
    ∃ s1 s2, suf = s1 ++ s2 ∧ p = last (pre ++ s1).*1 ∧ q = first_loc s2 None ∧
      insert_asc cmp x suf.*2 = s1.*2 ++ x :: s2.*2).
Proof.
  revert pre suf. induction fuel as [|fuel IH]; intros pre suf Hok Hf.
  - destruct suf; [|simpl in Hf; lia]. cbn. exists [], []. by rewrite (app_nil_r pre).
  - destruct suf as [|[k y] suf]; [cbn; exists [], []; by rewrite (app_nil_r pre)|].
    cbn [asc_position first_loc fst]. cbn [load_node].
    rewrite (chain_lookup _ _ _ _ _ _ Hok). cbn [of_opt mbind res_bind ndata next].
    destruct (cmp y x <? 0) eqn:Hc.
    + rewrite <-(last_fst_snoc pre k y).
      eapply returns_mono; [apply IH; [by rewrite <-app_assoc|simpl in Hf; lia]|].
      intros [p q] (s1 & s2 & -> & -> & -> & Hi). exists ((k, y) :: s1), s2.
      split; [done|]. split; [by rewrite <-app_assoc|]. split; [done|].
      cbn. by rewrite Hc, Hi.
    + cbn. exists [], ((k, y) :: suf). rewrite (app_nil_r pre). cbn. by rewrite Hc.
Qed.

Lemma insertNodeAsc_spec m l ls cmp x :
  chain_ok m l ls → compareFunc l = Some cmp →
  returns (insertNodeAsc true m (Some l) x) (λ '(c, m', ol), ∃ l' ls',
    c = 0 ∧ ol = Some l' ∧ chain_ok m' l' ls' ∧ ls'.*2 = insert_asc cmp x ls.*2 ∧
    same_kind l l' ∧ freed m' = freed m).
Proof.
  intros Hok Hcmp. unfold insertNodeAsc. rewrite Hcmp. cbn [negb].
  pose proof (ok_head _ _ _ Hok) as Hh. rewrite Hh, (chain_size _ _ _ Hok).
  apply returns_bind. eapply returns_mono; [by apply (asc_position_spec _ m l cmp x [])|].
  intros [p q] (s1 & s2 & -> & -> & -> & Hi). cbn [app]. unfold new_node.
  set (k := fresh (dom (nodes m))).
  pose proof (ok_tail _ _ _ Hok) as Ht.
  set (l1 := match last s1.*1 with None => set_head (Some k) l | Some _ => l end).
  set (l' := match first_loc s2 None with None => set_tail (Some k) l1 | Some _ => l1 end).
  pose proof (insert_between m l l' s1 s2 x Hok) as Hb. cbv zeta in Hb. fold k in Hb.
  assert (head l' = first_loc (s1 ++ (k, x) :: s2) None) as H1.
  { assert (head l' = head l1) as -> by (unfold l'; by destruct (first_loc s2 None)).
    unfold l1. destruct (last s1.*1) eqn:E.
    - rewrite Hh, !first_loc_app. by destruct s1.
    - apply last_None in E. by destruct s1. }
  assert (tail l' = last (s1 ++ (k, x) :: s2).*1) as H2.
  { unfold l'. destruct s2 as [|[k2 x2] s2]; cbn [first_loc].
    - by rewrite last_fst_snoc.
    - assert (tail l1 = tail l) as -> by (unfold l1; by destruct (last s1.*1)).
      rewrite Ht, !last_fst_app. cbn. by rewrite !last_cons; destruct (last s2.*1). }
  specialize (Hb H1 H2).
  assert (same_kind l l') as Hk.
  { unfold l', l1, same_kind. by destruct (first_loc s2 None), (last s1.*1). }
  apply returns_bind.
  apply returns_mono with (P := λ r, chain_ok r.1 l' (s1 ++ (k, x) :: s2) ∧
    freed r.1 = freed m ∧ r.2 = l1).
  - unfold l1. destruct (last s1.*1) as [kp|].
    + apply returns_bind. eapply returns_mono; [exact Hb|]. intros m' [Ha Hf]. done.
    + cbn in Hb |- *. destruct Hb as [Ha Hf]. done.
  - intros [m' l2] (Ha & Hf & Hl2). cbn in Ha, Hf, Hl2. subst l2. cbn. exists l', (s1 ++ (k, x) :: s2).
    do 2 (split; [done|]). split; [done|]. split; [|done].
    rewrite fmap_app. cbn. by rewrite <-Hi.
Qed.

Lemma delete_nodes_spec fuel m l cmp x all pre suf n :
  chain_ok m l (pre ++ suf) → (length suf ≤ fuel)%nat → 0 ≤ n → n + zlen suf ≤ INT_MAX →
  let r := delete_spec cmp (ctype l =? CHAIN_TYPE_SORTED) all x suf.*2 in
  returns (delete_nodes fuel m l cmp (last pre.*1) (first_loc suf None) x all n)
    (λ '(c, m', l'), ∃ suf', chain_ok m' l' (pre ++ suf') ∧ suf'.*2 = r.1 ∧
      c = n + zlen r.2 ∧ same_kind l l' ∧ freed m' = freed m ++ released l r.2).
Proof.
  revert m l pre suf n. induction fuel as [|fuel IH]; intros m l pre suf n Hok Hf Hn Hmax r.
  - destruct suf; [|simpl in Hf; lia]. cbn. exists []. rewrite Z.add_0_r. unfold released.
    destruct (freeDataFunc l); by rewrite (app_nil_r (freed m)).
  - destruct suf as [|[k y] suf].
    { cbn. exists []. rewrite Z.add_0_r. unfold released.
      destruct (freeDataFunc l); by rewrite (app_nil_r (freed m)). }
    rewrite zlen_cons in Hmax. pose proof (zlen_nonneg suf). cbn [length] in Hf.
    cbn [delete_nodes first_loc fst]. cbn [load_node].
    rewrite (chain_lookup _ _ _ _ _ _ Hok). cbn [of_opt mbind res_bind ndata next].
    unfold r. cbn [fmap list_fmap snd delete_spec].
    destruct (cmp y x =? 0).
    + apply returns_bind. eapply returns_mono; [by apply deleteNodeEx_spec|].
      intros [m1 l1] (Hok1 & Hk1 & Hf1). rewrite cint_ok by int_lia. cbn [mbind res_bind].
      pose proof Hk1 as (Ht1 & Hfr1 & Hc1).
      assert (released l1 = released l) as Hrel by (unfold released; by rewrite Hfr1).
      destruct all; cbn [negb].
      * eapply returns_mono; [apply IH; [done|lia|lia|lia]|].
        intros [[c m2] l2] (suf' & Hok2 & Hs & Hc & Hk2 & Hf2). rewrite Ht1 in Hs, Hc, Hf2.
        destruct (delete_spec cmp _ true x suf.*2) as [keep rem]. cbn [fst snd] in *.
        exists suf'. split; [done|]. split; [done|]. rewrite zlen_cons. split; [lia|]. split.
        { destruct Hk2 as (?&?&?). split; [congruence|]. split; congruence. }
        rewrite Hf2, Hf1, Hrel, <-app_assoc. unfold released. by destruct (freeDataFunc l).
      * cbn. exists suf. split; [done|]. split; [done|]. split; [done|]. done.
    + destruct ((0 <? cmp y x) && (ctype l =? CHAIN_TYPE_SORTED)).
      * cbn. exists ((k, y) :: suf). split; [done|]. split; [done|]. split; [change (zlen []) with 0; lia|].
        split; [done|]. unfold released. destruct (freeDataFunc l); by rewrite app_nil_r.
      * rewrite <-(last_fst_snoc pre k y).
        eapply returns_mono; [apply IH; [by rewrite <-app_assoc|lia|done|lia]|].
        intros [[c m2] l2] (suf' & Hok2 & Hs & Hc & Hk2 & Hf2). rewrite <-app_assoc in Hok2.
        destruct (delete_spec cmp _ all x suf.*2) as [keep rem]. cbn [fst snd] in *.
        exists ((k, y) :: suf'). split; [done|]. split; [cbn; by rewrite Hs|]. done.
Qed.

Lemma deleteNode_spec m l ls cmp x all :
  chain_ok m l ls → compareFunc l = Some cmp → zlen ls ≤ INT_MAX →
  let r := delete_spec cmp (ctype l =? CHAIN_TYPE_SORTED) all x ls.*2 in
  returns (deleteNode m (Some l) x all) (λ '(c, m', ol), ∃ l' ls',
    c = zlen r.2 ∧ ol = Some l' ∧ chain_ok m' l' ls' ∧ ls'.*2 = r.1 ∧ same_kind l l' ∧
    freed m' = freed m ++ released l r.2).
Proof.
  intros Hok Hcmp Hmax r. unfold deleteNode. rewrite Hcmp, (chain_size _ _ _ Hok).
  rewrite (ok_head _ _ _ Hok). apply returns_bind.
  eapply returns_mono; [apply (delete_nodes_spec _ m l cmp x all []); try done; lia|].
  intros [[c m'] l'] (ls' & Hok' & Hs & Hc & Hk & Hf). cbn. exists l', ls'.
  split; [done|]. split; [done|]. done.
Qed.

Lemma chain_pop_head_spec m l ls :
  chain_ok m l ls →
  returns (chain_pop_head m l) (λ '(o, m', l'),
    match ls with
    | [] => o = None ∧ m' = m ∧ l' = l
    | p :: ls' => o = Some p.2 ∧ chain_ok m' l' ls' ∧ same_kind l l' ∧ freed m' = freed m
    end).
Proof.
  intros Hok. unfold chain_pop_head. rewrite (ok_head _ _ _ Hok).
  destruct ls as [|[k y] ls]; [done|]. cbn [first_loc fst load_node].
  rewrite (chain_lookup m l [] _ _ _ Hok). cbn [of_opt mbind res_bind next].
  unfold free_node. cbn [load_node]. rewrite (chain_lookup m l [] _ _ _ Hok). cbn.
  destruct Hok as [Hh Ht [_ Hl] Hnd Hdom]. cbn in Hnd, Hdom. apply NoDup_cons in Hnd as [Hk Hnd].
  split; [done|]. split; [|split; [|done]].
  - split; cbn; [|  |by apply linked_delete|done|].
    + by destruct ls.
    + destruct ls as [|[k' y'] ls]; [done|]. cbn. by rewrite Ht.
    + rewrite dom_delete_L, Hdom. apply set_eq. intros z.
      rewrite elem_of_difference, elem_of_union, !elem_of_singleton, elem_of_list_to_set.
      split; [tauto|]. intros Hz. split; [auto|]. by intros ->.
  - unfold same_kind. by destruct ls.
Qed.

Lemma count_nodes_spec fuel m l pre suf n :
  chain_ok m l (pre ++ suf) → (length suf ≤ fuel)%nat → 0 ≤ n → n + zlen suf ≤ INT_MAX →
  count_nodes fuel m (first_loc suf None) n = Done (n + zlen suf).
Proof.
  revert pre suf n. induction fuel as [|fuel IH]; intros pre suf n Hok Hf Hn Hmax.
  - destruct suf; [|simpl in Hf; lia]. cbn. by rewrite Z.add_0_r.
  - destruct suf as [|[k y] suf]; [cbn; by rewrite Z.add_0_r|].
    rewrite zlen_cons in *. pose proof (zlen_nonneg suf). cbn [length] in Hf.
    cbn [count_nodes first_loc fst]. rewrite cint_ok by int_lia. cbn [mbind res_bind load_node].
    rewrite (chain_lookup _ _ _ _ _ _ Hok). cbn [of_opt mbind res_bind next].
    rewrite (IH (pre ++ [(k, y)])) by (lia || by rewrite <-app_assoc). f_equal. lia.
Qed.

(** Releasing the nodes of [mid], wherever they are linked to. *)
Lemma free_range fuel m l mid q :
  linked (nodes m) mid q → NoDup mid.*1 → (∀ k, q = Some k → k ∉ mid.*1) →
  (length mid ≤ fuel)%nat →
  ∃ m', free_until fuel m l (first_loc mid q) q = Done m' ∧
        (q = None → destroy_nodes fuel m l (first_loc mid q) = Done m') ∧
        freed m' = freed m ++ released l mid.*2 ∧
        (∀ k, nodes m' !! k = if decide (k ∈ mid.*1) then None else nodes m !! k).
Proof.
  revert m mid. induction fuel as [|fuel IH]; intros m mid Hl Hnd Hq Hf.
  - destruct mid; [|simpl in Hf; lia]. exists m. cbn. unfold released.
    destruct q; cbn; rewrite ?decide_True by done;
      (split; [done|]; split; [done|]; split; [destruct (freeDataFunc l); by rewrite app_nil_r|done]).
  - destruct mid as [|[k y] mid].
    { exists m. cbn. unfold released. destruct q; cbn; rewrite ?decide_True by done;
      (split; [done|]; split; [done|]; split; [destruct (freeDataFunc l); by rewrite app_nil_r|done]). }
    cbn in Hl, Hnd. destruct Hl as [Hk Hl]. apply NoDup_cons in Hnd as [Hkm Hnd].
    cbn [free_until destroy_nodes first_loc fst load_node].
    rewrite decide_False by (intros <-; apply (Hq k eq_refl); left).
    rewrite Hk. cbn [of_opt mbind res_bind next].
    rewrite (freeChainNode_ok _ _ _ _ _ Hk). cbn [mbind res_bind].
    destruct (IH (mkMem (delete k (nodes m)) (freed m ++ released l [y])) mid)
      as (m' & Hrun & Hrun' & Hfr & Hlk); cbn [nodes freed].
    + by apply linked_delete.
    + done.
    + intros k' ->. intros Hin. apply (Hq k' eq_refl). by right.
    + cbn in Hf. lia.
    + exists m'. split; [done|]. split; [done|]. split.
      * rewrite Hfr. cbn. rewrite <-app_assoc. unfold released. by destruct (freeDataFunc l).
      * intros k'. rewrite Hlk. cbn. destruct (decide (k' ∈ mid.*1)).
        { by rewrite decide_True by (by right). }
        destruct (decide (k' = k)) as [->|Hne].
        { rewrite lookup_delete_eq, decide_True; [done|left]. }
        rewrite lookup_delete_ne by done. rewrite decide_False; [done|].
        intros [->|]%elem_of_cons; done.
Qed.

Lemma chain_destroy_spec m l ls :
  chain_ok m l ls →
  returns (chain_destroy m (Some l)) (λ '(m', ol), ∃ l',
    ol = Some l' ∧ chain_ok m' l' [] ∧ same_kind l l' ∧ freed m' = freed m ++ released l ls.*2).
Proof.
  intros Hok. unfold chain_destroy. pose proof Hok as [Hh Ht Hl Hnd Hdom]. rewrite Hh.
  destruct ls as [|[k y] ls].
  { cbn. exists l. split; [done|]. split; [done|]. split; [done|].
    unfold released. destruct (freeDataFunc l); by rewrite app_nil_r. }
  cbn [first_loc fst]. rewrite (chain_size _ _ _ Hok).
  destruct (free_range (length ((k, y) :: ls)) m l ((k, y) :: ls) None)
    as (m' & _ & Hrun & Hfr & Hlk); [done|done|done|lia|].
  cbn [first_loc fst] in Hrun. rewrite Hrun by done. cbn [mbind res_bind mret res_ret returns].
  exists (set_tail None (set_head None l)). split; [done|]. split; [|done].
  split; try done; [constructor|]. cbn. apply dom_empty_iff_L. apply map_eq. intros k'. rewrite Hlk, lookup_empty.
  case_decide as Hin; [done|]. apply not_elem_of_dom. rewrite Hdom. by rewrite elem_of_list_to_set.
Qed.

(** The list once the nodes of [mid] are gone from a memory where [pre] was
    already linked to [suf]. *)
Lemma cut_range m1 m' l' pre mid suf :
  NoDup (pre ++ mid ++ suf).*1 → dom (nodes m1) = list_to_set (pre ++ mid ++ suf).*1 →
  linked (nodes m1) (pre ++ suf) None →
  (∀ k, nodes m' !! k = if decide (k ∈ mid.*1) then None else nodes m1 !! k) →
  head l' = first_loc (pre ++ suf) None → tail l' = last (pre ++ suf).*1 →
  chain_ok m' l' (pre ++ suf).
Proof.
  intros Hnd Hdom Hl Hlk Hh Ht. rewrite !fmap_app in Hnd, Hdom.
  apply NoDup_app in Hnd as (Hp & Hpd & Hms). apply NoDup_app in Hms as (Hm & Hmd & Hs).
  assert (∀ k, k ∈ (pre ++ suf).*1 → k ∉ mid.*1) as Hout.
  { intros k Hk Hkm. rewrite fmap_app in Hk. apply elem_of_app in Hk as [Hk|Hk].
    - apply (Hpd k Hk). apply elem_of_app. by left.
    - by apply (Hmd k Hkm). }
  split; [done|done| | |].
  - eapply linked_ext; [|exact Hl]. intros k Hk. rewrite Hlk. by rewrite decide_False by auto.
  - rewrite fmap_app. apply NoDup_app. split; [done|]. split; [|done].
    intros k Hk Hk'. apply (Hpd k Hk). apply elem_of_app. by right.
  - apply set_eq. intros k. rewrite elem_of_dom, Hlk, elem_of_list_to_set.
    case_decide as Hkm.
    + split; [by intros []|]. intros Hk. by destruct (Hout k Hk).
    + rewrite <-elem_of_dom, Hdom, elem_of_list_to_set, fmap_app, !elem_of_app. tauto.
Qed.

Lemma deleteToNodePrevious_spec m l pre mid suf :
  chain_ok m l (pre ++ mid ++ suf) →
  returns (deleteToNodePrevious m l (last pre.*1) (first_loc suf None)) (λ '(m', l'),
    chain_ok m' l' (pre ++ suf) ∧ same_kind l l' ∧ freed m' = freed m ++ released l mid.*2).
Proof.
  intros Hok. pose proof (chain_size _ _ _ Hok) as Hsz.
  destruct Hok as [Hh Ht Hl Hnd Hdom]. pose proof Hl as Hl0.
  apply linked_app in Hl as [Hlp [Hlm Hls]%linked_app].
  pose proof Hnd as Hnd0. rewrite !fmap_app in Hnd0.
  apply NoDup_app in Hnd0 as (Hp & Hpd & Hms). apply NoDup_app in Hms as (Hm & Hmd & Hs).
  assert (∀ k, first_loc suf None = Some k → k ∉ mid.*1) as Hq.
  { intros k Hk Hin. destruct suf as [|p suf]; [done|]. cbn in Hk. simplify_eq.
    apply (Hmd p.1 Hin). left. }
  assert (∀ l0, tail l0 = last (pre ++ mid ++ suf).*1 →
    tail (match first_loc suf None with None => set_tail (last pre.*1) l0 | Some _ => l0 end) =
    last (pre ++ suf).*1) as Htail.
  { intros l0 E. destruct suf as [|[k y] suf]; cbn [first_loc].
    - by rewrite app_nil_r.
    - by rewrite E, app_assoc, !last_fst_app. }
  assert (∀ m1 l1, nodes m1 = nodes m ∨ (∃ kp n, kp ∈ pre.*1 ∧ nodes m1 = <[kp := n]> (nodes m)) →
    freed m1 = freed m → linked (nodes m1) (pre ++ suf) None → same_kind l l1 →
    head l1 = first_loc (pre ++ suf) None → tail l1 = tail l →
    returns (m2 ← free_until (size (nodes m1)) m1 l1 (first_loc mid (first_loc suf None)) (first_loc suf None);
             mret (m2, match first_loc suf None with None => set_tail (last pre.*1) l1 | Some _ => l1 end))
      (λ '(m', l'), chain_ok m' l' (pre ++ suf) ∧ same_kind l l' ∧
         freed m' = freed m ++ released l mid.*2)) as Hgo.
  { intros m1 l1 Hm1 Hf1 Hl1 Hk1 Hh1 Ht1.
    assert (dom (nodes m1) = dom (nodes m)) as Hd1.
    { destruct Hm1 as [->|(kp & n & Hkp & ->)]; [done|]. rewrite dom_insert_L, Hdom.
      apply set_eq. intros z. rewrite elem_of_union, elem_of_singleton. split; [|tauto].
      intros [->|]; [|done]. rewrite elem_of_list_to_set, fmap_app. apply elem_of_app. by left. }
    assert (linked (nodes m1) mid (first_loc suf None)) as Hlm1.
    { destruct Hm1 as [->|(kp & n & Hkp & ->)]; [done|]. apply linked_insert; [|done].
      intros Hin. apply (Hpd kp Hkp). apply elem_of_app. by left. }
    assert (size (nodes m1) = length (pre ++ mid ++ suf)) as Hsz1.
    { rewrite <-size_dom, Hd1, size_dom. done. }
    destruct (free_range (size (nodes m1)) m1 l1 mid (first_loc suf None))
      as (m2 & -> & _ & Hf2 & Hlk); [done|done|done|rewrite Hsz1, !length_app; lia|].
    cbn [mbind res_bind mret res_ret returns]. split; [|split].
    - apply (cut_range m1 m2 _ pre mid suf); try done.
      + by rewrite Hd1.
      + by destruct (first_loc suf None).
      + apply Htail. congruence.
    - unfold same_kind in *. by destruct (first_loc suf None).
    - rewrite Hf2, Hf1. destruct Hk1 as (_ & E & _). unfold released. by rewrite E. }
  unfold deleteToNodePrevious. destruct pre as [|[kp xp] pre _] using rev_ind.
  - cbn [last fmap list_fmap mbind res_bind mret res_ret app] in *.
    rewrite Hh. cbn [app]. replace (first_loc (mid ++ suf) None) with (first_loc mid (first_loc suf None))
      by (by rewrite first_loc_app).
    apply Hgo; try done. by left.
  - rewrite last_fst_snoc in *. cbn [load_node store_next].
    apply linked_app in Hlp as [Hlp [Hkp _]]. cbn [first_loc fst snd] in Hkp. rewrite Hkp.
    cbn [of_opt mbind res_bind ndata next mret res_ret]. rewrite first_loc_app.
    apply Hgo; cbn [nodes freed]; try done.
    + right. exists kp, (mkNode xp (first_loc suf None)). split; [|done].
      rewrite fmap_app. apply elem_of_app. right. left.
    + assert (kp ∉ pre.*1) as Hkpp.
      { rewrite fmap_app in Hp. apply NoDup_app in Hp as (_ & Hd & _). intros Hin.
        apply (Hd kp Hin). left. }
      apply linked_app. split.
      * apply (linked_redirect _ _ _ _ (first_loc (mid ++ suf) None)); [done|].
        apply linked_app. split; [done|]. by split.
      * apply linked_insert; [|done]. intros Hin. apply (Hpd kp).
        { rewrite fmap_app. apply elem_of_app. right. left. }
        apply elem_of_app. by right.
    + rewrite Hh, !first_loc_app. by destruct pre.
Qed.

(** * Sequences of operations *)

Inductive chain_op := AddNode (ok : bool) (x : Z) | DeleteOne (x : Z) | DeleteAll (x : Z)
                    | PopHead | Count | Destroy.

(** An error code or a count, the data popped, or nothing. *)
Inductive answer := Code (c : Z) | Data (o : option Z) | NoAnswer.

Definition run_op (op : chain_op) (m : mem) (l : ChainList) : res (answer * mem * ChainList) :=
  match op with
  | AddNode ok x =>
      '(c, m, ol) ← addNode ok m (Some l) x; l ← of_opt ol; mret (Code c, m, l)
  | DeleteOne x =>
      '(c, m, ol) ← deleteOne m (Some l) x; l ← of_opt ol; mret (Code c, m, l)
  | DeleteAll x =>
      '(c, m, ol) ← deleteAll m (Some l) x; l ← of_opt ol; mret (Code c, m, l)
  | PopHead => '(o, m, l) ← chain_pop_head m l; mret (Data o, m, l)
  | Count => c ← chain_count m l; mret (Code c, m, l)
  | Destroy => '(m, ol) ← chain_destroy m (Some l); l ← of_opt ol; mret (NoAnswer, m, l)
  end.

Fixpoint run_ops (ops : list chain_op) (m : mem) (l : ChainList)
    : res (list answer * mem * ChainList) :=
  match ops with
  | [] => mret ([], m, l)
  | op :: ops' =>
      '(a, m, l) ← run_op op m l;
      '(out, m, l) ← run_ops ops' m l;
      mret (a :: out, m, l)
  end.

(** The same operations on a list: answer, new list, data released. *)
Definition spec_add (t : Z) (cmp : option (Z → Z → Z)) (ok : bool) (x : Z) (xs : list Z)
    : Z * list Z :=
  if t =? CHAIN_TYPE_INSERT then if ok then (0, x :: xs) else (ENOMEM, xs)
  else if t =? CHAIN_TYPE_APPEND then if ok then (0, xs ++ [x]) else (ENOMEM, xs)
  else match cmp with
       | None => (EINVAL, xs)
       | Some f => if ok then (0, insert_asc f x xs) else (ENOMEM, xs)
       end.

Definition spec_delete (t : Z) (cmp : option (Z → Z → Z)) (all : bool) (x : Z) (xs : list Z)
    : answer * list Z * list Z :=
  match cmp with
  | None => (Code (- EINVAL), xs, [])
  | Some f => let r := delete_spec f (t =? CHAIN_TYPE_SORTED) all x xs in
              (Code (zlen r.2), r.1, r.2)
  end.

Definition spec_op (l : ChainList) (op : chain_op) (xs : list Z) : answer * list Z * list Z :=
  match op with
  | AddNode ok x => let r := spec_add (ctype l) (compareFunc l) ok x xs in (Code r.1, r.2, [])
  | DeleteOne x => spec_delete (ctype l) (compareFunc l) false x xs
  | DeleteAll x => spec_delete (ctype l) (compareFunc l) true x xs
  | PopHead => match xs with [] => (Data None, [], []) | x :: xs' => (Data (Some x), xs', []) end
  | Count => (Code (zlen xs), xs, [])
  | Destroy => (NoAnswer, [], xs)
  end.

Fixpoint spec_ops (l : ChainList) (ops : list chain_op) (xs : list Z)
    : list answer * list Z * list Z :=
  match ops with
  | [] => ([], xs, [])
  | op :: ops' =>
      let r := spec_op l op xs in
      let r' := spec_ops l ops' r.1.2 in
      (r.1.1 :: r'.1.1, r'.1.2, r.2 ++ r'.2)
  end.

(** What one operation establishes. *)
Definition op_done l m ls (r : answer * list Z * list Z) (out : answer * mem * ChainList) : Prop :=
  ∃ ls', out.1.1 = r.1.1 ∧ chain_ok out.1.2 out.2 ls' ∧ ls'.*2 = r.1.2 ∧
    same_kind l out.2 ∧ freed out.1.2 = freed m ++ released l r.2.

Lemma zlen_snd ls : zlen ls.*2 = zlen ls.
Proof. apply zlen_fmap. Qed.

Lemma released_nil l (fr : list Z) : fr = fr ++ released l [].
Proof. unfold released. destruct (freeDataFunc l); by rewrite app_nil_r. Qed.

Lemma run_add m l ls ok x :
  chain_ok m l ls → returns (run_op (AddNode ok x) m l) (op_done l m ls (spec_op l (AddNode ok x) ls.*2)).
Proof.
  intros Hok. cbn [run_op spec_op]. unfold addNode, spec_add, op_done.
  pose proof (insertNodePrior_spec m l ls x Hok) as Hp.
  pose proof (appendNode_spec m l ls x Hok) as Ha.
  destruct (ctype l =? CHAIN_TYPE_INSERT); [|destruct (ctype l =? CHAIN_TYPE_APPEND)].
  - destruct ok; [|cbn; exists ls; by rewrite <-released_nil].
    apply returns_bind. eapply returns_mono; [exact Hp|].
    intros [[c m'] ol] (l' & k & -> & -> & Hok' & Hk & Hf). cbn.
    exists ((k, x) :: ls). rewrite <-released_nil. done.
  - destruct ok; [|cbn; exists ls; by rewrite <-released_nil].
    apply returns_bind. eapply returns_mono; [exact Ha|].
    intros [[c m'] ol] (l' & k & -> & -> & Hok' & Hk & Hf). cbn.
    exists (ls ++ [(k, x)]). rewrite <-released_nil, fmap_app. done.
  - destruct (compareFunc l) as [cmp|] eqn:Hcmp.
    + destruct ok; [|unfold insertNodeAsc; rewrite Hcmp; cbn; exists ls; by rewrite <-released_nil].
      apply returns_bind. eapply returns_mono; [by apply (insertNodeAsc_spec m l ls cmp)|].
      intros [[c m'] ol] (l' & ls' & -> & -> & Hok' & Hs & Hk & Hf). cbn.
      exists ls'. by rewrite <-released_nil.
    + unfold insertNodeAsc. rewrite Hcmp. cbn. exists ls. by rewrite <-released_nil.
Qed.

Lemma run_delete m l ls x all :
  chain_ok m l ls → zlen ls ≤ INT_MAX →
  returns ('(c, m, ol) ← deleteNode m (Some l) x all; l ← of_opt ol; mret (Code c, m, l))
    (op_done l m ls (spec_delete (ctype l) (compareFunc l) all x ls.*2)).
Proof.
  intros Hok Hmax. unfold spec_delete, op_done. destruct (compareFunc l) as [cmp|] eqn:Hcmp.
  - apply returns_bind. eapply returns_mono; [by apply (deleteNode_spec m l ls cmp)|].
    intros [[c m'] ol] (l' & ls' & -> & -> & Hok' & Hs & Hk & Hf). cbn. by exists ls'.
  - unfold deleteNode. rewrite Hcmp. cbn. exists ls. by rewrite <-released_nil.
Qed.

Lemma run_op_spec op m l ls :
  chain_ok m l ls → zlen ls ≤ INT_MAX →
  returns (run_op op m l) (op_done l m ls (spec_op l op ls.*2)).
Proof.
  intros Hok Hmax. destruct op.
  - by apply run_add.
  - by apply run_delete.
  - by apply run_delete.
  - cbn [run_op spec_op]. apply returns_bind. eapply returns_mono; [by apply chain_pop_head_spec|].
    intros [[o m'] l'] H. unfold op_done. cbn. destruct ls as [|p ls].
    + destruct H as (-> & -> & ->). exists []. by rewrite <-released_nil.
    + destruct H as (-> & Hok' & Hk & Hf). exists ls. by rewrite <-released_nil.
  - cbn [run_op spec_op]. unfold chain_count.
    rewrite (ok_head _ _ _ Hok), (chain_size _ _ _ Hok).
    rewrite (count_nodes_spec _ m l []) by (done || lia). cbn. exists ls.
    rewrite zlen_snd, <-released_nil. done.
  - cbn [run_op spec_op]. apply returns_bind. eapply returns_mono; [by apply chain_destroy_spec|].
    intros [m' ol] (l' & -> & Hok' & Hk & Hf). cbn. by exists [].
Qed.

Lemma delete_spec_length cmp s all x xs :
  zlen (delete_spec cmp s all x xs).1 ≤ zlen xs.
Proof.
  induction xs as [|y xs IH]; [done|]. cbn. rewrite zlen_cons.
  destruct (cmp y x =? 0).
  - destruct all; [|cbn; lia]. destruct (delete_spec cmp s true x xs). cbn in *. lia.
  - destruct (_ && s); [cbn; rewrite zlen_cons; lia|].
    destruct (delete_spec cmp s all x xs). cbn in *. rewrite zlen_cons. lia.
Qed.

Lemma insert_asc_perm cmp x xs : insert_asc cmp x xs ≡ₚ x :: xs.
Proof.
  induction xs as [|y xs IH]; [done|]. cbn. destruct (cmp y x <? 0); [|done].
  rewrite IH. apply Permutation_swap.
Qed.

Lemma spec_op_length l op xs : zlen (spec_op l op xs).1.2 ≤ zlen xs + 1.
Proof.
  assert (∀ all x, zlen (spec_delete (ctype l) (compareFunc l) all x xs).1.2 ≤ zlen xs) as Hd.
  { intros all x. unfold spec_delete. destruct (compareFunc l); [|done]. apply delete_spec_length. }
  pose proof (zlen_nonneg xs).
  destruct op as [ok x|x|x| | |]; cbn [spec_op].
  - unfold spec_add. assert (∀ f, zlen (insert_asc f x xs) = zlen xs + 1) as Hi.
    { intros f. unfold zlen. rewrite (Permutation_length (insert_asc_perm f x xs)). simpl. lia. }
    repeat case_match; cbn; rewrite ?zlen_cons, ?zlen_app, ?Hi; change (zlen [x]) with 1; lia.
  - specialize (Hd false x). lia.
  - specialize (Hd true x). lia.
  - destruct xs; cbn; rewrite ?zlen_cons; lia.
  - cbn. lia.
  - cbn. change (zlen []) with 0. lia.
Qed.

Lemma spec_op_kind l l' op xs : same_kind l l' → spec_op l' op xs = spec_op l op xs.
Proof. intros (H1 & H2 & H3). destruct op; cbn; rewrite ?H1, ?H3; done. Qed.

Lemma spec_ops_kind l l' ops xs : same_kind l l' → spec_ops l' ops xs = spec_ops l ops xs.
Proof.
  intros Hk. revert xs. induction ops as [|op ops IH]; intros xs; [done|].
  cbn. by rewrite (spec_op_kind l l'), IH.
Qed.

(** * Properties *)

(** C5. Every sequence of additions, deletions, pops, counts
    and destructions on a well-formed chain gives the answers, the list and the
    released data that the same sequence gives on a plain list; no released node
    is ever used, and the nodes allocated stay exactly those of the list. *)
Theorem chain_refines_list ops m l ls :
  chain_ok m l ls → zlen ls + zlen ops ≤ INT_MAX →
  returns (run_ops ops m l) (λ '(out, m', l'), ∃ ls',
    chain_ok m' l' ls' ∧ same_kind l l' ∧
    (out, ls'.*2, freed m') =
    (let r := spec_ops l ops ls.*2 in (r.1.1, r.1.2, freed m ++ released l r.2))).
Proof.
  revert m l ls. induction ops as [|op ops IH]; intros m l ls Hok Hmax; cbn [run_ops spec_ops].
  - cbn. exists ls. by rewrite <-released_nil.
  - rewrite zlen_cons in Hmax. pose proof (zlen_nonneg ops).
    apply returns_bind. eapply returns_mono; [apply (run_op_spec op m l ls); [done|lia]|].
    intros [[a m1] l1] (ls1 & Ha & Hok1 & Hs1 & Hk1 & Hf1). cbn [fst snd] in *. subst a.
    apply returns_bind. eapply returns_mono; [apply (IH m1 l1 ls1 Hok1)|].
    { pose proof (spec_op_length l op ls.*2) as Hl. rewrite <-Hs1, !zlen_snd in Hl. lia. }
    intros [[out m2] l2] (ls2 & Hok2 & Hk2 & Heq). cbn. exists ls2. split; [done|]. split.
    { destruct Hk1 as (?&?&?), Hk2 as (?&?&?). split; [congruence|]. split; congruence. }
    rewrite (spec_ops_kind l l1), Hs1 in Heq by done. cbv zeta in Heq.
    injection Heq as Ho Hls Hf2. rewrite Ho, Hls, Hf2, Hf1, <-app_assoc. cbn [fst snd]. f_equal. f_equal.
    destruct Hk1 as (_ & E & _). unfold released. rewrite E. by destruct (freeDataFunc l).
Qed.

(** In a sorted chain an ascending insertion keeps the
    data sorted and adds exactly the new item, in front of its equals. *)
Theorem insertNodeAsc_sorted m l ls cmp x :
  TotalCompare cmp → chain_ok m l ls → compareFunc l = Some cmp →
  StronglySorted (λ a b, cmp a b ≤ 0) ls.*2 →
  returns (insertNodeAsc true m (Some l) x) (λ '(c, m', ol), ∃ l' ls' before after,
    c = 0 ∧ ol = Some l' ∧ chain_ok m' l' ls' ∧ StronglySorted (λ a b, cmp a b ≤ 0) ls'.*2 ∧
    ls.*2 = before ++ after ∧ ls'.*2 = before ++ x :: after ∧
    Forall (λ y, cmp y x < 0) before ∧ Forall (λ y, cmp x y ≤ 0) after).
Proof.
  intros Hc Hok Hcmp Hsorted.
  eapply returns_mono; [by apply (insertNodeAsc_spec m l ls cmp)|].
  intros [[c m'] ol] (l' & ls' & -> & -> & Hok' & Hs & _).
  assert (∃ before after, ls.*2 = before ++ after ∧ insert_asc cmp x ls.*2 = before ++ x :: after ∧
    Forall (λ y, cmp y x < 0) before ∧ Forall (λ y, cmp x y ≤ 0) after ∧
    StronglySorted (λ a b, cmp a b ≤ 0) (insert_asc cmp x ls.*2)) as (b & a & H1 & H2 & H3 & H4 & H5).
  { clear -Hc Hsorted. induction Hsorted as [|y ys Hys IH Hy].
    - exists [], []. cbn. do 2 (split; [done|]). split; [constructor|]. split; [constructor|].
      repeat constructor.
    - cbn. destruct (cmp y x <? 0) eqn:E; propify.
      + destruct IH as (b & a & -> & Hi & Hb & Ha & Hss). exists (y :: b), a.
        split; [done|]. split; [cbn; by rewrite Hi|]. split; [by constructor|]. split; [done|].
        constructor; [done|]. rewrite Hi. apply Forall_app in Hy as [Hyb Hya].
        apply Forall_app. split; [done|]. constructor; [lia|done].
      + assert (cmp x y ≤ 0) as Hxy by (apply (compare_le_flip cmp); lia).
        assert (Forall (λ z, cmp x z ≤ 0) (y :: ys)) as Hall.
        { constructor; [done|]. eapply Forall_impl; [exact Hy|]. intros z Hz.
          by apply (compare_trans x y z). }
        exists [], (y :: ys). do 2 (split; [done|]). split; [constructor|]. split; [done|].
        constructor; [by constructor|done]. }
  exists l', ls', b, a. rewrite Hs. do 4 (split; [done|]). done.
Qed.

(** On a sorted chain, deleting all items equal to [x] stops
    at the first greater item and still removes exactly the items equal to [x];
    the count returned is their number. *)
Theorem sorted_deleteAll m l ls cmp x :
  TotalCompare cmp → chain_ok m l ls → compareFunc l = Some cmp → zlen ls ≤ INT_MAX →
  StronglySorted (λ a b, cmp a b ≤ 0) ls.*2 →
  returns (deleteAll m (Some l) x) (λ '(c, m', ol), ∃ l' ls',
    ol = Some l' ∧ chain_ok m' l' ls' ∧ c = zlen (List.filter (λ y, cmp y x =? 0) ls.*2) ∧
    ls'.*2 = List.filter (λ y, negb (cmp y x =? 0)) ls.*2).
Proof.
  intros Hc Hok Hcmp Hmax Hsorted.
  eapply returns_mono; [by apply (deleteNode_spec m l ls cmp)|].
  intros [[c m'] ol] (l' & ls' & -> & -> & Hok' & Hs & _).
  exists l', ls'. do 2 (split; [done|]). rewrite Hs. clear -Hc Hsorted.
  generalize (ctype l =? CHAIN_TYPE_SORTED) as sorted. intros sorted.
  enough (delete_spec cmp sorted true x ls.*2 =
    (List.filter (λ y, negb (cmp y x =? 0)) ls.*2, List.filter (λ y, cmp y x =? 0) ls.*2)) as -> by done.
  induction Hsorted as [|y ys Hys IH Hy]; [done|]. cbn. rewrite IH.
  destruct (cmp y x =? 0) eqn:E; cbn; [done|]. propify.
  destruct ((0 <? cmp y x) && sorted) eqn:Eb; [|done]. propify.
  assert (∀ z, z ∈ ys → (cmp z x =? 0) = false) as Hn.
  { intros z Hz. rewrite Forall_forall in Hy. specialize (Hy z Hz). apply Z.eqb_neq. intros Hzx.
    assert (cmp x y < 0) as Hxy by (by apply compare_swap).
    assert (cmp z y < 0) by (apply (compare_le_lt cmp z x y); lia).
    assert (0 < cmp y z) by (by apply compare_swap). lia. }
  clear -Hn. f_equal.
  - f_equal. induction ys as [|z ys IH]; [done|]. cbn. rewrite Hn by left. cbn. f_equal.
    apply IH. intros w Hw. apply Hn. by right.
  - induction ys as [|z ys IH]; [done|]. cbn. rewrite Hn by left. apply IH.
    intros w Hw. apply Hn. by right.
Qed.

(** Cutting from behind one node (or from the head)
    up to another (or to the end) removes exactly the nodes in between, releases
    their data in order, and leaves head and tail right. *)
Theorem deleteToNodePrevious_cuts m l pre mid suf :
  chain_ok m l (pre ++ mid ++ suf) →
  returns (deleteToNodePrevious m l (last pre.*1) (first_loc suf None)) (λ '(m', l'),
    chain_ok m' l' (pre ++ suf) ∧
    freed m' = freed m ++ (if freeDataFunc l then mid.*2 else [])).
Proof.
  intros Hok. eapply returns_mono; [by apply deleteToNodePrevious_spec|].
  intros [m' l'] (Hok' & _ & Hf). done.
Qed.

(** * Witnesses *)

Definition sample_mem : mem := mkMem {[ 1 := mkNode 10 (Some 2); 2 := mkNode 20 None ]} [].
Definition sample_chain : ChainList :=
  mkChain CHAIN_TYPE_SORTED (Some 1) (Some 2) true (Some Z.sub).
Definition sample_list : list (Z * Z) := [(1, 10); (2, 20)].

Lemma sample_chain_ok : chain_ok sample_mem sample_chain sample_list.
Proof.
  split; try done.
  apply NoDup_cons. split; [by rewrite list_elem_of_singleton|]. apply NoDup_singleton.
Qed.

Lemma chain_refines_list_witness :
  returns (run_ops [AddNode true 15; DeleteAll 10; Count; PopHead; Destroy] sample_mem sample_chain)
    (λ '(out, m', l'), ∃ ls', chain_ok m' l' ls' ∧ same_kind sample_chain l' ∧
      (out, ls'.*2, freed m') =
      (let r := spec_ops sample_chain [AddNode true 15; DeleteAll 10; Count; PopHead; Destroy]
                  sample_list.*2 in
       (r.1.1, r.1.2, freed sample_mem ++ released sample_chain r.2))).
Proof. apply (chain_refines_list _ sample_mem sample_chain sample_list); [apply sample_chain_ok|done]. Defined.

Lemma sample_sorted : StronglySorted (λ a b, a - b ≤ 0) sample_list.*2.
Proof. cbn. repeat constructor; lia. Qed.

Lemma insertNodeAsc_sorted_witness :
  returns (insertNodeAsc true sample_mem (Some sample_chain) 15) (λ '(c, m', ol),
    ∃ l' ls' before after,
    c = 0 ∧ ol = Some l' ∧ chain_ok m' l' ls' ∧ StronglySorted (λ a b, a - b ≤ 0) ls'.*2 ∧
    sample_list.*2 = before ++ after ∧ ls'.*2 = before ++ 15 :: after ∧
    Forall (λ y, y - 15 < 0) before ∧ Forall (λ y, 15 - y ≤ 0) after).
Proof.
  apply (insertNodeAsc_sorted sample_mem sample_chain sample_list Z.sub 15);
    [apply Zsub_compare|apply sample_chain_ok|done|apply sample_sorted].
Defined.

Lemma sorted_deleteAll_witness :
  returns (deleteAll sample_mem (Some sample_chain) 20) (λ '(c, m', ol), ∃ l' ls',
    ol = Some l' ∧ chain_ok m' l' ls' ∧ c = zlen (List.filter (λ y, y - 20 =? 0) sample_list.*2) ∧
    ls'.*2 = List.filter (λ y, negb (y - 20 =? 0)) sample_list.*2).
Proof.
  apply (sorted_deleteAll sample_mem sample_chain sample_list Z.sub 20);
    [apply Zsub_compare|apply sample_chain_ok|done|done|apply sample_sorted].
Defined.

Lemma deleteToNodePrevious_cuts_witness :
  returns (deleteToNodePrevious sample_mem sample_chain None (Some 2)) (λ '(m', l'),
    chain_ok m' l' [(2, 20)] ∧ freed m' = [] ++ [10]).
Proof.
  apply (deleteToNodePrevious_cuts sample_mem sample_chain [] [(1, 10)] [(2, 20)] sample_chain_ok).
Defined.
