(* ===== verification/Base64.v ===== *)
(** libs/fastcommon/src/base64.c: base64 encoding and decoding with a
    configurable alphabet and line breaks. Bytes are 0..255; source and
    destination are arrays whose bounds are checked. *)
From S2P Require Import Prelude.

(** * Code *)

Definition BASE64_IGNORE : Z := -1.
Definition BASE64_PAD : Z := -2.

(** [sizeof(context->line_separator)] *)
Definition SEP_SIZE : Z := 16.

Record base64_context := mkContext64 {
  line_separator : list Z; line_sep_len : Z; line_length : Z;
  valueToChar : list Z; charToValue : list Z; pad_ch : Z }.

Definition base64_set_line_length (ctx : base64_context) (length : Z) : base64_context :=
  mkContext64 (line_separator ctx) (line_sep_len ctx) (Z.quot length 4 * 4)
    (valueToChar ctx) (charToValue ctx) (pad_ch ctx).

(** [snprintf(buf, size, "%s", s)] for a string without its terminator: what
    [buf] holds and the length of [s]. *)
Definition snprintf_s (buf s : list Z) : list Z * Z :=
  (zwrite buf 0 (take (Z.to_nat (zlen buf - 1)) s ++ [0]), zlen s).

Definition base64_set_line_separator (ctx : base64_context) (pLineSeparator : list Z)
    : base64_context :=
  let '(sep, n) := snprintf_s (line_separator ctx) pLineSeparator in
  let n := if SEP_SIZE <=? n then SEP_SIZE - 1 else n in
  mkContext64 sep n (line_length ctx) (valueToChar ctx) (charToValue ctx) (pad_ch ctx).

(** Stores [first + i] in slots [off .. off + n]. *)
Definition fill_range (n off first : Z) (t : list Z) : res (list Z) :=
  for_up 0 (n + 1) (λ i t, store t (off + i) (u8 (first + i))) t.

(** The context's previous contents are cleared, so only its size matters. *)
Definition base64_init_ex (nLineLength chPlus chSplash chPad : Z) : res base64_context :=
  sep ← store (replicate 16 0) 0 10;
  sep ← store sep 1 0;
  v2c ← fill_range 25 0 65 (replicate 64 0);
  v2c ← fill_range 25 26 97 v2c;
  v2c ← fill_range 9 52 48 v2c;
  v2c ← store v2c 62 chPlus;
  v2c ← store v2c 63 chSplash;
  c2v ← for_up 0 64 (λ i t, c ← load v2c i; store t c i) (replicate 256 BASE64_IGNORE);
  c2v ← store c2v chPad BASE64_PAD;
  mret (mkContext64 sep 1 nLineLength v2c c2v chPad).

Definition base64_init (nLineLength : Z) : res base64_context := base64_init_ex nLineLength 43 47 61.

Definition base64_get_encode_length (ctx : base64_context) (nSrcLen : Z) : res Z :=
  n ← cint (nSrcLen + 2);
  outputLength ← cint (Z.quot n 3 * 4);
  if negb (line_length ctx =? 0) then
    a ← cint (outputLength + line_length ctx);
    a ← cint (a - 1);
    lines ← cint (Z.quot a (line_length ctx) - 1);
    if 0 <? lines then
      m ← cint (lines * line_sep_len ctx);
      cint (outputLength + m)
    else mret outputLength
  else mret outputLength.

(** [memcpy(dest + pos, src, n)] *)
Definition memcpy (dest : list Z) (pos : Z) (src : list Z) (n : Z) : res (list Z) :=
  for_up 0 n (λ i dest, x ← load src i; store dest (pos + i) x) dest.

(** State of the encoder: dest, pDest - dest, linePos. *)
Abbreviation enc_state := (list Z * Z * Z)%type.

(** One round: three bytes become four characters. *)
Definition encode_group (ctx : base64_context) (b0 b1 b2 : Z) (s : enc_state) : res enc_state :=
  let '(dest, pDest, linePos) := s in
  linePos ← cint (linePos + 4);
  '(dest, pDest, linePos) ←
    (if line_length ctx <? linePos then
       '(dest, pDest) ← (if negb (line_length ctx =? 0) then
                           dest ← memcpy dest pDest (line_separator ctx) (line_sep_len ctx);
                           mret (dest, pDest + line_sep_len ctx)
                         else mret (dest, pDest));
       mret (dest, pDest, 4)
     else mret (dest, pDest, linePos));
  let combined := Z.lor (Z.lor (Z.shiftl b0 16) (Z.shiftl b1 8)) b2 in
  let c3 := Z.land combined 0x3f in
  let combined := Z.shiftr combined 6 in
  let c2 := Z.land combined 0x3f in
  let combined := Z.shiftr combined 6 in
  let c1 := Z.land combined 0x3f in
  let combined := Z.shiftr combined 6 in
  let c0 := Z.land combined 0x3f in
  x ← load (valueToChar ctx) c0; dest ← store dest pDest x;
  x ← load (valueToChar ctx) c1; dest ← store dest (pDest + 1) x;
  x ← load (valueToChar ctx) c2; dest ← store dest (pDest + 2) x;
  x ← load (valueToChar ctx) c3; dest ← store dest (pDest + 3) x;
  mret (dest, pDest + 4, linePos).

(** The inner loop over a source of [n] bytes, three at a time. *)
Definition encode_source (ctx : base64_context) (src : list Z) (n : Z) (s : enc_state)
    : res enc_state :=
  for_loop (Z.to_nat ((n + 2) / 3)) 3 0 (λ i s,
    b0 ← load src i; b1 ← load src (i + 1); b2 ← load src (i + 2);
    encode_group ctx b0 b1 b2 s) s.

(** The bytes after the last whole group, padded with zeros. *)
Definition leftover_bytes (src : list Z) (nSrcLen leftover : Z) : res (list Z) :=
  if leftover =? 1 then x ← load src (nSrcLen - 1); mret [x; 0; 0]
  else if leftover =? 2 then
    x ← load src (nSrcLen - 2); y ← load src (nSrcLen - 1); mret [x; y; 0]
  else mret [0; 0; 0].

(** The result is the destination and [*dest_len]. *)
Definition base64_encode_ex (ctx : base64_context) (src : list Z) (nSrcLen : Z) (dest : list Z)
    (bPad : bool) : res (list Z * Z) :=
  if nSrcLen <=? 0 then dest ← store dest 0 0; mret (dest, 0)
  else
    let len0 := Z.quot nSrcLen 3 * 3 in
    let leftover := nSrcLen - len0 in
    szPad ← leftover_bytes src nSrcLen leftover;
    s ← encode_source ctx src len0 (dest, 0, 0);
    s ← (if (leftover =? 1) || (leftover =? 2) then encode_source ctx szPad 3 s else mret s);
    let '(dest, pDest, _) := s in
    dest ← store dest pDest 0;
    if leftover =? 1 then
      if bPad then
        dest ← store dest (pDest - 1) (pad_ch ctx);
        dest ← store dest (pDest - 2) (pad_ch ctx);
        mret (dest, pDest)
      else dest ← store dest (pDest - 2) 0; mret (dest, pDest - 2)
    else if leftover =? 2 then
      if bPad then dest ← store dest (pDest - 1) (pad_ch ctx); mret (dest, pDest)
      else dest ← store dest (pDest - 1) 0; mret (dest, pDest - 1)
    else mret (dest, pDest).

(** State of the decoder. *)
Record dec_state := mkDec { dec_dest : list Z; dec_pos : Z; cycle : Z; combined : Z; dummies : Z }.

Definition decode_char (ctx : base64_context) (ch : Z) (s : dec_state) : res dec_state :=
  value ← load (charToValue ctx) ch;
  if value =? BASE64_IGNORE then mret s
  else
    '(value, dum) ← (if value =? BASE64_PAD then d ← cint (dummies s + 1); mret (0, d)
                     else mret (value, dummies s));
    if cycle s =? 0 then mret (mkDec (dec_dest s) (dec_pos s) 1 value dum)
    else
      let comb := Z.lor (Z.shiftl (combined s) 6) value in
      if cycle s =? 1 then mret (mkDec (dec_dest s) (dec_pos s) 2 comb dum)
      else if cycle s =? 2 then mret (mkDec (dec_dest s) (dec_pos s) 3 comb dum)
      else
        dest ← store (dec_dest s) (dec_pos s) (u8 (Z.shiftr comb 16));
        dest ← store dest (dec_pos s + 1) (u8 (Z.shiftr (Z.land comb 0xFF00) 8));
        dest ← store dest (dec_pos s + 2) (u8 (Z.land comb 0xFF));
        mret (mkDec dest (dec_pos s + 3) 0 comb dum).

Definition base64_decode (ctx : base64_context) (src : list Z) (nSrcLen : Z) (dest : list Z)
    : res (list Z * Z) :=
  s ← for_up 0 nSrcLen (λ i s, ch ← load src i; decode_char ctx ch s) (mkDec dest 0 0 0 0);
  if negb (cycle s =? 0) then dest ← store (dec_dest s) 0 0; mret (dest, 0)
  else
    let dest_len := dec_pos s - dummies s in
    dest ← store (dec_dest s) dest_len 0;
    mret (dest, dest_len).

(** [malloc_ok]: whether the buffer for a long input can be allocated. *)
Definition base64_decode_auto (malloc_ok : bool) (ctx : base64_context) (src : list Z)
    (nSrcLen : Z) (dest : list Z) : res (list Z * Z) :=
  let nRemain := Z.rem nSrcLen 4 in
  if nRemain =? 0 then base64_decode ctx src nSrcLen dest
  else
    let nPadLen := 4 - nRemain in
    nNewLen ← cint (nSrcLen + nPadLen);
    if (nNewLen <=? 256) || malloc_ok then
      if zlen src <? nSrcLen then Undef
      else
        base64_decode ctx (take (Z.to_nat nSrcLen) src ++ replicate (Z.to_nat nPadLen) (u8 (pad_ch ctx)))
          nNewLen dest
    else dest ← store dest 0 0; mret (dest, 0).


(** * Specification *)

Definition is_byte8 (b : Z) : Prop := 0 ≤ b < 256.

(** The letter of a six-bit value. *)
Definition chr (ctx : base64_context) (v : Z) : Z := default 0 (zget (valueToChar ctx) v).

Definition pack (g : Z * Z * Z) : Z := let '(b0, b1, b2) := g in b0 * 65536 + b1 * 256 + b2.

(** The four six-bit digits of a 24-bit number. *)
Definition sixes (w : Z) : list Z :=
  [w / 262144 mod 64; w / 4096 mod 64; w / 64 mod 64; w mod 64].

Definition enc4 (ctx : base64_context) (g : Z * Z * Z) : list Z := chr ctx <$> sixes (pack g).

Definition separator (ctx : base64_context) : list Z :=
  take (Z.to_nat (line_sep_len ctx)) (line_separator ctx).

(** Whether a group starts a new line when the current one holds [p]
    characters, the separator it is preceded by, and the new position. *)
Definition breaks (ctx : base64_context) (p : Z) : bool :=
  (line_length ctx <? p + 4) && negb (line_length ctx =? 0).
Definition next_pos (ctx : base64_context) (p : Z) : Z :=
  if line_length ctx <? p + 4 then 4 else p + 4.
Definition break_text (ctx : base64_context) (p : Z) : list Z :=
  if breaks ctx p then separator ctx else [].

(** The encoding of whole groups from position [p] of a line. *)
Fixpoint enc_text (ctx : base64_context) (p : Z) (gs : list (Z * Z * Z)) : list Z :=
  match gs with
  | [] => []
  | g :: gs => break_text ctx p ++ enc4 ctx g ++ enc_text ctx (next_pos ctx p) gs
  end.

Fixpoint end_pos (ctx : base64_context) (p : Z) (gs : list (Z * Z * Z)) : Z :=
  match gs with [] => p | _ :: gs => end_pos ctx (next_pos ctx p) gs end.

Fixpoint ungroup (gs : list (Z * Z * Z)) : list Z :=
  match gs with [] => [] | (b0, b1, b2) :: gs => b0 :: b1 :: b2 :: ungroup gs end.

Definition byte3 (g : Z * Z * Z) : Prop :=
  let '(b0, b1, b2) := g in is_byte8 b0 ∧ is_byte8 b1 ∧ is_byte8 b2.

(** A context that can be decoded unambiguously. *)
Record context_ok (ctx : base64_context) : Prop := {
  ok_v2c : zlen (valueToChar ctx) = 64;
  ok_c2v : zlen (charToValue ctx) = 256;
  ok_chars v : 0 ≤ v < 64 → zget (charToValue ctx) (chr ctx v) = Some v;
  ok_pad : zget (charToValue ctx) (pad_ch ctx) = Some BASE64_PAD;
  ok_sep : 0 ≤ line_sep_len ctx ≤ zlen (line_separator ctx);
  ok_sep_chars : Forall (λ c, zget (charToValue ctx) c = Some BASE64_IGNORE) (separator ctx);
  ok_line : 0 ≤ line_length ctx ≤ INT_MAX - 4;
  ok_line4 : line_length ctx mod 4 = 0 }.

(** * The encoder *)

Lemma enc_text_app ctx p gs gs' :
  enc_text ctx p (gs ++ gs') = enc_text ctx p gs ++ enc_text ctx (end_pos ctx p gs) gs'.
Proof.
  revert p. induction gs as [|g gs IH]; intros p; [done|]. cbn [enc_text end_pos app].
  by rewrite IH, <-!app_assoc.
Qed.

Lemma end_pos_app ctx p gs gs' :
  end_pos ctx p (gs ++ gs') = end_pos ctx (end_pos ctx p gs) gs'.
Proof. revert p. induction gs as [|g gs IH]; intros p; [done|]. apply IH. Qed.

Lemma zlen_enc4 ctx g : zlen (enc4 ctx g) = 4.
Proof. done. Qed.

Lemma zlen_ungroup gs : zlen (ungroup gs) = 3 * zlen gs.
Proof.
  induction gs as [|[[b0 b1] b2] gs IH]; [done|]. cbn [ungroup]. rewrite !zlen_cons. lia.
Qed.

Lemma memcpy_zwrite (dest src : list Z) pos n :
  0 ≤ n ≤ zlen src → 0 ≤ pos → pos + n ≤ zlen dest →
  memcpy dest pos src n = Done (zwrite dest pos (take (Z.to_nat n) src)).
Proof.
  intros Hn Hpos Hfit. unfold memcpy. apply returns_eq. eapply returns_mono.
  - apply for_up_inv with (P := λ k d, d = zwrite dest pos (take (Z.to_nat k) src)).
    + lia.
    + change (Z.to_nat 0) with O. by rewrite take_0, zwrite_nil.
    + intros k d Hk ->. destruct (zget_is_Some src k) as [x Hx]; [lia|].
      rewrite (load_ok _ _ _ Hx). cbn [mbind res_bind].
      assert (zlen (take (Z.to_nat k) src) = k) as Hl by (apply zlen_take; lia).
      replace (pos + k) with (pos + zlen (take (Z.to_nat k) src)) by lia.
      rewrite store_zwrite by lia. cbn. f_equal.
      rewrite zget_of_lookup in Hx by lia.
      replace (Z.to_nat (k + 1)) with (S (Z.to_nat k)) by lia. by rewrite (take_S_r _ _ x).
  - by intros d ->.
Qed.

Lemma sixes_bounds w : Forall (λ v, 0 ≤ v < 64) (sixes w).
Proof. unfold sixes. repeat constructor; lia. Qed.

(** The shifts and masks of a round compute the digits of the packed bytes. *)
Lemma round_digits w :
  let w1 := Z.shiftr w 6 in let w2 := Z.shiftr w1 6 in let w3 := Z.shiftr w2 6 in
  [Z.land w3 63; Z.land w2 63; Z.land w1 63; Z.land w 63] = sixes w.
Proof.
  cbn zeta. change 63 with (2 ^ 6 - 1). rewrite !land_ones_mod by lia.
  rewrite !Z.shiftr_div_pow2 by lia. unfold sixes. change (2 ^ 6) with 64.
  rewrite !Z.div_div by lia. done.
Qed.

Section encoder.
Context (ctx : base64_context) (OK : context_ok ctx).

Lemma zlen_separator : zlen (separator ctx) = line_sep_len ctx.
Proof using OK. destruct OK. by apply zlen_take. Qed.

Lemma zlen_break_text p :
  zlen (break_text ctx p) = if breaks ctx p then line_sep_len ctx else 0.
Proof using OK. unfold break_text. case_if; [apply zlen_separator|done]. Qed.

Lemma load_chr v : 0 ≤ v < 64 → load (valueToChar ctx) v = Done (chr ctx v).
Proof using OK.
  intros Hv. destruct (zget_is_Some (valueToChar ctx) v) as [c Hc].
  { destruct OK. lia. }
  unfold chr. rewrite Hc. by apply load_ok.
Qed.

(** Four characters stored one after the other. *)
Lemma store4 {B} dest t a b c d (k : list Z → res B) :
  zlen t + 4 ≤ zlen dest →
  (dest1 ← store (zwrite dest 0 t) (zlen t) a;
   dest2 ← store dest1 (zlen t + 1) b;
   dest3 ← store dest2 (zlen t + 2) c;
   dest4 ← store dest3 (zlen t + 3) d; k dest4) = k (zwrite dest 0 (t ++ [a; b; c; d])).
Proof.
  intros Hfit. pose proof (zlen_nonneg t).
  rewrite (store_zwrite dest 0 t) by lia. cbn [mbind res_bind].
  replace (zlen t + 1) with (0 + zlen (t ++ [a])) by zlen_lia.
  rewrite store_zwrite by zlen_lia. cbn [mbind res_bind].
  replace (zlen t + 2) with (0 + zlen ((t ++ [a]) ++ [b])) by zlen_lia.
  rewrite store_zwrite by zlen_lia. cbn [mbind res_bind].
  replace (zlen t + 3) with (0 + zlen (((t ++ [a]) ++ [b]) ++ [c])) by zlen_lia.
  rewrite store_zwrite by zlen_lia. cbn [mbind res_bind]. by rewrite <-!app_assoc.
Qed.

Lemma encode_group_spec dest t p b0 b1 b2 :
  byte3 (b0, b1, b2) → 0 ≤ p ≤ INT_MAX - 4 →
  zlen t + zlen (break_text ctx p) + 4 ≤ zlen dest →
  encode_group ctx b0 b1 b2 (zwrite dest 0 t, zlen t, p) =
  Done (zwrite dest 0 (t ++ break_text ctx p ++ enc4 ctx (b0, b1, b2)),
        zlen (t ++ break_text ctx p ++ enc4 ctx (b0, b1, b2)), next_pos ctx p).
Proof using OK.
  intros (Hb0 & Hb1 & Hb2) Hp Hfit. pose proof (zlen_nonneg t).
  pose proof (zlen_nonneg (break_text ctx p)). unfold encode_group.
  rewrite cint_ok by int_lia. cbn [mbind res_bind].
  match goal with |- (?m ≫= _) = _ => assert (m = Done (zwrite dest 0 (t ++ break_text ctx p),
      zlen (t ++ break_text ctx p), next_pos ctx p)) as -> end.
  { unfold next_pos. unfold break_text, breaks in *.
    destruct (line_length ctx <? p + 4) eqn:Hbr; [|cbn [andb] in *; by rewrite app_nil_r].
    destruct (line_length ctx =? 0) eqn:Hz; cbn [negb andb] in *; [by rewrite app_nil_r|].
    pose proof zlen_separator. rewrite memcpy_zwrite; [|apply OK|lia|rewrite zlen_zwrite; lia].
    cbn [mbind res_bind mret res_ret]. rewrite (zwrite_app dest 0 t) by (fold (separator ctx); lia).
    fold (separator ctx). rewrite zlen_app. repeat f_equal. lia. }
  cbn [mbind res_bind]. rewrite pack3 by done.
  change (b0 * 65536 + b1 * 256 + b2) with (pack (b0, b1, b2)).
  pose proof (round_digits (pack (b0, b1, b2))) as Hd. cbn zeta in Hd.
  pose proof (sixes_bounds (pack (b0, b1, b2))) as Hbd.
  change 0x3f with 63. unfold enc4. rewrite <-Hd in *.
  rewrite !Forall_cons in Hbd. destruct Hbd as (Hd3 & Hd2 & Hd1 & Hd0 & _).
  rewrite !load_chr by done. cbn [mbind res_bind].
  rewrite store4 by zlen_lia. cbn [mret res_ret fmap list_fmap].
  rewrite <-app_assoc. repeat f_equal. zlen_lia.
Qed.

Lemma next_pos_bounds p : 0 ≤ p ≤ Z.max 4 (line_length ctx) → 0 ≤ next_pos ctx p ≤ Z.max 4 (line_length ctx).
Proof. unfold next_pos. intros. case_if; lia. Qed.

Lemma encode_source_spec dest gs rest t p :
  Forall byte3 gs → 0 ≤ p ≤ Z.max 4 (line_length ctx) →
  zlen t + zlen (enc_text ctx p gs) ≤ zlen dest →
  encode_source ctx (ungroup gs ++ rest) (3 * zlen gs) (zwrite dest 0 t, zlen t, p) =
  Done (zwrite dest 0 (t ++ enc_text ctx p gs), zlen (t ++ enc_text ctx p gs), end_pos ctx p gs).
Proof using OK.
  intros Hgs Hp Hfit. unfold encode_source.
  replace (Z.to_nat ((3 * zlen gs + 2) / 3)) with (length gs) by (unfold zlen; lia).
  set (src := ungroup gs ++ rest).
  enough (∀ gs pre t p, src = pre ++ ungroup gs ++ rest → Forall byte3 gs →
    0 ≤ p ≤ Z.max 4 (line_length ctx) → zlen t + zlen (enc_text ctx p gs) ≤ zlen dest →
    for_loop (length gs) 3 (zlen pre) (λ i s, b0 ← load src i; b1 ← load src (i + 1);
      b2 ← load src (i + 2); encode_group ctx b0 b1 b2 s) (zwrite dest 0 t, zlen t, p) =
    Done (zwrite dest 0 (t ++ enc_text ctx p gs), zlen (t ++ enc_text ctx p gs), end_pos ctx p gs))
    as H by (by apply (H gs [])).
  clearbody src. clear gs Hgs Hp Hfit t p. intros gs.
  induction gs as [|[[b0 b1] b2] gs IH]; intros pre t p E Hgs Hp Hfit.
  { cbn. by rewrite app_nil_r. }
  apply Forall_cons in Hgs as [Hg Hgs]. cbn [for_loop length enc_text end_pos ungroup app] in *.
  pose proof (zlen_nonneg (enc_text ctx (next_pos ctx p) gs)).
  rewrite !zlen_app, zlen_enc4 in Hfit.
  assert (load src (zlen pre) = Done b0) as -> by (rewrite E; apply load_app_mid).
  cbn [mbind res_bind].
  assert (load src (zlen pre + 1) = Done b1) as ->.
  { assert (src = (pre ++ [b0]) ++ b1 :: b2 :: ungroup gs ++ rest) as -> by (by rewrite E, <-app_assoc).
    replace (zlen pre + 1) with (zlen (pre ++ [b0])) by zlen_lia. apply load_app_mid. }
  cbn [mbind res_bind].
  assert (load src (zlen pre + 2) = Done b2) as ->.
  { assert (src = (pre ++ [b0; b1]) ++ b2 :: ungroup gs ++ rest) as -> by (by rewrite E, <-app_assoc).
    replace (zlen pre + 2) with (zlen (pre ++ [b0; b1])) by zlen_lia. apply load_app_mid. }
  cbn [mbind res_bind]. rewrite encode_group_spec; [|done|destruct OK; int_lia|lia].
  cbn [mbind res_bind].
  replace (zlen pre + 3) with (zlen (pre ++ [b0; b1; b2])) by zlen_lia.
  rewrite IH.
  - by rewrite <-!app_assoc.
  - by rewrite E, <-app_assoc.
  - done.
  - by apply next_pos_bounds.
  - rewrite !zlen_app, zlen_enc4. lia.
Qed.
End encoder.

(** ** The whole text *)

(** A source as its whole groups and what is left. *)
Fixpoint regroup (src : list Z) : list (Z * Z * Z) * list Z :=
  match src with
  | b0 :: b1 :: b2 :: r => let '(gs, rest) := regroup r in ((b0, b1, b2) :: gs, rest)
  | rest => ([], rest)
  end.

(** The last, partial group, completed with zeros. *)
Definition zero_padded (rest : list Z) : list (Z * Z * Z) :=
  match rest with
  | [] => []
  | [x] => [(x, 0, 0)]
  | x :: y :: _ => [(x, y, 0)]
  end.

Definition full_groups (src : list Z) : list (Z * Z * Z) :=
  (regroup src).1 ++ zero_padded (regroup src).2.

(** Its letters: the digits that only hold padding bits are replaced. *)
Definition tail_text (ctx : base64_context) (p : Z) (rest : list Z) (bPad : bool) : list Z :=
  match rest with
  | [] => []
  | [x] => break_text ctx p ++ take 2 (enc4 ctx (x, 0, 0)) ++
           (if bPad then [pad_ch ctx; pad_ch ctx] else [])
  | x :: y :: _ => break_text ctx p ++ take 3 (enc4 ctx (x, y, 0)) ++
           (if bPad then [pad_ch ctx] else [])
  end.

Definition base64_text (ctx : base64_context) (src : list Z) (bPad : bool) : list Z :=
  let '(gs, rest) := regroup src in
  enc_text ctx 0 gs ++ tail_text ctx (end_pos ctx 0 gs) rest bPad.

(** Induction three cells at a time. *)
Lemma triple_ind (P : list Z → Prop) :
  P [] → (∀ x, P [x]) → (∀ x y, P [x; y]) →
  (∀ x y z l, P l → P (x :: y :: z :: l)) → ∀ l, P l.
Proof.
  intros H0 H1 H2 H3. fix IH 1. intros [|x [|y [|z l]]]; [done|done|done|]. apply H3, IH.
Qed.

Lemma regroup_spec src :
  src = ungroup (regroup src).1 ++ (regroup src).2 ∧ zlen (regroup src).2 < 3.
Proof.
  induction src as [|x|x y|x y z l [IH1 IH2]] using triple_ind; try done.
  cbn [regroup]. destruct (regroup l) as [gs rest]. cbn [fst snd ungroup app] in *.
  by rewrite <-IH1.
Qed.

Lemma regroup_byte3 src : Forall is_byte8 src → Forall byte3 (regroup src).1.
Proof.
  induction src as [|x|x y|x y z l IH] using triple_ind; try (by constructor).
  rewrite !Forall_cons. intros (Hx & Hy & Hz & Hl). cbn [regroup].
  specialize (IH Hl). destruct (regroup l). by constructor.
Qed.

Lemma zlen_full_groups src : zlen (full_groups src) = (zlen src + 2) / 3.
Proof.
  unfold full_groups. induction src as [|x|x y|x y z l IH] using triple_ind; try done.
  cbn [regroup]. destruct (regroup l). cbn [fst snd app] in *. rewrite !zlen_cons. lia.
Qed.

(** ** Lengths *)

(** [m] groups are already on a line of [q] groups: adding [k >= 1] groups
    breaks the line [(m + k - 1) / q] times. *)
Lemma zlen_enc_text ctx m q gs :
  context_ok ctx → line_length ctx = 4 * q → 0 < q → 0 ≤ m ≤ q → 0 < zlen gs →
  zlen (enc_text ctx (4 * m) gs) = 4 * zlen gs + line_sep_len ctx * ((m + zlen gs - 1) / q).
Proof.
  intros OK HL Hq. revert m. induction gs as [|g gs IH]; intros m Hm Hgs; [done|].
  cbn [enc_text]. rewrite !zlen_app, zlen_enc4, zlen_cons, zlen_break_text by done.
  unfold breaks, next_pos. rewrite HL. rewrite (proj2 (Z.eqb_neq (4 * q) 0)) by lia.
  rewrite andb_true_r.
  destruct (decide (gs = [])) as [->|Hne].
  { cbn [enc_text]. change (zlen (@nil Z)) with 0. change (zlen (@nil (Z * Z * Z))) with 0.
    replace (m + (0 + 1) - 1) with m by lia.
    destruct (4 * q <? 4 * m + 4) eqn:E; propify.
    - replace m with q by lia. rewrite Z.div_same by lia. lia.
    - rewrite Z.div_small by lia. lia. }
  assert (0 < zlen gs) as Hpos by (destruct gs; [done|rewrite zlen_cons; pose proof (zlen_nonneg gs); lia]).
  destruct (4 * q <? 4 * m + 4) eqn:E; propify.
  - replace 4 with (4 * 1) at 2 by lia. rewrite IH by lia.
    replace (m + (zlen gs + 1) - 1) with (1 + zlen gs - 1 + 1 * q) by lia.
    rewrite Z.div_add by lia. lia.
  - replace (4 * m + 4) with (4 * (m + 1)) by lia. rewrite IH by lia.
    replace (m + 1 + zlen gs - 1) with (m + (zlen gs + 1) - 1) by lia. lia.
Qed.

Lemma zlen_enc_text_unbroken ctx p gs :
  line_length ctx = 0 → zlen (enc_text ctx p gs) = 4 * zlen gs.
Proof.
  intros HL. revert p. induction gs as [|g gs IH]; intros p; [done|].
  cbn [enc_text]. rewrite !zlen_app, zlen_enc4, IH, zlen_cons.
  unfold break_text, breaks. rewrite HL, andb_false_r, zlen_nil. lia.
Qed.

Lemma zlen_base64_text ctx src :
  context_ok ctx → zlen (base64_text ctx src true) = zlen (enc_text ctx 0 (full_groups src)).
Proof.
  intros OK. unfold base64_text, full_groups. destruct (regroup src) as [gs rest].
  cbn [fst snd]. rewrite enc_text_app, !zlen_app. f_equal.
  destruct rest as [|x [|y r]]; cbn [tail_text zero_padded enc_text]; [done|..];
    by rewrite !zlen_app.
Qed.

Lemma base64_text_nopad_le ctx src : zlen (base64_text ctx src false) ≤ zlen (base64_text ctx src true).
Proof.
  unfold base64_text. destruct (regroup src) as [gs rest]. rewrite !zlen_app.
  destruct rest as [|x [|y r]]; cbn [tail_text]; rewrite ?zlen_app, ?zlen_cons, ?zlen_nil; lia.
Qed.

(** The length computed for the caller is the length of the text. *)
Lemma encode_length_text ctx src e :
  context_ok ctx → src ≠ [] → base64_get_encode_length ctx (zlen src) = Done e →
  e = zlen (base64_text ctx src true).
Proof.
  intros OK Hne He. rewrite zlen_base64_text by done.
  pose proof (zlen_full_groups src) as HK. pose proof (zlen_nonneg src).
  assert (0 < zlen (full_groups src)) as Hpos.
  { destruct src; [done|]. rewrite zlen_cons in HK. pose proof (zlen_nonneg src). lia. }
  pose proof (ok_line _ OK). pose proof (ok_line4 _ OK). pose proof (ok_sep _ OK).
  unfold base64_get_encode_length in He.
  apply bind_done in He as (a & [-> _]%cint_inv & He).
  rewrite Z.quot_div_nonneg in He by lia. rewrite <-HK in He.
  apply bind_done in He as (b & [-> _]%cint_inv & He).
  destruct (line_length ctx =? 0) eqn:HL; cbn [negb] in He; propify.
  { rewrite zlen_enc_text_unbroken by done. injection He as <-. lia. }
  apply bind_done in He as (a & [-> _]%cint_inv & He).
  apply bind_done in He as (b & [-> _]%cint_inv & He).
  apply bind_done in He as (lines & [-> _]%cint_inv & He).
  set (K := zlen (full_groups src)) in *. set (q := line_length ctx / 4).
  assert (line_length ctx = 4 * q) as HLq by (subst q; lia).
  assert (0 < q) as Hq by lia.
  replace 0 with (4 * 0) at 1 by lia. rewrite (zlen_enc_text ctx 0 q) by (done || lia).
  fold K. assert ((K * 4 + line_length ctx - 1) ÷ line_length ctx - 1 = (0 + K - 1) / q) as Hlines.
  { rewrite Z.quot_div_nonneg, HLq by lia.
    replace (K * 4 + 4 * q - 1) with (4 * K - 1 + 1 * (4 * q)) by lia.
    rewrite Z.div_add by lia. rewrite <-Z.div_div by lia.
    replace ((4 * K - 1) / 4) with (0 + K - 1) by lia. lia. }
  rewrite Hlines in He. assert (0 ≤ (0 + K - 1) / q) as HD by (apply Z.div_pos; lia).
  clear Hlines. revert He HD. generalize ((0 + K - 1) / q). intros D He HD.
  destruct (0 <? D) eqn:Hlt; propify.
  - apply bind_done in He as (m & [-> _]%cint_inv & He). apply cint_inv in He as [-> _]. lia.
  - injection He as <-. replace D with 0 by lia. lia.
Qed.

(** ** The encoder writes the text *)

Lemma leftover_bytes_spec gs rest more n :
  zlen rest < 3 → n = 3 * zlen gs + zlen rest →
  leftover_bytes (ungroup gs ++ rest ++ more) n (zlen rest) =
  Done (match rest with [x] => [x; 0; 0] | [x; y] => [x; y; 0] | _ => [0; 0; 0] end).
Proof.
  intros Hr ->. rewrite <-zlen_ungroup. unfold leftover_bytes.
  destruct rest as [|x [|y [|z r]]]; [done|..].
  - change (zlen [x]) with 1. cbn [app Z.eqb Pos.eqb].
    replace (zlen (ungroup gs) + 1 - 1) with (zlen (ungroup gs)) by lia.
    by rewrite load_app_mid.
  - change (zlen [x; y]) with 2. cbn [app Z.eqb Pos.eqb].
    replace (zlen (ungroup gs) + 2 - 2) with (zlen (ungroup gs)) by lia.
    rewrite load_app_mid. cbn [mbind res_bind].
    replace (zlen (ungroup gs) + 2 - 1) with (zlen (ungroup gs ++ [x])) by zlen_lia.
    change (ungroup gs ++ x :: y :: more) with (ungroup gs ++ [x] ++ y :: more).
    by rewrite app_assoc, load_app_mid.
  - rewrite !zlen_cons in Hr. pose proof (zlen_nonneg r). lia.
Qed.

Lemma end_pos_bounds ctx p gs :
  0 ≤ p ≤ Z.max 4 (line_length ctx) → 0 ≤ end_pos ctx p gs ≤ Z.max 4 (line_length ctx).
Proof.
  revert p. induction gs as [|g gs IH]; intros p Hp; [done|]. by apply IH, next_pos_bounds.
Qed.

(** Both rounds of the outer loop. *)
Lemma encode_rounds ctx src more dest :
  context_ok ctx → Forall is_byte8 src → src ≠ [] →
  zlen (enc_text ctx 0 (full_groups src)) ≤ zlen dest →
  ∃ len0 leftover szPad s,
  Z.quot (zlen src) 3 * 3 = len0 ∧ zlen src - len0 = leftover ∧ leftover = zlen (regroup src).2 ∧
  leftover_bytes (src ++ more) (zlen src) leftover = Done szPad ∧
  encode_source ctx (src ++ more) len0 (dest, 0, 0) = Done s ∧
  (if (leftover =? 1) || (leftover =? 2) then encode_source ctx szPad 3 s else mret s) =
  Done (zwrite dest 0 (enc_text ctx 0 (full_groups src)), zlen (enc_text ctx 0 (full_groups src)),
    end_pos ctx 0 (full_groups src)).
Proof.
  intros OK Hb Hne Hfit. pose proof (zlen_full_groups src) as HK.
  destruct (regroup_spec src) as [Es Hr]. pose proof (regroup_byte3 src Hb) as Hgs.
  unfold full_groups in *. destruct (regroup src) as [gs rest]. cbn [fst snd] in *.
  assert (zlen src = 3 * zlen gs + zlen rest) as Hn by (by rewrite Es, zlen_app, zlen_ungroup).
  rewrite Es in Hb. apply Forall_app in Hb as [_ Hb].
  pose proof (zlen_nonneg gs). pose proof (zlen_nonneg rest).
  exists (3 * zlen gs), (zlen rest). do 2 eexists.
  split_and!; [rewrite Hn, Z.quot_div_nonneg by lia; lia|lia|done|..].
  { rewrite Es at 1. rewrite <-app_assoc. by apply leftover_bytes_spec. }
  { rewrite Es, <-app_assoc. rewrite <-(zwrite_nil dest 0) at 1.
    rewrite enc_text_app, zlen_app in Hfit.
    pose proof (zlen_nonneg (enc_text ctx (end_pos ctx 0 gs) (zero_padded rest))).
    apply (encode_source_spec ctx OK dest gs (rest ++ more) [] 0 Hgs); [lia|].
    change (zlen (@nil Z)) with 0. lia. }
  cbn [app]. set (text := enc_text ctx 0 (gs ++ zero_padded rest)) in *.
  assert (∀ x y, is_byte8 x → is_byte8 y → zero_padded rest = [(x, y, 0)] →
    encode_source ctx [x; y; 0] 3 (zwrite dest 0 (enc_text ctx 0 gs), zlen (enc_text ctx 0 gs), end_pos ctx 0 gs) =
    Done (zwrite dest 0 text, zlen text, end_pos ctx 0 (gs ++ zero_padded rest))) as E2.
  { intros x y Hx Hy Ez. subst text. rewrite Ez, end_pos_app, enc_text_app in *.
    rewrite zlen_app in Hfit.
    apply (encode_source_spec ctx OK dest [(x, y, 0)] []); [|apply end_pos_bounds; lia|lia].
    apply Forall_singleton. split_and!; unfold is_byte8 in *; lia. }
  destruct rest as [|x [|y [|z r]]].
  - cbn. subst text. by rewrite !app_nil_r.
  - apply Forall_cons in Hb as [Hx _]. by apply E2.
  - rewrite !Forall_cons in Hb. destruct Hb as (Hx & Hy & _). by apply E2.
  - rewrite !zlen_cons in Hr. pose proof (zlen_nonneg r). lia.
Qed.

Lemma store_zwrite_eq {A} (l t xs : list A) x ys y i :
  t = xs ++ x :: ys → i = zlen xs → zlen t ≤ zlen l →
  store (zwrite l 0 t) i y = Done (zwrite l 0 (xs ++ y :: ys)).
Proof. intros -> -> ?. by apply (store_zwrite_in l 0 xs x y ys). Qed.

(** The last letters of a partial group are replaced in place. *)
Lemma base64_encode_ex_spec ctx src more dest bPad :
  context_ok ctx → Forall is_byte8 src → src ≠ [] →
  zlen (base64_text ctx src true) < zlen dest →
  ∃ junk, base64_encode_ex ctx (src ++ more) (zlen src) dest bPad =
    Done (zwrite dest 0 (base64_text ctx src bPad ++ 0 :: junk), zlen (base64_text ctx src bPad)) ∧
    zlen (base64_text ctx src bPad ++ 0 :: junk) ≤ zlen dest.
Proof.
  intros OK Hb Hne Hfit. rewrite zlen_base64_text in Hfit by done.
  destruct (encode_rounds ctx src more dest OK Hb Hne ltac:(lia))
    as (len0 & leftover & szPad & s & E1 & E2 & Hlo & E3 & E4 & E5).
  unfold base64_encode_ex. destruct (zlen src <=? 0) eqn:Hn; propify.
  { destruct src; [done|]. rewrite zlen_cons in Hn. pose proof (zlen_nonneg src). lia. }
  rewrite E1, E2, E3. cbn [mbind res_bind]. rewrite E4. cbn [mbind res_bind]. rewrite E5.
  cbn [mbind res_bind]. clear E1 E2 E3 E4 E5. subst leftover.
  rewrite (store_zwrite dest 0) by lia. cbn [mbind res_bind].
  destruct (regroup_spec src) as [_ Hr]. unfold base64_text.
  unfold full_groups in *. destruct (regroup src) as [gs rest]. cbn [fst snd] in *.
  rewrite enc_text_app, zlen_app in *. set (A := enc_text ctx 0 gs) in *.
  destruct rest as [|x [|y [|z r]]]; cbn [zero_padded enc_text tail_text] in *.
  - exists []. rewrite !app_nil_r, Z.add_0_r in *. split; [done|]. zlen_lia.
  - set (B := break_text ctx (end_pos ctx 0 gs)) in *. change (zlen [x]) with 1. cbn [Z.eqb Pos.eqb].
    unfold enc4 in *. cbn [sixes fmap list_fmap take app] in *. rewrite !zlen_app, !zlen_cons, zlen_nil in *.
    destruct bPad.
    + exists []. erewrite (store_zwrite_eq dest _ (A ++ B ++ [_; _; _]) _ [0]) by
        (rewrite <-?app_assoc; done || zlen_lia). cbn [mbind res_bind].
      erewrite (store_zwrite_eq dest _ (A ++ B ++ [_; _]) _ [_; 0]) by
        (rewrite <-?app_assoc; done || zlen_lia). cbn [mbind res_bind].
      rewrite <-!app_assoc. split; [done|zlen_lia].
    + eexists [_; 0]. erewrite (store_zwrite_eq dest _ (A ++ B ++ [_; _]) _ [_; 0]) by
        (rewrite <-?app_assoc; done || zlen_lia). cbn [mbind res_bind].
      rewrite <-!app_assoc. split; [repeat f_equal; zlen_lia|zlen_lia].
  - set (B := break_text ctx (end_pos ctx 0 gs)) in *. change (zlen [x; y]) with 2. cbn [Z.eqb Pos.eqb].
    unfold enc4 in *. cbn [sixes fmap list_fmap take app] in *. rewrite !zlen_app, !zlen_cons, zlen_nil in *.
    destruct bPad.
    + exists []. erewrite (store_zwrite_eq dest _ (A ++ B ++ [_; _; _]) _ [0]) by
        (rewrite <-?app_assoc; done || zlen_lia). cbn [mbind res_bind].
      rewrite <-!app_assoc. split; [done|zlen_lia].
    + eexists [0]. erewrite (store_zwrite_eq dest _ (A ++ B ++ [_; _; _]) _ [0]) by
        (rewrite <-?app_assoc; done || zlen_lia). cbn [mbind res_bind].
      rewrite <-!app_assoc. split; [repeat f_equal; zlen_lia|zlen_lia].
  - rewrite !zlen_cons in Hr. pose proof (zlen_nonneg r). lia.
Qed.

(** * The decoder *)

(** [ch] decodes to digit [v]; [d] tells whether it is a pad. *)
Definition digit (ctx : base64_context) (ch v : Z) (d : bool) : Prop :=
  if d then v = 0 ∧ zget (charToValue ctx) ch = Some BASE64_PAD
  else 0 ≤ v < 64 ∧ zget (charToValue ctx) ch = Some v.

Definition ignored (ctx : base64_context) (ch : Z) : Prop :=
  zget (charToValue ctx) ch = Some BASE64_IGNORE.

Lemma digit_bound ctx ch v d : digit ctx ch v d → 0 ≤ v < 64.
Proof. destruct d; intros [??]; lia. Qed.

Lemma decode_ignored ctx l s : Forall (ignored ctx) l → fold_res (decode_char ctx) l s = Done s.
Proof.
  induction 1 as [|c l Hc _ IH]; [done|]. cbn [fold_res].
  assert (decode_char ctx c s = Done s) as ->; [|done].
  unfold decode_char. by rewrite (load_ok _ _ _ Hc).
Qed.

Lemma fold_res_cons {S A} (f : A → S → res S) x l s :
  fold_res f (x :: l) s = (s' ← f x s; fold_res f l s').
Proof. done. Qed.

(** The digits of a cycle rebuild the three bytes. *)
Lemma rebuild v0 v1 v2 v3 :
  0 ≤ v1 < 64 → 0 ≤ v2 < 64 → 0 ≤ v3 < 64 →
  Z.lor (Z.shiftl (Z.lor (Z.shiftl (Z.lor (Z.shiftl v0 6) v1) 6) v2) 6) v3
  = v0 * 262144 + v1 * 4096 + v2 * 64 + v3.
Proof. intros. rewrite !lor_shiftl_add by lia. lia. Qed.

Lemma peel b0 b1 b2 :
  is_byte8 b0 → is_byte8 b1 → is_byte8 b2 → let w := pack (b0, b1, b2) in
  u8 (Z.shiftr w 16) = b0 ∧ u8 (Z.shiftr (Z.land w 0xFF00) 8) = b1 ∧ u8 (Z.land w 0xFF) = b2.
Proof.
  unfold is_byte8, u8. intros H0 H1 H2. rewrite Z.shiftr_land.
  change (Z.shiftr 0xFF00 8) with (2 ^ 8 - 1). change 0xFF with (2 ^ 8 - 1).
  rewrite !land_ones_mod, !Z.shiftr_div_pow2 by lia. unfold pack.
  change (2 ^ 16) with 65536. change (2 ^ 8) with 256. lia.
Qed.

Section decoder.
Context (ctx : base64_context).

Lemma decode_digit ch v d s :
  digit ctx ch v d → 0 ≤ dummies s < INT_MAX →
  decode_char ctx ch s =
  (let dum := dummies s + Z.b2z d in
   let comb := Z.lor (Z.shiftl (combined s) 6) v in
   if cycle s =? 0 then Done (mkDec (dec_dest s) (dec_pos s) 1 v dum)
   else if cycle s =? 1 then Done (mkDec (dec_dest s) (dec_pos s) 2 comb dum)
   else if cycle s =? 2 then Done (mkDec (dec_dest s) (dec_pos s) 3 comb dum)
   else
     dest ← store (dec_dest s) (dec_pos s) (u8 (Z.shiftr comb 16));
     dest ← store dest (dec_pos s + 1) (u8 (Z.shiftr (Z.land comb 0xFF00) 8));
     dest ← store dest (dec_pos s + 2) (u8 (Z.land comb 0xFF));
     Done (mkDec dest (dec_pos s + 3) 0 comb dum)).
Proof.
  intros Hd Hdum. unfold decode_char. destruct d; destruct Hd as [Hv Hget];
    rewrite (load_ok _ _ _ Hget); cbn [mbind res_bind].
  - subst v. change (BASE64_PAD =? BASE64_IGNORE) with false.
    change (BASE64_PAD =? BASE64_PAD) with true. cbv iota.
    rewrite cint_ok by int_lia. done.
  - rewrite (proj2 (Z.eqb_neq v BASE64_IGNORE)) by (unfold BASE64_IGNORE; lia).
    rewrite (proj2 (Z.eqb_neq v BASE64_PAD)) by (unfold BASE64_PAD; lia).
    cbn [mbind res_bind mret res_ret]. rewrite Z.add_0_r. done.
Qed.

Lemma decode_quad dest out comb dum b0 b1 b2 c0 c1 c2 c3 d0 d1 d2 d3 v0 v1 v2 v3 :
  digit ctx c0 v0 d0 → digit ctx c1 v1 d1 → digit ctx c2 v2 d2 → digit ctx c3 v3 d3 →
  sixes (pack (b0, b1, b2)) = [v0; v1; v2; v3] → byte3 (b0, b1, b2) →
  0 ≤ dum < INT_MAX - 4 → zlen out + 3 ≤ zlen dest →
  fold_res (decode_char ctx) [c0; c1; c2; c3] (mkDec (zwrite dest 0 out) (zlen out) 0 comb dum) =
  Done (mkDec (zwrite dest 0 (out ++ [b0; b1; b2])) (zlen (out ++ [b0; b1; b2])) 0
          (pack (b0, b1, b2)) (dum + Z.b2z d0 + Z.b2z d1 + Z.b2z d2 + Z.b2z d3)).
Proof.
  intros H0 H1 H2 H3 Hv (Hb0 & Hb1 & Hb2) Hdum Hfit. pose proof (zlen_nonneg out).
  pose proof (digit_bound _ _ _ _ H0). pose proof (digit_bound _ _ _ _ H1).
  pose proof (digit_bound _ _ _ _ H2). pose proof (digit_bound _ _ _ _ H3).
  rewrite fold_res_cons, (decode_digit _ _ _ _ H0) by (cbn [dummies]; destruct d0, d1, d2; cbn [Z.b2z]; lia).
  cbn [dec_dest dec_pos cycle combined dummies Z.eqb Pos.eqb mbind res_bind].
  rewrite fold_res_cons, (decode_digit _ _ _ _ H1) by (cbn [dummies]; destruct d0, d1, d2; cbn [Z.b2z]; lia).
  cbn [dec_dest dec_pos cycle combined dummies Z.eqb Pos.eqb mbind res_bind].
  rewrite fold_res_cons, (decode_digit _ _ _ _ H2) by (cbn [dummies]; destruct d0, d1, d2; cbn [Z.b2z]; lia).
  cbn [dec_dest dec_pos cycle combined dummies Z.eqb Pos.eqb mbind res_bind].
  rewrite fold_res_cons, (decode_digit _ _ _ _ H3) by (cbn [dummies]; destruct d0, d1, d2; cbn [Z.b2z]; lia).
  cbn [dec_dest dec_pos cycle combined dummies Z.eqb Pos.eqb mbind res_bind fold_res].
  rewrite rebuild by done.
  replace (v0 * 262144 + v1 * 4096 + v2 * 64 + v3) with (pack (b0, b1, b2)).
  2: { unfold sixes in Hv. injection Hv as <- <- <- <-. unfold pack, is_byte8 in *. lia. }
  destruct (peel b0 b1 b2 Hb0 Hb1 Hb2) as (-> & -> & ->).
  rewrite (store_zwrite dest 0 out) by lia. cbn [mbind res_bind].
  replace (zlen out + 1) with (0 + zlen (out ++ [b0])) by zlen_lia.
  rewrite store_zwrite by zlen_lia. cbn [mbind res_bind].
  replace (zlen out + 2) with (0 + zlen ((out ++ [b0]) ++ [b1])) by zlen_lia.
  rewrite store_zwrite by zlen_lia. cbn [mbind res_bind].
  rewrite <-!app_assoc. cbn [app]. repeat f_equal; zlen_lia.
Qed.

Context (OK : context_ok ctx).

Lemma chr_digit v : 0 ≤ v < 64 → digit ctx (chr ctx v) v false.
Proof using OK. split; [done|]. by apply OK. Qed.

Lemma decode_break p s : fold_res (decode_char ctx) (break_text ctx p) s = Done s.
Proof using OK.
  apply decode_ignored. unfold break_text. case_if; [apply OK|constructor].
Qed.

Lemma decode_text dest gs out p comb :
  Forall byte3 gs → zlen out + 3 * zlen gs ≤ zlen dest →
  ∃ comb', fold_res (decode_char ctx) (enc_text ctx p gs)
    (mkDec (zwrite dest 0 out) (zlen out) 0 comb 0) =
  Done (mkDec (zwrite dest 0 (out ++ ungroup gs)) (zlen (out ++ ungroup gs)) 0 comb' 0).
Proof using OK.
  revert out p comb. induction gs as [|[[b0 b1] b2] gs IH]; intros out p comb Hgs Hfit.
  { exists comb. cbn. by rewrite app_nil_r. }
  apply Forall_cons in Hgs as [Hg Hgs]. rewrite zlen_cons in Hfit. pose proof (zlen_nonneg gs).
  cbn [enc_text ungroup]. rewrite fold_res_app, decode_break. cbn [mbind res_bind].
  rewrite fold_res_app.
  pose proof (sixes_bounds (pack (b0, b1, b2))) as Hs. unfold sixes in Hs.
  rewrite !Forall_cons in Hs. destruct Hs as (Hs0 & Hs1 & Hs2 & Hs3 & _).
  unfold enc4, sixes. cbn [fmap list_fmap].
  erewrite decode_quad by (try apply chr_digit; done || int_lia). cbn [mbind res_bind].
  destruct (IH (out ++ [b0; b1; b2]) (next_pos ctx p) (pack (b0, b1, b2)) Hgs) as [comb' IH'].
  { zlen_lia. }
  exists comb'. change (0 + Z.b2z false + Z.b2z false + Z.b2z false + Z.b2z false) with 0.
  rewrite IH', <-app_assoc. done.
Qed.

(** The last group of the text, pads included. *)
Lemma decode_tail dest out p comb rest :
  Forall is_byte8 rest → zlen rest < 3 → zlen out + 3 * zlen (zero_padded rest) ≤ zlen dest →
  ∃ comb', fold_res (decode_char ctx) (tail_text ctx p rest true)
    (mkDec (zwrite dest 0 out) (zlen out) 0 comb 0) =
  Done (mkDec (zwrite dest 0 (out ++ ungroup (zero_padded rest)))
    (zlen (out ++ ungroup (zero_padded rest))) 0 comb' (3 * zlen (zero_padded rest) - zlen rest)).
Proof using OK.
  intros Hb Hr Hfit. assert (digit ctx (pad_ch ctx) 0 true) as Hdp by (split; [done|apply OK]).
  destruct rest as [|x [|y [|z r]]]; cbn [tail_text zero_padded ungroup] in *.
  - exists comb. cbn. by rewrite app_nil_r.
  - change (zlen [(x, 0, 0)]) with 1 in *. apply Forall_cons in Hb as [Hx _].
    rewrite fold_res_app, decode_break. cbn [mbind res_bind].
    unfold enc4, sixes. cbn [fmap list_fmap take app]. exists (pack (x, 0, 0)).
    unfold is_byte8 in *.
    rewrite (decode_quad _ out comb 0 x 0 0 _ _ _ _ false false true true (x / 4) (x mod 4 * 16) 0 0); try done.
    + replace (pack (x, 0, 0) / 262144 mod 64) with (x / 4) by (unfold pack; lia). apply chr_digit. lia.
    + replace (pack (x, 0, 0) / 4096 mod 64) with (x mod 4 * 16) by (unfold pack; lia). apply chr_digit. lia.
    + unfold sixes, pack. repeat f_equal; lia.
  - change (zlen [(x, y, 0)]) with 1 in *. rewrite !Forall_cons in Hb. destruct Hb as (Hx & Hy & _).
    rewrite fold_res_app, decode_break. cbn [mbind res_bind].
    unfold enc4, sixes. cbn [fmap list_fmap take app]. exists (pack (x, y, 0)).
    unfold is_byte8 in *.
    rewrite (decode_quad _ out comb 0 x y 0 _ _ _ _ false false false true (x / 4) (x mod 4 * 16 + y / 16)
      (y mod 16 * 4) 0); try done.
    + replace (pack (x, y, 0) / 262144 mod 64) with (x / 4) by (unfold pack; lia). apply chr_digit. lia.
    + replace (pack (x, y, 0) / 4096 mod 64) with (x mod 4 * 16 + y / 16) by (unfold pack; lia).
      apply chr_digit. lia.
    + replace (pack (x, y, 0) / 64 mod 64) with (y mod 16 * 4) by (unfold pack; lia).
      apply chr_digit. lia.
    + unfold sixes, pack. repeat f_equal; lia.
  - rewrite !zlen_cons in Hr. pose proof (zlen_nonneg r). lia.
Qed.

Lemma ungroup_full src :
  ∃ zeros, ungroup (full_groups src) = src ++ zeros ∧ Forall (λ z, z = 0) zeros.
Proof.
  destruct (regroup_spec src) as [Es Hr]. unfold full_groups. destruct (regroup src) as [gs rest].
  cbn [fst snd] in *.
  assert (∀ k, ungroup (gs ++ k) = ungroup gs ++ ungroup k) as Happ.
  { clear. intros k. induction gs as [|[[b0 b1] b2] gs IH]; [done|]. cbn. by rewrite IH. }
  rewrite Happ, Es. destruct rest as [|x [|y [|z r]]]; cbn [zero_padded ungroup].
  - exists []. by rewrite !app_nil_r.
  - exists [0; 0]. rewrite <-app_assoc. by repeat constructor.
  - exists [0]. rewrite <-app_assoc. by repeat constructor.
  - rewrite !zlen_cons in Hr. pose proof (zlen_nonneg r). lia.
Qed.

(** The state after a padded text: the source, completed with the zeros that
    the pads stand for. *)
Lemma decode_base64_text src back :
  Forall is_byte8 src → 3 * ((zlen src + 2) / 3) ≤ zlen back →
  ∃ zeros comb, fold_res (decode_char ctx) (base64_text ctx src true) (mkDec back 0 0 0 0) =
    Done (mkDec (zwrite back 0 (src ++ zeros)) (zlen src + zlen zeros) 0 comb (zlen zeros)) ∧
    zlen src + zlen zeros = 3 * ((zlen src + 2) / 3).
Proof using OK.
  intros Hb Hfit. pose proof (zlen_full_groups src) as HK. rewrite <-HK in *.
  destruct (ungroup_full src) as (zeros & Ez & _). pose proof (zlen_ungroup (full_groups src)) as HU.
  pose proof (regroup_spec src) as [Es Hr]. pose proof (regroup_byte3 src Hb) as Hgs.
  unfold base64_text, full_groups in *. destruct (regroup src) as [gs rest]. cbn [fst snd] in *.
  rewrite zlen_app in *. pose proof (zlen_nonneg (zero_padded rest)).
  assert (Forall is_byte8 rest) as Hbr by (rewrite Es in Hb; by apply Forall_app in Hb as [_ ?]).
  rewrite fold_res_app.
  destruct (decode_text back gs [] 0 0 Hgs) as [c1 E1].
  { change (zlen (@nil Z)) with 0. lia. }
  change (zlen (@nil Z)) with 0 in E1. rewrite zwrite_nil in E1. rewrite E1. cbn [mbind res_bind app].
  destruct (decode_tail back (ungroup gs) (end_pos ctx 0 gs) c1 rest Hbr Hr) as [c2 E2].
  { rewrite zlen_ungroup. lia. }
  rewrite E2. exists zeros, c2.
  assert (ungroup gs ++ ungroup (zero_padded rest) = src ++ zeros) as ->.
  { rewrite <-Ez. clear. induction gs as [|[[b0 b1] b2] gs IH]; [done|]. cbn. by rewrite IH. }
  rewrite Ez in HU. rewrite zlen_app in *.
  assert (zlen src = 3 * zlen gs + zlen rest) by (by rewrite Es, zlen_app, zlen_ungroup).
  replace (3 * zlen (zero_padded rest) - zlen rest) with (zlen zeros) by lia. split; [done|lia].
Qed.

(** Decoding a padded text restores the source. *)
Lemma decode_padded src more back :
  Forall is_byte8 src → 3 * ((zlen src + 2) / 3) ≤ zlen back → zlen src < zlen back →
  let text := base64_text ctx src true in
  ∃ back', base64_decode ctx (text ++ more) (zlen text) back = Done (back', zlen src) ∧
    take (Z.to_nat (zlen src)) back' = src ∧ zget back' (zlen src) = Some 0 ∧ zlen back' = zlen back.
Proof using OK.
  intros Hb Hfit Hfit'. cbn zeta. unfold base64_decode. rewrite for_up_cells.
  destruct (decode_base64_text src back Hb Hfit) as (zeros & comb & -> & Hz).
  cbn [mbind res_bind cycle dec_dest dec_pos dummies]. cbn [Z.eqb negb].
  replace (zlen src + zlen zeros - zlen zeros) with (zlen src) by lia.
  pose proof (zlen_nonneg src). pose proof (zlen_nonneg zeros).
  rewrite store_ok by (rewrite zlen_zwrite; zlen_lia). eexists. split_and!; [done|..].
  - unfold zupd. rewrite take_insert_ge by lia. rewrite zwrite_zero_app, <-app_assoc.
    unfold zlen. by rewrite Nat2Z.id, take_app_length.
  - rewrite zget_zupd_eq; [done|]. rewrite zlen_zwrite; zlen_lia.
  - rewrite zlen_zupd, zlen_zwrite; zlen_lia.
Qed.

Lemma pad_digit : digit ctx (pad_ch ctx) 0 true.
Proof using OK. split; [done|]. apply OK. Qed.

(** One to three pads at the start of a cycle leave it incomplete. *)
Lemma decode_pads k s :
  1 ≤ k ≤ 3 → cycle s = 0 → 0 ≤ dummies s < INT_MAX - 4 →
  returns (fold_res (decode_char ctx) (replicate (Z.to_nat k) (pad_ch ctx)) s)
    (λ s', cycle s' = k ∧ dec_dest s' = dec_dest s).
Proof using OK.
  intros Hk Hs Hd. assert (k = 1 ∨ k = 2 ∨ k = 3) as Hcases by lia. destruct s; cbn [cycle dummies] in *.
  subst cycle0. pose proof pad_digit as Hp. 
  destruct Hcases as [->|[->| ->]]; [change (Z.to_nat 1) with 1%nat|change (Z.to_nat 2) with 2%nat|
    change (Z.to_nat 3) with 3%nat]; cbn [replicate];
    repeat (rewrite fold_res_cons, (decode_digit _ _ _ _ Hp) by (cbn [dummies Z.b2z]; lia);
      cbn [dec_dest dec_pos cycle combined dummies Z.eqb Pos.eqb mbind res_bind]); done.
Qed.
End decoder.

(** * Contexts *)

Definition alnum : list Z := seqZ 65 26 ++ seqZ 97 26 ++ seqZ 48 10.

(** A table filled from an alphabet without repetitions is its inverse. *)
Lemma index_table (v2c : list Z) :
  zlen v2c = 64 → NoDup v2c → Forall is_byte8 v2c →
  returns (for_up 0 64 (λ i t, c ← load v2c i; store t c i) (replicate 256 BASE64_IGNORE))
    (λ t, zlen t = 256 ∧ (∀ i c, zget v2c i = Some c → zget t c = Some i) ∧
          (∀ c, is_byte8 c → c ∉ v2c → zget t c = Some BASE64_IGNORE)).
Proof.
  intros Hlen Hnd Hb. eapply returns_mono.
  - apply for_up_inv with (P := λ k t, zlen t = 256 ∧
      (∀ i c, i < k → zget v2c i = Some c → zget t c = Some i) ∧
      (∀ c, is_byte8 c → c ∉ v2c → zget t c = Some BASE64_IGNORE)).
    + lia.
    + split_and!; [done| |].
      * intros i c Hi Hc. apply zget_Some_range in Hc. lia.
      * intros c Hc _. unfold is_byte8 in Hc. rewrite zget_of_lookup by lia.
        apply lookup_replicate. split; [done|lia].
    + intros k t Hk (Ht & Hidx & Hign). destruct (zget_is_Some v2c k) as [c Hc]; [lia|].
      rewrite (load_ok _ _ _ Hc). cbn [mbind res_bind].
      rewrite zget_of_lookup in Hc by lia.
      assert (is_byte8 c) as Hcb by (eapply Forall_lookup_1; eauto). unfold is_byte8 in Hcb.
      rewrite store_ok by lia. split_and!; [by rewrite zlen_zupd|..].
      * intros i d Hi Hd. pose proof (zget_Some_range _ _ _ Hd).
        destruct (decide (c = d)) as [->|Hcd].
        { rewrite zget_zupd_eq by lia. f_equal. rewrite zget_of_lookup in Hd by lia.
          pose proof (NoDup_lookup _ _ _ _ Hnd Hc Hd). lia. }
        rewrite zget_zupd_ne by lia. apply Hidx; [|done].
        assert (i ≠ k); [|lia]. intros ->. rewrite zget_of_lookup in Hd by lia. congruence.
      * intros d Hd Hout. rewrite zget_zupd_ne; [by apply Hign|lia|].
        intros ->. apply Hout. by eapply list_elem_of_lookup_2.
  - cbn beta. intros t (Ht & Hidx & Hign). split_and!; [done| |done].
    intros i c Hc. apply Hidx; [|done]. apply zget_Some_range in Hc. lia.
Qed.

Lemma init_ex_unfold L plus slash pad :
  base64_init_ex L plus slash pad =
  (c2v ← for_up 0 64 (λ i t, c ← load (alnum ++ [plus; slash]) i; store t c i) (replicate 256 BASE64_IGNORE);
   c2v ← store c2v pad BASE64_PAD;
   mret (mkContext64 (10 :: replicate 15 0) 1 L (alnum ++ [plus; slash]) c2v pad)).
Proof. vm_compute. reflexivity. Qed.

Lemma alphabet_nodup plus slash :
  plus ∉ alnum → slash ∉ alnum → plus ≠ slash → NoDup (alnum ++ [plus; slash]).
Proof.
  intros Hp Hs Hne. apply NoDup_app. split_and!.
  - apply (bool_decide_unpack _). by vm_compute.
  - intros x Hx [->|[->|[]%not_elem_of_nil]%elem_of_cons]%elem_of_cons; done.
  - apply NoDup_cons. split; [|apply NoDup_singleton]. by intros ->%list_elem_of_singleton.
Qed.

Lemma alphabet_bytes plus slash :
  is_byte8 plus → is_byte8 slash → Forall is_byte8 (alnum ++ [plus; slash]).
Proof.
  intros. apply Forall_app. split; [|by apply Forall_cons_2; [|apply Forall_singleton]].
  apply Forall_forall. intros x Hx. unfold alnum in Hx. unfold is_byte8.
  rewrite !elem_of_app, !elem_of_seqZ in Hx. lia.
Qed.

(** The letters, signs and pad given to [base64_init_ex] are usable. *)
Record alphabet_ok (plus slash pad : Z) : Prop := {
  al_bytes : is_byte8 plus ∧ is_byte8 slash ∧ is_byte8 pad;
  al_fresh : plus ∉ alnum ∧ slash ∉ alnum ∧ pad ∉ alnum;
  al_distinct : plus ≠ slash ∧ plus ≠ pad ∧ slash ≠ pad;
  al_newline : 10 ≠ plus ∧ 10 ≠ slash ∧ 10 ≠ pad }.

(** [base64_init_ex] with two signs and a pad that are distinct and
    outside the letters, digits and newline, and a line length that is a
    multiple of four, yields a context whose tables are inverse to each other
    and whose separator is ignored by the decoder. *)
Theorem base64_init_ex_ok L plus slash pad :
  alphabet_ok plus slash pad → 0 ≤ L ≤ INT_MAX - 4 → L mod 4 = 0 →
  ∃ ctx, base64_init_ex L plus slash pad = Done ctx ∧ context_ok ctx ∧
    line_length ctx = L ∧ separator ctx = [10] ∧ pad_ch ctx = pad.
Proof.
  intros [(Hpb & Hsb & Hdb) (Hp & Hs & Hd) (D1 & D2 & D3) (N1 & N2 & N3)] HL HL4.
  rewrite init_ex_unfold.
  set (v2c := alnum ++ [plus; slash]).
  assert (zlen v2c = 64) as Hlen by reflexivity.
  assert (Forall is_byte8 v2c) as Hbytes by (by apply alphabet_bytes).
  destruct (returns_inv _ _ (index_table v2c Hlen (alphabet_nodup plus slash Hp Hs D1) Hbytes))
    as (t & -> & Ht & Hidx & Hign).
  cbn [mbind res_bind]. unfold is_byte8 in Hdb. rewrite store_ok by lia. cbn [mbind res_bind].
  eexists. split; [done|]. split; [|done].
  assert (pad ∉ v2c) as Hpad.
  { subst v2c. rewrite elem_of_app, !elem_of_cons, elem_of_nil. intuition congruence. }
  assert (10 ∉ v2c) as Hnl.
  { subst v2c. rewrite elem_of_app, !elem_of_cons, elem_of_nil.
    intros [H|[?|[?|[]]]]; [|done..]. revert H. apply (bool_decide_unpack _). by vm_compute. }
  split; cbn [valueToChar charToValue pad_ch line_separator line_sep_len line_length].
  - done.
  - by rewrite zlen_zupd.
  - intros v Hv. unfold chr. cbn [valueToChar]. fold v2c.
    destruct (zget_is_Some v2c v) as [c Hc]; [lia|]. rewrite Hc. change (default 0 (Some c)) with c.
    rewrite zget_zupd_ne; [by apply Hidx|lia|]. intros <-. apply Hpad.
    rewrite zget_of_lookup in Hc by lia. by eapply list_elem_of_lookup_2.
  - apply zget_zupd_eq. lia.
  - split; [lia|]. cbn. done.
  - unfold separator. cbn [line_separator line_sep_len]. apply Forall_singleton.
    rewrite zget_zupd_ne by (lia || congruence). apply Hign; [unfold is_byte8; lia|done].
  - done.
  - done.
Qed.

Lemma standard_alphabet : alphabet_ok 43 47 61.
Proof. split; split_and!; try (unfold is_byte8; lia); refine (bool_decide_unpack _ _); by vm_compute. Qed.

Lemma base64_init_ex_ok_witness :
  ∃ ctx, base64_init_ex 76 43 47 61 = Done ctx ∧ context_ok ctx ∧
    line_length ctx = 76 ∧ separator ctx = [10] ∧ pad_ch ctx = 61.
Proof. apply base64_init_ex_ok; [apply standard_alphabet|int_lia|reflexivity]. Defined.

(** C40. The setters keep a context usable: the line length is rounded down to a
    multiple of four and the separator is cut to fifteen characters. *)
Theorem base64_setters_ok ctx len sep :
  context_ok ctx → zlen (line_separator ctx) = SEP_SIZE → 0 ≤ len ≤ INT_MAX - 4 →
  Forall (ignored ctx) sep →
  let ctx' := base64_set_line_separator (base64_set_line_length ctx len) sep in
  context_ok ctx' ∧ line_length ctx' = len / 4 * 4 ∧
  separator ctx' = take (Z.to_nat (Z.min (zlen sep) 15)) sep ∧
  zlen (line_separator ctx') = SEP_SIZE.
Proof.
  intros OK Hsz Hlen Hsep. unfold base64_set_line_separator, snprintf_s.
  cbn [base64_set_line_length line_separator]. rewrite Hsz. unfold SEP_SIZE in *.
  pose proof (zlen_nonneg sep). set (n := if 16 <=? zlen sep then 15 else zlen sep).
  assert (n = Z.min (zlen sep) 15) as Hn by (subst n; case_if; lia).
  replace (if 16 <=? zlen sep then 16 - 1 else zlen sep) with n by done.
  change (16 - 1) with 15. clearbody n.
  assert (zlen (take (Z.to_nat 15) sep) = n) as Hcut.
  { unfold zlen in *. rewrite length_take. lia. }
  assert (take (Z.to_nat n) (zwrite (line_separator ctx) 0 (take (Z.to_nat 15) sep ++ [0])) =
    take (Z.to_nat n) sep) as Htake.
  { rewrite zwrite_zero_app, <-app_assoc. rewrite take_app_le by (unfold zlen in Hcut; lia).
    rewrite take_take. f_equal. lia. }
  assert (zlen (zwrite (line_separator ctx) 0 (take (Z.to_nat 15) sep ++ [0])) = 16) as Hzl.
  { rewrite zlen_zwrite; [done|lia|]. rewrite zlen_app, Hcut, zlen_cons. change (zlen (@nil Z)) with 0. lia. }
  cbn [separator line_length line_sep_len line_separator base64_set_line_length].
  unfold separator. cbn [line_sep_len line_separator].
  rewrite Z.quot_div_nonneg by lia.
  split_and!; [|done|by rewrite Htake, Hn|done].
  destruct OK. split; cbn [valueToChar charToValue pad_ch line_separator line_sep_len line_length]; try done.
  - rewrite Hzl. lia.
  - unfold separator. cbn [line_sep_len line_separator]. rewrite Htake.
    apply Forall_take. done.
  - lia.
  - lia.
Qed.

(** * Properties *)

(** The encoder writes the base64 text of the source and a terminator,
    nothing past the length announced by [base64_get_encode_length] plus one:
    with padding the text has exactly the announced length. *)
Theorem base64_encode_correct ctx src more dest bPad e :
  context_ok ctx → Forall is_byte8 src → src ≠ [] →
  base64_get_encode_length ctx (zlen src) = Done e → e < zlen dest →
  returns (base64_encode_ex ctx (src ++ more) (zlen src) dest bPad) (λ '(dest', n),
    n = zlen (base64_text ctx src bPad) ∧ n ≤ e ∧ (bPad = true → n = e) ∧
    take (Z.to_nat n) dest' = base64_text ctx src bPad ∧ zget dest' n = Some 0 ∧
    zlen dest' = zlen dest).
Proof.
  intros OK Hb Hne He Hfit. pose proof (encode_length_text ctx src e OK Hne He) as ->.
  pose proof (base64_text_nopad_le ctx src).
  destruct (base64_encode_ex_spec ctx src more dest bPad OK Hb Hne Hfit) as (junk & -> & Hl).
  cbn [returns]. split_and!; [done|destruct bPad; lia|by intros ->|..].
  - rewrite zwrite_zero_app, <-app_assoc. unfold zlen. by rewrite Nat2Z.id, take_app_length.
  - rewrite zwrite_zero_app, <-app_assoc. cbn [app]. apply zget_app_mid.
  - by apply zlen_zwrite.
Qed.

(** C7. Decoding what the encoder wrote, with padding and whatever the line
    length and separator, restores the source bytes and their number. *)
Theorem base64_roundtrip ctx src dest back e :
  context_ok ctx → Forall is_byte8 src → src ≠ [] →
  base64_get_encode_length ctx (zlen src) = Done e → e < zlen dest →
  3 * ((zlen src + 2) / 3) ≤ zlen back → zlen src < zlen back →
  returns ('(dest', n) ← base64_encode_ex ctx src (zlen src) dest true;
           base64_decode ctx dest' n back) (λ '(back', m),
    m = zlen src ∧ take (Z.to_nat m) back' = src ∧ zget back' m = Some 0 ∧ zlen back' = zlen back).
Proof.
  intros OK Hb Hne He Hfit Hfit1 Hfit2. pose proof (encode_length_text ctx src e OK Hne He) as ->.
  destruct (base64_encode_ex_spec ctx src [] dest true OK Hb Hne Hfit) as (junk & E & Hl).
  rewrite app_nil_r in E. rewrite E. cbn [mbind res_bind].
  rewrite zwrite_zero_app, <-app_assoc.
  match goal with |- context [base64_decode _ (_ ++ ?r)] =>
    destruct (decode_padded ctx OK src r back Hb Hfit1 Hfit2) as (back' & -> & ?) end.
  done.
Qed.

(** Without line breaks the unpadded text, completed to a multiple of four with
    pads, is the padded one. *)
Lemma complete_unpadded ctx src :
  line_length ctx = 0 →
  let t := base64_text ctx src false in let nRemain := Z.rem (zlen t) 4 in
  if nRemain =? 0 then base64_text ctx src true = t
  else t ++ replicate (Z.to_nat (4 - nRemain)) (pad_ch ctx) = base64_text ctx src true.
Proof.
  intros HL. cbn zeta. destruct (regroup_spec src) as [_ Hr]. unfold base64_text.
  destruct (regroup src) as [gs rest]. cbn [snd] in Hr.
  rewrite zlen_app, zlen_enc_text_unbroken by done. pose proof (zlen_nonneg gs).
  assert (∀ p, break_text ctx p = []) as Hbr.
  { intros p. unfold break_text, breaks. by rewrite HL, andb_false_r. }
  rewrite Z.rem_mod_nonneg by (pose proof (zlen_nonneg (tail_text ctx (end_pos ctx 0 gs) rest false)); lia).
  destruct rest as [|x [|y [|z r]]]; cbn [tail_text].
  - change (zlen (@nil Z)) with 0. case_if; [done|lia].
  - rewrite !Hbr. cbn [app enc4 sixes fmap list_fmap take]. change (zlen [_; _]) with 2.
    case_if; [lia|]. replace (4 - (4 * zlen gs + 2) mod 4) with 2 by lia.
    by rewrite <-app_assoc.
  - rewrite !Hbr. cbn [app enc4 sixes fmap list_fmap take]. change (zlen [_; _; _]) with 3.
    case_if; [lia|]. replace (4 - (4 * zlen gs + 3) mod 4) with 1 by lia.
    by rewrite <-app_assoc.
  - rewrite !zlen_cons in Hr. pose proof (zlen_nonneg r). lia.
Qed.

(** On an unbroken text [base64_decode_auto] restores the source
    whether or not the encoder padded it. *)
Theorem base64_decode_auto_unpadded ctx src dest back e bPad :
  context_ok ctx → line_length ctx = 0 → Forall is_byte8 src → src ≠ [] →
  base64_get_encode_length ctx (zlen src) = Done e → e < zlen dest → e ≤ INT_MAX →
  3 * ((zlen src + 2) / 3) ≤ zlen back → zlen src < zlen back →
  returns ('(dest', n) ← base64_encode_ex ctx src (zlen src) dest bPad;
           base64_decode_auto true ctx dest' n back) (λ '(back', m),
    m = zlen src ∧ take (Z.to_nat m) back' = src ∧ zget back' m = Some 0 ∧ zlen back' = zlen back).
Proof.
  intros OK HL Hb Hne He Hfit He' Hfit1 Hfit2.
  pose proof (encode_length_text ctx src e OK Hne He) as ->.
  destruct (base64_encode_ex_spec ctx src [] dest bPad OK Hb Hne Hfit) as (junk & E & Hl).
  rewrite app_nil_r in E. rewrite E. cbn [mbind res_bind]. rewrite zwrite_zero_app, <-app_assoc.
  unfold base64_decode_auto. pose proof (complete_unpadded ctx src HL) as Hc. cbn zeta in Hc.
  assert (zlen (base64_text ctx src true) mod 4 = 0) as Hmod.
  { rewrite zlen_base64_text, zlen_enc_text_unbroken by done. lia. }
  assert (bPad = true ∨ bPad = false) as [->| ->] by (destruct bPad; auto).
  - rewrite Z.rem_mod_nonneg, Hmod by (pose proof (zlen_nonneg (base64_text ctx src true)); lia).
    cbn [Z.eqb]. match goal with |- context [base64_decode _ (_ ++ ?r)] =>
      destruct (decode_padded ctx OK src r back Hb Hfit1 Hfit2) as (back' & -> & ?) end.
    done.
  - set (t := base64_text ctx src false) in *. destruct (Z.rem (zlen t) 4 =? 0) eqn:Hrem.
    + rewrite <-Hc. match goal with |- context [base64_decode _ (_ ++ ?r)] =>
        destruct (decode_padded ctx OK src r back Hb Hfit1 Hfit2) as (back' & -> & ?) end.
      done.
    + propify. pose proof (zlen_nonneg t). rewrite Z.rem_mod_nonneg in * by lia.
      assert (zlen t + (4 - zlen t mod 4) = zlen (base64_text ctx src true)) as Hn.
      { rewrite <-Hc, zlen_app, zlen_replicate. lia. }
      rewrite Hn, cint_ok by (pose proof (zlen_nonneg (base64_text ctx src true)); int_lia).
      cbn [mbind res_bind]. rewrite orb_true_r.
      match goal with |- context [zlen ?l <? zlen t] =>
        assert (zlen l <? zlen t = false) as -> by
          (apply Z.ltb_ge; rewrite zlen_app; pose proof (zlen_nonneg (0 :: junk)); 
           match goal with |- context [zlen t + zlen ?k] => pose proof (zlen_nonneg k) end; lia) end.
      assert (∀ k : list Z, take (Z.to_nat (zlen t)) (t ++ k) = t) as ->.
      { intros k. unfold zlen. by rewrite Nat2Z.id, take_app_length. }
      assert (u8 (pad_ch ctx) = pad_ch ctx) as ->.
      { pose proof (zget_Some_range _ _ _ (ok_pad _ OK)). pose proof (ok_c2v _ OK).
        unfold u8. apply Z.mod_small. lia. }
      rewrite Hc. destruct (decode_padded ctx OK src [] back Hb Hfit1 Hfit2) as (back' & Ed & ?).
      rewrite app_nil_r in Ed. rewrite Ed. done.
Qed.

(** Four pads announce four bytes too many for the three they decode to:
    the terminator is stored in front of the destination. *)
Theorem base64_decode_four_pads ctx more dest :
  context_ok ctx → 3 ≤ zlen dest →
  base64_decode ctx (replicate 4 (pad_ch ctx) ++ more) 4 dest = Undef.
Proof.
  intros OK Hfit. unfold base64_decode.
  change 4 with (zlen (replicate 4 (pad_ch ctx))) at 1. rewrite for_up_cells.
  pose proof (pad_digit ctx OK) as Hp. cbn [replicate].
  rewrite <-(zwrite_nil dest 0) at 1. change (mkDec (zwrite dest 0 []) 0) with (mkDec (zwrite dest 0 []) (zlen (@nil Z))).
  erewrite (decode_quad ctx dest [] 0 0 0 0 0 _ _ _ _ true true true true); try done.
Qed.

(** [base64_decode_auto] counts the line separators as characters of
    the text: a complete text is rejected as soon as its total length is not a
    multiple of four, although [base64_decode] accepts it. *)
Theorem base64_decode_auto_broken ctx src more back :
  context_ok ctx → Forall is_byte8 src →
  3 * ((zlen src + 2) / 3) ≤ zlen back → zlen src < zlen back →
  let text := base64_text ctx src true in
  zlen text + 4 ≤ INT_MAX → zlen text mod 4 ≠ 0 → zlen src + 4 < INT_MAX →
  (∃ back', base64_decode ctx (text ++ more) (zlen text) back = Done (back', zlen src)) ∧
  (∃ back', base64_decode_auto true ctx (text ++ more) (zlen text) back = Done (back', 0)).
Proof.
  intros OK Hb Hfit Hfit' text Hmax Hmod Hsrc. split.
  { destruct (decode_padded ctx OK src more back Hb Hfit Hfit') as (back' & E & _). eauto. }
  unfold base64_decode_auto. pose proof (zlen_nonneg text). pose proof (zlen_nonneg more).
  rewrite Z.rem_mod_nonneg by lia. rewrite (proj2 (Z.eqb_neq _ _)) by done.
  rewrite cint_ok by int_lia. cbn [mbind res_bind]. rewrite orb_true_r.
  rewrite (proj2 (Z.ltb_ge _ _)) by (rewrite zlen_app; lia).
  assert (take (Z.to_nat (zlen text)) (text ++ more) = text) as ->.
  { unfold zlen. by rewrite Nat2Z.id, take_app_length. }
  assert (u8 (pad_ch ctx) = pad_ch ctx) as ->.
  { pose proof (zget_Some_range _ _ _ (ok_pad _ OK)). pose proof (ok_c2v _ OK).
    unfold u8. apply Z.mod_small. lia. }
  set (k := 4 - zlen text mod 4) in *.
  unfold base64_decode. rewrite <-(app_nil_r (text ++ _)).
  replace (zlen text + k) with (zlen (text ++ replicate (Z.to_nat k) (pad_ch ctx)))
    by (rewrite zlen_app, zlen_replicate; lia).
  rewrite for_up_cells, fold_res_app.
  destruct (decode_base64_text ctx OK src back Hb Hfit) as (zeros & comb & E & Hz).
  fold text in E. rewrite E. cbn [mbind res_bind]. pose proof (zlen_nonneg src). pose proof (zlen_nonneg zeros).
  destruct (returns_inv _ _ (decode_pads ctx OK k (mkDec (zwrite back 0 (src ++ zeros)) (zlen src + zlen zeros) 0 comb (zlen zeros))
    ltac:(lia) eq_refl ltac:(cbn [dummies]; int_lia))) as (s' & -> & Hc & Hd).
  cbn [mbind res_bind dec_dest] in *. rewrite Hc, (proj2 (Z.eqb_neq k 0)) by lia. cbn [negb].
  rewrite Hd, store_ok by (rewrite zlen_zwrite; zlen_lia). eauto.
Qed.

(** A line length given to [base64_init_ex] that is not a multiple
    of four is kept as it is; the announced length then misses line breaks and
    the encoder writes past a destination of the announced size. *)
Theorem base64_unaligned_line ctx :
  base64_init 7 = Done ctx →
  base64_get_encode_length ctx 12 = Done 18 ∧
  base64_encode_ex ctx (replicate 12 0) 12 (replicate 19 0) true = Undef ∧
  returns (base64_encode_ex ctx (replicate 12 0) 12 (replicate 20 0) true) (λ '(_, n), n = 19).
Proof.
  intros E. vm_compute in E. injection E as <-. split_and!; by vm_compute.
Qed.

(** * Witnesses *)

(** A standard context with lines of [L] characters. *)
Definition sample64 (L : Z) : base64_context :=
  match base64_init L with Done ctx => ctx | _ => mkContext64 [] 0 0 [] [] 0 end.

Lemma sample64_ok L : 0 ≤ L ≤ INT_MAX - 4 → L mod 4 = 0 → context_ok (sample64 L).
Proof.
  intros HL HL4. unfold sample64, base64_init. rewrite init_ex_unfold.
  set (c2v := for_up 0 64 _ _). vm_compute in c2v. subst c2v. cbn [mbind res_bind].
  set (c2v := store _ _ _). vm_compute in c2v. subst c2v. cbn [mbind res_bind mret res_ret].
  split; cbn [valueToChar charToValue pad_ch line_separator line_sep_len line_length]; try done.
  - intros v Hv. assert (v ∈ seqZ 0 64) as Hin by (apply elem_of_seqZ; lia). revert v Hin Hv.
    assert (∀ P : Z → Prop, Forall P (seqZ 0 64) → ∀ v, v ∈ seqZ 0 64 → 0 ≤ v < 64 → P v) as H.
    { intros P HP v Hv _. by eapply Forall_forall. }
    apply H. unfold chr. cbn [valueToChar]. apply (bool_decide_unpack _). by vm_compute.
  - unfold separator. cbn. by constructor.
Qed.

Definition sample_text : list Z := [72; 101; 108; 108; 111; 33; 10].

Lemma base64_setters_ok_witness :
  context_ok (base64_set_line_separator (base64_set_line_length (sample64 0) 30) [13; 10]).
Proof.
  apply (base64_setters_ok (sample64 0) 30 [13; 10]).
  - by apply sample64_ok.
  - reflexivity.
  - int_lia.
  - unfold ignored. apply (bool_decide_unpack _). by vm_compute.
Defined.

Lemma base64_encode_correct_witness :
  returns (base64_encode_ex (sample64 8) (sample_text ++ [7]) 7 (replicate 20 0) false) (λ '(dest', n),
    n = zlen (base64_text (sample64 8) sample_text false) ∧ n ≤ 13 ∧ (false = true → n = 13) ∧
    take (Z.to_nat n) dest' = base64_text (sample64 8) sample_text false ∧ zget dest' n = Some 0 ∧
    zlen dest' = zlen (replicate 20 0)).
Proof.
  apply (base64_encode_correct (sample64 8) sample_text [7] (replicate 20 0) false 13).
  - by apply sample64_ok.
  - unfold is_byte8. apply (bool_decide_unpack _). by vm_compute.
  - discriminate.
  - reflexivity.
  - reflexivity.
Defined.

Lemma base64_roundtrip_witness :
  returns ('(dest', n) ← base64_encode_ex (sample64 8) sample_text 7 (replicate 20 0) true;
           base64_decode (sample64 8) dest' n (replicate 9 1)) (λ '(back', m),
    m = 7 ∧ take (Z.to_nat m) back' = sample_text ∧ zget back' m = Some 0 ∧ zlen back' = 9).
Proof.
  apply (base64_roundtrip (sample64 8) sample_text (replicate 20 0) (replicate 9 1) 13).
  - by apply sample64_ok.
  - unfold is_byte8. apply (bool_decide_unpack _). by vm_compute.
  - discriminate.
  - reflexivity.
  - reflexivity.
  - by vm_compute.
  - reflexivity.
Defined.

Lemma base64_decode_auto_unpadded_witness :
  returns ('(dest', n) ← base64_encode_ex (sample64 0) sample_text 7 (replicate 20 0) false;
           base64_decode_auto true (sample64 0) dest' n (replicate 9 1)) (λ '(back', m),
    m = 7 ∧ take (Z.to_nat m) back' = sample_text ∧ zget back' m = Some 0 ∧ zlen back' = 9).
Proof.
  apply (base64_decode_auto_unpadded (sample64 0) sample_text (replicate 20 0) (replicate 9 1) 12 false).
  - by apply sample64_ok.
  - reflexivity.
  - unfold is_byte8. apply (bool_decide_unpack _). by vm_compute.
  - discriminate.
  - reflexivity.
  - reflexivity.
  - by vm_compute.
  - by vm_compute.
  - reflexivity.
Defined.

Lemma base64_decode_four_pads_witness :
  base64_decode (sample64 0) (replicate 4 61 ++ []) 4 (replicate 8 0) = Undef.
Proof.
  apply (base64_decode_four_pads (sample64 0) [] (replicate 8 0)); [by apply sample64_ok|by vm_compute].
Defined.

Lemma base64_decode_auto_broken_witness :
  ∃ back', base64_decode_auto true (sample64 4) (base64_text (sample64 4) [72; 101; 108; 108; 111; 33] true ++ [])
    9 (replicate 9 1) = Done (back', 0).
Proof.
  apply (base64_decode_auto_broken (sample64 4) [72; 101; 108; 108; 111; 33] [] (replicate 9 1)).
  - by apply sample64_ok.
  - unfold is_byte8. apply (bool_decide_unpack _). by vm_compute.
  - by vm_compute.
  - reflexivity.
  - by vm_compute.
  - by vm_compute.
  - reflexivity.
Defined.

Lemma base64_unaligned_line_witness : base64_get_encode_length (sample64 7) 12 = Done 18.
Proof.
  refine (proj1 (base64_unaligned_line (sample64 7) _)). vm_compute. reflexivity.
Defined.
