(* ===== verification/SortedSet.v ===== *)
(** Lists sorted by a comparison function: the abstract content of the ordered
    containers, and the elements before, equal to and after a target. *)
From S2P Require Import Prelude.

Section spec.
Context (cmp : Z → Z → Z).

Definition sorted (l : list Z) : Prop := StronglySorted (λ x y, cmp x y < 0) l.

(** Elements before, equal to and after a target. *)
Definition below (x : Z) (l : list Z) : list Z := filter (λ y, cmp y x < 0) l.
Definition same (x : Z) (l : list Z) : list Z := filter (λ y, cmp y x = 0) l.
Definition above (x : Z) (l : list Z) : list Z := filter (λ y, 0 < cmp y x) l.

(** The elements from [a] to [b]. *)
Definition between (a b : Z) (l : list Z) : list Z := filter (λ y, 0 ≤ cmp y a ∧ cmp y b ≤ 0) l.
End spec.

Section sets.
Context (cmp : Z → Z → Z) `{!TotalCompare cmp}.
Implicit Types (x d : Z) (l r : list Z).

Lemma sorted_mid l d r :
  sorted cmp (l ++ d :: r) ↔
  sorted cmp l ∧ sorted cmp r ∧ Forall (λ y, cmp y d < 0) l ∧ Forall (λ y, cmp d y < 0) r ∧
  Forall (λ y, Forall (λ z, cmp y z < 0) r) l.
Proof.
  unfold sorted. rewrite StronglySorted_app. split.
  - intros (Hlr & Hl & Hr). apply StronglySorted_cons in Hr as [Hd Hr].
    split_and!; [done|done| |done|]; apply Forall_forall; intros y Hy.
    + apply Hlr; [done|left].
    + apply Forall_forall. intros z Hz. apply Hlr; [done|by right].
  - intros (Hl & Hr & Hld & Hdr & Hlr). split_and!; [|done|].
    + rewrite Forall_forall in Hld, Hlr. intros y z Hy [->|Hz]%elem_of_cons; [by apply Hld|].
      specialize (Hlr y Hy). rewrite Forall_forall in Hlr. by apply Hlr.
    + by apply StronglySorted_cons.
Qed.

Lemma split_lower x l : Forall (λ y, cmp y x < 0) l → below cmp x l = l ∧ same cmp x l = [] ∧ above cmp x l = [].
Proof.
  induction 1 as [|y l Hy _ (IH1 & IH2 & IH3)]; [done|]. unfold below, same, above in *.
  rewrite filter_cons_True, !filter_cons_False by lia. by rewrite IH1.
Qed.

Lemma split_upper x l : Forall (λ y, 0 < cmp y x) l → below cmp x l = [] ∧ same cmp x l = [] ∧ above cmp x l = l.
Proof.
  induction 1 as [|y l Hy _ (IH1 & IH2 & IH3)]; [done|]. unfold below, same, above in *.
  rewrite filter_cons_False by lia. rewrite filter_cons_False by lia.
  rewrite filter_cons_True by lia. by rewrite IH3.
Qed.

Section mid.
Context (l r : list Z) (d x : Z) (Hs : sorted cmp (l ++ d :: r)).

Lemma split_left :
  0 < cmp d x → below cmp x (l ++ d :: r) = below cmp x l ∧ same cmp x (l ++ d :: r) = same cmp x l ∧
    above cmp x (l ++ d :: r) = above cmp x l ++ d :: r.
Proof using All.
  intros Hd. apply sorted_mid in Hs as (_ & _ & _ & Hdr & _).
  destruct (split_upper x (d :: r)) as (E1 & E2 & E3).
  { constructor; [done|]. eapply Forall_impl; [exact Hdr|]. cbn. intros y Hy.
    apply compare_swap in Hd. apply compare_swap. by apply (compare_lt_le cmp x d); [|lia]. }
  unfold below, same, above in *. rewrite !filter_app, E1, E2, E3, !app_nil_r. done.
Qed.

Lemma split_right :
  cmp d x < 0 → below cmp x (l ++ d :: r) = l ++ d :: below cmp x r ∧ same cmp x (l ++ d :: r) = same cmp x r ∧
    above cmp x (l ++ d :: r) = above cmp x r.
Proof using All.
  intros Hd. apply sorted_mid in Hs as (_ & _ & Hld & _ & _).
  destruct (split_lower x (l ++ [d])) as (E1 & E2 & E3).
  { apply Forall_app. split; [|by apply Forall_singleton]. eapply Forall_impl; [exact Hld|]. cbn.
    intros y Hy. apply (compare_lt_le cmp y d); [done|lia]. }
  change (d :: r) with ([d] ++ r). rewrite app_assoc. unfold below, same, above in *.
  rewrite !(filter_app _ (l ++ [d])), E1, E2, E3, <-app_assoc. done.
Qed.

Lemma split_here :
  cmp d x = 0 → below cmp x (l ++ d :: r) = l ∧ same cmp x (l ++ d :: r) = [d] ∧
    above cmp x (l ++ d :: r) = r.
Proof using All.
  intros Hd. apply sorted_mid in Hs as (_ & _ & Hld & Hdr & _).
  destruct (split_lower x l) as (E1 & E2 & E3).
  { eapply Forall_impl; [exact Hld|]. cbn. intros y Hy. apply (compare_lt_le cmp y d); [done|lia]. }
  destruct (split_upper x r) as (F1 & F2 & F3).
  { eapply Forall_impl; [exact Hdr|]. cbn. intros y Hy. apply compare_swap.
    apply (compare_le_lt cmp x d); [|done]. apply compare_eq_sym in Hd; [lia|done]. }
  unfold below, same, above in *. rewrite !filter_app, E1, E2, E3.
  rewrite filter_cons_False, filter_cons_True, filter_cons_False by lia.
  rewrite F1, F2, F3, app_nil_r. done.
Qed.
End mid.

Lemma sorted_filter (P : Z → Prop) `{!∀ y, Decision (P y)} (l : list Z) :
  sorted cmp l → sorted cmp (filter P l).
Proof.
  unfold sorted. induction 1 as [|y l Hl IH Hy]; [constructor|].
  destruct (decide (P y)); [|by rewrite filter_cons_False].
  rewrite filter_cons_True by done. constructor; [done|].
  apply Forall_forall. intros z [_ Hz]%list_elem_of_filter. rewrite Forall_forall in Hy. by apply Hy.
Qed.

(** The elements around a target, with or without it. *)
Lemma sorted_around x (l : list Z) : sorted cmp l → sorted cmp (below cmp x l ++ x :: above cmp x l).
Proof using All.
  intros Hl. apply sorted_mid. split_and!.
  - by apply sorted_filter.
  - by apply sorted_filter.
  - apply Forall_forall. intros y [Hy _]%list_elem_of_filter; done.
  - apply Forall_forall. intros y [Hy _]%list_elem_of_filter. by apply compare_swap.
  - apply Forall_forall. intros y [Hy _]%list_elem_of_filter.
    apply Forall_forall. intros z [Hz _]%list_elem_of_filter. apply compare_swap in Hz.
    apply (compare_lt_le cmp y x); [done|lia].
Qed.

Lemma sorted_without x (l : list Z) : sorted cmp l → sorted cmp (below cmp x l ++ above cmp x l).
Proof using All.
  intros Hl. apply (sorted_around x) in Hl. apply sorted_mid in Hl as (H1 & H2 & _ & _ & H3).
  apply StronglySorted_app. split_and!; [|done|done].
  rewrite Forall_forall in H3. intros y z Hy Hz. specialize (H3 y Hy). rewrite Forall_forall in H3.
  by apply H3.
Qed.

Lemma below_above_len x l : zlen (below cmp x l) + zlen (above cmp x l) ≤ zlen l.
Proof.
  unfold below, above. induction l as [|y l IH]; [done|]. rewrite !filter_cons.
  repeat case_decide; rewrite ?zlen_cons; lia.
Qed.

Lemma same_nil x l : same cmp x l = [] → filter (λ y, cmp y x ≠ 0) l = l.
Proof.
  unfold same. induction l as [|y l IH]; [done|]. rewrite !filter_cons.
  repeat case_decide; try done. intros. f_equal. by apply IH.
Qed.
End sets.

(** ** Lists sorted by a key of their elements *)

Section keyed.
Context (cmp : Z → Z → Z) `{!TotalCompare cmp} {A : Type} (f : A → Z).
Implicit Types (x : Z) (y : A) (l : list A).

Lemma filter_all {B} (P : B → Prop) `{!∀ y : B, Decision (P y)} (l : list B) : Forall P l → filter P l = l.
Proof. induction 1 as [|z l Hy _ IH]; [done|]. by rewrite filter_cons_True, IH. Qed.

Lemma filter_none {B} (P : B → Prop) `{!∀ y : B, Decision (P y)} (l : list B) : Forall (λ y : B, ¬ P y) l → filter P l = [].
Proof. induction 1 as [|z l Hy _ IH]; [done|]. by rewrite filter_cons_False, IH. Qed.

Definition lower x l : list A := filter (λ y, cmp (f y) x < 0) l.
Definition equal x l : list A := filter (λ y, cmp (f y) x = 0) l.
Definition upper x l : list A := filter (λ y, 0 < cmp (f y) x) l.

Lemma filter_fmap (P : Z → Prop) `{!∀ z, Decision (P z)} l : filter P (f <$> l) = f <$> filter (λ y, P (f y)) l.
Proof. induction l as [|y l IH]; [done|]. rewrite fmap_cons, !filter_cons. case_decide; by rewrite ?fmap_cons, IH. Qed.

Lemma fmap_lower x l : f <$> lower x l = below cmp x (f <$> l).
Proof. unfold below. by rewrite filter_fmap. Qed.
Lemma fmap_equal x l : f <$> equal x l = same cmp x (f <$> l).
Proof. unfold same. by rewrite filter_fmap. Qed.
Lemma fmap_upper x l : f <$> upper x l = above cmp x (f <$> l).
Proof. unfold above. by rewrite filter_fmap. Qed.

Lemma sorted_fmap_filter (P : A → Prop) `{!∀ y, Decision (P y)} l : sorted cmp (f <$> l) → sorted cmp (f <$> filter P l).
Proof.
  unfold sorted. induction l as [|y l IH]; [done|]. rewrite fmap_cons, filter_cons.
  intros [Hy Hl]%StronglySorted_cons. specialize (IH Hl). case_decide; [|done].
  rewrite fmap_cons. apply StronglySorted_cons. split; [|done]. rewrite Forall_fmap in Hy |- *.
  apply Forall_forall. intros z [_ Hz]%list_elem_of_filter. rewrite Forall_forall in Hy. by apply Hy.
Qed.

(** Where the first element stands to a target decides where the others do. *)
Lemma keyed_cons x y l :
  sorted cmp (f <$> y :: l) →
  (0 < cmp (f y) x → lower x (y :: l) = [] ∧ equal x (y :: l) = [] ∧ upper x (y :: l) = y :: l) ∧
  (cmp (f y) x = 0 → lower x (y :: l) = [] ∧ equal x (y :: l) = [y] ∧ upper x (y :: l) = l) ∧
  (cmp (f y) x < 0 → lower x (y :: l) = y :: lower x l ∧ equal x (y :: l) = equal x l ∧ upper x (y :: l) = upper x l).
Proof using All.
  rewrite fmap_cons. intros [Hy Hl]%StronglySorted_cons.
  assert (0 ≤ cmp (f y) x → lower x l = [] ∧ equal x l = [] ∧ upper x l = l) as Hrest.
  { intros Hyx. unfold lower, equal, upper. clear Hl. induction l as [|z l IH]; [done|].
    apply Forall_cons in Hy as [Hz Hy]. rewrite !filter_cons.
    assert (0 < cmp (f z) x).
    { apply compare_swap. apply (compare_le_lt cmp x (f y)); [by apply compare_le_flip|done]. }
    destruct (IH Hy) as (-> & -> & ->). rewrite !decide_False by lia. by rewrite decide_True by lia. }
  unfold lower, equal, upper in *. rewrite !filter_cons. split_and!; intros H.
  - destruct Hrest as (-> & -> & ->); [lia|]. rewrite !decide_False by lia. by rewrite decide_True by lia.
  - destruct Hrest as (-> & -> & ->); [lia|]. rewrite decide_False by lia. rewrite decide_True by lia.
    by rewrite decide_False by lia.
  - rewrite decide_True by lia. rewrite !decide_False by lia. done.
Qed.

Lemma keyed_split x l : sorted cmp (f <$> l) → l = lower x l ++ equal x l ++ upper x l.
Proof using All.
  induction l as [|y l IH]; [done|]. intros Hs. destruct (keyed_cons x y l Hs) as (H1 & H2 & H3).
  apply StronglySorted_cons in Hs as [_ Hs]. specialize (IH Hs).
  destruct (Z.lt_trichotomy (cmp (f y) x) 0) as [Hc|[Hc|Hc]].
  - destruct (H3 Hc) as (-> & -> & ->). cbn. by f_equal.
  - by destruct (H2 Hc) as (-> & -> & ->).
  - by destruct (H1 Hc) as (-> & -> & ->).
Qed.

Lemma keyed_equal x l : sorted cmp (f <$> l) → equal x l = [] ∨ ∃ y, equal x l = [y].
Proof using All.
  induction l as [|y l IH]; [by left|]. intros Hs. destruct (keyed_cons x y l Hs) as (H1 & H2 & H3).
  apply StronglySorted_cons in Hs as [_ Hs]. specialize (IH Hs).
  destruct (Z.lt_trichotomy (cmp (f y) x) 0) as [Hc|[Hc|Hc]].
  - by destruct (H3 Hc) as (_ & -> & _).
  - destruct (H2 Hc) as (_ & -> & _). right. by exists y.
  - destruct (H1 Hc) as (_ & -> & _). by left.
Qed.

(** An element below a target splits the list. *)
Lemma keyed_elem x l1 y l2 :
  sorted cmp (f <$> l1 ++ y :: l2) → cmp (f y) x < 0 →
  lower x (l1 ++ y :: l2) = l1 ++ y :: lower x l2 ∧ equal x (l1 ++ y :: l2) = equal x l2.
Proof using All.
  intros Hs Hy. induction l1 as [|z l1 IH]; cbn [app] in *.
  - by destruct (keyed_cons x y l2 Hs) as (_ & _ & [-> [-> _]]).
  - destruct (keyed_cons x z _ Hs) as (_ & _ & H3). apply StronglySorted_cons in Hs as [Hz Hs].
    destruct (IH Hs) as [E1 E2]. rewrite <-E1, <-E2. destruct H3 as (-> & -> & _); [|done].
    apply Forall_fmap, Forall_app in Hz as [_ [Hz _]%Forall_cons].
    apply (compare_lt_le cmp _ (f y)); [done|]. cbn. lia.
Qed.

(** The elements from [a] to [b]. *)
Definition keyed_between (a b : Z) l : list A := filter (λ y, 0 ≤ cmp (f y) a ∧ cmp (f y) b ≤ 0) l.

Lemma fmap_between a b l : f <$> keyed_between a b l = between cmp a b (f <$> l).
Proof. unfold between. by rewrite filter_fmap. Qed.

Lemma keyed_at_least x l : sorted cmp (f <$> l) → equal x l ++ upper x l = filter (λ y, 0 ≤ cmp (f y) x) l.
Proof using All.
  intros Hs. rewrite (keyed_split x l Hs) at 3. rewrite !filter_app.
  rewrite (filter_none _ (lower x l)), (filter_all _ (equal x l)), (filter_all _ (upper x l)); [done|..];
    apply Forall_forall; intros y [Hy _]%list_elem_of_filter; lia.
Qed.

Lemma keyed_at_most x l : sorted cmp (f <$> l) → lower x l ++ equal x l = filter (λ y, cmp (f y) x ≤ 0) l.
Proof using All.
  intros Hs. rewrite (keyed_split x l Hs) at 3. rewrite !filter_app.
  rewrite (filter_all _ (lower x l)), (filter_all _ (equal x l)), (filter_none _ (upper x l)), app_nil_r; [done|..];
    apply Forall_forall; intros y [Hy _]%list_elem_of_filter; lia.
Qed.

(** What is not below [a] is what lies between [a] and [b], then what is above [b]. *)
Lemma keyed_range a b l :
  sorted cmp (f <$> l) → cmp a b ≤ 0 → equal a l ++ upper a l = keyed_between a b l ++ upper b l.
Proof using All.
  intros Hs Hab. rewrite keyed_at_least by done.
  pose proof (sorted_fmap_filter (λ y, 0 ≤ cmp (f y) a) l Hs) as Hf.
  rewrite (keyed_split b _ Hf), app_assoc, keyed_at_most by done. f_equal.
  - rewrite list_filter_filter. apply list_filter_iff. intros y. lia.
  - unfold upper. rewrite list_filter_filter. apply list_filter_iff. intros y. split; [lia|].
    intros Hy. split; [done|]. apply compare_le_flip; [done|]. apply compare_swap in Hy.
    pose proof (compare_le_lt cmp a b (f y) Hab Hy). lia.
Qed.
End keyed.
