(* ===== verification/AvlTree.v ===== *)
(** libs/fastcommon/src/avl_tree.c: height-balanced search trees.

    A node is its data pointer, its two subtrees and its balance; a pointer to
    data is an integer, NULL being 0. Operations that rewrite the tree through a
    pointer to the current node return the new subtree, next to the flags they
    set and the list of the data they hand to [free_data_func]. Following a NULL
    pointer is [Undef]. *)
From S2P Require Import Prelude SortedSet.

(** * Code *)

Inductive AVLTreeNode : Type :=
| NoNode
| TreeNode (data : Z) (left right : AVLTreeNode) (balance : Z).

(** [free_data_func]: whether one was given; what it frees is logged. *)
Record AVLTreeInfo := mkTree {
  root : AVLTreeNode; free_data_func : bool; compare_func : Z → Z → Z }.

Definition ENOMEM : Z := 12.

Definition avl_tree_init (free_data : bool) (cmp : Z → Z → Z) : AVLTreeInfo * Z :=
  (mkTree NoNode free_data cmp, 0).

(** What [free_data_func(data)] does, when there is one. *)
Definition free_data (given : bool) (data : Z) : list Z := if given then [data] else [].

(** The data freed, in order. *)
Fixpoint avl_tree_destroy_loop (given : bool) (pCurrentNode : AVLTreeNode) : res (list Z) :=
  match pCurrentNode with
  | NoNode => Undef
  | TreeNode d l r _ =>
      fl ← match l with NoNode => mret [] | _ => avl_tree_destroy_loop given l end;
      fr ← match r with NoNode => mret [] | _ => avl_tree_destroy_loop given r end;
      mret (fl ++ fr ++ free_data given d)
  end.

Definition avl_tree_destroy (tree : option AVLTreeInfo) : res (option AVLTreeInfo * list Z) :=
  match tree with
  | None => mret (None, [])
  | Some tree =>
      match root tree with
      | NoNode => mret (Some tree, [])
      | t => freed ← avl_tree_destroy_loop (free_data_func tree) t;
             mret (Some (mkTree NoNode (free_data_func tree) (compare_func tree)), freed)
      end
  end.

(** [malloc_ok]: the outcome of the allocation. *)
Definition createTreeNode (malloc_ok : bool) (target_data : Z) : AVLTreeNode :=
  if malloc_ok then TreeNode target_data NoNode NoNode 0 else NoNode.

(** The node raised in place of [pRotateNode]. *)
Definition avlRotateLeft (pRotateNode : AVLTreeNode) : res AVLTreeNode :=
  match pRotateNode with
  | TreeNode d l (TreeNode rd rl rr rb) b => Done (TreeNode rd (TreeNode d l rl b) rr rb)
  | _ => Undef
  end.

Definition avlRotateRight (pRotateNode : AVLTreeNode) : res AVLTreeNode :=
  match pRotateNode with
  | TreeNode d (TreeNode ld ll lr lb) r b => Done (TreeNode ld ll (TreeNode d lr r b) lb)
  | _ => Undef
  end.

(** The inner switches: new balances of the node and of its subtree. *)
Definition left_switch (rb b lb : Z) : Z * Z :=
  if rb =? -1 then (1, 0) else if rb =? 0 then (0, 0) else if rb =? 1 then (0, -1) else (b, lb).
Definition right_switch (lb b rb : Z) : Z * Z :=
  if lb =? 1 then (-1, 0) else if lb =? 0 then (0, 0) else if lb =? -1 then (0, 1) else (b, rb).

(** The double rotations both balancing functions end with. *)
Definition left_double (d : Z) (ld : Z) (ll lr r : AVLTreeNode) (b lb : Z) : res AVLTreeNode :=
  match lr with
  | NoNode => Undef
  | TreeNode rd rl rr rb =>
      let '(b, lb) := left_switch rb b lb in
      l ← avlRotateLeft (TreeNode ld ll (TreeNode rd rl rr 0) lb);
      avlRotateRight (TreeNode d l r b)
  end.
Definition right_double (d : Z) (l : AVLTreeNode) (rd : Z) (rl rr : AVLTreeNode) (b rb : Z)
    : res AVLTreeNode :=
  match rl with
  | NoNode => Undef
  | TreeNode ld ll lr lb =>
      let '(b, rb) := right_switch lb b rb in
      r ← avlRotateRight (TreeNode rd (TreeNode ld ll lr 0) rr rb);
      avlRotateLeft (TreeNode d l r b)
  end.

Definition avlLeftBalanceWhenInsert (t : AVLTreeNode) (taller : Z) : res (AVLTreeNode * Z) :=
  match t with
  | TreeNode d (TreeNode ld ll lr lb) r b =>
      if lb =? -1 then
        t ← avlRotateRight (TreeNode d (TreeNode ld ll lr 0) r 0); mret (t, 0)
      else if lb =? 0 then mret (t, taller)
      else if lb =? 1 then t ← left_double d ld ll lr r b lb; mret (t, 0)
      else mret (t, taller)
  | _ => Undef
  end.

Definition avlRightBalanceWhenInsert (t : AVLTreeNode) (taller : Z) : res (AVLTreeNode * Z) :=
  match t with
  | TreeNode d l (TreeNode rd rl rr rb) b =>
      if rb =? 1 then
        t ← avlRotateLeft (TreeNode d l (TreeNode rd rl rr 0) 0); mret (t, 0)
      else if rb =? 0 then mret (t, taller)
      else if rb =? -1 then t ← right_double d l rd rl rr b rb; mret (t, 0)
      else mret (t, taller)
  | _ => Undef
  end.

(** After an insertion into the left (right) subtree. *)
Definition left_inserted (d : Z) (l r : AVLTreeNode) (b taller : Z) : res (AVLTreeNode * Z) :=
  if negb (taller =? 0) then
    if b =? -1 then avlLeftBalanceWhenInsert (TreeNode d l r b) taller
    else if b =? 0 then mret (TreeNode d l r (-1), taller)
    else if b =? 1 then mret (TreeNode d l r 0, 0)
    else mret (TreeNode d l r b, taller)
  else mret (TreeNode d l r b, taller).
Definition right_inserted (d : Z) (l r : AVLTreeNode) (b taller : Z) : res (AVLTreeNode * Z) :=
  if negb (taller =? 0) then
    if b =? -1 then mret (TreeNode d l r 0, 0)
    else if b =? 0 then mret (TreeNode d l r 1, taller)
    else if b =? 1 then avlRightBalanceWhenInsert (TreeNode d l r b) taller
    else mret (TreeNode d l r b, taller)
  else mret (TreeNode d l r b, taller).

(** The current subtree, the result and [*taller]. *)
Fixpoint avl_tree_insert_loop (cmp : Z → Z → Z) (malloc_ok : bool) (pCurrentNode : AVLTreeNode)
    (target_data taller : Z) : res (AVLTreeNode * Z * Z) :=
  match pCurrentNode with
  | NoNode =>
      match createTreeNode malloc_ok target_data with
      | NoNode => mret (NoNode, - ENOMEM, taller)
      | t => mret (t, 1, 1)
      end
  | TreeNode d l r b =>
      let nCompRes := cmp d target_data in
      if 0 <? nCompRes then
        '(l, success, taller) ← avl_tree_insert_loop cmp malloc_ok l target_data taller;
        '(t, taller) ← left_inserted d l r b taller;
        mret (t, success, taller)
      else if nCompRes <? 0 then
        '(r, success, taller) ← avl_tree_insert_loop cmp malloc_ok r target_data taller;
        '(t, taller) ← right_inserted d l r b taller;
        mret (t, success, taller)
      else mret (pCurrentNode, 0, taller)
  end.

Definition set_root (tree : AVLTreeInfo) (t : AVLTreeNode) : AVLTreeInfo :=
  mkTree t (free_data_func tree) (compare_func tree).

Definition avl_tree_insert (malloc_ok : bool) (tree : AVLTreeInfo) (data : Z)
    : res (AVLTreeInfo * Z) :=
  '(t, success, _) ← avl_tree_insert_loop (compare_func tree) malloc_ok (root tree) data 0;
  mret (set_root tree t, success).

(** As insertion; the data of an equal node is freed and replaced. *)
Fixpoint avl_tree_replace_loop (cmp : Z → Z → Z) (given malloc_ok : bool)
    (pCurrentNode : AVLTreeNode) (target_data taller : Z)
    : res (AVLTreeNode * Z * Z * list Z) :=
  match pCurrentNode with
  | NoNode =>
      match createTreeNode malloc_ok target_data with
      | NoNode => mret (NoNode, - ENOMEM, taller, [])
      | t => mret (t, 1, 1, [])
      end
  | TreeNode d l r b =>
      let nCompRes := cmp d target_data in
      if 0 <? nCompRes then
        '(l, success, taller, freed) ←
          avl_tree_replace_loop cmp given malloc_ok l target_data taller;
        '(t, taller) ← left_inserted d l r b taller;
        mret (t, success, taller, freed)
      else if nCompRes <? 0 then
        '(r, success, taller, freed) ←
          avl_tree_replace_loop cmp given malloc_ok r target_data taller;
        '(t, taller) ← right_inserted d l r b taller;
        mret (t, success, taller, freed)
      else mret (TreeNode target_data l r b, 0, taller, free_data given d)
  end.

Definition avl_tree_replace (malloc_ok : bool) (tree : AVLTreeInfo) (data : Z)
    : res (AVLTreeInfo * Z * list Z) :=
  '(t, success, _, freed) ←
    avl_tree_replace_loop (compare_func tree) (free_data_func tree) malloc_ok (root tree) data 0;
  mret (set_root tree t, success, freed).

(** The node found, or none. *)
Fixpoint avl_tree_find_loop (cmp : Z → Z → Z) (pCurrentNode : AVLTreeNode) (target_data : Z)
    : res AVLTreeNode :=
  match pCurrentNode with
  | NoNode => Undef
  | TreeNode d l r _ =>
      let nCompRes := cmp d target_data in
      if 0 <? nCompRes then
        match l with NoNode => mret NoNode | _ => avl_tree_find_loop cmp l target_data end
      else if nCompRes <? 0 then
        match r with NoNode => mret NoNode | _ => avl_tree_find_loop cmp r target_data end
      else mret pCurrentNode
  end.

Fixpoint avl_tree_find_ge_loop (cmp : Z → Z → Z) (pCurrentNode : AVLTreeNode) (target_data : Z)
    : res Z :=
  match pCurrentNode with
  | NoNode => Undef
  | TreeNode d l r _ =>
      let nCompRes := cmp d target_data in
      if 0 <? nCompRes then
        match l with
        | NoNode => mret d
        | _ => found ← avl_tree_find_ge_loop cmp l target_data;
               mret (if negb (found =? 0) then found else d)
        end
      else if nCompRes <? 0 then
        match r with NoNode => mret 0 | _ => avl_tree_find_ge_loop cmp r target_data end
      else mret d
  end.

Definition avl_tree_find (tree : AVLTreeInfo) (target_data : Z) : res Z :=
  match root tree with
  | NoNode => mret 0
  | t => found ← avl_tree_find_loop (compare_func tree) t target_data;
         mret (match found with NoNode => 0 | TreeNode d _ _ _ => d end)
  end.

Definition avl_tree_find_ge (tree : AVLTreeInfo) (target_data : Z) : res Z :=
  match root tree with
  | NoNode => mret 0
  | t => avl_tree_find_ge_loop (compare_func tree) t target_data
  end.

Definition avlLeftBalanceWhenDelete (t : AVLTreeNode) (shorter : Z) : res (AVLTreeNode * Z) :=
  match t with
  | TreeNode d (TreeNode ld ll lr lb) r b =>
      if lb =? -1 then
        t ← avlRotateRight (TreeNode d (TreeNode ld ll lr 0) r 0); mret (t, shorter)
      else if lb =? 0 then
        t ← avlRotateRight (TreeNode d (TreeNode ld ll lr 1) r b); mret (t, 0)
      else if lb =? 1 then t ← left_double d ld ll lr r b lb; mret (t, shorter)
      else mret (t, shorter)
  | _ => Undef
  end.

Definition avlRightBalanceWhenDelete (t : AVLTreeNode) (shorter : Z) : res (AVLTreeNode * Z) :=
  match t with
  | TreeNode d l (TreeNode rd rl rr rb) b =>
      if rb =? 1 then
        t ← avlRotateLeft (TreeNode d l (TreeNode rd rl rr 0) 0); mret (t, shorter)
      else if rb =? 0 then
        t ← avlRotateLeft (TreeNode d l (TreeNode rd rl rr (-1)) b); mret (t, 0)
      else if rb =? -1 then t ← right_double d l rd rl rr b rb; mret (t, shorter)
      else mret (t, shorter)
  | _ => Undef
  end.

(** After a deletion from the left (right) subtree. *)
Definition left_deleted (d : Z) (l r : AVLTreeNode) (b shorter : Z) : res (AVLTreeNode * Z) :=
  if negb (shorter =? 0) then
    if b =? -1 then mret (TreeNode d l r 0, shorter)
    else if b =? 0 then mret (TreeNode d l r 1, 0)
    else if b =? 1 then avlRightBalanceWhenDelete (TreeNode d l r b) shorter
    else mret (TreeNode d l r b, shorter)
  else mret (TreeNode d l r b, shorter).
Definition right_deleted (d : Z) (l r : AVLTreeNode) (b shorter : Z) : res (AVLTreeNode * Z) :=
  if negb (shorter =? 0) then
    if b =? -1 then avlLeftBalanceWhenDelete (TreeNode d l r b) shorter
    else if b =? 0 then mret (TreeNode d l r (-1), 0)
    else if b =? 1 then mret (TreeNode d l r 0, shorter)
    else mret (TreeNode d l r b, shorter)
  else mret (TreeNode d l r b, shorter).

(** [deleted]: whether [pDeletedDataNode] is given; what the code stores into its
    data field is returned: the subtree, the result, [*shorter], the data stored
    and the data freed. *)
Fixpoint avl_tree_delete_loop (cmp : Z → Z → Z) (given : bool) (pCurrentNode : AVLTreeNode)
    (target_data shorter : Z) (deleted : bool)
    : res (AVLTreeNode * Z * Z * option Z * list Z) :=
  match pCurrentNode with
  | NoNode => Undef
  | TreeNode d l r b =>
      let nCompRes := if deleted then -1 else cmp d target_data in
      match deleted, r with
      | true, NoNode => mret (l, 1, 1, Some d, [])
      | _, _ =>
          if 0 <? nCompRes then
            match l with
            | NoNode => mret (pCurrentNode, 0, shorter, None, [])
            | _ =>
                '(l, result, shorter, moved, freed) ←
                  avl_tree_delete_loop cmp given l target_data shorter deleted;
                '(t, shorter) ← left_deleted d l r b shorter;
                mret (t, result, shorter, moved, freed)
            end
          else if nCompRes <? 0 then
            match r with
            | NoNode => mret (pCurrentNode, 0, shorter, None, [])
            | _ =>
                '(r, result, shorter, moved, freed) ←
                  avl_tree_delete_loop cmp given r target_data shorter deleted;
                '(t, shorter) ← right_deleted d l r b shorter;
                mret (t, result, shorter, moved, freed)
            end
          else
            let freed := free_data given d in
            match l, r with
            | NoNode, _ => mret (r, 1, 1, None, freed)
            | _, NoNode => mret (l, 1, 1, None, freed)
            | _, _ =>
                '(l, _, shorter, moved, freed') ←
                  avl_tree_delete_loop cmp given l target_data shorter true;
                '(t, shorter) ← left_deleted (default d moved) l r b shorter;
                mret (t, 1, shorter, None, freed ++ freed')
            end
      end
  end.

Definition avl_tree_delete (tree : AVLTreeInfo) (data : Z) : res (AVLTreeInfo * Z * list Z) :=
  match root tree with
  | NoNode => mret (tree, 0, [])
  | t =>
      '(t, result, _, _, freed) ←
        avl_tree_delete_loop (compare_func tree) (free_data_func tree) t data 0 false;
      mret (set_root tree t, result, freed)
  end.

(** [data_op_func(data, args)] acts on a state behind [args]. *)
Fixpoint avl_tree_walk_loop {A} (data_op_func : Z → A → Z * A) (pCurrentNode : AVLTreeNode) (args : A)
    : res (Z * A) :=
  match pCurrentNode with
  | NoNode => Undef
  | TreeNode d l r _ =>
      '(result, args) ← match l with NoNode => mret (0, args) | _ => avl_tree_walk_loop data_op_func l args end;
      if negb (result =? 0) then mret (result, args)
      else
        let '(result, args) := data_op_func d args in
        if negb (result =? 0) then mret (result, args)
        else match r with NoNode => mret (result, args) | _ => avl_tree_walk_loop data_op_func r args end
  end.

Definition avl_tree_walk {A} (tree : AVLTreeInfo) (data_op_func : Z → A → Z * A) (args : A)
    : res (Z * A) :=
  match root tree with
  | NoNode => mret (0, args)
  | t => avl_tree_walk_loop data_op_func t args
  end.

Fixpoint avl_tree_count_loop (pCurrentNode : AVLTreeNode) (count : Z) : res Z :=
  match pCurrentNode with
  | NoNode => Undef
  | TreeNode _ l r _ =>
      count ← match l with NoNode => mret count | _ => avl_tree_count_loop l count end;
      count ← cint (count + 1);
      match r with NoNode => mret count | _ => avl_tree_count_loop r count end
  end.

Definition avl_tree_count (tree : AVLTreeInfo) : res Z :=
  match root tree with NoNode => mret 0 | t => avl_tree_count_loop t 0 end.

(** The while loop follows one branch down. *)
Fixpoint depth_loop (pNode : AVLTreeNode) (depth : Z) : res Z :=
  match pNode with
  | NoNode => mret depth
  | TreeNode _ l r b => depth ← cint (depth + 1); if b =? -1 then depth_loop l depth else depth_loop r depth
  end.

Definition avl_tree_depth (tree : AVLTreeInfo) : res Z :=
  match root tree with NoNode => mret 0 | t => depth_loop t 0 end.


(** * Specification *)

Fixpoint elems (t : AVLTreeNode) : list Z :=
  match t with NoNode => [] | TreeNode d l r _ => elems l ++ d :: elems r end.

Fixpoint height (t : AVLTreeNode) : Z :=
  match t with NoNode => 0 | TreeNode _ l r _ => 1 + Z.max (height l) (height r) end.

Definition bal (t : AVLTreeNode) : Z := match t with NoNode => 0 | TreeNode _ _ _ b => b end.

(** Every node's balance is the difference of its subtrees' heights, at most one. *)
Fixpoint balanced (t : AVLTreeNode) : Prop :=
  match t with
  | NoNode => True
  | TreeNode _ l r b => balanced l ∧ balanced r ∧ b = height r - height l ∧ -1 ≤ b ≤ 1
  end.

(** What each operation makes of the sorted list of the elements: its new content,
    the result and the freed data. *)
Section spec.
Context (cmp : Z → Z → Z).

Definition set_insert (ok : bool) (x : Z) (l : list Z) : list Z * Z :=
  match same cmp x l with
  | [] => if ok then (below cmp x l ++ x :: above cmp x l, 1) else (l, - ENOMEM)
  | _ => (l, 0)
  end.
Definition set_replace (given ok : bool) (x : Z) (l : list Z) : list Z * Z * list Z :=
  match same cmp x l with
  | [] => if ok then (below cmp x l ++ x :: above cmp x l, 1, []) else (l, - ENOMEM, [])
  | y :: _ => (below cmp x l ++ x :: above cmp x l, 0, free_data given y)
  end.
Definition set_delete (given : bool) (x : Z) (l : list Z) : list Z * Z * list Z :=
  match same cmp x l with
  | [] => (l, 0, [])
  | y :: _ => (below cmp x l ++ above cmp x l, 1, free_data given y)
  end.
Definition set_find (x : Z) (l : list Z) : Z := default 0 (head (same cmp x l)).
Definition set_find_ge (x : Z) (l : list Z) : Z := default 0 (head (same cmp x l ++ above cmp x l)).
End spec.

(** * Balance *)

Lemma height_nonneg t : 0 ≤ height t.
Proof. induction t; cbn [height]; lia. Qed.

Lemma height_zero t : height t ≤ 0 → t = NoNode.
Proof. destruct t as [|d l r b]; [done|]. cbn [height]. pose proof (height_nonneg l). lia. Qed.

(** Case analysis on the subtrees a rotation looks at. *)
Ltac bal_cases :=
  repeat match goal with
  | H : balanced (TreeNode _ _ _ _) |- _ => cbn [balanced] in H; destruct H as (? & ? & ? & ?)
  | H : _ ∧ _ |- _ => destruct H
  end.

Ltac bal_heights :=
  repeat match goal with
  | t : AVLTreeNode |- _ =>
      lazymatch goal with
      | _ : 0 ≤ height t |- _ => fail
      | _ => pose proof (height_nonneg t)
      end
  end.

Ltac bal_solve :=
  cbn [returns mret res_ret balanced height bal elems] in *;
  repeat (progress (rewrite <-?app_assoc); cbn [app]);
  split_and?; try done; bal_heights; try lia.

(** A node whose left subtree is two levels higher, the left one leaning left. *)
Lemma left_double_spec d ld ll lr r b lb :
  balanced ll → balanced lr → balanced r →
  lb = height lr - height ll → lb = 1 → height lr = height r + 1 →
  returns (left_double d ld ll lr r b lb) (λ t, balanced t ∧ bal t = 0 ∧
    height t = height r + 2 ∧ elems t = elems ll ++ ld :: elems lr ++ d :: elems r).
Proof.
  intros Hll Hlr Hr Hlb H1 Hh. destruct lr as [|rd rl rr rb].
  { cbn [height] in *. pose proof (height_nonneg r). lia. }
  unfold left_double, left_switch. bal_cases. cbn [height] in *.
  assert (rb = -1 ∨ rb = 0 ∨ rb = 1) as [->|[->| ->]] by lia;
    cbn [Z.eqb Pos.eqb Z.opp avlRotateLeft avlRotateRight mbind res_bind]; bal_solve.
Qed.

Lemma right_double_spec d l rd rl rr b rb :
  balanced l → balanced rl → balanced rr →
  rb = height rr - height rl → rb = -1 → height rl = height l + 1 →
  returns (right_double d l rd rl rr b rb) (λ t, balanced t ∧ bal t = 0 ∧
    height t = height l + 2 ∧ elems t = elems l ++ d :: elems rl ++ rd :: elems rr).
Proof.
  intros Hl Hrl Hrr Hrb H1 Hh. destruct rl as [|ld ll lr lb].
  { cbn [height] in *. pose proof (height_nonneg l). lia. }
  unfold right_double, right_switch. bal_cases. cbn [height] in *.
  assert (lb = -1 ∨ lb = 0 ∨ lb = 1) as [->|[->| ->]] by lia;
    cbn [Z.eqb Pos.eqb Z.opp avlRotateLeft avlRotateRight mbind res_bind]; bal_solve.
Qed.

(** ** Insertion *)

(** What an insertion that reports [taller] has done to a subtree. *)
Definition grown (t t' : AVLTreeNode) (taller : Z) : Prop :=
  taller = 0 ∧ height t' = height t ∨
  taller = 1 ∧ height t' = height t + 1 ∧ (t = NoNode ∨ bal t' ≠ 0).

Lemma left_inserted_spec d l l' r b taller :
  balanced (TreeNode d l r b) → balanced l' → grown l l' taller →
  returns (left_inserted d l' r b taller) (λ '(t, taller'),
    balanced t ∧ elems t = elems l' ++ d :: elems r ∧ grown (TreeNode d l r b) t taller').
Proof.
  intros Hb Hl' Hg. cbn [balanced] in Hb. destruct Hb as (Hl & Hr & Eb & Hbd).
  unfold left_inserted, grown in *.
  destruct Hg as [[-> Hh]|(-> & Hh & Hg)]; cbn [Z.eqb negb].
  { cbn [returns mret res_ret balanced elems height]. split_and!; try done; lia. }
  assert (b = -1 ∨ b = 0 ∨ b = 1) as [Hc|[Hc|Hc]] by lia; rewrite Hc in *; cbn [Z.eqb Pos.eqb Z.opp].
  - destruct l' as [|ld ll lr lb]; [cbn [height] in Hh; pose proof (height_nonneg l); lia|].
    cbn [avlLeftBalanceWhenInsert]. cbn [balanced bal] in *. destruct Hl' as (Hll & Hlr & Elb & Hlb).
    assert (lb = -1 ∨ lb = 0 ∨ lb = 1) as [Hd|[Hd|Hd]] by lia; rewrite Hd in *; cbn [Z.eqb Pos.eqb Z.opp].
    + cbn [avlRotateRight mbind res_bind]. bal_solve.
    + destruct Hg as [->|]; [|done]. cbn [height] in *. bal_heights. lia.
    + apply returns_bind. cbn [height] in *. eapply returns_mono; [apply left_double_spec; bal_heights; done || lia|].
      intros t (Ht & _ & Hht & Het). bal_solve.
  - cbn [returns mret res_ret balanced elems height bal]. bal_heights. split_and!; try done; lia.
  - cbn [returns mret res_ret balanced elems height bal]. bal_heights. split_and!; try done; lia.
Qed.

Lemma right_inserted_spec d l r r' b taller :
  balanced (TreeNode d l r b) → balanced r' → grown r r' taller →
  returns (right_inserted d l r' b taller) (λ '(t, taller'),
    balanced t ∧ elems t = elems l ++ d :: elems r' ∧ grown (TreeNode d l r b) t taller').
Proof.
  intros Hb Hr' Hg. cbn [balanced] in Hb. destruct Hb as (Hl & Hr & Eb & Hbd).
  unfold right_inserted, grown in *.
  destruct Hg as [[-> Hh]|(-> & Hh & Hg)]; cbn [Z.eqb negb].
  { cbn [returns mret res_ret balanced elems height]. split_and!; try done; lia. }
  assert (b = -1 ∨ b = 0 ∨ b = 1) as [Hc|[Hc|Hc]] by lia; rewrite Hc in *; cbn [Z.eqb Pos.eqb Z.opp].
  - cbn [returns mret res_ret balanced elems height bal]. bal_heights. split_and!; try done; lia.
  - cbn [returns mret res_ret balanced elems height bal]. bal_heights. split_and!; try done; lia.
  - destruct r' as [|rd rl rr rb]; [cbn [height] in Hh; pose proof (height_nonneg r); lia|].
    cbn [avlRightBalanceWhenInsert]. cbn [balanced bal] in *. destruct Hr' as (Hrl & Hrr & Erb & Hrb).
    assert (rb = -1 ∨ rb = 0 ∨ rb = 1) as [Hd|[Hd|Hd]] by lia; rewrite Hd in *; cbn [Z.eqb Pos.eqb Z.opp].
    + apply returns_bind. cbn [height] in *. eapply returns_mono; [apply right_double_spec; bal_heights; done || lia|].
      intros t (Ht & _ & Hht & Het). bal_solve.
    + destruct Hg as [->|]; [|done]. cbn [height] in *. bal_heights. lia.
    + cbn [avlRotateLeft mbind res_bind]. bal_solve.
Qed.

(** ** Deletion *)

Definition shrunk (t t' : AVLTreeNode) (shorter : Z) : Prop :=
  (shorter = 0 ∨ shorter = 1) ∧ height t' = height t - shorter.

Lemma left_deleted_spec d d' l l' r b shorter :
  balanced (TreeNode d l r b) → balanced l' → shrunk l l' shorter →
  returns (left_deleted d' l' r b shorter) (λ '(t, shorter'),
    balanced t ∧ elems t = elems l' ++ d' :: elems r ∧ shrunk (TreeNode d l r b) t shorter').
Proof.
  intros Hb Hl' [Hs Hh]. cbn [balanced] in Hb. destruct Hb as (Hl & Hr & Eb & Hbd).
  unfold left_deleted, shrunk in *.
  destruct Hs as [->| ->]; cbn [Z.eqb negb].
  { cbn [returns mret res_ret balanced elems height]. split_and!; try done; lia. }
  assert (b = -1 ∨ b = 0 ∨ b = 1) as [Hc|[Hc|Hc]] by lia; rewrite Hc in *; cbn [Z.eqb Pos.eqb Z.opp].
  - cbn [returns mret res_ret balanced elems height bal]. bal_heights. split_and!; try done; lia.
  - cbn [returns mret res_ret balanced elems height bal]. bal_heights. split_and!; try done; lia.
  - destruct r as [|rd rl rr rb]; [cbn [height] in *; bal_heights; lia|].
    cbn [avlRightBalanceWhenDelete]. cbn [balanced bal] in *. destruct Hr as (Hrl & Hrr & Erb & Hrb).
    assert (rb = -1 ∨ rb = 0 ∨ rb = 1) as [Hd|[Hd|Hd]] by lia; rewrite Hd in *; cbn [Z.eqb Pos.eqb Z.opp].
    + apply returns_bind. cbn [height] in *. eapply returns_mono; [apply right_double_spec; bal_heights; done || lia|].
      intros t (Ht & _ & Hht & Het). bal_solve.
    + cbn [avlRotateLeft mbind res_bind]. bal_solve.
    + cbn [avlRotateLeft mbind res_bind]. bal_solve.
Qed.

Lemma right_deleted_spec d l r r' b shorter :
  balanced (TreeNode d l r b) → balanced r' → shrunk r r' shorter →
  returns (right_deleted d l r' b shorter) (λ '(t, shorter'),
    balanced t ∧ elems t = elems l ++ d :: elems r' ∧ shrunk (TreeNode d l r b) t shorter').
Proof.
  intros Hb Hr' [Hs Hh]. cbn [balanced] in Hb. destruct Hb as (Hl & Hr & Eb & Hbd).
  unfold right_deleted, shrunk in *.
  destruct Hs as [->| ->]; cbn [Z.eqb negb].
  { cbn [returns mret res_ret balanced elems height]. split_and!; try done; lia. }
  assert (b = -1 ∨ b = 0 ∨ b = 1) as [Hc|[Hc|Hc]] by lia; rewrite Hc in *; cbn [Z.eqb Pos.eqb Z.opp].
  - destruct l as [|ld ll lr lb]; [cbn [height] in *; bal_heights; lia|].
    cbn [avlLeftBalanceWhenDelete]. cbn [balanced bal] in *. destruct Hl as (Hll & Hlr & Elb & Hlb).
    assert (lb = -1 ∨ lb = 0 ∨ lb = 1) as [Hd|[Hd|Hd]] by lia; rewrite Hd in *; cbn [Z.eqb Pos.eqb Z.opp].
    + cbn [avlRotateRight mbind res_bind]. bal_solve.
    + cbn [avlRotateRight mbind res_bind]. bal_solve.
    + apply returns_bind. cbn [height] in *. eapply returns_mono; [apply left_double_spec; bal_heights; done || lia|].
      intros t (Ht & _ & Hht & Het). bal_solve.
  - cbn [returns mret res_ret balanced elems height bal]. bal_heights. split_and!; try done; lia.
  - cbn [returns mret res_ret balanced elems height bal]. bal_heights. split_and!; try done; lia.
Qed.

(** * Sides of a sorted list *)

Section sets.
Context (cmp : Z → Z → Z) `{!TotalCompare cmp}.
Context (l r : list Z) (d x : Z) (Hs : sorted cmp (l ++ d :: r)).

(** Each operation acts on one side of an element that differs from its target. *)
Lemma set_insert_left ok :
  0 < cmp d x → set_insert cmp ok x (l ++ d :: r) =
  let '(k, s) := set_insert cmp ok x l in (k ++ d :: r, s).
Proof using All.
  intros Hd. unfold set_insert. destruct (split_left cmp l r d x Hs Hd) as (-> & -> & ->).
  destruct (same cmp x l); [|done]. destruct ok; [|done]. by rewrite <-app_assoc.
Qed.

Lemma set_insert_right ok :
  cmp d x < 0 → set_insert cmp ok x (l ++ d :: r) =
  let '(k, s) := set_insert cmp ok x r in (l ++ d :: k, s).
Proof using All.
  intros Hd. unfold set_insert. destruct (split_right cmp l r d x Hs Hd) as (-> & -> & ->).
  destruct (same cmp x r); [|done]. destruct ok; [|done]. by rewrite <-app_assoc.
Qed.

Lemma set_replace_left given ok :
  0 < cmp d x → set_replace cmp given ok x (l ++ d :: r) =
  let '(k, s, f) := set_replace cmp given ok x l in (k ++ d :: r, s, f).
Proof using All.
  intros Hd. unfold set_replace. destruct (split_left cmp l r d x Hs Hd) as (-> & -> & ->).
  destruct (same cmp x l); [destruct ok|]; try done; by rewrite <-app_assoc.
Qed.

Lemma set_replace_right given ok :
  cmp d x < 0 → set_replace cmp given ok x (l ++ d :: r) =
  let '(k, s, f) := set_replace cmp given ok x r in (l ++ d :: k, s, f).
Proof using All.
  intros Hd. unfold set_replace. destruct (split_right cmp l r d x Hs Hd) as (-> & -> & ->).
  destruct (same cmp x r); [destruct ok|]; try done; by rewrite <-app_assoc.
Qed.

Lemma set_delete_left given :
  0 < cmp d x → set_delete cmp given x (l ++ d :: r) =
  let '(k, s, f) := set_delete cmp given x l in (k ++ d :: r, s, f).
Proof using All.
  intros Hd. unfold set_delete. destruct (split_left cmp l r d x Hs Hd) as (-> & -> & ->).
  destruct (same cmp x l); [done|]. by rewrite <-app_assoc.
Qed.

Lemma set_delete_right given :
  cmp d x < 0 → set_delete cmp given x (l ++ d :: r) =
  let '(k, s, f) := set_delete cmp given x r in (l ++ d :: k, s, f).
Proof using All.
  intros Hd. unfold set_delete. destruct (split_right cmp l r d x Hs Hd) as (-> & -> & ->).
  destruct (same cmp x r); [done|]. by rewrite <-app_assoc.
Qed.
End sets.

Section operations.
Context (cmp : Z → Z → Z) `{!TotalCompare cmp}.
Implicit Types (x d : Z) (t l r : AVLTreeNode).

Lemma set_insert_sorted ok x (l : list Z) : sorted cmp l → sorted cmp (set_insert cmp ok x l).1.
Proof using All.
  intros Hl. unfold set_insert. destruct (same cmp x l); [|done].
  destruct ok; [by apply (sorted_around cmp)|done].
Qed.

Lemma set_replace_sorted given ok x (l : list Z) : sorted cmp l → sorted cmp (set_replace cmp given ok x l).1.1.
Proof using All.
  intros Hl. unfold set_replace. destruct (same cmp x l); [destruct ok|]; try done; by apply (sorted_around cmp).
Qed.

Lemma set_delete_sorted given x (l : list Z) : sorted cmp l → sorted cmp (set_delete cmp given x l).1.1.
Proof using All.
  intros Hl. unfold set_delete. destruct (same cmp x l); [done|]. by apply (sorted_without cmp).
Qed.

(** ** Insertion and replacement *)

Lemma grown_refl t : grown t t 0.
Proof. by left. Qed.

Lemma insert_loop_spec ok x t :
  balanced t → sorted cmp (elems t) →
  returns (avl_tree_insert_loop cmp ok t x 0) (λ '(t', s, taller),
    balanced t' ∧ grown t t' taller ∧ set_insert cmp ok x (elems t) = (elems t', s)).
Proof using All.
  induction t as [|d l IHl r IHr b]; intros Hb Hs.
  { cbn [avl_tree_insert_loop]. destruct ok; cbn; [|by split_and!; [|left|]].
    split; [split_and!; done || lia|]. split; [|done]. right. split_and!; [done|done|by left]. }
  cbn [avl_tree_insert_loop elems] in *. pose proof Hb as (Hbl & Hbr & _).
  pose proof (proj1 (sorted_mid cmp _ _ _) Hs) as (Hsl & Hsr & _).
  destruct (0 <? cmp d x) eqn:Hgt; [|destruct (cmp d x <? 0) eqn:Hlt]; propify.
  - apply returns_bind. eapply returns_mono; [by apply IHl|]. intros [[l' s] taller] (Hb' & Hg & E).
    apply returns_bind. eapply returns_mono; [by eapply left_inserted_spec|].
    intros [t' taller'] (Ht & Et & Hg'). cbn [returns mret res_ret]. split_and!; [done|done|].
    rewrite set_insert_left, E, Et by done. done.
  - apply returns_bind. eapply returns_mono; [by apply IHr|]. intros [[r' s] taller] (Hb' & Hg & E).
    apply returns_bind. eapply returns_mono; [by eapply right_inserted_spec|].
    intros [t' taller'] (Ht & Et & Hg'). cbn [returns mret res_ret]. split_and!; [done|done|].
    rewrite set_insert_right, E, Et by done. done.
  - cbn [returns mret res_ret]. split_and!; [done|apply grown_refl|].
    unfold set_insert. destruct (split_here cmp _ _ _ x Hs) as (_ & -> & _); [lia|done].
Qed.

Lemma replace_loop_spec given ok x t :
  balanced t → sorted cmp (elems t) →
  returns (avl_tree_replace_loop cmp given ok t x 0) (λ '(t', s, taller, freed),
    balanced t' ∧ grown t t' taller ∧ set_replace cmp given ok x (elems t) = (elems t', s, freed)).
Proof using All.
  induction t as [|d l IHl r IHr b]; intros Hb Hs.
  { cbn [avl_tree_replace_loop]. destruct ok; cbn; [|by split_and!; [|left|]].
    split; [split_and!; done || lia|]. split; [|done]. right. split_and!; [done|done|by left]. }
  cbn [avl_tree_replace_loop elems] in *. pose proof Hb as (Hbl & Hbr & _).
  pose proof (proj1 (sorted_mid cmp _ _ _) Hs) as (Hsl & Hsr & _).
  destruct (0 <? cmp d x) eqn:Hgt; [|destruct (cmp d x <? 0) eqn:Hlt]; propify.
  - apply returns_bind. eapply returns_mono; [by apply IHl|].
    intros [[[l' s] taller] freed] (Hb' & Hg & E).
    apply returns_bind. eapply returns_mono; [by eapply left_inserted_spec|].
    intros [t' taller'] (Ht & Et & Hg'). cbn [returns mret res_ret]. split_and!; [done|done|].
    rewrite set_replace_left, E, Et by done. done.
  - apply returns_bind. eapply returns_mono; [by apply IHr|].
    intros [[[r' s] taller] freed] (Hb' & Hg & E).
    apply returns_bind. eapply returns_mono; [by eapply right_inserted_spec|].
    intros [t' taller'] (Ht & Et & Hg'). cbn [returns mret res_ret]. split_and!; [done|done|].
    rewrite set_replace_right, E, Et by done. done.
  - cbn [returns mret res_ret]. split_and!; [done|by left|].
    unfold set_replace. destruct (split_here cmp _ _ _ x Hs) as (-> & -> & ->); [lia|done].
Qed.

(** ** Deletion *)

Lemma shrunk_refl t : shrunk t t 0.
Proof. split; [by left|lia]. Qed.

(** The descent to the greatest element, which it removes and returns. *)
Lemma delete_max_spec given x t :
  balanced t → t ≠ NoNode →
  returns (avl_tree_delete_loop cmp given t x 0 true) (λ '(t', s, shorter, moved, freed),
    balanced t' ∧ shrunk t t' shorter ∧ s = 1 ∧ freed = [] ∧
    ∃ m, moved = Some m ∧ elems t = elems t' ++ [m]).
Proof.
  induction t as [|d l _ r IHr b]; intros Hb Hne; [done|]. cbn [avl_tree_delete_loop].
  pose proof Hb as (Hbl & Hbr & Eb & Hbd).
  destruct r as [|rd rl rr rb].
  - cbn [returns mret res_ret elems height] in *. pose proof (height_nonneg l).
    split_and!; [done| |done|done|by exists d]. split; [by right|]. cbn [height]. lia.
  - set (r := TreeNode rd rl rr rb) in *. change (0 <? -1) with false. change (-1 <? 0) with true.
    cbv iota. apply returns_bind. eapply returns_mono; [by apply IHr|].
    intros [[[[r' s] shorter] moved] freed] (Hb' & Hg & -> & -> & m & -> & Em).
    apply returns_bind. eapply returns_mono; [by eapply right_deleted_spec|].
    intros [t' shorter'] (Ht & Et & Hg'). cbn [returns mret res_ret].
    split_and!; [done|done|done|done|]. exists m. split; [done|].
    cbn [elems]. fold r. rewrite Em, Et, <-app_assoc. done.
Qed.

Lemma delete_loop_spec given x t :
  balanced t → sorted cmp (elems t) → t ≠ NoNode →
  returns (avl_tree_delete_loop cmp given t x 0 false) (λ '(t', s, shorter, moved, freed),
    balanced t' ∧ shrunk t t' shorter ∧ set_delete cmp given x (elems t) = (elems t', s, freed)).
Proof using All.
  induction t as [|d l IHl r IHr b]; intros Hb Hs Hne; [done|]. cbn [avl_tree_delete_loop elems] in *.
  pose proof Hb as (Hbl & Hbr & Eb & Hbd).
  pose proof (proj1 (sorted_mid cmp _ _ _) Hs) as (Hsl & Hsr & _).
  destruct (0 <? cmp d x) eqn:Hgt; [|destruct (cmp d x <? 0) eqn:Hlt]; propify.
  - rewrite (set_delete_left cmp _ _ _ _ Hs) by done. destruct l as [|ld ll lr lb].
    { cbn [returns mret res_ret]. split_and!; [done|apply shrunk_refl|done]. }
    apply returns_bind. eapply returns_mono; [by apply IHl|].
    intros [[[[l' s] shorter] moved] freed] (Hb' & Hg & E). rewrite E.
    apply returns_bind. eapply returns_mono; [by eapply left_deleted_spec|].
    intros [t' shorter'] (Ht & Et & Hg'). cbn [returns mret res_ret]. by rewrite Et.
  - rewrite (set_delete_right cmp _ _ _ _ Hs) by done. destruct r as [|rd rl rr rb].
    { cbn [returns mret res_ret]. split_and!; [done|apply shrunk_refl|done]. }
    apply returns_bind. eapply returns_mono; [by apply IHr|].
    intros [[[[r' s] shorter] moved] freed] (Hb' & Hg & E). rewrite E.
    apply returns_bind. eapply returns_mono; [by eapply right_deleted_spec|].
    intros [t' shorter'] (Ht & Et & Hg'). cbn [returns mret res_ret]. by rewrite Et.
  - unfold set_delete. destruct (split_here cmp _ _ _ x Hs) as (-> & -> & ->); [lia|].
    destruct l as [|ld ll lr lb].
    { cbn [returns mret res_ret]. pose proof (height_nonneg r). split_and!; [done| |done].
      split; [by right|]. cbn [height]. lia. }
    destruct r as [|rd rl rr rb].
    { cbn [returns mret res_ret]. split_and!; [done| |by rewrite app_nil_r].
      split; [by right|]. cbn [height] in *. bal_heights. lia. }
    apply returns_bind. eapply returns_mono; [by apply delete_max_spec|].
    intros [[[[l' s] shorter] moved] freed] (Hb' & Hg & -> & -> & m & -> & Em).
    apply returns_bind. eapply returns_mono; [by eapply left_deleted_spec|].
    intros [t' shorter'] (Ht & Et & Hg'). cbn [returns mret res_ret default from_option].
    split_and!; [done|done|]. rewrite Em, Et, app_nil_r, <-app_assoc. done.
Qed.
End operations.

(** ** Searches and traversals *)

Section searches.
Context (cmp : Z → Z → Z) `{!TotalCompare cmp}.
Implicit Types (x d : Z) (t l r : AVLTreeNode).

Lemma find_loop_spec x t :
  sorted cmp (elems t) → t ≠ NoNode →
  returns (avl_tree_find_loop cmp t x) (λ n,
    (match n with NoNode => 0 | TreeNode d _ _ _ => d end) = set_find cmp x (elems t)).
Proof using All.
  induction t as [|d l IHl r IHr b]; intros Hs Hne; [done|]. cbn [avl_tree_find_loop elems] in *.
  pose proof (proj1 (sorted_mid cmp _ _ _) Hs) as (Hsl & Hsr & _). unfold set_find in *.
  destruct (0 <? cmp d x) eqn:Hgt; [|destruct (cmp d x <? 0) eqn:Hlt]; propify.
  - destruct (split_left cmp _ _ _ x Hs Hgt) as (_ & -> & _). destruct l; [done|]. by apply IHl.
  - destruct (split_right cmp _ _ _ x Hs Hlt) as (_ & -> & _). destruct r; [done|]. by apply IHr.
  - destruct (split_here cmp _ _ _ x Hs) as (_ & -> & _); [lia|]. done.
Qed.

Lemma find_ge_loop_spec x t :
  sorted cmp (elems t) → 0 ∉ elems t → t ≠ NoNode →
  avl_tree_find_ge_loop cmp t x = Done (set_find_ge cmp x (elems t)).
Proof using All.
  induction t as [|d l IHl r IHr b]; intros Hs Hz Hne; [done|]. cbn [avl_tree_find_ge_loop elems] in *.
  pose proof (proj1 (sorted_mid cmp _ _ _) Hs) as (Hsl & Hsr & _). unfold set_find_ge in *.
  rewrite elem_of_app, elem_of_cons in Hz.
  destruct (0 <? cmp d x) eqn:Hgt; [|destruct (cmp d x <? 0) eqn:Hlt]; propify.
  - destruct (split_left cmp _ _ _ x Hs Hgt) as (_ & -> & ->). destruct l as [|ld ll lr lb]; [done|].
    rewrite IHl by (done || tauto). cbn [mbind res_bind]. rewrite app_assoc.
    destruct (same cmp x _ ++ above cmp x _) as [|y k] eqn:E; [done|]. cbn [app head default from_option id].
    unfold id. assert (y ≠ 0) as Hy; [|by rewrite (proj2 (Z.eqb_neq y 0))].
    intros ->. apply Hz. left. assert (0 ∈ same cmp x (elems (TreeNode ld ll lr lb)) ++
      above cmp x (elems (TreeNode ld ll lr lb))) as Hin by (rewrite E; left).
    apply elem_of_app in Hin as [[_ ?]%list_elem_of_filter|[_ ?]%list_elem_of_filter]; done.
  - destruct (split_right cmp _ _ _ x Hs Hlt) as (_ & -> & ->). destruct r as [|rd rl rr rb]; [done|].
    apply IHr; [done|tauto|done].
  - destruct (split_here cmp _ _ _ x Hs) as (_ & -> & ->); [lia|]. done.
Qed.
End searches.

(** The traversal of a list, stopped by the first non-zero result. *)
Fixpoint walk_list {A} (op : Z → A → Z * A) (l : list Z) (args : A) : Z * A :=
  match l with
  | [] => (0, args)
  | x :: l => let '(result, args) := op x args in
              if negb (result =? 0) then (result, args) else walk_list op l args
  end.

Lemma walk_list_app {A} (op : Z → A → Z * A) l k args :
  walk_list op (l ++ k) args =
  let '(result, args) := walk_list op l args in
  if negb (result =? 0) then (result, args) else walk_list op k args.
Proof.
  revert args. induction l as [|x l IH]; intros args; [done|]. cbn [walk_list app].
  destruct (op x args) as [result args']. destruct (negb (result =? 0)) eqn:E; [by rewrite E|apply IH].
Qed.

Lemma walk_loop_spec {A} (op : Z → A → Z * A) t args :
  t ≠ NoNode → avl_tree_walk_loop op t args = Done (walk_list op (elems t) args).
Proof.
  revert args. induction t as [|d l IHl r IHr b]; intros args Hne; [done|].
  cbn [avl_tree_walk_loop elems]. rewrite walk_list_app.
  assert (match l with NoNode => mret (0, args) | _ => avl_tree_walk_loop op l args end =
    Done (walk_list op (elems l) args)) as -> by (destruct l; [done|by apply IHl]).
  cbn [mbind res_bind]. destruct (walk_list op (elems l) args) as [result args'].
  destruct (negb (result =? 0)); [done|]. cbn [walk_list]. destruct (op d args') as [result' args''].
  destruct (result' =? 0) eqn:E; cbn [negb]; [|done]. propify. subst result'.
  destruct r; [done|by apply IHr].
Qed.

Lemma count_loop_spec t count :
  t ≠ NoNode → 0 ≤ count → count + zlen (elems t) ≤ INT_MAX →
  avl_tree_count_loop t count = Done (count + zlen (elems t)).
Proof.
  revert count. induction t as [|d l IHl r IHr b]; intros count Hne Hc Hmax; [done|].
  cbn [avl_tree_count_loop elems] in *. rewrite zlen_app, zlen_cons in *.
  pose proof (zlen_nonneg (elems l)). pose proof (zlen_nonneg (elems r)).
  assert (match l with NoNode => mret count | _ => avl_tree_count_loop l count end =
    Done (count + zlen (elems l))) as ->.
  { destruct l; [cbn; by rewrite Z.add_0_r|apply IHl; done || lia]. }
  cbn [mbind res_bind]. rewrite cint_ok by int_lia. cbn [mbind res_bind].
  destruct r; [cbn [elems]; change (zlen (@nil Z)) with 0; cbn; f_equal; lia|].
  rewrite IHr by (done || lia). f_equal. lia.
Qed.

Lemma height_le_size t : height t ≤ zlen (elems t).
Proof.
  induction t as [|d l IHl r IHr b]; [done|]. cbn [height elems]. rewrite zlen_app, zlen_cons.
  pose proof (zlen_nonneg (elems l)). pose proof (zlen_nonneg (elems r)). lia.
Qed.

Lemma depth_loop_spec t depth :
  balanced t → 0 ≤ depth → depth + height t ≤ INT_MAX → depth_loop t depth = Done (depth + height t).
Proof.
  revert depth. induction t as [|d l IHl r IHr b]; intros depth Hb Hd Hmax; cbn [depth_loop height] in *.
  { by rewrite Z.add_0_r. }
  destruct Hb as (Hbl & Hbr & Eb & Hbd). bal_heights.
  rewrite cint_ok by int_lia. cbn [mbind res_bind].
  case_if; [rewrite IHl by (done || lia)|rewrite IHr by (done || lia)]; f_equal; lia.
Qed.

(** The least number of nodes of a balanced tree. *)
Lemma balanced_size t : balanced t → 2 ^ (height t / 2) ≤ zlen (elems t) + 1.
Proof.
  induction t as [|d l IHl r IHr b]; intros Hb; [done|]. cbn [height elems] in *.
  destruct Hb as (Hbl & Hbr & Eb & Hbd). specialize (IHl Hbl). specialize (IHr Hbr).
  rewrite zlen_app, zlen_cons. bal_heights.
  set (h := 1 + Z.max (height l) (height r)) in *.
  destruct (decide (h = 1)) as [E|Hh].
  { rewrite E. change (2 ^ (1 / 2)) with 1. pose proof (zlen_nonneg (elems l)).
    pose proof (zlen_nonneg (elems r)). lia. }
  assert (2 ^ ((h - 2) / 2) ≤ 2 ^ (height l / 2)) by (apply Z.pow_le_mono_r; lia).
  assert (2 ^ ((h - 2) / 2) ≤ 2 ^ (height r / 2)) by (apply Z.pow_le_mono_r; lia).
  replace (h / 2) with (Z.succ ((h - 2) / 2)) by lia. rewrite Z.pow_succ_r by lia. lia.
Qed.

Lemma destroy_loop_spec given t :
  t ≠ NoNode → returns (avl_tree_destroy_loop given t) (λ freed,
    freed ≡ₚ if given then elems t else []).
Proof.
  induction t as [|d l IHl r IHr b]; intros Hne; [done|]. cbn [avl_tree_destroy_loop elems].
  assert (∀ t, (t ≠ NoNode → returns (avl_tree_destroy_loop given t) (λ freed,
      freed ≡ₚ if given then elems t else [])) →
    returns (match t with NoNode => mret [] | _ => avl_tree_destroy_loop given t end) (λ freed,
      freed ≡ₚ if given then elems t else [])) as Hsub.
  { intros [|? ? ? ?] H; [destruct given; constructor|by apply H]. }
  apply returns_bind. eapply returns_mono; [by apply Hsub|]. intros fl Hfl.
  apply returns_bind. eapply returns_mono; [by apply Hsub|]. intros fr Hfr.
  cbn [returns mret res_ret]. destruct given; cbn [free_data]; rewrite Hfl, Hfr; [|done].
  by rewrite <-Permutation_cons_append.
Qed.

(** * Properties *)

(** ** Refinement of the sorted list *)

Inductive avl_op :=
| OpInsert (malloc_ok : bool) (x : Z)
| OpReplace (malloc_ok : bool) (x : Z)
| OpDelete (x : Z)
| OpFind (x : Z)
| OpFindGe (x : Z)
| OpCount.

(** The state after an operation, its result and what it freed. *)
Definition run_op (op : avl_op) (tree : AVLTreeInfo) : res (AVLTreeInfo * Z * list Z) :=
  match op with
  | OpInsert ok x => '(tree, s) ← avl_tree_insert ok tree x; mret (tree, s, [])
  | OpReplace ok x => avl_tree_replace ok tree x
  | OpDelete x => avl_tree_delete tree x
  | OpFind x => d ← avl_tree_find tree x; mret (tree, d, [])
  | OpFindGe x => d ← avl_tree_find_ge tree x; mret (tree, d, [])
  | OpCount => n ← avl_tree_count tree; mret (tree, n, [])
  end.

Definition spec_op (given : bool) (cmp : Z → Z → Z) (op : avl_op) (l : list Z)
    : list Z * Z * list Z :=
  match op with
  | OpInsert ok x => (set_insert cmp ok x l, [])
  | OpReplace ok x => set_replace cmp given ok x l
  | OpDelete x => set_delete cmp given x l
  | OpFind x => (l, set_find cmp x l, [])
  | OpFindGe x => (l, set_find_ge cmp x l, [])
  | OpCount => (l, zlen l, [])
  end.

(** A sequence of operations, with its trace. *)
Fixpoint run_ops (ops : list avl_op) (tree : AVLTreeInfo) : res (AVLTreeInfo * list (Z * list Z)) :=
  match ops with
  | [] => mret (tree, [])
  | op :: ops =>
      '(tree, s, freed) ← run_op op tree;
      '(tree, trace) ← run_ops ops tree;
      mret (tree, (s, freed) :: trace)
  end.
Fixpoint spec_ops (given : bool) (cmp : Z → Z → Z) (ops : list avl_op) (l : list Z)
    : list Z * list (Z * list Z) :=
  match ops with
  | [] => (l, [])
  | op :: ops =>
      let '(l, s, freed) := spec_op given cmp op l in
      let '(l, trace) := spec_ops given cmp ops l in (l, (s, freed) :: trace)
  end.

(** NULL is not stored: a search could not tell it from a failure. *)
Definition op_ok (op : avl_op) : Prop :=
  match op with OpInsert _ x | OpReplace _ x => x ≠ 0 | _ => True end.

Record avl_rep (given : bool) (cmp : Z → Z → Z) (tree : AVLTreeInfo) (l : list Z) : Prop := {
  rep_given : free_data_func tree = given;
  rep_cmp : compare_func tree = cmp;
  rep_balanced : balanced (root tree);
  rep_elems : elems (root tree) = l;
  rep_sorted : sorted cmp l;
  rep_nonnull : 0 ∉ l }.

Section refinement.
Context (given : bool) (cmp : Z → Z → Z) `{!TotalCompare cmp}.

Lemma around_nonnull x l : x ≠ 0 → 0 ∉ l → 0 ∉ below cmp x l ++ x :: above cmp x l.
Proof.
  intros Hx Hl. rewrite elem_of_app, elem_of_cons.
  intros [[_ ?]%list_elem_of_filter|[?|[_ ?]%list_elem_of_filter]]; done.
Qed.

(** The abstract operations keep the content free of NULL and grow it by at most one. *)
Lemma spec_op_bounds op l :
  op_ok op → 0 ∉ l → 0 ∉ (spec_op given cmp op l).1.1 ∧ zlen (spec_op given cmp op l).1.1 ≤ zlen l + 1.
Proof.
  intros Hop Hl. assert (∀ x, zlen (below cmp x l ++ x :: above cmp x l) ≤ zlen l + 1) as Hlen.
  { intros x. rewrite zlen_app, zlen_cons. pose proof (below_above_len cmp x l). lia. }
  destruct op as [ok x|ok x|x|x|x|]; cbn [spec_op op_ok fst] in *; try (split; [done|lia]).
  - unfold set_insert. destruct (same cmp x l); [destruct ok|]; cbn [fst]; split; try done; try lia;
      first [by apply around_nonnull|apply Hlen].
  - unfold set_replace. destruct (same cmp x l); [destruct ok|]; cbn [fst]; split; try done; try lia;
      first [by apply around_nonnull|apply Hlen].
  - unfold set_delete. destruct (same cmp x l); cbn [fst]; split; try done; try lia.
    + rewrite elem_of_app. intros [[_ ?]%list_elem_of_filter|[_ ?]%list_elem_of_filter]; done.
    + rewrite zlen_app. pose proof (below_above_len cmp x l). lia.
Qed.

Lemma spec_op_sorted op l : sorted cmp l → sorted cmp (spec_op given cmp op l).1.1.
Proof using All.
  intros Hl. destruct op as [ok x|ok x|x|x|x|]; cbn [spec_op fst]; try done.
  - by apply set_insert_sorted.
  - by apply set_replace_sorted.
  - by apply set_delete_sorted.
Qed.

Lemma run_op_refines op tree l :
  avl_rep given cmp tree l → op_ok op → zlen l ≤ INT_MAX →
  returns (run_op op tree) (λ '(tree', s, freed),
    avl_rep given cmp tree' (spec_op given cmp op l).1.1 ∧
    spec_op given cmp op l = (elems (root tree'), s, freed)).
Proof using All.
  intros [Hg Hc Hb He Hs Hn] Hop Hlen.
  pose proof (spec_op_sorted op l Hs) as Hs'. destruct (spec_op_bounds op l Hop Hn) as [Hn' _].
  destruct tree as [t g c]. cbn [root free_data_func compare_func] in *. subst g c l.
  destruct op as [ok x|ok x|x|x|x|]; cbn [run_op spec_op fst] in *.
  - unfold avl_tree_insert. cbn [root compare_func].
    apply returns_bind, returns_bind. eapply returns_mono; [by apply (insert_loop_spec cmp)|].
    intros [[t' s] taller] (Hb' & _ & E). rewrite E in *. done.
  - unfold avl_tree_replace. cbn [root compare_func free_data_func].
    apply returns_bind. eapply returns_mono; [by apply (replace_loop_spec cmp)|].
    intros [[[t' s] taller] freed] (Hb' & _ & E). rewrite E in *. done.
  - unfold avl_tree_delete. cbn [root compare_func free_data_func].
    destruct t as [|d l r b]; [done|].
    apply returns_bind. eapply returns_mono; [by apply (delete_loop_spec cmp)|].
    intros [[[[t' s] shorter] moved] freed] (Hb' & _ & E). rewrite E in *. done.
  - unfold avl_tree_find. cbn [root compare_func]. destruct t as [|d l r b]; [done|].
    apply returns_bind, returns_bind. eapply returns_mono; [by apply (find_loop_spec cmp)|].
    intros n Hn2. cbn [returns mret res_ret]. rewrite Hn2. done.
  - unfold avl_tree_find_ge. cbn [root compare_func]. destruct t as [|d l r b]; [done|].
    rewrite (find_ge_loop_spec cmp) by done. done.
  - unfold avl_tree_count. cbn [root]. destruct t as [|d l r b]; [done|].
    rewrite count_loop_spec by (done || lia). done.
Qed.

Lemma run_ops_refines ops tree l :
  avl_rep given cmp tree l → Forall op_ok ops → zlen l + zlen ops ≤ INT_MAX →
  returns (run_ops ops tree) (λ '(tree', trace),
    avl_rep given cmp tree' (spec_ops given cmp ops l).1 ∧ trace = (spec_ops given cmp ops l).2).
Proof using All.
  revert tree l. induction ops as [|op ops IH]; intros tree l Hrep Hops Hlen; [done|].
  apply Forall_cons in Hops as [Hop Hops]. rewrite zlen_cons in Hlen. pose proof (zlen_nonneg ops).
  cbn [run_ops spec_ops]. apply returns_bind.
  eapply returns_mono; [apply run_op_refines; done || lia|]. intros [[tree' s] freed] [Hrep' E].
  destruct (spec_op_bounds op l Hop (rep_nonnull _ _ _ _ Hrep)) as [_ Hl].
  rewrite E in *. cbn [fst] in *. apply returns_bind.
  eapply returns_mono; [apply IH; done || lia|]. intros [tree'' trace] [Hrep'' Et].
  destruct (spec_ops given cmp ops (elems (root tree'))) as [l'' trace']. cbn [fst snd] in *.
  cbn [returns mret res_ret]. by subst.
Qed.
End refinement.

(** C2. For every total comparison, any sequence of insertions,
    replacements, deletions, searches and counts on a fresh tree, allocation
    failures included, never misbehaves, returns and frees exactly what the
    sorted list does, and leaves a height-balanced search tree that holds the
    list in order. *)
Theorem avl_refines_sorted_list given cmp ops :
  TotalCompare cmp → Forall op_ok ops → zlen ops ≤ INT_MAX →
  returns (run_ops ops (avl_tree_init given cmp).1) (λ '(tree, trace),
    trace = (spec_ops given cmp ops []).2 ∧ elems (root tree) = (spec_ops given cmp ops []).1 ∧
    balanced (root tree) ∧ sorted cmp (elems (root tree))).
Proof.
  intros Hcmp Hops Hlen. eapply returns_mono.
  - apply (run_ops_refines given cmp ops _ []); [|done|by cbn].
    split; try done; [constructor|apply not_elem_of_nil].
  - intros [tree trace] [[_ _ Hb He Hs _] Ht]. by rewrite He.
Qed.

(** Deleting from a balanced search tree removes the element equal to
    the target, if there is one, and hands it to [free_data_func]; the other
    elements, the one moved between nodes included, stay in order, and the
    height shrinks by at most one. *)
Theorem avl_tree_delete_correct tree x :
  TotalCompare (compare_func tree) → balanced (root tree) →
  sorted (compare_func tree) (elems (root tree)) →
  let cmp := compare_func tree in let l := elems (root tree) in
  returns (avl_tree_delete tree x) (λ '(tree', result, freed),
    elems (root tree') = filter (λ y, cmp y x ≠ 0) l ∧
    result = zlen (same cmp x l) ∧ result ≤ 1 ∧
    freed = (if free_data_func tree then same cmp x l else []) ∧
    balanced (root tree') ∧ height (root tree) - 1 ≤ height (root tree') ≤ height (root tree)).
Proof.
  intros Hcmp Hb Hs. cbn zeta. destruct tree as [t given cmp]. cbn [root free_data_func compare_func] in *.
  unfold avl_tree_delete. cbn [root free_data_func compare_func].
  assert (filter (λ y, cmp y x ≠ 0) (elems t) = below cmp x (elems t) ++ above cmp x (elems t) ∧
    zlen (same cmp x (elems t)) ≤ 1) as [Hf H1].
  { clear Hb. induction (elems t) as [|y l IH]; [done|].
    apply StronglySorted_cons in Hs as [Hy Hs]. destruct (IH Hs) as [IH1 IH2].
    unfold below, same, above in *. rewrite !filter_cons.
    assert (0 ≤ cmp y x → Forall (λ z, 0 < cmp z x) l) as Hup.
    { intros Hyx. eapply Forall_impl; [exact Hy|]. cbn. intros z Hz. apply compare_swap.
      apply (compare_le_lt cmp x y); [by apply compare_le_flip|done]. }
    destruct (Z.lt_trichotomy (cmp y x) 0) as [?|[?|?]].
    - repeat case_decide; try lia. by rewrite IH1.
    - destruct (split_upper cmp x l (Hup ltac:(lia))) as (E1 & E2 & E3). unfold below, same, above in *.
      repeat case_decide; try lia. rewrite IH1, E2. done.
    - destruct (split_upper cmp x l (Hup ltac:(lia))) as (E1 & E2 & E3). unfold below, same, above in *.
      repeat case_decide; try lia. rewrite IH1, E1, E2. done. }
  destruct t as [|d l r b]; [by destruct given|].
  apply returns_bind. eapply returns_mono; [by apply (delete_loop_spec cmp)|].
  intros [[[[t' s] shorter] moved] freed] (Hb' & [Hsh Hh] & E). cbn [returns mret res_ret set_root root].
  rewrite Hf. unfold set_delete in E. destruct (same cmp x _) as [|y k] eqn:Hsame.
  - injection E as E <- <-. rewrite <-Hf, <-E. destruct Hsh as [->| ->];
      (split_and!; [by rewrite same_nil|done|lia|by destruct given|done|lia|lia]).
  - assert (k = []) as ->.
    { destruct k as [|z k]; [done|]. rewrite !zlen_cons in H1. pose proof (zlen_nonneg k). lia. }
    injection E as E <- <-. split_and!; [done|done|lia|done|done|lia|lia].
Qed.

(** C29. The height of a tree of [n] elements is at most
    [2 * log2 (n + 1) + 1], and [avl_tree_depth] computes it by following the
    balances, without overflow. *)
Theorem avl_tree_depth_log tree :
  balanced (root tree) → zlen (elems (root tree)) ≤ INT_MAX →
  returns (avl_tree_depth tree) (λ depth,
    depth = height (root tree) ∧ depth ≤ 2 * Z.log2 (zlen (elems (root tree)) + 1) + 1).
Proof.
  destruct tree as [t given cmp]. cbn [root]. intros Hb Hlen. unfold avl_tree_depth. cbn [root].
  pose proof (height_le_size t). pose proof (balanced_size t Hb) as Hsz. pose proof (height_nonneg t).
  assert (height t ≤ 2 * Z.log2 (zlen (elems t) + 1) + 1) as Hlog.
  { apply Z.log2_le_mono in Hsz. rewrite Z.log2_pow2 in Hsz by lia. lia. }
  destruct t as [|d l r b]; [done|]. rewrite depth_loop_spec by (done || lia). done.
Qed.

(** A walk applies the operation to the elements in increasing order and
    stops at the first non-zero result, which it returns. *)
Theorem avl_tree_walk_order {A} (op : Z → A → Z * A) tree args :
  avl_tree_walk tree op args = Done (walk_list op (elems (root tree)) args).
Proof.
  destruct tree as [t given cmp]. unfold avl_tree_walk. cbn [root].
  destruct t; [done|by apply walk_loop_spec].
Qed.

(** Destroying a tree hands each element to [free_data_func] exactly
    once and leaves an empty tree. *)
Theorem avl_tree_destroy_frees tree :
  returns (avl_tree_destroy (Some tree)) (λ '(tree', freed),
    tree' = Some (set_root tree NoNode) ∧
    freed ≡ₚ if free_data_func tree then elems (root tree) else []).
Proof.
  destruct tree as [t given cmp]. unfold avl_tree_destroy, set_root. cbn [root free_data_func compare_func].
  destruct t as [|d l r b]; [split; [done|by destruct given]|].
  apply returns_bind. eapply returns_mono; [by apply destroy_loop_spec|]. done.
Qed.

(** * Witnesses *)

(** Integers in increasing order, built by insertions. *)
Definition sample_ops : list avl_op :=
  (OpInsert true <$> [50; 20; 80; 10; 30; 70; 90; 60; 65]) ++
  [OpInsert false 5; OpDelete 50; OpFindGe 55; OpFind 30; OpReplace true 30; OpDelete 7; OpCount].

Lemma avl_refines_sorted_list_witness :
  returns (run_ops sample_ops (avl_tree_init true Z.sub).1) (λ '(tree, trace),
    trace = (spec_ops true Z.sub sample_ops []).2 ∧
    elems (root tree) = (spec_ops true Z.sub sample_ops []).1 ∧
    balanced (root tree) ∧ sorted Z.sub (elems (root tree))).
Proof.
  apply avl_refines_sorted_list.
  - apply _.
  - unfold sample_ops. apply Forall_forall. intros op Hop.
    repeat (apply elem_of_cons in Hop as [->|Hop]; [cbn; lia|]). by apply not_elem_of_nil in Hop.
  - by vm_compute.
Defined.

Definition sample_avl : AVLTreeInfo :=
  mkTree (TreeNode 5 (TreeNode 2 (TreeNode 1 NoNode NoNode 0) NoNode (-1))
    (TreeNode 8 NoNode NoNode 0) (-1)) true Z.sub.

Lemma sample_avl_ok : balanced (root sample_avl) ∧ sorted Z.sub (elems (root sample_avl)).
Proof.
  split; [cbn; lia|]. cbn. unfold sorted. repeat (constructor; [|repeat (constructor; [lia|]); constructor]).
  constructor.
Qed.

Lemma avl_tree_delete_correct_witness :
  returns (avl_tree_delete sample_avl 8) (λ '(tree', result, freed),
    elems (root tree') = filter (λ y, y - 8 ≠ 0) (elems (root sample_avl)) ∧
    result = zlen (same Z.sub 8 (elems (root sample_avl))) ∧ result ≤ 1 ∧
    freed = (if free_data_func sample_avl then same Z.sub 8 (elems (root sample_avl)) else []) ∧
    balanced (root tree') ∧ height (root sample_avl) - 1 ≤ height (root tree') ≤ height (root sample_avl)).
Proof.
  apply (avl_tree_delete_correct sample_avl 8).
  - apply Zsub_compare.
  - apply sample_avl_ok.
  - apply sample_avl_ok.
Defined.

Lemma avl_tree_depth_log_witness :
  returns (avl_tree_depth sample_avl) (λ depth,
    depth = height (root sample_avl) ∧
    depth ≤ 2 * Z.log2 (zlen (elems (root sample_avl)) + 1) + 1).
Proof. apply avl_tree_depth_log; [apply sample_avl_ok|by vm_compute]. Defined.
