(* ===== verification/HashFunc.v ===== *)
(** libs/fastcommon/src/hash.c, the hash functions and CRC-32.

    A key is the list of its bytes; [key_len] is its length. The functions
    compute with [int], whose overflow C leaves undefined and compilers usually
    wrap: the arithmetic is an interface with an instance for each, and the
    theorems say what holds for one, for both, or for every arithmetic. *)
From S2P Require Import Prelude.

(** * Arithmetic of [int] *)

(** [fit z] is the [int] a computation with exact result [z] yields, [shl x n] is
    [x << n]. *)
Class IntArith := { fit : Z → res Z; shl : Z → Z → res Z }.

(** As the standard has it: overflow is undefined, and so is shifting a negative
    number. *)
#[export] Instance standard : IntArith := {
  fit := cint;
  shl x n := if x <? 0 then Undef else cint (Z.shiftl x n) }.

(** As compilers with two's complement wrap-around have it. *)
#[export] Instance wrapping : IntArith := {
  fit z := Done (sext 32 z);
  shl x n := Done (sext 32 (Z.shiftl x n)) }.

(** * The hash functions

    Each is a loop over the bytes of the key with a step that the macro of the
    source has as its body; the [_ex] variants take the initial value. *)
Section functions.
Context (I : IntArith).

Definition RS_step (c : Z) (s : Z * Z) : res (Z * Z) :=
  let '(hash, a) := s in
  m ← fit (hash * a);
  hash ← fit (m + c);
  a ← fit (a * 378551);
  Done (hash, a).

Definition RSHash (key : list Z) : res Z :=
  s ← fold_res RS_step key (0, 63689);
  Done s.1.

Definition JS_step (c hash : Z) : res Z :=
  x ← shl hash 5;
  y ← fit (x + c);
  z ← fit (y + Z.shiftr hash 2);
  Done (Z.lxor hash z).

Definition JSHash_ex (key : list Z) (init_value : Z) : res Z := fold_res JS_step key init_value.
Definition JSHash (key : list Z) : res Z := JSHash_ex key 1315423911.

Definition BITS_IN_UNIGNED_INT : Z := 32.
Definition THREE_QUARTERS : Z := BITS_IN_UNIGNED_INT * 3 / 4.
Definition HASH_ONE_EIGHTH : Z := BITS_IN_UNIGNED_INT / 8.
Definition HASH_HIGH_BITS : Z := sext 32 (u32 (Z.shiftl 0xFFFFFFFF (BITS_IN_UNIGNED_INT - HASH_ONE_EIGHTH))).

Definition PJW_step (c hash : Z) : res Z :=
  x ← shl hash HASH_ONE_EIGHTH;
  hash ← fit (x + c);
  let test := Z.land hash HASH_HIGH_BITS in
  Done (if negb (test =? 0)
        then Z.land (Z.lxor hash (Z.shiftr test THREE_QUARTERS)) (Z.lnot HASH_HIGH_BITS)
        else hash).

Definition PJWHash_ex (key : list Z) (init_value : Z) : res Z := fold_res PJW_step key init_value.
Definition PJWHash (key : list Z) : res Z := PJWHash_ex key 0.

(** The constant [0xF0000000] is unsigned: [hash] is converted, and the result
    converted back to [int]. *)
Definition ELF_step (c hash : Z) : res Z :=
  x ← shl hash 4;
  hash ← fit (x + c);
  let x := sext 32 (Z.land (u32 hash) 0xF0000000) in
  Done (if negb (x =? 0)
        then Z.land (Z.lxor hash (Z.shiftr x 24)) (Z.lnot x)
        else hash).

Definition ELFHash_ex (key : list Z) (init_value : Z) : res Z := fold_res ELF_step key init_value.
Definition ELFHash (key : list Z) : res Z := ELFHash_ex key 0.

Definition BKDR_step (c hash : Z) : res Z :=
  m ← fit (hash * 131);
  fit (m + c).

Definition BKDRHash_ex (key : list Z) (init_value : Z) : res Z := fold_res BKDR_step key init_value.
Definition BKDRHash (key : list Z) : res Z := BKDRHash_ex key 0.

Definition SDBM_step (c hash : Z) : res Z :=
  x ← shl hash 6;
  a ← fit (c + x);
  y ← shl hash 16;
  b ← fit (a + y);
  fit (b - hash).

Definition SDBMHash_ex (key : list Z) (init_value : Z) : res Z := fold_res SDBM_step key init_value.
Definition SDBMHash (key : list Z) : res Z := SDBMHash_ex key 0.

Definition TIME33_step (c nHash : Z) : res Z :=
  x ← shl nHash 5;
  y ← fit (x + c);
  fit (nHash + y).

Definition Time33Hash_ex (key : list Z) (init_value : Z) : res Z := fold_res TIME33_step key init_value.
Definition Time33Hash (key : list Z) : res Z := Time33Hash_ex key 0.

Definition DJB_step (c hash : Z) : res Z :=
  x ← shl hash 5;
  y ← fit (x + c);
  fit (hash + y).

Definition DJBHash_ex (key : list Z) (init_value : Z) : res Z := fold_res DJB_step key init_value.
Definition DJBHash (key : list Z) : res Z := DJBHash_ex key 5381.

(** The state has the counter [i] besides the hash. *)
Definition AP_step (c : Z) (s : Z * Z) : res (Z * Z) :=
  let '(hash, i) := s in
  hash ← (if Z.land i 1 =? 0 then
            x ← shl hash 7;
            Done (Z.lxor hash (Z.lxor (Z.lxor x c) (Z.shiftr hash 3)))
          else
            x ← shl hash 11;
            Done (Z.lxor hash (Z.lnot (Z.lxor (Z.lxor x c) (Z.shiftr hash 5)))));
  i ← fit (i + 1);
  Done (hash, i).

Definition APHash_ex (key : list Z) (init_value : Z) : res Z :=
  s ← fold_res AP_step key (init_value, 0);
  Done s.1.
Definition APHash (key : list Z) : res Z := APHash_ex key 0.

Definition hashnr_step (c : Z) (s : Z * Z) : res (Z * Z) :=
  let '(nr, nr2) := s in
  a ← fit (Z.land nr 63 + nr2);
  m ← fit (a * c);
  x ← shl nr 8;
  y ← fit (m + x);
  nr2 ← fit (nr2 + 3);
  Done (Z.lxor nr y, nr2).

Definition calc_hashnr (key : list Z) : res Z :=
  s ← fold_res hashnr_step key (1, 4);
  Done s.1.

Definition CALC_HASHNR1_step (c hash : Z) : res Z :=
  hash ← fit (hash * 16777619);
  Done (Z.lxor hash c).

Definition calc_hashnr1_ex (key : list Z) (init_value : Z) : res Z := fold_res CALC_HASHNR1_step key init_value.
Definition calc_hashnr1 (key : list Z) : res Z := calc_hashnr1_ex key 0.

Definition SIMPLE_step (c h : Z) : res Z :=
  m ← fit (31 * h);
  fit (m + c).

Definition simple_hash_ex (key : list Z) (init_value : Z) : res Z := fold_res SIMPLE_step key init_value.
Definition simple_hash (key : list Z) : res Z := simple_hash_ex key 0.

End functions.

(** * CRC-32 *)

Definition crc_table : list Z :=
  [0x00000000; 0x77073096; 0xEE0E612C; 0x990951BA; 0x076DC419; 0x706AF48F;
   0xE963A535; 0x9E6495A3; 0x0EDB8832; 0x79DCB8A4; 0xE0D5E91E; 0x97D2D988;
   0x09B64C2B; 0x7EB17CBD; 0xE7B82D07; 0x90BF1D91; 0x1DB71064; 0x6AB020F2;
   0xF3B97148; 0x84BE41DE; 0x1ADAD47D; 0x6DDDE4EB; 0xF4D4B551; 0x83D385C7;
   0x136C9856; 0x646BA8C0; 0xFD62F97A; 0x8A65C9EC; 0x14015C4F; 0x63066CD9;
   0xFA0F3D63; 0x8D080DF5; 0x3B6E20C8; 0x4C69105E; 0xD56041E4; 0xA2677172;
   0x3C03E4D1; 0x4B04D447; 0xD20D85FD; 0xA50AB56B; 0x35B5A8FA; 0x42B2986C;
   0xDBBBC9D6; 0xACBCF940; 0x32D86CE3; 0x45DF5C75; 0xDCD60DCF; 0xABD13D59;
   0x26D930AC; 0x51DE003A; 0xC8D75180; 0xBFD06116; 0x21B4F4B5; 0x56B3C423;
   0xCFBA9599; 0xB8BDA50F; 0x2802B89E; 0x5F058808; 0xC60CD9B2; 0xB10BE924;
   0x2F6F7C87; 0x58684C11; 0xC1611DAB; 0xB6662D3D; 0x76DC4190; 0x01DB7106;
   0x98D220BC; 0xEFD5102A; 0x71B18589; 0x06B6B51F; 0x9FBFE4A5; 0xE8B8D433;
   0x7807C9A2; 0x0F00F934; 0x9609A88E; 0xE10E9818; 0x7F6A0DBB; 0x086D3D2D;
   0x91646C97; 0xE6635C01; 0x6B6B51F4; 0x1C6C6162; 0x856530D8; 0xF262004E;
   0x6C0695ED; 0x1B01A57B; 0x8208F4C1; 0xF50FC457; 0x65B0D9C6; 0x12B7E950;
   0x8BBEB8EA; 0xFCB9887C; 0x62DD1DDF; 0x15DA2D49; 0x8CD37CF3; 0xFBD44C65;
   0x4DB26158; 0x3AB551CE; 0xA3BC0074; 0xD4BB30E2; 0x4ADFA541; 0x3DD895D7;
   0xA4D1C46D; 0xD3D6F4FB; 0x4369E96A; 0x346ED9FC; 0xAD678846; 0xDA60B8D0;
   0x44042D73; 0x33031DE5; 0xAA0A4C5F; 0xDD0D7CC9; 0x5005713C; 0x270241AA;
   0xBE0B1010; 0xC90C2086; 0x5768B525; 0x206F85B3; 0xB966D409; 0xCE61E49F;
   0x5EDEF90E; 0x29D9C998; 0xB0D09822; 0xC7D7A8B4; 0x59B33D17; 0x2EB40D81;
   0xB7BD5C3B; 0xC0BA6CAD; 0xEDB88320; 0x9ABFB3B6; 0x03B6E20C; 0x74B1D29A;
   0xEAD54739; 0x9DD277AF; 0x04DB2615; 0x73DC1683; 0xE3630B12; 0x94643B84;
   0x0D6D6A3E; 0x7A6A5AA8; 0xE40ECF0B; 0x9309FF9D; 0x0A00AE27; 0x7D079EB1;
   0xF00F9344; 0x8708A3D2; 0x1E01F268; 0x6906C2FE; 0xF762575D; 0x806567CB;
   0x196C3671; 0x6E6B06E7; 0xFED41B76; 0x89D32BE0; 0x10DA7A5A; 0x67DD4ACC;
   0xF9B9DF6F; 0x8EBEEFF9; 0x17B7BE43; 0x60B08ED5; 0xD6D6A3E8; 0xA1D1937E;
   0x38D8C2C4; 0x4FDFF252; 0xD1BB67F1; 0xA6BC5767; 0x3FB506DD; 0x48B2364B;
   0xD80D2BDA; 0xAF0A1B4C; 0x36034AF6; 0x41047A60; 0xDF60EFC3; 0xA867DF55;
   0x316E8EEF; 0x4669BE79; 0xCB61B38C; 0xBC66831A; 0x256FD2A0; 0x5268E236;
   0xCC0C7795; 0xBB0B4703; 0x220216B9; 0x5505262F; 0xC5BA3BBE; 0xB2BD0B28;
   0x2BB45A92; 0x5CB36A04; 0xC2D7FFA7; 0xB5D0CF31; 0x2CD99E8B; 0x5BDEAE1D;
   0x9B64C2B0; 0xEC63F226; 0x756AA39C; 0x026D930A; 0x9C0906A9; 0xEB0E363F;
   0x72076785; 0x05005713; 0x95BF4A82; 0xE2B87A14; 0x7BB12BAE; 0x0CB61B38;
   0x92D28E9B; 0xE5D5BE0D; 0x7CDCEFB7; 0x0BDBDF21; 0x86D3D2D4; 0xF1D4E242;
   0x68DDB3F8; 0x1FDA836E; 0x81BE16CD; 0xF6B9265B; 0x6FB077E1; 0x18B74777;
   0x88085AE6; 0xFF0F6A70; 0x66063BCA; 0x11010B5C; 0x8F659EFF; 0xF862AE69;
   0x616BFFD3; 0x166CCF45; 0xA00AE278; 0xD70DD2EE; 0x4E048354; 0x3903B3C2;
   0xA7672661; 0xD06016F7; 0x4969474D; 0x3E6E77DB; 0xAED16A4A; 0xD9D65ADC;
   0x40DF0B66; 0x37D83BF0; 0xA9BCAE53; 0xDEBB9EC5; 0x47B2CF7F; 0x30B5FFE9;
   0xBDBDF21C; 0xCABAC28A; 0x53B39330; 0x24B4A3A6; 0xBAD03605; 0xCDD70693;
   0x54DE5729; 0x23D967BF; 0xB3667A2E; 0xC4614AB8; 0x5D681B02; 0x2A6F2B94;
   0xB40BBE37; 0xC30C8EA1; 0x5A05DF1B; 0x2D02EF8D].

Definition CRC32_XINIT : Z := 0xFFFFFFFF.
Definition CRC32_XOROT : Z := 0xFFFFFFFF.

(** [crc] is an [int64_t], the table is unsigned. *)
Definition CRC32_step (c crc : Z) : res Z :=
  t ← load crc_table (Z.land (Z.lxor crc c) 0xFF);
  Done (Z.lxor t (Z.shiftr crc 8)).

Definition CRC32_ex (key : list Z) (init_value : Z) : res Z := fold_res CRC32_step key init_value.

(** The conversion to [int] wraps. *)
Definition CRC32 (key : list Z) : res Z :=
  crc ← CRC32_ex key CRC32_XINIT;
  Done (sext 32 (Z.lxor crc CRC32_XOROT)).

(** * Reference definitions *)

(** One step of the division by the polynomial, least significant bit first. *)
Definition crc_bit (x : Z) : Z :=
  if Z.odd x then Z.lxor (Z.shiftr x 1) 0xEDB88320 else Z.shiftr x 1.

Definition crc_bits (n : nat) : Z → Z := Nat.iter n crc_bit.

(** The checksum bit by bit, without a table. *)
Definition crc_ref (key : list Z) (crc : Z) : Z :=
  foldl (λ crc c, crc_bits 8 (Z.lxor crc c)) crc key.

(** Bytes as one number, the first the least significant. *)
Definition packed (bs : list Z) : Z := foldr (λ b w, Z.lxor b (Z.shiftl w 8)) 0 bs.

(** What was fed into the division before its last [crc_bit]. *)
Definition crc_unbit (y : Z) : Z :=
  if Z.testbit y 31 then 2 * Z.lxor y 0xEDB88320 + 1 else 2 * y.

(** The functions of the source that hash a key of bytes. *)
Definition hash_functions : list (IntArith → list Z → res Z) :=
  [RSHash; JSHash; PJWHash; ELFHash; BKDRHash; SDBMHash; Time33Hash; DJBHash; APHash;
   calc_hashnr; calc_hashnr1; simple_hash; λ _, CRC32].

(** An arithmetic that computes the wrapped value whenever it computes one. *)
Class Lawful (I : IntArith) : Prop := {
  fit_value z v : fit z = Done v → v = sext 32 z;
  shl_value x n v : shl x n = Done v → v = sext 32 (Z.shiftl x n) }.

(** * The integers of 32 bits *)

Definition is_int (z : Z) : Prop := INT_MIN ≤ z ≤ INT_MAX.

Lemma sext_is_int z : is_int (sext 32 z).
Proof. unfold is_int, sext. case_if; propify; int_lia. Qed.

Lemma sext_id z : is_int z → sext 32 z = z.
Proof.
  unfold is_int, sext. intros. destruct (decide (0 ≤ z)).
  - rewrite Z.mod_small by int_lia. case_if; propify; int_lia.
  - replace (z mod 2 ^ 32) with (z + 2 ^ 32) by int_lia. case_if; propify; int_lia.
Qed.

(** A number is an [int] when its bits from the sign bit on are equal. *)
Lemma is_int_bits z : is_int z ↔ Z.shiftr z 31 = 0 ∨ Z.shiftr z 31 = -1.
Proof. unfold is_int. rewrite Z.shiftr_div_pow2 by lia. split; int_lia. Qed.

Lemma lxor_is_int x y : is_int x → is_int y → is_int (Z.lxor x y).
Proof. rewrite !is_int_bits, Z.shiftr_lxor. by intros [-> | ->] [-> | ->]; [left|right|right|left]. Qed.

Lemma land_is_int x y : is_int x → is_int y → is_int (Z.land x y).
Proof. rewrite !is_int_bits, Z.shiftr_land. by intros [-> | ->] [-> | ->]; [left|left|left|right]. Qed.

Lemma lnot_is_int x : is_int x → is_int (Z.lnot x).
Proof. unfold is_int, Z.lnot. int_lia. Qed.

Lemma shiftr_is_int x n : 0 ≤ n → is_int x → is_int (Z.shiftr x n).
Proof.
  unfold is_int. intros Hn ?. rewrite Z.shiftr_div_pow2 by done. pose proof (Z.pow_pos_nonneg 2 n).
  split; [apply Z.div_le_lower_bound|apply Z.div_le_upper_bound]; int_lia || nia.
Qed.

Lemma byte_is_int c : is_byte c → is_int c.
Proof. unfold is_byte, is_int. int_lia. Qed.

Create HintDb ints discriminated.
#[export] Hint Resolve sext_is_int lxor_is_int land_is_int lnot_is_int byte_is_int : ints.
#[export] Hint Extern 1 (is_int (Z.shiftr _ _)) => apply shiftr_is_int; [by vm_compute|] : ints.
#[export] Hint Extern 0 (is_int HASH_HIGH_BITS) => by vm_compute : ints.

#[export] Instance standard_lawful : Lawful standard.
Proof.
  split; cbn.
  - intros z v [-> ?]%cint_inv. by rewrite sext_id.
  - intros x n v. case_if; [done|]. intros [-> ?]%cint_inv. by rewrite sext_id.
Qed.

#[export] Instance wrapping_lawful : Lawful wrapping.
Proof. by split; cbn; intros; simplify_eq. Qed.

(** * One arithmetic against another *)

(** Runs the computations that are known to return, and replaces what the
    arithmetic returned by the wrapped value. *)
Ltac replay :=
  repeat match goal with
  | H : _ ≫= _ = Done _ |- _ => let x := fresh "x" in let Hx := fresh "Hx" in apply bind_done in H as (x & Hx & H)
  end.
Ltac wrapped :=
  repeat match goal with
  | H : fit _ = Done _ |- _ => apply fit_value in H
  | H : shl _ _ = Done _ |- _ => apply shl_value in H
  end; simplify_eq/=.

Section agreement.
Context (I : IntArith) `{!Lawful I}.

(** The step of [I] computes what the wrapping step computes. *)
Definition simulated {S} (step : IntArith → Z → S → res S) : Prop :=
  ∀ c s s', step I c s = Done s' → step wrapping c s = Done s'.

(** The wrapping step returns on bytes and keeps the property. *)
Definition total_step {S} (P : S → Prop) (step : IntArith → Z → S → res S) : Prop :=
  ∀ c s, is_byte c → P s → returns (step wrapping c s) P.

Lemma simulated_fold {S} (step : IntArith → Z → S → res S) key s s' :
  simulated step → fold_res (step I) key s = Done s' → fold_res (step wrapping) key s = Done s'.
Proof.
  intros Hs. revert s. induction key as [|c key IH]; intros s H; [done|]. cbn [fold_res] in *.
  apply bind_done in H as (x & Hx%Hs & H). rewrite Hx. cbn. by apply IH.
Qed.

Lemma total_fold {S} P (step : IntArith → Z → S → res S) key s :
  total_step P step → Forall is_byte key → P s → returns (fold_res (step wrapping) key s) P.
Proof.
  intros Hs HB. revert s. induction HB as [|c key Hc HB IH]; intros s HP; [done|]. cbn [fold_res].
  apply returns_bind. eapply returns_mono; [by apply Hs|]. intros. by apply IH.
Qed.

Lemma steps_simulated :
  simulated RS_step ∧ simulated JS_step ∧ simulated PJW_step ∧ simulated ELF_step ∧
  simulated BKDR_step ∧ simulated SDBM_step ∧ simulated TIME33_step ∧ simulated DJB_step ∧
  simulated AP_step ∧ simulated hashnr_step ∧ simulated CALC_HASHNR1_step ∧ simulated SIMPLE_step.
Proof using All.
  split_and!; intros c s s' H; try destruct s as [s n];
    repeat match goal with H : ?f _ _ _ = Done _ |- ?g _ _ _ = _ => unfold f in * end; cbv beta iota in *;
    repeat case_match; replay; wrapped; done.
Qed.

End agreement.

Lemma steps_total :
  total_step (λ s, is_int s.1) RS_step ∧ total_step is_int JS_step ∧ total_step is_int PJW_step ∧
  total_step is_int ELF_step ∧ total_step is_int BKDR_step ∧ total_step is_int SDBM_step ∧
  total_step is_int TIME33_step ∧ total_step is_int DJB_step ∧ total_step (λ s, is_int s.1) AP_step ∧
  total_step (λ s, is_int s.1) hashnr_step ∧ total_step is_int CALC_HASHNR1_step ∧ total_step is_int SIMPLE_step.
Proof.
  split_and!; intros c s Hc Hs; try destruct s as [s n];
    repeat match goal with |- returns (?f _ _ _) _ => unfold f end; cbn [fit shl wrapping mbind res_bind returns fst snd] in *;
    repeat case_match; cbn [fit shl wrapping mbind res_bind returns fst snd] in *; auto 8 with ints.
Qed.


Definition agree (I : IntArith) (f : IntArith → res Z) : Prop :=
  returns (f wrapping) is_int ∧ ∀ v, f I = Done v → f wrapping = Done v.

Lemma agree_fold (I : IntArith) (step : IntArith → Z → Z → res Z) key init :
  simulated I step → total_step is_int step → Forall is_byte key → is_int init →
  agree I (λ I, fold_res (step I) key init).
Proof. split; [by apply total_fold|]. intros. by eapply simulated_fold. Qed.

Lemma agree_fold_pair (I : IntArith) (step : IntArith → Z → Z * Z → res (Z * Z)) key init :
  simulated I step → total_step (λ s, is_int s.1) step → Forall is_byte key → is_int init.1 →
  agree I (λ I, s ← fold_res (step I) key init; Done s.1).
Proof.
  split.
  - apply returns_bind. eapply returns_mono; [by apply total_fold with (P := λ s, is_int s.1)|done].
  - intros v (s & Hs & ?)%bind_done. eapply simulated_fold in Hs; [|done]. by rewrite Hs.
Qed.

(** * The checksum *)

Ltac xor_bits :=
  apply Z.bits_inj'; intros ? ?; rewrite !Z.lxor_spec; repeat destruct (Z.testbit _ _); done.

Lemma low_high_bits x : Z.lxor (Z.land x 255) (Z.shiftl (Z.shiftr x 8) 8) = x.
Proof.
  change 255 with (Z.ones 8). apply Z.bits_inj'. intros n Hn. rewrite Z.lxor_spec, Z.land_spec.
  destruct (decide (n < 8)).
  - rewrite Z.ones_spec_low, Z.shiftl_spec_low by lia. by destruct (Z.testbit x n).
  - rewrite Z.ones_spec_high, Z.shiftl_spec, Z.shiftr_spec by lia. rewrite andb_false_r. cbn. f_equal. lia.
Qed.

Lemma crc_bit_lxor x y : crc_bit (Z.lxor x y) = Z.lxor (crc_bit x) (crc_bit y).
Proof.
  unfold crc_bit. rewrite Z.shiftr_lxor, <-!Z.bit0_odd, Z.lxor_spec.
  destruct (Z.testbit x 0), (Z.testbit y 0); cbn [xorb]; xor_bits.
Qed.

Lemma crc_bits_lxor n x y : crc_bits n (Z.lxor x y) = Z.lxor (crc_bits n x) (crc_bits n y).
Proof. unfold crc_bits. induction n as [|n IH]; [done|]. by rewrite !Nat.iter_succ, IH, crc_bit_lxor. Qed.

(** Bits that have not reached the low end are only shifted. *)
Lemma crc_bits_shiftl n y : crc_bits n (Z.shiftl y (Z.of_nat n)) = y.
Proof.
  revert y. induction n as [|n IH]; intros y; [apply Z.shiftl_0_r|].
  unfold crc_bits in *. rewrite Nat.iter_succ_r.
  replace (crc_bit _) with (Z.shiftl y (Z.of_nat n)); [apply IH|].
  unfold crc_bit. rewrite <-Z.bit0_odd, Z.shiftl_spec_low by lia. rewrite Z.shiftr_shiftl_l by lia. f_equal. lia.
Qed.

Lemma crc_bits_add n m x : crc_bits (n + m) x = crc_bits n (crc_bits m x).
Proof. apply Nat.iter_add. Qed.

(** The table holds the result of eight steps for each byte. *)
Lemma crc_table_eq : crc_table = crc_bits 8 <$> seqZ 0 256.
Proof. by vm_compute. Qed.

Lemma crc_table_ok i : is_byte i → load crc_table i = Done (crc_bits 8 i).
Proof. intros Hi. apply load_ok. rewrite crc_table_eq. rewrite zget_fmap_seqZ by done. done. Qed.

Lemma CRC32_step_ok c crc : is_byte c → CRC32_step c crc = Done (crc_bits 8 (Z.lxor crc c)).
Proof.
  intros Hc. unfold CRC32_step. set (x := Z.lxor crc c).
  assert (is_byte (Z.land x 255)) as Hb.
  { unfold is_byte. change 255 with (2 ^ 8 - 1). rewrite land_ones_mod by lia. lia. }
  rewrite (crc_table_ok _ Hb). cbn [mbind res_bind]. f_equal.
  assert (Z.shiftr crc 8 = Z.shiftr x 8) as ->.
  { unfold x. rewrite Z.shiftr_lxor. unfold is_byte in Hc. rewrite (Z.shiftr_div_pow2 c), Z.div_small, Z.lxor_0_r by lia. done. }
  rewrite <-(crc_bits_shiftl 8 (Z.shiftr x 8)), <-crc_bits_lxor. f_equal.
  exact (low_high_bits x).
Qed.

Lemma CRC32_ex_ok key init : Forall is_byte key → CRC32_ex key init = Done (crc_ref key init).
Proof.
  intros HB. revert init. induction HB as [|c key Hc HB IH]; intros init; [done|].
  unfold CRC32_ex in *. cbn [fold_res]. rewrite CRC32_step_ok by done. cbn. apply IH.
Qed.

(** ** Numbers of 32 bits *)

Definition is_u32 (x : Z) : Prop := 0 ≤ x < 2 ^ 32.

Lemma is_u32_bits x : is_u32 x ↔ Z.shiftr x 32 = 0.
Proof. unfold is_u32. rewrite Z.shiftr_div_pow2 by lia. lia. Qed.

Lemma lxor_is_u32 x y : is_u32 x → is_u32 y → is_u32 (Z.lxor x y).
Proof. rewrite !is_u32_bits, Z.shiftr_lxor. by intros -> ->. Qed.

Lemma crc_bit_is_u32 x : is_u32 x → is_u32 (crc_bit x).
Proof.
  intros Hx. unfold crc_bit.
  assert (is_u32 (Z.shiftr x 1)) by (unfold is_u32 in *; rewrite Z.shiftr_div_pow2 by lia; lia).
  destruct (Z.odd x); [|done]. by apply lxor_is_u32.
Qed.

Lemma crc_bits_is_u32 n x : is_u32 x → is_u32 (crc_bits n x).
Proof. intros. induction n; [done|]. by apply crc_bit_is_u32. Qed.

Lemma crc_unbit_bit x : is_u32 x → crc_unbit (crc_bit x) = x.
Proof.
  intros Hx. unfold crc_unbit, crc_bit.
  assert (Z.testbit (Z.shiftr x 1) 31 = false) as Hs.
  { rewrite Z.shiftr_spec by lia. apply testbit_above with (k := 32); [lia|done]. }
  pose proof (Z.div2_odd x) as Hd. rewrite Z.div2_spec in Hd. destruct (Z.odd x); cbn [Z.b2z] in Hd.
  - rewrite Z.lxor_spec, Hs. change (Z.testbit 3988292384 31) with true. cbn [xorb].
    rewrite Z.lxor_assoc, Z.lxor_nilpotent, Z.lxor_0_r. lia.
  - rewrite Hs. lia.
Qed.

(** A step of the division loses nothing, so neither do many. *)
Lemma crc_bits_inj n x y : is_u32 x → is_u32 y → crc_bits n x = crc_bits n y → x = y.
Proof.
  intros Hx Hy. induction n as [|n IH]; [done|]. intros H. apply IH.
  unfold crc_bits in *. rewrite !Nat.iter_succ in H.
  rewrite <-(crc_unbit_bit (Nat.iter n _ x)), H by by apply crc_bits_is_u32.
  by apply crc_unbit_bit, crc_bits_is_u32.
Qed.

Lemma byte_is_u32 c : is_byte c → is_u32 c.
Proof. unfold is_byte, is_u32. lia. Qed.

Lemma crc_ref_is_u32 key s : Forall is_byte key → is_u32 s → is_u32 (crc_ref key s).
Proof.
  intros HB. revert s. induction HB as [|c key Hc HB IH]; intros s Hs; [done|].
  apply IH. apply crc_bits_is_u32, lxor_is_u32; [done|by apply byte_is_u32].
Qed.

(** The bytes can be added to the state all at once. *)
Lemma crc_ref_packed bs s : crc_ref bs s = crc_bits (8 * length bs) (Z.lxor s (packed bs)).
Proof.
  revert s. induction bs as [|b bs IH]; intros s; [by rewrite Z.lxor_0_r|].
  change (crc_ref (b :: bs) s) with (crc_ref bs (crc_bits 8 (Z.lxor s b))). rewrite IH.
  replace (8 * length (b :: bs))%nat with (8 * length bs + 8)%nat by (cbn; lia). rewrite crc_bits_add. f_equal.
  rewrite <-(crc_bits_shiftl 8 (packed bs)) at 1. rewrite <-crc_bits_lxor. f_equal.
  cbn [packed foldr]. by rewrite Z.lxor_assoc.
Qed.

Lemma packed_cons b bs : is_byte b → packed (b :: bs) = packed bs * 2 ^ 8 + b.
Proof.
  intros Hb. cbn [packed foldr]. fold (packed bs). rewrite <-lor_shiftl_add by (unfold is_byte in *; lia).
  rewrite Z.lxor_comm. apply Z.lxor_lor. apply Z.bits_inj'. intros n Hn. rewrite Z.land_spec, Z.bits_0.
  destruct (decide (n < 8)); [by rewrite Z.shiftl_spec_low|].
  rewrite (testbit_above b 8 n) by (unfold is_byte in *; lia). apply andb_false_r.
Qed.

Lemma packed_range bs : Forall is_byte bs → 0 ≤ packed bs < 2 ^ (8 * zlen bs).
Proof.
  induction 1 as [|b bs Hb HB IH]; [done|]. rewrite packed_cons, zlen_cons by done.
  replace (8 * (zlen bs + 1)) with (8 * zlen bs + 8) by lia. rewrite Z.pow_add_r by (pose proof (zlen_nonneg bs); lia).
  unfold is_byte in *. pose proof (zlen_nonneg bs). lia.
Qed.

Lemma packed_inj bs bs' : Forall is_byte bs → Forall is_byte bs' → length bs = length bs' → packed bs = packed bs' → bs = bs'.
Proof.
  intros HB. revert bs'. induction HB as [|b bs Hb HB IH]; intros [|b' bs'] HB' Hl; try done.
  rewrite Forall_cons in HB'. destruct HB' as [Hb' HB']. rewrite !packed_cons by done. intros Hp.
  unfold is_byte in *. assert (b = b') as -> by lia. f_equal. apply IH; [done| |lia]. cbn in Hl. lia.
Qed.

Lemma packed_is_u32 bs : Forall is_byte bs → zlen bs ≤ 4 → is_u32 (packed bs).
Proof.
  intros HB Hl. pose proof (packed_range bs HB). pose proof (zlen_nonneg bs).
  pose proof (Z.pow_le_mono_r 2 (8 * zlen bs) 32). unfold is_u32. lia.
Qed.

Lemma crc_ref_app k1 k2 s : crc_ref (k1 ++ k2) s = crc_ref k2 (crc_ref k1 s).
Proof. apply foldl_app. Qed.

Lemma crc_ref_inj key s s' : Forall is_byte key → is_u32 s → is_u32 s' → crc_ref key s = crc_ref key s' → s = s'.
Proof.
  intros HB. revert s s'. induction HB as [|c key Hc HB IH]; intros s s' Hs Hs' He; [done|].
  pose proof (byte_is_u32 c Hc).
  apply IH in He; [|by apply crc_bits_is_u32, lxor_is_u32..].
  apply crc_bits_inj in He; [|by apply lxor_is_u32..].
  rewrite <-(Z.lxor_0_r s), <-(Z.lxor_0_r s'), <-(Z.lxor_nilpotent c), <-!Z.lxor_assoc. by rewrite He.
Qed.

Lemma sext_inj x y : is_u32 x → is_u32 y → sext 32 x = sext 32 y → x = y.
Proof. unfold is_u32, sext. intros ? ?. rewrite !Z.mod_small by lia. repeat case_if; propify; lia. Qed.

Definition crc32_ref (key : list Z) : Z := sext 32 (Z.lxor (crc_ref key CRC32_XINIT) CRC32_XOROT).

Lemma CRC32_ok key : Forall is_byte key → CRC32 key = Done (crc32_ref key).
Proof. intros. unfold CRC32. by rewrite CRC32_ex_ok. Qed.

Lemma crc32_ref_inj k k' : Forall is_byte k → Forall is_byte k' → crc32_ref k = crc32_ref k' →
  crc_ref k CRC32_XINIT = crc_ref k' CRC32_XINIT.
Proof.
  intros HB HB' H. apply sext_inj in H; [|apply lxor_is_u32; [by apply crc_ref_is_u32|done]..].
  rewrite <-(Z.lxor_0_r (crc_ref k _)), <-(Z.lxor_0_r (crc_ref k' _)), <-(Z.lxor_nilpotent CRC32_XOROT), <-!Z.lxor_assoc.
  by rewrite H.
Qed.

(** ** The theorems *)

(** Whatever arithmetic computes the wrapped value when it computes one, a
    hash function that returns with it returns the same with wrap-around; and
    with wrap-around each returns an [int] for every key. *)
Theorem hash_functions_agree (I : IntArith) f key :
  Lawful I → f ∈ hash_functions → Forall is_byte key → agree I (λ I, f I key).
Proof.
  intros L Hf HB. pose proof (steps_simulated I) as Hs. pose proof steps_total as Ht. destruct_and!.
  unfold hash_functions in Hf. set_unfold in Hf. destruct_or! Hf; subst f.
  - by apply (agree_fold_pair I RS_step key (0, 63689)).
  - by apply (agree_fold I JS_step key 1315423911).
  - by apply (agree_fold I PJW_step key 0).
  - by apply (agree_fold I ELF_step key 0).
  - by apply (agree_fold I BKDR_step key 0).
  - by apply (agree_fold I SDBM_step key 0).
  - by apply (agree_fold I TIME33_step key 0).
  - by apply (agree_fold I DJB_step key 5381).
  - by apply (agree_fold_pair I AP_step key (0, 0)).
  - by apply (agree_fold_pair I hashnr_step key (1, 4)).
  - by apply (agree_fold I CALC_HASHNR1_step key 0).
  - by apply (agree_fold I SIMPLE_step key 0).
  - split; [|done]. rewrite CRC32_ok by done. apply sext_is_int.
Qed.

(** C25. [CRC32] is the checksum computed bit by bit with the polynomial, and
    [CRC32_ex] continues it over the next bytes. *)
Theorem CRC32_correct key key' init :
  Forall is_byte key → Forall is_byte key' →
  CRC32 key = Done (crc32_ref key) ∧
  CRC32_ex (key ++ key') init = (crc ← CRC32_ex key init; CRC32_ex key' crc) ∧
  CRC32_ex key init = Done (crc_ref key init).
Proof.
  intros HB HB'. assert (Forall is_byte (key ++ key')) by by rewrite Forall_app.
  rewrite !CRC32_ex_ok by done. cbn. rewrite CRC32_ex_ok by done.
  by rewrite CRC32_ok, crc_ref_app.
Qed.

(** A change within four adjacent bytes changes the checksum. *)
Theorem CRC32_detects pre bs bs' post :
  Forall is_byte (pre ++ bs ++ post) → Forall is_byte bs' → length bs = length bs' → zlen bs ≤ 4 → bs ≠ bs' →
  CRC32 (pre ++ bs ++ post) ≠ CRC32 (pre ++ bs' ++ post).
Proof.
  rewrite !Forall_app. intros (HP & HB & HQ) HB' Hl H4 Hne. rewrite !CRC32_ok by (rewrite !Forall_app; done).
  intros [= He]. apply Hne. apply crc32_ref_inj in He; [|rewrite !Forall_app; done..].
  rewrite !crc_ref_app in He. assert (is_u32 (crc_ref pre CRC32_XINIT)) by by apply crc_ref_is_u32.
  apply crc_ref_inj in He; [|done|by apply crc_ref_is_u32..].
  rewrite (crc_ref_packed bs), (crc_ref_packed bs'), Hl in He.
  assert (is_u32 (packed bs) ∧ is_u32 (packed bs')) as [? ?].
  { split; apply packed_is_u32; try done. unfold zlen in *. lia. }
  apply crc_bits_inj in He; [|by apply lxor_is_u32..]. apply packed_inj; [done..|].
  rewrite <-(Z.lxor_0_l (packed bs)), <-(Z.lxor_0_l (packed bs')), <-(Z.lxor_nilpotent (crc_ref pre CRC32_XINIT)), !Z.lxor_assoc.
  by rewrite He.
Qed.

Lemma hash_functions_agree_witness :
  Lawful standard ∧ agree standard (λ I, BKDRHash I [97; 98]) ∧ BKDRHash standard [97; 98] = Done 12805.
Proof.
  split_and!; [apply _| |done]. apply (hash_functions_agree standard BKDRHash).
  - apply _.
  - unfold hash_functions. do 4 right. left.
  - by repeat constructor.
Defined.

(** The checksum of "123456789", 0xCBF43926. *)
Lemma CRC32_correct_witness :
  CRC32 (seqZ 49 9) = Done (crc32_ref (seqZ 49 9)) ∧ CRC32 (seqZ 49 9) = Done (sext 32 0xCBF43926).
Proof.
  split; [|by vm_compute]. apply (CRC32_correct (seqZ 49 9) [] 0); [|done]. by repeat constructor.
Defined.

Lemma CRC32_detects_witness : CRC32 [1; 2; 3; 4] ≠ CRC32 [1; 2; 0; 4].
Proof.
  apply (CRC32_detects [1; 2] [3] [0] [4]); [by repeat constructor|by repeat constructor|done|done|done].
Defined.

(** The four high bits of a number below 2^31. *)
Definition high (h : Z) : Z := Z.land h HASH_HIGH_BITS.

Lemma high_bit h n : 0 ≤ n → Z.testbit (high h) n = Z.testbit h n && bool_decide (28 ≤ n).
Proof.
  intros. unfold high. rewrite Z.land_spec. f_equal.
  change HASH_HIGH_BITS with (Z.lnot (Z.ones 28)). rewrite Z.lnot_spec by done.
  case_bool_decide; [by rewrite Z.ones_spec_high|by rewrite Z.ones_spec_low by lia].
Qed.

Lemma high_elf h : 0 ≤ h < 2 ^ 31 → sext 32 (Z.land (u32 h) 0xF0000000) = high h.
Proof.
  intros Hh. unfold u32. rewrite Z.mod_small by lia.
  assert (Z.land h 0xF0000000 = high h) as ->.
  { apply Z.bits_inj'. intros n Hn. rewrite high_bit, Z.land_spec by done.
    destruct (decide (n < 31)) as [|Hge]; [|by rewrite (testbit_above h 31 n) by lia].
    f_equal. change 0xF0000000 with (Z.shiftl (Z.ones 4) 28). rewrite Z.shiftl_spec by done.
    case_bool_decide; [by rewrite Z.ones_spec_low by lia|by rewrite Z.testbit_neg_r by lia]. }
  apply sext_id, land_is_int; [unfold is_int; int_lia|by vm_compute].
Qed.

(** Clearing the four high bits and clearing those that were set is the same once
    the shifted bits have been added below. *)
Lemma high_clear h : 0 ≤ h < 2 ^ 31 →
  Z.land (Z.lxor h (Z.shiftr (high h) 24)) (Z.lnot (high h)) =
  Z.land (Z.lxor h (Z.shiftr (high h) 24)) (Z.lnot HASH_HIGH_BITS).
Proof.
  intros Hh. apply Z.bits_inj'. intros n Hn. rewrite !Z.land_spec, Z.lxor_spec, Z.shiftr_spec, Z.lnot_spec by done.
  rewrite !high_bit by lia. change (Z.lnot HASH_HIGH_BITS) with (Z.ones 28). destruct (decide (28 ≤ n)).
  - rewrite (testbit_above h 31 (n + 24)), Z.ones_spec_high by lia. rewrite (bool_decide_eq_true_2 (28 ≤ n)) by done.
    by destruct (Z.testbit h n).
  - rewrite Z.ones_spec_low by lia. rewrite (bool_decide_eq_false_2 (28 ≤ n)) by done. by rewrite andb_false_r.
Qed.

Lemma cleared_range y : 0 ≤ Z.land y (Z.lnot HASH_HIGH_BITS) < 2 ^ 28.
Proof. change (Z.lnot HASH_HIGH_BITS) with (2 ^ 28 - 1). rewrite land_ones_mod by lia. lia. Qed.

Lemma PJW_ELF_step c hash : 0 ≤ hash < 2 ^ 28 → is_byte c →
  PJW_step standard c hash = ELF_step standard c hash ∧
  ∀ r, PJW_step standard c hash = Done r → 0 ≤ r < 2 ^ 28.
Proof.
  intros Hh Hc. unfold PJW_step, ELF_step. change HASH_ONE_EIGHTH with 4. change THREE_QUARTERS with 24.
  cbn [shl fit standard]. case_if; propify; [lia|]. rewrite Z.shiftl_mul_pow2 by lia.
  destruct (cint (hash * 2 ^ 4)) as [x| |] eqn:Hx; [|by split..]. apply cint_inv in Hx as [-> Hx]. cbn [mbind res_bind].
  destruct (cint (hash * 2 ^ 4 + c)) as [h| |] eqn:Hs; [|by split..]. apply cint_inv in Hs as [Hs Hb]. cbn [mbind res_bind].
  unfold is_byte in Hc.
  assert (0 ≤ h < 2 ^ 31) as Hr by int_lia. rewrite (high_elf h Hr). fold (high h). split.
  - by rewrite high_clear.
  - intros r [= <-]. case_if; [apply cleared_range|]. propify.
    assert (h = Z.land h (Z.lnot HASH_HIGH_BITS)) as E; [|rewrite E; apply cleared_range].
    apply Z.bits_inj'. intros n Hn. rewrite Z.land_spec. change (Z.lnot HASH_HIGH_BITS) with (Z.ones 28).
    pose proof (high_bit h n Hn) as Hz. rewrite Heqb0, Z.bits_0 in Hz.
    case_bool_decide; [rewrite Z.ones_spec_high by lia; by destruct (Z.testbit h n)|].
    rewrite Z.ones_spec_low by lia. by rewrite andb_true_r.
Qed.

(** By the standard's arithmetic the Weinberger and ELF functions are the
    same function, as the comments say; with wrap-around they are not, because
    the sign bit then takes part. *)
Theorem PJW_is_ELF :
  (∀ key init, 0 ≤ init < 2 ^ 28 → Forall is_byte key → PJWHash_ex standard key init = ELFHash_ex standard key init) ∧
  ∃ key, Forall is_byte key ∧ PJWHash wrapping key ≠ ELFHash wrapping key.
Proof.
  split.
  - intros key init Hi HB. revert init Hi. induction HB as [|c key Hc HB IH]; intros init Hi; [done|].
    unfold PJWHash_ex, ELFHash_ex in *. cbn [fold_res]. destruct (PJW_ELF_step c init) as [He Hr]; [done..|].
    rewrite <-He. destruct (PJW_step standard c init); [|done..]. cbn. by apply IH, Hr.
  - exists [8; 0; 0; 0; 0; 0; 0; 0]. split; [by repeat constructor|by vm_compute].
Qed.

(** By the standard's arithmetic [RSHash] and [JSHash] are undefined on
    every key that is not empty: the first step overflows. *)
Theorem RS_JS_overflow c key : RSHash standard (c :: key) = Undef ∧ JSHash standard (c :: key) = Undef.
Proof.
  split; [|done]. unfold RSHash. cbn [fold_res RS_step fit standard].
  rewrite (cint_ok (0 * _)) by int_lia. cbn [mbind res_bind]. unfold cint. by destruct (in_int (0 * 63689 + c)).
Qed.
