(* ===== verification/HashTable.v ===== *)
(** libs/fastcommon/src/hash.c, the hash table.

    Memory is the heap of CMemory.v: a node's block is the one [malloc] gave for
    its header, key and value, its record [HashData] has the fields and the key,
    and the value is where the pointer says, in the node's block or in the
    client's memory. A chain is the list of its nodes and the bucket array the
    list of the chains. The table is passed on from call to call; the locks the
    calling thread holds are part of it. *)
From S2P Require Import Prelude CDouble CMemory.
From Corelib Require Import SpecFloat.

(** * Code *)

Abbreviation HM := (M unit).
Abbreviation hheap := (heap unit).

Definition ENOENT : Z := 2.
Definition ENOMEM : Z := 12.
Definition EEXIST : Z := 17.
Definition EINVAL : Z := 22.
Definition ENOSPC : Z := 28.

Definition sizeof_pointer : Z := 8.
Definition sizeof_HashData : Z := 32.
Definition sizeof_unsigned : Z := 4.

(** [int64_t] arithmetic: overflow is undefined, conversion from [size_t] wraps. *)
Definition in_int64 (z : Z) : bool := (- 2 ^ 63 <=? z) && (z <=? INT64_MAX).
Definition cint64 (z : Z) : res Z := if in_int64 z then Done z else Undef.

Definition lint (z : Z) : HM Z := lift (cint z).

(** [node] is the block of the node. *)
Record HashData := mkData {
  node : Z;
  key : list Z;
  value_len : Z;
  malloc_value_size : Z;
  value : ptr }.

Definition key_len (d : HashData) : Z := zlen (key d).

Definition CALC_NODE_MALLOC_BYTES (key_len value_size : Z) : Z := u64 (sizeof_HashData + key_len + value_size).

Definition MEM_ALIGN (x : Z) : res Z := y ← cint (x + 7); Done (Z.land y (Z.lnot 7)).

Definition prime_array : list Z :=
  [1; 3; 17; 37; 79; 163; 331; 673; 1361; 2729; 5471; 10949; 21911; 43853; 87719; 175447;
   350899; 701819; 1403641; 2807303; 5614657; 11229331; 22458671; 44917381; 89834777;
   179669557; 359339171; 718678369; 1437356741; 2147483647].

Definition PRIME_ARRAY_SIZE : Z := 30.

(** What [capacity] points at: an element of [prime_array], or an [unsigned int]
    that [hash_best_op] allocated, with its value. *)
Inductive capacity_ptr :=
| Prime (i : Z)
| Malloced (block c : Z).

Definition capacity_at (p : option capacity_ptr) : res Z :=
  match p with
  | None => Undef
  | Some (Prime i) => load prime_array i
  | Some (Malloced _ c) => Done c
  end.

Record HashArray := mkHash {
  buckets : option (Z * list (list HashData));
  item_count : Z;
  capacity : option capacity_ptr;
  load_factor : spec_float;
  max_bytes : Z;
  bytes_used : Z;
  is_malloc_capacity : bool;
  is_malloc_value : bool;
  lock_count : Z;
  locks : option Z;
  held : list Z }.

Definition set_buckets (b : option (Z * list (list HashData))) (t : HashArray) : HashArray :=
  mkHash b (item_count t) (capacity t) (load_factor t) (max_bytes t) (bytes_used t)
    (is_malloc_capacity t) (is_malloc_value t) (lock_count t) (locks t) (held t).
Definition set_count (n : Z) (t : HashArray) : HashArray :=
  mkHash (buckets t) n (capacity t) (load_factor t) (max_bytes t) (bytes_used t)
    (is_malloc_capacity t) (is_malloc_value t) (lock_count t) (locks t) (held t).
Definition set_capacity (c : option capacity_ptr) (t : HashArray) : HashArray :=
  mkHash (buckets t) (item_count t) c (load_factor t) (max_bytes t) (bytes_used t)
    (is_malloc_capacity t) (is_malloc_value t) (lock_count t) (locks t) (held t).
Definition set_used (u : Z) (t : HashArray) : HashArray :=
  mkHash (buckets t) (item_count t) (capacity t) (load_factor t) (max_bytes t) u
    (is_malloc_capacity t) (is_malloc_value t) (lock_count t) (locks t) (held t).
Definition set_malloc_capacity (b : bool) (t : HashArray) : HashArray :=
  mkHash (buckets t) (item_count t) (capacity t) (load_factor t) (max_bytes t) (bytes_used t)
    b (is_malloc_value t) (lock_count t) (locks t) (held t).
Definition set_held (l : list Z) (t : HashArray) : HashArray :=
  mkHash (buckets t) (item_count t) (capacity t) (load_factor t) (max_bytes t) (bytes_used t)
    (is_malloc_capacity t) (is_malloc_value t) (lock_count t) (locks t) l.

Definition lit_0_10 : spec_float := dlit 7205759403792794 (-56).
Definition lit_0_50 : spec_float := dlit 4503599627370496 (-53).
Definition lit_1_00 : spec_float := dlit 4503599627370496 (-52).

(** ** Buckets and locks *)

Definition bucket (t : HashArray) (i : Z) : res (list HashData) :=
  match buckets t with Some (_, b) => load b i | None => Undef end.

Definition set_bucket (t : HashArray) (i : Z) (l : list HashData) : res HashArray :=
  match buckets t with
  | Some (a, b) => b ← store b i l; Done (set_buckets (Some (a, b)) t)
  | None => Undef
  end.

(** A thread that locks a mutex it holds, or unlocks one it does not hold, has
    gone wrong. *)
Definition HASH_LOCK (t : HashArray) (index : Z) : res HashArray :=
  if 0 <? lock_count t then
    let l := index mod lock_count t in
    if bool_decide (l ∈ held t) then Undef else Done (set_held (l :: held t) t)
  else Done t.

Definition HASH_UNLOCK (t : HashArray) (index : Z) : res HashArray :=
  if 0 <? lock_count t then
    let l := index mod lock_count t in
    if bool_decide (l ∈ held t) then Done (set_held (filter (λ x, x ≠ l) (held t)) t) else Undef
  else Done t.

Definition lock_if (needLock : bool) (t : HashArray) (index : Z) : res HashArray :=
  if needLock then HASH_LOCK t index else Done t.
Definition unlock_if (needLock : bool) (t : HashArray) (index : Z) : res HashArray :=
  if needLock then HASH_UNLOCK t index else Done t.

Definition ADD_TO_BUCKET (t : HashArray) (i : Z) (hash_data : HashData) : res HashArray :=
  l ← bucket t i;
  t ← set_bucket t i (hash_data :: l);
  n ← cint (item_count t + 1);
  Done (set_count n t).

(** The node is between the nodes [pre] and [post] of its chain. *)
Definition DELETE_FROM_BUCKET (t : HashArray) (i : Z) (pre : list HashData) (hash_data : HashData)
    (post : list HashData) : HM HashArray :=
  t ← lift (set_bucket t i (pre ++ post));
  n ← lint (item_count t - 1);
  let t := set_count n t in
  let t := set_used (sext 64 (bytes_used t - CALC_NODE_MALLOC_BYTES (key_len hash_data) (malloc_value_size hash_data))) t in
  free (node hash_data, 0);;
  mret t.

(** ** Creation *)

Fixpoint prime_above (l : list Z) (i capacity : Z) : option capacity_ptr :=
  match l with
  | [] => None
  | p :: l => if u32 capacity <? p then Some (Prime i) else prime_above l (i + 1) capacity
  end.

Definition hash_get_prime_capacity (capacity : Z) : option capacity_ptr := prime_above prime_array 0 capacity.

Definition _hash_alloc_buckets (t : HashArray) (old_capacity : Z) : HM (Z * HashArray) :=
  c ← lift (capacity_at (capacity t));
  let bytes := u64 (sizeof_pointer * c) in
  if (0 <? max_bytes t) && (u64 (max_bytes t) <? u64 (bytes_used t + bytes)) then mret (ENOSPC, t) else
  b ← malloc bytes;
  match b with
  | None => mret (ENOMEM, set_buckets None t)
  | Some b =>
      let t := set_buckets (Some (b.1, replicate (Z.to_nat c) [])) t in
      mret (0, set_used (sext 64 (bytes_used t + (bytes - sizeof_pointer * old_capacity))) t)
  end.

Definition empty_hash : HashArray := mkHash None 0 None (S754_zero false) 0 0 false false 0 None [].

Definition hash_init_ex (capacity : Z) (load_factor : spec_float) (max_bytes : Z) (bMallocValue : bool) :
    HM (Z * HashArray) :=
  let t := set_capacity (hash_get_prime_capacity (sext 32 capacity)) empty_hash in
  match HashTable.capacity t with
  | None => mret (EINVAL, t)
  | Some _ =>
      r ← _hash_alloc_buckets t 0;
      let '(result, t) := r in
      if negb (result =? 0) then mret (result, t) else
      let lf := if dle (S754_zero false) load_factor && dle load_factor lit_1_00 then load_factor else lit_0_50 in
      mret (0, mkHash (buckets t) (item_count t) (HashTable.capacity t) lf max_bytes (bytes_used t)
        (is_malloc_capacity t) bMallocValue (lock_count t) (locks t) (held t))
  end.

(** [sizeof_mutex] is the size of the system's [pthread_mutex_t]. The locks are
    initialised unlocked. *)
Definition hash_set_locks (sizeof_mutex : Z) (t : HashArray) (lock_count : Z) : HM (Z * HashArray) :=
  if bool_decide (locks t ≠ None) then mret (EEXIST, t) else
  if lock_count <=? 0 then mret (EINVAL, t) else
  if dle lit_0_10 (load_factor t) then mret (EINVAL, t) else
  b ← malloc (u64 (sizeof_mutex * lock_count));
  match b with
  | None => mret (ENOMEM, t)
  | Some b =>
      mret (0, mkHash (buckets t) (item_count t) (capacity t) (load_factor t) (max_bytes t) (bytes_used t)
        (is_malloc_capacity t) (is_malloc_value t) lock_count (Some b.1) (held t))
  end.

(** ** Destruction *)

Fixpoint free_chain (l : list HashData) : HM unit :=
  match l with
  | [] => mret ()
  | pDelete :: l => free (node pDelete, 0);; free_chain l
  end.

Fixpoint free_buckets (b : list (list HashData)) : HM unit :=
  match b with
  | [] => mret ()
  | l :: b => free_chain l;; free_buckets b
  end.

Definition hash_destroy (t : HashArray) : HM HashArray :=
  match buckets t with
  | None => mret t
  | Some (a, b) =>
      c ← lift (capacity_at (capacity t));
      free_buckets (take (Z.to_nat c) b);;
      free (a, 0);;
      let t := set_buckets None t in
      t ← (if is_malloc_capacity t then
             match capacity t with
             | Some (Malloced p _) => free (p, 0);; mret (set_malloc_capacity false (set_capacity None t))
             | _ => undef
             end
           else mret t);
      mret (set_used 0 (set_count 0 t))
  end.

(** ** Statistics *)

Record HashStat := mkStat {
  stat_capacity : Z; stat_item_count : Z; bucket_used : Z; bucket_avg_length : spec_float; bucket_max_length : Z }.

(** Over the chains: buckets used, the longest chain, and how many chains there
    are of each length; [None] when a chain is longer than there is room for. *)
Fixpoint stat_loop (b : list (list HashData)) (last used longest : Z) (lens : list Z) : res (option (Z * Z * list Z)) :=
  match b with
  | [] => Done (Some (used, longest, lens))
  | [] :: b => stat_loop b last used longest lens
  | l :: b =>
      count ← cint (zlen l);
      if last <? count then Done None else
      n ← load lens count;
      lens ← store lens count (n + 1);
      stat_loop b last (used + 1) (if longest <? count then count else longest) lens
  end.

(** [stat_by_lens] has [stat_size] elements. *)
Definition hash_stat (t : HashArray) (stat_size : Z) : res (Z * option HashStat * list Z) :=
  c ← capacity_at (capacity t);
  match buckets t with
  | None => Undef
  | Some (_, b) =>
      let zero := replicate (Z.to_nat stat_size) 0 in
      r ← stat_loop (take (Z.to_nat c) b) (stat_size - 1) 0 0 zero;
      match r with
      | None => Done (ENOSPC, None, [])
      | Some (used, longest, lens) =>
          totalLength ← for_up 0 (longest + 1) (λ i total,
            n ← load lens i;
            if 0 <? n then p ← cint (i * n); cint (total + p) else Done total) 0;
          Done (0, Some (mkStat c (item_count t) used
            (if 0 <? used then ddiv (double_of_int totalLength) (double_of_int used) else S754_zero false) longest), lens)
      end
  end.

Section table.
(** [pHash->hash_func], which is set once. *)
Context (hash_func : list Z → Z).

Definition hash_code (k : list Z) : Z := u32 (hash_func k).

(** ** Growth *)

Definition bucket_of (t : HashArray) (k : list Z) : res Z :=
  c ← capacity_at (capacity t);
  if c =? 0 then Undef else Done (hash_code k mod c).

Fixpoint rehash_chain (t : HashArray) (l : list HashData) : res HashArray :=
  match l with
  | [] => Done t
  | hash_data :: pNext =>
      i ← bucket_of t (key hash_data);
      t ← ADD_TO_BUCKET t i hash_data;
      rehash_chain t pNext
  end.

Definition _rehash1 (t : HashArray) (old_capacity : Z) (new_capacity : option capacity_ptr) : HM (Z * HashArray) :=
  let old_buckets := buckets t in
  let t := set_capacity new_capacity t in
  r ← _hash_alloc_buckets t (u32 old_capacity);
  let '(result, t) := r in
  if negb (result =? 0) then mret (result, set_buckets old_buckets t) else
  match old_buckets with
  | None => undef
  | Some (a, old) =>
      t ← lift (fold_res (λ l t, rehash_chain t l) (take (Z.to_nat old_capacity) old) (set_count 0 t));
      free (a, 0);;
      mret (0, t)
  end.

(** The pointer of a table in [prime_array] moves to the next prime; pointing at
    its end is allowed, reading there is not. *)
Definition _rehash (t : HashArray) : HM (Z * HashArray) :=
  let pOldCapacity := capacity t in
  c ← lift (capacity_at pOldCapacity);
  new ← (if is_malloc_capacity t then mret (hash_get_prime_capacity (sext 32 c))
         else match pOldCapacity with
              | Some (Prime i) => if i <? PRIME_ARRAY_SIZE then mret (Some (Prime (i + 1))) else undef
              | _ => undef
              end);
  r ← _rehash1 t (sext 32 c) new;
  let '(result, t) := r in
  if negb (result =? 0) then mret (result, set_capacity pOldCapacity t)
  else if is_malloc_capacity t then
    match pOldCapacity with
    | Some (Malloced p _) => free (p, 0);; mret (result, set_malloc_capacity false t)
    | _ => undef
    end
  else mret (result, t).

(** Whether two nodes of a chain have different hash codes, compared as the loops
    do: each node with those after it. *)
Fixpoint conflicted (l : list HashData) : bool :=
  match l with
  | [] => false
  | d :: l => existsb (λ d', negb (hash_code (key d) =? hash_code (key d'))) l || conflicted l
  end.

Definition _hash_conflict_count (t : HashArray) : res Z :=
  c ← capacity_at (capacity t);
  match buckets t with
  | None => Undef
  | Some (_, b) =>
      fold_res (λ l n, if conflicted l then cint (n + 1) else Done n) (take (Z.to_nat c) b) 0
  end.

(** The next capacity to try: 2 more, until it is no multiple of 3, 5 or 7. *)
Fixpoint next_capacity (fuel : nat) (c : Z) : res Z :=
  match fuel with
  | O => OutOfFuel
  | S fuel =>
      let c := u32 (c + 2) in
      if (c mod 3 =? 0) || (c mod 5 =? 0) || (c mod 7 =? 0) then next_capacity fuel c else Done c
  end.

(** [p] is the block of [new_capacity]. *)
Fixpoint best_loop (fuel : nat) (t : HashArray) (p c old_capacity : Z) : HM (Z * HashArray) :=
  match fuel with
  | O => λ _, OutOfFuel
  | S fuel =>
      c ← lift (next_capacity 16 c);
      r ← _rehash1 t old_capacity (Some (Malloced p c));
      let '(result, t) := r in
      if negb (result =? 0) then
        (* [capacity] is [new_capacity] now: the old value goes there *)
        mret (-1 * result, set_capacity (Some (Malloced p (u32 old_capacity))) (set_malloc_capacity true t))
      else
        n ← lift (_hash_conflict_count t);
        if 0 <? n then best_loop fuel t p c (sext 32 c) else mret (1, set_malloc_capacity true t)
  end.

Definition hash_best_op (fuel : nat) (t : HashArray) (suggest_capacity : Z) : HM (Z * HashArray) :=
  n ← lift (_hash_conflict_count t);
  if n =? 0 then mret (0, t) else
  old ← lift (capacity_at (capacity t));
  p ← malloc sizeof_unsigned;
  match p with
  | None => mret (- ENOMEM, t)
  | Some p =>
      c ← (if (2 <? suggest_capacity) && (item_count t <=? suggest_capacity) then
             let c := suggest_capacity - 2 in
             mret (if c mod 2 =? 0 then c + 1 else c)
           else
             a ← lint (item_count t - 1); b ← lint (2 * a); c ← lint (b + 1);
             mret (u32 c));
      best_loop fuel t p.1 c (sext 32 old)
  end.

(** ** Search *)

(** [memcmp] compares [key_len] bytes, which both keys have. *)
Definition key_matches (k : list Z) (d : HashData) : bool :=
  (zlen k =? key_len d) && bool_decide (k = key d).

Fixpoint _chain_find_entry (l : list HashData) (k : list Z) : option HashData :=
  match l with
  | [] => None
  | hash_data :: l => if key_matches k hash_data then Some hash_data else _chain_find_entry l k
  end.

Definition hash_find_ex (t : HashArray) (k : list Z) : res (option HashData * HashArray) :=
  i ← bucket_of t k;
  t ← HASH_LOCK t i;
  l ← bucket t i;
  let hash_data := _chain_find_entry l k in
  t ← HASH_UNLOCK t i;
  Done (hash_data, t).

(** The value of the node, NULL when there is none. *)
Definition hash_find (t : HashArray) (k : list Z) : res (option ptr * HashArray) :=
  i ← bucket_of t k;
  t ← HASH_LOCK t i;
  l ← bucket t i;
  let hash_data := _chain_find_entry l k in
  t ← HASH_UNLOCK t i;
  Done (match hash_data with Some d => Some (value d) | None => None end, t).

Definition hash_find1_ex (t : HashArray) (k : list Z) : res (option HashData * HashArray) := hash_find_ex t k.

(** The string found, if the result is 0. *)
Definition hash_find2 (t : HashArray) (k : list Z) : res (Z * option (ptr * Z) * HashArray) :=
  '(hdata, t) ← hash_find1_ex t k;
  match hdata with
  | None => Done (ENOENT, None, t)
  | Some d => Done (0, Some (value d, value_len d), t)
  end.

(** [buf] is the caller's buffer of [room] bytes; the result has the length of
    the value, or [room] again. *)
Definition hash_get (t : HashArray) (k : list Z) (buf : ptr) (room : Z) : HM (Z * Z * HashArray) :=
  i ← lift (bucket_of t k);
  t ← lift (HASH_LOCK t i);
  l ← lift (bucket t i);
  r ← match _chain_find_entry l k with
      | Some d =>
          if value_len d <=? room then memcpy buf (value d) (value_len d);; mret (0, value_len d)
          else mret (ENOSPC, room)
      | None => mret (ENOENT, room)
      end;
  t ← lift (HASH_UNLOCK t i);
  mret (r.1, r.2, t).

(** ** Insertion

    [hash_insert_ex] in the three parts its locking divides it into: under the
    lock, the search and the update in place or the removal of the old node;
    without it, the making of the new node; under the lock again, its addition. *)

(** The nodes before the one with the key, that node, and those after it. *)
Fixpoint chain_search (pre l : list HashData) (k : list Z) : list HashData * option (HashData * list HashData) :=
  match l with
  | [] => (pre, None)
  | hash_data :: l =>
      if key_matches k hash_data then (pre, Some (hash_data, l)) else chain_search (pre ++ [hash_data]) l k
  end.

(** True when the insertion is complete. *)
Definition insert_search (t : HashArray) (k : list Z) (v : ptr) (vlen : Z) (needLock : bool) : HM (bool * HashArray) :=
  i ← lift (bucket_of t k);
  t ← lift (lock_if needLock t i);
  l ← lift (bucket t i);
  match chain_search [] l k with
  | (pre, Some (d, post)) =>
      if negb (is_malloc_value t) then
        t ← lift (set_bucket t i (pre ++ mkData (node d) (key d) vlen (malloc_value_size d) v :: post));
        t ← lift (unlock_if needLock t i);
        mret (true, t)
      else if (vlen <=? malloc_value_size d) &&
              ((malloc_value_size d <=? 128) || (Z.quot (malloc_value_size d) 2 <? vlen)) then
        t ← lift (set_bucket t i (pre ++ mkData (node d) (key d) vlen (malloc_value_size d) (value d) :: post));
        memcpy (value d) v vlen;;
        t ← lift (unlock_if needLock t i);
        mret (true, t)
      else
        t ← DELETE_FROM_BUCKET t i pre d post;
        t ← lift (unlock_if needLock t i);
        mret (false, t)
  | (_, None) =>
      t ← lift (unlock_if needLock t i);
      mret (false, t)
  end.

(** The new node, or the error. *)
Definition insert_make (t : HashArray) (k : list Z) (v : ptr) (vlen : Z) : HM (Z + HashData * HashArray) :=
  size ← (if negb (is_malloc_value t) then mret 0 else lift (MEM_ALIGN vlen));
  let bytes := sext 32 (CALC_NODE_MALLOC_BYTES (zlen k) size) in
  full ← (if 0 <? max_bytes t then u ← lift (cint64 (bytes_used t + bytes)); mret (max_bytes t <? u) else mret false);
  if (full : bool) then mret (inl (- ENOSPC)) else
  pBuff ← malloc (u64 bytes);
  match pBuff with
  | None => mret (inl (- ENOMEM))
  | Some p =>
      u ← lift (cint64 (bytes_used t + bytes));
      let t := set_used u t in
      if negb (is_malloc_value t) then mret (inr (mkData p.1 k vlen size v, t))
      else
        let value := (p.1, sizeof_HashData + zlen k) in
        memcpy value v vlen;;
        mret (inr (mkData p.1 k vlen size value, t))
  end.

Definition insert_add (t : HashArray) (k : list Z) (d : HashData) (needLock : bool) : HM (Z * HashArray) :=
  i ← lift (bucket_of t k);
  t ← lift (lock_if needLock t i);
  t ← lift (ADD_TO_BUCKET t i d);
  t ← lift (unlock_if needLock t i);
  c ← lift (capacity_at (capacity t));
  if dle lit_0_10 (load_factor t) &&
     dle (load_factor t) (ddiv (double_of_int (item_count t)) (double_of_int c)) then
    r ← _rehash t; mret (1, r.2)
  else mret (1, t).

Definition hash_insert_ex (t : HashArray) (k : list Z) (v : ptr) (vlen : Z) (needLock : bool) : HM (Z * HashArray) :=
  r ← insert_search t k v vlen needLock;
  let '(complete, t) := r in
  if (complete : bool) then mret (0, t) else
  r ← insert_make t k v vlen;
  match r with
  | inl result => mret (result, t)
  | inr (d, t) => insert_add t k d needLock
  end.

(** ** Derived updates *)

(** [convert_func] writes the new value to the buffer and returns its length. *)
Definition hash_inc_ex (convert_func : option HashData → Z → ptr → HM Z) (t : HashArray) (k : list Z) (inc : Z)
    (buf : ptr) : HM (Z * Z * HashArray) :=
  i ← lift (bucket_of t k);
  t ← lift (HASH_LOCK t i);
  l ← lift (bucket t i);
  let '(pre, found) := chain_search [] l k in
  vlen ← convert_func (match found with Some (d, _) => Some d | None => None end) inc buf;
  r ← match found with
      | Some (d, post) =>
          if negb (is_malloc_value t) then
            t ← lift (set_bucket t i (pre ++ mkData (node d) (key d) vlen (malloc_value_size d) buf :: post));
            t ← lift (HASH_UNLOCK t i);
            mret (Some t)
          else if vlen <=? malloc_value_size d then
            t ← lift (set_bucket t i (pre ++ mkData (node d) (key d) vlen (malloc_value_size d) (value d) :: post));
            memcpy (value d) buf vlen;;
            t ← lift (HASH_UNLOCK t i);
            mret (Some t)
          else mret None
      | None => mret None
      end;
  match r with
  | Some t => mret (0, vlen, t)
  | None =>
      r ← hash_insert_ex t k buf vlen false;
      let '(result, t) := r in
      r ← (if result <? 0 then write_byte buf 0;; mret (- result, 0) else mret (0, vlen));
      t ← lift (HASH_UNLOCK t i);
      mret (r.1, r.2, t)
  end.

Definition hash_partial_set (t : HashArray) (k : list Z) (v : ptr) (offset vlen : Z) : HM (Z * HashArray) :=
  i ← lift (bucket_of t k);
  t ← lift (HASH_LOCK t i);
  l ← lift (bucket t i);
  r ← match _chain_find_entry l k with
      | Some d =>
          if (offset <? 0) || (value_len d <=? offset) then mret (EINVAL, t) else
          e ← lint (offset + vlen);
          if e <=? value_len d then
            memcpy (padd (value d) offset) v vlen;;
            mret (0, t)
          else
            p ← malloc (u64 e);
            match p with
            | None => mret (ENOMEM, t)
            | Some p =>
                (if 0 <? offset then memcpy p (value d) offset else mret ());;
                memcpy (padd p offset) v vlen;;
                r ← hash_insert_ex t k p e false;
                free p;;
                mret (if r.1 <? 0 then - r.1 else 0, r.2)
            end
      | None =>
          if negb (offset =? 0) then mret (ENOENT, t) else
          r ← hash_insert_ex t k v vlen false;
          mret (if r.1 <? 0 then - r.1 else 0, r.2)
      end;
  t ← lift (HASH_UNLOCK r.2 i);
  mret (r.1, t).

Definition hash_delete (t : HashArray) (k : list Z) : HM (Z * HashArray) :=
  i ← lift (bucket_of t k);
  t ← lift (HASH_LOCK t i);
  l ← lift (bucket t i);
  r ← match chain_search [] l k with
      | (pre, Some (d, post)) => t ← DELETE_FROM_BUCKET t i pre d post; mret (0, t)
      | (_, None) => mret (ENOENT, t)
      end;
  t ← lift (HASH_UNLOCK r.2 i);
  mret (r.1, t).

(** ** Traversal *)

Section walk.
Context {A : Type} (walkFunc : Z → HashData → A → res (Z * A)).

Fixpoint walk_chain (l : list HashData) (index : Z) (s : A) : res (Z * Z * A) :=
  match l with
  | [] => Done (0, index, s)
  | hash_data :: l =>
      '(result, s) ← walkFunc index hash_data s;
      if negb (result =? 0) then Done (result, index, s) else
      index ← cint (index + 1);
      walk_chain l index s
  end.

Fixpoint walk_buckets (b : list (list HashData)) (index : Z) (s : A) : res (Z * A) :=
  match b with
  | [] => Done (0, s)
  | l :: b =>
      '(result, index, s) ← walk_chain l index s;
      if negb (result =? 0) then Done (result, s) else walk_buckets b index s
  end.

Definition hash_walk (t : HashArray) (args : A) : res (Z * A) :=
  c ← capacity_at (capacity t);
  match buckets t with
  | None => Undef
  | Some (_, b) => walk_buckets (take (Z.to_nat c) b) 0 args
  end.
End walk.

Definition hash_count (t : HashArray) : Z := item_count t.

(** The results are those of [pthread_mutex_lock] and [pthread_mutex_unlock] when
    the thread does not misuse them. *)
Definition hash_bucket_lock (t : HashArray) (bucket_index : Z) : res (Z * HashArray) :=
  t ← HASH_LOCK t bucket_index; Done (0, t).
Definition hash_bucket_unlock (t : HashArray) (bucket_index : Z) : res (Z * HashArray) :=
  t ← HASH_UNLOCK t bucket_index; Done (0, t).

End table.
