(* ===== verification/HashMap.v ===== *)
(** What the operations of the hash table do: a table holds a finite map from
    keys to values, and owns its blocks; the operations are those of the map, give
    back the memory they let go, leave other memory alone and keep the counts of
    items and bytes. An insertion fails for want of memory only: over the limit,
    or when an allocation failed. *)
From S2P Require Import Prelude CDouble CMemory HashTable.

(** * What a table holds *)

(** The value of a key: the pointer the client gave, or bytes the table has copied. *)
Inductive aval := APtr (p : ptr) (len : Z) | ABytes (bs : list Z).

(** A key's value and the bytes its node has for a copy of it. *)
Record entry := Entry { val : aval; room : Z }.

Abbreviation hmap := (gmap (list Z) entry).

Definition bytes_at (h : hheap) (p : ptr) (n : Z) : list Z :=
  zslice (default [] (blocks h !! p.1)) p.2 n.

(** The value a client passes, to a table that copies values or not. *)
Definition given (h : hheap) (copies : bool) (v : ptr) (vlen : Z) : aval :=
  if copies then ABytes (bytes_at h v vlen) else APtr v vlen.

Definition view (h : hheap) (copies : bool) (d : HashData) : entry :=
  Entry (given h copies (value d) (value_len d)) (malloc_value_size d).

Definition node_size (d : HashData) : Z := sizeof_HashData + key_len d + malloc_value_size d.

(** A node in its block. *)
Record node_ok (h : hheap) (copies : bool) (d : HashData) : Prop := {
  nd_block : ∃ buf, blocks h !! node d = Some buf ∧ zlen buf = node_size d;
  nd_size : 0 ≤ malloc_value_size d ∧ node_size d ≤ INT_MAX;
  nd_value : if copies then value d = (node d, sizeof_HashData + key_len d) ∧ 0 ≤ value_len d ≤ malloc_value_size d
             else malloc_value_size d = 0 }.

(** The block of a capacity that was allocated. *)
Definition capacity_blocks (p : option capacity_ptr) : list Z :=
  match p with Some (Malloced b _) => [b] | _ => [] end.

Definition footprint (t : HashArray) (a : Z) (ns : list HashData) : list Z :=
  a :: capacity_blocks (capacity t) ++ (node <$> ns).

(** The memory a table takes: a pointer for each of [s] slots, and a node for each
    key. *)
Definition map_bytes (m : hmap) : Z :=
  zsum ((λ x : list Z * entry, sizeof_HashData + zlen x.1 + room x.2) <$> map_to_list m).
Definition total (s : Z) (m : hmap) : Z := sizeof_pointer * s + map_bytes m.

(** More than the limit, when there is one. *)
Definition over (limit bytes : Z) : Prop := 0 < limit < bytes.

Definition slots (t : HashArray) : Z :=
  match capacity_at (capacity t) with Done c => c | _ => 0 end.

(** The least of the primes above [s]. *)
Definition next_slots (s s' : Z) : Prop := s' ∈ prime_array ∧ s < s' ∧ ∀ p, p ∈ prime_array → s < p → s' ≤ p.

(** A table of [s] slots gets the next number of them; it keeps [s] when the old
    and the new array together are over the limit, or an allocation [failed]. *)
Definition resized (limit : Z) (failed : Prop) (s : Z) (m : hmap) (s' : Z) : Prop :=
  ∃ p, next_slots s p ∧
    let over_limit := over limit (total s m + sizeof_pointer * p) in
    s' = p ∧ ¬ over_limit ∨ s' = s ∧ (over_limit ∨ failed).

(** The map the nodes spell. *)
Definition map_of (h : hheap) (copies : bool) (ns : list HashData) : hmap :=
  list_to_map ((λ d, (key d, view h copies d)) <$> ns).

(** [ns] are nodes with different keys, in blocks of their own besides the blocks
    of [t]'s arrays. *)
Record stored (h : hheap) (t : HashArray) (c a : Z) (ns : list HashData) : Prop := {
  st_heap : heap_ok h;
  st_keys : NoDup (key <$> ns);
  st_nodes : Forall (node_ok h (is_malloc_value t)) ns;
  st_blocks : NoDup (footprint t a ns);
  st_arrays : Forall (λ b, is_Some (blocks h !! b)) (a :: capacity_blocks (capacity t));
  st_used : bytes_used t = sizeof_pointer * c + zsum (node_size <$> ns);
  st_bound : bytes_used t < 2 ^ 62 }.

Section table.
Context (hash_func : list Z → Z).

(** The arrays: every node is in the bucket of its hash code. *)
Record shape (t : HashArray) (c a : Z) (b : list (list HashData)) : Prop := {
  sh_capacity : capacity_at (capacity t) = Done c;
  sh_pos : 0 < c ≤ INT_MAX;
  sh_buckets : buckets t = Some (a, b);
  sh_len : zlen b = c;
  sh_place i l d : zget b i = Some l → d ∈ l → hash_code hash_func (key d) mod c = i;
  sh_count : item_count t = zlen (concat b) ∧ item_count t ≤ INT_MAX;
  sh_malloced : is_malloc_capacity t = match capacity t with Some (Malloced _ _) => true | _ => false end;
  sh_locks : 0 ≤ lock_count t }.

(** [t] is a table that holds [m]. *)
Definition table (h : hheap) (t : HashArray) (m : hmap) : Prop :=
  ∃ c a b, shape t c a b ∧ stored h t c a (concat b) ∧ m = map_of h (is_malloc_value t) (concat b).

(** The memory that is not the table's. *)
Definition outside (h : hheap) (F : list Z) (x : Z) : option (list Z) :=
  if decide (x ∈ F) then None else blocks h !! x.

Definition owned (t : HashArray) (x : Z) : Prop :=
  ∃ a b, buckets t = Some (a, b) ∧ x ∈ footprint t a (concat b).

(** From [h] and [t] to [h'] and [t'] all other memory is the same: nothing else
    was written or released, and nothing was leaked. *)
Definition frame (h : hheap) (t : HashArray) (h' : hheap) (t' : HashArray) : Prop :=
  ∀ x buf, (blocks h !! x = Some buf ∧ ¬ owned t x) ↔ (blocks h' !! x = Some buf ∧ ¬ owned t' x).

Lemma frame_refl h t : frame h t h t.
Proof. done. Qed.

Lemma frame_trans h1 t1 h2 t2 h3 t3 : frame h1 t1 h2 t2 → frame h2 t2 h3 t3 → frame h1 t1 h3 t3.
Proof. intros H1 H2 x buf. by rewrite (H1 x buf). Qed.

(** ** Lists of chains *)

Lemma concat_split {A} (b : list (list A)) i l :
  zget b i = Some l → ∃ B1 B2, concat b = B1 ++ l ++ B2 ∧ ∀ l', concat (zupd b i l') = B1 ++ l' ++ B2.
Proof.
  intros Hi. pose proof (zget_Some_range _ _ _ Hi) as Hr. rewrite zget_of_lookup in Hi by lia.
  exists (concat (take (Z.to_nat i) b)), (concat (drop (S (Z.to_nat i)) b)). split.
  - rewrite <-(take_drop_middle _ _ _ Hi) at 1. by rewrite concat_app.
  - intros l'. unfold zupd. rewrite insert_take_drop by (unfold zlen in Hr; lia). by rewrite concat_app.
Qed.

Lemma elem_of_concat {A} (b : list (list A)) x : x ∈ concat b ↔ ∃ i l, zget b i = Some l ∧ x ∈ l.
Proof.
  rewrite list_elem_of_In, in_concat. setoid_rewrite <-list_elem_of_In. split.
  - intros (l & Hl & Hx). apply list_elem_of_lookup in Hl as [i Hi]. exists (Z.of_nat i), l. by rewrite zget_nat.
  - intros (i & l & Hi & Hx). exists l. split; [|done]. pose proof (zget_Some_range _ _ _ Hi).
    rewrite zget_of_lookup in Hi by lia. by eapply list_elem_of_lookup_2.
Qed.

(** ** Search *)

Lemma key_matches_spec k d : key_matches k d = bool_decide (k = key d).
Proof.
  unfold key_matches, key_len. case_bool_decide as E; [|by rewrite andb_false_r].
  rewrite E, Z.eqb_refl. done.
Qed.

Lemma chain_search_spec k l pre :
  match chain_search pre l k with
  | (pre', None) => k ∉ key <$> l
  | (pre', Some (d, post)) => ∃ l1, pre' = pre ++ l1 ∧ l = l1 ++ d :: post ∧ key d = k ∧ k ∉ key <$> l1
  end.
Proof.
  revert pre. induction l as [|x l IH]; intros pre; cbn [chain_search]; [apply not_elem_of_nil|].
  rewrite key_matches_spec. case_bool_decide as E.
  - exists []. split_and!; [by rewrite app_nil_r|done|done|apply not_elem_of_nil].
  - specialize (IH (pre ++ [x])). destruct (chain_search (pre ++ [x]) l k) as [pre' [[d post]|]].
    + destruct IH as (l1 & -> & -> & Hk & Hn). exists (x :: l1). split_and!; [by rewrite <-app_assoc|done..|].
      cbn. by rewrite not_elem_of_cons.
    + cbn. by rewrite not_elem_of_cons.
Qed.

Lemma find_entry_search k l :
  _chain_find_entry l k = match chain_search [] l k with (_, Some (d, _)) => Some d | _ => None end.
Proof.
  enough (∀ pre, _chain_find_entry l k = match chain_search pre l k with (_, Some (d, _)) => Some d | _ => None end) by done.
  induction l as [|x l IH]; intros pre; [done|]. cbn. destruct (key_matches k x); [done|]. apply IH.
Qed.

(** ** The map of a list of nodes *)

Lemma map_of_perm h c ns ns' : NoDup (key <$> ns) → ns ≡ₚ ns' → map_of h c ns = map_of h c ns'.
Proof.
  intros Hn Hp. unfold map_of. apply list_to_map_proper; [|by rewrite Hp]. by rewrite <-list_fmap_compose.
Qed.

Lemma map_of_lookup_None h c ns k : k ∉ key <$> ns → map_of h c ns !! k = None.
Proof. intros Hn. apply not_elem_of_list_to_map_1. by rewrite <-list_fmap_compose. Qed.

Lemma map_of_lookup h c ns d : NoDup (key <$> ns) → d ∈ ns → map_of h c ns !! key d = Some (view h c d).
Proof.
  intros Hn Hd. apply elem_of_list_to_map_1; [by rewrite <-list_fmap_compose|].
  apply list_elem_of_fmap. by exists d.
Qed.

Lemma map_of_cons h c d ns : map_of h c (d :: ns) = <[key d := view h c d]> (map_of h c ns).
Proof. done. Qed.

Lemma map_of_ext h h' c ns : (∀ d, d ∈ ns → view h c d = view h' c d) → map_of h c ns = map_of h' c ns.
Proof.
  intros Hv. unfold map_of. f_equal. apply list_fmap_ext. intros i d Hd. f_equal. apply Hv.
  by eapply list_elem_of_lookup_2.
Qed.

(** A node that holds [k], among others. *)
Lemma map_of_mid_delete h c A d B :
  NoDup (key <$> A ++ d :: B) → map_of h c (A ++ B) = delete (key d) (map_of h c (A ++ d :: B)).
Proof.
  intros Hn. rewrite (map_of_perm h c (A ++ d :: B) (d :: A ++ B)); [|done|by rewrite Permutation_middle].
  rewrite map_of_cons, delete_insert_id; [done|]. apply map_of_lookup_None.
  rewrite <-Permutation_middle, fmap_cons, NoDup_cons in Hn. apply Hn.
Qed.

Lemma map_of_mid_insert h c A d d' B :
  NoDup (key <$> A ++ d :: B) → key d' = key d →
  map_of h c (A ++ d' :: B) = <[key d := view h c d']> (map_of h c (A ++ d :: B)).
Proof.
  intros Hn Hk.
  rewrite (map_of_perm h c (A ++ d :: B) (d :: A ++ B)); [|done|by rewrite Permutation_middle].
  rewrite (map_of_perm h c (A ++ d' :: B) (d' :: A ++ B)).
  - rewrite !map_of_cons, Hk. by rewrite insert_insert_eq.
  - rewrite !fmap_app, !fmap_cons, Hk, <-fmap_cons, <-fmap_app. done.
  - by rewrite Permutation_middle.
Qed.

(** ** The memory taken, and the number of keys *)

Lemma map_bytes_insert m k e : m !! k = None → map_bytes (<[k := e]> m) = sizeof_HashData + zlen k + room e + map_bytes m.
Proof.
  intros Hk. unfold map_bytes. erewrite zsum_perm; [|apply fmap_Permutation; by apply map_to_list_insert]. done.
Qed.

Lemma map_bytes_replace m k e : map_bytes (<[k := e]> m) = sizeof_HashData + zlen k + room e + map_bytes (delete k m).
Proof. rewrite <-insert_delete_eq. apply map_bytes_insert. apply lookup_delete_eq. Qed.

Lemma map_bytes_of h c ns : NoDup (key <$> ns) → map_bytes (map_of h c ns) = zsum (node_size <$> ns).
Proof.
  induction ns as [|d ns IH]; [done|]. rewrite fmap_cons, NoDup_cons. intros [Hd Hn].
  rewrite map_of_cons, map_bytes_insert, fmap_cons, zsum_cons, IH by (done || by apply map_of_lookup_None). done.
Qed.

Lemma shape_slots t c a b : shape t c a b → slots t = c.
Proof. intros S. unfold slots. by rewrite (sh_capacity _ _ _ _ S). Qed.

Lemma table_bytes h t m : table h t m → bytes_used t = total (slots t) m.
Proof.
  intros (c & a & b & S & T & ->). rewrite (shape_slots _ _ _ _ S), (st_used _ _ _ _ _ T). unfold total.
  by rewrite map_bytes_of by apply T.
Qed.

Lemma map_of_size h cp ns : NoDup (key <$> ns) → size (map_of h cp ns) = length ns.
Proof.
  induction ns as [|d ns IH]; [intros; apply map_size_empty|]. rewrite fmap_cons, NoDup_cons. intros [Hd Hn].
  rewrite map_of_cons, map_size_insert, map_of_lookup_None by done. cbn. by rewrite IH.
Qed.

Lemma table_count h t m : table h t m → hash_count t = Z.of_nat (size m).
Proof.
  intros (c & a & b & S & T & ->). unfold hash_count. destruct (sh_count _ _ _ _ S) as [-> _].
  by rewrite map_of_size by apply T.
Qed.

(** ** Buckets and locks *)

Lemma shape_bucket t c a b k :
  shape t c a b →
  let i := hash_code hash_func k mod c in
  bucket_of hash_func t k = Done i ∧
  ∃ l, zget b i = Some l ∧ bucket t i = Done l ∧ (k ∈ key <$> concat b ↔ k ∈ key <$> l).
Proof.
  intros S i. destruct S as [Hc Hp Hb Hl Hpl _ _ _]. split.
  - unfold bucket_of. rewrite Hc. cbn. case_if; [lia|done].
  - destruct (zget_is_Some b i) as [l Hi]; [subst c; apply Z.mod_pos_bound; lia|].
    exists l. split_and!; [done|unfold bucket; rewrite Hb; by apply load_ok|].
    rewrite !list_elem_of_fmap. setoid_rewrite elem_of_concat. split.
    + intros (d & -> & j & l' & Hj & Hd). exists d. split; [done|].
      assert (j = i) as -> by (symmetry; by eapply Hpl). by simplify_eq.
    + intros (d & -> & Hd). exists d. split; [done|]. by exists i, l.
Qed.

Lemma lock_spec n t i :
  (n = true → held t = []) →
  ∃ H, lock_if n t i = Done (set_held H t) ∧
    ∀ t2, held t2 = H → lock_count t2 = lock_count t → unlock_if n t2 i = Done (set_held (held t) t2).
Proof.
  intros Hn. destruct n; cbn [lock_if unlock_if].
  - unfold HASH_LOCK, HASH_UNLOCK. rewrite (Hn eq_refl). destruct (0 <? lock_count t) eqn:E.
    + exists [i mod lock_count t]. split.
      * rewrite bool_decide_false; [done|]. apply not_elem_of_nil.
      * intros t2 E2 ->. rewrite E, E2, bool_decide_true by by apply list_elem_of_singleton.
        do 2 f_equal. unfold filter, list_filter. case_decide; done.
    + exists []. split; [f_equal; rewrite <-(Hn eq_refl); by destruct t|].
      intros t2 E2 ->. rewrite E. f_equal. rewrite <-E2. by destruct t2.
  - exists (held t). split; [f_equal; by destruct t|]. intros t2 E2 _. f_equal. rewrite <-E2. by destruct t2.
Qed.

Lemma shape_held t c a b H : shape t c a b ↔ shape (set_held H t) c a b.
Proof. destruct t; cbn. split; intros []; by split. Qed.

Lemma stored_held h t c a ns H : stored h t c a ns ↔ stored h (set_held H t) c a ns.
Proof. destruct t; cbn. split; intros []; by split. Qed.

Lemma table_held h t m H : table h t m ↔ table h (set_held H t) m.
Proof. unfold table. setoid_rewrite <-shape_held. by setoid_rewrite <-stored_held. Qed.

Lemma frame_held h t h' t' H H' : frame h t h' t' ↔ frame h (set_held H t) h' (set_held H' t').
Proof. by destruct t, t'. Qed.

(** ** Lookup *)

(** The entry of [k] that the map stands for. *)
Definition found (h : hheap) (t : HashArray) (k : list Z) (o : option HashData) (m : hmap) : Prop :=
  match o with
  | Some d => key d = k ∧ m !! k = Some (view h (is_malloc_value t) d) ∧ node_ok h (is_malloc_value t) d
  | None => m !! k = None
  end.

Lemma find_entry_ok h t c a b l k :
  shape t c a b → stored h t c a (concat b) → zget b (hash_code hash_func k mod c) = Some l →
  found h t k (_chain_find_entry l k) (map_of h (is_malloc_value t) (concat b)).
Proof.
  intros S T Hl. rewrite find_entry_search.
  destruct (shape_bucket t c a b k S) as (_ & l' & Hl' & _ & Hk).
  assert (l' = l) as -> by congruence.
  pose proof (chain_search_spec k l []) as Hs. destruct (chain_search [] l k) as [pre [[d post]|]].
  - destruct Hs as (l1 & _ & Hl1 & <- & _).
    assert (d ∈ concat b) as Hd.
    { apply elem_of_concat. exists (hash_code hash_func (key d) mod c), l. split; [done|]. rewrite Hl1. set_solver. }
    split_and!; [done|by apply map_of_lookup; [apply (st_keys _ _ _ _ _ T)|]|].
    pose proof (st_nodes _ _ _ _ _ T) as HN. rewrite Forall_forall in HN. by apply HN.
  - apply map_of_lookup_None. by rewrite Hk.
Qed.

Lemma held_restored t H : held t = H → set_held H t = t.
Proof. intros <-. by destruct t. Qed.

Lemma hash_find_ex_ok h t m k :
  table h t m → held t = [] → ∃ o, hash_find_ex hash_func t k = Done (o, t) ∧ found h t k o m.
Proof.
  intros (c & a & b & S & T & ->) Hh.
  destruct (shape_bucket t c a b k S) as (Hi & l & Hl & Hb & _).
  destruct (lock_spec true t (hash_code hash_func k mod c)) as (H & HL & HU); [done|].
  exists (_chain_find_entry l k). split; [|by eapply find_entry_ok].
  unfold hash_find_ex. rewrite Hi. cbn [mbind res_bind]. cbn [lock_if] in HL. rewrite HL. cbn [mbind res_bind].
  assert (bucket (set_held H t) (hash_code hash_func k mod c) = Done l) as -> by (rewrite <-Hb; by destruct t).
  cbn [mbind res_bind]. cbn [unlock_if] in HU. rewrite HU by by destruct t. cbn [mbind res_bind].
  rewrite Hh. do 2 f_equal. rewrite <-Hh. by destruct t.
Qed.

(** ** Changing the nodes *)

Lemma owned_iff t a b x : buckets t = Some (a, b) → owned t x ↔ x ∈ footprint t a (concat b).
Proof. intros Hb. unfold owned. rewrite Hb. naive_solver. Qed.

Lemma frame_intro h t a b h' t' a' b' :
  buckets t = Some (a, b) → buckets t' = Some (a', b') →
  (∀ x, x ∉ footprint t a (concat b) → x ∉ footprint t' a' (concat b') → blocks h' !! x = blocks h !! x) →
  (∀ x, x ∈ footprint t a (concat b) → x ∉ footprint t' a' (concat b') → blocks h' !! x = None) →
  (∀ x, x ∉ footprint t a (concat b) → x ∈ footprint t' a' (concat b') → blocks h !! x = None) →
  frame h t h' t'.
Proof.
  intros Hb Hb' H1 H2 H3 x buf. rewrite !owned_iff by done.
  destruct (decide (x ∈ footprint t a (concat b))), (decide (x ∈ footprint t' a' (concat b'))).
  - naive_solver.
  - rewrite H2 by done. naive_solver.
  - rewrite H3 by done. naive_solver.
  - rewrite H1 by done. naive_solver.
Qed.

Lemma view_ext h h' cp d :
  node_ok h cp d → blocks h' !! node d = blocks h !! node d → node_ok h' cp d ∧ view h' cp d = view h cp d.
Proof.
  intros [Hb Hs Hv] E. split; [split; [by rewrite E|done..]|].
  unfold view, given, bytes_at. destruct cp; [|done]. destruct Hv as [-> _]. cbn. by rewrite E.
Qed.

Lemma nodes_ext h h' cp ns :
  Forall (node_ok h cp) ns → (∀ d, d ∈ ns → blocks h' !! node d = blocks h !! node d) →
  Forall (node_ok h' cp) ns ∧ map_of h' cp ns = map_of h cp ns.
Proof.
  intros HF E. rewrite Forall_forall in HF. split.
  - apply Forall_forall. intros d Hd. by eapply view_ext; [apply HF|apply E].
  - symmetry. apply map_of_ext. intros d Hd. symmetry. by eapply view_ext; [apply HF|apply E].
Qed.

(** The nodes in another order. *)
Lemma stored_perm h t c a ns ns' : stored h t c a ns → ns ≡ₚ ns' → stored h t c a ns'.
Proof.
  intros [] Hp. split; [done|by rewrite <-Hp|by rewrite <-Hp| |done| |done].
  - unfold footprint in *. by rewrite <-Hp.
  - rewrite st_used0. f_equal. apply zsum_perm. by rewrite Hp.
Qed.

(** The table apart from its chains. *)
Definition same_arrays (t t' : HashArray) : Prop :=
  capacity t' = capacity t ∧ is_malloc_value t' = is_malloc_value t ∧ max_bytes t' = max_bytes t ∧
  load_factor t' = load_factor t ∧ is_malloc_capacity t' = is_malloc_capacity t ∧
  lock_count t' = lock_count t ∧ held t' = held t.

Lemma node_size_range h cp d : node_ok h cp d → 32 ≤ node_size d ≤ INT_MAX.
Proof. intros [_ [? ?] _]. unfold node_size, sizeof_HashData, key_len in *. pose proof (zlen_nonneg (key d)). lia. Qed.

Lemma sum_sizes_nonneg h cp ns : Forall (node_ok h cp) ns → 32 * zlen ns ≤ zsum (node_size <$> ns).
Proof.
  induction 1 as [|d ns Hd _ IH]; [done|]. apply node_size_range in Hd. rewrite zlen_cons, fmap_cons, zsum_cons. lia.
Qed.

Lemma footprint_cons t a d ns : footprint t a (d :: ns) ≡ₚ node d :: footprint t a ns.
Proof. unfold footprint. rewrite fmap_cons, <-Permutation_middle. apply perm_swap. Qed.

Lemma stored_remove h t c a d ns t' :
  stored h t c a (d :: ns) → same_arrays t t' → bytes_used t' = bytes_used t - node_size d →
  let h' := with_blocks h (delete (node d) (blocks h)) in
  stored h' t' c a ns ∧ map_of h' (is_malloc_value t') ns = delete (key d) (map_of h (is_malloc_value t) (d :: ns)).
Proof.
  intros [Hh Hk Hn Hb Ha Hu Hl] (Ec & Ev & _) Eu h'. rewrite fmap_cons, NoDup_cons in Hk. destruct Hk as [Hk Hks].
  rewrite Forall_cons in Hn. destruct Hn as [Hd Hn].
  assert (NoDup (node d :: footprint t a ns)) as HD.
  { by rewrite <-footprint_cons. }
  rewrite NoDup_cons in HD. destruct HD as [Hnd HD].
  assert (∀ x, x ∈ footprint t a ns → blocks h' !! x = blocks h !! x) as E.
  { intros x Hx. cbn. rewrite lookup_delete_ne; [done|]. intros <-. done. }
  destruct (nodes_ext h h' (is_malloc_value t) ns) as [Hn' Hm]; [done| |].
  { intros d' Hd'. apply E. unfold footprint. rewrite elem_of_cons, elem_of_app, list_elem_of_fmap. naive_solver. }
  rewrite Ev. split; [split|].
  - by apply heap_ok_delete_block.
  - done.
  - by rewrite Ev.
  - unfold footprint in *. by rewrite Ec.
  - rewrite Ec, Forall_forall in *. intros x Hx. rewrite E; [by apply Ha|]. unfold footprint. set_solver.
  - rewrite Eu, Hu, fmap_cons, zsum_cons. lia.
  - apply node_size_range in Hd. lia.
  - rewrite Hm, map_of_cons, delete_insert_id; [done|]. by apply map_of_lookup_None.
Qed.

Lemma stored_add h t c a d ns h' t' :
  stored h t c a ns → heap_ok h' → node_ok h' (is_malloc_value t) d → key d ∉ key <$> ns →
  (∀ x, x ∈ footprint t a ns → x ≠ node d ∧ blocks h' !! x = blocks h !! x) →
  same_arrays t t' → bytes_used t' = bytes_used t + node_size d → bytes_used t + node_size d < 2 ^ 62 →
  stored h' t' c a (d :: ns) ∧
  map_of h' (is_malloc_value t') (d :: ns) = <[key d := view h' (is_malloc_value t) d]> (map_of h (is_malloc_value t) ns).
Proof.
  intros [Hh Hk Hn Hb Ha Hu Hl] OK Hd Hkd E (Ec & Ev & _) Eu Hbd.
  destruct (nodes_ext h h' (is_malloc_value t) ns) as [Hn' Hm]; [done| |].
  { intros d' Hd'. apply E. unfold footprint. rewrite elem_of_cons, elem_of_app, list_elem_of_fmap. naive_solver. }
  rewrite Ev. split; [split|].
  - done.
  - rewrite fmap_cons, NoDup_cons. done.
  - rewrite Ev. by constructor.
  - assert (NoDup (node d :: footprint t a ns)) as HD.
    { rewrite NoDup_cons. split; [|done]. intros Hx. by destruct (E _ Hx). }
    rewrite <-footprint_cons in HD. unfold footprint in *. by rewrite Ec.
  - rewrite Ec, Forall_forall in *. intros x Hx. destruct (E x) as [_ ->]; [|by apply Ha]. unfold footprint. set_solver.
  - rewrite Eu, Hu, fmap_cons, zsum_cons. lia.
  - lia.
  - by rewrite map_of_cons, Hm.
Qed.

(** ** Changing a bucket *)

Lemma set_bucket_ok t a b i l :
  buckets t = Some (a, b) → 0 ≤ i < zlen b → set_bucket t i l = Done (set_buckets (Some (a, zupd b i l)) t).
Proof. intros Hb Hi. unfold set_bucket. rewrite Hb. by rewrite store_ok. Qed.

Lemma shape_update t c a b i l l' t' :
  shape t c a b → zget b i = Some l → (∀ d, d ∈ l' → d ∈ l ∨ hash_code hash_func (key d) mod c = i) →
  buckets t' = Some (a, zupd b i l') → same_arrays t t' → item_count t' = zlen (concat (zupd b i l')) → item_count t' ≤ INT_MAX →
  shape t' c a (zupd b i l').
Proof.
  intros [Hc Hp Hb Hl Hpl Hn Hm Hk] Hi Hl' Hb' (Ec & Ev & _ & _ & Em & Ek & _) Hn' Hx.
  pose proof (zget_Some_range _ _ _ Hi) as Hr. split; rewrite ?Ec, ?Em, ?Ek; try done.
  - by rewrite zlen_zupd.
  - intros j lj d Hj Hd. destruct (decide (i = j)) as [<-|Hne].
    + rewrite zget_zupd_eq in Hj by done. simplify_eq. destruct (Hl' d Hd); [by eapply Hpl|done].
    + rewrite zget_zupd_ne in Hj by (done || lia). by eapply Hpl.
Qed.

(** [t'] after one node of [t] has gone, in memory [h']. *)
Definition removed (h : hheap) (t : HashArray) (m : hmap) (d : HashData) (t' : HashArray) (h' : hheap) : Prop :=
  table h' t' (delete (key d) m) ∧ frame h t h' t' ∧ same_arrays t t' ∧
  bytes_used t' = bytes_used t - node_size d ∧ item_count t' = item_count t - 1 ∧ next h' = next h.

Lemma step_delete {A} h t c a b i l1 d l2 (k : HashArray → HM A) Q :
  shape t c a b → stored h t c a (concat b) → zget b i = Some (l1 ++ d :: l2) →
  (∀ t' h', removed h t (map_of h (is_malloc_value t) (concat b)) d t' h' → returns (k t' h') Q) →
  returns ((DELETE_FROM_BUCKET t i l1 d l2 ≫= k) h) Q.
Proof.
  intros S T Hi HQ. pose proof (zget_Some_range _ _ _ Hi) as Hr.
  destruct (concat_split b i _ Hi) as (B1 & B2 & Hc & Hc').
  assert (concat b ≡ₚ d :: concat (zupd b i (l1 ++ l2))) as Hp.
  { rewrite Hc, Hc'. rewrite <-!app_assoc. cbn. by rewrite !Permutation_middle. }
  pose proof (stored_perm _ _ _ _ _ _ T Hp) as Tp.
  pose proof (st_nodes _ _ _ _ _ Tp) as Hnd. rewrite Forall_cons in Hnd. destruct Hnd as [Hd Hnd].
  pose proof (node_size_range _ _ _ Hd) as Hsz. pose proof (sum_sizes_nonneg _ _ _ Hnd) as Hsum.
  destruct (nd_block _ _ _ Hd) as (buf & Hbuf & _).
  unfold DELETE_FROM_BUCKET. apply step_assoc. eapply step_lift; [by eapply set_bucket_ok; [apply (sh_buckets _ _ _ _ S)|]|].
  destruct (sh_count _ _ _ _ S) as [Hn Hmax].
  assert (item_count t - 1 = zlen (concat (zupd b i (l1 ++ l2)))) as Hn'.
  { rewrite Hn. unfold zlen. rewrite Hp. cbn. lia. }
  pose proof (zlen_nonneg (concat (zupd b i (l1 ++ l2)))).
  apply step_assoc. eapply step_lift; [apply cint_ok; cbn; int_lia|]. cbn [bytes_used set_buckets set_count item_count].
  assert (CALC_NODE_MALLOC_BYTES (key_len d) (malloc_value_size d) = node_size d) as ->.
  { unfold CALC_NODE_MALLOC_BYTES, node_size in *. unfold u64. apply Z.mod_small. int_lia. }
  set (t' := set_used _ _). apply step_assoc. eapply step_free; [done|]. apply step_ret. apply HQ.
  pose proof (st_used _ _ _ _ _ Tp) as Hu. pose proof (st_bound _ _ _ _ _ Tp) as Hb. pose proof (sh_pos _ _ _ _ S).
  rewrite fmap_cons, zsum_cons in Hu. unfold sizeof_pointer in Hu.
  assert (bytes_used t' = bytes_used t - node_size d) as Eu.
  { cbn. unfold sext. case_if; lia. }
  assert (same_arrays t t') as Ea by done.
  destruct (stored_remove _ _ _ _ _ _ _ Tp Ea Eu) as [T' Hm].
  split_and!; try done.
  - exists c, a, (zupd b i (l1 ++ l2)). split_and!; [|done|].
    + eapply (shape_update t c a b i _ (l1 ++ l2) t' S Hi); [set_solver|done|done|done|cbn; int_lia].
    + rewrite Hm. f_equal. apply map_of_perm; [apply (st_keys _ _ _ _ _ T)|done].
  - pose proof (st_blocks _ _ _ _ _ Tp) as HN. rewrite footprint_cons, NoDup_cons in HN.
    assert (∀ x, x ∈ footprint t a (concat b) ↔ x = node d ∨ x ∈ footprint t' a (concat (zupd b i (l1 ++ l2)))) as HF.
    { intros x. change (footprint t' a) with (footprint t a). unfold footprint.
      rewrite Hp, fmap_cons. set_solver. }
    eapply frame_intro with (b := b) (b' := zupd b i (l1 ++ l2)); [apply S|done|..]; intros x; rewrite HF; cbn; intros H1 H2.
    + rewrite lookup_delete_ne; [done|]. naive_solver.
    + destruct H1 as [->|]; [|done]. by rewrite lookup_delete_eq.
    + naive_solver.
Qed.

(** A node that has been made for the table but is not yet in it. *)
Record made (h : hheap) (t : HashArray) (h1 : hheap) (t1 : HashArray) (d : HashData) : Prop := {
  md_node : node_ok h1 (is_malloc_value t) d;
  md_fresh : blocks h !! node d = None;
  md_others x : x ≠ node d → blocks h1 !! x = blocks h !! x;
  md_heap : heap_ok h1;
  md_table : t1 = set_used (bytes_used t + node_size d) t;
  md_bound : bytes_used t + node_size d < 2 ^ 62 }.

(** Addition of a node under a new key. *)
Lemma add_ok h t m h1 t1 d k :
  table h t m → made h t h1 t1 d → key d = k → m !! k = None → item_count t < INT_MAX →
  ∃ i t', bucket_of hash_func t1 k = Done i ∧ ADD_TO_BUCKET t1 i d = Done t' ∧
    table h1 t' (<[k := view h1 (is_malloc_value t) d]> m) ∧ frame h t h1 t' ∧ same_arrays t t' ∧
    bytes_used t' = bytes_used t + node_size d ∧ item_count t' = item_count t + 1.
Proof.
  intros (c & a & b & S & T & ->) [Hd Hf Ho OK Et Hbd] Hk Hm Hmax.
  destruct (shape_bucket t c a b k S) as (Hi & l & Hl & Hb & Hkl). set (i := hash_code hash_func k mod c) in *.
  pose proof (zget_Some_range _ _ _ Hl) as Hr.
  destruct (concat_split b i _ Hl) as (B1 & B2 & Hc & Hc').
  assert (concat (zupd b i (d :: l)) ≡ₚ d :: concat b) as Hp.
  { rewrite Hc, Hc'. cbn. by rewrite !Permutation_middle. }
  assert (k ∉ key <$> concat b) as Hnk.
  { intros (d' & -> & Hd')%list_elem_of_fmap. rewrite map_of_lookup in Hm; [done|apply T|done]. }
  destruct (sh_count _ _ _ _ S) as [Hn _]. pose proof (zlen_nonneg (concat b)).
  exists i, (set_count (item_count t + 1) (set_buckets (Some (a, zupd b i (d :: l))) t1)). subst t1. split_and!.
  - by destruct t.
  - unfold ADD_TO_BUCKET. replace (bucket (set_used _ t) i) with (bucket t i) by by destruct t. rewrite Hb. cbn [mbind res_bind].
    rewrite (set_bucket_ok _ a b) by (apply S || done). cbn [mbind res_bind item_count set_buckets set_used].
    rewrite cint_ok by int_lia. done.
  - set (t' := set_count _ _). assert (same_arrays t t') as Ea by done.
    destruct (stored_add h t c a d (concat b) h1 t') as [T' Hm']; try done.
    { by rewrite Hk. }
    { intros x Hx. destruct (decide (x = node d)) as [->|]; [|by split; [|apply Ho]]. exfalso.
      unfold footprint in Hx. rewrite app_comm_cons, elem_of_app in Hx. destruct Hx as [Hx|Hx].
      - pose proof (st_arrays _ _ _ _ _ T) as HA. rewrite Forall_forall in HA. apply HA in Hx. rewrite Hf in Hx. by destruct Hx.
      - apply list_elem_of_fmap in Hx as (d' & E & Hd'). pose proof (st_nodes _ _ _ _ _ T) as HN. rewrite Forall_forall in HN.
        destruct (nd_block _ _ _ (HN _ Hd')) as (buf & Hbuf & _). rewrite <-E, Hf in Hbuf. done. }
    exists c, a, (zupd b i (d :: l)). split_and!.
    + eapply (shape_update t c a b i l (d :: l) t' S Hl); [|done|done| |cbn; int_lia].
      * intros d' [->|]%elem_of_cons; [right; by rewrite Hk|by left].
      * cbn. unfold zlen. rewrite Hp. cbn. unfold zlen in Hn. lia.
    + eapply stored_perm; [exact T'|by rewrite Hp].
    + rewrite <-Hk, <-Hm'. apply map_of_perm; [apply T'|by rewrite Hp].
  - assert (∀ x, x ∈ footprint t a (concat (zupd b i (d :: l))) ↔ x = node d ∨ x ∈ footprint t a (concat b)) as HF.
    { intros x. unfold footprint. rewrite Hp, fmap_cons. set_solver. }
    eapply frame_intro with (b := b) (b' := zupd b i (d :: l)); [apply S|done|..]; intros x;
      change (footprint (set_count _ _) a) with (footprint t a); rewrite HF; intros H1 H2.
    + apply Ho. naive_solver.
    + naive_solver.
    + destruct H2 as [->|]; done.
  - done.
  - done.
  - done.
Qed.

(** ** Growth *)

(** The chains of [b] in buckets by their hash codes modulo [c]. *)
Record placed (t : HashArray) (c a : Z) (b : list (list HashData)) : Prop := {
  pl_capacity : capacity_at (capacity t) = Done c;
  pl_pos : 0 < c;
  pl_buckets : buckets t = Some (a, b);
  pl_len : zlen b = c;
  pl_place i l d : zget b i = Some l → d ∈ l → hash_code hash_func (key d) mod c = i }.

Definition refilled (t : HashArray) (a : Z) (b' : list (list HashData)) : HashArray :=
  set_count (zlen (concat b')) (set_buckets (Some (a, b')) t).

Lemma add_placed t c a b d :
  placed t c a b → item_count t = zlen (concat b) → zlen (concat b) < INT_MAX →
  ∃ b', (i ← bucket_of hash_func t (key d); ADD_TO_BUCKET t i d) = Done (refilled t a b') ∧
    placed (refilled t a b') c a b' ∧ concat b' ≡ₚ d :: concat b.
Proof.
  intros [Hc Hp Hb Hl Hpl] Hn Hmax. set (i := hash_code hash_func (key d) mod c).
  destruct (zget_is_Some b i) as [l Hi]; [subst c; apply Z.mod_pos_bound; lia|].
  pose proof (zget_Some_range _ _ _ Hi) as Hr. destruct (concat_split b i _ Hi) as (B1 & B2 & Hcb & Hcb').
  assert (concat (zupd b i (d :: l)) ≡ₚ d :: concat b) as Hperm by (rewrite Hcb, Hcb'; cbn; by rewrite !Permutation_middle).
  exists (zupd b i (d :: l)). split_and!; [| |done].
  - unfold bucket_of. rewrite Hc. cbn [mbind res_bind]. case_if; [lia|]. cbn [mbind res_bind]. fold i.
    unfold ADD_TO_BUCKET, bucket. rewrite Hb, (load_ok b i l) by done. cbn [mbind res_bind].
    rewrite (set_bucket_ok _ a b) by done. cbn [mbind res_bind item_count set_buckets].
    pose proof (zlen_nonneg (concat b)). rewrite cint_ok by int_lia. cbn [mbind res_bind]. do 2 f_equal. unfold refilled. f_equal.
    unfold zlen in *. rewrite Hperm. cbn. lia.
  - split; cbn; [done..|by rewrite zlen_zupd|]. intros j lj d' Hj Hd'. destruct (decide (i = j)) as [<-|Hne].
    + rewrite zget_zupd_eq in Hj by done. simplify_eq. apply elem_of_cons in Hd' as [->|Hd']; [done|by eapply Hpl].
    + rewrite zget_zupd_ne in Hj by (done || lia). by eapply Hpl.
Qed.

Lemma refilled_twice t a b b' : refilled (refilled t a b) a b' = refilled t a b'.
Proof. done. Qed.

Lemma refilled_id t a b : buckets t = Some (a, b) → item_count t = zlen (concat b) → refilled t a b = t.
Proof. intros E1 E2. unfold refilled. rewrite <-E1, <-E2. by destruct t. Qed.

Lemma rehash_chain_ok t c a b l :
  placed t c a b → item_count t = zlen (concat b) → zlen (l ++ concat b) ≤ INT_MAX →
  ∃ b', rehash_chain hash_func t l = Done (refilled t a b') ∧
    placed (refilled t a b') c a b' ∧ concat b' ≡ₚ l ++ concat b.
Proof.
  revert t b. induction l as [|d l IH]; intros t b P Hn Hmax.
  { exists b. by rewrite refilled_id by (apply P || done). }
  rewrite zlen_app, zlen_cons in Hmax. pose proof (zlen_nonneg l). pose proof (zlen_nonneg (concat b)).
  destruct (add_placed t c a b d P Hn) as (b1 & E1 & P1 & Hp1); [lia|].
  assert (zlen (concat b1) = zlen (concat b) + 1) as Hl1 by (unfold zlen; rewrite Hp1; cbn; lia).
  destruct (IH _ _ P1) as (b2 & E2 & P2 & Hp2); [done|rewrite zlen_app; lia|].
  exists b2. cbn [rehash_chain].
  destruct (bucket_of hash_func t (key d)) as [i| |]; [|done..]. cbn [mbind res_bind] in *. rewrite E1. cbn [mbind res_bind].
  rewrite E2. split_and!; [done|done|]. rewrite Hp2, Hp1. by rewrite <-Permutation_middle.
Qed.

Lemma rehash_chains_ok t c a b old :
  placed t c a b → item_count t = zlen (concat b) → zlen (concat old ++ concat b) ≤ INT_MAX →
  ∃ b', fold_res (λ l t, rehash_chain hash_func t l) old t = Done (refilled t a b') ∧
    placed (refilled t a b') c a b' ∧ concat b' ≡ₚ concat old ++ concat b.
Proof.
  revert t b. induction old as [|l old IH]; intros t b P Hn Hmax.
  { exists b. by rewrite refilled_id by (apply P || done). }
  cbn [concat] in *. rewrite !zlen_app in Hmax. pose proof (zlen_nonneg (concat old)).
  destruct (rehash_chain_ok t c a b l P Hn) as (b1 & E1 & P1 & Hp1); [rewrite zlen_app; lia|].
  assert (zlen (concat b1) = zlen l + zlen (concat b)) as Hl1 by (unfold zlen; rewrite Hp1, length_app; lia).
  destruct (IH _ _ P1) as (b2 & E2 & P2 & Hp2); [done|rewrite zlen_app; lia|].
  exists b2. cbn [fold_res]. rewrite E1. cbn [mbind res_bind]. rewrite E2. split_and!; [done|done|].
  rewrite Hp2, Hp1. rewrite !app_assoc. by rewrite (Permutation_app_comm (concat old) l).
Qed.

(** What [_rehash1] leaves behind: the nodes in a new array [a'] of [c'] buckets
    instead of [a] with [c]. *)
Record regrown (h : hheap) (t : HashArray) (c a : Z) (b : list (list HashData)) (new : option capacity_ptr) (c' : Z)
    (h' : hheap) (t' : HashArray) (b' : list (list HashData)) : Prop := {
  rg_table : t' = set_used (bytes_used t + sizeof_pointer * (c' - c)) (set_capacity new (refilled t (next h) b'));
  rg_placed : placed t' c' (next h) b';
  rg_perm : concat b' ≡ₚ concat b;
  rg_blocks : ∃ buf, blocks h' = delete a (<[next h := buf]> (blocks h));
  rg_heap : heap_ok h';
  rg_limit : 0 < max_bytes t < 2 ^ 63 → bytes_used t + sizeof_pointer * c' ≤ max_bytes t }.

Lemma placed_empty t c a :
  capacity_at (capacity t) = Done c → 0 < c → buckets t = Some (a, replicate (Z.to_nat c) []) →
  placed t c a (replicate (Z.to_nat c) []) ∧ concat (replicate (Z.to_nat c) (@nil HashData)) = [].
Proof.
  intros Hc Hp Hb. split.
  - split; [done..|rewrite zlen_replicate; lia|]. intros i l d Hi Hd. pose proof (zget_Some_range _ _ _ Hi) as Hr.
    rewrite zget_of_lookup in Hi by lia. apply lookup_replicate_1 in Hi as [-> _]. by apply elem_of_nil in Hd.
  - clear. by induction (Z.to_nat c).
Qed.

Lemma used_after u c c' s :
  u = sizeof_pointer * c + s → 0 ≤ s → 0 < c ≤ INT_MAX → 0 < c' ≤ UINT32_MAX → u + sizeof_pointer * c' < 2 ^ 62 →
  sext 64 (u + (u64 (sizeof_pointer * c') - sizeof_pointer * u32 c)) = u + sizeof_pointer * (c' - c).
Proof.
  unfold sizeof_pointer. intros.
  assert (u64 (8 * c') = 8 * c') as -> by (apply Z.mod_small; int_lia).
  assert (u32 c = c) as -> by (apply Z.mod_small; int_lia).
  unfold sext. rewrite Z.mod_small by lia. case_if; lia.
Qed.

Lemma used_nonneg h t c a ns : stored h t c a ns → 0 ≤ c → 0 ≤ bytes_used t.
Proof.
  intros T Hc. rewrite (st_used _ _ _ _ _ T). pose proof (sum_sizes_nonneg _ _ _ (st_nodes _ _ _ _ _ T)).
  pose proof (zlen_nonneg ns). unfold sizeof_pointer. lia.
Qed.

Lemma limit_checked limit u c' :
  (0 <? limit) && (u64 limit <? u64 (u + u64 (sizeof_pointer * c'))) = false → 0 < limit < 2 ^ 63 → 0 ≤ u →
  0 < c' < 2 ^ 33 → u + sizeof_pointer * c' < 2 ^ 62 → u + sizeof_pointer * c' ≤ limit.
Proof. unfold u64, sizeof_pointer. intros. rewrite !Z.mod_small in *; lia_bool; lia. Qed.

Lemma limit_exceeded limit u c' :
  (0 <? limit) && (u64 limit <? u64 (u + u64 (sizeof_pointer * c'))) = true → limit < 2 ^ 63 → 0 ≤ u →
  0 < c' < 2 ^ 33 → u + sizeof_pointer * c' < 2 ^ 62 → over limit (u + sizeof_pointer * c').
Proof.
  unfold u64, sizeof_pointer, over. intros [H1%Z.ltb_lt H2]%andb_true_iff. intros. rewrite !Z.mod_small in H2 by lia. lia_bool; lia.
Qed.

Lemma step_rehash1 {A} h t c a b new c' (k : Z * HashArray → HM A) Q :
  shape t c a b → stored h t c a (concat b) → capacity_at new = Done c' → 0 < c' ≤ UINT32_MAX →
  bytes_used t + sizeof_pointer * c' < 2 ^ 62 →
  (∀ r h', r ≠ 0 → 0 < r → same_memory h h' →
     (max_bytes t < 2 ^ 63 → over (max_bytes t) (bytes_used t + sizeof_pointer * c')) ∨ oom h' = true →
     returns (k (r, set_capacity new t) h') Q) →
  (∀ h' t' b', regrown h t c a b new c' h' t' b' → returns (k (0, t') h') Q) →
  returns ((_rehash1 hash_func t c new ≫= k) h) Q.
Proof.
  intros S T Hc' Hp' Hbd Hfail Hok. pose proof (st_heap _ _ _ _ _ T) as OK.
  assert (set_buckets (buckets t) (set_capacity new t) = set_capacity new t) as Hsb by by destruct t.
  unfold _rehash1. apply step_assoc. unfold _hash_alloc_buckets. apply step_assoc.
  eapply step_lift; [exact Hc'|]. cbn [max_bytes set_capacity]. set (full := _ && _). destruct full eqn:Hfull; subst full.
  { apply step_ret. cbn [Z.eqb negb ENOSPC]. apply step_ret. rewrite Hsb. apply Hfail; [done|done|by apply same_memory_refl|].
    left. intros Hmx. eapply limit_exceeded; [exact Hfull|done| | |done]; [|int_lia].
    apply (used_nonneg _ _ _ _ _ T). pose proof (sh_pos _ _ _ _ S). lia. }
  apply step_assoc. eapply step_malloc; [done|..].
  { intros h' Hs. apply step_ret. cbn [Z.eqb negb ENOMEM]. apply step_ret.
    replace (set_buckets (buckets t) _) with (set_capacity new t) by by destruct t. destruct Hs as [Hs Ho].
    apply Hfail; [done|done|done|by right]. }
  intros h' Hst Hbl OK' Hnx. apply step_ret. cbn [Z.eqb negb fst].
  rewrite (sh_buckets _ _ _ _ S). set (t1 := set_count 0 _).
  destruct (placed_empty t1 c' (next h)) as [P1 Hnil]; [done|lia|done|].
  destruct (rehash_chains_ok t1 c' (next h) _ (take (Z.to_nat c) b) P1) as (b' & E & P & Hperm).
  { by rewrite Hnil. }
  { rewrite Hnil, app_nil_r. destruct (sh_count _ _ _ _ S) as [Hn Hm]. rewrite take_ge; [lia|].
    pose proof (sh_len _ _ _ _ S). unfold zlen in *. lia. }
  rewrite Hnil, app_nil_r, take_ge in Hperm by (pose proof (sh_len _ _ _ _ S); unfold zlen in *; lia).
  apply step_assoc. eapply step_lift; [exact E|].
  pose proof (st_arrays _ _ _ _ _ T) as Ha. rewrite Forall_cons in Ha. destruct Ha as [[abuf Ha] _].
  apply step_assoc. eapply step_free; [rewrite Hbl, lookup_insert_ne; [exact Ha|]|].
  { intros <-. rewrite (ok_blocks _ OK) in Ha by lia. done. }
  apply step_ret. assert (refilled t1 (next h) b' =
    set_used (bytes_used t + sizeof_pointer * (c' - c)) (set_capacity new (refilled t (next h) b'))) as Et.
  { pose proof (st_used _ _ _ _ _ T) as Hu. pose proof (sum_sizes_nonneg _ _ _ (st_nodes _ _ _ _ _ T)) as Hs.
    pose proof (zlen_nonneg (concat b)). pose proof (sh_pos _ _ _ _ S).
    subst t1. cbn [bytes_used set_buckets set_capacity].
    erewrite used_after; [by destruct t|exact Hu|lia..]. }
  apply (Hok _ _ b'). split.
  - exact Et.
  - done.
  - done.
  - eexists. cbn. by rewrite Hbl.
  - by apply heap_ok_delete_block.
  - intros Hlim. eapply limit_checked; [exact Hfull|exact Hlim| | |done].
    + apply (used_nonneg _ _ _ _ _ T). pose proof (sh_pos _ _ _ _ S). lia.
    + int_lia.
Qed.

Lemma stored_dom h t c a ns x : stored h t c a ns → x ∈ footprint t a ns → is_Some (blocks h !! x).
Proof.
  intros T. unfold footprint. rewrite app_comm_cons, elem_of_app. pose proof (st_arrays _ _ _ _ _ T) as HA.
  pose proof (st_nodes _ _ _ _ _ T) as HN. rewrite Forall_forall in HA. rewrite Forall_forall in HN.
  intros [Hx|Hx]; [by apply HA|]. apply list_elem_of_fmap in Hx as (d & -> & Hd).
  destruct (nd_block _ _ _ (HN _ Hd)) as (y & -> & _). done.
Qed.

Lemma stored_fresh h t c a ns x : stored h t c a ns → x ∈ footprint t a ns → x ≠ next h.
Proof.
  intros T Hx ->. apply (stored_dom _ _ _ _ _ _ T) in Hx.
  rewrite (ok_blocks _ (st_heap _ _ _ _ _ T)) in Hx by lia. by destruct Hx.
Qed.

(** The old capacity's block, if it had one, is gone too. *)
Lemma regrown_table h t c a b i c' h' t' b' h2 t2 :
  shape t c a b → stored h t c a (concat b) → regrown h t c a b (Some (Prime i)) c' h' t' b' → c' ≤ INT_MAX →
  bytes_used t + sizeof_pointer * c' < 2 ^ 62 →
  t2 = set_malloc_capacity false t' → heap_ok h2 →
  (∀ x, x ∉ capacity_blocks (capacity t) → blocks h2 !! x = blocks h' !! x) →
  (∀ x, x ∈ capacity_blocks (capacity t) → blocks h2 !! x = None) →
  table h2 t2 (map_of h (is_malloc_value t) (concat b)) ∧ frame h t h2 t2.
Proof.
  intros S T [Et P Hp [buf Hbl] OK' _] Hc' Hbd E2 OK2 Hkeep Hgone.
  pose proof (st_heap _ _ _ _ _ T) as OK. destruct P as [Pc Ppos Pb Pl Ppl].
  assert (∀ x, x ∈ footprint t a (concat b) → x ≠ next h) as Hnext by (intros x; by eapply stored_fresh).
  pose proof (st_blocks _ _ _ _ _ T) as HND. unfold footprint in HND. rewrite NoDup_cons, NoDup_app in HND.
  destruct HND as (Hna & Hcb & Hdis & Hns). rewrite not_elem_of_app in Hna. destruct Hna as [Hac Han].
  unfold footprint in Hnext. setoid_rewrite elem_of_cons in Hnext. setoid_rewrite elem_of_app in Hnext.
  (* the memory afterwards, block by block *)
  assert (∀ x, x ∉ capacity_blocks (capacity t) → x ≠ a → x ≠ next h → blocks h2 !! x = blocks h !! x) as Hrest.
  { intros x Hx ? ?. by rewrite Hkeep, Hbl, lookup_delete_ne, lookup_insert_ne by done. }
  assert (blocks h2 !! a = None) as Ha2 by by rewrite Hkeep, Hbl, lookup_delete_eq.
  assert (blocks h2 !! next h = Some buf) as Hnew.
  { rewrite Hkeep, Hbl, lookup_delete_ne, lookup_insert_eq; [done| |]; naive_solver. }
  assert (∀ x, x ∈ node <$> concat b → blocks h2 !! x = blocks h !! x) as Hnode.
  { intros x Hx. apply Hrest; [intros Hc; by apply (Hdis x)|by intros ->|naive_solver]. }
  destruct (nodes_ext h h2 (is_malloc_value t) (concat b)) as [Hn' Hm]; [apply T| |].
  { intros d Hd. apply Hnode. apply list_elem_of_fmap. by exists d. }
  assert (buckets t2 = Some (next h, b')) as Eb by by subst.
  assert (capacity t2 = Some (Prime i)) as Ec by by subst.
  assert (is_malloc_value t2 = is_malloc_value t) as Ev by by subst.
  assert (bytes_used t2 = bytes_used t + sizeof_pointer * (c' - c)) as Eu by by subst.
  assert (lock_count t2 = lock_count t) as El by by subst.
  assert (item_count t2 = zlen (concat b')) as En by by subst.
  assert (is_malloc_capacity t2 = false) as Em by by subst.
  split.
  - exists c', (next h), b'. rewrite Ev. split_and!.
    + destruct (sh_count _ _ _ _ S) as [Hn1 Hn2]. split; rewrite ?Ec, ?Em, ?El; try done.
      * by rewrite <-Ec, E2.
      * split; [done|]. rewrite En. unfold zlen in *. rewrite Hp. lia.
      * apply S.
    + apply (stored_perm _ _ _ _ (concat b)); [|done]. split; rewrite ?Ec, ?Ev; try done.
      * apply T.
      * unfold footprint. rewrite Ec. cbn. rewrite NoDup_cons. split; [|done]. naive_solver.
      * by constructor; [rewrite Hnew|].
      * rewrite Eu, (st_used _ _ _ _ _ T). lia.
      * rewrite Eu. pose proof (sh_pos _ _ _ _ S). unfold sizeof_pointer in *. lia.
    + rewrite <-Hm. apply map_of_perm; [apply T|done].
  - eapply frame_intro; [apply S|exact Eb|..]; intros x; unfold footprint; rewrite Ec, Hp;
      cbn [capacity_blocks app]; rewrite !not_elem_of_cons, ?not_elem_of_app, ?elem_of_cons, ?elem_of_app.
    + naive_solver.
    + intros [->|[Hx|Hx]] ?; [done|by apply Hgone|naive_solver].
    + intros ? [->|Hx]; [by apply ok_blocks|naive_solver].
Qed.

(** The table after a growth or not: the same but for the arrays. *)
Definition same_kind (t t' : HashArray) : Prop :=
  is_malloc_value t' = is_malloc_value t ∧ max_bytes t' = max_bytes t ∧ load_factor t' = load_factor t ∧
  lock_count t' = lock_count t ∧ held t' = held t.

(** There is a next prime. *)
Definition can_grow (t : HashArray) : Prop :=
  match capacity t with
  | Some (Prime i) => i < PRIME_ARRAY_SIZE - 1
  | Some (Malloced _ c) => c < INT_MAX
  | None => False
  end.

(** The limit on the memory is kept. *)
Definition within (t : HashArray) : Prop := 0 < max_bytes t < 2 ^ 63 → bytes_used t ≤ max_bytes t.

Lemma primes_range : Forall (λ p, 0 < p ≤ INT_MAX) prime_array.
Proof. unfold prime_array. repeat constructor; int_lia. Qed.

Lemma prime_at i : 0 ≤ i < PRIME_ARRAY_SIZE → ∃ p, capacity_at (Some (Prime i)) = Done p ∧ 0 < p ≤ INT_MAX.
Proof.
  intros Hi. destruct (zget_is_Some prime_array i) as [p Hp]; [exact Hi|]. exists p. split; [by apply load_ok|].
  pose proof primes_range as HF. rewrite Forall_forall in HF. apply HF.
  rewrite zget_of_lookup in Hp by lia. by eapply list_elem_of_lookup_2.
Qed.

Lemma primes_sorted : StronglySorted Z.lt prime_array.
Proof. unfold prime_array. repeat constructor; int_lia. Qed.

Lemma sorted_get l i j (p q : Z) : StronglySorted Z.lt l → zget l i = Some p → zget l j = Some q → i < j → p < q.
Proof.
  intros HS Hp Hq Hij. pose proof (zget_Some_range _ _ _ Hp). rewrite zget_of_lookup in * by lia.
  assert (Z.to_nat i < Z.to_nat j)%nat as Hn by lia. clear Hij. revert Hp Hq Hn.
  generalize (Z.to_nat i) (Z.to_nat j). clear -HS. induction HS as [|x l HS IH Hx]; intros [|i] [|j]; try done; cbn; try lia.
  - intros [= ->] Hq _. rewrite Forall_forall in Hx. apply Hx. by eapply list_elem_of_lookup_2.
  - intros Hp Hq Hn. eapply IH; [exact Hp|exact Hq|lia].
Qed.

(** In the table of primes [j] is the first place above [n]. *)
Lemma next_slots_first n j p :
  zget prime_array j = Some p → n < p → (∀ q, zget prime_array (j - 1) = Some q → q ≤ n) → next_slots n p.
Proof.
  intros Hp Hn Hq. pose proof (zget_Some_range _ _ _ Hp) as Hr. split_and!; [|done|].
  - rewrite zget_of_lookup in Hp by lia. by eapply list_elem_of_lookup_2.
  - intros q Hin Hnq. apply list_elem_of_lookup in Hin as [i Hi]. rewrite <-zget_nat in Hi.
    destruct (decide (Z.of_nat i = j)) as [<-|]; [by simplify_eq|].
    destruct (decide (j < Z.of_nat i)); [pose proof (sorted_get _ _ _ _ _ primes_sorted Hp Hi); lia|].
    pose proof (zget_Some_range _ _ _ Hi). destruct (zget_is_Some prime_array (j - 1)) as [q' Hq']; [lia|]. specialize (Hq q' Hq').
    destruct (decide (Z.of_nat i = j - 1)) as [E|]; [rewrite E in Hi; simplify_eq; lia|].
    pose proof (sorted_get _ _ _ _ _ primes_sorted Hi Hq'). lia.
Qed.

Lemma prime_above_spec l i n :
  Exists (λ p, u32 n < p) l → ∃ j p, prime_above l i n = Some (Prime (i + j)) ∧ zget l j = Some p ∧ u32 n < p ∧
    ∀ q, zget l (j - 1) = Some q → q ≤ u32 n.
Proof.
  intros HE. revert i. induction l as [|p l IH]; intros i; [by inversion HE|]. cbn [prime_above]. case_if.
  - exists 0, p. split_and!; [by rewrite Z.add_0_r|done|done|]. intros q Hq%zget_Some_range. lia.
  - rewrite Exists_cons in HE. destruct HE as [?|HE]; [lia|]. destruct (IH HE (i + 1)) as (j & q & E & Hj & Hq & Hf).
    pose proof (zget_Some_range _ _ _ Hj). assert (∀ x, 0 ≤ x → zget (p :: l) (x + 1) = zget l x) as Hs.
    { intros x Hx. rewrite !zget_of_lookup by lia. by rewrite Z2Nat.inj_add, Nat.add_comm by lia. }
    exists (j + 1), q. split_and!; [by rewrite E, <-Z.add_assoc, (Z.add_comm 1 j)|by rewrite Hs by lia|done|].
    replace (j + 1 - 1) with j by lia. destruct (decide (j = 0)) as [->|]; [intros q' [= <-]; lia_bool; lia|].
    replace j with (j - 1 + 1) by lia. by rewrite Hs by lia.
Qed.

Lemma hash_get_prime_capacity_ok n :
  0 ≤ n < INT_MAX → ∃ i p, hash_get_prime_capacity n = Some (Prime i) ∧ capacity_at (Some (Prime i)) = Done p ∧
    n < p ≤ INT_MAX ∧ next_slots n p.
Proof.
  intros Hn. destruct (prime_above_spec prime_array 0 n) as (j & p & E & Hj & Hp & Hf).
  { unfold prime_array. do 29 right. left. unfold u32. rewrite (Z.mod_small n) by int_lia. int_lia. }
  unfold u32 in Hp, Hf. rewrite Z.mod_small in Hp by int_lia. rewrite Z.mod_small in Hf by int_lia.
  exists j, p. split_and!; [exact E|by apply load_ok|done| |by eapply next_slots_first].
  assert (0 < p ≤ INT_MAX); [|lia]. pose proof primes_range as HF. rewrite Forall_forall in HF. apply HF.
  pose proof (zget_Some_range _ _ _ Hj). rewrite zget_of_lookup in Hj by lia. by eapply list_elem_of_lookup_2.
Qed.

Lemma prime_after i c c' :
  capacity_at (Some (Prime i)) = Done c → capacity_at (Some (Prime (i + 1))) = Done c' → next_slots c c'.
Proof.
  cbn. intros Hc%load_inv Hc'%load_inv. eapply next_slots_first; [exact Hc'|eapply sorted_get; [apply primes_sorted|done..|lia]|].
  replace (i + 1 - 1) with i by lia. intros q Hq. by simplify_eq.
Qed.

Lemma table_same_memory h h' t m : same_memory h h' → table h t m → table h' t m ∧ frame h t h' t.
Proof.
  intros (_ & Eb & OK) (c & a & b & S & T & ->). split; [|intros x buf; by rewrite Eb].
  destruct (nodes_ext h h' (is_malloc_value t) (concat b)) as [Hn Hm]; [apply T|by rewrite Eb|].
  exists c, a, b. split_and!; [done| |done]. destruct T. split; try done. by rewrite Eb.
Qed.

Lemma same_kind_refl t : same_kind t t.
Proof. done. Qed.

(** The rest of [_rehash] after a new array, or after a failure. *)
Lemma rehash_done h t c a b i c' h1 t1 b1 h2 t2 :
  shape t c a b → stored h t c a (concat b) → regrown h t c a b (Some (Prime i)) c' h1 t1 b1 → c' ≤ INT_MAX →
  bytes_used t < 2 ^ 61 → max_bytes t < 2 ^ 63 → t2 = set_malloc_capacity false t1 → heap_ok h2 →
  (∀ x, x ∉ capacity_blocks (capacity t) → blocks h2 !! x = blocks h1 !! x) →
  (∀ x, x ∈ capacity_blocks (capacity t) → blocks h2 !! x = None) →
  table h2 t2 (map_of h (is_malloc_value t) (concat b)) ∧ frame h t h2 t2 ∧ same_kind t t2 ∧
  item_count t2 = item_count t ∧ within t2 ∧ bytes_used t2 ≤ bytes_used t + 2 ^ 34 ∧
  slots t2 = c' ∧ ¬ over (max_bytes t) (bytes_used t + sizeof_pointer * c').
Proof.
  intros S T R Hc' Hu Hmx E2 OK2 Hk Hg. pose proof (pl_pos _ _ _ _ (rg_placed _ _ _ _ _ _ _ _ _ _ R)) as Hpos.
  destruct (regrown_table h t c a b i c' h1 t1 b1 h2 t2 S T R Hc') as [HT HF]; try done.
  { unfold sizeof_pointer. int_lia. }
  destruct R as [-> P Hp _ _ Hlim]. subst t2. split_and!; [done..| | | | |].
  - cbn. destruct (sh_count _ _ _ _ S) as [-> _]. unfold zlen. by rewrite Hp.
  - intros Hl. specialize (Hlim Hl). cbn in *. pose proof (sh_pos _ _ _ _ S). unfold sizeof_pointer in *. lia.
  - cbn. pose proof (sh_pos _ _ _ _ S). unfold sizeof_pointer in *. int_lia.
  - unfold slots. pose proof (pl_capacity _ _ _ _ P) as Ec. cbn in Ec |- *. by rewrite Ec.
  - intros [Ho1 Ho2]. specialize (Hlim (conj Ho1 Hmx)). lia.
Qed.

Lemma step_rehash {A} h t m (k : Z * HashArray → HM A) Q :
  table h t m → can_grow t → within t → bytes_used t < 2 ^ 61 → max_bytes t < 2 ^ 63 →
  (∀ r h' t', table h' t' m → resized (max_bytes t) (oom h' = true) (slots t) m (slots t') → frame h t h' t' → same_kind t t' → item_count t' = item_count t → within t' →
     bytes_used t' ≤ bytes_used t + 2 ^ 34 → returns (k (r, t') h') Q) →
  returns ((_rehash hash_func t ≫= k) h) Q.
Proof.
  intros HT Hg Hw Hbd Hmx HQ. pose proof HT as (c & a & b & S & T & Em).
  pose proof (sh_pos _ _ _ _ S) as Hp. pose proof (sh_malloced _ _ _ _ S) as Hm. pose proof (sh_capacity _ _ _ _ S) as Hcap.
  assert (sext 32 c = c) as Hsx by (unfold sext; rewrite Z.mod_small by int_lia; case_if; int_lia).
  pose proof (table_bytes _ _ _ HT) as Etot. pose proof (shape_slots _ _ _ _ S) as Esl.
  assert (∀ r p h', same_memory h h' → next_slots c p →
    (max_bytes t < 2 ^ 63 → over (max_bytes t) (bytes_used t + sizeof_pointer * p)) ∨ oom h' = true →
    returns (k (r, t) h') Q) as Hfail.
  { intros r p h' Hs Hp' Hwhy. destruct (table_same_memory h h' t m Hs HT). apply HQ; try done; [|lia].
    exists p. rewrite Esl in *. split; [done|]. right. split; [done|]. rewrite <-Etot.
    destruct Hwhy; [left; auto|by right]. }
  unfold can_grow in Hg. unfold _rehash. apply step_assoc. eapply step_lift; [apply S|]. rewrite Hm, Hsx.
  destruct (capacity t) as [[i|p c0]|] eqn:Ec; [| |done].
  - cbn in Hcap. apply load_inv, zget_Some_range in Hcap. change (zlen prime_array) with PRIME_ARRAY_SIZE in Hcap.
    destruct (prime_at (i + 1)) as (c' & Hc' & Hr'); [lia|]. case_if; [|lia].
    apply step_assoc, step_ret, step_assoc.
    eapply (step_rehash1 h t c a b); [done|done|exact Hc'|int_lia|unfold sizeof_pointer; int_lia|..].
    + intros r h' Hr _ Hs Hwhy. case_if; [|lia_bool]. apply step_ret.
      replace (set_capacity (Some (Prime i)) (set_capacity _ t)) with t by (rewrite <-Ec; by destruct t).
      eapply Hfail; [done|eapply prime_after; [by rewrite <-Ec; apply S|exact Hc']|done].
    + intros h' t' b' R. cbn [Z.eqb negb].
      assert (is_malloc_capacity t' = false) as Hm' by by rewrite (rg_table _ _ _ _ _ _ _ _ _ _ R).
      rewrite Hm'. apply step_ret.
      destruct (rehash_done h t c a b (i + 1) c' h' t' b' h' t') as (? & ? & ? & ? & ? & ? & Hsl & Hno); try done; [lia| |by apply R| |].
      * clear -Hm'. destruct t'; cbn in *. by subst.
      * rewrite Ec. cbn. intros x Hx. by apply elem_of_nil in Hx.
      * subst m. apply HQ; try done. exists c'. rewrite Hsl, Esl in *.
        split; [eapply prime_after; [by rewrite <-Ec; apply S|exact Hc']|left; by rewrite <-Etot].
  - cbn in Hcap. injection Hcap as ->.
    destruct (hash_get_prime_capacity_ok c) as (i & c' & Ei & Hc' & Hr'); [lia|].
    apply step_assoc, step_ret, step_assoc. rewrite Ei.
    eapply (step_rehash1 h t c a b); [done|done|exact Hc'|int_lia|unfold sizeof_pointer; int_lia|..].
    + intros r h' Hr _ Hs Hwhy. case_if; [|lia_bool]. apply step_ret.
      replace (set_capacity (Some (Malloced p c)) (set_capacity _ t)) with t by (rewrite <-Ec; by destruct t).
      eapply Hfail; [done|apply Hr'|done].
    + intros h' t' b' R. cbn [Z.eqb negb].
      assert (is_malloc_capacity t' = true) as Hm' by by rewrite (rg_table _ _ _ _ _ _ _ _ _ _ R).
      rewrite Hm'. destruct (rg_blocks _ _ _ _ _ _ _ _ _ _ R) as [buf Hbl].
      assert (p ∈ footprint t a (concat b)) as Hpf by (unfold footprint; rewrite Ec; set_solver).
      destruct (stored_dom _ _ _ _ _ _ T Hpf) as [pbuf Hpb].
      assert (p ≠ a) as Hpa.
      { pose proof (st_blocks _ _ _ _ _ T) as HN. unfold footprint in HN. rewrite Ec, NoDup_cons in HN. set_solver. }
      apply step_assoc. eapply step_free.
      { rewrite Hbl, lookup_delete_ne, lookup_insert_ne; [exact Hpb| |done].
        intros <-. by apply (stored_fresh _ _ _ _ _ _ T Hpf). }
      apply step_ret.
      destruct (rehash_done h t c a b i c' h' t' b' (with_blocks h' (delete p (blocks h'))) (set_malloc_capacity false t'))
        as (? & ? & ? & ? & ? & ? & Hsl & Hno); try done; [lia| | | |subst m; apply HQ; try done; exists c'; rewrite Hsl, Esl in *; split; [apply Hr'|left; by rewrite <-Etot]].
      * apply heap_ok_delete_block, R.
      * rewrite Ec. cbn. intros x Hx. rewrite lookup_delete_ne; [done|]. set_solver.
      * rewrite Ec. cbn. intros x ->%list_elem_of_singleton. by rewrite lookup_delete_eq.
Qed.

(** ** Insertion *)

(** The same node with another value. *)
Definition with_value (d : HashData) (vlen : Z) (v : ptr) : HashData :=
  mkData (node d) (key d) vlen (malloc_value_size d) v.

Lemma stored_replace h t c a d ns h' t' vlen v :
  stored h t c a (d :: ns) → same_arrays t t' → bytes_used t' = bytes_used t → heap_ok h' →
  (∀ x, x ≠ node d → blocks h' !! x = blocks h !! x) → node_ok h' (is_malloc_value t) (with_value d vlen v) →
  stored h' t' c a (with_value d vlen v :: ns) ∧
  map_of h' (is_malloc_value t) (with_value d vlen v :: ns) =
    <[key d := view h' (is_malloc_value t) (with_value d vlen v)]> (map_of h (is_malloc_value t) (d :: ns)).
Proof.
  intros T (Ec & Ev & _) Eu OK Ho Hd. pose proof (st_blocks _ _ _ _ _ T) as HN.
  rewrite footprint_cons, NoDup_cons in HN. destruct HN as [Hnd HN].
  assert (∀ x, x ∈ footprint t a ns → blocks h' !! x = blocks h !! x) as E by (intros x Hx; apply Ho; by intros ->).
  destruct T as [Hh Hk Hn Hb Ha Hu Hl]. rewrite Forall_cons in Hn. destruct Hn as [_ Hn].
  destruct (nodes_ext h h' (is_malloc_value t) ns) as [Hn' Hm]; [done| |].
  { intros d' Hd'. apply E. unfold footprint. rewrite elem_of_cons, elem_of_app, list_elem_of_fmap. naive_solver. }
  split; [split; rewrite ?Ev|].
  - done.
  - done.
  - by constructor.
  - unfold footprint in *. by rewrite Ec.
  - rewrite Ec. rewrite Forall_forall in *. intros x Hx. rewrite E; [by apply Ha|]. unfold footprint. set_solver.
  - by rewrite Eu, Hu.
  - by rewrite Eu.
  - rewrite !map_of_cons, Hm. by rewrite insert_insert_eq.
Qed.

Lemma replace_ok h t c a b i l1 d l2 h' vlen v :
  shape t c a b → stored h t c a (concat b) → zget b i = Some (l1 ++ d :: l2) → heap_ok h' →
  (∀ x, x ≠ node d → blocks h' !! x = blocks h !! x) → node_ok h' (is_malloc_value t) (with_value d vlen v) →
  ∃ t', set_bucket t i (l1 ++ with_value d vlen v :: l2) = Done t' ∧
    table h' t' (<[key d := view h' (is_malloc_value t) (with_value d vlen v)]> (map_of h (is_malloc_value t) (concat b))) ∧
    frame h t h' t' ∧ same_arrays t t' ∧ bytes_used t' = bytes_used t ∧ item_count t' = item_count t.
Proof.
  intros S T Hi OK Ho Hd. pose proof (zget_Some_range _ _ _ Hi) as Hr.
  destruct (concat_split b i _ Hi) as (B1 & B2 & Hc & Hc'). set (d' := with_value d vlen v) in *.
  assert (concat b ≡ₚ d :: (B1 ++ l1 ++ l2 ++ B2)) as Hp.
  { rewrite Hc. rewrite <-!app_assoc. cbn. by rewrite !Permutation_middle. }
  assert (concat (zupd b i (l1 ++ d' :: l2)) ≡ₚ d' :: (B1 ++ l1 ++ l2 ++ B2)) as Hp'.
  { rewrite Hc'. rewrite <-!app_assoc. cbn. by rewrite !Permutation_middle. }
  pose proof (stored_perm _ _ _ _ _ _ T Hp) as Tp.
  exists (set_buckets (Some (a, zupd b i (l1 ++ d' :: l2))) t). split; [by apply set_bucket_ok; [apply S|]|].
  destruct (stored_replace h t c a d _ h' (set_buckets (Some (a, zupd b i (l1 ++ d' :: l2))) t) vlen v Tp)
    as [T' Hm]; try done.
  split_and!; try done.
  - exists c, a, (zupd b i (l1 ++ d' :: l2)). destruct (sh_count _ _ _ _ S) as [Hn Hmax]. split_and!.
    + eapply (shape_update t c a b i _ _ _ S Hi); [|done|done| |done].
      * intros x. rewrite !elem_of_app, !elem_of_cons. intros [?|[->|?]]; [by left; left| |by left; right; right].
        right. apply (sh_place _ _ _ _ S i _ d Hi). set_solver.
      * change (item_count (set_buckets _ t)) with (item_count t). rewrite Hn. unfold zlen. by rewrite Hp, Hp'.
    + eapply stored_perm; [exact T'|by rewrite Hp'].
    + change (is_malloc_value (set_buckets _ t)) with (is_malloc_value t).
      symmetry. etrans; [apply map_of_perm; [|exact Hp']; rewrite Hp'; apply T'|].
      etrans; [exact Hm|]. f_equal. symmetry. apply map_of_perm; [apply T|done].
  - eapply frame_intro with (b := b); [apply S|done|..]; intros x;
      change (footprint (set_buckets _ t) a) with (footprint t a); unfold footprint;
      rewrite Hp, Hp'; cbn [fmap list_fmap]; change (node d') with (node d); intros H1 H2; try done.
    apply Ho. intros ->. apply H1. set_solver.
Qed.

(** Bytes the client owns and may pass. *)
Record client (h : hheap) (t : HashArray) (v : ptr) (vlen : Z) : Prop := {
  cl_block : ∃ bx, blocks h !! v.1 = Some bx ∧ v.2 + vlen ≤ zlen bx;
  cl_other : ¬ owned t v.1;
  cl_pos : 0 ≤ v.2 }.

Lemma client_frame h t h' t' v vlen : frame h t h' t' → client h t v vlen →
  client h' t' v vlen ∧ blocks h' !! v.1 = blocks h !! v.1.
Proof.
  intros F [(bx & Hbx & Hl) Ho Hp]. destruct (proj1 (F v.1 bx) (conj Hbx Ho)) as [Hb' Ho'].
  split; [|by rewrite Hb']. split; [by exists bx|done|done].
Qed.

(** Copying the client's bytes into the value of a node. *)
Lemma copy_value h t c a ns d v vlen :
  stored h t c a ns → is_malloc_value t = true → d ∈ ns → client h t v vlen → v.1 ≠ node d → 0 ≤ vlen ≤ malloc_value_size d →
  ∃ buf bx, blocks h !! node d = Some buf ∧ blocks h !! v.1 = Some bx ∧ value d = (node d, sizeof_HashData + key_len d) ∧
    sizeof_HashData + key_len d + vlen ≤ zlen buf ∧ v.2 + vlen ≤ zlen bx ∧
    let h' := with_blocks h (<[node d := zwrite buf (sizeof_HashData + key_len d) (zslice bx v.2 vlen)]> (blocks h)) in
    node_ok h' true (with_value d vlen (value d)) ∧
    view h' true (with_value d vlen (value d)) = Entry (given h true v vlen) (malloc_value_size d).
Proof.
  intros T Em Hd [(bx & Hbx & Hl) _ Hp] Hne Hv. pose proof (st_nodes _ _ _ _ _ T) as HN. rewrite Forall_forall in HN.
  destruct (HN _ Hd) as [(buf & Hbuf & Hbl) [Hs1 Hs2] Hval]. rewrite Em in Hval. destruct Hval as [Hval _].
  exists buf, bx. unfold node_size in Hbl. pose proof (zlen_nonneg (key d)). unfold key_len, sizeof_HashData in *.
  assert (zlen (zslice bx v.2 vlen) = vlen) as Hx by (apply zlen_zslice; lia).
  split_and!; try done; try lia; cbn -[zwrite].
  - split; cbn -[zwrite].
    + eexists. rewrite lookup_insert_eq. split; [done|]. rewrite zlen_zwrite by lia. done.
    + done.
    + rewrite Hval. done.
  - unfold view, given, bytes_at. rewrite Hval. cbn -[zwrite]. rewrite lookup_insert_eq, Hbx. cbn -[zwrite].
    do 2 f_equal. rewrite <-Hx at 2. apply zslice_zwrite; lia.
Qed.

Lemma same_arrays_held t t' H : same_arrays (set_held H t) t' → same_kind t (set_held (held t) t') ∧ capacity t' = capacity t.
Proof. intros (Ec & Ev & Em & El & _ & Ek & _). by destruct t, t'. Qed.

Lemma node_owned t a b d : buckets t = Some (a, b) → d ∈ concat b → owned t (node d).
Proof. intros Hb Hd. apply (owned_iff t a b); [done|]. unfold footprint. set_solver. Qed.

Lemma elem_of_bucket {B} (b : list (list B)) i l x : zget b i = Some l → x ∈ l → x ∈ concat b.
Proof. intros. apply elem_of_concat. by exists i, l. Qed.

(** [t1] is [t] with the lock of bucket [i], which unlocking gives back. *)
Definition locked (n : bool) (t t1 : HashArray) (i : Z) : Prop :=
  ∃ H, t1 = set_held H t ∧
    ∀ t2, held t2 = H → lock_count t2 = lock_count t → unlock_if n t2 i = Done (set_held (held t) t2).

Lemma step_unlock {A} n h t t1 i h2 t2 m2 (k : HashArray → HM A) Q :
  locked n t t1 i → table h2 t2 m2 → frame h t1 h2 t2 → same_arrays t1 t2 →
  (∀ t3, table h2 t3 m2 → frame h t h2 t3 → same_kind t t3 → capacity t3 = capacity t →
     bytes_used t3 = bytes_used t2 → item_count t3 = item_count t2 → returns (k t3 h2) Q) →
  returns ((lift (unlock_if n t2 i) ≫= k) h2) Q.
Proof.
  intros (H & -> & HU) HT HF HA HQ. pose proof HA as (_ & _ & _ & _ & _ & Ek & Eh).
  eapply step_lift; [by apply HU|]. destruct (same_arrays_held _ _ _ HA). apply HQ; try done.
  by apply table_held.
Qed.

Section found.
Context {A : Type} (n : bool) (h : hheap) (t t1 : HashArray) (c a : Z) (b : list (list HashData)) (i : Z).
Context (v : ptr) (vlen : Z) (pre post : list HashData) (d : HashData) (K : bool * HashArray → HM A) (Q : A * hheap → Prop).
Context (L : locked n t t1 i) (S : shape t1 c a b) (T : stored h t1 c a (concat b)).
Context (Hl : zget b i = Some (pre ++ d :: post)).

Lemma found_elem : d ∈ concat b.
Proof using Hl. clear -Hl. eapply elem_of_bucket; [exact Hl|set_solver]. Qed.

Lemma update_by_copy :
  is_malloc_value t1 = true → client h t v vlen → 0 ≤ vlen ≤ malloc_value_size d →
  (∀ t' h', table h' t' (<[key d := Entry (given h true v vlen) (malloc_value_size d)]> (map_of h true (concat b))) → frame h t h' t' → same_kind t t' →
     capacity t' = capacity t → bytes_used t' = bytes_used t1 → item_count t' = item_count t1 → returns (K (true, t') h') Q) →
  returns (((t2 ← lift (set_bucket t1 i (pre ++ with_value d vlen (value d) :: post));
             memcpy (value d) v vlen;; t3 ← lift (unlock_if n t2 i); mret (true, t3)) ≫= K) h) Q.
Proof using L S T Hl.
  intros Ev Hcl Hv HQ. pose proof found_elem as Hd.
  assert (client h t1 v vlen) as Hcl1 by (destruct L as (H & -> & _); by destruct Hcl).
  assert (v.1 ≠ node d) as Hne.
  { intros E. apply (cl_other _ _ _ _ Hcl1). rewrite E. apply (node_owned t1 a b); [apply S|done]. }
  destruct (copy_value h t1 c a (concat b) d v vlen T Ev Hd Hcl1 Hne Hv)
    as (buf & bx & Hbuf & Hbx & Hval & Hlb & Hlx & Hno & Hvi). set (h' := with_blocks h _) in *.
  destruct (replace_ok h t1 c a b i pre d post h' vlen (value d)) as (t2 & E2 & HT2 & HF2 & HA2 & HU2 & HC2); try done.
  { apply heap_ok_with_blocks; [apply T|by rewrite Hbuf]. }
  { intros x Hx. cbn. by rewrite lookup_insert_ne. }
  { by rewrite Ev. }
  rewrite Ev, Hvi in HT2. destruct Hcl. pose proof (zlen_nonneg (key d)).
  apply step_assoc. eapply step_lift; [exact E2|].
  apply step_assoc. eapply step_memcpy with (bd := buf) (bs := bx);
    rewrite ?Hval; cbn [fst snd]; unfold key_len, sizeof_HashData in *; try done; try lia.
  apply step_assoc. eapply (step_unlock n h t t1 i h' t2); try done.
  intros t3 ? ? ? ? E3 E4. apply step_ret. apply HQ; congruence || done.
Qed.

Lemma update_by_pointer :
  is_malloc_value t1 = false →
  (∀ t' h', table h' t' (<[key d := Entry (APtr v vlen) (malloc_value_size d)]> (map_of h false (concat b))) → frame h t h' t' → same_kind t t' →
     capacity t' = capacity t → bytes_used t' = bytes_used t1 → item_count t' = item_count t1 → returns (K (true, t') h') Q) →
  returns (((t2 ← lift (set_bucket t1 i (pre ++ with_value d vlen v :: post));
             t3 ← lift (unlock_if n t2 i); mret (true, t3)) ≫= K) h) Q.
Proof using L S T Hl.
  intros Ev HQ. pose proof found_elem as Hd. pose proof (st_nodes _ _ _ _ _ T) as HN.
  rewrite Forall_forall in HN. specialize (HN _ Hd). rewrite Ev in HN.
  destruct (replace_ok h t1 c a b i pre d post h vlen v) as (t2 & E2 & HT2 & HF2 & HA2 & HU2 & HC2); try done.
  { apply T. }
  { rewrite Ev. destruct HN. by split. }
  rewrite Ev in HT2. apply step_assoc. eapply step_lift; [exact E2|].
  apply step_assoc. eapply (step_unlock n h t t1 i h t2); try done.
  intros t3 ? ? ? ? E3 E4. apply step_ret. apply HQ; congruence || done.
Qed.

Lemma remove_found (r : bool) :
  (∀ t' h', table h' t' (delete (key d) (map_of h (is_malloc_value t1) (concat b))) → frame h t h' t' → same_kind t t' →
     capacity t' = capacity t →
     bytes_used t' = bytes_used t1 - node_size d → item_count t' = item_count t1 - 1 → returns (K (r, t') h') Q) →
  returns (((t2 ← DELETE_FROM_BUCKET t1 i pre d post; t3 ← lift (unlock_if n t2 i); mret (r, t3)) ≫= K) h) Q.
Proof using L S T Hl.
  intros HQ. apply step_assoc. eapply step_delete; [done..|].
  intros t2 h2 (HT2 & HF2 & HA2 & HU2 & HC2 & _). apply step_assoc. eapply (step_unlock n h t t1 i h2 t2); try done.
  intros t3 ? ? ? ? E3 E4. apply step_ret. apply HQ; congruence || done.
Qed.
End found.

(** A value of [n] bytes takes the place of the old one: the pointers of a table
    that keeps pointers, and copies that fit without more than half of a large
    space left over. *)
Definition fits (copies : bool) (n : Z) (e : entry) : Prop :=
  copies = true → n ≤ room e ∧ (room e ≤ 128 ∨ room e < 2 * n).

Lemma fits_test vlen e :
  0 ≤ room e → (vlen <=? room e) && ((room e <=? 128) || (Z.quot (room e) 2 <? vlen)) = true ↔ fits true vlen e.
Proof.
  intros Hr. unfold fits. pose proof (Z.quot_div_nonneg (room e) 2 Hr ltac:(lia)).
  rewrite andb_true_iff, orb_true_iff, !Z.leb_le, Z.ltb_lt. split; [intros ? _; lia|]. intros Hf. specialize (Hf eq_refl). lia.
Qed.

Lemma step_insert_search {A} n h t m k v vlen (K : bool * HashArray → HM A) Q :
  table h t m → (n = true → held t = []) → 0 ≤ vlen → (is_malloc_value t = true → client h t v vlen) →
  (∀ t' h' e, m !! k = Some e → fits (is_malloc_value t) vlen e →
     table h' t' (<[k := Entry (given h (is_malloc_value t) v vlen) (room e)]> m) → frame h t h' t' → same_kind t t' →
     capacity t' = capacity t → bytes_used t' = bytes_used t → item_count t' = item_count t → returns (K (true, t') h') Q) →
  (∀ t' h', table h' t' (delete k m) → frame h t h' t' → same_kind t t' → capacity t' = capacity t →
     (∀ e, m !! k = Some e → ¬ fits (is_malloc_value t) vlen e) →
     bytes_used t' ≤ bytes_used t → item_count t' ≤ item_count t → returns (K (false, t') h') Q) →
  returns ((insert_search hash_func t k v vlen n ≫= K) h) Q.
Proof.
  intros HT Hh Hv Hcl Hin Hout. pose proof HT as (c & a & b & S & T & Em).
  set (i := hash_code hash_func k mod c).
  destruct (lock_spec n t i Hh) as (H & HL & HU).
  apply (shape_held _ _ _ _ H) in S. apply (stored_held _ _ _ _ _ H) in T.
  assert (locked n t (set_held H t) i) as L by by exists H.
  change (is_malloc_value t) with (is_malloc_value (set_held H t)) in Em. set (t1 := set_held H t) in *.
  destruct (shape_bucket t1 c a b k S) as (Hi & l & Hl & Hb & Hkl). fold i in Hi, Hl, Hb.
  unfold insert_search. apply step_assoc. eapply step_lift; [exact Hi|].
  apply step_assoc. eapply step_lift; [exact HL|]. fold t1. apply step_assoc. eapply step_lift; [exact Hb|].
  pose proof (chain_search_spec k l []) as Hs. destruct (chain_search [] l k) as [pre [[d post]|]].
  2: { assert (m !! k = None) as Hm by (subst m; apply map_of_lookup_None; by rewrite Hkl).
       apply step_assoc. eapply (step_unlock n h t t1 i h t1 m); [done| | |done|].
       - by apply table_held.
       - done.
       - intros t3 ? ? ? ? E3 E4. apply step_ret. change (bytes_used t1) with (bytes_used t) in E3.
         change (item_count t1) with (item_count t) in E4. apply Hout; try done; [by rewrite delete_id|congruence|lia..]. }
  destruct Hs as (l1 & E1 & -> & Hk & _). cbn in E1. subst l1 k.
  assert (d ∈ concat b) as Hd by (eapply elem_of_bucket; [exact Hl|set_solver]).
  assert (m !! key d = Some (view h (is_malloc_value t1) d)) as Hm by (subst m; rewrite map_of_lookup; [done|apply T|done]).
  assert (32 ≤ node_size d ∧ 0 ≤ malloc_value_size d) as [Hsz Hr0].
  { pose proof (st_nodes _ _ _ _ _ T) as HN. rewrite Forall_forall in HN.
    split; [apply (node_size_range _ _ _ (HN _ Hd))|apply (nd_size _ _ _ (HN _ Hd))]. }
  change (bytes_used t) with (bytes_used t1) in *. change (item_count t) with (item_count t1) in *.
  change (is_malloc_value t) with (is_malloc_value t1) in *. destruct (is_malloc_value t1) eqn:Ev; cbn [negb].
  - pose proof (fits_test vlen (view h true d) Hr0) as Hfit. cbn [room view] in Hfit. case_if.
    + apply proj1 in Hfit. specialize (Hfit eq_refl).
      assert (0 ≤ vlen ≤ malloc_value_size d) by (destruct (Hfit eq_refl); cbn in *; lia).
      eapply update_by_copy; [done..|by apply Hcl|done|]. intros. eapply Hin; [exact Hm|done|by subst m|done..].
    + eapply remove_found; [done..|]. rewrite Ev. intros. apply Hout; try done; [by subst m| |lia..].
      intros e E. rewrite Hm in E. injection E as <-. by rewrite <-Hfit.
  - eapply update_by_pointer; [done..|]. intros. eapply Hin; [exact Hm|done|by subst m|done..].
Qed.

(** The space for a new value: a copy gets a multiple of 8 bytes. *)
Definition new_room (copies : bool) (n : Z) : Z := if copies then (n + 7) / 8 * 8 else 0.

Lemma MEM_ALIGN_ok x : 0 ≤ x → x + 7 ≤ INT_MAX → MEM_ALIGN x = Done (new_room true x).
Proof.
  intros Hx Hm. unfold MEM_ALIGN. rewrite cint_ok by int_lia. cbn [mbind res_bind new_room]. f_equal.
  rewrite <-Z.ldiff_land. change 7 with (Z.ones 3) at 2. rewrite Z.ldiff_ones_r by lia.
  by rewrite Z.shiftl_mul_pow2, Z.shiftr_div_pow2 by lia.
Qed.

(** The size of the node for a value. *)
Definition room_for (k : list Z) (vlen : Z) : Prop := 0 ≤ vlen ∧ sizeof_HashData + zlen k + (vlen + 7) ≤ INT_MAX.

Lemma step_insert_make {A} h t m k v vlen (K : Z + HashData * HashArray → HM A) Q :
  table h t m → room_for k vlen → (is_malloc_value t = true → client h t v vlen) →
  bytes_used t < 2 ^ 61 → max_bytes t < 2 ^ 63 →
  let size := new_room (is_malloc_value t) vlen in
  let over_limit := over (max_bytes t) (bytes_used t + (sizeof_HashData + zlen k + size)) in
  (∀ r h', same_memory h h' → r = - ENOSPC ∧ over_limit ∨ r = - ENOMEM ∧ ¬ over_limit ∧ oom h' = true →
     returns (K (inl r) h') Q) →
  (∀ h' t1 d, made h t h' t1 d → key d = k →
     view h' (is_malloc_value t) d = Entry (given h (is_malloc_value t) v vlen) size → ¬ over_limit →
     within t1 → node_size d ≤ INT_MAX → returns (K (inr (d, t1)) h') Q) →
  returns ((insert_make t k v vlen ≫= K) h) Q.
Proof.
  intros (c & a & b & S & T & _) [Hv Hroom] Hcl Hu Hmax size over_limit Hfail Hok.
  pose proof (st_heap _ _ _ _ _ T) as OK. pose proof (zlen_nonneg k) as Hk.
  assert (0 ≤ bytes_used t) as Hu0 by (apply (used_nonneg _ _ _ _ _ T); pose proof (sh_pos _ _ _ _ S); lia).
  assert ((if negb (is_malloc_value t) then Done 0 else MEM_ALIGN vlen) = Done size ∧ 0 ≤ size ≤ vlen + 7 ∧
    (is_malloc_value t = true → vlen ≤ size) ∧ (is_malloc_value t = false → size = 0)) as (Esz & Hsz & Hs1 & Hs2).
  { subst size. unfold new_room. destruct (is_malloc_value t); cbn [negb].
    - rewrite MEM_ALIGN_ok by (unfold sizeof_HashData in *; lia). split_and!; [done|lia..|done].
    - split_and!; done || lia. }
  unfold insert_make. apply step_assoc. replace (if negb (is_malloc_value t) then mret 0 else lift (MEM_ALIGN vlen))
    with (lift (H := unit) (if negb (is_malloc_value t) then Done 0 else MEM_ALIGN vlen)) by by destruct (is_malloc_value t).
  eapply step_lift; [exact Esz|]. clear Esz. clearbody size. unfold sizeof_HashData in *.
  assert (sext 32 (CALC_NODE_MALLOC_BYTES (zlen k) size) = 32 + zlen k + size) as ->.
  { unfold CALC_NODE_MALLOC_BYTES, u64, sizeof_HashData. rewrite (Z.mod_small _ (2 ^ 64)) by int_lia.
    unfold sext. rewrite Z.mod_small by int_lia. case_if; int_lia. }
  set (bytes := 32 + zlen k + size) in *.
  assert (cint64 (bytes_used t + bytes) = Done (bytes_used t + bytes)) as E64.
  { unfold cint64, in_int64. case_if; [done|]. lia_bool. int_lia. }
  rewrite E64. set (full := (0 <? max_bytes t) && (max_bytes t <? bytes_used t + bytes)).
  assert ((if 0 <? max_bytes t then u ← lift (Done (bytes_used t + bytes)); mret (max_bytes t <? u) else mret false)
    = (mret full : HM bool)) as -> by (unfold full; by destruct (0 <? max_bytes t)).
  apply step_assoc, step_ret. assert (full = true ↔ over_limit) as Hfull.
  { unfold full, over_limit, over. rewrite andb_true_iff, !Z.ltb_lt. done. }
  clearbody over_limit. assert (max_bytes t < bytes_used t + bytes → 0 < max_bytes t → full = true) as Hfull'.
  { unfold full. rewrite andb_true_iff, !Z.ltb_lt. done. }
  destruct full eqn:Ef.
  { apply step_ret. apply Hfail; [by apply same_memory_refl|]. left. by rewrite <-Hfull. }
  assert (¬ over_limit) as Hno by by rewrite <-Hfull.
  apply step_assoc. eapply step_malloc; [done|intros h' [Hs Ho]; apply step_ret; apply Hfail; [done|by right]|].
  intros h1 _ Hbl OK1 Hnx. apply step_assoc. eapply step_lift; [done|].
  assert (within (set_used (bytes_used t + bytes) t)) as Hw.
  { intros Hl. cbn in *. destruct (decide (max_bytes t < bytes_used t + bytes)); [|lia].
    by discriminate Hfull'; [|apply Hl]. }
  set (t1 := set_used _ t) in *.
  assert (∀ h2 d, node_ok h2 (is_malloc_value t) d → node d = next h → node_size d = bytes →
    (∀ x, x ≠ next h → blocks h2 !! x = blocks h !! x) → heap_ok h2 → made h t h2 t1 d) as Hmade.
  { intros h2 d Hd En Es Ho OK2. split; [done|rewrite En; by apply ok_blocks|by rewrite En|done|by rewrite Es|rewrite Es; int_lia]. }
  assert (bytes ≤ INT_MAX) as Hbm by lia.
  assert (u64 bytes = bytes) as Hb64 by (apply Z.mod_small; int_lia).
  assert (zlen (replicate (Z.to_nat bytes) (junk h)) = bytes) as Hlen by (rewrite zlen_replicate; lia). rewrite Hb64 in *.
  change (is_malloc_value t1) with (is_malloc_value t). destruct (is_malloc_value t) eqn:Ev; cbn [negb].
  - specialize (Hcl eq_refl). destruct Hcl as [(bx & Hbx & Hlx) _ Hp].
    assert (v.1 ≠ next h) as Hne by (intros E; rewrite E, (ok_blocks _ OK) in Hbx by lia; done).
    apply step_assoc. eapply step_memcpy with (bd := replicate (Z.to_nat bytes) (junk h)) (bs := bx); cbn [fst snd]; try lia.
    { by rewrite Hbl, lookup_insert_eq. }
    { by rewrite Hbl, lookup_insert_ne by done. }
    specialize (Hs1 eq_refl). apply step_ret. set (xs := zslice bx v.2 vlen).
    assert (zlen xs = vlen) as Hx by (apply zlen_zslice; lia).
    apply Hok; [|done| |done|done|exact Hbm].
    + apply Hmade; [|done|done| |by apply heap_ok_with_blocks; [|rewrite Hbl, lookup_insert_eq]].
      * split; cbn -[zwrite].
        -- eexists. rewrite lookup_insert_eq. split; [done|]. by rewrite zlen_zwrite by lia.
        -- split; [lia|exact Hbm].
        -- done.
      * intros x Hx'. cbn. by rewrite lookup_insert_ne, Hbl, lookup_insert_ne.
    + unfold view, given, bytes_at. cbn -[zwrite]. rewrite lookup_insert_eq, Hbx. cbn -[zwrite]. do 2 f_equal.
      fold xs. rewrite <-Hx at 1. apply zslice_zwrite; lia.
  - apply step_ret. apply Hok; [|done|done|done|done|exact Hbm].
    apply Hmade; [|done|done| |done].
    + split; cbn.
      * exists (replicate (Z.to_nat bytes) (junk h)). rewrite Hbl, lookup_insert_eq. done.
      * split; [lia|exact Hbm].
      * by apply Hs2.
    + intros x Hx. by rewrite Hbl, lookup_insert_ne.
Qed.

(** The table does not grow by itself, or there is a next prime. *)
Definition may_grow (t : HashArray) : Prop := dle lit_0_10 (load_factor t) = false ∨ can_grow t.

Lemma made_held h t h1 t1 d H : made h t h1 t1 d → made h (set_held H t) h1 (set_held H t1) d.
Proof. intros []. subst t1. by split. Qed.

(** The load factor, when one is set, is reached with [n] keys in [s] slots. *)
Definition crowded (lf : SpecFloat.spec_float) (s n : Z) : bool :=
  dle lit_0_10 lf && dle lf (ddiv (double_of_int n) (double_of_int s)).

Definition growth (lf : SpecFloat.spec_float) (limit : Z) (failed : Prop) (s : Z) (m : hmap) (s' : Z) : Prop :=
  if crowded lf s (Z.of_nat (size m)) then resized limit failed s m s' else s' = s.

Lemma step_insert_add {A} n h0 t m h t1 d k (K : Z * HashArray → HM A) Q :
  table h0 t m → made h0 t h t1 d → key d = k → m !! k = None → (n = true → held t = []) →
  item_count t < INT_MAX → may_grow t → within t1 → bytes_used t1 < 2 ^ 61 → max_bytes t < 2 ^ 63 →
  let m' := <[k := view h (is_malloc_value t) d]> m in
  (∀ t' h', table h' t' m' → growth (load_factor t) (max_bytes t) (oom h' = true) (slots t) m' (slots t') → frame h0 t h' t' → same_kind t t' → within t' →
     item_count t' = item_count t + 1 → bytes_used t' ≤ bytes_used t1 + 2 ^ 34 → returns (K (1, t') h') Q) →
  returns ((insert_add hash_func t1 k d n ≫= K) h) Q.
Proof.
  intros HT M Hk Hm Hh Hn Hg Hw Hu Hmx m' HQ.
  assert (held t1 = held t ∧ lock_count t1 = lock_count t ∧ bytes_used t1 = bytes_used t + node_size d) as (Eh & El & Eu)
    by by rewrite (md_table _ _ _ _ _ M).
  pose proof HT as (c & a & b & S & _ & _). destruct (shape_bucket t c a b k S) as (Hi & _).
  set (i := hash_code hash_func k mod c) in *.
  destruct (lock_spec n t1 i) as (H & HL & HU); [by rewrite Eh|]. rewrite Eh, El in HU.
  assert (locked n t (set_held H t) i) as L by by exists H.
  destruct (add_ok h0 (set_held H t) m h (set_held H t1) d k) as (i' & t2 & Hi' & HA & HT2 & HF2 & HA2 & HU2 & HC2); try done.
  { by apply table_held. }
  { by apply made_held. }
  assert (bucket_of hash_func t1 k = Done i') as Hi1 by by destruct t1.
  assert (i' = i) as ->.
  { assert (bucket_of hash_func t1 k = bucket_of hash_func t k) by by rewrite (md_table _ _ _ _ _ M). congruence. }
  unfold insert_add. apply step_assoc. eapply step_lift; [exact Hi1|].
  apply step_assoc. eapply step_lift; [exact HL|]. apply step_assoc. eapply step_lift; [exact HA|].
  apply step_assoc. eapply (step_unlock n h0 t (set_held H t) i h t2); try done.
  intros t3 HT3 HF3 HK3 EC3 E3 E4. change (is_malloc_value (set_held H t)) with (is_malloc_value t) in HT3.
  change (bytes_used (set_held H t)) with (bytes_used t) in HU2. change (item_count (set_held H t)) with (item_count t) in HC2.
  pose proof HK3 as (_ & Emx & Elf & _ & _).
  assert (within t3) as Hw3.
  { unfold within in *. rewrite Emx, E3, HU2, <-Eu. by rewrite (md_table _ _ _ _ _ M) in *. }
  pose proof HT3 as (c3 & a3 & b3 & S3 & _ & _). apply step_assoc. eapply step_lift; [apply S3|].
  assert (slots t3 = slots t) as Esl by (unfold slots; by rewrite EC3).
  pose proof (table_count _ _ _ HT3) as Ecnt. unfold hash_count in Ecnt. fold m' in Ecnt.
  unfold growth in HQ.
  rewrite <-(shape_slots _ _ _ _ S3), Ecnt. fold (crowded (load_factor t3) (slots t3) (Z.of_nat (size m'))). rewrite Esl, Elf.
  destruct (crowded (load_factor t) (slots t) (Z.of_nat (size m'))) eqn:Eg.
  - apply step_assoc. eapply step_rehash; [exact HT3| |done|lia|by rewrite Emx|].
    { destruct Hg as [Hg|Hg]; [unfold crowded in Eg; by rewrite Hg in Eg|]. unfold can_grow in *. by rewrite EC3. }
    intros r h4 t4 HT4 HR4 HF4 HK4 EC4 Hw4 HU4. apply step_ret. cbn [snd]. apply HQ; try done; [| | |lia|lia].
    + by rewrite <-Esl, <-Emx.
    + by eapply frame_trans.
    + unfold same_kind in *. intuition congruence.
  - apply step_ret. apply HQ; try done; lia.
Qed.

(** An insertion of the value [a] of [n] bytes under [k] into a table of [s]
    slots that holds [m]: what it returns, and the slots and the map afterwards.
    The old value gives way before there is a place for the new one: when the new
    one does not fit into the limit, or an allocation [failed], the key is gone. *)
Inductive put (copies : bool) (lf : SpecFloat.spec_float) (limit : Z) (failed : Prop) (k : list Z) (a : aval) (n : Z)
    (s : Z) (m : hmap) : Z → Z → hmap → Prop :=
| put_replaced e : m !! k = Some e → fits copies n e →
    put copies lf limit failed k a n s m 0 s (<[k := Entry a (room e)]> m)
| put_added s' : let m' := <[k := Entry a (new_room copies n)]> m in
    (∀ e, m !! k = Some e → ¬ fits copies n e) → ¬ over limit (total s m') → growth lf limit failed s m' s' →
    put copies lf limit failed k a n s m 1 s' m'
| put_full : (∀ e, m !! k = Some e → ¬ fits copies n e) → over limit (total s (<[k := Entry a (new_room copies n)]> m)) →
    put copies lf limit failed k a n s m (- ENOSPC) s (delete k m)
| put_failed : (∀ e, m !! k = Some e → ¬ fits copies n e) → ¬ over limit (total s (<[k := Entry a (new_room copies n)]> m)) →
    failed → put copies lf limit failed k a n s m (- ENOMEM) s (delete k m).

Lemma put_mono copies lf limit (F F' : Prop) k a n s m r s' m' :
  (F → F') → put copies lf limit F k a n s m r s' m' → put copies lf limit F' k a n s m r s' m'.
Proof.
  intros HF [e Hm Hf|s1 m1 Hf Ho Hg|Hf Ho|Hf Ho Hx].
  - by apply put_replaced.
  - apply put_added; [done|done|]. unfold growth, resized in *. destruct (crowded _ _ _); naive_solver.
  - by apply put_full.
  - apply put_failed; auto.
Qed.

(** An insertion of [a] under [k], with the table and the memory. *)
Definition inserted (h : hheap) (t : HashArray) (m : hmap) (k : list Z) (a : aval) (n : Z) (r : Z) (h' : hheap)
    (t' : HashArray) (m' : hmap) : Prop :=
  frame h t h' t' ∧ same_kind t t' ∧ within t' ∧ table h' t' m' ∧
  put (is_malloc_value t) (load_factor t) (max_bytes t) (oom h' = true) k a n (slots t) m r (slots t') m'.

(** What an insertion needs of the table. *)
Record ready (t : HashArray) : Prop := {
  rd_grow : may_grow t;
  rd_within : within t;
  rd_max : max_bytes t < 2 ^ 63;
  rd_used : bytes_used t ≤ 2 ^ 60;
  rd_count : item_count t < INT_MAX }.

Lemma step_hash_insert {A} n h t m k v vlen (K : Z * HashArray → HM A) Q :
  table h t m → ready t → (n = true → held t = []) → room_for k vlen → (is_malloc_value t = true → client h t v vlen) →
  (∀ r t' h' m', inserted h t m k (given h (is_malloc_value t) v vlen) vlen r h' t' m' →
     item_count t' ≤ item_count t + 1 → bytes_used t' ≤ bytes_used t + 2 ^ 35 → returns (K (r, t') h') Q) →
  returns ((hash_insert_ex hash_func t k v vlen n ≫= K) h) Q.
Proof.
  intros HT [Hg Hw Hmax Hu Hn] Hh Hroom Hcl HQ. unfold hash_insert_ex. apply step_assoc.
  set (a := given h (is_malloc_value t) v vlen) in *. pose proof (table_bytes _ _ _ HT) as Etot.
  eapply step_insert_search; [exact HT|done|apply Hroom|done|..].
  { intros t1 h1 e Hm Hf HT1 HF1 HK1 Ecap EU EC. pose proof HK1 as (_ & Emx & _). apply step_ret. eapply HQ; [|lia|lia].
    assert (slots t1 = slots t) as Esl by (unfold slots; by rewrite Ecap).
    split_and!; [done..| |exact HT1|]; [unfold within in *; by rewrite EU, Emx|]. rewrite Esl. by apply put_replaced. }
  intros t1 h1 HT1 HF1 HK1 Ecap Href EU EC. pose proof HK1 as (Ev & Emx & Elf & Elk & Ehd). apply step_assoc.
  assert (slots t1 = slots t) as Esl by (unfold slots; by rewrite Ecap).
  set (e := Entry a (new_room (is_malloc_value t) vlen)).
  assert (bytes_used t1 + (sizeof_HashData + zlen k + new_room (is_malloc_value t) vlen) = total (slots t) (<[k := e]> m)) as Etot1.
  { rewrite (table_bytes _ _ _ HT1), Esl. unfold total. rewrite map_bytes_replace. cbn [room e]. lia. }
  eapply (step_insert_make h1 t1 (delete k m)); [done|done| |lia|by rewrite Emx|..]; rewrite ?Ev, ?Emx, ?Etot1.
  { intros E. by apply (client_frame h t h1 t1 v vlen HF1), Hcl. }
  { intros r h2 Hs Hwhy. apply step_ret. destruct (table_same_memory h1 h2 t1 _ Hs HT1) as [HT2 HF2].
    eapply HQ; [|lia|lia]. split_and!; [by eapply frame_trans|done| |exact HT2|].
    - unfold within in *. rewrite Emx. lia.
    - rewrite Esl. destruct Hwhy as [[-> Ho]|(-> & Ho & Hf)]; [by apply put_full|by apply put_failed]. }
  intros h2 t2 d M Hk Hvi Hno Hw2 Hds.
  assert (bytes_used t2 = bytes_used t1 + node_size d) as EU2 by by rewrite (md_table _ _ _ _ _ M).
  eapply (step_insert_add n h1 t1 (delete k m) h2 t2 d k); [done|done|done|apply lookup_delete_eq|by rewrite Ehd|lia| |done|int_lia|lia|].
  { destruct Hg as [Hg|Hg]; [left; by rewrite Elf|right]. unfold can_grow in *. by rewrite Ecap. }
  assert (given h1 (is_malloc_value t) v vlen = a) as Eg.
  { subst a. unfold given, bytes_at. destruct (is_malloc_value t) eqn:E; [|done].
    destruct (client_frame h t h1 t1 v vlen HF1) as [_ ->]; [by apply Hcl|done]. }
  rewrite Ev, Hvi, Eg, insert_delete_eq, Emx, Elf, Esl. fold e.
  intros t3 h3 HT3 HG3 HF3 HK3 Hw3 EC3 EU3. eapply HQ; [|lia|int_lia].
  split_and!; [by eapply frame_trans|unfold same_kind in *; intuition congruence|done|exact HT3|]. by apply put_added.
Qed.

(** ** Deletion *)

Lemma step_hash_delete {A} h t m k (K : Z * HashArray → HM A) Q :
  table h t m → held t = [] →
  (∀ r t' h', r = (if m !! k is Some _ then 0 else ENOENT) → table h' t' (delete k m) → frame h t h' t' → same_kind t t' →
     capacity t' = capacity t → bytes_used t' ≤ bytes_used t → item_count t' ≤ item_count t → returns (K (r, t') h') Q) →
  returns ((hash_delete hash_func t k ≫= K) h) Q.
Proof.
  intros HT Hh HQ. pose proof HT as (c & a & b & S & T & Em).
  set (i := hash_code hash_func k mod c). destruct (lock_spec true t i) as (H & HL & HU); [done|].
  apply (shape_held _ _ _ _ H) in S. apply (stored_held _ _ _ _ _ H) in T.
  assert (locked true t (set_held H t) i) as L by by exists H.
  change (is_malloc_value t) with (is_malloc_value (set_held H t)) in Em. set (t1 := set_held H t) in *.
  destruct (shape_bucket t1 c a b k S) as (Hi & l & Hl & Hb & Hkl). fold i in Hi, Hl, Hb.
  unfold hash_delete. apply step_assoc. eapply step_lift; [exact Hi|].
  apply step_assoc. eapply step_lift; [exact HL|]. fold t1. apply step_assoc. eapply step_lift; [exact Hb|].
  pose proof (chain_search_spec k l []) as Hs. destruct (chain_search [] l k) as [pre [[d post]|]].
  - destruct Hs as (l1 & E1 & -> & Hk & _). cbn in E1. subst l1 k.
    assert (d ∈ concat b) as Hd by (eapply elem_of_bucket; [exact Hl|set_solver]).
    assert (m !! key d = Some (view h (is_malloc_value t1) d)) as Hm by (subst m; apply map_of_lookup; [apply T|done]).
    apply step_assoc, step_assoc. eapply step_delete; [done..|].
    intros t2 h2 (HT2 & HF2 & HA2 & HU2 & HC2 & _). apply step_ret, step_assoc. cbn [snd].
    pose proof (st_nodes _ _ _ _ _ T) as HN. rewrite Forall_forall in HN. pose proof (node_size_range _ _ _ (HN _ Hd)).
    change (bytes_used t1) with (bytes_used t) in HU2. change (item_count t1) with (item_count t) in HC2.
    eapply (step_unlock true h t t1 i h2 t2); try done.
    intros t3 ? ? ? ? E3 E4. apply step_ret. apply HQ; try done; [by rewrite Hm|by subst m|lia|lia].
  - assert (m !! k = None) as Hm by (subst m; apply map_of_lookup_None; by rewrite Hkl).
    apply step_assoc, step_ret, step_assoc. cbn [snd].
    eapply (step_unlock true h t t1 i h t1 m); [done|by apply table_held|done|done|].
    intros t3 ? ? ? ? E3 E4. apply step_ret.
    change (bytes_used t1) with (bytes_used t) in E3. change (item_count t1) with (item_count t) in E4.
    apply HQ; try done; [by rewrite Hm|by rewrite delete_id|lia|lia].
Qed.

(** ** Lookup with the value *)

Lemma hash_find2_ok h t m k :
  table h t m → held t = [] →
  match m !! k with
  | None => hash_find2 hash_func t k = Done (ENOENT, None, t)
  | Some v => ∃ d, hash_find2 hash_func t k = Done (0, Some (value d, value_len d), t) ∧
      v = view h (is_malloc_value t) d ∧ node_ok h (is_malloc_value t) d
  end.
Proof.
  intros HT Hh. destruct (hash_find_ex_ok h t m k HT Hh) as (o & E & Hf). unfold hash_find2, hash_find1_ex. rewrite E.
  cbn. destruct o as [d|]; cbn in *.
  - destruct Hf as (_ & -> & Hn). by exists d.
  - by rewrite Hf.
Qed.

(** A copied value can be read. *)
Lemma load_value h d : node_ok h true d → load_bytes (value d) (value_len d) h = Done (bytes_at h (value d) (value_len d), h).
Proof.
  intros [(buf & Hbuf & Hl) Hs [Hv Hn]]. unfold node_size, sizeof_HashData, key_len in *. pose proof (zlen_nonneg (key d)).
  unfold bytes_at. rewrite Hv. cbn [fst snd]. rewrite Hbuf. apply load_bytes_ok; cbn; done || lia.
Qed.

(** ** Creation and destruction *)

(** The load factor of a table: one out of range becomes a half. *)
Definition factor (lf : SpecFloat.spec_float) : SpecFloat.spec_float :=
  if dle (SpecFloat.S754_zero false) lf && dle lf lit_1_00 then lf else lit_0_50.

Lemma hash_init_ex_ok h cap lf limit copies :
  heap_ok h → 0 ≤ cap < INT_MAX →
  returns (hash_init_ex cap lf limit copies h) (λ '((r, t), h'),
    (r = 0 ∧ table h' t ∅ ∧ is_malloc_value t = copies ∧ max_bytes t = limit ∧ held t = [] ∧
      load_factor t = factor lf ∧
      next_slots cap (slots t) ∧ bytes_used t = sizeof_pointer * slots t ∧
      ∀ x buf, blocks h !! x = Some buf ↔ blocks h' !! x = Some buf ∧ ¬ owned t x) ∨
    (r = ENOMEM ∧ out_of_memory h h')).
Proof.
  intros OK Hcap. destruct (hash_get_prime_capacity_ok cap Hcap) as (i & p & Ei & Ep & Hp & Hnx0).
  unfold hash_init_ex. assert (sext 32 cap = cap) as -> by (unfold sext; rewrite Z.mod_small by int_lia; case_if; int_lia).
  rewrite Ei. cbn [capacity set_capacity]. set (t0 := set_capacity _ empty_hash).
  unfold _hash_alloc_buckets. apply step_assoc. eapply step_lift; [exact Ep|]. cbn [max_bytes t0 set_capacity empty_hash].
  apply step_assoc. eapply step_malloc; [done|..].
  { intros h' Hs. apply step_ret. cbn [Z.eqb negb ENOMEM]. apply returns_mret. by right. }
  intros h' _ Hbl OK' Hnx. apply step_ret. cbn [Z.eqb negb fst]. apply returns_mret. left.
  set (t := mkHash _ _ _ _ _ _ _ _ _ _ _).
  assert (bytes_used t = sizeof_pointer * p) as Eu.
  { subst t. cbn [bytes_used set_used set_buckets t0 set_capacity empty_hash].
    unfold u64, sext, sizeof_pointer. rewrite !Z.mod_small by (rewrite ?Z.mod_small by int_lia; int_lia). case_if; int_lia. }
  destruct (placed_empty t p (next h)) as [P Hnil]; [done|lia|done|].
  assert (slots t = p) as Esl by (unfold slots; by rewrite (pl_capacity _ _ _ _ P)).
  split_and!; try done.
  - exists p, (next h), (replicate (Z.to_nat p) []). rewrite Hnil. split_and!; [| |done].
    + destruct P. split; try done; [lia|]. split; [by rewrite Hnil|done].
    + split; try done; cbn [footprint app fmap list_fmap capacity t set_capacity capacity_blocks].
      * constructor.
      * apply NoDup_singleton.
      * constructor; [|done]. by rewrite Hbl, lookup_insert_eq.
      * rewrite Eu. cbn. lia.
      * rewrite Eu. unfold sizeof_pointer. int_lia.
  - by rewrite Esl.
  - by rewrite Esl.
  - intros x buf. rewrite (owned_iff t (next h) (replicate (Z.to_nat p) [])) by done.
    rewrite Hnil, Hbl. change (footprint t (next h) []) with [next h]. rewrite list_elem_of_singleton. destruct (decide (x = next h)) as [->|Hne].
    + rewrite (ok_blocks _ OK) by lia. naive_solver.
    + rewrite lookup_insert_ne by done. naive_solver.
Qed.

Lemma step_free_chain {A} h (l : list HashData) (k : unit → HM A) Q :
  heap_ok h → NoDup (node <$> l) → (∀ d, d ∈ l → is_Some (blocks h !! node d)) →
  (∀ h', heap_ok h' → (∀ x, blocks h' !! x = if decide (x ∈ node <$> l) then None else blocks h !! x) → returns (k tt h') Q) →
  returns ((free_chain l ≫= k) h) Q.
Proof.
  revert h. induction l as [|d l IH]; intros h OK Hn Hd HQ.
  - apply step_ret. by apply HQ.
  - rewrite fmap_cons, NoDup_cons in Hn. destruct Hn as [Hnd Hn]. destruct (Hd d) as [buf Hbuf]; [set_solver|].
    cbn [free_chain]. apply step_assoc. eapply step_free; [exact Hbuf|]. apply IH; [by apply heap_ok_delete_block|done| |].
    + intros d' Hd'. cbn. rewrite lookup_delete_ne; [apply Hd; set_solver|]. intros E. apply Hnd. rewrite E. set_solver.
    + intros h' OK' Hb. apply HQ; [done|]. intros x. rewrite Hb. cbn [blocks with_blocks]. rewrite fmap_cons.
      destruct (decide (x = node d)) as [->|Hne].
      * rewrite lookup_delete_eq. destruct (decide (node d ∈ node d :: _)) as [|[]]; [by case_decide|by left].
      * rewrite lookup_delete_ne by done.
        destruct (decide (x ∈ node <$> l)), (decide (x ∈ node d :: (node <$> l))) as [Hx|Hx]; try done.
        -- destruct Hx. by right.
        -- apply elem_of_cons in Hx as [|]; done.
Qed.

Lemma step_free_buckets {A} h (b : list (list HashData)) (k : unit → HM A) Q :
  heap_ok h → NoDup (node <$> concat b) → (∀ d, d ∈ concat b → is_Some (blocks h !! node d)) →
  (∀ h', heap_ok h' → (∀ x, blocks h' !! x = if decide (x ∈ node <$> concat b) then None else blocks h !! x) → returns (k tt h') Q) →
  returns ((free_buckets b ≫= k) h) Q.
Proof.
  revert h. induction b as [|l b IH]; intros h OK Hn Hd HQ.
  - apply step_ret. by apply HQ.
  - cbn [concat] in *. rewrite fmap_app, NoDup_app in Hn. destruct Hn as (Hl & Hdis & Hn).
    cbn [free_buckets]. apply step_assoc. apply step_free_chain; [done|done|intros; apply Hd; set_solver|].
    intros h1 OK1 Hb1. apply IH; [done|done| |].
    + intros d Hdb. rewrite Hb1, decide_False; [apply Hd; set_solver|]. intros Hx. by apply (Hdis _ Hx), list_elem_of_fmap_2.
    + intros h' OK' Hb. apply HQ; [done|]. intros x. rewrite Hb, Hb1, fmap_app.
      destruct (decide (x ∈ node <$> concat b)), (decide (x ∈ node <$> l)),
        (decide (x ∈ (node <$> l) ++ (node <$> concat b))) as [Hx|Hx]; try done; rewrite elem_of_app in Hx; tauto.
Qed.

Lemma step_hash_destroy {A} h t m (k : HashArray → HM A) Q :
  table h t m →
  (∀ t' h', buckets t' = None → item_count t' = 0 → bytes_used t' = 0 → heap_ok h' →
     (∀ x buf, blocks h' !! x = Some buf ↔ blocks h !! x = Some buf ∧ ¬ owned t x) → returns (k t' h') Q) →
  returns ((hash_destroy t ≫= k) h) Q.
Proof.
  intros (c & a & b & S & T & _) HQ. pose proof (st_blocks _ _ _ _ _ T) as HN. unfold footprint in HN.
  rewrite NoDup_cons, NoDup_app, not_elem_of_app in HN. destruct HN as ([Hac Han] & _ & Hdis & Hns).
  pose proof (sh_malloced _ _ _ _ S) as Hm. unfold hash_destroy. rewrite (sh_buckets _ _ _ _ S).
  apply step_assoc. eapply step_lift; [apply S|]. rewrite take_ge by (pose proof (sh_len _ _ _ _ S); unfold zlen in *; lia).
  apply step_assoc. apply step_free_buckets; [apply T|done| |].
  { intros d Hd. apply (stored_dom _ _ _ _ _ _ T). unfold footprint. rewrite elem_of_cons, elem_of_app, list_elem_of_fmap. eauto 6. }
  intros h1 OK1 Hb1. destruct (stored_dom h t c a (concat b) a T) as [abuf Ha]; [by left|].
  apply step_assoc. eapply step_free; [by rewrite Hb1, decide_False|].
  set (h2 := with_blocks _ _). assert (heap_ok h2) as OK2 by by apply heap_ok_delete_block.
  assert (∀ x, x ∉ capacity_blocks (capacity t) →
    ∀ buf, blocks h2 !! x = Some buf ↔ blocks h !! x = Some buf ∧ ¬ owned t x) as Hb2.
  { intros x Hx buf. rewrite (owned_iff t a b) by apply S. unfold footprint. rewrite elem_of_cons, elem_of_app. cbn.
    destruct (decide (x = a)) as [->|Hne]; [rewrite lookup_delete_eq; naive_solver|].
    rewrite lookup_delete_ne, Hb1 by done. case_decide; naive_solver. }
  change (is_malloc_capacity (set_buckets None t)) with (is_malloc_capacity t). rewrite Hm.
  change (capacity (set_buckets None t)) with (capacity t). apply step_assoc.
  destruct (capacity t) as [[i|p c0]|] eqn:Ec; [| |by pose proof (sh_capacity _ _ _ _ S) as Hx; rewrite Ec in Hx].
  - apply step_ret, step_ret. apply HQ; try done. intros x. apply Hb2. by apply not_elem_of_nil.
  - assert (p ∈ footprint t a (concat b)) as Hp by (unfold footprint; rewrite Ec; set_solver).
    destruct (stored_dom _ _ _ _ _ _ T Hp) as [pbuf Hpb].
    assert (p ≠ a) by set_solver. assert (p ∉ node <$> concat b) by (apply Hdis; set_solver).
    apply step_assoc. eapply step_free; [cbn; by rewrite lookup_delete_ne, Hb1, decide_False by done|].
    apply step_ret, step_ret. apply HQ; try done; [by apply heap_ok_delete_block|].
    intros x buf. cbn [blocks with_blocks]. destruct (decide (x = p)) as [->|Hxp].
    + rewrite lookup_delete_eq, (owned_iff t a b) by apply S. naive_solver.
    + rewrite lookup_delete_ne by done. apply Hb2. cbn. set_solver.
Qed.

Lemma hash_destroy_ok h t m :
  table h t m →
  returns (hash_destroy t h) (λ '(_, h'), ∀ x buf, blocks h' !! x = Some buf ↔ blocks h !! x = Some buf ∧ ¬ owned t x).
Proof.
  intros HT. rewrite <-(M_bind_ret_r (hash_destroy t)). eapply step_hash_destroy; [done|]. intros. by apply returns_mret.
Qed.

(** ** Sequences of operations *)

(** The answers show the values, not the space they have. *)
Inductive op := Insert (k : list Z) (v : ptr) (vlen : Z) | Delete (k : list Z) | Find (k : list Z) | Count.
Inductive answer := Code (r : Z) | Found (v : aval) | Absent.

(** What a client does: it reads the value it is given. *)
Definition exec (o : op) (t : HashArray) : HM (answer * HashArray) :=
  match o with
  | Insert k v vlen => r ← hash_insert_ex hash_func t k v vlen true; mret (Code r.1, r.2)
  | Delete k => r ← hash_delete hash_func t k; mret (Code r.1, r.2)
  | Find k =>
      r ← lift (hash_find2 hash_func t k);
      match r with
      | (_, Some (p, n), t) =>
          if is_malloc_value t then xs ← load_bytes p n; mret (Found (ABytes xs), t) else mret (Found (APtr p n), t)
      | (_, None, t) => mret (Absent, t)
      end
  | Count => mret (Code (hash_count t), t)
  end.

Fixpoint exec_all (os : list op) (t : HashArray) : HM (list answer * HashArray) :=
  match os with
  | [] => mret ([], t)
  | o :: os => r ← exec o t; rs ← exec_all os r.2; mret (r.1 :: rs.1, rs.2)
  end.

(** The same on a map, with the number of slots. [h] is the client's memory;
    [failed] says that an allocation failed. *)
Inductive spec (h : hheap) (copies : bool) (lf : SpecFloat.spec_float) (limit : Z) (failed : Prop) :
    op → Z → hmap → answer → Z → hmap → Prop :=
| spec_insert k v n s m r s' m' : put copies lf limit failed k (given h copies v n) n s m r s' m' →
    spec h copies lf limit failed (Insert k v n) s m (Code r) s' m'
| spec_delete k s m : spec h copies lf limit failed (Delete k) s m (Code (if m !! k is Some _ then 0 else ENOENT)) s (delete k m)
| spec_find k s m : spec h copies lf limit failed (Find k) s m (if m !! k is Some e then Found (val e) else Absent) s m
| spec_count s m : spec h copies lf limit failed Count s m (Code (Z.of_nat (size m))) s m.

Inductive specs (h : hheap) (copies : bool) (lf : SpecFloat.spec_float) (limit : Z) (failed : Prop) :
    list op → Z → hmap → list answer → Z → hmap → Prop :=
| specs_nil s m : specs h copies lf limit failed [] s m [] s m
| specs_cons o os s m s1 m1 s2 m2 r rs : spec h copies lf limit failed o s m r s1 m1 →
    specs h copies lf limit failed os s1 m1 rs s2 m2 → specs h copies lf limit failed (o :: os) s m (r :: rs) s2 m2.

Lemma spec_mono h copies lf limit (F F' : Prop) o s m r s' m' :
  (F → F') → spec h copies lf limit F o s m r s' m' → spec h copies lf limit F' o s m r s' m'.
Proof. intros HF [?????? s1 m1 Hp|???|???|??]; constructor. by eapply put_mono. Qed.

Lemma specs_mono h copies lf limit (F F' : Prop) os s m rs s' m' :
  (F → F') → specs h copies lf limit F os s m rs s' m' → specs h copies lf limit F' os s m rs s' m'.
Proof. intros HF. induction 1; [constructor|]. econstructor; [by eapply spec_mono|done]. Qed.

Lemma next_slots_unique n p q : next_slots n p → next_slots n q → p = q.
Proof. intros (Hp & Hp' & Hpm) (Hq & Hq' & Hqm). specialize (Hpm q Hq Hq'). specialize (Hqm p Hp Hp'). lia. Qed.

(** An operation's arguments are in the client's memory. *)
Definition op_ok (h : hheap) (o : op) : Prop :=
  match o with
  | Insert k v n => room_for k n ∧ 0 ≤ v.2 ∧ ∃ bx, blocks h !! v.1 = Some bx ∧ v.2 + n ≤ zlen bx
  | _ => True
  end.

(** A table with a limit on its memory, which bounds everything else. *)
Definition limited (t : HashArray) : Prop := 0 < max_bytes t ≤ 2 ^ 33 ∧ bytes_used t ≤ max_bytes t.

Lemma limited_ready h t m : table h t m → limited t → ready t.
Proof.
  intros (c & a & b & S & T & _) [Hl Hu]. pose proof (st_used _ _ _ _ _ T) as EU.
  pose proof (sum_sizes_nonneg _ _ _ (st_nodes _ _ _ _ _ T)) as Hs. pose proof (zlen_nonneg (concat b)).
  destruct (sh_count _ _ _ _ S) as [En _]. pose proof (sh_pos _ _ _ _ S). unfold sizeof_pointer in *.
  split; [right|by intros _|lia|lia|int_lia].
  pose proof (sh_capacity _ _ _ _ S) as Hc. unfold can_grow.
  destruct (capacity t) as [[i|p c0]|]; [|cbn in Hc; simplify_eq; int_lia|done].
  cbn in Hc. apply load_inv in Hc. pose proof (zget_Some_range _ _ _ Hc) as Hr. change (zlen prime_array) with 30 in Hr.
  destruct (decide (i = 29)) as [->|]; [|unfold PRIME_ARRAY_SIZE; lia]. vm_compute in Hc. simplify_eq. lia.
Qed.

(** A session: a table is created, used and destroyed. *)
Definition session (cap : Z) (lf : SpecFloat.spec_float) (limit : Z) (copies : bool) (os : list op) : HM (Z * list answer) :=
  r ← hash_init_ex cap lf limit copies;
  if negb (r.1 =? 0) then mret (r.1, []) else
  rs ← exec_all os r.2;
  t ← hash_destroy rs.2;
  mret (0, rs.1).

(** The memory flag of what a session calls. *)
#[local] Instance flagged_delete t i pre d post : Flagged (DELETE_FROM_BUCKET t i pre d post).
Proof. unfold DELETE_FROM_BUCKET, lint. flagged_cases. Qed.

#[local] Instance flagged_rehash t : Flagged (_rehash hash_func t).
Proof. unfold _rehash, _rehash1, _hash_alloc_buckets. flagged_cases. Qed.

#[local] Instance flagged_insert t k v n lock : Flagged (hash_insert_ex hash_func t k v n lock).
Proof. unfold hash_insert_ex, insert_search, insert_make, insert_add. flagged_cases. Qed.

#[local] Instance flagged_exec o t : Flagged (exec o t).
Proof. unfold exec, hash_delete. flagged_cases. Qed.

#[local] Instance flagged_free_chain l : Flagged (free_chain l).
Proof. induction l; cbn [free_chain]; flagged_cases. Qed.

#[local] Instance flagged_free_buckets b : Flagged (free_buckets b).
Proof. induction b; cbn [free_buckets]; flagged_cases. Qed.

#[local] Instance flagged_destroy t : Flagged (hash_destroy t).
Proof. unfold hash_destroy. flagged_cases. Qed.

Section sessions.
Context (h0 : hheap) (copies : bool) (lf : SpecFloat.spec_float) (limit : Z).

(** In the course of a session, with the client's memory as in [h0]. *)
Record during (h : hheap) (t : HashArray) (m : hmap) : Prop := {
  du_table : table h t m;
  du_limited : limited t;
  du_held : held t = [];
  du_kind : is_malloc_value t = copies ∧ load_factor t = lf ∧ max_bytes t = limit;
  du_others x buf : blocks h0 !! x = Some buf ↔ blocks h !! x = Some buf ∧ ¬ owned t x }.

Lemma during_step h t m h' t' m' :
  during h t m → table h' t' m' → frame h t h' t' → same_kind t t' → within t' → during h' t' m'.
Proof.
  intros [HT [Hl Hu] Hh Hc Ho] HT' HF (Ev & Em & Ef & _ & Eh) Hw. split; [done| |congruence|by rewrite Ev, Em, Ef|].
  - split; rewrite Em; [done|]. rewrite <-Em. apply Hw. rewrite Em. lia.
  - intros x buf. by rewrite Ho, (HF x buf).
Qed.

Lemma during_client h t m v n bx :
  during h t m → blocks h0 !! v.1 = Some bx → v.2 + n ≤ zlen bx → 0 ≤ v.2 → client h t v n ∧ blocks h !! v.1 = Some bx.
Proof. intros D Hb Hl Hp. apply (du_others _ _ _ D) in Hb as [Hb Ho]. split; [|done]. split; [by exists bx|done|done]. Qed.

Lemma during_given h t m v n : during h t m → (∃ bx, blocks h0 !! v.1 = Some bx) → given h copies v n = given h0 copies v n.
Proof.
  intros D [bx Hb]. unfold given, bytes_at. destruct copies; [|done].
  rewrite Hb. apply (du_others _ _ _ D) in Hb as [-> _]. done.
Qed.

Lemma exec_ok h t m o :
  during h t m → op_ok h0 o →
  returns (exec o t h) (λ '((r, t'), h'), ∃ m',
    spec h0 copies lf limit (oom h' = true) o (slots t) m r (slots t') m' ∧ during h' t' m').
Proof.
  intros D Ho. pose proof (du_table _ _ _ D) as HT. pose proof (du_held _ _ _ D) as Hh.
  pose proof (limited_ready _ _ _ HT (du_limited _ _ _ D)) as R. destruct (du_kind _ _ _ D) as (Ec & Elf & Elim).
  destruct o as [k v n|k|k|]; cbn [exec].
  - destruct Ho as (Hroom & Hv & bx & Hbx & Hl). destruct (during_client h t m v n bx D Hbx Hl Hv) as [Hcl _].
    eapply step_hash_insert; [exact HT|done|done|done|done|].
    intros r t' h' m' (HF & HK & Hw & HT' & Hput) _ _. apply returns_mret. cbn [fst snd].
    rewrite Ec, Elf, Elim, (during_given h t m v n D) in Hput by eauto.
    exists m'. split; [by constructor|by eapply during_step].
  - eapply step_hash_delete; [exact HT|done|].
    intros r t' h' -> HT' HF HK Ecap HU _. apply returns_mret. cbn [fst snd]. exists (delete k m).
    assert (slots t' = slots t) as -> by (unfold slots; by rewrite Ecap). split; [constructor|].
    eapply during_step; [done..|]. destruct (du_limited _ _ _ D). destruct HK as (_ & Em & _). intros _. rewrite Em. lia.
  - pose proof (hash_find2_ok h t m k HT Hh) as Hf. pose proof (spec_find h0 copies lf limit (oom h = true) k (slots t) m) as Hsp.
    destruct (m !! k) as [e|].
    + destruct Hf as (d & E & -> & Hn). eapply step_lift; [exact E|]. cbn.
      rewrite Ec in *. unfold view, given in Hsp. cbn [val] in Hsp. destruct copies.
      * rewrite M_bind_eq, load_value by done. cbn [mbind res_bind]. apply returns_mret. by eexists.
      * apply returns_mret. by eexists.
    + eapply step_lift; [exact Hf|]. apply returns_mret. by eexists.
  - apply returns_mret. exists m. rewrite (table_count _ _ _ HT). split; [constructor|done].
Qed.

Lemma exec_all_ok h t m os :
  during h t m → Forall (op_ok h0) os →
  returns (exec_all os t h) (λ '((rs, t'), h'), (oom h = true → oom h' = true) ∧ ∃ m',
    specs h0 copies lf limit (oom h' = true) os (slots t) m rs (slots t') m' ∧ during h' t' m').
Proof.
  revert h t m. induction os as [|o os IH]; intros h t m D Ho; cbn [exec_all].
  { apply returns_mret. split; [done|]. exists m. split; [constructor|done]. }
  rewrite Forall_cons in Ho. destruct Ho as [Ho Hos].
  eapply M_returns_step; [by apply flagged_returns, exec_ok; [apply _|..]|].
  intros [r t1] h1 [(m1 & Hr & D1) Hf1]. cbn [fst snd] in *.
  eapply M_returns_step; [by eapply IH|]. intros [rs t2] h2 (Hf2 & m2 & Hrs & D2). cbn [fst snd].
  apply returns_mret. split; [auto|]. exists m2. split; [|done]. econstructor; [|exact Hrs]. by eapply spec_mono.
Qed.
End sessions.

(** C3. A session of any insertions, deletions, lookups and counts behaves as
    on a finite map, whatever the load factor, the allocations that fail and the
    growth of the table, whether the table copies values or keeps pointers. An
    insertion replaces a value in place, or makes a new node; it answers -ENOSPC
    exactly when the slots and the nodes with the new one would exceed the limit,
    and -ENOMEM only if an allocation has failed. The slots are the next number
    of them when the load factor is reached, limit and memory permitting. The
    destruction gives back every byte: the memory is then as it was. *)
Theorem hash_session_refines_map h cap lf limit copies os c :
  heap_ok h → 0 ≤ cap < INT_MAX → next_slots cap c →
  sizeof_pointer * c ≤ limit ≤ 2 ^ 33 → 0 < limit → Forall (op_ok h) os →
  returns (session cap lf limit copies os h) (λ '((r, rs), h'),
    (∀ x, blocks h' !! x = blocks h !! x) ∧
    (r = 0 ∧ (∃ s m, specs h copies (factor lf) limit (oom h' = true) os c ∅ rs s m) ∨
     r = ENOMEM ∧ rs = [] ∧ oom h' = true)).
Proof.
  intros OK Hcap Hc Hlim Hpos Hos. unfold session.
  eapply M_returns_step; [by apply hash_init_ex_ok|]. intros [r t] h1 Hr. cbn [fst snd].
  destruct Hr as [(-> & HT & Ev & Em & Eh & Elf & Hc' & Eu & Ho)|(-> & (_ & Eb & _) & Hoom)]; cbn [Z.eqb negb ENOMEM].
  2: { apply returns_mret. split; [intros x; by rewrite Eb|by right]. }
  assert (slots t = c) as Esl by by eapply next_slots_unique.
  eapply M_returns_step; [eapply (exec_all_ok h copies (factor lf) limit); [|done]|].
  { split; [exact HT| |done|done|done]. split; rewrite Em; [lia|]. rewrite Eu, Esl. lia. }
  intros [rs t2] h2 (_ & m2 & Hsp & D2). cbn [fst snd] in *. rewrite Esl in Hsp.
  eapply M_returns_step; [apply flagged_returns, (hash_destroy_ok h2 t2 m2); [apply _|apply D2]|].
  intros t3 h3 [Hb Hf]. apply returns_mret. split; [|left; split; [done|exists (slots t2), m2; by eapply specs_mono]].
  intros x. apply option_eq. intros buf. by rewrite Hb, (du_others _ _ _ _ _ _ _ D2).
Qed.

(** One insertion: 0 for a value replaced in place, 1 for a new node, -ENOSPC
    or -ENOMEM when there was no memory for it, and then the key is not in
    the table any more; other memory is untouched, nothing leaks and the limit on
    the memory is kept, also when the table grew. *)
Theorem hash_insert_ex_correct h t m k v vlen :
  table h t m → ready t → held t = [] → room_for k vlen → (is_malloc_value t = true → client h t v vlen) →
  returns (hash_insert_ex hash_func t k v vlen true h) (λ '((r, t'), h'),
    ∃ m', inserted h t m k (given h (is_malloc_value t) v vlen) vlen r h' t' m').
Proof.
  intros. rewrite <-(M_bind_ret_r (hash_insert_ex hash_func t k v vlen true)).
  eapply step_hash_insert; [done..|]. intros. apply returns_mret. by eexists.
Qed.

End table.

(** * Sessions that show what to beware of *)

(** Client memory: one block of 64 bytes. *)
Definition client_heap : hheap := mkHeap ∅ {[1 := replicate 64 7]} 2 [] 0.

Definition sum_hash (k : list Z) : Z := zsum k.

(** Replacing a copied value by one that does not fit into the limit removes
    the key and its old value. *)
Theorem replacement_loses_key :
  ∃ h', session sum_hash 0 lit_0_50 60 true [Insert [97] (1, 0) 8; Insert [97] (1, 0) 40; Find [97]] client_heap =
    Done ((0, [Code 1; Code (- ENOSPC); Absent]), h').
Proof. eexists. vm_compute. reflexivity. Qed.

(** An insertion under a key the table has answers 1, as for a new key, when the
    value does not fit into its node. *)
Theorem replacement_answers_one :
  ∃ h', session sum_hash 0 lit_0_50 4096 true [Insert [97] (1, 0) 8; Insert [97] (1, 0) 40; Count] client_heap =
    Done ((0, [Code 1; Code 1; Code 1]), h').
Proof. eexists. vm_compute. reflexivity. Qed.

(** Two threads that insert the same new key: each searches, makes its node and
    adds it, in turns; the locks are taken for the search and for the addition. *)
Definition race (t : HashArray) (k : list Z) (v : ptr) (vlen : Z) : HM HashArray :=
  r1 ← insert_search sum_hash t k v vlen true;
  r2 ← insert_search sum_hash r1.2 k v vlen true;
  m1 ← insert_make r2.2 k v vlen;
  match m1 with
  | inl _ => undef
  | inr (d1, t) =>
      a1 ← insert_add sum_hash t k d1 true;
      m2 ← insert_make a1.2 k v vlen;
      match m2 with
      | inl _ => undef
      | inr (d2, t) => a2 ← insert_add sum_hash t k d2 true; mret a2.2
      end
  end.

(** The locks do not make insertion atomic: two threads can both find a key
    missing and both add it. The table then has two nodes for the key, and after
    one deletion the key is still found. *)
Theorem insert_race :
  ∃ h', (r ← hash_init_ex 2 (SpecFloat.S754_zero false) 0 true;
         l ← hash_set_locks 40 r.2 4;
         t ← race l.2 [97] (1, 0) 8;
         d ← hash_delete sum_hash t [97];
         f ← lift (hash_find sum_hash d.2 [97]);
         mret (hash_count t, d.1, bool_decide (f.1 = None), held f.2)) client_heap =
    Done ((2, 0, false, []), h').
Proof. eexists. vm_compute. reflexivity. Qed.

(** In a table that keeps the client's pointers, [hash_partial_set] stores a
    pointer to the buffer it releases before it returns: the value found later
    points to memory that is gone. *)
Theorem partial_set_dangles :
  ∃ p h', (r ← hash_init_ex 2 lit_0_50 0 false;
           i ← hash_insert_ex sum_hash r.2 [97] (1, 0) 4 true;
           s ← hash_partial_set sum_hash i.2 [97] (1, 8) 2 8;
           f ← lift (hash_find sum_hash s.2 [97]);
           mret (s.1, f.1)) client_heap =
    Done ((0, Some p), h') ∧ blocks h' !! p.1 = None.
Proof. eexists _, _. split; [vm_compute; reflexivity|done]. Qed.

Lemma client_heap_ok : heap_ok client_heap.
Proof.
  split; cbn; [lia|done| |done]. intros b Hb. apply lookup_singleton_ne. lia.
Qed.

Lemma hash_session_refines_map_witness :
  let os := [Insert [97] (1, 0) 3; Insert [98; 97] (1, 3) 0; Find [97]; Insert [97] (1, 1) 5; Delete [98; 97]; Count] in
  returns (session sum_hash 2 lit_0_50 4096 true os client_heap) (λ '((r, rs), h'),
    (∀ x, blocks h' !! x = blocks client_heap !! x) ∧
    (r = 0 ∧ (∃ s m, specs client_heap true (factor lit_0_50) 4096 (oom h' = true) os 3 ∅ rs s m) ∨
     r = ENOMEM ∧ rs = [] ∧ oom h' = true)) ∧
  ∃ h', session sum_hash 2 lit_0_50 4096 true os client_heap =
    Done ((0, [Code 1; Code 1; Found (ABytes [7; 7; 7]); Code 0; Code 0; Code 1]), h').
Proof.
  split; [|eexists; vm_compute; reflexivity].
  apply (hash_session_refines_map sum_hash client_heap 2 lit_0_50 4096 true _ 3).
  - apply client_heap_ok.
  - int_lia.
  - split_and!; [set_solver|done|]. intros p Hp. unfold prime_array in Hp. set_solver by lia.
  - unfold sizeof_pointer. lia.
  - lia.
  - repeat constructor; try done; by exists (replicate 64 7).
Defined.

(** An empty table without limit and its memory. *)
Definition small : HashArray * hheap :=
  match hash_init_ex 2 (SpecFloat.S754_zero false) 0 true client_heap with
  | Done ((_, t), h) => (t, h)
  | _ => (empty_hash, client_heap)
  end.

Lemma small_table : table sum_hash small.2 small.1 ∅.
Proof.
  pose proof (hash_init_ex_ok sum_hash client_heap 2 (SpecFloat.S754_zero false) 0 true client_heap_ok) as H.
  specialize (H ltac:(int_lia)). unfold small. destruct (hash_init_ex 2 _ 0 true client_heap) as [[[r t] h]| |] eqn:E; [|done..].
  destruct H as [(_ & HT & _)|(-> & _)]; [done|]. vm_compute in E. discriminate E.
Qed.

Lemma hash_insert_ex_correct_witness :
  returns (hash_insert_ex sum_hash small.1 [97] (1, 2) 5 true small.2) (λ '((r, t'), h'),
    ∃ m', inserted sum_hash small.2 small.1 ∅ [97] (given small.2 (is_malloc_value small.1) (1, 2) 5) 5 r h' t' m').
Proof.
  apply (hash_insert_ex_correct sum_hash small.2 small.1 ∅ [97] (1, 2) 5).
  - apply small_table.
  - split; [by left| |done|vm_compute; done|vm_compute; done]. intros Hl. change (max_bytes small.1) with 0 in Hl. lia.
  - done.
  - split; [lia|]. by vm_compute.
  - intros _. split; [|intros (a & b & E & Hx)|cbn; lia].
    + exists (replicate 64 7). split; [done|by vm_compute].
    + vm_compute in E. injection E as <- <-. vm_compute in Hx. apply list_elem_of_singleton in Hx. discriminate Hx.
Defined.
