(* ===== verification/Bstrlib.v ===== *)
(** libs/bstrlib/bstrlib.c: growable strings. A [bstring] is the address of a
    header in the heap of CMemory.v, 0 for NULL; its bytes are in a block. Each
    operation is a computation on the heap, with its guards, its allocations
    and the copies it makes when its operands share memory. *)
From S2P Require Import Prelude CMemory.

(** * Code *)

Definition BSTR_ERR : Z := -1.
Definition BSTR_OK : Z := 0.

Record tagbstring := mkB { mlen : Z; slen : Z; data : option ptr }.

Abbreviation bheap := (heap tagbstring).
Abbreviation BM := (M tagbstring).

(** [sizeof(struct tagbstring)] objects come from [malloc_struct] with fields
    that hold nothing in particular. *)
Definition blank : tagbstring := mkB 0 0 None.

(** An [int] operation inside a computation. *)
Definition icint (z : Z) : BM Z := lift (cint z).

Definition smear (j s : Z) : Z := Z.lor j (Z.shiftr j s).

Definition snapUpSize (i : Z) : Z :=
  if i <? 8 then 8
  else
    let j := u32 i in
    let j := smear (smear (smear (smear (smear j 1) 2) 4) 8) 16 in
    let j := u32 (j + 1) in
    if i <=? sext 32 j then sext 32 j else i.

(** The guard most operations share: the string is not writable. *)
Definition unwritable (s : tagbstring) : bool :=
  (slen s <? 0) || (mlen s <? slen s) || (mlen s <=? 0).

(** [data] with the check that it is not NULL. *)
Definition with_data (s : tagbstring) (err : Z) (k : ptr → BM Z) : BM Z :=
  match data s with None => mret err | Some d => k d end.

Definition reallocStrategy (d : ptr) (len olen : Z) : BM (option (ptr * Z)) :=
  x ← realloc d len;
  match x with
  | Some x => mret (Some (x, len))
  | None =>
      x ← realloc d olen;
      match x with Some x => mret (Some (x, olen)) | None => mret None end
  end.

Definition balloc (b olen : Z) : BM Z :=
  if b =? 0 then mret BSTR_ERR else
  s ← deref b;
  with_data s BSTR_ERR (λ d,
  if unwritable s || (olen <=? 0) then mret BSTR_ERR
  else if mlen s <=? olen then
    let len := snapUpSize olen in
    if len <=? mlen s then mret BSTR_OK
    else
      m7 ← icint (7 * mlen s); s8 ← icint (8 * slen s);
      r ← (if m7 <? s8 then reallocStrategy d len olen
           else
             x ← malloc len;
             match x with
             | None => reallocStrategy d len olen
             | Some x =>
                 (if negb (slen s =? 0) then memcpy x d (slen s) else mret ());;
                 free d;;
                 mret (Some (x, len))
             end);
      match r with
      | None => mret BSTR_ERR
      | Some (x, len) =>
          put b (mkB len (slen s) (Some x));;
          write_byte (padd x (slen s)) 0;;
          mret BSTR_OK
      end
  else mret BSTR_OK).

Definition ballocmin (b len : Z) : BM Z :=
  if b =? 0 then mret BSTR_ERR else
  s ← deref b;
  with_data s BSTR_ERR (λ d,
  if (INT_MAX <=? slen s) || (slen s <? 0) then mret BSTR_ERR
  else if (mlen s <=? 0) || (mlen s <? slen s) || (len <=? 0) then mret BSTR_ERR
  else
    let len := if len <? slen s + 1 then slen s + 1 else len in
    if negb (len =? mlen s) then
      x ← realloc d len;
      match x with
      | None => mret BSTR_ERR
      | Some x => write_byte (padd x (slen s)) 0;; put b (mkB len (slen s) (Some x));; mret BSTR_OK
      end
    else mret BSTR_OK).

(** [blk]: NULL or a pointer. The result is a new string or NULL. *)
Definition blk2bstr (blk : option ptr) (len : Z) : BM Z :=
  match blk with
  | None => mret 0
  | Some blk =>
      if len <? 0 then mret 0 else
      b ← malloc_struct blank;
      if b =? 0 then mret 0 else
      i ← icint (len + (2 - (if negb (len =? 0) then 1 else 0)));
      let i := snapUpSize i in
      x ← malloc i;
      match x with
      | None => free_struct b;; mret 0
      | Some x =>
          put b (mkB i len (Some x));;
          (if 0 <? len then memcpy x blk len else mret ());;
          write_byte (padd x len) 0;;
          mret b
      end
  end.

Definition bstrcpy (b : Z) : BM Z :=
  if b =? 0 then mret 0 else
  s ← deref b;
  if slen s <? 0 then mret 0 else
  with_data s 0 (λ d,
  b0 ← malloc_struct blank;
  if b0 =? 0 then mret 0 else
  let i := slen s in
  i1 ← icint (i + 1);
  x ← malloc (snapUpSize i1);
  r ← match x with
      | Some x => mret (Some (x, snapUpSize i1))
      | None => x ← malloc i1; mret (match x with Some x => Some (x, i1) | None => None end)
      end;
  match r with
  | None => free_struct b0;; mret 0
  | Some (x, j) =>
      put b0 (mkB j i (Some x));;
      (if negb (i =? 0) then memcpy x d i else mret ());;
      write_byte (padd x i) 0;;
      mret b0
  end).

Definition bdestroy (b : Z) : BM Z :=
  if b =? 0 then mret BSTR_ERR else
  s ← deref b;
  if (slen s <? 0) || (mlen s <=? 0) || (mlen s <? slen s) then mret BSTR_ERR
  else with_data s BSTR_ERR (λ d, free d;; free_struct b;; mret BSTR_OK).

(** [bBlockCopy(D, S, L)] *)
Definition bBlockCopy (d s : ptr) (l : Z) : BM unit :=
  if 0 <? l then memmove d s l else mret ().

(** [if (aux != b) bdestroy (aux);] *)
Definition drop_aux (aux b : Z) : BM unit :=
  if negb (aux =? b) then bdestroy aux;; mret () else mret ().

Definition bconcat (b0 b1 : Z) : BM Z :=
  if (b0 =? 0) || (b1 =? 0) then mret BSTR_ERR else
  s0 ← deref b0; s1 ← deref b1;
  with_data s0 BSTR_ERR (λ d0, with_data s1 BSTR_ERR (λ d1,
  let d := slen s0 in let len := slen s1 in
  gap ← icint (mlen s0 - d); total ← icint (d + len);
  if (d <? 0) || (gap <? 0) || (len <? 0) || (total <? 0) then mret BSTR_ERR else
  total1 ← icint (total + 1);
  aux ← (if mlen s0 <=? total1 then
           aux ← (if points_into d1 d0 (mlen s0) then bstrcpy b1 else mret b1);
           if aux =? 0 then mret 0 else
           r ← balloc b0 total1;
           if negb (r =? BSTR_OK) then drop_aux aux b1;; mret 0 else mret aux
         else mret b1);
  if aux =? 0 then mret BSTR_ERR else
  t0 ← deref b0; a ← deref aux;
  with_data t0 BSTR_ERR (λ d0, with_data a BSTR_ERR (λ da,
  bBlockCopy (padd d0 d) da len;;
  write_byte (padd d0 total) 0;;
  t0 ← deref b0;
  put b0 (mkB (mlen t0) total (data t0));;
  drop_aux aux b1;;
  mret BSTR_OK)))).

Definition bconchar (b c : Z) : BM Z :=
  if b =? 0 then mret BSTR_ERR else
  s ← deref b;
  let d := slen s in
  gap ← icint (mlen s - d);
  if (d <? 0) || (gap <? 0) then mret BSTR_ERR else
  d2 ← icint (d + 2);
  r ← balloc b d2;
  if negb (r =? BSTR_OK) then mret BSTR_ERR else
  s ← deref b;
  with_data s BSTR_ERR (λ p,
  write_byte (padd p d) c;;
  write_byte (padd p (d + 1)) 0;;
  n ← icint (slen s + 1);
  put b (mkB (mlen s) n (data s));;
  mret BSTR_OK).

Definition bcatblk (b : Z) (s : option ptr) (len : Z) : BM Z :=
  if b =? 0 then mret BSTR_ERR else
  t ← deref b;
  with_data t BSTR_ERR (λ _,
  match s with
  | None => mret BSTR_ERR
  | Some s =>
      if unwritable t || (len <? 0) then mret BSTR_ERR else
      nl ← icint (slen t + len);
      if nl <? 0 then mret BSTR_ERR else
      r ← (if mlen t <=? nl then nl1 ← icint (nl + 1); balloc b nl1 else mret BSTR_OK);
      if r <? 0 then mret BSTR_ERR else
      t ← deref b;
      with_data t BSTR_ERR (λ d,
      bBlockCopy (padd d (slen t)) s len;;
      put b (mkB (mlen t) nl (data t));;
      write_byte (padd d nl) 0;;
      mret BSTR_OK)
  end).

Definition bassign (a b : Z) : BM Z :=
  if b =? 0 then mret BSTR_ERR else
  sb ← deref b;
  with_data sb BSTR_ERR (λ _,
  if slen sb <? 0 then mret BSTR_ERR else
  r ← (if negb (slen sb =? 0) then
         r ← balloc a (slen sb);
         if negb (r =? BSTR_OK) then mret BSTR_ERR else
         sa ← deref a; sb ← deref b;
         with_data sa BSTR_ERR (λ da, with_data sb BSTR_ERR (λ db,
         memmove da db (slen sb);; mret BSTR_OK))
       else
         if a =? 0 then mret BSTR_ERR else
         sa ← deref a;
         with_data sa BSTR_ERR (λ _,
         if (mlen sa <? slen sa) || (slen sa <? 0) || (mlen sa =? 0) then mret BSTR_ERR
         else mret BSTR_OK));
  if negb (r =? BSTR_OK) then mret BSTR_ERR else
  sa ← deref a; sb ← deref b;
  with_data sa BSTR_ERR (λ da,
  write_byte (padd da (slen sb)) 0;;
  put a (mkB (mlen sa) (slen sb) (data sa));;
  mret BSTR_OK)).

Definition bassignmidstr (a b left len : Z) : BM Z :=
  if b =? 0 then mret BSTR_ERR else
  sb ← deref b;
  with_data sb BSTR_ERR (λ _,
  if slen sb <? 0 then mret BSTR_ERR else
  len ← (if left <? 0 then icint (len + left) else mret len);
  let left := if left <? 0 then 0 else left in
  room ← icint (slen sb - left);
  let len := if room <? len then room else len in
  if a =? 0 then mret BSTR_ERR else
  sa ← deref a;
  with_data sa BSTR_ERR (λ da,
  if (mlen sa <? slen sa) || (slen sa <? 0) || (mlen sa =? 0) then mret BSTR_ERR
  else if 0 <? len then
    r ← balloc a len;
    if negb (r =? BSTR_OK) then mret BSTR_ERR else
    sa ← deref a; sb ← deref b;
    with_data sa BSTR_ERR (λ da, with_data sb BSTR_ERR (λ db,
    memmove da (padd db left) len;;
    put a (mkB (mlen sa) len (data sa));;
    write_byte (padd da len) 0;;
    mret BSTR_OK))
  else
    put a (mkB (mlen sa) 0 (data sa));;
    write_byte da 0;;
    mret BSTR_OK)).

Definition bassignblk (a : Z) (s : option ptr) (len : Z) : BM Z :=
  if a =? 0 then mret BSTR_ERR else
  sa ← deref a;
  with_data sa BSTR_ERR (λ _,
  match s with
  | None => mret BSTR_ERR
  | Some s =>
      if (mlen sa <? slen sa) || (slen sa <? 0) || (mlen sa =? 0) || (len <? 0) || (INT_MAX <=? len)
      then mret BSTR_ERR
      else
        r ← (if mlen sa <? len + 1 then balloc a (len + 1) else mret BSTR_OK);
        if r <? 0 then mret BSTR_ERR else
        sa ← deref a;
        with_data sa BSTR_ERR (λ da,
        bBlockCopy da s len;;
        write_byte (padd da len) 0;;
        put a (mkB (mlen sa) len (data sa));;
        mret BSTR_OK)
  end).

Definition btrunc (b n : Z) : BM Z :=
  if (n <? 0) || (b =? 0) then mret BSTR_ERR else
  s ← deref b;
  with_data s BSTR_ERR (λ d,
  if unwritable s then mret BSTR_ERR
  else if n <? slen s then
    put b (mkB (mlen s) n (data s));;
    write_byte (padd d n) 0;;
    mret BSTR_OK
  else mret BSTR_OK).

Definition bdelete (b pos len : Z) : BM Z :=
  len ← (if pos <? 0 then icint (len + pos) else mret len);
  let pos := if pos <? 0 then 0 else pos in
  if (len <? 0) || (b =? 0) then mret BSTR_ERR else
  s ← deref b;
  with_data s BSTR_ERR (λ d,
  if unwritable s then mret BSTR_ERR
  else if (0 <? len) && (pos <? slen s) then
    e ← icint (pos + len);
    n ← (if slen s <=? e then mret pos
         else bBlockCopy (padd d pos) (padd d e) (slen s - e);; mret (slen s - len));
    put b (mkB (mlen s) n (data s));;
    write_byte (padd d n) 0;;
    mret BSTR_OK
  else mret BSTR_OK).

(** [isspace] in the C locale. *)
Definition wspace (c : Z) : bool := (c =? 32) || ((9 <=? c) && (c <=? 13)).

(** The first index from [i] on, below [i + n], whose byte is not a space. *)
Fixpoint skip_spaces (d : ptr) (n : nat) (i : Z) : BM (option Z) :=
  match n with
  | O => mret None
  | S n => c ← read_byte (padd d i); if wspace c then skip_spaces d n (i + 1) else mret (Some i)
  end.

(** The last index, from [i - 1] down to 0, whose byte is not a space. *)
Fixpoint skip_spaces_back (d : ptr) (i : nat) : BM (option Z) :=
  match i with
  | O => mret None
  | S i => c ← read_byte (padd d (Z.of_nat i));
           if wspace c then skip_spaces_back d i else mret (Some (Z.of_nat i))
  end.

Definition empty_string (b : Z) (s : tagbstring) (d : ptr) : BM Z :=
  write_byte d 0;; put b (mkB (mlen s) 0 (data s));; mret BSTR_OK.

Definition bltrimws (b : Z) : BM Z :=
  if b =? 0 then mret BSTR_ERR else
  s ← deref b;
  with_data s BSTR_ERR (λ d,
  if unwritable s then mret BSTR_ERR else
  r ← skip_spaces d (Z.to_nat (slen s)) 0;
  match r with Some i => bdelete b 0 i | None => empty_string b s d end).

(** Cuts after index [i]. *)
Definition cut_after (b : Z) (s : tagbstring) (d : ptr) (i : Z) : BM unit :=
  (if i <? mlen s then write_byte (padd d (i + 1)) 0 else mret ());;
  put b (mkB (mlen s) (i + 1) (data s)).

Definition brtrimws (b : Z) : BM Z :=
  if b =? 0 then mret BSTR_ERR else
  s ← deref b;
  with_data s BSTR_ERR (λ d,
  if unwritable s then mret BSTR_ERR else
  r ← skip_spaces_back d (Z.to_nat (slen s));
  match r with Some i => cut_after b s d i;; mret BSTR_OK | None => empty_string b s d end).

(** The loop for [j] stops at index [i] at the latest. *)
Definition btrimws (b : Z) : BM Z :=
  if b =? 0 then mret BSTR_ERR else
  s ← deref b;
  with_data s BSTR_ERR (λ d,
  if unwritable s then mret BSTR_ERR else
  r ← skip_spaces_back d (Z.to_nat (slen s));
  match r with
  | Some i =>
      cut_after b s d i;;
      j ← skip_spaces d (Z.to_nat (i + 1)) 0;
      match j with Some j => bdelete b 0 j | None => λ _, OutOfFuel end
  | None => empty_string b s d
  end).

Definition bsetstr (b0 pos b1 fill : Z) : BM Z :=
  if (pos <? 0) || (b0 =? 0) then mret BSTR_ERR else
  s0 ← deref b0;
  if slen s0 <? 0 then mret BSTR_ERR else
  with_data s0 BSTR_ERR (λ d0,
  if (mlen s0 <? slen s0) || (mlen s0 <=? 0) then mret BSTR_ERR else
  ok ← (if b1 =? 0 then mret true
        else s1 ← deref b1;
             mret (negb (slen s1 <? 0) && match data s1 with None => false | Some _ => true end));
  if negb ok then mret BSTR_ERR else
  r ← (if b1 =? 0 then mret (Some (0, pos))
       else
         s1 ← deref b1;
         match data s1 with
         | None => mret None
         | Some d1 =>
             aux ← (if points_into d1 d0 (mlen s0) then bstrcpy b1 else mret b1);
             if aux =? 0 then mret None else
             a ← deref aux; d ← icint (pos + slen a); mret (Some (aux, d))
         end);
  match r with
  | None => mret BSTR_ERR
  | Some (aux, d) =>
      d_1 ← icint (d + 1);
      r ← balloc b0 d_1;
      if negb (r =? BSTR_OK) then drop_aux aux b1;; mret BSTR_ERR else
      t0 ← deref b0;
      with_data t0 BSTR_ERR (λ d0,
      newlen ← (if slen t0 <? pos then memset (padd d0 (slen t0)) fill (pos - slen t0);; mret pos
                else mret (slen t0));
      (if negb (aux =? 0) then
         a ← deref aux;
         with_data a BSTR_OK (λ da, bBlockCopy (padd d0 pos) da (slen a);; mret BSTR_OK);;
         drop_aux aux b1
       else mret ());;
      let newlen := if newlen <? d then d else newlen in
      put b0 (mkB (mlen t0) newlen (data t0));;
      write_byte (padd d0 newlen) 0;;
      mret BSTR_OK)
  end).

(** Whether the block at [blk] may overlap the buffer at [d] ([blk + len >= d]
    and [blk < d + mlen]); blocks are not adjacent. *)
Definition may_overlap (blk : ptr) (len : Z) (d : ptr) (mlen : Z) : bool :=
  (blk.1 =? d.1) && (d.2 <=? blk.2 + len) && (blk.2 <? d.2 + mlen).

Definition free_aux (aux blk : ptr) : BM unit :=
  if (aux.1 =? blk.1) && (aux.2 =? blk.2) then mret () else free aux.

Definition binsertblk (b pos : Z) (blk : option ptr) (len fill : Z) : BM Z :=
  match blk with
  | None => mret BSTR_ERR
  | Some blk =>
  if (b =? 0) || (pos <? 0) || (len <? 0) then mret BSTR_ERR else
  s ← deref b;
  if (slen s <? 0) || (mlen s <=? 0) || (mlen s <? slen s) then mret BSTR_ERR else
  d ← icint (slen s + len); l ← icint (pos + len);
  if (d <? 0) || (l <? 0) then mret BSTR_ERR else
  aux ← match data s with
        | Some p =>
            if may_overlap blk len p (mlen s) then
              x ← malloc len;
              match x with
              | None => mret None
              | Some x => memcpy x blk len;; mret (Some x)
              end
            else mret (Some blk)
        | None => mret (Some blk)
        end;
  match aux with
  | None => mret BSTR_ERR
  | Some aux =>
      n1 ← icint ((if d <? l then l else d) + 1);
      r ← balloc b n1;
      if negb (r =? BSTR_OK) then free_aux aux blk;; mret BSTR_ERR else
      t ← deref b;
      with_data t BSTR_ERR (λ p,
      (if d <? l then
         memset (padd p (slen t)) fill (pos - slen t);;
         put b (mkB (mlen t) l (data t))
       else
         bBlockCopy (padd p l) (padd p pos) (d - l);;
         put b (mkB (mlen t) d (data t)));;
      bBlockCopy (padd p pos) aux len;;
      write_byte (padd p (if d <? l then l else d)) 0;;
      free_aux aux blk;;
      mret BSTR_OK)
  end
  end.

Definition binsert (b1 pos b2 fill : Z) : BM Z :=
  if b2 =? 0 then mret BSTR_ERR else
  s2 ← deref b2;
  if (0 <? mlen s2) && (mlen s2 <? slen s2) then mret BSTR_ERR
  else binsertblk b1 pos (data s2) (slen s2) fill.

Definition breplace (b1 pos len b2 fill : Z) : BM Z :=
  if (pos <? 0) || (len <? 0) then mret BSTR_ERR else
  if INT_MAX - len <? pos then mret BSTR_ERR else
  let pl := pos + len in
  if (b1 =? 0) || (b2 =? 0) then mret BSTR_ERR else
  s1 ← deref b1; s2 ← deref b2;
  with_data s1 BSTR_ERR (λ d1, with_data s2 BSTR_ERR (λ d2,
  if (slen s1 <? 0) || (slen s2 <? 0) || (mlen s1 <? slen s1) || (mlen s1 <=? 0) then mret BSTR_ERR
  else if slen s1 <=? pl then
    ret ← bsetstr b1 pos b2 fill;
    if ret <? 0 then mret ret else
    s1 ← deref b1; s2 ← deref b2;
    e ← icint (pos + slen s2);
    (if e <? slen s1 then
       put b1 (mkB (mlen s1) e (data s1));;
       with_data s1 BSTR_OK (λ d1, write_byte (padd d1 e) 0;; mret BSTR_OK)
     else mret BSTR_OK);;
    mret ret
  else
    aux ← (if points_into d2 d1 (slen s1) then bstrcpy b2 else mret b2);
    if aux =? 0 then mret BSTR_ERR else
    a ← deref aux;
    r ← (if len <? slen a then
           n ← icint (slen s1 + slen a); n ← icint (n - len); balloc b1 n
         else mret BSTR_OK);
    if negb (r =? BSTR_OK) then drop_aux aux b2;; mret BSTR_ERR else
    s1 ← deref b1; a ← deref aux;
    with_data s1 BSTR_ERR (λ d1, with_data a BSTR_ERR (λ da,
    (if negb (slen a =? len) then
       memmove (padd d1 (pos + slen a)) (padd d1 (pos + len)) (slen s1 - (pos + len))
     else mret ());;
    memcpy (padd d1 pos) da (slen a);;
    let n := slen s1 + (slen a - len) in
    put b1 (mkB (mlen s1) n (data s1));;
    write_byte (padd d1 n) 0;;
    drop_aux aux b2;;
    mret BSTR_OK)))).

(** [for (i = hi - 1; i >= lo; i--) data[i] = data[i - len]], [n] steps. *)
Fixpoint shift_right (d : ptr) (n : nat) (i len : Z) : BM unit :=
  match n with
  | O => mret ()
  | S n => c ← read_byte (padd d (i - len)); write_byte (padd d i) c;; shift_right d n (i - 1) len
  end.

(** [for (i = lo; i < hi; i++) data[i] = fill], [n] steps. *)
Fixpoint fill_bytes (d : ptr) (n : nat) (i fill : Z) : BM unit :=
  match n with
  | O => mret ()
  | S n => write_byte (padd d i) fill;; fill_bytes d n (i + 1) fill
  end.

Definition binsertch (b pos len fill : Z) : BM Z :=
  if (pos <? 0) || (b =? 0) then mret BSTR_ERR else
  s ← deref b;
  if unwritable s || (len <? 0) then mret BSTR_ERR else
  d ← icint (slen s + len); l ← icint (pos + len);
  if (d <? 0) || (l <? 0) then mret BSTR_ERR else
  n1 ← icint ((if d <? l then l else d) + 1);
  r ← balloc b n1;
  if negb (r =? BSTR_OK) then mret BSTR_ERR else
  t ← deref b;
  with_data t BSTR_ERR (λ p,
  (if d <? l then mret () else shift_right p (Z.to_nat (d - l)) (d - 1) len);;
  let pos := if d <? l then slen t else pos in
  put b (mkB (mlen t) (if d <? l then l else d) (data t));;
  fill_bytes p (Z.to_nat (l - pos)) pos fill;;
  write_byte (padd p (if d <? l then l else d)) 0;;
  mret BSTR_OK).

(** [blength (b)] *)
Definition blength (b : Z) : BM Z :=
  if b =? 0 then mret 0 else s ← deref b; mret (if slen s <? 0 then 0 else slen s).

(** [for (i = d; i < len; i++) data[i] = data[i - d]], [n] steps. *)
Fixpoint repeat_bytes (p : ptr) (n : nat) (i d : Z) : BM unit :=
  match n with
  | O => mret ()
  | S n => c ← read_byte (padd p (i - d)); write_byte (padd p i) c;; repeat_bytes p n (i + 1) d
  end.

Definition bpattern (b len : Z) : BM Z :=
  d ← blength b;
  if (d <=? 0) || (len <? 0) then mret BSTR_ERR else
  n ← icint (len + 1);
  r ← balloc b n;
  if negb (r =? BSTR_OK) then mret BSTR_ERR else
  s ← deref b;
  with_data s BSTR_ERR (λ p,
  let finish :=
    write_byte (padd p len) 0;; put b (mkB (mlen s) len (data s));; mret BSTR_OK in
  if 0 <? len then
    if d =? 1 then c ← read_byte p; bsetstr b len 0 c
    else repeat_bytes p (Z.to_nat (len - d)) d d;; finish
  else finish).

(** * Sizes *)

(** [s] bits of [j] below and at position [n] are set, none above. *)
Definition smeared (n s j : Z) : Prop :=
  (∀ k, 0 ≤ k → n - s < k ≤ n → Z.testbit j k = true) ∧ (∀ k, n < k → Z.testbit j k = false).

Lemma smear_step n s j : 0 ≤ n → 0 < s → smeared n s j → smeared n (2 * s) (smear j s).
Proof.
  intros Hn Hs [H1 H0]. unfold smear. split; intros k.
  - intros Hk Hr. rewrite Z.lor_spec, Z.shiftr_spec by lia.
    destruct (decide (n - s < k)); [by rewrite H1 by lia|].
    rewrite (H1 (k + s)) by lia. apply orb_true_r.
  - intros Hk. rewrite Z.lor_spec, Z.shiftr_spec by lia. rewrite !H0 by lia. done.
Qed.

Lemma smear_all i :
  0 < i → Z.log2 i < 32 →
  smear (smear (smear (smear (smear i 1) 2) 4) 8) 16 = 2 ^ (Z.log2 i + 1) - 1.
Proof.
  intros Hi Hlog. pose proof (Z.log2_nonneg i). set (n := Z.log2 i) in *.
  assert (smeared n 1 i) as H1.
  { split; intros k; intros.
    - replace k with n by lia. by apply Z.bit_log2.
    - apply Z.bits_above_log2; lia. }
  pose proof (smear_step n 1 _ ltac:(lia) ltac:(lia) H1) as H2.
  pose proof (smear_step n 2 _ ltac:(lia) ltac:(lia) H2) as H3.
  pose proof (smear_step n 4 _ ltac:(lia) ltac:(lia) H3) as H4.
  pose proof (smear_step n 8 _ ltac:(lia) ltac:(lia) H4) as H5.
  pose proof (smear_step n 16 _ ltac:(lia) ltac:(lia) H5) as [H6 H7].
  replace (2 ^ (n + 1) - 1) with (Z.ones (n + 1)) by (rewrite Z.ones_equiv; lia). apply Z.bits_inj'. intros k Hk.
  destruct (decide (k ≤ n)).
  - rewrite Z.ones_spec_low by lia. apply H6; lia.
  - rewrite Z.ones_spec_high by lia. apply H7. lia.
Qed.

Lemma snapUpSize_value i :
  0 ≤ i ≤ INT_MAX →
  snapUpSize i = (if i <? 8 then 8 else if i <? 2 ^ 30 then 2 ^ (Z.log2 i + 1) else i).
Proof.
  intros [Hi Hmax]. unfold snapUpSize. destruct (i <? 8) eqn:E8; propify; [lia|].
  pose proof (Z.log2_nonneg i).
  assert (Z.log2 i ≤ 30) as Hlog.
  { assert (Z.log2 i < 31); [|lia]. apply Z.log2_lt_pow2; int_lia. }
  assert (u32 i = i) as -> by (apply Z.mod_small; int_lia).
  rewrite smear_all by lia. replace (2 ^ (Z.log2 i + 1) - 1 + 1) with (2 ^ (Z.log2 i + 1)) by lia.
  assert (2 ^ (Z.log2 i + 1) ≤ 2 ^ 31) by (apply Z.pow_le_mono_r; lia).
  assert (0 < 2 ^ (Z.log2 i + 1)) by (apply Z.pow_pos_nonneg; lia).
  unfold u32. rewrite Z.mod_small by lia. unfold sext. rewrite Z.mod_small by lia.
  change (2 ^ (32 - 1)) with (2 ^ 31).
  destruct (i <? 2 ^ 30) eqn:E30; propify.
  - pose proof (Z.log2_spec i ltac:(lia)) as [_ Hhi]. replace (Z.succ (Z.log2 i)) with (Z.log2 i + 1) in Hhi by lia.
    assert (2 ^ (Z.log2 i + 1) ≤ 2 ^ 30).
    { apply Z.pow_le_mono_r; [lia|]. assert (Z.log2 i < 30); [|lia]. apply Z.log2_lt_pow2; lia. }
    rewrite (proj2 (Z.ltb_lt (2 ^ (Z.log2 i + 1)) _)) by lia. by rewrite (proj2 (Z.leb_le i _)) by lia.
  - assert (2 ^ (Z.log2 i + 1) = 2 ^ 31) as ->.
    { assert (30 ≤ Z.log2 i) by (apply Z.log2_le_pow2; lia). f_equal. lia. }
    change (2 ^ 31 <? 2 ^ 31) with false. cbv iota.
    by rewrite (proj2 (Z.leb_gt i (2 ^ 31 - 2 ^ 32))) by lia.
Qed.

Lemma snapUpSize_bounds i :
  0 ≤ i ≤ INT_MAX → i ≤ snapUpSize i ≤ INT_MAX ∧ 8 ≤ snapUpSize i ∧ (i < 2 ^ 30 → i < snapUpSize i).
Proof.
  intros Hi. rewrite snapUpSize_value by done. destruct (i <? 8) eqn:E8; propify; [int_lia|].
  destruct (i <? 2 ^ 30) eqn:E30; propify; [|int_lia].
  pose proof (Z.log2_spec i ltac:(lia)) as [_ Hhi]. replace (Z.succ (Z.log2 i)) with (Z.log2 i + 1) in Hhi by lia.
  assert (2 ^ (Z.log2 i + 1) ≤ 2 ^ 30); [|int_lia].
  apply Z.pow_le_mono_r; [lia|]. assert (Z.log2 i < 30); [|lia]. apply Z.log2_lt_pow2; lia.
Qed.

(** Requests are rounded up to the least power of two above them, at
    least 8; from [2 ^ 30] on the request is kept as it is, since the power would
    not be an [int]. *)
Theorem snapUpSize_correct i :
  0 ≤ i ≤ INT_MAX →
  (i < 8 → snapUpSize i = 8) ∧
  (8 ≤ i < 2 ^ 30 → ∃ n, 0 ≤ n ∧ snapUpSize i = 2 ^ n ∧ i < 2 ^ n ∧ (∀ m, 0 ≤ m → i < 2 ^ m → n ≤ m)) ∧
  (2 ^ 30 ≤ i → snapUpSize i = i).
Proof.
  intros Hi. rewrite snapUpSize_value by done. split_and!; intros Hr.
  - by rewrite (proj2 (Z.ltb_lt i 8)) by lia.
  - rewrite (proj2 (Z.ltb_ge i 8)), (proj2 (Z.ltb_lt i (2 ^ 30))) by lia.
    pose proof (Z.log2_spec i ltac:(lia)) as [Hlo Hhi]. pose proof (Z.log2_nonneg i).
    replace (Z.succ (Z.log2 i)) with (Z.log2 i + 1) in Hhi by lia.
    exists (Z.log2 i + 1). split_and!; [lia|done|done|]. intros m Hm Him.
    apply Z.log2_lt_pow2 in Him; lia.
  - by rewrite (proj2 (Z.ltb_ge i 8)), (proj2 (Z.ltb_ge i (2 ^ 30))) by lia.
Qed.

Lemma snapUpSize_correct_witness : snapUpSize 5 = 8 ∧ snapUpSize (2 ^ 30 + 1) = 2 ^ 30 + 1.
Proof.
  split; [apply (snapUpSize_correct 5)|apply (snapUpSize_correct (2 ^ 30 + 1))]; int_lia.
Defined.

(** * Writable strings and what an operation changes *)

(** [b] is a writable string: header [s], bytes [buf] in block [B]. *)
Record writable (h : bheap) (b : Z) (s : tagbstring) (B : Z) (buf : list Z) : Prop := {
  w_struct : structs h !! b = Some s;
  w_data : data s = Some (B, 0);
  w_block : blocks h !! B = Some buf;
  w_mlen : zlen buf = mlen s;
  w_slen : 0 ≤ slen s < mlen s }.

(** The characters. *)
Definition content (s : tagbstring) (buf : list Z) : list Z := take (Z.to_nat (slen s)) buf.

(** Only the header [b] and its block change; the block may move to a new
    address, and nothing else is allocated or freed. *)
Record upd (h : bheap) (b B : Z) (h' : bheap) (s' : tagbstring) (B' : Z) (buf' : list Z) : Prop := {
  u_structs : structs h' = <[b := s']> (structs h);
  u_blocks : blocks h' = <[B' := buf']> (delete B (blocks h));
  u_data : data s' = Some (B', 0);
  u_mlen : zlen buf' = mlen s';
  u_fresh : B' = B ∨ blocks h !! B' = None;
  u_ok : heap_ok h' }.

(** Nor are the other strings touched. *)
Lemma upd_frame h b B h' s' B' buf' :
  upd h b B h' s' B' buf' →
  (∀ a, a ≠ b → structs h' !! a = structs h !! a) ∧
  (∀ X bx, X ≠ B → blocks h !! X = Some bx → blocks h' !! X = Some bx).
Proof.
  intros [Es Eb _ _ Hf _]. rewrite Es, Eb. split.
  - intros a Ha. by rewrite lookup_insert_ne.
  - intros X bx HX Hbx. rewrite lookup_insert_ne.
    + by rewrite lookup_delete_ne.
    + intros ->. destruct Hf as [->|Hf]; congruence.
Qed.

Lemma upd_refl h b s B buf :
  heap_ok h → writable h b s B buf → upd h b B h s B buf.
Proof.
  intros OK [Hs Hd Hb Hm _]. split; try done.
  - by rewrite insert_id.
  - rewrite insert_delete_eq. by rewrite insert_id.
  - by left.
Qed.

Lemma upd_trans h b B h1 s1 B1 buf1 h2 s2 B2 buf2 :
  upd h b B h1 s1 B1 buf1 → upd h1 b B1 h2 s2 B2 buf2 → upd h b B h2 s2 B2 buf2.
Proof.
  intros [Es1 Eb1 Hd1 Hm1 Hf1 OK1] [Es2 Eb2 Hd2 Hm2 Hf2 OK2]. rewrite Es1, Eb1 in *. split; try done.
  - rewrite Es2. by rewrite insert_insert_eq.
  - rewrite Eb2. rewrite delete_insert_eq. destruct Hf1 as [->|Hf1].
    + by rewrite delete_delete_eq.
    + rewrite (delete_id (delete B (blocks h)) B1); [done|].
      rewrite lookup_delete_None. by right.
  - destruct Hf2 as [->|Hf2]; [done|]. destruct (decide (B2 = B)) as [->|Hne]; [by left|right].
    rewrite lookup_insert_None, lookup_delete_None in Hf2. destruct Hf2 as [[?|?] ?]; congruence.
Qed.

Lemma upd_writable h b B h' s' B' buf' :
  upd h b B h' s' B' buf' → 0 ≤ slen s' < mlen s' → writable h' b s' B' buf'.
Proof.
  intros [Es Eb Hd Hm _ _] Hs. split; try done.
  - rewrite Es. apply lookup_insert_eq.
  - rewrite Eb. apply lookup_insert_eq.
Qed.

(** ** Steps on the string being changed *)

Section changing.
Context {A : Type} (h : bheap) (b B : Z).
Implicit Types (s : tagbstring) (buf : list Z) (Q : A * bheap → Prop).

Lemma step_put h1 s1 B1 buf1 s2 (k : unit → BM A) Q :
  upd h b B h1 s1 B1 buf1 → mlen s2 = mlen s1 → data s2 = data s1 →
  (∀ h2, upd h b B h2 s2 B1 buf1 → returns (k tt h2) Q) → returns ((put b s2 ≫= k) h1) Q.
Proof.
  intros [Es Eb Hd Hm Hf OK] E1 E2 Hk. unfold mbind, M_bind. rewrite (put_ok _ s1).
  2: { rewrite Es. apply lookup_insert_eq. }
  cbn [mbind res_bind]. apply Hk. split; cbn; try done; try congruence.
  - rewrite Es. by rewrite insert_insert_eq.
  - destruct OK as [Hn Hs Hb H0]. split; cbn; try done.
    + intros a Ha. rewrite lookup_insert_ne; [by apply Hs|]. intros <-.
      rewrite Es in Hs. specialize (Hs b Ha). rewrite lookup_insert_eq in Hs. done.
    + rewrite lookup_insert_ne; [done|]. intros ->. rewrite Es, lookup_insert_eq in H0. done.
Qed.

Lemma step_deref_upd h1 s1 B1 buf1 (k : tagbstring → BM A) Q :
  upd h b B h1 s1 B1 buf1 → returns (k s1 h1) Q → returns ((deref b ≫= k) h1) Q.
Proof. intros [Es _ _ _ _ _] Hk. eapply step_deref; [|done]. rewrite Es. apply lookup_insert_eq. Qed.

Lemma step_store h1 s1 B1 buf1 i xs (k : unit → BM A) Q :
  upd h b B h1 s1 B1 buf1 → 0 ≤ i → i + zlen xs ≤ mlen s1 →
  (∀ h2, upd h b B h2 s1 B1 (zwrite buf1 i xs) → returns (k tt h2) Q) →
  returns ((store_bytes (B1, i) xs ≫= k) h1) Q.
Proof.
  intros [Es Eb Hd Hm Hf OK] Hi Hle Hk. unfold mbind, M_bind.
  rewrite (store_bytes_ok _ _ buf1); cbn [fst snd]; [|rewrite Eb; apply lookup_insert_eq|done|lia].
  cbn [mbind res_bind]. apply Hk. split; cbn; try done.
  - rewrite Eb. by rewrite insert_insert_eq.
  - rewrite zlen_zwrite by lia. done.
  - destruct OK as [Hn Hs Hb H0]. split; cbn; try done.
    intros a Ha. rewrite lookup_insert_ne; [by apply Hb|]. intros <-.
    specialize (Hb B1 Ha). rewrite Eb, lookup_insert_eq in Hb. done.
Qed.

Lemma step_write_byte h1 s1 B1 buf1 i x (k : unit → BM A) Q :
  upd h b B h1 s1 B1 buf1 → 0 ≤ i < mlen s1 →
  (∀ h2, upd h b B h2 s1 B1 (zwrite buf1 i [u8 x]) → returns (k tt h2) Q) →
  returns ((write_byte (padd (B1, 0) i) x ≫= k) h1) Q.
Proof.
  intros Hu Hi Hk. unfold write_byte, padd. cbn [fst snd]. rewrite Z.add_0_l.
  eapply step_store; [done|lia| |done]. rewrite zlen_cons. change (zlen (@nil Z)) with 0. lia.
Qed.

(** Moving bytes from a block into the string. *)
Lemma step_memmove h1 s1 B1 buf1 i X bx o n (k : unit → BM A) Q :
  upd h b B h1 s1 B1 buf1 → blocks h1 !! X = Some bx →
  0 ≤ i → 0 ≤ n → i + n ≤ mlen s1 → 0 ≤ o → o + n ≤ zlen bx →
  (∀ h2, upd h b B h2 s1 B1 (zwrite buf1 i (zslice bx o n)) → returns (k tt h2) Q) →
  returns ((memmove (padd (B1, 0) i) (X, o) n ≫= k) h1) Q.
Proof.
  intros Hu HX Hi Hn Hin Ho Hon Hk. unfold memmove, padd. cbn [fst snd]. rewrite Z.add_0_l.
  destruct (n =? 0) eqn:En; propify.
  - subst n. apply Hk. unfold zslice. change (Z.to_nat 0) with O. rewrite take_0, zwrite_nil. done.
  - apply step_assoc. unfold mbind at 1, M_bind at 1.
    rewrite (load_bytes_ok _ _ bx) by done. cbn [mbind res_bind fst snd].
    eapply step_store; [done|done| |done]. rewrite zlen_zslice by lia. done.
Qed.

Lemma step_bBlockCopy h1 s1 B1 buf1 i X bx o n (k : unit → BM A) Q :
  upd h b B h1 s1 B1 buf1 → blocks h1 !! X = Some bx →
  0 ≤ i → 0 ≤ n → i + n ≤ mlen s1 → 0 ≤ o → o + n ≤ zlen bx →
  (∀ h2, upd h b B h2 s1 B1 (zwrite buf1 i (zslice bx o n)) → returns (k tt h2) Q) →
  returns ((bBlockCopy (padd (B1, 0) i) (X, o) n ≫= k) h1) Q.
Proof.
  intros Hu HX Hi Hn Hin Ho Hon Hk. unfold bBlockCopy. case_if.
  - by eapply step_memmove.
  - apply step_ret, Hk. replace n with 0 by lia. unfold zslice. change (Z.to_nat 0) with O.
    rewrite take_0, zwrite_nil. done.
Qed.

Lemma step_memset h1 s1 B1 buf1 i c n (k : unit → BM A) Q :
  upd h b B h1 s1 B1 buf1 → 0 ≤ i → 0 ≤ n → i + n ≤ mlen s1 →
  (∀ h2, upd h b B h2 s1 B1 (zwrite buf1 i (replicate (Z.to_nat n) (u8 c))) → returns (k tt h2) Q) →
  returns ((memset (padd (B1, 0) i) c n ≫= k) h1) Q.
Proof.
  intros Hu Hi Hn Hin Hk. unfold memset, padd. cbn [fst snd]. rewrite Z.add_0_l.
  destruct (n =? 0) eqn:En; propify.
  - subst n. apply Hk. change (Z.to_nat 0) with O. cbn [replicate]. by rewrite zwrite_nil.
  - eapply step_store; [done|done| |done]. rewrite zlen_replicate. lia.
Qed.
End changing.

(** ** Growing the buffer *)

Lemma same_writable h h' b s B buf : same_memory h h' → writable h b s B buf → writable h' b s B buf.
Proof. intros (Es & Eb & _) [? ? ? ? ?]. split; congruence. Qed.

Lemma b_nonnull h b s B buf : heap_ok h → writable h b s B buf → b ≠ 0.
Proof. intros OK W ->. pose proof (ok_null _ OK). destruct W. congruence. Qed.

(** What a reallocation leaves: the block has moved and keeps the characters. *)
Definition moved (h : bheap) (s : tagbstring) (B : Z) (buf : list Z) (h' : bheap) (X len : Z) : Prop :=
  ∃ new, structs h' = structs h ∧ blocks h' = <[X := new]> (delete B (blocks h)) ∧
    zlen new = len ∧ take (Z.to_nat (slen s)) new = content s buf ∧ heap_ok h' ∧ blocks h !! X = None.

Section grow.
Context {A : Type} (h : bheap) (b : Z) (s : tagbstring) (B : Z) (buf : list Z).
Context (OK : heap_ok h) (W : writable h b s B buf).
Implicit Types (Q : A * bheap → Prop).

Lemma step_realloc_moved len (k : option ptr → BM A) h1 Q :
  same_memory h h1 → slen s ≤ len →
  (∀ h', out_of_memory h h' → returns (k None h') Q) →
  (∀ h' X, moved h s B buf h' X len → returns (k (Some (X, 0)) h') Q) →
  returns ((realloc (B, 0) len ≫= k) h1) Q.
Proof using OK W.
  intros (Es1 & Eb1 & OK1) Hlen Hfail Hok. destruct W as [Hs Hd Hb Hm Hsl].
  apply (step_realloc B len buf); [done|congruence| |].
  - intros h' Hsame. apply Hfail. eapply oom_same; [|done]. by split_and!.
  - intros h' Es Eb OK' _. apply Hok. eexists. split_and!; [congruence|by rewrite Eb, Eb1| | |done|].
    + rewrite zlen_app, zlen_replicate. unfold zlen in *. rewrite length_take. lia.
    + unfold content, zlen in *. destruct (decide (len ≤ mlen s)).
      * rewrite take_app_le by (rewrite length_take; lia). rewrite take_take. f_equal. lia.
      * rewrite (take_ge buf (Z.to_nat len)) by lia. rewrite take_app_le by lia. done.
    + rewrite <-Eb1. apply (heap_ok_fresh h1 OK1).
Qed.

Lemma step_reallocStrategy len olen (k : option (ptr * Z) → BM A) h1 Q :
  same_memory h h1 → slen s ≤ len → slen s ≤ olen →
  (∀ h', out_of_memory h h' → returns (k None h') Q) →
  (∀ h' X l, l = len ∨ l = olen → moved h s B buf h' X l → returns (k (Some ((X, 0), l)) h') Q) →
  returns ((reallocStrategy (B, 0) len olen ≫= k) h1) Q.
Proof using OK W.
  intros Hsame Hlen Holen Hfail Hok. unfold reallocStrategy. apply step_assoc.
  apply step_realloc_moved; [by (exact Hsame || apply oom_memory)|done| |].
  - intros h' Hsame'. apply step_assoc. apply step_realloc_moved; [by (exact Hsame || apply oom_memory)|done| |].
    + intros h'' Hsame''. apply step_ret. by apply Hfail.
    + intros h'' X Hm. apply step_ret. apply Hok; [by right|done].
  - intros h' X Hm. apply step_ret. apply Hok; [by left|done].
Qed.

(** Copying into a new block instead. *)
Lemma step_copy_out len (k : option ptr → BM A) h1 Q :
  same_memory h h1 → slen s ≤ len →
  (∀ h', out_of_memory h h' → returns (k None h') Q) →
  (∀ h' X new, blocks h' = <[X := new]> (blocks h) → structs h' = structs h → X ≠ B →
     blocks h !! X = None → zlen new = len → heap_ok h' → returns (k (Some (X, 0)) h') Q) →
  returns ((malloc len ≫= k) h1) Q.
Proof using OK W.
  intros (Es1 & Eb1 & OK1) Hlen Hfail Hok. apply step_malloc; [done| |].
  - intros h' Hsame. apply Hfail. eapply oom_same; [|done]. by split_and!.
  - intros h' Es Eb OK' _. assert (blocks h !! next h1 = None) as Hfresh.
    { rewrite <-Eb1. apply (heap_ok_fresh h1 OK1). }
    apply (Hok h' (next h1) (replicate (Z.to_nat len) (junk h1))); [by rewrite Eb, Eb1|congruence| |done| |done].
    + intros E. destruct W as [_ _ Hb _ _]. congruence.
    + rewrite zlen_replicate. destruct W. lia.
Qed.

Lemma step_copy_free {C} h' X new len (x : C) (k : C → BM A) Q :
  blocks h' = <[X := new]> (blocks h) → structs h' = structs h → X ≠ B →
  blocks h !! X = None → zlen new = len → heap_ok h' → slen s ≤ len →
  (∀ h2, moved h s B buf h2 X len → returns (k x h2) Q) →
  returns ((((if negb (slen s =? 0) then memcpy (X, 0) (B, 0) (slen s) else mret ());; free (B, 0);; mret x)
    ≫= k) h') Q.
Proof using W.
  intros Eb Es HX Hfresh Hnew OK' Hlen Hk. destruct W as [Hs Hd Hb Hm Hsl].
  assert (∀ new', zlen new' = len → take (Z.to_nat (slen s)) new' = content s buf →
    returns ((free (B, 0);; mret x) (with_blocks h' (<[X := new']> (blocks h)))) (λ '(y, h2),
      y = x ∧ moved h s B buf h2 X len)) as Hfree.
  { intros new' Hnew' Hc. unfold mbind, M_bind, free. cbn [fst snd blocks with_blocks].
    rewrite lookup_insert_ne, Hb by done. cbn [Z.eqb mbind res_bind mret M_ret returns]. split; [done|].
    exists new'. split_and!; cbn; try done.
    - by rewrite delete_insert_ne.
    - destruct OK' as [Hn Hs' Hb' H0]. split; cbn; try done.
      intros c Hc'. specialize (Hb' c Hc'). rewrite Eb in Hb'.
      destruct (decide (c = B)) as [->|]; [by rewrite lookup_delete_eq|].
      rewrite lookup_delete_ne by done. apply lookup_insert_None in Hb' as [? ?].
      by rewrite lookup_insert_ne. }
  unfold mbind at 1, M_bind at 1. apply returns_bind. unfold mbind at 1, M_bind at 1. apply returns_bind.
  destruct (slen s =? 0) eqn:Hz; propify; cbn [negb].
  - cbn [mret M_ret returns]. specialize (Hfree new Hnew). rewrite Hz in Hfree.
    replace h' with (with_blocks h' (<[X := new]> (blocks h))) by (rewrite <-Eb; by destruct h').
    eapply returns_mono; [apply Hfree|]; [unfold content; by rewrite Hz|]. intros [y h2] [-> Hmv]. by apply Hk.
  - unfold memcpy. cbn [fst snd]. rewrite (proj2 (Z.eqb_neq X B)) by done. cbn [andb].
    unfold memmove. rewrite (proj2 (Z.eqb_neq (slen s) 0)) by done.
    unfold mbind at 1, M_bind at 1. rewrite (load_bytes_ok _ _ buf); cbn [fst snd]; try lia.
    2: { rewrite Eb. by rewrite lookup_insert_ne. }
    cbn [mbind res_bind]. rewrite (store_bytes_ok _ _ new); cbn [fst snd]; try lia.
    2: { rewrite Eb. apply lookup_insert_eq. }
    2: { rewrite zlen_zslice by lia. lia. }
    cbn [returns]. rewrite Eb, insert_insert_eq.
    eapply returns_mono; [apply Hfree|].
    + rewrite zlen_zwrite; [done|lia|]. rewrite zlen_zslice by lia. lia.
    + unfold content. rewrite zwrite_zero_app. unfold zslice. change (Z.to_nat 0) with O. rewrite drop_0.
      rewrite take_app_le by (unfold zlen in *; rewrite length_take; lia). rewrite take_take. f_equal. lia.
    + intros [y h2] [-> Hmv]. by apply Hk.
Qed.
End grow.

Lemma step_balloc_max {A} h b s B buf olen (k : Z → BM A) (Q : A * bheap → Prop) :
  heap_ok h → writable h b s B buf → 0 < olen ≤ INT_MAX → 8 * mlen s ≤ INT_MAX →
  (∀ h', out_of_memory h h' → returns (k BSTR_ERR h') Q) →
  (∀ h' s' B' buf', upd h b B h' s' B' buf' → slen s' = slen s → olen ≤ mlen s' → mlen s ≤ mlen s' →
     mlen s' ≤ Z.max (mlen s) (snapUpSize olen) → content s' buf' = content s buf → returns (k BSTR_OK h') Q) →
  returns ((balloc b olen ≫= k) h) Q.
Proof.
  intros OK W Holen Hsmall Hfail Hok. pose proof (b_nonnull _ _ _ _ _ OK W) as Hb0.
  pose proof W as [Hs Hd Hb Hm Hsl]. unfold balloc.
  rewrite (proj2 (Z.eqb_neq b 0)) by done. apply step_assoc. eapply step_deref; [done|].
  unfold with_data. rewrite Hd. unfold unwritable.
  rewrite (proj2 (Z.ltb_ge (slen s) 0)), (proj2 (Z.ltb_ge (mlen s) (slen s))),
    (proj2 (Z.leb_gt (mlen s) 0)), (proj2 (Z.leb_gt olen 0)) by lia. cbn [orb].
  pose proof (snapUpSize_bounds olen ltac:(lia)) as (Hsn & _ & _).
  assert (∀ h', same_memory h h' → olen ≤ mlen s → returns (k BSTR_OK h') Q) as Hnone.
  { intros h' (Es & Eb & OK') Hge. apply (Hok h' s B buf); [|done|lia|lia|lia|done].
    destruct (upd_refl h b s B buf OK W) as [E1 E2 ? ? ? ?]. split; try done; congruence. }
  destruct (mlen s <=? olen) eqn:Hle; propify; [|apply step_ret, Hnone; [by apply same_memory_refl|lia]].
  destruct (snapUpSize olen <=? mlen s) eqn:Hsnap; propify; [apply step_ret, Hnone; [by apply same_memory_refl|lia]|].
  apply step_assoc. eapply step_lift; [apply cint_ok; int_lia|].
  apply step_assoc. eapply step_lift; [apply cint_ok; int_lia|].
  (* the tail common to both strategies *)
  assert (∀ h' X len, len = snapUpSize olen ∨ len = olen → moved h s B buf h' X len →
    returns (((put b (mkB len (slen s) (Some (X, 0)));; write_byte (padd (X, 0) (slen s)) 0;; mret BSTR_OK)
      ≫= k) h') Q) as Htail.
  { intros h' X len Hlen (new & Es & Eb & Hnew & Hcont & OK' & Hfresh).
    assert (upd h b B (with_structs h' (<[b := mkB len (slen s) (Some (X, 0))]> (structs h')))
      (mkB len (slen s) (Some (X, 0))) X new) as Hu.
    { split; cbn; try done; [by rewrite Es|by right|].
      destruct OK' as [Hn Hs' Hb' H0]. split; cbn; try done.
      - intros a Ha. rewrite lookup_insert_ne; [by apply Hs'|]. intros <-.
        rewrite Es in Hs'. rewrite (Hs' b Ha) in Hs. done.
      - by rewrite lookup_insert_ne. }
    apply step_assoc. unfold mbind at 1, M_bind at 1. rewrite (put_ok _ s) by congruence. cbn [mbind res_bind].
    apply step_assoc. eapply step_write_byte; [exact Hu|cbn; lia|]. intros h2 Hu2. apply step_ret.
    eapply Hok; [exact Hu2|done|cbn; lia|cbn; lia|cbn; lia|].
    unfold content. cbn [slen]. rewrite zwrite_take by (cbn in *; lia). done. }
  apply step_assoc. destruct (7 * mlen s <? 8 * slen s).
  - eapply step_reallocStrategy; [done|done|by apply same_memory_refl|lia|lia| |].
    + intros h' Hsame. apply step_ret. by apply Hfail.
    + intros h' X l Hl Hmoved. by apply Htail.
  - apply step_assoc. eapply step_copy_out; [done|done|by apply same_memory_refl|lia| |].
    + intros h' [Hsame _]. eapply step_reallocStrategy; [done|done|done|lia|lia| |].
      * intros h'' Hsame''. apply step_ret. by apply Hfail.
      * intros h'' X l Hl Hmoved. by apply Htail.
    + intros h' X new Eb Es HX Hfresh Hnew OK'.
      eapply (step_copy_free h b s B buf W); [done..|lia|]. intros h2 Hmoved.
      apply step_ret. eapply Htail; [by left|done].
Qed.

Lemma step_balloc {A} h b s B buf olen (k : Z → BM A) (Q : A * bheap → Prop) :
  heap_ok h → writable h b s B buf → 0 < olen ≤ INT_MAX → 8 * mlen s ≤ INT_MAX →
  (∀ h', out_of_memory h h' → returns (k BSTR_ERR h') Q) →
  (∀ h' s' B' buf', upd h b B h' s' B' buf' → slen s' = slen s → olen ≤ mlen s' → mlen s ≤ mlen s' →
     content s' buf' = content s buf → returns (k BSTR_OK h') Q) →
  returns ((balloc b olen ≫= k) h) Q.
Proof. intros OK W Holen Hsmall Hfail Hok. by eapply step_balloc_max; eauto. Qed.

(** ** Reading an operand, possibly through a copy *)

(** [b] can be read: its header is [s] and its characters, [c], are in block [X]
    from offset [o] on. Read-only strings and slices of other strings are such. *)
Record readable (h : bheap) (b : Z) (s : tagbstring) (X o : Z) (bx c : list Z) : Prop := {
  r_struct : structs h !! b = Some s;
  r_data : data s = Some (X, o);
  r_block : blocks h !! X = Some bx;
  r_slen : 0 ≤ slen s;
  r_range : 0 ≤ o ∧ o + slen s ≤ zlen bx;
  r_content : c = zslice bx o (slen s) }.

Lemma writable_readable h b s B buf :
  writable h b s B buf → readable h b s B 0 buf (content s buf).
Proof. intros [? ? ? ? ?]. split; try done; lia. Qed.

Lemma readable_len h b s X o bx c : readable h b s X o bx c → zlen c = slen s.
Proof. intros [? ? ? ? [? ?] ->]. apply zlen_zslice; lia. Qed.

(** A copy: one header and one block more. *)
Record copied (h h' : bheap) (a : Z) (sa : tagbstring) (Y : Z) (new c : list Z) : Prop := {
  c_structs : structs h' = <[a := sa]> (structs h);
  c_blocks : blocks h' = <[Y := new]> (blocks h);
  c_fresh : structs h !! a = None ∧ blocks h !! Y = None ∧ a ≠ 0;
  c_data : data sa = Some (Y, 0);
  c_len : 0 ≤ slen sa < mlen sa ∧ zlen new = mlen sa;
  c_content : content sa new = c;
  c_ok : heap_ok h';
  c_term : zget new (slen sa) = Some 0 }.

(** A string under construction: a blank header [a] and a block [Y] of [new]. *)
Record allocated (h h' : bheap) (a Y : Z) (new : list Z) : Prop := {
  a_structs : structs h' = <[a := blank]> (structs h);
  a_blocks : blocks h' = <[Y := new]> (blocks h);
  a_fresh : structs h !! a = None ∧ blocks h !! Y = None ∧ a ≠ 0;
  a_ok : heap_ok h' }.

Lemma copied_of_upd h h2 a Y new h3 sa new' c :
  allocated h h2 a Y new → upd h2 a Y h3 sa Y new' → 0 ≤ slen sa < mlen sa → content sa new' = c →
  zget new' (slen sa) = Some 0 → copied h h3 a sa Y new' c.
Proof.
  intros [Es Eb Hf OK2] [E1 E2 E3 E4 _ E6] Hl Hc Hz. split; try done.
  - by rewrite E1, Es, insert_insert_eq.
  - rewrite E2, Eb. by rewrite insert_delete_eq, insert_insert_eq.
Qed.

Section copies.
Context {A : Type}.
Implicit Types (h : bheap) (Q : A * bheap → Prop).

(** Giving up: the header is freed. *)
Lemma step_free_header h h1 h2 a (k : unit → BM A) Q :
  heap_ok h → structs h !! a = None → structs h1 = <[a := blank]> (structs h) → blocks h1 = blocks h →
  out_of_memory h1 h2 → (∀ h', out_of_memory h h' → returns (k tt h') Q) →
  returns ((free_struct a ≫= k) h2) Q.
Proof.
  intros OK Hfa Es1 Eb1 ((Es2 & Eb2 & OK2) & Hoom) Hk. unfold mbind at 1, M_bind at 1, free_struct.
  rewrite Es2, Es1, lookup_insert_eq. cbn [mbind res_bind]. apply Hk. split; [|exact Hoom]. split_and!; cbn.
  - by rewrite delete_insert_id.
  - congruence.
  - destruct OK2 as [Hn Hs' Hb' H0]. split; cbn; try done.
    + intros y Hy. rewrite lookup_delete_None. right. rewrite <-Es1, <-Es2. by apply Hs'.
    + rewrite delete_insert_id by done. exact (ok_null _ OK).
Qed.

(** Filling in the header. *)
Lemma step_put_fresh h h2 a Y new n (k : unit → BM A) Q :
  allocated h h2 a Y new →
  (∀ h3, upd h2 a Y h3 (mkB (zlen new) n (Some (Y, 0))) Y new → returns (k tt h3) Q) →
  returns ((put a (mkB (zlen new) n (Some (Y, 0))) ≫= k) h2) Q.
Proof.
  intros [Es Eb (Hfa & Hfy & Ha0) OK2] Hk.
  assert (structs h2 !! a = Some blank) as Ha by (rewrite Es; apply lookup_insert_eq).
  unfold mbind at 1, M_bind at 1. rewrite (put_ok _ blank) by done. cbn [mbind res_bind]. apply Hk.
  split; cbn; try done.
  - rewrite insert_delete_eq, insert_id; [done|]. rewrite Eb. apply lookup_insert_eq.
  - by left.
  - destruct OK2 as [Hn Hs' Hb' H0]. split; cbn; try done.
    + intros y Hy. rewrite lookup_insert_ne; [by apply Hs'|]. intros <-. rewrite Hs' in Ha; done.
    + by rewrite lookup_insert_ne.
Qed.

End copies.

(** Copying the characters of a readable operand into the new block. *)
Lemma step_fill_fresh h h2 a Y new X o bx n c (Q : Z * bheap → Prop) :
  allocated h h2 a Y new → blocks h !! X = Some bx → 0 ≤ o → 0 ≤ n → o + n ≤ zlen bx → n < zlen new →
  c = zslice bx o n →
  (∀ h' new', copied h h' a (mkB (zlen new) n (Some (Y, 0))) Y new' c → returns (Done (a, h')) Q) →
  returns ((put a (mkB (zlen new) n (Some (Y, 0)));;
    (if negb (n =? 0) then memcpy (Y, 0) (X, o) n else mret ());;
    write_byte (padd (Y, 0) n) 0;; (mret a : BM Z)) h2) Q.
Proof.
  intros Al HX Ho Hn Hon Hlt Hc Hk. pose proof Al as [Es Eb (Hfa & Hfy & Ha0) OK2].
  eapply step_put_fresh; [exact Al|]. intros h3 Hu.
  assert (Y ≠ X) as HYX by congruence.
  assert (∀ h4 new4, upd h2 a Y h4 (mkB (zlen new) n (Some (Y, 0))) Y new4 → take (Z.to_nat n) new4 = c →
    returns ((write_byte (padd (Y, 0) n) 0;; (mret a : BM Z)) h4) Q) as Hlast.
  { intros h4 new4 Hu4 Hc4. pose proof (u_mlen _ _ _ _ _ _ _ Hu4) as Hm4. cbn in Hm4.
    eapply step_write_byte; [exact Hu4|cbn; lia|]. intros h5 Hu5. eapply Hk.
    eapply copied_of_upd; [exact Al|exact Hu5|cbn; lia| |].
    - unfold content. cbn [slen]. rewrite zwrite_take; [done|lia|lia].
    - cbn [slen]. apply zget_zwrite_one. lia. }
  destruct (n =? 0) eqn:Hz; propify; cbn [negb].
  - apply step_ret. eapply Hlast; [exact Hu|]. rewrite Hc, Hz. unfold zslice. by rewrite !take_0.
  - unfold memcpy. cbn [fst snd]. rewrite (proj2 (Z.eqb_neq Y X)) by done. cbn [andb].
    change (Y, 0) with (padd (Y, 0) 0) at 1. eapply step_memmove with (bx := bx); [exact Hu| |lia|lia|cbn; lia|lia|lia|].
    { destruct Hu as [_ E2 _ _ _ _]. rewrite E2, lookup_insert_ne, lookup_delete_ne, Eb, lookup_insert_ne by done. done. }
    intros h4 Hu4. eapply Hlast; [exact Hu4|].
    assert (zlen (zslice bx o n) = n) as Hl by (apply zlen_zslice; lia).
    rewrite zwrite_zero_app, Hl, Hc. rewrite take_app_le by (unfold zlen in Hl; lia).
    apply take_ge. unfold zlen in Hl. lia.
Qed.

Section copying.
Context {A : Type}.
Implicit Types (h : bheap) (Q : A * bheap → Prop).

Lemma step_bstrcpy h b s X o bx c (k : Z → BM A) Q :
  heap_ok h → readable h b s X o bx c → slen s < INT_MAX →
  (∀ h', out_of_memory h h' → returns (k 0 h') Q) →
  (∀ h' a sa Y new, copied h h' a sa Y new c → slen sa = slen s → returns (k a h') Q) →
  returns ((bstrcpy b ≫= k) h) Q.
Proof.
  intros OK [Hs Hd Hb Hsl Hr Hc] Hmax Hfail Hok. unfold bstrcpy.
  rewrite (proj2 (Z.eqb_neq b 0)) by (intros ->; rewrite (ok_null _ OK) in Hs; done).
  apply step_assoc. eapply step_deref; [done|]. rewrite (proj2 (Z.ltb_ge (slen s) 0)) by lia.
  unfold with_data. rewrite Hd. apply step_assoc. apply step_malloc_struct; [done| |].
  { intros h' Hsame. cbn [Z.eqb]. apply step_ret. by apply Hfail. }
  intros h1 Es1 Eb1 OK1 Hn1. destruct (heap_ok_fresh h OK) as [Hfa Hfb]. set (a := next h) in *.
  assert (a ≠ 0) as Ha0 by (pose proof (ok_next _ OK); lia). clearbody a. rewrite (proj2 (Z.eqb_neq a 0)) by done.
  apply step_assoc. eapply step_lift; [apply cint_ok; int_lia|].
  pose proof (snapUpSize_bounds (slen s + 1) ltac:(lia)) as (Hsn & _ & _).
  assert (∀ h2 Y new, structs h2 = structs h1 → blocks h2 = <[Y := new]> (blocks h1) → heap_ok h2 →
    blocks h1 !! Y = None → slen s < zlen new →
    returns (((put a (mkB (zlen new) (slen s) (Some (Y, 0)));;
      (if negb (slen s =? 0) then memcpy (Y, 0) (X, o) (slen s) else mret ());;
      write_byte (padd (Y, 0) (slen s)) 0;; mret a) ≫= k) h2) Q) as Htail.
  { intros h2 Y new Es2 Eb2 OK2 HfY Hj. apply M_returns_bind.
    eapply step_fill_fresh with (bx := bx) (h := h); [|done|lia|lia|lia|lia|done|].
    - split; [congruence|by rewrite Eb2, Eb1| |done]. by rewrite <-Eb1.
    - intros h' new' Hcp. by eapply Hok. }
  assert (∀ h2, out_of_memory h1 h2 → returns (((free_struct a;; mret 0) ≫= k) h2) Q) as Hgive.
  { intros h2 Hsame. apply step_assoc. eapply (step_free_header h h1); [done..|].
    intros h' Hsame'. by apply step_ret, Hfail. }
  apply step_assoc. apply step_malloc; [done| |].
  - intros h2 Hsame2. apply step_assoc, step_assoc. apply step_malloc; [apply Hsame2| |].
    + intros h3 Hsame3. apply step_ret, Hgive. by eapply oom_trans.
    + intros h3 Es3 Eb3 OK3 _. apply step_ret. destruct Hsame2 as [(Es2 & Eb2 & OK2) _].
      replace (slen s + 1) with (zlen (replicate (Z.to_nat (slen s + 1)) (junk h2))) at 1
        by (rewrite zlen_replicate; lia).
      eapply Htail; [congruence|by rewrite Eb3, Eb2|done| |rewrite zlen_replicate; lia].
      rewrite <-Eb2. apply (heap_ok_fresh h2 OK2).
  - intros h2 Es2 Eb2 OK2 _. apply step_assoc, step_ret.
    replace (snapUpSize (slen s + 1)) with (zlen (replicate (Z.to_nat (snapUpSize (slen s + 1))) (junk h1))) at 1
      by (rewrite zlen_replicate; lia).
    eapply Htail; [done|done|done|apply (heap_ok_fresh h1 OK1)|rewrite zlen_replicate; lia].
Qed.

(** Destroying the copy restores the heap it was made in. *)
Lemma step_bdestroy_copy h h1 a sa Y new c (k : Z → BM A) Q :
  copied h h1 a sa Y new c → heap_ok h →
  (∀ h', same_memory h h' → oom h' = oom h1 → returns (k BSTR_OK h') Q) → returns ((bdestroy a ≫= k) h1) Q.
Proof.
  intros [Es Eb (Hfa & Hfy & Ha0) Hd [Hl Hm] Hc OK1] OK Hk. unfold bdestroy.
  rewrite (proj2 (Z.eqb_neq a 0)) by done. apply step_assoc.
  eapply step_deref; [rewrite Es; apply lookup_insert_eq|].
  rewrite (proj2 (Z.ltb_ge (slen sa) 0)), (proj2 (Z.leb_gt (mlen sa) 0)), (proj2 (Z.ltb_ge (mlen sa) (slen sa))) by lia.
  cbn [orb]. unfold with_data. rewrite Hd. apply step_assoc.
  unfold mbind at 1, M_bind at 1, free. cbn [fst snd]. rewrite Eb, lookup_insert_eq. cbn [Z.eqb mbind res_bind].
  apply step_assoc. unfold mbind at 1, M_bind at 1, free_struct. cbn [structs with_blocks].
  rewrite Es, lookup_insert_eq. cbn [mbind res_bind]. apply step_ret, Hk; [|done]. split_and!; cbn.
  - by rewrite delete_insert_id.
  - by rewrite delete_insert_id.
  - destruct OK1 as [Hn Hs' Hb' H0]. split; cbn; [done| | |].
    + intros y Hy. rewrite lookup_delete_None. right. rewrite <-Es. by apply Hs'.
    + intros y Hy. rewrite lookup_delete_None. right. rewrite <-Eb. by apply Hb'.
    + rewrite delete_insert_id by done. exact (ok_null _ OK).
Qed.
End copying.

(** A heap with one header and one block less. *)
Lemma heap_ok_delete (h : bheap) a Y : heap_ok h → heap_ok (with_blocks (with_structs h (delete a (structs h))) (delete Y (blocks h))).
Proof.
  intros [Hn Hs Hb H0]. split; cbn; [done|..]; intros; rewrite lookup_delete_None; right; auto.
Qed.

Section dropping.
Context {A : Type}.
Implicit Types (Q : A * bheap → Prop).

(** [drop_aux] after the string has changed: the copy is gone. *)
Lemma step_drop_upd h ha a sa Y new c b s B bufs b1 h2 s' B' buf' (k : unit → BM A) Q :
  copied h ha a sa Y new c → structs h !! b = Some s → blocks h !! B = Some bufs → a ≠ b1 →
  upd ha b B h2 s' B' buf' →
  (∀ h3, upd h b B h3 s' B' buf' → returns (k tt h3) Q) → returns ((drop_aux a b1 ≫= k) h2) Q.
Proof.
  intros [Es Eb (Hfa & Hfy & Ha0) Hd Hl Hc OK1] Hsb HbB Hab [Es2 Eb2 Hd2 Hm2 Hf2 OK2] Hk.
  assert (a ≠ b) by congruence. assert (Y ≠ B) by congruence.
  assert (Y ≠ B') as HYB'.
  { intros <-. destruct Hf2 as [?|Hf2]; [done|]. rewrite Eb, lookup_insert_eq in Hf2. done. }
  unfold drop_aux. rewrite (proj2 (Z.eqb_neq a b1)) by done. cbn [negb]. apply step_assoc.
  set (h' := with_blocks (with_structs h2 (delete a (structs h2))) (delete Y (blocks h2))).
  assert (structs h' = <[b:=s']> (structs h)) as Es'.
  { cbn. rewrite Es2, Es, delete_insert_ne by done. by rewrite delete_insert_id. }
  assert (blocks h' = <[B':=buf']> (delete B (blocks h))) as Eb'.
  { cbn. rewrite Eb2, Eb, delete_insert_ne by done. f_equal.
    rewrite delete_delete. by rewrite delete_insert_id. }
  assert (structs h2 = <[a:=sa]> (structs h')) as E1.
  { rewrite Es', Es2, Es. by rewrite insert_insert_ne. }
  assert (blocks h2 = <[Y:=new]> (blocks h')) as E2.
  { rewrite Eb', Eb2, Eb, delete_insert_ne by done. by rewrite insert_insert_ne. }
  eapply (step_bdestroy_copy h' h2 a sa Y new c).
  - split; try done. split_and!; [|  |done].
    + rewrite Es', lookup_insert_ne by done. done.
    + rewrite Eb', lookup_insert_ne, lookup_delete_ne by done. done.
  - by apply heap_ok_delete.
  - intros h3 (E3 & E4 & OK3) _. apply step_ret, Hk. split; try done; [congruence|congruence|].
    destruct Hf2 as [?|Hf2]; [by left|right]. rewrite Eb in Hf2. by apply lookup_insert_None in Hf2 as [? _].
Qed.

(** [drop_aux] after a failure. *)
Lemma step_drop_same h ha a sa Y new c b1 h2 (k : unit → BM A) Q :
  copied h ha a sa Y new c → heap_ok h → a ≠ b1 → out_of_memory ha h2 →
  (∀ h3, out_of_memory h h3 → returns (k tt h3) Q) → returns ((drop_aux a b1 ≫= k) h2) Q.
Proof.
  intros [Es Eb Hf Hd Hl Hc OK1] OK Hab [(Es2 & Eb2 & OK2) Hoom] Hk.
  unfold drop_aux. rewrite (proj2 (Z.eqb_neq a b1)) by done. cbn [negb]. apply step_assoc.
  eapply (step_bdestroy_copy h h2 a sa Y new c); [|done|].
  - split; try done; congruence.
  - intros h3 Hsame Ho. apply step_ret, Hk. split; [done|congruence].
Qed.

Lemma step_drop_self b1 h2 (k : unit → BM A) Q :
  returns (k tt h2) Q → returns ((drop_aux b1 b1 ≫= k) h2) Q.
Proof. unfold drop_aux. rewrite Z.eqb_refl. done. Qed.
End dropping.

(** ** Concatenation *)

(** A NUL follows the characters. *)
Definition terminated (s : tagbstring) (buf : list Z) : Prop :=
  0 ≤ slen s < mlen s ∧ zget buf (slen s) = Some 0.

(** How an operation on [b] ends: an allocation has failed and nothing is changed,
    or it leaves [b], and nothing else, with content [c]. *)
Definition edited (h : bheap) (b B : Z) (c : list Z) (rh : Z * bheap) : Prop :=
  let '(r, h') := rh in
  r = BSTR_ERR ∧ out_of_memory h h' ∨
  r = BSTR_OK ∧ ∃ s' B' buf', upd h b B h' s' B' buf' ∧ terminated s' buf' ∧ content s' buf' = c.

Lemma edited_err (h h' : bheap) b B c : out_of_memory h h' → returns ((mret BSTR_ERR : BM Z) h') (edited h b B c).
Proof. intros. by left. Qed.

Lemma edited_ok h b B h' s' B' buf' c :
  upd h b B h' s' B' buf' → terminated s' buf' → content s' buf' = c →
  returns ((mret BSTR_OK : BM Z) h') (edited h b B c).
Proof. intros. right. split; [done|]. by exists s', B', buf'. Qed.

Lemma content_append buf d xs total :
  0 ≤ d → total = d + zlen xs → total < zlen buf →
  take (Z.to_nat total) (zwrite (zwrite buf d xs) total [u8 0]) = take (Z.to_nat d) buf ++ xs ∧
  zget (zwrite (zwrite buf d xs) total [u8 0]) total = Some 0.
Proof.
  intros Hd -> Hlt. pose proof (zlen_nonneg xs). split.
  - rewrite zwrite_take by (rewrite ?zlen_zwrite; lia). unfold zwrite. rewrite app_assoc.
    rewrite take_app_le by (rewrite length_app, length_take; unfold zlen in *; lia).
    apply take_ge. rewrite length_app, length_take. unfold zlen in *. lia.
  - replace (d + zlen xs) with (d + zlen xs + 0) at 2 by lia.
    rewrite zget_zwrite_in; [done|lia| |change (zlen [u8 0]) with 1; lia].
    rewrite zlen_zwrite by lia. change (zlen [u8 0]) with 1. lia.
Qed.

(** The end of [bconcat]: copying the operand behind the characters. *)
Lemma step_concat_tail h b0 B0 h1 s' B' buf' (aux : Z) sa Y oy len (K : BM Z) (Q : Z * bheap → Prop) d :
  upd h b0 B0 h1 s' B' buf' → structs h1 !! aux = Some sa → data sa = Some (Y, oy) →
  d = slen s' → 0 ≤ d → 0 ≤ len → d + len < mlen s' →
  ∀ xs, zlen xs = len → (len = 0 ∨ ∃ bY, blocks h1 !! Y = Some bY ∧ 0 ≤ oy ∧ oy + len ≤ zlen bY ∧ zslice bY oy len = xs) →
  (∀ h2 s2 buf2, upd h b0 B0 h2 s2 B' buf2 → terminated s2 buf2 →
     content s2 buf2 = content s' buf' ++ xs → returns (K h2) Q) →
  ∀ err, returns (with_data s' err (λ d0, with_data sa err (λ da,
    bBlockCopy (padd d0 d) da len;;
    write_byte (padd d0 (d + len)) 0;;
    t0 ← deref b0;
    put b0 (mkB (mlen t0) (d + len) (data t0));;
    K)) h1) Q.
Proof.
  intros Hu Ha Hda Hd Hd0 Hlen Hfit xs Hxs Hsrc HK err. unfold with_data.
  rewrite (u_data _ _ _ _ _ _ _ Hu), Hda. pose proof (u_mlen _ _ _ _ _ _ _ Hu) as Hm.
  assert (∀ h2, upd h b0 B0 h2 s' B' (zwrite buf' d xs) →
    returns ((write_byte (padd (B', 0) (d + len)) 0;; t0 ← deref b0;
      put b0 (mkB (mlen t0) (d + len) (data t0));; K) h2) Q) as Hrest.
  { intros h2 Hu2. eapply step_write_byte; [exact Hu2|lia|]. intros h3 Hu3.
    eapply step_deref_upd; [exact Hu3|]. eapply step_put; [exact Hu3|done|done|]. intros h4 Hu4.
    destruct (content_append buf' d xs (d + len)) as [Hc Hz]; [lia|lia|lia|].
    eapply HK; [exact Hu4| |].
    - split; [cbn; lia|exact Hz].
    - unfold content. cbn [slen]. rewrite <-Hd. exact Hc. }
  destruct (decide (len = 0)) as [->|Hne].
  - assert (xs = []) as -> by (destruct xs; [done|]; rewrite zlen_cons in Hxs; pose proof (zlen_nonneg xs); lia).
    apply step_ret. apply Hrest. by rewrite zwrite_nil.
  - destruct Hsrc as [?|(bY & HbY & Hoy & Hoy2 & Hsl)]; [done|].
    eapply step_bBlockCopy with (bx := bY); [exact Hu|exact HbY|lia..|]. intros h2 Hu2.
    apply Hrest. by rewrite <-Hsl.
Qed.

(** C11. Appending a string appends its characters, also when the operand is
    the string itself or a slice of its buffer that a reallocation would move:
    only the target's header and block change and no copy is left behind. BSTR_ERR
    means that an allocation has failed, and then nothing has changed at all. The
    buffer has at most INT_MAX / 8 bytes: balloc multiplies the sizes by 7 and 8. *)
Theorem bconcat_correct h b0 s0 B0 buf0 b1 s1 X o bx c1 :
  heap_ok h → writable h b0 s0 B0 buf0 → readable h b1 s1 X o bx c1 →
  (X = B0 → o < mlen s0) → slen s0 + slen s1 < INT_MAX → 8 * mlen s0 ≤ INT_MAX →
  returns (bconcat b0 b1 h) (edited h b0 B0 (content s0 buf0 ++ c1)).
Proof.
  intros OK W R Halias Hmax Hsmall. pose proof W as [Hs0 Hd0 Hb0 Hm0 Hl0]. pose proof R as [Hs1 Hd1 Hb1 Hl1 [Ho Hol] Hc1].
  assert (b1 ≠ 0) as Hb1nz by (intros ->; rewrite (ok_null _ OK) in Hs1; done).
  pose proof (b_nonnull _ _ _ _ _ OK W) as Hb0nz. pose proof (readable_len _ _ _ _ _ _ _ R) as Hlc.
  unfold bconcat. rewrite (proj2 (Z.eqb_neq b0 0)), (proj2 (Z.eqb_neq b1 0)) by done. cbn [orb].
  eapply step_deref; [done|]. eapply step_deref; [done|]. unfold with_data at 1 2. rewrite Hd0, Hd1.
  eapply step_lift; [apply cint_ok; int_lia|]. eapply step_lift; [apply cint_ok; int_lia|].
  rewrite (proj2 (Z.ltb_ge (slen s0) 0)), (proj2 (Z.ltb_ge (mlen s0 - slen s0) 0)), (proj2 (Z.ltb_ge (slen s1) 0)),
    (proj2 (Z.ltb_ge (slen s0 + slen s1) 0)) by lia. cbn [orb].
  eapply step_lift; [apply cint_ok; int_lia|].
  destruct (mlen s0 <=? slen s0 + slen s1 + 1) eqn:Hgrow; propify.
  - apply step_assoc. destruct (points_into (X, o) (B0, 0) (mlen s0)) eqn:Hpt.
    + (* through a copy *)
      eapply step_bstrcpy; [done|exact R|lia| |].
      { intros h' Hsame. by apply step_ret, edited_err. }
      intros ha a sa Y new Hcp Hsla. pose proof Hcp as [Esa Eba (Hfa & Hfy & Ha0) Hda [Hla Hma] Hca OKa].
      rewrite (proj2 (Z.eqb_neq a 0)) by done. assert (a ≠ b1) as Hab1 by congruence.
      assert (writable ha b0 s0 B0 buf0) as Wa.
      { split; try done; [rewrite Esa, lookup_insert_ne; congruence|rewrite Eba, lookup_insert_ne; congruence]. }
      apply step_assoc. eapply step_balloc; [done|exact Wa|int_lia|done| |].
      * intros h' Hsame. cbn [Z.eqb negb BSTR_ERR BSTR_OK]. apply step_assoc.
        eapply step_drop_same; [done..|]. intros h3 Hsame3. by apply step_ret, edited_err.
      * intros h' s' B' buf' Hu Hs' Hge _ Hc. cbn [Z.eqb negb BSTR_OK]. apply step_ret.
        rewrite (proj2 (Z.eqb_neq a 0)) by done.
        eapply step_deref_upd; [exact Hu|]. destruct (upd_frame _ _ _ _ _ _ _ Hu) as [Hfs Hfb].
        assert (structs h' !! a = Some sa) as Ha.
        { rewrite Hfs by congruence. rewrite Esa. apply lookup_insert_eq. }
        eapply step_deref; [exact Ha|].
        eapply step_concat_tail with (xs := c1); [exact Hu|exact Ha|exact Hda|done|lia|lia|lia|done| |].
        { right. exists new. split_and!; [|lia|lia|].
          - apply Hfb; [congruence|]. rewrite Eba. apply lookup_insert_eq.
          - rewrite <-Hca. unfold content, zslice. change (Z.to_nat 0) with O. rewrite drop_0. by rewrite Hsla. }
        intros h2 s2 buf2 Hu2 Ht2 Hc2. eapply step_drop_upd; [exact Hcp|exact Hs0|exact Hb0|done|exact Hu2|].
        intros h3 Hu3. eapply edited_ok; [exact Hu3|done|by rewrite Hc2, Hc].
    + (* directly *)
      apply step_ret. rewrite (proj2 (Z.eqb_neq b1 0)) by done. apply step_assoc.
      eapply step_balloc; [done|exact W|int_lia|done| |].
      * intros h' Hsame. cbn [Z.eqb negb BSTR_ERR BSTR_OK]. apply step_assoc, step_drop_self, step_ret. by apply edited_err.
      * intros h' s' B' buf' Hu Hs' Hge _ Hc. cbn [Z.eqb negb BSTR_OK]. apply step_ret.
        rewrite (proj2 (Z.eqb_neq b1 0)) by done.
        assert (X ≠ B0) as HX.
        { intros ->. unfold points_into in Hpt. cbn [fst snd] in Hpt. rewrite Z.eqb_refl in Hpt.
          specialize (Halias eq_refl). cbn [andb] in Hpt. propify. destruct Hpt; propify; lia. }
        eapply step_deref_upd; [exact Hu|]. destruct (upd_frame _ _ _ _ _ _ _ Hu) as [Hfs Hfb].
        assert (structs h' !! b1 = Some s1) as Ha by (rewrite Hfs; congruence).
        eapply step_deref; [exact Ha|].
        eapply step_concat_tail with (xs := c1); [exact Hu|exact Ha|exact Hd1|done|lia|lia|lia|done| |].
        { right. exists bx. split_and!; [by apply Hfb|lia|lia|done]. }
        intros h2 s2 buf2 Hu2 Ht2 Hc2. apply step_drop_self.
        eapply edited_ok; [exact Hu2|done|by rewrite Hc2, Hc].
  - apply step_ret. rewrite (proj2 (Z.eqb_neq b1 0)) by done.
    pose proof (upd_refl _ _ _ _ _ OK W) as Hu.
    eapply step_deref; [done|]. eapply step_deref; [done|].
    eapply step_concat_tail with (xs := c1); [exact Hu|exact Hs1|exact Hd1|done|lia|lia|lia|done| |].
    { right. exists bx. by split_and!. }
    intros h2 s2 buf2 Hu2 Ht2 Hc2. apply step_drop_self. by eapply edited_ok.
Qed.

(** ** Deletion *)

Lemma zslice_content s buf e :
  0 ≤ e ≤ slen s → zlen buf = mlen s → slen s ≤ mlen s →
  zslice buf e (slen s - e) = drop (Z.to_nat e) (content s buf).
Proof.
  intros He Hm Hs. unfold zslice, content. rewrite take_drop_commute. f_equal. f_equal. lia.
Qed.

Lemma zlen_content s buf : 0 ≤ slen s ≤ zlen buf → zlen (content s buf) = slen s.
Proof. intros. apply zlen_take. lia. Qed.

(** Removal of [len] characters from [pos] on, clamped to the string. *)
Definition remove_section (pos len : Z) (c : list Z) : list Z :=
  take (Z.to_nat pos) c ++ drop (Z.to_nat (pos + len)) c.

Lemma step_bdelete {A} h b B h1 s1 B1 buf1 pos len (k : Z → BM A) (Q : A * bheap → Prop) :
  structs h !! 0 = None → b ≠ 0 →
  upd h b B h1 s1 B1 buf1 → terminated s1 buf1 → 0 ≤ pos → 0 ≤ len → pos + len ≤ INT_MAX →
  (∀ h2 s2 buf2, upd h b B h2 s2 B1 buf2 → terminated s2 buf2 →
     content s2 buf2 = remove_section pos len (content s1 buf1) → returns (k BSTR_OK h2) Q) →
  returns ((bdelete b pos len ≫= k) h1) Q.
Proof.
  intros H0 Hb Hu [Hl Hz] Hpos Hlen Hmax Hk. pose proof (u_mlen _ _ _ _ _ _ _ Hu) as Hm.
  unfold bdelete. apply step_assoc. rewrite (proj2 (Z.ltb_ge pos 0)) by done. apply step_ret.
  rewrite (proj2 (Z.ltb_ge len 0)), (proj2 (Z.eqb_neq b 0)) by done. cbn [orb].
  apply step_assoc. eapply step_deref_upd; [exact Hu|]. unfold with_data.
  rewrite (u_data _ _ _ _ _ _ _ Hu). unfold unwritable.
  rewrite (proj2 (Z.ltb_ge (slen s1) 0)), (proj2 (Z.ltb_ge (mlen s1) (slen s1))),
    (proj2 (Z.leb_gt (mlen s1) 0)) by lia. cbn [orb].
  pose proof (zlen_content s1 buf1 ltac:(lia)) as Hcl.
  destruct ((0 <? len) && (pos <? slen s1)) eqn:Hact.
  2: { apply step_ret. eapply Hk; [exact Hu|done|]. unfold remove_section.
       apply andb_false_iff in Hact as [?|?]; propify.
       - replace (pos + len) with pos by lia. by rewrite take_drop.
       - rewrite take_ge, drop_ge by (unfold zlen in Hcl; lia). by rewrite app_nil_r. }
  propify. apply step_assoc. eapply step_lift; [apply cint_ok; int_lia|].
  assert (∀ h2 buf2 n xs, upd h b B h2 s1 B1 buf2 → buf2 = zwrite buf1 pos xs → n = pos + zlen xs →
    n ≤ slen s1 → take (Z.to_nat pos) (content s1 buf1) ++ xs = remove_section pos len (content s1 buf1) →
    returns (((put b (mkB (mlen s1) n (Some (B1, 0)));; write_byte (padd (B1, 0) n) 0;; mret BSTR_OK) ≫= k) h2) Q) as Hrest.
  { intros h2 buf2 n xs Hu2 -> Hn Hnl Hxs. apply step_assoc. pose proof (zlen_nonneg xs).
    eapply step_put; [exact Hu2|done|by rewrite (u_data _ _ _ _ _ _ _ Hu2)|]. intros h3 Hu3. apply step_assoc.
    eapply step_write_byte; [exact Hu3|cbn; lia|]. intros h4 Hu4. apply step_ret.
    destruct (content_append buf1 pos xs n) as [Hc Hz']; [lia|lia|lia|].
    eapply Hk; [exact Hu4|split; [cbn; lia|exact Hz']|].
    rewrite <-Hxs. unfold content at 1. cbn [slen]. rewrite Hc. unfold content. rewrite take_take.
    do 2 f_equal. lia. }
  destruct (slen s1 <=? pos + len) eqn:He; propify.
  - apply step_assoc, step_ret. eapply (Hrest h1 buf1 pos []); [exact Hu|by rewrite zwrite_nil|
      change (zlen (@nil Z)) with 0; lia|lia|].
    unfold remove_section. rewrite (drop_ge _ (Z.to_nat (pos + len))) by (unfold zlen in Hcl; lia). done.
  - apply step_assoc, step_assoc. change (padd (B1, 0) (pos + len)) with (B1, 0 + (pos + len)). rewrite Z.add_0_l.
    eapply step_bBlockCopy with (bx := buf1); [exact Hu| |lia..|].
    { destruct Hu as [_ Eb _ _ _ _]. rewrite Eb. apply lookup_insert_eq. }
    intros h2 Hu2. apply step_ret. rewrite zslice_content in Hu2 by lia.
    eapply Hrest; [exact Hu2|done| |lia|done].
    rewrite zlen_drop by lia. lia.
Qed.

(** [bdelete] removes exactly the part of the section that lies
    inside the string, in place; a negative position shortens the section, and a
    section that is then negative is an error that changes nothing. *)
Theorem bdelete_correct h b s B buf pos len :
  heap_ok h → writable h b s B buf → terminated s buf →
  INT_MIN ≤ len + Z.min pos 0 → len ≤ INT_MAX → Z.max pos 0 + len ≤ INT_MAX →
  let len' := len + Z.min pos 0 in
  if len' <? 0 then bdelete b pos len h = Done (BSTR_ERR, h)
  else returns (bdelete b pos len h) (λ '(r, h'), r = BSTR_OK ∧
    edited h b B (remove_section (Z.max pos 0) len' (content s buf)) (r, h')).
Proof.
  intros OK W T Hmin Hlen Hmax len'. subst len'. pose proof (b_nonnull _ _ _ _ _ OK W) as Hb.
  assert (∀ p l, 0 ≤ p → 0 ≤ l → p + l ≤ INT_MAX → returns (bdelete b p l h) (λ '(r, h'), r = BSTR_OK ∧
    edited h b B (remove_section p l (content s buf)) (r, h'))) as Hmain.
  { intros p l Hp Hl Hpl. rewrite <-(M_bind_ret_r (bdelete b p l)).
    eapply step_bdelete; [exact (ok_null _ OK)|done|by apply upd_refl|done|done|done|done|].
    intros h2 s2 buf2 Hu2 Ht2 Hc2. split; [done|]. by eapply edited_ok. }
  destruct (len + Z.min pos 0 <? 0) eqn:E; propify.
  - unfold bdelete. destruct (pos <? 0) eqn:Hp; propify.
    + unfold mbind at 1, M_bind at 1, icint, lift. rewrite cint_ok by int_lia. cbn [mbind res_bind mret res_ret].
      replace (len + pos) with (len + Z.min pos 0) by lia.
      by rewrite (proj2 (Z.ltb_lt (len + Z.min pos 0) 0)) by lia.
    + unfold mbind at 1, M_bind at 1. cbn [mret M_ret mbind res_bind].
      by rewrite (proj2 (Z.ltb_lt len 0)) by lia.
  - destruct (decide (pos < 0)).
    + assert (bdelete b pos len h = bdelete b 0 (len + pos) h) as ->.
      { unfold bdelete. rewrite (proj2 (Z.ltb_lt pos 0)) by lia. change (0 <? 0) with false. cbv iota.
        unfold mbind at 1, M_bind at 1, icint, lift. rewrite cint_ok by int_lia. done. }
      replace (Z.max pos 0) with 0 by lia. replace (len + Z.min pos 0) with (len + pos) by lia.
      apply Hmain; int_lia.
    + replace (Z.max pos 0) with pos in * by lia. replace (len + Z.min pos 0) with len by lia.
      apply Hmain; lia.
Qed.

(** * Witnesses *)

(** One string, "abc" in a buffer of four bytes. *)
Definition sample_string : tagbstring := mkB 4 3 (Some (2, 0)).
Definition sample_buffer : list Z := [97; 98; 99; 0].
Definition sample_heap : bheap :=
  mkHeap {[1 := sample_string]} {[2 := sample_buffer]} 3 [] 205.

Lemma sample_heap_ok : heap_ok sample_heap.
Proof.
  split; cbn; [lia| | |done]; intros a Ha; rewrite lookup_singleton_ne by lia; done.
Qed.

Lemma sample_writable : writable sample_heap 1 sample_string 2 sample_buffer.
Proof. split; try done; cbn; try lia. Qed.

Lemma bconcat_correct_witness :
  returns (bconcat 1 1 sample_heap) (edited sample_heap 1 2 [97; 98; 99; 97; 98; 99]).
Proof.
  apply (bconcat_correct sample_heap 1 sample_string 2 sample_buffer 1 sample_string 2 0 sample_buffer
    [97; 98; 99]).
  - apply sample_heap_ok.
  - apply sample_writable.
  - apply (writable_readable _ _ _ _ _ sample_writable).
  - reflexivity.
  - reflexivity.
  - by vm_compute.
Defined.

Lemma bdelete_correct_witness :
  returns (bdelete 1 (-1) 3 sample_heap) (λ '(r, h'), r = BSTR_OK ∧
    edited sample_heap 1 2 [99] (r, h')).
Proof.
  apply (bdelete_correct sample_heap 1 sample_string 2 sample_buffer (-1) 3).
  - apply sample_heap_ok.
  - apply sample_writable.
  - split; [cbn; lia|reflexivity].
  - by vm_compute.
  - by vm_compute.
  - by vm_compute.
Defined.
