(* ===== verification/BstrSearch.v ===== *)
(** libs/bstrlib/bstrlib.c, the operations that only look at strings:
    comparison, with and without case, searching for strings and for characters
    of a set. They read the headers and bytes of the heap and leave it as it is;
    the loops work on a view of the bytes behind a [data] pointer. *)
From S2P Require Import Prelude CMemory Bstrlib.

(** * Code *)

(** The bytes from [p] to the end of its block. *)
Definition view (p : ptr) : BM (list Z) := λ h,
  match blocks h !! p.1 with
  | Some buf => if (0 <=? p.2) && (p.2 <=? zlen buf) then Done (drop (Z.to_nat p.2) buf, h) else Undef
  | None => Undef
  end.

(** A string operand that passed the checks for NULL and for a negative length. *)
Record operand := mkOp { op_data : ptr; op_len : Z; op_bytes : list Z }.

Definition operand_of (b : Z) : BM (option operand) :=
  if b =? 0 then mret None else
  s ← deref b;
  match data s with
  | None => mret None
  | Some d => if slen s <? 0 then mret None else v ← view d; mret (Some (mkOp d (slen s) v))
  end.

Definition with_operand (b err : Z) (k : operand → BM Z) : BM Z :=
  o ← operand_of b; match o with Some o => k o | None => mret err end.

(** A block operand [(blk, len)], NULL and negative lengths rejected. *)
Definition with_block (blk : option ptr) (len err : Z) (k : ptr → list Z → BM Z) : BM Z :=
  match blk with
  | None => mret err
  | Some p => if len <? 0 then mret err else v ← view p; k p v
  end.

Definition same_ptr (p q : ptr) : bool := (p.1 =? q.1) && (p.2 =? q.2).

(** A loop of [n] iterations from [i] on, by steps of [di], that may return early. *)
Fixpoint scan (n : nat) (di i : Z) (step : Z → res (option Z)) : res (option Z) :=
  match n with
  | O => mret None
  | S n =>
      r ← step i;
      match r with Some r => mret (Some r) | None => scan n di (i + di) step end
  end.

(** [scan], then the value returned after the loop. *)
Definition scan_or (n : Z) (di i : Z) (step : Z → res (option Z)) (dflt : Z) : res Z :=
  r ← scan (Z.to_nat n) di i step; mret (default dflt r).

Definition SHRT_MIN : Z := -32768.
Definition UCHAR_MAX : Z := 255.

(** [toupper], [tolower] of the C locale on an [unsigned char]. *)
Definition upcase (c : Z) : Z := if (97 <=? c) && (c <=? 122) then c - 32 else c.
Definition downcase (c : Z) : Z := if (65 <=? c) && (c <=? 90) then c + 32 else c.

(** [(char) c] *)
Definition schar (c : Z) : Z := sext 8 c.

(** ** Case conversion in place *)

Fixpoint map_bytes (f : Z → Z) (d : ptr) (n : nat) (i : Z) : BM unit :=
  match n with
  | O => mret ()
  | S n => c ← read_byte (padd d i); write_byte (padd d i) (f c);; map_bytes f d n (i + 1)
  end.

Definition change_case (f : Z → Z) (b : Z) : BM Z :=
  if b =? 0 then mret BSTR_ERR else
  s ← deref b;
  with_data s BSTR_ERR (λ d,
  if unwritable s then mret BSTR_ERR
  else map_bytes f d (Z.to_nat (slen s)) 0;; mret BSTR_OK).

Definition btoupper : Z → BM Z := change_case upcase.
Definition btolower : Z → BM Z := change_case downcase.

(** ** Comparison *)

Definition bstricmp (b0 b1 : Z) : BM Z :=
  with_operand b0 SHRT_MIN (λ o0, with_operand b1 SHRT_MIN (λ o1,
  let n := Z.min (op_len o0) (op_len o1) in
  if (op_len o0 =? op_len o1) && same_ptr (op_data o0) (op_data o1) then mret BSTR_OK else
  lift (r ← scan (Z.to_nat n) 1 0 (λ i,
          x ← load (op_bytes o0) i; y ← load (op_bytes o1) i;
          let v := schar (downcase x) - schar (downcase y) in
          mret (if negb (v =? 0) then Some v else None));
        match r with
        | Some v => mret v
        | None =>
            if n <? op_len o0 then
              x ← load (op_bytes o0) n;
              let v := schar (downcase x) in
              mret (if negb (v =? 0) then v else UCHAR_MAX + 1)
            else if n <? op_len o1 then
              y ← load (op_bytes o1) n;
              let v := - schar (downcase y) in
              mret (if negb (v =? 0) then v else - (UCHAR_MAX + 1))
            else mret BSTR_OK
        end))).

Definition bstrnicmp (b0 b1 n : Z) : BM Z :=
  with_operand b0 SHRT_MIN (λ o0, with_operand b1 SHRT_MIN (λ o1,
  if n <? 0 then mret SHRT_MIN else
  let m := Z.min (Z.min n (op_len o0)) (op_len o1) in
  lift (r ← (if negb (same_ptr (op_data o0) (op_data o1)) then
               scan (Z.to_nat m) 1 0 (λ i,
                 x ← load (op_bytes o0) i; y ← load (op_bytes o1) i;
                 let v := schar (downcase x) - schar (downcase y) in
                 mret (if negb (v =? 0) then Some (x - y) else None))
             else mret None);
        match r with
        | Some v => mret v
        | None =>
            if (n =? m) || (op_len o0 =? op_len o1) then mret BSTR_OK
            else if m <? op_len o0 then
              x ← load (op_bytes o0) m;
              let v := schar (downcase x) in
              mret (if negb (v =? 0) then v else UCHAR_MAX + 1)
            else
              y ← load (op_bytes o1) m;
              let v := - schar (downcase y) in
              mret (if negb (v =? 0) then v else - (UCHAR_MAX + 1))
        end))).

Definition biseqcaselessblk (b : Z) (blk : option ptr) (len : Z) : BM Z :=
  with_operand b BSTR_ERR (λ o, with_block blk len BSTR_ERR (λ p v,
  if negb (op_len o =? len) then mret 0
  else if (len =? 0) || same_ptr (op_data o) p then mret 1
  else lift (scan_or len 1 0 (λ i,
         x ← load (op_bytes o) i; y ← load v i;
         mret (if negb (x =? y) && negb (downcase x =? downcase y) then Some 0 else None)) 1))).

Definition biseqcaseless (b0 b1 : Z) : BM Z :=
  if b1 =? 0 then mret BSTR_ERR else
  s1 ← deref b1; biseqcaselessblk b0 (data s1) (slen s1).

Definition bisstemeqcaselessblk (b0 : Z) (blk : option ptr) (len : Z) : BM Z :=
  with_operand b0 BSTR_ERR (λ o, with_block blk len BSTR_ERR (λ p v,
  if op_len o <? len then mret BSTR_OK
  else if same_ptr (op_data o) p || (len =? 0) then mret 1
  else lift (scan_or len 1 0 (λ i,
         x ← load (op_bytes o) i; y ← load v i;
         mret (if negb (x =? y) && negb (downcase x =? downcase y) then Some 0 else None)) 1))).

(** [memcmp (p, q, n) == 0] *)
Definition memcmp_eq (p q : ptr) (n : Z) : BM bool :=
  xs ← load_bytes p n; ys ← load_bytes q n; mret (bool_decide (xs = ys)).

Definition biseqblk (b : Z) (blk : option ptr) (len : Z) : BM Z :=
  with_operand b BSTR_ERR (λ o, with_block blk len BSTR_ERR (λ p _,
  if negb (op_len o =? len) then mret 0
  else if (len =? 0) || same_ptr (op_data o) p then mret 1
  else e ← memcmp_eq (op_data o) p len; mret (if (e : bool) then 1 else 0))).

Definition biseq (b0 b1 : Z) : BM Z :=
  with_operand b0 BSTR_ERR (λ o0, with_operand b1 BSTR_ERR (λ o1,
  if negb (op_len o0 =? op_len o1) then mret BSTR_OK
  else if same_ptr (op_data o0) (op_data o1) || (op_len o0 =? 0) then mret 1
  else e ← memcmp_eq (op_data o0) (op_data o1) (op_len o0); mret (if (e : bool) then 1 else 0))).

Definition bisstemeqblk (b0 : Z) (blk : option ptr) (len : Z) : BM Z :=
  with_operand b0 BSTR_ERR (λ o, with_block blk len BSTR_ERR (λ p v,
  if op_len o <? len then mret BSTR_OK
  else if same_ptr (op_data o) p || (len =? 0) then mret 1
  else lift (scan_or len 1 0 (λ i,
         x ← load (op_bytes o) i; y ← load v i;
         mret (if negb (x =? y) then Some BSTR_OK else None)) 1))).

(** Comparison with a C string: [same] compares two bytes. *)
Definition eqcstr (same : Z → Z → bool) (b : Z) (s : option ptr) : BM Z :=
  with_operand b BSTR_ERR (λ o,
  match s with
  | None => mret BSTR_ERR
  | Some s =>
      v ← view s;
      lift (r ← scan (Z.to_nat (op_len o)) 1 0 (λ i,
              y ← load v i;
              if y =? 0 then mret (Some BSTR_OK) else
              x ← load (op_bytes o) i; mret (if negb (same x y) then Some BSTR_OK else None));
            match r with
            | Some r => mret r
            | None => y ← load v (op_len o); mret (if y =? 0 then 1 else 0)
            end)
  end).

Definition biseqcstr : Z → option ptr → BM Z := eqcstr Z.eqb.
Definition biseqcstrcaseless : Z → option ptr → BM Z :=
  eqcstr (λ x y, (x =? y) || (downcase x =? downcase y)).

(** One step of [strcmp]: a difference, or the end of both at a NUL. *)
Definition cmp_step (o0 o1 : operand) (i : Z) : res (option Z) :=
  x ← load (op_bytes o0) i; y ← load (op_bytes o1) i;
  let v := schar x - schar y in
  mret (if negb (v =? 0) then Some v else if x =? 0 then Some BSTR_OK else None).

Definition bstrcmp (b0 b1 : Z) : BM Z :=
  with_operand b0 SHRT_MIN (λ o0, with_operand b1 SHRT_MIN (λ o1,
  let n := Z.min (op_len o0) (op_len o1) in
  if (op_len o0 =? op_len o1) && (same_ptr (op_data o0) (op_data o1) || (op_len o0 =? 0)) then mret BSTR_OK
  else lift (scan_or n 1 0 (cmp_step o0 o1)
         (if n <? op_len o0 then 1 else if n <? op_len o1 then -1 else BSTR_OK)))).

Definition bstrncmp (b0 b1 n : Z) : BM Z :=
  with_operand b0 SHRT_MIN (λ o0, with_operand b1 SHRT_MIN (λ o1,
  let m := Z.min (Z.min n (op_len o0)) (op_len o1) in
  let rest :=
    if (n =? m) || (op_len o0 =? op_len o1) then BSTR_OK else if m <? op_len o0 then 1 else -1 in
  if negb (same_ptr (op_data o0) (op_data o1)) then lift (scan_or m 1 0 (cmp_step o0 o1) rest)
  else mret rest)).

(** ** Searching for a string *)

(** The main loop of [binstr]: [i] is the position in [d1], [j] that of the test
    character [c1] in [d0], [ii] where the potential match began. *)
Fixpoint binstr_loop (fuel : nat) (d0 d1 : list Z) (ll lf c0 i j ii c1 : Z) : res Z :=
  match fuel with
  | O => OutOfFuel
  | S fuel =>
      (* no more characters to match: a match, or back to the beginning *)
      let N0 i j ii := if i =? ii + j then mret ii else binstr_loop fuel d0 d1 ll lf c0 (i - j) 0 ii c0 in
      (* a character matched at [i] *)
      let matched i :=
        let ii := if 0 =? j then i else ii in
        let j := j + 1 in let i := i + 1 in
        if j <? ll then c1 ← load d0 j; binstr_loop fuel d0 d1 ll lf c0 i j ii c1
        else N0 i j ii in
      if i <? lf then
        x ← load d1 i;
        if negb (c1 =? x) then
          y ← load d1 (1 + i);
          if negb (c1 =? y) then binstr_loop fuel d0 d1 ll lf c0 (i + 2) j ii c1
          else matched (i + 1)
        else matched i
      else if (i =? lf) && (ll =? j + 1) then
        x ← load d1 i;
        if c1 =? x then N0 i j ii else mret BSTR_ERR
      else mret BSTR_ERR
  end.

Definition binstr (b1 pos b2 : Z) : BM Z :=
  with_operand b1 BSTR_ERR (λ o1, with_operand b2 BSTR_ERR (λ o2,
  let n1 := op_len o1 in let ll := op_len o2 in
  if n1 =? pos then mret (if ll =? 0 then pos else BSTR_ERR)
  else if (n1 <? pos) || (pos <? 0) then mret BSTR_ERR
  else if ll =? 0 then mret pos
  else if n1 - ll + 1 <=? pos then mret BSTR_ERR
  else if same_ptr (op_data o1) (op_data o2) && (pos =? 0) then mret 0
  else lift (
    let d0 := op_bytes o2 in let d1 := op_bytes o1 in
    c0 ← load d0 0;
    if 1 =? ll then
      scan_or (n1 - ll + 1 - pos) 1 pos (λ i, x ← load d1 i; mret (if c0 =? x then Some i else None)) BSTR_ERR
    else binstr_loop (Z.to_nat ((n1 + 3) * (n1 + 3))) d0 d1 ll (n1 - 1) c0 pos 0 (-1) c0))).

(** The loop of the other searches: compare the strings at [i], character by
    character, then move [i] by [di] until [stop]. *)
Fixpoint match_loop (fuel : nat) (same : Z → Z → bool) (d0 d1 : list Z) (l di : Z) (stop : Z → bool)
    (i j : Z) : res Z :=
  match fuel with
  | O => OutOfFuel
  | S fuel =>
      x ← load d0 j; y ← load d1 (i + j);
      if same x y then
        if l <=? j + 1 then mret i else match_loop fuel same d0 d1 l di stop i (j + 1)
      else if stop (i + di) then mret BSTR_ERR
      else match_loop fuel same d0 d1 l di stop (i + di) 0
  end.

Definition search_fuel (n1 n2 : Z) : nat := Z.to_nat ((n1 + 2) * (n2 + 2)).

Definition search_backward (same : Z → Z → bool) (b1 pos b2 : Z) : BM Z :=
  with_operand b1 BSTR_ERR (λ o1, with_operand b2 BSTR_ERR (λ o2,
  let n1 := op_len o1 in let n2 := op_len o2 in
  if (n1 =? pos) && (n2 =? 0) then mret pos
  else if (n1 <? pos) || (pos <? 0) then mret BSTR_ERR
  else if n2 =? 0 then mret pos
  else if same_ptr (op_data o1) (op_data o2) && (pos =? 0) && (n2 <=? n1) then mret 0
  else
    let l := n1 - n2 in
    if l <? 0 then mret BSTR_ERR else
    let i := if l + 1 <=? pos then l else pos in
    lift (match_loop (search_fuel n1 n2) same (op_bytes o2) (op_bytes o1) n2 (-1) (λ i, i <? 0) i 0))).

Definition same_caseless (x y : Z) : bool := (x =? y) || (downcase x =? downcase y).

Definition binstrr : Z → Z → Z → BM Z := search_backward Z.eqb.
Definition binstrrcaseless : Z → Z → Z → BM Z := search_backward same_caseless.

Definition binstrcaseless (b1 pos b2 : Z) : BM Z :=
  with_operand b1 BSTR_ERR (λ o1, with_operand b2 BSTR_ERR (λ o2,
  let n1 := op_len o1 in let n2 := op_len o2 in
  if n1 =? pos then mret (if n2 =? 0 then pos else BSTR_ERR)
  else if (n1 <? pos) || (pos <? 0) then mret BSTR_ERR
  else if n2 =? 0 then mret pos
  else
    let l := n1 - n2 + 1 in
    if l <=? pos then mret BSTR_ERR
    else if same_ptr (op_data o1) (op_data o2) && (pos =? 0) then mret BSTR_OK
    else lift (match_loop (search_fuel n1 n2) same_caseless (op_bytes o2) (op_bytes o1) n2 1 (λ i, l <=? i) pos 0))).

(** ** Searching for characters *)

Definition bstrchrp (b c pos : Z) : BM Z :=
  if b =? 0 then mret BSTR_ERR else
  s ← deref b;
  with_data s BSTR_ERR (λ d,
  if (slen s <=? pos) || (pos <? 0) then mret BSTR_ERR else
  v ← view d;
  lift (scan_or (slen s - pos) 1 pos (λ i, x ← load v i; mret (if x =? u8 c then Some i else None)) BSTR_ERR)).

Definition bstrrchrp (b c pos : Z) : BM Z :=
  if b =? 0 then mret BSTR_ERR else
  s ← deref b;
  with_data s BSTR_ERR (λ d,
  if (slen s <=? pos) || (pos <? 0) then mret BSTR_ERR else
  v ← view d;
  lift (scan_or (pos + 1) (-1) pos (λ i, x ← load v i; mret (if x =? u8 c then Some i else None)) BSTR_ERR)).

(** A set of bytes: one bit for each, eight to a cell. *)
Definition LONG_LOG_BITS_QTY : Z := 3.
Definition LONG_BITS_QTY : Z := 8.
Definition CFCLEN : Z := 32.
Abbreviation charField := (list Z) (only parsing).

Definition testInCharField (cf : charField) (c : Z) : res bool :=
  x ← load cf (Z.shiftr c LONG_LOG_BITS_QTY);
  mret (negb (Z.land x (Z.shiftl 1 (Z.land c (LONG_BITS_QTY - 1))) =? 0)).

Definition setInCharField (cf : charField) (c : Z) : res charField :=
  let k := Z.shiftr c LONG_LOG_BITS_QTY in
  x ← load cf k;
  store cf k (Z.lor x (u8 (Z.shiftl 1 (Z.land c (LONG_BITS_QTY - 1))))).

Definition buildCharField (b : Z) : BM (option charField) :=
  if b =? 0 then mret None else
  s ← deref b;
  match data s with
  | None => mret None
  | Some d =>
      if slen s <=? 0 then mret None else
      v ← view d;
      cf ← lift (for_up 0 (slen s) (λ i cf, c ← load v i; setInCharField cf c)
                  (replicate (Z.to_nat CFCLEN) 0));
      mret (Some cf)
  end.

Definition invertCharField (cf : charField) : res charField :=
  for_up 0 CFCLEN (λ i cf, x ← load cf i; store cf i (u8 (Z.lnot x))) cf.

Definition binchrCF (data : list Z) (len pos : Z) (cf : charField) : res Z :=
  scan_or (len - pos) 1 pos (λ i,
    c ← load data i; t ← testInCharField cf c; mret (if (t : bool) then Some i else None)) BSTR_ERR.

Definition binchrrCF (data : list Z) (pos : Z) (cf : charField) : res Z :=
  scan_or (pos + 1) (-1) pos (λ i,
    c ← load data i; t ← testInCharField cf c; mret (if (t : bool) then Some i else None)) BSTR_ERR.

(** [b1->data[0]] *)
Definition first_byte (s : tagbstring) : BM Z :=
  match data s with None => undef | Some d => read_byte d end.

(** [binchr] looks at [b1->slen] before it checks [b1]. *)
Definition binchr (b0 pos b1 : Z) : BM Z :=
  if (pos <? 0) || (b0 =? 0) then mret BSTR_ERR else
  s0 ← deref b0;
  with_data s0 BSTR_ERR (λ d,
  if slen s0 <=? pos then mret BSTR_ERR else
  s1 ← deref b1;
  if 1 =? slen s1 then c ← first_byte s1; bstrchrp b0 c pos else
  chrs ← buildCharField b1;
  match chrs with
  | None => mret BSTR_ERR
  | Some cf => v ← view d; lift (binchrCF v (slen s0) pos cf)
  end).

Definition binchrr (b0 pos b1 : Z) : BM Z :=
  if (pos <? 0) || (b0 =? 0) then mret BSTR_ERR else
  s0 ← deref b0;
  with_data s0 BSTR_ERR (λ d,
  if (b1 =? 0) || (slen s0 <? pos) then mret BSTR_ERR else
  let pos := if pos =? slen s0 then pos - 1 else pos in
  s1 ← deref b1;
  if 1 =? slen s1 then c ← first_byte s1; bstrrchrp b0 c pos else
  chrs ← buildCharField b1;
  match chrs with
  | None => mret BSTR_ERR
  | Some cf => v ← view d; lift (binchrrCF v pos cf)
  end).

Definition bninchr (b0 pos b1 : Z) : BM Z :=
  if (pos <? 0) || (b0 =? 0) then mret BSTR_ERR else
  s0 ← deref b0;
  with_data s0 BSTR_ERR (λ d,
  if slen s0 <=? pos then mret BSTR_ERR else
  chrs ← buildCharField b1;
  match chrs with
  | None => mret BSTR_ERR
  | Some cf => cf ← lift (invertCharField cf); v ← view d; lift (binchrCF v (slen s0) pos cf)
  end).

Definition bninchrr (b0 pos b1 : Z) : BM Z :=
  if (pos <? 0) || (b0 =? 0) then mret BSTR_ERR else
  s0 ← deref b0;
  with_data s0 BSTR_ERR (λ d,
  if slen s0 <? pos then mret BSTR_ERR else
  let pos := if pos =? slen s0 then pos - 1 else pos in
  chrs ← buildCharField b1;
  match chrs with
  | None => mret BSTR_ERR
  | Some cf => cf ← lift (invertCharField cf); v ← view d; lift (binchrrCF v pos cf)
  end).

(** * Reading operands *)

(** What a view shows of the characters [c]. *)
Definition shows (v c : list Z) : Prop := zlen c ≤ zlen v ∧ ∀ i, 0 ≤ i < zlen c → zget v i = zget c i.

Lemma shows_load v c i x : shows v c → zget c i = Some x → load v i = Done x.
Proof.
  intros [_ Hv] Hx. apply load_ok. rewrite Hv; [done|]. by eapply zget_Some_range.
Qed.

Section operands.
Context {A : Type} (h : bheap) (b : Z) (s : tagbstring) (X o : Z) (bx c : list Z).
Context (OK : heap_ok h) (R : readable h b s X o bx c).

Let v := drop (Z.to_nat o) bx.

Lemma readable_shows : shows v c.
Proof using R.
  destruct R as [_ _ _ Hl [Ho Hr] ->]. unfold shows. rewrite zlen_zslice by lia. split.
  - unfold v. rewrite zlen_drop by lia. lia.
  - intros i Hi. rewrite zget_zslice by lia. unfold v. by rewrite zget_drop by lia.
Qed.

Lemma readable_nonnull : b ≠ 0.
Proof using OK R. intros ->. destruct R. rewrite (ok_null _ OK) in r_struct. done. Qed.

Lemma view_readable : view (X, o) h = Done (v, h).
Proof using R.
  destruct R as [_ _ Hb _ [? ?] _]. unfold view. cbn [fst snd]. rewrite Hb.
  pose proof R as [_ _ _ ? _ _]. destruct ((0 <=? o) && (o <=? zlen bx)) eqn:E; [done|].
  propify. destruct E; propify; lia.
Qed.

Lemma with_operand_ok err (k : operand → BM Z) :
  with_operand b err k h = k (mkOp (X, o) (slen s) v) h.
Proof using OK R.
  unfold with_operand, operand_of. rewrite (proj2 (Z.eqb_neq b 0)) by apply readable_nonnull.
  pose proof R as [Hs Hd _ Hl _ _]. unfold mbind at 1 2, M_bind at 1 2. rewrite (deref_ok _ s) by done.
  cbn [mbind res_bind]. rewrite Hd. rewrite (proj2 (Z.ltb_ge (slen s) 0)) by lia.
  rewrite (M_bind_eq (view _)), view_readable. done.
Qed.
End operands.

(** * Searching for a string *)

(** [d0], [ll] characters long, occurs at [p] in the first [n1] characters of [d1]. *)
Definition occurs_at (d0 : list Z) (ll : Z) (d1 : list Z) (n1 p : Z) : Prop :=
  0 ≤ p ∧ p + ll ≤ n1 ∧ ∀ k, 0 ≤ k < ll → zget d1 (p + k) = zget d0 k.

(** [r] is the least position from [pos] on where [P] holds, or -1. *)
Definition first_from (P : Z → Prop) (pos r : Z) : Prop :=
  r = BSTR_ERR ∧ (∀ p, pos ≤ p → ¬ P p) ∨ pos ≤ r ∧ P r ∧ ∀ p, pos ≤ p → P p → r ≤ p.

Lemma binstr_loop_spec d0 d1 ll n1 pos c0 fuel base i j ii c1 :
  2 ≤ ll ≤ zlen d0 → 0 ≤ n1 ≤ zlen d1 → zget d0 0 = Some c0 → 0 ≤ pos ≤ base →
  0 ≤ j < ll → zget d0 j = Some c1 → base + j ≤ i ≤ n1 →
  (0 < j → base ≤ ii ∧ ii + j ≤ i ∧ (i = ii + j → ∀ k, 0 ≤ k < j → zget d1 (ii + k) = zget d0 k)) →
  (∀ p, pos ≤ p → occurs_at d0 ll d1 n1 p → i ≤ p + j) →
  (n1 + 1 - base) * (n1 + 3) + (n1 + 1 - i) < Z.of_nat fuel →
  returns (binstr_loop fuel d0 d1 ll (n1 - 1) c0 i j ii c1) (first_from (occurs_at d0 ll d1 n1) pos).
Proof.
  intros Hll Hn1 Hc0. revert base i j ii c1.
  induction fuel as [|fuel IH]; intros base i j ii c1 Hpos Hj Hc1 Hi Hpre Hocc Hfuel; [nia|].
  cbn [binstr_loop].
  assert (∀ i' j' ii', 0 < j' ≤ ll → base ≤ ii' → ii' + j' ≤ i' ≤ n1 → i ≤ n1 →
    (∀ p, pos ≤ p → occurs_at d0 ll d1 n1 p → i' ≤ p + j') →
    (i' = ii' + j' → occurs_at d0 ll d1 n1 ii') →
    returns (if i' =? ii' + j' then mret ii'
             else binstr_loop fuel d0 d1 ll (n1 - 1) c0 (i' - j') 0 ii' c0)
      (first_from (occurs_at d0 ll d1 n1) pos)) as HN0.
  { intros i' j' ii' Hj' Hb Hii' _ Hocc' Heq. destruct (i' =? ii' + j') eqn:E; propify.
    - cbn. right. split_and!; [lia|by apply Heq|]. intros p Hp Hop. specialize (Hocc' p Hp Hop). lia.
    - eapply (IH (i' - j')); [lia|lia|done|lia|lia| |nia].
      intros p Hp Hop. specialize (Hocc' p Hp Hop). lia. }
  assert (∀ i', i ≤ i' < n1 → zget d1 i' = Some c1 →
    (∀ p, pos ≤ p → occurs_at d0 ll d1 n1 p → i' ≤ p + j) →
    returns (if j + 1 <? ll
             then c1 ← load d0 (j + 1); binstr_loop fuel d0 d1 ll (n1 - 1) c0 (i' + 1) (j + 1) (if 0 =? j then i' else ii) c1
             else if i' + 1 =? (if 0 =? j then i' else ii) + (j + 1) then mret (if 0 =? j then i' else ii)
                  else binstr_loop fuel d0 d1 ll (n1 - 1) c0 (i' + 1 - (j + 1)) 0 (if 0 =? j then i' else ii) c0)
      (first_from (occurs_at d0 ll d1 n1) pos)) as Hmatched.
  { intros i' Hi' Hx Hocc'. set (ii' := if 0 =? j then i' else ii).
    assert (base ≤ ii' ∧ ii' + (j + 1) ≤ i' + 1 ∧ (i' + 1 = ii' + (j + 1) →
      ∀ k, 0 ≤ k < j + 1 → zget d1 (ii' + k) = zget d0 k)) as (Hb & Hle & Hp).
    { unfold ii'. destruct (0 =? j) eqn:E; propify.
      - subst j. split_and!; [lia|lia|]. intros _ k Hk. replace k with 0 by lia. rewrite Z.add_0_r. congruence.
      - destruct (Hpre ltac:(lia)) as (? & ? & Hp). split_and!; [lia|lia|]. intros Heq k Hk.
        destruct (decide (k = j)) as [->|]; [|apply Hp; lia].
        replace (ii + j) with i' by lia. congruence. }
    assert (∀ p, pos ≤ p → occurs_at d0 ll d1 n1 p → i' + 1 ≤ p + (j + 1)) as Hocc1.
    { intros p Hp' Hop. specialize (Hocc' p Hp' Hop). lia. }
    clearbody ii'. destruct (j + 1 <? ll) eqn:E; propify.
    - destruct (zget_is_Some d0 (j + 1)) as [c2 Hc2]; [lia|]. rewrite (load_ok _ _ _ Hc2). cbn [mbind res_bind].
      eapply (IH base); [lia|lia|done|lia|done|done|nia].
    - apply HN0; [lia|lia|lia|lia|done|]. intros Heq. split_and!; [lia|lia|].
      intros k Hk. apply Hp; [done|lia]. }
  assert (∀ i' x, i ≤ i' < n1 → zget d1 i' = Some x → c1 ≠ x →
    (∀ p, pos ≤ p → occurs_at d0 ll d1 n1 p → i' ≤ p + j) →
    (∀ p, pos ≤ p → occurs_at d0 ll d1 n1 p → i' + 1 ≤ p + j)) as Hskip.
  { intros i' x Hi' Hx Hne Hocc' p Hp Hop. specialize (Hocc' p Hp Hop).
    destruct (decide (p + j = i')) as [Heq|]; [|lia]. destruct Hop as (_ & _ & Hk).
    specialize (Hk j ltac:(lia)). congruence. }
  destruct (i <? n1 - 1) eqn:Hlt; propify.
  - destruct (zget_is_Some d1 i) as [x Hx]; [lia|]. rewrite (load_ok _ _ _ Hx). cbn [mbind res_bind].
    destruct (c1 =? x) eqn:Ex; cbn [negb]; propify; [subst x; by apply Hmatched; [lia| |]|].
    destruct (zget_is_Some d1 (1 + i)) as [y Hy]; [lia|]. rewrite (load_ok _ _ _ Hy). cbn [mbind res_bind].
    pose proof (Hskip i x ltac:(lia) Hx Ex Hocc) as Hocc1. replace (1 + i) with (i + 1) in Hy by lia.
    destruct (c1 =? y) eqn:Ey; cbn [negb]; propify.
    + subst y. apply Hmatched; [lia|done|done].
    + pose proof (Hskip (i + 1) y ltac:(lia) Hy Ey Hocc1) as Hocc2.
      eapply (IH base); [lia|lia|done|lia| | |nia].
      * intros Hj0. destruct (Hpre Hj0) as (? & ? & _). split_and!; lia.
      * intros p Hp Hop. specialize (Hocc2 p Hp Hop). lia.
  - assert (∀ x, zget d1 i = Some x → i = n1 - 1 → ll = j + 1 → c1 ≠ x →
      first_from (occurs_at d0 ll d1 n1) pos BSTR_ERR) as Hnone.
    { intros x Hx Hil Hlj Hne. left. split; [done|]. intros p Hp Hop.
      pose proof (Hskip i x ltac:(lia) Hx Hne Hocc p Hp Hop). destruct Hop as (_ & ? & _). lia. }
    destruct ((i =? n1 - 1) && (ll =? j + 1)) eqn:E; propify.
    + destruct (zget_is_Some d1 i) as [x Hx]; [lia|]. rewrite (load_ok _ _ _ Hx). cbn [mbind res_bind].
      destruct (c1 =? x) eqn:Ex; propify; [|by apply Hnone with x]. subst x.
      destruct (Hpre ltac:(lia)) as (? & ? & Hp). apply HN0; [lia|lia|lia|lia|done|].
      intros Heq. split_and!; [lia|lia|]. intros k Hk. destruct (decide (k = j)) as [->|]; [|apply Hp; lia].
      rewrite <-Heq. congruence.
    + left. split; [done|]. intros p Hp Hop. specialize (Hocc p Hp Hop). destruct Hop as (_ & ? & _).
      destruct E; propify; lia.
Qed.

(** ** In terms of the characters *)

(** [d0] occurs at [p] in [d1], up to the comparison [same] of characters. *)
Definition occurs (same : Z → Z → bool) (d0 d1 : list Z) (p : Z) : Prop :=
  0 ≤ p ∧ p + zlen d0 ≤ zlen d1 ∧
  Forall2 (λ x y, same x y = true) d0 (zslice d1 p (zlen d0)).

Definition matches_at (same : Z → Z → bool) (d0 d1 : list Z) (p k : Z) : Prop :=
  ∃ x y, zget d0 k = Some x ∧ zget d1 (p + k) = Some y ∧ same x y = true.

Lemma occurs_matches same d0 d1 p :
  occurs same d0 d1 p ↔
  0 ≤ p ∧ p + zlen d0 ≤ zlen d1 ∧ ∀ k, 0 ≤ k < zlen d0 → matches_at same d0 d1 p k.
Proof.
  unfold occurs. pose proof (zlen_nonneg d0). split; intros (Hp & Hle & Hk); split_and!; try done.
  - intros k Hr. destruct (zget_is_Some d0 k Hr) as [x Hx].
    destruct (zget_is_Some d1 (p + k)) as [y Hy]; [lia|]. exists x, y. split_and!; [done|done|].
    rewrite <-(zget_zslice d1 p (zlen d0) k) in Hy by lia. rewrite zget_of_lookup in Hx, Hy by lia.
    exact (Forall2_lookup_lr _ _ _ _ _ _ Hk Hx Hy).
  - apply Forall2_same_length_lookup. split.
    + pose proof (zlen_zslice d1 p (zlen d0) ltac:(lia) ltac:(lia) ltac:(lia)) as Hl. unfold zlen in *. lia.
    + intros i x y Hx Hy. rewrite <-zget_nat in Hx, Hy. pose proof (zget_Some_range _ _ _ Hx) as Hr.
      rewrite zget_zslice in Hy by lia. destruct (Hk _ Hr) as (x' & y' & Hx' & Hy' & Hs). congruence.
Qed.

Lemma occurs_eqb d0 d1 p :
  occurs Z.eqb d0 d1 p ↔ 0 ≤ p ∧ p + zlen d0 ≤ zlen d1 ∧ zslice d1 p (zlen d0) = d0.
Proof.
  unfold occurs. split; intros (? & ? & HF); split_and!; try done.
  - clear -HF. generalize dependent (zslice d1 p (zlen d0)). intros l HF. induction HF as [|x y l k Hxy%Z.eqb_eq HF IH]; [done|]. by rewrite IH, Hxy.
  - rewrite HF. clear. induction d0; constructor; [apply Z.eqb_refl|done].
Qed.

Lemma occurs_view v1 c1 v2 c2 p :
  shows v1 c1 → shows v2 c2 → occurs Z.eqb c2 c1 p ↔ occurs_at v2 (zlen c2) v1 (zlen c1) p.
Proof.
  intros [Hl1 H1] [Hl2 H2]. rewrite occurs_matches. unfold occurs_at.
  split; intros (Hp & Hle & Hk); split_and!; try done; intros k Hr; rewrite ?H1, ?H2 by lia.
  - destruct (Hk k Hr) as (x & y & Hx & Hy & ->%Z.eqb_eq). congruence.
  - destruct (zget_is_Some c2 k Hr) as [x Hx]. exists x, x. rewrite <-H1 by lia. rewrite Hk by done.
    rewrite H2 by done. split_and!; [done|done|]. apply Z.eqb_refl.
Qed.

Lemma first_from_iff (P P' : Z → Prop) pos r :
  (∀ p, P p ↔ P' p) → first_from P pos r → first_from P' pos r.
Proof. unfold first_from. naive_solver. Qed.

(** A search by [scan] over the positions [i], [i + di], ... *)
Lemma scan_first n di i step (t : Z → bool) :
  (∀ k, 0 ≤ k < Z.of_nat n → step (i + k * di) = Done (if t (i + k * di) then Some (i + k * di) else None)) →
  returns (scan n di i step) (λ r,
    (r = None ∧ ∀ k, 0 ≤ k < Z.of_nat n → t (i + k * di) = false) ∨
    ∃ k, 0 ≤ k < Z.of_nat n ∧ r = Some (i + k * di) ∧ t (i + k * di) = true ∧
      ∀ k', 0 ≤ k' < k → t (i + k' * di) = false).
Proof.
  revert i. induction n as [|n IH]; intros i Hstep; cbn [scan].
  - left. split; [done|]. lia.
  - pose proof (Hstep 0 ltac:(lia)) as H0. rewrite Z.mul_0_l, Z.add_0_r in H0. rewrite H0. cbn [mbind res_bind].
    destruct (t i) eqn:Ht.
    + right. exists 0. rewrite Z.mul_0_l, Z.add_0_r. split_and!; [lia|lia|done|done|lia].
    + eapply returns_mono; [apply IH|].
      * intros k Hk. replace (i + di + k * di) with (i + (k + 1) * di) by lia. apply Hstep. lia.
      * assert (∀ m k, (∀ k, 0 ≤ k < m → t (i + di + k * di) = false) → 0 ≤ k < m + 1 → t (i + k * di) = false) as Hshift.
        { intros m k Hf Hk. destruct (decide (k = 0)) as [->|]; [by rewrite Z.mul_0_l, Z.add_0_r|].
          replace (i + k * di) with (i + di + (k - 1) * di) by lia. apply Hf. lia. }
        intros r [[-> Hf]|(k & Hk & -> & Htk & Hf)].
        -- left. split; [done|]. intros k Hk. eapply Hshift; [exact Hf|lia].
        -- right. exists (k + 1). replace (i + (k + 1) * di) with (i + di + k * di) by lia.
           split_and!; [lia|lia|done|done|]. intros k' Hk'. eapply Hshift; [exact Hf|lia].
Qed.

Lemma scan_or_up_first n i step (t : Z → bool) :
  (∀ p, i ≤ p < i + n → step p = Done (if t p then Some p else None)) →
  returns (scan_or n 1 i step BSTR_ERR) (first_from (λ p, p < i + n ∧ t p = true) i).
Proof.
  intros Hstep. unfold scan_or. apply returns_bind.
  eapply returns_mono; [apply (scan_first _ 1 i step t)|].
  - intros k Hk. apply Hstep. lia.
  - intros r [[-> Hf]|(k & Hk & -> & Ht & Hf)]; cbn.
    + left. split; [done|]. intros p Hp [Hlt Ht]. specialize (Hf (p - i) ltac:(lia)).
      replace (i + (p - i) * 1) with p in Hf by lia. congruence.
    + right. split_and!; [lia|lia|done|]. intros p Hp [Hlt Htp].
      destruct (decide (i + k * 1 ≤ p)); [done|]. specialize (Hf (p - i) ltac:(lia)).
      replace (i + (p - i) * 1) with p in Hf by lia. congruence.
Qed.

Lemma binstr_first h b1 s1 X1 o1 bx1 c1 b2 s2 X2 o2 bx2 c2 pos :
  heap_ok h → readable h b1 s1 X1 o1 bx1 c1 → readable h b2 s2 X2 o2 bx2 c2 → 0 ≤ pos →
  returns (binstr b1 pos b2 h) (λ '(r, h'), h' = h ∧ first_from (occurs Z.eqb c2 c1) pos r).
Proof.
  intros OK R1 R2 Hpos. unfold binstr.
  rewrite (with_operand_ok _ _ _ _ _ _ _ OK R1), (with_operand_ok _ _ _ _ _ _ _ OK R2). cbn [op_len op_bytes op_data].
  pose proof (readable_shows _ _ _ _ _ _ _ R1) as V1. pose proof (readable_shows _ _ _ _ _ _ _ R2) as V2.
  pose proof (readable_len _ _ _ _ _ _ _ R1) as L1. pose proof (readable_len _ _ _ _ _ _ _ R2) as L2.
  assert (∀ p, occurs Z.eqb c2 c1 p ↔ occurs_at (drop (Z.to_nat o2) bx2) (slen s2) (drop (Z.to_nat o1) bx1) (slen s1) p) as Hiff.
  { intros p. rewrite <-L1, <-L2. by apply occurs_view. }
  assert (∀ r, (mret r : BM Z) h = Done (r, h)) as Hret by done.
  pose proof (zlen_nonneg c2). pose proof (zlen_nonneg c1).
  assert (slen s2 = 0 → ∀ p, 0 ≤ p ≤ slen s1 → occurs Z.eqb c2 c1 p) as Hempty.
  { intros Hz p Hp. apply Hiff. split_and!; lia. }
  assert (∀ p, occurs Z.eqb c2 c1 p → 0 ≤ p ∧ p + slen s2 ≤ slen s1) as Hrange.
  { intros p Hop. apply Hiff in Hop. destruct Hop as (? & ? & _). lia. }
  assert (∀ r, returns r (first_from (occurs Z.eqb c2 c1) pos) →
    returns (lift r h) (λ '(r, h'), h' = h ∧ first_from (occurs Z.eqb c2 c1) pos r)) as Hlift.
  { intros r Hr. unfold lift. apply returns_bind. eapply returns_mono; [exact Hr|]. by intros a ?. }
  destruct (slen s1 =? pos) eqn:E1; propify.
  { rewrite Hret. split; [done|]. destruct (slen s2 =? 0) eqn:E2; propify.
    - right. split_and!; [lia|apply Hempty; lia|done].
    - left. split; [done|]. intros p Hp Hop. apply Hrange in Hop. lia. }
  destruct ((slen s1 <? pos) || (pos <? 0)) eqn:E2; propify.
  { rewrite Hret. split; [done|]. left. split; [done|]. intros p Hp Hop. apply Hrange in Hop. destruct E2; propify; lia. }
  destruct (slen s2 =? 0) eqn:E3; propify.
  { rewrite Hret. split; [done|]. right. split_and!; [lia|apply Hempty; lia|done]. }
  destruct (slen s1 - slen s2 + 1 <=? pos) eqn:E4; propify.
  { rewrite Hret. split; [done|]. left. split; [done|]. intros p Hp Hop. apply Hrange in Hop. lia. }
  destruct (same_ptr (X1, o1) (X2, o2) && (pos =? 0)) eqn:E5; unfold same_ptr in E5; cbn [fst snd] in E5; propify.
  { rewrite Hret. split; [done|]. right. subst. split_and!; [lia| |intros; by apply Hrange]. apply Hiff.
    assert (bx2 = bx1) as -> by (destruct R1, R2; congruence). by split_and!; [lia|lia|]. }
  apply Hlift. destruct V1 as [Hv1 V1], V2 as [Hv2 V2].
  destruct (zget_is_Some (drop (Z.to_nat o2) bx2) 0) as [c0 Hc0]; [lia|].
  rewrite (load_ok _ _ _ Hc0). cbn [mbind res_bind]. destruct (1 =? slen s2) eqn:E6; propify.
  - eapply returns_mono; [apply (scan_or_up_first _ pos _ (λ p, bool_decide (zget (drop (Z.to_nat o1) bx1) p = Some c0)))|].
    + intros p Hp. destruct (zget_is_Some (drop (Z.to_nat o1) bx1) p) as [x Hx]; [lia|].
      rewrite (load_ok _ _ _ Hx). cbn [mbind res_bind]. rewrite Hx. destruct (c0 =? x) eqn:E; propify.
      * subst. by rewrite bool_decide_eq_true_2.
      * rewrite bool_decide_eq_false_2; [done|congruence].
    + intros r. apply first_from_iff. intros p. rewrite Hiff. rewrite bool_decide_eq_true. split.
      * intros [Hlt Hx]. apply zget_Some_range in Hx as Hr. split_and!; [lia|lia|].
        intros k Hk. replace k with 0 by lia. rewrite Z.add_0_r. congruence.
      * intros (? & ? & Hk). split; [lia|]. specialize (Hk 0 ltac:(lia)). rewrite Z.add_0_r in Hk. congruence.
  - eapply returns_mono; [eapply (binstr_loop_spec _ _ _ (slen s1) pos c0 _ pos); try done; try lia; nia|].
    intros r. by apply first_from_iff.
Qed.

(** C8. [binstr] finds the first occurrence of the second string at or after
    the position, or reports that there is none: its loop, which matches the
    characters as a subsequence, two at a time, and starts again only when the
    match turns out to have gaps, agrees with the definition of an occurrence.
    Nothing is written. *)
Theorem binstr_correct h b1 s1 X1 o1 bx1 c1 b2 s2 X2 o2 bx2 c2 pos :
  heap_ok h → readable h b1 s1 X1 o1 bx1 c1 → readable h b2 s2 X2 o2 bx2 c2 → 0 ≤ pos →
  returns (binstr b1 pos b2 h) (λ '(r, h'), h' = h ∧ first_from (occurs Z.eqb c2 c1) pos r).
Proof. apply binstr_first. Qed.

(** ** Searching backwards and without case *)

(** The prefix of length [j] matches at [i]. *)
Lemma match_loop_spec same d0 d1 l n1 di stop c0 c1 fuel n i j :
  shows d0 c0 → shows d1 c1 → zlen c0 = l → zlen c1 = n1 →
  0 < n → 0 ≤ j < l → (∀ k, 0 ≤ k < j → matches_at same c0 c1 i k) →
  (∀ k, 0 ≤ k < n → 0 ≤ i + k * di ∧ i + k * di + l ≤ n1) →
  (∀ k, 1 ≤ k ≤ n → stop (i + k * di) = (k =? n)) →
  n * (l + 1) - j < Z.of_nat fuel →
  returns (match_loop fuel same d0 d1 l di stop i j) (λ r,
    (r = BSTR_ERR ∧ ∀ k, 0 ≤ k < n → ¬ occurs same c0 c1 (i + k * di)) ∨
    ∃ k, 0 ≤ k < n ∧ r = i + k * di ∧ occurs same c0 c1 r ∧
      ∀ k', 0 ≤ k' < k → ¬ occurs same c0 c1 (i + k' * di)).
Proof.
  intros V0 V1 Hl0 Hn1. revert n i j. induction fuel as [|fuel IH]; intros n i j Hn Hj Hpre Hrange Hstop Hfuel; [nia|].
  cbn [match_loop]. pose proof (Hrange 0 ltac:(lia)) as Hr0.
  destruct (zget_is_Some c0 j) as [x Hx]; [lia|]. destruct (zget_is_Some c1 (i + j)) as [y Hy]; [lia|].
  rewrite (shows_load _ _ _ _ V0 Hx). cbn [mbind res_bind]. rewrite (shows_load _ _ _ _ V1 Hy). cbn [mbind res_bind].
  destruct (same x y) eqn:Hs.
  - assert (∀ k, 0 ≤ k < j + 1 → matches_at same c0 c1 i k) as Hpre'.
    { intros k Hk. destruct (decide (k = j)) as [->|]; [by exists x, y|apply Hpre; lia]. }
    destruct (l <=? j + 1) eqn:E; propify.
    + right. exists 0. rewrite Z.mul_0_l, Z.add_0_r. split_and!; [lia|lia|done| |lia].
      apply occurs_matches. split_and!; [lia|lia|]. intros k Hk. apply Hpre'. lia.
    + apply (IH n); [lia|lia|done|done|done|lia].
  - assert (¬ occurs same c0 c1 (i + 0 * di)) as Hno.
    { rewrite Z.mul_0_l, Z.add_0_r. rewrite occurs_matches. intros (_ & _ & Hk).
      destruct (Hk j ltac:(lia)) as (x' & y' & Hx' & Hy' & ?). congruence. }
    assert (∀ m, (∀ k, 0 ≤ k < m → ¬ occurs same c0 c1 (i + di + k * di)) →
      ∀ k, 0 ≤ k < m + 1 → ¬ occurs same c0 c1 (i + k * di)) as Hshift.
    { intros m Hf k Hk. destruct (decide (k = 0)) as [->|]; [done|].
      replace (i + k * di) with (i + di + (k - 1) * di) by lia. apply Hf. lia. }
    pose proof (Hstop 1 ltac:(lia)) as Hst. rewrite Z.mul_1_l in Hst. rewrite Hst.
    destruct (1 =? n) eqn:E; propify.
    + left. split; [done|]. intros k Hk. replace k with 0 by lia. done.
    + eapply returns_mono; [apply (IH (n - 1))|]; [lia|lia|lia| | |nia|].
      * intros k Hk. replace (i + di + k * di) with (i + (k + 1) * di) by lia. apply Hrange. lia.
      * intros k Hk. replace (i + di + k * di) with (i + (k + 1) * di) by lia. rewrite Hstop by lia.
        destruct (k =? n - 1) eqn:Ek; propify; [apply Z.eqb_eq|apply Z.eqb_neq]; lia.
      * intros r [[-> Hf]|(k & Hk & -> & Ho & Hf)].
        -- left. split; [done|]. intros k Hk. eapply Hshift; [exact Hf|lia].
        -- right. exists (k + 1). split_and!; [lia|lia|lia|done|]. intros k' Hk'. eapply Hshift; [exact Hf|lia].
Qed.

(** [r] is the greatest position up to [pos] where [P] holds, or -1. *)
Definition last_upto (P : Z → Prop) (pos r : Z) : Prop :=
  r = BSTR_ERR ∧ (∀ p, p ≤ pos → ¬ P p) ∨ r ≤ pos ∧ P r ∧ ∀ p, p ≤ pos → P p → p ≤ r.

Section search.
Context (h : bheap) (b1 b2 : Z) (s1 s2 : tagbstring) (X1 o1 X2 o2 : Z) (bx1 c1 bx2 c2 : list Z).
Context (OK : heap_ok h) (R1 : readable h b1 s1 X1 o1 bx1 c1) (R2 : readable h b2 s2 X2 o2 bx2 c2).
Context (same : Z → Z → bool) (Hsame : ∀ x, same x x = true).

Lemma occurs_empty p : zlen c2 = 0 → 0 ≤ p ≤ zlen c1 → occurs same c2 c1 p.
Proof. intros. apply occurs_matches. split_and!; lia. Qed.

Lemma occurs_range p : occurs same c2 c1 p → 0 ≤ p ∧ p + zlen c2 ≤ zlen c1.
Proof. by intros (? & ? & _). Qed.

Lemma occurs_alias : X1 = X2 → o1 = o2 → slen s2 ≤ slen s1 → occurs same c2 c1 0.
Proof using R1 R2 Hsame.
  intros -> -> Hle. pose proof (readable_len _ _ _ _ _ _ _ R1). pose proof (readable_len _ _ _ _ _ _ _ R2).
  destruct R1 as [_ _ HB1 _ ? ->], R2 as [_ _ HB2 ? ? ->]. assert (bx2 = bx1) as -> by congruence.
  apply occurs_matches. split_and!; [lia|lia|]. intros k Hk.
  destruct (zget_is_Some bx1 (o2 + k)) as [x Hx]; [lia|]. exists x, x.
  rewrite !zget_zslice by lia. by rewrite Hx.
Qed.

Lemma search_backward_spec pos :
  pos ≤ zlen c1 →
  returns (search_backward same b1 pos b2 h) (λ '(r, h'), h' = h ∧ last_upto (occurs same c2 c1) pos r).
Proof using OK R1 R2 Hsame.
  intros Hpos. unfold search_backward.
  rewrite (with_operand_ok _ _ _ _ _ _ _ OK R1), (with_operand_ok _ _ _ _ _ _ _ OK R2). cbn [op_len op_bytes op_data].
  pose proof (readable_shows _ _ _ _ _ _ _ R1) as V1. pose proof (readable_shows _ _ _ _ _ _ _ R2) as V2.
  pose proof (readable_len _ _ _ _ _ _ _ R1) as L1. pose proof (readable_len _ _ _ _ _ _ _ R2) as L2.
  pose proof (zlen_nonneg c2). pose proof (zlen_nonneg c1). rewrite <-L1, <-L2.
  assert (∀ r, last_upto (occurs same c2 c1) pos r →
    returns ((mret r : BM Z) h) (λ '(r, h'), h' = h ∧ last_upto (occurs same c2 c1) pos r)) as Hret by done.
  destruct ((zlen c1 =? pos) && (zlen c2 =? 0)) eqn:E1; propify.
  { apply Hret. right. split_and!; [lia|apply occurs_empty; lia|done]. }
  destruct ((zlen c1 <? pos) || (pos <? 0)) eqn:E2; propify.
  { apply Hret. left. split; [done|]. intros p Hp Hop%occurs_range. destruct E2; propify; lia. }
  destruct (zlen c2 =? 0) eqn:E3; propify.
  { apply Hret. right. split_and!; [lia|apply occurs_empty; lia|done]. }
  destruct (same_ptr (X1, o1) (X2, o2) && (pos =? 0) && (zlen c2 <=? zlen c1)) eqn:E5;
    unfold same_ptr in E5; cbn [fst snd] in E5; propify.
  { apply Hret. right. subst pos. split_and!; [lia|apply occurs_alias; lia|done]. }
  destruct (zlen c1 - zlen c2 <? 0) eqn:E4; propify.
  { apply Hret. left. split; [done|]. intros p Hp Hop%occurs_range. lia. }
  set (i := if zlen c1 - zlen c2 + 1 <=? pos then zlen c1 - zlen c2 else pos).
  assert (0 ≤ i ≤ pos ∧ i + zlen c2 ≤ zlen c1 ∧ (∀ p, p ≤ pos → p + zlen c2 ≤ zlen c1 → p ≤ i)) as (Hi & Hi2 & Hi3).
  { unfold i. case_if; split_and!; intros; lia. }
  clearbody i. unfold lift. apply returns_bind.
  eapply returns_mono; [eapply (match_loop_spec same _ _ _ (zlen c1) (-1) _ c2 c1 _ (i + 1) i 0)|];
    [done|done|done|done|lia|lia|lia|lia| |unfold search_fuel; nia|].
  - intros k Hk. destruct (k =? i + 1) eqn:E; propify; [apply Z.ltb_lt|apply Z.ltb_ge]; lia.
  - intros r Hr. split; [done|]. destruct Hr as [[-> Hf]|(k & Hk & -> & Ho & Hf)].
    + left. split; [done|]. intros p Hp Hop. pose proof (occurs_range _ Hop) as Hr. specialize (Hi3 p Hp ltac:(lia)).
      apply (Hf (i - p)); [lia|]. by replace (i + (i - p) * -1) with p by lia.
    + right. split_and!; [lia|done|]. intros p Hp Hop. pose proof (occurs_range _ Hop) as Hr. specialize (Hi3 p Hp ltac:(lia)).
      destruct (decide (p ≤ i + k * -1)); [done|]. exfalso. apply (Hf (i - p)); [lia|].
      by replace (i + (i - p) * -1) with p by lia.
Qed.
End search.

(** [binstrr] and [binstrrcaseless] find the last occurrence that starts
    at or before the position, for a position inside the string. *)
Theorem binstrr_correct h b1 s1 X1 o1 bx1 c1 b2 s2 X2 o2 bx2 c2 pos :
  heap_ok h → readable h b1 s1 X1 o1 bx1 c1 → readable h b2 s2 X2 o2 bx2 c2 → pos ≤ zlen c1 →
  returns (binstrr b1 pos b2 h) (λ '(r, h'), h' = h ∧ last_upto (occurs Z.eqb c2 c1) pos r) ∧
  returns (binstrrcaseless b1 pos b2 h) (λ '(r, h'), h' = h ∧ last_upto (occurs same_caseless c2 c1) pos r).
Proof.
  intros OK R1 R2 Hpos. split; unfold binstrr, binstrrcaseless;
    eapply (search_backward_spec _ _ _ _ _ _ _ _ _ _ _ _ _ OK R1 R2); try done.
  - apply Z.eqb_refl.
  - intros x. unfold same_caseless. by rewrite Z.eqb_refl.
Qed.

(** [binstrcaseless] finds the first occurrence at or after the position
    when letters are compared without case. *)
Theorem binstrcaseless_correct h b1 s1 X1 o1 bx1 c1 b2 s2 X2 o2 bx2 c2 pos :
  heap_ok h → readable h b1 s1 X1 o1 bx1 c1 → readable h b2 s2 X2 o2 bx2 c2 → 0 ≤ pos →
  returns (binstrcaseless b1 pos b2 h) (λ '(r, h'), h' = h ∧ first_from (occurs same_caseless c2 c1) pos r).
Proof.
  intros OK R1 R2 Hpos. unfold binstrcaseless.
  rewrite (with_operand_ok _ _ _ _ _ _ _ OK R1), (with_operand_ok _ _ _ _ _ _ _ OK R2). cbn [op_len op_bytes op_data].
  pose proof (readable_shows _ _ _ _ _ _ _ R1) as V1. pose proof (readable_shows _ _ _ _ _ _ _ R2) as V2.
  pose proof (readable_len _ _ _ _ _ _ _ R1) as L1. pose proof (readable_len _ _ _ _ _ _ _ R2) as L2.
  pose proof (zlen_nonneg c2). pose proof (zlen_nonneg c1). rewrite <-L1, <-L2.
  assert (∀ x, same_caseless x x = true) as Hrefl by (intros x; unfold same_caseless; by rewrite Z.eqb_refl).
  set (occ := occurs same_caseless c2 c1).
  assert (∀ r, first_from occ pos r →
    returns ((mret r : BM Z) h) (λ '(r, h'), h' = h ∧ first_from occ pos r)) as Hret by done.
  destruct (zlen c1 =? pos) eqn:E1; propify.
  { apply Hret. destruct (zlen c2 =? 0) eqn:E2; propify.
    - right. split_and!; [lia|apply occurs_empty; lia|done].
    - left. split; [done|]. intros p Hp Hop%occurs_range. lia. }
  destruct ((zlen c1 <? pos) || (pos <? 0)) eqn:E2; propify.
  { apply Hret. left. split; [done|]. intros p Hp Hop%occurs_range. destruct E2; propify; lia. }
  destruct (zlen c2 =? 0) eqn:E3; propify.
  { apply Hret. right. split_and!; [lia|apply occurs_empty; lia|done]. }
  destruct (zlen c1 - zlen c2 + 1 <=? pos) eqn:E4; propify.
  { apply Hret. left. split; [done|]. intros p Hp Hop%occurs_range. lia. }
  destruct (same_ptr (X1, o1) (X2, o2) && (pos =? 0)) eqn:E5; unfold same_ptr in E5; cbn [fst snd] in E5; propify.
  { apply Hret. right. subst pos. split_and!; [done| |by intros p Hp ?].
    eapply (occurs_alias _ _ _ _ _ _ _ _ _ _ _ _ _ R1 R2); [done|lia..]. }
  unfold lift. apply returns_bind.
  eapply returns_mono; [eapply (match_loop_spec same_caseless _ _ _ (zlen c1) 1 _ c2 c1 _ (zlen c1 - zlen c2 + 1 - pos) pos 0)|];
    [done|done|done|done|lia|lia|lia|lia| |unfold search_fuel; nia|].
  - intros k Hk. destruct (k =? _) eqn:E; propify; [apply Z.leb_le|apply Z.leb_gt]; lia.
  - intros r Hr. split; [done|]. destruct Hr as [[-> Hf]|(k & Hk & -> & Ho & Hf)].
    + left. split; [done|]. intros p Hp Hop. pose proof (occurs_range _ _ _ _ Hop) as Hr.
      apply (Hf (p - pos)); [lia|]. by replace (pos + (p - pos) * 1) with p by lia.
    + right. split_and!; [lia|done|]. intros p Hp Hop. pose proof (occurs_range _ _ _ _ Hop) as Hr.
      destruct (decide (pos + k * 1 ≤ p)); [done|]. exfalso. apply (Hf (p - pos)); [lia|].
      by replace (pos + (p - pos) * 1) with p by lia.
Qed.

(** ** Sets of characters *)

Lemma land_bit x k : 0 ≤ k → negb (Z.land x (Z.shiftl 1 k) =? 0) = Z.testbit x k.
Proof.
  intros Hk. rewrite Z.shiftl_1_l. destruct (Z.testbit x k) eqn:E.
  - apply negb_true_iff, Z.eqb_neq. intros H0. apply (f_equal (λ z, Z.testbit z k)) in H0.
    rewrite Z.land_spec, E, Z.pow2_bits_true, Z.bits_0 in H0 by done. done.
  - apply negb_false_iff, Z.eqb_eq. apply Z.bits_inj'. intros n Hn. rewrite Z.land_spec, Z.bits_0.
    destruct (decide (n = k)) as [->|]; [by rewrite E|]. rewrite Z.pow2_bits_false by lia. apply andb_false_r.
Qed.

(** The bits of the cells are the members of the set. *)
Definition represents (cf : list Z) (S : Z → bool) : Prop :=
  zlen cf = CFCLEN ∧ ∀ k x, zget cf k = Some x → is_byte x ∧ ∀ n, 0 ≤ n < 8 → Z.testbit x n = S (8 * k + n).

Lemma cell_of c : is_byte c → Z.shiftr c LONG_LOG_BITS_QTY = c / 8 ∧ Z.land c (LONG_BITS_QTY - 1) = c mod 8.
Proof.
  intros Hc. split.
  - by rewrite Z.shiftr_div_pow2.
  - change (LONG_BITS_QTY - 1) with (Z.ones 3). by rewrite Z.land_ones.
Qed.

Lemma testInCharField_ok cf S c : represents cf S → is_byte c → testInCharField cf c = Done (S c).
Proof.
  intros [Hl Hcf] Hc. unfold testInCharField. destruct (cell_of c Hc) as [-> ->].
  destruct (zget_is_Some cf (c / 8)) as [x Hx]; [unfold CFCLEN, is_byte in *; lia|].
  rewrite (load_ok _ _ _ Hx). cbn [mbind res_bind]. destruct (Hcf _ _ Hx) as [_ Hb].
  unfold mret, res_ret. rewrite land_bit by lia. rewrite Hb by lia. do 2 f_equal. lia.
Qed.

Lemma setInCharField_ok cf S c :
  represents cf S → is_byte c →
  returns (setInCharField cf c) (λ cf', represents cf' (λ x, S x || (x =? c))).
Proof.
  intros [Hl Hcf] Hc. unfold setInCharField. destruct (cell_of c Hc) as [-> ->].
  destruct (zget_is_Some cf (c / 8)) as [x Hx]; [unfold CFCLEN, is_byte in *; lia|].
  rewrite (load_ok _ _ _ Hx). cbn [mbind res_bind]. destruct (Hcf _ _ Hx) as [Hxb Hb].
  rewrite store_ok by (unfold CFCLEN, is_byte in *; lia). cbn [returns]. split; [by rewrite zlen_zupd|].
  assert (u8 (Z.shiftl 1 (c mod 8)) = 2 ^ (c mod 8)) as ->.
  { rewrite Z.shiftl_1_l. apply Z.mod_small. split; [lia|]. apply Z.pow_lt_mono_r; lia. }
  intros k y Hy. destruct (decide (k = c / 8)) as [->|Hne].
  - rewrite zget_zupd_eq in Hy by (unfold CFCLEN, is_byte in *; lia). simplify_eq. split.
    + assert (0 ≤ 2 ^ (c mod 8)) by lia. split; [apply Z.lor_nonneg; unfold is_byte in *; lia|].
      destruct (decide (Z.lor x (2 ^ (c mod 8)) = 0)) as [->|]; [lia|].
      apply Z.log2_lt_pow2 with (b := 8); [|rewrite Z.log2_lor by (unfold is_byte in *; lia)].
      { assert (0 ≤ Z.lor x (2 ^ (c mod 8))) by (apply Z.lor_nonneg; unfold is_byte in *; lia). lia. }
      rewrite Z.log2_pow2 by lia. apply Z.max_lub_lt; [|lia].
      destruct (decide (x = 0)) as [->|]; [cbn; lia|]. apply Z.log2_lt_pow2; unfold is_byte in *; lia.
    + intros n Hn. rewrite Z.lor_spec, Hb by done. f_equal.
      destruct (decide (n = c mod 8)) as [->|].
      * rewrite Z.pow2_bits_true by lia. symmetry. apply Z.eqb_eq. lia.
      * rewrite Z.pow2_bits_false by lia. symmetry. apply Z.eqb_neq. lia.
  - rewrite zget_zupd_ne in Hy by (unfold is_byte in *; lia). destruct (Hcf _ _ Hy) as [? Hy'].
    split; [done|]. intros n Hn. rewrite Hy' by done.
    rewrite (proj2 (Z.eqb_neq (8 * k + n) c)) by lia. by rewrite orb_false_r.
Qed.

Lemma invertCharField_ok cf S :
  represents cf S → returns (invertCharField cf) (λ cf', represents cf' (λ x, negb (S x))).
Proof.
  intros [Hl Hcf]. unfold invertCharField.
  eapply returns_mono; [apply (for_up_inv (λ i cf', zlen cf' = CFCLEN ∧ ∀ k x, zget cf' k = Some x →
    if k <? i then is_byte x ∧ (∀ n, 0 ≤ n < 8 → Z.testbit x n = negb (S (8 * k + n))) else zget cf k = Some x))|].
  - unfold CFCLEN. lia.
  - split; [done|]. intros k x Hx. pose proof (zget_Some_range _ _ _ Hx). by rewrite (proj2 (Z.ltb_ge k 0)) by lia.
  - intros i cf' Hi [Hl' Hcf']. destruct (zget_is_Some cf' i) as [x Hx]; [lia|].
    rewrite (load_ok _ _ _ Hx). cbn [mbind res_bind]. rewrite store_ok by lia. cbn [returns].
    split; [by rewrite zlen_zupd|]. pose proof (Hcf' _ _ Hx) as Hxi. rewrite Z.ltb_irrefl in Hxi.
    destruct (Hcf _ _ Hxi) as [Hxb Hb]. intros k y Hy. destruct (decide (k = i)) as [->|].
    + rewrite zget_zupd_eq in Hy by lia. simplify_eq. rewrite (proj2 (Z.ltb_lt i (i + 1))) by lia.
      split; [unfold is_byte, u8; lia|]. intros n Hn. unfold u8. rewrite Z.mod_pow2_bits_low by lia.
      rewrite Z.lnot_spec by lia. by rewrite Hb.
    + rewrite zget_zupd_ne in Hy by lia. specialize (Hcf' _ _ Hy).
      destruct (k <? i) eqn:E; propify.
      * by rewrite (proj2 (Z.ltb_lt k (i + 1))) by lia.
      * by rewrite (proj2 (Z.ltb_ge k (i + 1))) by lia.
  - intros cf' [Hl' Hcf']. split; [done|]. intros k x Hx. specialize (Hcf' _ _ Hx).
    pose proof (zget_Some_range _ _ _ Hx). by rewrite (proj2 (Z.ltb_lt k CFCLEN)) in Hcf' by lia.
Qed.

(** The set of the characters of a string. *)
Definition set_of (c : list Z) (x : Z) : bool := bool_decide (x ∈ c).

Lemma build_loop v c n cf S :
  shows v c → Forall is_byte c → 0 ≤ n ≤ zlen c → represents cf S →
  returns (for_up 0 n (λ i cf, x ← load v i; setInCharField cf x) cf)
    (λ cf', represents cf' (λ x, S x || set_of (take (Z.to_nat n) c) x)).
Proof.
  intros Hv Hc Hn Hcf.
  apply (for_up_inv (λ i cf', represents cf' (λ x, S x || set_of (take (Z.to_nat i) c) x))); [lia| |].
  - destruct Hcf as [Hl Hcf]. split; [done|]. intros k x Hx. destruct (Hcf k x Hx) as [? Hb]. split; [done|].
    intros m Hm. rewrite Hb by done. change (take (Z.to_nat 0) c) with (@nil Z). unfold set_of.
    rewrite (bool_decide_eq_false_2 (_ ∈ [])) by set_solver. by rewrite orb_false_r.
  - intros i cf' Hi Hcf'. destruct (zget_is_Some c i) as [x Hx]; [lia|].
    rewrite (shows_load _ _ _ _ Hv Hx). cbn [mbind res_bind].
    rewrite zget_of_lookup in Hx by lia. rewrite Forall_lookup in Hc.
    eapply returns_mono; [apply setInCharField_ok; [exact Hcf'|by apply (Hc (Z.to_nat i))]|].
    intros cf2 [Hl2 Hcf2]. split; [done|]. intros k y Hy. destruct (Hcf2 k y Hy) as [? Hb]. split; [done|].
    intros m Hm. rewrite Hb by done. rewrite <-orb_assoc. f_equal. unfold set_of.
    replace (Z.to_nat (i + 1)) with (Datatypes.S (Z.to_nat i)) by lia. rewrite (take_S_r _ _ x) by done.
    destruct (_ =? x) eqn:E; propify.
    + rewrite orb_true_r. symmetry. apply bool_decide_eq_true_2. subst. set_solver.
    + rewrite orb_false_r. apply bool_decide_ext. set_solver.
Qed.

Lemma buildCharField_ok h b s X o bx c :
  heap_ok h → readable h b s X o bx c → Forall is_byte c →
  returns (buildCharField b h) (λ '(r, h'), h' = h ∧
    if slen s =? 0 then r = None else ∃ cf, r = Some cf ∧ represents cf (set_of c)).
Proof.
  intros OK R Hc. unfold buildCharField. rewrite (proj2 (Z.eqb_neq b 0)) by (eapply readable_nonnull; done).
  pose proof (readable_len _ _ _ _ _ _ _ R) as Hl. pose proof (readable_shows _ _ _ _ _ _ _ R) as V.
  pose proof (view_readable _ _ _ _ _ _ _ R) as Hview. destruct R as [Hs Hd _ Hsl _ _].
  unfold mbind at 1, M_bind at 1. rewrite (deref_ok _ s) by done. cbn [mbind res_bind]. rewrite Hd.
  destruct (slen s <=? 0) eqn:E; propify.
  - cbn. split; [done|]. by rewrite (proj2 (Z.eqb_eq _ _)) by lia.
  - rewrite (proj2 (Z.eqb_neq _ _)) by lia. rewrite (M_bind_eq (view _)), Hview. cbn [mbind res_bind].
    unfold mbind at 1, M_bind at 1, lift. apply returns_bind, returns_bind. rewrite <-Hl.
    eapply returns_mono; [apply (build_loop _ c _ _ (λ _, false)); [done|done|pose proof (zlen_nonneg c); lia|]|].
    + split; [done|]. intros k x Hx.
      assert (x = 0) as ->.
      { pose proof (zget_Some_range _ _ _ Hx). rewrite zget_of_lookup in Hx by lia.
        by apply lookup_replicate in Hx as [-> _]. }
      split; [unfold is_byte; lia|]. intros n _. by rewrite Z.bits_0.
    + intros cf [Hcl Hcf]. cbn. split; [done|]. exists cf. split; [done|]. split; [done|].
      intros k x Hx. destruct (Hcf k x Hx) as [? Hb]. split; [done|]. intros n Hn. rewrite Hb by done. cbn [orb].
      f_equal. rewrite take_ge; [done|]. unfold zlen. lia.
Qed.

Lemma scan_or_down_last i step (t : Z → bool) :
  (∀ p, 0 ≤ p ≤ i → step p = Done (if t p then Some p else None)) → -1 ≤ i →
  returns (scan_or (i + 1) (-1) i step BSTR_ERR) (last_upto (λ p, 0 ≤ p ∧ t p = true) i).
Proof.
  intros Hstep Hi. unfold scan_or. apply returns_bind.
  eapply returns_mono; [apply (scan_first _ (-1) i step t)|].
  - intros k Hk. apply Hstep. lia.
  - intros r [[-> Hf]|(k & Hk & -> & Ht & Hf)]; cbn.
    + left. split; [done|]. intros p Hp [Hp0 Ht]. specialize (Hf (i - p) ltac:(lia)).
      replace (i + (i - p) * -1) with p in Hf by lia. congruence.
    + right. split_and!; [lia|lia|done|]. intros p Hp [Hp0 Htp].
      destruct (decide (p ≤ i + k * -1)); [done|]. specialize (Hf (i - p) ltac:(lia)).
      replace (i + (i - p) * -1) with p in Hf by lia. congruence.
Qed.

(** Positions of characters with a property. *)
Definition char_at (P : Z → bool) (c : list Z) (p : Z) : Prop := ∃ x, zget c p = Some x ∧ P x = true.

Lemma last_upto_iff (P P' : Z → Prop) pos r :
  (∀ p, P p ↔ P' p) → last_upto P pos r → last_upto P' pos r.
Proof. unfold last_upto. naive_solver. Qed.

Section char_search.
Context (v c : list Z) (P : Z → bool) (test : Z → res bool).
Context (V : shows v c) (B : Forall is_byte c) (Htest : ∀ x, is_byte x → test x = Done (P x)).

Let step (i : Z) : res (option Z) := x ← load v i; t ← test x; mret (if (t : bool) then Some i else None).
Let t (i : Z) : bool := match zget c i with Some x => P x | None => false end.

Lemma char_step p : 0 ≤ p < zlen c → step p = Done (if t p then Some p else None).
Proof using V B Htest.
  intros Hp. destruct (zget_is_Some c p Hp) as [x Hx]. unfold step, t.
  rewrite (shows_load _ _ _ _ V Hx), Hx. cbn [mbind res_bind]. rewrite Htest; [done|].
  rewrite zget_of_lookup in Hx by lia. by eapply Forall_lookup_1.
Qed.

Lemma char_test p : t p = true ↔ char_at P c p.
Proof.
  unfold t, char_at. destruct (zget c p) as [x|]; [|naive_solver]. naive_solver.
Qed.

Lemma char_search_up pos :
  0 ≤ pos ≤ zlen c →
  returns (scan_or (zlen c - pos) 1 pos step BSTR_ERR) (first_from (char_at P c) pos).
Proof using V B Htest.
  intros Hpos. eapply returns_mono; [apply (scan_or_up_first _ _ _ t)|].
  - intros p Hp. apply char_step. lia.
  - intros r. apply first_from_iff. intros p. rewrite char_test. split; [by intros [_ ?]|].
    intros Hc. split; [|done]. destruct Hc as (x & Hx & _). apply zget_Some_range in Hx. lia.
Qed.

Lemma char_search_down pos :
  -1 ≤ pos < zlen c →
  returns (scan_or (pos + 1) (-1) pos step BSTR_ERR) (last_upto (char_at P c) pos).
Proof using V B Htest.
  intros Hpos. eapply returns_mono; [apply (scan_or_down_last _ _ t)|]; [|lia|].
  - intros p Hp. apply char_step. lia.
  - intros r. apply last_upto_iff. intros p. rewrite char_test. split; [by intros [_ ?]|].
    intros Hc. split; [|done]. destruct Hc as (x & Hx & _). apply zget_Some_range in Hx. lia.
Qed.
End char_search.

Lemma last_upto_end P c pos r :
  pos = zlen c → last_upto (char_at P c) (pos - 1) r → last_upto (char_at P c) pos r.
Proof.
  intros -> [[-> Hf]|(Hr & Hp & Hl)].
  - left. split; [done|]. intros p Hp Hc. apply (Hf p); [|done].
    destruct Hc as (x & Hx & _). apply zget_Some_range in Hx. lia.
  - right. split_and!; [lia|done|]. intros p Hp' Hc. apply Hl; [|done].
    destruct Hc as (x & Hx & _). apply zget_Some_range in Hx. lia.
Qed.

Lemma char_at_iff P P' c p : (∀ x, P x = P' x) → char_at P c p ↔ char_at P' c p.
Proof. intros HP. unfold char_at. by setoid_rewrite HP. Qed.

Lemma set_of_single x c : zlen c = 1 → zget c 0 = Some x → ∀ y, (y =? x) = set_of c y.
Proof.
  intros Hl Hx y. destruct c as [|z [|w c]].
  - done.
  - change (Some z = Some x) in Hx. simplify_eq. unfold set_of.
    destruct (y =? x) eqn:E; propify; symmetry; [apply bool_decide_eq_true_2|apply bool_decide_eq_false_2];
      by rewrite list_elem_of_singleton.
  - rewrite !zlen_cons in Hl. pose proof (zlen_nonneg c). lia.
Qed.

Section sets.
Context (h : bheap) (b0 b1 : Z) (s0 s1 : tagbstring) (X0 o0 X1 o1 : Z) (bx0 c0 bx1 c1 : list Z).
Context (OK : heap_ok h) (R0 : readable h b0 s0 X0 o0 bx0 c0) (R1 : readable h b1 s1 X1 o1 bx1 c1).
Context (B0 : Forall is_byte c0) (B1 : Forall is_byte c1).

Let v0 := drop (Z.to_nat o0) bx0.

(** How a search that reads ends. *)
Definition found (Q : Z → Prop) (rh : Z * bheap) : Prop := rh.2 = h ∧ Q rh.1.

Lemma lift_found r Q : returns r Q → returns (lift r h) (found Q).
Proof. intros Hr. unfold lift. apply returns_bind. by eapply returns_mono. Qed.

Lemma bstrchrp_ok x pos :
  0 ≤ pos → is_byte x → returns (bstrchrp b0 x pos h) (found (first_from (char_at (λ y, y =? x) c0) pos)).
Proof using OK R0 B0.
  intros Hpos Hx. unfold bstrchrp. rewrite (proj2 (Z.eqb_neq b0 0)) by (eapply readable_nonnull; done).
  pose proof (readable_len _ _ _ _ _ _ _ R0) as Hl. pose proof (readable_shows _ _ _ _ _ _ _ R0) as V.
  pose proof (view_readable _ _ _ _ _ _ _ R0) as Hview. pose proof R0 as [Hs Hd _ Hsl _ _].
  rewrite M_bind_eq, (deref_ok _ s0) by done. cbn [mbind res_bind]. unfold with_data. rewrite Hd.
  rewrite <-Hl. destruct ((zlen c0 <=? pos) || (pos <? 0)) eqn:E; propify.
  - split; [done|]. left. split; [done|]. intros p Hp (y & Hy & _). apply zget_Some_range in Hy. destruct E; propify; lia.
  - rewrite M_bind_eq, Hview. cbn [mbind res_bind]. apply lift_found.
    assert (u8 x = x) as -> by (apply Z.mod_small; unfold is_byte in *; lia).
    refine (char_search_up _ c0 _ (λ y, Done (y =? x)) V B0 _ pos _); [done|lia].
Qed.

Lemma bstrrchrp_ok x pos :
  pos < zlen c0 → is_byte x → returns (bstrrchrp b0 x pos h) (found (last_upto (char_at (λ y, y =? x) c0) pos)).
Proof using OK R0 B0.
  intros Hpos Hx. unfold bstrrchrp. rewrite (proj2 (Z.eqb_neq b0 0)) by (eapply readable_nonnull; done).
  pose proof (readable_len _ _ _ _ _ _ _ R0) as Hl. pose proof (readable_shows _ _ _ _ _ _ _ R0) as V.
  pose proof (view_readable _ _ _ _ _ _ _ R0) as Hview. pose proof R0 as [Hs Hd _ Hsl _ _].
  rewrite M_bind_eq, (deref_ok _ s0) by done. cbn [mbind res_bind]. unfold with_data. rewrite Hd.
  rewrite <-Hl. rewrite (proj2 (Z.leb_gt (zlen c0) pos)) by lia. destruct (pos <? 0) eqn:E; propify; cbn [orb].
  - split; [done|]. left. split; [done|]. intros p Hp (y & Hy & _). apply zget_Some_range in Hy. lia.
  - rewrite M_bind_eq, Hview. cbn [mbind res_bind]. apply lift_found.
    assert (u8 x = x) as -> by (apply Z.mod_small; unfold is_byte in *; lia).
    refine (char_search_down _ c0 _ (λ y, Done (y =? x)) V B0 _ pos _); [done|lia].
Qed.

Lemma first_byte_ok x : zget c1 0 = Some x → first_byte s1 h = Done (x, h).
Proof using R1.
  intros Hx. pose proof (zget_Some_range _ _ _ Hx). destruct R1 as [_ Hd Hb _ [? ?] Hc1].
  assert (zlen c1 = slen s1) as Hl by (eapply readable_len; exact R1).
  unfold first_byte. rewrite Hd. unfold read_byte. cbn [fst snd]. rewrite Hb.
  rewrite Hc1, zget_zslice, Z.add_0_r in Hx by lia. rewrite (load_ok _ _ _ Hx). done.
Qed.

(** The common part of the searches for a character of a set. *)
Lemma one_char : slen s1 = 1 → ∃ x, zget c1 0 = Some x ∧ is_byte x ∧ ∀ y, (y =? x) = set_of c1 y.
Proof using R1 B1.
  intros Hone. pose proof (readable_len _ _ _ _ _ _ _ R1) as Hl.
  destruct (zget_is_Some c1 0) as [x Hx]; [lia|]. exists x. split_and!; [done| |by apply set_of_single; [lia|]].
  rewrite zget_of_lookup in Hx by lia. by eapply Forall_lookup_1.
Qed.

Lemma binchr_spec pos :
  0 ≤ pos → returns (binchr b0 pos b1 h) (found (first_from (char_at (set_of c1) c0) pos)).
Proof using OK R0 R1 B0 B1.
  intros Hpos. unfold binchr. rewrite (proj2 (Z.ltb_ge pos 0)), (proj2 (Z.eqb_neq b0 0)) by first [assumption|eapply readable_nonnull; done].
  cbn [orb]. pose proof (readable_len _ _ _ _ _ _ _ R0) as Hl. pose proof (readable_shows _ _ _ _ _ _ _ R0) as V.
  pose proof (view_readable _ _ _ _ _ _ _ R0) as Hview. pose proof R0 as [Hs Hd _ Hsl _ _].
  rewrite M_bind_eq, (deref_ok _ s0) by done. cbn [mbind res_bind]. unfold with_data. rewrite Hd, <-Hl.
  destruct (zlen c0 <=? pos) eqn:E; propify.
  { split; [done|]. left. split; [done|]. intros p Hp (y & Hy & _). apply zget_Some_range in Hy. lia. }
  rewrite M_bind_eq, (deref_ok _ s1) by apply R1. cbn [mbind res_bind]. destruct (1 =? slen s1) eqn:E1; propify.
  - destruct one_char as (x & Hx & Hxb & Hset); [done|]. rewrite M_bind_eq, (first_byte_ok x) by done. cbn [mbind res_bind].
    eapply returns_mono; [by apply bstrchrp_ok|]. intros rh [Hh Hr]. split; [done|].
    eapply first_from_iff; [|exact Hr]. intros p. by apply char_at_iff.
  - rewrite M_bind_eq. apply returns_bind. eapply returns_mono; [by eapply buildCharField_ok|].
    intros [r h'] [-> Hr]. destruct (slen s1 =? 0) eqn:E2; propify.
    + subst r. split; [done|]. left. split; [done|]. intros p Hp (y & Hy & Hset).
      pose proof (readable_len _ _ _ _ _ _ _ R1). assert (c1 = []) as Hnil by (apply length_zero_iff_nil; unfold zlen in *; lia).
      rewrite Hnil in Hset. unfold set_of in Hset. apply bool_decide_eq_true in Hset. set_solver.
    + destruct Hr as (cf & -> & Hcf). rewrite M_bind_eq, Hview. cbn [mbind res_bind]. apply lift_found.
      refine (char_search_up _ c0 _ (testInCharField cf) V B0 _ pos _); [|lia].
      intros x Hx. by apply testInCharField_ok.
Qed.

(** Of an empty set the complement is not searched. *)
Lemma bninchr_spec pos :
  0 ≤ pos → returns (bninchr b0 pos b1 h) (found (λ r,
    if slen s1 =? 0 then r = BSTR_ERR else first_from (char_at (λ x, negb (set_of c1 x)) c0) pos r)).
Proof using OK R0 R1 B0 B1.
  intros Hpos. unfold bninchr. rewrite (proj2 (Z.ltb_ge pos 0)), (proj2 (Z.eqb_neq b0 0)) by first [assumption|eapply readable_nonnull; done].
  cbn [orb]. pose proof (readable_len _ _ _ _ _ _ _ R0) as Hl. pose proof (readable_shows _ _ _ _ _ _ _ R0) as V.
  pose proof (view_readable _ _ _ _ _ _ _ R0) as Hview. pose proof R0 as [Hs Hd _ Hsl _ _].
  rewrite M_bind_eq, (deref_ok _ s0) by done. cbn [mbind res_bind]. unfold with_data. rewrite Hd, <-Hl.
  destruct (zlen c0 <=? pos) eqn:E; propify.
  { split; [done|]. cbn [fst]. case_if; [done|]. left. split; [done|].
    intros p Hp (y & Hy & _). apply zget_Some_range in Hy. lia. }
  rewrite M_bind_eq. apply returns_bind. eapply returns_mono; [by eapply buildCharField_ok|].
  intros [r h'] [-> Hr]. destruct (slen s1 =? 0) eqn:E2; propify; [by subst r|].
  destruct Hr as (cf & -> & Hcf). rewrite M_bind_eq. unfold lift at 1. apply returns_bind, returns_bind.
  eapply returns_mono; [by apply invertCharField_ok|]. intros cf' Hcf'. cbn [returns mret res_ret].
  rewrite M_bind_eq, Hview. cbn [mbind res_bind]. apply lift_found.
  refine (char_search_up _ c0 _ (testInCharField cf') V B0 _ pos _); [|lia].
  intros x Hx. by apply (testInCharField_ok _ (λ x, negb (set_of c1 x))).
Qed.

Lemma binchrr_spec pos :
  0 ≤ pos ≤ zlen c0 → returns (binchrr b0 pos b1 h) (found (last_upto (char_at (set_of c1) c0) pos)).
Proof using OK R0 R1 B0 B1.
  intros Hpos. unfold binchrr. rewrite (proj2 (Z.ltb_ge pos 0)), (proj2 (Z.eqb_neq b0 0)) by first [lia|eapply readable_nonnull; done].
  cbn [orb]. pose proof (readable_len _ _ _ _ _ _ _ R0) as Hl. pose proof (readable_shows _ _ _ _ _ _ _ R0) as V.
  pose proof (view_readable _ _ _ _ _ _ _ R0) as Hview. pose proof R0 as [Hs Hd _ Hsl _ _].
  rewrite M_bind_eq, (deref_ok _ s0) by done. cbn [mbind res_bind]. unfold with_data. rewrite Hd, <-Hl.
  rewrite (proj2 (Z.eqb_neq b1 0)), (proj2 (Z.ltb_ge (zlen c0) pos)) by first [lia|eapply readable_nonnull; done]. cbn [orb].
  set (pos' := if pos =? zlen c0 then pos - 1 else pos).
  assert (-1 ≤ pos' < zlen c0) as Hpos' by (unfold pos'; case_if; lia).
  assert (∀ P r, last_upto (char_at P c0) pos' r → last_upto (char_at P c0) pos r) as Hend.
  { intros P r. unfold pos'. case_if; [by apply last_upto_end|done]. }
  clearbody pos'. rewrite M_bind_eq, (deref_ok _ s1) by apply R1. cbn [mbind res_bind]. destruct (1 =? slen s1) eqn:E1; propify.
  - destruct one_char as (x & Hx & Hxb & Hset); [done|]. rewrite M_bind_eq, (first_byte_ok x) by done. cbn [mbind res_bind].
    eapply returns_mono; [apply bstrrchrp_ok; [lia|done]|]. intros rh [Hh Hr]. split; [done|]. apply Hend.
    eapply last_upto_iff; [|exact Hr]. intros p. by apply char_at_iff.
  - rewrite M_bind_eq. apply returns_bind. eapply returns_mono; [by eapply buildCharField_ok|].
    intros [r h'] [-> Hr]. destruct (slen s1 =? 0) eqn:E2; propify.
    + subst r. split; [done|]. left. split; [done|]. intros p Hp (y & Hy & Hset).
      pose proof (readable_len _ _ _ _ _ _ _ R1). assert (c1 = []) as Hnil by (apply length_zero_iff_nil; unfold zlen in *; lia).
      rewrite Hnil in Hset. unfold set_of in Hset. apply bool_decide_eq_true in Hset. set_solver.
    + destruct Hr as (cf & -> & Hcf). rewrite M_bind_eq, Hview. cbn [mbind res_bind]. apply lift_found.
      eapply returns_mono; [|apply Hend].
      refine (char_search_down _ c0 _ (testInCharField cf) V B0 _ pos' _); [|lia].
      intros x Hx. by apply testInCharField_ok.
Qed.

Lemma bninchrr_spec pos :
  0 ≤ pos ≤ zlen c0 → returns (bninchrr b0 pos b1 h) (found (λ r,
    if slen s1 =? 0 then r = BSTR_ERR else last_upto (char_at (λ x, negb (set_of c1 x)) c0) pos r)).
Proof using OK R0 R1 B0 B1.
  intros Hpos. unfold bninchrr. rewrite (proj2 (Z.ltb_ge pos 0)), (proj2 (Z.eqb_neq b0 0)) by first [lia|eapply readable_nonnull; done].
  cbn [orb]. pose proof (readable_len _ _ _ _ _ _ _ R0) as Hl. pose proof (readable_shows _ _ _ _ _ _ _ R0) as V.
  pose proof (view_readable _ _ _ _ _ _ _ R0) as Hview. pose proof R0 as [Hs Hd _ Hsl _ _].
  rewrite M_bind_eq, (deref_ok _ s0) by done. cbn [mbind res_bind]. unfold with_data. rewrite Hd, <-Hl.
  rewrite (proj2 (Z.ltb_ge (zlen c0) pos)) by lia.
  set (pos' := if pos =? zlen c0 then pos - 1 else pos).
  assert (-1 ≤ pos' < zlen c0) as Hpos' by (unfold pos'; case_if; lia).
  assert (∀ P r, last_upto (char_at P c0) pos' r → last_upto (char_at P c0) pos r) as Hend.
  { intros P r. unfold pos'. case_if; [by apply last_upto_end|done]. }
  clearbody pos'. rewrite M_bind_eq. apply returns_bind. eapply returns_mono; [by eapply buildCharField_ok|].
  intros [r h'] [-> Hr]. destruct (slen s1 =? 0) eqn:E2; propify; [by subst r|].
  destruct Hr as (cf & -> & Hcf). rewrite M_bind_eq. unfold lift at 1. apply returns_bind, returns_bind.
  eapply returns_mono; [by apply invertCharField_ok|]. intros cf' Hcf'. cbn [returns mret res_ret].
  rewrite M_bind_eq, Hview. cbn [mbind res_bind]. apply lift_found.
  eapply returns_mono; [|apply Hend].
  refine (char_search_down _ c0 _ (testInCharField cf') V B0 _ pos' _); [|lia].
  intros x Hx. by apply (testInCharField_ok _ (λ x, negb (set_of c1 x))).
Qed.
End sets.

(** [binchr] and [bninchr] find the first position at or after [pos] of a
    character in, or not in, the set of the characters of the second string,
    kept as 256 bits; only for an empty set does [bninchr] report an error
    instead of the first character. *)
Theorem binchr_correct h b0 s0 X0 o0 bx0 c0 b1 s1 X1 o1 bx1 c1 pos :
  heap_ok h → readable h b0 s0 X0 o0 bx0 c0 → readable h b1 s1 X1 o1 bx1 c1 →
  Forall is_byte c0 → Forall is_byte c1 → 0 ≤ pos →
  returns (binchr b0 pos b1 h) (λ '(r, h'), h' = h ∧ first_from (char_at (λ x, bool_decide (x ∈ c1)) c0) pos r) ∧
  returns (bninchr b0 pos b1 h) (λ '(r, h'), h' = h ∧
    if slen s1 =? 0 then r = BSTR_ERR
    else first_from (char_at (λ x, negb (bool_decide (x ∈ c1))) c0) pos r).
Proof.
  intros OK R0 R1 B0 B1 Hpos. split.
  - eapply returns_mono; [by eapply (binchr_spec h b0 b1)|]. by intros [r h'] [??].
  - eapply returns_mono; [by eapply (bninchr_spec h b0 b1)|]. by intros [r h'] [??].
Qed.

(** Backwards, [binchrr] and [bninchrr] find the last such position at or
    before [pos]. *)
Theorem binchrr_correct h b0 s0 X0 o0 bx0 c0 b1 s1 X1 o1 bx1 c1 pos :
  heap_ok h → readable h b0 s0 X0 o0 bx0 c0 → readable h b1 s1 X1 o1 bx1 c1 →
  Forall is_byte c0 → Forall is_byte c1 → 0 ≤ pos ≤ zlen c0 →
  returns (binchrr b0 pos b1 h) (λ '(r, h'), h' = h ∧ last_upto (char_at (λ x, bool_decide (x ∈ c1)) c0) pos r) ∧
  returns (bninchrr b0 pos b1 h) (λ '(r, h'), h' = h ∧
    if slen s1 =? 0 then r = BSTR_ERR
    else last_upto (char_at (λ x, negb (bool_decide (x ∈ c1))) c0) pos r).
Proof.
  intros OK R0 R1 B0 B1 Hpos. split.
  - eapply returns_mono; [by eapply (binchrr_spec h b0 b1)|]. by intros [r h'] [??].
  - eapply returns_mono; [by eapply (bninchrr_spec h b0 b1)|]. by intros [r h'] [??].
Qed.

(** * Comparison *)

(** The bytes of an operand. *)
Lemma load_bytes_readable h b s X o bx c :
  readable h b s X o bx c → load_bytes (X, o) (slen s) h = Done (c, h).
Proof.
  intros [_ _ Hb Hsl [? ?] ->]. by rewrite (load_bytes_ok _ _ bx) by (done || lia).
Qed.

(** [biseq] decides whether two strings have the same characters. *)
Theorem biseq_correct h b0 s0 X0 o0 bx0 c0 b1 s1 X1 o1 bx1 c1 :
  heap_ok h → readable h b0 s0 X0 o0 bx0 c0 → readable h b1 s1 X1 o1 bx1 c1 →
  biseq b0 b1 h = Done (if bool_decide (c0 = c1) then 1 else 0, h).
Proof.
  intros OK R0 R1. unfold biseq.
  rewrite (with_operand_ok _ _ _ _ _ _ _ OK R0), (with_operand_ok _ _ _ _ _ _ _ OK R1). cbn [op_len op_data].
  pose proof (readable_len _ _ _ _ _ _ _ R0) as L0. pose proof (readable_len _ _ _ _ _ _ _ R1) as L1.
  destruct (slen s0 =? slen s1) eqn:El; propify; cbn [negb].
  2: { rewrite bool_decide_eq_false_2; [done|]. intros ->. lia. }
  destruct (same_ptr (X0, o0) (X1, o1)) eqn:Ep; unfold same_ptr in Ep; cbn [fst snd orb] in *; propify.
  { rewrite bool_decide_eq_true_2; [done|]. subst. destruct R0, R1. congruence. }
  destruct (slen s0 =? 0) eqn:E0; propify.
  { rewrite bool_decide_eq_true_2; [done|].
    assert (c0 = []) as -> by (apply length_zero_iff_nil; unfold zlen in *; lia).
    symmetry. apply length_zero_iff_nil. unfold zlen in *; lia. }
  unfold memcmp_eq. rewrite !M_bind_eq, (load_bytes_readable _ _ _ _ _ _ _ R0). cbn [mbind res_bind].
  rewrite M_bind_eq, El, (load_bytes_readable _ _ _ _ _ _ _ R1). done.
Qed.

(** [bstrnicmp] finds the first difference without case but returns
    the difference with case: for an upper-case letter against a lower-case one
    that precedes it the sign is the opposite of the order [bstricmp] reports. *)
Theorem bstrnicmp_sign h b0 s0 X0 o0 bx0 x c0 b1 s1 X1 o1 bx1 y c1 n :
  heap_ok h → readable h b0 s0 X0 o0 bx0 (x :: c0) → readable h b1 s1 X1 o1 bx1 (y :: c1) →
  (X0, o0) ≠ (X1, o1) → 65 ≤ x ≤ 90 → 97 ≤ y ≤ 122 → y < downcase x → 0 < n →
  ∃ v w, bstricmp b0 b1 h = Done (v, h) ∧ 0 < v ∧ bstrnicmp b0 b1 n h = Done (w, h) ∧ w < 0.
Proof.
  intros OK R0 R1 Hne Hx Hy Hlt Hn. exists (downcase x - y), (x - y).
  assert (downcase x = x + 32) as Hdx by (unfold downcase; case_if; [done|]; propify; naive_solver lia).
  assert (downcase y = y) as Hdy by (unfold downcase; case_if; [lia|done]).
  assert (∀ z, 0 ≤ z < 128 → schar z = z) as Hsc.
  { intros z Hz. unfold schar, sext. rewrite Z.mod_small by lia. by rewrite (proj2 (Z.ltb_lt z _)) by lia. }
  pose proof (readable_len _ _ _ _ _ _ _ R0) as L0. pose proof (readable_len _ _ _ _ _ _ _ R1) as L1.
  rewrite zlen_cons in L0, L1. pose proof (zlen_nonneg c0). pose proof (zlen_nonneg c1).
  pose proof (readable_shows _ _ _ _ _ _ _ R0) as V0. pose proof (readable_shows _ _ _ _ _ _ _ R1) as V1.
  assert (same_ptr (X0, o0) (X1, o1) = false) as Hsame.
  { apply andb_false_iff. cbn. destruct (X0 =? X1) eqn:E; [right|by left]. propify. apply Z.eqb_neq. congruence. }
  pose proof (shows_load _ _ 0 x V0 eq_refl) as Lx. pose proof (shows_load _ _ 0 y V1 eq_refl) as Ly.
  split_and!; [| lia | | lia].
  - unfold bstricmp. rewrite (with_operand_ok _ _ _ _ _ _ _ OK R0), (with_operand_ok _ _ _ _ _ _ _ OK R1).
    cbn [op_len op_data op_bytes]. rewrite Hsame, andb_false_r. unfold lift.
    assert (∃ m, Z.to_nat (Z.min (slen s0) (slen s1)) = Datatypes.S m) as [m ->].
    { exists (Z.to_nat (Z.min (slen s0) (slen s1) - 1)). lia. }
    cbn [scan]. rewrite Lx. cbn [mbind res_bind]. rewrite Ly. cbn [mbind res_bind].
    rewrite Hdx, Hdy, !Hsc by lia. rewrite (proj2 (Z.eqb_neq (x + 32 - y) 0)) by lia. done.
  - unfold bstrnicmp. rewrite (with_operand_ok _ _ _ _ _ _ _ OK R0), (with_operand_ok _ _ _ _ _ _ _ OK R1).
    cbn [op_len op_data op_bytes]. rewrite (proj2 (Z.ltb_ge n 0)) by lia. rewrite Hsame. cbn [negb]. unfold lift.
    assert (∃ m, Z.to_nat (Z.min (Z.min n (slen s0)) (slen s1)) = Datatypes.S m) as [m ->].
    { exists (Z.to_nat (Z.min (Z.min n (slen s0)) (slen s1) - 1)). lia. }
    cbn [scan]. rewrite Lx. cbn [mbind res_bind]. rewrite Ly. cbn [mbind res_bind].
    rewrite Hdx, Hdy, !Hsc by lia. rewrite (proj2 (Z.eqb_neq (x + 32 - y) 0)) by lia. done.
Qed.

(** * Witnesses *)

(** "aXabab" in block 10, and "ab", a slice of it, through another header. *)
Definition hay : list Z := [97; 97; 98; 97; 98; 0].
Definition search_heap : bheap :=
  mkHeap {[1 := mkB 6 5 (Some (10, 0)); 2 := mkB (-1) 2 (Some (10, 3)); 3 := mkB 2 1 (Some (11, 0))]}
    {[10 := hay; 11 := [66; 0]]} 12 [] 205.

Lemma search_heap_ok : heap_ok search_heap.
Proof.
  split; cbn [next search_heap structs blocks]; [lia| | |done]; intros a Ha;
    rewrite !lookup_insert_ne by lia; apply lookup_singleton_ne; lia.
Qed.

Lemma hay_readable : readable search_heap 1 (mkB 6 5 (Some (10, 0))) 10 0 hay [97; 97; 98; 97; 98].
Proof. split; try done; by vm_compute. Qed.

Lemma needle_readable : readable search_heap 2 (mkB (-1) 2 (Some (10, 3))) 10 3 hay [97; 98].
Proof. split; try done; by vm_compute. Qed.

Lemma upper_readable : readable search_heap 3 (mkB 2 1 (Some (11, 0))) 11 0 [66; 0] [66].
Proof. split; try done; by vm_compute. Qed.

Lemma search_bytes l : forallb (λ x, (0 <=? x) && (x <? 256)) l = true → Forall is_byte l.
Proof.
  intros Hb. apply Forall_forall. intros x Hx. rewrite forallb_forall in Hb.
  rewrite list_elem_of_In in Hx. specialize (Hb x Hx). unfold is_byte. propify. lia.
Qed.

Lemma binstr_correct_witness :
  returns (binstr 1 0 2 search_heap) (λ '(r, h'), h' = search_heap ∧
    first_from (occurs Z.eqb [97; 98] [97; 97; 98; 97; 98]) 0 r).
Proof.
  apply (binstr_correct search_heap 1 _ 10 0 hay [97; 97; 98; 97; 98] 2 _ 10 3 hay [97; 98] 0
    search_heap_ok hay_readable needle_readable). reflexivity.
Defined.

Example binstr_sample : binstr 1 0 2 search_heap = Done (1, search_heap).
Proof. vm_compute. reflexivity. Qed.

Lemma binstrr_correct_witness :
  returns (binstrr 1 2 2 search_heap) (λ '(r, h'), h' = search_heap ∧
    last_upto (occurs Z.eqb [97; 98] [97; 97; 98; 97; 98]) 2 r) ∧
  returns (binstrrcaseless 1 2 2 search_heap) (λ '(r, h'), h' = search_heap ∧
    last_upto (occurs same_caseless [97; 98] [97; 97; 98; 97; 98]) 2 r).
Proof.
  apply (binstrr_correct search_heap 1 _ 10 0 hay [97; 97; 98; 97; 98] 2 _ 10 3 hay [97; 98] 2
    search_heap_ok hay_readable needle_readable). by vm_compute.
Defined.

Lemma binchr_correct_witness :
  returns (binchr 1 1 2 search_heap) (λ '(r, h'), h' = search_heap ∧
    first_from (char_at (λ x, bool_decide (x ∈ [97; 98])) [97; 97; 98; 97; 98]) 1 r) ∧
  returns (bninchr 1 1 2 search_heap) (λ '(r, h'), h' = search_heap ∧
    first_from (char_at (λ x, negb (bool_decide (x ∈ [97; 98]))) [97; 97; 98; 97; 98]) 1 r).
Proof.
  apply (binchr_correct search_heap 1 _ 10 0 hay [97; 97; 98; 97; 98] 2 _ 10 3 hay [97; 98] 1
    search_heap_ok hay_readable needle_readable); [apply search_bytes; reflexivity..|lia].
Defined.

Lemma binchrr_correct_witness :
  returns (binchrr 1 5 2 search_heap) (λ '(r, h'), h' = search_heap ∧
    last_upto (char_at (λ x, bool_decide (x ∈ [97; 98])) [97; 97; 98; 97; 98]) 5 r) ∧
  returns (bninchrr 1 5 2 search_heap) (λ '(r, h'), h' = search_heap ∧
    last_upto (char_at (λ x, negb (bool_decide (x ∈ [97; 98]))) [97; 97; 98; 97; 98]) 5 r).
Proof.
  apply (binchrr_correct search_heap 1 _ 10 0 hay [97; 97; 98; 97; 98] 2 _ 10 3 hay [97; 98] 5
    search_heap_ok hay_readable needle_readable); [apply search_bytes; reflexivity..|by vm_compute].
Defined.

Lemma bstrnicmp_sign_witness :
  ∃ v w, bstricmp 3 1 search_heap = Done (v, search_heap) ∧ 0 < v ∧
    bstrnicmp 3 1 1 search_heap = Done (w, search_heap) ∧ w < 0.
Proof.
  apply (bstrnicmp_sign search_heap 3 _ 11 0 [66; 0] 66 [] 1 _ 10 0 hay 97 [97; 98; 97; 98] 1
    search_heap_ok upper_readable hay_readable); [done|lia|lia|by vm_compute|lia].
Defined.
