(* ===== verification/BstrOps.v ===== *)
(** libs/bstrlib/bstrlib.c, continued: strings made from C strings and from
    sections of other strings, and the contracts of the operations of
    Bstrlib.v that trim, insert and assign. *)
From S2P Require Import Prelude CMemory Bstrlib BstrSearch.

(** * Code *)

(** The characters before the first NUL; a C string has one. *)
Fixpoint until_nul (v : list Z) : option (list Z) :=
  match v with
  | [] => None
  | x :: v => if x =? 0 then Some [] else (x ::.) <$> until_nul v
  end.

Definition cstring (p : ptr) : BM (list Z) :=
  v ← view p; match until_nul v with Some c => mret c | None => undef end.

(** [bfromcstr] on a C string whose characters are [c]; sizes are cast from
    [size_t] to [int]. *)
Definition bfromcstr_of (c : list Z) : BM Z :=
  let j := zlen c in
  let i := snapUpSize (sext 32 (j + (2 - (if negb (j =? 0) then 1 else 0)))) in
  if i <=? sext 32 j then mret 0 else
  b ← malloc_struct blank;
  if b =? 0 then mret 0 else
  x ← malloc i;
  match x with
  | None => free_struct b;; mret 0
  | Some x => put b (mkB i (sext 32 j) (Some x));; store_bytes x (c ++ [0]);; mret b
  end.

Definition bfromcstr (str : option ptr) : BM Z :=
  match str with None => mret 0 | Some p => c ← cstring p; bfromcstr_of c end.

Definition no_fuel {A} : BM A := λ _, OutOfFuel.

(** The loop that asks for less and less memory. *)
Fixpoint range_alloc (fuel : nat) (minl i : Z) : BM (option (ptr * Z)) :=
  malloc i ≫= λ x : option ptr,
    match x with
    | Some x => mret (Some (x, i))
    | None =>
        let k := Z.shiftr i 1 + Z.shiftr minl 1 in
        if (i =? k) || (i <? minl) then mret None
        else match fuel with O => no_fuel | S fuel => range_alloc fuel minl k end
    end.

Definition bfromcstrrangealloc (minl maxl : Z) (str : option ptr) : BM Z :=
  match str with
  | None => mret 0
  | Some p =>
      if (maxl <? minl) || (minl <? 0) then mret 0 else
      c ← cstring p;
      let j := zlen c in
      let minl := if minl <? j + 1 then sext 32 (j + 1) else minl in
      let maxl := if maxl <? minl then minl else maxl in
      b ← malloc_struct blank;
      if b =? 0 then mret 0 else
      r ← range_alloc 64 minl maxl;
      match r with
      | None => free_struct b;; mret 0
      | Some (x, i) => put b (mkB i (sext 32 j) (Some x));; store_bytes x (c ++ [0]);; mret b
      end
  end.

Definition bfromcstralloc (mlen : Z) (str : option ptr) : BM Z := bfromcstrrangealloc mlen mlen str.

(** [bstr2cstr]: a new C string, NULs of [b] replaced by [z]. *)
Definition bstr2cstr (b z : Z) : BM (option ptr) :=
  o ← operand_of b;
  match o with
  | None => mret None
  | Some o =>
      n ← icint (op_len o + 1);
      r ← malloc n;
      match r with
      | None => mret None
      | Some r =>
          xs ← load_bytes (op_data o) (op_len o);
          store_bytes r ((λ x, if x =? 0 then u8 z else x) <$> xs);;
          write_byte (padd r (op_len o)) 0;;
          mret (Some r)
      end
  end.

Definition bcstrfree (s : option ptr) : BM Z :=
  match s with Some p => free p;; mret BSTR_OK | None => mret BSTR_ERR end.

Definition bmidstr (b left len : Z) : BM Z :=
  if b =? 0 then mret 0 else
  s ← deref b;
  if slen s <? 0 then mret 0 else
  match data s with
  | None => mret 0
  | Some d =>
      len ← (if left <? 0 then icint (len + left) else mret len);
      let left := if left <? 0 then 0 else left in
      room ← icint (slen s - left);
      let len := if room <? len then room else len in
      if len <=? 0 then bfromcstr_of [] else blk2bstr (Some (padd d left)) len
  end.

(** Copies at most [n] bytes, up to a NUL: whether the NUL was copied, and the
    number of bytes before it. *)
Fixpoint copy_until_nul (d s : ptr) (n : nat) (i : Z) : BM (bool * Z) :=
  match n with
  | O => mret (false, i)
  | S n =>
      c ← read_byte (padd s i);
      write_byte (padd d i) c;;
      if c =? 0 then mret (true, i) else copy_until_nul d s n (i + 1)
  end.

Definition bcatcstr (b : Z) (s : option ptr) : BM Z :=
  if b =? 0 then mret BSTR_ERR else
  t ← deref b;
  with_data t BSTR_ERR (λ d,
  if unwritable t then mret BSTR_ERR else
  match s with
  | None => mret BSTR_ERR
  | Some s =>
      r ← copy_until_nul (padd d (slen t)) s (Z.to_nat (mlen t - slen t)) 0;
      let '(stop, i) := r in
      put b (mkB (mlen t) (slen t + i) (data t));;
      if (stop : bool) then mret BSTR_OK
      else c ← cstring (padd s i); bcatblk b (Some (padd s i)) (sext 32 (zlen c))
  end).

Definition bassigncstr (a : Z) (str : option ptr) : BM Z :=
  if a =? 0 then mret BSTR_ERR else
  t ← deref a;
  with_data t BSTR_ERR (λ d,
  if (mlen t <? slen t) || (slen t <? 0) || (mlen t =? 0) then mret BSTR_ERR else
  match str with
  | None => mret BSTR_ERR
  | Some s =>
      r ← copy_until_nul d s (Z.to_nat (mlen t)) 0;
      let '(stop, i) := r in
      put a (mkB (mlen t) i (data t));;
      if (stop : bool) then mret BSTR_OK else
      c ← cstring (padd s i);
      let len := zlen c in
      if INT_MAX - i <? len + 1 then mret BSTR_ERR else
      r ← balloc a (i + len + 1);
      if r <? 0 then mret BSTR_ERR else
      t ← deref a;
      with_data t BSTR_ERR (λ d,
      bBlockCopy (padd d i) (padd s i) (len + 1);;
      put a (mkB (mlen t) (slen t + len) (data t));;
      mret BSTR_OK)
  end).

(** * New strings *)

(** How an operation that makes a string ends: NULL and nothing changed, an
    allocation having failed, or a new header and block that hold [c], and
    nothing else changed. *)
Definition created (h : bheap) (c : list Z) (rh : Z * bheap) : Prop :=
  let '(r, h') := rh in
  r = 0 ∧ out_of_memory h h' ∨ ∃ sa Y new, copied h h' r sa Y new c.

(** A blank header [a] and nothing else has been allocated. *)
Record header_only (h h1 : bheap) (a : Z) : Prop := {
  ho_structs : structs h1 = <[a := blank]> (structs h);
  ho_blocks : blocks h1 = blocks h;
  ho_fresh : structs h !! a = None ∧ a ≠ 0;
  ho_ok : heap_ok h1 }.

Section new_strings.
Context (h : bheap) (c : list Z) (OK : heap_ok h).

Lemma step_new_header (k : Z → BM Z) :
  (∀ h1 a, header_only h h1 a → returns (k a h1) (created h c)) →
  returns ((b ← malloc_struct blank; if b =? 0 then mret 0 else k b) h) (created h c).
Proof using OK.
  intros Hk. apply step_malloc_struct; [done| |].
  { intros h' Hsame. by left. }
  intros h1 Es1 Eb1 OK1 Hn1. destruct (heap_ok_fresh h OK) as [Hfa _]. set (a := next h) in *.
  assert (a ≠ 0) as Ha0 by (pose proof (ok_next _ OK); lia). clearbody a.
  rewrite (proj2 (Z.eqb_neq a 0)) by done. by apply Hk.
Qed.

Lemma step_new_block h1 a n (fill : ptr → BM Z) :
  header_only h h1 a → 0 ≤ n →
  (∀ h2 Y new, allocated h h2 a Y new → zlen new = n → returns (fill (Y, 0) h2) (created h c)) →
  returns ((x ← malloc n; match x with None => free_struct a;; mret 0 | Some x => fill x end) h1) (created h c).
Proof using OK.
  intros [Es1 Eb1 [Hfa Ha0] OK1] Hn Hfill. apply step_malloc; [done| |].
  - intros h2 Hsame. eapply (step_free_header h h1); [done..|]. intros h' Hsame'. by left.
  - intros h2 Es2 Eb2 OK2 _.
    apply (Hfill h2 (next h1) (replicate (Z.to_nat n) (junk h1))); [|rewrite zlen_replicate; lia].
    split; [congruence|by rewrite Eb2, Eb1| |done]. split_and!; [done| |done].
    rewrite <-Eb1. apply (heap_ok_fresh h1 OK1).
Qed.
End new_strings.

Lemma step_blk2bstr h X o bx len :
  heap_ok h → blocks h !! X = Some bx → 0 ≤ o → 0 ≤ len < INT_MAX → o + len ≤ zlen bx →
  returns (blk2bstr (Some (X, o)) len h) (created h (zslice bx o len)).
Proof.
  intros OK HX Ho Hlen Hon. unfold blk2bstr. rewrite (proj2 (Z.ltb_ge len 0)) by lia.
  set (i := len + (2 - (if negb (len =? 0) then 1 else 0))).
  assert (len < i ≤ INT_MAX ∧ 0 ≤ i) as [Hi Hi0] by (unfold i; case_if; int_lia). clearbody i.
  pose proof (snapUpSize_bounds i ltac:(lia)) as (Hsn & _ & _).
  assert ((0 <? len) = negb (len =? 0)) as ->.
  { destruct (len =? 0) eqn:E; propify; [apply Z.ltb_ge|apply Z.ltb_lt]; lia. }
  apply step_new_header; [done|]. intros h1 a Ha.
  eapply step_lift; [apply cint_ok; int_lia|].
  apply step_new_block; [done|done|lia|]. intros h2 Y new Al Hnew. rewrite <-Hnew.
  eapply step_fill_fresh with (bx := bx); [exact Al|done|lia|lia|lia|lia|done|].
  intros h' new' Hcp. right. by eexists _, _, _.
Qed.

(** [store_bytes] of characters and their NUL into the new block. *)
Lemma step_fill_literal h h2 a Y new c :
  allocated h h2 a Y new → zlen c < zlen new →
  returns ((put a (mkB (zlen new) (zlen c) (Some (Y, 0)));; store_bytes (Y, 0) (c ++ [0]);; mret a) h2)
    (created h c).
Proof.
  intros Al Hlt. pose proof (zlen_nonneg c). eapply step_put_fresh; [exact Al|]. intros h3 Hu.
  assert (zlen (c ++ [0]) = zlen c + 1) as Hl by (by rewrite zlen_app).
  eapply step_store; [exact Hu|lia|cbn; lia|]. intros h4 Hu4. right. eexists _, _, _.
  eapply copied_of_upd; [exact Al|exact Hu4|cbn; lia| |].
  - unfold content. cbn [slen]. rewrite zwrite_zero_app, <-app_assoc. unfold zlen. rewrite Nat2Z.id.
    apply take_app_length.
  - cbn [slen]. rewrite zwrite_zero_app, <-app_assoc. apply zget_app_mid.
Qed.

Lemma bfromcstr_of_spec h c :
  heap_ok h → zlen c < INT_MAX → returns (bfromcstr_of c h) (created h c).
Proof.
  intros OK Hc. unfold bfromcstr_of. pose proof (zlen_nonneg c).
  set (i := zlen c + (2 - (if negb (zlen c =? 0) then 1 else 0))).
  assert (zlen c < i ≤ INT_MAX ∧ 0 ≤ i) as [Hi Hi0] by (unfold i; case_if; int_lia). clearbody i.
  rewrite !sext32_id by int_lia. pose proof (snapUpSize_bounds i ltac:(lia)) as (Hsn & _ & _).
  rewrite (proj2 (Z.leb_gt (snapUpSize i) (zlen c))) by lia.
  apply step_new_header; [done|]. intros h1 a Ha.
  apply step_new_block; [done|done|lia|]. intros h2 Y new Al Hnew. rewrite <-Hnew. by apply step_fill_literal; [|lia].
Qed.

Lemma step_bmidstr h b s X o bx c left len :
  heap_ok h → readable h b s X o bx c → slen s < INT_MAX →
  INT_MIN ≤ len + Z.min left 0 → len ≤ INT_MAX → left ≤ INT_MAX →
  returns (bmidstr b left len h)
    (created h (zslice c (Z.max left 0) (len + Z.min left 0))).
Proof.
  intros OK R Hs Hmin Hlen Hleft. unfold bmidstr.
  pose proof (readable_nonnull _ _ _ _ _ _ _ OK R) as Hb. pose proof R as [Hsb Hd HX Hl [Ho Hol] Hc].
  rewrite (proj2 (Z.eqb_neq b 0)) by done. eapply step_deref; [done|].
  rewrite (proj2 (Z.ltb_ge (slen s) 0)) by lia. rewrite Hd.
  assert (∀ l' n', 0 ≤ l' ≤ INT_MAX → INT_MIN ≤ n' ≤ INT_MAX →
    returns ((room ← icint (slen s - l');
      let len := if room <? n' then room else n' in
      if len <=? 0 then bfromcstr_of [] else blk2bstr (Some (padd (X, o) l')) len) h)
      (created h (zslice c l' n'))) as Hmain.
  { intros l' n' Hl' Hn'. eapply step_lift; [apply cint_ok; int_lia|]. cbn zeta.
    set (len' := if slen s - l' <? n' then slen s - l' else n').
    assert (len' ≤ n' ∧ len' ≤ slen s - l' ∧ (len' = n' ∨ len' = slen s - l')) as (H1 & H2 & H3) by (unfold len'; case_if; lia).
    clearbody len'. assert (zlen c = slen s) as Hlc by (eapply readable_len; exact R).
    destruct (len' <=? 0) eqn:E; propify.
    - assert (zslice c l' n' = []) as ->; [|by apply bfromcstr_of_spec; [|by vm_compute]].
      unfold zslice. destruct H3 as [->| ->].
      + replace (Z.to_nat n') with O by lia. by rewrite take_0.
      + rewrite drop_ge by (unfold zlen in Hlc; lia). apply take_nil.
    - assert (zslice c l' n' = zslice bx (o + l') len') as ->.
      { assert (zslice c l' n' = zslice c l' len') as ->.
        { destruct H3 as [->| ->]; [done|]. unfold zslice.
          rewrite !(take_ge (drop _ c)); [done|rewrite length_drop; unfold zlen in Hlc; lia..]. }
        apply zlist_eq; rewrite !zlen_zslice by lia; [done|]. intros i Hi.
        rewrite !zget_zslice by lia. rewrite Hc, zget_zslice by lia. f_equal. lia. }
      unfold padd. cbn [fst snd]. apply step_blk2bstr; [done|done|lia|lia|lia]. }
  destruct (left <? 0) eqn:E; propify.
  - eapply step_lift; [apply cint_ok; int_lia|]. replace (Z.max left 0) with 0 by lia.
    replace (len + Z.min left 0) with (len + left) in * by lia. apply Hmain; int_lia.
  - apply step_ret. replace (Z.max left 0) with left by lia.
    replace (len + Z.min left 0) with len in * by lia. apply Hmain; int_lia.
Qed.

#[global] Instance flagged_bfromcstr_of c : Flagged (bfromcstr_of c).
Proof. unfold bfromcstr_of. flagged_cases. Qed.

#[global] Instance flagged_blk2bstr blk n : Flagged (blk2bstr blk n).
Proof. unfold blk2bstr, icint. flagged_cases. Qed.

#[global] Instance flagged_bmidstr b left len : Flagged (bmidstr b left len).
Proof. unfold bmidstr, icint. flagged_cases. Qed.

(** [bmidstr] makes a string of the part of the section that lies
    inside the operand, whose header and bytes stay as they are; when memory
    runs out it leaves nothing behind. *)
Theorem bmidstr_correct h b s X o bx c left len :
  heap_ok h → readable h b s X o bx c → slen s < INT_MAX →
  INT_MIN ≤ len + Z.min left 0 → len ≤ INT_MAX → left ≤ INT_MAX →
  returns (bmidstr b left len h)
    (created h (zslice c (Z.max left 0) (len + Z.min left 0))).
Proof. apply step_bmidstr. Qed.

(** * Trimming *)

(** Without the leading, and without the trailing spaces. *)
Fixpoint ltrim (c : list Z) : list Z :=
  match c with [] => [] | x :: c' => if wspace x then ltrim c' else c end.

Definition rtrim (c : list Z) : list Z := reverse (ltrim (reverse c)).

Lemma ltrim_suffix c : ∃ l, c = l ++ ltrim c ∧ Forall (λ x, wspace x = true) l.
Proof.
  induction c as [|x c (l & Hl & HF)]; [by exists []|]. cbn [ltrim].
  destruct (wspace x) eqn:E; [|by exists []]. exists (x :: l). split; [cbn; by rewrite <-Hl|by constructor].
Qed.

Lemma ltrim_drop c : drop (Z.to_nat (zlen c - zlen (ltrim c))) c = ltrim c ∧ 0 ≤ zlen c - zlen (ltrim c).
Proof.
  destruct (ltrim_suffix c) as (l & Hl & _). pose proof (zlen_nonneg l).
  assert (zlen c - zlen (ltrim c) = zlen l) as -> by (rewrite Hl at 1; rewrite zlen_app; lia).
  split; [|lia]. rewrite Hl at 1. unfold zlen. rewrite Nat2Z.id. apply drop_app_length.
Qed.

Lemma rtrim_prefix c : ∃ r, c = rtrim c ++ r ∧ Forall (λ x, wspace x = true) r.
Proof.
  destruct (ltrim_suffix (reverse c)) as (l & Hl & HF). exists (reverse l). split.
  - unfold rtrim. rewrite <-reverse_app, <-Hl. by rewrite reverse_involutive.
  - by apply Forall_reverse.
Qed.

Lemma rtrim_take c : take (Z.to_nat (zlen (rtrim c))) c = rtrim c ∧ zlen (rtrim c) ≤ zlen c.
Proof.
  destruct (rtrim_prefix c) as (r & Hr & _). pose proof (zlen_nonneg r). split.
  - rewrite Hr at 2. unfold zlen. rewrite Nat2Z.id. apply take_app_length.
  - rewrite Hr at 2. rewrite zlen_app. lia.
Qed.

Lemma rtrim_snoc c x : rtrim (c ++ [x]) = if wspace x then rtrim c else c ++ [x].
Proof.
  unfold rtrim. rewrite reverse_snoc. cbn [ltrim]. destruct (wspace x); [done|].
  by rewrite reverse_cons, reverse_involutive.
Qed.

(** What is left of a non-blank string starts and ends with other characters. *)
Lemma ltrim_head c x l : ltrim c = x :: l → wspace x = false.
Proof. induction c as [|y c IH]; [done|]. cbn [ltrim]. destruct (wspace y) eqn:E; [done|]. intros; by simplify_eq. Qed.

Lemma ltrim_rtrim c : rtrim c ≠ [] → ltrim (rtrim c) ≠ [].
Proof.
  intros Hne Hnil. unfold rtrim in *. destruct (ltrim (reverse c)) as [|x l] eqn:E; [done|].
  apply ltrim_head in E. rewrite reverse_cons in Hnil.
  destruct (ltrim_suffix (reverse l ++ [x])) as (k & Hk & HF). rewrite Hnil, app_nil_r in Hk. rewrite <-Hk in HF.
  apply Forall_app in HF as [_ HF]. rewrite Forall_singleton in HF. cbn in HF. congruence.
Qed.

Section skipping.
Context (h : bheap) (B : Z) (buf : list Z) (HB : blocks h !! B = Some buf).

Lemma read_byte_ok i x : zget buf i = Some x → read_byte (padd (B, 0) i) h = Done (x, h).
Proof using HB.
  intros Hx. unfold read_byte, padd. cbn [fst snd]. rewrite HB, Z.add_0_l. by rewrite (load_ok _ _ _ Hx).
Qed.

Lemma skip_spaces_ok n i :
  0 ≤ i → i + Z.of_nat n ≤ zlen buf →
  skip_spaces (B, 0) n i h = Done (match ltrim (zslice buf i (Z.of_nat n)) with
    | [] => None | k => Some (i + Z.of_nat n - zlen k) end, h).
Proof using HB.
  revert i. induction n as [|n IH]; intros i Hi Hn; [done|].
  destruct (zget_is_Some buf i) as [x Hx]; [lia|].
  rewrite (zslice_cons _ _ _ x) by (done || lia). cbn [skip_spaces ltrim].
  rewrite M_bind_eq, (read_byte_ok i x) by done. cbn [mbind res_bind].
  replace (Z.of_nat (S n) - 1) with (Z.of_nat n) by lia. destruct (wspace x).
  - rewrite IH by lia. destruct (ltrim _); [done|]. do 3 f_equal. lia.
  - unfold mret, M_ret. do 3 f_equal. rewrite zlen_cons, zlen_zslice by lia. lia.
Qed.

Lemma skip_spaces_back_ok n :
  Z.of_nat n ≤ zlen buf →
  skip_spaces_back (B, 0) n h = Done (match rtrim (take n buf) with
    | [] => None | k => Some (zlen k - 1) end, h).
Proof using HB.
  induction n as [|n IH]; intros Hn; [done|].
  destruct (zget_is_Some buf (Z.of_nat n)) as [x Hx]; [lia|].
  cbn [skip_spaces_back]. rewrite M_bind_eq, (read_byte_ok _ x) by done. cbn [mbind res_bind].
  rewrite zget_nat in Hx. rewrite (take_S_r _ _ x) by done. rewrite rtrim_snoc. destruct (wspace x).
  - apply IH. lia.
  - destruct (take n buf ++ [x]) eqn:E; [by destruct (take n buf)|]. rewrite <-E. unfold mret, M_ret. do 3 f_equal.
    rewrite zlen_app. unfold zlen in *. rewrite length_take. change (length [x]) with 1%nat. lia.
Qed.
End skipping.

Section trimming.
Context (h : bheap) (b : Z) (s : tagbstring) (B : Z) (buf : list Z).
Context (OK : heap_ok h) (W : writable h b s B buf) (T : terminated s buf).

Let c := content s buf.

(** How a trim ends: never with an error. *)
Definition trimmed (m : list Z) (rh : Z * bheap) : Prop := rh.1 = BSTR_OK ∧ edited h b B m rh.

Lemma trimmed_ok m h' s' buf' :
  upd h b B h' s' B buf' → terminated s' buf' → content s' buf' = m →
  returns ((mret BSTR_OK : BM Z) h') (trimmed m).
Proof. intros. split; [done|]. by eapply edited_ok. Qed.

Lemma zslice_all : zslice buf 0 (slen s) = c.
Proof. unfold zslice, c, content. by rewrite drop_0. Qed.

Lemma empty_string_ok h1 s1 buf1 :
  upd h b B h1 s1 B buf1 → 0 < mlen s1 → returns (empty_string b s1 (B, 0) h1) (trimmed []).
Proof using OK W.
  intros Hu Hm. unfold empty_string. change (B, 0) with (padd (B, 0) 0).
  eapply step_write_byte; [exact Hu|lia|]. intros h2 Hu2.
  eapply step_put; [exact Hu2|done|done|]. intros h3 Hu3.
  pose proof (u_mlen _ _ _ _ _ _ _ Hu) as Hl. eapply trimmed_ok; [exact Hu3| |done].
  split; [cbn; lia|]. cbn [slen]. apply zget_zwrite_one. lia.
Qed.

Lemma bdelete_ok h1 s1 buf1 n :
  upd h b B h1 s1 B buf1 → terminated s1 buf1 → 0 ≤ n ≤ INT_MAX →
  returns (bdelete b 0 n h1) (trimmed (drop (Z.to_nat n) (content s1 buf1))).
Proof using OK W.
  intros Hu Ht Hn. rewrite <-(M_bind_ret_r (bdelete b 0 n)).
  eapply step_bdelete; [exact (ok_null _ OK)|by eapply b_nonnull|exact Hu|done|lia|lia|lia|].
  intros h2 s2 buf2 Hu2 Ht2 Hc2. by eapply trimmed_ok.
Qed.

Lemma cut_after_ok {A} h1 s1 buf1 i (k : unit → BM A) (Q : A * bheap → Prop) :
  upd h b B h1 s1 B buf1 → 0 ≤ i < slen s1 → slen s1 < mlen s1 →
  (∀ h2 buf2, upd h b B h2 (mkB (mlen s1) (i + 1) (data s1)) B buf2 →
     terminated (mkB (mlen s1) (i + 1) (data s1)) buf2 →
     content (mkB (mlen s1) (i + 1) (data s1)) buf2 = take (Z.to_nat (i + 1)) (content s1 buf1) →
     returns (k tt h2) Q) →
  returns ((cut_after b s1 (B, 0) i ≫= k) h1) Q.
Proof using Type.
  intros Hu Hi Hs Hk. unfold cut_after. apply step_assoc. rewrite (proj2 (Z.ltb_lt i (mlen s1))) by lia.
  pose proof (u_mlen _ _ _ _ _ _ _ Hu) as Hl.
  eapply step_write_byte; [exact Hu|lia|]. intros h2 Hu2.
  eapply step_put; [exact Hu2|done|done|]. intros h3 Hu3. eapply Hk; [exact Hu3| |].
  - split; [cbn; lia|]. cbn [slen]. apply zget_zwrite_one. lia.
  - unfold content. cbn [slen]. rewrite zwrite_take by lia. rewrite take_take. f_equal. lia.
Qed.

(** [bltrimws], [brtrimws] and [btrimws] remove exactly the leading,
    the trailing, and both kinds of spaces, in place; a string of spaces becomes
    empty. *)
Theorem btrimws_correct :
  slen s ≤ INT_MAX →
  returns (bltrimws b h) (trimmed (ltrim c)) ∧
  returns (brtrimws b h) (trimmed (rtrim c)) ∧
  returns (btrimws b h) (trimmed (ltrim (rtrim c))).
Proof using OK W T.
  intros Hmax. pose proof (b_nonnull _ _ _ _ _ OK W) as Hb. pose proof W as [Hs Hd HB Hm Hsl].
  pose proof (upd_refl h b s B buf OK W) as Hu. pose proof (zlen_content s buf ltac:(lia)) as Hlc. fold c in Hlc.
  unfold bltrimws, brtrimws, btrimws, with_data, unwritable. rewrite (proj2 (Z.eqb_neq b 0)) by done.
  assert ((slen s <? 0) || (mlen s <? slen s) || (mlen s <=? 0) = false) as Hw.
  { rewrite (proj2 (Z.ltb_ge (slen s) 0)), (proj2 (Z.ltb_ge (mlen s) (slen s))), (proj2 (Z.leb_gt (mlen s) 0)) by lia. done. }
  pose proof (skip_spaces_ok h B buf HB (Z.to_nat (slen s)) 0 ltac:(lia) ltac:(lia)) as Hskip.
  replace (Z.of_nat (Z.to_nat (slen s))) with (slen s) in Hskip by lia. rewrite zslice_all in Hskip.
  pose proof (skip_spaces_back_ok h B buf HB (Z.to_nat (slen s)) ltac:(lia)) as Hback. fold (content s buf) in Hback. fold c in Hback.
  destruct (rtrim_take c) as [Hrt Hrl]. destruct (ltrim_drop c) as [Hld Hll].
  split_and!; (eapply step_deref; [done|]); rewrite Hd, Hw, M_bind_eq.
  - rewrite Hskip. cbn [mbind res_bind]. destruct (ltrim c) as [|x l] eqn:E; [eapply empty_string_ok; [done|lia]|].
    replace (0 + slen s - zlen (x :: l)) with (zlen c - zlen (x :: l)) by lia.
    replace (trimmed (x :: l)) with (trimmed (drop (Z.to_nat (zlen c - zlen (x :: l))) c)) by (by rewrite Hld).
    pose proof (zlen_nonneg (x :: l)). apply bdelete_ok; [done|done|lia].
  - rewrite Hback. cbn [mbind res_bind]. destruct (rtrim c) as [|x l] eqn:E; [eapply empty_string_ok; [done|lia]|].
    rewrite zlen_cons in *. pose proof (zlen_nonneg l). eapply cut_after_ok; [exact Hu|lia|lia|]. intros h2 buf2 Hu2 Ht2 Hc2.
    eapply trimmed_ok; [exact Hu2|done|]. rewrite Hc2. fold c. etrans; [|exact Hrt]. f_equal. lia.
  - rewrite Hback. cbn [mbind res_bind]. destruct (rtrim c) as [|x l] eqn:E; [eapply empty_string_ok; [done|lia]|].
    assert (ltrim (x :: l) ≠ []) as Hne by (rewrite <-E; apply ltrim_rtrim; by rewrite E).
    destruct (ltrim_drop (x :: l)) as [Hld2 Hll2]. pose proof (zlen_nonneg l). pose proof (zlen_cons x l) as Hxl.
    eapply cut_after_ok; [exact Hu|lia|lia|]. intros h2 buf2 Hu2 Ht2 Hc2.
    assert (content (mkB (mlen s) (zlen (x :: l) - 1 + 1) (data s)) buf2 = x :: l) as Hc3.
    { rewrite Hc2. fold c. etrans; [|exact Hrt]. f_equal. lia. }
    pose proof (u_mlen _ _ _ _ _ _ _ Hu2) as Hm2. cbn [mlen] in Hm2.
    assert (blocks h2 !! B = Some buf2) as HB2 by (destruct Hu2 as [_ -> _ _ _ _]; apply lookup_insert_eq).
    rewrite M_bind_eq. rewrite (skip_spaces_ok h2 B buf2 HB2) by lia. cbn [mbind res_bind].
    replace (Z.of_nat (Z.to_nat (zlen (x :: l) - 1 + 1))) with (zlen (x :: l) - 1 + 1) by lia.
    assert (zslice buf2 0 (zlen (x :: l) - 1 + 1) = x :: l) as ->.
    { unfold zslice. rewrite drop_0. exact Hc3. }
    destruct (ltrim (x :: l)) as [|y k] eqn:E2; [done|].
    replace (0 + (zlen (x :: l) - 1 + 1) - zlen (y :: k)) with (zlen (x :: l) - zlen (y :: k)) by lia.
    replace (trimmed (y :: k)) with (trimmed (drop (Z.to_nat (zlen (x :: l) - zlen (y :: k)))
      (content (mkB (mlen s) (zlen (x :: l) - 1 + 1) (data s)) buf2))) by (by rewrite Hc3, Hld2).
    pose proof (zlen_nonneg (y :: k)). apply bdelete_ok; [exact Hu2|done|lia].
Qed.
End trimming.

(** * Insertion *)

(** Writing a block in front of one already written. *)
Lemma zwrite_before {A} (l : list A) off xs ys :
  0 ≤ off → off + zlen xs + zlen ys ≤ zlen l →
  zwrite (zwrite l (off + zlen xs) ys) off xs = zwrite l off (xs ++ ys).
Proof.
  intros Hoff Hle. pose proof (zlen_nonneg xs). pose proof (zlen_nonneg ys).
  apply zlist_eq; [rewrite !zlen_zwrite by (rewrite ?zlen_zwrite, ?zlen_app; lia); done|].
  intros i. rewrite !zlen_zwrite by (rewrite ?zlen_zwrite; lia). intros Hi.
  destruct (decide (i < off ∨ off + zlen xs + zlen ys ≤ i)).
  { rewrite !zget_zwrite_out by (rewrite ?zlen_zwrite, ?zlen_app; lia). done. }
  replace i with (off + (i - off)) by lia. rewrite (zget_zwrite_in l off (xs ++ ys)) by (rewrite ?zlen_app; lia).
  destruct (decide (i < off + zlen xs)).
  - rewrite zget_zwrite_in, zget_app_l by (rewrite ?zlen_zwrite; lia). done.
  - rewrite zget_zwrite_out by (rewrite ?zlen_zwrite; lia).
    replace (off + (i - off)) with (off + zlen xs + (i - off - zlen xs)) by lia.
    rewrite zget_zwrite_in, zget_app_r by lia. done.
Qed.

(** What [binsertblk] inserts from: the block itself or a copy of it. *)
Record inserting (h : bheap) (B : Z) (hA : bheap) (blk aux : ptr) (xs : list Z) : Prop := {
  i_structs : structs hA = structs h;
  i_block : ∃ bx, blocks hA !! aux.1 = Some bx ∧ 0 ≤ aux.2 ∧ aux.2 + zlen xs ≤ zlen bx ∧ zslice bx aux.2 (zlen xs) = xs;
  i_apart : aux.1 ≠ B;
  i_ok : heap_ok hA;
  i_copy : blocks hA = blocks h ∧ aux = blk ∨
    ∃ new, blocks hA = <[aux.1 := new]> (blocks h) ∧ blocks h !! aux.1 = None ∧ aux.2 = 0 ∧ aux.1 ≠ blk.1 }.

Lemma same_ptr_eq (p q : ptr) : (p.1 =? q.1) && (p.2 =? q.2) = true ↔ p = q.
Proof.
  destruct p as [x y], q as [x' y']. cbn. rewrite andb_true_iff, !Z.eqb_eq. naive_solver.
Qed.

Lemma heap_ok_free (h : bheap) Y : heap_ok h → heap_ok (with_blocks h (delete Y (blocks h))).
Proof. intros [Hn Hs Hb H0]. split; cbn; try done. intros. rewrite lookup_delete_None. right. auto. Qed.

Lemma step_free_block {A} (h : bheap) (p : ptr) buf (k : unit → BM A) (Q : A * bheap → Prop) :
  blocks h !! p.1 = Some buf → p.2 = 0 → returns (k tt (with_blocks h (delete p.1 (blocks h)))) Q →
  returns ((free p ≫= k) h) Q.
Proof. intros Hp Hz Hk. unfold mbind, M_bind, free. rewrite Hp, Hz. done. Qed.

Section insertion.
Context {A : Type} (h : bheap) (b : Z) (s : tagbstring) (B : Z) (buf : list Z) (hA : bheap) (blk aux : ptr) (xs : list Z).
Context (OK : heap_ok h) (HB : blocks h !! B = Some buf) (I : inserting h B hA blk aux xs).
Implicit Types (Q : A * bheap → Prop).

Lemma step_free_aux_upd h2 s' B' buf' (k : unit → BM A) Q :
  upd hA b B h2 s' B' buf' → (∀ h3, upd h b B h3 s' B' buf' → returns (k tt h3) Q) →
  returns ((free_aux aux blk ≫= k) h2) Q.
Proof using OK HB I.
  intros [Es Eb Hd Hm Hf OK2] Hk. destruct I as [IS IB IN IOK IC]. unfold free_aux.
  destruct IC as [[Ec ->]|(new & Ec & Hfresh & Hz & Hne)].
  - rewrite (proj2 (same_ptr_eq blk blk)) by done. apply step_ret, Hk.
    split; try done; [by rewrite Es, IS|by rewrite Eb, Ec|by rewrite <-Ec].
  - destruct ((aux.1 =? blk.1) && (aux.2 =? blk.2)) eqn:E; [apply same_ptr_eq in E; congruence|].
    assert (aux.1 ≠ B') as HB'.
    { intros <-. destruct Hf as [?|Hf]; [done|]. rewrite Ec, lookup_insert_eq in Hf. done. }
    assert (blocks h2 !! aux.1 = Some new) as Hnew.
    { by rewrite Eb, lookup_insert_ne, lookup_delete_ne, Ec, lookup_insert_eq. }
    eapply step_free_block; [exact Hnew|done|]. apply Hk. split; cbn; try done.
    + by rewrite Es, IS.
    + rewrite Eb, Ec, (delete_insert_ne _ B aux.1), delete_insert_ne by done. f_equal.
      rewrite delete_insert_eq. apply delete_id. by rewrite lookup_delete_ne.
    + destruct Hf as [?|Hf]; [by left|right]. rewrite Ec in Hf. by apply lookup_insert_None in Hf as [? _].
    + by apply heap_ok_free.
Qed.

Lemma step_free_aux_same h2 (k : unit → BM A) Q :
  out_of_memory hA h2 → (∀ h3, out_of_memory h h3 → returns (k tt h3) Q) →
  returns ((free_aux aux blk ≫= k) h2) Q.
Proof using I.
  intros [(Es & Eb & OK2) Hoom] Hk. destruct I as [IS IB IN IOK IC]. unfold free_aux.
  destruct IC as [[Ec ->]|(new & Ec & Hfresh & Hz & Hne)].
  - rewrite (proj2 (same_ptr_eq blk blk)) by done. apply step_ret, Hk. split; [split_and!; congruence|done].
  - destruct ((aux.1 =? blk.1) && (aux.2 =? blk.2)) eqn:E; [apply same_ptr_eq in E; congruence|].
    assert (blocks h2 !! aux.1 = Some new) as Hnew by (by rewrite Eb, Ec, lookup_insert_eq).
    eapply step_free_block; [exact Hnew|done|]. apply Hk. split; [|exact Hoom]. split_and!; cbn; [congruence| |by apply heap_ok_free].
    rewrite Eb, Ec. by apply delete_insert_id.
Qed.
End insertion.

(** [pos] may be past the end: the gap is filled. *)
Definition insert_at (pos fill : Z) (xs c : list Z) : list Z :=
  take (Z.to_nat pos) c ++ replicate (Z.to_nat (pos - zlen c)) (u8 fill) ++ xs ++ drop (Z.to_nat pos) c.

Lemma insert_past buf d xs pos fill :
  0 ≤ d ≤ pos → pos + zlen xs < zlen buf →
  let buf1 := zwrite buf d (replicate (Z.to_nat (pos - d)) (u8 fill)) in
  let buf3 := zwrite (zwrite buf1 pos xs) (pos + zlen xs) [u8 0] in
  take (Z.to_nat (pos + zlen xs)) buf3 = insert_at pos fill xs (take (Z.to_nat d) buf) ∧
  zget buf3 (pos + zlen xs) = Some 0.
Proof.
  intros Hd Hlen buf1 buf3. pose proof (zlen_nonneg xs).
  set (gap := replicate (Z.to_nat (pos - d)) (u8 fill)) in *.
  assert (zlen gap = pos - d) as Hr by (unfold gap; rewrite zlen_replicate; lia).
  assert (zwrite buf1 pos xs = zwrite buf d (gap ++ xs)) as Hw.
  { unfold buf1. replace pos with (d + zlen gap) by lia. apply zwrite_app; lia. }
  assert (pos + zlen xs = d + zlen (gap ++ xs)) as Hn by (rewrite zlen_app; lia).
  unfold buf3. rewrite Hw, Hn.
  destruct (content_append buf d (gap ++ xs) _ ltac:(lia) eq_refl ltac:(lia)) as [Hc Hz].
  split; [|exact Hz]. rewrite Hc. unfold insert_at. assert (zlen (take (Z.to_nat d) buf) = d) as Hl by (apply zlen_take; lia).
  rewrite Hl. fold gap. rewrite (take_ge (take _ _)), drop_ge by (unfold zlen in Hl; lia). by rewrite app_nil_r.
Qed.

Lemma insert_inside buf d xs pos fill :
  0 ≤ pos ≤ d → d + zlen xs < zlen buf →
  let buf1 := zwrite buf (pos + zlen xs) (zslice buf pos (d - pos)) in
  let buf3 := zwrite (zwrite buf1 pos xs) (d + zlen xs) [u8 0] in
  take (Z.to_nat (d + zlen xs)) buf3 = insert_at pos fill xs (take (Z.to_nat d) buf) ∧
  zget buf3 (d + zlen xs) = Some 0.
Proof.
  intros Hd Hlen buf1 buf3. pose proof (zlen_nonneg xs).
  assert (zlen (zslice buf pos (d - pos)) = d - pos) as Hs by (apply zlen_zslice; lia).
  unfold buf3, buf1. rewrite zwrite_before by lia.
  replace (d + zlen xs) with (pos + zlen (xs ++ zslice buf pos (d - pos))) by (rewrite zlen_app; lia).
  destruct (content_append buf pos (xs ++ zslice buf pos (d - pos)) _ ltac:(lia) eq_refl) as [Hc Hz].
  { rewrite zlen_app. lia. }
  split; [|exact Hz]. rewrite Hc. unfold insert_at. assert (zlen (take (Z.to_nat d) buf) = d) as Hl by (apply zlen_take; lia).
  rewrite Hl. replace (Z.to_nat (pos - d)) with O by lia. cbn [replicate app].
  rewrite take_take. replace (Z.to_nat pos `min` Z.to_nat d)%nat with (Z.to_nat pos) by lia. do 2 f_equal.
  unfold zslice. rewrite take_drop_commute. do 2 f_equal. lia.
Qed.

Lemma binsertblk_core h b s B buf hA blk aux xs pos fill :
  heap_ok h → blocks h !! B = Some buf → inserting h B hA blk aux xs → writable hA b s B buf →
  0 ≤ pos → slen s + zlen xs < INT_MAX → pos + zlen xs < INT_MAX → 8 * mlen s ≤ INT_MAX →
  let d := slen s + zlen xs in let l := pos + zlen xs in
  returns ((n1 ← icint ((if d <? l then l else d) + 1);
    r ← balloc b n1;
    if negb (r =? BSTR_OK) then free_aux aux blk;; mret BSTR_ERR else
    t ← deref b;
    with_data t BSTR_ERR (λ p,
    (if d <? l then
       memset (padd p (slen t)) fill (pos - slen t);;
       put b (mkB (mlen t) l (data t))
     else
       bBlockCopy (padd p l) (padd p pos) (d - l);;
       put b (mkB (mlen t) d (data t)));;
    bBlockCopy (padd p pos) aux (zlen xs);;
    write_byte (padd p (if d <? l then l else d)) 0;;
    free_aux aux blk;;
    mret BSTR_OK)) hA) (edited h b B (insert_at pos fill xs (content s buf))).
Proof.
  intros OK HB I W Hpos Hmax1 Hmax2 Hsmall d l. pose proof W as [Hs Hd Hb Hm Hsl].
  pose proof (i_ok _ _ _ _ _ _ I) as OKA. pose proof (zlen_nonneg xs). destruct (i_block _ _ _ _ _ _ I) as (bx & Hbx & Hau & Haul & Haus).
  set (n := if d <? l then l else d). assert (d ≤ n ∧ l ≤ n ∧ n < INT_MAX) as (Hn1 & Hn2 & Hn3).
  { unfold n. case_if; lia. }
  eapply step_lift; [apply cint_ok; int_lia|]. eapply step_balloc; [done|exact W|int_lia|done| |].
  { intros h' Hsame. cbn [Z.eqb negb BSTR_ERR BSTR_OK]. eapply (step_free_aux_same h B hA blk aux xs I); [done|].
    intros h3 Hsame3. by left. }
  intros h' s' B' buf' Hu Hs' Hge _ Hc. cbn [Z.eqb negb BSTR_OK]. eapply step_deref_upd; [exact Hu|].
  unfold with_data. rewrite (u_data _ _ _ _ _ _ _ Hu). pose proof (u_mlen _ _ _ _ _ _ _ Hu) as Hm'. cbn [returns].
  (* the end: copying the block, the terminator *)
  assert (∀ h2 m buf1, upd hA b B h2 (mkB (mlen s') m (Some (B', 0))) B' buf1 → m = n → zlen buf1 = mlen s' →
    (let buf3 := zwrite (zwrite buf1 pos xs) n [u8 0] in
     take (Z.to_nat n) buf3 = insert_at pos fill xs (content s buf) ∧ zget buf3 n = Some 0) →
    returns ((bBlockCopy (padd (B', 0) pos) aux (zlen xs);;
      write_byte (padd (B', 0) n) 0;; free_aux aux blk;; mret BSTR_OK) h2)
      (edited h b B (insert_at pos fill xs (content s buf)))) as Hend.
  { intros h2 m buf1 Hu2 -> Hl1 [Hc3 Hz3]. destruct aux as [Y oy]. cbn [fst snd] in *.
    eapply step_bBlockCopy with (bx := bx); [exact Hu2| |lia|lia|cbn; lia|lia|lia|].
    { eapply (proj2 (upd_frame _ _ _ _ _ _ _ Hu2)); [exact (i_apart _ _ _ _ _ _ I)|done]. }
    intros h3 Hu3. rewrite Haus in Hu3. eapply step_write_byte; [exact Hu3|cbn; lia|]. intros h4 Hu4.
    eapply (step_free_aux_upd h b B buf hA blk (Y, oy) xs OK HB I); [exact Hu4|]. intros h5 Hu5.
    eapply edited_ok; [exact Hu5| |exact Hc3]. split; [cbn; lia|exact Hz3]. }
  assert (content s buf = take (Z.to_nat (slen s)) buf') as Hcs by (rewrite <-Hs'; symmetry; exact Hc).
  rewrite Hcs in Hend |- *. destruct (d <? l) eqn:E; propify; apply step_assoc.
  - eapply step_memset; [exact Hu|lia|lia|lia|]. intros h2 Hu2.
    eapply step_put; [exact Hu2|done|by rewrite (u_data _ _ _ _ _ _ _ Hu)|]. intros h3 Hu3.
    assert (zlen (replicate (Z.to_nat (pos - slen s')) (u8 fill)) = pos - slen s') as Hlr by (rewrite zlen_replicate; lia).
    eapply Hend; [exact Hu3|lia|rewrite zlen_zwrite; lia|]. rewrite Hs'.
    destruct (insert_past buf' (slen s) xs pos fill) as [H1 H2]; [lia|lia|].
    replace n with (pos + zlen xs) by lia. by split.
  - eapply step_bBlockCopy with (bx := buf') (X := B') (o := pos); [exact Hu| |lia|lia|lia|lia|lia|].
    { destruct Hu as [_ Eb _ _ _ _]. rewrite Eb. apply lookup_insert_eq. }
    intros h2 Hu2.
    eapply step_put; [exact Hu2|done|by rewrite (u_data _ _ _ _ _ _ _ Hu)|]. intros h3 Hu3.
    assert (zlen (zslice buf' pos (d - l)) = d - l) as Hlr by (apply zlen_zslice; lia).
    eapply Hend; [exact Hu3|lia|rewrite zlen_zwrite; lia|]. unfold l. replace (d - (pos + zlen xs)) with (slen s - pos) by lia.
    destruct (insert_inside buf' (slen s) xs pos fill) as [H1 H2]; [lia|lia|].
    replace n with (slen s + zlen xs) by lia. by split.
Qed.

(** [binsertblk] inserts a block of bytes, also one that lies in the
    string itself and is overwritten or moved by the insertion, filling the gap
    when the position is past the end: only the string changes, the copy made of
    an overlapping block is released, and when memory runs out nothing has
    changed. *)
Theorem binsertblk_correct h b s B buf X o bx pos len fill :
  heap_ok h → writable h b s B buf → blocks h !! X = Some bx →
  0 ≤ o → 0 ≤ len → o + len ≤ zlen bx → (X = B → o < mlen s) →
  0 ≤ pos → slen s + len < INT_MAX → pos + len < INT_MAX → 8 * mlen s ≤ INT_MAX →
  returns (binsertblk b pos (Some (X, o)) len fill h)
    (edited h b B (insert_at pos fill (zslice bx o len) (content s buf))).
Proof.
  intros OK W HX Ho Hlen Hon Halias Hpos Hmax1 Hmax2 Hsmall.
  pose proof (b_nonnull _ _ _ _ _ OK W) as Hb. pose proof W as [Hs Hd HB Hm Hsl].
  unfold binsertblk. rewrite (proj2 (Z.eqb_neq b 0)), (proj2 (Z.ltb_ge pos 0)), (proj2 (Z.ltb_ge len 0)) by done.
  cbn [orb]. eapply step_deref; [done|].
  rewrite (proj2 (Z.ltb_ge (slen s) 0)), (proj2 (Z.leb_gt (mlen s) 0)), (proj2 (Z.ltb_ge (mlen s) (slen s))) by lia.
  cbn [orb]. eapply step_lift; [apply cint_ok; int_lia|]. eapply step_lift; [apply cint_ok; int_lia|].
  rewrite (proj2 (Z.ltb_ge (slen s + len) 0)), (proj2 (Z.ltb_ge (pos + len) 0)) by lia. cbn [orb]. rewrite Hd.
  assert (zlen (zslice bx o len) = len) as Hl by (apply zlen_zslice; lia).
  set (xs := zslice bx o len) in *.
  destruct (may_overlap (X, o) len (B, 0) (mlen s)) eqn:Hov; unfold may_overlap in Hov; cbn [fst snd] in Hov.
  - propify. subst X. apply step_assoc. apply step_malloc; [done| |].
    { intros h' Hsame. by left. }
    intros hA Es Eb OKA _. destruct (heap_ok_fresh h OK) as [_ Hfresh]. set (Y := next h) in *. clearbody Y.
    set (new := replicate (Z.to_nat len) (junk h)) in *.
    assert (zlen new = len) as Hnew by (unfold new; rewrite zlen_replicate; lia). clearbody new.
    assert (Y ≠ B) as HYB by congruence.
    assert (∀ hB new', blocks hB = <[Y := new']> (blocks h) → structs hB = structs h → heap_ok hB → zlen new' = len →
      take (Z.to_nat len) new' = xs → inserting h B hB (B, o) (Y, 0) xs ∧ writable hB b s B buf) as Hins.
    { intros hB new' Eb' Es' OKB Hl' Hxs. split; split; try done; cbn [fst snd].
      - exists new'. rewrite Eb', lookup_insert_eq. split_and!; [done|lia|lia|]. unfold zslice. rewrite drop_0, Hl. done.
      - right. exists new'. by split_and!.
      - by rewrite Es'.
      - by rewrite Eb', lookup_insert_ne. }
    apply step_assoc. unfold memcpy. cbn [fst snd]. rewrite (proj2 (Z.eqb_neq Y B)) by done. cbn [andb].
    unfold memmove. destruct (len =? 0) eqn:E0; propify.
    + apply step_ret, step_ret. destruct (Hins hA new Eb Es OKA Hnew) as [HI HW].
      { replace (Z.to_nat len) with O by lia. rewrite take_0. symmetry. apply length_zero_iff_nil. unfold zlen in Hl. lia. }
      rewrite <-Hl. eapply binsertblk_core; try done; lia.
    + apply step_assoc. unfold mbind at 1, M_bind at 1. rewrite (load_bytes_ok _ _ buf); cbn [fst snd]; [|by rewrite Eb, lookup_insert_ne|lia..|].
      2: { assert (bx = buf) as <- by congruence. done. }
      cbn [mbind res_bind]. assert (bx = buf) as -> by congruence. fold xs.
      unfold mbind at 1, M_bind at 1. rewrite (store_bytes_ok _ _ new); cbn [fst snd]; [|by rewrite Eb, lookup_insert_eq|lia|lia].
      cbn [mbind res_bind]. apply step_ret.
      destruct (Hins (with_blocks hA (<[Y:=zwrite new 0 xs]> (blocks hA))) (zwrite new 0 xs)) as [HI HW];
        [cbn; by rewrite Eb, insert_insert_eq|done| |rewrite zlen_zwrite; lia|by apply take_zwrite|].
      { destruct OKA as [Hn Hs' Hb' Hnull]. split; cbn; try done. intros c Hc. specialize (Hb' c Hc). rewrite Eb in *.
        rewrite insert_insert_eq. destruct (decide (c = Y)) as [->|]; [by rewrite lookup_insert_eq in Hb'|].
        by rewrite lookup_insert_ne in * by done. }
      rewrite <-Hl. eapply binsertblk_core; try done; lia.
  - apply step_ret. rewrite <-Hl. eapply binsertblk_core; try done; [|lia|lia].
    split; cbn [fst snd]; try done; [|  |by left].
    + exists bx. rewrite Hl. by split_and!.
    + intros ->. specialize (Halias eq_refl). apply andb_false_iff in Hov as [Hov|Hov]; propify; [|lia].
      destruct Hov; propify; lia.
Qed.

(** * Growing a string *)

Lemma snapUpSize_double i : 0 ≤ i ≤ INT_MAX → snapUpSize i ≤ Z.max 8 (2 * i).
Proof.
  intros Hi. rewrite snapUpSize_value by done. destruct (i <? 8) eqn:E8; propify; [lia|].
  destruct (i <? 2 ^ 30); [|lia]. pose proof (Z.log2_spec i ltac:(lia)) as [Hlo _].
  replace (2 ^ (Z.log2 i + 1)) with (2 * 2 ^ Z.log2 i); [lia|]. rewrite Z.pow_add_r by (pose proof (Z.log2_nonneg i); lia). lia.
Qed.

Lemma upd_writable' h b B h1 s1 B1 buf1 : upd h b B h1 s1 B1 buf1 → 0 ≤ slen s1 < mlen s1 → writable h1 b s1 B1 buf1 ∧ heap_ok h1.
Proof. intros Hu Hs. split; [by eapply upd_writable|by destruct Hu]. Qed.

Lemma upd_same h b B h1 s1 B1 buf1 h2 : upd h b B h1 s1 B1 buf1 → same_memory h1 h2 → upd h b B h2 s1 B1 buf1.
Proof. intros [? ? ? ? ? ?] (Es & Eb & OK). split; try done; congruence. Qed.

Section growing.
Context {A : Type} (h : bheap) (b B : Z).
Implicit Types (Q : A * bheap → Prop).

(** What appending [xs] leaves. *)
Definition grown (s1 : tagbstring) (c xs : list Z) (s' : tagbstring) (buf' : list Z) : Prop :=
  terminated s' buf' ∧ content s' buf' = c ++ xs ∧ slen s' = slen s1 + zlen xs ∧
  mlen s1 ≤ mlen s' ≤ Z.max (mlen s1) (2 * (slen s1 + zlen xs) + 8).

Lemma step_bconchar h1 s1 B1 buf1 c (k : Z → BM A) Q :
  upd h b B h1 s1 B1 buf1 → 0 ≤ slen s1 < mlen s1 → 8 * mlen s1 ≤ INT_MAX →
  (∀ h', upd h b B h' s1 B1 buf1 → oom h' = true → returns (k BSTR_ERR h') Q) →
  (∀ h' s' B' buf', upd h b B h' s' B' buf' → grown s1 (content s1 buf1) [u8 c] s' buf' → returns (k BSTR_OK h') Q) →
  returns ((bconchar b c ≫= k) h1) Q.
Proof.
  intros Hu Hs Hm Hfail Hok. destruct (upd_writable' _ _ _ _ _ _ _ Hu Hs) as [W OK].
  unfold bconchar. rewrite (proj2 (Z.eqb_neq b 0)) by (by eapply b_nonnull).
  apply step_assoc, (step_deref_upd h b B h1 s1 B1 buf1); [done|]. apply step_assoc, (step_lift _ (mlen s1 - slen s1)); [apply cint_ok; int_lia|].
  rewrite (proj2 (Z.ltb_ge (slen s1) 0)), (proj2 (Z.ltb_ge (mlen s1 - slen s1) 0)) by lia. cbn [orb].
  apply step_assoc, (step_lift _ (slen s1 + 2)); [apply cint_ok; int_lia|]. apply step_assoc.
  apply (step_balloc_max h1 b s1 B1 buf1); [done|done|int_lia|done|..].
  { intros h' Hsame. cbn [Z.eqb negb BSTR_ERR BSTR_OK]. apply step_ret, Hfail; [eapply upd_same; [done|]|]; apply Hsame. }
  intros h' s' B' buf' Hu' Es Hl Hl2 Hmax Hc. cbn [Z.eqb negb BSTR_OK]. pose proof (upd_trans _ _ _ _ _ _ _ _ _ _ _ Hu Hu') as Hu2.
  pose proof (snapUpSize_double (slen s1 + 2) ltac:(int_lia)).
  apply step_assoc, (step_deref_upd h b B h' s' B' buf'); [done|]. unfold with_data. rewrite (u_data _ _ _ _ _ _ _ Hu2).
  apply step_assoc, (step_write_byte h b B h' s' B' buf'); [done|lia|]. intros h3 Hu3.
  apply step_assoc, (step_write_byte h b B h3 s' B' (zwrite buf' (slen s1) [u8 c])); [done|lia|]. intros h4 Hu4.
  apply step_assoc, (step_lift _ (slen s' + 1)); [apply cint_ok; int_lia|]. apply step_assoc.
  apply (step_put h b B h4 s' B' (zwrite (zwrite buf' (slen s1) [u8 c]) (slen s1 + 1) [u8 0])); [done|done|by rewrite (u_data _ _ _ _ _ _ _ Hu2)|].
  intros h5 Hu5. apply step_ret. pose proof (u_mlen _ _ _ _ _ _ _ Hu2) as Hbl.
  destruct (content_append buf' (slen s1) [u8 c] (slen s1 + 1)) as [E1 E2]; [lia|done|lia|].
  apply (Hok h5 _ _ _ Hu5). unfold grown, terminated, content in *. cbn [slen mlen]. rewrite Es in Hc. rewrite !Es, E1, Hc.
  change (zlen [u8 c]) with 1. split_and!; (done || lia).
Qed.

Lemma step_bcatblk h1 s1 B1 buf1 X o bx xs n (k : Z → BM A) Q :
  upd h b B h1 s1 B1 buf1 → 0 ≤ slen s1 < mlen s1 → 8 * mlen s1 ≤ INT_MAX →
  blocks h1 !! X = Some bx → X ≠ B1 → 0 ≤ o → 0 ≤ n → o + n ≤ zlen bx → zslice bx o n = xs → slen s1 + n < INT_MAX →
  (∀ h', upd h b B h' s1 B1 buf1 → oom h' = true → returns (k BSTR_ERR h') Q) →
  (∀ h' s' B' buf', upd h b B h' s' B' buf' → grown s1 (content s1 buf1) xs s' buf' → returns (k BSTR_OK h') Q) →
  returns ((bcatblk b (Some (X, o)) n ≫= k) h1) Q.
Proof.
  intros Hu Hs Hm HX Hne Ho Hn Hin Hxs Hmax Hfail Hok. destruct (upd_writable' _ _ _ _ _ _ _ Hu Hs) as [W OK].
  assert (zlen xs = n) as Hlx by (rewrite <-Hxs; apply zlen_zslice; lia).
  unfold bcatblk. rewrite (proj2 (Z.eqb_neq b 0)) by (by eapply b_nonnull).
  apply step_assoc, (step_deref_upd h b B h1 s1 B1 buf1); [done|]. unfold with_data at 1. rewrite (u_data _ _ _ _ _ _ _ Hu).
  unfold unwritable. rewrite (proj2 (Z.ltb_ge (slen s1) 0)), (proj2 (Z.ltb_ge (mlen s1) (slen s1))), (proj2 (Z.leb_gt (mlen s1) 0)), (proj2 (Z.ltb_ge n 0)) by lia.
  cbn [orb]. apply step_assoc, (step_lift _ (slen s1 + n)); [apply cint_ok; int_lia|]. rewrite (proj2 (Z.ltb_ge (slen s1 + n) 0)) by lia.
  (* the copy *)
  assert (∀ h' s' B' buf', upd h b B h' s' B' buf' → blocks h' !! X = Some bx → slen s' = slen s1 → slen s1 + n < mlen s' → mlen s1 ≤ mlen s' →
    mlen s' ≤ Z.max (mlen s1) (2 * (slen s1 + n) + 8) → content s' buf' = content s1 buf1 →
    returns (((t ← deref b; with_data t BSTR_ERR (λ d, bBlockCopy (padd d (slen t)) (X, o) n;;
      put b (mkB (mlen t) (slen s1 + n) (data t));; write_byte (padd d (slen s1 + n)) 0;; mret BSTR_OK)) ≫= k) h') Q) as Hcopy.
  { intros h' s' B' buf' Hu' HX' Es Hl Hl1 Hl2 Hc. pose proof (u_mlen _ _ _ _ _ _ _ Hu') as Hbl.
    apply step_assoc, (step_deref_upd h b B h' s' B' buf'); [done|]. unfold with_data. rewrite (u_data _ _ _ _ _ _ _ Hu').
    apply step_assoc, (step_bBlockCopy h b B h' s' B' buf' _ X bx); [done|done|lia..|]. intros h3 Hu3. rewrite Hxs in Hu3.
    apply step_assoc, (step_put h b B h3 s' B' (zwrite buf' (slen s') xs)); [done|done|by rewrite (u_data _ _ _ _ _ _ _ Hu')|]. intros h4 Hu4.
    apply step_assoc, (step_write_byte h b B h4 (mkB (mlen s') (slen s1 + n) (Some (B', 0))) B' (zwrite buf' (slen s') xs)); [done|cbn [mlen]; lia|]. intros h5 Hu5.
    apply step_ret. destruct (content_append buf' (slen s1) xs (slen s1 + n)) as [E1 E2]; [lia|lia|lia|].
    apply (Hok h5 _ _ _ Hu5). unfold grown, terminated, content in *. cbn [slen mlen]. rewrite Es in *. rewrite E1, Hc.
    split_and!; (done || lia). }
  apply step_assoc. destruct (mlen s1 <=? slen s1 + n) eqn:E; propify.
  - apply step_assoc, (step_lift _ (slen s1 + n + 1)); [apply cint_ok; int_lia|].
    apply (step_balloc_max h1 b s1 B1 buf1); [done|done|int_lia|done|..].
    { intros h' Hsame. cbn. apply Hfail; [eapply upd_same; [done|]|]; apply Hsame. }
    intros h' s' B' buf' Hu' Es Hl Hl2 Hmx Hc. cbn [Z.ltb BSTR_OK Z.compare].
    pose proof (snapUpSize_double (slen s1 + n + 1) ltac:(int_lia)).
    apply (Hcopy h' s' B' buf'); [by eapply upd_trans| |done|lia|lia|lia|done].
    destruct (upd_frame _ _ _ _ _ _ _ Hu') as [_ Hf]. by apply Hf.
  - apply step_ret. cbn [Z.ltb BSTR_OK Z.compare]. by apply (Hcopy h1 s1 B1 buf1); try lia.
Qed.
End growing.

(** * Where a buffer is too small *)

Lemma realloc_fails (h : bheap) B buf n os :
  blocks h !! B = Some buf → outcomes h = false :: os →
  realloc (B, 0) n h = Done (None, Heap (structs h) (blocks h) (next h) os (junk h) true).
Proof. intros HB Ho. unfold realloc, outcome. rewrite Ho. cbn. by rewrite HB, orb_true_r. Qed.

Lemma realloc_succeeds (h : bheap) B buf n os :
  blocks h !! B = Some buf → outcomes h = true :: os →
  realloc (B, 0) n h = Done (Some (next h, 0), Heap (structs h)
    (<[next h := take (Z.to_nat n) buf ++ replicate (Z.to_nat (n - zlen buf)) (junk h)]> (delete B (blocks h)))
    (next h + 1) os (junk h) (oom h)).
Proof. intros HB Ho. unfold realloc, outcome. rewrite Ho. cbn. by rewrite HB, orb_false_r. Qed.

Lemma malloc_struct_succeeds (h : bheap) s os :
  outcomes h = true :: os →
  malloc_struct s h = Done (next h, Heap (<[next h := s]> (structs h)) (blocks h) (next h + 1) os (junk h) (oom h)).
Proof. intros Ho. unfold malloc_struct, outcome. rewrite Ho. cbn. by rewrite orb_false_r. Qed.

Lemma malloc_fails (h : bheap) n os :
  outcomes h = false :: os → malloc n h = Done (None, Heap (structs h) (blocks h) (next h) os (junk h) true).
Proof. intros Ho. unfold malloc, outcome. rewrite Ho. cbn. by rewrite orb_true_r. Qed.

Lemma malloc_succeeds (h : bheap) n os :
  outcomes h = true :: os →
  malloc n h = Done (Some (next h, 0), Heap (structs h) (<[next h := replicate (Z.to_nat n) (junk h)]> (blocks h))
    (next h + 1) os (junk h) (oom h)).
Proof. intros Ho. unfold malloc, outcome. rewrite Ho. cbn. by rewrite orb_false_r. Qed.

Lemma store_bytes_oob (h : bheap) (p : ptr) xs buf :
  blocks h !! p.1 = Some buf → zlen buf < p.2 + zlen xs → store_bytes p xs h = Undef.
Proof.
  intros HB Hlt. unfold store_bytes. rewrite HB. rewrite (proj2 (Z.leb_gt _ (zlen buf))) by lia. by rewrite andb_false_r.
Qed.

Lemma icint_ok z (h : bheap) : INT_MIN ≤ z ≤ INT_MAX → icint z h = Done (z, h).
Proof. intros. unfold icint, lift. by rewrite cint_ok. Qed.

(** [balloc] when the generous request fails and the exact one is granted: the
    buffer has exactly [olen] bytes. *)
Lemma balloc_tight h b s B buf olen os :
  heap_ok h → writable h b s B buf → outcomes h = false :: true :: os →
  7 * mlen s < 8 * slen s → mlen s ≤ olen < 2 ^ 30 → 8 * mlen s ≤ INT_MAX →
  ∃ h' new, balloc b olen h = Done (BSTR_OK, h') ∧
    structs h' = <[b := mkB olen (slen s) (Some (next h, 0))]> (structs h) ∧
    blocks h' = <[next h := new]> (delete B (blocks h)) ∧ zlen new = olen.
Proof.
  intros OK W Ho Hdense Holen Hsmall. pose proof W as [Hs Hd HB Hm Hsl].
  pose proof (snapUpSize_bounds olen ltac:(int_lia)) as (_ & _ & Hsn). specialize (Hsn ltac:(lia)).
  unfold balloc. rewrite (proj2 (Z.eqb_neq b 0)) by (eapply b_nonnull; done).
  rewrite M_bind_eq, (deref_ok _ s) by done. cbn [mbind res_bind]. unfold with_data. rewrite Hd. unfold unwritable.
  rewrite (proj2 (Z.ltb_ge (slen s) 0)), (proj2 (Z.ltb_ge (mlen s) (slen s))), (proj2 (Z.leb_gt (mlen s) 0)),
    (proj2 (Z.leb_gt olen 0)), (proj2 (Z.leb_le (mlen s) olen)), (proj2 (Z.leb_gt (snapUpSize olen) (mlen s))) by lia.
  cbn [orb]. rewrite M_bind_eq, icint_ok by int_lia. cbn [mbind res_bind].
  rewrite M_bind_eq, icint_ok by int_lia. cbn [mbind res_bind].
  rewrite (proj2 (Z.ltb_lt (7 * mlen s) _)) by lia. rewrite M_bind_eq. unfold reallocStrategy.
  rewrite M_bind_eq, (realloc_fails _ _ buf _ (true :: os)) by done. cbn [mbind res_bind].
  rewrite M_bind_eq, (realloc_succeeds _ _ buf _ os) by done. cbn [mbind res_bind mret M_ret structs blocks next junk].
  set (new := take _ buf ++ _). assert (zlen new = olen) as Hnew.
  { unfold new. rewrite zlen_app, zlen_replicate. unfold zlen in *. rewrite length_take. lia. }
  clearbody new. rewrite M_bind_eq, (put_ok _ s) by done. cbn [mbind res_bind].
  rewrite M_bind_eq. unfold write_byte, padd. cbn [fst snd].
  rewrite (store_bytes_ok _ _ new); cbn [fst snd]; [|cbn; apply lookup_insert_eq|lia|change (zlen [u8 0]) with 1; lia].
  cbn [mbind res_bind mret M_ret]. eexists _, _. split_and!; [done|done|cbn; by rewrite insert_insert_eq|].
  rewrite zlen_zwrite; [done|lia|change (zlen [u8 0]) with 1; lia].
Qed.

(** [bassign] asks for as many bytes as the source has characters, not
    one more: when the rounded-up request fails and the exact one succeeds, it
    writes the terminator behind the end of its buffer. *)
Theorem bassign_tight_overflow h a sa A bufa b sb X o bx c os :
  heap_ok h → writable h a sa A bufa → readable h b sb X o bx c → a ≠ b → X ≠ A →
  outcomes h = false :: true :: os →
  7 * mlen sa < 8 * slen sa → mlen sa ≤ slen sb < 2 ^ 30 → 8 * mlen sa ≤ INT_MAX →
  bassign a b h = Undef.
Proof.
  intros OK W R Hab HXA Ho Hdense Hle Hsmall. pose proof W as [Hs _ HA Hm Hsl].
  pose proof (readable_nonnull _ _ _ _ _ _ _ OK R) as Hb. pose proof R as [Hsb Hdb HX _ [? ?] _].
  destruct (balloc_tight h a sa A bufa (slen sb) os OK W Ho Hdense Hle Hsmall) as (h' & new & Eb & Es & Ebl & Hnew).
  destruct (heap_ok_fresh h OK) as [_ Hfresh].
  unfold bassign. rewrite (proj2 (Z.eqb_neq b 0)) by done.
  rewrite M_bind_eq, (deref_ok _ sb) by done. cbn [mbind res_bind]. unfold with_data. rewrite Hdb.
  rewrite (proj2 (Z.ltb_ge (slen sb) 0)), (proj2 (Z.eqb_neq (slen sb) 0)) by lia. cbn [negb].
  rewrite M_bind_eq, M_bind_eq, Eb. cbn [mbind res_bind]. change (negb (BSTR_OK =? BSTR_OK)) with false. cbv iota.
  rewrite M_bind_eq, (deref_ok _ (mkB (slen sb) (slen sa) (Some (next h, 0)))) by (rewrite Es; apply lookup_insert_eq).
  cbn [mbind res_bind]. rewrite M_bind_eq, (deref_ok _ sb) by (rewrite Es, lookup_insert_ne; done). cbn [mbind res_bind data].
  rewrite Hdb. assert (blocks h' !! X = Some bx) as HX'.
  { rewrite Ebl, lookup_insert_ne, lookup_delete_ne; [done|done|congruence]. }
  unfold memmove. rewrite (proj2 (Z.eqb_neq (slen sb) 0)) by lia. rewrite M_bind_eq, M_bind_eq.
  rewrite (load_bytes_ok _ _ bx) by (done || lia). cbn [mbind res_bind fst snd].
  assert (zlen (zslice bx o (slen sb)) = slen sb) as Hl by (apply zlen_zslice; lia).
  rewrite (store_bytes_ok _ _ new); cbn [fst snd]; [|rewrite Ebl; apply lookup_insert_eq|lia|lia].
  cbn [mbind res_bind mret M_ret]. change (negb (BSTR_OK =? BSTR_OK)) with false. cbv iota.
  rewrite M_bind_eq, (deref_ok _ (mkB (slen sb) (slen sa) (Some (next h, 0)))) by (cbn; rewrite Es; apply lookup_insert_eq).
  cbn [mbind res_bind]. rewrite M_bind_eq, (deref_ok _ sb) by (cbn; rewrite Es, lookup_insert_ne; done). cbn [mbind res_bind data].
  rewrite M_bind_eq. unfold write_byte, padd. cbn [fst snd].
  rewrite (store_bytes_oob _ _ _ (zwrite new 0 (zslice bx o (slen sb)))); [done|cbn; apply lookup_insert_eq|].
  rewrite zlen_zwrite by lia. cbn [snd]. change (zlen [u8 0]) with 1. lia.
Qed.

Lemma until_nul_app c l : Forall (λ x, x ≠ 0) c → until_nul (c ++ 0 :: l) = Some c.
Proof.
  induction 1 as [|x c Hx _ IH]; [done|]. cbn [app until_nul]. rewrite (proj2 (Z.eqb_neq x 0)) by done. by rewrite IH.
Qed.

(** [bfromcstrrangealloc] asks for less when the memory it needs is not
    there, and for a C string of even length the next request is one byte too
    small for it: when that one is granted, copying the string overruns it. *)
Theorem bfromcstralloc_overflow h p buf c l os :
  blocks h !! p.1 = Some buf → 0 ≤ p.2 ≤ zlen buf → drop (Z.to_nat p.2) buf = c ++ 0 :: l → Forall (λ x, x ≠ 0) c →
  heap_ok h → outcomes h = true :: false :: true :: os → Z.even (zlen c) = true → 0 < zlen c < INT_MAX →
  bfromcstralloc 0 (Some p) h = Undef.
Proof.
  intros HB Hp Hdrop Hc OK Ho Heven Hlen. pose proof (ok_next _ OK) as Hnext.
  apply Z.even_spec in Heven as [m Hm].
  unfold bfromcstralloc, bfromcstrrangealloc. change ((0 <? 0) || (0 <? 0)) with false. cbv iota.
  unfold cstring. rewrite M_bind_eq, M_bind_eq. unfold view. rewrite HB.
  rewrite (proj2 (Z.leb_le 0 p.2)), (proj2 (Z.leb_le p.2 (zlen buf))) by lia. cbn [andb mbind res_bind].
  rewrite Hdrop, (until_nul_app c l) by done. cbn [mret M_ret mbind res_bind].
  rewrite !sext32_id by lia. rewrite !(proj2 (Z.ltb_lt 0 (zlen c + 1))) by lia.
  rewrite M_bind_eq, (malloc_struct_succeeds _ _ (false :: true :: os)) by done. cbn [mbind res_bind].
  rewrite (proj2 (Z.eqb_neq (next h) 0)) by lia. rewrite M_bind_eq.
  assert (∀ fuel h' i, outcomes h' = false :: true :: os → i = zlen c + 1 →
    range_alloc (S fuel) i i h' = Done (Some ((next h', 0), zlen c), Heap (structs h')
      (<[next h' := replicate (Z.to_nat (zlen c)) (junk h')]> (blocks h')) (next h' + 1) os (junk h') true)) as Halloc.
  { intros fuel h' i Ho' ->. cbn [range_alloc]. rewrite M_bind_eq, (malloc_fails _ _ (true :: os)) by done.
    cbn [mbind res_bind].
    assert (Z.shiftr (zlen c + 1) 1 + Z.shiftr (zlen c + 1) 1 = zlen c) as ->.
    { rewrite !Z.shiftr_div_pow2 by lia. change (2 ^ 1) with 2. lia. }
    rewrite (proj2 (Z.eqb_neq (zlen c + 1) (zlen c))), (proj2 (Z.ltb_ge (zlen c + 1) (zlen c + 1))) by lia. cbn [orb].
    destruct fuel; cbn [range_alloc]; by rewrite M_bind_eq, (malloc_succeeds _ _ os). }
  rewrite Halloc by done. cbn [mbind res_bind structs blocks next junk].
  rewrite M_bind_eq, (put_ok _ blank); [|cbn; apply lookup_insert_eq]. cbn [mbind res_bind].
  rewrite M_bind_eq. erewrite store_bytes_oob; [done|cbn; apply lookup_insert_eq|].
  cbn [snd]. rewrite zlen_replicate, zlen_app. change (zlen [0]) with 1. lia.
Qed.

(** * Witnesses *)

(** A string with a full buffer, and a longer one. *)
Definition tight_heap : bheap :=
  mkHeap {[1 := mkB 9 8 (Some (10, 0)); 2 := mkB (-1) 9 (Some (11, 0))]}
    {[10 := [32; 97; 32; 98; 99; 32; 9; 32; 0]; 11 := [49; 50; 51; 52; 53; 54; 55; 56; 57; 0]]} 12 [false; true] 205.

Lemma tight_heap_ok : heap_ok tight_heap.
Proof.
  split; cbn [next tight_heap structs blocks]; [lia| | |done]; intros a Ha;
    rewrite !lookup_insert_ne by lia; apply lookup_singleton_ne; lia.
Qed.

Lemma tight_writable : writable tight_heap 1 (mkB 9 8 (Some (10, 0))) 10 [32; 97; 32; 98; 99; 32; 9; 32; 0].
Proof. split; try done; cbn; lia. Qed.

Lemma digits_readable : readable tight_heap 2 (mkB (-1) 9 (Some (11, 0))) 11 0
  [49; 50; 51; 52; 53; 54; 55; 56; 57; 0] [49; 50; 51; 52; 53; 54; 55; 56; 57].
Proof. split; try done; by vm_compute. Qed.

Lemma bmidstr_correct_witness :
  returns (bmidstr 2 (-1) 4 tight_heap) (created tight_heap [49; 50; 51]).
Proof.
  apply (bmidstr_correct tight_heap 2 _ 11 0 _ _ (-1) 4 tight_heap_ok digits_readable); by vm_compute.
Defined.

Lemma btrimws_correct_witness :
  returns (bltrimws 1 tight_heap) (trimmed tight_heap 1 10 [97; 32; 98; 99; 32; 9; 32]) ∧
  returns (brtrimws 1 tight_heap) (trimmed tight_heap 1 10 [32; 97; 32; 98; 99]) ∧
  returns (btrimws 1 tight_heap) (trimmed tight_heap 1 10 [97; 32; 98; 99]).
Proof.
  apply (btrimws_correct tight_heap 1 _ 10 _ tight_heap_ok tight_writable); [|by vm_compute].
  split; [cbn; lia|reflexivity].
Defined.

Lemma binsertblk_correct_witness :
  returns (binsertblk 1 2 (Some (10, 1)) 3 0 tight_heap)
    (edited tight_heap 1 10 [32; 97; 97; 32; 98; 32; 98; 99; 32; 9; 32]).
Proof.
  apply (binsertblk_correct tight_heap 1 _ 10 _ 10 1 [32; 97; 32; 98; 99; 32; 9; 32; 0] 2 3 0
    tight_heap_ok tight_writable); try by vm_compute.
Defined.

Lemma bassign_tight_overflow_witness : bassign 1 2 tight_heap = Undef.
Proof.
  apply (bassign_tight_overflow tight_heap 1 _ 10 _ 2 _ 11 0 _ _ [] tight_heap_ok tight_writable digits_readable);
    by vm_compute.
Defined.

(** "ab" in memory; then the header, no block of three bytes, one of two. *)
Definition literal_heap : bheap := mkHeap ∅ {[1 := [97; 98; 0]]} 2 [true; false; true] 205.

Lemma literal_heap_ok : heap_ok literal_heap.
Proof.
  split; cbn; [lia|done| |done]. intros a Ha. apply lookup_singleton_ne. lia.
Qed.

Lemma bfromcstralloc_overflow_witness : bfromcstralloc 0 (Some (1, 0)) literal_heap = Undef.
Proof.
  apply (bfromcstralloc_overflow literal_heap (1, 0) [97; 98; 0] [97; 98] [] []); try by vm_compute.
  - repeat constructor; lia.
  - apply literal_heap_ok.
Defined.
