(* ===== verification/BstrSplit.v ===== *)
(** libs/bstrlib/bstrlib.c, continued: splitting a string at the characters of a
    set or at a string, lists of strings, and joining them. A list is a value;
    its entries are addresses of strings in the heap. A callback is a
    computation on the heap with a state of its own. *)
From S2P Require Import Prelude CMemory Bstrlib BstrSearch BstrOps.

(** * Code *)

(** ** Lists *)

Record bstrList := mkList { qty : Z; lmlen : Z; entry : list Z }.

(** [bstr__realloc] of an array of entries to [n] of them. *)
Definition realloc_entries (l : list Z) (n : Z) : BM (option (list Z)) := λ h,
  '(ok, h) ← outcome h;
  mret ((if (ok : bool) then Some (take (Z.to_nat n) l ++ replicate (Z.to_nat (n - zlen l)) (junk h)) else None), h).

Definition bstrListCreate : BM (option bstrList) :=
  ok ← outcome;
  if negb ok then mret None else
  e ← realloc_entries [] 1;
  match e with None => mret None | Some e => mret (Some (mkList 0 1 e)) end.

(** [bstrListDestroy] of a list with its entries. *)
Fixpoint destroy_entries (l : list Z) : BM unit :=
  match l with
  | [] => mret ()
  | e :: l => (if negb (e =? 0) then bdestroy e;; mret () else mret ());; destroy_entries l
  end.

Definition bstrListDestroy (sl : option bstrList) : BM Z :=
  match sl with
  | None => mret BSTR_ERR
  | Some sl =>
      if qty sl <? 0 then mret BSTR_ERR
      else if zlen (entry sl) <? qty sl then undef
      else destroy_entries (take (Z.to_nat (qty sl)) (entry sl));; mret BSTR_OK
  end.

Definition bad_list (sl : bstrList) (msz : Z) : bool :=
  (msz <=? 0) || (qty sl <? 0) || (lmlen sl <=? 0) || (lmlen sl <? qty sl).

(** Eight bytes an entry: the product does not wrap around for an [int]. *)
Definition bstrListAlloc (sl : option bstrList) (msz : Z) : BM (Z * option bstrList) :=
  match sl with
  | None => mret (BSTR_ERR, None)
  | Some l =>
      if bad_list l msz then mret (BSTR_ERR, sl)
      else if msz <=? lmlen l then mret (BSTR_OK, sl)
      else
        let smsz := snapUpSize msz in
        if u64 (smsz * 8) <? smsz then mret (BSTR_ERR, sl) else
        e ← realloc_entries (entry l) smsz;
        match e with
        | Some e => mret (BSTR_OK, Some (mkList (qty l) smsz e))
        | None =>
            e ← realloc_entries (entry l) msz;
            match e with
            | Some e => mret (BSTR_OK, Some (mkList (qty l) msz e))
            | None => mret (BSTR_ERR, sl)
            end
        end
  end.

Definition bstrListAllocMin (sl : option bstrList) (msz : Z) : BM (Z * option bstrList) :=
  match sl with
  | None => mret (BSTR_ERR, None)
  | Some l =>
      if bad_list l msz then mret (BSTR_ERR, sl) else
      let msz := if msz <? qty l then qty l else msz in
      if lmlen l =? msz then mret (BSTR_OK, sl)
      else if u64 (msz * 8) <? msz then mret (BSTR_ERR, sl) else
      e ← realloc_entries (entry l) msz;
      match e with
      | Some e => mret (BSTR_OK, Some (mkList (qty l) msz e))
      | None => mret (BSTR_ERR, sl)
      end
  end.

(** ** Splitting *)

Section callbacks.
Context {A : Type} (cb : A → Z → Z → BM (Z * A)).

(** The first index from [i] on, below [i + n], whose byte passes the test, or
    [i + n]. *)
Fixpoint find_split (test : Z → res bool) (d : ptr) (n : nat) (i : Z) : BM Z :=
  match n with
  | O => mret i
  | S n =>
      c ← read_byte (padd d i);
      t ← lift (test c);
      if (t : bool) then mret i else find_split test d n (i + 1)
  end.

(** The loops of [bsplitcb] and [bsplitscb], which read the string's header
    again after every callback. *)
Fixpoint split_loop (fuel : nat) (test : Z → res bool) (str p : Z) (parm : A) : BM (Z * A) :=
  match fuel with
  | O => no_fuel
  | S fuel =>
      s ← deref str;
      i ← (if p <? slen s then
             match data s with
             | None => undef
             | Some d => find_split test d (Z.to_nat (slen s - p)) p
             end
           else mret p);
      r ← cb parm p (i - p);
      if r.1 <? 0 then mret r else
      s ← deref str;
      if i + 1 <=? slen s then split_loop fuel test str (i + 1) r.2 else mret (BSTR_OK, r.2)
  end.

Definition bsplitcb (fuel : nat) (str splitChar pos : Z) (parm : A) : BM (Z * A) :=
  if (str =? 0) || (pos <? 0) then mret (BSTR_ERR, parm) else
  s ← deref str;
  if slen s <? pos then mret (BSTR_ERR, parm)
  else split_loop fuel (λ x, mret (x =? u8 splitChar)) str pos parm.

(** With an empty set the whole string is one piece, whatever [pos] is. *)
Definition bsplitscb (fuel : nat) (str splitStr pos : Z) (parm : A) : BM (Z * A) :=
  if (str =? 0) || (pos <? 0) then mret (BSTR_ERR, parm) else
  s ← deref str;
  if (slen s <? pos) || (splitStr =? 0) then mret (BSTR_ERR, parm) else
  t ← deref splitStr;
  if slen t <? 0 then mret (BSTR_ERR, parm)
  else if slen t =? 0 then
    r ← cb parm 0 (slen s); mret (if 0 <? r.1 then 0 else r.1, r.2)
  else if slen t =? 1 then
    c ← first_byte t; bsplitcb fuel str c pos parm
  else
    chrs ← buildCharField splitStr;
    match chrs with
    | None => undef (* the set would be read uninitialised *)
    | Some cf => split_loop fuel (testInCharField cf) str pos parm
    end.

(** [for (i = pos; i < str->slen; i++)] with a callback for each character. *)
Fixpoint each_char (fuel : nat) (str i : Z) (parm : A) : BM (Z * A) :=
  match fuel with
  | O => no_fuel
  | S fuel =>
      s ← deref str;
      if i <? slen s then
        r ← cb parm i 1;
        if r.1 <? 0 then mret r else each_char fuel str (i + 1) r.2
      else mret (BSTR_OK, parm)
  end.

(** The loop for a separator of two or more characters: after a match [i] is
    moved behind the separator, and then once more by the loop. *)
Fixpoint splitstr_loop (fuel : nat) (str splitStr i p : Z) (parm : A) : BM (Z * A) :=
  match fuel with
  | O => no_fuel
  | S fuel =>
      s ← deref str; t ← deref splitStr;
      if i <=? slen s - slen t then
        m ← (match data t, data s with
             | Some q, Some d => memcmp_eq q (padd d i) (slen t)
             | _, _ => undef
             end);
        if (m : bool) then
          r ← cb parm p (i - p);
          if r.1 <? 0 then mret r else
          t ← deref splitStr;
          let i := i + slen t in
          splitstr_loop fuel str splitStr (i + 1) i r.2
        else splitstr_loop fuel str splitStr (i + 1) p parm
      else
        r ← cb parm p (slen s - p);
        mret (if r.1 <? 0 then r else (BSTR_OK, r.2))
  end.

Definition bsplitstrcb (fuel : nat) (str splitStr pos : Z) (parm : A) : BM (Z * A) :=
  if (str =? 0) || (pos <? 0) then mret (BSTR_ERR, parm) else
  s ← deref str;
  if (slen s <? pos) || (splitStr =? 0) then mret (BSTR_ERR, parm) else
  t ← deref splitStr;
  if slen t <? 0 then mret (BSTR_ERR, parm)
  else if slen t =? 0 then each_char fuel str pos parm
  else if slen t =? 1 then c ← first_byte t; bsplitcb fuel str c pos parm
  else splitstr_loop fuel str splitStr pos pos parm.
End callbacks.

(** [while (qty >= mlen) mlen += mlen;], an error when it wraps around. *)
Fixpoint double_until (fuel : nat) (qty old mlen : Z) : BM (option Z) :=
  if qty <? mlen then mret (Some mlen)
  else if mlen <? old then mret None
  else match fuel with
       | O => no_fuel
       | S fuel => m ← icint (mlen + mlen); double_until fuel qty old m
       end.

(** The callback that collects the pieces of [b]. The result of [bmidstr] is
    stored without a test for NULL. *)
Definition bscb (b : Z) (bl : bstrList) (ofs len : Z) : BM (Z * bstrList) :=
  g ← (if lmlen bl <=? qty bl then
         m ← icint (lmlen bl * 2);
         m ← double_until 32 (qty bl) (lmlen bl) m;
         match m with
         | None => mret None
         | Some m =>
             e ← realloc_entries (entry bl) m;
             match e with None => mret None | Some e => mret (Some (mkList (qty bl) m e)) end
         end
       else mret (Some bl));
  match g with
  | None => mret (BSTR_ERR, bl)
  | Some bl =>
      x ← bmidstr b ofs len;
      e ← lift (store (entry bl) (qty bl) x);
      mret (BSTR_OK, mkList (qty bl + 1) (lmlen bl) e)
  end.

(** The list [bsplit], [bsplitstr] and [bsplits] start from. *)
Definition start_list : BM (option bstrList) :=
  ok ← outcome;
  if negb ok then mret None else
  e ← realloc_entries [] 4;
  match e with None => mret None | Some e => mret (Some (mkList 0 4 e)) end.

Definition collect (split : bstrList → BM (Z * bstrList)) : BM (option bstrList) :=
  g ← start_list;
  match g with
  | None => mret None
  | Some bl =>
      r ← split bl;
      if r.1 <? 0 then bstrListDestroy (Some r.2);; mret None else mret (Some r.2)
  end.

Definition usable (str : Z) : BM bool :=
  if str =? 0 then mret false else
  s ← deref str;
  mret (match data s with None => false | Some _ => negb (slen s <? 0) end).

Definition bsplit (fuel : nat) (str splitChar : Z) : BM (option bstrList) :=
  ok ← usable str;
  if negb ok then mret None else collect (bsplitcb (bscb str) fuel str splitChar 0).

Definition bsplitstr (fuel : nat) (str splitStr : Z) : BM (option bstrList) :=
  ok ← usable str;
  if negb ok then mret None else collect (bsplitstrcb (bscb str) fuel str splitStr 0).

Definition bsplits (fuel : nat) (str splitStr : Z) : BM (option bstrList) :=
  ok ← usable str;
  if negb ok then mret None else
  ok ← usable splitStr;
  if negb ok then mret None else collect (bsplitscb (bscb str) fuel str splitStr 0).

(** ** Joining *)

(** The total of the lengths of the entries and one, if it is an [int]. *)
Fixpoint total_length (l : list Z) (c : Z) : BM (option Z) :=
  match l with
  | [] => mret (Some c)
  | e :: l =>
      s ← deref e;
      if slen s <? 0 then mret None
      else if INT_MAX - c <? slen s then mret None
      else total_length l (c + slen s)
  end.

(** Copies the characters of [e] to [p]; the result is the place behind them. *)
Definition copy_entry (p : ptr) (e : Z) : BM ptr :=
  s ← deref e;
  match data s with None => undef | Some d => memcpy p d (slen s);; mret (padd p (slen s)) end.

Fixpoint copy_entries (p : ptr) (l : list Z) : BM ptr :=
  match l with
  | [] => mret p
  | e :: l => p ← copy_entry p e; copy_entries p l
  end.

(** Each entry after the separator. *)
Fixpoint copy_separated (p : ptr) (blk : ptr) (len : Z) (l : list Z) : BM ptr :=
  match l with
  | [] => mret p
  | e :: l =>
      memcpy p blk len;;
      let p := padd p len in
      s ← deref e;
      p ← (if negb (slen s =? 0) then copy_entry p e else mret p);
      copy_separated p blk len l
  end.

(** The block [p] of [c] bytes becomes the buffer of [b]. *)
Definition finish_join (b : Z) (p : ptr) (c : Z) : BM Z :=
  put b (mkB c (c - 1) (Some p));;
  write_byte (padd p (c - 1)) 0;;
  mret b.

(** [b] is not tested for NULL before its fields are set. *)
Definition bjoinblk (bl : option bstrList) (blk : option ptr) (len : Z) : BM Z :=
  match bl with
  | None => mret 0
  | Some bl =>
      if (qty bl <? 0) || (len <? 0) then mret 0
      else if (0 <? len) && match blk with None => true | Some _ => false end then mret 0
      else if qty bl <? 1 then blk2bstr (Some (0, 0)) 0 (* of a static block that is not read *)
      else if zlen (entry bl) <? qty bl then undef
      else
        let l := take (Z.to_nat (qty bl)) (entry bl) in
        c ← total_length l 1;
        match c with
        | None => mret 0
        | Some c =>
            b ← malloc_struct blank;
            if len =? 0 then
              p ← malloc c;
              if b =? 0 then undef else
              match p with
              | None => free_struct b;; mret 0
              | Some p => copy_entries p l;; finish_join b p c
              end
            else
              v ← icint ((qty bl - 1) * len);
              if ((512 <? qty bl) || (127 <? len)) && negb (Z.quot v len =? qty bl - 1) then mret 0
              else if INT_MAX - c <? v then mret 0
              else
                let c := c + v in
                p ← malloc c;
                if b =? 0 then undef else
                match p with
                | None => free_struct b;; mret 0
                | Some p =>
                    match l, blk with
                    | e :: l, Some blk =>
                        q ← copy_entry p e; copy_separated q blk len l;; finish_join b p c
                    | _, _ => undef
                    end
                end
        end
  end.

(** [sep->data] is read also when [sep] is NULL. *)
Definition bjoin (bl : option bstrList) (sep : Z) : BM Z :=
  s ← deref sep;
  if (slen s <? 0) || match data s with None => true | Some _ => false end then mret 0
  else bjoinblk bl (data s) (slen s).

(** * Pieces *)

(** The pieces of [c] between the characters that pass the test, as offsets and
    lengths; [len] characters of the current piece, from [ofs] on, came before. *)
Fixpoint fields (P : Z → bool) (c : list Z) (ofs len : Z) : list (Z * Z) :=
  match c with
  | [] => [(ofs, len)]
  | x :: c => if P x then (ofs, len) :: fields P c (ofs + len + 1) 0 else fields P c ofs (len + 1)
  end.

Definition piece (c : list Z) (f : Z * Z) : list Z := zslice c f.1 f.2.

Fixpoint intercalate (sep : list Z) (ls : list (list Z)) : list Z :=
  match ls with
  | [] => []
  | [a] => a
  | a :: ls => a ++ sep ++ intercalate sep ls
  end.

(** The length of the first piece. *)
Fixpoint seg (P : Z → bool) (c : list Z) : Z :=
  match c with [] => 0 | x :: c => if P x then 0 else 1 + seg P c end.

Lemma seg_bounds P c : 0 ≤ seg P c ≤ zlen c.
Proof.
  induction c as [|x c IH]; [done|]. cbn [seg]. rewrite zlen_cons. destruct (P x); lia.
Qed.

Lemma fields_seg P c ofs len :
  fields P c ofs len = (ofs, len + seg P c) ::
    (if seg P c <? zlen c then fields P (drop (Z.to_nat (seg P c + 1)) c) (ofs + len + seg P c + 1) 0 else []).
Proof.
  revert ofs len. induction c as [|x c IH]; intros ofs len; cbn [fields seg].
  - by rewrite Z.add_0_r.
  - pose proof (zlen_nonneg c). pose proof (seg_bounds P c). rewrite zlen_cons. destruct (P x) eqn:E.
    + rewrite (proj2 (Z.ltb_lt 0 _)) by lia. rewrite Z.add_0_r. do 2 f_equal. lia.
    + rewrite IH. f_equal; [f_equal; lia|]. destruct (seg P c <? zlen c) eqn:E2; propify.
      * rewrite (proj2 (Z.ltb_lt (1 + seg P c) (zlen c + 1))) by lia.
        replace (Z.to_nat (1 + seg P c + 1)) with (S (Z.to_nat (seg P c + 1))) by lia.
        cbn [drop]. f_equal. lia.
      * by rewrite (proj2 (Z.ltb_ge (1 + seg P c) (zlen c + 1))) by lia.
Qed.

Lemma fields_nonempty P c ofs len : fields P c ofs len ≠ [].
Proof. rewrite fields_seg. done. Qed.

Lemma intercalate_cons sep a ls : ls ≠ [] → intercalate sep (a :: ls) = a ++ sep ++ intercalate sep ls.
Proof. by destruct ls. Qed.

(** Joining the pieces with the separator restores the string. *)
Lemma fields_intercalate x pre c :
  ∀ len, 0 ≤ len ≤ zlen pre →
  intercalate [x] (piece (pre ++ c) <$> fields (λ y, y =? x) c (zlen pre - len) len) =
    drop (Z.to_nat (zlen pre - len)) (pre ++ c).
Proof.
  revert pre. induction c as [|y c IH]; intros pre len Hlen; cbn [fields].
  - cbn [fmap list_fmap intercalate piece fst snd]. unfold piece, zslice. cbn [fst snd]. rewrite app_nil_r.
    apply take_ge. rewrite length_drop. unfold zlen in *. lia.
  - assert (pre ++ y :: c = (pre ++ [y]) ++ c) as Happ by (by rewrite <-app_assoc).
    assert (zlen (pre ++ [y]) = zlen pre + 1) as Hl by (by rewrite zlen_app).
    destruct (y =? x) eqn:E; propify.
    + subst y. rewrite fmap_cons. specialize (IH (pre ++ [x]) 0 ltac:(lia)).
      rewrite Happ. replace (zlen (pre ++ [x]) - 0) with (zlen pre - len + len + 1) in IH by lia.
      rewrite intercalate_cons.
      2: { intros Hnil%fmap_nil_inv. by apply fields_nonempty in Hnil. }
      rewrite IH. unfold piece, zslice. cbn [fst snd].
      assert (drop (Z.to_nat (zlen pre - len)) ((pre ++ [x]) ++ c) =
        drop (Z.to_nat (zlen pre - len)) pre ++ x :: c) as ->.
      { rewrite <-app_assoc, drop_app_le by (unfold zlen in *; lia). done. }
      assert (length (drop (Z.to_nat (zlen pre - len)) pre) = Z.to_nat len) as Hd.
      { rewrite length_drop. unfold zlen in *. lia. }
      rewrite <-Hd at 1. rewrite take_app_length. f_equal. cbn [app]. f_equal.
      replace (Z.to_nat (zlen pre - len + len + 1)) with (length (pre ++ [x])) by (unfold zlen in *; lia).
      by rewrite drop_app_length.
    + rewrite Happ. specialize (IH (pre ++ [y]) (len + 1) ltac:(lia)).
      replace (zlen (pre ++ [y]) - (len + 1)) with (zlen pre - len) in IH by lia. exact IH.
Qed.

(** No piece holds a separator. *)
Lemma seg_free P c : Forall (λ x, P x = false) (take (Z.to_nat (seg P c)) c).
Proof.
  induction c as [|x c IH]; [by rewrite take_nil|]. cbn [seg]. pose proof (seg_bounds P c).
  destruct (P x) eqn:E; [constructor|].
  replace (Z.to_nat (1 + seg P c)) with (S (Z.to_nat (seg P c))) by lia. by constructor.
Qed.

(** ** The splitting loop *)

(** The string can be read and holds [c]. *)
Definition holds (str : Z) (c : list Z) (h : bheap) : Prop := ∃ s X o bx, readable h str s X o bx c.

Lemma read_byte_readable h str s X o bx c i x :
  readable h str s X o bx c → zget c i = Some x → read_byte (padd (X, o) i) h = Done (x, h).
Proof.
  intros R Hx. pose proof (zget_Some_range _ _ _ Hx). pose proof (readable_len _ _ _ _ _ _ _ R).
  destruct R as [_ _ HX _ [? ?] ->]. rewrite zget_zslice in Hx by lia.
  unfold read_byte, padd. cbn [fst snd]. rewrite HX. by rewrite (load_ok _ _ _ Hx).
Qed.

Section splitting.
Context (str : Z) (c : list Z).
Context (test : Z → res bool) (P : Z → bool) (Htest : Forall (λ x, test x = Done (P x)) c).

Lemma find_split_ok h s X o bx l p :
  readable h str s X o bx c → 0 ≤ p → drop (Z.to_nat p) c = l →
  find_split test (X, o) (length l) p h = Done (p + seg P l, h).
Proof using Htest.
  intros R. revert p. induction l as [|x l IH]; intros p Hp Hl; cbn [length find_split seg].
  - by rewrite Z.add_0_r.
  - assert (zget c p = Some x) as Hx.
    { rewrite zget_of_lookup by lia. rewrite <-(Nat.add_0_r (Z.to_nat p)), <-lookup_drop, Hl. done. }
    rewrite M_bind_eq, (read_byte_readable _ _ _ _ _ _ _ _ _ R Hx). cbn [mbind res_bind].
    assert (test x = Done (P x)) as Ht.
    { rewrite Forall_lookup in Htest. rewrite zget_of_lookup in Hx by lia. by eapply Htest. }
    rewrite M_bind_eq. unfold lift. rewrite Ht. cbn [mbind res_bind mret res_ret].
    destruct (P x); [by rewrite Z.add_0_r|].
    rewrite IH; [do 2 f_equal; lia|lia|].
    replace (Z.to_nat (p + 1)) with (S (Z.to_nat p)) by lia. rewrite <-Nat.add_1_r, <-drop_drop, Hl. done.
Qed.

Context {A : Type} (cb : A → Z → Z → BM (Z * A)).
Context (I : list (Z * Z) → A → bheap → Prop) (E : list (Z * Z) → Z → A → bheap → Prop).
Context (HI : ∀ done a h, I done a h → holds str c h).
Context (Hcb : ∀ done a h o l, I done a h → 0 ≤ l → zlen done ≤ o → o + l ≤ zlen c →
  returns (cb a o l h) (λ '(r, h'), 0 ≤ r.1 ∧ I (done ++ [(o, l)]) r.2 h' ∨ r.1 < 0 ∧ E (done ++ [(o, l)]) r.1 r.2 h')).

(** Either every piece was handed over, or the callback stopped the loop. *)
Definition split_post (all : list (Z * Z)) (rh : (Z * A) * bheap) : Prop :=
  let '(r, h') := rh in
  r.1 = BSTR_OK ∧ I all r.2 h' ∨
  r.1 < 0 ∧ ∃ called rest, all = called ++ rest ∧ E called r.1 r.2 h'.

Lemma split_loop_ok fuel done a h p :
  I done a h → zlen done ≤ p ≤ zlen c → zlen c - p < Z.of_nat fuel →
  returns (split_loop cb fuel test str p a h) (split_post (done ++ fields P (drop (Z.to_nat p) c) p 0)).
Proof using Htest HI Hcb.
  revert done a h p. induction fuel as [|fuel IH]; intros done a h p HIh Hp Hfuel; [lia|].
  pose proof (zlen_nonneg done). destruct (HI _ _ _ HIh) as (s & X & o & bx & R). pose proof (readable_len _ _ _ _ _ _ _ R) as Hl.
  pose proof R as [Hs Hd _ _ _ _]. cbn [split_loop]. eapply step_deref; [done|].
  set (l := drop (Z.to_nat p) c). assert (zlen l = zlen c - p) as Hll by (apply zlen_drop; lia).
  pose proof (seg_bounds P l) as Hseg.
  assert (∀ (k : Z → BM (Z * A)) Q, returns (k (p + seg P l) h) Q →
    returns (((if p <? slen s then match data s with None => undef
      | Some d => find_split test d (Z.to_nat (slen s - p)) p end else mret p) ≫= k) h) Q) as Hfind.
  { intros k Q Hk. destruct (p <? slen s) eqn:Ep; propify.
    - rewrite Hd, M_bind_eq. replace (Z.to_nat (slen s - p)) with (length l) by (unfold zlen in *; lia).
      rewrite (find_split_ok h s X o bx l p R) by (done || lia). exact Hk.
    - assert (seg P l = 0) as Hz by lia. rewrite Hz, Z.add_0_r in Hk. exact Hk. }
  apply Hfind. replace (p + seg P l - p) with (seg P l) by lia.
  rewrite M_bind_eq. apply returns_bind. eapply returns_mono; [apply (Hcb done); [done|lia|lia|lia]|].
  assert (fields P l p 0 = (p, seg P l) :: (if seg P l <? zlen l
    then fields P (drop (Z.to_nat (p + seg P l + 1)) c) (p + seg P l + 1) 0 else [])) as Hf.
  { rewrite fields_seg. rewrite Z.add_0_l. f_equal. case_if; [|done].
    replace (Z.to_nat (p + seg P l + 1)) with (Z.to_nat p + Z.to_nat (seg P l + 1))%nat by lia.
    rewrite <-drop_drop. fold l. f_equal. lia. }
  intros [[r a'] h'] [[Hr HI']|[Hr HE]]; cbn [fst snd] in *.
  - rewrite (proj2 (Z.ltb_ge r 0)) by lia. destruct (HI _ _ _ HI') as (s' & X' & o' & bx' & R').
    pose proof (readable_len _ _ _ _ _ _ _ R') as Hl'. eapply step_deref; [apply R'|].
    rewrite Hf. destruct (p + seg P l + 1 <=? slen s') eqn:En; propify.
    + rewrite (proj2 (Z.ltb_lt (seg P l) (zlen l))) by lia.
      change (?x :: ?y) with ([x] ++ y). rewrite app_assoc. apply IH; [done|zlen_lia|lia].
    + rewrite (proj2 (Z.ltb_ge (seg P l) (zlen l))) by lia. by left.
  - rewrite (proj2 (Z.ltb_lt r 0)) by lia. right. split; [done|]. rewrite Hf.
    eexists _, _. split; [|exact HE]. rewrite <-app_assoc. done.
Qed.
End splitting.

(** ** A callback that only changes its own state *)

Definition pure {A} (f : A → Z → Z → Z * A) (a : A) (o l : Z) : BM (Z * A) := mret (f a o l).

(** The callback on one piece after the other, until it returns a negative value. *)
Fixpoint run {A} (f : A → Z → Z → Z * A) (fs : list (Z * Z)) (a : A) : Z * A :=
  match fs with
  | [] => (BSTR_OK, a)
  | (o, l) :: fs => let r := f a o l in if r.1 <? 0 then r else run f fs r.2
  end.

Section traces.
Context {A : Type} (f : A → Z → Z → Z * A) (a0 : A) (h : bheap) (str : Z) (c : list Z) (Hstr : holds str c h).

Lemma split_loop_run fuel test P p :
  Forall (λ x, test x = Done (P x)) c → 0 ≤ p ≤ zlen c → zlen c - p < Z.of_nat fuel →
  split_loop (pure f) fuel test str p a0 h = Done (run f (fields P (drop (Z.to_nat p) c) p 0) a0, h).
Proof using Hstr.
  intros Htest Hp Hfuel. apply returns_eq.
  set (I := λ (done : list (Z * Z)) (a : A) (h' : bheap), h' = h ∧ ∀ rest, run f (done ++ rest) a0 = run f rest a).
  set (E := λ (done : list (Z * Z)) (r : Z) (a : A) (h' : bheap), h' = h ∧ ∀ rest, run f (done ++ rest) a0 = (r, a)).
  assert (∀ done a h', I done a h' → holds str c h') as HI by (by intros done' a h' [-> _]).
  assert (∀ done a h' o l, I done a h' → 0 ≤ l → zlen done ≤ o → o + l ≤ zlen c →
    returns (pure f a o l h') (λ '(r, h'), 0 ≤ r.1 ∧ I (done ++ [(o, l)]) r.2 h' ∨ r.1 < 0 ∧ E (done ++ [(o, l)]) r.1 r.2 h')) as Hcb.
  { intros done' a h' o l [-> Hrun] _ _ _. cbn. destruct (f a o l) as [r a'] eqn:Ef. cbn [fst snd].
    destruct (decide (r < 0)) as [Hr|Hr].
    - right. split; [done|]. split; [done|]. intros rest. rewrite <-app_assoc, Hrun. cbn. rewrite Ef. cbn.
      by rewrite (proj2 (Z.ltb_lt r 0)).
    - left. split; [lia|]. split; [done|]. intros rest. rewrite <-app_assoc, Hrun. cbn. rewrite Ef. cbn.
      by rewrite (proj2 (Z.ltb_ge r 0)) by lia. }
  eapply returns_mono; [apply (split_loop_ok str c test P Htest (pure f) I E HI Hcb fuel []); [done|change (zlen (@nil (Z * Z))) with 0; lia|lia]|].
  intros [[r a'] h'] [[Hr [-> Hrun]]|(Hr & called & rest & Hall & -> & Hrun)]; cbn [fst snd] in *; f_equal.
  - subst r. specialize (Hrun []). rewrite app_nil_r in Hrun. cbn [app] in Hrun. symmetry. exact Hrun.
  - cbn [app] in Hall. by rewrite Hall, Hrun.
Qed.

Lemma bsplitcb_run fuel ch pos :
  heap_ok h → 0 ≤ pos ≤ zlen c → zlen c - pos < Z.of_nat fuel →
  bsplitcb (pure f) fuel str ch pos a0 h = Done (run f (fields (λ x, x =? u8 ch) (drop (Z.to_nat pos) c) pos 0) a0, h).
Proof using Hstr.
  intros OK Hpos Hfuel. destruct Hstr as (s & X & o & bx & R). unfold bsplitcb.
  rewrite (proj2 (Z.eqb_neq str 0)), (proj2 (Z.ltb_ge pos 0)) by (lia || by eapply readable_nonnull). cbn [orb].
  pose proof (readable_len _ _ _ _ _ _ _ R). rewrite M_bind_eq, (deref_ok _ s) by apply R. cbn [mbind res_bind].
  rewrite (proj2 (Z.ltb_ge (slen s) pos)) by lia. apply split_loop_run; [|lia|lia]. by apply Forall_true.
Qed.
End traces.

(** [bsplitcb] and [bsplitscb] hand the pieces between the separators
    to the callback, in order, from [pos] on, until the callback returns a
    negative value; the loop ends after at most one call more than there are
    characters. The empty set makes the string one piece, from its beginning. *)
Theorem bsplitscb_correct {A} (f : A → Z → Z → Z * A) a h str s X o bx c spl t Y o' by' set pos fuel :
  heap_ok h → readable h str s X o bx c → readable h spl t Y o' by' set →
  Forall is_byte c → Forall is_byte set → 0 ≤ pos ≤ zlen c → zlen c - pos < Z.of_nat fuel →
  bsplitscb (pure f) fuel str spl pos a h = Done (
    if slen t =? 0 then let r := f a 0 (zlen c) in (Z.min r.1 0, r.2)
    else run f (fields (λ x, bool_decide (x ∈ set)) (drop (Z.to_nat pos) c) pos 0) a, h).
Proof.
  intros OK R Rt Bc Bs Hpos Hfuel. unfold bsplitscb.
  rewrite (proj2 (Z.eqb_neq str 0)), (proj2 (Z.ltb_ge pos 0)) by (lia || by eapply readable_nonnull). cbn [orb].
  pose proof (readable_len _ _ _ _ _ _ _ R) as Hl. pose proof (readable_len _ _ _ _ _ _ _ Rt) as Hlt.
  rewrite M_bind_eq, (deref_ok _ s) by apply R. cbn [mbind res_bind].
  rewrite (proj2 (Z.ltb_ge (slen s) pos)), (proj2 (Z.eqb_neq spl 0)) by (lia || by eapply readable_nonnull). cbn [orb].
  rewrite M_bind_eq, (deref_ok _ t) by apply Rt. cbn [mbind res_bind]. pose proof (zlen_nonneg set).
  rewrite (proj2 (Z.ltb_ge (slen t) 0)) by lia. destruct (slen t =? 0) eqn:E0; propify.
  { rewrite M_bind_eq. cbn [pure mret M_ret mbind res_bind]. rewrite <-Hl.
    destruct (0 <? (f a 0 (zlen c)).1) eqn:Er; propify; [rewrite Z.min_r by lia|rewrite Z.min_l by lia]; done. }
  assert (∀ P Q l q k, (∀ x, P x = Q x) → fields P l q k = fields Q l q k) as Hext.
  { intros P Q l q k HPQ. revert q k. induction l as [|x l IH]; intros q k; [done|]. cbn. rewrite HPQ, !IH. done. }
  assert (holds str c h) as Hstr by (by exists s, X, o, bx).
  destruct (slen t =? 1) eqn:E1; propify.
  - destruct (one_char h spl t Y o' by' set Rt Bs E1) as (x & Hx & Hxb & Hset).
    rewrite M_bind_eq, (first_byte_ok h spl t Y o' by' set Rt x Hx). cbn [mbind res_bind].
    rewrite (bsplitcb_run f a h str c Hstr) by done. do 3 f_equal. apply Hext. intros y.
    assert (u8 x = x) as -> by (apply Z.mod_small; unfold is_byte in *; lia). apply Hset.
  - rewrite M_bind_eq. apply returns_eq, returns_bind.
    eapply returns_mono; [by eapply buildCharField_ok|]. intros [r h'] [-> Hr].
    rewrite (proj2 (Z.eqb_neq (slen t) 0)) in Hr by done. destruct Hr as (cf & -> & Hcf).
    rewrite (split_loop_run f a h str c Hstr _ _ (set_of set)); [done| |lia|lia].
    eapply Forall_impl; [exact Bc|]. intros x Hx. by apply testInCharField_ok.
Qed.

(** ** Splitting at a string *)

Lemma memcmp_eq_ok (h : bheap) (p q : ptr) n xs ys :
  load_bytes p n h = Done (xs, h) → load_bytes q n h = Done (ys, h) →
  memcmp_eq p q n h = Done (bool_decide (xs = ys), h).
Proof. intros Hp Hq. unfold memcmp_eq. by rewrite M_bind_eq, Hp; cbn [mbind res_bind]; rewrite M_bind_eq, Hq. Qed.

(** After a separator of two or more characters [bsplitstrcb] skips one
    character: the string that is the separator twice is split into an empty
    piece and one that is the separator, instead of three empty pieces. *)
Theorem bsplitstrcb_skips {A} (f : A → Z → Z → Z * A) a h str s X o bx spl t Y o' by' sep fuel :
  heap_ok h → readable h str s X o bx (sep ++ sep) → readable h spl t Y o' by' sep → 2 ≤ zlen sep →
  (∀ a o l, 0 ≤ (f a o l).1) → (3 ≤ fuel)%nat →
  bsplitstrcb (pure f) fuel str spl 0 a h =
    Done (run f [(0, 0); (zlen sep, zlen sep)] a, h) ∧
  piece (sep ++ sep) (zlen sep, zlen sep) = sep.
Proof.
  intros OK R Rt Hsep Hf Hfuel. pose proof (readable_len _ _ _ _ _ _ _ R) as Hl. pose proof (readable_len _ _ _ _ _ _ _ Rt) as Hlt.
  rewrite zlen_app in Hl. split.
  2: { unfold piece, zslice, zlen. cbn [fst snd]. rewrite Nat2Z.id, drop_app_length. apply take_ge. done. }
  pose proof R as [Hs Hd HX _ [? ?] Hc]. pose proof Rt as [Ht Hdt HY _ [? ?] Hct].
  unfold bsplitstrcb. rewrite (proj2 (Z.eqb_neq str 0)) by (by eapply readable_nonnull). cbn [orb]. change (0 <? 0) with false. cbv iota.
  rewrite M_bind_eq, (deref_ok _ s) by done. cbn [mbind res_bind].
  rewrite (proj2 (Z.ltb_ge (slen s) 0)), (proj2 (Z.eqb_neq spl 0)) by (lia || by eapply readable_nonnull). cbn [orb].
  rewrite M_bind_eq, (deref_ok _ t) by done. cbn [mbind res_bind].
  rewrite (proj2 (Z.ltb_ge (slen t) 0)), (proj2 (Z.eqb_neq (slen t) 0)), (proj2 (Z.eqb_neq (slen t) 1)) by lia.
  destruct fuel as [|[|fuel]]; [lia..|]. cbn [splitstr_loop].
  rewrite M_bind_eq, (deref_ok _ s) by done. cbn [mbind res_bind].
  rewrite M_bind_eq, (deref_ok _ t) by done. cbn [mbind res_bind].
  rewrite (proj2 (Z.leb_le 0 (slen s - slen t))) by lia. rewrite Hd, Hdt.
  rewrite M_bind_eq, (memcmp_eq_ok h (Y, o') (padd (X, o) 0) (slen t) sep sep).
  2: { by apply (load_bytes_readable _ _ _ _ _ _ _ Rt). }
  2: { unfold padd. cbn [fst snd]. rewrite Z.add_0_r, (load_bytes_ok _ _ bx) by (done || cbn; lia). cbn [snd]. do 2 f_equal.
       rewrite <-(take_app_length sep sep), Hc. unfold zslice. rewrite take_take. f_equal. unfold zlen in *. lia. }
  rewrite bool_decide_eq_true_2 by done. cbn [mbind res_bind].
  rewrite M_bind_eq. cbn [pure mret M_ret mbind res_bind run]. change (0 - 0) with 0.
  rewrite (proj2 (Z.ltb_ge (f a 0 0).1 0)) by apply Hf.
  rewrite M_bind_eq, (deref_ok _ t) by done. cbn [mbind res_bind].
  rewrite M_bind_eq, (deref_ok _ s) by done. cbn [mbind res_bind].
  rewrite M_bind_eq, (deref_ok _ t) by done. cbn [mbind res_bind].
  rewrite (proj2 (Z.leb_gt (0 + slen t + 1) (slen s - slen t))) by lia.
  rewrite M_bind_eq. cbn [pure mret M_ret mbind res_bind].
  replace (0 + slen t) with (zlen sep) by lia. replace (slen s - zlen sep) with (zlen sep) by lia.
  by rewrite (proj2 (Z.ltb_ge (f (f a 0 0).2 (zlen sep) (zlen sep)).1 0)) by apply Hf.
Qed.

(** * Strings an operation has made *)

Record strobj := mkObj { ob_addr : Z; ob_struct : tagbstring; ob_block : Z; ob_bytes : list Z }.

Definition ob_content (x : strobj) : list Z := content (ob_struct x) (ob_bytes x).

Definition ob_ok (x : strobj) : Prop :=
  data (ob_struct x) = Some (ob_block x, 0) ∧ 0 ≤ slen (ob_struct x) < mlen (ob_struct x) ∧
  zlen (ob_bytes x) = mlen (ob_struct x) ∧ zget (ob_bytes x) (slen (ob_struct x)) = Some 0 ∧ ob_addr x ≠ 0.

Definition headers (S : list strobj) : gmap Z tagbstring := list_to_map ((λ x, (ob_addr x, ob_struct x)) <$> S).
Definition buffers (S : list strobj) : gmap Z (list Z) := list_to_map ((λ x, (ob_block x, ob_bytes x)) <$> S).

(** The heap [h'] is [h] and the strings [S], each with a buffer of its own. *)
Record owns (h h' : bheap) (S : list strobj) : Prop := {
  ow_structs : structs h' = headers S ∪ structs h;
  ow_blocks : blocks h' = buffers S ∪ blocks h;
  ow_addrs : NoDup (ob_addr <$> S);
  ow_blks : NoDup (ob_block <$> S);
  ow_fresh : ∀ x, x ∈ S → structs h !! ob_addr x = None ∧ blocks h !! ob_block x = None ∧ ob_ok x;
  ow_ok : heap_ok h' }.

Lemma headers_None S a : a ∉ ob_addr <$> S → headers S !! a = None.
Proof.
  intros Ha. apply not_elem_of_list_to_map_1. by rewrite <-list_fmap_compose.
Qed.

Lemma buffers_None S b : b ∉ ob_block <$> S → buffers S !! b = None.
Proof.
  intros Hb. apply not_elem_of_list_to_map_1. by rewrite <-list_fmap_compose.
Qed.

Lemma owns_nil h h' : heap_ok h → owns h h' [] ↔ same_memory h h'.
Proof.
  intros OK. assert (headers [] ∪ structs h = structs h) as Eh by apply (left_id_L ∅ (∪)).
  assert (buffers [] ∪ blocks h = blocks h) as Eb0 by apply (left_id_L ∅ (∪)). split.
  - intros [Es Eb _ _ _ OK']. split_and!; congruence.
  - intros (Es & Eb & OK'). split; [congruence|congruence|constructor|constructor| |done].
    intros x Hx. by apply not_elem_of_nil in Hx.
Qed.

Lemma owns_same h h1 h2 S : owns h h1 S → same_memory h1 h2 → owns h h2 S.
Proof. intros [Es Eb ????] (Es2 & Eb2 & OK2). split; try done; congruence. Qed.

Lemma owns_lookup h h' S x :
  owns h h' S → x ∈ S → structs h' !! ob_addr x = Some (ob_struct x) ∧ blocks h' !! ob_block x = Some (ob_bytes x).
Proof.
  intros [Es Eb Ha Hb _ _] Hx. rewrite Es, Eb. split; apply lookup_union_Some_l, elem_of_list_to_map_1.
  - by rewrite <-list_fmap_compose.
  - apply list_elem_of_fmap. by exists x.
  - by rewrite <-list_fmap_compose.
  - apply list_elem_of_fmap. by exists x.
Qed.

(** What was there before is still there. *)
Lemma owns_frame h h' S :
  owns h h' S →
  (∀ a s, structs h !! a = Some s → structs h' !! a = Some s) ∧
  (∀ b buf, blocks h !! b = Some buf → blocks h' !! b = Some buf).
Proof.
  intros [Es Eb _ _ Hf _]. rewrite Es, Eb. split; intros i y Hi; (rewrite lookup_union_r; [done|]).
  - apply headers_None. intros (x & -> & Hx)%list_elem_of_fmap. destruct (Hf x Hx) as (? & ? & _). congruence.
  - apply buffers_None. intros (x & -> & Hx)%list_elem_of_fmap. destruct (Hf x Hx) as (? & ? & _). congruence.
Qed.

Lemma readable_frame h h' b s X o bx c :
  (∀ a s, structs h !! a = Some s → structs h' !! a = Some s) →
  (∀ b buf, blocks h !! b = Some buf → blocks h' !! b = Some buf) →
  readable h b s X o bx c → readable h' b s X o bx c.
Proof. intros Hs Hb [? ? ? ? ? ?]. split; auto. Qed.

Lemma owns_readable h h' S x :
  owns h h' S → x ∈ S → readable h' (ob_addr x) (ob_struct x) (ob_block x) 0 (ob_bytes x) (ob_content x).
Proof.
  intros O Hx. destruct (owns_lookup _ _ _ _ O Hx). destruct (ow_fresh _ _ _ O x Hx) as (_ & _ & Hd & Hl & Hz & _ & _).
  split; try done; lia.
Qed.

Lemma owns_snoc h h1 S h2 a sa Y new c :
  owns h h1 S → copied h1 h2 a sa Y new c → owns h h2 (S ++ [mkObj a sa Y new]).
Proof.
  intros [Es Eb Ha Hb Hf OK1] [Es2 Eb2 (Hfa & Hfy & Ha0) Hd [Hl Hm] _ OK2 Hz].
  rewrite Es in Es2, Hfa. rewrite Eb in Eb2, Hfy. apply lookup_union_None in Hfa as [Hfa1 Hfa2], Hfy as [Hfy1 Hfy2].
  split; try done.
  - rewrite Es2. unfold headers in *. rewrite fmap_app, list_to_map_app. cbn [fmap list_fmap list_to_map foldr].
    rewrite insert_union_r by done. rewrite <-(assoc_L (∪)). f_equal.
    etrans; [apply insert_union_singleton_l|done].
  - rewrite Eb2. unfold buffers in *. rewrite fmap_app, list_to_map_app. cbn [fmap list_fmap list_to_map foldr].
    rewrite insert_union_r by done. rewrite <-(assoc_L (∪)). f_equal.
    etrans; [apply insert_union_singleton_l|done].
  - rewrite fmap_app. apply NoDup_app. split_and!; [done| |apply NoDup_singleton].
    intros x Hx Hx2. cbn in Hx2. apply list_elem_of_singleton in Hx2 as ->.
    unfold headers in Hfa1. apply not_elem_of_list_to_map_2 in Hfa1. by rewrite <-list_fmap_compose in Hfa1.
  - rewrite fmap_app. apply NoDup_app. split_and!; [done| |apply NoDup_singleton].
    intros x Hx Hx2. cbn in Hx2. apply list_elem_of_singleton in Hx2 as ->.
    unfold buffers in Hfy1. apply not_elem_of_list_to_map_2 in Hfy1. by rewrite <-list_fmap_compose in Hfy1.
  - intros x Hx. apply elem_of_app in Hx as [Hx|Hx]; [by apply Hf|].
    apply list_elem_of_singleton in Hx as ->. by split_and!.
Qed.

(** Destroying the first string. *)
Lemma step_destroy_owned {A} h h1 x S (k : Z → BM A) (Q : A * bheap → Prop) :
  owns h h1 (x :: S) → (∀ h2, owns h h2 S → oom h2 = oom h1 → returns (k BSTR_OK h2) Q) → returns ((bdestroy (ob_addr x) ≫= k) h1) Q.
Proof.
  intros [Es Eb Ha Hb Hf OK1] Hk. cbn in Ha, Hb. apply NoDup_cons in Ha as [Ha1 Ha], Hb as [Hb1 Hb].
  destruct (Hf x) as (Hfa & Hfb & Hd & Hl & Hm & Hz & H0); [left|].
  set (h0 := with_blocks (with_structs h1 (delete (ob_addr x) (structs h1))) (delete (ob_block x) (blocks h1))).
  assert (headers S !! ob_addr x = None) as HnS by by apply headers_None.
  assert (buffers S !! ob_block x = None) as HnB by by apply buffers_None.
  assert (structs h1 = <[ob_addr x := ob_struct x]> (headers S ∪ structs h)) as Es1.
  { rewrite Es. unfold headers. cbn [fmap list_fmap list_to_map foldr]. symmetry. apply insert_union_l. }
  assert (blocks h1 = <[ob_block x := ob_bytes x]> (buffers S ∪ blocks h)) as Eb1.
  { rewrite Eb. unfold buffers. cbn [fmap list_fmap list_to_map foldr]. symmetry. apply insert_union_l. }
  assert (structs h0 = headers S ∪ structs h) as Es0.
  { cbn. rewrite Es1. apply delete_insert_id. apply lookup_union_None. done. }
  assert (blocks h0 = buffers S ∪ blocks h) as Eb0.
  { cbn. rewrite Eb1. apply delete_insert_id. apply lookup_union_None. done. }
  eapply (step_bdestroy_copy h0 h1 (ob_addr x) (ob_struct x) (ob_block x) (ob_bytes x) (ob_content x)).
  - split; try done; [by rewrite Es0|by rewrite Eb0|].
    rewrite Es0, Eb0. split_and!; [by apply lookup_union_None|by apply lookup_union_None|done].
  - by apply heap_ok_delete.
  - intros h2 (Es2 & Eb2 & OK2) Ho. apply Hk; [|done]. split; try done; [congruence|congruence|].
    intros y Hy. apply Hf. by right.
Qed.

(** Entries of a list that are addresses of the strings, or NULL. *)
Definition list_of (es : list Z) (S : list strobj) : Prop := filter (λ e, e ≠ 0) es = ob_addr <$> S.

Lemma step_destroy_entries {A} h es : ∀ h1 S (k : unit → BM A) (Q : A * bheap → Prop),
  heap_ok h → owns h h1 S → list_of es S →
  (∀ h2, same_memory h h2 → oom h2 = oom h1 → returns (k tt h2) Q) → returns ((destroy_entries es ≫= k) h1) Q.
Proof.
  unfold list_of. induction es as [|e es IH]; intros h1 S k Q OK O He Hk; cbn [destroy_entries].
  - cbn in He. symmetry in He. apply fmap_nil_inv in He as ->. apply step_ret, Hk; [by apply owns_nil|done].
  - rewrite filter_cons in He. destruct (e =? 0) eqn:E0; propify; cbn [negb].
    + rewrite decide_False in He by (intros ?; done). apply step_assoc, step_ret. by eapply IH.
    + rewrite decide_True in He by done. destruct S as [|x S]; [done|]. cbn in He. injection He as -> He.
      apply step_assoc, step_assoc. eapply step_destroy_owned; [exact O|]. intros h2 O2 Ho2. apply step_ret.
      eapply IH; [done|exact O2|done|]. intros h3 Hs3 Ho3. apply Hk; [done|congruence].
Qed.

(** ** Collecting the pieces *)

Lemma step_realloc_entries {A} h l n (k : option (list Z) → BM A) (Q : A * bheap → Prop) :
  heap_ok h → (∀ h', out_of_memory h h' → returns (k None h') Q) →
  (∀ h' j, same_memory h h' → (oom h = true → oom h' = true) → returns (k (Some (take (Z.to_nat n) l ++ replicate (Z.to_nat (n - zlen l)) j)) h') Q) →
  returns ((realloc_entries l n ≫= k) h) Q.
Proof.
  intros OK Hfail Hok. rewrite M_bind_eq. unfold realloc_entries. destruct (outcome_same h OK) as (o & os & ->).
  cbn [mbind res_bind mret res_ret]. destruct OK. destruct o; [apply Hok; [split_and!; done|cbn; intros ->; done]|].
  apply Hfail. split; [split_and!; done|]. cbn. apply orb_true_r.
Qed.

(** What a piece in the list stands for; NULL only when memory ran out. *)
Definition entry_for (oom : bool) (S : list strobj) (c : list Z) (e : Z) (f : Z * Z) : Prop :=
  e = 0 ∧ oom = true ∨ ∃ x, x ∈ S ∧ ob_addr x = e ∧ ob_content x = piece c f.

(** The list [bl] holds the pieces [fs] of [c], in strings made since [h]. *)
Definition collected (h : bheap) (c : list Z) (fs : list (Z * Z)) (bl : bstrList) (h' : bheap) : Prop :=
  ∃ S, owns h h' S ∧ qty bl = zlen fs ∧ lmlen bl = zlen (entry bl) ∧ qty bl ≤ lmlen bl ∧
    list_of (take (Z.to_nat (qty bl)) (entry bl)) S ∧
    Forall2 (entry_for (oom h') S c) (take (Z.to_nat (qty bl)) (entry bl)) fs.

(** The capacity has been doubled as needed. *)
Definition doubling (bl : bstrList) : Prop := 4 ≤ lmlen bl ∧ (lmlen bl = 4 ∨ lmlen bl ≤ 2 * qty bl).

Lemma take_zupd_end {A} (l : list A) n x : 0 ≤ n < zlen l → take (Z.to_nat (n + 1)) (zupd l n x) = take (Z.to_nat n) l ++ [x].
Proof.
  intros Hn. unfold zupd. unfold zlen in Hn. replace (Z.to_nat (n + 1)) with (S (Z.to_nat n)) by lia.
  rewrite (take_S_r _ _ x) by (apply list_lookup_insert_eq; lia). f_equal. apply take_insert_ge. lia.
Qed.

Lemma list_of_snoc es S e S' : list_of es S → list_of [e] S' → list_of (es ++ [e]) (S ++ S').
Proof. unfold list_of. intros H1 H2. by rewrite filter_app, H1, H2, fmap_app. Qed.

Lemma entry_for_mono o o' S S' c e f : (o = true → o' = true) → entry_for o S c e f → entry_for o' (S ++ S') c e f.
Proof. intros Ho [[-> ?]|(x & Hx & ?)]; [by left; auto|right]. exists x. split; [apply elem_of_app; by left|done]. Qed.

Section collecting.
Context (h : bheap) (str : Z) (s : tagbstring) (X o : Z) (bx c : list Z).
Context (OK : heap_ok h) (R : readable h str s X o bx c) (Hmax : zlen c < 2 ^ 29).

Let I (fs : list (Z * Z)) (bl : bstrList) (h' : bheap) : Prop := collected h c fs bl h' ∧ doubling bl.
Let E (fs : list (Z * Z)) (r : Z) (bl : bstrList) (h' : bheap) : Prop :=
  (∃ fs', collected h c fs' bl h') ∧ oom h' = true.

Lemma bscb_ok fs bl h' ofs len :
  I fs bl h' → 0 ≤ len → zlen fs ≤ ofs → ofs + len ≤ zlen c →
  returns (bscb str bl ofs len h') (λ '(r, h2),
    0 ≤ r.1 ∧ I (fs ++ [(ofs, len)]) r.2 h2 ∨ r.1 < 0 ∧ E (fs ++ [(ofs, len)]) r.1 r.2 h2).
Proof using OK R Hmax.
  intros [(S & O & Hq & Hm & Hle & Hl & HF) Hdbl] Hlen Hofs Hrange. pose proof (zlen_nonneg fs) as Hfs.
  pose proof (ow_ok _ _ _ O) as OK'. pose proof (readable_len _ _ _ _ _ _ _ R) as Hlc. unfold bscb.
  (* the piece, once there is room *)
  assert (∀ h1 bl1, same_memory h' h1 → (oom h' = true → oom h1 = true) → qty bl1 = qty bl → qty bl1 < lmlen bl1 → lmlen bl1 = zlen (entry bl1) →
    take (Z.to_nat (qty bl)) (entry bl1) = take (Z.to_nat (qty bl)) (entry bl) →
    doubling (mkList (qty bl1 + 1) (lmlen bl1) (entry bl1)) →
    returns ((x ← bmidstr str ofs len; e ← lift (store (entry bl1) (qty bl1) x);
      mret (BSTR_OK, mkList (qty bl1 + 1) (lmlen bl1) e)) h1) (λ '(r, h2),
      0 ≤ r.1 ∧ I (fs ++ [(ofs, len)]) r.2 h2 ∨ r.1 < 0 ∧ E (fs ++ [(ofs, len)]) r.1 r.2 h2)) as Hstore.
  { intros h1 bl1 Hsame Ho1 Hq1 Hlt1 Hm1 Htake1 Hd1. pose proof (owns_same _ _ _ _ O Hsame) as O1.
    destruct (owns_frame _ _ _ O1) as [Hfs1 Hfb1]. pose proof (readable_frame _ _ _ _ _ _ _ _ Hfs1 Hfb1 R) as R1.
    rewrite M_bind_eq. apply returns_bind.
    eapply returns_mono; [apply flagged_returns; [apply _|]; apply (step_bmidstr h1 str s X o bx c ofs len (ow_ok _ _ _ O1) R1); int_lia|].
    replace (Z.max ofs 0) with ofs by lia. replace (len + Z.min ofs 0) with len by lia.
    intros [r h2] [Hcr Ho2]. cbn [snd] in Ho2. eapply step_lift; [by apply store_ok; lia|]. left. cbn [fst snd]. split; [done|].
    assert (∀ S2, owns h h2 (S ++ S2) → list_of [r] S2 → entry_for (oom h2) (S ++ S2) c r (ofs, len) →
      I (fs ++ [(ofs, len)]) (mkList (qty bl1 + 1) (lmlen bl1) (zupd (entry bl1) (qty bl1) r)) h2) as Hdone.
    { intros S2 O2 Hl2 He2. split; [|exact Hd1]. exists (S ++ S2). cbn [qty lmlen entry].
      rewrite take_zupd_end by lia. rewrite Hq1, Htake1. split_and!; [done|zlen_lia|zlen_lia|lia|by apply list_of_snoc|].
      apply Forall2_app; [|by constructor]. eapply Forall2_impl; [exact HF|]. intros. eapply entry_for_mono; [|done]. auto. }
    destruct Hcr as [[-> [Hsame2 Hoom]]|(sa & Y & new & Hcp)].
    - apply (Hdone []); [rewrite app_nil_r; by eapply owns_same|done|by left].
    - pose proof Hcp as [_ _ (_ & _ & Hr0) _ _ Hcc _ _]. apply (Hdone [mkObj r sa Y new]); [by eapply owns_snoc|unfold list_of; by rewrite filter_cons, decide_True|].
      right. exists (mkObj r sa Y new). split_and!; [apply elem_of_app; right; by apply list_elem_of_singleton|done|done]. }
  destruct (lmlen bl <=? qty bl) eqn:Hfull; propify.
  - apply step_assoc. eapply step_lift; [apply cint_ok; unfold doubling in *; int_lia|].
    apply step_assoc. assert (double_until 32 (qty bl) (lmlen bl) (lmlen bl * 2) h' = Done (Some (lmlen bl * 2), h')) as Hdu.
    { unfold double_until. by rewrite (proj2 (Z.ltb_lt (qty bl) _)) by (unfold doubling in *; lia). }
    rewrite M_bind_eq, Hdu. cbn [mbind res_bind]. apply step_assoc. apply step_realloc_entries; [done| |].
    + intros h1 [Hsame Hoom]. right. split; [done|]. split; [|done]. exists fs, S. split_and!; try done; [by eapply owns_same|].
      eapply Forall2_impl; [exact HF|]. intros e f He. rewrite <-(app_nil_r S). by eapply entry_for_mono.
    + intros h1 j Hsame Ho1. apply step_ret. cbn zeta. apply Hstore; cbn [qty lmlen entry]; try done; unfold doubling in *; cbn [qty lmlen]; [lia| | |lia].
      * rewrite zlen_app, zlen_replicate. unfold zlen in *. rewrite length_take. lia.
      * rewrite (take_ge (entry bl) (Z.to_nat (lmlen bl * 2))) by (unfold zlen in *; lia).
        apply take_app_le. unfold zlen in *. lia.
  - apply step_ret. apply Hstore; try done. unfold doubling in *. cbn [qty lmlen]. lia.
Qed.

Lemma collect_ok (split : bstrList → BM (Z * bstrList)) fs :
  (∀ bl h1, I [] bl h1 → returns (split bl h1) (split_post I E fs)) →
  returns (collect split h) (λ '(r, h'), match r with None => out_of_memory h h' | Some bl => collected h c fs bl h' end).
Proof using OK.
  intros Hsplit. unfold collect, start_list. apply step_assoc. rewrite M_bind_eq.
  destruct (outcome_same h OK) as (ok & os & ->). cbn [mbind res_bind].
  assert (same_memory h (Heap (structs h) (blocks h) (next h) os (junk h) (oom h || negb ok))) as Hsame.
  { split_and!; [done|done|]. by destruct OK. }
  destruct ok; cbn [negb] in *; [|apply step_ret; split; [done|apply orb_true_r]].
  set (h1 := Heap _ _ _ _ _ _) in *. clearbody h1.
  apply step_assoc. apply step_realloc_entries; [apply Hsame| |].
  { intros h2 Hsame2. apply step_ret. cbn. by eapply oom_same. }
  intros h2 j Hsame2 _. apply step_ret. rewrite M_bind_eq. apply returns_bind.
  eapply returns_mono; [apply Hsplit|].
  - split; [|by split; cbn; [lia|left]]. exists []. split_and!; try done.
    apply owns_nil; [done|]. by eapply same_memory_trans.
  - intros [[r bl] h3] [[Hr [HI Hd]]|(Hr & called & rest & _ & [(fs' & S & O & Hq & Hm & Hle & Hl & _) Hoom])]; cbn [fst snd] in *.
    + subst r. rewrite (proj2 (Z.ltb_ge BSTR_OK 0)) by done. exact HI.
    + rewrite (proj2 (Z.ltb_lt r 0)) by lia. unfold bstrListDestroy. pose proof (zlen_nonneg fs').
      rewrite (proj2 (Z.ltb_ge (qty bl) 0)), (proj2 (Z.ltb_ge (zlen (entry bl)) (qty bl))) by lia.
      apply step_assoc. eapply step_destroy_entries; [exact OK|exact O|exact Hl|].
      intros h4 Hsame4 Ho4. apply step_ret. split; [done|congruence].
Qed.
End collecting.

Lemma usable_ok h str s X o bx c : heap_ok h → readable h str s X o bx c → usable str h = Done (true, h).
Proof.
  intros OK R. pose proof R as [Hs Hd _ Hl _ _]. unfold usable.
  rewrite (proj2 (Z.eqb_neq str 0)) by (by eapply readable_nonnull).
  rewrite M_bind_eq, (deref_ok _ s) by done. cbn [mbind res_bind]. rewrite Hd.
  by rewrite (proj2 (Z.ltb_ge (slen s) 0)) by lia.
Qed.

(** Splitting a readable string with the collecting callback. *)
Lemma split_collect h str s X o bx c fuel test P bl h1 :
  heap_ok h → readable h str s X o bx c → zlen c < 2 ^ 29 → zlen c < Z.of_nat fuel →
  Forall (λ x, test x = Done (P x)) c → collected h c [] bl h1 ∧ doubling bl →
  returns (split_loop (bscb str) fuel test str 0 bl h1)
    (split_post (λ fs bl h', collected h c fs bl h' ∧ doubling bl) (λ _ _ bl h', (∃ fs', collected h c fs' bl h') ∧ oom h' = true)
      (fields P c 0 0)).
Proof.
  intros OK R Hmax Hfuel Htest Hb. change (fields P c 0 0) with ([] ++ fields P (drop (Z.to_nat 0) c) 0 0).
  apply (split_loop_ok str c test P Htest (bscb str)); [| |done| |lia].
  - intros done' bl' h' [(S & O & _) _]. destruct (owns_frame _ _ _ O) as [Hf1 Hf2]. exists s, X, o, bx.
    by eapply readable_frame.
  - intros fs bl' h' ofs len Hc Hlen Hofs Hrange. by eapply bscb_ok.
  - change (zlen (@nil (Z * Z))) with 0. pose proof (zlen_nonneg c). lia.
Qed.

(** [bsplit] makes a string for every piece between the separators, in
    order, and nothing else; an entry is NULL where memory ran out for it, and
    when the list itself cannot be had or grown, all that was made is released. *)
Theorem bsplit_correct h str s X o bx c ch fuel :
  heap_ok h → readable h str s X o bx c → zlen c < 2 ^ 29 → zlen c < Z.of_nat fuel →
  returns (bsplit fuel str ch h) (λ '(r, h'), match r with
    | None => out_of_memory h h'
    | Some bl => collected h c (fields (λ x, x =? u8 ch) c 0 0) bl h'
    end).
Proof.
  intros OK R Hmax Hfuel. unfold bsplit. rewrite M_bind_eq, (usable_ok h str s X o bx c OK R). cbn [mbind res_bind negb].
  apply (collect_ok h c OK). intros bl h1 Hb. unfold bsplitcb.
  rewrite (proj2 (Z.eqb_neq str 0)) by (by eapply readable_nonnull). cbn [orb]. change (0 <? 0) with false. cbv iota.
  destruct Hb as [(S & O & Hb) Hd]. destruct (owns_frame _ _ _ O) as [Hf1 Hf2].
  pose proof (readable_frame _ _ _ _ _ _ _ _ Hf1 Hf2 R) as R1.
  eapply step_deref; [apply R1|]. pose proof (r_slen _ _ _ _ _ _ _ R).
  rewrite (proj2 (Z.ltb_ge (slen s) 0)) by lia.
  eapply split_collect; try done; [by apply Forall_true|]. split; [by exists S|done].
Qed.

(** * Joining *)

(** The block of the new string while the entries are copied: [n] characters of
    [done] so far. *)
Lemma step_memcpy_fresh {A} h h2 a Y new off X o bx n (k : unit → BM A) (Q : A * bheap → Prop) :
  allocated h h2 a Y new → blocks h !! X = Some bx → 0 ≤ o → 0 ≤ n → o + n ≤ zlen bx →
  0 ≤ off → off + n ≤ zlen new →
  (∀ h3, allocated h h3 a Y (zwrite new off (zslice bx o n)) → returns (k tt h3) Q) →
  returns ((memcpy (Y, off) (X, o) n ≫= k) h2) Q.
Proof.
  intros [Es Eb (Hfa & Hfy & Ha0) OK2] HX Ho Hn Hon Hoff Hfit Hk. assert (Y ≠ X) as HYX by congruence.
  unfold memcpy. cbn [fst snd]. rewrite (proj2 (Z.eqb_neq Y X)) by done. cbn [andb]. unfold memmove.
  destruct (n =? 0) eqn:E; propify.
  - apply step_ret, Hk. subst n. unfold zslice. change (Z.to_nat 0) with O. rewrite take_0, zwrite_nil. by split.
  - apply step_assoc. rewrite M_bind_eq, (load_bytes_ok _ _ bx); cbn [fst snd]; [|by rewrite Eb, lookup_insert_ne|lia..].
    cbn [mbind res_bind]. assert (zlen (zslice bx o n) = n) by (apply zlen_zslice; lia).
    rewrite M_bind_eq, (store_bytes_ok _ _ new); cbn [fst snd]; [|by rewrite Eb, lookup_insert_eq|lia|lia].
    cbn [mbind res_bind]. apply Hk. split; cbn; try done; [by rewrite Eb, insert_insert_eq|].
    destruct OK2 as [Hn' Hs' Hb' H0]. split; cbn; try done. intros z Hz. specialize (Hb' z Hz). rewrite Eb in *.
    rewrite insert_insert_eq. destruct (decide (z = Y)) as [->|]; [by rewrite lookup_insert_eq in Hb'|].
    by rewrite lookup_insert_ne in * by done.
Qed.

(** An entry that can be read. *)
Definition entry_holds (h : bheap) (e : Z) (c : list Z) : Prop := ∃ s X o bx, readable h e s X o bx c.

Section joining.
Context (h : bheap) (a Y : Z).

(** The block begins with [done]; the rest is arbitrary. *)
Definition filled (n : Z) (done : list Z) (h2 : bheap) : Prop :=
  ∃ new, allocated h h2 a Y new ∧ zlen new = n ∧ zlen done ≤ n ∧ take (length done) new = done.

Lemma filled_write n done h2 new xs :
  zlen new = n → take (length done) new = done → zlen done + zlen xs ≤ n →
  allocated h h2 a Y (zwrite new (zlen done) xs) → filled n (done ++ xs) h2.
Proof using Type.
  intros Hn Ht Hle Al. pose proof (zlen_nonneg done). pose proof (zlen_nonneg xs).
  exists (zwrite new (zlen done) xs). split_and!; [done|rewrite zlen_zwrite; lia|zlen_lia|].
  unfold zwrite. unfold zlen. rewrite Nat2Z.id, Ht, app_assoc. apply take_app_length.
Qed.

Lemma step_copy_entry {A} n done h2 e c (k : ptr → BM A) (Q : A * bheap → Prop) :
  filled n done h2 → entry_holds h e c → zlen done + zlen c ≤ n →
  (∀ h3, filled n (done ++ c) h3 → returns (k (Y, zlen (done ++ c)) h3) Q) →
  returns ((copy_entry (Y, zlen done) e ≫= k) h2) Q.
Proof using Type.
  intros (new & Al & Hn & Hle & Ht) (s & X & o & bx & R) Hfit Hk.
  pose proof (readable_len _ _ _ _ _ _ _ R) as Hl. pose proof R as [Hs Hd HX Hsl [? ?] Hc]. pose proof Al as [Es Eb (Hfa & _ & _) _].
  unfold copy_entry. apply step_assoc. eapply step_deref; [rewrite Es, lookup_insert_ne by congruence; done|].
  rewrite Hd. apply step_assoc. pose proof (zlen_nonneg done).
  eapply step_memcpy_fresh; [exact Al|done|lia|lia|lia|lia|lia|]. intros h3 Al3. apply step_ret.
  unfold padd. cbn [fst snd]. rewrite <-Hl, <-zlen_app. apply Hk.
  eapply filled_write; [done|done|lia|]. by rewrite Hc.
Qed.

Definition total (cs : list (list Z)) : Z := zsum (zlen <$> cs).

Lemma total_cons c cs : total (c :: cs) = zlen c + total cs.
Proof using Type. done. Qed.

Lemma total_nonneg cs : 0 ≤ total cs.
Proof using Type. induction cs as [|c cs IH]; [done|]. rewrite total_cons. pose proof (zlen_nonneg c). lia. Qed.

Lemma step_copy_entries {A} n es cs : ∀ done h2 (k : ptr → BM A) (Q : A * bheap → Prop),
  filled n done h2 → Forall2 (entry_holds h) es cs → zlen done + total cs ≤ n →
  (∀ p h3, filled n (done ++ concat cs) h3 → returns (k p h3) Q) →
  returns ((copy_entries (Y, zlen done) es ≫= k) h2) Q.
Proof using Type.
  intros done h2 k Q Hf HF. revert done h2 k Q Hf.
  induction HF as [|e c es cs He HF IH]; intros done h2 k Q Hf Hn Hk; cbn [copy_entries concat].
  - apply step_ret, Hk. by rewrite app_nil_r.
  - rewrite total_cons in Hn. pose proof (total_nonneg cs). apply step_assoc.
    eapply step_copy_entry; [exact Hf|exact He|lia|]. intros h3 Hf3.
    apply IH; [done|zlen_lia|]. intros p h4 Hf4. apply Hk. cbn [concat]. by rewrite app_assoc.
Qed.

(** The entries behind the first one, each after the separator. *)
Fixpoint separated (sep : list Z) (cs : list (list Z)) : list Z :=
  match cs with [] => [] | c :: cs => sep ++ c ++ separated sep cs end.

Lemma intercalate_separated sep c cs : intercalate sep (c :: cs) = c ++ separated sep cs.
Proof using Type.
  revert c. induction cs as [|d cs IH]; intros c; cbn [separated]; [by rewrite app_nil_r|].
  rewrite intercalate_cons by done. by rewrite IH.
Qed.

Lemma zlen_separated sep cs : zlen (separated sep cs) = total cs + zlen sep * zlen cs.
Proof using Type.
  induction cs as [|c cs IH]; [by rewrite Z.mul_0_r|]. cbn [separated]. rewrite !zlen_app, total_cons, zlen_cons. lia.
Qed.

Lemma step_copy_separated {A} n blk len bs sep es cs : ∀ done h2 (k : ptr → BM A) (Q : A * bheap → Prop),
  blocks h !! blk.1 = Some bs → 0 ≤ blk.2 → blk.2 + len ≤ zlen bs → 0 ≤ len → zslice bs blk.2 len = sep →
  filled n done h2 → Forall2 (entry_holds h) es cs → zlen done + zlen (separated sep cs) ≤ n →
  (∀ p h3, filled n (done ++ separated sep cs) h3 → returns (k p h3) Q) →
  returns ((copy_separated (Y, zlen done) blk len es ≫= k) h2) Q.
Proof using Type.
  intros done h2 k Q Hb Hb2 Hbl Hlen Hsep Hf HF. revert done h2 k Q Hf.
  assert (zlen sep = len) as Hsl by (rewrite <-Hsep; apply zlen_zslice; lia).
  induction HF as [|e c es cs He HF IH]; intros done h2 k Q Hf Hn Hk; cbn [copy_separated separated].
  - apply step_ret, Hk. by rewrite app_nil_r.
  - rewrite zlen_separated, total_cons, zlen_cons in Hn. pose proof (total_nonneg cs). pose proof (zlen_nonneg cs).
    pose proof (zlen_nonneg c). pose proof (zlen_nonneg done). assert (0 ≤ zlen sep * zlen cs) by nia.
    destruct Hf as (new & Al & Hnew & Hle & Ht). apply step_assoc. destruct blk as [X ox]. cbn [fst snd] in *.
    eapply step_memcpy_fresh; [exact Al|done|lia|lia|lia|lia|lia|]. intros h3 Al3. rewrite Hsep in Al3.
    assert (filled n (done ++ sep) h3) as Hf3 by (eapply filled_write; [done|done|lia|done]).
    pose proof He as (s & Xe & oe & be & Re). pose proof (readable_len _ _ _ _ _ _ _ Re) as Hlc.
    assert (structs h3 !! e = Some s) as Hse.
    { destruct Al3 as [Es3 _ (Hfa & _ & _) _]. rewrite Es3, lookup_insert_ne; [apply Re|]. destruct Re. congruence. }
    apply step_assoc. eapply step_deref; [exact Hse|]. apply step_assoc.
    assert (padd (Y, zlen done) len = (Y, zlen (done ++ sep))) as -> by (unfold padd; cbn; rewrite zlen_app; f_equal; lia).
    assert (∀ h4, filled n ((done ++ sep) ++ c) h4 →
      returns ((copy_separated (Y, zlen ((done ++ sep) ++ c)) (X, ox) len es ≫= k) h4) Q) as Hnext.
    { intros h4 Hf4. apply IH; [done|rewrite zlen_separated; zlen_lia|]. intros p h5 Hf5. apply Hk.
      by rewrite <-!app_assoc in Hf5. }
    destruct (slen s =? 0) eqn:E0; propify; cbn [negb].
    + apply step_ret. assert (c = []) as -> by (apply length_zero_iff_nil; unfold zlen in *; lia).
      rewrite app_nil_r in Hnext. by apply Hnext.
    + eapply step_copy_entry; [exact Hf3|exact He|zlen_lia|]. intros h4 Hf4. by apply Hnext.
Qed.

Lemma step_finish_join h2 c :
  filled (zlen c + 1) c h2 → returns (finish_join a (Y, 0) (zlen c + 1) h2) (created h c).
Proof using Type.
  intros (new & Al & Hn & _ & Ht). unfold finish_join. rewrite <-Hn.
  eapply step_put_fresh; [exact Al|]. intros h3 Hu. pose proof (zlen_nonneg c).
  eapply step_write_byte; [exact Hu|cbn; lia|]. intros h4 Hu4. right. eexists _, _, _.
  eapply copied_of_upd; [exact Al|exact Hu4|cbn; lia| |].
  - unfold content. cbn [slen]. rewrite zwrite_take by lia.
    replace (Z.to_nat (zlen new - 1)) with (length c) by (unfold zlen in *; lia). done.
  - cbn [slen]. apply zget_zwrite_one. lia.
Qed.
End joining.

Lemma total_length_ok h es cs c : Forall2 (entry_holds h) es cs → c + total cs ≤ INT_MAX →
  total_length es c h = Done (Some (c + total cs), h).
Proof.
  intros HF. revert c. induction HF as [|e d es cs (s & X & o & bx & R) HF IH]; intros c Hc; cbn [total_length].
  - by rewrite Z.add_0_r.
  - rewrite total_cons in *. pose proof (total_nonneg cs). pose proof (readable_len _ _ _ _ _ _ _ R) as Hl. pose proof (r_slen _ _ _ _ _ _ _ R).
    rewrite M_bind_eq, (deref_ok _ s) by apply R. cbn [mbind res_bind].
    rewrite (proj2 (Z.ltb_ge (slen s) 0)), (proj2 (Z.ltb_ge (INT_MAX - c) (slen s))) by lia.
    rewrite IH by lia. do 3 f_equal. lia.
Qed.

Lemma entry_holds_zlen es cs h : Forall2 (entry_holds h) es cs → zlen es = zlen cs.
Proof. intros HF%Forall2_length. unfold zlen. by rewrite HF. Qed.

Lemma malloc_struct_header (h : bheap) :
  heap_ok h → (∀ os, outcomes h ≠ false :: os) →
  ∃ h1 a, malloc_struct blank h = Done (a, h1) ∧ header_only h h1 a.
Proof.
  intros OK Ho. destruct (heap_ok_fresh h OK) as [Hfa _]. pose proof (ok_next _ OK) as Hn.
  assert (∀ os f, heap_ok (Heap (<[next h := blank]> (structs h)) (blocks h) (next h + 1) os (junk h) f)) as OK1.
  { intros os f. destruct OK as [_ Hs Hb H0]. split; cbn; [lia| |intros; apply Hb; lia|].
    - intros a Ha. rewrite lookup_insert_ne by lia. apply Hs. lia.
    - by rewrite lookup_insert_ne by lia. }
  unfold malloc_struct, outcome. destruct (outcomes h) as [|[] os] eqn:E; [| |by destruct (Ho os)]; cbn [mbind res_bind];
    (eexists _, _; split; [done|]; split; cbn; [done|done|split; [done|lia]|by rewrite ?E; apply OK1]).
Qed.

Lemma step_join h bl (blk : ptr) len bs sep cs :
  heap_ok h → 1 ≤ qty bl ≤ zlen (entry bl) →
  Forall2 (entry_holds h) (take (Z.to_nat (qty bl)) (entry bl)) cs →
  blocks h !! blk.1 = Some bs → 0 ≤ blk.2 → 0 ≤ len → blk.2 + len ≤ zlen bs → zslice bs blk.2 len = sep →
  (∀ os, outcomes h ≠ false :: os) → zlen (intercalate sep cs) < INT_MAX →
  returns (bjoinblk (Some bl) (Some blk) len h) (created h (intercalate sep cs)).
Proof.
  intros OK Hq HF Hb Hb2 Hlen Hbl Hsep Ho Hmax.
  assert (zlen sep = len) as Hsl by (rewrite <-Hsep; apply zlen_zslice; lia).
  set (l := take (Z.to_nat (qty bl)) (entry bl)) in *.
  assert (zlen l = qty bl) as Hll by (apply zlen_take; lia). pose proof (entry_holds_zlen _ _ _ HF) as Hlc.
  destruct cs as [|c cs]; [change (zlen (@nil (list Z))) with 0 in Hlc; lia|].
  inversion HF as [|e c' es cs' He HFs Hel Hc']; subst c' cs'.
  rewrite intercalate_separated in *. rewrite zlen_app, zlen_separated in Hmax.
  rewrite <-Hel, !zlen_cons in Hll. rewrite <-Hel, !zlen_cons in Hlc. pose proof (total_nonneg cs). pose proof (zlen_nonneg c).
  assert (0 ≤ len * zlen cs) by (pose proof (zlen_nonneg cs); nia).
  assert (1 + total (c :: cs) + len * zlen cs = zlen (c ++ separated sep cs) + 1) as Hn.
  { rewrite zlen_app, zlen_separated, total_cons. lia. }
  unfold bjoinblk. rewrite (proj2 (Z.ltb_ge (qty bl) 0)), (proj2 (Z.ltb_ge len 0)) by lia. cbn [orb].
  rewrite andb_false_r. rewrite (proj2 (Z.ltb_ge (qty bl) 1)), (proj2 (Z.ltb_ge (zlen (entry bl)) (qty bl))) by lia.
  fold l. rewrite M_bind_eq, (total_length_ok h l (c :: cs) 1 HF) by (rewrite total_cons; lia). cbn [mbind res_bind].
  destruct (malloc_struct_header h OK Ho) as (h1 & a & Ea & Ha). pose proof Ha as [_ _ [_ Ha0] _].
  rewrite M_bind_eq, Ea. cbn [mbind res_bind].
  assert (∀ h2 Y new, allocated h h2 a Y new → zlen new = 1 + total (c :: cs) + len * zlen cs →
    filled h a Y (zlen (c ++ separated sep cs) + 1) [] h2) as Hstart.
  { intros h2 Y new Al Hnew. pose proof (zlen_nonneg (c ++ separated sep cs)). exists new. split_and!; [done|lia|change (zlen (@nil Z)) with 0; lia|done]. }
  pose proof (total_nonneg (c :: cs)).
  destruct (len =? 0) eqn:E0; propify; rewrite (proj2 (Z.eqb_neq a 0)) by done.
  - eapply step_new_block; [done|exact Ha|lia|]. intros h2 Y new Al Hnew.
    assert (concat (c :: cs) = c ++ separated sep cs) as Hcat.
    { assert (sep = []) as -> by (apply length_zero_iff_nil; unfold zlen in *; lia). cbn [concat]. f_equal. clear.
      induction cs as [|d cs IH]; [done|]. cbn. by rewrite IH. }
    eapply (step_copy_entries h a Y _ _ (c :: cs) [] h2); [by apply (Hstart h2 Y new); [|lia]|done| |].
    { change (zlen (@nil Z)) with 0. lia. }
    intros p h3 Hf3. replace (1 + total (c :: cs)) with (zlen (c ++ separated sep cs) + 1) by lia.
    apply step_finish_join. by rewrite <-Hcat at 2.
  - eapply step_lift; [apply cint_ok; int_lia|].
    assert (Z.quot ((qty bl - 1) * len) len = qty bl - 1) as -> by (apply Z.quot_mul; lia).
    rewrite Z.eqb_refl, andb_false_r. rewrite (proj2 (Z.ltb_ge (INT_MAX - (1 + total (c :: cs))) _)).
    2: { rewrite total_cons. replace (qty bl - 1) with (zlen cs) by lia. lia. }
    replace (1 + total (c :: cs) + (qty bl - 1) * len) with (1 + total (c :: cs) + len * zlen cs) by nia.
    pose proof (total_nonneg (c :: cs)).
    eapply step_new_block; [done|exact Ha|lia|]. intros h2 Y new Al Hnew. rewrite <-Hel.
    eapply (step_copy_entry h a Y _ [] h2); [by apply (Hstart h2 Y new)|exact He| |].
    { change (zlen (@nil Z)) with 0. pose proof (zlen_nonneg (separated sep cs)). zlen_lia. }
    intros h3 Hf3. cbn [app] in Hf3 |- *.
    eapply (step_copy_separated h a Y) with (bs := bs); [done|done|done|done|exact Hsep|exact Hf3|exact HFs|zlen_lia|].
    intros p h4 Hf4. rewrite Hn. by apply step_finish_join.
Qed.

(** [bjoinblk] makes a string of the entries with the block between
    them, provided the header can be had: the code does not test that. *)
Theorem bjoinblk_correct h bl (blk : ptr) len bs cs :
  heap_ok h → 1 ≤ qty bl ≤ zlen (entry bl) →
  Forall2 (entry_holds h) (take (Z.to_nat (qty bl)) (entry bl)) cs →
  blocks h !! blk.1 = Some bs → 0 ≤ blk.2 → 0 ≤ len → blk.2 + len ≤ zlen bs →
  (∀ os, outcomes h ≠ false :: os) → zlen (intercalate (zslice bs blk.2 len) cs) < INT_MAX →
  returns (bjoinblk (Some bl) (Some blk) len h) (created h (intercalate (zslice bs blk.2 len) cs)).
Proof. intros. by eapply step_join. Qed.

Lemma entries_hold h h1 o S c es fs :
  owns h h1 S → Forall2 (entry_for o S c) es fs → Forall (λ e, e ≠ 0) es →
  Forall2 (entry_holds h1) es (piece c <$> fs).
Proof.
  intros O HF. induction HF as [|e f es fs He HF IH]; intros Hnz; [constructor|].
  apply Forall_cons in Hnz as [Hne Hnz]. rewrite fmap_cons. constructor; [|by apply IH].
  destruct He as [[-> _]|(x & Hx & <- & Hc)]; [done|]. exists (ob_struct x), (ob_block x), 0, (ob_bytes x).
  rewrite <-Hc. by eapply owns_readable.
Qed.

(** The entries are strings, unless an allocation has failed. *)
Lemma entries_made h c fs bl h1 :
  collected h c fs bl h1 → Forall (λ e, e ≠ 0) (take (Z.to_nat (qty bl)) (entry bl)) ∨ oom h1 = true.
Proof.
  intros (S & O & _ & _ & _ & _ & HF). destruct (oom h1); [by right|left]. induction HF as [|e f es fs' He HF IH]; constructor; [|done].
  destruct He as [[_ ?]|(x & Hx & <- & _)]; [done|]. apply (ow_fresh _ _ _ O x Hx).
Qed.

(** C6. Joining what [bsplit] returns with the separator it was split at
    restores the string. NULL, from [bsplit], as an entry of its list or from
    [bjoinblk], means that an allocation has failed. [bjoinblk] does not test
    the allocation of the header, which is assumed to be granted. *)
Theorem bsplit_bjoin h str s X o bx c ch (blk : ptr) bs fuel :
  heap_ok h → readable h str s X o bx c → zlen c < 2 ^ 29 → zlen c < Z.of_nat fuel →
  blocks h !! blk.1 = Some bs → zget bs blk.2 = Some (u8 ch) →
  returns (bsplit fuel str ch h) (λ '(r, h1), match r with
    | None => out_of_memory h h1
    | Some bl =>
        (Forall (λ e, e ≠ 0) (take (Z.to_nat (qty bl)) (entry bl)) ∨ oom h1 = true) ∧
        (Forall (λ e, e ≠ 0) (take (Z.to_nat (qty bl)) (entry bl)) → (∀ os, outcomes h1 ≠ false :: os) →
         returns (bjoinblk (Some bl) (Some blk) 1 h1) (created h1 c))
    end).
Proof.
  intros OK R Hmax Hfuel Hbs Hch. unfold bsplit. rewrite M_bind_eq, (usable_ok h str s X o bx c OK R). cbn [mbind res_bind negb].
  eapply returns_mono; [apply (collect_ok h c OK) with (fs := fields (λ x, x =? u8 ch) c 0 0)|].
  - intros bl h1 [(S & O & Hb) Hd]. destruct (owns_frame _ _ _ O) as [Hf1 Hf2].
    pose proof (readable_frame _ _ _ _ _ _ _ _ Hf1 Hf2 R) as R1. unfold bsplitcb.
    rewrite (proj2 (Z.eqb_neq str 0)) by (by eapply readable_nonnull). cbn [orb]. change (0 <? 0) with false. cbv iota.
    eapply step_deref; [apply R1|]. pose proof (r_slen _ _ _ _ _ _ _ R). rewrite (proj2 (Z.ltb_ge (slen s) 0)) by lia.
    eapply split_collect; try done; [by apply Forall_true|]. split; [by exists S|done].
  - intros [[bl|] h1]; [|done]. intros HC. split; [by eapply entries_made|]. destruct HC as (S & O & Hq & Hm & Hle & Hl & HF). intros Hnz Ho.
    pose proof (fields_intercalate (u8 ch) [] c 0 ltac:(done)) as Hjoin. cbn [app] in Hjoin.
    change (zlen (@nil Z) - 0) with 0 in Hjoin. rewrite drop_0 in Hjoin.
    destruct (owns_frame _ _ _ O) as [_ Hf2]. pose proof (zget_Some_range _ _ _ Hch) as Hr.
    assert (zslice bs blk.2 1 = [u8 ch]) as Hsep.
    { rewrite (zslice_cons _ _ _ (u8 ch)) by (done || lia). done. }
    rewrite <-Hjoin. eapply step_join; [apply (ow_ok _ _ _ O)| | |by apply Hf2|lia|lia|lia|exact Hsep|done|].
    + assert (0 < zlen (fields (λ y, y =? u8 ch) c 0 0)); [|lia].
      rewrite fields_seg, zlen_cons. pose proof (zlen_nonneg (if seg (λ y, y =? u8 ch) c <? zlen c
        then fields (λ y, y =? u8 ch) (drop (Z.to_nat (seg (λ y, y =? u8 ch) c + 1)) c) (0 + 0 + seg (λ y, y =? u8 ch) c + 1) 0 else [])). lia.
    + by eapply entries_hold.
    + rewrite Hjoin. int_lia.
Qed.

(** * Witnesses *)

(** "a,b,,c", the separators "," and "--", and "--" twice. *)
Definition csv : list Z := [97; 44; 98; 44; 44; 99].
Definition split_heap : bheap :=
  mkHeap {[1 := mkB 8 6 (Some (10, 0)); 2 := mkB (-1) 1 (Some (11, 0));
           3 := mkB (-1) 2 (Some (12, 0)); 4 := mkB (-1) 4 (Some (12, 0))]}
    {[10 := csv ++ [0; 0]; 11 := [44; 0]; 12 := [45; 45; 45; 45; 0]]} 13 [] 205.

Lemma split_heap_ok : heap_ok split_heap.
Proof.
  split; cbn [next split_heap structs blocks]; [lia| | |done]; intros a Ha;
    rewrite !lookup_insert_ne by lia; apply lookup_singleton_ne; lia.
Qed.

Lemma csv_readable : readable split_heap 1 (mkB 8 6 (Some (10, 0))) 10 0 (csv ++ [0; 0]) csv.
Proof. split; try done; by vm_compute. Qed.

Lemma comma_readable : readable split_heap 2 (mkB (-1) 1 (Some (11, 0))) 11 0 [44; 0] [44].
Proof. split; try done; by vm_compute. Qed.

Lemma dashes_readable : readable split_heap 3 (mkB (-1) 2 (Some (12, 0))) 12 0 [45; 45; 45; 45; 0] [45; 45].
Proof. split; try done; by vm_compute. Qed.

Lemma dashes2_readable :
  readable split_heap 4 (mkB (-1) 4 (Some (12, 0))) 12 0 [45; 45; 45; 45; 0] ([45; 45] ++ [45; 45]).
Proof. split; try done; by vm_compute. Qed.

(** Records the calls. *)
Definition recording (a : list (Z * Z)) (o l : Z) : Z * list (Z * Z) := (0, a ++ [(o, l)]).

Lemma bsplitscb_correct_witness :
  bsplitscb (pure recording) 10 1 2 0 [] split_heap = Done ((0, [(0, 1); (2, 1); (4, 0); (5, 1)]), split_heap).
Proof.
  refine (bsplitscb_correct recording [] split_heap 1 _ 10 0 _ csv 2 _ 11 0 _ [44] 0 10
    split_heap_ok csv_readable comma_readable _ _ _ _);
    [apply search_bytes; reflexivity..|by vm_compute|by vm_compute].
Defined.

Lemma bsplitstrcb_skips_witness :
  bsplitstrcb (pure recording) 10 4 3 0 [] split_heap = Done ((0, [(0, 0); (2, 2)]), split_heap) ∧
  piece ([45; 45] ++ [45; 45]) (2, 2) = [45; 45].
Proof.
  refine (bsplitstrcb_skips recording [] split_heap 4 _ 12 0 _ 3 _ 12 0 _ [45; 45] 10
    split_heap_ok dashes2_readable dashes_readable _ _ _); [by vm_compute|by intros|lia].
Defined.

Lemma bsplit_correct_witness :
  returns (bsplit 10 1 44 split_heap) (λ '(r, h'), match r with
    | None => out_of_memory split_heap h'
    | Some bl => collected split_heap csv [(0, 1); (2, 1); (4, 0); (5, 1)] bl h'
    end).
Proof.
  refine (bsplit_correct split_heap 1 _ 10 0 _ csv 44 10 split_heap_ok csv_readable _ _); by vm_compute.
Defined.

Lemma bjoinblk_correct_witness :
  returns (bjoinblk (Some (mkList 2 4 [1; 3; 0; 0])) (Some (11, 0)) 1 split_heap)
    (created split_heap (csv ++ [44; 45; 45])).
Proof.
  refine (bjoinblk_correct split_heap (mkList 2 4 [1; 3; 0; 0]) (11, 0) 1 [44; 0] [csv; [45; 45]]
    split_heap_ok _ _ _ _ _ _ _ _); try by vm_compute.
  constructor; [by eexists _, _, _, _; apply csv_readable|].
  constructor; [by eexists _, _, _, _; apply dashes_readable|constructor].
Defined.

Lemma bsplit_bjoin_witness :
  returns (bsplit 10 1 44 split_heap) (λ '(r, h1), match r with
    | None => out_of_memory split_heap h1
    | Some bl =>
        (Forall (λ e, e ≠ 0) (take (Z.to_nat (qty bl)) (entry bl)) ∨ oom h1 = true) ∧
        (Forall (λ e, e ≠ 0) (take (Z.to_nat (qty bl)) (entry bl)) → (∀ os, outcomes h1 ≠ false :: os) →
         returns (bjoinblk (Some bl) (Some (11, 0)) 1 h1) (created h1 csv))
    end).
Proof.
  refine (bsplit_bjoin split_heap 1 _ 10 0 _ csv 44 (11, 0) [44; 0] 10 split_heap_ok csv_readable _ _ _ _); by vm_compute.
Defined.
