(* ===== verification/BstrReplace.v ===== *)
(** libs/bstrlib/bstrlib.c, find-and-replace: [bfindreplace] and [bfindreplacecaseless].

    The engine works in place. With strings of the same length it overwrites each
    occurrence; a shorter replacement is filled in from the left and the segments between
    occurrences are moved up to it; for a longer one the positions are collected first,
    the buffer grows once, and the segments are placed from the right. *)
From S2P Require Import Prelude CMemory Bstrlib BstrSearch BstrOps.

(** * Code *)

(** Whether an operand's bytes are seen to lie in the part of the string that changes; the
    difference of pointers into separate blocks is taken not to be in that range. *)
Definition aliases (d db : ptr) (len slen pos : Z) : bool :=
  (d.1 =? db.1) && (pos - len <? d.2 - db.2) && (d.2 - db.2 <? slen).

Definition INITIAL_STATIC_FIND_INDEX_COUNT : Z := 32.

(** Where the array of positions is: the automatic array, or a block, NULL when there is
    none. The positions themselves are a list. *)
Inductive index_array := OnStack | OnHeap (p : option ptr).

(** Doubling the array. *)
Definition grow_index (mlen : Z) (d : index_array) : BM (bool * Z * index_array) :=
  if INT_MAX / 8 / 2 <? mlen then mret (false, mlen, d) else
  mlen ← icint (mlen + mlen);
  let sl := sext 32 (8 * mlen) in
  t ← match d with
      | OnStack | OnHeap None => malloc sl
      | OnHeap (Some p) => realloc p sl
      end;
  match t with
  | None => mret (false, mlen, match d with OnStack => OnHeap None | _ => d end)
  | Some t => mret (true, mlen, OnHeap (Some t))
  end.

Definition free_index (d : index_array) : BM unit :=
  match d with OnHeap (Some p) => free p | _ => mret tt end.

Section engine.
Context (instr : Z → Z → Z → BM Z).

(** Strings of the same length. *)
Fixpoint replace_same (fuel : nat) (b auxf : Z) (db dr : ptr) (lf lr pos : Z) : BM unit :=
  match fuel with
  | O => no_fuel
  | S fuel =>
      i ← instr b pos auxf;
      if i <? 0 then mret tt else
      memcpy (padd db i) dr lr;;
      replace_same fuel b auxf db dr lf lr (i + lf)
  end.

(** A shorter replacement: what has been saved, and the position behind the last
    occurrence. *)
Fixpoint shrink_loop (fuel : nat) (b auxf : Z) (db dr : ptr) (lf lr acc pos : Z) : BM (Z * Z) :=
  match fuel with
  | O => no_fuel
  | S fuel =>
      i ← instr b pos auxf;
      if i <? 0 then mret (acc, pos) else
      (if negb (acc =? 0) && (pos <? i) then memmove (padd db (pos - acc)) (padd db pos) (i - pos) else mret tt);;
      (if negb (lr =? 0) then memcpy (padd db (i - acc)) dr lr else mret tt);;
      shrink_loop fuel b auxf db dr lf lr (acc + (lf - lr)) (i + lf)
  end.

(** A longer replacement: the positions of the occurrences, and by how much the string
    grows; or failure. *)
Fixpoint collect_found (fuel : nat) (b auxf : Z) (lf delta : Z) (d : index_array) (mlen : Z) (cells : list Z) (acc pos : Z)
    : BM (bool * index_array * list Z * Z) :=
  match fuel with
  | O => no_fuel
  | S fuel =>
      i ← instr b pos auxf;
      if i <? 0 then mret (true, d, cells, acc) else
      '(ok, mlen, d) ← (if mlen - 1 <=? zlen cells then grow_index mlen d else mret (true, mlen, d));
      if negb ok then mret (false, d, cells, acc) else
      if mlen <=? zlen cells then undef else
      let cells := cells ++ [i] in
      acc ← icint (acc - delta);
      pos ← icint (i + lf);
      if (pos <? 0) || (acc <? 0) then mret (false, d, cells, acc)
      else collect_found fuel b auxf lf delta d mlen cells acc pos
  end.

(** The [n] first segments, from the last to the first. *)
Fixpoint place (n : nat) (db dr : ptr) (lf lr : Z) (cells : list Z) (acc : Z) : BM unit :=
  match n with
  | O => mret tt
  | S n =>
      p ← lift (load cells (Z.of_nat n)); q ← lift (load cells (Z.of_nat n + 1));
      let s := p + lf in let l := q - s in
      (if negb (l =? 0) then memmove (padd db (s + acc)) (padd db s) l else mret tt);;
      (if negb (lr =? 0) then memmove (padd db (s + acc - lr)) dr lr else mret tt);;
      place n db dr lf lr cells (acc + (lf - lr))
  end.

(** The growing case up to the label [done]. *)
Definition replace_grow (fuel : nat) (b auxf : Z) (dr : ptr) (lf lr pos : Z) : BM Z :=
  '(ok, d, cells, acc) ← collect_found fuel b auxf lf (lf - lr) OnStack INITIAL_STATIC_FIND_INDEX_COUNT [] 0 pos;
  ret ← (if negb ok then mret BSTR_ERR else
    s ← deref b;
    n ← icint (slen s + acc); n1 ← icint (n + 1);
    ret ← balloc b n1;
    if negb (ret =? BSTR_OK) then mret ret else
    t ← deref b;
    put b (mkB (mlen t) (slen t + acc) (data t));;
    with_data t BSTR_OK (λ db,
    place (length cells) db dr lf lr (cells ++ [slen s]) acc;;
    write_byte (padd db (slen t + acc)) 0;;
    mret ret));
  free_index d;;
  mret ret.

Definition findreplaceengine (b find repl pos : Z) : BM Z :=
  if (b =? 0) || (find =? 0) || (repl =? 0) then mret BSTR_ERR else
  s ← deref b; sf ← deref find; sr ← deref repl;
  with_data s BSTR_ERR (λ db, with_data sf BSTR_ERR (λ df, with_data sr BSTR_ERR (λ dr,
  if (pos <? 0) || (slen sf <=? 0) || (mlen s <=? 0) || (mlen s <? slen s) || (slen s <? 0) || (slen sr <? 0)
  then mret BSTR_ERR else
  if slen s - slen sf <? pos then mret BSTR_OK else
  auxf ← (if aliases df db (slen sf) (slen s) pos then bstrcpy find else mret find);
  if auxf =? 0 then mret BSTR_ERR else
  auxr ← (if aliases dr db (slen sr) (slen s) pos then bstrcpy repl else mret repl);
  if auxr =? 0 then drop_aux auxf find;; mret BSTR_ERR else
  af ← deref auxf; ar ← deref auxr;
  let lf := slen af in let lr := slen ar in
  let fuel := S (Z.to_nat (slen s)) in
  with_data ar BSTR_ERR (λ pr,
  ret ← (if lf - lr =? 0 then replace_same fuel b auxf db pr lf lr pos;; mret BSTR_OK
    else if 0 <? lf - lr then
      '(acc, pos) ← shrink_loop fuel b auxf db pr lf lr 0 pos;
      (if negb (acc =? 0) then
         let i := slen s in
         (if pos <? i then memmove (padd db (pos - acc)) (padd db pos) (i - pos) else mret tt);;
         put b (mkB (mlen s) (i - acc) (data s));;
         write_byte (padd db (i - acc)) 0
       else mret tt);;
      mret BSTR_OK
    else replace_grow fuel b auxf pr lf lr pos);
  drop_aux auxf find;;
  drop_aux auxr repl;;
  mret ret)))).
End engine.

Definition bfindreplace : Z → Z → Z → Z → BM Z := findreplaceengine binstr.
Definition bfindreplacecaseless : Z → Z → Z → Z → BM Z := findreplaceengine binstrcaseless.

(** * The reference *)

Section reference.
Context (same : Z → Z → bool).

Fixpoint begins_with (f c : list Z) : bool :=
  match f, c with
  | [], _ => true
  | x :: f, y :: c => same x y && begins_with f c
  | _, [] => false
  end.

(** [c] with [r] for each occurrence of [f], looked for from the left. *)
Fixpoint replaced_left (fuel : nat) (f r c : list Z) : list Z :=
  match fuel, c with
  | S fuel, x :: c' => if begins_with f c then r ++ replaced_left fuel f r (drop (length f) c) else x :: replaced_left fuel f r c'
  | _, _ => c
  end.

(** The same from position [pos] on. *)
Definition findreplace (f r : list Z) (pos : Z) (c : list Z) : list Z :=
  take (Z.to_nat pos) c ++ replaced_left (length c) f r (drop (Z.to_nat pos) c).

(** The positions from [pos] on at which the search stops in turn. *)
Inductive found_from (f c : list Z) : Z → list Z → Prop :=
| found_none pos : (∀ p, pos ≤ p → ¬ occurs same f c p) → found_from f c pos []
| found_next pos p ps :
    pos ≤ p → occurs same f c p → (∀ q, pos ≤ q → occurs same f c q → p ≤ q) →
    found_from f c (p + zlen f) ps → found_from f c pos (p :: ps).

(** Where the next occurrence, or the end, is. *)
Definition next_of (c : list Z) (ps : list Z) : Z := match ps with [] => zlen c | p :: _ => p end.

(** The result from the first occurrence on. *)
Fixpoint segments (f r c : list Z) (ps : list Z) : list Z :=
  match ps with
  | [] => []
  | p :: ps => r ++ zslice c (p + zlen f) (next_of c ps - (p + zlen f)) ++ segments f r c ps
  end.

Lemma begins_with_occurs f c p : 0 ≤ p ≤ zlen c → begins_with f (drop (Z.to_nat p) c) = true ↔ occurs same f c p.
Proof.
  intros Hp. unfold occurs. assert (∀ f d, begins_with f d = true ↔ zlen f ≤ zlen d ∧ Forall2 (λ x y, same x y = true) f (take (length f) d)) as Hb.
  { clear. induction f as [|x f IH]; intros d; cbn [begins_with].
    - change (zlen (@nil Z)) with 0. pose proof (zlen_nonneg d). cbn. split; [by split; [lia|constructor]|done].
    - destruct d as [|y d]; cbn [length take].
      + rewrite zlen_cons. pose proof (zlen_nonneg f). change (zlen (@nil Z)) with 0. split; [done|]. intros [? _]. lia.
      + rewrite andb_true_iff, IH, !zlen_cons. split.
        * intros (? & ? & ?). split; [lia|by constructor].
        * intros (? & HF). inversion HF; subst. split_and!; [done|lia|done]. }
  rewrite Hb, zlen_drop by lia. unfold zslice. replace (Z.to_nat (zlen f)) with (length f) by (unfold zlen; lia).
  split; [intros (? & ?)|intros (? & ? & ?)]; split_and!; try done; lia.
Qed.

Lemma found_bound f c pos ps : found_from f c pos ps → pos ≤ zlen c → pos ≤ next_of c ps ≤ zlen c.
Proof.
  intros Hf Hp. destruct Hf as [pos Hn|pos p ps Hpp Ho _ _]; cbn; [lia|]. destruct Ho as (? & ? & _). pose proof (zlen_nonneg f). lia.
Qed.

Lemma replaced_left_segments fuel f r c pos ps :
  0 < zlen f → 0 ≤ pos ≤ zlen c → found_from f c pos ps → (length (drop (Z.to_nat pos) c) ≤ fuel)%nat →
  replaced_left fuel f r (drop (Z.to_nat pos) c) = zslice c pos (next_of c ps - pos) ++ segments f r c ps.
Proof.
  intros Hf. revert pos ps. induction fuel as [|fuel IH]; intros pos ps Hpos Hps Hfuel.
  { destruct (drop (Z.to_nat pos) c) eqn:E; [|cbn in Hfuel; lia]. assert (pos = zlen c) as -> by (apply (f_equal length) in E; rewrite length_drop in E; unfold zlen in *; cbn in E; lia).
    pose proof (found_bound _ _ _ _ Hps ltac:(lia)) as Hb. cbn [replaced_left]. destruct ps as [|p ps]; [cbn; rewrite Z.sub_diag; done|].
    inversion Hps as [|? ? ? ? (? & ? & _)]; subst. cbn in Hb. lia. }
  destruct (drop (Z.to_nat pos) c) as [|x d] eqn:E.
  { assert (pos = zlen c) as -> by (apply (f_equal length) in E; rewrite length_drop in E; unfold zlen in *; cbn in E; lia).
    pose proof (found_bound _ _ _ _ Hps ltac:(lia)) as Hb. cbn [replaced_left]. destruct ps as [|p ps]; [cbn; rewrite Z.sub_diag; done|].
    inversion Hps as [|? ? ? ? (? & ? & _)]; subst. cbn in Hb. lia. }
  assert (pos < zlen c) as Hlt by (apply (f_equal length) in E; rewrite length_drop in E; unfold zlen in *; cbn in E; lia).
  cbn [replaced_left]. destruct (begins_with f (x :: d)) eqn:Eb.
  - rewrite <-E in Eb. apply begins_with_occurs in Eb; [|lia].
    inversion Hps as [? Hn|? p ps' Hpp Ho Hmin Hps']; subst; [exfalso; by apply (Hn pos)|].
    assert (p = pos) as -> by (specialize (Hmin pos ltac:(lia) Eb); lia).
    destruct Ho as (_ & Hle & _). cbn [next_of segments]. rewrite Z.sub_diag. change (zslice c pos 0) with (@nil Z). cbn [app]. f_equal.
    rewrite <-E, drop_drop. replace (Z.to_nat pos + length f)%nat with (Z.to_nat (pos + zlen f)) by (unfold zlen in *; lia).
    apply IH; [lia|done|]. rewrite length_drop. rewrite <-E, length_drop in Hfuel. unfold zlen in *. lia.
  - assert (drop (Z.to_nat (pos + 1)) c = d) as Ed.
    { replace (Z.to_nat (pos + 1)) with (Z.to_nat pos + 1)%nat by lia. by rewrite <-drop_drop, E. }
    assert (¬ occurs same f c pos) as Hno.
    { intros Ho. apply begins_with_occurs in Ho; [|lia]. rewrite E, Eb in Ho. done. }
    assert (found_from f c (pos + 1) ps) as Hps1.
    { inversion Hps as [? Hn|? p ps' Hpp Ho Hmin Hps']; subst.
      - constructor. intros p Hp. apply Hn. lia.
      - constructor; [|done|intros q Hq; apply Hmin; lia|done]. destruct (decide (p = pos)) as [->|]; [done|lia]. }
    rewrite <-Ed, (IH (pos + 1) ps); [|lia|done|rewrite Ed; cbn in Hfuel; lia].
    pose proof (found_bound _ _ _ _ Hps1 ltac:(lia)) as Hb. change (x :: zslice c (pos + 1) (next_of c ps - (pos + 1)) ++ segments f r c ps) with ((x :: zslice c (pos + 1) (next_of c ps - (pos + 1))) ++ segments f r c ps). f_equal.
    unfold zslice. rewrite E, Ed. replace (Z.to_nat (next_of c ps - pos)) with (S (Z.to_nat (next_of c ps - (pos + 1)))) by lia. done.
Qed.

Lemma findreplace_segments f r c pos ps :
  0 < zlen f → 0 ≤ pos ≤ zlen c → found_from f c pos ps →
  findreplace f r pos c = take (Z.to_nat (next_of c ps)) c ++ segments f r c ps.
Proof.
  intros Hf Hp Hps. unfold findreplace. rewrite (replaced_left_segments _ f r c pos ps); [|done|done|done|rewrite length_drop; lia].
  rewrite app_assoc. f_equal. pose proof (found_bound _ _ _ _ Hps ltac:(lia)) as Hb. unfold zslice.
  rewrite take_take_drop. f_equal. lia.
Qed.

Lemma found_exists f c pos : 0 < zlen f → 0 ≤ pos → ∃ ps, found_from f c pos ps.
Proof.
  intros Hf Hpos. remember (Z.to_nat (zlen c - pos)) as n eqn:En. revert pos Hpos En. induction (lt_wf n) as [n _ IH]. intros pos Hpos ->.
  destruct (decide (zlen c < pos + zlen f)) as [Hend|Hroom].
  { exists []. constructor. intros p Hp (_ & Hle & _). lia. }
  destruct (begins_with f (drop (Z.to_nat pos) c)) eqn:Eb.
  - apply begins_with_occurs in Eb; [|lia]. destruct (IH (Z.to_nat (zlen c - (pos + zlen f))) ltac:(lia) (pos + zlen f)) as [ps Hps]; [lia|done|].
    exists (pos :: ps). by constructor.
  - destruct (IH (Z.to_nat (zlen c - (pos + 1))) ltac:(lia) (pos + 1)) as [ps Hps]; [lia|done|]. exists ps.
    assert (¬ occurs same f c pos) as Hno by (intros Ho%begins_with_occurs; [congruence|lia]).
    inversion Hps as [? Hn|? p ps' Hpp Ho Hmin Hps']; subst.
    + constructor. intros p Hp. destruct (decide (p = pos)) as [->|]; [done|apply Hn; lia].
    + constructor; [lia|done| |done]. intros q Hq Hoq. apply Hmin; [|done]. destruct (decide (q = pos)) as [->|]; [done|lia].
Qed.

End reference.

(** Occurrences do not overlap. *)
Fixpoint spaced (f c : list Z) (pos : Z) (ps : list Z) : Prop :=
  match ps with [] => pos ≤ zlen c | p :: ps => pos ≤ p ∧ spaced f c (p + zlen f) ps end.

Lemma found_spaced same f c pos ps : found_from same f c pos ps → pos ≤ zlen c → spaced f c pos ps.
Proof.
  induction 1 as [pos Hn|pos p ps Hp Ho _ _ IH]; intros Hpos; [done|]. split; [done|]. apply IH. by destruct Ho as (_ & ? & _).
Qed.

Lemma spaced_next f c pos ps : 0 < zlen f → spaced f c pos ps → pos ≤ next_of c ps ≤ zlen c.
Proof.
  intros Hf. revert pos. induction ps as [|p ps IH]; intros pos; cbn; [lia|]. intros [Hp Hs]. specialize (IH _ Hs). lia.
Qed.

Lemma spaced_count f c pos ps : 0 < zlen f → spaced f c pos ps → pos + zlen ps ≤ zlen c.
Proof.
  intros Hf. revert pos. induction ps as [|p ps IH]; intros pos; cbn [spaced].
  - change (zlen (@nil Z)) with 0. lia.
  - intros [Hp Hs%IH]. rewrite zlen_cons. lia.
Qed.

Lemma spaced_app f c pos ps p qs : spaced f c pos (ps ++ p :: qs) → spaced f c (p + zlen f) qs.
Proof. revert pos. induction ps as [|x ps IH]; intros pos; cbn; [by intros [_ ?]|intros [_ ?]; by eapply IH]. Qed.

Lemma zlen_segments f r c pos ps :
  0 < zlen f → 0 ≤ pos → spaced f c pos ps → zlen (segments f r c ps) = zlen c - next_of c ps + (zlen r - zlen f) * zlen ps.
Proof.
  intros Hf. revert pos. induction ps as [|p ps IH]; intros pos Hpos Hs; cbn [segments next_of].
  - change (zlen (@nil Z)) with 0. lia.
  - destruct Hs as [Hp Hs]. pose proof (spaced_next _ _ _ _ Hf Hs) as Hn. rewrite !zlen_app, (IH (p + zlen f)), zlen_zslice, zlen_cons by (done || lia). lia.
Qed.

(** * Lists *)

Lemma zwrite_behind {A} (l x y : list A) : zwrite (l ++ x) (zlen l) y = l ++ y ++ drop (length y) x.
Proof.
  unfold zwrite. replace (Z.to_nat (zlen l)) with (length l) by (unfold zlen; lia). rewrite take_app_length. do 2 f_equal.
  replace (Z.to_nat (zlen l + zlen y)) with (length l + length y)%nat by (unfold zlen; lia). by rewrite drop_app_add.
Qed.

Lemma zwrite_middle {A} i (l x y z : list A) : i = zlen l → zlen x = zlen y → zwrite (l ++ x ++ z) i y = l ++ y ++ z.
Proof. intros -> E. rewrite zwrite_behind. do 2 f_equal. apply drop_app_length'. unfold zlen in E. lia. Qed.

Lemma zslice_middle {A} (l x z : list A) : zslice (l ++ x ++ z) (zlen l) (zlen x) = x.
Proof.
  unfold zslice. replace (Z.to_nat (zlen l)) with (length l) by (unfold zlen; lia). rewrite drop_app_length.
  replace (Z.to_nat (zlen x)) with (length x) by (unfold zlen; lia). apply take_app_length.
Qed.

(** What lies before the next position, and behind it. *)
Lemma drop_segments {A} (c : list A) pos p : 0 ≤ pos ≤ p → drop (Z.to_nat pos) c = zslice c pos (p - pos) ++ drop (Z.to_nat p) c.
Proof.
  intros Hp. unfold zslice. rewrite <-(take_drop (Z.to_nat (p - pos)) (drop (Z.to_nat pos) c)) at 1. f_equal.
  rewrite drop_drop. f_equal. lia.
Qed.

Lemma zslice_to_end {A} (c : list A) pos : 0 ≤ pos ≤ zlen c → zslice c pos (zlen c - pos) = drop (Z.to_nat pos) c.
Proof. intros Hp. unfold zslice. apply take_ge. rewrite length_drop. unfold zlen in *. lia. Qed.

Lemma occurs_suffix same f (c c' : list Z) pos q :
  zlen c' = zlen c → drop (Z.to_nat pos) c' = drop (Z.to_nat pos) c → 0 ≤ pos ≤ q → occurs same f c' q ↔ occurs same f c q.
Proof.
  intros El Ed Hq. unfold occurs, zslice. rewrite El.
  replace (Z.to_nat q) with (Z.to_nat pos + Z.to_nat (q - pos))%nat by lia. by rewrite <-!drop_drop, Ed.
Qed.

Lemma memcpy_apart (d s : ptr) n : d.1 ≠ s.1 → (memcpy d s n : BM unit) = memmove d s n.
Proof. intros Hne. unfold memcpy. by rewrite (proj2 (Z.eqb_neq _ _)). Qed.

(** * The loops *)

(** What is needed of a search. *)
Definition finds (instr : Z → Z → Z → BM Z) (same : Z → Z → bool) : Prop :=
  ∀ h b1 s1 X1 o1 bx1 c1 b2 s2 X2 o2 bx2 c2 pos,
    heap_ok h → readable h b1 s1 X1 o1 bx1 c1 → readable h b2 s2 X2 o2 bx2 c2 → 0 ≤ pos →
    returns (instr b1 pos b2 h) (λ '(r, h'), h' = h ∧ first_from (occurs same c2 c1) pos r).

Lemma step_search {A} instr same h b s B o buf c' xf sf Xf osf bf f c pos (k : Z → BM A) (Q : A * bheap → Prop) :
  finds instr same → heap_ok h → readable h b s B o buf c' → readable h xf sf Xf osf bf f →
  zlen c' = zlen c → drop (Z.to_nat pos) c' = drop (Z.to_nat pos) c → 0 ≤ pos →
  ((∀ p, pos ≤ p → ¬ occurs same f c p) → returns (k BSTR_ERR h) Q) →
  (∀ i, pos ≤ i → occurs same f c i → (∀ q, pos ≤ q → occurs same f c q → i ≤ q) → returns (k i h) Q) →
  returns ((instr b pos xf ≫= k) h) Q.
Proof.
  intros Hin OK R Rf El Ed Hpos Hnone Hsome. apply M_returns_bind. eapply returns_mono; [by eapply Hin|].
  assert (∀ q, pos ≤ q → occurs same f c' q ↔ occurs same f c q) as Hocc by (intros; by apply (occurs_suffix same f c c' pos)).
  intros [i h'] (-> & [[-> Hn]|(Hi & Ho & Hmin)]).
  - apply Hnone. intros p Hp. rewrite <-Hocc by done. by apply Hn.
  - apply Hsome; [done|by apply Hocc|]. intros q Hq Hoq. apply Hmin; [done|by apply Hocc].
Qed.

(** Operands are not touched by what happens to [b]. *)
Lemma upd_readable g b B h s' B' buf' x sx X o bx c :
  upd g b B h s' B' buf' → readable g x sx X o bx c → X ≠ B → x ≠ b → readable h x sx X o bx c.
Proof.
  intros Hu [Hs Hd Hb Hl Hr Hc] HX Hx. destruct (upd_frame _ _ _ _ _ _ _ Hu) as [Hfs Hfb].
  split; try done; [by rewrite Hfs|by apply Hfb].
Qed.

(** ** Steps on a buffer in parts *)

Section parts.
Context {A : Type} (g : bheap) (b B : Z) (s' : tagbstring) (B' : Z).
Implicit Types (h : bheap) (Q : A * bheap → Prop) (l gap piece rest r : list Z).

(** Moving a piece down over the gap before it. *)
Lemma step_slide h (cond : bool) l gap piece rest to_ from_ n (k : unit → BM A) Q :
  upd g b B h s' B' (l ++ gap ++ piece ++ rest) → to_ = zlen l → from_ = zlen l + zlen gap → n = zlen piece →
  (cond = false → gap = [] ∨ piece = []) →
  (∀ h2 gap2, zlen gap2 = zlen gap → upd g b B h2 s' B' (l ++ piece ++ gap2 ++ rest) → returns (k tt h2) Q) →
  returns (((if cond then memmove (padd (B', 0) to_) (padd (B', 0) from_) n else mret tt) ≫= k) h) Q.
Proof.
  intros Hu -> -> -> Hcond Hk. pose proof (zlen_nonneg l). pose proof (zlen_nonneg gap). pose proof (zlen_nonneg piece). pose proof (zlen_nonneg rest).
  pose proof (u_mlen _ _ _ _ _ _ _ Hu) as Hm. rewrite !zlen_app in Hm. destruct cond.
  - change (padd (B', 0) (zlen l + zlen gap)) with (B', 0 + (zlen l + zlen gap)). rewrite Z.add_0_l.
    eapply step_memmove with (bx := l ++ gap ++ piece ++ rest); [exact Hu| |lia..| |].
    { rewrite (u_blocks _ _ _ _ _ _ _ Hu). apply lookup_insert_eq. }
    { rewrite !zlen_app. lia. }
    intros h2 Hu2. replace (l ++ gap ++ piece ++ rest) with ((l ++ gap) ++ piece ++ rest) in Hu2 at 2 by (by rewrite <-app_assoc).
    rewrite <-zlen_app, zslice_middle, zwrite_behind in Hu2. rewrite (app_assoc gap), drop_app_le in Hu2 by (rewrite length_app; lia).
    apply (Hk h2 (drop (length piece) (gap ++ piece))); [|done]. unfold zlen. rewrite length_drop, length_app. lia.
  - apply step_ret. apply (Hk h gap); [done|]. by destruct (Hcond eq_refl) as [->| ->].
Qed.

(** Writing the replacement over the beginning of a gap. *)
Lemma step_fill h l gap rest X o bx r i (k : unit → BM A) Q :
  upd g b B h s' B' (l ++ gap ++ rest) → blocks h !! X = Some bx → r = zslice bx o (zlen r) → 0 ≤ o → o + zlen r ≤ zlen bx →
  i = zlen l → zlen r ≤ zlen gap →
  (∀ h2 gap2, zlen gap2 = zlen gap - zlen r → upd g b B h2 s' B' (l ++ r ++ gap2 ++ rest) → returns (k tt h2) Q) →
  returns (((if negb (zlen r =? 0) then memmove (padd (B', 0) i) (X, o) (zlen r) else mret tt) ≫= k) h) Q.
Proof.
  intros Hu HX Er Ho Hor -> Hle Hk. pose proof (zlen_nonneg l). pose proof (zlen_nonneg rest).
  pose proof (u_mlen _ _ _ _ _ _ _ Hu) as Hm. rewrite !zlen_app in Hm. destruct (Z.eqb_spec (zlen r) 0) as [E|E]; cbn [negb].
  - apply step_ret. assert (r = []) as -> by (destruct r; [done|]; rewrite zlen_cons in E; pose proof (zlen_nonneg r); lia).
    apply (Hk h gap); [change (zlen (@nil Z)) with 0; lia|done].
  - pose proof (zlen_nonneg r). eapply step_memmove with (bx := bx); [exact Hu|exact HX|lia..|]. intros h2 Hu2. rewrite <-Er, zwrite_behind in Hu2.
    rewrite drop_app_le in Hu2 by (unfold zlen in Hle; lia). apply (Hk h2 (drop (length r) gap)); [|done]. unfold zlen in *. rewrite length_drop. lia.
Qed.

(** Moving a piece up over the gap behind it. *)
Lemma step_raise h l piece gap rest to_ from_ n (k : unit → BM A) Q :
  upd g b B h s' B' (l ++ piece ++ gap ++ rest) → from_ = zlen l → to_ = zlen l + zlen gap → n = zlen piece →
  (∀ h2 gap2, zlen gap2 = zlen gap → upd g b B h2 s' B' (l ++ gap2 ++ piece ++ rest) → returns (k tt h2) Q) →
  returns (((if negb (n =? 0) then memmove (padd (B', 0) to_) (padd (B', 0) from_) n else mret tt) ≫= k) h) Q.
Proof.
  intros Hu -> -> -> Hk. pose proof (zlen_nonneg l). pose proof (zlen_nonneg gap). pose proof (zlen_nonneg piece). pose proof (zlen_nonneg rest).
  pose proof (u_mlen _ _ _ _ _ _ _ Hu) as Hm. rewrite !zlen_app in Hm. destruct (Z.eqb_spec (zlen piece) 0) as [E|E]; cbn [negb].
  - apply step_ret. assert (piece = []) as -> by (apply length_zero_iff_nil; unfold zlen in *; lia). by apply (Hk h gap).
  - change (padd (B', 0) (zlen l)) with (B', 0 + zlen l). rewrite Z.add_0_l.
    eapply step_memmove with (bx := l ++ piece ++ gap ++ rest); [exact Hu| |lia..| |].
    { rewrite (u_blocks _ _ _ _ _ _ _ Hu). apply lookup_insert_eq. }
    { rewrite !zlen_app. lia. }
    intros h2 Hu2. rewrite zslice_middle in Hu2. set (u := take (length gap) (piece ++ gap)).
    assert (zlen u = zlen gap) as Eu by (subst u; unfold zlen; rewrite length_take, length_app; lia).
    replace (l ++ piece ++ gap ++ rest) with ((l ++ u) ++ drop (length gap) (piece ++ gap) ++ rest) in Hu2.
    2: { rewrite <-app_assoc, (app_assoc u). subst u. rewrite take_drop. by rewrite <-app_assoc. }
    rewrite zwrite_middle in Hu2; [|rewrite zlen_app; lia|unfold zlen; rewrite length_drop, length_app; lia].
    apply (Hk h2 u Eu). by rewrite <-app_assoc in Hu2.
Qed.

(** Writing the replacement over the end of a gap. *)
Lemma step_fill_end h l gap rest X o bx r i (k : unit → BM A) Q :
  upd g b B h s' B' (l ++ gap ++ rest) → blocks h !! X = Some bx → r = zslice bx o (zlen r) → 0 ≤ o → o + zlen r ≤ zlen bx →
  i = zlen l + zlen gap - zlen r → zlen r ≤ zlen gap →
  (∀ h2 gap2, zlen gap2 = zlen gap - zlen r → upd g b B h2 s' B' (l ++ gap2 ++ r ++ rest) → returns (k tt h2) Q) →
  returns (((if negb (zlen r =? 0) then memmove (padd (B', 0) i) (X, o) (zlen r) else mret tt) ≫= k) h) Q.
Proof.
  intros Hu HX Er Ho Hor -> Hle Hk. pose proof (zlen_nonneg r).
  set (g1 := take (Z.to_nat (zlen gap - zlen r)) gap). assert (zlen g1 = zlen gap - zlen r) as E1 by (subst g1; rewrite zlen_take; lia).
  set (g2 := drop (Z.to_nat (zlen gap - zlen r)) gap). assert (zlen g2 = zlen r) as E2 by (subst g2; rewrite zlen_drop; lia).
  replace (l ++ gap ++ rest) with ((l ++ g1) ++ g2 ++ rest) in Hu by (subst g1 g2; by rewrite <-app_assoc, (app_assoc (take _ _)), take_drop).
  eapply step_fill; [exact Hu|done|done|done|done|rewrite zlen_app; lia|lia|]. intros h2 gap2 Eg Hu2.
  assert (gap2 = []) as -> by (apply length_zero_iff_nil; unfold zlen in *; lia). apply (Hk h2 g1 E1). by rewrite <-app_assoc in Hu2.
Qed.
End parts.

(** ** The array of positions *)

(** The heap with the array's block, if it has one. *)
Definition has_index (g h : bheap) (d : index_array) : Prop :=
  structs h = structs g ∧ heap_ok h ∧
  match d with
  | OnHeap (Some p) => p.2 = 0 ∧ blocks g !! p.1 = None ∧ ∃ x, blocks h = <[p.1 := x]> (blocks g)
  | _ => blocks h = blocks g
  end.

Lemma index_frame g h d X bx : has_index g h d → blocks g !! X = Some bx → blocks h !! X = Some bx.
Proof.
  intros (_ & _ & Hd) HX. destruct d as [|[p|]]; [by rewrite Hd| |by rewrite Hd]. destruct Hd as (_ & Hn & x & ->).
  rewrite lookup_insert_ne; [done|]. intros E. congruence.
Qed.

Lemma index_readable g h d b s X o bx c : has_index g h d → readable g b s X o bx c → readable h b s X o bx c.
Proof. intros Hi [? ? ? ? ? ?]. pose proof (index_frame _ _ _ X bx Hi ltac:(done)). destruct Hi as (Es & _). split; try done. by rewrite Es. Qed.

Lemma index_writable g h d b s B buf : has_index g h d → writable g b s B buf → writable h b s B buf.
Proof. intros Hi [? ? ? ? ?]. pose proof (index_frame _ _ _ B buf Hi ltac:(done)). destruct Hi as (Es & _). split; try done. by rewrite Es. Qed.

Lemma step_grow_index {A} g h d mlen (k : bool * Z * index_array → BM A) (Q : A * bheap → Prop) :
  has_index g h d → 0 < mlen → 16 * mlen ≤ INT_MAX →
  (∀ h' m' d', has_index g h' d' → oom h' = true → returns (k (false, m', d') h') Q) →
  (∀ h' d', has_index g h' d' → returns (k (true, mlen + mlen, d') h') Q) →
  returns ((grow_index mlen d ≫= k) h) Q.
Proof.
  intros Hi Hm Hmax Hfail Hok. unfold grow_index. rewrite (proj2 (Z.ltb_ge _ _)) by (unfold INT_MAX in *; lia).
  apply step_assoc. eapply step_lift; [apply cint_ok; int_lia|].
  pose proof Hi as (Es & OK & Hd). apply step_assoc.
  assert (blocks h = blocks g → returns ((malloc (sext 32 (8 * (mlen + mlen))) ≫= λ x : option ptr,
    (match x with
     | Some t => mret (true, mlen + mlen, OnHeap (Some t))
     | None => mret (false, mlen + mlen, match d with OnStack => OnHeap None | _ => d end)
     end : BM (bool * Z * index_array)) ≫= k) h) Q) as Hmalloc.
  { intros Eb. apply step_malloc; [done|..].
    - intros h' [(Es' & Eb' & OK') Ho]. apply step_ret, Hfail; [|done]. split; [congruence|]. split; [done|]. destruct d as [|[p|]]; cbn in *; try congruence.
      destruct Hd as (? & ? & x & Ex). split_and!; [done|done|]. exists x. congruence.
    - intros h' Es' Eb' OK' _. apply step_ret, Hok. split; [congruence|]. split; [done|]. cbn. split; [done|].
      rewrite <-Eb. split; [apply (heap_ok_fresh h OK)|]. eexists. by rewrite Eb'. }
  destruct d as [|[[D o]|]]; [by apply Hmalloc| |by apply Hmalloc]. destruct Hd as (Eo & Hn & x & Ex). cbn in Eo, Hn, Ex. subst o.
  eapply (step_realloc D _ x); [done|by rewrite Ex, lookup_insert_eq|..].
  - intros h' [(Es' & Eb' & OK') Ho]. apply step_ret, Hfail; [|done]. split; [congruence|]. split; [done|]. cbn. split_and!; [done|done|]. exists x. congruence.
  - intros h' Es' Eb' OK' _. apply step_ret, Hok. split; [congruence|]. split; [done|]. cbn. split; [done|].
    pose proof (heap_ok_fresh h OK) as [_ Hfr]. rewrite Ex in Hfr. apply lookup_insert_None in Hfr as [Hfr HD].
    split; [done|]. eexists. rewrite Eb', Ex, delete_insert_id by done. done.
Qed.

Lemma step_free_index_same {A} g h d h2 (k : unit → BM A) (Q : A * bheap → Prop) :
  heap_ok g → has_index g h d → same_memory h h2 → oom h2 = true → (∀ h3, out_of_memory g h3 → returns (k tt h3) Q) →
  returns ((free_index d ≫= k) h2) Q.
Proof.
  intros OK (Es & _ & Hd) (Es2 & Eb2 & OK2) Ho Hk.
  destruct d as [|[[D o]|]]; [apply step_ret, Hk; (split; [split_and!; congruence|done])| |apply step_ret, Hk; (split; [split_and!; congruence|done])].
  destruct Hd as (Eo & Hn & x & Ex). cbn in Eo, Hn, Ex. subst o. cbn [free_index].
  eapply step_free; [by rewrite Eb2, Ex, lookup_insert_eq|]. apply Hk. split; [|exact Ho]. split_and!; cbn; [congruence| |by apply heap_ok_delete_block].
  by rewrite Eb2, Ex, delete_insert_id.
Qed.

Lemma step_free_index_upd {A} g h d b B h2 s' B' buf' bufs (k : unit → BM A) (Q : A * bheap → Prop) :
  has_index g h d → blocks g !! B = Some bufs → upd h b B h2 s' B' buf' →
  (∀ h3, upd g b B h3 s' B' buf' → returns (k tt h3) Q) → returns ((free_index d ≫= k) h2) Q.
Proof.
  intros (Es & OK & Hd) HB [Es2 Eb2 Hd2 Hm2 Hf2 OK2] Hk.
  assert (blocks h = blocks g → returns (k tt h2) Q) as Hsame.
  { intros Eb. apply Hk. split; try done; [by rewrite Es2, Es|by rewrite Eb2, Eb|by rewrite <-Eb]. }
  destruct d as [|[[D o]|]]; [by apply step_ret, Hsame| |by apply step_ret, Hsame].
  destruct Hd as (Eo & Hn & x & Ex). cbn in Eo, Hn, Ex. subst o. cbn [free_index].
  assert (D ≠ B) by congruence.
  assert (D ≠ B') as HD.
  { intros <-. destruct Hf2 as [?|Hf2]; [done|]. rewrite Ex, lookup_insert_eq in Hf2. done. }
  eapply (step_free D x); [rewrite Eb2, lookup_insert_ne, lookup_delete_ne, Ex by done; apply lookup_insert_eq|].
  apply Hk. split; cbn; try done; [by rewrite Es2, Es| | |by apply heap_ok_delete_block].
  - rewrite Eb2, Ex. rewrite delete_insert_ne by done. f_equal. by rewrite delete_delete, delete_insert_id.
  - destruct Hf2 as [?|Hf2]; [by left|right]. rewrite Ex in Hf2. by apply lookup_insert_None in Hf2 as [? _].
Qed.

Section loops.
Context (instr : Z → Z → Z → BM Z) (same : Z → Z → bool) (Hin : finds instr same).
Context (g : bheap) (b : Z) (s : tagbstring) (B : Z) (buf : list Z) (W : writable g b s B buf).
Context (xf : Z) (sf : tagbstring) (Xf osf : Z) (bf f : list Z) (Rf : readable g xf sf Xf osf bf f) (HXf : Xf ≠ B) (Hxf : xf ≠ b).
Context (xr : Z) (sr : tagbstring) (Xr osr : Z) (br r : list Z) (Rr : readable g xr sr Xr osr br r) (HXr : Xr ≠ B) (Hxr : xr ≠ b).

Let c := content s buf.
Let tail := drop (Z.to_nat (slen s)) buf.

Lemma zlen_c : zlen c = slen s.
Proof using W. destruct W. apply zlen_content. lia. Qed.

(** The characters are those before [tail]. *)
Lemma upd_readable_self h s' buf' c' : upd g b B h s' B buf' → slen s' = slen s → mlen s' = mlen s → buf' = c' ++ tail → zlen c' = zlen c →
  readable h b s' B 0 buf' c'.
Proof using W.
  intros Hu Es Em -> El. pose proof W as [_ _ _ Hm Hl]. pose proof zlen_c as Hc.
  assert (c' = content s' (c' ++ tail)) as E by (unfold content; rewrite take_app_length' by (unfold zlen in *; lia); done).
  rewrite E at 2. apply writable_readable. eapply upd_writable; [done|]. lia.
Qed.

Context (Hf : 0 < zlen f).

Lemma occurs_in i : occurs same f c i → 0 ≤ i ∧ i + zlen f ≤ zlen c.
Proof. intros (? & ? & _). lia. Qed.

(** ** Strings of the same length *)

Lemma replace_same_ok fuel h buf' out pos :
  zlen r = zlen f → upd g b B h s B buf' → buf' = out ++ drop (Z.to_nat pos) c ++ tail → zlen out = pos → pos ≤ zlen c →
  (length (drop (Z.to_nat pos) c) < fuel)%nat →
  returns (replace_same instr fuel b xf (B, 0) (Xr, osr) (zlen f) (zlen r) pos h) (λ '(_, h'), ∃ ps,
    found_from same f c pos ps ∧
    upd g b B h' s B (out ++ (zslice c pos (next_of c ps - pos) ++ segments f r c ps) ++ tail)).
Proof using Hin W Rf HXf Hxf Rr HXr Hf.
  intros Elen. revert h buf' out pos. induction fuel as [|fuel IH]; intros h buf' out pos Hu -> Eo Hpos Hfuel; [lia|].
  cbn [replace_same]. pose proof (zlen_nonneg out). pose proof zlen_c as Hc.
  assert (zlen (drop (Z.to_nat pos) c) = zlen c - pos) as Eld by (apply zlen_drop; lia).
  assert (readable h b s B 0 (out ++ drop (Z.to_nat pos) c ++ tail) (out ++ drop (Z.to_nat pos) c)) as R.
  { eapply upd_readable_self; [exact Hu|done|done|by rewrite app_assoc|]. rewrite zlen_app. lia. }
  eapply (step_search instr same) with (c := c); [done|by destruct Hu|exact R|by eapply upd_readable|rewrite zlen_app; lia| |lia|..].
  { rewrite drop_app_length'; [done|]. unfold zlen in *. lia. }
  - intros Hn. cbn. exists []. split; [by constructor|]. cbn [next_of segments]. rewrite zslice_to_end by lia. by rewrite app_nil_r.
  - intros i Hi Ho Hmin. pose proof (occurs_in i Ho) as Hib. rewrite (proj2 (Z.ltb_ge i 0)) by lia.
    pose proof Rr as [_ _ Hbr _ Hrr Hcr]. pose proof (readable_len _ _ _ _ _ _ _ Rr) as Hlr.
    rewrite memcpy_apart by (cbn; congruence).
    eapply step_memmove with (bx := br); [exact Hu|by apply (proj2 (upd_frame _ _ _ _ _ _ _ Hu))|lia|lia| |lia|lia|].
    { destruct W. lia. }
    intros h2 Hu2. rewrite Hlr, <-Hcr in Hu2.
    rewrite (drop_segments c pos i), (drop_segments c i (i + zlen f)) in Hu2 by lia.
    assert (zlen (zslice c pos (i - pos)) = i - pos) as El1 by (rewrite zlen_zslice; lia).
    assert (zlen (zslice c i (i + zlen f - i)) = zlen r) as El2 by (rewrite zlen_zslice; lia).
    assert (i = zlen (out ++ zslice c pos (i - pos))) as Ei by (rewrite zlen_app; lia).
    replace (out ++ (zslice c pos (i - pos) ++ zslice c i (i + zlen f - i) ++ drop (Z.to_nat (i + zlen f)) c) ++ tail)
      with ((out ++ zslice c pos (i - pos)) ++ zslice c i (i + zlen f - i) ++ (drop (Z.to_nat (i + zlen f)) c ++ tail)) in Hu2
      by (by rewrite <-!app_assoc).
    rewrite zwrite_middle in Hu2 by done.
    eapply returns_mono; [eapply (IH h2 _ ((out ++ zslice c pos (i - pos)) ++ r) (i + zlen f)); [exact Hu2| | |lia|]|].
    + by rewrite <-!app_assoc.
    + rewrite !zlen_app. lia.
    + rewrite length_drop in *. unfold zlen in *. lia.
    + intros [u h'] (ps & Hps & Hu'). exists (i :: ps). split; [by constructor|]. cbn [next_of segments].
      by rewrite <-!app_assoc in Hu' |- *.
Qed.

(** ** A shorter replacement *)

Lemma source_readable h s' B' buf' : upd g b B h s' B' buf' → 
  blocks h !! Xr = Some br ∧ r = zslice br osr (zlen r) ∧ 0 ≤ osr ∧ osr + zlen r ≤ zlen br.
Proof using Rr HXr.
  intros Hu. pose proof Rr as [_ _ Hbr _ Hrr Hcr]. pose proof (readable_len _ _ _ _ _ _ _ Rr) as Hlr. rewrite Hlr.
  split; [by apply (proj2 (upd_frame _ _ _ _ _ _ _ Hu))|]. split; [done|lia].
Qed.

Lemma shrink_loop_ok fuel h out gap acc pos :
  zlen r ≤ zlen f → upd g b B h s B (out ++ gap ++ drop (Z.to_nat pos) c ++ tail) → zlen out + acc = pos → zlen gap = acc →
  pos ≤ zlen c → (length (drop (Z.to_nat pos) c) < fuel)%nat →
  returns (shrink_loop instr fuel b xf (B, 0) (Xr, osr) (zlen f) (zlen r) acc pos h) (λ '((acc', pos'), h'), ∃ ps out' gap',
    found_from same f c pos ps ∧ zlen out' + acc' = pos' ∧ zlen gap' = acc' ∧ pos' ≤ zlen c ∧
    (acc' = 0 → acc = 0 ∧ (ps = [] ∨ zlen r = zlen f)) ∧
    upd g b B h' s B (out' ++ gap' ++ drop (Z.to_nat pos') c ++ tail) ∧
    out' ++ drop (Z.to_nat pos') c = out ++ zslice c pos (next_of c ps - pos) ++ segments f r c ps).
Proof using Hin W Rf HXf Hxf Rr HXr Hf.
  intros Hlen. revert h out gap acc pos. induction fuel as [|fuel IH]; intros h out gap acc pos Hu Eo Eg Hpos Hfuel; [lia|].
  cbn [shrink_loop]. pose proof (zlen_nonneg out). pose proof (zlen_nonneg gap). pose proof (zlen_nonneg r). pose proof zlen_c as Hc.
  assert (zlen (drop (Z.to_nat pos) c) = zlen c - pos) as Eld by (apply zlen_drop; lia).
  assert (readable h b s B 0 (out ++ gap ++ drop (Z.to_nat pos) c ++ tail) (out ++ gap ++ drop (Z.to_nat pos) c)) as R.
  { eapply upd_readable_self; [exact Hu|done|done|by rewrite <-!app_assoc|]. rewrite !zlen_app. lia. }
  eapply (step_search instr same) with (c := c); [done|by destruct Hu|exact R|by eapply upd_readable|rewrite !zlen_app; lia| |lia|..].
  { rewrite app_assoc, drop_app_length'; [done|]. rewrite length_app. unfold zlen in *. lia. }
  - intros Hn. cbn. exists [], out, gap. split; [by constructor|]. cbn [next_of segments]. rewrite zslice_to_end by lia. rewrite app_nil_r.
    split_and!; try done. intros ->. split; [done|by left].
  - intros i Hi Ho Hmin. pose proof (occurs_in i Ho) as Hib. rewrite (proj2 (Z.ltb_ge i 0)) by lia.
    rewrite (drop_segments c pos i), <-app_assoc in Hu by lia. set (piece := zslice c pos (i - pos)) in *.
    assert (zlen piece = i - pos) as Ep by (subst piece; rewrite zlen_zslice; lia).
    eapply (step_slide g b B); [exact Hu|lia|lia|lia| |].
    { intros E. apply andb_false_iff in E as [E|E]; propify; [left|right]; apply length_zero_iff_nil; unfold zlen in *; lia. }
    intros h2 gap2 Eg2 Hu2. rewrite memcpy_apart by (cbn; congruence).
    rewrite (drop_segments c i (i + zlen f)) in Hu2 by lia. set (fpart := zslice c i (i + zlen f - i)) in *.
    assert (zlen fpart = zlen f) as Efp by (subst fpart; rewrite zlen_zslice; lia).
    replace (out ++ piece ++ gap2 ++ (fpart ++ drop (Z.to_nat (i + zlen f)) c) ++ tail)
      with ((out ++ piece) ++ (gap2 ++ fpart) ++ (drop (Z.to_nat (i + zlen f)) c ++ tail)) in Hu2 by (by rewrite <-!app_assoc).
    destruct (source_readable _ _ _ _ Hu2) as (HX & Er & Hor & Hor2).
    eapply (step_fill g b B); [exact Hu2|exact HX|exact Er|done|done|rewrite zlen_app; lia|rewrite zlen_app; lia|].
    intros h3 gap3 Eg3 Hu3. rewrite zlen_app in Eg3. eapply returns_mono.
    { eapply (IH h3 (out ++ piece ++ r) gap3); [|rewrite !zlen_app; lia|lia|lia|].
      - rewrite <-!app_assoc in Hu3. rewrite <-(app_assoc out), <-(app_assoc piece). exact Hu3.
      - rewrite length_drop in *. unfold zlen in *. lia. }
    intros [[acc' pos'] h'] (ps & out' & gap' & Hps & E1 & E2 & E3 & E4 & Hu' & Eq). exists (i :: ps), out', gap'.
    split; [by constructor|]. split_and!; try done.
    + intros E. destruct (E4 E) as [E5 _]. split; [lia|]. right. lia.
    + rewrite Eq. cbn [next_of segments]. by rewrite <-!app_assoc.
Qed.

(** ** A longer replacement *)

Lemma collect_found_ok fuel h d mlen cells acc pos ps :
  found_from same f c pos ps → has_index g h d → 32 ≤ mlen → zlen cells ≤ mlen - 1 → 0 ≤ pos ≤ zlen c → 0 ≤ acc → zlen f ≤ zlen r →
  acc + (zlen r - zlen f) * zlen ps ≤ INT_MAX → 16 * (zlen cells + zlen ps) ≤ INT_MAX → slen s ≤ INT_MAX → (length (drop (Z.to_nat pos) c) < fuel)%nat →
  returns (collect_found instr fuel b xf (zlen f) (zlen f - zlen r) d mlen cells acc pos h) (λ '((ok, d', cells', acc'), h'),
    has_index g h' d' ∧ (ok = false → oom h' = true) ∧ (ok = true → cells' = cells ++ ps ∧ acc' = acc + (zlen r - zlen f) * zlen ps)).
Proof using Hin W Rf HXf Hxf Hf.
  intros Hps Hi Hml Hcl Hpos Hacc Hlen Hmax Hmany Hsl. pose proof zlen_c as Hc. revert h d mlen cells acc pos ps Hps Hi Hml Hcl Hpos Hacc Hmax Hmany.
  induction fuel as [|fuel IH]; intros h d mlen cells acc pos ps Hps Hi Hml Hcl Hpos Hacc Hmax Hmany Hfuel; [lia|]. cbn [collect_found].
  eapply (step_search instr same) with (c := c); [done|apply Hi|by eapply index_readable, writable_readable|by eapply index_readable|done|done|lia|..].
  - intros Hn. cbn. inversion Hps as [|? p ps' Hp Ho]; subst; [|exfalso; by apply (Hn p)].
    split; [done|]. split; [done|]. intros _. rewrite app_nil_r. split; [done|]. change (zlen (@nil Z)) with 0. lia.
  - intros i Hpi Ho Hmin. pose proof (occurs_in i Ho) as Hib. rewrite (proj2 (Z.ltb_ge i 0)) by lia.
    inversion Hps as [? Hn|? p ps' Hpp Hop Hminp Hps']; subst; [exfalso; by apply (Hn i)|].
    assert (p = i) as -> by (specialize (Hmin p Hpp Hop); specialize (Hminp i Hpi Ho); lia).
    rewrite zlen_cons in Hmax, Hmany |- *. pose proof (zlen_nonneg ps').
    assert (∀ h' mlen' d', has_index g h' d' → mlen ≤ mlen' → zlen cells < mlen' - 1 → returns ((
      if negb true then mret (false, d', cells, acc) else
      if mlen' <=? zlen cells then undef else
      let cells := cells ++ [i] in
      acc ← icint (acc - (zlen f - zlen r)); pos ← icint (i + zlen f);
      if (pos <? 0) || (acc <? 0) then mret (false, d', cells, acc)
      else collect_found instr fuel b xf (zlen f) (zlen f - zlen r) d' mlen' cells acc pos : BM _) h') (λ '((ok, d', cells', acc'), h'),
        has_index g h' d' ∧ (ok = false → oom h' = true) ∧ (ok = true → cells' = cells ++ i :: ps' ∧ acc' = acc + (zlen r - zlen f) * (zlen ps' + 1)))) as Hrest.
    { intros h' mlen' d' Hi' Hml' Hcl'. cbn [negb]. rewrite (proj2 (Z.leb_gt _ _)) by lia.
      assert (0 ≤ (zlen r - zlen f) * zlen ps') by nia.
      eapply step_lift; [apply cint_ok; int_lia|]. eapply step_lift; [apply cint_ok; int_lia|].
      rewrite (proj2 (Z.ltb_ge _ _)), (proj2 (Z.ltb_ge _ _)) by lia. cbn [orb].
      eapply returns_mono; [apply (IH h' d' mlen' (cells ++ [i]) _ (i + zlen f) ps' Hps' Hi'); [lia| |lia|lia|lia| |]|].
      - rewrite zlen_app. change (zlen [i]) with 1. lia.
      - rewrite zlen_app. change (zlen [i]) with 1. lia.
      - rewrite length_drop in *. unfold zlen in *. lia.
      - intros [[[[ok d2] cells2] acc2] h2] (Hi2 & Ho2 & Hr). split; [done|]. split; [done|]. intros E. destruct (Hr E) as [-> ->].
        split; [by rewrite <-app_assoc|lia]. }
    destruct (mlen - 1 <=? zlen cells) eqn:E; propify.
    + eapply step_grow_index; [exact Hi|lia|lia|..].
      * intros h' m' d' Hi' Hoom. cbn. by split_and!.
      * intros h' d' Hi'. apply Hrest; [done|lia|lia].
    + apply step_ret. apply Hrest; [done|lia|lia].
Qed.

Lemma place_ok g' s' B' h pre suf mid tl pos :
  blocks g' !! Xr = Some br → zlen f ≤ zlen r → 0 ≤ pos →
  spaced f c pos (pre ++ suf) → upd g' b B h s' B' (take (Z.to_nat (next_of c suf)) c ++ mid ++ segments f r c suf ++ tl) →
  zlen mid = (zlen r - zlen f) * zlen pre →
  returns (place (length pre) (B', 0) (Xr, osr) (zlen f) (zlen r) ((pre ++ suf) ++ [zlen c]) (zlen mid) h) (λ '(_, h'),
    upd g' b B h' s' B' (take (Z.to_nat (next_of c (pre ++ suf))) c ++ segments f r c (pre ++ suf) ++ tl)).
Proof using Rr HXr Hf.
  intros Hbr Hlen Hpos. revert h suf mid. induction pre as [|p pre IH] using rev_ind; intros h suf mid Hsp Hu Emid.
  { cbn. change (zlen (@nil Z)) with 0 in Emid. assert (mid = []) as -> by (apply length_zero_iff_nil; unfold zlen in *; lia). done. }
  rewrite length_app, Nat.add_1_r. cbn [place].
  replace ((pre ++ [p]) ++ suf) with (pre ++ p :: suf) in * by (by rewrite <-app_assoc).
  pose proof (spaced_app _ _ _ _ _ _ Hsp) as Hsp'. pose proof (spaced_next _ _ _ _ Hf Hsp') as Hnx.
  assert (0 ≤ p) as Hp.
  { clear -Hsp Hpos Hf. revert pos Hpos Hsp. induction pre as [|x pre IHp]; intros pos Hpos; cbn; [lia|]. intros [? Hs]. apply (IHp (x + zlen f)); [lia|done]. }
  rewrite zlen_app in Emid. change (zlen [p]) with 1 in Emid. pose proof (zlen_nonneg pre).
  eapply step_lift; [apply load_ok; rewrite zget_nat, <-app_assoc; by apply list_lookup_middle|].
  eapply step_lift.
  { apply load_ok. replace (Z.of_nat (length pre) + 1) with (Z.of_nat (S (length pre))) by lia. rewrite zget_nat, <-app_assoc, lookup_app_r by lia.
    replace (S (length pre) - length pre)%nat with 1%nat by lia. instantiate (1 := next_of c suf). by destruct suf. }
  set (q := next_of c suf) in *. set (piece := zslice c (p + zlen f) (q - (p + zlen f))).
  assert (zlen piece = q - (p + zlen f)) as Ep by (subst piece; rewrite zlen_zslice; lia).
  assert (zlen (take (Z.to_nat p) c) = p) as Etp by (apply zlen_take; lia).
  assert (zlen (zslice c p (zlen f)) = zlen f) as Efp by (rewrite zlen_zslice; lia).
  assert (take (Z.to_nat q) c = (take (Z.to_nat p) c ++ zslice c p (zlen f)) ++ piece) as Etq.
  { subst piece. unfold zslice. rewrite !take_take_drop. replace (Z.to_nat p + Z.to_nat (zlen f))%nat with (Z.to_nat (p + zlen f)) by lia.
    rewrite take_take_drop. f_equal. lia. }
  rewrite Etq, <-app_assoc in Hu. assert (0 ≤ (zlen r - zlen f) * zlen pre) as Hge by nia.
  eapply (step_raise g' b B); [exact Hu|rewrite zlen_app; lia|rewrite zlen_app; lia|lia|]. intros h2 gap2 Eg2 Hu2.
  rewrite <-app_assoc, (app_assoc (zslice c p (zlen f))) in Hu2.
  destruct (upd_frame _ _ _ _ _ _ _ Hu2) as [_ Hfb]. pose proof Rr as [_ _ _ _ Hrr Hcr]. pose proof (readable_len _ _ _ _ _ _ _ Rr) as Hlr.
  eapply (step_fill_end g' b B); [exact Hu2|by apply Hfb|by rewrite Hlr|lia|lia|rewrite zlen_app; lia|rewrite zlen_app; lia|].
  intros h3 gap3 Eg3 Hu3. rewrite zlen_app in Eg3. replace (zlen mid + (zlen f - zlen r)) with (zlen gap3) by lia.
  eapply returns_mono; [apply (IH h3 (p :: suf) gap3); [done| |lia]|].
  - cbn [next_of segments]. fold q. fold piece. by rewrite <-!app_assoc.
  - intros [[] h'] Hu'. exact Hu'.
Qed.

Lemma replace_grow_ok fuel pos ps :
  heap_ok g → 16 * mlen s ≤ INT_MAX → found_from same f c pos ps → 0 ≤ pos ≤ zlen c → zlen f ≤ zlen r →
  zlen c + (zlen r - zlen f) * zlen ps < INT_MAX → (length (drop (Z.to_nat pos) c) < fuel)%nat →
  returns (replace_grow instr fuel b xf (Xr, osr) (zlen f) (zlen r) pos g)
    (edited g b B (take (Z.to_nat (next_of c ps)) c ++ segments f r c ps)).
Proof using Hin W Rf HXf Hxf Rr HXr Hf.
  intros OK Hsmall Hps Hpos Hlen Hmax Hfuel. pose proof zlen_c as Hc. pose proof W as [Hs Hd Hb Hm Hl].
  pose proof (found_spaced same f c pos ps Hps ltac:(lia)) as Hsp. pose proof (spaced_next _ _ _ _ Hf Hsp) as Hnx.
  pose proof (zlen_nonneg ps) as Hpsn. pose proof (spaced_count f c pos ps ltac:(lia) Hsp) as Hcount. assert (0 ≤ (zlen r - zlen f) * zlen ps) as Hge by nia. set (n := (zlen r - zlen f) * zlen ps) in *.
  unfold replace_grow. apply M_returns_bind. eapply returns_mono.
  { eapply (collect_found_ok fuel g OnStack); [exact Hps|by split|done|done|done|done|done|fold n; lia|zlen_lia|int_lia|done]. }
  intros [[[[ok d] cells] acc] h1] (Hi & Hfailed & Hok). destruct ok; cbn [negb].
  2: { apply step_ret. eapply step_free_index_same; [done|exact Hi|apply same_memory_refl, Hi|by apply Hfailed|]. intros h3 Hsame. by apply edited_err. }
  destruct (Hok eq_refl) as [-> ->]. cbn [app]. fold n. rewrite Z.add_0_l.
  pose proof (index_writable _ _ _ _ _ _ _ Hi W) as W1. pose proof (index_readable _ _ _ _ _ _ _ _ _ Hi Rr) as R1.
  apply step_assoc. eapply step_deref; [by destruct W1|]. apply step_assoc. eapply step_lift; [apply cint_ok; int_lia|].
  apply step_assoc. eapply step_lift; [apply cint_ok; int_lia|]. apply step_assoc.
  eapply step_balloc; [apply Hi|exact W1|int_lia|lia|..].
  { intros h' Hsame. cbn [Z.eqb negb BSTR_ERR BSTR_OK]. apply step_ret. eapply step_free_index_same; [done|exact Hi|apply Hsame|apply Hsame|].
    intros h3 Hsame3. by apply edited_err. }
  intros h2 s2 B2 buf2 Hu Es2 Hge2 _ Hc2. cbn [Z.eqb negb BSTR_OK]. pose proof (u_mlen _ _ _ _ _ _ _ Hu) as Hm2.
  apply step_assoc. eapply step_deref_upd; [exact Hu|]. apply step_assoc. eapply step_put; [exact Hu|done|done|]. intros h3 Hu3.
  unfold with_data. rewrite (u_data _ _ _ _ _ _ _ Hu). rewrite Es2 in *. apply step_assoc.
  (* the buffer in parts *)
  set (tl2 := drop (Z.to_nat (slen s)) buf2). assert (buf2 = c ++ tl2) as Ebuf.
  { unfold content in Hc2 at 1. rewrite Es2 in Hc2. subst tl2 c. rewrite <-Hc2. by rewrite take_drop. }
  assert (zlen tl2 = mlen s2 - slen s) as Etl by (subst tl2; rewrite zlen_drop; lia).
  set (mid := take (Z.to_nat n) tl2). assert (zlen mid = n) as Emid by (subst mid; rewrite zlen_take; lia).
  set (tl3 := drop (Z.to_nat n) tl2). assert (zlen tl3 = mlen s2 - slen s - n) as Etl3 by (subst tl3; rewrite zlen_drop; lia).
  assert (buf2 = take (Z.to_nat (next_of c [])) c ++ mid ++ segments f r c [] ++ tl3) as Ebuf2.
  { cbn [next_of segments app]. rewrite take_ge by (unfold zlen; lia). rewrite Ebuf. f_equal. subst mid tl3. by rewrite take_drop. }
  rewrite Ebuf2 in Hu3. apply M_returns_bind.
  eapply returns_mono.
  { pose proof (place_ok h1 (mkB (mlen s2) (slen s + n) (data s2)) B2 h3 ps [] mid tl3 pos (r_block _ _ _ _ _ _ _ R1) Hlen ltac:(lia)) as HP.
    rewrite app_nil_r, Emid, Hc in HP. apply HP; [done|exact Hu3|done]. }
  intros [[] h4] Hu4. rewrite ?app_nil_r in Hu4.
  set (res := take (Z.to_nat (next_of c ps)) c ++ segments f r c ps). assert (zlen res = slen s + n) as Eres.
  { subst res. rewrite zlen_app, zlen_take, (zlen_segments f r c pos ps) by (done || lia). fold n. lia. }
  rewrite app_assoc in Hu4. fold res in Hu4. destruct tl3 as [|x tl3]; [change (zlen (@nil Z)) with 0 in Etl3; lia|].
  apply step_assoc. eapply step_write_byte; [exact Hu4|cbn; lia|]. intros h5 Hu5. apply step_ret.
  change (x :: tl3) with ([x] ++ tl3) in Hu5. rewrite zwrite_middle in Hu5 by (done || lia).
  eapply step_free_index_upd; [exact Hi|exact Hb|exact Hu5|]. intros h6 Hu6. eapply edited_ok; [exact Hu6|..].
  - split; cbn; [lia|]. rewrite <-Eres. apply zget_app_mid.
  - unfold content. cbn [slen]. rewrite take_app_length' by (unfold zlen in Eres; lia). done.
Qed.
End loops.

(** * Operands that may be copies *)

(** [x] is the operand [orig] itself, or a copy of it that [h1] has in addition to [h]. *)
Definition aux_of (h h1 : bheap) (x orig : Z) : Prop :=
  (x = orig ∧ h1 = h) ∨ (x ≠ orig ∧ ∃ sa Y new c, copied h h1 x sa Y new c).

Lemma aux_heap_ok h h1 x orig : aux_of h h1 x orig → heap_ok h → heap_ok h1.
Proof. intros [[-> ->]|(_ & sa & Y & new & c & Hc)] OK; [done|by destruct Hc]. Qed.

Lemma aux_frame h h1 x orig : aux_of h h1 x orig →
  (∀ a t, structs h !! a = Some t → structs h1 !! a = Some t) ∧ (∀ X bx, blocks h !! X = Some bx → blocks h1 !! X = Some bx).
Proof.
  intros [[-> ->]|(_ & sa & Y & new & c & [Es Eb (Hfa & Hfy & _) _ _ _ _ _])]; [done|]. rewrite Es, Eb.
  split; intros y t Hy; (rewrite lookup_insert_ne; [done|]); intros ->; congruence.
Qed.

Lemma aux_readable h h1 x orig b s X o bx c : aux_of h h1 x orig → readable h b s X o bx c → readable h1 b s X o bx c.
Proof. intros [Hs Hb]%aux_frame [? ? ? ? ? ?]. split; auto. Qed.

Lemma aux_writable h h1 x orig b s B buf : aux_of h h1 x orig → writable h b s B buf → writable h1 b s B buf.
Proof. intros [Hs Hb]%aux_frame [? ? ? ? ?]. split; auto. Qed.

Lemma step_aux {A} (cond : bool) h b s B buf orig so Xo oo bo co (k : Z → BM A) (Q : A * bheap → Prop) :
  heap_ok h → writable h b s B buf → readable h orig so Xo oo bo co → zlen co < INT_MAX → (Xo = B → cond = true) →
  (∀ h', out_of_memory h h' → returns (k 0 h') Q) →
  (∀ h1 x sx X o bx, aux_of h h1 x orig → readable h1 x sx X o bx co → X ≠ B → x ≠ 0 → x ≠ b → returns (k x h1) Q) →
  returns (((if cond then bstrcpy orig else mret orig) ≫= k) h) Q.
Proof.
  intros OK W R Hlen Hal Hfail Hk. pose proof (readable_len _ _ _ _ _ _ _ R) as Hl. destruct cond.
  - eapply step_bstrcpy; [done|exact R|lia|exact Hfail|]. intros h1 a sa Y new Hcp Hsl. pose proof Hcp as [Es Eb (Hfa & Hfy & Ha0) Hd Hls Hc _ _].
    destruct W as [Ws _ Wb _ _]. destruct R as [Rs _ _ _ _ _].
    eapply (Hk h1 a sa Y 0 new); [right; split; [congruence|by eexists _, _, _, _]| |congruence|done|congruence].
    split; [by rewrite Es, lookup_insert_eq|done|by rewrite Eb, lookup_insert_eq|lia|lia|].
    rewrite <-Hc. reflexivity.
  - apply step_ret. pose proof R as [Rs Rd _ _ _ _]. pose proof W as [Ws Wd _ _ _]. assert (Xo ≠ B) as HX by (intros E; by specialize (Hal E)).
    eapply Hk; [by left|exact R|done| |]; [intros ->; by rewrite (ok_null _ OK) in Rs|]. intros ->. congruence.
Qed.

(** The copies can be dropped in either order. *)
Lemma aux_swap h h1 h2 x o x' o' : aux_of h h1 x o → aux_of h1 h2 x' o' → ∃ h', aux_of h h' x' o' ∧ aux_of h' h2 x o.
Proof.
  intros [[-> ->]|(Hne & sa & Y & new & c & Hc)] Ha'; [exists h2; split; [done|by left]|].
  destruct Ha' as [[-> ->]|(Hne' & sa' & Y' & new' & c' & Hc')]; [exists h; split; [by left|right; eauto 10]|].
  pose proof Hc as [Es Eb (Hfa & Hfy & Ha0) Hd Hl Hct OK1 Ht]. pose proof Hc' as [Es' Eb' (Hfa' & Hfy' & Ha0') Hd' Hl' Hct' OK2 Ht'].
  assert (x' ≠ x) by (intros ->; by rewrite Es, lookup_insert_eq in Hfa').
  assert (Y' ≠ Y) by (intros ->; by rewrite Eb, lookup_insert_eq in Hfy').
  exists (with_blocks (with_structs h2 (delete x (structs h2))) (delete Y (blocks h2))). split; right; (split; [done|]).
  - exists sa', Y', new', c'. split; cbn; try done.
    + by rewrite Es', Es, delete_insert_ne, delete_insert_id by done.
    + by rewrite Eb', Eb, delete_insert_ne, delete_insert_id by done.
    + rewrite Es in Hfa'. rewrite Eb in Hfy'. apply lookup_insert_None in Hfa' as [? _]. by apply lookup_insert_None in Hfy' as [? _].
    + by apply heap_ok_delete.
  - exists sa, Y, new, c. split; cbn; try done.
    + rewrite insert_delete_eq, insert_id; [done|]. rewrite Es', lookup_insert_ne, Es by done. apply lookup_insert_eq.
    + rewrite insert_delete_eq, insert_id; [done|]. rewrite Eb', lookup_insert_ne, Eb by done. apply lookup_insert_eq.
    + by rewrite !lookup_delete_eq.
Qed.

(** Dropping one of them at the end. *)
Lemma step_aux_drop {A} h h1 x orig b s B buf c ret h2 (k : unit → BM A) (Q : A * bheap → Prop) :
  heap_ok h → writable h b s B buf → aux_of h h1 x orig → edited h1 b B c (ret, h2) →
  (∀ h3, edited h b B c (ret, h3) → returns (k tt h3) Q) → returns ((drop_aux x orig ≫= k) h2) Q.
Proof.
  intros OK W Ha He Hk. destruct Ha as [[-> ->]|(Hne & sa & Y & new & c' & Hc)]; [by apply step_drop_self, Hk|].
  destruct He as [(-> & Hsame)|(-> & s' & B' & buf' & Hu & Ht & Hct)].
  - eapply step_drop_same; [exact Hc|done|done|exact Hsame|]. intros h3 Hs3. apply Hk. by left.
  - eapply step_drop_upd; [exact Hc|by destruct W|by destruct W|done|exact Hu|]. intros h3 Hu3. apply Hk. right. split; [done|]. by exists s', B', buf'.
Qed.

Lemma drop_both h h1 h2 xf find xr repl b s B buf c ret h3 :
  heap_ok h → writable h b s B buf → aux_of h h1 xf find → aux_of h1 h2 xr repl → edited h2 b B c (ret, h3) →
  returns ((drop_aux xf find;; drop_aux xr repl;; mret ret : BM Z) h3) (edited h b B c).
Proof.
  intros OK W Hf Hr He. destruct (aux_swap _ _ _ _ _ _ _ Hf Hr) as (h' & Hr' & Hf').
  eapply (step_aux_drop h'); [by eapply aux_heap_ok|by eapply aux_writable|exact Hf'|exact He|]. intros h4 He4.
  eapply (step_aux_drop h); [done|exact W|exact Hr'|exact He4|]. intros h5 He5. exact He5.
Qed.

(** * Find and replace *)

Lemma aliases_seen d db len slen pos : d.1 = db.1 → pos - len < d.2 - db.2 < slen → aliases d db len slen pos = true.
Proof. intros E Hd. unfold aliases. rewrite E, Z.eqb_refl. cbn. apply andb_true_iff. rewrite !Z.ltb_lt. lia. Qed.

Section correctness.
Context (instr : Z → Z → Z → BM Z) (same : Z → Z → bool) (Hin : finds instr same).
Context (g : bheap) (b : Z) (s : tagbstring) (B : Z) (buf : list Z) (OK : heap_ok g) (W : writable g b s B buf) (T : terminated s buf).
Context (xf : Z) (sf : tagbstring) (Xf osf : Z) (bf f : list Z) (Rf : readable g xf sf Xf osf bf f) (HXf : Xf ≠ B) (Hxf : xf ≠ b).
Context (xr : Z) (sr : tagbstring) (Xr osr : Z) (br r : list Z) (Rr : readable g xr sr Xr osr br r) (HXr : Xr ≠ B) (Hxr : xr ≠ b).
Context (pos : Z) (Hf : 0 < zlen f).

Let c := content s buf.
Context (Hpos : 0 ≤ pos ≤ zlen c).
Let result := findreplace same f r pos c.

Lemma buffer_parts : buf = take (Z.to_nat pos) c ++ drop (Z.to_nat pos) c ++ drop (Z.to_nat (slen s)) buf ∧ zlen (take (Z.to_nat pos) c) = pos ∧
  ∃ tl, drop (Z.to_nat (slen s)) buf = 0 :: tl.
Proof using W T Hpos.
  destruct W as [_ _ _ Hm Hl]. destruct T as [_ Hz]. split; [|split; [by apply zlen_take|]].
  - rewrite app_assoc, take_drop. subst c. unfold content. by rewrite take_drop.
  - rewrite zget_of_lookup in Hz by lia. exists (drop (S (Z.to_nat (slen s))) buf). by apply drop_S.
Qed.

(** The content of a buffer in which the rest has not changed. *)
Lemma same_rest h' : zlen result = slen s → upd g b B h' s B (result ++ drop (Z.to_nat (slen s)) buf) → edited g b B result (BSTR_OK, h').
Proof using W T Hpos.
  intros El Hu. destruct buffer_parts as (_ & _ & tl & Etl). rewrite Etl in Hu. right. split; [done|]. exists s, B, (result ++ 0 :: tl). split; [done|]. split.
  - split; [apply T|]. rewrite <-El. apply zget_app_mid.
  - unfold content. apply take_app_length'. unfold zlen in El. lia.
Qed.

Lemma replace_same_edits :
  zlen r = zlen f → returns (replace_same instr (S (Z.to_nat (slen s))) b xf (B, 0) (Xr, osr) (zlen f) (zlen r) pos g) (λ '(_, h'), edited g b B result (BSTR_OK, h')).
Proof using Hin OK W T Rf HXf Hxf Rr HXr Hf Hpos.
  intros Elen. destruct buffer_parts as (Eb & Etp & _). pose proof (zlen_c g b s B buf W) as Hc. fold c in Hc.
  eapply returns_mono; [eapply (replace_same_ok instr same Hin g b s B buf W xf sf Xf osf bf f Rf HXf Hxf xr sr Xr osr br r Rr HXr Hf _ g buf (take (Z.to_nat pos) c) pos);
    [done|by apply upd_refl|exact Eb|done|fold c; lia|fold c; rewrite length_drop; unfold zlen in *; lia]|].
  fold c. intros [u h'] (ps & Hps & Hu).
  assert (result = take (Z.to_nat pos) c ++ zslice c pos (next_of c ps - pos) ++ segments f r c ps) as Er.
  { subst result. unfold findreplace. by rewrite (replaced_left_segments same _ f r c pos ps) by (done || (rewrite length_drop; lia)). }
  replace (take (Z.to_nat pos) c ++ (zslice c pos (next_of c ps - pos) ++ segments f r c ps) ++ drop (Z.to_nat (slen s)) buf) with (result ++ drop (Z.to_nat (slen s)) buf) in Hu
    by (rewrite Er; by rewrite <-!app_assoc).
  apply same_rest; [|done]. pose proof (u_mlen _ _ _ _ _ _ _ Hu) as Hm. destruct W as [_ _ _ Hm0 Hl0]. rewrite zlen_app, zlen_drop in Hm by lia. lia.
Qed.

Lemma shrink_edits :
  zlen r < zlen f → returns (('(acc, pos) ← shrink_loop instr (S (Z.to_nat (slen s))) b xf (B, 0) (Xr, osr) (zlen f) (zlen r) 0 pos;
      (if negb (acc =? 0) then
         let i := slen s in
         (if pos <? i then memmove (padd (B, 0) (pos - acc)) (padd (B, 0) pos) (i - pos) else mret tt);;
         put b (mkB (mlen s) (i - acc) (data s));;
         write_byte (padd (B, 0) (i - acc)) 0
       else mret tt)) g) (λ '(_, h'), edited g b B result (BSTR_OK, h')).
Proof using Hin OK W T Rf HXf Hxf Rr HXr Hf Hpos.
  intros Elen. destruct buffer_parts as (Eb & Etp & tl & Etl). pose proof (zlen_c g b s B buf W) as Hc. fold c in Hc.
  apply M_returns_bind. eapply returns_mono.
  { eapply (shrink_loop_ok instr same Hin g b s B buf W xf sf Xf osf bf f Rf HXf Hxf xr sr Xr osr br r Rr HXr Hf _ g (take (Z.to_nat pos) c) [] 0 pos);
      [lia|cbn [app]; fold c; rewrite <-Eb; by apply upd_refl|lia|done|fold c; lia|fold c; rewrite length_drop; unfold zlen in *; lia]. }
  fold c. intros [[acc pos'] h1] (ps & out & gap & Hps & Eo & Eg & Hp' & Hacc & Hu & Eq).
  assert (out ++ drop (Z.to_nat pos') c = result) as Er.
  { rewrite Eq. subst result. unfold findreplace. by rewrite (replaced_left_segments same _ f r c pos ps) by (done || (rewrite length_drop; lia)). }
  pose proof (zlen_nonneg out). pose proof (zlen_nonneg gap). assert (zlen (drop (Z.to_nat pos') c) = zlen c - pos') as Ed by (apply zlen_drop; lia).
  assert (zlen result = slen s - acc) as Elr by (rewrite <-Er, zlen_app; lia).
  destruct (Z.eqb_spec acc 0) as [E|E]; cbn [negb].
  - cbn. assert (gap = []) as -> by (apply length_zero_iff_nil; unfold zlen in *; lia). apply same_rest; [lia|]. rewrite <-Er, <-app_assoc. exact Hu.
  - eapply (step_slide g b B); [exact Hu|lia|lia|lia| |].
    { intros Hb. right. propify. apply length_zero_iff_nil. unfold zlen in *. lia. }
    intros h2 gap2 Eg2 Hu2. eapply step_put; [exact Hu2|done|done|]. intros h3 Hu3.
    destruct gap2 as [|x gap2]; [change (zlen (@nil Z)) with 0 in Eg2; lia|].
    rewrite <-(M_bind_ret_r (write_byte _ _)). pose proof W as [_ _ _ _ Hl].
    eapply step_write_byte; [exact Hu3|cbn; lia|]. intros h4 Hu4. cbn.
    replace (out ++ drop (Z.to_nat pos') c ++ (x :: gap2) ++ drop (Z.to_nat (slen s)) buf) with (result ++ [x] ++ (gap2 ++ drop (Z.to_nat (slen s)) buf)) in Hu4
      by (rewrite <-Er; by rewrite <-!app_assoc).
    rewrite zwrite_middle in Hu4 by (done || lia). right. split; [done|]. eexists _, _, _. split; [exact Hu4|]. split.
    + split; cbn; [lia|]. rewrite <-Elr. apply zget_app_mid.
    + unfold content. cbn. apply take_app_length'. unfold zlen in Elr. lia.
Qed.
End correctness.

Lemma findreplace_none same f r pos c : 0 < zlen f → 0 ≤ pos → zlen c - zlen f < pos → findreplace same f r pos c = c.
Proof.
  intros Hf Hp Hend. destruct (decide (pos ≤ zlen c)).
  - rewrite (findreplace_segments same f r c pos []); [|done|lia|constructor; intros p Hpp (_ & ? & _); lia].
    cbn. rewrite app_nil_r. apply take_ge. unfold zlen. lia.
  - unfold findreplace. rewrite take_ge, drop_ge by (unfold zlen in *; lia). destruct (length c); cbn; by rewrite app_nil_r.
Qed.

Lemma findreplaceengine_ok instr same h b s B buf find sf Xf osf bf f repl sr Xr osr br r pos :
  finds instr same → heap_ok h → writable h b s B buf → terminated s buf →
  readable h find sf Xf osf bf f → readable h repl sr Xr osr br r →
  0 < zlen f < INT_MAX → zlen r < INT_MAX → 0 ≤ pos →
  (Xf = B → pos - zlen f < osf < slen s) → (Xr = B → pos - zlen r < osr < slen s) →
  16 * mlen s ≤ INT_MAX → zlen (findreplace same f r pos (content s buf)) < INT_MAX →
  returns (findreplaceengine instr b find repl pos h) (edited h b B (findreplace same f r pos (content s buf))).
Proof.
  intros Hin OK W T Rf Rr Hf Hr Hpos Haf Har Hsmall Hmax. pose proof W as [Hs Hd Hb Hm Hl].
  pose proof (readable_len _ _ _ _ _ _ _ Rf) as Hlf. pose proof (readable_len _ _ _ _ _ _ _ Rr) as Hlr.
  pose proof (readable_nonnull _ _ _ _ _ _ _ OK Rf) as Hf0. pose proof (readable_nonnull _ _ _ _ _ _ _ OK Rr) as Hr0.
  pose proof (b_nonnull _ _ _ _ _ OK W) as Hb0. pose proof (zlen_content s buf ltac:(lia)) as Hc.
  unfold findreplaceengine. rewrite (proj2 (Z.eqb_neq b 0)), (proj2 (Z.eqb_neq find 0)), (proj2 (Z.eqb_neq repl 0)) by done. cbn [orb].
  eapply step_deref; [exact Hs|]. eapply step_deref; [by destruct Rf|]. eapply step_deref; [by destruct Rr|].
  unfold with_data at 1 2 3. rewrite Hd, (r_data _ _ _ _ _ _ _ Rf), (r_data _ _ _ _ _ _ _ Rr).
  rewrite (proj2 (Z.ltb_ge pos 0)), (proj2 (Z.leb_gt (slen sf) 0)), (proj2 (Z.leb_gt (mlen s) 0)), (proj2 (Z.ltb_ge (mlen s) (slen s))),
    (proj2 (Z.ltb_ge (slen s) 0)), (proj2 (Z.ltb_ge (slen sr) 0)) by (destruct Rr; lia). cbn [orb].
  destruct (Z.ltb_spec (slen s - slen sf) pos) as [Hend|Hroom].
  { eapply edited_ok; [by apply upd_refl|done|]. rewrite findreplace_none by lia. done. }
  eapply (step_aux _ h b s B buf find); [done|done|exact Rf|lia|intros E; apply aliases_seen; cbn; [done|lia]|..].
  { intros h' Hsame. by apply edited_err. }
  intros h1 xf sxf Xxf oxf bxf Af Rxf HXf Hxf0 Hxfb. rewrite (proj2 (Z.eqb_neq xf 0)) by done.
  pose proof (aux_heap_ok _ _ _ _ Af OK) as OK1. pose proof (aux_writable _ _ _ _ _ _ _ _ Af W) as W1. pose proof (aux_readable _ _ _ _ _ _ _ _ _ _ Af Rr) as Rr1.
  eapply (step_aux _ h1 b s B buf repl); [done|done|exact Rr1|lia|intros E; apply aliases_seen; cbn; [done|lia]|..].
  { intros h' Hsame. eapply (step_aux_drop h h1 xf find b s B buf (content s buf) BSTR_ERR h'); [done|done|done|by left|]. intros h3 He.
    apply edited_err. destruct He as [[_ ?]|[? _]]; done. }
  intros h2 xr sxr Xxr oxr bxr Ar Rxr HXr Hxr0 Hxrb. rewrite (proj2 (Z.eqb_neq xr 0)) by done.
  pose proof (aux_heap_ok _ _ _ _ Ar OK1) as OK2. pose proof (aux_writable _ _ _ _ _ _ _ _ Ar W1) as W2. pose proof (aux_readable _ _ _ _ _ _ _ _ _ _ Ar Rxf) as Rxf2.
  eapply step_deref; [by destruct Rxf2|]. eapply step_deref; [by destruct Rxr|].
  rewrite <-(readable_len _ _ _ _ _ _ _ Rxf2), <-(readable_len _ _ _ _ _ _ _ Rxr). unfold with_data at 1. rewrite (r_data _ _ _ _ _ _ _ Rxr).
  set (c := content s buf) in *. set (res := findreplace same f r pos c) in *.
  assert (∀ ret h3, edited h2 b B res (ret, h3) → returns ((drop_aux xf find;; drop_aux xr repl;; mret ret : BM Z) h3) (edited h b B res)) as Hdone.
  { intros ret h3 He. by eapply drop_both. }
  assert (0 ≤ pos ≤ zlen c) as Hpc by lia.
  destruct (Z.eqb_spec (zlen f - zlen r) 0) as [E0|E0]; [|destruct (Z.ltb_spec 0 (zlen f - zlen r)) as [E1|E1]].
  - apply step_assoc, M_returns_bind. eapply returns_mono.
    { apply (replace_same_edits instr same Hin h2 b s B buf OK2 W2 T xf sxf Xxf oxf bxf f Rxf2 HXf Hxfb xr sxr Xxr oxr bxr r Rxr HXr pos ltac:(lia) Hpc). lia. }
    intros [u h3] He. apply step_ret. by apply Hdone.
  - apply step_assoc. rewrite M_bind_eq.
    pose proof (shrink_edits instr same Hin h2 b s B buf OK2 W2 T xf sxf Xxf oxf bxf f Rxf2 HXf Hxfb xr sxr Xxr oxr bxr r Rxr HXr pos ltac:(lia) Hpc ltac:(lia)) as HS.
    rewrite Hd, M_bind_eq in HS. destruct (shrink_loop _ _ _ _ _ _ _ _ _ _ h2) as [[[acc pos'] h3]| |]; [|done..]. cbn [mbind res_bind] in *.
    apply step_assoc, M_returns_bind. eapply returns_mono; [exact HS|]. intros [u h4] He. apply step_ret. by apply Hdone.
  - destruct (found_exists same f c pos ltac:(lia) Hpos) as [ps Hps].
    assert (res = take (Z.to_nat (next_of c ps)) c ++ segments f r c ps) as Er by (by apply findreplace_segments; [lia|..]).
    pose proof (found_spaced _ _ _ _ _ Hps ltac:(lia)) as Hsp. pose proof (spaced_next f c pos ps ltac:(lia) Hsp) as Hnx.
    apply M_returns_bind. eapply returns_mono.
    { apply (replace_grow_ok instr same Hin h2 b s B buf W2 xf sxf Xxf oxf bxf f Rxf2 HXf Hxfb xr sxr Xxr oxr bxr r Rxr HXr ltac:(lia) (S (Z.to_nat (slen s))) pos ps OK2 Hsmall Hps Hpc ltac:(lia)).
      - fold c. rewrite Er, zlen_app, zlen_take, (zlen_segments f r c pos ps) in Hmax by (done || lia). lia.
      - fold c. rewrite length_drop. unfold zlen in *. lia. }
    intros [ret h3] He. fold c in He. rewrite <-Er in He. by apply Hdone.
Qed.

Lemma binstr_finds : finds binstr Z.eqb.
Proof. unfold finds. apply binstr_first. Qed.

(** C9. [bfindreplace] replaces the occurrences of a string from a position on, taken from
    the left and not overlapping, whether the string shrinks, stays or grows, and also
    with operands that lie in the part of the string that changes: only the string's
    header and block are touched and no copy is left behind; BSTR_ERR means that an
    allocation has failed, and then nothing has changed. The buffer has at most
    INT_MAX / 16 bytes: the sizes of a larger one, and of the array of indices, may not
    be an int. *)
Theorem bfindreplace_correct h b s B buf find sf Xf osf bf f repl sr Xr osr br r pos :
  heap_ok h → writable h b s B buf → terminated s buf →
  readable h find sf Xf osf bf f → readable h repl sr Xr osr br r →
  0 < zlen f < INT_MAX → zlen r < INT_MAX → 0 ≤ pos →
  (Xf = B → pos - zlen f < osf < slen s) → (Xr = B → pos - zlen r < osr < slen s) →
  16 * mlen s ≤ INT_MAX → zlen (findreplace Z.eqb f r pos (content s buf)) < INT_MAX →
  returns (bfindreplace b find repl pos h) (edited h b B (findreplace Z.eqb f r pos (content s buf))).
Proof. intros. by eapply findreplaceengine_ok; [apply binstr_finds|..]. Qed.

(** The same without regard to the case of letters. *)
Theorem bfindreplacecaseless_correct h b s B buf find sf Xf osf bf f repl sr Xr osr br r pos :
  heap_ok h → writable h b s B buf → terminated s buf →
  readable h find sf Xf osf bf f → readable h repl sr Xr osr br r →
  0 < zlen f < INT_MAX → zlen r < INT_MAX → 0 ≤ pos →
  (Xf = B → pos - zlen f < osf < slen s) → (Xr = B → pos - zlen r < osr < slen s) →
  16 * mlen s ≤ INT_MAX → zlen (findreplace same_caseless f r pos (content s buf)) < INT_MAX →
  returns (bfindreplacecaseless b find repl pos h) (edited h b B (findreplace same_caseless f r pos (content s buf))).
Proof. intros. by eapply findreplaceengine_ok; [unfold finds; apply binstrcaseless_correct|..]. Qed.

(** The test for operands in the string's own buffer leaves out those that end before the
    position; when the string grows, its buffer moves, and such a replacement is read from
    the block that has been given back. *)
Definition prefix_heap : bheap :=
  mkHeap {[1 := mkB 5 4 (Some (10, 0)); 2 := mkB 2 1 (Some (11, 0)); 3 := mkB (-1) 2 (Some (10, 0))]}
    {[10 := [97; 98; 120; 120; 0]; 11 := [120; 0]]} 12 [] 0.

Theorem prefix_replacement_reads_freed : bfindreplace 1 2 3 2 prefix_heap = Undef.
Proof. vm_compute. reflexivity. Qed.

(** * Witnesses *)

Definition edit_heap : bheap :=
  mkHeap {[1 := mkB 8 5 (Some (10, 0)); 2 := mkB (-1) 1 (Some (10, 3)); 3 := mkB 4 3 (Some (11, 0))]}
    {[10 := [97; 98; 44; 97; 98; 0; 9; 9]; 11 := [120; 121; 122; 0]]} 12 [] 0.

Lemma edit_heap_ok : heap_ok edit_heap.
Proof. split; cbn; try done; intros a Ha; rewrite !lookup_insert_ne, lookup_singleton_ne by lia; done. Qed.

Lemma bfindreplace_correct_witness :
  returns (bfindreplace 1 2 3 0 edit_heap) (edited edit_heap 1 10 [120; 121; 122; 98; 44; 120; 121; 122; 98]).
Proof.
  apply (bfindreplace_correct edit_heap 1 (mkB 8 5 (Some (10, 0))) 10 [97; 98; 44; 97; 98; 0; 9; 9]
    2 (mkB (-1) 1 (Some (10, 3))) 10 3 [97; 98; 44; 97; 98; 0; 9; 9] [97] 3 (mkB 4 3 (Some (11, 0))) 11 0 [120; 121; 122; 0] [120; 121; 122] 0);
    [apply edit_heap_ok|by split|by split|by split|by split|..]; try (vm_compute; split; congruence); try (vm_compute; congruence).
Defined.
