(* ===== verification/BstrPair.v ===== *)
(** libs/bstrlib/bstrlib.c: strings that change together, for the streams of BstrStream.v.

    Local string headers; what the operations on strings do when no allocation is going to
    fail; and steps on a heap in which two strings change and the rest does not. *)
From S2P Require Import Prelude CMemory Bstrlib BstrSearch BstrOps.

(** * Code *)

(** [b->slen = n] *)
Definition set_slen (b n : Z) : BM unit := s ← deref b; put b (mkB (mlen s) n (data s)).

(** A string header that is a local variable of the caller. *)
Definition with_local {A} (s : tagbstring) (k : Z → BM A) : BM A := λ h,
  '(r, h') ← k (next h) (Heap (<[next h := s]> (structs h)) (blocks h) (next h + 1) (outcomes h) (junk h) (oom h));
  mret (r, with_structs h' (delete (next h) (structs h'))).

(** [bconcat (r, &x)] for the local [x] with [n] characters at [d]; its [mlen] is never
    set. *)
Definition concat_local (r : Z) (d : ptr) (n : Z) : BM Z := λ h,
  with_local (mkB (junk h) n (Some d)) (bconcat r) h.

(** * When memory does not run out *)

(** [m] started when no allocation is going to fail: its result is as [P] says, and none is
    going to fail afterwards. *)
Definition lucky {A} (m : BM A) (P : A → Prop) : Prop :=
  ∀ h a h', outcomes h = [] → m h = Done (a, h') → P a ∧ outcomes h' = [].

Section luck.
Context {A B : Type}.
Implicit Types (P : A → Prop) (Q : B → Prop).

Lemma lucky_bind (m : BM A) P (f : A → BM B) Q : lucky m P → (∀ a, P a → lucky (f a) Q) → lucky (m ≫= f) Q.
Proof.
  intros Hm Hf h a h' Ho. rewrite M_bind_eq. destruct (m h) as [[x h1]| |] eqn:E; cbn; try done.
  destruct (Hm h x h1 Ho E) as [Hx H1]. by apply Hf.
Qed.

Lemma lucky_mono (m : BM A) P (P' : A → Prop) : lucky m P → (∀ a, P a → P' a) → lucky m P'.
Proof. intros Hm HP h a h' Ho E. destruct (Hm h a h' Ho E). auto. Qed.

Lemma lucky_ret (a : A) P : P a → lucky (mret a) P.
Proof. intros HP h a' h' Ho [= <- <-]. done. Qed.
End luck.

Lemma lucky_lift {A} (m : res A) : lucky (lift m) (λ _, True).
Proof. intros h a h' Ho. unfold lift. destruct m; cbn; try done. by intros [= <- <-]. Qed.

Lemma lucky_deref a : lucky (deref a : BM tagbstring) (λ _, True).
Proof. intros h s h' Ho. unfold deref. destruct (structs h !! a); [|done]. by intros [= <- <-]. Qed.

Lemma lucky_put a s : lucky (put a s) (λ _, True).
Proof. intros h u h' Ho. unfold put. destruct (structs h !! a); [|done]. by intros [= <- <-]. Qed.

Lemma lucky_load p n : lucky (load_bytes p n) (λ _, True).
Proof. intros h c h' Ho. unfold load_bytes. destruct (blocks h !! p.1); [|done]. case_if; [|done]. by intros [= <- <-]. Qed.

Lemma lucky_store p c : lucky (store_bytes p c) (λ _, True).
Proof. intros h u h' Ho. unfold store_bytes. destruct (blocks h !! p.1); [|done]. case_if; [|done]. by intros [= <- <-]. Qed.

Lemma lucky_free p : lucky (free p) (λ _, True).
Proof. intros h u h' Ho. unfold free. destruct (blocks h !! p.1); [|done]. case_if; [|done]. by intros [= <- <-]. Qed.

Lemma lucky_free_struct a : lucky (free_struct a) (λ _, True).
Proof. intros h u h' Ho. unfold free_struct. destruct (structs h !! a); [|done]. by intros [= <- <-]. Qed.

Lemma lucky_malloc n : lucky (malloc n) is_Some.
Proof. intros h x h' Ho. unfold malloc, outcome. rewrite Ho. cbn. intros [= <- <-]. by split. Qed.

Lemma lucky_realloc p n : lucky (realloc p n) is_Some.
Proof.
  intros h x h' Ho. unfold realloc, outcome. rewrite Ho. cbn. destruct (blocks h !! p.1); [|done].
  case_if; [done|]. intros [= <- <-]. by split.
Qed.

Create HintDb lucky.
#[export] Hint Resolve lucky_lift lucky_deref lucky_put lucky_load lucky_store lucky_free lucky_free_struct : lucky.

Lemma lucky_move d s n : lucky (memmove d s n) (λ _, True).
Proof. unfold memmove. case_if; [by apply lucky_ret|]. eapply lucky_bind; [eauto with lucky|]. eauto with lucky. Qed.

Lemma lucky_memcpy d s n : lucky (memcpy d s n) (λ _, True).
Proof. unfold memcpy. case_if; [done|]. apply lucky_move. Qed.

Lemma lucky_strategy d len olen : lucky (reallocStrategy d len olen) is_Some.
Proof.
  unfold reallocStrategy. eapply lucky_bind; [apply lucky_realloc|]. intros x [y ->]. apply lucky_ret. done.
Qed.

Lemma lucky_grow (b n : Z) (s : tagbstring) (r : option (ptr * Z)) : is_Some r →
  lucky (match r with
         | None => mret BSTR_ERR
         | Some (x, len) => put b (mkB len n (Some x));; write_byte (padd x n) 0;; mret BSTR_OK
         end) (λ r, r = BSTR_OK).
Proof.
  intros [[x len] ->]. eapply lucky_bind; [eauto with lucky|]. intros _ _.
  eapply lucky_bind; [apply lucky_store|]. intros _ _. by apply lucky_ret.
Qed.

Lemma lucky_balloc h b s B buf olen r h' :
  writable h b s B buf → b ≠ 0 → 0 < olen → outcomes h = [] → balloc b olen h = Done (r, h') → r = BSTR_OK ∧ outcomes h' = [].
Proof.
  intros W Hb Hlen Ho. pose proof W as [Hs Hd _ _ Hl]. unfold balloc. rewrite (proj2 (Z.eqb_neq b 0)) by done.
  rewrite M_bind_eq, (deref_ok b s) by done. cbn [mbind res_bind]. unfold with_data. rewrite Hd. unfold unwritable.
  rewrite (proj2 (Z.ltb_ge (slen s) 0)), (proj2 (Z.ltb_ge (mlen s) (slen s))), (proj2 (Z.leb_gt (mlen s) 0)),
    (proj2 (Z.leb_gt olen 0)) by lia. cbn [orb].
  match goal with |- ?m h = _ → _ => enough (lucky m (λ r, r = BSTR_OK)) as L by (by apply L) end.
  case_if; [|by apply lucky_ret]. case_if; [by apply lucky_ret|].
  do 2 (eapply lucky_bind; [apply lucky_lift|]; intros ? _).
  eapply lucky_bind; [|intros x Hx; by apply lucky_grow].
  case_if; [apply lucky_strategy|]. eapply lucky_bind; [apply lucky_malloc|]. intros x [y ->].
  eapply (lucky_bind _ (λ _, True)); [case_if; [apply lucky_memcpy|by apply lucky_ret]|]. intros _ _.
  eapply lucky_bind; [apply lucky_free|]. intros _ _. by apply lucky_ret.
Qed.

(** Growing, with what is known when memory suffices. *)
Lemma balloc_spec h b s B buf olen :
  heap_ok h → writable h b s B buf → 0 < olen ≤ INT_MAX → 8 * mlen s ≤ INT_MAX →
  returns (balloc b olen h) (λ '(r, h'),
    r = BSTR_ERR ∧ same_memory h h' ∧ outcomes h ≠ [] ∨
    r = BSTR_OK ∧ (outcomes h = [] → outcomes h' = []) ∧ ∃ s' B' buf', upd h b B h' s' B' buf' ∧ slen s' = slen s ∧
      olen ≤ mlen s' ∧ mlen s ≤ mlen s' ≤ Z.max (mlen s) (Z.max 8 (2 * olen)) ∧ content s' buf' = content s buf).
Proof.
  intros OK W Hlen Hm. pose proof (b_nonnull _ _ _ _ _ OK W) as Hb. pose proof (snapUpSize_double olen ltac:(lia)).
  destruct (returns_inv (balloc b olen h) (λ '(r, h'),
    r = BSTR_ERR ∧ same_memory h h' ∨ r = BSTR_OK ∧ ∃ s' B' buf', upd h b B h' s' B' buf' ∧ slen s' = slen s ∧
      olen ≤ mlen s' ∧ mlen s ≤ mlen s' ≤ Z.max (mlen s) (Z.max 8 (2 * olen)) ∧ content s' buf' = content s buf))
    as ([r h'] & E & D).
  - rewrite <-M_bind_ret_r. apply (step_balloc_max h b s B buf); try done.
    + intros h' [Hsame _]. by left.
    + intros h' s' B' buf' Hu E1 E2 E3 E4 E5. right. split; [done|]. exists s', B', buf'. split_and!; (done || lia).
  - rewrite E. cbn. destruct D as [(-> & Hsame)|(-> & D)].
    + left. split_and!; [done|done|]. intros Ho. by destruct (lucky_balloc _ _ _ _ _ _ _ _ W Hb (proj1 Hlen) Ho E).
    + right. split_and!; [done| |done]. intros Ho. by destruct (lucky_balloc _ _ _ _ _ _ _ _ W Hb (proj1 Hlen) Ho E).
Qed.

(** ** Appending from a block apart *)

(** What [bconcat] leaves when its operand [xs] lies in another block. *)
Definition concat_done (h : bheap) (r : Z) (sr : tagbstring) (R : Z) (bufr xs : list Z) (rh : Z * bheap) : Prop :=
  let '(ret, h') := rh in
  ret = BSTR_ERR ∧ same_memory h h' ∧ outcomes h ≠ [] ∨
  ret = BSTR_OK ∧ (outcomes h = [] → outcomes h' = []) ∧
    ∃ s' R' buf', upd h r R h' s' R' buf' ∧ grown sr (content sr bufr) xs s' buf'.

(** The copy into a buffer that is large enough. *)
Lemma bconcat_copy h r sr R bufr x sx X o bx n h1 s1 R1 buf1 :
  upd h r R h1 s1 R1 buf1 → slen s1 = slen sr → content s1 buf1 = content sr bufr → 0 ≤ slen sr → slen sr + n < mlen s1 →
  mlen sr ≤ mlen s1 ≤ Z.max (mlen sr) (2 * (slen sr + n) + 8) →
  structs h1 !! x = Some sx → data sx = Some (X, o) → slen sx = n → blocks h1 !! X = Some bx →
  0 ≤ o → 0 ≤ n → o + n ≤ zlen bx → (outcomes h = [] → outcomes h1 = []) →
  returns ((t0 ← deref r; a ← deref x;
    with_data t0 BSTR_ERR (λ d0, with_data a BSTR_ERR (λ da,
    bBlockCopy (padd d0 (slen sr)) da n;;
    write_byte (padd d0 (slen sr + n)) 0;;
    t0 ← deref r; put r (mkB (mlen t0) (slen sr + n) (data t0));;
    drop_aux x x;; mret BSTR_OK))) h1) (concat_done h r sr R bufr (zslice bx o n)).
Proof.
  intros Hu Es Ec Hs Hfit Hm Hx Hdx Hlx HX Ho Hn Hon Hluck. pose proof (u_mlen _ _ _ _ _ _ _ Hu) as Hl.
  match goal with |- returns (?m h1) _ => assert (outcomes h1 = [] → ∀ a h', m h1 = Done (a, h') → outcomes h' = []) as L end.
  { intros H1 a h' E. match type of E with ?m h1 = _ => enough (lucky m (λ _, True)) as L by (by destruct (L h1 a h' H1 E)) end.
    do 2 (eapply lucky_bind; [apply lucky_deref|]; intros ? _). unfold with_data.
    do 2 (case_match; [|by apply lucky_ret]).
    eapply (lucky_bind _ (λ _, True)); [unfold bBlockCopy; case_if; [apply lucky_move|by apply lucky_ret]|]. intros _ _.
    eapply lucky_bind; [apply lucky_store|]. intros _ _. eapply lucky_bind; [apply lucky_deref|]. intros ? _.
    eapply lucky_bind; [apply lucky_put|]. intros _ _. unfold drop_aux. rewrite Z.eqb_refl. by apply lucky_ret. }
  match goal with |- returns ?m _ => destruct (returns_inv m (λ '(ret, h'), ret = BSTR_OK ∧
    ∃ s' R' buf', upd h r R h' s' R' buf' ∧ grown sr (content sr bufr) (zslice bx o n) s' buf')) as ([ret h'] & E & -> & D) end.
  - eapply step_deref_upd; [exact Hu|]. eapply step_deref; [exact Hx|]. unfold with_data. rewrite (u_data _ _ _ _ _ _ _ Hu), Hdx.
    eapply (step_bBlockCopy h r R h1 s1 R1 buf1 _ X bx); [done|done|lia..|]. intros h2 Hu2.
    assert (zlen (zslice bx o n) = n) as Hlz by (apply zlen_zslice; lia). set (xs := zslice bx o n) in *.
    eapply step_write_byte; [exact Hu2|lia|]. intros h3 Hu3. eapply step_deref_upd; [exact Hu3|].
    eapply step_put; [exact Hu3|done|done|]. intros h4 Hu4. apply step_drop_self. cbn. split; [done|].
    eexists _, _, _. split; [exact Hu4|].
    destruct (content_append buf1 (slen sr) xs (slen sr + n)) as [E1 E2]; [lia|lia|lia|].
    unfold grown, terminated, content in *. cbn [slen mlen]. rewrite Es in Ec. rewrite E1, Ec. split_and!; (done || lia).
  - rewrite E. cbn. right. split; [done|]. split; [|done]. intros H0. by eapply (L (Hluck H0)).
Qed.

Lemma bconcat_apart h r sr R bufr x sx X o bx n :
  heap_ok h → writable h r sr R bufr → structs h !! x = Some sx → x ≠ r → data sx = Some (X, o) → slen sx = n →
  blocks h !! X = Some bx → X ≠ R → 0 ≤ o → 0 ≤ n → o + n ≤ zlen bx → slen sr + n < INT_MAX → 8 * mlen sr ≤ INT_MAX →
  returns (bconcat r x h) (concat_done h r sr R bufr (zslice bx o n)).
Proof.
  intros OK W Hx Hxr Hdx Hlx HX HXR Ho Hn Hon Hmax Hm. pose proof (b_nonnull _ _ _ _ _ OK W) as Hr. pose proof W as [Hs Hd _ _ Hl].
  assert (x ≠ 0) as Hx0 by (intros ->; rewrite (ok_null _ OK) in Hx; done).
  unfold bconcat. rewrite (proj2 (Z.eqb_neq r 0)), (proj2 (Z.eqb_neq x 0)) by done. cbn [orb].
  eapply step_deref; [done|]. eapply step_deref; [done|]. unfold with_data at 1 2. rewrite Hd, Hdx.
  eapply step_lift; [apply cint_ok; int_lia|]. rewrite Hlx. eapply step_lift; [apply cint_ok; int_lia|].
  rewrite (proj2 (Z.ltb_ge (slen sr) 0)), (proj2 (Z.ltb_ge (mlen sr - slen sr) 0)), (proj2 (Z.ltb_ge n 0)),
    (proj2 (Z.ltb_ge (slen sr + n) 0)) by lia. cbn [orb].
  eapply step_lift; [apply cint_ok; int_lia|]. destruct (mlen sr <=? slen sr + n + 1) eqn:Hg; propify.
  2: { apply step_ret. rewrite (proj2 (Z.eqb_neq x 0)) by done.
    eapply (bconcat_copy h r sr R bufr x sx X o bx n h sr R bufr); try done; [by apply upd_refl|lia..]. }
  apply step_assoc. unfold points_into. cbn [fst snd]. rewrite (proj2 (Z.eqb_neq X R)) by done. cbn [andb].
  apply step_ret. rewrite (proj2 (Z.eqb_neq x 0)) by done. apply step_assoc. apply M_returns_bind.
  eapply returns_mono; [apply (balloc_spec h r sr R bufr); [done|done|int_lia|done]|].
  intros [ret h1] D. cbn beta iota in D. destruct D as [(-> & Hsame & Ho1)|(-> & Hluck & s1 & R1 & buf1 & Hu & E1 & E2 & E3 & E4)].
  - cbn [Z.eqb negb BSTR_ERR BSTR_OK]. apply step_assoc, step_drop_self, step_ret. cbn. left. by split_and!.
  - cbn [Z.eqb negb BSTR_OK]. apply step_ret. rewrite (proj2 (Z.eqb_neq x 0)) by done.
    destruct (upd_frame _ _ _ _ _ _ _ Hu) as [Hf1 Hf2].
    eapply (bconcat_copy h r sr R bufr x sx X o bx n h1 s1 R1 buf1); try done; [lia..|by rewrite Hf1|by apply Hf2].
Qed.

Lemma heap_ok_local (h : bheap) s : heap_ok h → heap_ok (Heap (<[next h := s]> (structs h)) (blocks h) (next h + 1) (outcomes h) (junk h) (oom h)).
Proof.
  intros [Hn Hs Hb H0]. split; cbn; [lia| |intros; apply Hb; lia|by rewrite lookup_insert_ne by lia].
  intros a Ha. rewrite lookup_insert_ne by lia. apply Hs. lia.
Qed.

Lemma concat_local_spec h r sr R bufr X o bx n :
  heap_ok h → writable h r sr R bufr → blocks h !! X = Some bx → X ≠ R → 0 ≤ o → 0 ≤ n → o + n ≤ zlen bx →
  slen sr + n < INT_MAX → 8 * mlen sr ≤ INT_MAX →
  returns (concat_local r (X, o) n h) (concat_done h r sr R bufr (zslice bx o n)).
Proof.
  intros OK W HX HXR Ho Hn Hon Hmax Hm. unfold concat_local, with_local.
  set (x := next h). set (sx := mkB (junk h) n (Some (X, o))). set (hl := Heap _ _ _ _ _ _).
  destruct (heap_ok_fresh h OK) as [Hfx _]. fold x in Hfx. assert (x ≠ r) as Hxr by (destruct W; congruence).
  apply returns_bind. eapply returns_mono; [apply (bconcat_apart hl r sr R bufr x sx X o bx n); try done|].
  - by apply heap_ok_local.
  - destruct W. split; try done. cbn. by rewrite lookup_insert_ne.
  - apply lookup_insert_eq.
  - intros [ret h1] D. cbn beta iota in D. cbn.
    assert (∀ s, s = structs h → structs h1 = <[x:=sx]> s → delete x (structs h1) = structs h) as Hdel.
    { intros s -> ->. by rewrite delete_insert_id. }
    destruct D as [(-> & (Es & Eb & OK1) & Ho1)|(-> & Hluck & s1 & R1 & buf1 & Hu & Hg)].
    + left. split; [done|]. split; [|done]. split; [by apply (Hdel (structs h))|]. split; [done|].
      apply heap_ok_smaller; [done|]. set_solver.
    + right. split; [done|]. split; [done|]. exists s1, R1, buf1. split; [|done].
      destruct Hu as [Es Eb Hd Hl Hf OK1]. split; cbn; try done.
      * rewrite Es. cbn. rewrite delete_insert_ne by done. by rewrite delete_insert_id.
      * apply heap_ok_smaller; [done|]. set_solver.
Qed.

(** * Two strings that change *)

(** The heap holds the strings [b] and [r] in blocks of their own, next to the objects
    [fs] and the blocks [fb]; if [luck] holds, no allocation is going to fail. *)
Record two (luck : Prop) (fs : gmap Z tagbstring) (fb : gmap Z (list Z)) (b r : Z)
    (h : bheap) (sb : tagbstring) (B : Z) (bufb : list Z) (sr : tagbstring) (R : Z) (bufr : list Z) : Prop := {
  t_structs : structs h = <[b:=sb]> (<[r:=sr]> fs);
  t_blocks : blocks h = <[B:=bufb]> (<[R:=bufr]> fb);
  t_names : b ≠ r ∧ fs !! b = None ∧ fs !! r = None;
  t_apart : B ≠ R ∧ fb !! B = None ∧ fb !! R = None;
  t_b : data sb = Some (B, 0) ∧ zlen bufb = mlen sb ∧ 0 ≤ slen sb < mlen sb;
  t_r : data sr = Some (R, 0) ∧ zlen bufr = mlen sr ∧ 0 ≤ slen sr < mlen sr;
  t_luck : luck → outcomes h = [];
  t_ok : heap_ok h }.

Lemma two_swap luck fs fb b r h sb B bufb sr R bufr :
  two luck fs fb b r h sb B bufb sr R bufr → two luck fs fb r b h sr R bufr sb B bufb.
Proof.
  intros [Es Eb (? & ? & ?) (? & ? & ?) ? ? ? ?].
  split; try done; [by rewrite insert_insert_ne|by rewrite insert_insert_ne].
Qed.

Lemma heap_ok_put (h : bheap) a s : heap_ok h → is_Some (structs h !! a) → heap_ok (with_structs h (<[a:=s]> (structs h))).
Proof.
  intros OK [x Hx]. apply heap_ok_smaller; [done|]. rewrite dom_insert_lookup_L by done. done.
Qed.

Section first.
Context {A : Type} (luck : Prop) (fs : gmap Z tagbstring) (fb : gmap Z (list Z)) (b r : Z).
Implicit Types (Q : A * bheap → Prop).
#[local] Abbreviation two := (two luck fs fb b r).

Lemma two_writable h sb B bufb sr R bufr : two h sb B bufb sr R bufr → writable h b sb B bufb.
Proof. intros [Es Eb _ _ (? & ? & ?) _ _ _]. split; try done; [rewrite Es|rewrite Eb]; apply lookup_insert_eq. Qed.

Lemma two_upd h sb B bufb sr R bufr h' s' B' buf' :
  two h sb B bufb sr R bufr → upd h b B h' s' B' buf' → 0 ≤ slen s' < mlen s' → (outcomes h = [] → outcomes h' = []) →
  two h' s' B' buf' sr R bufr.
Proof.
  intros [Es Eb (? & ? & ?) (HBR & HB & HR) ? ? Hl ?] [Es' Eb' Hd' Hm' Hf OK'] Hs Hluck.
  assert (delete B (blocks h) = <[R:=bufr]> fb) as Ed.
  { rewrite Eb. rewrite delete_insert_eq, delete_insert_ne by done. by rewrite (delete_id fb). }
  assert (B' ≠ R ∧ fb !! B' = None) as [HN1 HN2].
  { destruct Hf as [->|Hf]; [done|]. rewrite Eb in Hf. apply lookup_insert_None in Hf as [Hf _].
    apply lookup_insert_None in Hf as [? ?]. done. }
  split; try done; [by rewrite Es', Es, insert_insert_eq|by rewrite Eb', Ed|auto].
Qed.

Lemma two_deref h sb B bufb sr R bufr (k : tagbstring → BM A) Q :
  two h sb B bufb sr R bufr → returns (k sb h) Q → returns ((deref b ≫= k) h) Q.
Proof. intros T. apply two_writable in T as [? _ _ _ _]. by apply step_deref. Qed.

Lemma two_put h sb B bufb sr R bufr n (k : unit → BM A) Q :
  two h sb B bufb sr R bufr → 0 ≤ n < mlen sb →
  (∀ h', two h' (mkB (mlen sb) n (data sb)) B bufb sr R bufr → returns (k tt h') Q) →
  returns ((put b (mkB (mlen sb) n (data sb)) ≫= k) h) Q.
Proof.
  intros T Hn Hk. rewrite M_bind_eq. pose proof (two_writable _ _ _ _ _ _ _ T) as [Hs _ _ _ _].
  rewrite (put_ok b sb) by done. cbn [mbind res_bind]. apply Hk.
  destruct T as [Es Eb ? ? (? & ? & ?) ? ? ?]. split; cbn; try done; [by rewrite Es, insert_insert_eq|].
  apply heap_ok_put; [done|]. by exists sb.
Qed.

Lemma two_set h sb B bufb sr R bufr n (k : unit → BM A) Q :
  two h sb B bufb sr R bufr → 0 ≤ n < mlen sb →
  (∀ h', two h' (mkB (mlen sb) n (data sb)) B bufb sr R bufr → returns (k tt h') Q) → returns ((set_slen b n ≫= k) h) Q.
Proof.
  intros T Hn Hk. unfold set_slen. apply step_assoc. eapply two_deref; [exact T|]. by eapply two_put.
Qed.

Lemma two_store h sb B bufb sr R bufr i xs (k : unit → BM A) Q :
  two h sb B bufb sr R bufr → 0 ≤ i → i + zlen xs ≤ mlen sb →
  (∀ h', two h' sb B (zwrite bufb i xs) sr R bufr → returns (k tt h') Q) → returns ((store_bytes (padd (B, 0) i) xs ≫= k) h) Q.
Proof.
  intros T Hi Hl Hk. pose proof T as [Es Eb ? ? (? & ? & ?) ? ? ?]. rewrite M_bind_eq. unfold padd. cbn [fst snd].
  assert (blocks h !! B = Some bufb) as HB by (rewrite Eb; apply lookup_insert_eq).
  rewrite (store_bytes_ok _ _ bufb) by (cbn; done || lia). cbn [fst snd]. rewrite Z.add_0_l. cbn [mbind res_bind]. apply Hk.
  split; cbn; try done; [by rewrite Eb, insert_insert_eq| |by apply heap_ok_with_blocks; [|exists bufb]].
  rewrite zlen_zwrite by lia. done.
Qed.

Lemma two_balloc h sb B bufb sr R bufr n (k : Z → BM A) Q :
  two h sb B bufb sr R bufr → 0 < n ≤ INT_MAX → 8 * mlen sb ≤ INT_MAX →
  (∀ h', ¬ luck → two h' sb B bufb sr R bufr → returns (k BSTR_ERR h') Q) →
  (∀ h' s' B' buf', two h' s' B' buf' sr R bufr → slen s' = slen sb → n ≤ mlen s' →
     mlen sb ≤ mlen s' ≤ Z.max (mlen sb) (Z.max 8 (2 * n)) → content s' buf' = content sb bufb → returns (k BSTR_OK h') Q) →
  returns ((balloc b n ≫= k) h) Q.
Proof.
  intros T Hn Hm Hfail Hok. pose proof (two_writable _ _ _ _ _ _ _ T) as W. apply M_returns_bind.
  eapply returns_mono; [apply (balloc_spec h b sb B bufb n); [apply T|done..]|]. intros [ret h'] D. cbn beta iota in D.
  destruct D as [(-> & (Es & Eb & OK') & Ho)|(-> & Hluck & s' & B' & buf' & Hu & E1 & E2 & E3 & E4)].
  - apply Hfail; [intros HL; by apply Ho, T|]. destruct T as [? ? ? ? ? ? HL ?]. split; try done; try congruence.
    intros H. by destruct Ho; apply HL.
  - destruct W. eapply (Hok h' s' B' buf'); try done. eapply two_upd; [done..|lia|done].
Qed.

(** Appending to the first string from the second one's block or from the others'. *)
Lemma two_concat h sb B bufb sr R bufr X o bx n (k : Z → BM A) Q :
  two h sb B bufb sr R bufr → blocks h !! X = Some bx → X ≠ B → 0 ≤ o → 0 ≤ n → o + n ≤ zlen bx →
  slen sb + n < INT_MAX → 8 * mlen sb ≤ INT_MAX →
  (∀ h', ¬ luck → two h' sb B bufb sr R bufr → returns (k BSTR_ERR h') Q) →
  (∀ h' s' B' buf', two h' s' B' buf' sr R bufr → grown sb (content sb bufb) (zslice bx o n) s' buf' → returns (k BSTR_OK h') Q) →
  returns ((concat_local b (X, o) n ≫= k) h) Q.
Proof.
  intros T HX HXB Ho Hn Hon Hmax Hm Hfail Hok. pose proof (two_writable _ _ _ _ _ _ _ T) as W. apply M_returns_bind.
  eapply returns_mono; [apply (concat_local_spec h b sb B bufb X o bx n); try done; apply T|]. intros [ret h'] D. cbn beta iota in D.
  destruct D as [(-> & (Es & Eb & OK') & Ho')|(-> & Hluck & s' & B' & buf' & Hu & Hg)].
  - apply Hfail; [intros HL; by apply Ho', T|]. destruct T as [? ? ? ? ? ? HL ?]. split; try done; try congruence.
    intros H. by destruct Ho'; apply HL.
  - eapply (Hok h' s' B' buf'); [|done]. eapply two_upd; [done..| |done]. destruct Hg as ((? & _) & _). lia.
Qed.

Lemma two_block h sb B bufb sr R bufr : two h sb B bufb sr R bufr → blocks h !! B = Some bufb.
Proof. intros T. by apply two_writable in T as []. Qed.

(** Moving bytes into the first string. *)
Lemma two_move h sb B bufb sr R bufr i X bx o n (k : unit → BM A) Q :
  two h sb B bufb sr R bufr → blocks h !! X = Some bx → 0 ≤ i → 0 ≤ n → i + n ≤ mlen sb → 0 ≤ o → o + n ≤ zlen bx →
  (∀ h', two h' sb B (zwrite bufb i (zslice bx o n)) sr R bufr → returns (k tt h') Q) →
  returns ((memmove (padd (B, 0) i) (X, o) n ≫= k) h) Q.
Proof.
  intros T HX Hi Hn Hin Ho Hon Hk. unfold memmove. case_if.
  - apply step_ret, Hk. subst n. unfold zslice. change (Z.to_nat 0) with O. by rewrite take_0, zwrite_nil.
  - apply step_assoc. rewrite M_bind_eq, (load_bytes_ok _ _ bx) by done. cbn [mbind res_bind].
    cbn [snd]. eapply two_store; [exact T|done| |done]. rewrite zlen_zslice by lia. done.
Qed.

(** Deleting at the front of the first string. *)
Lemma two_delete h sb B bufb sr R bufr n (k : Z → BM A) Q :
  two h sb B bufb sr R bufr → 0 < n ≤ slen sb → slen sb ≤ INT_MAX →
  (∀ h' s' buf', two h' s' B buf' sr R bufr → mlen s' = mlen sb → slen s' = slen sb - n →
     content s' buf' = drop (Z.to_nat n) (content sb bufb) → returns (k BSTR_OK h') Q) →
  returns ((bdelete b 0 n ≫= k) h) Q.
Proof.
  intros T Hn Hmax Hk. pose proof (two_writable _ _ _ _ _ _ _ T) as W. pose proof (t_ok _ _ _ _ _ _ _ _ _ _ _ _ T) as OK.
  destruct (t_b _ _ _ _ _ _ _ _ _ _ _ _ T) as (Hd & Hm & Hl). pose proof (b_nonnull _ _ _ _ _ OK W) as Hb.
  unfold bdelete. apply step_assoc, step_ret. cbn [Z.ltb Z.compare]. rewrite (proj2 (Z.ltb_ge n 0)), (proj2 (Z.eqb_neq b 0)) by (done || lia).
  cbn [orb]. apply step_assoc. eapply two_deref; [exact T|]. unfold with_data. rewrite Hd. unfold unwritable.
  rewrite (proj2 (Z.ltb_ge (slen sb) 0)), (proj2 (Z.ltb_ge (mlen sb) (slen sb))), (proj2 (Z.leb_gt (mlen sb) 0)),
    (proj2 (Z.ltb_lt 0 n)), (proj2 (Z.ltb_lt 0 (slen sb))) by lia. cbn [orb andb].
  apply step_assoc. eapply step_lift; [apply cint_ok; int_lia|].
  assert (∀ h' xs m, two h' sb B (zwrite bufb 0 xs) sr R bufr → xs = drop (Z.to_nat n) (content sb bufb) → m = slen sb - n →
    returns (((put b (mkB (mlen sb) m (Some (B, 0)));; write_byte (padd (B, 0) m) 0;; mret BSTR_OK) ≫= k) h') Q) as Hend.
  { intros h' xs m T' Exs ->. assert (zlen xs = slen sb - n) as Hxs.
    { subst xs. pose proof (zlen_content sb bufb ltac:(lia)). rewrite zlen_drop; lia. }
    apply step_assoc. rewrite <-Hd. eapply two_put; [exact T'|lia|]. intros h2 T2. apply step_assoc.
    eapply two_store; [exact T2|lia|cbn [mlen]; change (zlen [u8 0]) with 1; lia|]. intros h3 T3. apply step_ret.
    eapply (Hk h3); [exact T3|done|done|]. subst xs. unfold content at 1. cbn [slen].
    rewrite zwrite_take by (rewrite ?zlen_zwrite; lia). rewrite zwrite_zero_app, take_app_le by (unfold zlen in Hxs; lia).
    apply take_ge. unfold zlen in Hxs. lia. }
  rewrite Z.add_0_l. apply step_assoc. destruct (slen sb <=? n) eqn:E; propify.
  - apply step_ret. apply (Hend h []); [by rewrite zwrite_nil| |lia].
    rewrite drop_ge; [done|]. pose proof (zlen_content sb bufb ltac:(lia)). unfold zlen in *. lia.
  - apply step_assoc. unfold bBlockCopy. rewrite (proj2 (Z.ltb_lt 0 (slen sb - n))) by lia.
    change (padd (B, 0) n) with (B, 0 + n). rewrite Z.add_0_l.
    eapply two_move; [exact T|by eapply two_block|lia..|]. intros h' T'. apply step_ret.
    rewrite zslice_content in T' by lia. by eapply Hend.
Qed.
End first.
