(* ===== verification/BstrStream.v ===== *)
(** libs/bstrlib/bstrlib.c, streams: reading from a source of blocks or of characters into
    strings, and [bStream], which buffers what was read too far.

    The source is a state and a function on it, the library's [bNread] or [bNgetc]
    callback with its handle. A [bStream] is a value with the address of its block, so
    that opening and closing are seen to balance; its buffer is a string of the heap. *)
From S2P Require Import Prelude CMemory Bstrlib BstrSearch BstrOps BstrPair.

(** * Code *)

Definition BS_BUFF_SZ : Z := 1024.
Definition BSSSC_BUFF_LEN : Z := 256.

(** [BSTR_ERR & -(x)] for a truth value [x]. *)
Definition err_if (x : bool) : Z := if x then BSTR_ERR else BSTR_OK.

(** ** Reading characters *)

Section getc.
Context {Σ : Type} (getcPtr : Σ → Z * Σ).

(** The loop: where it stopped and with which character, or nothing when the string
    could not grow. *)
Fixpoint gets_loop (fuel : nat) (b terminator d e : Z) (parm : Σ) : BM (option (Z * Z) * Σ) :=
  match fuel with
  | O => no_fuel
  | S fuel =>
      let '(c, parm) := getcPtr parm in
      if c <? 0 then mret (Some (d, c), parm) else
      e ← (if e <? d then
             set_slen b d;;
             d2 ← icint (d + 2);
             r ← balloc b d2;
             if negb (r =? BSTR_OK) then mret None else s ← deref b; mret (Some (mlen s - 2))
           else mret (Some e));
      match e with
      | None => mret (None, parm)
      | Some e =>
          s ← deref b;
          match data s with
          | None => undef
          | Some p =>
              write_byte (padd p d) c;;
              d ← icint (d + 1);
              if c =? schar terminator then mret (Some (d, c), parm)
              else gets_loop fuel b terminator d e parm
          end
      end
  end.

(** [bassigngets] and [bgetsa] but for where they start. *)
Definition gets_from (start : tagbstring → Z) (fuel : nat) (b : Z) (parm : Σ) (terminator : Z) : BM (Z * Σ) :=
  if b =? 0 then mret (BSTR_ERR, parm) else
  s ← deref b;
  if unwritable s then mret (BSTR_ERR, parm) else
  '(r, parm) ← gets_loop fuel b terminator (start s) (mlen s - 2) parm;
  match r with
  | None => mret (BSTR_ERR, parm)
  | Some (d, c) =>
      s ← deref b;
      match data s with
      | None => undef
      | Some p =>
          write_byte (padd p d) 0;;
          put b (mkB (mlen s) d (data s));;
          mret ((if (d =? 0) && (c <? 0) then 1 else 0), parm)
      end
  end.

Definition bassigngets : nat → Z → Σ → Z → BM (Z * Σ) := gets_from (λ _, 0).
Definition bgetsa : nat → Z → Σ → Z → BM (Z * Σ) := gets_from slen.

Definition bgets (fuel : nat) (parm : Σ) (terminator : Z) : BM (Z * Σ) :=
  buff ← bfromcstr_of [];
  '(r, parm) ← bgetsa fuel buff parm terminator;
  bad ← (if r <? 0 then mret true else s ← deref buff; mret (slen s <=? 0));
  if (bad : bool) then bdestroy buff;; mret (0, parm) else mret (buff, parm).
End getc.

(** ** Reading blocks *)

Record bStream {Σ : Type} := mkStream { self : ptr; buff : Z; parm : Σ; isEOF : Z; maxBuffSz : Z }.
Arguments bStream Σ : clear implicits.
Arguments mkStream {Σ}.

Section streams.
Context {Σ : Type} (readPtr : Σ → Z → list Z * Σ).

(** [(int) readPtr (p, 1, n, parm)]: the bytes are stored at [p] and counted. *)
Definition fetch (p : ptr) (n : Z) (parm : Σ) : BM (Z * Σ) :=
  let '(chunk, parm) := readPtr parm n in
  store_bytes p chunk;; mret (sext 32 (zlen chunk), parm).

Fixpoint breada_loop (fuel : nat) (b i n : Z) (parm : Σ) : BM (option Z * Σ) :=
  match fuel with
  | O => no_fuel
  | S fuel =>
      n1 ← icint (n + 1);
      r ← balloc b n1;
      if negb (r =? BSTR_OK) then mret (None, parm) else
      s ← deref b;
      match data s with
      | None => undef
      | Some d =>
          '(l, parm) ← fetch (padd d i) (n - i) parm;
          i ← icint (i + l);
          set_slen b i;;
          if i <? n then mret (Some i, parm) else
          n ← icint (n + (if n <? BS_BUFF_SZ then n else BS_BUFF_SZ));
          breada_loop fuel b i n parm
      end
  end.

Definition breada (fuel : nat) (b : Z) (parm : Σ) : BM (Z * Σ) :=
  if b =? 0 then mret (BSTR_ERR, parm) else
  s ← deref b;
  if unwritable s then mret (BSTR_ERR, parm) else
  n ← icint (slen s + 16);
  '(r, parm) ← breada_loop fuel b (slen s) n parm;
  match r with
  | None => mret (BSTR_ERR, parm)
  | Some i =>
      s ← deref b;
      match data s with
      | None => undef
      | Some d => write_byte (padd d i) 0;; mret (BSTR_OK, parm)
      end
  end.

Definition bread (fuel : nat) (parm : Σ) : BM (Z * Σ) :=
  buff ← bfromcstr_of [];
  '(r, parm) ← breada fuel buff parm;
  if r <? 0 then bdestroy buff;; mret (0, parm) else mret (buff, parm).

(** ** Buffered streams *)

Implicit Types (s : bStream Σ).

Definition with_parm s (st : Σ) : bStream Σ := mkStream (self s) (buff s) st (isEOF s) (maxBuffSz s).
Definition at_EOF s : bStream Σ := mkStream (self s) (buff s) (parm s) 1 (maxBuffSz s).

(** The guard for a stream that is NULL, otherwise the operation on its fields. *)
Definition with_stream (s : option (bStream Σ)) (k : bStream Σ → BM (Z * bStream Σ)) : BM (Z * option (bStream Σ)) :=
  match s with
  | None => mret (BSTR_ERR, None)
  | Some s => '(r, s) ← k s; mret (r, Some s)
  end.

(** [sizeof (struct bStream)] is 32. The buffer may be NULL. *)
Definition bsopen (st : Σ) : BM (option (bStream Σ)) :=
  x ← malloc 32;
  match x with
  | None => mret None
  | Some x => b ← bfromcstr_of []; mret (Some (mkStream x b st 0 BS_BUFF_SZ))
  end.

Definition bsbufflength (s : option (bStream Σ)) (sz : Z) : Z * option (bStream Σ) :=
  match s with
  | None => (BSTR_ERR, None)
  | Some t =>
      if sz <? 0 then (BSTR_ERR, s)
      else (maxBuffSz t, Some (mkStream (self t) (buff t) (parm t) (isEOF t) (if 0 <? sz then sz else maxBuffSz t)))
  end.

Definition bseof (s : option (bStream Σ)) : BM Z :=
  match s with
  | None => mret BSTR_ERR
  | Some s =>
      if isEOF s =? 0 then mret 0 else
      b ← deref (buff s); mret (if slen b =? 0 then 1 else 0)
  end.

Definition bsclose (s : option (bStream Σ)) : BM (option Σ) :=
  match s with
  | None => mret None
  | Some s =>
      (if negb (buff s =? 0) then bdestroy (buff s);; mret tt else mret tt);;
      free (self s);;
      mret (Some (parm s))
  end.

(** *** Lines *)

(** The first index from [i] on whose byte passes the test; the sentinel ends the search. *)
Fixpoint find_end (fuel : nat) (test : Z → res bool) (b : ptr) (i : Z) : BM Z :=
  match fuel with
  | O => no_fuel
  | S fuel => c ← read_byte (padd b i); t ← lift (test c); if (t : bool) then mret i else find_end fuel test b (i + 1)
  end.

Section lines.
Context (test : Z → res bool) (sentinel : BM Z).

(** Blocks read straight into the result, until one has an end in it. *)
Fixpoint read_blocks (fuel : nat) (r rlo : Z) s : BM (Z * bStream Σ) :=
  match fuel with
  | O => no_fuel
  | S fuel =>
      t ← deref r;
      n ← icint (slen t + maxBuffSz s); n1 ← icint (n + 1);
      a ← balloc r n1;
      if negb (a =? BSTR_OK) then mret (BSTR_ERR, s) else
      t ← deref r;
      match data t with
      | None => undef
      | Some d =>
          let b := padd d (slen t) in
          '(l, st) ← fetch b (maxBuffSz s) (parm s);
          let s := with_parm s st in
          if l <=? 0 then
            write_byte b 0;;
            set_slen (buff s) 0;;
            mret (err_if (slen t =? rlo), at_EOF s)
          else
            x ← sentinel;
            write_byte (padd b l) x;;
            i ← find_end (S (Z.to_nat l)) test b 0;
            if i <? l then
              set_slen r (slen t + (i + 1));;
              set_slen (buff s) (l - (i + 1));;
              sb ← deref (buff s);
              match data sb with
              | None => undef
              | Some db =>
                  memcpy db (padd b (i + 1)) (l - (i + 1));;
                  write_byte (padd b (i + 1)) 0;;
                  mret (BSTR_OK, s)
              end
            else
              n ← icint (slen t + l);
              set_slen r n;;
              read_blocks fuel r rlo s
      end
  end.

(** [bsreadlna] and [bsreadlnsa] behind their guards. *)
Definition read_line (fuel : nat) (r : Z) s : BM (Z * bStream Σ) :=
  sb ← deref (buff s);
  let l := slen sb in
  n1 ← icint (maxBuffSz s + 1);
  a ← balloc (buff s) n1;
  if negb (a =? BSTR_OK) then mret (BSTR_ERR, s) else
  sb ← deref (buff s);
  match data sb with
  | None => undef
  | Some b =>
      x ← sentinel;
      write_byte (padd b l) x;;
      i ← find_end (S (Z.to_nat l)) test b 0;
      if i <? l then
        ret ← concat_local r b (i + 1);
        set_slen (buff s) l;;
        (if ret =? BSTR_OK then bdelete (buff s) 0 (i + 1);; mret tt else mret tt);;
        mret (BSTR_OK, s)
      else
        t ← deref r;
        ret ← concat_local r b l;
        if negb (ret =? BSTR_OK) then mret (BSTR_ERR, s) else read_blocks fuel r (slen t) s
  end.
End lines.

(** The guards on the result and on the stream's buffer. *)
Definition usable_result (r : Z) s : BM bool :=
  if (buff s =? 0) || (r =? 0) then mret false else t ← deref r; mret (negb (unwritable t)).

Definition bsreadlna (fuel : nat) (r : Z) (s : option (bStream Σ)) (terminator : Z) : BM (Z * option (bStream Σ)) :=
  with_stream s (λ s,
  ok ← usable_result r s;
  if negb ok then mret (BSTR_ERR, s)
  else read_line (λ c, mret (c =? u8 terminator)) (mret terminator) fuel r s).

(** [term->slen], or nothing when the string is NULL or has no data. *)
Definition term_length (term : Z) : BM (option Z) :=
  if term =? 0 then mret None else
  t ← deref term; mret (match data t with None => None | Some _ => Some (slen t) end).

Definition first_of (term : Z) : BM Z := t ← deref term; first_byte t.

Definition bsreadlnsa (fuel : nat) (r : Z) (s : option (bStream Σ)) (term : Z) : BM (Z * option (bStream Σ)) :=
  match s with
  | None => mret (BSTR_ERR, s)
  | Some t =>
      if (buff t =? 0) || (r =? 0) then mret (BSTR_ERR, s) else
      n ← term_length term;
      match n with
      | None => mret (BSTR_ERR, s)
      | Some n =>
          ok ← usable_result r t;
          if negb ok then mret (BSTR_ERR, s) else
          if n =? 1 then c ← first_of term; bsreadlna fuel r s c else
          if n <? 1 then mret (BSTR_ERR, s) else
          cf ← buildCharField term;
          match cf with
          | None => mret (BSTR_ERR, s)
          | Some cf => with_stream s (read_line (testInCharField cf) (first_of term) fuel r)
          end
      end
  end.

(** *** A number of characters *)

(** What is left in the buffer after the last read. *)
Definition end_reada (r orslen l : Z) s : BM (Z * bStream Σ) :=
  let l := if l <? 0 then 0 else l in
  set_slen (buff s) l;;
  t ← deref r;
  mret (err_if (slen t =? orslen), if l =? 0 then at_EOF s else s).

Fixpoint reada_loop (fuel : nat) (r n orslen : Z) (b : ptr) (l : Z) s : BM (Z * bStream Σ) :=
  match fuel with
  | O => no_fuel
  | S fuel =>
      t ← deref r;
      total ← icint (l + slen t);
      if n <=? total then
        let m := n - slen t in
        ret ← concat_local r b m;
        set_slen (buff s) l;;
        (if ret =? BSTR_OK then bdelete (buff s) 0 m;; mret tt else mret tt);;
        t ← deref r;
        mret (err_if (slen t =? orslen), s)
      else
        ret ← concat_local r b l;
        if negb (ret =? BSTR_OK) then end_reada r orslen l s else
        t ← deref r;
        let l := n - slen t in
        let l := if maxBuffSz s <? l then maxBuffSz s else l in
        '(l, st) ← fetch b l (parm s);
        if 0 <? l then reada_loop fuel r n orslen b l (with_parm s st)
        else end_reada r orslen l (with_parm s st)
  end.

Definition bsreada (fuel : nat) (r : Z) (s : option (bStream Σ)) (n : Z) : BM (Z * option (bStream Σ)) :=
  with_stream s (λ s,
  ok ← usable_result r s;
  if negb ok || (n <=? 0) then mret (BSTR_ERR, s) else
  t ← deref r;
  if INT_MAX - slen t <? n then mret (BSTR_ERR, s) else
  let n := n + slen t in
  let orslen := slen t in
  sb ← deref (buff s);
  let l := slen sb in
  let rest :=
    n1 ← icint (maxBuffSz s + 1);
    a ← balloc (buff s) n1;
    if negb (a =? BSTR_OK) then mret (BSTR_ERR, s) else
    sb ← deref (buff s);
    match data sb with None => undef | Some b => reada_loop fuel r n orslen b l s end in
  if l =? 0 then
    if negb (isEOF s =? 0) then mret (BSTR_ERR, s)
    else if n <? mlen t then
      match data t with
      | None => undef
      | Some d =>
          '(l, st) ← fetch (padd d (slen t)) (n - slen t) (parm s);
          let s := with_parm s st in
          if (l <=? 0) || (n - slen t <? l) then mret (BSTR_ERR, at_EOF s) else
          set_slen r (slen t + l);;
          write_byte (padd d (slen t + l)) 0;;
          mret (BSTR_OK, s)
      end
    else rest
  else rest).

(** *** The variants that replace the result *)

(** [if (BSTR_OK != balloc (s->buff, s->maxBuffSz + 1)) return BSTR_ERR; r->slen = 0;] *)
Definition clear_result (r : Z) s : BM bool :=
  n1 ← icint (maxBuffSz s + 1);
  a ← balloc (buff s) n1;
  if negb (a =? BSTR_OK) then mret false else set_slen r 0;; mret true.

(** [s == NULL || s->buff == NULL || r == NULL || r->mlen <= 0] *)
Definition no_result (r : Z) (s : option (bStream Σ)) : BM bool :=
  match s with
  | None => mret true
  | Some s => if (buff s =? 0) || (r =? 0) then mret true else t ← deref r; mret (mlen t <=? 0)
  end.

Definition replacing (r : Z) (s : option (bStream Σ)) (k : BM (Z * option (bStream Σ))) : BM (Z * option (bStream Σ)) :=
  match s with
  | None => mret (BSTR_ERR, s)
  | Some t => ok ← clear_result r t; if negb ok then mret (BSTR_ERR, s) else k
  end.

Definition bsreadln (fuel : nat) (r : Z) (s : option (bStream Σ)) (terminator : Z) : BM (Z * option (bStream Σ)) :=
  bad ← no_result r s;
  if (bad : bool) then mret (BSTR_ERR, s) else replacing r s (bsreadlna fuel r s terminator).

Definition bsreadlns (fuel : nat) (r : Z) (s : option (bStream Σ)) (term : Z) : BM (Z * option (bStream Σ)) :=
  match s with
  | None => mret (BSTR_ERR, s)
  | Some t =>
      if (buff t =? 0) || (r =? 0) then mret (BSTR_ERR, s) else
      n ← term_length term;
      match n with
      | None => mret (BSTR_ERR, s)
      | Some n =>
          bad ← no_result r s;
          if (bad : bool) then mret (BSTR_ERR, s)
          else if n =? 1 then c ← first_of term; bsreadln fuel r s c
          else if n <? 1 then mret (BSTR_ERR, s)
          else replacing r s (bsreadlnsa fuel r s term)
      end
  end.

Definition bsread (fuel : nat) (r : Z) (s : option (bStream Σ)) (n : Z) : BM (Z * option (bStream Σ)) :=
  bad ← no_result r s;
  if (bad : bool) || (n <=? 0) then mret (BSTR_ERR, s) else replacing r s (bsreada fuel r s n).

Definition bsunread (s : option (bStream Σ)) (b : Z) : BM Z :=
  match s with
  | None => mret BSTR_ERR
  | Some s => if buff s =? 0 then mret BSTR_ERR else binsert (buff s) 0 b 63
  end.

Definition bspeek (r : Z) (s : option (bStream Σ)) : BM Z :=
  match s with
  | None => mret BSTR_ERR
  | Some s => if buff s =? 0 then mret BSTR_ERR else bassign r (buff s)
  end.

(** ** Splitting a stream *)

Section callbacks.
Context {A : Type} (cb : A → option (bStream Σ) → Z → Z → BM (Z * A * option (bStream Σ))).

(** [while (bsreada (buff, s, BSSSC_BUFF_LEN) >= 0);] *)
Fixpoint read_all (fuel : nat) (buff : Z) (s : option (bStream Σ)) : BM (option (bStream Σ)) :=
  match fuel with
  | O => no_fuel
  | S fuel =>
      '(r, s) ← bsreada (S fuel) buff s BSSSC_BUFF_LEN;
      if 0 <=? r then read_all fuel buff s else mret s
  end.

(** The loop of [bssplitscb]: behind a split character what was read too far goes back
    to the stream, so that the callback finds the stream there. *)
Fixpoint splits_loop (fuel : nat) (chrs : charField) (buff i p : Z) (parm : A) (s : option (bStream Σ))
    : BM (Z * A * option (bStream Σ)) :=
  match fuel with
  | O => no_fuel
  | S fuel =>
      t ← deref buff;
      '(s, ended) ← (if slen t <=? i then
          '(_, s) ← bsreada (S fuel) buff s BSSSC_BUFF_LEN;
          t ← deref buff;
          mret (s, slen t <=? i)
        else mret (s, false));
      if (ended : bool) then
        '(ret, parm, s) ← cb parm s p buff;
        mret ((if 0 <? ret then 0 else ret), parm, s)
      else
        t ← deref buff;
        match data t with
        | None => undef
        | Some d =>
            c ← read_byte (padd d i);
            hit ← lift (testInCharField chrs c);
            if (hit : bool) then
              ret ← with_local (mkB (-1) (slen t - (i + 1)) (Some (padd d (i + 1)))) (bsunread s);
              if ret <? 0 then mret (ret, parm, s) else
              set_slen buff i;;
              write_byte (padd d i) 0;;
              '(ret, parm, s) ← cb parm s p buff;
              if ret <? 0 then mret (ret, parm, s) else
              t ← deref buff;
              match data t with
              | None => undef
              | Some d =>
                  write_byte (padd d i) c;;
                  set_slen buff 0;;
                  p ← icint (p + (i + 1));
                  splits_loop fuel chrs buff 0 p parm s
              end
            else splits_loop fuel chrs buff (i + 1) p parm s
        end
  end.

(** The guards both functions share; the length of the separator. *)
Definition split_separator (s : option (bStream Σ)) (splitStr : Z) : BM (option Z) :=
  match s with
  | None => mret None
  | Some _ => if splitStr =? 0 then mret None else t ← deref splitStr; mret (if slen t <? 0 then None else Some (slen t))
  end.

Definition bssplitscb (fuel : nat) (s : option (bStream Σ)) (splitStr : Z) (parm : A) : BM (Z * A * option (bStream Σ)) :=
  n ← split_separator s splitStr;
  match n with
  | None => mret (BSTR_ERR, parm, s)
  | Some n =>
      buff ← bfromcstr_of [];
      if buff =? 0 then mret (BSTR_ERR, parm, s) else
      '(ret, parm, s) ← (if n =? 0 then
          s ← read_all fuel buff s;
          '(ret, parm, s) ← cb parm s 0 buff;
          mret ((if 0 <? ret then 0 else ret), parm, s)
        else
          chrs ← buildCharField splitStr;
          match chrs with
          | None => undef (* the set would be read uninitialised *)
          | Some chrs => splits_loop fuel chrs buff 0 0 parm s
          end);
      bdestroy buff;;
      mret (ret, parm, s)
  end.

(** The loop for an empty separator. *)
Fixpoint blocks_loop (fuel : nat) (buff : Z) (parm : A) (s : option (bStream Σ)) : BM (Z * A * option (bStream Σ)) :=
  match fuel with
  | O => no_fuel
  | S fuel =>
      '(r, s) ← bsreada (S fuel) buff s BSSSC_BUFF_LEN;
      if r <? 0 then mret (BSTR_OK, parm, s) else
      '(ret, parm, s) ← cb parm s 0 buff;
      if ret <? 0 then bdestroy buff;; mret (ret, parm, s)
      else set_slen buff 0;; blocks_loop fuel buff parm s
  end.

(** The loop for a separator of two or more characters. *)
Fixpoint splitstr_stream_loop (fuel : nat) (splitStr buff p : Z) (parm : A) (s : option (bStream Σ))
    : BM (Z * A * option (bStream Σ)) :=
  match fuel with
  | O => no_fuel
  | S fuel =>
      ret ← binstr buff 0 splitStr;
      if 0 <=? ret then
        b ← deref buff; t ← deref splitStr;
        let i := ret + slen t in
        '(ret, parm, s) ← with_local (mkB (-1) ret (data b)) (cb parm s p);
        if ret <? 0 then mret (ret, parm, s) else
        p ← icint (p + i);
        bdelete buff 0 i;;
        splitstr_stream_loop fuel splitStr buff p parm s
      else
        '(_, s) ← bsreada (S fuel) buff s BSSSC_BUFF_LEN;
        e ← bseof s;
        if negb (e =? 0) then
          '(ret, parm, s) ← cb parm s p buff;
          mret ((if 0 <? ret then 0 else ret), parm, s)
        else splitstr_stream_loop fuel splitStr buff p parm s
  end.

(** With an empty separator the string used for reading is not destroyed at the end. *)
Definition bssplitstrcb (fuel : nat) (s : option (bStream Σ)) (splitStr : Z) (parm : A) : BM (Z * A * option (bStream Σ)) :=
  n ← split_separator s splitStr;
  match n with
  | None => mret (BSTR_ERR, parm, s)
  | Some n =>
      if n =? 1 then bssplitscb fuel s splitStr parm else
      buff ← bfromcstr_of [];
      if buff =? 0 then mret (BSTR_ERR, parm, s) else
      if n =? 0 then blocks_loop fuel buff parm s else
      '(ret, parm, s) ← splitstr_stream_loop fuel splitStr buff 0 parm s;
      bdestroy buff;;
      mret (ret, parm, s)
  end.
End callbacks.
End streams.
