(* ===== verification/BstrRead.v ===== *)
(** The streams of BstrStream.v.

    A source keeps the contract of [fread] (the class [Source]). For a stream over any source,
    what is in its buffer and what the source still has are the text to come; lines and counts
    of characters are taken off its front. Then reading characters and blocks into one string,
    and what goes wrong: for lack of memory, with separators of several characters, and with
    terminators outside ASCII. *)
From S2P Require Import Prelude CMemory Bstrlib BstrSearch BstrOps BstrPair BstrStream.

(** * Sources *)

(** The contract of [bNread], which is that of [fread]: [rest] is what is still to come;
    asked for some bytes the function returns at least one of them while there are any, and
    never more than it was asked for. *)
Class Source {Σ : Type} (readPtr : Σ → Z → list Z * Σ) (rest : Σ → list Z) : Prop := {
  source_some st n : 0 < n → rest st = (readPtr st n).1 ++ rest (readPtr st n).2;
  source_most st n : 0 < n → zlen (readPtr st n).1 ≤ n;
  source_none st n : 0 < n → (readPtr st n).1 = [] → rest st = [] }.

(** A source that also returns fewer bytes only at the end. *)
Class FullSource {Σ : Type} (readPtr : Σ → Z → list Z * Σ) (rest : Σ → list Z) : Prop := {
  full_source :: Source readPtr rest;
  source_full st n : 0 < n → zlen (readPtr st n).1 < n → rest (readPtr st n).2 = [] }.

(** A file in memory. *)
Definition read_memory (st : list Z) (n : Z) : list Z * list Z := (take (Z.to_nat n) st, drop (Z.to_nat n) st).

#[export] Instance read_memory_full : FullSource read_memory id.
Proof.
  split; [split|]; intros st n Hn; cbn.
  - by rewrite take_drop.
  - unfold zlen. rewrite length_take. lia.
  - intros E. destruct st; [done|]. destruct (Z.to_nat n) eqn:En; [lia|done].
  - intros Hl. apply drop_ge. unfold zlen in Hl. rewrite length_take in Hl. lia.
Qed.

(** A pipe that delivers the blocks its writer wrote, each in one piece when it fits. *)
Fixpoint read_pipe (st : list (list Z)) (n : Z) : list Z * list (list Z) :=
  match st with
  | [] => ([], [])
  | [] :: st => read_pipe st n
  | c :: st => if zlen c <=? n then (c, st) else (take (Z.to_nat n) c, drop (Z.to_nat n) c :: st)
  end.

#[export] Instance read_pipe_source : Source read_pipe (@concat Z).
Proof.
  split; intros st n Hn.
  - induction st as [|[|x c] st IH]; [done|exact IH|]. cbn [read_pipe]. case_if; cbn [fst snd concat]; [done|].
    by rewrite app_assoc, take_drop.
  - induction st as [|[|x c] st IH]; [cbn [read_pipe fst]; rewrite zlen_nil; lia|exact IH|]. cbn [read_pipe]. case_if; cbn [fst]; propify; [lia|].
    unfold zlen. rewrite length_take. lia.
  - induction st as [|[|x c] st IH]; [done|exact IH|]. cbn [read_pipe]. case_if; cbn [fst]; [done|].
    destruct (Z.to_nat n) eqn:En; [lia|done].
Qed.

(** * Lines *)

Section lines.
Context (P : Z → bool).

(** The characters before the first that is an end, and how many; the line with its end. *)
Fixpoint stop (c : list Z) : Z := match c with [] => 0 | y :: c => if P y then 0 else 1 + stop c end.
Fixpoint front_line (c : list Z) : list Z := match c with [] => [] | y :: c => if P y then [y] else y :: front_line c end.

Lemma stop_range c : 0 ≤ stop c ≤ zlen c.
Proof.
  induction c as [|y c IH]; [split; done|]. rewrite zlen_cons. cbn [stop].
  pose proof (zlen_nonneg c). case_match; lia.
Qed.

Lemma line_found c d : stop c < zlen c → front_line (c ++ d) = take (Z.to_nat (stop c + 1)) c.
Proof.
  induction c as [|y c IH]; [done|]. rewrite zlen_cons. cbn. case_match; [done|]. intros Hs.
  pose proof (stop_range c). replace (Z.to_nat (1 + stop c + 1)) with (S (Z.to_nat (stop c + 1))) by lia.
  cbn. f_equal. apply IH. lia.
Qed.

Lemma line_none c d : stop c = zlen c → front_line (c ++ d) = c ++ front_line d.
Proof.
  induction c as [|y c IH]; [done|]. rewrite zlen_cons. cbn. pose proof (zlen_nonneg c).
  case_match; [lia|]. intros Hs. f_equal. apply IH. lia.
Qed.

Lemma line_prefix c : ∃ d, c = front_line c ++ d.
Proof. induction c as [|y c [d IH]]; [by exists []|]. cbn. case_match; [by exists c|]. exists d. cbn. by rewrite <-IH. Qed.

Lemma line_nil c : front_line c = [] → c = [].
Proof. destruct c; [done|]. cbn. by case_match. Qed.

(** The search for the end, with the sentinel [x] behind the characters. *)
Lemma step_find_end {A} (test : Z → res bool) (h : bheap) X o buf x (k : Z → BM A) (Q : A * bheap → Prop) c : ∀ i fuel,
  blocks h !! X = Some buf →
  (∀ j, 0 ≤ j < zlen c + 1 → zget buf (o + i + j) = zget (c ++ [x]) j) →
  Forall (λ y, test y = Done (P y)) c → test x = Done true → (length c < fuel)%nat →
  returns (k (i + stop c) h) Q → returns ((find_end fuel test (X, o) i ≫= k) h) Q.
Proof.
  induction c as [|y c IH]; intros i fuel HX Hbuf Hc Hx Hfuel Hk; (destruct fuel as [|fuel]; [cbn in Hfuel; lia|]); cbn [find_end].
  - apply step_assoc. rewrite M_bind_eq. unfold read_byte, padd. cbn [fst snd]. rewrite HX.
    assert (zget buf (o + i) = Some x) as Ex.
    { replace (o + i) with (o + i + 0) by lia. rewrite Hbuf; [done|]. change (zlen (@nil Z)) with 0. lia. }
    rewrite (load_ok _ _ x) by done. cbn [mbind res_bind].
    apply step_assoc. eapply step_lift; [exact Hx|]. apply step_ret. cbn in Hk. by rewrite Z.add_0_r in Hk.
  - apply Forall_cons in Hc as [Hy Hc]. pose proof (zlen_nonneg c). rewrite zlen_cons in Hbuf.
    apply step_assoc. rewrite M_bind_eq. unfold read_byte, padd. cbn [fst snd]. rewrite HX.
    rewrite (load_ok _ _ y) by (replace (o + i) with (o + i + 0) by lia; by rewrite (Hbuf 0) by lia). cbn [mbind res_bind].
    apply step_assoc. eapply step_lift; [exact Hy|]. cbn [stop] in Hk. destruct (P y).
    + apply step_ret. by rewrite Z.add_0_r in Hk.
    + apply IH; [done| |done|done|cbn in Hfuel; lia|by replace (i + 1 + stop c) with (i + (1 + stop c)) by lia].
      intros j Hj. replace (o + (i + 1) + j) with (o + i + (j + 1)) by lia. rewrite Hbuf by lia. cbn.
      rewrite !zget_of_lookup by lia. by replace (Z.to_nat (j + 1)) with (S (Z.to_nat j)) by lia.
Qed.
End lines.

(** What is written behind the characters becomes part of them. *)
Lemma content_extend {A} (buf xs : list A) d m :
  0 ≤ d → 0 ≤ m ≤ zlen xs → d + zlen xs ≤ zlen buf →
  take (Z.to_nat (d + m)) (zwrite buf d xs) = take (Z.to_nat d) buf ++ take (Z.to_nat m) xs.
Proof.
  intros Hd Hm Hl. unfold zwrite, zlen in *. rewrite take_app, take_take, length_take.
  rewrite (take_app_le xs) by lia. f_equal; f_equal; lia.
Qed.

Lemma padd_padd p m n : padd (padd p m) n = padd p (m + n).
Proof. unfold padd. cbn. f_equal. lia. Qed.

(** * Reading from a stream *)

Section reading.
Context {Σ : Type} (readPtr : Σ → Z → list Z * Σ) (rest : Σ → list Z) `{!Source readPtr rest}.
Context (luck : Prop) (fs : gmap Z tagbstring) (fb : gmap Z (list Z)) (r : Z).
Implicit Types (s : bStream Σ).

(** What the operations leave of a stream. *)
Definition same_stream s s' : Prop :=
  self s' = self s ∧ buff s' = buff s ∧ maxBuffSz s' = maxBuffSz s ∧
  (isEOF s' = isEOF s ∨ isEOF s' = 1 ∧ rest (parm s') = []).

(** Room for [n] characters and a block more. *)
Definition stream_room s (n : Z) : Prop := 0 < maxBuffSz s ∧ 16 * (n + maxBuffSz s + 8) ≤ INT_MAX.

(** The stream [s] and the result [r] in the heap: [c] is in the result and [p] is still to
    come, first from the buffer and then from the source. If [strong], the result has its NUL
    and a stream that has seen the end has nothing left at its source. *)
Definition state (strong : Prop) s (h : bheap) (c p : list Z) : Prop :=
  ∃ sb B bufb sr R bufr, two luck fs fb (buff s) r h sb B bufb sr R bufr ∧
    content sr bufr = c ∧ content sb bufb ++ rest (parm s) = p ∧ 8 * mlen sb ≤ INT_MAX ∧ 8 * mlen sr ≤ INT_MAX ∧
    (strong → zget bufr (slen sr) = Some 0 ∧ (isEOF s ≠ 0 → rest (parm s) = [])).

(** How reading a line ends. When memory runs out either nothing was read, or what was in
    the buffer has been appended to the result but is also still in the buffer. *)
Definition line_read (P : Z → bool) s (c p : list Z) (rh : Z * bStream Σ * bheap) : Prop :=
  let '(ret, s', h') := rh in same_stream s s' ∧
  (state True s' h' (c ++ front_line P p) (drop (length (front_line P p)) p) ∧ ret = err_if (zlen (front_line P p) =? 0) ∨
   ¬ luck ∧ ∃ got p', state False s' h' (c ++ got) p' ∧
     (got = [] ∧ p' = p ∨ ret = BSTR_ERR ∧ ∃ d q p2, p = d ++ q ++ p2 ∧ got = d ++ q ∧ p' = d ++ p2)).

Section line_reading.
Context (test : Z → res bool) (sentinel : BM Z) (P : Z → bool) (b x : Z).
Context (Hsent : ∀ h sb B bufb sr R bufr, two luck fs fb b r h sb B bufb sr R bufr → sentinel h = Done (x, h)).
Context (Hx : test (u8 x) = Done true).

(** How [read_blocks] ends: with the line and what was read too far in the buffer, or
    without memory, and then nothing of the blocks is lost. *)
Definition blocks_read (rlo : Z) s (h : bheap) (sb : tagbstring) (B : Z) (bufb : list Z) (c0 c : list Z)
    (rh : Z * bStream Σ * bheap) : Prop :=
  let '(ret, s', h') := rh in same_stream s s' ∧
  ((∃ sb' bufb' sr' R' bufr', two luck fs fb b r h' sb' B bufb' sr' R' bufr' ∧ mlen sb' = mlen sb ∧
     content sr' bufr' = c0 ++ front_line P c ∧ c = front_line P c ++ content sb' bufb' ++ rest (parm s') ∧
     terminated sr' bufr' ∧ 8 * mlen sr' ≤ INT_MAX ∧ ret = err_if (zlen c0 + zlen (front_line P c) =? rlo)) ∨
   ¬ luck ∧ ret = BSTR_ERR ∧ ∃ sr' R' bufr' got, two luck fs fb b r h' sb B bufb sr' R' bufr' ∧
     content sr' bufr' = c0 ++ got ∧ c = got ++ rest (parm s') ∧ 8 * mlen sr' ≤ INT_MAX).

(** The end of the line is in the block just read: what is behind it goes to the buffer. *)
Lemma push_back_ok rlo s s' h h2 sb B bufb sr R buf chunk c0 c :
  two luck fs fb b r h2 sb B bufb sr R (zwrite buf (slen sr) (chunk ++ [u8 x])) → buff s = b → buff s' = b → same_stream s s' →
  zlen chunk < mlen sb → zlen buf = mlen sr → slen sr + zlen chunk < mlen sr → content sr buf = c0 → 8 * mlen sr ≤ INT_MAX →
  c = chunk ++ rest (parm s') → stop P chunk < zlen chunk → rlo ≤ slen sr →
  returns ((set_slen r (slen sr + (stop P chunk + 1));;
    set_slen (buff s') (zlen chunk - (stop P chunk + 1));;
    t ← deref (buff s');
    match data t with
    | None => undef
    | Some db =>
        memcpy db (padd (padd (R, 0) (slen sr)) (stop P chunk + 1)) (zlen chunk - (stop P chunk + 1));;
        write_byte (padd (padd (R, 0) (slen sr)) (stop P chunk + 1)) 0;;
        mret (BSTR_OK, s')
    end) h2) (blocks_read rlo s h sb B bufb c0 c).
Proof using All.
  intros T Hb Hb' Hss Hbig Hlb Hfit Ec0 Hsm Hc Hstop Hlo. pose proof (stop_range P chunk) as Hr. set (m := stop P chunk + 1) in *.
  pose proof (t_b _ _ _ _ _ _ _ _ _ _ _ _ T) as (Hdb & Hmb & Hsb). pose proof (t_r _ _ _ _ _ _ _ _ _ _ _ _ T) as (Hdr & Hmr & Hsr).
  assert (zlen (chunk ++ [u8 x]) = zlen chunk + 1) as Hlx by (by rewrite zlen_app).
  eapply two_set; [by apply two_swap|lia|]. intros h3 T3. rewrite Hb'. eapply two_set; [by apply two_swap|lia|]. intros h4 T4.
  eapply two_deref; [exact T4|]. cbn [data]. rewrite Hdb. rewrite !padd_padd. unfold memcpy. cbn [fst snd padd].
  pose proof (t_apart _ _ _ _ _ _ _ _ _ _ _ _ T) as (HBR & _ & _). rewrite (proj2 (Z.eqb_neq B R)) by done. cbn [andb].
  change (memmove (B, 0) (padd (R, 0) (slen sr + m))) with (memmove (H := tagbstring) (padd (B, 0) 0) (R, 0 + (slen sr + m))). rewrite Z.add_0_l.
  assert (blocks h4 !! R = Some (zwrite buf (slen sr) (chunk ++ [u8 x]))) as HR4 by (eapply two_block, two_swap, T4).
  assert (zslice (zwrite buf (slen sr) (chunk ++ [u8 x])) (slen sr + m) (zlen chunk - m) = drop (Z.to_nat m) chunk) as Eback.
  { apply zlist_eq; [rewrite zlen_zslice, zlen_drop by (rewrite ?zlen_zwrite; lia); lia|].
    intros i. rewrite zlen_zslice by (rewrite ?zlen_zwrite; lia). intros Hi.
    rewrite zget_zslice, zget_drop by lia. rewrite <-Z.add_assoc, zget_zwrite_in by lia. apply zget_app_l. lia. }
  eapply two_move; [exact T4|exact HR4|cbn [mlen]; lia..|]. rewrite Eback. intros h5 T5.
  eapply two_store; [by apply two_swap|lia|cbn [mlen]; change (zlen [u8 0]) with 1; lia|]. intros h6 T6. apply two_swap in T6.
  cbn. split; [done|]. left. eexists _, _, _, _, _. split; [exact T6|]. cbn [mlen].
  assert (front_line P c = take (Z.to_nat m) chunk) as El by (rewrite Hc; by apply line_found).
  assert (zlen (front_line P c) = m) as Ell by (rewrite El, zlen_take; lia).
  split_and!; [done| | |split; cbn [slen mlen]; [lia|]|done|].
  - unfold content at 1. cbn [slen]. rewrite zwrite_take by (rewrite ?zlen_zwrite; lia).
    rewrite content_extend by lia. rewrite El, take_app_le by (unfold zlen in *; lia). by rewrite <-Ec0.
  - unfold content. cbn [slen]. rewrite zwrite_zero_app, take_app_le by (rewrite length_drop; unfold zlen in *; lia).
    rewrite (take_ge (drop _ chunk)) by (rewrite length_drop; unfold zlen in *; lia). rewrite El, app_assoc, take_drop. done.
  - apply zget_zwrite_one. rewrite zlen_zwrite by lia. lia.
  - assert (zlen c0 = slen sr) as -> by (subst c0; apply zlen_content; lia). rewrite Ell.
    unfold err_if. by rewrite (proj2 (Z.eqb_neq _ _)) by lia.
Qed.

Lemma read_blocks_ok fuel : ∀ rlo s h sb B bufb sr R bufr c,
  two luck fs fb b r h sb B bufb sr R bufr → buff s = b → maxBuffSz s < mlen sb → 8 * mlen sr ≤ INT_MAX →
  rest (parm s) = c → stream_room s (slen sr + zlen c) → Forall (λ y, test y = Done (P y)) c →
  (length c < fuel)%nat → rlo ≤ slen sr →
  returns (read_blocks readPtr test sentinel fuel r rlo s h) (blocks_read rlo s h sb B bufb (content sr bufr) c).
Proof using All.
  induction fuel as [|fuel IH]; intros rlo s h sb B bufb sr R bufr c T Hb Hbig Hsm Hc [Hmx Hroom] Htest Hfuel Hlo; [lia|].
  cbn [read_blocks]. pose proof (two_swap _ _ _ _ _ _ _ _ _ _ _ _ T) as T0. destruct (t_r _ _ _ _ _ _ _ _ _ _ _ _ T) as (Hd & Hm & Hl).
  pose proof (zlen_nonneg c). eapply two_deref; [exact T0|]. eapply step_lift; [apply cint_ok; int_lia|].
  eapply step_lift; [apply cint_ok; int_lia|]. eapply two_balloc; [exact T0|int_lia|done|..].
  { intros h' Hno T'. cbn. split; [by split_and!; [..|left]|]. right. split_and!; [done|done|].
    exists sr, R, bufr, []. split; [by apply two_swap|]. by rewrite app_nil_r. }
  intros h1 sr1 R1 buf1 T1 Es Hn Hm1 Ec. cbn [Z.eqb negb BSTR_OK]. eapply two_deref; [exact T1|].
  destruct (t_b _ _ _ _ _ _ _ _ _ _ _ _ T1) as (Hd1 & Hl1 & Hs1). rewrite Hd1. unfold fetch.
  pose proof (source_some (parm s) (maxBuffSz s) Hmx) as Hsome. pose proof (source_most (parm s) (maxBuffSz s) Hmx) as Hmost.
  pose proof (source_none (parm s) (maxBuffSz s) Hmx) as Hnone.
  destruct (readPtr (parm s) (maxBuffSz s)) as [chunk st]. cbn [fst snd] in *. pose proof (zlen_nonneg chunk).
  rewrite Hc in Hsome. rewrite Es. apply step_assoc. eapply two_store; [exact T1|lia|lia|]. intros h2 T2. apply step_ret.
  rewrite sext32_id by int_lia. assert (content sr1 buf1 = content sr bufr) as <- by done.
  assert (zlen (content sr1 buf1) = slen sr) as Hlc by (rewrite zlen_content; lia).
  destruct (zlen chunk <=? 0) eqn:E0; propify.
  - (* the end of the source *)
    assert (chunk = []) as -> by (apply length_zero_iff_nil; unfold zlen in *; lia). rewrite zwrite_nil in T2.
    rewrite (Hnone eq_refl) in Hc. subst c. cbn [app] in Hsome.
    eapply two_store; [exact T2|lia|change (zlen [u8 0]) with 1; lia|]. intros h3 T3. apply two_swap in T3.
    change (buff (with_parm s st)) with (buff s). rewrite Hb.
    eapply two_set; [exact T3|lia|]. intros h4 T4. cbn. split; [by split_and!; [..|right]|]. left.
    eexists _, _, _, _, _. split; [exact T4|]. split_and!; [done| |done| |lia|].
    + rewrite app_nil_r. unfold content. by rewrite zwrite_take by lia.
    + split; [lia|]. rewrite Es. apply zget_zwrite_one. lia.
    + rewrite Hlc. change (zlen []) with 0. by rewrite Z.add_0_r.
  - rewrite (M_bind_eq sentinel), (Hsent _ _ _ _ _ _ _ (two_swap _ _ _ _ _ _ _ _ _ _ _ _ T2)). cbn [mbind res_bind].
    rewrite padd_padd. assert (zlen (chunk ++ [u8 x]) = zlen chunk + 1) as Hlx by (by rewrite zlen_app).
    eapply two_store; [exact T2|lia|change (zlen [u8 x]) with 1; lia|]. intros h3 T3.
    rewrite zwrite_app in T3 by (change (zlen [u8 x]) with 1; lia).
    assert (Forall (λ y, test y = Done (P y)) chunk) as Hchunk by (rewrite Hsome in Htest; by apply Forall_app in Htest as [? _]).
    change (padd (R1, 0) (slen sr)) with (R1, 0 + slen sr) at 1. rewrite Z.add_0_l.
    eapply (step_find_end P test h3 R1 (slen sr) _ (u8 x) _ _ chunk); [by eapply two_block| |done|done|unfold zlen; lia|].
    { intros j Hj. rewrite Z.add_0_r. apply zget_zwrite_in; lia. }
    rewrite Z.add_0_l. pose proof (stop_range P chunk). destruct (stop P chunk <? zlen chunk) eqn:Ei; propify.
    + rewrite <-Es in *. eapply (push_back_ok rlo s (with_parm s st)); [by apply two_swap|done|done|by split_and!; [..|left]|lia|lia|lia|done|lia|done|done|lia].
    + eapply step_lift; [apply cint_ok|]. { rewrite Hsome, zlen_app in Hroom. pose proof (zlen_nonneg (rest st)). int_lia. }
      eapply two_set; [exact T3|lia|]. intros h4 T4. rewrite Hsome, zlen_app in Hroom. pose proof (zlen_nonneg (rest st)).
      eapply returns_mono; [eapply (IH rlo (with_parm s st)); [apply two_swap, T4|done|done|cbn [mlen]; lia|done| | | |cbn [slen]; lia]|].
      * split; [done|]. cbn [slen maxBuffSz parm with_parm]. int_lia.
      * rewrite Hsome in Htest. by apply Forall_app in Htest as [_ ?].
      * rewrite Hsome, length_app in Hfuel. cbn [parm with_parm]. unfold zlen in *. lia.
      * assert (content (mkB (mlen sr1) (slen sr + zlen chunk) (data sr1)) (zwrite buf1 (slen sr) (chunk ++ [u8 x])) = content sr1 buf1 ++ chunk) as Ecc.
        { unfold content. cbn [slen]. rewrite content_extend by lia. rewrite Es.
          by rewrite take_app_le, (take_ge chunk) by (unfold zlen; lia). }
        assert (front_line P c = chunk ++ front_line P (rest st)) as El by (rewrite Hsome; apply line_none; lia).
        intros [[ret s'] h'] D. unfold blocks_read in D |- *. rewrite Ecc in D. destruct D as [Hss D]. split; [exact Hss|].
        destruct D as [(sb' & bufb' & sr' & R' & bufr' & D1 & D2 & D3 & D4 & D5 & D6 & D7)|(Hno & -> & sr' & R' & bufr' & got & D1 & D2 & D3 & D4)].
        -- left. exists sb', bufb', sr', R', bufr'. rewrite El, <-!app_assoc. split_and!; try done; [by rewrite D3, <-app_assoc|by rewrite Hsome, D4 at 1|].
           rewrite D7, !zlen_app. by rewrite Z.add_assoc.
        -- right. split; [done|]. split; [done|]. exists sr', R', bufr', (chunk ++ got). rewrite <-!app_assoc.
           split_and!; try done; [by rewrite D2, <-app_assoc|by rewrite Hsome, D3 at 1].
Qed.

(** A line that is all in the buffer. *)
Lemma buffered_line_ok s h sb B bufb sr R bufr c p :
  two luck fs fb b r h sb B bufb sr R bufr → buff s = b → content sr bufr = c → content sb bufb ++ rest (parm s) = p →
  8 * mlen sb ≤ INT_MAX → 8 * mlen sr ≤ INT_MAX → stream_room s (zlen c + zlen p) →
  zget bufr (slen sr) = Some 0 → (isEOF s ≠ 0 → rest (parm s) = []) → stop P (content sb bufb) < slen sb →
  returns ((ret ← concat_local r (B, 0) (stop P (content sb bufb) + 1);
    set_slen (buff s) (slen sb);;
    (if ret =? BSTR_OK then bdelete (buff s) 0 (stop P (content sb bufb) + 1);; mret tt else mret tt);;
    mret (BSTR_OK, s)) h) (line_read P s c p).
Proof using All.
  intros T Hb Hc Hp Hsb Hsr [Hmx Hroom] Hz Heof Hstop. pose proof (stop_range P (content sb bufb)). set (m := stop P (content sb bufb) + 1) in *.
  pose proof (t_b _ _ _ _ _ _ _ _ _ _ _ _ T) as (Hdb & Hmb & Hsl). pose proof (t_r _ _ _ _ _ _ _ _ _ _ _ _ T) as (Hdr & Hmr & Hsr2).
  pose proof (t_apart _ _ _ _ _ _ _ _ _ _ _ _ T) as (HBR & _ & _).
  assert (zlen c = slen sr) as Hlc by (subst c; apply zlen_content; lia).
  assert (zlen (content sb bufb) = slen sb) as Hlb by (apply zlen_content; lia).
  assert (zlen p = slen sb + zlen (rest (parm s))) as Hlp by (rewrite <-Hp, zlen_app; lia). pose proof (zlen_nonneg (rest (parm s))).
  assert (same_stream s s) as Hss by (by split_and!; [..|left]).
  assert (front_line P p = take (Z.to_nat m) (content sb bufb)) as El by (rewrite <-Hp; apply line_found; lia).
  assert (zlen (front_line P p) = m) as Ell by (rewrite El, zlen_take; lia).
  assert (zslice bufb 0 m = front_line P p) as Esl.
  { rewrite El. unfold zslice, content. change (Z.to_nat 0) with O. rewrite drop_0, take_take. f_equal. lia. }
  eapply two_concat; [apply two_swap, T|by eapply two_block|done|lia|lia|lia|int_lia|done|..].
  - intros h1 Hno T1. apply two_swap in T1. rewrite Hb. eapply two_set; [exact T1|lia|]. intros h2 T2. cbn [Z.eqb BSTR_ERR BSTR_OK].
    apply step_ret. cbn. split; [exact Hss|]. right. split; [done|]. exists [], p. split; [|by left].
    rewrite app_nil_r. exists (mkB (mlen sb) (slen sb) (data sb)), B, bufb, sr, R, bufr. rewrite Hb. by split_and!.
  - intros h1 sr1 R1 buf1 T1 ((Hsl1 & Hz1) & Ec1 & Es1 & Hm1). apply two_swap in T1. rewrite Hb. rewrite Esl in *.
    eapply two_set; [exact T1|lia|]. intros h2 T2. cbn [Z.eqb BSTR_OK]. apply step_assoc.
    eapply two_delete; [exact T2|cbn [slen]; lia|cbn [slen]; int_lia|]. intros h3 sb3 buf3 T3 E1 E2 E3. apply step_ret. cbn.
    split; [exact Hss|]. left. split; [|by rewrite (proj2 (Z.eqb_neq _ _)) by lia].
    exists sb3, B, buf3, sr1, R1, buf1. rewrite Hb. cbn [mlen] in E1. split_and!; [exact T3|by rewrite Ec1, Hc| |lia| |done].
    + rewrite E3. change (content (mkB (mlen sb) (slen sb) (data sb)) bufb) with (content sb bufb).
      replace (length (front_line P p)) with (Z.to_nat m) by (unfold zlen in *; lia).
      by rewrite <-Hp, drop_app_le by (unfold zlen in *; lia).
    + rewrite Ell in Hm1. int_lia.
Qed.

(** Nothing in the buffer ends the line: it is appended as a whole and blocks are read. *)
Lemma unbuffered_line_ok fuel s h sb B bufb sr R bufr c p :
  two luck fs fb b r h sb B bufb sr R bufr → buff s = b → content sr bufr = c → content sb bufb ++ rest (parm s) = p →
  maxBuffSz s < mlen sb → 8 * mlen sb ≤ INT_MAX → 8 * mlen sr ≤ INT_MAX → stream_room s (zlen c + zlen p) →
  zget bufr (slen sr) = Some 0 → (isEOF s ≠ 0 → rest (parm s) = []) → stop P (content sb bufb) = slen sb →
  Forall (λ y, test y = Done (P y)) p → (length p < fuel)%nat →
  returns ((t ← deref r;
    ret ← concat_local r (B, 0) (slen sb);
    if negb (ret =? BSTR_OK) then mret (BSTR_ERR, s) else read_blocks readPtr test sentinel fuel r (slen t) s) h) (line_read P s c p).
Proof using All.
  intros T Hb Hc Hp Hbig Hsb Hsr [Hmx Hroom] Hz Heof Hstop Htest Hfuel.
  pose proof (t_b _ _ _ _ _ _ _ _ _ _ _ _ T) as (Hdb & Hmb & Hsl). pose proof (t_r _ _ _ _ _ _ _ _ _ _ _ _ T) as (Hdr & Hmr & Hsr2).
  pose proof (t_apart _ _ _ _ _ _ _ _ _ _ _ _ T) as (HBR & _ & _). set (cb := content sb bufb) in *.
  assert (zlen c = slen sr) as Hlc by (subst c; apply zlen_content; lia).
  assert (zlen cb = slen sb) as Hlb by (apply zlen_content; lia).
  assert (zlen p = slen sb + zlen (rest (parm s))) as Hlp by (rewrite <-Hp, zlen_app; lia). pose proof (zlen_nonneg (rest (parm s))).
  assert (front_line P p = cb ++ front_line P (rest (parm s))) as El by (rewrite <-Hp; apply line_none; lia).
  assert (zslice bufb 0 (slen sb) = cb) as Esl by (unfold zslice; by rewrite drop_0).
  eapply two_deref; [apply two_swap, T|].
  eapply two_concat; [apply two_swap, T|by eapply two_block|done|lia|lia|lia|int_lia|done|..].
  { intros h1 Hno T1. apply two_swap in T1. cbn. split; [by split_and!; [..|left]|]. right. split; [done|]. exists [], p.
    split; [|by left]. rewrite app_nil_r. exists sb, B, bufb, sr, R, bufr. rewrite Hb. by split_and!. }
  intros h1 sr1 R1 buf1 T1 ((Hsl1 & Hz1) & Ec1 & Es1 & Hm1). apply two_swap in T1. rewrite Esl in *. cbn [Z.eqb negb BSTR_OK].
  eapply returns_mono; [eapply (read_blocks_ok fuel (slen sr) s); [exact T1|done|done|int_lia|done| | | |lia]|].
  { split; [done|]. rewrite Es1. int_lia. }
  { rewrite <-Hp in Htest. by apply Forall_app in Htest as [_ ?]. }
  { rewrite <-Hp, length_app in Hfuel. lia. }
  rewrite Ec1, Hc. intros [[ret s'] h'] [Hss D]. split; [exact Hss|]. pose proof Hss as (_ & Eb & _ & EE).
  destruct D as [(sb' & bufb' & sr' & R' & bufr' & D1 & D2 & D3 & D4 & [D5 D5'] & D6 & D7)|(Hno & -> & sr' & R' & bufr' & got & D1 & D2 & D3 & D4)].
  - left. rewrite El. split.
    + exists sb', B, bufb', sr', R', bufr'. rewrite Eb, Hb, D2. split_and!; [exact D1|by rewrite D3, app_assoc| |done|done|].
      * assert (p = (cb ++ front_line P (rest (parm s))) ++ content sb' bufb' ++ rest (parm s')) as -> by (by rewrite <-Hp, D4 at 1; rewrite <-app_assoc).
        by rewrite drop_app_length.
      * intros _. split; [done|]. destruct EE as [EE|[EE1 EE2]]; [|done]. rewrite EE. intros Hne. specialize (Heof Hne).
        rewrite Heof in D4. cbn in D4. symmetry in D4. by apply app_nil in D4 as [_ ?].
    + rewrite D7, !zlen_app. unfold err_if. replace (zlen c + zlen cb + zlen (front_line P (rest (parm s))) =? slen sr) with
        (zlen cb + zlen (front_line P (rest (parm s))) =? 0); [done|]. apply eq_true_iff_eq. rewrite !Z.eqb_eq. lia.
  - right. split; [done|]. exists (cb ++ got), (cb ++ rest (parm s')). split.
    + exists sb, B, bufb, sr', R', bufr'. rewrite Eb, Hb. split_and!; [exact D1|by rewrite D2, app_assoc|done|done|done|done].
    + right. split; [done|]. exists cb, got, (rest (parm s')). split_and!; [by rewrite <-Hp, D3|done|done].
Qed.

Lemma read_line_ok fuel s h c p :
  state True s h c p → buff s = b → stream_room s (zlen c + zlen p) → Forall (λ y, test y = Done (P y)) p → (length p < fuel)%nat →
  returns (read_line readPtr test sentinel fuel r s h) (line_read P s c p).
Proof using All.
  intros (sb & B & bufb & sr & R & bufr & T & Hc & Hp & Hsb & Hsr & Hstr) Hb Hr Htest Hfuel. destruct (Hstr I) as [Hz Heof].
  rewrite Hb in T. pose proof Hr as [Hmx Hroom]. pose proof (zlen_nonneg c). pose proof (zlen_nonneg p).
  unfold read_line. rewrite Hb. eapply two_deref; [exact T|]. eapply step_lift; [apply cint_ok; int_lia|].
  eapply two_balloc; [exact T|int_lia|done|..].
  { intros h1 Hno T1. cbn. split; [by split_and!; [..|left]|]. right. split; [done|]. exists [], p. split; [|by left].
    rewrite app_nil_r. exists sb, B, bufb, sr, R, bufr. rewrite Hb. by split_and!. }
  intros h1 sb1 B1 buf1 T1 Es Hn Hm Ec. cbn [Z.eqb negb BSTR_OK]. eapply two_deref; [exact T1|].
  destruct (t_b _ _ _ _ _ _ _ _ _ _ _ _ T1) as (Hd1 & Hl1 & Hs1). rewrite Hd1.
  rewrite (M_bind_eq sentinel), (Hsent _ _ _ _ _ _ _ T1). cbn [mbind res_bind]. rewrite <-Es.
  eapply two_store; [exact T1|lia|change (zlen [u8 x]) with 1; lia|]. intros h2 T2.
  set (buf2 := zwrite buf1 (slen sb1) [u8 x]) in *.
  assert (content sb1 buf2 = content sb bufb) as Ec2 by (rewrite <-Ec; unfold content; subst buf2; by rewrite zwrite_take by lia).
  assert (zlen (content sb1 buf2) = slen sb1) as Hl2.
  { apply zlen_content. subst buf2. rewrite zlen_zwrite by (change (zlen [u8 x]) with 1; lia). lia. }
  assert (Forall (λ y, test y = Done (P y)) (content sb1 buf2)) as Hcb.
  { rewrite Ec2. rewrite <-Hp in Htest. by apply Forall_app in Htest as [? _]. }
  pose proof (stop_range P (content sb1 buf2)).
  eapply (step_find_end P test h2 B1 0 buf2 (u8 x) _ _ (content sb1 buf2)); [by eapply two_block| |done|done|unfold zlen in *; lia|].
  { intros j Hj. rewrite Z.add_0_l. destruct (decide (j < slen sb1)).
    - rewrite zget_app_l by lia. unfold content. by rewrite zget_take by lia.
    - replace j with (slen sb1) by lia. subst buf2. rewrite zget_zwrite_one by lia. symmetry.
      replace (slen sb1) with (zlen (content sb1 (zwrite buf1 (slen sb1) [u8 x]))) at 2 by lia. apply zget_app_mid. }
  rewrite Z.add_0_l. rewrite <-Hb. destruct (_ <? slen sb1) eqn:Ei; propify.
  - eapply buffered_line_ok; try done; [by rewrite Ec2|int_lia].
  - eapply unbuffered_line_ok; try done; [by rewrite Ec2|lia|int_lia|lia].
Qed.
End line_reading.

(** *** A number of characters *)

Definition same_handle s s' : Prop := self s' = self s ∧ buff s' = buff s ∧ maxBuffSz s' = maxBuffSz s.

(** The source returns fewer bytes than it was asked for only at the end. *)
Definition reads_fully : Prop := ∀ st n, 0 < n → zlen (readPtr st n).1 < n → rest (readPtr st n).2 = [].

(** When a stream is marked as being at its end, with [p'] still to come: the source is at
    its end, or an allocation has failed while the buffer was empty. *)
Definition end_marked s s' (p' : list Z) : Prop :=
  isEOF s' = isEOF s ∨ isEOF s' = 1 ∧ (rest (parm s') = [] ∨ ¬ luck ∧ p' = rest (parm s')).

(** How reading [n] characters ends: whatever happens nothing is lost or read twice; with
    memory something is read unless the end has been reached, and from a source that reads
    fully all [n] characters, or those there are. *)
Definition chars_read s (n : Z) (c p : list Z) (rh : Z * bStream Σ * bheap) : Prop :=
  let '(ret, s', h') := rh in same_handle s s' ∧ ∃ got p', p = got ++ p' ∧ state luck s' h' (c ++ got) p' ∧
    end_marked s s' p' ∧ ret = err_if (zlen got =? 0) ∧ zlen got ≤ n ∧
    (luck → (got = [] → p = []) ∧ (reads_fully → got = take (Z.to_nat n) p)).

Section counting.
Context (b n : Z) (c p : list Z) (Hn : 0 < n) (Hmax : zlen c + n ≤ INT_MAX).

(** Where the loop stands: [acc] has been appended, the block of the buffer starts with
    [chunk], which its header does not show. *)
Record reading_state s (h : bheap) (l : Z) (chunk acc : list Z)
    (sb : tagbstring) (B : Z) (bufb : list Z) (sr : tagbstring) (R : Z) (bufr : list Z) : Prop := {
  rs_two : two luck fs fb b r h sb B bufb sr R bufr;
  rs_buff : buff s = b;
  rs_chunk : take (Z.to_nat l) bufb = chunk ∧ l = zlen chunk ∧ l < mlen sb;
  rs_size : maxBuffSz s < mlen sb ∧ 8 * mlen sb ≤ INT_MAX ∧ 8 * mlen sr ≤ INT_MAX;
  rs_result : content sr bufr = c ++ acc ∧ zget bufr (slen sr) = Some 0;
  rs_all : p = acc ++ chunk ++ rest (parm s);
  rs_room : stream_room s (zlen c + zlen p);
  rs_eof : isEOF s ≠ 0 → rest (parm s) = [] }.

Lemma end_reada_ok s s0 h l chunk acc sb B bufb sr R bufr :
  reading_state s h l chunk acc sb B bufb sr R bufr → same_handle s0 s → isEOF s = isEOF s0 → zlen acc ≤ n →
  ¬ luck ∨ l = 0 ∧ rest (parm s) = [] → returns (end_reada r (zlen c) l s h) (chars_read s0 n c p).
Proof using All.
  intros [T Hb (Ech & Hl & Hlb) (Hmx & Hsb & Hsr) [Hr Hz] Hp [Hm0 Hroom] Heof] Hh Heq Hacc Hluck. pose proof (zlen_nonneg chunk).
  pose proof (t_b _ _ _ _ _ _ _ _ _ _ _ _ T) as (Hdb & Hmb & Hsl). pose proof (t_r _ _ _ _ _ _ _ _ _ _ _ _ T) as (Hdr & Hmr & Hsr2).
  assert (slen sr = zlen c + zlen acc) as Hlr by (rewrite <-zlen_app, <-Hr; symmetry; apply zlen_content; lia).
  unfold end_reada. rewrite (proj2 (Z.ltb_ge l 0)) by lia. rewrite Hb. eapply two_set; [exact T|lia|]. intros h1 T1.
  eapply two_deref; [apply two_swap, T1|]. cbn. split; [by case_match|]. exists acc, (chunk ++ rest (parm s)).
  split_and!; [done| | |rewrite Hlr; f_equal; apply eq_true_iff_eq; rewrite !Z.eqb_eq; lia|done|].
  - exists (mkB (mlen sb) l (data sb)), B, bufb, sr, R, bufr.
    assert (buff (if l =? 0 then at_EOF s else s) = b ∧ parm (if l =? 0 then at_EOF s else s) = parm s) as [-> ->] by (by case_match).
    split_and!; try done; [unfold content; cbn [slen]; by rewrite Ech|]. intros HL. by destruct Hluck as [?|[_ E]].
  - destruct (l =? 0) eqn:E0; propify; [|left; done]. right. split; [done|]. cbn [parm at_EOF].
    destruct Hluck as [?|[_ E]]; [right|by left]. split; [done|]. assert (chunk = []) as -> by (apply length_zero_iff_nil; unfold zlen in *; lia). done.
  - intros HL. destruct Hluck as [?|[El E]]; [done|]. assert (chunk = []) as Ec by (apply length_zero_iff_nil; unfold zlen in *; lia).
    rewrite Hp, Ec, E, !app_nil_r. split; [done|]. intros _. rewrite take_ge; [done|]. unfold zlen in *. lia.
Qed.

(** The last characters come from the buffer. *)
Lemma reada_last_ok s s0 h l chunk acc sb B bufb sr R bufr m :
  reading_state s h l chunk acc sb B bufb sr R bufr → same_handle s0 s → isEOF s = isEOF s0 → m = n - zlen acc → 0 < m ≤ l →
  returns ((ret ← concat_local r (B, 0) m;
    set_slen (buff s) l;;
    (if ret =? BSTR_OK then bdelete (buff s) 0 m;; mret tt else mret tt);;
    t ← deref r;
    mret (err_if (slen t =? zlen c), s)) h) (chars_read s0 n c p).
Proof using All.
  intros [T Hb (Ech & Hl & Hlb) (Hmx & Hsb & Hsr) [Hr Hz] Hp [Hm0 Hroom] Heof] Hh Heq Em Hm.
  pose proof (t_b _ _ _ _ _ _ _ _ _ _ _ _ T) as (Hdb & Hmb & Hsl). pose proof (t_r _ _ _ _ _ _ _ _ _ _ _ _ T) as (Hdr & Hmr & Hsr2).
  pose proof (t_apart _ _ _ _ _ _ _ _ _ _ _ _ T) as (HBR & _ & _). pose proof (zlen_nonneg acc). pose proof (zlen_nonneg (rest (parm s))).
  assert (slen sr = zlen c + zlen acc) as Hlr by (rewrite <-zlen_app, <-Hr; symmetry; apply zlen_content; lia).
  assert (zlen p = zlen acc + l + zlen (rest (parm s))) as Hlp by (rewrite Hp, !zlen_app; lia). pose proof (zlen_nonneg c).
  assert (zslice bufb 0 m = take (Z.to_nat m) chunk) as Esl.
  { unfold zslice. change (Z.to_nat 0) with O. rewrite drop_0, <-Ech, take_take. f_equal. lia. }
  assert (zlen (take (Z.to_nat m) chunk) = m) as Elt by (apply zlen_take; lia).
  eapply two_concat; [apply two_swap, T|by eapply two_block|done|lia|lia|lia|int_lia|done|..].
  - intros h1 Hno T1. apply two_swap in T1. rewrite Hb. eapply two_set; [exact T1|lia|]. intros h2 T2. cbn [Z.eqb BSTR_ERR BSTR_OK].
    apply step_ret. eapply two_deref; [apply two_swap, T2|]. cbn. split; [done|]. exists acc, (chunk ++ rest (parm s)).
    split_and!; [done| |by left|rewrite Hlr; f_equal; apply eq_true_iff_eq; rewrite !Z.eqb_eq; lia|lia|done].
    exists (mkB (mlen sb) l (data sb)), B, bufb, sr, R, bufr. rewrite Hb. split_and!; try done.
    unfold content. cbn [slen]. by rewrite Ech.
  - intros h1 sr1 R1 buf1 T1 ((Hsl1 & Hz1) & Ec1 & Es1 & Hm1). apply two_swap in T1. rewrite Hb. rewrite Esl in *.
    eapply two_set; [exact T1|lia|]. intros h2 T2. cbn [Z.eqb BSTR_OK]. apply step_assoc.
    eapply two_delete; [exact T2|cbn [slen]; lia|cbn [slen]; int_lia|]. intros h3 sb3 buf3 T3 E1 E2 E3. apply step_ret.
    eapply two_deref; [apply two_swap, T3|]. cbn. split; [done|]. exists (acc ++ take (Z.to_nat m) chunk), (drop (Z.to_nat m) chunk ++ rest (parm s)).
    assert (p = (acc ++ take (Z.to_nat m) chunk) ++ drop (Z.to_nat m) chunk ++ rest (parm s)) as Ep.
    { by rewrite Hp, <-app_assoc, (app_assoc (take _ _)), take_drop. }
    rewrite zlen_app, Elt. split_and!; [done| |by left|rewrite Es1, Hlr, Elt; f_equal; apply eq_true_iff_eq; rewrite !Z.eqb_eq; lia|lia|].
    + exists sb3, B, buf3, sr1, R1, buf1. rewrite Hb. cbn [mlen] in E1. split_and!; [exact T3|by rewrite Ec1, Hr, app_assoc| |lia| |done].
      * rewrite E3. unfold content at 1. cbn [slen]. by rewrite Ech.
      * rewrite Elt in Hm1. int_lia.
    + intros _. split.
      * intros E. apply app_nil in E as [_ E]. rewrite E in Elt. change (zlen []) with 0 in Elt. lia.
      * intros _. rewrite Ep, take_app_le by (rewrite length_app; unfold zlen in *; lia).
        rewrite (take_ge (acc ++ _)); [done|]. rewrite length_app. unfold zlen in *. lia.
Qed.

Lemma reada_loop_ok fuel : ∀ s s0 h l chunk acc sb B bufb sr R bufr,
  reading_state s h l chunk acc sb B bufb sr R bufr → same_handle s0 s → isEOF s = isEOF s0 → zlen acc < n → (length (rest (parm s)) < fuel)%nat →
  returns (reada_loop readPtr fuel r (n + zlen c) (zlen c) (B, 0) l s h) (chars_read s0 n c p).
Proof using All.
  induction fuel as [|fuel IH]; intros s s0 h l chunk acc sb B bufb sr R bufr RS Hh Heq Hacc Hfuel; [lia|].
  pose proof RS as [T Hb (Ech & Hl & Hlb) (Hmx & Hsb & Hsr) [Hr Hz] Hp [Hm0 Hroom] Heof].
  pose proof (t_b _ _ _ _ _ _ _ _ _ _ _ _ T) as (Hdb & Hmb & Hsl). pose proof (t_r _ _ _ _ _ _ _ _ _ _ _ _ T) as (Hdr & Hmr & Hsr2).
  pose proof (t_apart _ _ _ _ _ _ _ _ _ _ _ _ T) as (HBR & _ & _). pose proof (zlen_nonneg acc). pose proof (zlen_nonneg (rest (parm s))).
  assert (slen sr = zlen c + zlen acc) as Hlr by (rewrite <-zlen_app, <-Hr; symmetry; apply zlen_content; lia).
  assert (zlen p = zlen acc + l + zlen (rest (parm s))) as Hlp by (rewrite Hp, !zlen_app; lia). pose proof (zlen_nonneg c). pose proof (zlen_nonneg chunk).
  cbn [reada_loop]. eapply two_deref; [apply two_swap, T|]. eapply step_lift; [apply cint_ok; int_lia|].
  replace (n + zlen c - slen sr) with (n - zlen acc) by lia.
  destruct (n + zlen c <=? l + slen sr) eqn:En; propify; [eapply reada_last_ok; done || lia|].
  assert (zslice bufb 0 l = chunk) as Esl by (unfold zslice; by rewrite drop_0).
  eapply two_concat; [apply two_swap, T|by eapply two_block|done|lia|lia|lia|int_lia|done|..].
  { intros h1 Hno T1. apply two_swap in T1. cbn [Z.eqb negb BSTR_ERR BSTR_OK].
    eapply (end_reada_ok _ _ _ _ chunk acc); [split; try done; by split_and!|done|done|lia|by left]. }
  intros h1 sr1 R1 buf1 T1 ((Hsl1 & Hz1) & Ec1 & Es1 & Hm1). rewrite Esl in *. cbn [Z.eqb negb BSTR_OK].
  eapply two_deref; [exact T1|]. apply two_swap in T1. rewrite Es1.
  set (l' := if maxBuffSz s <? n + zlen c - (slen sr + zlen chunk) then maxBuffSz s else n + zlen c - (slen sr + zlen chunk)).
  assert (0 < l' ≤ maxBuffSz s) as [Hl0 Hl1] by (subst l'; case_match; propify; lia). unfold fetch.
  pose proof (source_some (parm s) l' Hl0) as Hsome. pose proof (source_most (parm s) l' Hl0) as Hmost.
  pose proof (source_none (parm s) l' Hl0) as Hnone.
  destruct (readPtr (parm s) l') as [chunk' st]. cbn [fst snd] in *. pose proof (zlen_nonneg chunk').
  apply step_assoc. change (B, 0) with (padd (B, 0) 0) at 1. eapply two_store; [exact T1|lia|lia|]. intros h2 T2. apply step_ret.
  rewrite sext32_id by int_lia.
  assert (reading_state (with_parm s st) h2 (zlen chunk') chunk' (acc ++ chunk) sb B (zwrite bufb 0 chunk') sr1 R1 buf1) as RS2.
  { split; try done.
    - split_and!; [by apply take_zwrite|done|lia].
    - split_and!; [done|done|]. int_lia.
    - split; [by rewrite Ec1, Hr, app_assoc|done].
    - by rewrite Hp, Hsome, <-app_assoc.
    - intros Hne. specialize (Heof Hne). rewrite Hsome in Heof. by apply app_nil in Heof as [_ ?]. }
  destruct (0 <? zlen chunk') eqn:E0; propify.
  - eapply IH; [exact RS2|done|done|rewrite zlen_app; lia|]. rewrite Hsome, length_app in Hfuel. cbn [parm with_parm]. unfold zlen in *. lia.
  - assert (chunk' = []) as Ech' by (apply length_zero_iff_nil; unfold zlen in *; lia). specialize (Hnone Ech').
    eapply end_reada_ok; [exact RS2|done|done|rewrite zlen_app; lia|]. right. split; [by rewrite Ech'|].
    cbn [parm with_parm]. rewrite Hnone in Hsome. by symmetry in Hsome; apply app_nil in Hsome as [_ ?].
Qed.
End counting.

(** ** The functions *)

Lemma state_names s h c p strong : state strong s h c p → buff s ≠ 0 ∧ r ≠ 0.
Proof.
  intros (sb & B & bufb & sr & R & bufr & T & _). pose proof (t_ok _ _ _ _ _ _ _ _ _ _ _ _ T) as OK.
  split; (eapply b_nonnull; [exact OK|]); [eapply two_writable, T|eapply two_writable, two_swap, T].
Qed.

Lemma step_usable {A} s h c p strong (k : bool → BM A) (Q : A * bheap → Prop) :
  state strong s h c p → returns (k true h) Q → returns ((usable_result r s ≫= k) h) Q.
Proof.
  intros S Hk. destruct (state_names _ _ _ _ _ S) as [Hb Hr]. destruct S as (sb & B & bufb & sr & R & bufr & T & _).
  unfold usable_result. rewrite (proj2 (Z.eqb_neq (buff s) 0)), (proj2 (Z.eqb_neq r 0)) by done. cbn [orb].
  apply step_assoc. eapply two_deref; [apply two_swap, T|]. apply step_ret.
  destruct (t_r _ _ _ _ _ _ _ _ _ _ _ _ T) as (_ & _ & Hl). unfold unwritable.
  by rewrite (proj2 (Z.ltb_ge (slen sr) 0)), (proj2 (Z.ltb_ge (mlen sr) (slen sr))), (proj2 (Z.leb_gt (mlen sr) 0)) by lia.
Qed.

(** The outcome [post] for a stream that is not NULL. *)
Definition on_stream (post : Z * bStream Σ * bheap → Prop) (rh : Z * option (bStream Σ) * bheap) : Prop :=
  ∃ s', rh.1.2 = Some s' ∧ post (rh.1.1, s', rh.2).

Lemma with_stream_ok s (k : bStream Σ → BM (Z * bStream Σ)) h post :
  returns (k s h) post → returns (with_stream (Some s) k h) (on_stream post).
Proof.
  intros Hk. cbn [with_stream]. apply M_returns_bind. eapply returns_mono; [exact Hk|]. intros [[ret s'] h'] D.
  by exists s'.
Qed.

Lemma bsreadlna_ok fuel s h c p terminator :
  state True s h c p → stream_room s (zlen c + zlen p) → (length p < fuel)%nat →
  returns (bsreadlna readPtr fuel r (Some s) terminator h) (on_stream (line_read (λ y, y =? u8 terminator) s c p)).
Proof using All.
  intros S Hr Hfuel. apply with_stream_ok. eapply step_usable; [exact S|]. cbn [negb].
  eapply (read_line_ok _ _ _ (buff s) terminator); [done| |done|done|done|by apply Forall_true|done].
  cbn. by rewrite Z.eqb_refl.
Qed.

Lemma bsreada_ok fuel s h c p n :
  state True s h c p → stream_room s (zlen c + zlen p) → 0 < n → zlen c + n ≤ INT_MAX → (length p < fuel)%nat →
  returns (bsreada readPtr fuel r (Some s) n h) (on_stream (chars_read s n c p)).
Proof using All.
  intros S Hroom Hn Hmax Hfuel. apply with_stream_ok. eapply step_usable; [exact S|]. cbn [negb orb].
  rewrite (proj2 (Z.leb_gt n 0)) by lia. destruct S as (sb & B & bufb & sr & R & bufr & T & Hc & Hp & Hsb & Hsr & Hstr).
  destruct (Hstr I) as [Hz Heof]. pose proof Hroom as [Hmx Hrm].
  pose proof (t_b _ _ _ _ _ _ _ _ _ _ _ _ T) as (Hdb & Hmb & Hsl). pose proof (t_r _ _ _ _ _ _ _ _ _ _ _ _ T) as (Hdr & Hmr & Hsr2).
  assert (zlen c = slen sr) as Hlc by (subst c; apply zlen_content; lia). rewrite Hlc in Hmax.
  assert (zlen (content sb bufb) = slen sb) as Hlb by (apply zlen_content; lia).
  pose proof (zlen_nonneg p). pose proof (zlen_nonneg c).
  assert (state luck s h c p) as Sl by (exists sb, B, bufb, sr, R, bufr; by split_and!).
  eapply two_deref; [apply two_swap, T|]. rewrite (proj2 (Z.ltb_ge (INT_MAX - slen sr) n)) by lia.
  eapply two_deref; [exact T|]. set (rest_ := _ ≫= _).
  assert (returns (rest_ h) (chars_read s n c p)) as Hrest.
  { subst rest_. eapply step_lift; [apply cint_ok; int_lia|]. eapply two_balloc; [exact T|int_lia|done|..].
    { intros h1 Hno T1. cbn. split; [done|]. exists [], p. rewrite app_nil_r. split_and!; [done| |by left|done|change (zlen []) with 0; lia|done].
      exists sb, B, bufb, sr, R, bufr. by split_and!. }
    intros h1 sb1 B1 buf1 T1 Es Hn1 Hm Ec. cbn [Z.eqb negb BSTR_OK]. eapply two_deref; [exact T1|].
    destruct (t_b _ _ _ _ _ _ _ _ _ _ _ _ T1) as (Hd1 & Hl1 & Hs1). rewrite Hd1, <-Hlc.
    eapply (reada_loop_ok (buff s) n c p) with (chunk := content sb bufb) (acc := []); [lia|lia| |done|done|done|].
    - split; try done.
      + split_and!; [by rewrite <-Ec, <-Es|lia|lia].
      + split_and!; [lia|int_lia|done].
      + by rewrite app_nil_r.
    - rewrite <-Hp, length_app in Hfuel. lia. }
  destruct (slen sb =? 0) eqn:E0; propify; [|exact Hrest].
  assert (content sb bufb = []) as Ecb by (apply length_zero_iff_nil; unfold zlen in *; lia). rewrite Ecb in Hp. cbn in Hp.
  destruct (isEOF s =? 0) eqn:EF; propify; cbn [negb].
  2: { rewrite (Heof EF) in Hp. subst p. cbn. split; [done|]. exists [], []. rewrite (app_nil_r c).
    split_and!; [done|done|by left|done|change (zlen []) with 0; lia|]. intros _. by rewrite take_nil. }
  destruct (n + slen sr <? mlen sr) eqn:Em; propify; [|exact Hrest]. clear rest_ Hrest. rewrite Hdr.
  replace (n + slen sr - slen sr) with n by lia. unfold fetch.
  pose proof (source_some (parm s) n Hn) as Hsome. pose proof (source_most (parm s) n Hn) as Hmost. pose proof (source_none (parm s) n Hn) as Hnone.
  destruct (readPtr (parm s) n) as [chunk st] eqn:Erd. cbn [fst snd] in *. pose proof (zlen_nonneg chunk).
  rewrite Hp in Hsome. eapply step_assoc, two_store; [apply two_swap, T|lia|lia|]. intros h1 T1. apply step_ret.
  rewrite sext32_id by int_lia. rewrite (proj2 (Z.ltb_ge n (zlen chunk))) by lia. rewrite orb_false_r.
  destruct (zlen chunk <=? 0) eqn:E1; propify.
  - assert (chunk = []) as -> by (apply length_zero_iff_nil; unfold zlen in *; lia). rewrite (Hnone eq_refl) in Hp.
    subst p. cbn in Hsome. rewrite zwrite_nil in T1. cbn. split; [done|]. exists [], []. rewrite (app_nil_r c).
    split_and!; [done| |right; split; [done|by left]|done|change (zlen []) with 0; lia|intros _; by rewrite take_nil].
    exists sb, B, bufb, sr, R, bufr. rewrite Ecb. split_and!; try done; by apply two_swap.
  - eapply two_set; [exact T1|lia|]. intros h2 T2.
    eapply two_store; [exact T2|lia|cbn [mlen]; change (zlen [u8 0]) with 1; lia|]. intros h3 T3. apply two_swap in T3.
    cbn. split; [done|]. exists chunk, (rest st).
    split_and!; [done| |by left|by unfold err_if; rewrite (proj2 (Z.eqb_neq _ _)) by lia|done|].
    + exists sb, B, bufb. eexists _, R, _. split_and!; [exact T3| |by rewrite Ecb|done|done|].
      * unfold content. cbn [slen]. rewrite zwrite_take by (rewrite ?zlen_zwrite; lia). rewrite content_extend by lia.
        by rewrite (take_ge chunk) by (unfold zlen; lia); rewrite <-Hc.
      * intros _. split; [|intros Hne; by destruct (Hne EF)]. cbn [slen]. apply zget_zwrite_one. rewrite zlen_zwrite by lia. lia.
    + intros _. split; [intros ->; change (zlen []) with 0 in E1; lia|]. intros Hfull. specialize (Hfull (parm s) n Hn). rewrite Erd in Hfull. cbn in Hfull.
      rewrite Hsome. destruct (decide (zlen chunk < n)).
      * rewrite (Hfull ltac:(done)), app_nil_r. symmetry. apply take_ge. unfold zlen in *. lia.
      * rewrite take_app_le, take_ge by (unfold zlen in *; lia). done.
Qed.

(** A string among the others, with the characters [t]. *)
Definition framed (a : Z) (t : list Z) : Prop :=
  ∃ st X o bx, fs !! a = Some st ∧ data st = Some (X, o) ∧ fb !! X = Some bx ∧ 0 ≤ slen st ∧ 0 ≤ o ∧
    o + slen st ≤ zlen bx ∧ t = zslice bx o (slen st).

Lemma framed_readable a t b h sb B bufb sr R bufr : framed a t → two luck fs fb b r h sb B bufb sr R bufr →
  ∃ st X o bx, readable h a st X o bx t ∧ slen st = zlen t.
Proof.
  intros (st & X & o & bx & Hs & Hd & HX & Hl & Ho & Hon & ->) [Es Eb (? & ? & ?) (? & ? & ?) _ _ _ _].
  exists st, X, o, bx. split; [|rewrite zlen_zslice by lia; lia]. split; try done.
  - rewrite Es, !lookup_insert_ne by congruence. done.
  - rewrite Eb, !lookup_insert_ne by congruence. done.
Qed.

Lemma first_of_ok a x t st X o bx h : readable h a st X o bx (x :: t) → first_of a h = Done (x, h).
Proof.
  intros [Hs Hd HX Hl [Ho Hon] Hc]. unfold first_of. rewrite M_bind_eq, (deref_ok _ st) by done. cbn [mbind res_bind].
  unfold first_byte. rewrite Hd. unfold read_byte. cbn [fst snd]. rewrite HX, (load_ok _ _ x); [done|].
  assert (zget (zslice bx o (slen st)) 0 = Some x) as E by (by rewrite <-Hc).
  pose proof (zget_Some_range _ _ _ E) as Hr. rewrite zlen_zslice in Hr by lia.
  rewrite zget_zslice in E by lia. by rewrite Z.add_0_r in E.
Qed.

Lemma line_ext P P' c : (∀ y, y ∈ c → P y = P' y) → front_line P c = front_line P' c.
Proof.
  induction c as [|y c IH]; intros H; [done|]. cbn. rewrite (H y) by set_solver. case_match; [done|]. f_equal. apply IH. set_solver.
Qed.

Lemma bsreadlnsa_ok fuel s h c p a t :
  state True s h c p → stream_room s (zlen c + zlen p) → (length p < fuel)%nat → framed a t → t ≠ [] → Forall is_byte t → Forall is_byte p →
  returns (bsreadlnsa readPtr fuel r (Some s) a h) (on_stream (line_read (set_of t) s c p)).
Proof using All.
  intros S Hr Hfuel Ha Ht Htb Hpb. destruct (state_names _ _ _ _ _ S) as [Hb0 Hr0]. destruct t as [|x t]; [done|].
  unfold bsreadlnsa. rewrite (proj2 (Z.eqb_neq (buff s) 0)), (proj2 (Z.eqb_neq r 0)) by done. cbn [orb].
  pose proof S as (sb & B & bufb & sr & R & bufr & T & _). destruct (framed_readable _ _ _ _ _ _ _ _ _ _ Ha T) as (st & X & o & bx & Rd & Hl).
  pose proof (t_ok _ _ _ _ _ _ _ _ _ _ _ _ T) as OK. pose proof (zlen_nonneg t). rewrite zlen_cons in Hl.
  unfold term_length. rewrite (proj2 (Z.eqb_neq a 0)) by (by eapply readable_nonnull).
  apply step_assoc. eapply step_deref; [by destruct Rd|]. apply step_ret. pose proof Rd as [Rs Rdt RX Rsl Rr Rc]. rewrite Rdt.
  eapply step_usable; [exact S|]. cbn [negb]. pose proof (first_of_ok _ _ _ _ _ _ _ _ Rd) as Hfirst.
  apply Forall_cons in Htb as Hxb. destruct Hxb as [Hxb _].
  assert (u8 x = x) as Ex by (apply Z.mod_small; unfold is_byte in Hxb; lia).
  destruct (slen st =? 1) eqn:E1; propify.
  - rewrite M_bind_eq, Hfirst. cbn [mbind res_bind].
    assert (t = []) as -> by (apply length_zero_iff_nil; unfold zlen in *; lia).
    eapply returns_mono; [by apply bsreadlna_ok|]. intros [[ret s'] h'] (s1 & E & D). exists s1. split; [done|].
    cbn [fst snd] in *. destruct D as [D0 D]. split; [done|].
    replace (front_line (set_of [x]) p) with (front_line (λ y, y =? u8 x) p); [done|]. apply line_ext. intros y _. rewrite Ex. unfold set_of.
    apply eq_true_iff_eq. rewrite Z.eqb_eq, bool_decide_eq_true. set_solver.
  - rewrite (proj2 (Z.ltb_ge (slen st) 1)) by lia. apply M_returns_bind.
    eapply returns_mono; [by eapply buildCharField_ok|]. intros [cf h'] [-> D]. rewrite (proj2 (Z.eqb_neq (slen st) 0)) in D by lia.
    destruct D as (cf' & -> & Hcf). apply with_stream_ok. eapply (read_line_ok _ _ _ (buff s) x); [| |done|done|done| |done].
    + intros h1 sb1 B1 bufb1 sr1 R1 bufr1 T1. destruct (framed_readable _ _ _ _ _ _ _ _ _ _ Ha T1) as (st1 & X1 & o1 & bx1 & Rd1 & _).
      by eapply first_of_ok.
    + rewrite Ex. rewrite (testInCharField_ok _ _ _ Hcf) by done. f_equal. apply bool_decide_eq_true_2. set_solver.
    + eapply Forall_impl; [exact Hpb|]. intros y Hy. by apply testInCharField_ok.
Qed.
End reading.

(** * Sessions *)

(** Reads in sequence, each appending to the string [r]. *)
Inductive stream_op :=
| ReadLine (terminator : Z)
| ReadLineOf (term : Z) (ends : list Z)
| ReadChars (n : Z).

Section session.
Context {Σ : Type} (readPtr : Σ → Z → list Z * Σ).

Definition run_read (fuel : nat) (r : Z) (op : stream_op) (s : option (bStream Σ)) : BM (Z * option (bStream Σ)) :=
  match op with
  | ReadLine t => bsreadlna readPtr fuel r s t
  | ReadLineOf t _ => bsreadlnsa readPtr fuel r s t
  | ReadChars n => bsreada readPtr fuel r s n
  end.

Fixpoint run_reads (fuel : nat) (r : Z) (ops : list stream_op) (s : option (bStream Σ)) : BM (list Z * option (bStream Σ)) :=
  match ops with
  | [] => mret ([], s)
  | op :: ops => '(ret, s) ← run_read fuel r op s; '(rets, s) ← run_reads fuel r ops s; mret (ret :: rets, s)
  end.

(** On a text that is still to come: what a read takes off its front. *)
Definition taken_by (op : stream_op) (p : list Z) : list Z :=
  match op with
  | ReadLine t => front_line (λ y, y =? u8 t) p
  | ReadLineOf _ ends => front_line (set_of ends) p
  | ReadChars n => take (Z.to_nat n) p
  end.

(** The results, and the pieces taken one after the other. *)
Fixpoint taken_all (ops : list stream_op) (p : list Z) : list Z * list Z :=
  match ops with
  | [] => ([], [])
  | op :: ops =>
      let got := taken_by op p in
      let '(rets, gots) := taken_all ops (drop (length got) p) in
      (err_if (zlen got =? 0) :: rets, got ++ gots)
  end.

Lemma taken_prefix op p : p = taken_by op p ++ drop (length (taken_by op p)) p.
Proof.
  assert (∀ q d, p = q ++ d → p = q ++ drop (length q) p) as H by (intros q d ->; by rewrite drop_app_length).
  destruct op as [t|t ends|n]; cbn; [destruct (line_prefix (λ y, y =? u8 t) p) as [d E]; by eapply H|
    destruct (line_prefix (set_of ends) p) as [d E]; by eapply H|].
  eapply H. symmetry. apply take_drop.
Qed.

(** Calls as they are meant: sets of ends are strings among the others, counts are positive. *)
Definition read_op_ok (fs : gmap Z tagbstring) (fb : gmap Z (list Z)) (m : Z) (op : stream_op) : Prop :=
  match op with
  | ReadLine _ => True
  | ReadLineOf t ends => framed fs fb t ends ∧ ends ≠ [] ∧ Forall is_byte ends
  | ReadChars n => 0 < n ∧ m + n ≤ INT_MAX
  end.

Context (rest : Σ → list Z) `{!FullSource readPtr rest}.
Context (fs : gmap Z tagbstring) (fb : gmap Z (list Z)) (r : Z).

Lemma run_read_ok fuel op s h c p :
  state rest True fs fb r True s h c p → stream_room s (zlen c + zlen p) → (length p < fuel)%nat → Forall is_byte p →
  read_op_ok fs fb (zlen c) op →
  returns (run_read fuel r op (Some s) h) (λ '(ret, s', h'), ∃ s1, s' = Some s1 ∧ same_handle s s1 ∧
    ret = err_if (zlen (taken_by op p) =? 0) ∧ state rest True fs fb r True s1 h' (c ++ taken_by op p) (drop (length (taken_by op p)) p)).
Proof using All.
  intros S Hr Hfuel Hpb Hop. destruct op as [t|t ends|n]; cbn [run_read].
  - eapply returns_mono; [by eapply (bsreadlna_ok readPtr rest True)|]. intros [[ret s'] h'] (s1 & E & [(H1 & H2 & H3 & _) [D|[Hno _]]]); [|done].
    exists s1. cbn in *. destruct D as [D1 D2]. by split_and!.
  - destruct Hop as (Hf & Hne & Hbt).
    eapply returns_mono; [by eapply (bsreadlnsa_ok readPtr rest True)|]. intros [[ret s'] h'] (s1 & E & [(H1 & H2 & H3 & _) [D|[Hno _]]]); [|done].
    exists s1. cbn in *. destruct D as [D1 D2]. by split_and!.
  - destruct Hop as [Hn Hmax]. eapply returns_mono; [by eapply (bsreada_ok readPtr rest True)|].
    intros [[ret s'] h'] (s1 & E & [Hh (got & p' & Ep & Hs & _ & Hret & _ & Hall)]). exists s1. cbn in *.
    destruct (Hall I) as [_ Hfull]. specialize (Hfull (λ st n Hn, source_full st n Hn)). rewrite <-Hfull. subst p.
    rewrite drop_app_length. by split_and!.
Qed.

Lemma run_reads_ok fuel ops : ∀ s h c p,
  state rest True fs fb r True s h c p → stream_room s (zlen c + zlen p) → (length p < fuel)%nat → Forall is_byte p →
  Forall (read_op_ok fs fb (zlen c + zlen p)) ops →
  returns (run_reads fuel r ops (Some s) h) (λ '(rets, s', h'), ∃ s1 p', s' = Some s1 ∧ same_handle s s1 ∧
    rets = (taken_all ops p).1 ∧ p = (taken_all ops p).2 ++ p' ∧
    state rest True fs fb r True s1 h' (c ++ (taken_all ops p).2) p').
Proof using All.
  induction ops as [|op ops IH]; intros s h c p S Hr Hfuel Hpb Hops.
  { cbn. exists s, p. rewrite app_nil_r. by split_and!. }
  apply Forall_cons in Hops as [Hop Hops]. cbn [run_reads taken_all].
  pose proof (taken_prefix op p) as Ep. set (got := taken_by op p) in *. set (p1 := drop (length got) p) in *.
  assert (zlen p = zlen got + zlen p1) as Hl by (rewrite Ep at 1; apply zlen_app).
  pose proof (zlen_nonneg got). pose proof (zlen_nonneg p1).
  apply M_returns_bind. eapply returns_mono; [eapply run_read_ok; try done|].
  { destruct op; cbn in *; try done. pose proof (zlen_nonneg p). lia. }
  intros [[ret s'] h1] (s1 & -> & Hh & Hret & S1). apply M_returns_bind. eapply returns_mono; [eapply (IH s1); [exact S1|..]|].
  - destruct Hr as [Hm0 Hr], Hh as (_ & _ & E). split; rewrite E; [done|]. fold got p1. rewrite zlen_app. lia.
  - fold got p1. unfold zlen in *. lia.
  - fold got p1. rewrite Ep in Hpb. by apply Forall_app in Hpb as [_ ?].
  - fold got p1. rewrite zlen_app. by replace (zlen c + zlen got + zlen p1) with (zlen c + zlen p) by lia.
  - intros [[rets s2] h2] (s3 & p' & -> & Hh2 & Hrets & Ep1 & S2). fold got p1 in Hrets, Ep1, S2, Hret |- *.
    destruct (taken_all ops p1) as [rs gots]. cbn [fst snd] in *. cbn. exists s3, p'. subst ret rets.
    destruct Hh as (? & ? & ?), Hh2 as (? & ? & ?). split_and!; try done; try congruence.
    + by split_and!; congruence.
    + transitivity (got ++ p1); [done|]. by rewrite Ep1, app_assoc.
    + by rewrite app_assoc.
Qed.
End session.

(** * Reading into one string *)

(** How reading characters into [b] ends: all of [xs] has been appended to [c], or an
    allocation failed after a part of it. *)
Definition appended_to (h : bheap) (b B : Z) (c xs : list Z) (done : Z → Prop) (ret : Z) (h' : bheap) : Prop :=
  ∃ s' B' buf', upd h b B h' s' B' buf' ∧ 0 ≤ slen s' < mlen s' ∧
    (done ret ∧ content s' buf' = c ++ xs ∧ terminated s' buf' ∨
     ret = BSTR_ERR ∧ oom h' = true ∧ ∃ pre post, xs = pre ++ post ∧ content s' buf' = c ++ pre).

Section characters.
Context {Σ : Type} (getcPtr : Σ → Z * Σ) (terminator : Z).

(** The source gives the characters [cs], the last of them the terminator unless the source
    ends; [e] is what it gave last. *)
Inductive gives : Σ → list Z → Z → Σ → Prop :=
| gives_end st e st' : getcPtr st = (e, st') → e < 0 → gives st [] e st'
| gives_terminator st x st' : getcPtr st = (x, st') → 0 ≤ x → x = schar terminator → gives st [u8 x] x st'
| gives_more st x st1 cs e st' : getcPtr st = (x, st1) → 0 ≤ x → x ≠ schar terminator → gives st1 cs e st' →
    gives st (u8 x :: cs) e st'.

Context (h : bheap) (b B : Z).

Lemma gets_step h1 s1 B1 buf1 d x {A} (k : option Z → BM A) (Q : A * bheap → Prop) :
  upd h b B h1 s1 B1 buf1 → 0 ≤ d < mlen s1 → 8 * mlen s1 ≤ INT_MAX → 16 * (d + 8) ≤ INT_MAX →
  (∀ h2 s2 B2 buf2, upd h b B h2 s2 B2 buf2 → slen s2 = d → d < mlen s2 → content s2 buf2 = take (Z.to_nat d) buf1 → oom h2 = true → returns (k None h2) Q) →
  (∀ h2 s2 B2 buf2, upd h b B h2 s2 B2 buf2 → d + 1 < mlen s2 → 8 * mlen s2 ≤ INT_MAX →
     take (Z.to_nat (d + 1)) buf2 = take (Z.to_nat d) buf1 ++ [u8 x] → returns (k (Some (mlen s2 - 2)) h2) Q) →
  returns (((e ← (if mlen s1 - 2 <? d then
             set_slen b d;;
             d2 ← icint (d + 2);
             r ← balloc b d2;
             if negb (r =? BSTR_OK) then mret None else s ← deref b; mret (Some (mlen s - 2))
           else mret (Some (mlen s1 - 2)));
      match e with
      | None => k None
      | Some e =>
          s ← deref b;
          match data s with
          | None => undef
          | Some p => write_byte (padd p d) x;; k (Some e)
          end
      end)) h1) Q.
Proof.
  intros Hu Hd Hm Hroom Hfail Hk.
  assert (∀ h2 s2 B2 buf2, upd h b B h2 s2 B2 buf2 → d + 1 < mlen s2 → 8 * mlen s2 ≤ INT_MAX →
    take (Z.to_nat d) buf2 = take (Z.to_nat d) buf1 →
    returns ((s ← deref b; match data s with None => undef | Some p => write_byte (padd p d) x;; k (Some (mlen s2 - 2)) end) h2) Q) as Hw.
  { intros h2 s2 B2 buf2 Hu2 Hd2 Hm2 Et. pose proof (u_mlen _ _ _ _ _ _ _ Hu2) as Hl2.
    eapply step_deref_upd; [exact Hu2|]. rewrite (u_data _ _ _ _ _ _ _ Hu2). eapply step_write_byte; [exact Hu2|lia|]. intros h3 Hu3.
    eapply Hk; [exact Hu3|done|done|]. rewrite (content_extend buf2 [u8 x] d 1) by (change (zlen [u8 x]) with 1; lia).
    by rewrite Et. }
  destruct (mlen s1 - 2 <? d) eqn:E; propify; [|apply step_ret; eapply Hw; [exact Hu|lia|done|done]].
  apply step_assoc. unfold set_slen. apply step_assoc. eapply step_deref_upd; [exact Hu|]. eapply step_put; [exact Hu|done|done|]. intros h2 Hu2.
  apply step_assoc. eapply step_lift; [apply cint_ok; int_lia|]. apply step_assoc.
  eapply step_balloc_max; [by destruct Hu2|eapply upd_writable; [exact Hu2|cbn; lia]|int_lia|done|..].
  { intros h3 Hsame. cbn [Z.eqb negb BSTR_ERR BSTR_OK]. apply step_ret. eapply Hfail; [eapply upd_same; [done|apply Hsame]|done|cbn; lia|done|apply Hsame]. }
  intros h3 s3 B3 buf3 Hu3 E3 Hge _ Hmx Hc. cbn [Z.eqb negb BSTR_OK]. pose proof (upd_trans _ _ _ _ _ _ _ _ _ _ _ Hu2 Hu3) as Hu4.
  apply step_assoc. eapply step_deref_upd; [exact Hu4|]. apply step_ret.
  pose proof (snapUpSize_double (d + 2) ltac:(int_lia)). cbn [mlen slen] in *.
  eapply Hw; [exact Hu4|lia|int_lia|]. unfold content in Hc. cbn [slen] in Hc. by rewrite E3 in Hc.
Qed.

Definition gets_looped (d : Z) (c cs : list Z) (last : Z) (st' : Σ) (rh : option (Z * Z) * Σ * bheap) : Prop :=
  let '(o, st, h') := rh in ∃ s' B' buf', upd h b B h' s' B' buf' ∧
  match o with
  | Some (d', e) => d' = d + zlen cs ∧ d' < mlen s' ∧ e = last ∧ st = st' ∧ take (Z.to_nat d') buf' = c ++ cs
  | None => oom h' = true ∧ ∃ pre post, cs = pre ++ post ∧ slen s' = d + zlen pre ∧ slen s' < mlen s' ∧ content s' buf' = c ++ pre
  end.

Ltac same_getc :=
  match goal with E1 : getcPtr ?s = _, E2 : getcPtr ?s = _ |- _ => rewrite E1 in E2; simplify_eq end.

Lemma gets_loop_ok fuel : ∀ st cs last st' h1 s1 B1 buf1 d,
  gives st cs last st' → upd h b B h1 s1 B1 buf1 → 0 ≤ d < mlen s1 → 8 * mlen s1 ≤ INT_MAX → 16 * (d + zlen cs + 8) ≤ INT_MAX →
  (length cs < fuel)%nat →
  returns (gets_loop getcPtr fuel b terminator d (mlen s1 - 2) st h1) (gets_looped d (take (Z.to_nat d) buf1) cs last st').
Proof using Type.
  induction fuel as [|fuel IH]; intros st cs last st' h1 s1 B1 buf1 d G Hu Hd Hm Hroom Hfuel; [lia|]. cbn [gets_loop].
  destruct (getcPtr st) as [x st1] eqn:Eg. pose proof (zlen_nonneg cs).
  destruct (x <? 0) eqn:Ex; propify.
  { inversion G; subst; same_getc; try lia. exists s1, B1, buf1. split; [done|]. change (zlen []) with 0.
    rewrite app_nil_r, Z.add_0_r. split_and!; (done || lia). }
  eapply (gets_step h1 s1 B1 buf1 d x (λ o : option Z, match o return BM (option (Z * Z) * Σ) with None => mret (None, st1) | Some e => d ← icint (d + 1);
    if x =? schar terminator then mret (Some (d, x), st1) else gets_loop getcPtr fuel b terminator d e st1 end));
    [done|done|done|lia|..].
  { intros h2 s2 B2 buf2 Hu2 E1 E2 E3 Eo. exists s2, B2, buf2. split; [done|]. split; [done|]. exists [], cs. rewrite app_nil_r. change (zlen []) with 0.
    split_and!; try done; lia. }
  intros h2 s2 B2 buf2 Hu2 Hd2 Hm2 Ec. eapply step_lift; [apply cint_ok; int_lia|].
  destruct (x =? schar terminator) eqn:Et; propify.
  - inversion G; subst; same_getc; try lia. exists s2, B2, buf2. split; [done|]. change (zlen [u8 (schar terminator)]) with 1. split_and!; (done || lia).
  - inversion G; subst; same_getc; try lia. rewrite zlen_cons in *. pose proof (zlen_nonneg cs0).
    eapply returns_mono; [eapply IH; [eassumption|exact Hu2|lia|lia|lia|cbn in Hfuel; lia]|]. intros [[o st3] h3] (s3 & B3 & buf3 & Hu3 & D). exists s3, B3, buf3.
    split; [done|]. rewrite Ec in D. destruct o as [[d' e]|].
    + destruct D as (-> & D2 & D3 & D4 & D5). rewrite zlen_cons. split_and!; try done; try lia.
      replace (d + (zlen cs0 + 1)) with (d + 1 + zlen cs0) by lia. by rewrite D5, <-app_assoc.
    + destruct D as (Eo & pre & post & -> & D2 & D3 & D4). split; [done|]. eexists (u8 _ :: pre), post. rewrite zlen_cons.
      split_and!; try done; try lia. by rewrite D4, <-app_assoc.
Qed.

Lemma gets_from_ok fuel start st cs last st' s buf :
  heap_ok h → writable h b s B buf → 0 ≤ start s ≤ slen s → 8 * mlen s ≤ INT_MAX → gives st cs last st' →
  16 * (start s + zlen cs + 8) ≤ INT_MAX → (length cs < fuel)%nat →
  returns (gets_from getcPtr start fuel b st terminator h) (λ '(ret, _, h'),
    appended_to h b B (take (Z.to_nat (start s)) (content s buf)) cs
      (λ ret, ret = if (start s + zlen cs =? 0) && (last <? 0) then 1 else 0) ret h').
Proof using Type.
  intros OK W Hstart Hm G Hroom Hfuel. pose proof (b_nonnull _ _ _ _ _ OK W) as Hb. pose proof W as [Hs Hd HB Hl Hsl].
  pose proof (upd_refl _ _ _ _ _ OK W) as Hu. unfold gets_from. rewrite (proj2 (Z.eqb_neq b 0)) by done.
  eapply step_deref; [done|]. unfold unwritable.
  rewrite (proj2 (Z.ltb_ge (slen s) 0)), (proj2 (Z.ltb_ge (mlen s) (slen s))), (proj2 (Z.leb_gt (mlen s) 0)) by lia. cbn [orb].
  assert (take (Z.to_nat (start s)) (content s buf) = take (Z.to_nat (start s)) buf) as ->.
  { unfold content. rewrite take_take. f_equal. lia. }
  apply M_returns_bind. eapply returns_mono; [eapply gets_loop_ok; try done; lia|]. pose proof (zlen_nonneg cs).
  intros [[o st2] h1] (s1 & B1 & buf1 & Hu1 & D). destruct o as [[d e]|].
  - destruct D as (-> & D2 & -> & _ & D5). pose proof (u_mlen _ _ _ _ _ _ _ Hu1) as Hl1.
    eapply step_deref_upd; [exact Hu1|]. rewrite (u_data _ _ _ _ _ _ _ Hu1).
    eapply step_write_byte; [exact Hu1|lia|]. intros h2 Hu2. eapply step_put; [exact Hu2|done|by rewrite (u_data _ _ _ _ _ _ _ Hu1)|].
    intros h3 Hu3. eexists _, _, _. split; [exact Hu3|]. cbn [slen mlen]. split; [lia|]. left. split; [done|]. split.
    + unfold content. cbn [slen]. rewrite zwrite_take by lia. exact D5.
    + split; cbn [slen mlen]; [lia|]. apply zget_zwrite_one. lia.
  - destruct D as (Eo & pre & post & -> & D2 & D3 & D4). exists s1, B1, buf1. pose proof (zlen_nonneg pre). split; [done|]. split; [lia|].
    right. split; [done|]. split; [done|]. by exists pre, post.
Qed.
End characters.

Section blocks.
Context {Σ : Type} (readPtr : Σ → Z → list Z * Σ) (rest : Σ → list Z) `{!FullSource readPtr rest}.
Context (h : bheap) (b B : Z).

Definition breada_looped (c p : list Z) (rh : option Z * Σ * bheap) : Prop :=
  let '(o, st, h') := rh in ∃ s' B' buf' pre, upd h b B h' s' B' buf' ∧ 0 ≤ slen s' < mlen s' ∧
    p = pre ++ rest st ∧ content s' buf' = c ++ pre ∧
    match o with Some i => i = slen s' ∧ rest st = [] | None => oom h' = true end.

Lemma read_all_blocks_ok fuel : ∀ st h1 s1 B1 buf1 n,
  upd h b B h1 s1 B1 buf1 → 0 ≤ slen s1 < mlen s1 → 8 * mlen s1 ≤ INT_MAX → slen s1 < n ≤ slen s1 + 1024 →
  16 * (slen s1 + zlen (rest st) + 2100) ≤ INT_MAX → (length (rest st) < fuel)%nat →
  returns (breada_loop readPtr fuel b (slen s1) n st h1) (breada_looped (content s1 buf1) (rest st)).
Proof using All.
  induction fuel as [|fuel IH]; intros st h1 s1 B1 buf1 n Hu Hs Hm Hn Hroom Hfuel; [lia|]. cbn [breada_loop].
  pose proof (zlen_nonneg (rest st)). eapply step_lift; [apply cint_ok; int_lia|].
  eapply step_balloc_max; [by destruct Hu|by eapply upd_writable|int_lia|done|..].
  { intros h2 Hsame. cbn [Z.eqb negb BSTR_ERR BSTR_OK]. exists s1, B1, buf1, []. rewrite app_nil_r. split_and!; try done; [eapply upd_same; [done|apply Hsame]|lia|lia|apply Hsame]. }
  intros h2 s2 B2 buf2 Hu2 Es Hge _ Hmx Ec. cbn [Z.eqb negb BSTR_OK]. pose proof (upd_trans _ _ _ _ _ _ _ _ _ _ _ Hu Hu2) as Hu3.
  pose proof (snapUpSize_double (n + 1) ltac:(int_lia)). pose proof (u_mlen _ _ _ _ _ _ _ Hu3) as Hl2.
  eapply step_deref_upd; [exact Hu3|]. rewrite (u_data _ _ _ _ _ _ _ Hu3). unfold fetch.
  pose proof (source_some st (n - slen s1) ltac:(lia)) as Hsome. pose proof (source_most st (n - slen s1) ltac:(lia)) as Hmost.
  pose proof (source_full st (n - slen s1) ltac:(lia)) as Hfull.
  destruct (readPtr st (n - slen s1)) as [chunk st1]. cbn [fst snd] in *. pose proof (zlen_nonneg chunk). rewrite Hsome in *.
  rewrite zlen_app in Hroom. pose proof (zlen_nonneg (rest st1)). unfold padd. cbn [fst snd]. rewrite Z.add_0_l.
  apply step_assoc. eapply step_store; [exact Hu3|lia|lia|]. intros h3 Hu4. apply step_ret. rewrite sext32_id by int_lia.
  eapply step_lift; [apply cint_ok; int_lia|]. unfold set_slen. apply step_assoc. eapply step_deref_upd; [exact Hu4|].
  eapply step_put; [exact Hu4|done|done|]. intros h4 Hu5. set (s4 := mkB _ _ _) in *.
  assert (content s4 (zwrite buf2 (slen s1) chunk) = content s1 buf1 ++ chunk) as Ec4.
  { rewrite <-Ec. unfold content, s4. cbn [slen]. rewrite content_extend, (take_ge chunk) by (unfold zlen in *; lia). by rewrite Es. }
  destruct (slen s1 + zlen chunk <? n) eqn:En; propify.
  - specialize (Hfull ltac:(lia)). exists s4, B2, (zwrite buf2 (slen s1) chunk), chunk. subst s4. cbn [slen mlen]. split_and!; (done || lia).
  - eapply step_lift; [apply cint_ok; case_match; unfold BS_BUFF_SZ in *; propify; int_lia|].
    change (slen s1 + zlen chunk) with (slen s4). eapply returns_mono; [eapply (IH st1 h4 s4 B2); [exact Hu5|..]|].
    + subst s4. cbn [slen mlen]. lia.
    + subst s4. cbn [mlen]. int_lia.
    + subst s4. cbn [slen]. case_match; unfold BS_BUFF_SZ in *; propify; lia.
    + subst s4. cbn [slen]. lia.
    + rewrite length_app in Hfuel. unfold zlen in *. lia.
    + intros [[o st2] h5] (s5 & B5 & buf5 & pre & G1 & G2 & G3 & G4 & G5). exists s5, B5, buf5, (chunk ++ pre).
      rewrite Ec4, <-app_assoc in G4. split_and!; try done; try lia. by rewrite G3, app_assoc.
Qed.

Lemma breada_ok fuel st s buf :
  heap_ok h → writable h b s B buf → 8 * mlen s ≤ INT_MAX → 16 * (slen s + zlen (rest st) + 2100) ≤ INT_MAX →
  (length (rest st) < fuel)%nat →
  returns (breada readPtr fuel b st h) (λ '(ret, _, h'), appended_to h b B (content s buf) (rest st) (λ ret, ret = BSTR_OK) ret h').
Proof using All.
  intros OK W Hm Hroom Hfuel. pose proof (b_nonnull _ _ _ _ _ OK W) as Hb. pose proof W as [Hs Hd HB Hl Hsl].
  pose proof (upd_refl _ _ _ _ _ OK W) as Hu. pose proof (zlen_nonneg (rest st)). unfold breada. rewrite (proj2 (Z.eqb_neq b 0)) by done.
  eapply step_deref; [done|]. unfold unwritable.
  rewrite (proj2 (Z.ltb_ge (slen s) 0)), (proj2 (Z.ltb_ge (mlen s) (slen s))), (proj2 (Z.leb_gt (mlen s) 0)) by lia. cbn [orb].
  eapply step_lift; [apply cint_ok; int_lia|]. apply M_returns_bind.
  eapply returns_mono; [eapply read_all_blocks_ok; try done; lia|]. intros [[o st1] h1] (s1 & B1 & buf1 & pre & Hu1 & G1 & G2 & G3 & G4).
  destruct o as [i|].
  - destruct G4 as [-> E]. rewrite E, app_nil_r in G2. pose proof (u_mlen _ _ _ _ _ _ _ Hu1).
    eapply step_deref_upd; [exact Hu1|]. rewrite (u_data _ _ _ _ _ _ _ Hu1). eapply step_write_byte; [exact Hu1|lia|]. intros h2 Hu2.
    eexists _, _, _. split; [exact Hu2|]. split; [done|]. left. split; [done|]. split.
    + unfold content. rewrite zwrite_take by lia. by rewrite G2.
    + split; [done|]. apply zget_zwrite_one. lia.
  - exists s1, B1, buf1. split; [done|]. split; [done|]. right. split; [done|]. split; [done|]. by exists pre, (rest st1).
Qed.
End blocks.

(** * The properties *)

(** C10. While memory suffices, lines and counts of characters read in sequence from a stream
    are what the text still to come says, however the source delivers it and whatever has been
    read too far: each call takes a line with its end, or a number of characters, off the front, and
    reports an error exactly when nothing was left. *)
Theorem stream_refines_text {Σ} (readPtr : Σ → Z → list Z * Σ) rest `{!FullSource readPtr rest} fs fb r fuel ops s h c p :
  state rest True fs fb r True s h c p → stream_room s (zlen c + zlen p) → (length p < fuel)%nat → Forall is_byte p →
  Forall (read_op_ok fs fb (zlen c + zlen p)) ops →
  returns (run_reads readPtr fuel r ops (Some s) h) (λ '(rets, s', h'), ∃ s1 p', s' = Some s1 ∧ same_handle s s1 ∧
    rets = (taken_all ops p).1 ∧ p = (taken_all ops p).2 ++ p' ∧
    state rest True fs fb r True s1 h' (c ++ (taken_all ops p).2) p').
Proof. apply run_reads_ok. done. Qed.

(** C39. Whichever allocations fail, [bsreada] keeps every character once: what has
    been appended to the result, what is in the stream's buffer and what is left at its source
    are together the text that was to come, at most [n] characters have been taken, and an
    error means none; when no allocation fails there are some unless the text is at its end.
    The stream is marked as being at its end only when its source is, or when an allocation
    has failed while its buffer was empty: then it is a mark too early ([bsreada_false_end]),
    and later calls do not ask the source for what it still has. *)
Theorem bsreada_keeps_all {Σ} (readPtr : Σ → Z → list Z * Σ) rest `{!Source readPtr rest} luck fs fb r fuel s h c p n :
  state rest luck fs fb r True s h c p → stream_room s (zlen c + zlen p) → 0 < n → zlen c + n ≤ INT_MAX → (length p < fuel)%nat →
  returns (bsreada readPtr fuel r (Some s) n h) (on_stream (chars_read readPtr rest luck fs fb r s n c p)).
Proof. intros. by apply bsreada_ok. Qed.

(** [bsreadlna] appends the line at the front of what is still to come; when memory runs out
    the cases are those of [line_read]. *)
Theorem bsreadlna_correct {Σ} (readPtr : Σ → Z → list Z * Σ) rest `{!Source readPtr rest} luck fs fb r fuel s h c p terminator :
  state rest luck fs fb r True s h c p → stream_room s (zlen c + zlen p) → (length p < fuel)%nat →
  returns (bsreadlna readPtr fuel r (Some s) terminator h)
    (on_stream (line_read rest luck fs fb r (λ y, y =? u8 terminator) s c p)).
Proof. intros. by eapply bsreadlna_ok. Qed.

(** [breada] appends all that the source has. *)
Theorem breada_correct {Σ} (readPtr : Σ → Z → list Z * Σ) rest `{!FullSource readPtr rest} fuel h b st s B buf :
  heap_ok h → writable h b s B buf → 8 * mlen s ≤ INT_MAX → 16 * (slen s + zlen (rest st) + 2100) ≤ INT_MAX →
  (length (rest st) < fuel)%nat →
  returns (breada readPtr fuel b st h) (λ '(ret, _, h'), appended_to h b B (content s buf) (rest st) (λ ret, ret = BSTR_OK) ret h').
Proof. apply breada_ok. done. Qed.

(** [bgetsa] appends the characters up to the terminator; it reports 1 only when the source
    is at its end and the string is empty, which it may not have been before. *)
Theorem bgetsa_correct {Σ} (getcPtr : Σ → Z * Σ) terminator h b B fuel st cs last st' s buf :
  heap_ok h → writable h b s B buf → 8 * mlen s ≤ INT_MAX → gives getcPtr terminator st cs last st' →
  16 * (slen s + zlen cs + 8) ≤ INT_MAX → (length cs < fuel)%nat →
  returns (bgetsa getcPtr fuel b st terminator h) (λ '(ret, _, h'), appended_to h b B (content s buf) cs
    (λ ret, ret = if (slen s + zlen cs =? 0) && (last <? 0) then 1 else 0) ret h').
Proof.
  intros OK W Hm G Hroom Hfuel. pose proof (w_slen _ _ _ _ _ W).
  assert (content s buf = take (Z.to_nat (slen s)) (content s buf)) as E.
  { unfold content. rewrite take_take. f_equal. lia. }
  rewrite E. eapply gets_from_ok; try done; lia.
Qed.

(** [bassigngets] replaces the string by them. *)
Theorem bassigngets_correct {Σ} (getcPtr : Σ → Z * Σ) terminator h b B fuel st cs last st' s buf :
  heap_ok h → writable h b s B buf → 8 * mlen s ≤ INT_MAX → gives getcPtr terminator st cs last st' →
  16 * (zlen cs + 8) ≤ INT_MAX → (length cs < fuel)%nat →
  returns (bassigngets getcPtr fuel b st terminator h) (λ '(ret, _, h'), appended_to h b B [] cs
    (λ ret, ret = if (zlen cs =? 0) && (last <? 0) then 1 else 0) ret h').
Proof.
  intros OK W Hm G Hroom Hfuel. pose proof (w_slen _ _ _ _ _ W).
  apply (gets_from_ok getcPtr terminator h b B fuel (λ _, 0) st cs last st' s buf); (done || lia).
Qed.

(** * What goes wrong *)

(** A callback that notes what it is given. *)
Definition note {Σ : Type} (seen : list (Z * list Z)) (s : option (bStream Σ)) (ofs entry : Z)
    : BM (Z * list (Z * list Z) * option (bStream Σ)) :=
  t ← deref entry;
  match data t with None => undef | Some d => c ← load_bytes d (slen t); mret (0, seen ++ [(ofs, c)], s) end.

(** The separators [--] and the empty one. *)
Definition separators : bheap :=
  mkHeap {[1 := mkB (-1) 2 (Some (2, 0)); 3 := mkB (-1) 0 (Some (2, 0))]} {[2 := [45; 45; 0]]} 4 [] 0.

(** Opens the text as a stream, splits it and closes it again. *)
Definition split_text (sep : Z) (text : list Z) : BM (Z * list (Z * list Z)) :=
  s ← bsopen text; '(ret, seen, s) ← bssplitstrcb read_memory note 100 s sep []; bsclose s;; mret (ret, seen).

(** What was read last is not searched once the stream is at its end: a short text is not
    split at all. *)
Theorem bssplitstrcb_unsplit : returns (split_text 1 [97; 45; 45; 98] separators) (λ '(r, _), r = (0, [(0, [97; 45; 45; 98])])).
Proof. vm_compute. reflexivity. Qed.

(** With an empty separator the entries are blocks and not characters, all at offset 0, and a
    string is left behind. *)
Theorem bssplitstrcb_empty : returns (split_text 3 [97; 98] separators) (λ '(r, h'),
  r = (0, [(0, [97; 98])]) ∧ size (structs h') = S (size (structs separators)) ∧ size (blocks h') = S (size (blocks separators))).
Proof. vm_compute. done. Qed.

(** A stream whose buffer could not be allocated gives nothing but is never at its end: the
    search for a separator goes on for ever. *)
Definition no_buffer : option (bStream (list Z)) := Some (mkStream (5, 0) 0 [97] 0 BS_BUFF_SZ).
Definition empty_line : bheap :=
  mkHeap {[1 := mkB (-1) 2 (Some (2, 0)); 3 := mkB 8 0 (Some (4, 0))]} {[2 := [45; 45; 0]; 4 := replicate 8 0; 5 := replicate 32 0]} 6 [] 0.

Theorem bssplitstrcb_spins fuel : splitstr_stream_loop read_memory note fuel 1 3 0 [] no_buffer empty_line = OutOfFuel.
Proof.
  induction fuel as [|fuel IH]; [done|]. cbn [splitstr_stream_loop].
  assert (binstr 3 0 1 empty_line = Done (-1, empty_line)) as E by (vm_compute; reflexivity).
  rewrite M_bind_eq, E. cbn [mbind res_bind Z.leb Z.compare]. exact IH.
Qed.

(** The characters of a string. *)
Definition text_at (h : bheap) (b : Z) : option (list Z) :=
  match structs h !! b with
  | Some s => match data s with
              | Some (X, o) => (λ buf, zslice buf o (slen s)) <$> blocks h !! X
              | None => None
              end
  | None => None
  end.

(** An operation on a stream, twice. *)
Definition twice {Σ} (op : option (bStream Σ) → BM (Z * option (bStream Σ))) (s : option (bStream Σ)) : BM (Z * Z) :=
  '(r1, s) ← op s; '(r2, s) ← op s; mret (r1, r2).

(** The buffer of the stream holds [cb], the result [cr] in a block of [m] bytes; the next
    three allocations fail. *)
Definition scarce (cb : list Z) (m : nat) (cr : list Z) : bheap :=
  mkHeap {[1 := mkB 32 (zlen cb) (Some (10, 0)); 2 := mkB (Z.of_nat m) (zlen cr) (Some (11, 0))]}
    {[10 := cb ++ replicate (32 - length cb) 0; 11 := cr ++ replicate (m - length cr) 0]} 12 [false; false; false] 0.
Definition scarce_stream (st : list Z) : option (bStream (list Z)) := Some (mkStream (20, 0) 1 st 0 16).

(** What was in the buffer has been appended when the result cannot grow further, but it
    stays in the buffer and is read again. *)
Theorem bsreadlna_twice :
  returns (twice (λ s, bsreadlna read_memory 10 2 s 10) (scarce_stream [99; 10]) (scarce [97] 8 [120; 121]))
    (λ '(rs, h'), rs = (BSTR_ERR, BSTR_OK) ∧ text_at h' 2 = Some [120; 121; 97; 97; 99; 10]).
Proof. vm_compute. done. Qed.

(** A line that is in the buffer cannot be appended, and success is reported. *)
Theorem bsreadlna_unreported :
  returns (bsreadlna read_memory 10 2 (scarce_stream []) 10 (scarce [97; 10] 3 [120; 121]))
    (λ '(r, _, h'), r = BSTR_OK ∧ text_at h' 2 = Some [120; 121]).
Proof. vm_compute. done. Qed.

(** With an empty buffer the failure to append nothing is taken for the end of the source:
    nothing can be read any more. *)
Theorem bsreada_false_end :
  returns (twice (λ s, bsreada read_memory 10 2 s 3) (scarce_stream [97; 98; 99]) (scarce [] 3 [120; 121]))
    (λ '(rs, h'), rs = (BSTR_ERR, BSTR_ERR) ∧ text_at h' 2 = Some [120; 121]).
Proof. vm_compute. done. Qed.

(** Characters from memory. *)
Definition getc_memory (st : list Z) : Z * list Z := match st with [] => (-1, []) | c :: st => (c, st) end.

(** A terminator from 128 on is negative as a [char] and never met. *)
Theorem bgetsa_high_terminator :
  returns (bgetsa getc_memory 10 2 [97; 255; 98] 255 (scarce [] 8 []))
    (λ '(r, _, h'), r = 0 ∧ text_at h' 2 = Some [97; 255; 98]).
Proof. vm_compute. done. Qed.

(** * Witnesses *)

Definition sample_stream : bStream (list Z) := mkStream (20, 0) 1 [97; 98; 10; 99; 44; 100] 0 16.
Definition sample_ends : tagbstring := mkB (-1) 2 (Some (12, 0)).
Definition sample_streams : bheap :=
  mkHeap {[1 := mkB 32 0 (Some (10, 0)); 2 := mkB 8 0 (Some (11, 0)); 3 := sample_ends]}
    {[10 := replicate 32 0; 11 := replicate 8 0; 12 := [44; 59; 0]]} 13 [] 0.
Definition sample_reads : list stream_op := [ReadLine 10; ReadLineOf 3 [44; 59]; ReadChars 4; ReadLine 10].

Ltac byte_list := repeat (apply List.Forall_cons; [by split|]); apply List.Forall_nil.

Lemma sample_state : state id True {[3 := sample_ends]} {[12 := [44; 59; 0]]} 2 True sample_stream sample_streams [] [97; 98; 10; 99; 44; 100].
Proof.
  exists (mkB 32 0 (Some (10, 0))), 10, (replicate 32 0), (mkB 8 0 (Some (11, 0))), 11, (replicate 8 0).
  split_and!; try done. split; try done.
  split; try done; intros a Ha; cbn in *; rewrite !lookup_insert_ne, lookup_singleton_ne by lia; done.
Qed.

Lemma stream_refines_text_witness :
  returns (run_reads read_memory 10 2 sample_reads (Some sample_stream) sample_streams) (λ '(rets, s', h'), ∃ s1 p', s' = Some s1 ∧
    same_handle sample_stream s1 ∧ rets = [0; 0; 0; -1] ∧ [97; 98; 10; 99; 44; 100] = [97; 98; 10; 99; 44; 100] ++ p' ∧
    state id True {[3 := sample_ends]} {[12 := [44; 59; 0]]} 2 True s1 h' [97; 98; 10; 99; 44; 100] p').
Proof.
  apply (stream_refines_text read_memory id {[3 := sample_ends]} {[12 := [44; 59; 0]]} 2 10 sample_reads sample_stream
    sample_streams [] [97; 98; 10; 99; 44; 100]); [apply sample_state|by split|cbn; lia|byte_list|].
  apply Forall_cons; split; [done|]. apply Forall_cons; split; [|apply Forall_cons; split; [done|by apply Forall_cons]].
  split; [by exists sample_ends, 12, 0, [44; 59; 0]|split; [done|byte_list]].
Defined.

Lemma bsreada_keeps_all_witness :
  returns (bsreada read_memory 10 2 (Some sample_stream) 4 sample_streams)
    (on_stream (chars_read read_memory id True {[3 := sample_ends]} {[12 := [44; 59; 0]]} 2 sample_stream 4 [] [97; 98; 10; 99; 44; 100])).
Proof. apply (bsreada_keeps_all read_memory id); [apply sample_state|by split|lia|done|cbn; lia]. Defined.
