(* ===== verification/Utf8.v ===== *)
(** libs/bstrlib/utf8util.c and buniutil.c: code points of UTF-8 text, and
    conversions between UTF-8, UTF-16 and arrays of code points.

    Texts are bytes in the heap of CMemory.v, so a read outside a block shows;
    the arrays of 16- and 32-bit units that callers pass are lists. Iterators are
    not shared and are passed along. *)
From S2P Require Import Prelude CMemory Bstrlib BstrSearch BstrOps.

(** * Code *)

Definition isLegalUnicodeCodePoint (v : Z) : bool :=
  ((v <? 0xD800) || (0xDFFF <? v)) && (u64 v <=? 0x10FFFF) && negb (Z.lor v 0x1F0001 =? 0x1FFFFF).

Record utf8Iterator := mkIter { idata : option ptr; islen : Z; start : Z; next : Z; error : Z }.

(** Functions that test their iterator for NULL take an option. *)
Definition utf8IteratorInit (data : option ptr) (slen : Z) : utf8Iterator :=
  let slen := match data with Some _ => if 0 <=? slen then slen else -1 | None => -1 end in
  mkIter data slen (-1) (if 0 <=? slen then 0 else -1) (if 0 <=? slen then 0 else 1).

Definition utf8IteratorUninit (it : utf8Iterator) : utf8Iterator :=
  mkIter None (-1) (-1) (-1) (error it).

Definition utf8IteratorNoMore (it : utf8Iterator) : bool := islen it <=? next it.

Definition not_continuation (c : Z) : bool := negb (Z.land c 0xC0 =? 0x80).

(** The first index from [i] on that holds no continuation byte. *)
Fixpoint skip_continuation (fuel : nat) (d : ptr) (slen i : Z) : BM Z :=
  match fuel with
  | O => λ _, OutOfFuel
  | S fuel =>
      if i <? slen then
        c ← read_byte (padd d i);
        if not_continuation c then mret i else skip_continuation fuel d slen (i + 1)
      else mret i
  end.

(** The code point at [chrs] and its length; [None]: the code jumps to ErrMode. *)
Definition read_code_point (it : utf8Iterator) (chrs : ptr) : BM (option (Z * Z)) :=
  c ← read_byte chrs;
  if (c <? 0xC0) || (0xFD <? c) then
    if 0x80 <=? c then mret None else mret (Some (c, 1))
  else if c <? 0xE0 then
    if islen it + 1 <=? next it then mret None else
    let v := Z.shiftl c 6 - Z.shiftl 0x0C0 6 in
    x ← read_byte (padd chrs 1);
    let c := u8 (x - 0x080) in
    let v := v + c in
    if (0x40 <=? c) || (v <? 0x80) then mret None else mret (Some (v, 2))
  else if c <? 0xF0 then
    if islen it + 2 <=? next it then mret None else
    let v := Z.shiftl c 12 - Z.shiftl 0x0E0 12 in
    x ← read_byte (padd chrs 1); let c := u8 (x - 0x080) in
    y ← read_byte (padd chrs 2); let d := u8 (y - 0x080) in
    let v := v + (Z.shiftl c 6 + d) in
    if (0x40 <=? Z.lor c d) || (v <? 0x800) || negb (isLegalUnicodeCodePoint v) then mret None else mret (Some (v, 3))
  else if c <? 0xF8 then
    if islen it + 3 <=? next it then mret None else
    let v := Z.shiftl c 18 - Z.shiftl 0x0F0 18 in
    x ← read_byte (padd chrs 1); let c := u8 (x - 0x080) in
    y ← read_byte (padd chrs 2); let d := u8 (y - 0x080) in
    z ← read_byte (padd chrs 3); let e := u8 (z - 0x080) in
    let v := v + (Z.shiftl c 12 + Z.shiftl d 6 + e) in
    if (0x40 <=? Z.lor (Z.lor c d) e) || (v <? 0x10000) || negb (isLegalUnicodeCodePoint v) then mret None
    else mret (Some (v, 4))
  else mret None.

(** The code point read, or [errCh], and the iterator. *)
Definition utf8IteratorGetNextCodePoint (fuel : nat) (iter : option utf8Iterator) (errCh : Z) : BM (Z * option utf8Iterator) :=
  match iter with
  | None => mret (errCh, None)
  | Some it =>
      if next it <? 0 then mret (errCh, iter)
      else if islen it <=? next it then mret (errCh, Some (mkIter (idata it) (islen it) (islen it) (next it) (error it)))
      else
        match idata it with
        | None => mret (errCh, iter)
        | Some d =>
            r ← read_code_point it (padd d (next it));
            match r with
            | Some (v, ofs) => mret (v, Some (mkIter (idata it) (islen it) (next it) (next it + ofs) 0))
            | None =>
                i ← skip_continuation fuel d (islen it) (next it + 1);
                mret (errCh, Some (mkIter (idata it) (islen it) (next it) i 1))
            end
        end
  end.

Definition utf8IteratorGetCurrCodePoint (iter : option utf8Iterator) (errCh : Z) : BM (Z * option utf8Iterator) :=
  match iter with
  | None => mret (errCh, None)
  | Some it =>
      if next it <? 0 then mret (errCh, iter)
      else if islen it <=? next it then mret (errCh, Some (mkIter (idata it) (islen it) (islen it) (next it) (error it)))
      else
        match idata it with
        | None => mret (errCh, iter)
        | Some d =>
            r ← read_code_point it (padd d (next it));
            match r with
            | Some (v, _) => mret (v, Some (mkIter (idata it) (islen it) (start it) (next it) 0))
            | None => mret (errCh, Some (mkIter (idata it) (islen it) (start it) (next it) 1))
            end
        end
  end.

(** The position of the lead byte and the result so far, or an error: the
    numbers are the lines of the returns. *)
Definition scan_lead (msg : ptr) (pos : Z) : BM (Z + Z * Z) :=
  c ← read_byte (padd msg pos);
  if c <? 0xC0 then
    if pos =? 0 then mret (inl (-58)) else
    p1 ← read_byte (padd msg (pos - 1));
    if (0xC1 <=? p1) && (p1 <? 0xF8) then mret (inr (pos - 1, 1)) else
    if pos =? 1 then mret (inl (-64)) else
    if negb (Z.lor p1 0x3F =? 0xBF) then mret (inl (-65)) else
    p2 ← read_byte (padd msg (pos - 2));
    if (0xE0 <=? p2) && (p2 <? 0xF8) then mret (inr (pos - 2, 2)) else
    if pos =? 2 then mret (inl (-70)) else
    if negb (Z.lor p2 0x3F =? 0xBF) then mret (inl (-71)) else
    p3 ← read_byte (padd msg (pos - 3));
    if Z.lor p3 0x07 =? 0xF7 then mret (inr (pos - 3, 3)) else mret (inl (-75))
  else mret (inr (pos, 0)).

(** The code point whose lead byte is at [pos]. *)
Definition scan_code_point (msg : ptr) (len pos ret : Z) : BM (Z * option Z) :=
  c ← read_byte (padd msg pos);
  if c <? 0xE0 then
    if len <=? pos + 1 then mret (-80, None) else
    x ← read_byte (padd msg (pos + 1));
    let v1 := Z.land c (Z.lnot 0xE0) in let v2 := Z.land x (Z.lnot 0xC0) in
    let v1 := Z.shiftl v1 6 + v2 in
    if v1 <? 0x80 then mret (-84, None) else mret (ret, Some v1)
  else if c <? 0xF0 then
    if len <=? pos + 2 then mret (-89, None) else
    x ← read_byte (padd msg (pos + 1)); y ← read_byte (padd msg (pos + 2));
    let v1 := Z.land c (Z.lnot 0xF0) in let v2 := Z.land x (Z.lnot 0xC0) in let v3 := Z.land y (Z.lnot 0xC0) in
    let v1 := Z.shiftl v1 12 + Z.shiftl v2 6 + v3 in
    if v1 <? 0x800 then mret (-94, None)
    else if negb (isLegalUnicodeCodePoint v1) then mret (-95, None) else mret (ret, Some v1)
  else if 0xF8 <=? c then mret (-100, None)
  else if len <=? pos + 3 then mret (-102, None)
  else
    x ← read_byte (padd msg (pos + 1)); y ← read_byte (padd msg (pos + 2)); z ← read_byte (padd msg (pos + 3));
    let v1 := Z.land c (Z.lnot 0xF8) in let v2 := Z.land x (Z.lnot 0xC0) in
    let v3 := Z.land y (Z.lnot 0xC0) in let v4 := Z.land z (Z.lnot 0xC0) in
    let v1 := Z.shiftl v1 18 + Z.shiftl v2 12 + Z.shiftl v3 6 + v4 in
    if v1 <? 0x10000 then mret (-108, None)
    else if negb (isLegalUnicodeCodePoint v1) then mret (-109, None) else mret (ret, Some v1).

(** The result, and what is stored in [*out] if anything is. *)
Definition utf8ScanBackwardsForCodePoint (msg : option ptr) (len pos : Z) : BM (Z * option Z) :=
  match msg with
  | None => mret (-50, None)
  | Some msg =>
      if (len <? 0) || (u32 len <=? u32 pos) then mret (-50, None) else
      c ← read_byte (padd msg pos);
      if c <? 0x80 then mret (0, Some c) else
      r ← scan_lead msg pos;
      match r with
      | inl e => mret (e, None)
      | inr (pos, ret) => scan_code_point msg len pos ret
      end
  end.

(** ** buniutil.c *)

Definition UNICODE__CODE_POINT__REPLACEMENT_CHARACTER : Z := 0xFFFD.
Definition TEMP_UCS4_BUFFER_SIZE : Z := 64.

Definition more (iter : option utf8Iterator) : bool :=
  match iter with Some it => negb (utf8IteratorNoMore it) | None => false end.

Fixpoint content_loop (fuel : nat) (iter : option utf8Iterator) : BM Z :=
  match fuel with
  | O => λ _, OutOfFuel
  | S fuel' =>
      if more iter then
        r ← utf8IteratorGetNextCodePoint fuel iter (-1);
        if r.1 <=? 0 then mret 0 else content_loop fuel' r.2
      else mret 1
  end.

Definition bdata (b : Z) : BM (option ptr) :=
  if b =? 0 then mret None else s ← deref b; mret (data s).

Definition buIsUTF8Content (fuel : nat) (bu : Z) : BM Z :=
  d ← bdata bu;
  match d with
  | None => mret 0
  | Some d => s ← deref bu; content_loop fuel (Some (utf8IteratorInit (Some d) (slen s)))
  end.

(** The index behind the first [pos] code points, [i] of which are passed. *)
Fixpoint skip_code_points (n : nat) (d : ptr) (pos j i : Z) : BM Z :=
  match n with
  | O => mret j
  | S n =>
      c ← read_byte (padd d j);
      if not_continuation c then
        if pos <=? i then mret j else skip_code_points n d pos (j + 1) (i + 1)
      else skip_code_points n d pos (j + 1) i
  end.

(** The words written so far, how many more fit, the count and the last code point. *)
Fixpoint utf16_loop (fuel : nat) (iter : option utf8Iterator) (errCh : Z) (out : list Z) (len i ucs4 : Z) :
    BM (list Z * Z * Z * Z) :=
  match fuel with
  | O => λ _, OutOfFuel
  | S fuel' =>
      if (0 <? len) && more iter then
        r ← utf8IteratorGetNextCodePoint fuel iter errCh;
        let ucs4 := r.1 in
        if ucs4 <? 0 then mret (out, len, i, ucs4)
        else if ucs4 <? 0x10000 then utf16_loop fuel' r.2 errCh (out ++ [u16 ucs4]) (len - 1) (i + 1) ucs4
        else if len <? 2 then
          utf16_loop fuel' r.2 errCh (out ++ [UNICODE__CODE_POINT__REPLACEMENT_CHARACTER]) (len - 1) (i + 1) ucs4
        else
          let y := ucs4 - 0x10000 in
          let hi := u16 (Z.lor 0xD800 (Z.shiftr y 10)) in let lo := u16 (Z.lor 0xDC00 (Z.land y 0x03FF)) in
          utf16_loop fuel' r.2 errCh (out ++ [hi; lo]) (len - 2) (i + 1 + 1) ucs4
      else mret (out, len, i, ucs4)
  end.

(** The result and the words stored in [ucs2]. *)
Definition buGetBlkUTF16 (fuel : nat) (len errCh bu pos : Z) : BM (Z * list Z) :=
  let errCh := if isLegalUnicodeCodePoint errCh then errCh else UNICODE__CODE_POINT__REPLACEMENT_CHARACTER in
  if len <=? 0 then mret (BSTR_ERR, []) else
  d ← bdata bu;
  match d with
  | None => mret (BSTR_ERR, [])
  | Some d =>
      if pos <? 0 then mret (BSTR_ERR, []) else
      s ← deref bu;
      j ← skip_code_points (Z.to_nat (slen s)) d pos 0 0;
      r ← utf16_loop fuel (Some (utf8IteratorInit (Some (padd d j)) (slen s - j))) errCh [] len 0 BSTR_ERR;
      let '(out, len, i, ucs4) := r in
      mret (if ucs4 <? 0 then BSTR_ERR else i, out ++ replicate (Z.to_nat len) 0)
  end.

(** The bytes stored in the array [c], which is a block of the heap. *)
Definition append_code_point (b v : Z) (c : ptr) : BM Z :=
  if v <? 0x80 then bconchar b (sext 8 v)
  else if v <? 0x800 then
    write_byte c (Z.shiftr v 6 + 0xc0);;
    write_byte (padd c 1) (Z.land v 0x3f + 0x80);;
    bcatblk b (Some c) 2
  else if v <? 0x10000 then
    write_byte c (Z.shiftr v 12 + 0xe0);;
    write_byte (padd c 1) (Z.land (Z.shiftr v 6) 0x3f + 0x80);;
    write_byte (padd c 2) (Z.land v 0x3f + 0x80);;
    bcatblk b (Some c) 3
  else
    write_byte c (Z.shiftr v 18 + 0xf0);;
    write_byte (padd c 1) (Z.land (Z.shiftr v 12) 0x3f + 0x80);;
    write_byte (padd c 2) (Z.land (Z.shiftr v 6) 0x3f + 0x80);;
    write_byte (padd c 3) (Z.land v 0x3f + 0x80);;
    bcatblk b (Some c) 4.

(** [b->slen = oldSlen; return BSTR_ERR;] *)
Definition set_back (b oldSlen : Z) : BM Z :=
  s ← deref b; put b (mkB (mlen s) oldSlen (data s));; mret BSTR_ERR.

Fixpoint append_loop (b : Z) (bu : list Z) (errCh oldSlen : Z) (c : ptr) : BM Z :=
  match bu with
  | [] => mret BSTR_OK
  | v :: bu =>
      if negb (isLegalUnicodeCodePoint v) && (errCh =? -1) then set_back b oldSlen else
      let v := if isLegalUnicodeCodePoint v then v else errCh in
      r ← append_code_point b v c;
      if negb (r =? BSTR_OK) then set_back b oldSlen else append_loop b bu errCh oldSlen c
  end.

(** [bu] is the array, of [len] code points, [None] for NULL; [c] is the address
    of the local array of six bytes. *)
Definition buAppendBlkUcs4 (b : Z) (bu : option (list Z)) (len errCh : Z) (c : ptr) : BM Z :=
  match bu with
  | None => mret BSTR_ERR
  | Some bu =>
      if (b =? 0) || (len <? 0) then mret BSTR_ERR else
      s ← deref b;
      if slen s <? 0 then mret BSTR_ERR else
      let errCh := if isLegalUnicodeCodePoint errCh then errCh else -1 in
      if len <=? zlen bu then append_loop b (take (Z.to_nat len) bu) errCh (slen s) c else λ _, Undef
  end.

Definition endSwap (cs mode : Z) : Z :=
  if negb (mode =? 0) then Z.lor (Z.shiftl (Z.land cs 0xFF) 8) (Z.land (Z.shiftr cs 8) 0xFF) else cs.

(** One code point from the units at [i]: the point, or [None] for ErrMode, and
    the index of its last unit. *)
Definition utf16_point (utf16 : list Z) (len sm i : Z) : res (option Z * Z) :=
  x ← load utf16 i;
  let v := endSwap x sm in
  if Z.lor v 0x7FF =? 0xDFFF then
    if (0xDC00 <=? v) || (len <=? i) then mret (None, i) else
    y ← load utf16 (i + 1);
    let c := endSwap y sm - 0xDC00 in
    if 0x3FF <? c then mret (None, i + 1) else
    mret (Some (Z.shiftl (v - 0xD800) 10 + c + 0x10000), i + 1)
  else mret (Some v, i).

(** [buff] holds the points not yet appended; the number of units bounds the rounds. *)
Fixpoint utf16_append_loop (fuel : nat) (bu : Z) (utf16 : list Z) (len sm i errCh oldSlen : Z) (buff : list Z) (c : ptr) : BM Z :=
  match fuel with
  | O => λ _, OutOfFuel
  | S fuel =>
      if i <? len then
        r ← lift (utf16_point utf16 len sm i);
        let '(point, i) := r in
        match point, errCh =? -1 with
        | None, true => set_back bu oldSlen
        | _, _ =>
            let buff := buff ++ [default errCh point] in
            if TEMP_UCS4_BUFFER_SIZE <=? zlen buff then
              r ← buAppendBlkUcs4 bu (Some buff) (zlen buff) errCh c;
              if r <? 0 then set_back bu oldSlen else utf16_append_loop fuel bu utf16 len sm (i + 1) errCh oldSlen [] c
            else utf16_append_loop fuel bu utf16 len sm (i + 1) errCh oldSlen buff c
        end
      else if 0 <? zlen buff then
        r ← buAppendBlkUcs4 bu (Some buff) (zlen buff) errCh c;
        if r <? 0 then set_back bu oldSlen else mret BSTR_OK
      else mret BSTR_OK
  end.

(** The swap mode, the index behind the byte order mark and what [*bom] becomes. *)
Definition byte_order (utf16 : list Z) (bom : option Z) : res (Z * Z * option Z) :=
  match bom with
  | Some 0xFFFE => mret (8, 0, bom)
  | Some 0xFEFF => mret (0, 0, bom)
  | _ =>
      x ← load utf16 0;
      if x =? 0xFFFE then mret (8, 1, (λ _, x) <$> bom)
      else if x =? 0xFEFF then mret (0, 1, (λ _, x) <$> bom)
      else mret (0, 0, bom)
  end.

(** [utf16] and [bom] are [None] for NULL. *)
Definition buAppendBlkUTF16 (bu : Z) (utf16 : option (list Z)) (len : Z) (bom : option Z) (errCh : Z) (c : ptr) :
    BM (Z * option Z) :=
  d ← bdata bu;
  match d, utf16 with
  | Some _, Some utf16 =>
      if len <? 0 then mret (BSTR_ERR, bom) else
      let errCh := if isLegalUnicodeCodePoint errCh then errCh else -1 in
      if len =? 0 then mret (BSTR_OK, bom) else
      s ← deref bu;
      r ← lift (byte_order utf16 bom);
      let '(sm, i, bom) := r in
      x ← utf16_append_loop (S (Z.to_nat len)) bu utf16 len sm i errCh (slen s) [] c;
      mret (x, bom)
  | _, _ => mret (BSTR_ERR, bom)
  end.

(** * Reference definitions *)

(** The code points that may be encoded. *)
Definition legal (v : Z) : Prop := 0 ≤ v ≤ 0x10FFFF ∧ ¬ (0xD800 ≤ v ≤ 0xDFFF) ∧ v mod 0x10000 < 0xFFFE.

Definition encode (v : Z) : list Z :=
  if v <? 0x80 then [v]
  else if v <? 0x800 then [0xC0 + v / 64; 0x80 + v mod 64]
  else if v <? 0x10000 then [0xE0 + v / 4096; 0x80 + v / 64 mod 64; 0x80 + v mod 64]
  else [0xF0 + v / 262144; 0x80 + v / 4096 mod 64; 0x80 + v / 64 mod 64; 0x80 + v mod 64].

Definition utf8 (vs : list Z) : list Z := concat (encode <$> vs).

#[local] Instance legal_dec v : Decision (legal v).
Proof. unfold legal. apply _. Defined.

(** Illegal points become [errCh]; if that is illegal too, there is no result. *)
Fixpoint replaced (errCh : Z) (vs : list Z) : option (list Z) :=
  match vs with
  | [] => Some []
  | v :: vs =>
      w ← (if decide (legal v) then Some v else if decide (legal errCh) then Some errCh else None);
      ws ← replaced errCh vs;
      Some (w :: ws)
  end.

(** UTF-16. *)
Definition units (v : Z) : list Z :=
  if v <? 0x10000 then [v] else [0xD800 + (v - 0x10000) / 1024; 0xDC00 + (v - 0x10000) mod 1024].

Definition utf16 (vs : list Z) : list Z := concat (units <$> vs).

(** Continuation bytes: those that begin no code point. *)
Definition continuation (c : Z) : bool := (0x80 <=? c) && (c <? 0xC0).

Fixpoint behind_continuation (l : list Z) : list Z :=
  match l with
  | c :: l' => if continuation c then behind_continuation l' else l
  | [] => []
  end.

(** * Decoding *)

(** [read_code_point] on the bytes at hand. *)
Definition decode (l : list Z) : option (Z * Z) :=
  match l with
  | c :: l =>
      if c <? 0x80 then Some (c, 1)
      else if c <? 0xC0 then None
      else if c <? 0xE0 then
        match l with
        | x :: _ =>
            let v := (c - 0xC0) * 64 + (x - 0x80) in
            if continuation x && (0x80 <=? v) then Some (v, 2) else None
        | _ => None
        end
      else if c <? 0xF0 then
        match l with
        | x :: y :: _ =>
            let v := (c - 0xE0) * 4096 + (x - 0x80) * 64 + (y - 0x80) in
            if continuation x && continuation y && (0x800 <=? v) && isLegalUnicodeCodePoint v then Some (v, 3) else None
        | _ => None
        end
      else if c <? 0xF8 then
        match l with
        | x :: y :: z :: _ =>
            let v := (c - 0xF0) * 262144 + (x - 0x80) * 4096 + (y - 0x80) * 64 + (z - 0x80) in
            if continuation x && continuation y && continuation z && (0x10000 <=? v) && isLegalUnicodeCodePoint v then Some (v, 4)
            else None
        | _ => None
        end
      else None
  | [] => None
  end.

Lemma lor_31 a : 0 ≤ a < 32 → Z.lor a 31 = 31.
Proof.
  intros Ha. apply Z.bits_inj'. intros n Hn. rewrite Z.lor_spec. destruct (decide (n < 5)).
  - assert (n = 0 ∨ n = 1 ∨ n = 2 ∨ n = 3 ∨ n = 4) as [->|[->|[->|[->| ->]]]] by lia; cbn; by rewrite orb_true_r.
  - rewrite (testbit_above a 5) by lia. done.
Qed.

Lemma lor_1 a : 0 ≤ a → Z.lor a 1 = 2 * (a / 2) + 1.
Proof.
  intros Ha. rewrite (Z.div_mod a 2) at 1 by lia. assert (a mod 2 = 0 ∨ a mod 2 = 1) as [->| ->] by lia.
  - rewrite Z.add_0_r, Z.mul_comm. change 2 with (2 ^ 1) at 2. rewrite <-Z.shiftl_mul_pow2, lor_shiftl_add by lia. change (2 ^ 1) with 2. lia.
  - replace (2 * (a / 2) + 1) with (a / 2 * 2 ^ 1 + 1) by (change (2 ^ 1) with 2; lia).
    rewrite <-(lor_shiftl_add (a / 2) 1 1) by lia. rewrite <-Z.lor_assoc. done.
Qed.

Lemma isLegal_spec v : INT_MIN ≤ v ≤ INT_MAX → isLegalUnicodeCodePoint v = true ↔ legal v.
Proof.
  intros Hv. unfold isLegalUnicodeCodePoint, legal.
  destruct (decide (0 ≤ v ≤ 0x10FFFF)) as [Hr|Hr].
  2: { split; [|tauto]. intros H. propify. unfold u64 in *. int_lia. }
  assert (u64 v = v) as -> by (unfold u64; apply Z.mod_small; lia).
  assert (Z.lor v 0x1F0001 = 31 * 65536 + (2 * (v mod 65536 / 2) + 1)) as ->.
  { rewrite (Z.div_mod v 65536) at 1 by lia. rewrite (Z.mul_comm 65536).
    change (v / 65536 * 65536) with (v / 65536 * 2 ^ 16). rewrite <-lor_shiftl_add by lia.
    change 0x1F0001 with (Z.lor (Z.shiftl 31 16) 1). set (hi := v / 65536). set (lo := v mod 65536).
    assert (Z.lor (Z.lor (Z.shiftl hi 16) lo) (Z.lor (Z.shiftl 31 16) 1) = Z.lor (Z.shiftl (Z.lor hi 31) 16) (Z.lor lo 1)) as ->.
    { rewrite Z.shiftl_lor. rewrite <-!Z.lor_assoc. f_equal. rewrite !Z.lor_assoc. f_equal. apply Z.lor_comm. }
    rewrite lor_31 by (unfold hi; lia). rewrite lor_1 by (unfold lo; lia). rewrite lor_shiftl_add; [done|done|unfold lo; lia]. }
  change 0x10000 with 65536. split.
  - intros H. propify. lia.
  - intros (_ & Hs & Hm). rewrite !andb_true_iff, orb_true_iff, negb_true_iff. split_and!; [lia|lia|]. apply Z.eqb_neq. lia.
Qed.

Lemma encode_bytes v : legal v → Forall is_byte (encode v).
Proof. intros (Hr & _ & _). unfold encode. repeat case_if; repeat (constructor; [unfold is_byte; lia|]); constructor. Qed.

(** Decoding the encoding of a legal code point. *)
Lemma decode_encode v l : legal v → decode (encode v ++ l) = Some (v, zlen (encode v)).
Proof.
  intros Hv. pose proof Hv as (Hr & Hs & Hm). assert (isLegalUnicodeCodePoint v = true) as Hl by (apply isLegal_spec; [int_lia|done]).
  unfold encode. destruct (v <? 0x80) eqn:E1; propify.
  { cbn [app decode]. rewrite (proj2 (Z.ltb_lt v _)) by done. done. }
  destruct (v <? 0x800) eqn:E2; propify; [|destruct (v <? 0x10000) eqn:E3; propify]; cbn [app decode];
    repeat match goal with
    | |- context [?a <? ?b] => first [rewrite (proj2 (Z.ltb_lt a b)) by lia|rewrite (proj2 (Z.ltb_ge a b)) by lia]
    end.
  - replace ((0xC0 + v / 64 - 0xC0) * 64 + (0x80 + v mod 64 - 0x80)) with v by lia.
    unfold continuation. rewrite !(proj2 (Z.leb_le _ _)), !(proj2 (Z.ltb_lt _ _)) by lia. done.
  - replace ((0xE0 + v / 4096 - 0xE0) * 4096 + (0x80 + v / 64 mod 64 - 0x80) * 64 + (0x80 + v mod 64 - 0x80)) with v by lia.
    unfold continuation. rewrite !(proj2 (Z.leb_le _ _)), !(proj2 (Z.ltb_lt _ _)), Hl by lia. done.
  - replace ((0xF0 + v / 262144 - 0xF0) * 262144 + (0x80 + v / 4096 mod 64 - 0x80) * 4096 + (0x80 + v / 64 mod 64 - 0x80) * 64 +
      (0x80 + v mod 64 - 0x80)) with v by lia.
    unfold continuation. rewrite !(proj2 (Z.leb_le _ _)), !(proj2 (Z.ltb_lt _ _)), Hl by lia. done.
Qed.

(** Only encodings are decoded. *)
Lemma decode_inv l v n : Forall is_byte l → decode l = Some (v, n) → legal v ∧ n = zlen (encode v) ∧ ∃ r, l = encode v ++ r.
Proof.
  intros Hb. destruct l as [|c l]; [done|]. cbn [decode]. rewrite Forall_cons in Hb. destruct Hb as [Hc Hb]. unfold is_byte in Hc.
  destruct (c <? 0x80) eqn:E1; propify.
  { intros [= <- <-]. unfold encode. rewrite (proj2 (Z.ltb_lt c _)) by done. split_and!; [|done|by exists l].
    unfold legal. lia. }
  destruct (c <? 0xC0) eqn:E2; [done|]. destruct (c <? 0xE0) eqn:E3; propify.
  { destruct l as [|x l]; [done|]. case_if; [|done]. unfold continuation in *. intros [= <- <-].
    set (v := (c - 0xC0) * 64 + (x - 0x80)) in *. unfold encode. propify.
    rewrite (proj2 (Z.ltb_ge v _)), (proj2 (Z.ltb_lt v _)) by (unfold v; lia). split_and!; [unfold legal; lia|done|].
    exists l. cbn [app]. f_equal; [unfold v; lia|]. f_equal. unfold v; lia. }
  destruct (c <? 0xF0) eqn:E4; propify.
  { destruct l as [|x [|y l]]; [done..|]. case_if; [|done]. unfold continuation in *. intros [= <- <-]. propify.
    set (v := (c - 0xE0) * 4096 + (x - 0x80) * 64 + (y - 0x80)) in *. assert (v < 0x10000) by (unfold v; lia).
    split_and!; [apply isLegal_spec; [int_lia|done]|..]; unfold encode; rewrite (proj2 (Z.ltb_ge v 0x80)), (proj2 (Z.ltb_ge v 0x800)), (proj2 (Z.ltb_lt v _)) by lia; [done|].
    exists l. cbn [app]. do 2 (f_equal; [unfold v; lia|]). f_equal. unfold v; lia. }
  destruct (c <? 0xF8) eqn:E5; propify; [|done].
  destruct l as [|x [|y [|z l]]]; [done..|]. case_if; [|done]. unfold continuation in *. intros [= <- <-]. propify.
  set (v := (c - 0xF0) * 262144 + (x - 0x80) * 4096 + (y - 0x80) * 64 + (z - 0x80)) in *.
  assert (v < 0x200000) by (unfold v; lia).
  split_and!; [apply isLegal_spec; [int_lia|done]|..]; unfold encode; rewrite (proj2 (Z.ltb_ge v 0x80)), (proj2 (Z.ltb_ge v 0x800)), (proj2 (Z.ltb_ge v 0x10000)) by lia; [done|].
  exists l. cbn [app]. do 3 (f_equal; [unfold v; lia|]). f_equal. unfold v; lia.
Qed.

(** ** The code's decoder *)

Lemma lor_below_64 a b : 0 ≤ a → 0 ≤ b → (0x40 <=? Z.lor a b) = (0x40 <=? a) || (0x40 <=? b).
Proof.
  intros Ha Hb. assert (0 ≤ Z.lor a b) by by apply Z.lor_nonneg.
  assert (∀ x, 0 ≤ x → (64 <=? x) = negb (Z.shiftr x 6 =? 0)) as Hs.
  { intros x Hx. rewrite Z.shiftr_div_pow2 by done. change (2 ^ 6) with 64. destruct (Z.leb_spec 64 x), (Z.eqb_spec (x / 64) 0); (done || lia). }
  rewrite !Hs by done. rewrite Z.shiftr_lor. destruct (Z.eqb_spec (Z.shiftr a 6) 0) as [Ea|Ea], (Z.eqb_spec (Z.shiftr b 6) 0) as [Eb|Eb].
  1: by rewrite Ea, Eb.
  all: destruct (Z.eqb_spec (Z.lor (Z.shiftr a 6) (Z.shiftr b 6)) 0) as [E|E]; [apply Z.lor_eq_0_iff in E; tauto|done].
Qed.

(** The code subtracts 0x80 from a byte and expects less than 0x40. *)
Lemma follower x : is_byte x →
  0 ≤ u8 (x - 0x080) ∧ (0x40 <=? u8 (x - 0x080)) = negb (continuation x) ∧ (continuation x = true → u8 (x - 0x080) = x - 0x80).
Proof.
  unfold is_byte, u8, continuation. intros Hx. change (2 ^ 8) with 256. split; [lia|]. destruct (decide (0x80 ≤ x)).
  - rewrite (Z.mod_small (x - 0x080)) by lia. split; [|done]. destruct (Z.leb_spec 64 (x - 128)), (Z.leb_spec 128 x), (Z.ltb_spec x 192); (done || lia).
  - rewrite <-(Z.mod_add _ 1), (Z.mod_small (x - 0x080 + 1 * 256)) by lia. rewrite (proj2 (Z.leb_gt 128 x)), (proj2 (Z.leb_le 64 _)) by lia. done.
Qed.

Section reading.
Context {A : Type}.
Implicit Types (h : bheap) (Q : A * bheap → Prop).

Lemma step_read_lead h s x c (k : Z → BM A) Q : text h s (x :: c) → returns (k x h) Q → returns ((read_byte s ≫= k) h) Q.
Proof.
  intros HT HQ. destruct s as [b o]. rewrite <-(Z.add_0_r o). by apply (step_read_char h (b, o) (x :: c) 0 x).
Qed.

(** With three more bytes in memory the code reads what [decode] says. *)
Lemma step_read_code_point h it s l (k : option (Z * Z) → BM A) Q :
  text h s l → Forall is_byte l → next it < islen it → 4 ≤ zlen l →
  returns (k (decode l) h) Q → returns ((read_code_point it s ≫= k) h) Q.
Proof.
  intros HT HB Hn Hl HQ. destruct l as [|c [|x [|y [|z l]]]]; try (unfold zlen in Hl; cbn in Hl; lia).
  rewrite !Forall_cons in HB. destruct HB as (Hc & Hx & Hy & Hz & _).
  destruct (follower x Hx) as (Px & Bx & Sx), (follower y Hy) as (Py & By & Sy), (follower z Hz) as (Pz & Bz & Sz).
  unfold read_code_point. unfold is_byte in Hc. apply step_assoc, (step_read_lead h s c (x :: y :: z :: l)); [done|].
  cbn [decode] in HQ. destruct (c <? 0x80) eqn:E1; propify.
  { rewrite (proj2 (Z.ltb_lt c 0xC0)) by lia. cbn [orb]. rewrite (proj2 (Z.leb_gt 0x80 c)) by lia. done. }
  destruct (c <? 0xC0) eqn:E2; propify; cbn [orb].
  { rewrite (proj2 (Z.leb_le 0x80 c)) by lia. done. }
  destruct (0xFD <? c) eqn:E6; propify.
  { rewrite (proj2 (Z.leb_le 0x80 c)) by lia. rewrite !(proj2 (Z.ltb_ge _ _)) in HQ by lia. done. }
  destruct (c <? 0xE0) eqn:E3; propify.
  { rewrite (proj2 (Z.leb_gt (islen it + 1) _)) by lia. apply step_assoc, (step_read_char h s _ 1 x _ _ HT eq_refl). rewrite Bx.
    rewrite (Z.shiftl_mul_pow2 c) by lia. change (Z.shiftl 192 6) with (192 * 2 ^ 6).
    destruct (continuation x) eqn:Ex; cbn [andb] in HQ; [|done]. rewrite (Sx eq_refl).
    replace (c * 2 ^ 6 - 192 * 2 ^ 6 + (x - 128)) with ((c - 192) * 64 + (x - 128)) by lia. rewrite Z.leb_antisym in HQ. by destruct (_ <? 128). }
  destruct (c <? 0xF0) eqn:E4; propify.
  { rewrite (proj2 (Z.leb_gt (islen it + 2) _)) by lia.
    apply step_assoc, (step_read_char h s _ 1 x _ _ HT eq_refl), step_assoc, (step_read_char h s _ 2 y _ _ HT eq_refl).
    rewrite lor_below_64, Bx, By by done. rewrite !Z.shiftl_mul_pow2 by lia.
    destruct (continuation x) eqn:Ex; cbn [andb] in HQ; [|done]. destruct (continuation y) eqn:Ey; cbn [andb] in HQ; [|done].
    rewrite Sx, Sy by done. replace (c * 2 ^ 12 - 224 * 2 ^ 12 + ((x - 128) * 2 ^ 6 + (y - 128))) with ((c - 224) * 4096 + (x - 128) * 64 + (y - 128)) by lia.
    rewrite Z.leb_antisym in HQ. destruct (_ <? 2048); [done|]. cbn [negb andb orb] in *. by destruct (isLegalUnicodeCodePoint _). }
  destruct (c <? 0xF8) eqn:E5; propify; [|done].
  rewrite (proj2 (Z.leb_gt (islen it + 3) _)) by lia.
  apply step_assoc, (step_read_char h s _ 1 x _ _ HT eq_refl), step_assoc, (step_read_char h s _ 2 y _ _ HT eq_refl), step_assoc, (step_read_char h s _ 3 z _ _ HT eq_refl).
  rewrite !lor_below_64, Bx, By, Bz by (done || by apply Z.lor_nonneg). rewrite !Z.shiftl_mul_pow2 by lia.
  destruct (continuation x) eqn:Ex; cbn [andb] in HQ; [|done]. destruct (continuation y) eqn:Ey; cbn [andb] in HQ; [|done].
  destruct (continuation z) eqn:Ez; cbn [andb] in HQ; [|done].
  rewrite Sx, Sy, Sz by done.
  replace (c * 2 ^ 18 - 240 * 2 ^ 18 + ((x - 128) * 2 ^ 12 + (y - 128) * 2 ^ 6 + (z - 128))) with ((c - 240) * 262144 + (x - 128) * 4096 + (y - 128) * 64 + (z - 128)) by lia.
  rewrite Z.leb_antisym in HQ. destruct (_ <? 65536); [done|]. cbn [negb andb orb] in *. by destruct (isLegalUnicodeCodePoint _).
Qed.
End reading.

(** * Iterating *)

Definition byte_table : bool := forallb (λ c, eqb (not_continuation c) (negb (continuation c))) (seqZ 0 256).

Lemma not_continuation_eq c : is_byte c → not_continuation c = negb (continuation c).
Proof.
  intros Hc. assert (byte_table = true) as H by by vm_compute. unfold byte_table in H. rewrite forallb_forall in H.
  apply eqb_prop, H, list_elem_of_In, elem_of_seqZ. unfold is_byte in Hc. lia.
Qed.

Lemma zdrop_cons {A} (l : list A) i x : zget l i = Some x → drop (Z.to_nat i) l = x :: drop (Z.to_nat (i + 1)) l.
Proof.
  intros Hx. pose proof (zget_Some_range _ _ _ Hx). rewrite zget_of_lookup in Hx by lia.
  rewrite (drop_S _ _ _ Hx). by replace (Z.to_nat (i + 1)) with (S (Z.to_nat i)) by lia.
Qed.

(** Where the next code point after [i] may begin. *)
Definition next_lead (t : list Z) (i : Z) : Z := zlen t - zlen (behind_continuation (drop (Z.to_nat i) t)).

Lemma next_lead_range t i : 0 ≤ i ≤ zlen t → i ≤ next_lead t i ≤ zlen t.
Proof.
  intros Hi. unfold next_lead. pose proof (zlen_nonneg (behind_continuation (drop (Z.to_nat i) t))).
  assert (∀ l, zlen (behind_continuation l) ≤ zlen l) as Hl.
  { induction l as [|c l IH]; [done|]. cbn. case_if; [rewrite zlen_cons|]; lia. }
  pose proof (Hl (drop (Z.to_nat i) t)). rewrite zlen_drop in * by lia. lia.
Qed.

Section iterating.
Context {A : Type}.
Implicit Types (h : bheap) (Q : A * bheap → Prop).

Lemma step_skip_continuation h d t pad (k : Z → BM A) Q fuel : ∀ i,
  text h d (t ++ pad) → Forall is_byte t → 0 ≤ i ≤ zlen t → zlen t - i < Z.of_nat fuel →
  returns (k (next_lead t i) h) Q → returns ((skip_continuation fuel d (zlen t) i ≫= k) h) Q.
Proof.
  induction fuel as [|fuel IH]; intros i HT HB Hi Hf HQ; [lia|]. cbn [skip_continuation]. unfold next_lead in HQ.
  destruct (i <? zlen t) eqn:E; propify.
  - destruct (zget_is_Some t i) as [x Hx]; [lia|]. rewrite (zdrop_cons t i x Hx) in HQ. cbn [behind_continuation] in HQ.
    apply step_assoc, (step_read_char h d (t ++ pad) i x); [done|by rewrite zget_app_l by done|].
    assert (is_byte x) as Hb by (eapply Forall_lookup_1; [exact HB|]; rewrite zget_of_lookup in Hx by lia; done).
    rewrite (not_continuation_eq x Hb). destruct (continuation x); cbn [negb].
    + apply IH; [done|done|lia|lia|done].
    + apply step_ret. replace (zlen t - zlen (x :: drop (Z.to_nat (i + 1)) t)) with i in HQ; [done|]. rewrite zlen_cons, zlen_drop; lia.
  - assert (i = zlen t) as -> by lia. apply step_ret. replace (zlen t - _) with (zlen t) in HQ; [done|].
    rewrite drop_ge by (unfold zlen; lia). cbn. change (zlen []) with 0. lia.
Qed.

(** The next code point, or the error character and the place to go on. *)
Lemma step_next h it d t pad errCh fuel (k : Z * option utf8Iterator → BM A) Q :
  idata it = Some d → islen it = zlen t → 0 ≤ next it < zlen t →
  text h d (t ++ pad) → Forall is_byte (t ++ pad) → 3 ≤ zlen pad → zlen t - next it ≤ Z.of_nat fuel →
  returns (k (match decode (drop (Z.to_nat (next it)) (t ++ pad)) with
              | Some (v, n) => (v, Some (mkIter (Some d) (zlen t) (next it) (next it + n) 0))
              | None => (errCh, Some (mkIter (Some d) (zlen t) (next it) (next_lead t (next it + 1)) 1))
              end) h) Q →
  returns ((utf8IteratorGetNextCodePoint fuel (Some it) errCh ≫= k) h) Q.
Proof.
  intros Hd Hl Hi HT HB Hp Hf HQ. unfold utf8IteratorGetNextCodePoint.
  rewrite (proj2 (Z.ltb_ge (next it) 0)), Hl, (proj2 (Z.leb_gt (zlen t) _)), Hd by lia.
  assert (text h (padd d (next it)) (drop (Z.to_nat (next it)) (t ++ pad))) as HT'.
  { rewrite <-(take_drop (Z.to_nat (next it)) (t ++ pad)) in HT. apply text_drop in HT.
    rewrite zlen_take in HT; [done|]. rewrite zlen_app. lia. }
  apply step_assoc, (step_read_code_point h it _ (drop (Z.to_nat (next it)) (t ++ pad))); [done|by apply Forall_drop|lia| |].
  { rewrite zlen_drop, zlen_app; [lia|]. rewrite zlen_app. lia. }
  destruct (decode _) as [[v n]|].
  - apply step_ret. exact HQ.
  - apply step_assoc, (step_skip_continuation h d t pad); [done|by apply Forall_app in HB as [? _]|lia|lia|].
    apply step_ret. exact HQ.
Qed.
End iterating.

(** ** Texts that are encodings *)

Lemma encode_length v : 0 < zlen (encode v).
Proof. unfold encode. repeat case_if; done. Qed.

Lemma encode_lead v : 0 ≤ v → ∃ x l, encode v = x :: l ∧ Forall (λ c, 0x80 ≤ c) l ∧ (v ≠ 0 → x ≠ 0).
Proof.
  intros Hv. unfold encode. repeat case_if; eexists _, _; (split; [reflexivity|]); (split; [|intros; propify; lia]);
    repeat (constructor; [lia|]); constructor.
Qed.

(** An encoding does not go on over a terminator. *)
Lemma encode_within v r rest pad : 0 ≤ v → encode v ++ r = rest ++ 0 :: pad → rest ≠ [] → ∃ rest', rest = encode v ++ rest'.
Proof.
  intros Hv E Hne. destruct (encode_lead v Hv) as (x & l & El & Hl & _).
  destruct (decide (length (encode v) ≤ length rest)%nat) as [Hle|Hgt].
  - exists (drop (length (encode v)) rest). rewrite <-(take_drop (length (encode v)) rest) at 1. f_equal.
    apply (f_equal (take (length (encode v)))) in E. rewrite take_app_length, take_app_le in E by done. done.
  - exfalso. assert (encode v !! length rest = Some 0) as Hz.
    { rewrite <-(lookup_app_l _ r) by lia. rewrite E. by rewrite lookup_app_r, Nat.sub_diag by done. }
    rewrite El in Hz. destruct rest as [|y rest]; [done|]. cbn in Hz. rewrite Forall_lookup in Hl. apply Hl in Hz. lia.
Qed.

Lemma utf8_cons v vs : utf8 (v :: vs) = encode v ++ utf8 vs.
Proof. done. Qed.

Lemma utf8_app vs ws : utf8 (vs ++ ws) = utf8 vs ++ utf8 ws.
Proof. unfold utf8. by rewrite fmap_app, concat_app. Qed.

Lemma utf8_bytes vs : Forall legal vs → Forall is_byte (utf8 vs).
Proof. induction 1 as [|v vs Hv _ IH]; [done|]. rewrite utf8_cons. apply Forall_app. split; [by apply encode_bytes|done]. Qed.

(** * Validity *)

(** Texts of legal code points other than U+0000. *)
Definition proper (l : list Z) : Prop := ∃ vs, Forall (λ v, legal v ∧ v ≠ 0) vs ∧ l = utf8 vs.

Lemma proper_encode v l : legal v → v ≠ 0 → proper (encode v ++ l) ↔ proper l.
Proof.
  intros Hv H0. split.
  - intros (vs & Hvs & E). destruct vs as [|w vs].
    { pose proof (encode_length v). apply (f_equal zlen) in E. rewrite zlen_app in E. pose proof (zlen_nonneg l). change (zlen (utf8 [])) with 0 in E. lia. }
    rewrite utf8_cons in E. apply Forall_cons in Hvs as [[Hw _] Hvs].
    pose proof (decode_encode v l Hv) as D. rewrite E, decode_encode in D by done. injection D as [= -> _].
    apply app_inv_head in E. by exists vs.
  - intros (vs & Hvs & ->). exists (v :: vs). by split; [constructor|].
Qed.

Lemma content_loop_ok h d t pad fuel : ∀ st i e,
  text h d (t ++ 0 :: pad) → Forall is_byte (t ++ 0 :: pad) → 2 ≤ zlen pad → 0 ≤ i ≤ zlen t → zlen t - i < Z.of_nat fuel →
  returns (content_loop fuel (Some (mkIter (Some d) (zlen t) st i e)) h)
    (λ '(r, h'), h' = h ∧ (r = 1 ∧ proper (drop (Z.to_nat i) t) ∨ r = 0 ∧ ¬ proper (drop (Z.to_nat i) t))).
Proof.
  induction fuel as [|fuel IH]; intros st i e HT HB Hp Hi Hf; [lia|]. cbn [content_loop more].
  unfold utf8IteratorNoMore. cbn [islen next]. destruct (zlen t <=? i) eqn:E; propify; cbn [negb].
  { apply returns_mret. split; [done|]. left. split; [done|]. rewrite drop_ge by (unfold zlen in *; lia). by exists []. }
  apply (step_next h _ d t (0 :: pad)); cbn [idata islen next]; [done|done|lia|done|done|rewrite zlen_cons; lia|lia|].
  rewrite drop_app_le by (unfold zlen in *; lia). set (rest := drop (Z.to_nat i) t) in *.
  assert (zlen rest = zlen t - i) as Hrest by (unfold rest; rewrite zlen_drop; lia).
  destruct (decode (rest ++ 0 :: pad)) as [[v n]|] eqn:D; cbn [fst snd].
  - assert (Forall is_byte (rest ++ 0 :: pad)) as HB'.
    { apply Forall_app in HB as [? ?]. apply Forall_app. split; [by apply Forall_drop|done]. }
    destruct (decode_inv _ _ _ HB' D) as (Hv & -> & r & Er). pose proof Hv as (Hv0 & _ & _).
    destruct (encode_within v r rest pad) as [rest' E']; [lia|done|intros Hn; rewrite Hn in Hrest; unfold zlen in *; cbn in Hrest; lia|].
    destruct (decide (v = 0)) as [->|Hv1].
    { cbn [Z.leb]. apply returns_mret. split; [done|]. right. split; [done|]. rewrite E'. intros (vs & Hvs & Evs).
      destruct vs as [|w vs]; [done|]. apply Forall_cons in Hvs as [[Hw Hw0] _]. rewrite utf8_cons in Evs.
      pose proof (decode_encode 0 rest' Hv) as D0. rewrite Evs, decode_encode in D0 by done. congruence. }
    rewrite (proj2 (Z.leb_gt v 0)) by lia. pose proof (encode_length v).
    rewrite E', zlen_app in Hrest. pose proof (zlen_nonneg rest').
    eapply returns_mono; [apply IH; try done; lia|].
    intros [x h']. cbv beta iota. replace (drop (Z.to_nat (i + zlen (encode v))) t) with rest'; [by rewrite E', proper_encode|].
    replace (Z.to_nat (i + zlen (encode v))) with (Z.to_nat i + length (encode v))%nat by (unfold zlen; lia).
    rewrite <-drop_drop. fold rest. by rewrite E', drop_app_length.
  - apply returns_mret. split; [done|]. right. split; [done|]. intros (vs & Hvs & Evs). destruct vs as [|w vs].
    { rewrite Evs in Hrest. unfold zlen in *. cbn in Hrest. lia. }
    apply Forall_cons in Hvs as [[Hw _] _]. rewrite Evs, utf8_cons, <-app_assoc, decode_encode in D by done. done.
Qed.

(** * Appending *)

(** ** Appending code points *)

Section points.
Context (h : bheap) (b B C : Z).
Context (OK : heap_ok h) (HCB : C ≠ B) (HC : is_Some (blocks h !! C)).

(** The heap with the local array holding [carr]. *)
Definition with_array (carr : list Z) : bheap := with_blocks h (<[C := carr]> (blocks h)).

Lemma array_block carr h1 s1 B1 buf1 : upd (with_array carr) b B h1 s1 B1 buf1 → blocks h1 !! C = Some carr ∧ C ≠ B1.
Proof using HCB.
  intros Hu. assert (blocks (with_array carr) !! C = Some carr) as Hc by apply lookup_insert_eq.
  split; [by apply (upd_frame _ _ _ _ _ _ _ Hu)|]. destruct (u_fresh _ _ _ _ _ _ _ Hu) as [->|Hf]; congruence.
Qed.

Lemma step_array_write {A} carr h1 s1 B1 buf1 i x (k : unit → BM A) (Q : A * bheap → Prop) :
  upd (with_array carr) b B h1 s1 B1 buf1 → 0 ≤ i < zlen carr →
  (∀ h2, zlen (zwrite carr i [u8 x]) = zlen carr → upd (with_array (zwrite carr i [u8 x])) b B h2 s1 B1 buf1 → returns (k tt h2) Q) →
  returns ((write_byte (padd (C, 0) i) x ≫= k) h1) Q.
Proof using HCB.
  intros Hu Hi Hk. destruct (array_block _ _ _ _ _ Hu) as [Hc Hne]. unfold write_byte, padd. cbn [fst snd]. rewrite Z.add_0_l.
  rewrite M_bind_eq, (store_bytes_ok _ _ carr); cbn [fst snd]; [|done|lia|change (zlen [u8 x]) with 1; lia]. cbn [mbind res_bind].
  apply Hk; [apply zlen_zwrite; change (zlen [u8 x]) with 1; lia|]. destruct Hu as [Es Eb Hd Hm Hf OK1]. split; cbn; try done.
  - rewrite Eb. unfold with_array. cbn [blocks with_blocks]. rewrite !delete_insert_ne by congruence.
    rewrite (insert_insert_ne _ C B1) by done. by rewrite insert_insert_eq.
  - destruct Hf as [->|Hf]; [by left|right]. unfold with_array in *. cbn [blocks with_blocks] in *. apply lookup_insert_None in Hf as [? ?]. by rewrite lookup_insert_ne.
  - apply heap_ok_with_blocks; [done|]. by rewrite Hc.
Qed.

Lemma array_2 (c0 c1 c2 c3 c4 c5 x y : Z) : zslice (zwrite (zwrite [c0; c1; c2; c3; c4; c5] 0 [x]) 1 [y]) 0 2 = [x; y].
Proof. done. Qed.

Lemma array_3 (c0 c1 c2 c3 c4 c5 x y z : Z) : zslice (zwrite (zwrite (zwrite [c0; c1; c2; c3; c4; c5] 0 [x]) 1 [y]) 2 [z]) 0 3 = [x; y; z].
Proof. done. Qed.

Lemma array_4 (c0 c1 c2 c3 c4 c5 x y z w : Z) :
  zslice (zwrite (zwrite (zwrite (zwrite [c0; c1; c2; c3; c4; c5] 0 [x]) 1 [y]) 2 [z]) 3 [w]) 0 4 = [x; y; z; w].
Proof. done. Qed.

Lemma step_append_code_point {A} v carr h1 s1 B1 buf1 (k : Z → BM A) (Q : A * bheap → Prop) :
  upd (with_array carr) b B h1 s1 B1 buf1 → zlen carr = 6 → legal v → 0 ≤ slen s1 < mlen s1 → 8 * mlen s1 ≤ INT_MAX → slen s1 + 4 < INT_MAX →
  (∀ h' carr', zlen carr' = 6 → upd (with_array carr') b B h' s1 B1 buf1 → oom h' = true → returns (k BSTR_ERR h') Q) →
  (∀ h' carr' s' B' buf', zlen carr' = 6 → upd (with_array carr') b B h' s' B' buf' → grown s1 (content s1 buf1) (encode v) s' buf' →
    returns (k BSTR_OK h') Q) →
  returns ((append_code_point b v (C, 0) ≫= k) h1) Q.
Proof using OK HCB HC.
  intros Hu Hl Hv Hs Hm Hmax Hfail Hok. pose proof Hv as (Hr & _ & _). unfold append_code_point.
  destruct carr as [|c0 [|c1 [|c2 [|c3 [|c4 [|c5 [|]]]]]]]; try (unfold zlen in Hl; cbn in Hl; lia). clear Hl.
  assert (∀ n (carr' xs : list Z) h', upd (with_array carr') b B h' s1 B1 buf1 → zlen carr' = 6 → 0 ≤ n ≤ 4 → zslice carr' 0 n = xs → encode v = xs →
    returns ((bcatblk b (Some (C, 0)) n ≫= k) h') Q) as Hcat.
  { intros n carr' xs h' Hu' Hl' Hn Hxs Hev. destruct (array_block _ _ _ _ _ Hu') as [Hc Hne].
    apply (step_bcatblk (with_array carr') b B h' s1 B1 buf1 C 0 carr' xs); [done|lia|done|done|done|lia|lia|lia|done|lia|..].
    - intros h2 Hu2 Ho. by apply (Hfail h2 carr').
    - intros h2 s' B' buf' Hu2 HG. rewrite <-Hev in HG. by apply (Hok h2 carr' s' B' buf'). }
  unfold encode in Hcat, Hok. rewrite !Z.shiftr_div_pow2 by lia. change 0x3f with (Z.ones 6). rewrite !Z.land_ones by lia.
  destruct (v <? 0x80) eqn:E1; propify.
  { assert (u8 (sext 8 v) = v) as Ec.
    { unfold sext, u8. change (2 ^ 8) with 256. change (2 ^ (8 - 1)) with 128. rewrite (Z.mod_small v) by lia. rewrite (proj2 (Z.ltb_lt v 128)) by lia. lia. }
    apply (step_bconchar (with_array [c0; c1; c2; c3; c4; c5]) b B h1 s1 B1 buf1); [done|lia|done|..].
    - intros h2 Hu2 Ho. by apply (Hfail h2 [c0; c1; c2; c3; c4; c5]).
    - intros h2 s' B' buf' Hu2 HG. rewrite Ec in HG. by apply (Hok h2 [c0; c1; c2; c3; c4; c5] s' B' buf'). }
  destruct (v <? 0x800) eqn:E2; propify; [|destruct (v <? 0x10000) eqn:E3; propify];
    apply step_assoc; change (write_byte (C, 0)) with (@write_byte tagbstring (padd (C, 0) 0));
    (eapply step_array_write; [exact Hu|rewrite ?L4, ?L3, ?L2; unfold zlen; cbn; lia|]); intros h2 L2 Hu2; apply step_assoc;
    (eapply step_array_write; [exact Hu2|rewrite ?L4, ?L3, ?L2; unfold zlen; cbn; lia|]); intros h3 L3 Hu3.
  - eapply Hcat; [exact Hu3|by rewrite L3, L2|lia|apply array_2|]. unfold u8. change (2 ^ 6) with 64. change (2 ^ 8) with 256. f_equal; [lia|]. f_equal. lia.
  - apply step_assoc; (eapply step_array_write; [exact Hu3|rewrite ?L4, ?L3, ?L2; unfold zlen; cbn; lia|]); intros h4 L4 Hu4.
    eapply Hcat; [exact Hu4|by rewrite L4, L3, L2|lia|apply array_3|]. unfold u8. change (2 ^ 6) with 64. change (2 ^ 8) with 256. change (2 ^ 12) with 4096. do 2 (f_equal; [lia|]). f_equal. lia.
  - apply step_assoc; (eapply step_array_write; [exact Hu3|rewrite ?L4, ?L3, ?L2; unfold zlen; cbn; lia|]); intros h4 L4 Hu4.
    apply step_assoc; (eapply step_array_write; [exact Hu4|rewrite ?L4, ?L3, ?L2; unfold zlen; cbn; lia|]); intros h5 L5 Hu5.
    eapply Hcat; [exact Hu5|by rewrite L5, L4, L3, L2|lia|apply array_4|]. unfold u8. change (2 ^ 6) with 64. change (2 ^ 8) with 256. change (2 ^ 12) with 4096. change (2 ^ 18) with 262144. do 3 (f_equal; [lia|]). f_equal. lia.
Qed.

Lemma set_back_ok carr c0 h1 s1 B1 buf1 c old :
  zlen carr = 6 → upd (with_array carr) b B h1 s1 B1 buf1 → content s1 buf1 = c0 ++ c → old = zlen c0 →
  returns (set_back b old h1) (λ '(r, h'), r = BSTR_ERR ∧ (oom h1 = true → oom h' = true) ∧ ∃ carr' s' B' buf', zlen carr' = 6 ∧
    upd (with_array carr') b B h' s' B' buf' ∧ slen s' = old ∧ content s' buf' = c0).
Proof.
  intros Hl Hu Hc ->.
  enough (returns (set_back b (zlen c0) h1) (λ '(r, h'), r = BSTR_ERR ∧ ∃ carr' s' B' buf', zlen carr' = 6 ∧
    upd (with_array carr') b B h' s' B' buf' ∧ slen s' = zlen c0 ∧ content s' buf' = c0)) as HS.
  { eapply returns_mono; [apply flagged_returns; [unfold set_back; flagged_cases|exact HS]|]. intros [r h'] [[-> HS'] Ho]. done. }
  unfold set_back. apply (step_deref_upd (with_array carr) b B h1 s1 B1 buf1); [done|].
  apply (step_put (with_array carr) b B h1 s1 B1 buf1); [done..|]. intros h2 Hu2. apply returns_mret. split; [done|].
  exists carr. eexists _, B1, buf1. split_and!; [done|exact Hu2|done|]. unfold content in *. cbn [slen].
  assert (take (Z.to_nat (zlen c0)) (take (Z.to_nat (slen s1)) buf1) = c0) as E.
  { rewrite Hc. unfold zlen. rewrite Nat2Z.id. apply take_app_length. }
  rewrite <-E at 2. rewrite take_take. f_equal. apply (f_equal length) in Hc. rewrite length_take, length_app in Hc. unfold zlen. lia.
Qed.

(** How appending [vs] behind the content [c0] and the points [ws] ends; [L]
    bounds the buffer. The content is restored when an allocation has failed or a point
    cannot be replaced. *)
Definition appended (L : Z) (c0 : list Z) (errCh : Z) (ws vs : list Z) (rh : Z * bheap) : Prop :=
  let '(r, h') := rh in
  ∃ carr' s' B' buf', zlen carr' = 6 ∧ upd (with_array carr') b B h' s' B' buf' ∧
    (r = BSTR_OK ∧ terminated s' buf' ∧ mlen s' ≤ L ∧ (∃ ws', replaced errCh vs = Some ws' ∧ content s' buf' = c0 ++ utf8 (ws ++ ws')) ∨
     r = BSTR_ERR ∧ (oom h' = true ∨ replaced errCh vs = None) ∧ slen s' = zlen c0 ∧ content s' buf' = c0).

Lemma append_loop_ok errCh L c0 vs : ∀ carr h1 s1 B1 buf1 ws,
  upd (with_array carr) b B h1 s1 B1 buf1 → zlen carr = 6 → terminated s1 buf1 → content s1 buf1 = c0 ++ utf8 ws →
  Forall (λ v, INT_MIN ≤ v ≤ INT_MAX) vs → INT_MIN ≤ errCh ≤ INT_MAX →
  mlen s1 ≤ L → 2 * (slen s1 + 4 * zlen vs) + 8 ≤ L → 8 * L ≤ INT_MAX →
  returns (append_loop b vs (if isLegalUnicodeCodePoint errCh then errCh else -1) (zlen c0) (C, 0) h1)
    (appended L c0 errCh ws vs).
Proof using OK HCB HC.
  induction vs as [|v vs IH]; intros carr h1 s1 B1 buf1 ws Hu Hl Ht Hc Hvs He Hm Hsum HL; cbn [append_loop].
  { apply returns_mret. exists carr, s1, B1, buf1. split_and!; [done|done|]. left. split_and!; [done|done|done|].
    exists []. by rewrite app_nil_r. }
  apply Forall_cons in Hvs as [Hv Hvs]. rewrite zlen_cons in Hsum. pose proof (zlen_nonneg vs).
  assert (∀ h2 carr2 s2 B2 buf2 ws2, zlen carr2 = 6 → upd (with_array carr2) b B h2 s2 B2 buf2 → content s2 buf2 = c0 ++ ws2 →
    oom h2 = true ∨ replaced errCh (v :: vs) = None →
    returns (set_back b (zlen c0) h2) (appended L c0 errCh ws (v :: vs))) as Hback.
  { intros h2 carr2 s2 B2 buf2 ws2 Hl2 Hu2 Hc2 Hwhy. eapply returns_mono; [by eapply set_back_ok|].
    intros [r h'] (-> & Ho & carr' & s' & B' & buf' & ?). exists carr', s', B', buf'. tauto. }
  set (e := if isLegalUnicodeCodePoint errCh then errCh else -1) in *.
  assert (∀ w, legal w → (if decide (legal v) then Some v else if decide (legal errCh) then Some errCh else None) = Some w →
    returns ((r ← append_code_point b w (C, 0); if negb (r =? BSTR_OK) then set_back b (zlen c0) else append_loop b vs e (zlen c0) (C, 0)) h1)
      (appended L c0 errCh ws (v :: vs))) as Happ.
  { intros w Hw Ew. assert (zlen (encode w) ≤ 4) as Hle by (unfold encode; repeat case_if; done).
    destruct Ht as [Hs Hz]. apply (step_append_code_point w carr h1 s1 B1 buf1); [done|done|done|lia|lia|int_lia|..].
    - intros h2 carr2 Hl2 Hu2 Ho. apply (Hback h2 carr2 s1 B1 buf1 (utf8 ws)); [done|done|done|by left].
    - intros h2 carr2 s2 B2 buf2 Hl2 Hu2 (Ht2 & Hc2 & Hs2 & Hm2). cbn [Z.eqb negb BSTR_OK].
      eapply returns_mono; [apply (IH carr2 h2 s2 B2 buf2 (ws ++ [w])); try done; try lia|].
      + rewrite Hc2, Hc, utf8_app, <-app_assoc. unfold utf8 at 3. cbn [fmap list_fmap concat]. by rewrite app_nil_r.
      + intros [r h'] (carr' & s' & B' & buf' & Hl' & Hu' & Hr). exists carr', s', B', buf'. split_and!; [done|done|].
        destruct Hr as [(-> & Ht' & HL' & ws' & Ews & Hc')|(-> & Hwhy & Hr)].
        2: { right. split_and!; [done| |apply Hr|apply Hr]. destruct Hwhy as [Ho|En]; [by left|right]. cbn [replaced]. by rewrite Ew, En. }
        left. split_and!; [done|done|done|].
        exists (w :: ws'). cbn [replaced]. rewrite Ew, Ews. cbn. split; [done|]. by rewrite Hc', <-app_assoc. }
  destruct (isLegalUnicodeCodePoint v) eqn:Ev; cbn [negb andb].
  - apply isLegal_spec in Ev; [|done]. apply Happ; [done|]. by rewrite decide_True.
  - assert (¬ legal v) as Hnv by (intros H0; apply isLegal_spec in H0; [congruence|done]).
    rewrite decide_False in Happ by done. destruct (isLegalUnicodeCodePoint errCh) eqn:Ee; subst e.
    + apply isLegal_spec in Ee; [|done]. assert ((errCh =? -1) = false) as -> by (unfold legal in Ee; lia).
      apply Happ; [done|]. by rewrite decide_True.
    + cbn [Z.eqb Pos.eqb]. apply (Hback h1 carr s1 B1 buf1 (utf8 ws)); [done|done|done|right]. cbn [replaced].
      rewrite !decide_False; [done| |done]. intros H0. apply isLegal_spec in H0; [congruence|done].
Qed.

(** The whole call, on a string of which the array and the rest of the heap are as
    in [with_array]. *)
Lemma buAppendBlkUcs4_ok errCh L vs carr h1 s1 B1 buf1 :
  upd (with_array carr) b B h1 s1 B1 buf1 → zlen carr = 6 → terminated s1 buf1 →
  Forall (λ v, INT_MIN ≤ v ≤ INT_MAX) vs → INT_MIN ≤ errCh ≤ INT_MAX →
  mlen s1 ≤ L → 2 * (slen s1 + 4 * zlen vs) + 8 ≤ L → 8 * L ≤ INT_MAX →
  returns (buAppendBlkUcs4 b (Some vs) (zlen vs) errCh (C, 0) h1) (appended L (content s1 buf1) errCh [] vs).
Proof using OK HCB HC.
  intros Hu Hl Ht Hvs He Hm Hsum HL. pose proof Ht as [Hs _]. pose proof (zlen_nonneg vs).
  destruct (upd_writable' _ _ _ _ _ _ _ Hu Hs) as [W OK1]. unfold buAppendBlkUcs4.
  rewrite (proj2 (Z.eqb_neq b 0)), (proj2 (Z.ltb_ge (zlen vs) 0)) by (lia || by eapply b_nonnull). cbn [orb].
  apply (step_deref_upd (with_array carr) b B h1 s1 B1 buf1); [done|]. rewrite (proj2 (Z.ltb_ge (slen s1) 0)) by lia.
  rewrite (proj2 (Z.leb_le (zlen vs) _)) by done. rewrite take_ge by (unfold zlen; lia).
  assert (slen s1 = zlen (content s1 buf1)) as Elen.
  { symmetry. apply zlen_content. pose proof (u_mlen _ _ _ _ _ _ _ Hu). lia. }
  rewrite Elen. apply (append_loop_ok errCh L (content s1 buf1) vs carr h1 s1 B1 buf1 []); try done; [by rewrite app_nil_r].
Qed.
End points.

(** ** UTF-16 *)

Lemma lor_2047 v : 0 ≤ v → Z.lor v 0x7FF = 2048 * (v / 2048) + 2047.
Proof.
  intros Hv. assert (v = Z.lor (Z.shiftl (v / 2048) 11) (v mod 2048)) as E.
  { rewrite lor_shiftl_add by (change (2 ^ 11) with 2048; lia). change (2 ^ 11) with 2048. lia. }
  rewrite E at 1.
  rewrite <-Z.lor_assoc. assert (Z.lor (v mod 2048) 2047 = 2047) as ->.
  { apply Z.bits_inj'. intros n Hn. rewrite Z.lor_spec. change 2047 with (Z.ones 11). rewrite Z.testbit_ones_nonneg by lia.
    destruct (n <? 11) eqn:En; propify; [apply orb_true_r|]. by rewrite (testbit_above _ 11) by (change (2 ^ 11) with 2048; lia). }
  rewrite lor_shiftl_add by (change (2 ^ 11) with 2048; lia). change (2 ^ 11) with 2048. lia.
Qed.

(** The byte swap of units, and reading them with it. *)
Definition swapped (sm v : Z) : Prop := endSwap (endSwap v sm) sm = v.

Lemma endSwap_swapped sm v : 0 ≤ v < 65536 → swapped sm v.
Proof.
  intros Hv. unfold swapped, endSwap. destruct (sm =? 0); cbn [negb]; [done|].
  assert (∀ x, 0 ≤ x < 65536 → Z.lor (Z.shiftl (Z.land x 255) 8) (Z.land (Z.shiftr x 8) 255) = x mod 256 * 256 + x / 256) as E.
  { intros x Hx. change 255 with (Z.ones 8). rewrite !Z.land_ones, Z.shiftr_div_pow2 by lia. change (2 ^ 8) with 256.
    rewrite lor_shiftl_add by (change (2 ^ 8) with 256; lia). change (2 ^ 8) with 256. lia. }
  rewrite !E by (rewrite ?E by done; lia). lia.
Qed.

Lemma units_range v : legal v → Forall (λ x, 0 ≤ x < 65536) (units v) ∧ 0 < zlen (units v).
Proof. intros (Hr & _ & _). unfold units. case_if; (split; [repeat (constructor; [lia|]); constructor|done]). Qed.

Lemma utf16_app vs ws : utf16 (vs ++ ws) = utf16 vs ++ utf16 ws.
Proof. unfold utf16. by rewrite fmap_app, concat_app. Qed.

(** One code point is read from its units. *)
Lemma utf16_point_ok sm vs v ws extra input len :
  legal v → input = ((λ x, endSwap x sm) <$> (utf16 vs ++ units v ++ utf16 ws)) ++ extra → zlen (utf16 vs) < len →
  utf16_point input len sm (zlen (utf16 vs)) = Done (Some v, zlen (utf16 vs) + zlen (units v) - 1).
Proof.
  intros Hv -> Hlen. destruct (units_range v Hv) as [Hu _]. pose proof Hv as (Hr & Hs & Hm).
  assert (∀ k x, 0 ≤ k → zget (units v) k = Some x →
    load (((λ x, endSwap x sm) <$> (utf16 vs ++ units v ++ utf16 ws)) ++ extra) (zlen (utf16 vs) + k) = Done (endSwap x sm)) as Hload.
  { intros k x Hk Hx. apply load_ok. pose proof (zget_Some_range _ _ _ Hx). pose proof (zlen_nonneg (utf16 vs)). pose proof (zlen_nonneg (utf16 ws)).
    rewrite zget_app_l by (rewrite zlen_fmap, !zlen_app; lia). rewrite zget_of_lookup by lia.
    rewrite list_lookup_fmap, <-zget_of_lookup by lia. rewrite zget_app_r, zget_app_l by lia.
    replace (zlen (utf16 vs) + k - zlen (utf16 vs)) with k by lia. by rewrite Hx. }
  unfold utf16_point. rewrite <-(Z.add_0_r (zlen (utf16 vs))) at 1.
  unfold units in *. destruct (v <? 0x10000) eqn:E; propify.
  - rewrite (Hload 0 v) by done. cbn [mbind res_bind]. rewrite endSwap_swapped by lia. rewrite lor_2047 by lia.
    rewrite (proj2 (Z.eqb_neq _ 0xDFFF)) by lia. change (zlen [v]) with 1. do 2 f_equal. lia.
  - set (hi := 0xD800 + (v - 0x10000) / 1024) in *. set (lo := 0xDC00 + (v - 0x10000) mod 1024) in *.
    assert (0xD800 ≤ hi < 0xDC00) by (unfold hi; lia). assert (0xDC00 ≤ lo < 0xE000) by (unfold lo; lia).
    rewrite (Hload 0 hi) by done. cbn [mbind res_bind]. rewrite endSwap_swapped by lia. rewrite lor_2047 by lia.
    rewrite (proj2 (Z.eqb_eq _ 0xDFFF)) by lia. rewrite (proj2 (Z.leb_gt 0xDC00 hi)), (proj2 (Z.leb_gt len _)) by lia. cbn [orb].
    rewrite (Hload 1 lo) by done. cbn [mbind res_bind]. rewrite endSwap_swapped by lia.
    rewrite (proj2 (Z.ltb_ge 0x3FF _)) by lia. rewrite Z.shiftl_mul_pow2 by lia. change (2 ^ 10) with 1024. change (zlen [hi; lo]) with 2.
    f_equal. f_equal; [f_equal; unfold hi, lo; lia|lia].
Qed.

Lemma replaced_legal e vs : Forall legal vs → replaced e vs = Some vs.
Proof. induction 1 as [|v vs Hv _ IH]; [done|]. cbn. rewrite decide_True by done. cbn. by rewrite IH. Qed.

Lemma legal_int v : legal v → INT_MIN ≤ v ≤ INT_MAX.
Proof. unfold legal. int_lia. Qed.

Lemma zlen_utf8_le vs : zlen vs ≤ zlen (utf8 vs) ≤ 4 * zlen vs.
Proof.
  induction vs as [|v vs IH]; [done|]. rewrite utf8_cons, zlen_app, zlen_cons. pose proof (encode_length v).
  assert (zlen (encode v) ≤ 4) by (unfold encode; repeat case_if; done). lia.
Qed.

Section units.
Context (h : bheap) (b B C : Z).
Context (OK : heap_ok h) (HCB : C ≠ B) (HC : is_Some (blocks h !! C)).
Context (L : Z) (c0 : list Z) (errCh : Z) (vs : list Z).
Context (Hvs : Forall legal vs) (He : INT_MIN ≤ errCh ≤ INT_MAX) (HL : 2 * (zlen c0 + 4 * zlen vs) + 8 ≤ L ∧ 8 * L ≤ INT_MAX).
#[local] Abbreviation post := (appended h b B C L c0 errCh [] vs).
#[local] Abbreviation e := (if isLegalUnicodeCodePoint errCh then errCh else -1).

(** The points gathered are appended. *)
Lemma step_flush carr h1 s1 B1 buf1 ws buff rest (K : BM Z) :
  upd (with_array h C carr) b B h1 s1 B1 buf1 → zlen carr = 6 → terminated s1 buf1 → content s1 buf1 = c0 ++ utf8 ws → mlen s1 ≤ L →
  vs = ws ++ buff ++ rest →
  (∀ carr' h' s' B' buf', upd (with_array h C carr') b B h' s' B' buf' → zlen carr' = 6 → terminated s' buf' →
     content s' buf' = c0 ++ utf8 (ws ++ buff) → mlen s' ≤ L → returns (K h') post) →
  returns ((r ← buAppendBlkUcs4 b (Some buff) (zlen buff) e (C, 0); if r <? 0 then set_back b (zlen c0) else K) h1) post.
Proof using OK HCB HC Hvs He HL.
  intros Hu Hl Ht Hc Hm Evs HK. assert (Forall legal buff) as Hbuff by (rewrite Evs, !Forall_app in Hvs; tauto).
  pose proof (zlen_utf8_le ws) as Hws. assert (zlen vs = zlen ws + zlen buff + zlen rest) as Hlvs by (rewrite Evs, !zlen_app; lia).
  pose proof (zlen_nonneg rest). pose proof (u_mlen _ _ _ _ _ _ _ Hu) as Hbl. destruct (Ht) as [Hs _].
  assert (slen s1 = zlen c0 + zlen (utf8 ws)) as Hsl by (rewrite <-zlen_app, <-Hc; symmetry; apply zlen_content; lia).
  unfold mbind at 1, M_bind at 1. apply returns_bind.
  eapply returns_mono; [apply (buAppendBlkUcs4_ok h b B C OK HCB HC e L buff carr h1 s1 B1 buf1); try done|].
  - eapply Forall_impl; [exact Hbuff|apply legal_int].
  - case_if; [done|int_lia].
  - lia.
  - lia.
  - intros [r h'] (carr' & s' & B' & buf' & Hl' & Hu' & [(-> & Ht' & HL' & ws' & Ews & Hc')|(-> & Hwhy & Hs' & Hc')]); cbn [Z.ltb Z.compare BSTR_OK BSTR_ERR].
    + rewrite replaced_legal in Ews by done. injection Ews as <-. apply (HK carr' h' s' B' buf'); try done.
      by rewrite Hc', Hc, (utf8_app ws), <-app_assoc.
    + eapply returns_mono; [apply (set_back_ok h b B C carr' c0 h' s' B' buf' (utf8 ws)); [done|done|by rewrite Hc', Hc|done]|].
      intros [r h''] (-> & Ho & carr2 & s2 & B2 & buf2 & ?). destruct Hwhy as [Hwhy|Hwhy]; [|by rewrite replaced_legal in Hwhy].
      exists carr2, s2, B2, buf2. tauto.
Qed.

Lemma utf16_append_loop_ok sm extra rest : ∀ fuel ws buff carr h1 s1 B1 buf1,
  upd (with_array h C carr) b B h1 s1 B1 buf1 → zlen carr = 6 → terminated s1 buf1 → content s1 buf1 = c0 ++ utf8 ws → mlen s1 ≤ L →
  vs = ws ++ buff ++ rest → (length rest < fuel)%nat →
  returns (utf16_append_loop fuel b (((λ x, endSwap x sm) <$> utf16 vs) ++ extra) (zlen (utf16 vs)) sm (zlen (utf16 (ws ++ buff))) e (zlen c0) buff (C, 0) h1) post.
Proof using OK HCB HC Hvs He HL.
  induction rest as [|v rest IH]; intros [|fuel] ws buff carr h1 s1 B1 buf1 Hu Hl Ht Hc Hm Evs Hf; try (cbn in Hf; lia);
    cbn [utf16_append_loop].
  - rewrite app_nil_r in Evs. rewrite <-Evs, Z.ltb_irrefl. assert (∀ carr' h' s' B' buf', upd (with_array h C carr') b B h' s' B' buf' → zlen carr' = 6 → terminated s' buf' →
      content s' buf' = c0 ++ utf8 vs → mlen s' ≤ L → returns ((mret BSTR_OK : BM Z) h') post) as Hend.
    { intros carr' h' s' B' buf' Hu' Hl' Ht' Hc' Hm'. exists carr', s', B', buf'. split_and!; [done|done|]. left. split_and!; [done|done|done|].
      exists vs. by rewrite replaced_legal. }
    case_if.
    + apply (step_flush carr h1 s1 B1 buf1 ws buff []); try done; [by rewrite app_nil_r|]. rewrite <-Evs. done.
    + apply (Hend carr h1 s1 B1 buf1); try done. assert (buff = []) as -> by (destruct buff; [done|rewrite zlen_cons in *; pose proof (zlen_nonneg buff); lia]).
      rewrite Evs, app_nil_r. done.
  - assert (legal v) as Hv by (rewrite Evs, !Forall_app, Forall_cons in Hvs; tauto). destruct (units_range v Hv) as [_ Hpos].
    assert (utf16 vs = utf16 (ws ++ buff) ++ units v ++ utf16 rest) as E16 by (rewrite Evs, app_assoc, utf16_app; done).
    assert (zlen (utf16 vs) = zlen (utf16 (ws ++ buff)) + (zlen (units v) + zlen (utf16 rest))) as Hli by (rewrite E16, !zlen_app; lia).
    pose proof (zlen_nonneg (utf16 rest)). rewrite (proj2 (Z.ltb_lt _ (zlen (utf16 vs)))) by lia.
    apply (step_lift _ (Some v, zlen (utf16 (ws ++ buff)) + zlen (units v) - 1)).
    { apply (utf16_point_ok sm (ws ++ buff) v rest extra); [done|by rewrite E16|lia]. }
    cbn [default]. unfold id. replace (zlen (utf16 (ws ++ buff)) + zlen (units v) - 1 + 1) with (zlen (utf16 (ws ++ (buff ++ [v])))).
    2: { rewrite app_assoc, utf16_app, zlen_app. unfold utf16 at 2. cbn [fmap list_fmap concat]. rewrite app_nil_r. lia. }
    assert (vs = ws ++ (buff ++ [v]) ++ rest) as Evs' by (rewrite Evs; by rewrite <-!app_assoc).
    destruct (TEMP_UCS4_BUFFER_SIZE <=? zlen (buff ++ [v])).
    + apply (step_flush carr h1 s1 B1 buf1 ws (buff ++ [v]) rest); try done. intros carr' h' s' B' buf' Hu' Hl' Ht' Hc' Hm'.
      rewrite <-(app_nil_r (ws ++ buff ++ [v])). apply (IH fuel (ws ++ buff ++ [v]) [] carr' h' s' B' buf'); try done; [|cbn in Hf; lia].
      by rewrite Evs', <-!app_assoc.
    + apply (IH fuel ws (buff ++ [v]) carr h1 s1 B1 buf1); try done. cbn in Hf; lia.
Qed.
End units.

(** ** From UTF-8 to UTF-16 *)

Lemma encode_shape v : legal v → ∃ x l, encode v = x :: l ∧ continuation x = false ∧ Forall (λ c, continuation c = true) l.
Proof.
  intros (Hr & _ & _). unfold encode, continuation. repeat case_if; propify; eexists _, _; (split; [reflexivity|]).
  all: split; [apply not_true_iff_false; intros H; propify; lia|].
  all: repeat (constructor; [rewrite (proj2 (Z.leb_le _ _)), (proj2 (Z.ltb_lt _ _)) by lia; done|]); constructor.
Qed.

(** How many bytes are skipped, as a function of the text. *)
Fixpoint skipped (l : list Z) (pos i : Z) : Z :=
  match l with
  | [] => 0
  | c :: l => if continuation c then 1 + skipped l pos i else if pos <=? i then 0 else 1 + skipped l pos (i + 1)
  end.

Lemma skipped_continuation l l' pos i : Forall (λ c, continuation c = true) l → skipped (l ++ l') pos i = zlen l + skipped l' pos i.
Proof. induction 1 as [|c l Hc _ IH]; [done|]. cbn [app skipped]. rewrite Hc, IH, zlen_cons. lia. Qed.

Lemma skipped_utf8 vs pos : Forall legal vs → ∀ i, 0 ≤ i → skipped (utf8 vs) pos i = zlen (utf8 (take (Z.to_nat (pos - i)) vs)).
Proof.
  induction 1 as [|v vs Hv Hvs IH]; intros i Hi; [by rewrite take_nil|]. rewrite utf8_cons.
  destruct (encode_shape v Hv) as (x & l & El & Hx & Hl). rewrite El. cbn [app skipped]. rewrite Hx. destruct (pos <=? i) eqn:E; propify.
  - by replace (Z.to_nat (pos - i)) with O by lia.
  - rewrite skipped_continuation, IH by (done || lia). replace (Z.to_nat (pos - i)) with (S (Z.to_nat (pos - (i + 1)))) by lia.
    rewrite firstn_cons, utf8_cons, zlen_app, El, zlen_cons. lia.
Qed.

Section converting.
Context {A : Type} (h : bheap) (d : ptr).
Implicit Types (Q : A * bheap → Prop).

Lemma step_skip_code_points t pos (k : Z → BM A) Q l : ∀ j i,
  text h d t → Forall is_byte l → l = zslice t j (zlen l) → 0 ≤ j → j + zlen l ≤ zlen t →
  returns (k (j + skipped l pos i) h) Q → returns ((skip_code_points (length l) d pos j i ≫= k) h) Q.
Proof.
  induction l as [|c l IH]; intros j i HT HB El Hj Hl HQ; cbn [length skip_code_points skipped] in *.
  { rewrite Z.add_0_r in HQ. by apply step_ret. }
  rewrite zlen_cons in *. pose proof (zlen_nonneg l). apply Forall_cons in HB as [Hc HB].
  assert (zget t j = Some c ∧ l = zslice t (j + 1) (zlen l)) as [Ec El'].
  { destruct (zget_is_Some t j) as [c' Hc']; [lia|]. rewrite (zslice_cons t j (zlen l + 1) c') in El by (done || lia).
    injection El as -> El. split; [done|]. by replace (zlen l + 1 - 1) with (zlen l) in El by lia. }
  apply step_assoc, (step_read_char h d t j c); [done|done|]. rewrite not_continuation_eq by done.
  destruct (continuation c); cbn [negb].
  - apply IH; try done; try lia. by rewrite <-Z.add_assoc.
  - destruct (pos <=? i); [rewrite Z.add_0_r in HQ; by apply step_ret|]. apply IH; try done; try lia. by rewrite <-Z.add_assoc.
Qed.
End converting.

(** As many units as fit; a pair that does not fit leaves a replacement character. *)
Fixpoint fitting (len : Z) (vs : list Z) : list Z :=
  match vs with
  | [] => []
  | v :: vs =>
      if len <=? 0 then []
      else if (0x10000 <=? v) && (len <? 2) then [0xFFFD]
      else units v ++ fitting (len - zlen (units v)) vs
  end.

Lemma fitting_all vs : ∀ len, Forall legal vs → zlen (utf16 vs) ≤ len → fitting len vs = utf16 vs.
Proof.
  induction vs as [|v vs IH]; intros len Hvs Hlen; [done|]. apply Forall_cons in Hvs as [Hv Hvs]. destruct (units_range v Hv) as [_ Hpos].
  change (utf16 (v :: vs)) with (units v ++ utf16 vs) in *. rewrite zlen_app in Hlen. pose proof (zlen_nonneg (utf16 vs)).
  cbn [fitting]. rewrite (proj2 (Z.leb_gt len 0)) by lia. rewrite IH by (done || lia).
  destruct (0x10000 <=? v) eqn:E; propify; [|done]. assert (zlen (units v) = 2) by (unfold units; rewrite (proj2 (Z.ltb_ge v _)) by lia; done).
  by rewrite (proj2 (Z.ltb_ge len 2)) by lia.
Qed.

Lemma fitting_zero vs : fitting 0 vs = [].
Proof. by destruct vs. Qed.

Lemma surrogates v : 0x10000 ≤ v ≤ 0x10FFFF →
  [u16 (Z.lor 0xD800 (Z.shiftr (v - 0x10000) 10)); u16 (Z.lor 0xDC00 (Z.land (v - 0x10000) 0x03FF))] = units v.
Proof.
  intros Hv. unfold units. rewrite (proj2 (Z.ltb_ge v _)) by lia. change 0x3ff with (Z.ones 10). rewrite Z.land_ones, Z.shiftr_div_pow2 by lia.
  change 0xD800 with (Z.shiftl 54 10). change 0xDC00 with (Z.shiftl 55 10). change (2 ^ 10) with 1024.
  rewrite !lor_shiftl_add by (change (2 ^ 10) with 1024; lia). unfold u16. change (2 ^ 16) with 65536. change (2 ^ 10) with 1024. cbn [Z.mul].
  change (Z.shiftl 54 10) with 55296. change (Z.shiftl 55 10) with 56320. f_equal; [|f_equal]; lia.
Qed.

Lemma utf16_loop_ok h d t pad errCh vs : ∀ fuel past st er out len i last,
  text h d (t ++ pad) → Forall is_byte (t ++ pad) → 3 ≤ zlen pad → t = utf8 (past ++ vs) → Forall legal vs → 0 ≤ len →
  zlen (utf8 vs) < Z.of_nat fuel →
  returns (utf16_loop fuel (Some (mkIter (Some d) (zlen t) st (zlen (utf8 past)) er)) errCh out len i last h)
    (λ '(x, h'), h' = h ∧ ∃ last', x = (out ++ fitting len vs, len - zlen (fitting len vs), i + zlen (fitting len vs), last') ∧
      (vs = [] → last' = last) ∧ (0 ≤ last ∨ vs ≠ [] ∧ 0 < len → 0 ≤ last')).
Proof.
  induction vs as [|v vs IH]; intros [|fuel] past st er out len i last HT HB Hp Et Hvs Hlen Hf; try (match type of Hf with zlen ?l < _ => pose proof (zlen_nonneg l) end; lia).
  { cbn [utf16_loop more fitting]. unfold utf8IteratorNoMore. cbn [islen next]. rewrite app_nil_r in Et. rewrite Et, Z.leb_refl, andb_false_r.
    apply returns_mret. split; [done|]. exists last. rewrite app_nil_r. change (zlen []) with 0. rewrite Z.sub_0_r, Z.add_0_r. split_and!; [done|done|].
    intros [?|[? ?]]; done. }
  apply Forall_cons in Hvs as [Hv Hvs]. pose proof (encode_length v). rewrite utf8_app, utf8_cons in Et.
  assert (zlen t = zlen (utf8 past) + (zlen (encode v) + zlen (utf8 vs))) as Ht by (rewrite Et, !zlen_app; lia).
  rewrite utf8_cons, zlen_app in Hf. pose proof (zlen_nonneg (utf8 vs)). pose proof (zlen_nonneg (utf8 past)). pose proof Hv as (Hr & _ & _).
  cbn [utf16_loop more]. unfold utf8IteratorNoMore at 1. cbn [islen next]. rewrite (proj2 (Z.leb_gt (zlen t) _)) by lia. cbn [negb].
  destruct (0 <? len) eqn:El; propify; cbn [andb].
  2: { assert (len = 0) as -> by lia. rewrite fitting_zero. apply returns_mret. split; [done|]. exists last.
       rewrite app_nil_r. change (zlen []) with 0. rewrite Z.sub_0_r, Z.add_0_r. split_and!; [done|done|]. intros [?|[? ?]]; (done || lia). }
  apply (step_next h _ d t pad); cbn [idata islen next]; [done|done|lia|done|done|done|lia|].
  assert (drop (Z.to_nat (zlen (utf8 past))) (t ++ pad) = encode v ++ (utf8 vs ++ pad)) as ->.
  { rewrite Et, <-!app_assoc. unfold zlen. by rewrite Nat2Z.id, drop_app_length. }
  rewrite decode_encode by done. cbn [fst snd]. rewrite (proj2 (Z.ltb_ge v 0)) by lia. cbn [fitting]. rewrite (proj2 (Z.leb_gt len 0)) by lia.
  assert (∀ out' len' i', 0 ≤ len' → returns (utf16_loop fuel (Some (mkIter (Some d) (zlen t) (zlen (utf8 past)) (zlen (utf8 past) + zlen (encode v)) 0)) errCh out' len' i' v h)
    (λ '(x, h'), h' = h ∧ ∃ last', x = (out' ++ fitting len' vs, len' - zlen (fitting len' vs), i' + zlen (fitting len' vs), last') ∧ 0 ≤ last')) as Hnext.
  { intros out' len' i' Hlen'. replace (zlen (utf8 past) + zlen (encode v)) with (zlen (utf8 (past ++ [v]))).
    2: { rewrite utf8_app, zlen_app. unfold utf8 at 2. cbn [fmap list_fmap concat]. by rewrite app_nil_r. }
    eapply returns_mono; [apply (IH fuel (past ++ [v]) _ _ out' len' i' v); try done; [|lia]|].
    - by rewrite Et, <-app_assoc, utf8_app.
    - intros [x h'] [-> (last' & -> & _ & Hl)]. split; [done|]. exists last'. split; [done|]. apply Hl. left. lia. }
  rewrite (Z.leb_antisym v). destruct (v <? 0x10000) eqn:E; propify; cbn [andb negb].
  - eapply returns_mono; [apply Hnext; lia|]. intros [x h'] [-> (last' & -> & Hl)]. split; [done|]. exists last'.
    assert (units v = [v]) as -> by (unfold units; by rewrite (proj2 (Z.ltb_lt v _)) by lia).
    unfold u16. rewrite Z.mod_small by lia. rewrite <-app_assoc, zlen_app. change (zlen [v]) with 1. split_and!; [|done|done].
    do 2 f_equal; [f_equal|]; lia.
  - destruct (len <? 2) eqn:E2; propify.
    + eapply returns_mono; [apply Hnext; lia|]. intros [x h'] [-> (last' & -> & Hl)]. split; [done|]. exists last'.
      replace (len - 1) with 0 by lia. rewrite fitting_zero, app_nil_r. change (zlen []) with 0. change (zlen [0xFFFD]) with 1. split_and!; [|done|done].
      do 2 f_equal; [f_equal|]; lia.
    + rewrite surrogates by lia. assert (zlen (units v) = 2) as E3 by (unfold units; by rewrite (proj2 (Z.ltb_ge v _)) by lia). rewrite E3.
      eapply returns_mono; [apply Hnext; lia|]. intros [x h'] [-> (last' & -> & Hl)]. split; [done|]. exists last'.
      rewrite <-app_assoc, zlen_app, E3. split_and!; [|done|done]. do 2 f_equal; [f_equal|]; lia.
Qed.


(** A string with its text in memory, a terminator and two more bytes. *)
Definition utf8_string (h : bheap) (bu : Z) (t : list Z) (pad : list Z) : Prop :=
  bu ≠ 0 ∧ ∃ s d, structs h !! bu = Some s ∧ data s = Some d ∧ slen s = zlen t ∧ text h d (t ++ pad) ∧ Forall is_byte (t ++ pad).

Lemma buGetBlkUTF16_ok h bu vs pad fuel len errCh pos :
  utf8_string h bu (utf8 vs) pad → Forall legal vs → 3 ≤ zlen pad → 0 < len → 0 ≤ pos → zlen (utf8 vs) < Z.of_nat fuel →
  let rest := drop (Z.to_nat pos) vs in
  let out := fitting len rest in
  returns (buGetBlkUTF16 fuel len errCh bu pos h)
    (λ '(x, h'), h' = h ∧ x = (if decide (rest = []) then BSTR_ERR else zlen out, out ++ replicate (Z.to_nat (len - zlen out)) 0)).
Proof.
  intros (H0 & s & d & Hs & Hd & Hl & HT & HB) Hvs Hp Hlen Hpos Hf rest out. unfold buGetBlkUTF16.
  rewrite (proj2 (Z.leb_gt len 0)) by lia. unfold bdata. rewrite (proj2 (Z.eqb_neq bu 0)) by done.
  apply step_assoc, (step_deref bu s); [done|]. apply step_ret. rewrite Hd, (proj2 (Z.ltb_ge pos 0)) by lia.
  apply (step_deref bu s); [done|]. rewrite Hl.
  replace (Z.to_nat (zlen (utf8 vs))) with (length (utf8 vs)) by (unfold zlen; lia).
  pose proof (zlen_nonneg pad). apply (step_skip_code_points h d (utf8 vs ++ pad)); [done|by apply Forall_app in HB as [? _]| |lia|rewrite zlen_app; lia|].
  { unfold zslice. change (Z.to_nat 0) with O. rewrite drop_0. unfold zlen. by rewrite Nat2Z.id, take_app_length. }
  rewrite skipped_utf8, Z.add_0_l, Z.sub_0_r by (done || lia).
  assert (utf8 vs = utf8 (take (Z.to_nat pos) vs) ++ utf8 rest) as E by (rewrite <-utf8_app; unfold rest; by rewrite take_drop).
  assert (zlen (utf8 vs) - zlen (utf8 (take (Z.to_nat pos) vs)) = zlen (utf8 rest)) as -> by (rewrite E, zlen_app; lia).
  set (j := zlen (utf8 (take (Z.to_nat pos) vs))) in *. unfold utf8IteratorInit. pose proof (zlen_nonneg (utf8 rest)).
  rewrite (proj2 (Z.leb_le 0 (zlen (utf8 rest)))) by done. cbv zeta. rewrite (proj2 (Z.leb_le 0 (zlen (utf8 rest)))) by done.
  apply M_returns_bind. eapply returns_mono.
  - apply (utf16_loop_ok h (padd d j) (utf8 rest) pad _ rest fuel [] (-1) 0 [] len 0 BSTR_ERR); try done; try lia.
    + apply text_drop. by rewrite app_assoc, <-E.
    + apply Forall_app in HB as [HB1 HB2]. apply Forall_app. split; [|done]. by rewrite E, Forall_app in HB1; destruct HB1.
    + by apply Forall_drop.
    + rewrite E, zlen_app in Hf. pose proof (zlen_nonneg (utf8 (take (Z.to_nat pos) vs))). lia.
  - intros [x h'] [-> (last' & -> & Hnil & Hcons)]. apply returns_mret. split; [done|]. fold out. cbn [app]. f_equal.
    destruct (decide (rest = [])) as [->|Hne]; [by rewrite Hnil|]. rewrite (proj2 (Z.ltb_ge last' 0)) by (apply Hcons; right; split; [done|lia]). lia.
Qed.

Lemma byte_order_mark us x : x = 0xFFFE ∨ x = 0xFEFF → byte_order us (Some x) = Done (if x =? 0xFFFE then 8 else 0, 0, Some x).
Proof. by intros [-> | ->]. Qed.

(** Appending units of legal code points, in the order [byte_order] finds. *)
Lemma buAppendBlkUTF16_ok h b s B buf C carr L errCh vs sm extra bom bom' :
  heap_ok h → writable h b s B buf → terminated s buf → C ≠ B → blocks h !! C = Some carr → zlen carr = 6 →
  Forall legal vs → INT_MIN ≤ errCh ≤ INT_MAX → mlen s ≤ L → 2 * (slen s + 4 * zlen vs) + 8 ≤ L → 8 * L ≤ INT_MAX →
  let input := ((λ x, endSwap x sm) <$> utf16 vs) ++ extra in
  (vs ≠ [] → byte_order input bom = Done (sm, 0, bom')) →
  returns (buAppendBlkUTF16 b (Some input) (zlen (utf16 vs)) bom errCh (C, 0) h)
    (λ '(x, h'), x.2 = (if decide (vs = []) then bom else bom') ∧ appended h b B C L (content s buf) errCh [] vs (x.1, h')).
Proof.
  intros OK W Ht HCB HC Hl Hvs He Hm Hsum HL input Hbom. pose proof W as [Hs Hd Hb Hbl Hsl]. unfold buAppendBlkUTF16, bdata.
  rewrite (proj2 (Z.eqb_neq b 0)) by (by eapply b_nonnull). apply step_assoc, (step_deref b s); [done|]. apply step_ret. rewrite Hd.
  pose proof (zlen_nonneg (utf16 vs)). rewrite (proj2 (Z.ltb_ge (zlen (utf16 vs)) 0)) by done.
  assert (with_array h C carr = h) as Eh by (apply with_blocks_id; by rewrite insert_id).
  assert (upd (with_array h C carr) b B h s B buf) as Hu by (rewrite Eh; by apply upd_refl).
  destruct (decide (vs = [])) as [->|Hne].
  { apply returns_mret. split; [done|]. exists carr, s, B, buf. split_and!; [done|done|]. left. split_and!; [done|done|done|].
    exists []. by rewrite app_nil_r. }
  assert (zlen (utf16 vs) ≠ 0) as Hpos.
  { destruct vs as [|v vs]; [done|]. apply Forall_cons in Hvs as [Hv _]. destruct (units_range v Hv) as [_ ?].
    change (utf16 (v :: vs)) with (units v ++ utf16 vs) in *. rewrite zlen_app in *. pose proof (zlen_nonneg (utf16 vs)). lia. }
  rewrite (proj2 (Z.eqb_neq (zlen (utf16 vs)) 0)) by done. apply (step_deref b s); [done|].
  apply (step_lift _ (sm, 0, bom')); [by apply Hbom|].
  assert (slen s = zlen (content s buf)) as Elen by (symmetry; apply zlen_content; lia). rewrite Elen.
  assert (zlen vs ≤ zlen (utf16 vs)) as Hle.
  { clear -Hvs. induction Hvs as [|v vs Hv _ IH]; [done|]. destruct (units_range v Hv) as [_ ?].
    change (utf16 (v :: vs)) with (units v ++ utf16 vs). rewrite zlen_app, zlen_cons. lia. }
  apply M_returns_bind. eapply returns_mono.
  - unfold input. change 0 with (zlen (utf16 ([] ++ []))) at 1.
    apply (utf16_append_loop_ok h b B C OK HCB ltac:(by rewrite HC) L (content s buf) errCh vs Hvs He ltac:(lia) sm extra vs _ [] [] carr h s B buf);
      [done|done|done|by rewrite app_nil_r|done|done|unfold zlen in *; lia].
  - intros [r h'] Hr. apply returns_mret. done.
Qed.

(** * Properties *)

(** Appending code points to a string encodes them in UTF-8: illegal ones are
    replaced by [errCh], and if that is illegal too, or an allocation fails, the string
    keeps its characters. Nothing but the string and the local array of six bytes
    changes, and the buffer stays below [L]. *)
Theorem buAppendBlkUcs4_correct h b s B buf C carr L errCh vs :
  heap_ok h → writable h b s B buf → terminated s buf → C ≠ B → blocks h !! C = Some carr → zlen carr = 6 →
  Forall (λ v, INT_MIN ≤ v ≤ INT_MAX) vs → INT_MIN ≤ errCh ≤ INT_MAX →
  mlen s ≤ L → 2 * (slen s + 4 * zlen vs) + 8 ≤ L → 8 * L ≤ INT_MAX →
  returns (buAppendBlkUcs4 b (Some vs) (zlen vs) errCh (C, 0) h) (appended h b B C L (content s buf) errCh [] vs).
Proof.
  intros OK W Ht HCB HC Hl Hvs He Hm Hsum HL.
  assert (with_array h C carr = h) as Eh by (apply with_blocks_id; by rewrite insert_id).
  apply (buAppendBlkUcs4_ok h b B C OK HCB ltac:(by rewrite HC) errCh L vs carr h s B buf); try done.
  rewrite Eh. by apply upd_refl.
Qed.

(** Reading UTF-16 units out of a string of legal code points from code point
    [pos] on: as many as fit, then zeros; the count is that of the units. A position
    at the end, or an empty string, is reported as an error. *)
Theorem buGetBlkUTF16_correct h bu vs pad fuel len errCh pos :
  utf8_string h bu (utf8 vs) pad → Forall legal vs → 3 ≤ zlen pad → 0 < len → 0 ≤ pos → zlen (utf8 vs) < Z.of_nat fuel →
  let rest := drop (Z.to_nat pos) vs in
  let out := fitting len rest in
  buGetBlkUTF16 fuel len errCh bu pos h =
    Done ((if decide (rest = []) then BSTR_ERR else zlen out, out ++ replicate (Z.to_nat (len - zlen out)) 0), h).
Proof.
  intros Hstr Hvs Hp Hlen Hpos Hf rest out. pose proof (buGetBlkUTF16_ok h bu vs pad fuel len errCh pos Hstr Hvs Hp Hlen Hpos Hf) as H.
  destruct (buGetBlkUTF16 fuel len errCh bu pos h) as [[x h']| |]; [|done..]. destruct H as [-> ->]. done.
Qed.

(** C33. Round trip: the UTF-16 units read from a string of code points, appended to
    another string with the same byte order, give its UTF-8 bytes again; BSTR_ERR, with the
    other string's characters as they were, means that an allocation has failed. *)
Theorem utf16_roundtrip h bu vs pad b s B buf C carr L fuel len errCh errCh' :
  heap_ok h → utf8_string h bu (utf8 vs) pad → 3 ≤ zlen pad → Forall legal vs → vs ≠ [] → zlen (utf16 vs) ≤ len → zlen (utf8 vs) < Z.of_nat fuel →
  writable h b s B buf → terminated s buf → C ≠ B → blocks h !! C = Some carr → zlen carr = 6 → INT_MIN ≤ errCh' ≤ INT_MAX →
  mlen s ≤ L → 2 * (slen s + 4 * zlen vs) + 8 ≤ L → 8 * L ≤ INT_MAX →
  returns ((r ← buGetBlkUTF16 fuel len errCh bu 0; buAppendBlkUTF16 b (Some r.2) r.1 (Some 0xFEFF) errCh' (C, 0)) h)
    (λ '(x, h'), appended h b B C L (content s buf) errCh' [] vs (x.1, h') ∧ (x.1 = BSTR_ERR → oom h' = true)).
Proof.
  intros OK Hstr Hp Hvs Hne Hlen Hf W Ht HCB HC Hl He Hm Hsum HL.
  assert (0 < zlen (utf16 vs)) as Hpos.
  { destruct vs as [|v vs]; [done|]. apply Forall_cons in Hvs as [Hv _]. destruct (units_range v Hv) as [_ ?].
    change (utf16 (v :: vs)) with (units v ++ utf16 vs). rewrite zlen_app. pose proof (zlen_nonneg (utf16 vs)). lia. }
  apply M_returns_bind. eapply returns_mono; [by apply (buGetBlkUTF16_ok h bu vs pad fuel len errCh 0); try done; lia|].
  intros [x h'] [-> ->]. cbn [fst snd]. change (Z.to_nat 0) with O. rewrite drop_0, fitting_all, decide_False by done.
  assert (utf16 vs = (λ x, endSwap x 0) <$> utf16 vs) as E16 by (symmetry; apply list_fmap_id).
  rewrite E16 at 1. eapply returns_mono.
  - apply (buAppendBlkUTF16_ok h b s B buf C carr L errCh' vs 0 (replicate (Z.to_nat (len - zlen (utf16 vs))) 0) (Some 0xFEFF) (Some 0xFEFF)); done.
  - intros [x h'] [_ Hr]. split; [done|]. intros Herr. destruct Hr as (? & ? & ? & ? & _ & _ & [(Er & _)|(_ & [?|En] & _)]); [by rewrite Er in Herr|done|].
    by rewrite replaced_legal in En.
Qed.

Lemma buIsUTF8Content_ok h bu t pad fuel :
  utf8_string h bu t (0 :: pad) → 2 ≤ zlen pad → zlen t < Z.of_nat fuel →
  ∃ r, buIsUTF8Content fuel bu h = Done (r, h) ∧ (r = 1 ∧ proper t ∨ r = 0 ∧ ¬ proper t).
Proof.
  intros (H0 & s & d & Hs & Hd & Hl & HT & HB) Hp Hf.
  assert (returns (buIsUTF8Content fuel bu h) (λ '(r, h'), h' = h ∧ (r = 1 ∧ proper t ∨ r = 0 ∧ ¬ proper t))) as H.
  { unfold buIsUTF8Content, bdata. rewrite (proj2 (Z.eqb_neq bu 0)) by done.
    apply step_assoc, (step_deref bu s); [done|]. apply step_ret. rewrite Hd. apply (step_deref bu s); [done|].
    unfold utf8IteratorInit. pose proof (zlen_nonneg t). rewrite Hl, (proj2 (Z.leb_le 0 (zlen t))) by done. cbv zeta.
    rewrite (proj2 (Z.leb_le 0 (zlen t))) by done.
    eapply returns_mono; [apply (content_loop_ok h d t pad fuel (-1) 0 0); try done; lia|]. intros [r h']. by rewrite drop_0. }
  destruct (buIsUTF8Content fuel bu h) as [[r h']| |]; [|done..]. destruct H as [-> H]. by exists r.
Qed.

Lemma nul_not_proper vs : Forall legal vs → 0 ∈ vs → ¬ proper (utf8 vs).
Proof.
  intros Hvs. induction Hvs as [|v vs Hv Hvs IH]; intros H0; [by apply not_elem_of_nil in H0|].
  rewrite utf8_cons. destruct (decide (v = 0)) as [->|Hne].
  - intros (ws & Hws & E). pose proof (decode_encode 0 (utf8 vs) Hv) as D. rewrite E in D.
    destruct ws as [|w ws]; [done|]. apply Forall_cons in Hws as [[Hw Hw0] _].
    rewrite utf8_cons, decode_encode in D by done. by injection D as ? _.
  - rewrite proper_encode by done. apply IH. apply elem_of_cons in H0 as [?|?]; [congruence|done].
Qed.

(** C30. buIsUTF8Content on a text that a NUL and at least two more readable bytes follow:
    it returns 1 exactly when the text is a sequence of encodings of legal code points other
    than U+0000, and 0 otherwise; it changes nothing. The comment above the function promises
    1 for any UTF-8 text: U+0000 is UTF-8 too. Without the bytes behind the text the code
    reads past its end ([buIsUTF8Content_past_end]). *)
Theorem buIsUTF8Content_correct h bu t pad fuel :
  utf8_string h bu t (0 :: pad) → 2 ≤ zlen pad → zlen t < Z.of_nat fuel →
  ∃ r, buIsUTF8Content fuel bu h = Done (r, h) ∧ (r = 1 ∧ proper t ∨ r = 0 ∧ ¬ proper t).
Proof. apply buIsUTF8Content_ok. Qed.

(** A text with U+0000 is not accepted, although it is a sequence of encodings. *)
Theorem buIsUTF8Content_nul h bu vs pad fuel :
  utf8_string h bu (utf8 vs) (0 :: pad) → 2 ≤ zlen pad → zlen (utf8 vs) < Z.of_nat fuel → Forall legal vs → 0 ∈ vs →
  buIsUTF8Content fuel bu h = Done (0, h).
Proof.
  intros Hs Hp Hf Hvs H0. destruct (buIsUTF8Content_ok h bu (utf8 vs) pad fuel Hs Hp Hf) as (r & E & [[-> Hok]|[-> _]]); [|done].
  by destruct (nul_not_proper vs Hvs H0).
Qed.

(** The bounds tests of the decoder never fail, so a text that ends in the first
    byte of a longer encoding is read past its terminator. *)
Theorem buIsUTF8Content_past_end h bu s d c fuel :
  bu ≠ 0 → structs h !! bu = Some s → data s = Some (d, 0) → slen s = 1 → blocks h !! d = Some [c; 0] → 0xE0 ≤ c < 0xF8 → (1 ≤ fuel)%nat →
  buIsUTF8Content fuel bu h = Undef.
Proof.
  intros H0 Hs Hd Hl Hb Hc Hf. unfold buIsUTF8Content, bdata. rewrite (proj2 (Z.eqb_neq bu 0)) by done.
  assert (deref bu h = Done (s, h)) as Hder by (unfold deref; by rewrite Hs).
  rewrite !M_bind_eq, Hder. cbn [mbind res_bind mret M_ret]. rewrite Hd, M_bind_eq, Hder. cbn [mbind res_bind].
  destruct fuel as [|fuel]; [lia|]. cbn [content_loop more]. rewrite Hl. change (utf8IteratorInit (Some (d, 0)) 1) with (mkIter (Some (d, 0)) 1 (-1) 0 0).
  change (negb (utf8IteratorNoMore (mkIter (Some (d, 0)) 1 (-1) 0 0))) with true. cbv iota.
  rewrite M_bind_eq. unfold utf8IteratorGetNextCodePoint. cbn [islen next idata Z.ltb Z.leb Z.compare]. rewrite M_bind_eq.
  unfold read_code_point. cbn [islen next].
  assert (∀ i, read_byte (padd (padd (d, 0) 0) i) h = match load [c; 0] i with Done x => Done (x, h) | Undef => Undef | OutOfFuel => OutOfFuel end) as Hread.
  { intros i. unfold read_byte, padd. cbn [fst snd]. rewrite Hb. change (0 + 0 + i) with i. by destruct (load [c; 0] i). }
  rewrite M_bind_eq. change (padd (d, 0) 0) with (padd (padd (d, 0) 0) 0) at 1. rewrite Hread. change (load [c; 0] 0) with (Done c). cbn [mbind res_bind].
  rewrite (proj2 (Z.ltb_ge c 0xC0)), (proj2 (Z.ltb_ge 0xFD c)), (proj2 (Z.ltb_ge c 0xE0)) by lia. cbn [orb].
  destruct (c <? 0xF0) eqn:E; [|rewrite (proj2 (Z.ltb_lt c 0xF8)) by lia].
  1: change (1 + 2 <=? 0) with false. 2: change (1 + 3 <=? 0) with false.
  all: cbv iota; rewrite M_bind_eq, Hread; change (load [c; 0] 1) with (Done 0); cbn [mbind res_bind]; rewrite M_bind_eq, Hread; done.
Qed.

(** A high surrogate at the end of the units makes the code read behind them. *)
Theorem utf16_lone_surrogate us hi sm : 0xD800 ≤ hi < 0xDC00 →
  utf16_point ((λ x, endSwap x sm) <$> us ++ [hi]) (zlen us + 1) sm (zlen us) = Undef.
Proof.
  intros Hhi. unfold utf16_point.
  assert (load ((λ x, endSwap x sm) <$> us ++ [hi]) (zlen us) = Done (endSwap hi sm)) as ->.
  { apply load_ok. rewrite fmap_app. rewrite <-(zlen_fmap (λ x, endSwap x sm) us). apply zget_app_mid. }
  cbn [mbind res_bind]. rewrite endSwap_swapped by lia. rewrite lor_2047 by lia. rewrite (proj2 (Z.eqb_eq _ 0xDFFF)) by lia.
  rewrite (proj2 (Z.leb_gt 0xDC00 hi)), (proj2 (Z.leb_gt (zlen us + 1) _)) by lia. cbn [orb].
  assert (load ((λ x, endSwap x sm) <$> us ++ [hi]) (zlen us + 1) = Undef) as ->; [|done].
  apply load_oob. rewrite zlen_fmap, zlen_app. change (zlen [hi]) with 1. lia.
Qed.

(** A high surrogate followed by a unit below the surrogates is taken for a pair
    and makes up a third code point. *)
Theorem utf16_bad_pair hi y rest : 0xD800 ≤ hi < 0xDC00 → 0 ≤ y < 0xDC00 →
  utf16_point (hi :: y :: rest) (zlen rest + 2) 0 0 = Done (Some ((hi - 0xD800) * 1024 + y + 0x2400), 1).
Proof.
  intros Hhi Hy. unfold utf16_point. change (load (hi :: y :: rest) 0) with (Done hi). cbn [mbind res_bind].
  change (endSwap hi 0) with hi. rewrite lor_2047 by lia. rewrite (proj2 (Z.eqb_eq _ 0xDFFF)) by lia. pose proof (zlen_nonneg rest).
  rewrite (proj2 (Z.leb_gt 0xDC00 hi)), (proj2 (Z.leb_gt (zlen rest + 2) 0)) by lia. cbn [orb].
  change (load (hi :: y :: rest) (0 + 1)) with (Done y). cbn [mbind res_bind]. change (endSwap y 0) with y.
  rewrite (proj2 (Z.ltb_ge 0x3FF _)) by lia. rewrite Z.shiftl_mul_pow2 by lia. change (2 ^ 10) with 1024. do 3 f_equal. lia.
Qed.

(** * Witnesses *)

(** "A", "é" and U+1F600 in a string of seven bytes, an empty string and the array. *)
Definition sample_points : list Z := [0x41; 0xE9; 0x1F600].
Definition sample_text : list Z := [0x41; 0xC3; 0xA9; 0xF0; 0x9F; 0x98; 0x80].
Definition sample_memory : bheap :=
  mkHeap (<[1 := mkB 10 7 (Some (2, 0))]> {[3 := mkB 1 0 (Some (4, 0))]})
    (<[2 := sample_text ++ [0; 0; 0]]> (<[4 := [0]]> {[5 := replicate 6 0]})) 6 [] 205.

Lemma sample_memory_ok : heap_ok sample_memory.
Proof.
  split; cbn; [lia| | |done]; intros a Ha; repeat (rewrite lookup_insert_ne by lia); rewrite lookup_singleton_ne by lia; done.
Qed.

Lemma sample_source : utf8_string sample_memory 1 sample_text [0; 0; 0].
Proof.
  split; [done|]. exists (mkB 10 7 (Some (2, 0))), (2, 0). split_and!; [done..| |].
  - exists (sample_text ++ [0; 0; 0]). by split_and!.
  - unfold sample_text. cbn. repeat (constructor; [unfold is_byte; lia|]). constructor.
Qed.

Lemma sample_legal : Forall legal sample_points.
Proof. unfold sample_points. repeat (constructor; [unfold legal; lia|]). constructor. Qed.

Lemma sample_target : writable sample_memory 3 (mkB 1 0 (Some (4, 0))) 4 [0].
Proof. split; try done; cbn; lia. Qed.

Lemma buIsUTF8Content_correct_witness :
  ∃ r, buIsUTF8Content 8 1 sample_memory = Done (r, sample_memory) ∧ (r = 1 ∧ proper sample_text ∨ r = 0 ∧ ¬ proper sample_text).
Proof. apply (buIsUTF8Content_correct sample_memory 1 sample_text [0; 0] 8); [exact sample_source|done|done]. Defined.

Lemma buAppendBlkUcs4_correct_witness :
  returns (buAppendBlkUcs4 3 (Some [0x41; 0xD800]) 2 0x3F (5, 0) sample_memory)
    (appended sample_memory 3 4 5 100 [] 0x3F [] [0x41; 0xD800]).
Proof.
  apply (buAppendBlkUcs4_correct sample_memory 3 (mkB 1 0 (Some (4, 0))) 4 [0] 5 (replicate 6 0) 100 0x3F [0x41; 0xD800]);
    [exact sample_memory_ok|exact sample_target|done|done|done|done| |int_lia|by vm_compute|by vm_compute|by vm_compute].
  repeat (constructor; [int_lia|]). constructor.
Defined.

Lemma buGetBlkUTF16_correct_witness :
  buGetBlkUTF16 8 5 0x3F 1 1 sample_memory = Done ((3, [0xE9; 0xD83D; 0xDE00] ++ [0; 0]), sample_memory).
Proof.
  apply (buGetBlkUTF16_correct sample_memory 1 sample_points [0; 0; 0] 8 5 0x3F 1);
    [exact sample_source|exact sample_legal|done|lia|lia|by vm_compute].
Defined.

Lemma utf16_roundtrip_witness :
  returns ((r ← buGetBlkUTF16 8 6 0x3F 1 0; buAppendBlkUTF16 3 (Some r.2) r.1 (Some 0xFEFF) (-1) (5, 0)) sample_memory)
    (λ '(x, h'), appended sample_memory 3 4 5 100 [] (-1) [] sample_points (x.1, h') ∧ (x.1 = BSTR_ERR → oom h' = true)).
Proof.
  apply (utf16_roundtrip sample_memory 1 sample_points [0; 0; 0] 3 (mkB 1 0 (Some (4, 0))) 4 [0] 5 (replicate 6 0) 100 8 6 0x3F (-1));
    [exact sample_memory_ok|exact sample_source|done|exact sample_legal|done|by vm_compute|by vm_compute|exact sample_target|done|done|done|done|int_lia|
     by vm_compute|by vm_compute|by vm_compute].
Defined.
