(* ===== verification/Json.v ===== *)
(** libs/fastcommon/src/json_parser.c: arrays and maps of strings as JSON text.

    Strings are pointers into the heap of CMemory.v with their lengths, as
    [string_t] has them. The parser copies the elements it reads, unescaped and
    each with a terminator, one after the other into one buffer. The texts of
    error messages are not modelled. *)
From S2P Require Import Prelude CMemory.

(** * Code *)

Abbreviation JM := (M unit).
Abbreviation jheap := (heap unit).

Definition ENOMEM : Z := 12.
Definition EINVAL : Z := 22.

Definition FC_JSON_TYPE_STRING : Z := 1.
Definition FC_JSON_TYPE_ARRAY : Z := 2.
Definition FC_JSON_TYPE_MAP : Z := 3.

Definition sizeof_string_t : Z := 16.
Definition sizeof_key_value_pair_t : Z := 32.

Definition jint (z : Z) : JM Z := lift (cint z).

(** The characters the code names. *)
Abbreviation c_quot := 34.
Abbreviation c_apos := 39.
Abbreviation c_comma := 44.
Abbreviation c_colon := 58.
Abbreviation c_lbracket := 91.
Abbreviation c_backslash := 92.
Abbreviation c_rbracket := 93.
Abbreviation c_lbrace := 123.
Abbreviation c_rbrace := 125.

Definition JSON_SPACE (ch : Z) : bool := (ch =? 32) || (ch =? 9) || (ch =? 13) || (ch =? 10).

Definition JSON_TOKEN (ch : Z) : bool :=
  ((97 <=? ch) && (ch <=? 122)) || ((65 <=? ch) && (ch <=? 90)) ||
  ((48 <=? ch) && (ch <=? 57)) || ((ch =? 95) || (ch =? 45) || (ch =? 46)).

Record string_t := mkStr { str : ptr; len : Z }.

Definition detect_json_type (input : string_t) : JM Z :=
  if len input <? 2 then mret FC_JSON_TYPE_STRING else
  c0 ← read_byte (str input);
  c1 ← read_byte (padd (str input) (len input - 1));
  if (c0 =? c_lbracket) && (c1 =? c_rbracket) then mret FC_JSON_TYPE_ARRAY
  else if (c0 =? c_lbrace) && (c1 =? c_rbrace) then mret FC_JSON_TYPE_MAP
  else mret FC_JSON_TYPE_STRING.

(** ** Writing *)

(** The character after the backslash, for those that are escaped. *)
Definition escape_char (c : Z) : option Z :=
  if c =? c_backslash then Some c_backslash
  else if c =? 9 then Some 116
  else if c =? 13 then Some 114
  else if c =? 10 then Some 110
  else if c =? 8 then Some 98
  else if c =? c_quot then Some c_quot
  else if c =? c_apos then Some c_apos
  else None.

Fixpoint escape_loop (n : nat) (src dest : ptr) : JM ptr :=
  match n with
  | O => mret dest
  | S n =>
      c ← read_byte src;
      match escape_char c with
      | Some e => write_byte dest c_backslash;; write_byte (padd dest 1) e;; escape_loop n (padd src 1) (padd dest 2)
      | None => write_byte dest c;; escape_loop n (padd src 1) (padd dest 1)
      end
  end.

Definition json_escape_string (input : string_t) : JM (Z * option string_t) :=
  n ← jint (2 * len input); size ← jint (n + 1);
  output ← malloc (u64 size);
  match output with
  | None => mret (ENOMEM, None)
  | Some o =>
      dest ← escape_loop (Z.to_nat (len input)) (str input) o;
      write_byte dest 0;;
      mret (0, Some (mkStr o (dest.2 - o.2)))
  end.

(** The result and the advanced pointer. *)
Definition json_quote_string (input : string_t) (p : ptr) : JM (Z * ptr) :=
  r ← json_escape_string input;
  match r with
  | (result, None) => mret (result, p)
  | (_, Some escaped) =>
      write_byte p c_quot;;
      memcpy (padd p 1) (str escaped) (len escaped);;
      write_byte (padd p (1 + len escaped)) c_quot;;
      free (str escaped);;
      mret (0, padd p (2 + len escaped))
  end.

Fixpoint array_size (els : list string_t) (size : Z) : res Z :=
  match els with
  | [] => Done size
  | el :: els =>
      a ← cint (2 * len el); b ← cint (a + 3); size ← cint (size + b);
      array_size els size
  end.

(** [first]: the element is the array's first. *)
Fixpoint encode_elements (els : list string_t) (first : bool) (p : ptr) : JM (Z * ptr) :=
  match els with
  | [] => mret (0, p)
  | el :: els =>
      p ← (if first then mret p else write_byte p c_comma;; mret (padd p 1));
      r ← json_quote_string el p;
      if negb (r.1 =? 0) then mret r else encode_elements els false r.2
  end.

Definition encode_json_array (els : list string_t) : JM (Z * option string_t) :=
  size ← lift (array_size els 3);
  output ← malloc (u64 size);
  match output with
  | None => mret (ENOMEM, None)
  | Some o =>
      write_byte o c_lbracket;;
      r ← encode_elements els true (padd o 1);
      if negb (r.1 =? 0) then free o;; mret (r.1, None) else
      write_byte r.2 c_rbracket;;
      write_byte (padd r.2 1) 0;;
      mret (0, Some (mkStr o (r.2.2 + 1 - o.2)))
  end.

Fixpoint map_size (pairs : list (string_t * string_t)) (size : Z) : res Z :=
  match pairs with
  | [] => Done size
  | (key, value) :: pairs =>
      a ← cint (len key + len value); b ← cint (a + 2); c ← cint (2 * b); d ← cint (c + 1);
      size ← cint (size + d);
      map_size pairs size
  end.

Fixpoint encode_pairs (pairs : list (string_t * string_t)) (first : bool) (p : ptr) : JM (Z * ptr) :=
  match pairs with
  | [] => mret (0, p)
  | (key, value) :: pairs =>
      p ← (if first then mret p else write_byte p c_comma;; mret (padd p 1));
      r ← json_quote_string key p;
      if negb (r.1 =? 0) then mret r else
      write_byte r.2 c_colon;;
      r ← json_quote_string value (padd r.2 1);
      if negb (r.1 =? 0) then mret r else encode_pairs pairs false r.2
  end.

Definition encode_json_map (pairs : list (string_t * string_t)) : JM (Z * option string_t) :=
  size ← lift (map_size pairs 3);
  output ← malloc (u64 size);
  match output with
  | None => mret (ENOMEM, None)
  | Some o =>
      write_byte o c_lbrace;;
      r ← encode_pairs pairs true (padd o 1);
      if negb (r.1 =? 0) then free o;; mret (r.1, None) else
      write_byte r.2 c_rbrace;;
      write_byte (padd r.2 1) 0;;
      mret (0, Some (mkStr o (r.2.2 + 1 - o.2)))
  end.

(** ** Reading *)

(** [p] and [end_] are offsets from the beginning of the input. *)
Record ParseContext := mkCtx { input : ptr; p : Z; end_ : Z; element : string_t }.

Definition set_p (q : Z) (c : ParseContext) : ParseContext := mkCtx (input c) q (end_ c) (element c).
Definition set_element (e : string_t) (c : ParseContext) : ParseContext := mkCtx (input c) (p c) (end_ c) e.

(** The character an escape stands for. *)
Definition unescape_char (c : Z) : option Z :=
  if c =? c_backslash then Some c_backslash
  else if c =? 47 then Some 47
  else if c =? 116 then Some 9
  else if c =? 114 then Some 13
  else if c =? 110 then Some 10
  else if c =? 98 then Some 12
  else if c =? c_quot then Some c_quot
  else if c =? c_apos then Some c_apos
  else None.

(** The characters up to the closing quote, which is left; [None] is an error. *)
Fixpoint quoted_loop (fuel : nat) (s : ptr) (e quote q : Z) (dest : ptr) : JM (option (Z * ptr)) :=
  match fuel with
  | O => λ _, OutOfFuel
  | S fuel =>
      if q <? e then
        c ← read_byte (padd s q);
        if c =? quote then mret (Some (q, dest))
        else if c =? c_backslash then
          if q + 1 =? e then mret None else
          x ← read_byte (padd s (q + 1));
          match unescape_char x with
          | Some y => write_byte dest y;; quoted_loop fuel s e quote (q + 2) (padd dest 1)
          | None => mret None
          end
        else write_byte dest c;; quoted_loop fuel s e quote (q + 1) (padd dest 1)
      else mret (Some (q, dest))
  end.

Fixpoint token_loop (fuel : nat) (s : ptr) (e q : Z) (dest : ptr) : JM (Z * ptr) :=
  match fuel with
  | O => λ _, OutOfFuel
  | S fuel =>
      if q <? e then
        c ← read_byte (padd s q);
        if JSON_TOKEN c then write_byte dest c;; token_loop fuel s e (q + 1) (padd dest 1) else mret (q, dest)
      else mret (q, dest)
  end.

Definition next_json_element (fuel : nat) (c : ParseContext) : JM (Z * ParseContext) :=
  let dest := str (element c) in
  quote_ch ← read_byte (padd (input c) (p c));
  r ← (if (quote_ch =? c_quot) || (quote_ch =? c_apos) then
         r ← quoted_loop fuel (input c) (end_ c) quote_ch (p c + 1) dest;
         match r with
         | None => mret None
         | Some (q, dest) => if q =? end_ c then mret None else mret (Some (q + 1, dest))
         end
       else r ← token_loop fuel (input c) (end_ c) (p c) dest; mret (Some r));
  match r with
  | None => mret (EINVAL, c)
  | Some (q, d) =>
      write_byte d 0;;
      mret (0, set_element (mkStr dest (d.2 - dest.2)) (set_p q c))
  end.

(** The array's block, its elements (as many as [count]) and the elements' buffer. *)
Record json_array (A : Type) := mkArray { elements : option Z; items : list A; alloc : Z; buff : option ptr }.
Arguments mkArray {A}. Arguments elements {A}. Arguments items {A}. Arguments alloc {A}. Arguments buff {A}.

Definition empty_array {A} : json_array A := mkArray None [] 0 None.

(** When [realloc] fails its result, NULL, replaces the pointer to the elements. *)
Definition check_alloc_array {A} (element_size : Z) (a : json_array A) : JM (Z * json_array A) :=
  if zlen (items a) <? alloc a then mret (0, a) else
  n ← (if alloc a =? 0 then mret 32 else jint (alloc a * 2));
  bytes ← jint (element_size * n);
  x ← match elements a with
      | None => malloc (u64 bytes)
      | Some b => realloc (b, 0) (u64 bytes)
      end;
  match x with
  | None => mret (ENOMEM, mkArray None (items a) n (buff a))
  | Some x => mret (0, mkArray (Some x.1) (items a) n (buff a))
  end.

Definition push {A} (a : json_array A) (x : A) : res (json_array A) :=
  match elements a with
  | Some _ => if zlen (items a) <? alloc a then Done (mkArray (elements a) (items a ++ [x]) (alloc a) (buff a)) else Undef
  | None => Undef
  end.

Definition no_items {A} (a : json_array A) : json_array A := mkArray (elements a) [] (alloc a) (buff a).

Definition free_common_array {A} (a : json_array A) : JM (json_array A) :=
  a ← match elements a with
      | Some b => free (b, 0);; mret (mkArray None [] (alloc a) (buff a))
      | None => mret a
      end;
  match buff a with
  | Some b => free b;; mret (mkArray (elements a) (items a) (alloc a) None)
  | None => mret a
  end.

Definition prepare_json_parse {A} (inp : string_t) (lquote rquote : Z) : JM (Z * json_array A * ParseContext) :=
  let none := mkCtx (str inp) 0 0 (mkStr (str inp) 0) in
  if len inp <? 2 then mret (EINVAL, empty_array, none) else
  c0 ← read_byte (str inp);
  if negb (c0 =? lquote) then mret (EINVAL, empty_array, none) else
  c1 ← read_byte (padd (str inp) (len inp - 1));
  if negb (c1 =? rquote) then mret (EINVAL, empty_array, none) else
  b ← malloc (u64 (len inp - 2 + 1));
  match b with
  | None => mret (ENOMEM, empty_array, none)
  | Some b => mret (0, mkArray None [] 0 (Some b), mkCtx (str inp) 1 (len inp - 1) (mkStr b 0))
  end.

Fixpoint skip_spaces (fuel : nat) (c : ParseContext) : JM ParseContext :=
  match fuel with
  | O => λ _, OutOfFuel
  | S fuel =>
      if p c <? end_ c then
        x ← read_byte (padd (input c) (p c));
        if JSON_SPACE x then skip_spaces fuel (set_p (p c + 1) c) else mret c
      else mret c
  end.

(** After an element: a comma or the end. *)
Definition skip_comma (c : ParseContext) : JM (Z * ParseContext) :=
  if p c <? end_ c then
    x ← read_byte (padd (input c) (p c));
    if x =? c_comma then mret (0, set_p (p c + 1) c) else mret (EINVAL, c)
  else mret (0, c).

Definition next_place (c : ParseContext) : ParseContext :=
  set_element (mkStr (padd (str (element c)) (len (element c) + 1)) (len (element c))) c.

Fixpoint array_loop (fuel : nat) (c : ParseContext) (a : json_array string_t) : JM (Z * json_array string_t) :=
  match fuel with
  | O => λ _, OutOfFuel
  | S fuel' =>
      if negb (p c <? end_ c) then mret (0, a) else
      c ← skip_spaces fuel c;
      if p c =? end_ c then mret (0, a) else
      x ← read_byte (padd (input c) (p c));
      if x =? c_comma then mret (EINVAL, a) else
      r ← next_json_element fuel c;
      if negb (r.1 =? 0) then mret (r.1, a) else
      c ← skip_spaces fuel r.2;
      r ← skip_comma c;
      if negb (r.1 =? 0) then mret (r.1, a) else
      let c := r.2 in
      r ← check_alloc_array sizeof_string_t a;
      if negb (r.1 =? 0) then mret (r.1, no_items r.2) else
      a ← lift (push r.2 (element c));
      array_loop fuel' (next_place c) a
  end.

Definition decode_json_array (fuel : nat) (inp : string_t) : JM (Z * json_array string_t) :=
  r ← prepare_json_parse inp c_lbracket c_rbracket;
  let '(result, a, c) := r in
  if negb (result =? 0) then mret (result, a) else
  r ← array_loop fuel c a;
  if negb (r.1 =? 0) then a ← free_common_array r.2; mret (r.1, a) else mret r.

Fixpoint map_loop (fuel : nat) (c : ParseContext) (m : json_array (string_t * string_t)) :
    JM (Z * json_array (string_t * string_t)) :=
  match fuel with
  | O => λ _, OutOfFuel
  | S fuel' =>
      if negb (p c <? end_ c) then mret (0, m) else
      c ← skip_spaces fuel c;
      if p c =? end_ c then mret (0, m) else
      x ← read_byte (padd (input c) (p c));
      if x =? c_comma then mret (EINVAL, m) else
      r ← next_json_element fuel c;
      if negb (r.1 =? 0) then mret (r.1, m) else
      c ← skip_spaces fuel r.2;
      colon ← (if p c <? end_ c then x ← read_byte (padd (input c) (p c)); mret (x =? c_colon) else mret false);
      if negb colon then mret (EINVAL, m) else
      let key := element c in
      c ← skip_spaces fuel (next_place (set_p (p c + 1) c));
      r ← next_json_element fuel c;
      if negb (r.1 =? 0) then mret (r.1, m) else
      c ← skip_spaces fuel r.2;
      r ← skip_comma c;
      if negb (r.1 =? 0) then mret (r.1, m) else
      let c := r.2 in
      let value := element c in
      r ← check_alloc_array sizeof_key_value_pair_t m;
      if negb (r.1 =? 0) then mret (r.1, no_items r.2) else
      m ← lift (push r.2 (key, value));
      map_loop fuel' (next_place c) m
  end.

Definition decode_json_map (fuel : nat) (inp : string_t) : JM (Z * json_array (string_t * string_t)) :=
  r ← prepare_json_parse inp c_lbrace c_rbrace;
  let '(result, m, c) := r in
  if negb (result =? 0) then mret (result, m) else
  r ← map_loop fuel c m;
  if negb (r.1 =? 0) then m ← free_common_array r.2; mret (r.1, m) else mret r.

(** * Reference definitions *)

(** Text between quotes. *)
Definition escape (s : list Z) : list Z :=
  concat ((λ c, match escape_char c with Some e => [c_backslash; e] | None => [c] end) <$> s).

Definition quoted (s : list Z) : list Z := c_quot :: escape s ++ [c_quot].

Fixpoint separate (l : list (list Z)) : list Z :=
  match l with
  | [] => []
  | [x] => x
  | x :: l => x ++ c_comma :: separate l
  end.

Definition array_text (ss : list (list Z)) : list Z := c_lbracket :: separate (quoted <$> ss) ++ [c_rbracket].

Definition pair_text (kv : list Z * list Z) : list Z := quoted kv.1 ++ c_colon :: quoted kv.2.
Definition map_text (kvs : list (list Z * list Z)) : list Z := c_lbrace :: separate (pair_text <$> kvs) ++ [c_rbrace].

(** What stands for a character after a backslash in JSON, but [\f] and [\u], and the
    apostrophe. *)
Definition json_escapes : list (Z * Z) :=
  [(34, 34); (39, 39); (47, 47); (92, 92); (98, 8); (110, 10); (114, 13); (116, 9)].

Fixpoint assoc (l : list (Z * Z)) (x : Z) : option Z :=
  match l with
  | [] => None
  | (k, v) :: l => if x =? k then Some v else assoc l x
  end.

(** The escapes as the library reads them: [\b] is a form feed, not a backspace. *)
Definition escape_value (x : Z) : option Z := if x =? 98 then Some 12 else assoc json_escapes x.

Definition is_space (c : Z) : bool := existsb (Z.eqb c) [9; 10; 13; 32].

(** Digits, letters, the dot, the hyphen and the underscore. *)
Definition in_token (c : Z) : bool :=
  existsb (λ '(lo, hi), (lo <=? c) && (c <=? hi)) [(48, 57); (65, 90); (97, 122); (45, 46); (95, 95)].

(** The unescaped text before the closing quote, and what follows the quote. *)
Fixpoint unquote (q : Z) (l : list Z) : option (list Z * list Z) :=
  match l with
  | [] => None
  | c :: l =>
      if c =? q then Some ([], l)
      else if c =? c_backslash then
        match l with
        | [] => None
        | x :: l =>
            match escape_value x with
            | Some y => match unquote q l with Some (w, r) => Some (y :: w, r) | None => None end
            | None => None
            end
        end
      else match unquote q l with Some (w, r) => Some (c :: w, r) | None => None end
  end.

Fixpoint token (l : list Z) : list Z * list Z :=
  match l with
  | c :: l' => if in_token c then let '(w, r) := token l' in (c :: w, r) else ([], l)
  | [] => ([], [])
  end.

Definition is_quote (c : Z) : bool := (c =? c_quot) || (c =? c_apos).

Definition element_of (l : list Z) : option (list Z * list Z) :=
  match l with
  | c :: l' => if is_quote c then unquote c l' else Some (token l)
  | [] => Some ([], [])
  end.

Fixpoint skip (l : list Z) : list Z :=
  match l with
  | c :: l' => if is_space c then skip l' else l
  | [] => []
  end.

(** What follows a comma, or nothing. *)
Definition comma (l : list Z) : option (list Z) :=
  match l with
  | c :: l => if c =? c_comma then Some l else None
  | [] => Some []
  end.

Definition colon (l : list Z) : option (list Z) :=
  match l with
  | c :: l => if c =? c_colon then Some l else None
  | [] => None
  end.

(** The elements of the text between the brackets. *)
Fixpoint read_items (fuel : nat) (l : list Z) : option (list (list Z)) :=
  match fuel with
  | O => None
  | S fuel =>
      match skip l with
      | [] => Some []
      | c :: l' =>
          if c =? c_comma then None else
          '(w, r) ← element_of (c :: l');
          r ← comma (skip r);
          ws ← read_items fuel r;
          Some (w :: ws)
      end
  end.

Fixpoint read_pairs (fuel : nat) (l : list Z) : option (list (list Z * list Z)) :=
  match fuel with
  | O => None
  | S fuel =>
      match skip l with
      | [] => Some []
      | c :: l' =>
          if c =? c_comma then None else
          '(k, r) ← element_of (c :: l');
          r ← colon (skip r);
          '(v, r) ← element_of (skip r);
          r ← comma (skip r);
          ws ← read_pairs fuel r;
          Some ((k, v) :: ws)
      end
  end.

(** The text between an opening and a closing character. *)
Definition between (o c : Z) (t : list Z) : option (list Z) :=
  match t with
  | x :: l =>
      match last l with
      | Some y => if (x =? o) && (y =? c) then Some (removelast l) else None
      | None => None
      end
  | [] => None
  end.

Definition read_array (t : list Z) : option (list (list Z)) :=
  l ← between c_lbracket c_rbracket t; read_items (S (length l)) l.
Definition read_map (t : list Z) : option (list (list Z * list Z)) :=
  l ← between c_lbrace c_rbrace t; read_pairs (S (length l)) l.

(** ** Round trip of the reference definitions *)

Lemma escape_cons c s :
  escape (c :: s) = match escape_char c with Some e => [c_backslash; e] | None => [c] end ++ escape s.
Proof. done. Qed.

(** The tables of the code and of the reference are the same. *)
Lemma unescape_char_value x : unescape_char x = escape_value x.
Proof.
  unfold unescape_char, escape_value, json_escapes, assoc. repeat (case_match; propify; subst; try done).
Qed.

Lemma JSON_SPACE_is_space c : JSON_SPACE c = is_space c.
Proof. unfold JSON_SPACE, is_space. cbn [existsb]. destruct (c =? 9), (c =? 10), (c =? 13), (c =? 32); done. Qed.

Lemma JSON_TOKEN_in_token c : JSON_TOKEN c = in_token c.
Proof. apply eq_true_iff_eq. unfold JSON_TOKEN, in_token. cbn [existsb]. rewrite !orb_true_iff, !andb_true_iff, !Z.leb_le, !Z.eqb_eq. lia. Qed.

(** Every escape but that of the backspace is undone. *)
Lemma unescape_escape c e : escape_char c = Some e → c ≠ 8 → escape_value e = Some c.
Proof.
  unfold escape_char. repeat case_match; propify; intros [= <-] ?; subst; done.
Qed.

Lemma unquote_escape s r :
  Forall (λ c, c ≠ 8) s → unquote c_quot (escape s ++ c_quot :: r) = Some (s, r).
Proof.
  induction 1 as [|c s Hc Hs IH]; [done|]. rewrite escape_cons. destruct (escape_char c) as [e|] eqn:E.
  - cbn [app unquote]. by rewrite (unescape_escape c e E Hc), IH.
  - assert (c ≠ c_quot ∧ c ≠ c_backslash) as [H1 H2].
    { unfold escape_char in E. repeat case_match; propify; done. }
    cbn [app unquote]. apply Z.eqb_neq in H1, H2. by rewrite H1, H2, IH.
Qed.

Lemma separate_cons x y l : separate (x :: y :: l) = x ++ c_comma :: separate (y :: l).
Proof. done. Qed.

Lemma element_of_quoted s r :
  Forall (λ c, c ≠ 8) s → element_of (quoted s ++ r) = Some (s, r).
Proof. intros Hs. unfold quoted. rewrite <-app_comm_cons, <-app_assoc. by apply unquote_escape. Qed.

Lemma comma_next r : comma (skip (c_comma :: r)) = Some r.
Proof. done. Qed.

Lemma read_items_separate ss fuel :
  Forall (Forall (λ c, c ≠ 8)) ss → (length ss < fuel)%nat → read_items fuel (separate (quoted <$> ss)) = Some ss.
Proof.
  intros Hs. revert fuel. induction Hs as [|s ss Hs Hss IH]; intros [|fuel] Hf; try (cbn in Hf; lia); [done|].
  assert (∀ r, read_items (S fuel) (quoted s ++ r) = (r ← comma (skip r); ws ← read_items fuel r; Some (s :: ws))) as E.
  { intros r. cbn [read_items]. change (skip (quoted s ++ r)) with (quoted s ++ r).
    destruct (quoted s ++ r) as [|c l'] eqn:El; [done|]. assert (c = c_quot) as -> by by injection El.
    rewrite <-El, element_of_quoted by done. done. }
  destruct ss as [|s' ss].
  - cbn [fmap list_fmap separate]. rewrite <-(app_nil_r (quoted s)), E. destruct fuel; [cbn in Hf; lia|done].
  - cbn [fmap list_fmap]. rewrite separate_cons, E, comma_next. cbn [mbind option_bind].
    specialize (IH fuel ltac:(cbn in *; lia)). cbn [fmap list_fmap] in IH. by rewrite IH.
Qed.

Lemma last_snoc_between o c l : between o c (o :: l ++ [c]) = Some l.
Proof. unfold between. rewrite last_snoc, !Z.eqb_refl. cbn. by rewrite removelast_last. Qed.

Lemma separate_length l : Forall (λ x, (2 ≤ length x)%nat) l → (length l ≤ length (separate l))%nat.
Proof.
  induction 1 as [|x l Hx Hl IH]; [done|]. destruct l as [|y l]; [cbn in *; lia|].
  rewrite separate_cons, length_app. cbn [length] in *. lia.
Qed.

Lemma quoted_length s : (2 ≤ length (quoted s))%nat.
Proof. unfold quoted. cbn. rewrite length_app. cbn. lia. Qed.

Lemma read_array_text ss : Forall (Forall (λ c, c ≠ 8)) ss → read_array (array_text ss) = Some ss.
Proof.
  intros Hs. unfold read_array, array_text. rewrite last_snoc_between. cbn [mbind option_bind].
  apply read_items_separate; [done|]. pose proof (separate_length (quoted <$> ss)) as Hl. rewrite length_fmap in Hl.
  enough (length ss ≤ length (separate (quoted <$> ss)))%nat by lia. apply Hl, Forall_fmap, Forall_true.
  intros s. apply quoted_length.
Qed.

Lemma colon_next r : colon (skip (c_colon :: r)) = Some r.
Proof. done. Qed.

Lemma skip_quoted s r : skip (quoted s ++ r) = quoted s ++ r.
Proof. done. Qed.

Definition no_backspace (s : list Z) : Prop := Forall (λ c, c ≠ 8) s.

Lemma read_pairs_separate kvs fuel :
  Forall (λ kv, no_backspace kv.1 ∧ no_backspace kv.2) kvs → (length kvs < fuel)%nat →
  read_pairs fuel (separate (pair_text <$> kvs)) = Some kvs.
Proof.
  intros Hs. revert fuel. induction Hs as [|[k v] kvs [Hk Hv] Hss IH]; intros [|fuel] Hf; try (cbn in Hf; lia); [done|].
  assert (∀ r, read_pairs (S fuel) (pair_text (k, v) ++ r) = (r ← comma (skip r); ws ← read_pairs fuel r; Some ((k, v) :: ws))) as E.
  { intros r. unfold pair_text. cbn [fst snd]. rewrite <-app_assoc. cbn [read_pairs]. rewrite skip_quoted.
    destruct (quoted k ++ _) as [|c l'] eqn:El; [done|]. assert (c = c_quot) as -> by by injection El.
    rewrite <-El, element_of_quoted by done. change (c_quot =? c_comma) with false. cbv beta iota. cbn [mbind option_bind app].
    rewrite colon_next. cbn [mbind option_bind]. rewrite skip_quoted, element_of_quoted by done. done. }
  destruct kvs as [|kv' kvs].
  - cbn [fmap list_fmap separate]. rewrite <-(app_nil_r (pair_text _)), E. destruct fuel; [cbn in Hf; lia|done].
  - cbn [fmap list_fmap]. rewrite separate_cons, E, comma_next. cbn [mbind option_bind].
    specialize (IH fuel ltac:(cbn in *; lia)). cbn [fmap list_fmap] in IH. by rewrite IH.
Qed.

Lemma read_map_text kvs : Forall (λ kv, no_backspace kv.1 ∧ no_backspace kv.2) kvs → read_map (map_text kvs) = Some kvs.
Proof.
  intros Hs. unfold read_map, map_text. rewrite last_snoc_between. cbn [mbind option_bind].
  apply read_pairs_separate; [done|]. pose proof (separate_length (pair_text <$> kvs)) as Hl. rewrite length_fmap in Hl.
  enough (length kvs ≤ length (separate (pair_text <$> kvs)))%nat by lia. apply Hl, Forall_fmap, Forall_true.
  intros kv. unfold pair_text. cbn. rewrite !length_app. pose proof (quoted_length kv.2). cbn. lia.
Qed.

