(* ===== verification/JsonWrite.v ===== *)
(** Texts in memory while a block is written, and the writers of json_parser.c:
    what [encode_json_array] and [encode_json_map] leave is the text of the
    reference definitions, when the block they allocate is large enough. *)
From S2P Require Import Prelude CMemory Json.

(** * Memory *)

(** [h'] is [h] but for the block [B], which has the content [X] now. *)
Record writing (h h' : jheap) (B : Z) (X : list Z) : Prop := {
  wr_ok : heap_ok h';
  wr_block : blocks h' !! B = Some X;
  wr_others x : x ≠ B → blocks h' !! x = blocks h !! x }.

Lemma text_writing h h' B X s c : writing h h' B X → s.1 ≠ B → text h s c → text h' s c.
Proof. intros W Hne (b & Hb & ?). exists b. split; [by rewrite (wr_others _ _ _ _ W)|done]. Qed.

Lemma zwrite_app_mid (A T xs : list Z) :
  zlen xs ≤ zlen T → zwrite (A ++ T) (zlen A) xs = A ++ xs ++ drop (length xs) T.
Proof.
  intros Hl. unfold zwrite. rewrite take_app_length' by (unfold zlen; lia).
  rewrite drop_app_ge by (unfold zlen; lia). do 3 f_equal. unfold zlen. lia.
Qed.

Lemma step_write {A} h0 h B X1 X2 xs q (k : unit → JM A) Q :
  writing h0 h B (X1 ++ X2) → q = (B, zlen X1) → zlen xs ≤ zlen X2 →
  (∀ h', writing h0 h' B (X1 ++ xs ++ drop (length xs) X2) → returns (k tt h') Q) →
  returns ((store_bytes q xs ≫= k) h) Q.
Proof.
  intros [OK Hb Ho] -> Hl HQ. rewrite M_bind_eq. pose proof (zlen_nonneg X1).
  rewrite (store_bytes_ok _ _ (X1 ++ X2)) by (cbn; rewrite ?zlen_app; (done || lia)). cbn [mbind res_bind fst snd].
  apply HQ. split; cbn.
  - apply heap_ok_with_blocks; [done|by rewrite Hb].
  - rewrite lookup_insert_eq. by rewrite zwrite_app_mid.
  - intros x Hx. rewrite lookup_insert_ne by done. by apply Ho.
Qed.

Lemma step_write_char {A} h0 h B X1 y X2 x q (k : unit → JM A) Q :
  writing h0 h B (X1 ++ y :: X2) → q = (B, zlen X1) → is_byte x →
  (∀ h', writing h0 h' B ((X1 ++ [x]) ++ X2) → returns (k tt h') Q) →
  returns ((write_byte q x ≫= k) h) Q.
Proof.
  intros W Hq Hx HQ. unfold write_byte. eapply step_write; [exact W|done|pose proof (zlen_nonneg X2); zlen_lia|].
  intros h' W'. apply HQ. rewrite <-app_assoc. unfold is_byte in Hx. unfold u8 in W'. rewrite (Z.mod_small x) in W' by lia. exact W'.
Qed.

(** While the block [B] is written, texts elsewhere stay. *)
Lemma step_read_text {A} h0 h B X s c i x (k : Z → JM A) Q :
  writing h0 h B X → s.1 ≠ B → text h0 s c → zget c i = Some x → returns (k x h) Q →
  returns ((read_byte (padd s i) ≫= k) h) Q.
Proof. intros W Hne HT Hi HQ. eapply step_read_char; [by eapply text_writing|exact Hi|done]. Qed.

Lemma step_read_first {A} h0 h B X s c x (k : Z → JM A) Q :
  writing h0 h B X → s.1 ≠ B → text h0 s (x :: c) → returns (k x h) Q → returns ((read_byte s ≫= k) h) Q.
Proof.
  intros W Hne HT HQ. pose proof (step_read_text h0 h B X s (x :: c) 0 x k Q W Hne HT eq_refl HQ) as HR.
  unfold padd in HR. rewrite Z.add_0_r in HR. by destruct s.
Qed.

(** ** Escaping *)

Lemma escape_char_byte c e : escape_char c = Some e → is_byte e.
Proof. unfold escape_char, is_byte. repeat case_match; intros [= <-]; lia. Qed.

Lemma unescape_char_byte c e : unescape_char c = Some e → is_byte e.
Proof. unfold unescape_char, is_byte. repeat case_match; intros [= <-]; lia. Qed.

Lemma zlen_escape s : zlen s ≤ zlen (escape s) ≤ 2 * zlen s.
Proof.
  induction s as [|c s IH]; [done|]. rewrite escape_cons, zlen_app, !zlen_cons. destruct (escape_char c); cbn; zlen_lia.
Qed.

Lemma step_escape_loop {A} h0 h B X1 X2 s (c : list Z) q (k : ptr → JM A) Q :
  writing h0 h B (X1 ++ X2) → q = (B, zlen X1) → zlen (escape c) ≤ zlen X2 → text h0 s c → s.1 ≠ B → Forall is_byte c →
  (∀ h', writing h0 h' B ((X1 ++ escape c) ++ drop (length (escape c)) X2) → returns (k (padd q (zlen (escape c))) h') Q) →
  returns ((escape_loop (length c) s q ≫= k) h) Q.
Proof.
  revert h X1 X2 s q. induction c as [|x c IH]; intros h X1 X2 s q W -> Hl HT Hne HB HQ; cbn [escape_loop length].
  { apply step_ret. unfold padd in HQ. cbn in HQ. rewrite Z.add_0_r in HQ. apply HQ. by rewrite app_nil_r. }
  rewrite Forall_cons in HB. destruct HB as [Hx HB].
  apply step_assoc. eapply step_read_first; [exact W|done|exact HT|].
  rewrite escape_cons in *. pose proof (zlen_nonneg (escape c)) as He. destruct (escape_char x) as [e|] eqn:Ee.
  - rewrite zlen_app in Hl. change (zlen [c_backslash; e]) with 2 in Hl.
    destruct X2 as [|y1 [|y2 X2]]; [by rewrite zlen_nil in Hl; lia|by rewrite zlen_cons, zlen_nil in Hl; lia|].
    rewrite !zlen_cons in Hl.
    apply step_assoc. eapply step_write_char; [exact W|done|done|]. intros h1 W1.
    apply step_assoc. eapply step_write_char; [exact W1|unfold padd; cbn; f_equal; zlen_lia|by eapply escape_char_byte|]. intros h2 W2.
    eapply IH; [exact W2|unfold padd; cbn; f_equal; zlen_lia|zlen_simpl; lia|by eapply text_tail|done|done|].
    intros h' W'. rewrite <-!app_assoc in W'. cbn [app length drop] in *. rewrite <-!app_assoc in HQ.
    unfold padd in *. cbn [fst snd] in *. rewrite !zlen_cons in HQ.
    replace (zlen X1 + 2 + zlen (escape c)) with (zlen X1 + (zlen (escape c) + 1 + 1)) by lia. by apply HQ.
  - rewrite zlen_app in Hl. change (zlen [x]) with 1 in Hl.
    destruct X2 as [|y1 X2]; [by rewrite zlen_nil in Hl; lia|].
    rewrite zlen_cons in Hl.
    apply step_assoc. eapply step_write_char; [exact W|done|done|]. intros h1 W1.
    eapply IH; [exact W1|unfold padd; cbn; f_equal; zlen_lia|zlen_simpl; lia|by eapply text_tail|done|done|].
    intros h' W'. rewrite <-!app_assoc in W'. cbn [app length drop] in *. rewrite <-!app_assoc in HQ.
    unfold padd in *. cbn [fst snd] in *. rewrite !zlen_cons in HQ.
    replace (zlen X1 + 1 + zlen (escape c)) with (zlen X1 + (zlen (escape c) + 1)) by lia. by apply HQ.
Qed.

(** A string that the library is given. *)
Definition given (h : jheap) (s : string_t) (c : list Z) : Prop :=
  text h (str s) c ∧ len s = zlen c ∧ Forall is_byte c.

Lemma given_writing h h' B X s c : writing h h' B X → (str s).1 ≠ B → given h s c → given h' s c.
Proof. intros W Hne (HT & ?). split; [by eapply text_writing|done]. Qed.

Lemma writing_refl h B X : heap_ok h → blocks h !! B = Some X → writing h h B X.
Proof. intros OK Hb. by split. Qed.

(** A fresh block is written, the block [B] again, and the fresh one released. *)
Lemma writing_freed h0 h B X h1 h2 Y Z' h3 X' :
  writing h0 h B X → blocks h1 = <[next h := Y]> (blocks h) → writing h1 h2 (next h) Z' → writing h2 h3 B X' →
  writing h0 (with_blocks h3 (delete (next h) (blocks h3))) B X'.
Proof.
  intros [OK Hb Ho] E [OK2 Hb2 Ho2] [OK3 Hb3 Ho3]. destruct (heap_ok_fresh h OK) as [_ Hf].
  assert (B ≠ next h) as Hne by congruence. split; cbn.
  - by apply heap_ok_delete_block.
  - by rewrite lookup_delete_ne.
  - intros x Hx. destruct (decide (x = next h)) as [->|Hxn].
    + rewrite lookup_delete_eq. rewrite <-Ho by done. done.
    + rewrite lookup_delete_ne, Ho3, Ho2, E, lookup_insert_ne by done. by apply Ho.
Qed.

Lemma writing_same h0 h h' B X : writing h0 h B X → same_memory h h' → writing h0 h' B X.
Proof. intros [OK Hb Ho] (_ & E & OK'). split; [done|by rewrite E|]. intros x Hx. rewrite E. by apply Ho. Qed.

(** While another fresh block is written, [B] is unchanged. *)
Lemma writing_beside h0 h B X h1 h2 Y Z' :
  writing h0 h B X → blocks h1 = <[next h := Y]> (blocks h) → writing h1 h2 (next h) Z' →
  writing h2 h2 B X ∧ B ≠ next h.
Proof.
  intros [OK Hb Ho] E [OK2 Hb2 Ho2]. destruct (heap_ok_fresh h OK) as [_ Hf].
  assert (B ≠ next h) as Hne by congruence. split; [|done]. apply writing_refl; [done|].
  rewrite Ho2, E by done. by rewrite lookup_insert_ne.
Qed.

Lemma step_json_escape_string {A} h s c (k : Z * option string_t → JM A) Q :
  heap_ok h → given h s c → 2 * zlen c + 1 ≤ INT_MAX →
  (∀ h', out_of_memory h h' → returns (k (ENOMEM, None) h') Q) →
  (∀ h1 h2 Y Z', blocks h1 = <[next h := Y]> (blocks h) → writing h1 h2 (next h) (escape c ++ Z') →
     returns (k (0, Some (mkStr (next h, 0) (zlen (escape c)))) h2) Q) →
  returns ((json_escape_string s ≫= k) h) Q.
Proof.
  intros OK (HT & Hlen & HB) Hmax Hfail Hok. unfold json_escape_string. rewrite Hlen.
  pose proof (zlen_nonneg c) as H0. pose proof (zlen_escape c) as He.
  apply step_assoc, (step_lift _ (2 * zlen c)); [apply cint_ok; int_lia|].
  apply step_assoc, (step_lift _ (2 * zlen c + 1)); [apply cint_ok; int_lia|].
  apply step_assoc, step_malloc; [done|intros h' Hs; by apply Hfail|]. intros h1 _ E OK1 Hn.
  apply step_assoc. unfold zlen at 1. rewrite Nat2Z.id.
  assert ((str s).1 ≠ next h) as Hne.
  { destruct HT as (b & Hb & _). destruct (heap_ok_fresh h OK) as [_ Hf]. congruence. }
  set (Y := replicate _ _) in E. assert (zlen Y = 2 * zlen c + 1) as HY.
  { unfold Y. rewrite zlen_replicate. unfold u64. rewrite Z.mod_small by int_lia. lia. }
  eapply (step_escape_loop h1 h1 (next h) [] Y); [apply writing_refl; [done|by rewrite E, lookup_insert_eq]|done|lia| |done|done|].
  { destruct HT as (b & Hb & HT). exists b. split; [|done]. rewrite E. by rewrite lookup_insert_ne. }
  intros h2 W2. unfold padd. cbn [fst snd]. rewrite Z.add_0_l. cbn [app] in W2.
  assert (∃ y Z', drop (length (escape c)) Y = y :: Z') as (y & Z' & Ed).
  { destruct (drop (length (escape c)) Y) as [|y Z'] eqn:Ed; [|by exists y, Z'].
    apply (f_equal length) in Ed. rewrite length_drop in Ed. unfold zlen in *. cbn in Ed. lia. }
  rewrite Ed in W2. apply step_assoc.
  eapply step_write_char; [exact W2|done|unfold is_byte; lia|]. intros h3 W3. apply step_ret. cbn [fst snd].
  rewrite Z.sub_0_r. rewrite <-app_assoc in W3. by eapply Hok.
Qed.

(** Copying a text into the block. *)
Lemma step_copy_text {A} h0 h B X1 X2 s c q n (k : unit → JM A) Q :
  writing h0 h B (X1 ++ X2) → q = (B, zlen X1) → text h0 s c → n = zlen c → s.1 ≠ B → zlen c ≤ zlen X2 →
  (∀ h', writing h0 h' B ((X1 ++ c) ++ drop (length c) X2) → returns (k tt h') Q) →
  returns ((memcpy q s n ≫= k) h) Q.
Proof.
  intros W -> HT -> Hne Hl HQ. destruct (text_writing _ _ _ _ _ _ W Hne HT) as (b & Hb & Hs & Hlb & E). destruct W as [OK HB Ho].
  pose proof (zlen_nonneg c). pose proof (zlen_nonneg X1).
  eapply step_memcpy; [exact HB|exact Hb|done|lia|cbn; lia|cbn; rewrite zlen_app; lia|lia|lia|]. cbn [fst snd]. rewrite E.
  rewrite zwrite_app_mid by lia. apply HQ. split; cbn.
  - apply heap_ok_with_blocks; [done|by rewrite HB].
  - rewrite lookup_insert_eq. by rewrite <-app_assoc.
  - intros x Hx. rewrite lookup_insert_ne by done. by apply Ho.
Qed.

Lemma zlen_quoted c : zlen (quoted c) = zlen (escape c) + 2.
Proof. unfold quoted. rewrite zlen_cons, zlen_app. change (zlen [c_quot]) with 1. lia. Qed.


Lemma step_json_quote_string {A} h0 h B X1 X2 s c q (k : Z * ptr → JM A) Q :
  writing h0 h B (X1 ++ X2) → q = (B, zlen X1) → zlen (quoted c) ≤ zlen X2 →
  given h0 s c → (str s).1 ≠ B → 2 * zlen c + 1 ≤ INT_MAX →
  (∀ h', writing h0 h' B (X1 ++ X2) → oom h' = true → returns (k (ENOMEM, q) h') Q) →
  (∀ h', writing h0 h' B ((X1 ++ quoted c) ++ drop (length (quoted c)) X2) →
     returns (k (0, padd q (zlen (quoted c))) h') Q) →
  returns ((json_quote_string s q ≫= k) h) Q.
Proof.
  intros W Hq Hl HG Hne Hmax Hfail Hok. unfold json_quote_string. rewrite zlen_quoted in *.
  apply step_assoc. eapply step_json_escape_string; [by apply W|by eapply given_writing|done| |].
  { intros h' [Hs Ho]. apply step_ret, Hfail; [by eapply writing_same|done]. }
  intros h1 h2 Y Z' E W2. destruct (writing_beside _ _ _ _ _ _ _ _ W E W2) as [WB HBI]. set (I := next h) in *.
  pose proof (zlen_nonneg (escape c)). cbn [str len].
  destruct X2 as [|y X2]; [rewrite zlen_nil in Hl; lia|]. rewrite zlen_cons in Hl.
  apply step_assoc. eapply step_write_char; [exact WB|done|done|]. intros h3 W3.
  assert (text h2 (I, 0) (escape c)) as HT.
  { exists (escape c ++ Z'). cbn. split_and!; [apply W2|lia|rewrite zlen_app; pose proof (zlen_nonneg Z'); lia|].
    unfold zslice, zlen. rewrite Nat2Z.id, drop_0. by rewrite take_app_length. }
  apply step_assoc. eapply step_copy_text; [exact W3|subst q; unfold padd; cbn; f_equal; zlen_lia|exact HT|done|cbn; congruence|lia|].
  intros h4 W4. destruct (drop (length (escape c)) X2) as [|y' X2'] eqn:Ed.
  { apply (f_equal length) in Ed. rewrite length_drop in Ed. unfold zlen in *. cbn in Ed. lia. }
  apply step_assoc. eapply step_write_char; [exact W4|subst q; unfold padd; cbn; f_equal; zlen_lia|done|]. intros h5 W5.
  apply step_assoc. eapply step_free; [rewrite (wr_others _ _ _ _ W5) by congruence; apply W2|].
  apply step_ret. replace (2 + zlen (escape c)) with (zlen (escape c) + 2) by lia. apply Hok.
  eapply writing_freed; [exact W|exact E|exact W2|]. unfold quoted.
  assert (drop (length (escape c)) X2 = [y'] ++ X2') as Ed' by done. apply (f_equal (drop 1)) in Ed'.
  cbn [length drop app]. rewrite drop_drop in Ed'. cbn [drop app] in Ed'. rewrite length_app. cbn [length].
  rewrite <-!app_assoc in *. cbn [app] in *. rewrite <-app_assoc. cbn [app]. by rewrite Ed'.
Qed.

(** The texts of the elements still to come, the first with a comma unless it
    is the first of all. *)
Definition lead (first : bool) (l : list (list Z)) : list Z :=
  match l with [] => [] | _ => (if first then [] else [c_comma]) ++ separate l end.

Lemma lead_cons first x l : lead first (x :: l) = (if first then [] else [c_comma]) ++ x ++ lead false l.
Proof. destruct l; cbn [lead separate]; [by rewrite app_nil_r|done]. Qed.

Lemma lead_true l : lead true l = separate l.
Proof. by destruct l. Qed.

Lemma drop_app_more {A} (a b l : list A) : drop (length b) (drop (length a) l) = drop (length (a ++ b)) l.
Proof. rewrite drop_drop, length_app. f_equal. Qed.

Lemma zlen_drop_length {A B} (a : list B) (l : list A) : zlen a ≤ zlen l → zlen (drop (length a) l) = zlen l - zlen a.
Proof. unfold zlen. rewrite length_drop. lia. Qed.

Lemma step_separator {A} h0 h B X1 X2 first q (k : ptr → JM A) Q :
  let t := if first : bool then [] else [c_comma] in
  writing h0 h B (X1 ++ X2) → q = (B, zlen X1) → zlen t ≤ zlen X2 →
  (∀ h', writing h0 h' B ((X1 ++ t) ++ drop (length t) X2) → returns (k (B, zlen (X1 ++ t)) h') Q) →
  returns (((if first then mret q else write_byte q c_comma;; mret (padd q 1)) ≫= k) h) Q.
Proof.
  intros t W -> Hl HQ. destruct first.
  - apply step_ret. unfold t in HQ. cbn [length drop] in HQ. rewrite app_nil_r in HQ. by apply HQ.
  - destruct X2 as [|y X2]; [done|]. apply step_assoc. eapply step_write_char; [exact W|done|done|].
    intros h' W'. apply step_ret. unfold padd. cbn. replace (zlen X1 + 1) with (zlen (X1 ++ [c_comma])) by zlen_lia.
    by apply HQ.
Qed.

(** What an element of the input has to be while the block [B] is written. *)
Definition operand (h : jheap) (B : Z) (s : string_t) (c : list Z) : Prop :=
  given h s c ∧ (str s).1 ≠ B ∧ 2 * zlen c + 1 ≤ INT_MAX.

Lemma step_encode_elements {A} h0 B els ss : Forall2 (operand h0 B) els ss →
  ∀ h X1 X2 first q (k : Z * ptr → JM A) Q,
  writing h0 h B (X1 ++ X2) → q = (B, zlen X1) → zlen (lead first (quoted <$> ss)) ≤ zlen X2 →
  (∀ h' X' q', writing h0 h' B X' → oom h' = true → returns (k (ENOMEM, q') h') Q) →
  (∀ h', writing h0 h' B ((X1 ++ lead first (quoted <$> ss)) ++ drop (length (lead first (quoted <$> ss))) X2) →
     returns (k (0, (B, zlen (X1 ++ lead first (quoted <$> ss)))) h') Q) →
  returns ((encode_elements els first q ≫= k) h) Q.
Proof.
  induction 1 as [|el s els ss (HG & Hne & Hmax) _ IH]; intros h X1 X2 first q k Q W -> Hl Hfail Hok; cbn [encode_elements].
  { apply step_ret. cbn in Hok. rewrite app_nil_r in Hok. by apply Hok. }
  rewrite fmap_cons, lead_cons in *. set (t := if first then [] else [c_comma]) in *.
  pose proof (zlen_nonneg t). pose proof (zlen_nonneg (lead false (quoted <$> ss))). pose proof (zlen_nonneg (quoted s)).
  rewrite !zlen_app in Hl.
  apply step_assoc. eapply (step_separator h0 h B X1 X2 first); [exact W|done|fold t; lia|fold t]. intros h1 W1.
  apply step_assoc. eapply (step_json_quote_string _ _ _ _ _ _ s); [exact W1|done|rewrite zlen_drop_length; lia|done|done|done| |].
  { intros h' W' Ho. apply step_ret. by eapply Hfail. }
  intros h2 W2. cbn [fst snd negb Z.eqb].
  eapply IH; [exact W2|unfold padd; cbn; by rewrite <-zlen_app| |done|].
  { rewrite drop_app_more, zlen_drop_length by (rewrite zlen_app; lia). rewrite zlen_app. lia. }
  intros h' W'. rewrite !drop_app_more, <-!app_assoc in W'. rewrite <-!app_assoc. rewrite <-!app_assoc in Hok. by apply Hok.
Qed.

Lemma array_size_ok els ss h n : Forall2 (given h) els ss →
  0 ≤ n → n + zsum ((λ s, 2 * zlen s + 3) <$> ss) ≤ INT_MAX →
  array_size els n = Done (n + zsum ((λ s, 2 * zlen s + 3) <$> ss)).
Proof.
  intros HF. revert n. induction HF as [|el s els ss (_ & Hlen & _) _ IH]; intros n Hn Hmax; cbn [array_size fmap list_fmap zsum foldr].
  { by rewrite Z.add_0_r. }
  cbn [fmap list_fmap zsum foldr] in Hmax. fold (zsum ((λ s, 2 * zlen s + 3) <$> ss)) in *.
  assert (0 ≤ zsum ((λ s : list Z, 2 * zlen s + 3) <$> ss)).
  { clear. induction ss as [|s ss IH]; [done|]. cbn. fold (zsum ((λ s, 2 * zlen s + 3) <$> ss)). pose proof (zlen_nonneg s). lia. }
  pose proof (zlen_nonneg s). rewrite Hlen.
  rewrite (cint_ok (2 * zlen s)) by int_lia. cbn [mbind res_bind].
  rewrite (cint_ok (2 * zlen s + 3)) by int_lia. cbn [mbind res_bind].
  rewrite cint_ok by int_lia. cbn [mbind res_bind]. rewrite IH by lia. f_equal. lia.
Qed.

Lemma writing_trans h0 h1 h2 B X Y : writing h0 h1 B X → writing h1 h2 B Y → writing h0 h2 B Y.
Proof. intros W1 W2. split; [apply W2|apply W2|]. intros x Hx. rewrite (wr_others _ _ _ _ W2) by done. by apply W1. Qed.

(** A result text in a block of its own; otherwise an allocation has failed and nothing
    has changed. *)
Definition result_text (h h' : jheap) (t : list Z) (r : Z * option string_t) : Prop :=
  heap_ok h' ∧
  ((∃ B X, r = (0, Some (mkStr (B, 0) (zlen t))) ∧ blocks h !! B = None ∧ blocks h' = <[B := t ++ 0 :: X]> (blocks h)) ∨
   (r = (ENOMEM, None) ∧ blocks h' = blocks h ∧ oom h' = true)).

Lemma writing_blocks h h' B X : writing h h' B X → blocks h !! B = None → blocks h' = <[B := X]> (blocks h).
Proof.
  intros [_ Hb Ho] _. apply map_eq. intros x. destruct (decide (x = B)) as [->|Hx].
  - by rewrite lookup_insert_eq.
  - by rewrite lookup_insert_ne, Ho.
Qed.

(** The block of the result is fresh, so the elements are elsewhere. *)
Lemma operand_fresh h h1 Y s c : heap_ok h → blocks h1 = <[next h := Y]> (blocks h) →
  given h s c → 2 * zlen c + 1 ≤ INT_MAX → operand h1 (next h) s c.
Proof.
  intros OK E ((b & Hb & HT) & Hl & HB) Hmax. destruct (heap_ok_fresh h OK) as [_ Hf].
  assert ((str s).1 ≠ next h) as Hne by congruence. split_and!; [|done|done].
  split_and!; [|done|done]. exists b. by rewrite E, lookup_insert_ne.
Qed.

Lemma zlen_separate l : zlen (separate l) ≤ zsum ((λ x, zlen x + 1) <$> l).
Proof.
  induction l as [|x l IH]; [done|]. destruct l as [|y l].
  - cbn. lia.
  - rewrite separate_cons, zlen_app, zlen_cons. cbn [fmap list_fmap zsum foldr] in *. fold (zsum ((λ x, zlen x + 1) <$> l)) in *. lia.
Qed.

Definition array_bytes (ss : list (list Z)) : Z := 3 + zsum ((λ s, 2 * zlen s + 3) <$> ss).

Lemma zlen_array_text ss : zlen (array_text ss) + 1 ≤ array_bytes ss.
Proof.
  unfold array_text, array_bytes. rewrite zlen_cons, zlen_app. change (zlen [c_rbracket]) with 1.
  pose proof (zlen_separate (quoted <$> ss)) as Hs. rewrite <-list_fmap_compose in Hs.
  enough (zsum (((λ x, zlen x + 1) ∘ quoted) <$> ss) ≤ zsum ((λ s, 2 * zlen s + 3) <$> ss)) by lia. clear.
  induction ss as [|s ss IH]; [done|]. cbn. unfold zsum in *. rewrite zlen_quoted. pose proof (zlen_escape s). lia.
Qed.

Lemma array_element_size ss s : s ∈ ss → 2 * zlen s + 3 ≤ array_bytes ss.
Proof.
  unfold array_bytes. assert (∀ l : list (list Z), 0 ≤ zsum ((λ s, 2 * zlen s + 3) <$> l)) as Hp.
  { induction l as [|x l IH]; [done|]. cbn. fold (zsum ((λ s, 2 * zlen s + 3) <$> l)). pose proof (zlen_nonneg x). lia. }
  induction ss as [|x ss IH]; [by intros ?%elem_of_nil|]. intros [->|Hin]%elem_of_cons; cbn;
    fold (zsum ((λ s, 2 * zlen s + 3) <$> ss)).
  - pose proof (Hp ss). lia.
  - specialize (IH Hin). pose proof (zlen_nonneg x). lia.
Qed.

Lemma operands_fresh h h1 Y els ss : heap_ok h → blocks h1 = <[next h := Y]> (blocks h) →
  Forall2 (given h) els ss → array_bytes ss ≤ INT_MAX → Forall2 (operand h1 (next h)) els ss.
Proof.
  intros OK E HF Hmax. assert (Forall (λ s, 2 * zlen s + 1 ≤ INT_MAX) ss) as Hss.
  { apply Forall_forall. intros s Hs%array_element_size. lia. }
  clear Hmax. induction HF as [|el s els ss HG HF IH]; [constructor|]. rewrite Forall_cons in Hss. destruct Hss.
  constructor; [by eapply operand_fresh|by apply IH].
Qed.

(** A writer of the text [T] into the fresh block of [h]. *)
Definition writes (h : jheap) (T : list Z) (body : ptr → JM (Z * ptr)) : Prop :=
  ∀ h1 Y h2 X1 X2 (k : Z * ptr → JM (Z * option string_t)) Q,
  blocks h1 = <[next h := Y]> (blocks h) → writing h1 h2 (next h) (X1 ++ X2) → zlen T ≤ zlen X2 →
  (∀ h' X' q, writing h1 h' (next h) X' → oom h' = true → returns (k (ENOMEM, q) h') Q) →
  (∀ h', writing h1 h' (next h) ((X1 ++ T) ++ drop (length T) X2) → returns (k (0, (next h, zlen (X1 ++ T))) h') Q) →
  returns ((body (next h, zlen X1) ≫= k) h2) Q.

(** Such a text in a block of its own, between two characters. *)
Lemma enclosed_ok h size T l r body :
  heap_ok h → zlen T + 3 ≤ size → size ≤ INT_MAX → is_byte l → is_byte r → writes h T body →
  returns ((output ← malloc (u64 size);
    match output with
    | None => mret (ENOMEM, None)
    | Some o =>
        write_byte o l;;
        x ← body (padd o 1);
        if negb (x.1 =? 0) then free o;; mret (x.1, None) else
        write_byte x.2 r;;
        write_byte (padd x.2 1) 0;;
        mret (0, Some (mkStr o (x.2.2 + 1 - o.2)))
    end) h) (λ '(x, h'), result_text h h' (l :: T ++ [r]) x).
Proof.
  intros OK Ht Hmax Hl Hr Hbody. pose proof (zlen_nonneg T). rewrite <-(M_bind_ret_r (malloc _ ≫= _)).
  apply step_assoc, step_malloc; [done|intros h' [(_ & E & OK') Ho]|intros h1 _ E OK1 _].
  { apply returns_mret. split; [done|]. by right. }
  destruct (heap_ok_fresh h OK) as [_ Hf].
  set (Y := replicate _ _) in E. assert (zlen Y = size) as HY.
  { unfold Y. rewrite zlen_replicate. unfold u64. rewrite Z.mod_small by int_lia. lia. }
  assert (∀ h' X, writing h1 h' (next h) X → blocks h' = <[next h := X]> (blocks h)) as HW.
  { intros h' X [_ Hb Ho]. apply map_eq. intros x. destruct (decide (x = next h)) as [->|Hx]; [by rewrite lookup_insert_eq|].
    rewrite Ho, E, !lookup_insert_ne by done. done. }
  assert (writing h1 h1 (next h) ([] ++ Y)) as W1 by (apply writing_refl; [done|by rewrite E, lookup_insert_eq]).
  clearbody Y. destruct Y as [|y Y]; [rewrite zlen_nil in HY; lia|]. rewrite zlen_cons in HY.
  apply step_assoc. eapply step_write_char; [exact W1|done|done|]. intros h2 W2.
  apply step_assoc. eapply (Hbody h1 _ h2 ([] ++ [l]) Y); [exact E|exact W2|lia| |].
  { intros h3 X' q' W3 Ho. cbn [fst snd negb Z.eqb ENOMEM]. apply step_assoc. eapply step_free; [apply W3|].
    apply returns_mret. split; [apply heap_ok_delete_block, W3|]. right. split; [done|]. cbn.
    rewrite (HW _ _ W3). by rewrite delete_insert_id. }
  intros h3 W3. cbn [fst snd negb Z.eqb].
  destruct (drop (length T) Y) as [|y1 [|y2 Y']] eqn:Ed.
  1,2: apply (f_equal zlen) in Ed; rewrite zlen_drop_length, ?zlen_cons, zlen_nil in Ed by lia; lia.
  apply step_assoc. eapply step_write_char; [exact W3|done|done|]. intros h4 W4.
  apply step_assoc. eapply step_write_char; [exact W4|unfold padd; cbn [fst snd]; f_equal; zlen_lia|done|]. intros h5 W5.
  apply returns_mret. split; [apply W5|]. left. exists (next h), Y'. split_and!; [|done|].
  - do 3 f_equal. unfold padd. cbn. rewrite !zlen_cons, !zlen_app. change (zlen [r]) with 1. lia.
  - rewrite (HW _ _ W5). rewrite <-!app_assoc. cbn [app]. by rewrite <-!app_assoc.
Qed.

Lemma encode_json_array_ok h els ss :
  heap_ok h → Forall2 (given h) els ss → array_bytes ss ≤ INT_MAX →
  returns (encode_json_array els h) (λ '(r, h'), result_text h h' (array_text ss) r).
Proof.
  intros OK HF Hmax. pose proof (zlen_array_text ss) as Ht. unfold array_text in Ht.
  rewrite zlen_cons, zlen_app in Ht. change (zlen [c_rbracket]) with 1 in Ht. unfold encode_json_array.
  unfold lift. rewrite M_bind_eq, (array_size_ok els ss h 3) by (done || lia). cbn [mbind res_bind mret res_ret].
  eapply (enclosed_ok h _ (separate (quoted <$> ss)) c_lbracket c_rbracket (encode_elements els true));
    [done|fold (array_bytes ss); lia|done|done|done|].
  intros h1 Y h2 X1 X2 k Q E W Hl Hfail Hok. pose proof (operands_fresh _ _ _ _ _ OK E HF Hmax) as HO.
  rewrite <-lead_true in *. by eapply step_encode_elements.
Qed.

(** ** Maps *)

Definition given_pair (h : jheap) (kv : string_t * string_t) (t : list Z * list Z) : Prop :=
  given h kv.1 t.1 ∧ given h kv.2 t.2.

Definition operand_pair (h : jheap) (B : Z) (kv : string_t * string_t) (t : list Z * list Z) : Prop :=
  operand h B kv.1 t.1 ∧ operand h B kv.2 t.2.

Definition map_bytes (kvs : list (list Z * list Z)) : Z := 3 + zsum ((λ kv, 2 * (zlen kv.1 + zlen kv.2 + 2) + 1) <$> kvs).

Lemma zlen_pair_text kv : zlen (pair_text kv) = zlen (quoted kv.1) + zlen (quoted kv.2) + 1.
Proof. unfold pair_text. rewrite zlen_app, zlen_cons. lia. Qed.

Lemma map_size_ok pairs kvs h n : Forall2 (given_pair h) pairs kvs → 0 ≤ n →
  n + zsum ((λ kv, 2 * (zlen kv.1 + zlen kv.2 + 2) + 1) <$> kvs) ≤ INT_MAX →
  map_size pairs n = Done (n + zsum ((λ kv, 2 * (zlen kv.1 + zlen kv.2 + 2) + 1) <$> kvs)).
Proof.
  intros HF. revert n.
  induction HF as [|[key value] [k v] pairs kvs [(_ & Hk & _) (_ & Hv & _)] _ IH]; intros n Hn Hmax; cbn [map_size fmap list_fmap zsum foldr].
  { by rewrite Z.add_0_r. }
  cbn [fmap list_fmap zsum foldr fst snd] in *. set (S := foldr Z.add 0 _) in *.
  assert (0 ≤ S).
  { unfold S. clear. induction kvs as [|[k v] kvs IH]; [done|]. cbn. pose proof (zlen_nonneg k). pose proof (zlen_nonneg v). lia. }
  pose proof (zlen_nonneg k). pose proof (zlen_nonneg v). rewrite Hk, Hv.
  do 5 (rewrite cint_ok by int_lia; cbn [mbind res_bind]). rewrite IH by (unfold zsum; fold S; lia). f_equal. unfold zsum. fold S. lia.
Qed.

Lemma step_encode_pairs {A} h0 B pairs kvs : Forall2 (operand_pair h0 B) pairs kvs →
  ∀ h X1 X2 first q (k : Z * ptr → JM A) Q,
  writing h0 h B (X1 ++ X2) → q = (B, zlen X1) → zlen (lead first (pair_text <$> kvs)) ≤ zlen X2 →
  (∀ h' X' q', writing h0 h' B X' → oom h' = true → returns (k (ENOMEM, q') h') Q) →
  (∀ h', writing h0 h' B ((X1 ++ lead first (pair_text <$> kvs)) ++ drop (length (lead first (pair_text <$> kvs))) X2) →
     returns (k (0, (B, zlen (X1 ++ lead first (pair_text <$> kvs)))) h') Q) →
  returns ((encode_pairs pairs first q ≫= k) h) Q.
Proof.
  induction 1 as [|[key value] [x v] pairs kvs [(HGk & Hnek & Hmaxk) (HGv & Hnev & Hmaxv)] _ IH];
    intros h X1 X2 first q k Q W -> Hl Hfail Hok; cbn [encode_pairs].
  { apply step_ret. cbn in Hok. rewrite app_nil_r in Hok. by apply Hok. }
  cbn [fst snd] in *. rewrite fmap_cons, lead_cons in *. set (t := if first then [] else [c_comma]) in *.
  pose proof (zlen_nonneg t). pose proof (zlen_nonneg (lead false (pair_text <$> kvs))).
  pose proof (zlen_nonneg (quoted x)). pose proof (zlen_nonneg (quoted v)).
  rewrite !zlen_app, zlen_pair_text in Hl. cbn [fst snd] in Hl. unfold pair_text at 1 in Hok. unfold pair_text at 2 in Hok.
  unfold pair_text at 3 in Hok. cbn [fst snd] in Hok.
  apply step_assoc. eapply (step_separator h0 h B X1 X2 first); [exact W|done|fold t; lia|fold t]. intros h1 W1.
  apply step_assoc. eapply (step_json_quote_string _ _ _ _ _ _ x); [exact W1|done|rewrite zlen_drop_length; lia|done|done|done| |].
  { intros h' W' Ho. apply step_ret. by eapply Hfail. }
  intros h2 W2. cbn [fst snd negb Z.eqb]. rewrite drop_app_more in W2.
  destruct (drop (length (t ++ quoted x)) X2) as [|y Y] eqn:Ed.
  { apply (f_equal zlen) in Ed. rewrite zlen_drop_length, zlen_app, zlen_nil in Ed by (rewrite zlen_app; lia). lia. }
  assert (Y = drop (length ((t ++ quoted x) ++ [c_colon])) X2) as EY by (by rewrite <-drop_app_more, Ed).
  apply step_assoc. eapply step_write_char; [exact W2|unfold padd; cbn; by rewrite <-zlen_app|done|]. intros h3 W3.
  apply step_assoc. eapply (step_json_quote_string _ _ _ _ _ _ v); [exact W3| | |done|done|done| |].
  { unfold padd. cbn. f_equal. rewrite !zlen_app. change (zlen [c_colon]) with 1. lia. }
  { rewrite EY, zlen_drop_length; rewrite !zlen_app; change (zlen [c_colon]) with 1; lia. }
  { intros h' W' Ho. apply step_ret. by eapply Hfail. }
  intros h4 W4. cbn [fst snd negb Z.eqb]. rewrite EY, drop_app_more in W4.
  eapply IH; [exact W4| | |done|].
  { unfold padd. cbn. f_equal. rewrite !zlen_app. change (zlen [c_colon]) with 1. lia. }
  { rewrite zlen_drop_length; rewrite !zlen_app; change (zlen [c_colon]) with 1; lia. }
  intros h' W'. rewrite drop_app_more in W'. revert W' Hok. rewrite <-!app_assoc. cbn [app]. intros W' Hok. by apply Hok.
Qed.

Lemma map_bytes_pair kvs kv : kv ∈ kvs → 2 * zlen kv.1 + 2 * zlen kv.2 + 5 ≤ map_bytes kvs.
Proof.
  unfold map_bytes. set (f := λ kv : list Z * list Z, 2 * (zlen kv.1 + zlen kv.2 + 2) + 1).
  assert (∀ l, 0 ≤ zsum (f <$> l)) as Hp.
  { induction l as [|x l IH]; [done|]. cbn. fold (zsum (f <$> l)). unfold f at 1. pose proof (zlen_nonneg x.1). pose proof (zlen_nonneg x.2). lia. }
  induction kvs as [|x kvs IH]; [by intros ?%elem_of_nil|]. intros [->|Hin]%elem_of_cons; cbn; fold (zsum (f <$> kvs)).
  - pose proof (Hp kvs). unfold f at 1. lia.
  - specialize (IH Hin). unfold f at 1. pose proof (zlen_nonneg x.1). pose proof (zlen_nonneg x.2). lia.
Qed.

Lemma operand_pairs_fresh h h1 Y pairs kvs : heap_ok h → blocks h1 = <[next h := Y]> (blocks h) →
  Forall2 (given_pair h) pairs kvs → map_bytes kvs ≤ INT_MAX → Forall2 (operand_pair h1 (next h)) pairs kvs.
Proof.
  intros OK E HF Hmax. assert (Forall (λ kv, 2 * zlen kv.1 + 1 ≤ INT_MAX ∧ 2 * zlen kv.2 + 1 ≤ INT_MAX) kvs) as Hss.
  { apply Forall_forall. intros kv Hs%map_bytes_pair. pose proof (zlen_nonneg kv.1). pose proof (zlen_nonneg kv.2). lia. }
  clear Hmax. induction HF as [|el s els ss [HG1 HG2] HF IH]; [constructor|]. rewrite Forall_cons in Hss. destruct Hss as [[? ?] ?].
  constructor; [split; by eapply operand_fresh|by apply IH].
Qed.

Lemma encode_json_map_ok h pairs kvs :
  heap_ok h → Forall2 (given_pair h) pairs kvs → map_bytes kvs ≤ INT_MAX → zlen (map_text kvs) + 1 ≤ map_bytes kvs →
  returns (encode_json_map pairs h) (λ '(r, h'), result_text h h' (map_text kvs) r).
Proof.
  intros OK HF Hmax Ht. unfold map_text in Ht.
  rewrite zlen_cons, zlen_app in Ht. change (zlen [c_rbrace]) with 1 in Ht. unfold encode_json_map.
  unfold lift. rewrite M_bind_eq, (map_size_ok pairs kvs h 3) by (done || lia). cbn [mbind res_bind mret res_ret].
  eapply (enclosed_ok h _ (separate (pair_text <$> kvs)) c_lbrace c_rbrace (encode_pairs pairs true));
    [done|fold (map_bytes kvs); lia|done|done|done|].
  intros h1 Y h2 X1 X2 k Q E W Hl Hfail Hok. pose proof (operand_pairs_fresh _ _ _ _ _ OK E HF Hmax) as HO.
  rewrite <-lead_true in *. by eapply step_encode_pairs.
Qed.

