(* ===== verification/JsonRead.v ===== *)
(** The readers of json_parser.c against the reference reader: the elements'
    buffer and the array that grows, the loops over elements and pairs, whole
    texts, and the properties of both directions. *)
From S2P Require Import Prelude CMemory Json JsonWrite.

(** ** Reading *)

Lemma unquote_le q l w r : unquote q l = Some (w, r) → zlen w + zlen r + 1 ≤ zlen l.
Proof.
  revert w r. induction l as [l IH] using (induction_ltof1 _ length). unfold ltof in IH. intros w r.
  destruct l as [|c l]; [done|]. cbn [unquote]. destruct (c =? q).
  { intros [= <- <-]. rewrite zlen_cons. change (zlen (@nil Z)) with 0. lia. }
  destruct (c =? c_backslash).
  - destruct l as [|x l]; [done|]. destruct (escape_value x); [|done].
    destruct (unquote q l) as [[w' r']|] eqn:E; [|done]. intros [= <- <-]. apply IH in E; [|cbn; lia].
    rewrite !zlen_cons. lia.
  - destruct (unquote q l) as [[w' r']|] eqn:E; [|done]. intros [= <- <-]. apply IH in E; [|cbn; lia].
    rewrite !zlen_cons. lia.
Qed.

Lemma token_le l w r : token l = (w, r) → zlen w + zlen r = zlen l.
Proof.
  revert w r. induction l as [|c l IH]; intros w r; cbn [token]; [by intros [= <- <-]|].
  destruct (in_token c).
  - destruct (token l) as [w' r'] eqn:E. intros [= <- <-]. specialize (IH _ _ eq_refl). rewrite !zlen_cons. lia.
  - intros [= <- <-]. rewrite zlen_cons. change (zlen (@nil Z)) with 0. lia.
Qed.

Lemma element_of_le l w r : element_of l = Some (w, r) → zlen w + zlen r ≤ zlen l.
Proof.
  unfold element_of. destruct l as [|c l]; [by intros [= <- <-]|]. destruct (is_quote c).
  - intros ?%unquote_le. rewrite zlen_cons. lia.
  - intros [= Et]. apply (token_le (c :: l)) in Et. lia.
Qed.

Lemma skip_le l : zlen (skip l) ≤ zlen l.
Proof. induction l as [|c l IH]; cbn [skip]; [done|]. destruct (is_space c); rewrite ?zlen_cons; lia. Qed.

(** The input at [s] is [t]; the rest [l] of it up to the index [e], where the
    closing bracket is, begins at [q]. *)
Section reading.
Context {A : Type} (h0 : jheap) (B : Z) (s : ptr) (t : list Z) (close : Z).
Hypothesis (HT : text h0 s t) (HB : s.1 ≠ B) (Ht : Forall is_byte t) (Hclose : is_quote close = false).

Definition rest_at (q e : Z) (l : list Z) : Prop :=
  ∃ pre suf, t = pre ++ l ++ close :: suf ∧ q = zlen pre ∧ e = zlen pre + zlen l.

Lemma rest_at_range q e l : rest_at q e l → e = q + zlen l.
Proof. intros (pre & suf & _ & -> & ->). done. Qed.

Lemma rest_at_cons q e x l : rest_at q e (x :: l) → rest_at (q + 1) e l ∧ zget t q = Some x ∧ q < e ∧ is_byte x.
Proof using Ht.
  intros (pre & suf & Et & -> & ->). pose proof (zlen_nonneg l). split_and!.
  - exists (pre ++ [x]), suf. split_and!; [by rewrite <-app_assoc|zlen_lia|zlen_lia].
  - rewrite Et. change ((x :: l) ++ close :: suf) with (x :: l ++ close :: suf). apply zget_app_mid.
  - rewrite zlen_cons. lia.
  - rewrite Et in Ht. rewrite Forall_app in Ht. destruct Ht as [_ Ht']. cbn in Ht'. rewrite Forall_cons in Ht'. by destruct Ht'.
Qed.

Lemma rest_at_nil q e : rest_at q e [] → q = e ∧ zget t q = Some close.
Proof.
  intros (pre & suf & Et & -> & ->). cbn in Et. split; [change (zlen (@nil Z)) with 0; lia|].
  rewrite Et. apply zget_app_mid.
Qed.

Lemma step_input h X q x (k : Z → JM A) Q :
  writing h0 h B X → zget t q = Some x → returns (k x h) Q → returns ((read_byte (padd s q) ≫= k) h) Q.
Proof using HT HB. intros W Hx HQ. by eapply step_read_text. Qed.

Lemma step_quoted_loop fuel quote l : ∀ h X1 X2 q e (k : option (Z * ptr) → JM A) Q,
  (length l < fuel)%nat → rest_at q e l → writing h0 h B (X1 ++ X2) → zlen l ≤ zlen X2 →
  (∀ w r h', unquote quote l = Some (w, r) → rest_at (e - zlen r) e r → writing h0 h' B ((X1 ++ w) ++ drop (length w) X2) →
     returns (k (Some (e - zlen r - 1, (B, zlen (X1 ++ w)))) h') Q) →
  (∀ x X' h', unquote quote l = None → writing h0 h' B X' → x = None ∨ (∃ d, x = Some (e, d)) → returns (k x h') Q) →
  returns ((quoted_loop fuel s e quote q (B, zlen X1) ≫= k) h) Q.
Proof using HT HB Ht.
  revert l. induction fuel as [|fuel IH]; intros l h X1 X2 q e k Q Hf HR W Hl Hok Hfail; [lia|]. cbn [quoted_loop].
  destruct l as [|c l].
  { destruct (rest_at_nil _ _ HR) as [-> _]. rewrite Z.ltb_irrefl. apply step_ret. eapply Hfail; [done|done|right; by eexists]. }
  destruct (rest_at_cons _ _ _ _ HR) as (HR1 & Hc & Hlt & Hbc). rewrite (proj2 (Z.ltb_lt _ _) Hlt).
  apply step_assoc. eapply step_input; [exact W|exact Hc|]. cbn [unquote] in Hok, Hfail. cbn [length] in Hf. rewrite zlen_cons in Hl.
  pose proof (rest_at_range _ _ _ HR1) as He. pose proof (zlen_nonneg l).
  destruct (c =? quote).
  { apply step_ret. specialize (Hok [] l h eq_refl). rewrite app_nil_r in Hok. replace q with (e - zlen l - 1) by lia.
    apply Hok; [|done]. by replace (e - zlen l) with (q + 1) by lia. }
  destruct X2 as [|y X2]; [rewrite zlen_nil in Hl; lia|]. rewrite zlen_cons in Hl.
  destruct (c =? c_backslash).
  - destruct l as [|x l].
    { destruct (rest_at_nil _ _ HR1) as [-> _]. rewrite Z.eqb_refl. apply step_ret. eapply Hfail; [done|done|by left]. }
    destruct (rest_at_cons _ _ _ _ HR1) as (HR2 & Hx & Hlt2 & _). rewrite (proj2 (Z.eqb_neq (q + 1) e)) by lia.
    apply step_assoc. eapply step_input; [exact W|exact Hx|].
    pose proof (unescape_char_byte x) as Hxb. rewrite unescape_char_value in *.
    destruct (escape_value x) as [z|] eqn:Ez; [|apply step_ret; eapply Hfail; [done|done|by left]].
    apply step_assoc. eapply step_write_char; [exact W|done|by apply Hxb|]. intros h1 W1.
    unfold padd. cbn [fst snd]. replace (zlen X1 + 1) with (zlen (X1 ++ [z])) by zlen_lia.
    rewrite zlen_cons in Hl. replace (q + 1 + 1) with (q + 2) in HR2 by lia.
    eapply (IH l); [cbn in Hf; lia|exact HR2|exact W1|lia| |].
    + intros w r h' E. rewrite E in Hok. specialize (Hok (z :: w) r h' eq_refl). rewrite <-!app_assoc in *. exact Hok.
    + intros x' X' h' E. rewrite E in Hfail. by apply Hfail.
  - apply step_assoc. eapply step_write_char; [exact W|done|done|]. intros h1 W1.
    unfold padd. cbn [fst snd]. replace (zlen X1 + 1) with (zlen (X1 ++ [c])) by zlen_lia.
    eapply (IH l); [lia|exact HR1|exact W1|lia| |].
    + intros w r h' E. rewrite E in Hok. specialize (Hok (c :: w) r h' eq_refl). rewrite <-!app_assoc in *. exact Hok.
    + intros x' X' h' E. rewrite E in Hfail. by apply Hfail.
Qed.

Lemma step_token_loop fuel l : ∀ h X1 X2 q e w r (k : Z * ptr → JM A) Q,
  (length l < fuel)%nat → rest_at q e l → writing h0 h B (X1 ++ X2) → zlen l ≤ zlen X2 → token l = (w, r) →
  (∀ h', rest_at (e - zlen r) e r → writing h0 h' B ((X1 ++ w) ++ drop (length w) X2) →
     returns (k (e - zlen r, (B, zlen (X1 ++ w))) h') Q) →
  returns ((token_loop fuel s e q (B, zlen X1) ≫= k) h) Q.
Proof using HT HB Ht.
  revert l. induction fuel as [|fuel IH]; intros l h X1 X2 q e w r k Q Hf HR W Hl Ew Hok; [lia|]. cbn [token_loop].
  destruct l as [|c l].
  { destruct (rest_at_nil _ _ HR) as [-> _]. rewrite Z.ltb_irrefl. injection Ew as <- <-. apply step_ret.
    change (zlen (@nil Z)) with 0 in *. rewrite Z.sub_0_r, app_nil_r in Hok. by apply Hok. }
  destruct (rest_at_cons _ _ _ _ HR) as (HR1 & Hc & Hlt & Hbc). rewrite (proj2 (Z.ltb_lt _ _) Hlt).
  apply step_assoc. eapply step_input; [exact W|exact Hc|]. cbn [token] in Ew. cbn [length] in Hf. rewrite JSON_TOKEN_in_token.
  pose proof (rest_at_range _ _ _ HR) as He. pose proof (zlen_nonneg l). rewrite zlen_cons in Hl.
  destruct (in_token c).
  - destruct (token l) as [w' r'] eqn:E. injection Ew as <- <-. destruct X2 as [|y X2]; [rewrite zlen_nil in Hl; lia|]. rewrite zlen_cons in Hl.
    apply step_assoc. eapply step_write_char; [exact W|done|done|]. intros h1 W1.
    unfold padd. cbn [fst snd]. replace (zlen X1 + 1) with (zlen (X1 ++ [c])) by zlen_lia.
    eapply (IH l); [lia|exact HR1|exact W1|lia|exact E|]. intros h'. rewrite <-!app_assoc in *. apply Hok.
  - injection Ew as <- <-. apply step_ret. specialize (Hok h). rewrite app_nil_r in Hok.
    replace (e - zlen (c :: l)) with q in * by lia. by apply Hok.
Qed.

Definition ctx_at (q e : Z) (d n : Z) : ParseContext := mkCtx s q e (mkStr (B, d) n).

Lemma step_next_json_element fuel l h X1 X2 q e n (k : Z * ParseContext → JM A) Q :
  (length l < fuel)%nat → rest_at q e l → writing h0 h B (X1 ++ X2) → zlen l + 1 ≤ zlen X2 →
  (∀ w r h', element_of l = Some (w, r) → rest_at (e - zlen r) e r →
     writing h0 h' B ((X1 ++ w ++ [0]) ++ drop (length (w ++ [0])) X2) →
     returns (k (0, ctx_at (e - zlen r) e (zlen X1) (zlen w)) h') Q) →
  (∀ c X' h', element_of l = None → writing h0 h' B X' → returns (k (EINVAL, c) h') Q) →
  returns ((next_json_element fuel (ctx_at q e (zlen X1) n) ≫= k) h) Q.
Proof using HT HB Ht Hclose.
  intros Hf HR W Hl Hok Hfail. unfold next_json_element. cbn [ctx_at element str input p end_].
  assert (∀ w r h', zlen w ≤ zlen l → element_of l = Some (w, r) → rest_at (e - zlen r) e r →
    writing h0 h' B ((X1 ++ w) ++ drop (length w) X2) →
    returns (((write_byte (B, zlen (X1 ++ w)) 0 ;;
      mret (0, set_element (mkStr (B, zlen X1) (zlen (X1 ++ w) - zlen X1)) (set_p (e - zlen r) (ctx_at q e (zlen X1) n)))) ≫= k) h') Q)
    as Hend.
  { intros w r h' Hw E HR' W'. destruct (drop (length w) X2) as [|y Y] eqn:Ed.
    { apply (f_equal zlen) in Ed. rewrite zlen_drop_length, zlen_nil in Ed by lia. lia. }
    apply step_assoc. eapply step_write_char; [exact W'|done|done|]. intros h2 W2. apply step_ret.
    replace (zlen (X1 ++ w) - zlen X1) with (zlen w) by zlen_lia. apply Hok; [done|done|].
    rewrite <-drop_app_more, Ed. by rewrite <-(app_assoc X1 w [0]) in W2. }
  destruct l as [|c l].
  - destruct (rest_at_nil _ _ HR) as [-> Hc]. apply step_assoc. eapply step_input; [exact W|exact Hc|].
    fold (is_quote close). rewrite Hclose. apply step_assoc, step_assoc.
    eapply (step_token_loop fuel []); [done|exact HR|exact W|lia|done|]. intros h' HR' W'. apply step_ret.
    by apply Hend.
  - destruct (rest_at_cons _ _ _ _ HR) as (HR1 & Hc & Hlt & _). cbn [length] in Hf. rewrite zlen_cons in Hl. pose proof (zlen_nonneg l).
    apply step_assoc. eapply step_input; [exact W|exact Hc|]. fold (is_quote c). cbn [element_of] in Hok, Hfail, Hend.
    destruct (is_quote c).
    + apply step_assoc, step_assoc. eapply (step_quoted_loop fuel c l); [lia|exact HR1|exact W|lia| |].
      * intros w r h' E HR' W'. pose proof (unquote_le _ _ _ _ E). pose proof (zlen_nonneg r). rewrite (proj2 (Z.eqb_neq _ _)) by lia.
        apply step_ret. replace (e - zlen r - 1 + 1) with (e - zlen r) by lia. apply Hend; [rewrite zlen_cons; lia|done..].
      * intros x X' h' E W' Hx. destruct Hx as [->|[d ->]]; [|rewrite Z.eqb_refl]; do 2 apply step_ret; by eapply Hfail.
    + apply step_assoc, step_assoc. destruct (token (c :: l)) as [w r] eqn:E. pose proof (token_le _ _ _ E). pose proof (zlen_nonneg r).
      eapply (step_token_loop fuel (c :: l)); [cbn; lia|exact HR|exact W|rewrite zlen_cons; lia|exact E|]. intros h' HR' W'.
      apply step_ret. apply Hend; [lia|done..].
Qed.

Lemma step_skip_spaces fuel l : ∀ h X q e d n (k : ParseContext → JM A) Q,
  (length l < fuel)%nat → rest_at q e l → writing h0 h B X →
  (rest_at (e - zlen (skip l)) e (skip l) → returns (k (ctx_at (e - zlen (skip l)) e d n) h) Q) →
  returns ((skip_spaces fuel (ctx_at q e d n) ≫= k) h) Q.
Proof using HT HB Ht.
  revert l. induction fuel as [|fuel IH]; intros l h X q e d n k Q Hf HR W Hok; [lia|]. cbn [skip_spaces ctx_at p end_ input].
  pose proof (rest_at_range _ _ _ HR) as He. destruct l as [|c l].
  { destruct (rest_at_nil _ _ HR) as [-> _]. rewrite Z.ltb_irrefl. apply step_ret. cbn [skip] in Hok.
    change (zlen (@nil Z)) with 0 in *. rewrite Z.sub_0_r in Hok. by apply Hok. }
  destruct (rest_at_cons _ _ _ _ HR) as (HR1 & Hc & Hlt & _). rewrite (proj2 (Z.ltb_lt _ _) Hlt).
  apply step_assoc. eapply step_input; [exact W|exact Hc|]. cbn [skip length] in *. rewrite JSON_SPACE_is_space. destruct (is_space c).
  - eapply (IH l); [lia|exact HR1|exact W|exact Hok].
  - apply step_ret. replace (e - zlen (c :: l)) with q in Hok by lia. by apply Hok.
Qed.

Lemma step_skip_comma l h X q e d n (k : Z * ParseContext → JM A) Q :
  rest_at q e l → writing h0 h B X →
  (∀ r, comma l = Some r → rest_at (e - zlen r) e r → returns (k (0, ctx_at (e - zlen r) e d n) h) Q) →
  (∀ c, comma l = None → returns (k (EINVAL, c) h) Q) →
  returns ((skip_comma (ctx_at q e d n) ≫= k) h) Q.
Proof using HT HB Ht.
  intros HR W Hok Hfail. unfold skip_comma. cbn [ctx_at p end_ input]. pose proof (rest_at_range _ _ _ HR) as He. destruct l as [|c l].
  { destruct (rest_at_nil _ _ HR) as [-> _]. rewrite Z.ltb_irrefl. apply step_ret. specialize (Hok [] eq_refl).
    change (zlen (@nil Z)) with 0 in *. rewrite Z.sub_0_r in Hok. by apply Hok. }
  destruct (rest_at_cons _ _ _ _ HR) as (HR1 & Hc & Hlt & _). rewrite (proj2 (Z.ltb_lt _ _) Hlt).
  apply step_assoc. eapply step_input; [exact W|exact Hc|]. cbn [comma] in *. destruct (c =? c_comma); apply step_ret.
  - rewrite zlen_cons in He. specialize (Hok l eq_refl). replace (e - zlen l) with (q + 1) in Hok by lia. by apply Hok.
  - by apply Hfail.
Qed.
End reading.

(** ** The array that grows *)

(** Apart from the elements' buffer [B] and the array's block [E], both fresh,
    memory is as in [h0]. *)
Record owned (h0 h : jheap) (B : Z) (X : list Z) (E : option Z) : Prop := {
  ow_ok : heap_ok h;
  ow_buffer : blocks h !! B = Some X;
  ow_fresh : blocks h0 !! B = None;
  ow_array e : E = Some e → e ≠ B ∧ is_Some (blocks h !! e) ∧ blocks h0 !! e = None;
  ow_others x : x ≠ B → E ≠ Some x → blocks h !! x = blocks h0 !! x }.

Record sized {T} (a : json_array T) (B : Z) : Prop := {
  sz_buff : buff a = Some (B, 0);
  sz_items : zlen (items a) ≤ alloc a;
  sz_alloc : alloc a ≤ Z.max 32 (2 * zlen (items a));
  sz_none : elements a = None → alloc a = 0;
  sz_some : is_Some (elements a) → 32 ≤ alloc a }.

Lemma owned_writing h0 h B X E h' X' : owned h0 h B X E → writing h h' B X' → owned h0 h' B X' E.
Proof.
  intros [OK Hb Hf Ha Ho] [OK' Hb' Ho']. split; [done..| |].
  - intros e He. destruct (Ha e He) as (Hne & Hs & ?). rewrite Ho' by done. done.
  - intros x Hx HE. rewrite Ho' by done. by apply Ho.
Qed.

Lemma owned_text h0 h B X E s t : owned h0 h B X E → text h0 s t → text h s t ∧ s.1 ≠ B.
Proof.
  intros [OK Hb Hf Ha Ho] (b & Hs & HT). assert (s.1 ≠ B) as Hne by congruence. split; [|done].
  exists b. split; [|done]. rewrite Ho; [done..|]. intros HE. destruct (Ha _ HE) as (_ & _ & ?). congruence.
Qed.

Section growing.
Context {T R : Type} (h0 : jheap) (B : Z).
Implicit Types (a : json_array T).

Lemma step_check_alloc sz a h X (k : Z * json_array T → JM R) Q :
  0 ≤ sz → sz * 32 ≤ INT_MAX → sz * (2 * zlen (items a)) ≤ INT_MAX → 2 * zlen (items a) ≤ INT_MAX →
  owned h0 h B X (elements a) → sized a B →
  (∀ a' h', owned h0 h' B X (elements a') → sized a' B → items a' = items a → is_Some (elements a') →
     zlen (items a') < alloc a' → returns (k (0, a') h') Q) →
  (∀ n h', owned h0 h' B X (elements a) → oom h' = true → returns (k (ENOMEM, mkArray None (items a) n (buff a)) h') Q) →
  returns ((check_alloc_array sz a ≫= k) h) Q.
Proof.
  intros Hsz H32 Hit H2 HO [Hb Hi Hal Hn Hs] Hok Hfail. unfold check_alloc_array. pose proof (zlen_nonneg (items a)).
  case_if.
  { apply step_ret. eapply Hok; [done|by split|done| |done]. destruct (elements a) eqn:E; [by eexists|]. rewrite (Hn eq_refl) in *. lia. }
  assert (zlen (items a) = alloc a) as Ea by lia. set (n := if alloc a =? 0 then 32 else alloc a * 2).
  assert (n = 32 ∨ n = 2 * zlen (items a)) as Hn2 by (unfold n; case_if; lia).
  assert (zlen (items a) < n ∧ n ≤ Z.max 32 (2 * zlen (items a)) ∧ 32 ≤ n) as (Hn3 & Hn4 & Hn5).
  { unfold n. case_if; [lia|]. destruct (elements a) eqn:E; [|by rewrite (Hn eq_refl) in *]. pose proof (Hs ltac:(by eexists)). lia. }
  apply step_assoc. assert (∀ k' : Z → JM R, returns ((k' n) h) Q →
    returns (((if alloc a =? 0 then mret 32 else jint (alloc a * 2)) ≫= k') h) Q) as Hstep.
  { intros k' Hk. unfold n in Hk. case_if; [by apply step_ret|]. eapply step_lift; [apply cint_ok; int_lia|done]. }
  apply Hstep. apply step_assoc, (step_lift _ (sz * n)); [apply cint_ok; destruct Hn2 as [->| ->]; int_lia|].
  apply step_assoc. destruct HO as [OK Hbuf Hf Ha Ho]. destruct (heap_ok_fresh h OK) as [_ Hfr].
  assert (∀ (h' : jheap), same_memory h h' → owned h0 h' B X (elements a)) as Hsame.
  { intros h' (_ & Eb & OK'). split; [done|by rewrite Eb|done| |]; intros x; rewrite Eb; [apply Ha|apply Ho]. }
  assert (B ≠ next h) as HBn by congruence.
  destruct (elements a) as [e|] eqn:E.
  - destruct (Ha e eq_refl) as (Hne & [be Hbe] & Hfe). eapply step_realloc; [done|exact Hbe| |].
    { intros h' [Hs' Hoom]. apply step_ret, Hfail; [by apply Hsame|done]. }
    intros h' _ Eb OK' _. apply step_ret. apply Hok; cbn; [|split; cbn; [done|lia|lia|done|lia]|done|by eexists|lia].
    split; [done| |done| |].
    + rewrite Eb, lookup_insert_ne, lookup_delete_ne by done. done.
    + intros x [= <-]. rewrite Eb, lookup_insert_eq. split_and!; [done|by eexists|].
      destruct (decide (next h = e)) as [<-|]; [done|]. rewrite <-Ho; [done..|]. congruence.
    + intros x Hx HE. assert (x ≠ next h) by congruence. rewrite Eb, lookup_insert_ne by done.
      destruct (decide (x = e)) as [->|]; [by rewrite lookup_delete_eq|]. rewrite lookup_delete_ne by done. apply Ho; [done|congruence].
  - eapply step_malloc; [done| |].
    { intros h' [Hs' Hoom]. apply step_ret, Hfail; [by apply Hsame|done]. }
    intros h' _ Eb OK' _. apply step_ret. apply Hok; cbn; [|split; cbn; [done|lia|lia|done|lia]|done|by eexists|lia].
    split; [done| |done| |].
    + by rewrite Eb, lookup_insert_ne.
    + intros x [= <-]. rewrite Eb, lookup_insert_eq. split_and!; [done|by eexists|]. by rewrite <-Ho.
    + intros x Hx HE. rewrite Eb, lookup_insert_ne by congruence. by apply Ho.
Qed.

(** The blocks of the array go, but not one it has lost. *)
Lemma step_free_common a h X E (k : json_array T → JM R) Q :
  owned h0 h B X E → buff a = Some (B, 0) → elements a = E ∨ elements a = None →
  (∀ a' h', heap_ok h' → elements a' = None → buff a' = None →
     oom h' = oom h → (blocks h' = blocks h0 ∨ elements a ≠ E ∧ ∃ e b, blocks h0 !! e = None ∧ blocks h' = <[e := b]> (blocks h0)) → returns (k a' h') Q) →
  returns ((free_common_array a ≫= k) h) Q.
Proof.
  intros [OK Hb Hf Ha Ho] Hbuf HE Hok. unfold free_common_array. destruct (elements a) as [e|] eqn:Ee.
  - destruct HE as [<-|]; [|done]. destruct (Ha e eq_refl) as (Hne & [be Hbe] & Hfe).
    apply step_assoc, step_assoc. eapply step_free; [exact Hbe|]. apply step_ret. cbn [buff]. rewrite Hbuf.
    apply step_assoc. eapply step_free; [cbn; rewrite lookup_delete_ne by done; exact Hb|]. apply step_ret.
    apply Hok; [by do 2 apply heap_ok_delete_block|done|done|done|]. left. cbn. apply map_eq. intros x.
    destruct (decide (x = B)) as [->|]; [by rewrite lookup_delete_eq|]. rewrite lookup_delete_ne by done.
    destruct (decide (x = e)) as [->|]; [by rewrite lookup_delete_eq|]. rewrite lookup_delete_ne by done. apply Ho; congruence.
  - apply step_assoc, step_ret. rewrite Hbuf. apply step_assoc. eapply step_free; [exact Hb|]. apply step_ret.
    apply Hok; [by apply heap_ok_delete_block|done|done|done|]. cbn. destruct E as [e|].
    + right. split; [done|]. destruct (Ha e eq_refl) as (Hne & [be Hbe] & Hfe). exists e, be. split; [done|]. apply map_eq. intros x.
      destruct (decide (x = e)) as [->|]; [by rewrite lookup_delete_ne, lookup_insert_eq|]. rewrite lookup_insert_ne by done.
      destruct (decide (x = B)) as [->|]; [by rewrite lookup_delete_eq|]. rewrite lookup_delete_ne by done. apply Ho; congruence.
    + left. apply map_eq. intros x.
      destruct (decide (x = B)) as [->|]; [by rewrite lookup_delete_eq|]. rewrite lookup_delete_ne by done. by apply Ho.
Qed.
End growing.

(** ** The loop over the elements *)

(** The buffer's content and where its texts are. *)
Definition flat (ws : list (list Z)) : list Z := concat ((λ w, w ++ [0]) <$> ws).

Fixpoint layout (B off : Z) (ws : list (list Z)) : list string_t :=
  match ws with
  | [] => []
  | w :: ws => mkStr (B, off) (zlen w) :: layout B (off + zlen w + 1) ws
  end.

Lemma flat_snoc ws w : flat (ws ++ [w]) = flat ws ++ w ++ [0].
Proof. unfold flat. rewrite fmap_app, concat_app. cbn. by rewrite app_nil_r. Qed.

Lemma zlen_flat_cons w ws : zlen (flat (w :: ws)) = zlen w + 1 + zlen (flat ws).
Proof. unfold flat. cbn. fold (flat ws). rewrite !zlen_app. change (zlen [0]) with 1. lia. Qed.

Lemma layout_snoc B off ws w : layout B off (ws ++ [w]) = layout B off ws ++ [mkStr (B, off + zlen (flat ws)) (zlen w)].
Proof.
  revert off. induction ws as [|x ws IH]; intros off; cbn [layout app].
  - cbn. by rewrite Z.add_0_r.
  - rewrite IH. unfold flat at 2. cbn [fmap list_fmap concat]. fold (flat ws). rewrite !zlen_app. change (zlen [0]) with 1.
    by replace (off + (zlen x + 1 + zlen (flat ws))) with (off + zlen x + 1 + zlen (flat ws)) by lia.
Qed.

(** Keys and values, one after the other. *)
Definition in_turn (kvs : list (list Z * list Z)) : list (list Z) := concat ((λ kv, [kv.1; kv.2]) <$> kvs).

Fixpoint pair_layout (B off : Z) (kvs : list (list Z * list Z)) : list (string_t * string_t) :=
  match kvs with
  | [] => []
  | (k, v) :: kvs =>
      (mkStr (B, off) (zlen k), mkStr (B, off + zlen k + 1) (zlen v)) :: pair_layout B (off + zlen k + 1 + zlen v + 1) kvs
  end.

Lemma in_turn_snoc kvs k v : in_turn (kvs ++ [(k, v)]) = (in_turn kvs ++ [k]) ++ [v].
Proof. unfold in_turn. rewrite fmap_app, concat_app. cbn. by rewrite <-app_assoc. Qed.

Lemma pair_layout_snoc B off kvs k v :
  pair_layout B off (kvs ++ [(k, v)]) =
  pair_layout B off kvs ++ [(mkStr (B, off + zlen (flat (in_turn kvs))) (zlen k),
                             mkStr (B, off + zlen (flat (in_turn kvs ++ [k]))) (zlen v))].
Proof.
  revert off. induction kvs as [|[x y] kvs IH]; intros off; cbn [pair_layout app].
  - unfold in_turn, flat. cbn. rewrite app_nil_r, Z.add_0_r, zlen_app. change (zlen [0]) with 1. by rewrite Z.add_assoc.
  - rewrite IH. change (in_turn ((x, y) :: kvs)) with (x :: y :: in_turn kvs). cbn [app]. rewrite !zlen_flat_cons.
    do 3 f_equal. f_equal; do 2 f_equal; lia.
Qed.

Lemma comma_le l r : comma l = Some r → r = [] ∨ zlen r + 1 ≤ zlen l.
Proof. destruct l as [|c l]; cbn; [intros [= <-]; by left|]. destruct (c =? c_comma); intros [= <-]. right. rewrite zlen_cons. lia. Qed.

Lemma colon_le l r : colon l = Some r → zlen r + 1 ≤ zlen l.
Proof. destruct l as [|c l]; cbn; [done|]. destruct (c =? c_colon); intros [= <-]. rewrite zlen_cons. lia. Qed.

(** An element and the comma after it are not empty. *)
Lemma element_comma c l w r r' :
  is_space c = false → c ≠ c_comma → element_of (c :: l) = Some (w, r) → comma (skip r) = Some r' →
  zlen r' < zlen (c :: l).
Proof.
  intros Hsp Hc He Hr'. pose proof (skip_le r). pose proof (comma_le _ _ Hr') as Hle. rewrite zlen_cons. pose proof (zlen_nonneg l).
  destruct Hle as [->|Hle]; [change (zlen (@nil Z)) with 0; lia|]. pose proof (element_of_le _ _ _ He) as Hw. rewrite zlen_cons in Hw. pose proof (zlen_nonneg w). lia.
Qed.

Lemma skip_head l c l' : skip l = c :: l' → is_space c = false.
Proof. induction l as [|x l IH]; cbn [skip]; [done|]. destruct (is_space x) eqn:E; [done|]. by intros [= <- <-]. Qed.

Lemma sized_push {T} (a : json_array T) B e x :
  sized a B → elements a = Some e → zlen (items a) < alloc a →
  sized (mkArray (Some e) (items a ++ [x]) (alloc a) (buff a)) B.
Proof.
  intros [Sb Si Sa Sn Ss] He Hlt. split; cbn [buff items alloc elements]; [done|zlen_lia|zlen_lia|done|].
  intros _. apply Ss. by rewrite He.
Qed.

Section loops.
Context {R : Type} (h0 : jheap) (B : Z) (s : ptr) (t : list Z) (close : Z).
Hypothesis (HT : text h0 s t) (Ht : Forall is_byte t) (Hclose : is_quote close = false).

Definition room (l X2 : list Z) : Prop := zlen l + 1 ≤ zlen X2 ∨ l = [].

(** A key or a value: what [next_json_element] does, in an owned buffer. *)
Lemma step_owned_element fuel l h X1 X2 E q e n (k : Z * ParseContext → JM R) Q :
  (length l < fuel)%nat → rest_at t close q e l → owned h0 h B (X1 ++ X2) E → zlen l + 1 ≤ zlen X2 →
  (∀ w r h', element_of l = Some (w, r) → rest_at t close (e - zlen r) e r →
     owned h0 h' B ((X1 ++ w ++ [0]) ++ drop (length (w ++ [0])) X2) E →
     returns (k (0, ctx_at B s (e - zlen r) e (zlen X1) (zlen w)) h') Q) →
  (∀ c X' h', element_of l = None → owned h0 h' B X' E → returns (k (EINVAL, c) h') Q) →
  returns ((next_json_element fuel (ctx_at B s q e (zlen X1) n) ≫= k) h) Q.
Proof using HT Ht Hclose.
  intros Hf HR HO Hl Hok Hbad. destruct (owned_text _ _ _ _ _ _ _ HO HT) as [HTh HBs].
  pose proof (writing_refl _ _ _ (ow_ok _ _ _ _ _ HO) (ow_buffer _ _ _ _ _ HO)) as W.
  eapply (step_next_json_element h B s t close HTh HBs Ht Hclose fuel l); [done|exact HR|exact W|done| |].
  - intros w r h' E' HR' W'. apply Hok; [done..|]. by eapply owned_writing.
  - intros c X' h' E' W'. eapply Hbad; [done|]. by eapply owned_writing.
Qed.

Lemma step_owned_spaces fuel l h X E q e d n (k : ParseContext → JM R) Q :
  (length l < fuel)%nat → rest_at t close q e l → owned h0 h B X E →
  (rest_at t close (e - zlen (skip l)) e (skip l) → returns (k (ctx_at B s (e - zlen (skip l)) e d n) h) Q) →
  returns ((skip_spaces fuel (ctx_at B s q e d n) ≫= k) h) Q.
Proof using HT Ht.
  intros Hf HR HO Hok. destruct (owned_text _ _ _ _ _ _ _ HO HT) as [HTh HBs].
  pose proof (writing_refl _ _ _ (ow_ok _ _ _ _ _ HO) (ow_buffer _ _ _ _ _ HO)) as W.
  by eapply (step_skip_spaces h B s t close HTh HBs Ht fuel l).
Qed.

Lemma step_owned_comma l h X E q e d n (k : Z * ParseContext → JM R) Q :
  rest_at t close q e l → owned h0 h B X E →
  (∀ r, comma l = Some r → rest_at t close (e - zlen r) e r → returns (k (0, ctx_at B s (e - zlen r) e d n) h) Q) →
  (∀ c, comma l = None → returns (k (EINVAL, c) h) Q) →
  returns ((skip_comma (ctx_at B s q e d n) ≫= k) h) Q.
Proof using HT Ht.
  intros HR HO Hok Hbad. destruct (owned_text _ _ _ _ _ _ _ HO HT) as [HTh HBs].
  pose proof (writing_refl _ _ _ (ow_ok _ _ _ _ _ HO) (ow_buffer _ _ _ _ _ HO)) as W.
  by eapply (step_skip_comma h B s t close HTh HBs Ht l).
Qed.

Lemma step_owned_input h X E q x (k : Z → JM R) Q :
  owned h0 h B X E → zget t q = Some x → returns (k x h) Q → returns ((read_byte (padd s q) ≫= k) h) Q.
Proof using HT.
  intros HO Hx HQ. destruct (owned_text _ _ _ _ _ _ _ HO HT) as [HTh HBs]. by eapply step_read_char.
Qed.

Lemma next_place_at q e d n : next_place (ctx_at B s q e d n) = ctx_at B s q e (d + (n + 1)) n.
Proof. done. Qed.
Lemma step_array_loop fuel : ∀ m l q e n h a ws X2 (k : Z * json_array string_t → JM R) Q,
  (length l < fuel)%nat → (length l < m)%nat → rest_at t close q e l → room l X2 →
  owned h0 h B (flat ws ++ X2) (elements a) → sized a B → items a = layout B 0 ws → zlen (items a) + zlen l ≤ 2 ^ 24 →
  (∀ ws' X2' a' h', read_items m l = Some ws' → owned h0 h' B (flat (ws ++ ws') ++ X2') (elements a') → sized a' B →
     items a' = layout B 0 (ws ++ ws') → returns (k (0, a') h') Q) →
  (∀ X a' h', read_items m l = None → owned h0 h' B X (elements a') → buff a' = Some (B, 0) → returns (k (EINVAL, a') h') Q) →
  (∀ X E a' h', owned h0 h' B X E → oom h' = true → elements a' = None → items a' = [] → buff a' = Some (B, 0) → returns (k (ENOMEM, a') h') Q) →
  returns ((array_loop fuel (ctx_at B s q e (zlen (flat ws)) n) a ≫= k) h) Q.
Proof using HT Ht Hclose.
  induction fuel as [|fuel IH]; intros m l q e n h a ws X2 k Q Hf Hm HR Hroom HO HS Hit Hmax Hok Hbad Hmem; [lia|].
  destruct m as [|m]; [lia|]. cbn [array_loop ctx_at p end_].
  pose proof (rest_at_range _ _ _ _ _ HR) as He. destruct l as [|c0 l0].
  { destruct (rest_at_nil _ _ _ _ HR) as [-> _]. rewrite Z.ltb_irrefl. cbn [negb]. apply step_ret.
    apply (Hok [] X2 a h); [done|rewrite app_nil_r; exact HO|done|by rewrite app_nil_r]. }
  set (l := c0 :: l0) in *. assert (0 < zlen l) as Hpos by (unfold l; rewrite zlen_cons; pose proof (zlen_nonneg l0); lia).
  rewrite (proj2 (Z.ltb_lt q e)) by lia. cbn [negb]. destruct Hroom as [Hroom|]; [|done].
  apply step_assoc. eapply (step_owned_spaces (S fuel) l); [lia|exact HR|exact HO|]. intros HR1.
  pose proof (skip_le l) as Hsk. cbn [read_items] in Hok, Hbad. destruct (skip l) as [|c l'] eqn:Esk.
  { cbn [ctx_at p end_]. change (zlen (@nil Z)) with 0. rewrite Z.sub_0_r, Z.eqb_refl. apply step_ret.
    apply (Hok [] X2 a h); [done|rewrite app_nil_r; exact HO|done|by rewrite app_nil_r]. }
  destruct (rest_at_cons _ _ Ht _ _ _ _ HR1) as (_ & Hc & Hlt & _). cbn [p end_ ctx_at]. rewrite (proj2 (Z.eqb_neq _ _)) by lia.
  apply step_assoc. eapply step_owned_input; [exact HO|exact Hc|]. destruct (c =? c_comma) eqn:Ec.
  { apply step_ret. eapply Hbad; [done|exact HO|apply HS]. }
  apply step_assoc. eapply (step_owned_element (S fuel) (c :: l')); [unfold zlen in Hsk; lia|exact HR1|exact HO|lia| |].
  2: { intros c' X' h' E HO'. rewrite E in Hbad. apply step_ret. eapply Hbad; [done|exact HO'|apply HS]. }
  intros w r h1 Ew HR2 HO1. cbn [fst snd negb Z.eqb]. rewrite Ew in Hok, Hbad. cbn [mbind option_bind] in Hok, Hbad.
  pose proof (element_of_le _ _ _ Ew) as Hw. pose proof (zlen_nonneg w). pose proof (zlen_nonneg r).
  apply step_assoc. eapply (step_owned_spaces (S fuel) r); [unfold zlen in *; lia|exact HR2|exact HO1|]. intros HR3.
  apply step_assoc. eapply step_owned_comma; [exact HR3|exact HO1| |].
  2: { intros c' E. rewrite E in Hbad. apply step_ret. eapply Hbad; [done|exact HO1|apply HS]. }
  intros r' Er' HR4. cbn [fst snd negb Z.eqb]. rewrite Er' in Hok, Hbad. cbn [mbind option_bind] in Hok, Hbad.
  pose proof (element_comma _ _ _ _ _ (skip_head _ _ _ Esk) ltac:(lia_bool) Ew Er') as Hdec. pose proof (skip_le r).
  pose proof (zlen_nonneg r').
  apply step_assoc. eapply (step_check_alloc h0 B); [done|done|unfold sizeof_string_t; int_lia|int_lia|exact HO1|exact HS| |].
  2: { intros n' h' HO2 Hoom. apply step_ret. eapply Hmem; [exact HO2|done|done|done|apply HS]. }
  intros a2 h2 HO2 HS2 Ei2 [E2 HE2] Hroom2. cbn [fst snd negb Z.eqb].
  apply step_assoc. eapply step_lift; [unfold push; rewrite HE2, (proj2 (Z.ltb_lt _ _)) by done; done|].
  rewrite next_place_at. change (element (ctx_at B s ?q ?e ?d ?n)) with (mkStr (B, d) n).
  replace (zlen (flat ws) + (zlen w + 1)) with (zlen (flat (ws ++ [w]))) by (rewrite flat_snoc; zlen_lia).
  eapply (IH m r' _ _ _ h2 _ (ws ++ [w]) (drop (length (w ++ [0])) X2)); [unfold zlen in *; lia|unfold zlen in *; lia|exact HR4| | | | | | | |exact Hmem].
  - destruct (comma_le _ _ Er') as [->|Hr']; [by right|left]. rewrite zlen_drop_length by zlen_lia. zlen_simpl. lia.
  - rewrite flat_snoc. cbn [elements]. by rewrite <-HE2.
  - by apply sized_push.
  - cbn [items]. rewrite Ei2, Hit, layout_snoc. done.
  - cbn [items]. rewrite zlen_app, Ei2. change (zlen [_]) with 1. lia.
  - intros ws' X2' a' h' Er HO' HS' Hi'. rewrite Er in Hok. cbn [mbind option_bind] in Hok.
    rewrite <-app_assoc in *. by eapply Hok.
  - intros X a' h' Er. rewrite Er in Hbad. by apply Hbad.
Qed.

Lemma step_colon l h X E q e d n (k : bool → JM R) Q :
  rest_at t close q e l → owned h0 h B X E →
  (∀ r, colon l = Some r → rest_at t close (q + 1) e r → returns (k true h) Q) →
  (colon l = None → returns (k false h) Q) →
  returns (((if p (ctx_at B s q e d n) <? end_ (ctx_at B s q e d n) then
      x ← read_byte (padd (input (ctx_at B s q e d n)) (p (ctx_at B s q e d n))); mret (x =? c_colon)
    else mret false) ≫= k) h) Q.
Proof using HT Ht.
  intros HR HO Hok Hbad. cbn [ctx_at p end_ input]. destruct l as [|c l].
  { destruct (rest_at_nil _ _ _ _ HR) as [-> _]. rewrite Z.ltb_irrefl. by apply step_ret, Hbad. }
  destruct (rest_at_cons _ _ Ht _ _ _ _ HR) as (HR1 & Hc & Hlt & _). rewrite (proj2 (Z.ltb_lt q e)) by done.
  apply step_assoc. eapply step_owned_input; [exact HO|exact Hc|]. apply step_ret. cbn [colon] in *.
  destruct (c =? c_colon); [by eapply Hok|by apply Hbad].
Qed.

Lemma step_map_loop fuel : ∀ m l q e n h a kvs X2 (k : Z * json_array (string_t * string_t) → JM R) Q,
  (length l < fuel)%nat → (length l < m)%nat → rest_at t close q e l → room l X2 →
  owned h0 h B (flat (in_turn kvs) ++ X2) (elements a) → sized a B → items a = pair_layout B 0 kvs → zlen (items a) + zlen l ≤ 2 ^ 24 →
  (∀ kvs' X2' a' h', read_pairs m l = Some kvs' → owned h0 h' B (flat (in_turn (kvs ++ kvs')) ++ X2') (elements a') → sized a' B →
     items a' = pair_layout B 0 (kvs ++ kvs') → returns (k (0, a') h') Q) →
  (∀ X a' h', read_pairs m l = None → owned h0 h' B X (elements a') → buff a' = Some (B, 0) → returns (k (EINVAL, a') h') Q) →
  (∀ X E a' h', owned h0 h' B X E → oom h' = true → elements a' = None → items a' = [] → buff a' = Some (B, 0) → returns (k (ENOMEM, a') h') Q) →
  returns ((map_loop fuel (ctx_at B s q e (zlen (flat (in_turn kvs))) n) a ≫= k) h) Q.
Proof using HT Ht Hclose.
  induction fuel as [|fuel IH]; intros m l q e n h a kvs X2 k Q Hf Hm HR Hroom HO HS Hit Hmax Hok Hbad Hmem; [lia|].
  destruct m as [|m]; [lia|]. cbn [map_loop ctx_at p end_].
  pose proof (rest_at_range _ _ _ _ _ HR) as He. destruct l as [|c0 l0].
  { destruct (rest_at_nil _ _ _ _ HR) as [-> _]. rewrite Z.ltb_irrefl. cbn [negb]. apply step_ret.
    apply (Hok [] X2 a h); [done|rewrite app_nil_r; exact HO|done|by rewrite app_nil_r]. }
  set (l := c0 :: l0) in *. assert (0 < zlen l) as Hpos by (unfold l; rewrite zlen_cons; pose proof (zlen_nonneg l0); lia).
  rewrite (proj2 (Z.ltb_lt q e)) by lia. cbn [negb]. destruct Hroom as [Hroom|]; [|done].
  apply step_assoc. eapply (step_owned_spaces (S fuel) l); [lia|exact HR|exact HO|]. intros HR1.
  pose proof (skip_le l) as Hsk. cbn [read_pairs] in Hok, Hbad. destruct (skip l) as [|c l'] eqn:Esk.
  { cbn [ctx_at p end_]. change (zlen (@nil Z)) with 0. rewrite Z.sub_0_r, Z.eqb_refl. apply step_ret.
    apply (Hok [] X2 a h); [done|rewrite app_nil_r; exact HO|done|by rewrite app_nil_r]. }
  destruct (rest_at_cons _ _ Ht _ _ _ _ HR1) as (_ & Hc & Hlt & _). cbn [p end_ ctx_at]. rewrite (proj2 (Z.eqb_neq _ _)) by lia.
  apply step_assoc. eapply step_owned_input; [exact HO|exact Hc|]. destruct (c =? c_comma) eqn:Ec.
  { apply step_ret. eapply Hbad; [done|exact HO|apply HS]. }
  apply step_assoc. eapply (step_owned_element (S fuel) (c :: l')); [unfold zlen in Hsk; lia|exact HR1|exact HO|lia| |].
  2: { intros c' X' h' E HO'. rewrite E in Hbad. apply step_ret. eapply Hbad; [done|exact HO'|apply HS]. }
  intros x r h1 Ew HR2 HO1. cbn [fst snd negb Z.eqb]. rewrite Ew in Hok, Hbad. cbn [mbind option_bind] in Hok, Hbad.
  pose proof (element_of_le _ _ _ Ew) as Hw. pose proof (zlen_nonneg x). pose proof (zlen_nonneg r).
  apply step_assoc. eapply (step_owned_spaces (S fuel) r); [unfold zlen in *; lia|exact HR2|exact HO1|]. intros HR3.
  apply step_assoc. eapply step_colon; [exact HR3|exact HO1| |].
  2: { intros E. rewrite E in Hbad. apply step_ret. eapply Hbad; [done|exact HO1|apply HS]. }
  intros r1 Er1 HR4. cbn [negb]. rewrite Er1 in Hok, Hbad. cbn [mbind option_bind] in Hok, Hbad.
  pose proof (colon_le _ _ Er1). pose proof (skip_le r). pose proof (skip_le r1).
  change (element (ctx_at B s ?q ?e ?d ?n)) with (mkStr (B, d) n).
  change (next_place (set_p (p (ctx_at B s (e - zlen (skip r)) e ?d ?n) + 1) (ctx_at B s (e - zlen (skip r)) e ?d ?n)))
    with (ctx_at B s (e - zlen (skip r) + 1) e (d + (n + 1)) n).
  rewrite <-flat_snoc in HO1. set (kvs1 := in_turn kvs ++ [x]) in *. set (X3 := drop (length (x ++ [0])) X2) in *.
  replace (zlen (flat (in_turn kvs)) + (zlen x + 1)) with (zlen (flat kvs1)) by (unfold kvs1; rewrite flat_snoc; zlen_lia).
  assert (zlen X3 = zlen X2 - zlen x - 1) as HX3 by (unfold X3; rewrite zlen_drop_length; zlen_lia).
  apply step_assoc. eapply (step_owned_spaces (S fuel) r1); [unfold zlen in *; lia|exact HR4|exact HO1|]. intros HR5.
  apply step_assoc. eapply (step_owned_element (S fuel) (skip r1)); [unfold zlen in *; lia|exact HR5|exact HO1|lia| |].
  2: { intros c' X' h' E HO'. rewrite E in Hbad. apply step_ret. eapply Hbad; [done|exact HO'|apply HS]. }
  intros v r2 h2 Ev HR6 HO2. cbn [fst snd negb Z.eqb]. rewrite Ev in Hok, Hbad. cbn [mbind option_bind] in Hok, Hbad.
  pose proof (element_of_le _ _ _ Ev) as Hv. pose proof (zlen_nonneg v). pose proof (zlen_nonneg r2).
  apply step_assoc. eapply (step_owned_spaces (S fuel) r2); [unfold zlen in *; lia|exact HR6|exact HO2|]. intros HR7.
  apply step_assoc. eapply step_owned_comma; [exact HR7|exact HO2| |].
  2: { intros c' E. rewrite E in Hbad. apply step_ret. eapply Hbad; [done|exact HO2|apply HS]. }
  intros r' Er' HR8. cbn [fst snd negb Z.eqb]. rewrite Er' in Hok, Hbad. cbn [mbind option_bind] in Hok, Hbad.
  pose proof (skip_le r2). pose proof (comma_le _ _ Er') as Hr'. pose proof (zlen_nonneg r'). rewrite <-flat_snoc in HO2.
  assert (zlen r' < zlen l) as Hdec by (destruct Hr' as [->|]; [change (zlen (@nil Z)) with 0|]; lia).
  apply step_assoc. eapply (step_check_alloc h0 B); [done|done|unfold sizeof_key_value_pair_t; int_lia|int_lia|exact HO2|exact HS| |].
  2: { intros n' h' HO3 Hoom. apply step_ret. eapply Hmem; [exact HO3|done|done|done|apply HS]. }
  intros a2 h3 HO3 HS3 Ei2 [E2 HE2] Hroom2. cbn [fst snd negb Z.eqb].
  apply step_assoc. eapply step_lift; [unfold push; rewrite HE2, (proj2 (Z.ltb_lt _ _)) by done; done|].
  rewrite next_place_at. unfold kvs1 in HO3. rewrite <-in_turn_snoc in HO3.
  replace (zlen (flat kvs1) + (zlen v + 1)) with (zlen (flat (in_turn (kvs ++ [(x, v)]))))
    by (rewrite in_turn_snoc; fold kvs1; rewrite flat_snoc; zlen_lia).
  eapply (IH m r' _ _ _ h3 _ (kvs ++ [(x, v)]) (drop (length (v ++ [0])) X3));
    [unfold zlen in *; lia|unfold zlen in *; lia|exact HR8| | | | | | | |exact Hmem].
  - destruct Hr' as [->|Hr']; [by right|left]. rewrite zlen_drop_length by zlen_lia. zlen_simpl. lia.
  - cbn [elements]. by rewrite <-HE2.
  - by apply sized_push.
  - cbn [items]. rewrite Ei2, Hit, pair_layout_snoc. done.
  - cbn [items]. rewrite zlen_app, Ei2. change (zlen [_]) with 1. lia.
  - intros kvs' X2' a' h' Er HO' HS' Hi'. rewrite Er in Hok. cbn [mbind option_bind] in Hok.
    rewrite <-app_assoc in *. by eapply Hok.
  - intros X a' h' Er. rewrite Er in Hbad. by apply Hbad.
Qed.
End loops.

(** ** Whole texts *)

Lemma between_short o c t : zlen t < 2 → between o c t = None.
Proof. destruct t as [|x [|y l]]; [done..|]. rewrite !zlen_cons. pose proof (zlen_nonneg l). lia. Qed.

Lemma between_ends o c x l y : between o c (x :: l ++ [y]) = if (x =? o) && (y =? c) then Some l else None.
Proof. unfold between. rewrite last_snoc, removelast_last. done. Qed.

Lemma text_ends (t : list Z) : 2 ≤ zlen t → ∃ x l y, t = x :: l ++ [y].
Proof.
  intros Hl. destruct t as [|x t]; [done|]. destruct t as [|z t _] using rev_ind; [done|]. by exists x, t, z.
Qed.

Lemma step_prepare {T R} h inp t o c (k : Z * json_array T * ParseContext → JM R) Q :
  heap_ok h → given h inp t → zlen t ≤ INT_MAX →
  (∀ x, between o c t = None → returns (k (EINVAL, empty_array, x) h) Q) →
  (∀ x h', out_of_memory h h' → returns (k (ENOMEM, empty_array, x) h') Q) →
  (∀ l h1 X, between o c t = Some l → t = o :: l ++ [c] → zlen X = zlen l + 1 → owned h h1 (next h) X None →
     returns (k (0, mkArray None [] 0 (Some (next h, 0)), ctx_at (next h) (str inp) 1 (zlen l + 1) 0 0) h1) Q) →
  returns ((prepare_json_parse inp o c ≫= k) h) Q.
Proof.
  intros OK (HT & Hlen & HB) Hmax Hbad Hmem Hok. unfold prepare_json_parse. rewrite Hlen.
  case_if; [apply step_ret, Hbad, between_short; lia|]. destruct (text_ends t ltac:(lia)) as (x & l & y & Et).
  assert (zlen t = zlen l + 2) as Hl by (rewrite Et, zlen_cons, zlen_app; change (zlen [y]) with 1; lia).
  pose proof (between_ends o c x l y) as Hbt. rewrite <-Et in Hbt. pose proof (zlen_nonneg l).
  assert (zget t 0 = Some x) as Hx by by rewrite Et.
  assert (zget t (zlen t - 1) = Some y) as Hy.
  { rewrite Hl. rewrite Et. change (x :: l ++ [y]) with ((x :: l) ++ y :: []).
    replace (zlen l + 2 - 1) with (zlen (x :: l)) by (rewrite zlen_cons; lia). apply zget_app_mid. }
  apply step_assoc. replace (str inp) with (padd (str inp) 0) at 1 by (unfold padd; rewrite Z.add_0_r; by destruct (str inp)).
  eapply step_read_char; [exact HT|exact Hx|]. destruct (x =? o) eqn:Exo; [|by apply step_ret, Hbad].
  cbn [negb]. apply step_assoc. eapply step_read_char; [exact HT|exact Hy|].
  destruct (y =? c) eqn:Eyc; [|by apply step_ret, Hbad]. cbn [negb andb] in *. apply Z.eqb_eq in Exo, Eyc. subst x y.
  apply step_assoc, step_malloc; [done|intros h' Hs; by apply step_ret, Hmem|]. intros h1 _ E OK1 _.
  destruct (heap_ok_fresh h OK) as [_ Hf]. apply step_ret. rewrite Hl. replace (zlen l + 2 - 1) with (zlen l + 1) by lia.
  eapply Hok; [done|done| |split; [done|by rewrite E, lookup_insert_eq|done|done|]].
  - rewrite zlen_replicate. unfold u64. rewrite Z.mod_small by int_lia. lia.
  - intros x Hx' _. rewrite E. by rewrite lookup_insert_ne.
Qed.

(** The elements' texts, with terminators. *)
Definition holds (h : jheap) (el : string_t) (w : list Z) : Prop := text h (str el) (w ++ [0]) ∧ len el = zlen w.

Lemma layout_holds h B pre ws suf : blocks h !! B = Some (pre ++ flat ws ++ suf) →
  Forall2 (holds h) (layout B (zlen pre) ws) ws.
Proof.
  revert pre. induction ws as [|w ws IH]; intros pre Hb; [constructor|]. cbn [layout].
  assert (flat (w :: ws) = (w ++ [0]) ++ flat ws) as Ef by done. rewrite Ef in Hb. constructor.
  - split; [|done]. exists (pre ++ ((w ++ [0]) ++ flat ws) ++ suf). cbn [str fst snd]. pose proof (zlen_nonneg pre).
    pose proof (zlen_nonneg (flat ws)). pose proof (zlen_nonneg suf).
    split_and!; [done|lia|rewrite !zlen_app; lia|]. unfold zslice, zlen. rewrite !Nat2Z.id, drop_app_length.
    rewrite <-!(app_assoc (w ++ [0])). apply take_app_length.
  - replace (zlen pre + zlen w + 1) with (zlen (pre ++ w ++ [0])) by zlen_lia. apply IH.
    rewrite Hb. f_equal. by rewrite <-!app_assoc.
Qed.

(** The client's memory is as before. *)
Definition kept (h h' : jheap) : Prop := heap_ok h' ∧ ∀ x b, blocks h !! x = Some b → blocks h' !! x = Some b.

Lemma owned_kept h0 h B X E : owned h0 h B X E → kept h0 h.
Proof.
  intros [OK Hb Hf Ha Ho]. split; [done|]. intros x b Hx. rewrite Ho; [done|congruence|].
  intros HE. destruct (Ha x HE) as (_ & _ & ?). congruence.
Qed.

(** What decoding gives: the elements that the reference reads, EINVAL where it finds an
    error, with the memory released, or ENOMEM when an allocation has failed. *)
Definition decoded {T U} (h h' : jheap) (value : option (list U)) (held : T → U → Prop) (r : Z * json_array T) : Prop :=
  (r.1 = 0 ∧ kept h h' ∧ ∃ ws, value = Some ws ∧ Forall2 held (items r.2) ws) ∨
  (r.1 = EINVAL ∧ heap_ok h' ∧ value = None ∧ blocks h' = blocks h ∧ elements r.2 = None ∧ buff r.2 = None) ∨
  (r.1 = ENOMEM ∧ oom h' = true ∧ kept h h' ∧ elements r.2 = None ∧ buff r.2 = None).

Lemma rest_at_all o l c : rest_at (o :: l ++ [c]) c 1 (zlen l + 1) l.
Proof. exists [o], []. split_and!; [done|done|change (zlen [o]) with 1; lia]. Qed.

Lemma step_free_decoded {T U} h h' X E (value : option (list U)) (held : jheap → T → U → Prop) result a B :
  owned h h' B X E → buff a = Some (B, 0) → elements a = E ∨ elements a = None →
  (result = EINVAL ∧ value = None ∧ elements a = E) ∨ (result = ENOMEM ∧ oom h' = true) →
  returns (((a ← free_common_array a; mret (result, a)) ≫= mret) h') (λ '(r, h'), decoded h h' value (held h') r).
Proof.
  intros HO Hb HE Hr. apply step_assoc. eapply (step_free_common h B); [exact HO|exact Hb|exact HE|].
  intros a' h2 OK2 He' Hb' Ho Hm. apply step_ret, returns_mret.
  assert (kept h h2) as Hk.
  { split; [done|]. intros x b Hx. destruct Hm as [->|(_ & e & y & Hfe & ->)]; [done|]. by rewrite lookup_insert_ne by congruence. }
  destruct Hr as [(-> & Hv & Hae)|[-> Hoom]].
  - right. left. split_and!; [done|done|done| |done|done]. destruct Hm as [?|[Hn _]]; [done|by destruct Hn].
  - right. right. split_and!; try done. cbn. congruence.
Qed.

Lemma decode_json_array_ok h inp t fuel :
  heap_ok h → given h inp t → zlen t ≤ 2 ^ 24 → (length t < fuel)%nat →
  returns (decode_json_array fuel inp h) (λ '(r, h'), decoded h h' (read_array t) (holds h') r).
Proof.
  intros OK HG Hmax Hf. pose proof HG as (HT & Hlen & HB). rewrite <-(M_bind_ret_r (decode_json_array fuel inp)).
  unfold decode_json_array. apply step_assoc. eapply step_prepare; [done|exact HG|int_lia| | |].
  { intros x Eb. apply returns_mret. right. left. unfold read_array. rewrite Eb. by split_and!. }
  { intros x h' [(_ & Eb & OK') Hoom]. apply returns_mret. right. right. split_and!; [done|done| |done|done]. split; [done|]. intros y b. by rewrite Eb. }
  intros l h1 X Eb Et HX HO. cbn [negb Z.eqb]. pose proof (rest_at_all c_lbracket l c_rbracket) as HR. rewrite <-Et in HR.
  assert (read_array t = read_items (S (length l)) l) as Er by (unfold read_array; by rewrite Eb).
  assert (zlen t = zlen l + 2) as Hl by (rewrite Et, zlen_cons, zlen_app; change (zlen [c_rbracket]) with 1; lia).
  apply step_assoc. eapply (step_array_loop h (next h) (str inp) t c_rbracket HT HB eq_refl fuel (S (length l)) l 1 _ 0 h1 _ [] X);
    [unfold zlen in *; lia|lia|exact HR|left; lia|exact HO|split; cbn; (done || lia || by intros [])|done|change (zlen (items _)) with 0; lia| | |].
  - intros ws X' a' h' Ews HO' HS' Hi'. cbn [fst snd negb Z.eqb]. apply returns_mret. left. split_and!; [done|by eapply owned_kept|].
    exists ws. split; [by rewrite Er|]. cbn [snd]. rewrite Hi'. apply (layout_holds h' _ [] ws X'), HO'.
  - intros X' a' h' Ews HO' Hb'. cbn [fst snd negb Z.eqb EINVAL]. eapply step_free_decoded; [exact HO'|exact Hb'|by left|].
    left. split_and!; [done|by rewrite Er|done].
  - intros X' E a' h' HO' Hoom He' _ Hb'. cbn [fst snd negb Z.eqb ENOMEM]. eapply step_free_decoded; [exact HO'|exact Hb'|by right|by right].
Qed.

Definition holds_pair (h : jheap) (el : string_t * string_t) (kv : list Z * list Z) : Prop :=
  holds h el.1 kv.1 ∧ holds h el.2 kv.2.

Lemma pair_layout_holds h B pre kvs suf : blocks h !! B = Some (pre ++ flat (in_turn kvs) ++ suf) →
  Forall2 (holds_pair h) (pair_layout B (zlen pre) kvs) kvs.
Proof.
  intros Hb. pose proof (layout_holds h B pre (in_turn kvs) suf Hb) as HF. clear Hb. revert HF. generalize (zlen pre). clear pre.
  induction kvs as [|[k v] kvs IH]; intros off HF; [constructor|]. cbn [pair_layout].
  change (in_turn ((k, v) :: kvs)) with (k :: v :: in_turn kvs) in HF. cbn [layout] in HF.
  apply Forall2_cons in HF as [Hk HF]. apply Forall2_cons in HF as [Hv HF]. constructor; [done|by apply IH].
Qed.

Lemma decode_json_map_ok h inp t fuel :
  heap_ok h → given h inp t → zlen t ≤ 2 ^ 24 → (length t < fuel)%nat →
  returns (decode_json_map fuel inp h) (λ '(r, h'), decoded h h' (read_map t) (holds_pair h') r).
Proof.
  intros OK HG Hmax Hf. pose proof HG as (HT & Hlen & HB). rewrite <-(M_bind_ret_r (decode_json_map fuel inp)).
  unfold decode_json_map. apply step_assoc. eapply step_prepare; [done|exact HG|int_lia| | |].
  { intros x Eb. apply returns_mret. right. left. unfold read_map. rewrite Eb. by split_and!. }
  { intros x h' [(_ & Eb & OK') Hoom]. apply returns_mret. right. right. split_and!; [done|done| |done|done]. split; [done|]. intros y b. by rewrite Eb. }
  intros l h1 X Eb Et HX HO. cbn [negb Z.eqb]. pose proof (rest_at_all c_lbrace l c_rbrace) as HR. rewrite <-Et in HR.
  assert (read_map t = read_pairs (S (length l)) l) as Er by (unfold read_map; by rewrite Eb).
  assert (zlen t = zlen l + 2) as Hl by (rewrite Et, zlen_cons, zlen_app; change (zlen [c_rbrace]) with 1; lia).
  apply step_assoc. eapply (step_map_loop h (next h) (str inp) t c_rbrace HT HB eq_refl fuel (S (length l)) l 1 _ 0 h1 _ [] X);
    [unfold zlen in *; lia|lia|exact HR|left; lia|exact HO|split; cbn; (done || lia || by intros [])|done|change (zlen (items _)) with 0; lia| | |].
  - intros kvs X' a' h' Ews HO' HS' Hi'. cbn [fst snd negb Z.eqb]. apply returns_mret. left. split_and!; [done|by eapply owned_kept|].
    exists kvs. split; [by rewrite Er|]. cbn [snd]. rewrite Hi'. apply (pair_layout_holds h' _ [] kvs X'), HO'.
  - intros X' a' h' Ews HO' Hb'. cbn [fst snd negb Z.eqb EINVAL]. eapply step_free_decoded; [exact HO'|exact Hb'|by left|].
    left. split_and!; [done|by rewrite Er|done].
  - intros X' E a' h' HO' Hoom He' _ Hb'. cbn [fst snd negb Z.eqb ENOMEM]. eapply step_free_decoded; [exact HO'|exact Hb'|by right|by right].
Qed.

(** ** Both ways *)

Lemma escape_bytes s : Forall is_byte s → Forall is_byte (escape s).
Proof.
  induction 1 as [|c s Hc Hs IH]; [constructor|]. rewrite escape_cons. apply Forall_app. split; [|done].
  destruct (escape_char c) as [e|] eqn:E; [|by constructor]. constructor; [done|]. constructor; [by eapply escape_char_byte|done].
Qed.

Lemma separate_bytes l : Forall (Forall is_byte) l → Forall is_byte (separate l).
Proof.
  induction 1 as [|x l Hx Hl IH]; [constructor|]. destruct l as [|y l]; [done|]. rewrite separate_cons. apply Forall_app.
  split; [done|]. by constructor.
Qed.

Lemma array_text_bytes ss : Forall (Forall is_byte) ss → Forall is_byte (array_text ss).
Proof.
  intros Hss. unfold array_text. constructor; [done|]. apply Forall_app. split; [|by repeat constructor].
  apply separate_bytes, Forall_fmap. eapply Forall_impl; [exact Hss|]. intros s Hs. cbn. unfold quoted. constructor; [done|].
  apply Forall_app. split; [by apply escape_bytes|by repeat constructor].
Qed.

Lemma given_bytes h els ss : Forall2 (given h) els ss → Forall (Forall is_byte) ss.
Proof. induction 1 as [|el s els ss (_ & _ & ?) _ IH]; by constructor. Qed.

(** A text in a fresh block is one the library can be given. *)
Lemma result_given (h h' : jheap) B t X : blocks h' = <[B := t ++ 0 :: X]> (blocks h) → Forall is_byte t →
  given h' (mkStr (B, 0) (zlen t)) t.
Proof.
  intros E Ht. split_and!; [|done|done]. exists (t ++ 0 :: X). cbn. rewrite E, lookup_insert_eq. pose proof (zlen_nonneg X). pose proof (zlen_nonneg t).
  split_and!; [done|lia|rewrite zlen_app, zlen_cons; lia|]. unfold zslice, zlen. rewrite Nat2Z.id, drop_0. apply take_app_length.
Qed.

Definition encode_decode (fuel : nat) (els : list string_t) : JM (option (Z * json_array string_t)) :=
  r ← encode_json_array els;
  match r.2 with
  | Some output => x ← decode_json_array fuel output; mret (Some x)
  | None => mret None
  end.

(** * Properties *)

(** C31. The JSON text of an array of strings is decoded to the same strings, which
    are in a buffer of their own, whatever characters they have but the
    backspace, which does not survive ([backspace_lost]); ENOMEM, or no text, means that an
    allocation has failed. *)
Theorem json_array_roundtrip h els ss fuel :
  heap_ok h → Forall2 (given h) els ss → Forall no_backspace ss → array_bytes ss ≤ 2 ^ 24 → array_bytes ss ≤ Z.of_nat fuel →
  returns (encode_decode fuel els h) (λ '(x, h'), kept h h' ∧
    match x with
    | Some (result, a) => result = 0 ∧ Forall2 (holds h') (items a) ss ∨ result = ENOMEM ∧ oom h' = true
    | None => blocks h' = blocks h ∧ oom h' = true
    end).
Proof.
  intros OK HF Hss Hmax Hfuel. pose proof (zlen_array_text ss) as Ht. pose proof (given_bytes _ _ _ HF) as HB.
  unfold encode_decode. apply M_returns_bind. eapply returns_mono; [apply encode_json_array_ok; [done|exact HF|int_lia]|].
  intros [r h1] [OK1 [(B & X & -> & Hf & E)|(-> & E & Hoom)]]; cbn [snd].
  2: { split; [|done]. split; [done|]. intros x b. by rewrite E. }
  apply M_returns_bind. eapply returns_mono;
    [apply decode_json_array_ok; [done|by eapply result_given, array_text_bytes|lia|unfold zlen in *; lia]|].
  assert (∀ x b, blocks h !! x = Some b → blocks h1 !! x = Some b) as Hk1.
  { intros x b Hx. rewrite E, lookup_insert_ne; [done|congruence]. }
  intros [[result a] h2] [(Hr & [OK2 Hk] & ws & Ews & Hh)|[(_ & _ & Hv & _)|(Hr & Hoom & [OK2 Hk] & _)]]; cbn [fst snd] in *.
  - split; [split; [done|auto]|]. left. rewrite read_array_text in Ews by done. injection Ews as <-. done.
  - by rewrite read_array_text in Hv.
  - split; [split; [done|auto]|]. by right.
Qed.

(** C32. On every text, [decode_json_array] returns what the reference reader reads,
    or EINVAL exactly when that finds an error and then all its memory is
    released; ENOMEM means that an allocation has failed; it stays inside the text and its
    buffer, and ends. The reference reads JSON's arrays of strings and of bare words with
    tables of its own, in which the one deviation is explicit: [\b] stands for a form feed,
    as in the code, where JSON has the backspace. *)
Theorem decode_json_array_correct h inp t fuel :
  heap_ok h → given h inp t → zlen t ≤ 2 ^ 24 → (length t < fuel)%nat →
  returns (decode_json_array fuel inp h) (λ '(r, h'), decoded h h' (read_array t) (holds h') r).
Proof. apply decode_json_array_ok. Qed.

(** The same for [decode_json_map]. *)
Theorem decode_json_map_correct h inp t fuel :
  heap_ok h → given h inp t → zlen t ≤ 2 ^ 24 → (length t < fuel)%nat →
  returns (decode_json_map fuel inp h) (λ '(r, h'), decoded h h' (read_map t) (holds_pair h') r).
Proof. apply decode_json_map_ok. Qed.

(** When the bytes that [encode_json_map] counts suffice, as they do for one pair
    or when enough characters need no escape, its text is that of the map. *)
Theorem encode_json_map_correct h pairs kvs :
  heap_ok h → Forall2 (given_pair h) pairs kvs → map_bytes kvs ≤ INT_MAX → zlen (map_text kvs) + 1 ≤ map_bytes kvs →
  returns (encode_json_map pairs h) (λ '(r, h'), result_text h h' (map_text kvs) r).
Proof. apply encode_json_map_ok. Qed.

(** ** Where the code falls short *)

Definition json_heap (text : list Z) (os : list bool) : jheap := mkHeap ∅ {[ 1 := text ]} 2 os 7.

(** The text of a map is written into as many bytes as two per character of the
    keys and values and five per pair, but a pair takes six: two pairs of empty
    strings are written past the end. *)
Theorem encode_json_map_overflow :
  let e := mkStr (1, 0) 0 in
  encode_json_map [(e, e); (e, e)] (json_heap [] []) = Undef ∧
  map_bytes [([], []); ([], [])] = 13 ∧ zlen (map_text [([], []); ([], [])]) + 1 = 14.
Proof. by vm_compute. Qed.

(** A backspace is written as an escape that is read as a form feed. *)
Theorem backspace_lost :
  read_array (array_text [[8]]) = Some [[12]].
Proof. by vm_compute. Qed.

(** With an array too long for its block and no memory for a longer one, the
    elements' block (3; the text is 1 and the buffer, released, 2) is lost. *)
Theorem failed_growth_leaks :
  let t := c_lbracket :: separate (replicate 33 [97]) ++ [c_rbracket] in
  returns (decode_json_array 100 (mkStr (1, 0) (zlen t)) (json_heap t [true; true; false])) (λ '(r, h),
    r.1 = ENOMEM ∧ elements r.2 = None ∧ blocks h !! 2 = None ∧ is_Some (blocks h !! 3)).
Proof. vm_compute. split_and!; [done..|by eexists]. Qed.

(** * Witnesses *)

Lemma json_heap_ok t os : heap_ok (json_heap t os).
Proof.
  split; cbn; [lia|done| |done]. intros b Hb. rewrite lookup_singleton_ne; [done|lia].
Qed.

Lemma sample_given (pre c suf : list Z) os n : n = zlen pre → Forall is_byte c →
  given (json_heap (pre ++ c ++ suf) os) (mkStr (1, n) (zlen c)) c.
Proof.
  intros -> Hc. split_and!; [|done|done]. exists (pre ++ c ++ suf). cbn [str fst snd json_heap blocks]. rewrite lookup_singleton_eq.
  pose proof (zlen_nonneg pre). pose proof (zlen_nonneg suf).
  split_and!; [done|lia|rewrite !zlen_app; lia|]. unfold zslice, zlen. rewrite !Nat2Z.id, drop_app_length. apply take_app_length.
Qed.

Lemma ab_bytes : Forall is_byte [97; 34] ∧ Forall is_byte [10].
Proof. split; repeat (constructor; [unfold is_byte; lia|]); constructor. Qed.

Lemma json_array_roundtrip_witness :
  ∃ h els, Forall2 (given h) els [[97; 34]; [10]] ∧
  returns (encode_decode 100 els h) (λ '(x, h'), kept h h' ∧
    match x with
    | Some (result, a) => result = 0 ∧ Forall2 (holds h') (items a) [[97; 34]; [10]] ∨ result = ENOMEM ∧ oom h' = true
    | None => blocks h' = blocks h ∧ oom h' = true
    end).
Proof.
  exists (json_heap [97; 34; 10] []), [mkStr (1, 0) 2; mkStr (1, 2) 1].
  assert (Forall2 (given (json_heap [97; 34; 10] [])) [mkStr (1, 0) 2; mkStr (1, 2) 1] [[97; 34]; [10]]) as HF.
  { constructor; [apply (sample_given [] [97; 34] [10]); [done|apply ab_bytes]|].
    constructor; [apply (sample_given [97; 34] [10] []); [done|apply ab_bytes]|constructor]. }
  split; [exact HF|]. apply json_array_roundtrip; [apply json_heap_ok|exact HF| |by vm_compute..].
  repeat constructor; by vm_compute.
Defined.

Lemma decode_json_array_correct_witness :
  ∃ h inp, returns (decode_json_array 100 inp h) (λ '(r, h'), decoded h h' (Some [[97]]) (holds h') r).
Proof.
  exists (json_heap [91; 97; 93] []), (mkStr (1, 0) 3).
  apply (decode_json_array_correct (json_heap [91; 97; 93] []) (mkStr (1, 0) 3) [91; 97; 93] 100);
    [apply json_heap_ok|apply (sample_given [] [91; 97; 93] []); [done|repeat (constructor; [unfold is_byte; lia|]); constructor]|by vm_compute|cbn; lia].
Defined.

Lemma decode_json_map_correct_witness :
  ∃ h inp, returns (decode_json_map 100 inp h) (λ '(r, h'), decoded h h' (Some [([97], [98])]) (holds_pair h') r).
Proof.
  exists (json_heap [123; 97; 58; 98; 125] []), (mkStr (1, 0) 5).
  apply (decode_json_map_correct (json_heap [123; 97; 58; 98; 125] []) (mkStr (1, 0) 5) [123; 97; 58; 98; 125] 100);
    [apply json_heap_ok|apply (sample_given [] [123; 97; 58; 98; 125] []); [done|repeat (constructor; [unfold is_byte; lia|]); constructor]|by vm_compute|cbn; lia].
Defined.

Lemma encode_json_map_correct_witness :
  ∃ h pairs, returns (encode_json_map pairs h) (λ '(r, h'), result_text h h' (map_text [([97; 34], [10])]) r).
Proof.
  exists (json_heap [97; 34; 10] []), [(mkStr (1, 0) 2, mkStr (1, 2) 1)].
  apply encode_json_map_correct; [apply json_heap_ok| |by vm_compute..].
  constructor; [|constructor]. split.
  - apply (sample_given [] [97; 34] [10]); [done|apply ab_bytes].
  - apply (sample_given [97; 34] [10] []); [done|apply ab_bytes].
Defined.
