(* ===== verification/Md5.v ===== *)
(** libs/fastcommon/src/md5.c: the MD5 digest, block by block and in pieces.

    An MD5_CTX is a record with its three arrays; [input] is the array the caller
    passes, read with bounds. The reference is the digest as RFC 1321 states it:
    one loop of 64 steps per block over a padded message, with the constants
    taken from the sine. *)
From S2P Require Import Prelude.

(** * Code *)

Definition S11 : Z := 7.
Definition S12 : Z := 12.
Definition S13 : Z := 17.
Definition S14 : Z := 22.
Definition S21 : Z := 5.
Definition S22 : Z := 9.
Definition S23 : Z := 14.
Definition S24 : Z := 20.
Definition S31 : Z := 4.
Definition S32 : Z := 11.
Definition S33 : Z := 16.
Definition S34 : Z := 23.
Definition S41 : Z := 6.
Definition S42 : Z := 10.
Definition S43 : Z := 15.
Definition S44 : Z := 21.

Definition PADDING : list Z := 128 :: replicate 63 0.

(** ** The basic functions, on 32 bits *)

Definition not32 (x : Z) : Z := u32 (Z.lnot x).

Definition F (x y z : Z) : Z := Z.lor (Z.land x y) (Z.land (not32 x) z).
Definition G (x y z : Z) : Z := Z.lor (Z.land x z) (Z.land y (not32 z)).
Definition H (x y z : Z) : Z := Z.lxor (Z.lxor x y) z.
Definition I (x y z : Z) : Z := Z.lxor y (Z.lor x (not32 z)).

Definition ROTATE_LEFT (x n : Z) : Z := Z.lor (u32 (Z.shiftl x n)) (Z.shiftr x (32 - n)).

(** The four variables of a transformation, and which of them a step names. *)
Definition regs : Type := Z * Z * Z * Z.
Inductive reg := ra | rb | rc | rd.

Definition get (r : reg) (v : regs) : Z :=
  let '(va, vb, vc, vd) := v in match r with ra => va | rb => vb | rc => vc | rd => vd end.

Definition set (r : reg) (x : Z) (v : regs) : regs :=
  let '(va, vb, vc, vd) := v in
  match r with ra => (x, vb, vc, vd) | rb => (va, x, vc, vd) | rc => (va, vb, x, vd) | rd => (va, vb, vc, x) end.

(** A line of the transformation: the macro, its variables, the index of the
    word, the shift and the constant. *)
Inductive macro := FF | GG | HH | II.

Record line := mkLine { name : macro; r1 : reg; r2 : reg; r3 : reg; r4 : reg; index : Z; shift : Z; constant : Z }.

Definition basic (m : macro) : Z → Z → Z → Z :=
  match m with FF => F | GG => G | HH => H | II => I end.

(** The body the four macros share. *)
Definition step (l : line) (x : list Z) (v : regs) : res regs :=
  xk ← load x (index l);
  let v1 := u32 (get (r1 l) v + u32 (u32 (basic (name l) (get (r2 l) v) (get (r3 l) v) (get (r4 l) v) + xk) + constant l)) in
  let v1 := ROTATE_LEFT v1 (shift l) in
  mret (set (r1 l) (u32 (v1 + get (r2 l) v)) v).

Definition rounds : list line := [
  mkLine FF ra rb rc rd 0 S11 0xd76aa478;
  mkLine FF rd ra rb rc 1 S12 0xe8c7b756;
  mkLine FF rc rd ra rb 2 S13 0x242070db;
  mkLine FF rb rc rd ra 3 S14 0xc1bdceee;
  mkLine FF ra rb rc rd 4 S11 0xf57c0faf;
  mkLine FF rd ra rb rc 5 S12 0x4787c62a;
  mkLine FF rc rd ra rb 6 S13 0xa8304613;
  mkLine FF rb rc rd ra 7 S14 0xfd469501;
  mkLine FF ra rb rc rd 8 S11 0x698098d8;
  mkLine FF rd ra rb rc 9 S12 0x8b44f7af;
  mkLine FF rc rd ra rb 10 S13 0xffff5bb1;
  mkLine FF rb rc rd ra 11 S14 0x895cd7be;
  mkLine FF ra rb rc rd 12 S11 0x6b901122;
  mkLine FF rd ra rb rc 13 S12 0xfd987193;
  mkLine FF rc rd ra rb 14 S13 0xa679438e;
  mkLine FF rb rc rd ra 15 S14 0x49b40821;

  mkLine GG ra rb rc rd 1 S21 0xf61e2562;
  mkLine GG rd ra rb rc 6 S22 0xc040b340;
  mkLine GG rc rd ra rb 11 S23 0x265e5a51;
  mkLine GG rb rc rd ra 0 S24 0xe9b6c7aa;
  mkLine GG ra rb rc rd 5 S21 0xd62f105d;
  mkLine GG rd ra rb rc 10 S22 0x2441453;
  mkLine GG rc rd ra rb 15 S23 0xd8a1e681;
  mkLine GG rb rc rd ra 4 S24 0xe7d3fbc8;
  mkLine GG ra rb rc rd 9 S21 0x21e1cde6;
  mkLine GG rd ra rb rc 14 S22 0xc33707d6;
  mkLine GG rc rd ra rb 3 S23 0xf4d50d87;
  mkLine GG rb rc rd ra 8 S24 0x455a14ed;
  mkLine GG ra rb rc rd 13 S21 0xa9e3e905;
  mkLine GG rd ra rb rc 2 S22 0xfcefa3f8;
  mkLine GG rc rd ra rb 7 S23 0x676f02d9;
  mkLine GG rb rc rd ra 12 S24 0x8d2a4c8a;

  mkLine HH ra rb rc rd 5 S31 0xfffa3942;
  mkLine HH rd ra rb rc 8 S32 0x8771f681;
  mkLine HH rc rd ra rb 11 S33 0x6d9d6122;
  mkLine HH rb rc rd ra 14 S34 0xfde5380c;
  mkLine HH ra rb rc rd 1 S31 0xa4beea44;
  mkLine HH rd ra rb rc 4 S32 0x4bdecfa9;
  mkLine HH rc rd ra rb 7 S33 0xf6bb4b60;
  mkLine HH rb rc rd ra 10 S34 0xbebfbc70;
  mkLine HH ra rb rc rd 13 S31 0x289b7ec6;
  mkLine HH rd ra rb rc 0 S32 0xeaa127fa;
  mkLine HH rc rd ra rb 3 S33 0xd4ef3085;
  mkLine HH rb rc rd ra 6 S34 0x4881d05;
  mkLine HH ra rb rc rd 9 S31 0xd9d4d039;
  mkLine HH rd ra rb rc 12 S32 0xe6db99e5;
  mkLine HH rc rd ra rb 15 S33 0x1fa27cf8;
  mkLine HH rb rc rd ra 2 S34 0xc4ac5665;

  mkLine II ra rb rc rd 0 S41 0xf4292244;
  mkLine II rd ra rb rc 7 S42 0x432aff97;
  mkLine II rc rd ra rb 14 S43 0xab9423a7;
  mkLine II rb rc rd ra 5 S44 0xfc93a039;
  mkLine II ra rb rc rd 12 S41 0x655b59c3;
  mkLine II rd ra rb rc 3 S42 0x8f0ccc92;
  mkLine II rc rd ra rb 10 S43 0xffeff47d;
  mkLine II rb rc rd ra 1 S44 0x85845dd1;
  mkLine II ra rb rc rd 8 S41 0x6fa87e4f;
  mkLine II rd ra rb rc 15 S42 0xfe2ce6e0;
  mkLine II rc rd ra rb 6 S43 0xa3014314;
  mkLine II rb rc rd ra 13 S44 0x4e0811a1;
  mkLine II ra rb rc rd 4 S41 0xf7537e82;
  mkLine II rd ra rb rc 11 S42 0xbd3af235;
  mkLine II rc rd ra rb 2 S43 0x2ad7d2bb;
  mkLine II rb rc rd ra 9 S44 0xeb86d391].

(** ** Words and bytes *)

(** [input[i]] to [input[i + 63]] and the like: the arrays may be parts of others. *)
Fixpoint Decode_loop (n : nat) (input : list Z) (j : Z) : res (list Z) :=
  match n with
  | O => Done []
  | S n =>
      b0 ← load input j; b1 ← load input (j + 1); b2 ← load input (j + 2); b3 ← load input (j + 3);
      ws ← Decode_loop n input (j + 4);
      Done (Z.lor (Z.lor (Z.lor b0 (u32 (Z.shiftl b1 8))) (u32 (Z.shiftl b2 16))) (u32 (Z.shiftl b3 24)) :: ws)
  end.

Definition Decode (input : list Z) (off len : Z) : res (list Z) := Decode_loop (Z.to_nat (len / 4)) input off.

Fixpoint Encode_loop (n : nat) (input : list Z) (i : Z) : res (list Z) :=
  match n with
  | O => Done []
  | S n =>
      w ← load input i;
      bs ← Encode_loop n input (i + 1);
      Done ([u8 (Z.land w 0xff); u8 (Z.land (Z.shiftr w 8) 0xff); u8 (Z.land (Z.shiftr w 16) 0xff);
             u8 (Z.land (Z.shiftr w 24) 0xff)] ++ bs)
  end.

(** The bytes written. *)
Definition Encode (input : list Z) (len : Z) : res (list Z) := Encode_loop (Z.to_nat (len / 4)) input 0.

(** [state] and the block at [off]. *)
Definition MD5Transform (state : list Z) (block : list Z) (off : Z) : res (list Z) :=
  s0 ← load state 0; s1 ← load state 1; s2 ← load state 2; s3 ← load state 3;
  x ← Decode block off 64;
  v ← fold_res (λ l v, step l x v) rounds (s0, s1, s2, s3);
  let '(va, vb, vc, vd) := v in
  mret [u32 (s0 + va); u32 (s1 + vb); u32 (s2 + vc); u32 (s3 + vd)].

Definition MD5_memcpy (output : list Z) (off : Z) (input : list Z) (ioff : Z) (len : Z) : res (list Z) :=
  for_up 0 len (λ i output, x ← load input (ioff + i); store output (off + i) x) output.

(** ** Contexts *)

Record MD5_CTX := mkCtx { state : list Z; count : list Z; buffer : list Z }.

(** What the buffer holds is left as it is. *)
Definition my_md5_init (context : MD5_CTX) : MD5_CTX :=
  mkCtx [0x67452301; 0xefcdab89; 0x98badcfe; 0x10325476] [0; 0] (buffer context).

(** [i + 63] is an unsigned sum. The fuel bounds the number of blocks. *)
Fixpoint transform_loop (fuel : nat) (st input : list Z) (i inputLen : Z) : res (list Z * Z) :=
  if u32 (i + 63) <? inputLen then
    match fuel with
    | O => OutOfFuel
    | S fuel => st ← MD5Transform st input i; transform_loop fuel st input (u32 (i + 64)) inputLen
    end
  else Done (st, i).

Definition my_md5_update (fuel : nat) (context : MD5_CTX) (input : list Z) (inputLen : Z) : res MD5_CTX :=
  c0 ← load (count context) 0; c1 ← load (count context) 1;
  let index := Z.land (Z.shiftr c0 3) 0x3F in
  let bits := u32 (Z.shiftl inputLen 3) in
  let c0 := u32 (c0 + bits) in
  let c1 := if c0 <? bits then u32 (c1 + 1) else c1 in
  let c1 := u32 (c1 + Z.shiftr inputLen 29) in
  let partLen := u32 (64 - index) in
  r ← (if partLen <=? inputLen then
         buf ← MD5_memcpy (buffer context) index input 0 partLen;
         st ← MD5Transform (state context) buf 0;
         '(st, i) ← transform_loop fuel st input partLen inputLen;
         Done (st, buf, 0, i)
       else Done (state context, buffer context, index, 0));
  let '(st, buf, index, i) := r in
  buf ← MD5_memcpy buf index input i (u32 (inputLen - i));
  Done (mkCtx st [c0; c1] buf).

(** The digest and the context, which [MD5_memset] clears as a whole. *)
Definition my_md5_final (fuel : nat) (context : MD5_CTX) : res (list Z * MD5_CTX) :=
  bits ← Encode (count context) 8;
  c0 ← load (count context) 0;
  let index := Z.land (Z.shiftr c0 3) 0x3f in
  let padLen := if index <? 56 then 56 - index else 120 - index in
  context ← my_md5_update fuel context PADDING padLen;
  context ← my_md5_update fuel context bits 8;
  digest ← Encode (state context) 16;
  Done (digest, mkCtx (replicate 4 0) (replicate 2 0) (replicate 64 0)).

(** The context is a local variable, so its content is arbitrary at first. *)
Definition my_md5_buffer (fuel : nat) (context : MD5_CTX) (buffer : list Z) (len : Z) : res (list Z) :=
  context ← my_md5_update fuel (my_md5_init context) buffer len;
  '(digest, _) ← my_md5_final fuel context;
  mret digest.

(** [strlen]. *)
Fixpoint strlen (s : list Z) : res Z :=
  match s with
  | [] => Undef
  | c :: s => if c =? 0 then Done 0 else n ← strlen s; Done (n + 1)
  end.

Definition my_md5_string (fuel : nat) (context : MD5_CTX) (string : list Z) : res (list Z) :=
  n ← strlen string;
  my_md5_buffer fuel context string (u32 n).

(** The pieces that [fread] returns, each in the buffer of 1024 bytes. *)
Fixpoint file_loop (fuel : nat) (context : MD5_CTX) (pieces : list (list Z)) : res MD5_CTX :=
  match pieces with
  | [] => Done context
  | p :: ps => context ← my_md5_update fuel context p (zlen p); file_loop fuel context ps
  end.

(** [None]: the file cannot be opened. *)
Definition my_md5_file (fuel : nat) (context : MD5_CTX) (file : option (list (list Z))) : res (Z * list Z) :=
  match file with
  | None => mret (-1, [])
  | Some pieces =>
      context ← file_loop fuel (my_md5_init context) pieces;
      '(digest, _) ← my_md5_final fuel context;
      mret (0, digest)
  end.

(** * Reference definitions *)

(** The sine of 1, 2, 3, ... in fixed point with 128 fractional bits, and the
    integer part of 2^32 times its absolute value. *)
Definition one : Z := 2 ^ 128.

Fixpoint taylor (n : nat) (k sign term : Z) : Z :=
  match n with
  | O => 0
  | S n => sign * term + taylor n (k + 2) (- sign) (term / ((k + 1) * (k + 2)))
  end.

Definition sin1 : Z := Eval vm_compute in taylor 20 1 1 one.
Definition cos1 : Z := Eval vm_compute in taylor 20 0 1 one.

Definition turn (sc : Z * Z) : Z * Z :=
  ((sc.1 * cos1 + sc.2 * sin1) / one, (sc.2 * cos1 - sc.1 * sin1) / one).

Fixpoint sines (n : nat) (sc : Z * Z) : list Z :=
  match n with
  | O => []
  | S n => let sc := turn sc in Z.abs sc.1 / 2 ^ 96 :: sines n sc
  end.

Definition sine_table : list Z := Eval vm_compute in sines 64 (0, one).
Definition sine_constant (i : Z) : Z := nth (Z.to_nat i) sine_table 0.

(** Step [i] of a block: the function, the shift and the word. *)
Definition ref_fun (i x y z : Z) : Z :=
  if i <? 16 then Z.lxor z (Z.land x (Z.lxor y z))
  else if i <? 32 then Z.lxor y (Z.land z (Z.lxor x y))
  else if i <? 48 then Z.lxor x (Z.lxor y z)
  else Z.lxor y (Z.lor x (2 ^ 32 - 1 - z)).

Definition ref_shift (i : Z) : Z :=
  nth (Z.to_nat (i mod 4)) (nth (Z.to_nat (i / 16)) [[7; 12; 17; 22]; [5; 9; 14; 20]; [4; 11; 16; 23]; [6; 10; 15; 21]] []) 0.

Definition ref_word (i : Z) : Z :=
  nth (Z.to_nat (i / 16)) [i; (5 * i + 1) mod 16; (3 * i + 5) mod 16; (7 * i) mod 16] 0.

Definition rotl (x n : Z) : Z := (x * 2 ^ n) mod 2 ^ 32 + x / 2 ^ (32 - n).

Definition ref_step (m : Z → Z) (v : regs) (i : Z) : regs :=
  let '(va, vb, vc, vd) := v in
  (vd, u32 (vb + rotl (u32 (va + ref_fun i vb vc vd + sine_constant i + m (ref_word i))) (ref_shift i)), vb, vc).

(** The number whose digits to the base 256 are the given bytes. *)
Fixpoint le_value (l : list Z) : Z :=
  match l with [] => 0 | x :: l => x + 256 * le_value l end.

Definition word_of (block : list Z) (j : Z) : Z := le_value (zslice block (4 * j) 4).

Definition ref_block (v : regs) (block : list Z) : regs :=
  let '(va, vb, vc, vd) := v in
  let '(wa, wb, wc, wd) := foldl (ref_step (word_of block)) v (seqZ 0 64) in
  (u32 (va + wa), u32 (vb + wb), u32 (vc + wc), u32 (vd + wd)).

(** The first [n] blocks of a text. *)
Fixpoint absorb (n : nat) (v : regs) (l : list Z) : regs :=
  match n with
  | O => v
  | S n => absorb n (ref_block v (take 64 l)) (drop 64 l)
  end.

Definition le_bytes (n : nat) (x : Z) : list Z := (λ i, x / 256 ^ i mod 256) <$> seqZ 0 (Z.of_nat n).

(** A one bit, zeros up to 56 bytes modulo 64, and the length in bits. *)
Definition padded (msg : list Z) : list Z :=
  msg ++ [128] ++ replicate (Z.to_nat ((55 - zlen msg) mod 64)) 0 ++ le_bytes 8 (8 * zlen msg).

Definition initial : regs := (0x67452301, 0xefcdab89, 0x98badcfe, 0x10325476).

Definition md5 (msg : list Z) : list Z :=
  let '(va, vb, vc, vd) := absorb (length (padded msg) / 64) initial (padded msg) in
  le_bytes 4 va ++ le_bytes 4 vb ++ le_bytes 4 vc ++ le_bytes 4 vd.

Definition code_line (i : Z) : line :=
  let '(x1, x2, x3, x4) :=
    nth (Z.to_nat (i mod 4)) [(ra, rb, rc, rd); (rd, ra, rb, rc); (rc, rd, ra, rb); (rb, rc, rd, ra)] (ra, rb, rc, rd) in
  mkLine (nth (Z.to_nat (i / 16)) [FF; GG; HH; II] II) x1 x2 x3 x4 (ref_word i) (ref_shift i) (sine_constant i).

(** The 64 lines of the transformation. *)
Lemma rounds_table : rounds = code_line <$> seqZ 0 64.
Proof. vm_compute. reflexivity. Qed.

Lemma md5_abc : md5 [97; 98; 99] = [144; 1; 80; 152; 60; 210; 79; 176; 214; 150; 63; 125; 40; 225; 127; 114].
Proof. vm_compute. reflexivity. Qed.

(** * Words *)

Definition word (x : Z) : Prop := 0 ≤ x < 2 ^ 32.
Definition words (v : regs) : Prop := let '(va, vb, vc, vd) := v in word va ∧ word vb ∧ word vc ∧ word vd.

Lemma u32_word x : word (u32 x).
Proof. unfold word, u32. lia. Qed.

Lemma not32_eq x : word x → not32 x = 2 ^ 32 - 1 - x.
Proof. unfold word, not32, u32, Z.lnot. lia. Qed.

Lemma not32_spec x n : 0 ≤ n → Z.testbit (not32 x) n = (n <? 32) && negb (Z.testbit x n).
Proof.
  intros Hn. unfold not32, u32. destruct (Z.ltb_spec n 32).
  - by rewrite Z.mod_pow2_bits_low, Z.lnot_spec.
  - by rewrite Z.mod_pow2_bits_high.
Qed.

Lemma word_spec x n : word x → 32 ≤ n → Z.testbit x n = false.
Proof. intros Hx Hn. apply (testbit_above x 32); [lia|done]. Qed.

(** Bit by bit, with the bits above the words being zero. *)
Ltac word_bits :=
  apply Z.bits_inj'; intros n Hn;
  rewrite ?Z.lor_spec, ?Z.land_spec, ?Z.lxor_spec, ?not32_spec, ?Z.lor_spec, ?Z.land_spec, ?Z.lxor_spec by done;
  destruct (Z.ltb_spec n 32); rewrite ?(word_spec _ n) by done;
  repeat match goal with |- context [Z.testbit ?x n] => destruct (Z.testbit x n) end; done.

Lemma F_mux x y z : word x → word y → word z → F x y z = Z.lxor z (Z.land x (Z.lxor y z)).
Proof. intros. unfold F. word_bits. Qed.

Lemma G_mux x y z : word x → word y → word z → G x y z = Z.lxor y (Z.land z (Z.lxor x y)).
Proof. intros. unfold G. word_bits. Qed.

Lemma shifted_part x n : word x → 0 < n < 32 → u32 (Z.shiftl x n) = Z.shiftl (x mod 2 ^ (32 - n)) n.
Proof.
  intros Hx Hn. unfold u32. rewrite !Z.shiftl_mul_pow2 by lia.
  replace (2 ^ 32) with (2 ^ (32 - n) * 2 ^ n) by (rewrite <-Z.pow_add_r by lia; f_equal; lia).
  apply Z.mul_mod_distr_r; apply Z.pow_nonzero; lia.
Qed.

Lemma top_part x n : word x → 0 < n < 32 → 0 ≤ x / 2 ^ (32 - n) < 2 ^ n.
Proof.
  intros Hx Hn. split; [apply Z.div_pos; [apply Hx|apply Z.pow_pos_nonneg; lia]|].
  apply Z.div_lt_upper_bound; [apply Z.pow_pos_nonneg; lia|]. rewrite <-Z.pow_add_r by lia.
  replace (32 - n + n) with 32 by lia. apply Hx.
Qed.

Lemma ROTATE_LEFT_rotl x n : word x → 0 < n < 32 → ROTATE_LEFT x n = rotl x n ∧ word (rotl x n).
Proof.
  intros Hx Hn. unfold ROTATE_LEFT, rotl. rewrite shifted_part by done. rewrite Z.shiftr_div_pow2 by lia.
  pose proof (top_part x n Hx Hn) as Ht.
  assert ((x * 2 ^ n) mod 2 ^ 32 = x mod 2 ^ (32 - n) * 2 ^ n) as E.
  { pose proof (shifted_part x n Hx Hn) as E. unfold u32 in E. by rewrite !Z.shiftl_mul_pow2 in E by lia. }
  rewrite E, lor_shiftl_add by lia. split; [done|].
  assert (0 ≤ x mod 2 ^ (32 - n) < 2 ^ (32 - n)) as Hm by (apply Z.mod_pos_bound, Z.pow_pos_nonneg; lia).
  assert (2 ^ 32 = 2 ^ (32 - n) * 2 ^ n) as E2 by (rewrite <-Z.pow_add_r by lia; f_equal; lia). unfold word. rewrite E2.
  revert Ht Hm. generalize (x / 2 ^ (32 - n)), (x mod 2 ^ (32 - n)), (2 ^ n), (2 ^ (32 - n)). intros. nia.
Qed.

(** ** A step *)

Lemma checked (p : Z → bool) i : forallb p (seqZ 0 64) = true → 0 ≤ i < 64 → p i = true.
Proof. intros Hp Hi. eapply forallb_forall in Hp; [done|]. apply list_elem_of_In, elem_of_seqZ. lia. Qed.

Lemma ref_word_range i : 0 ≤ i < 64 → 0 ≤ ref_word i < 16.
Proof.
  intros Hi. pose proof (checked (λ i, (0 <=? ref_word i) && (ref_word i <? 16)) i eq_refl Hi) as Hc. cbv beta in Hc. propify. done.
Qed.

Lemma ref_shift_range i : 0 ≤ i < 64 → 0 < ref_shift i < 32.
Proof.
  intros Hi. pose proof (checked (λ i, (0 <? ref_shift i) && (ref_shift i <? 32)) i eq_refl Hi) as Hc. cbv beta in Hc. propify. done.
Qed.

Lemma basic_ref i x y z : 0 ≤ i < 64 → word x → word y → word z →
  basic (name (code_line i)) x y z = ref_fun i x y z.
Proof.
  intros Hi Hx Hy Hz. unfold code_line. destruct (nth (Z.to_nat (i mod 4)) _ _) as [[[x1 x2] x3] x4]. cbn [name].
  unfold ref_fun. repeat case_if.
  - replace (i / 16) with 0 by lia. by apply F_mux.
  - replace (i / 16) with 1 by lia. by apply G_mux.
  - replace (i / 16) with 2 by lia. transitivity (H x y z); [done|]. unfold H. by rewrite Z.lxor_assoc.
  - replace (i / 16) with 3 by lia. transitivity (I x y z); [done|]. unfold I. by rewrite not32_eq.
Qed.

(** The reference's tuple, in the order in which line [i] names the variables. *)
Definition turned (i : Z) (v : regs) : regs :=
  let l := code_line i in (get (r1 l) v, get (r2 l) v, get (r3 l) v, get (r4 l) v).

Lemma turned_words i v : words v → words (turned i v).
Proof.
  destruct v as [[[va vb] vc] vd]. intros (? & ? & ? & ?). unfold turned. generalize (code_line i). intros l. cbn.
  split_and!; unfold get; case_match; done.
Qed.

Lemma line_registers i j : i mod 4 = j →
  (r1 (code_line i), r2 (code_line i), r3 (code_line i), r4 (code_line i)) =
  nth (Z.to_nat j) [(ra, rb, rc, rd); (rd, ra, rb, rc); (rc, rd, ra, rb); (rb, rc, rd, ra)] (ra, rb, rc, rd).
Proof. intros <-. unfold code_line. by destruct (nth (Z.to_nat (i mod 4)) _ _) as [[[x1 x2] x3] x4]. Qed.

Lemma line_numbers i : index (code_line i) = ref_word i ∧ shift (code_line i) = ref_shift i ∧ constant (code_line i) = sine_constant i.
Proof. unfold code_line. by destruct (nth (Z.to_nat (i mod 4)) _ _) as [[[x1 x2] x3] x4]. Qed.

Lemma turned_set i v y : turned (i + 1) (set (r1 (code_line i)) y v) =
  let '(wa, wb, wc, wd) := turned i v in (wd, y, wb, wc).
Proof.
  destruct v as [[[va vb] vc] vd]. unfold turned.
  assert (i mod 4 = 0 ∨ i mod 4 = 1 ∨ i mod 4 = 2 ∨ i mod 4 = 3) as Hm by lia.
  destruct Hm as [Hm|[Hm|[Hm|Hm]]]; pose proof (line_registers i _ Hm) as E;
    [assert ((i + 1) mod 4 = 1) as Hm' by lia|assert ((i + 1) mod 4 = 2) as Hm' by lia
    |assert ((i + 1) mod 4 = 3) as Hm' by lia|assert ((i + 1) mod 4 = 0) as Hm' by lia];
    pose proof (line_registers (i + 1) _ Hm') as E'; cbn in E, E'; injection E as -> -> -> ->; injection E' as -> -> -> ->; done.
Qed.

Lemma step_ref i x m v : 0 ≤ i < 64 → words v → (∀ j, 0 ≤ j < 16 → zget x j = Some (m j)) →
  ∃ v', step (code_line i) x v = Done v' ∧ turned (i + 1) v' = ref_step m (turned i v) i ∧ words v'.
Proof.
  intros Hi Hv Hx. destruct (line_numbers i) as (Ek & Es & Ec). unfold step.
  rewrite Ek, Es, Ec, (load_ok _ _ (m (ref_word i))) by (apply Hx; by apply ref_word_range). cbn [mbind res_bind].
  pose proof (turned_words i v Hv) as Hw. set (l := code_line i) in *.
  assert (turned i v = (get (r1 l) v, get (r2 l) v, get (r3 l) v, get (r4 l) v)) as Et by done.
  rewrite Et in Hw. destruct Hw as (H1 & H2 & H3 & H4). rewrite (basic_ref i) by done.
  set (f := ref_fun i (get (r2 l) v) (get (r3 l) v) (get (r4 l) v)).
  replace (u32 (get (r1 l) v + u32 (u32 (f + m (ref_word i)) + sine_constant i)))
    with (u32 (get (r1 l) v + f + sine_constant i + m (ref_word i))).
  2: { unfold u32. rewrite Zplus_mod_idemp_l, Zplus_mod_idemp_r. f_equal. lia. }
  rewrite (proj1 (ROTATE_LEFT_rotl _ _ (u32_word _) (ref_shift_range i Hi))).
  eexists. split; [done|]. split.
  - unfold l. rewrite turned_set, Et. unfold ref_step. fold l. by rewrite (Z.add_comm (get (r2 l) v)).
  - pose proof (u32_word (rotl (u32 (get (r1 l) v + f + sine_constant i + m (ref_word i))) (ref_shift i) + get (r2 l) v)) as Hy.
    revert Hy. generalize (u32 (rotl (u32 (get (r1 l) v + f + sine_constant i + m (ref_word i))) (ref_shift i) + get (r2 l) v)).
    intros y Hy. destruct v as [[[va vb] vc] vd]. destruct Hv as (? & ? & ? & ?). unfold set. by case_match; split_and!.
Qed.

(** ** A block *)

Lemma ref_steps n : ∀ i x m v, 0 ≤ i → i + Z.of_nat n ≤ 64 → words v → (∀ j, 0 ≤ j < 16 → zget x j = Some (m j)) →
  ∃ v', fold_res (λ l v, step l x v) (code_line <$> seqZ i (Z.of_nat n)) v = Done v' ∧
    turned (i + Z.of_nat n) v' = foldl (ref_step m) (turned i v) (seqZ i (Z.of_nat n)) ∧ words v'.
Proof.
  induction n as [|n IH]; intros i x m v Hi Hn Hv Hx.
  - exists v. rewrite Z.add_0_r. done.
  - rewrite seqZ_cons by lia. cbn [fmap list_fmap fold_res foldl].
    destruct (step_ref i x m v ltac:(lia) Hv Hx) as (v1 & E1 & Et & Hw1). rewrite E1. cbn [mbind res_bind].
    replace (Z.pred (Z.of_nat (S n))) with (Z.of_nat n) by lia. replace (Z.succ i) with (i + 1) by lia.
    destruct (IH (i + 1) x m v1 ltac:(lia) ltac:(lia) Hw1 Hx) as (v' & E' & Et' & Hw'). exists v'.
    split_and!; [done| |done]. rewrite <-Et, <-Et'. f_equal. lia.
Qed.

Lemma turned_0 v : turned 0 v = v.
Proof. by destruct v as [[[va vb] vc] vd]. Qed.

Lemma turned_64 v : turned 64 v = v.
Proof. by destruct v as [[[va vb] vc] vd]. Qed.

Lemma rounds_ref x m v : words v → (∀ j, 0 ≤ j < 16 → zget x j = Some (m j)) →
  fold_res (λ l v, step l x v) rounds v = Done (foldl (ref_step m) v (seqZ 0 64)) ∧ words (foldl (ref_step m) v (seqZ 0 64)).
Proof.
  intros Hv Hx. rewrite rounds_table. destruct (ref_steps 64 0 x m v ltac:(done) ltac:(done) Hv Hx) as (v' & E & Et & Hw).
  change (0 + Z.of_nat 64) with 64 in Et. rewrite turned_64, turned_0 in Et. change (Z.of_nat 64) with 64 in *. by rewrite <-Et.
Qed.

Lemma four_bytes b0 b1 b2 b3 : is_byte b0 → is_byte b1 → is_byte b2 → is_byte b3 →
  Z.lor (Z.lor (Z.lor b0 (u32 (Z.shiftl b1 8))) (u32 (Z.shiftl b2 16))) (u32 (Z.shiftl b3 24)) =
  b0 + 256 * (b1 + 256 * (b2 + 256 * (b3 + 256 * 0))).
Proof.
  unfold is_byte. intros H0 H1 H2 H3.
  assert (∀ y k, 0 ≤ k ≤ 24 → 0 ≤ y < 256 → u32 (Z.shiftl y k) = Z.shiftl y k) as Hs.
  { intros y k Hk Hy. unfold u32. rewrite Z.shiftl_mul_pow2 by lia. apply Z.mod_small.
    pose proof (Z.pow_le_mono_r 2 k 24 ltac:(lia) ltac:(lia)). pose proof (Z.pow_pos_nonneg 2 k). nia. }
  rewrite !Hs by lia. rewrite !(Z.lor_comm _ (Z.shiftl _ _)).
  rewrite (lor_shiftl_add b1 b0) by lia. rewrite (lor_shiftl_add b2) by lia. rewrite (lor_shiftl_add b3) by lia. lia.
Qed.

Lemma byte_at (l : list Z) j : Forall is_byte l → 0 ≤ j < zlen l → ∃ x, zget l j = Some x ∧ is_byte x.
Proof.
  intros Hl Hj. destruct (zget_is_Some l j Hj) as [x Hx]. exists x. split; [done|].
  rewrite zget_of_lookup in Hx by lia. by eapply Forall_lookup_1.
Qed.

Lemma zslice_four (l : list Z) j x0 x1 x2 x3 : 0 ≤ j → zget l j = Some x0 → zget l (j + 1) = Some x1 →
  zget l (j + 2) = Some x2 → zget l (j + 3) = Some x3 → zslice l j 4 = [x0; x1; x2; x3].
Proof.
  intros Hj E0 E1 E2 E3. rewrite (zslice_cons l j 4 x0) by (done || lia). change (4 - 1) with 3.
  rewrite (zslice_cons l (j + 1) 3 x1) by (done || lia). change (3 - 1) with 2. replace (j + 1 + 1) with (j + 2) by lia.
  rewrite (zslice_cons l (j + 2) 2 x2) by (done || lia). change (2 - 1) with 1. replace (j + 2 + 1) with (j + 3) by lia.
  by rewrite (zslice_cons l (j + 3) 1 x3) by (done || lia).
Qed.

Lemma Decode_loop_spec l n : ∀ j, Forall is_byte l → 0 ≤ j → j + 4 * Z.of_nat n ≤ zlen l →
  ∃ ws, Decode_loop n l j = Done ws ∧ zlen ws = Z.of_nat n ∧
    ∀ i, 0 ≤ i < Z.of_nat n → zget ws i = Some (le_value (zslice l (j + 4 * i) 4)).
Proof.
  induction n as [|n IH]; intros j Hl Hj Hn; cbn [Decode_loop].
  { exists []. split_and!; [done|done|lia]. }
  destruct (byte_at l j Hl ltac:(lia)) as (x0 & E0 & B0). destruct (byte_at l (j + 1) Hl ltac:(lia)) as (x1 & E1 & B1).
  destruct (byte_at l (j + 2) Hl ltac:(lia)) as (x2 & E2 & B2). destruct (byte_at l (j + 3) Hl ltac:(lia)) as (x3 & E3 & B3).
  rewrite (load_ok _ _ _ E0), (load_ok _ _ _ E1), (load_ok _ _ _ E2), (load_ok _ _ _ E3). cbn [mbind res_bind].
  destruct (IH (j + 4) Hl ltac:(lia) ltac:(lia)) as (ws & E & Hlen & Hws). rewrite E. cbn [mbind res_bind]. rewrite four_bytes by done.
  eexists. split_and!; [done|rewrite zlen_cons; lia|]. intros i Hi. destruct (decide (i = 0)) as [->|Hne].
  - replace (j + 4 * 0) with j by lia. rewrite (zslice_four l j x0 x1 x2 x3) by done. done.
  - change (?y :: ws) with ([y] ++ ws). rewrite zget_app_r by (change (zlen [_]) with 1; lia). change (zlen [_]) with 1.
    rewrite Hws by lia. do 3 f_equal. lia.
Qed.

Definition listed (v : regs) : list Z := let '(va, vb, vc, vd) := v in [va; vb; vc; vd].

Lemma zslice_zslice {A} (l : list A) i n j k : 0 ≤ i → 0 ≤ j → 0 ≤ k → j + k ≤ n → zslice (zslice l i n) j k = zslice l (i + j) k.
Proof.
  intros. unfold zslice. rewrite skipn_firstn_comm, drop_drop, take_take. f_equal; [lia|f_equal; lia].
Qed.

Lemma MD5Transform_ref v l off : words v → Forall is_byte l → 0 ≤ off → off + 64 ≤ zlen l →
  MD5Transform (listed v) l off = Done (listed (ref_block v (zslice l off 64))) ∧ words (ref_block v (zslice l off 64)).
Proof.
  intros Hv Hl Hoff Hle. destruct v as [[[va vb] vc] vd]. unfold MD5Transform. cbn [listed].
  change (load [va; vb; vc; vd] 0) with (Done va). change (load [va; vb; vc; vd] 1) with (Done vb).
  change (load [va; vb; vc; vd] 2) with (Done vc). change (load [va; vb; vc; vd] 3) with (Done vd). cbn [mbind res_bind].
  destruct (Decode_loop_spec l 16 off Hl Hoff ltac:(lia)) as (x & E & _ & Hx). unfold Decode.
  change (Z.to_nat (64 / 4)) with 16%nat. rewrite E. cbn [mbind res_bind].
  destruct (rounds_ref x (word_of (zslice l off 64)) (va, vb, vc, vd) Hv) as [Er Hw].
  { intros j Hj. rewrite Hx by lia. unfold word_of. rewrite zslice_zslice by lia. done. }
  rewrite Er. unfold ref_block. cbn [mbind res_bind]. destruct (foldl _ _ _) as [[[wa wb] wc] wd].
  split; [done|]. split_and!; apply u32_word.
Qed.

(** * Blocks and pieces *)

Lemma copy_cells {A} (dest src : list A) pos s n :
  0 ≤ n → 0 ≤ s → s + n ≤ zlen src → 0 ≤ pos → pos + n ≤ zlen dest →
  for_up 0 n (λ i dest, x ← load src (s + i); store dest (pos + i) x) dest = Done (zwrite dest pos (zslice src s n)).
Proof.
  intros Hn Hs Hsl Hpos Hfit. apply returns_eq. eapply returns_mono.
  - apply for_up_inv with (P := λ k d, d = zwrite dest pos (zslice src s k)).
    + lia.
    + unfold zslice. change (Z.to_nat 0) with O. by rewrite take_0, zwrite_nil.
    + intros k d Hk ->. destruct (zget_is_Some src (s + k)) as [x Hx]; [lia|].
      rewrite (load_ok _ _ _ Hx). cbn [mbind res_bind].
      assert (zlen (zslice src s k) = k) as Hl by (apply zlen_zslice; lia).
      replace (pos + k) with (pos + zlen (zslice src s k)) by lia. rewrite store_zwrite by lia. cbn. f_equal.
      unfold zslice. rewrite zget_of_lookup in Hx by lia.
      replace (Z.to_nat (k + 1)) with (S (Z.to_nat k)) by lia. rewrite (take_S_r _ _ x); [done|].
      rewrite lookup_drop. rewrite <-Hx. f_equal. lia.
  - by intros d ->.
Qed.

Lemma MD5_memcpy_ok output off input ioff n :
  0 ≤ n → 0 ≤ ioff → ioff + n ≤ zlen input → 0 ≤ off → off + n ≤ zlen output →
  MD5_memcpy output off input ioff n = Done (zwrite output off (zslice input ioff n)).
Proof. intros. by apply copy_cells. Qed.

Lemma absorb_app n m v l1 l2 : length l1 = (64 * n)%nat → absorb (n + m) v (l1 ++ l2) = absorb m (absorb n v l1) l2.
Proof.
  revert v l1. induction n as [|n IH]; intros v l1 Hl.
  - apply nil_length_inv in Hl. by subst l1.
  - cbn [absorb Nat.add]. rewrite take_app_le, drop_app_le by lia. apply IH. rewrite length_drop. lia.
Qed.

Lemma absorb_one v l : length l = 64%nat → absorb 1 v l = ref_block v l.
Proof. intros Hl. cbn. by rewrite take_ge by lia. Qed.

Lemma ref_block_words v l : words (ref_block v l).
Proof. destruct v as [[[va vb] vc] vd]. unfold ref_block. destruct (foldl _ _ _) as [[[wa wb] wc] wd]. split_and!; apply u32_word. Qed.

Lemma absorb_words n : ∀ v l, words v → words (absorb n v l).
Proof. induction n as [|n IH]; intros v l Hv; [done|]. cbn. apply IH, ref_block_words. Qed.

Lemma transform_loop_ref k : ∀ fuel v input i L,
  words v → Forall is_byte input → 0 ≤ i → L ≤ zlen input → L ≤ 2 ^ 32 - 64 →
  i + 64 * Z.of_nat k ≤ L → L < i + 64 * Z.of_nat k + 64 → (k ≤ fuel)%nat →
  transform_loop fuel (listed v) input i L =
    Done (listed (absorb k v (zslice input i (64 * Z.of_nat k))), i + 64 * Z.of_nat k).
Proof.
  induction k as [|k IH]; intros fuel v input i L Hv Hin Hi HL Hmax Hk1 Hk2 Hf.
  - assert (u32 (i + 63) <? L = false) as Hc by (unfold u32; rewrite Z.mod_small by lia; lia).
    destruct fuel; cbn [transform_loop]; rewrite Hc; cbn [absorb]; do 2 f_equal; lia.
  - destruct fuel as [|fuel]; [lia|]. cbn [transform_loop].
    assert (u32 (i + 63) <? L = true) as -> by (unfold u32; rewrite Z.mod_small by lia; lia).
    destruct (MD5Transform_ref v input i Hv Hin Hi ltac:(lia)) as [E Hw]. rewrite E. cbn [mbind res_bind].
    assert (u32 (i + 64) = i + 64) as -> by (unfold u32; apply Z.mod_small; lia).
    rewrite (IH fuel) by (done || lia). cbn [absorb].
    assert (zslice input i (64 * Z.of_nat (S k)) = zslice input i 64 ++ zslice input (i + 64) (64 * Z.of_nat k)) as ->.
    { unfold zslice. replace (Z.to_nat (64 * Z.of_nat (S k))) with (64 + Z.to_nat (64 * Z.of_nat k))%nat by lia.
      rewrite <-take_take_drop. f_equal. rewrite drop_drop. do 2 f_equal. lia. }
    assert (length (zslice input i 64) = 64%nat) as Hl64.
    { pose proof (zlen_zslice input i 64 ltac:(lia) ltac:(lia) ltac:(lia)) as Hz. unfold zlen in Hz. lia. }
    rewrite take_app_length', drop_app_length' by done. do 2 f_equal. lia.
Qed.

(** ** The context after the text [msg] *)

Record digesting (context : MD5_CTX) (msg : list Z) : Prop := {
  dg_parts : ∃ n full rest, msg = full ++ rest ∧ length full = (64 * n)%nat ∧ (length rest < 64)%nat ∧
    state context = listed (absorb n initial full) ∧ take (length rest) (buffer context) = rest;
  dg_buffer : zlen (buffer context) = 64 ∧ Forall is_byte (buffer context);
  dg_count : ∃ c0 c1, count context = [c0; c1] ∧ word c0 ∧ word c1 ∧ c0 + 2 ^ 32 * c1 = (8 * zlen msg) mod 2 ^ 64 }.

Lemma initial_words : words initial.
Proof. by split_and!. Qed.

Lemma init_digesting context : zlen (buffer context) = 64 → Forall is_byte (buffer context) →
  digesting (my_md5_init context) [].
Proof.
  intros Hl Hb. split; [|done|by exists 0, 0].
  exists 0%nat, [], []. split_and!; [done|done|cbn; lia|done|done].
Qed.

Lemma buffer_index c0 c1 r len : word c0 → c0 + 2 ^ 32 * c1 = (8 * len) mod 2 ^ 64 → len mod 64 = r →
  Z.land (Z.shiftr c0 3) 63 = r.
Proof.
  intros Hc E Hr. change 63 with (2 ^ 6 - 1). rewrite land_ones_mod by lia. rewrite Z.shiftr_div_pow2 by lia.
  unfold word in Hc. change (2 ^ 3) with 8. change (2 ^ 6) with 64.
  pose proof (Z.div_mod (8 * len) (2 ^ 64) ltac:(lia)) as Hd. rewrite <-E in Hd.
  set (q := 8 * len / 2 ^ 64) in *.
  assert (c0 = 8 * (len - 2 ^ 61 * q - 2 ^ 29 * c1)) as -> by lia. rewrite Z.mul_comm, Z.div_mul by lia.
  replace (len - 2 ^ 61 * q - 2 ^ 29 * c1) with (len + (- 2 ^ 55 * q - 2 ^ 23 * c1) * 64) by lia.
  by rewrite Z.mod_add by lia.
Qed.

Lemma new_count c0 c1 len L : word c0 → word c1 → 0 ≤ L < 2 ^ 32 → c0 + 2 ^ 32 * c1 = (8 * len) mod 2 ^ 64 →
  let bits := u32 (Z.shiftl L 3) in
  let c0' := u32 (c0 + bits) in
  let c1' := u32 ((if c0' <? bits then u32 (c1 + 1) else c1) + Z.shiftr L 29) in
  c0' + 2 ^ 32 * c1' = (8 * (len + L)) mod 2 ^ 64.
Proof.
  intros H0 H1 HL E. unfold word in *. rewrite Z.shiftl_mul_pow2, Z.shiftr_div_pow2 by lia. cbn zeta.
  replace (8 * (len + L)) with (8 * len + 8 * L) by lia. rewrite <-Zplus_mod_idemp_l, <-E.
  unfold u32. change (2 ^ 3) with 8. change (2 ^ 29) with 536870912. change (2 ^ 32) with 4294967296 in *.
  change (2 ^ 64) with (4294967296 * 4294967296). set (h := L / 536870912).
  assert (0 ≤ h < 8) by (unfold h; lia).
  assert (L * 8 mod 4294967296 = 8 * L - 4294967296 * h) as Eb by (unfold h; lia). rewrite Eb.
  set (bits := 8 * L - 4294967296 * h) in *. assert (0 ≤ bits < 4294967296) by lia.
  replace (8 * L) with (bits + 4294967296 * h) by lia. clearbody bits h. clear Eb E.
  destruct ((c0 + bits) mod 4294967296 <? bits) eqn:Ec; propify; lia.
Qed.

Lemma zslice_bytes (l : list Z) i n : Forall is_byte l → Forall is_byte (zslice l i n).
Proof. intros Hl. by apply Forall_take, Forall_drop. Qed.

Lemma zwrite_bytes (l xs : list Z) i : Forall is_byte l → Forall is_byte xs → Forall is_byte (zwrite l i xs).
Proof. intros Hl Hx. unfold zwrite. rewrite !Forall_app. split_and!; [by apply Forall_take|done|by apply Forall_drop]. Qed.

(** Written behind a prefix. *)
Lemma take_zwrite_behind (l xs : list Z) n : 0 ≤ n → n + zlen xs ≤ zlen l →
  take (Z.to_nat (n + zlen xs)) (zwrite l n xs) = take (Z.to_nat n) l ++ xs.
Proof.
  intros Hn Hl. unfold zwrite. rewrite app_assoc, take_app_length'; [done|].
  rewrite length_app, length_take. unfold zlen in *. lia.
Qed.

Lemma zslice_app_slices (l : list Z) i n m : 0 ≤ i → 0 ≤ n → 0 ≤ m → zslice l i (n + m) = zslice l i n ++ zslice l (i + n) m.
Proof.
  intros. unfold zslice. replace (Z.to_nat (n + m)) with (Z.to_nat n + Z.to_nat m)%nat by lia.
  rewrite <-take_take_drop. f_equal. rewrite drop_drop. do 2 f_equal. lia.
Qed.

(** The text in the buffer is left there. *)
Lemma update_buffers context msg full rest n buf c0 c1 :
  msg = full ++ rest → length full = (64 * n)%nat → (length rest < 64)%nat →
  zlen buf = 64 → Forall is_byte buf → take (length rest) buf = rest →
  word c0 → word c1 → c0 + 2 ^ 32 * c1 = (8 * zlen msg) mod 2 ^ 64 → context = mkCtx (listed (absorb n initial full)) [c0; c1] buf →
  digesting context msg.
Proof.
  intros Em Hf Hr Hl Hb Ht H0 H1 E ->. split; [|done|by exists c0, c1]. exists n, full, rest. by split_and!.
Qed.

Lemma my_md5_update_ok fuel context msg input L :
  digesting context msg → Forall is_byte input → 0 ≤ L ≤ zlen input → L ≤ 2 ^ 32 - 64 → L ≤ 64 * Z.of_nat fuel →
  ∃ context', my_md5_update fuel context input L = Done context' ∧ digesting context' (msg ++ zslice input 0 L).
Proof.
  intros [(n & full & rest & Em & Hf & Hr & Es & Et) [Hl Hb] (c0 & c1 & Ec & H0 & H1 & Ecount)] Hin HL Hmax Hfuel.
  assert (zlen msg = 64 * Z.of_nat n + zlen rest) as Hlm by (rewrite Em, zlen_app; unfold zlen; lia).
  pose proof (buffer_index c0 c1 (zlen rest) (zlen msg) H0 Ecount ltac:(unfold zlen in *; lia)) as Hidx.
  pose proof (new_count c0 c1 (zlen msg) L H0 H1 ltac:(lia) Ecount) as Hnew. cbn zeta in Hnew.
  assert (zlen (msg ++ zslice input 0 L) = zlen msg + L) as Hlen by (rewrite zlen_app, zlen_zslice by lia; lia).
  rewrite <-Hlen in Hnew. unfold my_md5_update. rewrite Ec. change (load [c0; c1] 0) with (Done c0). change (load [c0; c1] 1) with (Done c1).
  cbn [mbind res_bind]. rewrite Hidx. set (bits := u32 (Z.shiftl L 3)) in *.
  set (c0' := u32 (c0 + bits)) in *. set (c1' := u32 ((if c0' <? bits then u32 (c1 + 1) else c1) + Z.shiftr L 29)) in *.
  assert (word c0' ∧ word c1') as [Hw0 Hw1] by (split; apply u32_word). clearbody c0' c1'. clear Hidx Ecount Ec.
  pose proof (zlen_nonneg rest) as Hr0. assert (zlen rest < 64) as Hr64 by (unfold zlen; lia).
  assert (u32 (64 - zlen rest) = 64 - zlen rest) as -> by (unfold u32; apply Z.mod_small; lia). set (part := 64 - zlen rest).
  assert (take (Z.to_nat (zlen rest)) (buffer context) = rest) as Et' by (unfold zlen; by rewrite Nat2Z.id).
  destruct (part <=? L) eqn:Ep; propify.
  - rewrite MD5_memcpy_ok by lia. cbn [mbind res_bind]. set (buf := zwrite _ _ _).
    assert (buf = rest ++ zslice input 0 part) as Ebuf.
    { unfold buf. pose proof (take_zwrite_behind (buffer context) (zslice input 0 part) (zlen rest) Hr0) as Hw.
      rewrite zlen_zslice in Hw by lia. specialize (Hw ltac:(lia)). rewrite Et' in Hw. rewrite <-Hw.
      rewrite take_ge; [done|]. pose proof (zlen_zwrite (buffer context) (zlen rest) (zslice input 0 part) Hr0) as Hz.
      rewrite zlen_zslice in Hz by lia. unfold zlen in *. lia. }
    assert (zlen buf = 64) as Hbl by (rewrite Ebuf, zlen_app, zlen_zslice by lia; lia).
    assert (Forall is_byte buf) as Hbb by (by apply zwrite_bytes, zslice_bytes).
    rewrite Es. destruct (MD5Transform_ref (absorb n initial full) buf 0 (absorb_words n _ full initial_words) Hbb ltac:(lia) ltac:(lia)) as [ET Hw].
    rewrite ET. cbn [mbind res_bind]. assert (zslice buf 0 64 = buf) as Ebz by (unfold zslice; rewrite drop_0, take_ge; [done|unfold zlen in *; lia]).
    rewrite Ebz in *. set (k := Z.to_nat ((L - part) / 64)).
    rewrite (transform_loop_ref k) by (done || lia). cbn [mbind res_bind]. set (i := part + 64 * Z.of_nat k).
    assert (u32 (L - i) = L - i) as -> by (unfold u32; apply Z.mod_small; lia).
    rewrite MD5_memcpy_ok by lia. cbn [mbind res_bind]. eexists. split; [done|].
    assert (absorb k (ref_block (absorb n initial full) buf) (zslice input part (64 * Z.of_nat k)) =
      absorb (n + (1 + k)) initial (full ++ buf ++ zslice input part (64 * Z.of_nat k))) as ->.
    { rewrite absorb_app by done. rewrite absorb_app by (unfold zlen in *; lia). by rewrite absorb_one by (unfold zlen in *; lia). }
    assert (zlen (zslice input part (64 * Z.of_nat k)) = 64 * Z.of_nat k) as Hlk by (apply zlen_zslice; lia).
    assert (zlen (zslice input i (L - i)) = L - i) as Hlr by (apply zlen_zslice; lia).
    eapply (update_buffers _ _ (full ++ buf ++ zslice input part (64 * Z.of_nat k)) (zslice input i (L - i)));
      [| | | | | |exact Hw0|exact Hw1|exact Hnew|done].
    + rewrite Em, Ebuf, <-!app_assoc. do 2 f_equal. replace L with (part + (64 * Z.of_nat k + (L - i))) at 1 by lia.
      rewrite !zslice_app_slices by lia. do 2 f_equal.
    + rewrite !length_app. unfold zlen in *. lia.
    + unfold zlen in *. lia.
    + rewrite zlen_zwrite; lia.
    + apply zwrite_bytes; [done|by apply zslice_bytes].
    + assert (length (zslice input i (L - i)) = Z.to_nat (0 + zlen (zslice input i (L - i)))) as -> by (unfold zlen; lia).
      apply (take_zwrite_behind buf (zslice input i (L - i)) 0); lia.
  - rewrite Es. cbn [mbind res_bind]. assert (u32 (L - 0) = L) as -> by (unfold u32; rewrite Z.sub_0_r; apply Z.mod_small; lia).
    assert (zlen (zslice input 0 L) = L) as Hlz by (apply zlen_zslice; lia).
    rewrite MD5_memcpy_ok by lia. cbn [mbind res_bind]. eexists. split; [done|].
    eapply (update_buffers _ _ full (rest ++ zslice input 0 L) n); [| | | | | |exact Hw0|exact Hw1|exact Hnew|done].
    + by rewrite Em, <-app_assoc.
    + done.
    + rewrite length_app. unfold zlen in *. lia.
    + rewrite zlen_zwrite; lia.
    + apply zwrite_bytes; [done|by apply zslice_bytes].
    + transitivity (take (Z.to_nat (zlen rest)) (buffer context) ++ zslice input 0 L); [|by rewrite Et'].
      rewrite <-take_zwrite_behind by lia. f_equal. rewrite length_app. unfold zlen in *. lia.
Qed.

(** ** The end of the text *)

Lemma le_bytes_4 x : le_bytes 4 x = [x mod 256; x / 256 mod 256; x / 65536 mod 256; x / 16777216 mod 256].
Proof. unfold le_bytes. cbn [seqZ Z.to_nat fmap list_fmap]. change (seqZ 0 (Z.of_nat 4)) with [0; 1; 2; 3]. cbn [fmap list_fmap]. by rewrite Z.div_1_r. Qed.

Lemma le_bytes_8 c0 c1 len : word c0 → word c1 → c0 + 2 ^ 32 * c1 = (8 * len) mod 2 ^ 64 →
  le_bytes 8 (8 * len) = le_bytes 4 c0 ++ le_bytes 4 c1.
Proof.
  unfold word. intros H0 H1 E. rewrite !le_bytes_4. unfold le_bytes. change (seqZ 0 (Z.of_nat 8)) with [0; 1; 2; 3; 4; 5; 6; 7].
  cbn [fmap list_fmap app]. set (x := 8 * len) in *. clearbody x. pose proof (Z.div_mod x (2 ^ 64) ltac:(lia)) as Hx. rewrite <-E in Hx.
  set (q := x / 2 ^ 64) in *. clearbody q. subst x. clear E.
  assert (∀ k, 0 ≤ k < 8 → (2 ^ 64 * q + (c0 + 2 ^ 32 * c1)) / 256 ^ k mod 256 = (c0 + 2 ^ 32 * c1) / 256 ^ k mod 256) as Hk.
  { intros k Hk. assert (2 ^ 64 * q = 256 ^ (8 - k) * q * 256 ^ k) as ->.
    { replace (2 ^ 64) with (256 ^ (8 - k) * 256 ^ k) by (rewrite <-Z.pow_add_r by lia; by replace (8 - k + k) with 8 by lia). lia. }
    rewrite Z.div_add_l by (apply Z.pow_nonzero; lia).
    replace (256 ^ (8 - k)) with (256 * 256 ^ (7 - k)) by (rewrite <-Z.pow_succ_r by lia; f_equal; lia).
    rewrite <-Z.mul_assoc, Z.mul_comm, Z.add_comm. by rewrite Z.mod_add. }
  rewrite !Hk by lia. clear Hk. change (2 ^ 32) with 4294967296 in *.
  change (256 ^ 0) with 1. change (256 ^ 1) with 256. change (256 ^ 2) with 65536. change (256 ^ 3) with 16777216.
  change (256 ^ 4) with 4294967296. change (256 ^ 5) with 1099511627776. change (256 ^ 6) with 281474976710656.
  change (256 ^ 7) with 72057594037927936. repeat (apply (f_equal2 cons); [lia|]). done.
Qed.

Lemma Encode_word w : word w →
  [u8 (Z.land w 0xff); u8 (Z.land (Z.shiftr w 8) 0xff); u8 (Z.land (Z.shiftr w 16) 0xff); u8 (Z.land (Z.shiftr w 24) 0xff)] = le_bytes 4 w.
Proof.
  intros Hw. rewrite le_bytes_4. change 0xff with (2 ^ 8 - 1). rewrite !land_ones_mod, !Z.shiftr_div_pow2 by lia. unfold u8.
  rewrite !Zmod_mod. done.
Qed.

Lemma Encode_two c0 c1 : word c0 → word c1 → Encode [c0; c1] 8 = Done (le_bytes 4 c0 ++ le_bytes 4 c1).
Proof. intros H0 H1. rewrite <-!Encode_word by done. done. Qed.

Lemma Encode_state v : words v → Encode (listed v) 16 =
  Done (let '(va, vb, vc, vd) := v in le_bytes 4 va ++ le_bytes 4 vb ++ le_bytes 4 vc ++ le_bytes 4 vd).
Proof. destruct v as [[[va vb] vc] vd]. intros (? & ? & ? & ?). rewrite <-!Encode_word by done. done. Qed.

Lemma le_bytes_bytes n x : Forall is_byte (le_bytes n x).
Proof. apply Forall_fmap, Forall_forall. intros i _. unfold is_byte. cbn. lia. Qed.

Lemma length_le_bytes n x : length (le_bytes n x) = n.
Proof. unfold le_bytes. rewrite length_fmap, length_seqZ. lia. Qed.

Lemma PADDING_part n : 0 < n ≤ 64 → zslice PADDING 0 n = 128 :: replicate (Z.to_nat (n - 1)) 0.
Proof.
  intros Hn. unfold zslice, PADDING. rewrite drop_0. replace (Z.to_nat n) with (S (Z.to_nat (n - 1))) by lia. cbn [take].
  rewrite take_replicate. do 2 f_equal. lia.
Qed.

Lemma PADDING_bytes : Forall is_byte PADDING.
Proof. constructor; [done|]. apply Forall_replicate. done. Qed.

Lemma digesting_whole context msg : digesting context msg → zlen msg mod 64 = 0 →
  state context = listed (absorb (length msg / 64) initial msg).
Proof.
  intros [(n & full & rest & Em & Hf & Hr & Es & _) _ _] Hm. rewrite Es.
  assert (rest = []) as ->. { apply nil_length_inv. rewrite Em, zlen_app in Hm. unfold zlen in Hm. lia. }
  rewrite app_nil_r in Em. subst full. rewrite Hf, Nat.mul_comm, Nat.div_mul by lia. done.
Qed.

Lemma my_md5_final_ok fuel context msg : digesting context msg → (1 ≤ fuel)%nat →
  my_md5_final fuel context = Done (md5 msg, mkCtx (replicate 4 0) (replicate 2 0) (replicate 64 0)).
Proof.
  intros HD Hf. pose proof HD as [_ _ (c0 & c1 & Ec & H0 & H1 & Ecount)]. unfold my_md5_final. rewrite Ec, Encode_two by done.
  change (load [c0; c1] 0) with (Done c0). cbn [mbind res_bind].
  rewrite (buffer_index c0 c1 (zlen msg mod 64) (zlen msg)) by done.
  set (pad := if zlen msg mod 64 <? 56 then _ else _).
  assert (0 < pad ≤ 64 ∧ pad - 1 = (55 - zlen msg) mod 64) as [Hp Epad] by (unfold pad; case_if; lia).

  destruct (my_md5_update_ok fuel context msg PADDING pad HD PADDING_bytes) as (ctx1 & E1 & HD1); [change (zlen PADDING) with 64; lia|lia|lia|].
  rewrite E1. cbn [mbind res_bind]. rewrite PADDING_part, Epad in HD1 by done. rewrite <-(le_bytes_8 c0 c1 (zlen msg)) by done.
  set (bits := le_bytes 8 (8 * zlen msg)). assert (zlen bits = 8) as Hbl by (unfold zlen, bits; by rewrite length_le_bytes).
  destruct (my_md5_update_ok fuel ctx1 _ bits 8 HD1 (le_bytes_bytes _ _)) as (ctx2 & E2 & HD2); [lia|lia|lia|].
  rewrite E2. cbn [mbind res_bind]. assert (zslice bits 0 8 = bits) as Ez.
  { unfold zslice. rewrite drop_0. apply take_ge. unfold zlen in Hbl. lia. }
  rewrite Ez, <-app_assoc in HD2. cbn [app] in HD2. fold (padded msg) in HD2.
  assert (zlen (padded msg) mod 64 = 0) as Hpm.
  { unfold padded. rewrite !zlen_app, zlen_replicate. change (zlen [128]) with 1. fold bits. rewrite Hbl. lia. }
  rewrite (digesting_whole _ _ HD2 Hpm), Encode_state by (apply absorb_words, initial_words). done.
Qed.

Lemma file_loop_ok fuel pieces : ∀ context msg, digesting context msg → Forall (Forall is_byte) pieces →
  Forall (λ p, zlen p ≤ 2 ^ 32 - 64 ∧ zlen p ≤ 64 * Z.of_nat fuel) pieces →
  ∃ context', file_loop fuel context pieces = Done context' ∧ digesting context' (msg ++ concat pieces).
Proof.
  induction pieces as [|p ps IH]; intros context msg HD HB HL; cbn [file_loop concat].
  - exists context. by rewrite app_nil_r.
  - rewrite Forall_cons in HB. rewrite Forall_cons in HL. destruct HB as [Hp HB], HL as [[Hl1 Hl2] HL]. pose proof (zlen_nonneg p).
    destruct (my_md5_update_ok fuel context msg p (zlen p) HD Hp ltac:(lia) Hl1 Hl2) as (c1 & E & HD1).
    rewrite E. cbn [mbind res_bind]. assert (zslice p 0 (zlen p) = p) as Ep.
    { unfold zslice, zlen. rewrite drop_0, Nat2Z.id. by apply take_ge. }
    rewrite Ep in HD1. destruct (IH c1 _ HD1 HB HL) as (c2 & E2 & HD2). exists c2. by rewrite <-app_assoc in HD2.
Qed.

(** An uninitialised context. *)
Definition raw (context : MD5_CTX) : Prop := zlen (buffer context) = 64 ∧ Forall is_byte (buffer context).

Lemma my_md5_buffer_ok fuel context buf len :
  raw context → Forall is_byte buf → 0 ≤ len ≤ zlen buf → len ≤ 2 ^ 32 - 64 → len ≤ 64 * Z.of_nat fuel → (1 ≤ fuel)%nat →
  my_md5_buffer fuel context buf len = Done (md5 (zslice buf 0 len)).
Proof.
  intros [Hl Hb] HB Hlen Hmax Hfuel Hf. unfold my_md5_buffer.
  destruct (my_md5_update_ok fuel _ [] buf len (init_digesting context Hl Hb) HB Hlen Hmax Hfuel) as (c1 & E & HD).
  rewrite E. cbn [mbind res_bind]. by rewrite (my_md5_final_ok fuel c1 (zslice buf 0 len)).
Qed.

Lemma strlen_ok text rest : Forall (λ x, x ≠ 0) text → strlen (text ++ 0 :: rest) = Done (zlen text).
Proof.
  induction 1 as [|x text Hx Ht IH]; [done|]. cbn [app strlen]. apply Z.eqb_neq in Hx. rewrite Hx, IH. cbn [mbind res_bind].
  by rewrite zlen_cons.
Qed.

(** ** Past the end of the input *)

Lemma load_cases {A} (l : list A) i : load l i = Undef ∨ ∃ x, load l i = Done x.
Proof. unfold load. destruct (zget l i) as [x|]; [right; by exists x|by left]. Qed.

Lemma Decode_loop_past n : ∀ l j, 0 ≤ j → n ≠ O → zlen l < j + 4 * Z.of_nat n → Decode_loop n l j = Undef.
Proof.
  induction n as [|n IH]; intros l j Hj Hn Hl; [done|]. cbn [Decode_loop].
  destruct (decide (j + 4 ≤ zlen l)) as [Hin|Hout].
  - rewrite IH by lia. destruct (load_cases l j) as [->|[? ->]], (load_cases l (j + 1)) as [->|[? ->]],
      (load_cases l (j + 2)) as [->|[? ->]], (load_cases l (j + 3)) as [->|[? ->]]; done.
  - rewrite (load_oob l (j + 3)) by lia. destruct (load_cases l j) as [->|[? ->]], (load_cases l (j + 1)) as [->|[? ->]],
      (load_cases l (j + 2)) as [->|[? ->]]; done.
Qed.

Lemma MD5Transform_past v l off : 0 ≤ off → zlen l < off + 64 → MD5Transform (listed v) l off = Undef.
Proof.
  intros Hoff Hl. destruct v as [[[va vb] vc] vd]. unfold MD5Transform, Decode. change (Z.to_nat (64 / 4)) with 16%nat.
  rewrite (Decode_loop_past 16) by (done || lia). done.
Qed.

(** With ten bytes used before, the last index computed for an input of the
    greatest length is less than 64 before the end, but its sum with 63 wraps. *)
Lemma transform_loop_past k : ∀ fuel v input i, words v → Forall is_byte input → zlen input = 2 ^ 32 - 1 →
  0 ≤ i → i + 64 * Z.of_nat k = 2 ^ 32 - 54 → (k < fuel)%nat →
  transform_loop fuel (listed v) input i (2 ^ 32 - 1) = Undef.
Proof.
  induction k as [|k IH]; intros fuel v input i Hv Hin Hl Hi Hk Hf; (destruct fuel as [|fuel]; [lia|]); cbn [transform_loop].
  - assert (u32 (i + 63) <? 2 ^ 32 - 1 = true) as -> by (replace i with (2 ^ 32 - 54) by lia; done).
    by rewrite MD5Transform_past by lia.
  - assert (u32 (i + 63) <? 2 ^ 32 - 1 = true) as -> by (unfold u32; rewrite Z.mod_small by lia; lia).
    destruct (MD5Transform_ref v input i Hv Hin Hi ltac:(lia)) as [E Hw]. rewrite E. cbn [mbind res_bind].
    assert (u32 (i + 64) = i + 64) as -> by (unfold u32; apply Z.mod_small; lia). apply IH; (done || lia).
Qed.

(** * Properties *)

(** C34. Whatever pieces a file is read in, its digest is the MD5 digest of the whole
    text. The lengths of the pieces are anything up
    to 64 less than 2^32; the number of bits is counted modulo 2^64. *)
Theorem my_md5_file_correct fuel context pieces :
  raw context → Forall (Forall is_byte) pieces → Forall (λ p, zlen p ≤ 2 ^ 32 - 64 ∧ zlen p ≤ 64 * Z.of_nat fuel) pieces →
  (1 ≤ fuel)%nat →
  my_md5_file fuel context (Some pieces) = Done (0, md5 (concat pieces)).
Proof.
  intros [Hl Hb] HB HL Hf. unfold my_md5_file.
  destruct (file_loop_ok fuel pieces _ [] (init_digesting context Hl Hb) HB HL) as (c1 & E & HD).
  rewrite E. cbn [mbind res_bind]. by rewrite (my_md5_final_ok fuel c1 (concat pieces)).
Qed.

(** The digest of a C string is that of its characters before the terminator. *)
Theorem my_md5_string_correct fuel context text rest :
  raw context → Forall is_byte (text ++ 0 :: rest) → Forall (λ x, x ≠ 0) text →
  zlen text ≤ 2 ^ 32 - 64 → zlen text ≤ 64 * Z.of_nat fuel → (1 ≤ fuel)%nat →
  my_md5_string fuel context (text ++ 0 :: rest) = Done (md5 text).
Proof.
  intros Hraw HB Ht Hmax Hfuel Hf. unfold my_md5_string. rewrite strlen_ok by done. cbn [mbind res_bind]. pose proof (zlen_nonneg text).
  assert (u32 (zlen text) = zlen text) as -> by (unfold u32; apply Z.mod_small; lia).
  rewrite my_md5_buffer_ok; [|done|done|rewrite zlen_app, zlen_cons; pose proof (zlen_nonneg rest); lia|lia|lia|done].
  do 2 f_equal. unfold zslice, zlen. rewrite drop_0, Nat2Z.id. apply take_app_length.
Qed.

(** An update of 2^32 - 1 bytes after 54 reads behind its input: the sum in the
    loop's condition wraps around. *)
Theorem my_md5_update_overruns fuel context msg input :
  digesting context msg → zlen msg mod 64 = 54 → Forall is_byte input → zlen input = 2 ^ 32 - 1 → 2 ^ 26 ≤ Z.of_nat fuel →
  my_md5_update fuel context input (zlen input) = Undef.
Proof.
  intros [(n & full & rest & Em & Hf & Hr & Es & Et) [Hl Hb] (c0 & c1 & Ec & H0 & H1 & Ecount)] Hm Hin HL Hfuel.
  unfold my_md5_update. rewrite Ec, Es, HL. change (load [c0; c1] 0) with (Done c0). change (load [c0; c1] 1) with (Done c1).
  cbn [mbind res_bind]. rewrite (buffer_index c0 c1 54 (zlen msg)) by done.
  change (u32 (64 - 54)) with 10. change (10 <=? 2 ^ 32 - 1) with true. cbv beta iota.
  rewrite MD5_memcpy_ok by lia. cbn [mbind res_bind]. set (buf := zwrite _ _ _).
  assert (zlen (zslice input 0 10) = 10) as Hz by (apply zlen_zslice; lia).
  destruct (MD5Transform_ref (absorb n initial full) buf 0 (absorb_words n _ full initial_words)) as [ET Hw].
  { by apply zwrite_bytes, zslice_bytes. }
  { lia. }
  { unfold buf. rewrite zlen_zwrite; lia. }
  rewrite ET. cbn [mbind res_bind].
  assert (∃ k, Z.of_nat k = 2 ^ 26 - 1) as [k Hk] by (exists (Z.to_nat (2 ^ 26 - 1)); lia).
  rewrite (transform_loop_past k); [done|done|done|done|lia|lia|lia].
Qed.

(** * Witnesses *)

Lemma my_md5_file_correct_witness :
  raw (mkCtx [] [] (replicate 64 7)) ∧
  my_md5_file 2 (mkCtx [] [] (replicate 64 7)) (Some [[97]; [98; 99]]) = Done (0, md5 [97; 98; 99]).
Proof.
  assert (raw (mkCtx [] [] (replicate 64 7))) as Hr by (split; [done|by apply Forall_replicate]).
  split; [exact Hr|]. apply (my_md5_file_correct 2 _ [[97]; [98; 99]]); [exact Hr| | |lia].
  - repeat constructor; unfold is_byte; lia.
  - repeat constructor; by vm_compute.
Defined.

Lemma my_md5_string_correct_witness :
  my_md5_string 2 (mkCtx [] [] (replicate 64 7)) [97; 98; 99; 0; 5] = Done (md5 [97; 98; 99]).
Proof.
  apply (my_md5_string_correct 2 _ [97; 98; 99] [5]); [split; [done|by apply Forall_replicate]| | |by vm_compute|by vm_compute|lia].
  - repeat (constructor; [unfold is_byte; lia|]). constructor.
  - repeat (constructor; [lia|]). constructor.
Defined.
