(* ===== verification/FastTimer.v ===== *)
(** libs/fastcommon/src/fast_timer.c: a time wheel.

    Entries and the heads of the slots are objects in a store; an address is a
    number, 0 is NULL, and the head of slot i is at the address of the array plus i.
    The timer's own fields are passed along. *)
From S2P Require Import Prelude.

(** * Code *)

Record FastTimerEntry := mkEntry { expires : Z; data : Z; prev : Z; next : Z; rehash : bool }.

Abbreviation store := (gmap Z FastTimerEntry).

Record FastTimer := mkTimer { slot_count : Z; base_time : Z; current_time : Z; slots : Z }.

(** An [int64_t] operation. *)
Definition clong (z : Z) : res Z := if (- 2 ^ 63 <=? z) && (z <? 2 ^ 63) then Done z else Undef.

Definition at_ (s : store) (a : Z) : res FastTimerEntry := of_opt (s !! a).

(** Stores to single fields. *)
Definition set_next (a x : Z) (s : store) : res store :=
  e ← at_ s a; mret (<[a := mkEntry (expires e) (data e) (prev e) x (rehash e)]> s).
Definition set_prev (a x : Z) (s : store) : res store :=
  e ← at_ s a; mret (<[a := mkEntry (expires e) (data e) x (next e) (rehash e)]> s).
Definition set_expires (a x : Z) (s : store) : res store :=
  e ← at_ s a; mret (<[a := mkEntry x (data e) (prev e) (next e) (rehash e)]> s).
Definition set_rehash (a : Z) (x : bool) (s : store) : res store :=
  e ← at_ s a; mret (<[a := mkEntry (expires e) (data e) (prev e) (next e) x]> s).

Definition EINVAL : Z := 22.
Definition ENOENT : Z := 2.
Definition ENOMEM : Z := 12.

Definition sizeof_slot : Z := 40.
Definition zero_entry : FastTimerEntry := mkEntry 0 0 0 0 false.

(** The block of [bytes] bytes at [a], cleared: as many heads as fit into it. *)
Definition clear_slots (a bytes : Z) (s : store) : store :=
  foldr (λ i s, <[a + i := zero_entry]> s) s (seqZ 0 (bytes / sizeof_slot)).

(** [malloc] says what a request for so many bytes gives; [errno] is what it leaves. *)
Definition fast_timer_init (malloc : Z → option Z) (errno : Z) (timer : FastTimer) (slot_count current_time : Z) (s : store) :
    Z * FastTimer * store :=
  if (slot_count <=? 0) || (current_time <=? 0) then (EINVAL, timer, s) else
  let bytes := sext 32 (u64 (sizeof_slot * slot_count)) in
  match malloc (u64 bytes) with
  | None => (if errno =? 0 then ENOMEM else errno, mkTimer slot_count current_time current_time 0, s)
  | Some a => (0, mkTimer slot_count current_time current_time a, clear_slots a bytes s)
  end.

(** The array is gone. *)
Definition fast_timer_destroy (timer : FastTimer) (s : store) : FastTimer * store :=
  if slots timer =? 0 then (timer, s)
  else (mkTimer (slot_count timer) (base_time timer) (current_time timer) 0,
        foldr (λ i s, delete (slots timer + i) s) s (seqZ 0 (slot_count timer))).

Definition TIMER_GET_SLOT_INDEX (timer : FastTimer) (expires : Z) : res Z :=
  d ← clong (expires - base_time timer);
  if slot_count timer =? 0 then Undef else mret (Z.rem d (slot_count timer)).

Definition TIMER_GET_SLOT_POINTER (timer : FastTimer) (expires : Z) : res Z :=
  i ← TIMER_GET_SLOT_INDEX timer expires; mret (slots timer + i).

Definition fast_timer_add (timer : FastTimer) (entry : Z) (s : store) : res (Z * store) :=
  e ← at_ s entry;
  slot ← TIMER_GET_SLOT_POINTER timer (if current_time timer <? expires e then expires e else current_time timer);
  h ← at_ s slot;
  s ← set_next entry (next h) s;
  h ← at_ s slot;
  s ← (if negb (next h =? 0) then set_prev (next h) entry s else mret s);
  s ← set_prev entry slot s;
  s ← set_next slot entry s;
  s ← set_rehash entry false s;
  mret (0, s).

Definition fast_timer_remove (entry : Z) (s : store) : res (Z * store) :=
  e ← at_ s entry;
  if prev e =? 0 then mret (ENOENT, s) else
  s ← (if negb (next e =? 0) then
         s ← set_prev (next e) (prev e) s;
         e ← at_ s entry;
         s ← set_next (prev e) (next e) s;
         set_next entry 0 s
       else set_next (prev e) 0 s);
  s ← set_prev entry 0 s;
  mret (0, s).

Definition fast_timer_modify (timer : FastTimer) (entry new_expires : Z) (s : store) : res (Z * store) :=
  e ← at_ s entry;
  if new_expires =? expires e then mret (0, s)
  else if new_expires <? expires e then
    '(_, s) ← fast_timer_remove entry s;
    s ← set_expires entry new_expires s;
    fast_timer_add timer entry s
  else
    i ← TIMER_GET_SLOT_INDEX timer new_expires;
    j ← TIMER_GET_SLOT_INDEX timer (expires e);
    s ← set_rehash entry (negb (i =? j)) s;
    s ← set_expires entry new_expires s;
    mret (0, s).

(** The slot to look at, 0 if the time has not come, and the timer. *)
Definition fast_timer_slot_get (timer : FastTimer) (time : Z) : res (Z * FastTimer) :=
  if time <=? current_time timer then mret (0, timer) else
  slot ← TIMER_GET_SLOT_POINTER timer (current_time timer);
  mret (slot, mkTimer (slot_count timer) (base_time timer) (current_time timer + 1) (slots timer)).

(** The locals [first], [last], [tail] and [count]. *)
Record walk := mkWalk { first : Z; last : Z; tail : Z; count : Z }.

(** The run from [first] to [last] goes from its slot behind [tail]; [entry] follows it. *)
Definition move_run (w : walk) (entry : Z) (s : store) : res (walk * store) :=
  f ← at_ s (first w);
  s ← set_next (prev f) entry s;
  f ← at_ s (first w);
  s ← (if negb (entry =? 0) then set_prev entry (prev f) s else mret s);
  s ← set_next (tail w) (first w) s;
  s ← set_prev (first w) (tail w) s;
  mret (mkWalk 0 (last w) (last w) (count w), s).

(** The loop over a slot; [fuel] bounds its length. *)
Fixpoint slot_loop (fuel : nat) (timer : FastTimer) (time : Z) (w : walk) (entry : Z) (s : store) : res (walk * store) :=
  if entry =? 0 then mret (w, s) else
  match fuel with
  | O => OutOfFuel
  | S fuel =>
      e ← at_ s entry;
      if time <=? expires e then
        '(w, s) ← (if negb (first w =? 0) then move_run w entry s else mret (w, s));
        e ← at_ s entry;
        if rehash e then
          let last := entry in
          let entry := next e in
          s ← set_rehash last false s;
          '(_, s) ← fast_timer_remove last s;
          '(_, s) ← fast_timer_add timer last s;
          slot_loop fuel timer time (mkWalk (first w) last (tail w) (count w)) entry s
        else slot_loop fuel timer time (mkWalk (first w) entry (tail w) (count w)) (next e) s
      else
        c ← cint (count w + 1);
        slot_loop fuel timer time (mkWalk (if first w =? 0 then entry else first w) entry (tail w) c) (next e) s
  end.

(** The loop over the times, [n] of them. *)
Fixpoint time_loop (n : nat) (timer : FastTimer) (time : Z) (w : walk) (s : store) : res (FastTimer * walk * store) :=
  match n with
  | O => mret (timer, w, s)
  | S n =>
      slot ← TIMER_GET_SLOT_POINTER timer (current_time timer);
      let timer := mkTimer (slot_count timer) (base_time timer) (current_time timer + 1) (slots timer) in
      h ← at_ s slot;
      '(w, s) ← slot_loop (size s) timer time w (next h) s;
      '(w, s) ← (if negb (first w =? 0) then move_run w 0 s else mret (w, s));
      time_loop n timer time w s
  end.

(** The number of entries put into the list at [head]. *)
Definition fast_timer_timeouts_get (timer : FastTimer) (time : Z) (head : Z) (s : store) : res (Z * FastTimer * store) :=
  s ← set_prev head 0 s;
  s ← set_next head 0 s;
  if time <=? current_time timer then mret (0, timer, s) else
  '(timer, w, s) ← time_loop (Z.to_nat (time - current_time timer)) timer time (mkWalk 0 0 head 0) s;
  s ← (if 0 <? count w then set_next (tail w) 0 s else mret s);
  mret (count w, timer, s).

(** * Linked lists *)

Definition nxt (s : store) : gmap Z Z := next <$> s.
Definition prv (s : store) : gmap Z Z := prev <$> s.
(** The other fields. *)
Definition info (s : store) : gmap Z (Z * Z * bool) := (λ e, (expires e, data e, rehash e)) <$> s.

Implicit Types (N P : gmap Z Z) (l : list Z).

(** From [a] through the nodes [l], the last of which (or [a]) goes on to [z]. *)
Fixpoint linked N P (a : Z) l (z : Z) : Prop :=
  match l with
  | [] => N !! a = Some z
  | x :: l => N !! a = Some x ∧ P !! x = Some a ∧ linked N P x l z
  end.

Fixpoint lst (a : Z) l : Z := match l with [] => a | x :: l => lst x l end.

Lemma lst_in a l : lst a l ∈ a :: l.
Proof. revert a. induction l as [|x l IH]; intros a; [by left|]. right. apply IH. Qed.

Lemma lst_app a l x k : lst a (l ++ x :: k) = lst x k.
Proof. revert a. induction l as [|y l IH]; intros a; [done|apply IH]. Qed.

Lemma linked_split N P a l x k z :
  linked N P a (l ++ x :: k) z ↔ linked N P a l x ∧ P !! x = Some (lst a l) ∧ linked N P x k z.
Proof. revert a. induction l as [|y l IH]; intros a; cbn; [done|]. rewrite IH. tauto. Qed.

Lemma linked_next N P a l z b x : b ∉ a :: l → linked N P a l z → linked (<[b := x]> N) P a l z.
Proof.
  revert a. induction l as [|y l IH]; intros a Hb; cbn; rewrite lookup_insert_ne by set_solver; [done|].
  intros (? & ? & ?). split_and!; [done..|]. apply IH; [set_solver|done].
Qed.

Lemma linked_prev N P a l z b x : b ∉ l → linked N P a l z → linked N (<[b := x]> P) a l z.
Proof.
  revert a. induction l as [|y l IH]; intros a Hb; cbn; [done|]. rewrite lookup_insert_ne by set_solver.
  intros (? & ? & ?). split_and!; [done..|]. apply IH; [set_solver|done].
Qed.

Lemma linked_end N P a l z b x : NoDup (a :: l) → b = lst a l → linked N P a l z → linked (<[b := x]> N) P a l x.
Proof.
  intros Hnd ->. revert a Hnd. induction l as [|y l IH]; intros a Hnd; cbn [linked lst].
  - intros _. apply lookup_insert_eq.
  - intros (? & ? & ?). apply NoDup_cons in Hnd as [Ha Hnd]. rewrite lookup_insert_ne; [|intros <-; apply Ha, lst_in]. by split_and!; [..|apply IH].
Qed.

Lemma linked_last N P a l z : linked N P a l z → N !! lst a l = Some z.
Proof. revert a. induction l as [|y l IH]; intros a; cbn; [done|]. intros (_ & _ & ?). by apply IH. Qed.

(** A state of all lists: head, nodes and where the last one goes on to. *)
Definition path : Type := Z * list Z * Z.

Definition nodes (Ls : list path) : list Z := Ls ≫= λ '(h, l, z), h :: l.

Record good N P (Ls : list path) : Prop := {
  g_linked : ∀ h l z, (h, l, z) ∈ Ls → linked N P h l z;
  g_nodup : NoDup (nodes Ls);
  g_null : 0 ∉ nodes Ls }.

#[global] Instance good_proper N P : Proper ((≡ₚ) ==> iff) (good N P).
Proof.
  assert (∀ Ls Ls', Ls ≡ₚ Ls' → good N P Ls → good N P Ls') as H.
  { intros Ls Ls' E [H1 H2 H3]. split.
    - intros h l z Hin. apply H1. by rewrite E.
    - unfold nodes in *. by rewrite <-E.
    - unfold nodes in *. by rewrite <-E. }
  intros Ls Ls' E. split; by apply H.
Qed.

Lemma good_cons N P h l z Ls : good N P ((h, l, z) :: Ls) ↔
  linked N P h l z ∧ good N P Ls ∧ NoDup (h :: l) ∧ 0 ∉ h :: l ∧ (∀ x, x ∈ h :: l → x ∉ nodes Ls).
Proof.
  assert (nodes ((h, l, z) :: Ls) = (h :: l) ++ nodes Ls) as E by done. split.
  - intros [H1 H2 H3]. rewrite E in *. apply NoDup_app in H2 as (H2 & H4 & H5). rewrite elem_of_app in H3.
    split_and!; [apply H1; by left| |done|tauto|done]. split; [|done|tauto]. intros h' l' z' Hin. apply H1. by right.
  - intros (H1 & [H2 H3 H4] & H5 & H6 & H7). split.
    + intros h' l' z' [[= -> -> ->]|Hin]%elem_of_cons; [done|by apply H2].
    + rewrite E. apply NoDup_app. by split_and!.
    + rewrite E, elem_of_app. tauto.
Qed.

Lemma good_nil N P : good N P [].
Proof. split; [by intros h l z Hin%elem_of_nil|apply NoDup_nil_2|apply not_elem_of_nil]. Qed.

(** Lists that a store does not touch. *)
Lemma good_next N P Ls b x : b ∉ nodes Ls → good N P Ls → good (<[b := x]> N) P Ls.
Proof.
  intros Hb [H1 H2 H3]. split; [|done..]. intros h l z Hin. apply linked_next; [|by apply H1].
  intros Hin'. apply Hb. unfold nodes. apply list_elem_of_bind. by exists (h, l, z).
Qed.

Lemma good_prev N P Ls b x : b ∉ nodes Ls → good N P Ls → good N (<[b := x]> P) Ls.
Proof.
  intros Hb [H1 H2 H3]. split; [|done..]. intros h l z Hin. apply linked_prev; [|by apply H1].
  intros Hin'. apply Hb. unfold nodes. apply list_elem_of_bind. exists (h, l, z). split; [by right|done].
Qed.

(** ** The stores *)

Lemma at_ok s a e : s !! a = Some e → at_ s a = Done e.
Proof. unfold at_. by intros ->. Qed.

Lemma nxt_lookup s a x : nxt s !! a = Some x → ∃ e, s !! a = Some e ∧ next e = x.
Proof. unfold nxt. rewrite lookup_fmap, fmap_Some. intros (e & ? & ->). by exists e. Qed.

Lemma prv_lookup s a x : prv s !! a = Some x → ∃ e, s !! a = Some e ∧ prev e = x.
Proof. unfold prv. rewrite lookup_fmap, fmap_Some. intros (e & ? & ->). by exists e. Qed.

(** What a sequence of stores to links leaves. *)
Definition relinked (s s' : store) N P : Prop := nxt s' = N ∧ prv s' = P ∧ info s' = info s ∧ dom s' = dom s.

Lemma relinked_refl s : relinked s s (nxt s) (prv s).
Proof. done. Qed.

Lemma relinked_dom s s' N P a : relinked s s' N P → a ∈ dom s → ∃ e, s' !! a = Some e ∧ N !! a = Some (next e) ∧ P !! a = Some (prev e).
Proof.
  intros (<- & <- & _ & E) Ha. rewrite <-E in Ha. apply elem_of_dom in Ha as [e He]. exists e. unfold nxt, prv. by rewrite !lookup_fmap, He.
Qed.

Section stores.
Context {A : Type} (s : store).
Implicit Types (Q : A → Prop).

Lemma step_at s1 N P a (k : FastTimerEntry → res A) Q :
  relinked s s1 N P → a ∈ dom s →
  (∀ e, s1 !! a = Some e → N !! a = Some (next e) → P !! a = Some (prev e) → returns (k e) Q) → returns (at_ s1 a ≫= k) Q.
Proof. intros HR Ha Hk. destruct (relinked_dom _ _ _ _ a HR Ha) as (e & He & HN & HP). rewrite (at_ok _ _ _ He). by apply Hk. Qed.

Lemma step_set_next s1 N P a x (k : store → res A) Q :
  relinked s s1 N P → a ∈ dom s → (∀ s2, relinked s s2 (<[a := x]> N) P → returns (k s2) Q) → returns (set_next a x s1 ≫= k) Q.
Proof.
  intros HR Ha Hk. destruct (relinked_dom _ _ _ _ a HR Ha) as (e & He & _ & _). destruct HR as (<- & <- & Ei & Ed).
  unfold set_next. rewrite (at_ok _ _ _ He). cbn [mbind res_bind]. apply Hk. unfold relinked, nxt, prv, info in *. rewrite !fmap_insert, <-Ei, <-Ed. cbn.
  split_and!; [done|apply insert_id; by rewrite lookup_fmap, He..|]. rewrite dom_insert_L. apply elem_of_dom_2 in He. set_solver.
Qed.

Lemma step_set_prev s1 N P a x (k : store → res A) Q :
  relinked s s1 N P → a ∈ dom s → (∀ s2, relinked s s2 N (<[a := x]> P) → returns (k s2) Q) → returns (set_prev a x s1 ≫= k) Q.
Proof.
  intros HR Ha Hk. destruct (relinked_dom _ _ _ _ a HR Ha) as (e & He & _ & _). destruct HR as (<- & <- & Ei & Ed).
  unfold set_prev. rewrite (at_ok _ _ _ He). cbn [mbind res_bind]. apply Hk. unfold relinked, nxt, prv, info in *. rewrite !fmap_insert, <-Ei, <-Ed. cbn.
  split_and!; [apply insert_id; by rewrite lookup_fmap, He|done|apply insert_id; by rewrite lookup_fmap, He|]. rewrite dom_insert_L. apply elem_of_dom_2 in He. set_solver.
Qed.
End stores.

(** Every node is an object. *)
Definition within (s : store) (Ls : list path) : Prop := ∀ x, x ∈ nodes Ls → x ∈ dom s.

Lemma res_assoc {A B C} (m : res A) (f : A → res B) (g : B → res C) : ((m ≫= f) ≫= g) = (m ≫= λ x, f x ≫= g).
Proof. by destruct m. Qed.

(** [set_rehash] changes one flag. *)
Lemma set_rehash_ok s a e x : s !! a = Some e → ∃ s', set_rehash a x s = Done s' ∧
  nxt s' = nxt s ∧ prv s' = prv s ∧ dom s' = dom s ∧ info s' = <[a := (expires e, data e, x)]> (info s).
Proof.
  intros He. unfold set_rehash. rewrite (at_ok s a e He). eexists. split; [done|]. unfold nxt, prv, info. rewrite !fmap_insert. cbn.
  split_and!; [apply insert_id; by rewrite lookup_fmap, He..| |done]. rewrite dom_insert_L. apply elem_of_dom_2 in He. set_solver.
Qed.

Lemma info_lookup s a e : s !! a = Some e → info s !! a = Some (expires e, data e, rehash e).
Proof. intros He. unfold info. by rewrite lookup_fmap, He. Qed.

Lemma info_entry s a x d r : info s !! a = Some (x, d, r) → ∃ e, s !! a = Some e ∧ expires e = x ∧ data e = d ∧ rehash e = r.
Proof. unfold info. rewrite lookup_fmap, fmap_Some. intros (e & He & [= -> -> ->]). by exists e. Qed.

Section list_operations.
Context {A : Type}.
Implicit Types (Q : A → Prop) (timer : FastTimer).

(** Adding at the front of a slot. *)
Lemma step_add timer s h l Ls x e d r (k : Z * store → res A) Q :
  good (nxt s) (prv s) ((h, l, 0) :: Ls) → within s ((h, l, 0) :: Ls) → info s !! x = Some (e, d, r) → x ≠ 0 → x ∉ nodes ((h, l, 0) :: Ls) →
  TIMER_GET_SLOT_POINTER timer (Z.max e (current_time timer)) = Done h →
  (∀ s', good (nxt s') (prv s') ((h, x :: l, 0) :: Ls) → dom s' = dom s → info s' = <[x := (e, d, false)]> (info s) → returns (k (0, s')) Q) →
  returns (fast_timer_add timer x s ≫= k) Q.
Proof.
  intros HG HW Hx Hx0 Hnin Hslot Hk. apply info_entry in Hx as (ex & Hx & <- & <- & <-).
  pose proof (elem_of_dom_2 _ _ _ Hx) as Hxd. assert (h ∈ dom s) as Hhd by (apply HW; by left).
  pose proof (proj1 (good_cons _ _ _ _ _ _) HG) as (Hl & HG' & Hnd & Hz & Hdis).
  assert (x ∉ h :: l ∧ x ∉ nodes Ls) as [Hx1 Hx2] by (change (nodes ((h, l, 0) :: Ls)) with ((h :: l) ++ nodes Ls) in Hnin; set_solver).
  unfold fast_timer_add. rewrite (at_ok s x ex Hx), res_assoc. cbn [mbind res_bind].
  assert ((if current_time timer <? expires ex then expires ex else current_time timer) = Z.max (expires ex) (current_time timer)) as ->.
  { destruct (Z.ltb_spec (current_time timer) (expires ex)); lia. }
  rewrite Hslot. cbn [mbind res_bind].
  pose proof (relinked_refl s) as HR. set (N := nxt s) in *. set (P := prv s) in *.
  rewrite res_assoc. eapply (step_at s s N P h); [eassumption|done|]. intros eh Heh HNh HPh.
  rewrite res_assoc. eapply (step_set_next s s N P x); [eassumption|done|]. intros s1 HR1.
  rewrite res_assoc. eapply (step_at s s1 _ P h); [eassumption|done|]. intros eh' Heh' HNh' _.
  rewrite lookup_insert_ne, HNh in HNh' by set_solver. injection HNh' as HNh'. rewrite <-HNh'.
  set (y := next eh) in *.
  (* the old first entry's link back *)
  assert (∃ P', (P' = P ∧ y = 0 ∨ P' = <[y := x]> P ∧ y ≠ 0 ∧ ∃ l', l = y :: l') ∧
    (∀ k' : store → res A, (∀ s2, relinked s s2 (<[x := y]> N) P' → returns (k' s2) Q) →
    returns ((if negb (y =? 0) then set_prev y x s1 else mret s1) ≫= k') Q)) as (P' & HP' & Hstep).
  { destruct (Z.eqb_spec y 0) as [->|Hy]; cbn [negb].
    - exists P. split; [by left|]. intros k' Hk'. by apply Hk'.
    - assert (∃ l', l = y :: l') as Hl'.
      { destruct l as [|y' l]; cbn in Hl; [congruence|]. exists l. destruct Hl as (Hl & _). congruence. }
      exists (<[y := x]> P). split; [right; by split_and!|]. intros k' Hk'. eapply (step_set_prev s s1 (<[x := y]> N) P y); [eassumption| |done].
      apply HW. destruct Hl' as [l' ->]. cbn. set_solver. }
  rewrite res_assoc. apply Hstep. intros s2 HR2.
  rewrite res_assoc. eapply (step_set_prev s s2 _ P'); [eassumption|done|]. intros s3 HR3.
  rewrite res_assoc. eapply (step_set_next s s3 _ _ h); [eassumption|done|]. intros s4 HR4.
  destruct (relinked_dom _ _ _ _ x HR4 Hxd) as (e4 & He4 & _). destruct HR4 as (EN & EP & EI & ED).
  destruct (set_rehash_ok s4 x e4 false He4) as (s5 & E5 & EN5 & EP5 & ED5 & EI5).
  rewrite res_assoc, E5. cbn [mbind res_bind]. apply Hk; [|congruence|].
  2: { rewrite EI5, EI. f_equal. pose proof (info_lookup _ _ _ He4) as H4. rewrite EI, (info_lookup _ _ _ Hx) in H4. congruence. }
  rewrite EN5, EP5, EN, EP. apply good_cons. assert (x ≠ h) by set_solver. split_and!.
  - cbn [linked]. rewrite !lookup_insert_eq. split_and!; [done..|].
    destruct HP' as [(-> & Hy)|(-> & Hy & l' & ->)].
    + destruct l as [|y' l]; [cbn; rewrite lookup_insert_ne, lookup_insert_eq, Hy by done; done|].
      exfalso. apply Hz. destruct Hl as (Hl & _). rewrite HNh in Hl. injection Hl as <-. rewrite <-Hy. set_solver.
    + destruct Hl as (Hl1 & Hl2 & Hl3). cbn [linked]. rewrite lookup_insert_ne, lookup_insert_eq, lookup_insert_ne, lookup_insert_eq by set_solver.
      split_and!; [done..|]. apply NoDup_cons in Hnd as [Hnd1 Hnd2]. apply NoDup_cons in Hnd2 as [Hnd2 Hnd3].
      apply linked_next; [done|]. apply linked_next; [set_solver|]. apply linked_prev; [set_solver|]. by apply linked_prev; [done|].
  - apply good_next; [apply Hdis; by left|]. apply good_next; [done|]. apply good_prev; [done|].
    destruct HP' as [(-> & Hy)|(-> & Hy & l' & ->)]; [done|]. apply good_prev; [|done]. apply Hdis. set_solver.
  - apply NoDup_cons in Hnd as [Hnd1 Hnd2]. apply NoDup_cons. split; [set_solver|]. apply NoDup_cons. split; [set_solver|done].
  - set_solver.
  - set_solver.
Qed.

(** Taking an entry out of a slot. *)
Lemma step_remove s h l1 x l2 Ls (k : Z * store → res A) Q :
  good (nxt s) (prv s) ((h, l1 ++ x :: l2, 0) :: Ls) → within s ((h, l1 ++ x :: l2, 0) :: Ls) →
  (∀ s', good (nxt s') (prv s') ((h, l1 ++ l2, 0) :: Ls) → dom s' = dom s → info s' = info s → returns (k (0, s')) Q) →
  returns (fast_timer_remove x s ≫= k) Q.
Proof.
  intros HG HW Hk. pose proof (proj1 (good_cons _ _ _ _ _ _) HG) as (Hl & HG' & Hnd & Hz & Hdis).
  apply linked_split in Hl as (Hl1 & HPx & Hl2). assert (x ∈ dom s) as Hxd by (apply HW; cbn; set_solver).
  set (pr := lst h l1) in *. assert (pr ∈ h :: l1) as Hpr by apply lst_in. assert (pr ∈ dom s) as Hprd by (apply HW; cbn; set_solver).
  assert (NoDup (h :: l1) ∧ x ∉ h :: l1 ∧ x ∉ l2 ∧ NoDup l2 ∧ (∀ y, y ∈ h :: l1 → y ∉ l2)) as (Hnd1 & Hx1 & Hx2 & Hnd2 & Hdis12).
  { change (h :: l1 ++ x :: l2) with ((h :: l1) ++ x :: l2) in Hnd. apply NoDup_app in Hnd as (? & Hd & Hn). apply NoDup_cons in Hn as [? ?].
    split_and!; [done|intros Hi; apply (Hd x Hi); by left|done|done|]. intros y Hy Hy2. apply (Hd y Hy). by right. }
  assert (pr ≠ 0) as Hpr0 by (intros ->; apply Hz; cbn; set_solver).
  unfold fast_timer_remove. pose proof (relinked_refl s) as HR. set (N := nxt s) in *. set (P := prv s) in *.
  rewrite res_assoc. eapply (step_at s s N P x); [eassumption|done|]. intros e He HNx HPx'. rewrite HPx in HPx'. injection HPx' as HPx'.
  rewrite <-HPx', (proj2 (Z.eqb_neq pr 0)) by done.
  assert (NoDup (h :: l1 ++ l2) ∧ 0 ∉ h :: l1 ++ l2 ∧ ∀ y, y ∈ h :: l1 ++ l2 → y ∉ nodes Ls) as (Hnd' & Hz' & Hdis').
  { split_and!; [|set_solver|intros y Hy; apply Hdis; set_solver]. change (NoDup ((h :: l1) ++ l2)). by apply NoDup_app. }
  assert (∀ b, b ∈ h :: l1 ++ x :: l2 → b ∉ nodes Ls) as Hout by done.
  assert (pr ∉ nodes Ls ∧ x ∉ nodes Ls) as [Hpo Hxo] by (split; apply Hout; set_solver).
  destruct l2 as [|y l2].
  - cbn in Hl2. rewrite Hl2 in HNx. injection HNx as <-. cbn [Z.eqb negb]. rewrite !res_assoc.
    eapply (step_set_next s s N P pr 0); [eassumption|done|]. intros s1 HR1. rewrite res_assoc. eapply (step_set_prev s s1 _ P x 0); [eassumption|done|].
    intros s2 (EN & EP & EI & ED). apply Hk; [|done|done]. rewrite EN, EP, app_nil_r in *. apply good_cons. split_and!; try done.
    + apply linked_prev; [set_solver|]. by apply (linked_end N P h l1 x).
    + apply good_next; [done|]. by apply good_prev.
  - destruct Hl2 as (HNx' & HPy & Hl2). rewrite HNx' in HNx. injection HNx as <-.
    assert (y ≠ 0) as Hy0 by (intros ->; apply Hz; cbn; set_solver). assert (y ∈ dom s) as Hyd by (apply HW; cbn; set_solver).
    rewrite (proj2 (Z.eqb_neq y 0)) by done. cbn [negb]. rewrite !res_assoc.
    eapply (step_set_prev s s N P y pr); [eassumption|done|]. intros s1 HR1. rewrite res_assoc. eapply (step_at s s1 N _ x); [eassumption|done|].
    intros e1 _ HNx1 HPx1. rewrite lookup_insert_ne, HPx in HPx1 by set_solver. injection HPx1 as HPx1. rewrite HNx' in HNx1. injection HNx1 as HNx1.
    rewrite <-HPx1, <-HNx1, res_assoc. eapply (step_set_next s s1 N _ pr y); [eassumption|done|]. intros s2 HR2.
    eapply (step_set_next s s2 _ _ x 0); [eassumption|done|]. intros s3 HR3. rewrite res_assoc. eapply (step_set_prev s s3 _ _ x 0); [eassumption|done|].
    intros s4 (EN & EP & EI & ED). apply Hk; [|done|done]. rewrite EN, EP. apply NoDup_cons in Hnd2 as [Hy2 Hnd2].
    assert (y ∉ nodes Ls) as Hyo by (apply Hout; set_solver). apply good_cons. split_and!; try done.
    + apply linked_split. rewrite lookup_insert_ne, lookup_insert_eq by set_solver. split_and!; [|done|].
      * apply linked_next; [done|]. apply linked_prev; [set_solver|]. apply linked_prev; [set_solver|]. by apply (linked_end N P h l1 x).
      * apply linked_next; [done|]. apply linked_next; [by apply Hdis12|]. apply linked_prev; [set_solver|]. by apply linked_prev.
    + apply good_next; [done|]. apply good_next; [done|]. apply good_prev; [done|]. by apply good_prev.
Qed.

Lemma linked_head N P a l1 l2 z : linked N P a (l1 ++ l2) z →
  linked N P a l1 (default z (head l2)) ∧ (∀ y l2', l2 = y :: l2' → P !! y = Some (lst a l1) ∧ linked N P y l2' z).
Proof.
  destruct l2 as [|y l2]; cbn [head default]; [rewrite app_nil_r; by split|].
  rewrite linked_split. intros (? & ? & ?). split; [done|]. by intros ? ? [= <- <-].
Qed.

(** What there is to know about the nodes of a slot in three parts and the list of
    those that are due. *)
Lemma parts_disjoint s h l1 f run l2 hd out z Ls :
  within s ((h, l1 ++ (f :: run) ++ l2, 0) :: (hd, out, z) :: Ls) →
  NoDup (h :: l1 ++ (f :: run) ++ l2) → 0 ∉ h :: l1 ++ (f :: run) ++ l2 →
  (∀ x, x ∈ h :: l1 ++ (f :: run) ++ l2 → x ∉ nodes ((hd, out, z) :: Ls)) → (∀ x, x ∈ hd :: out → x ∉ nodes Ls) →
  let free x := x ∈ dom s ∧ x ∉ nodes Ls in
  ((∀ x, x ∈ h :: l1 → free x) ∧ (∀ x, x ∈ f :: run → free x) ∧ (∀ x, x ∈ l2 → free x) ∧ (∀ x, x ∈ hd :: out → free x)) ∧
  ((∀ x, x ∈ h :: l1 → x ∉ f :: run) ∧ (∀ x, x ∈ h :: l1 → x ∉ l2) ∧ (∀ x, x ∈ h :: l1 → x ∉ hd :: out)) ∧
  ((∀ x, x ∈ f :: run → x ∉ l2) ∧ (∀ x, x ∈ f :: run → x ∉ hd :: out) ∧ (∀ x, x ∈ l2 → x ∉ hd :: out)) ∧
  ((∀ x, x ∈ h :: l1 → x ≠ 0) ∧ (∀ x, x ∈ f :: run → x ≠ 0) ∧ (∀ x, x ∈ l2 → x ≠ 0)) ∧
  (NoDup (h :: l1) ∧ NoDup (f :: run) ∧ NoDup l2).
Proof.
  intros HW Hnd Hz Hdis Hdiso free.
  change (h :: l1 ++ (f :: run) ++ l2) with ((h :: l1) ++ (f :: run) ++ l2) in *.
  change (nodes ((hd, out, z) :: Ls)) with ((hd :: out) ++ nodes Ls) in *.
  assert (∀ x, x ∈ (h :: l1) ++ (f :: run) ++ l2 → x ∈ dom s) as Hd1.
  { intros x Hx. apply HW. change (x ∈ ((h :: l1) ++ (f :: run) ++ l2) ++ (hd :: out) ++ nodes Ls). apply elem_of_app. by left. }
  assert (∀ x, x ∈ hd :: out → x ∈ dom s) as Hd2.
  { intros x Hx. apply HW. change (x ∈ ((h :: l1) ++ (f :: run) ++ l2) ++ (hd :: out) ++ nodes Ls). rewrite !elem_of_app. tauto. }
  assert (∀ x, x ∈ (h :: l1) ++ (f :: run) ++ l2 → x ∉ hd :: out ∧ x ∉ nodes Ls) as Hd3.
  { intros x Hx. specialize (Hdis x Hx). by apply not_elem_of_app in Hdis. }
  apply NoDup_app in Hnd as (Hnd1 & Hd12 & Hnd2). apply NoDup_app in Hnd2 as (Hndr & Hdr2 & Hnd2).
  assert (∀ x, x ∈ h :: l1 → x ∈ (h :: l1) ++ (f :: run) ++ l2) as I1 by (intros x Hx; apply elem_of_app; by left).
  assert (∀ x, x ∈ f :: run → x ∈ (h :: l1) ++ (f :: run) ++ l2) as Ir by (intros x Hx; rewrite !elem_of_app; tauto).
  assert (∀ x, x ∈ l2 → x ∈ (h :: l1) ++ (f :: run) ++ l2) as I2 by (intros x Hx; rewrite !elem_of_app; tauto).
  assert (∀ x, x ∈ h :: l1 → x ∉ f :: run ∧ x ∉ l2) as Hd12' by (intros x Hx; specialize (Hd12 x Hx); by apply not_elem_of_app in Hd12).
  split_and!; try (intros x Hx; split; [by auto|by apply Hd3; auto]); try (intros x Hx; by apply Hd12'); try (intros x Hx; by apply Hd3; auto);
    try (intros x Hx ->; by apply Hz; auto); try done.
  intros x Hx. split; [by apply Hd2|by apply Hdiso].
Qed.

(** Moving a run of entries behind the list of those that are due. *)
Lemma step_move_run s h l1 f run l2 hd out z Ls w (k : walk * store → res A) Q :
  let entry := default 0 (head l2) in
  good (nxt s) (prv s) ((h, l1 ++ (f :: run) ++ l2, 0) :: (hd, out, z) :: Ls) → within s ((h, l1 ++ (f :: run) ++ l2, 0) :: (hd, out, z) :: Ls) →
  first w = f → tail w = lst hd out → last w = lst f run →
  (∀ s', good (nxt s') (prv s') ((h, l1 ++ l2, 0) :: (hd, out ++ f :: run, entry) :: Ls) → dom s' = dom s → info s' = info s →
     returns (k (mkWalk 0 (lst hd (out ++ f :: run)) (lst hd (out ++ f :: run)) (count w), s')) Q) →
  returns (move_run w entry s ≫= k) Q.
Proof.
  intros entry HG HW Ef Et El Hk. destruct w as [wf wl wt wc]. cbn [first last tail count] in *. subst wf wt wl.
  apply good_cons in HG as (Hl & HG & Hnd & Hz & Hdis). apply good_cons in HG as (Ho & HG & Hndo & Hzo & Hdiso).
  apply linked_split in Hl as (Hl1 & HPf & Hl2). apply linked_head in Hl2 as [Hrun Hl2]. fold entry in Hrun.
  set (pr := lst h l1) in *. assert (pr ∈ h :: l1) as Hpr by apply lst_in. set (tl := lst hd out) in *. assert (tl ∈ hd :: out) as Htl by apply lst_in.
  destruct (parts_disjoint s h l1 f run l2 hd out z Ls HW Hnd Hz Hdis Hdiso)
    as ((HA & HR & H2 & HO) & (Hs1 & Hs2 & Hs3) & (Hr2 & Hro & H2o) & (Hnz1 & Hnzr & Hnz2) & (Hnd1 & Hndr & Hnd2)).
  assert (f ∈ f :: run) as Hf by by left. clear HW Hnd Hz Hdis Hdiso.
  assert (f ∉ h :: l1) as Hf1 by (intros H; by apply (Hs1 f H)). assert (tl ∉ h :: l1) as Ht1 by (intros H; by apply (Hs3 tl H)).
  assert (tl ∉ f :: run) as Htr by (intros H; by apply (Hro tl H)). assert (tl ∉ l2) as Ht2 by (intros H; by apply (H2o tl H)).
  apply not_elem_of_cons in Hf1 as [Hf1' Hf1]. apply not_elem_of_cons in Htr as [Htr' Htr].
  unfold move_run. cbn [first last tail count]. pose proof (relinked_refl s) as HR0. set (N := nxt s) in *. set (P := prv s) in *.
  rewrite res_assoc. eapply (step_at s s N P f); [eassumption|by apply HR|]. intros e He _ HPe. rewrite HPf in HPe. injection HPe as HPe. rewrite <-HPe.
  rewrite res_assoc. eapply (step_set_next s s N P pr); [eassumption|by apply HA|]. intros s1 HR1.
  rewrite res_assoc. eapply (step_at s s1 _ P f); [eassumption|by apply HR|]. intros e1 He1 _ HPe1. rewrite HPf in HPe1. injection HPe1 as HPe1. rewrite <-HPe1.
  assert (∃ P', (∀ y l2', l2 = y :: l2' → P' = <[y := pr]> P) ∧ (∀ b x, good (<[b := x]> N) P Ls → good (<[b := x]> N) P' Ls) ∧
    (∀ N' a l z', (∀ x, x ∈ l → x ∉ l2) → linked N' P a l z' → linked N' P' a l z') ∧
    (∀ k' : store → res A, (∀ s2, relinked s s2 (<[pr := entry]> N) P' → returns (k' s2) Q) →
    returns ((if negb (entry =? 0) then set_prev entry pr s1 else mret s1) ≫= k') Q)) as (P' & HP1 & HP2 & HP3 & Hstep).
  { destruct l2 as [|y l2]; cbn [head default] in entry; subst entry.
    - exists P. split_and!; [done..|]. intros k' Hk'. by apply Hk'.
    - exists (<[y := pr]> P). assert (y ∈ y :: l2) as Hy by by left. split_and!.
      + by intros ? ? [= <- <-].
      + intros b x Hg. apply good_prev; [by apply H2|done].
      + intros N' a l z' Hl Hlk. apply linked_prev; [|done]. intros Hy'. by apply (Hl y Hy').
      + unfold id. rewrite (proj2 (Z.eqb_neq y 0)) by (by apply Hnz2). cbn [negb]. intros k' Hk'.
        eapply (step_set_prev s s1 _ P y); [eassumption|by apply H2|done]. }
  rewrite res_assoc. apply Hstep. intros s2 HR2. clear Hstep.
  rewrite res_assoc. eapply (step_set_next s s2 _ _ tl f); [eassumption|by apply HO|]. intros s3 HR3.
  rewrite res_assoc. eapply (step_set_prev s s3 _ _ f tl); [eassumption|by apply HR|]. intros s4 (EN & EP & EI & ED).
  replace (lst f run) with (lst hd (out ++ f :: run)) by apply lst_app. apply Hk; [|done|done]. rewrite EN, EP. clear Hk HR0 HR1 HR2 HR3 He He1.
  apply NoDup_cons in Hndr as [Hfr Hndr]. apply good_cons. split_and!; [|apply good_cons; split_and!|..].
  - assert (linked (<[tl := f]> (<[pr := entry]> N)) (<[f := tl]> P') h l1 entry) as Hfirst.
    { apply linked_prev; [done|]. apply linked_next; [done|]. apply HP3; [intros x Hx; apply Hs2; by right|]. by apply (linked_end N P h l1 f). }
    destruct l2 as [|y l2']; [by rewrite app_nil_r|]. destruct (Hl2 y l2' eq_refl) as [_ Hly]. apply linked_split. rewrite (HP1 y l2' eq_refl) in *.
    assert (f ≠ y) as Hfy by (intros ->; apply (Hr2 y Hf); by left). split_and!; [done|by rewrite lookup_insert_ne, lookup_insert_eq|].
    apply linked_prev; [intros H; apply (Hr2 f Hf); by right|]. apply linked_next; [done|]. apply linked_next; [by apply Hs2|].
    apply linked_prev; [|done]. by apply NoDup_cons in Hnd2 as [? _].
  - apply linked_split. rewrite lookup_insert_eq. split_and!; [|done|].
    + apply linked_prev; [intros H; apply (Hro f Hf); by right|]. apply HP3; [intros x Hx Hx2; apply (H2o x Hx2); by right|].
      eapply linked_end; [done|done|]. apply linked_next; [by apply Hs3|done].
    + apply linked_prev; [done|]. apply linked_next; [by apply not_elem_of_cons|]. apply HP3; [intros x Hx; apply Hr2; by right|].
      apply linked_next; [by apply Hs1|done].
  - apply good_prev; [by apply HR|]. apply good_next; [by apply HO|]. apply HP2, good_next; [by apply HA|done].
  - change (hd :: out ++ f :: run) with ((hd :: out) ++ f :: run). apply NoDup_app. split_and!; [done| |by apply NoDup_cons].
    intros x Hx Hx'. by apply (Hro x Hx').
  - change (hd :: out ++ f :: run) with ((hd :: out) ++ f :: run). rewrite elem_of_app. intros [H|H]; [done|by apply (Hnzr 0 H)].
  - change (hd :: out ++ f :: run) with ((hd :: out) ++ f :: run). intros x [Hx|Hx]%elem_of_app; [by apply HO|by apply HR].
  - change (h :: l1 ++ l2) with ((h :: l1) ++ l2). by apply NoDup_app.
  - change (h :: l1 ++ l2) with ((h :: l1) ++ l2). rewrite elem_of_app. intros [H|H]; [by apply (Hnz1 0 H)|by apply (Hnz2 0 H)].
  - change (h :: l1 ++ l2) with ((h :: l1) ++ l2). change (nodes ((hd, out ++ f :: run, entry) :: Ls)) with (((hd :: out) ++ f :: run) ++ nodes Ls).
    intros x Hx. rewrite !not_elem_of_app. apply elem_of_app in Hx as [Hx|Hx].
    + split_and!; [by apply Hs3|by apply Hs1|by apply HA].
    + split_and!; [by apply H2o| |by apply H2]. intros Hx'. by apply (Hr2 x Hx').
Qed.
End list_operations.

(** * The wheel *)

(** The lists of the slots, from the address [a] on. *)
Definition slots_of (a : Z) (ls : list (list Z)) : list path := imap (λ i l, (a + Z.of_nat i, l, 0)) ls.

Lemma slots_focus a ls i l : ls !! i = Some l → ∃ others,
  slots_of a ls ≡ₚ (a + Z.of_nat i, l, 0) :: others ∧ ∀ l', slots_of a (<[i := l']> ls) ≡ₚ (a + Z.of_nat i, l', 0) :: others.
Proof.
  intros Hl. pose proof (lookup_lt_Some _ _ _ Hl) as Hlt.
  exists (imap (λ k l, (a + Z.of_nat k, l, 0)) (take i ls) ++ imap (λ k l, (a + Z.of_nat (S i + k), l, 0)) (drop (S i) ls)).
  assert (∀ l', imap (λ k l, (a + Z.of_nat k, l, 0)) (take i ls ++ l' :: drop (S i) ls) ≡ₚ
    (a + Z.of_nat i, l', 0) :: imap (λ k l, (a + Z.of_nat k, l, 0)) (take i ls) ++ imap (λ k l, (a + Z.of_nat (S i + k), l, 0)) (drop (S i) ls)) as E.
  { intros l'. rewrite imap_app. cbn. rewrite length_take, Nat.min_l by lia. rewrite Nat.add_0_r.
    rewrite (imap_ext _ (λ k l, (a + Z.of_nat (S i + k), l, 0)) (drop (S i) ls)) by (intros k x _; cbn; do 3 f_equal; lia).
    by rewrite <-Permutation_middle. }
  unfold slots_of. split; [by rewrite <-E, take_drop_middle|]. intros l'. rewrite <-E. by rewrite insert_take_drop.
Qed.

Lemma slots_nodes a ls x : x ∈ nodes (slots_of a ls) ↔ (∃ i, (i < length ls)%nat ∧ x = a + Z.of_nat i) ∨ x ∈ concat ls.
Proof.
  unfold nodes. rewrite list_elem_of_bind. split.
  - intros ([[h l] z] & Hx & Hin). unfold slots_of in Hin. apply elem_of_lookup_imap in Hin as (i & l' & [= -> -> ->] & Hi).
    apply elem_of_cons in Hx as [->|Hx]; [left; exists i; split; [by eapply lookup_lt_Some|done]|].
    right. apply list_elem_of_In, in_concat. exists l'. split; [by apply list_elem_of_In, list_elem_of_lookup_2 with i|by apply list_elem_of_In].
  - intros [(i & Hi & ->)|Hx].
    + destruct (lookup_lt_is_Some_2 ls i Hi) as [l Hl]. exists (a + Z.of_nat i, l, 0). split; [by left|].
      apply elem_of_lookup_imap. by exists i, l.
    + apply list_elem_of_In, in_concat in Hx as (l & Hl & Hx). apply list_elem_of_In, list_elem_of_lookup_1 in Hl as [i Hi].
      exists (a + Z.of_nat i, l, 0). split; [right; by apply list_elem_of_In|]. apply elem_of_lookup_imap. by exists i, l.
Qed.

Lemma nodes_size N P s Ls : good N P Ls → within s Ls → (length (nodes Ls) ≤ size s)%nat.
Proof.
  intros [_ Hnd _] HW. rewrite <-size_dom. rewrite <-(size_list_to_set (C := gset Z) (nodes Ls)) by done.
  apply subseteq_size. intros x Hx. apply HW. by apply elem_of_list_to_set in Hx.
Qed.

Lemma nodes_perm Ls Ls' x : Ls ≡ₚ Ls' → x ∈ nodes Ls → x ∈ nodes Ls'.
Proof. intros E. unfold nodes. by rewrite E. Qed.

Lemma within_perm s Ls Ls' : Ls ≡ₚ Ls' → within s Ls → within s Ls'.
Proof. intros E HW x Hx. apply HW. unfold nodes in *. by rewrite E. Qed.

Lemma concat_insert (ls : list (list Z)) i l l' : ls !! i = Some l → concat (<[i := l']> ls) ++ l ≡ₚ concat ls ++ l'.
Proof.
  intros Hl. pose proof (lookup_lt_Some _ _ _ Hl). rewrite insert_take_drop by done. rewrite <-(take_drop_middle ls i l) at 3 by done.
  rewrite !concat_app. cbn. rewrite <-!app_assoc. apply Permutation_app_head. rewrite (Permutation_app_comm l'), (Permutation_app_comm l).
  rewrite <-!app_assoc. apply Permutation_app_head. apply Permutation_app_comm.
Qed.

Lemma concat_push (ls : list (list Z)) i l x : ls !! i = Some l → concat (<[i := x :: l]> ls) ≡ₚ x :: concat ls.
Proof.
  intros Hl. apply (Permutation_app_inv_r l). rewrite concat_insert by done. rewrite <-Permutation_middle. done.
Qed.

Lemma concat_cut (ls : list (list Z)) i l1 x l2 : ls !! i = Some (l1 ++ x :: l2) → x :: concat (<[i := l1 ++ l2]> ls) ≡ₚ concat ls.
Proof.
  intros Hl. apply (Permutation_app_inv_r (l1 ++ l2)). rewrite <-(concat_insert ls i _ (l1 ++ l2) Hl). cbn [app].
  rewrite <-!Permutation_middle. done.
Qed.

Section timing.
Context (a n base : Z) (Hn : 0 < n) (Hbase : 0 < base).

(** The slot that is looked at when the time is [t]. *)
Definition idx (t : Z) : Z := (t - base) mod n.

Lemma idx_range t : 0 ≤ idx t < n.
Proof using Hn. unfold idx. apply Z.mod_pos_bound. lia. Qed.

Lemma slot_pointer k t : base ≤ t < 2 ^ 62 → TIMER_GET_SLOT_POINTER (mkTimer n base k a) t = Done (a + idx t).
Proof using Hn Hbase.
  intros Ht. unfold TIMER_GET_SLOT_POINTER, TIMER_GET_SLOT_INDEX, clong. cbn [base_time slot_count slots].
  rewrite (proj2 (Z.leb_le _ _)), (proj2 (Z.ltb_lt _ _)) by lia. cbn [andb mbind res_bind]. rewrite (proj2 (Z.eqb_neq n 0)) by lia.
  unfold idx. by rewrite Z.rem_mod_nonneg by lia.
Qed.

(** An entry that expires at [e] stands well in slot [i] when the time is [k] (and
    the deadline for what is overdue is [T]): the slot is looked at in time, and it is
    its proper slot, unless it is marked to be moved or overdue. *)
Definition placed (T k i e : Z) (r : bool) : Prop :=
  (∃ t, k ≤ t ≤ Z.max e T ∧ idx t = i) ∧ (r = true ∨ e ≤ k ∨ idx e = i).

Definition stays (T : Z) (s : store) (k i x : Z) : Prop :=
  ∃ e d r, info s !! x = Some (e, d, r) ∧ - 2 ^ 62 < e < 2 ^ 62 ∧ placed T k i e r.

(** As time goes on, nothing changes for the slots not looked at. *)
Lemma placed_later T k i e r : i ≠ idx k → T < k + 1 → placed T k i e r → placed T (k + 1) i e r.
Proof.
  intros Hi HT [(t & Ht & Et) Hr]. split.
  - exists t. split; [|done]. assert (t ≠ k) by (intros ->; congruence). lia.
  - destruct Hr as [?|[?|?]]; [by left|right; left; lia|right; by right].
Qed.

(** ** One slot *)

(** Expiry times and data. *)
Definition pay (s : store) : gmap Z (Z * Z) := (λ e, (expires e, data e)) <$> s.

Lemma pay_info s s' : info s' = info s → pay s' = pay s.
Proof.
  intros E. assert (∀ s, pay s = fst <$> info s) as H by (intros s0; unfold pay, info; by rewrite <-map_fmap_compose). by rewrite !H, E.
Qed.

Lemma pay_flag s s' x e d r : info s !! x = Some (e, d, r) → info s' = <[x := (e, d, false)]> (info s) → pay s' = pay s.
Proof.
  intros Hx E. assert (∀ s, pay s = fst <$> info s) as H by (intros s0; unfold pay, info; by rewrite <-map_fmap_compose).
  rewrite !H, E, fmap_insert. apply insert_id. by rewrite lookup_fmap, Hx.
Qed.

Record wheel (s : store) (ls : list (list Z)) (extra : list path) : Prop := {
  wh_good : good (nxt s) (prv s) (extra ++ slots_of a ls);
  wh_within : within s (extra ++ slots_of a ls);
  wh_slots : length ls = Z.to_nat n }.

(** What a part of the work leaves alone. *)
Record kept (s : store) (ls : list (list Z)) (out : list Z) (s' : store) (ls' : list (list Z)) (out' : list Z) : Prop := {
  k_pay : pay s' = pay s;
  k_dom : dom s' = dom s;
  k_entries : concat ls' ++ out' ≡ₚ concat ls ++ out }.

Lemma kept_refl s ls out : kept s ls out s ls out.
Proof. done. Qed.

Lemma kept_trans s1 ls1 o1 s2 ls2 o2 s3 ls3 o3 : kept s1 ls1 o1 s2 ls2 o2 → kept s2 ls2 o2 s3 ls3 o3 → kept s1 ls1 o1 s3 ls3 o3.
Proof. intros [? ? E1] [? ? E2]. split; [congruence..|]. by rewrite E2. Qed.

(** The slot being walked through: [l1] is done, [run] is to be moved, [rest] is
    still to come. *)
Record walking (T k time : Z) (hd : Z) (i : nat) s ls l1 run rest out z (w : walk) : Prop := {
  wk_wheel : wheel s ls [(hd, out, z)];
  wk_slot : ls !! i = Some (l1 ++ run ++ rest);
  wk_first : first w = default 0 (head run);
  wk_last : ∀ f run', run = f :: run' → last w = lst f run';
  wk_tail : tail w = lst hd out;
  wk_count : count w = zlen (out ++ run);
  wk_rest : ∀ x, x ∈ rest → stays T s k (Z.of_nat i) x;
  wk_done : ∀ j l x, ls !! j = Some l → x ∈ l → j ≠ i ∨ x ∈ l1 → stays T s (k + 1) (Z.of_nat j) x;
  wk_due : ∀ x, x ∈ out ++ run → ∃ e d r, info s !! x = Some (e, d, r) ∧ e < time;
  wk_end : out = [] → z = 0 }.

Lemma wheel_focus s ls i l extra : wheel s ls extra → ls !! i = Some l → ∃ others,
  extra ++ slots_of a ls ≡ₚ (a + Z.of_nat i, l, 0) :: extra ++ others ∧
  (∀ extra' l', extra' ++ slots_of a (<[i := l']> ls) ≡ₚ (a + Z.of_nat i, l', 0) :: extra' ++ others).
Proof.
  intros [HG HW HL] Hi. destruct (slots_focus a ls i l Hi) as (others & E & E'). exists others. split.
  - by rewrite E, Permutation_middle.
  - intros extra' l'. by rewrite E', Permutation_middle.
Qed.


(** ** Operations on slots of the wheel *)

Lemma elem_nodes x h l z Ls : x ∈ nodes ((h, l, z) :: Ls) ↔ x = h ∨ x ∈ l ∨ x ∈ nodes Ls.
Proof. change (nodes ((h, l, z) :: Ls)) with ((h :: l) ++ nodes Ls). rewrite elem_of_app, elem_of_cons. tauto. Qed.

Lemma step_wheel_remove {A} s ls extra i l1 x l2 (K : Z * store → res A) (Q : A → Prop) :
  wheel s ls extra → ls !! i = Some (l1 ++ x :: l2) →
  (∀ s', wheel s' (<[i := l1 ++ l2]> ls) extra → dom s' = dom s → info s' = info s → returns (K (0, s')) Q) →
  returns (fast_timer_remove x s ≫= K) Q.
Proof.
  intros HW Hi HK. destruct (wheel_focus _ _ _ _ _ HW Hi) as (others & E & E'). destruct HW as [HG HWi HL].
  rewrite E in HG. apply (within_perm _ _ _ E) in HWi. apply (step_remove s (a + Z.of_nat i) l1 x l2 (extra ++ others)); [done|done|].
  intros s' HG' Hdom Hinfo. apply HK; [|done|done]. split; [by rewrite E'| |by rewrite length_insert].
  intros y Hy. rewrite Hdom. apply HWi. eapply nodes_perm in Hy; [|apply E']. rewrite !elem_nodes, !elem_of_app, ?elem_of_cons in *. tauto.
Qed.

Lemma step_wheel_add {A} timer s ls extra i l x e d r (K : Z * store → res A) (Q : A → Prop) :
  wheel s ls extra → ls !! i = Some l → info s !! x = Some (e, d, r) → x ≠ 0 → x ∉ nodes (extra ++ slots_of a ls) →
  TIMER_GET_SLOT_POINTER timer (Z.max e (current_time timer)) = Done (a + Z.of_nat i) →
  (∀ s', wheel s' (<[i := x :: l]> ls) extra → dom s' = dom s → info s' = <[x := (e, d, false)]> (info s) → returns (K (0, s')) Q) →
  returns (fast_timer_add timer x s ≫= K) Q.
Proof.
  intros HW Hi Hx Hx0 Hnin Hslot HK. destruct (wheel_focus _ _ _ _ _ HW Hi) as (others & E & E'). destruct HW as [HG HWi HL].
  rewrite E in HG. apply (within_perm _ _ _ E) in HWi.
  eapply (step_add timer s _ l (extra ++ others) x e d r); [done|done|done|done| |done|].
  { intros Hx'. apply Hnin. eapply nodes_perm; [|exact Hx']. by rewrite E. }
  intros s' HG' Hdom Hinfo. apply HK; [|done|done]. split; [by rewrite E'| |by rewrite length_insert].
  intros y Hy. rewrite Hdom. eapply nodes_perm in Hy; [|apply E']. rewrite !elem_nodes, elem_of_cons in Hy.
  destruct (decide (y = x)) as [->|Hne].
  - apply info_entry in Hx as (ex & Hx & _). by eapply elem_of_dom_2.
  - apply HWi. rewrite !elem_nodes. tauto.
Qed.

(** The nodes of a slot are linked objects. *)
Lemma wheel_entry s ls extra i l1 x l2 : wheel s ls extra → ls !! i = Some (l1 ++ x :: l2) →
  x ≠ 0 ∧ x ∉ l1 ++ l2 ∧ x ∉ nodes (extra ++ slots_of a (<[i := l1 ++ l2]> ls)) ∧ NoDup (l1 ++ x :: l2) ∧
  (∀ j l, ls !! j = Some l → j ≠ i → x ∉ l) ∧ ∃ e, s !! x = Some e ∧ next e = default 0 (head l2).
Proof.
  intros HW Hi. destruct (wheel_focus _ _ _ _ _ HW Hi) as (others & E & E'). destruct HW as [HG HWi HL].
  rewrite E in HG. apply good_cons in HG as (Hl & HG & Hnd & Hz & Hdis). apply linked_split in Hl as (_ & _ & Hl).
  assert (x ∈ l1 ++ x :: l2) as Hin by (apply elem_of_app; right; by left).
  assert (x ∉ l1 ++ l2) as Hx12.
  { apply NoDup_cons in Hnd as [_ Hnd]. apply NoDup_app in Hnd as (_ & Hd & Hnd). apply NoDup_cons in Hnd as [Hn2 _].
    rewrite elem_of_app. intros [H|H]; [apply (Hd x H); by left|done]. }
  assert (x ∉ nodes (extra ++ others)) as Hxo by (apply Hdis; by right).
  split_and!.
  - intros ->. apply Hz. by right.
  - done.
  - intros Hx. eapply nodes_perm in Hx; [|apply E']. rewrite elem_nodes in Hx. destruct Hx as [->|[Hx|Hx]]; [|done|done].
    by apply NoDup_cons in Hnd as [Hnd _].
  - by apply NoDup_cons in Hnd as [_ Hnd].
  - intros j l Hj Hne Hx. apply Hxo. assert (x ∈ nodes (extra ++ slots_of a (<[i := []]> ls))) as Hx'.
    { unfold nodes. rewrite bind_app, elem_of_app. right. apply slots_nodes. right. apply list_elem_of_In, in_concat. exists l.
      split; [|by apply list_elem_of_In]. apply list_elem_of_In, list_elem_of_lookup. exists j. by rewrite list_lookup_insert_ne. }
    eapply nodes_perm in Hx'; [|apply E']. rewrite elem_nodes in Hx'. destruct Hx' as [->|[Hx'|Hx']]; [|by apply elem_of_nil in Hx'|done].
    exfalso. by apply NoDup_cons in Hnd as [Hnd _].
  - assert (nxt s !! x = Some (default 0 (head l2))) as Hn0 by (destruct l2 as [|y l2]; [exact Hl|exact (proj1 Hl)]).
    apply nxt_lookup in Hn0 as (e & He & Hne). by exists e.
Qed.

Lemma stays_info T s s' k i x : info s' !! x = info s !! x → stays T s k i x → stays T s' k i x.
Proof. intros E (e & d & r & ? & ?). exists e, d, r. by rewrite E. Qed.

Lemma lookup_slot (ls : list (list Z)) (i j : nat) l l1 x : ls !! i = Some l → (∃ l', <[i := l1]> ls !! j = Some l' ∧ x ∈ l') →
  (∃ l', ls !! j = Some l' ∧ x ∈ l' ∧ j ≠ i) ∨ j = i ∧ x ∈ l1.
Proof.
  intros Hi (l' & Hl' & Hx). destruct (decide (j = i)) as [->|Hne].
  - right. rewrite list_lookup_insert_eq in Hl' by (by eapply lookup_lt_Some). by injection Hl' as ->.
  - left. rewrite list_lookup_insert_ne in Hl' by done. by exists l'.
Qed.

(** A run is moved. *)
Lemma step_flush_run {A} T k time hd i s ls l1 f run rest out z w (K : walk * store → res A) (Q : A → Prop) :
  walking T k time hd i s ls l1 (f :: run) rest out z w →
  (∀ s' ls' z' w', walking T k time hd i s' ls' l1 [] rest (out ++ f :: run) z' w' → kept s ls out s' ls' (out ++ f :: run) →
     info s' = info s → returns (K (w', s')) Q) →
  returns (move_run w (default 0 (head rest)) s ≫= K) Q.
Proof using Hn Hbase.
  intros [HW Hi Hf Hl Ht Hc Hr Hd Hdue Hend] HK. destruct (wheel_focus _ _ _ _ _ HW Hi) as (others & E & E'). destruct HW as [HG HWi HL].
  rewrite E in HG. apply (within_perm _ _ _ E) in HWi. cbn [app] in HG, HWi.
  apply (step_move_run s (a + Z.of_nat i) l1 f run rest hd out z others w); [done|done|done|done|by apply Hl|].
  intros s' HG' Hdom Hinfo. pose proof (lookup_lt_Some _ _ _ Hi) as Hlt.
  assert (concat (<[i := l1 ++ rest]> ls) ++ f :: run ≡ₚ concat ls) as Hperm.
  { apply (Permutation_app_inv_r (l1 ++ rest)). rewrite <-(concat_insert ls i _ (l1 ++ rest) Hi), <-app_assoc.
    apply Permutation_app_head. rewrite (Permutation_app_swap_app (f :: run)). done. }
  apply (HK s' (<[i := l1 ++ rest]> ls) (default 0 (head rest))); [split| |done].
  - split.
    + rewrite (E' _ (l1 ++ rest)). done.
    + intros x Hx. rewrite Hdom. apply HWi. eapply nodes_perm in Hx; [|apply E'].
      cbn [app] in Hx. rewrite !elem_nodes in *. rewrite !elem_of_app, elem_of_cons in Hx. rewrite !elem_of_app, elem_of_cons, elem_of_app. tauto.
    + by rewrite length_insert.
  - by rewrite list_lookup_insert_eq.
  - done.
  - done.
  - done.
  - cbn [count]. by rewrite app_nil_r.
  - intros x Hx. eapply stays_info; [by rewrite Hinfo|by apply Hr].
  - intros j l x Hj Hx Hjx. eapply stays_info; [by rewrite Hinfo|].
    destruct (lookup_slot ls i j _ _ x Hi (ex_intro _ l (conj Hj Hx))) as [(l' & Hl' & Hx' & Hne)|[-> Hx']].
    + eapply Hd; [done|done|by left].
    + eapply Hd; [exact Hi| |]; destruct Hjx as [?|?]; [done|apply elem_of_app; by left|done|by right].
  - rewrite app_nil_r, Hinfo. done.
  - intros E0. by destruct out.
  - split; [by apply pay_info|done|]. rewrite (Permutation_app_comm out), app_assoc, Hperm. done.
Qed.


Lemma wheel_same s s' ls extra : nxt s' = nxt s → prv s' = prv s → dom s' = dom s → wheel s ls extra → wheel s' ls extra.
Proof. intros EN EP ED [HG HW HL]. split; [by rewrite EN, EP| |done]. intros x Hx. rewrite ED. by apply HW. Qed.

Lemma slot_exists s ls extra t : wheel s ls extra → ∃ j l, ls !! j = Some l ∧ Z.of_nat j = idx t.
Proof using Hn.
  intros [_ _ HL]. pose proof (idx_range t). destruct (lookup_lt_is_Some_2 ls (Z.to_nat (idx t))) as [l Hl]; [lia|].
  exists (Z.to_nat (idx t)), l. split; [done|lia].
Qed.

(** A marked entry that is not due moves to its proper slot. *)
Lemma step_rehash_entry {A} T k time hd i s ls l1 x rest out z w e d (K : Z → store → res A) (Q : A → Prop) :
  walking T k time hd i s ls l1 [] (x :: rest) out z w → info s !! x = Some (e, d, true) → time ≤ e → e < 2 ^ 62 → base ≤ k → T < k + 1 → k + 1 ≤ time →
  (∀ s' ls' l1' w', w' = mkWalk (first w) x (tail w) (count w) → walking T k time hd i s' ls' l1' [] rest out z w' → kept s ls out s' ls' out →
     returns (K (default 0 (head rest)) s') Q) →
  returns (e ← at_ s x;
           s ← set_rehash x false s;
           '(_, s) ← fast_timer_remove x s;
           '(_, s) ← fast_timer_add (mkTimer n base (k + 1) a) x s;
           K (next e) s) Q.
Proof using Hn Hbase.
  intros [HW Hi Hf Hl Ht Hc Hr Hd Hdue Hend] Hx Hte He Hk HT Hkt HK. cbn [app] in Hi, Hc, Hdue.
  destruct (wheel_entry _ _ _ _ _ _ _ HW Hi) as (Hx0 & Hx12 & Hxn & Hnd & Hxj & ex & Hex & Hnext).
  rewrite (at_ok s x ex Hex). cbn [mbind res_bind]. rewrite Hnext.
  destruct (set_rehash_ok s x ex false Hex) as (s1 & Es1 & EN & EP & ED & EI). rewrite Es1. cbn [mbind res_bind].
  rewrite (info_lookup _ _ _ Hex) in Hx. injection Hx as Hx1 Hx2 Hx3. rewrite Hx1, Hx2 in EI.
  pose proof (wheel_same _ _ _ _ EN EP ED HW) as HW1.
  apply (step_wheel_remove s1 ls [(hd, out, z)] i l1 x rest); [done|done|]. intros s2 HW2 ED2 EI2. cbv beta iota.
  destruct (slot_exists _ _ _ e HW2) as (j & lj & Hj & Ej).
  apply (step_wheel_add (mkTimer n base (k + 1) a) s2 (<[i := l1 ++ rest]> ls) [(hd, out, z)] j lj x e d false); [done|done|by rewrite EI2, EI, lookup_insert_eq|done|done| |].
  { cbn [current_time]. rewrite Z.max_l, slot_pointer, Ej by lia. done. }
  intros s3 HW3 ED3 EI3. cbv beta iota. set (ls1 := <[i := l1 ++ rest]> ls) in *.
  assert (∀ y, y ≠ x → info s3 !! y = info s !! y) as Hinfo.
  { intros y Hy. rewrite EI3, EI2, EI, !lookup_insert_ne by congruence. done. }
  assert (ls1 !! i = Some (l1 ++ rest)) as Hi1 by (unfold ls1; rewrite list_lookup_insert_eq; [done|by eapply lookup_lt_Some]).
  apply (HK s3 (<[j := x :: lj]> ls1) (if decide (j = i) then x :: l1 else l1) _ eq_refl); split; try done.
  - destruct (decide (j = i)) as [->|Hne].
    + rewrite list_lookup_insert_eq by (by eapply lookup_lt_Some). rewrite Hi1 in Hj. by injection Hj as <-.
    + by rewrite list_lookup_insert_ne.
  - intros y Hy. eapply stays_info; [apply Hinfo|by apply Hr; right]. intros ->. apply Hx12, elem_of_app. by right.
  - intros j' l' y Hj' Hy Hjy. destruct (decide (y = x)) as [->|Hyx].
    + assert (j' = j) as ->.
      { destruct (decide (j' = j)) as [|Hne]; [done|exfalso]. rewrite list_lookup_insert_ne in Hj' by done.
        destruct (lookup_slot ls i j' _ _ x Hi (ex_intro _ l' (conj Hj' Hy))) as [(l'' & Hl'' & Hx' & Hne')|[-> Hx']]; [by eapply Hxj|done]. }
      exists e, d, false. split_and!; [by rewrite EI3, lookup_insert_eq|lia|lia|]. split; [exists e; split; [lia|done]|]. right. right. done.
    + eapply stays_info; [by apply Hinfo|].
      destruct (lookup_slot ls1 j j' _ _ y Hj (ex_intro _ l' (conj Hj' Hy))) as [(l'' & Hl'' & Hy' & Hne)|[-> Hy']].
      * destruct (lookup_slot ls i j' _ _ y Hi (ex_intro _ l'' (conj Hl'' Hy'))) as [(l3 & Hl3 & Hy3 & Hne3)|[-> Hy3]].
        -- eapply Hd; [done|done|by left].
        -- destruct (decide (j = i)); [done|]. destruct Hjy as [?|Hy1]; [done|]. eapply Hd; [exact Hi| |by right]. apply elem_of_app. by left.
      * apply elem_of_cons in Hy' as [?|Hy']; [done|]. destruct (decide (j = i)) as [->|Hne].
        -- destruct Hjy as [?|Hy1]; [done|]. apply elem_of_cons in Hy1 as [?|Hy1]; [done|]. eapply Hd; [exact Hi| |by right]. apply elem_of_app. by left.
        -- unfold ls1 in Hj. rewrite list_lookup_insert_ne in Hj by done. eapply Hd; [exact Hj|done|by left].
  - intros y Hy. rewrite Hinfo; [by apply Hdue|]. intros ->. apply Hxn. apply elem_nodes. right. left. rewrite app_nil_r in Hy. done.
  - rewrite (pay_flag s1 s3 x e d false); [|by rewrite EI, lookup_insert_eq|by rewrite EI3, EI2]. eapply pay_flag; [by rewrite (info_lookup _ _ _ Hex), Hx1, Hx2|done].
  - congruence.
  - rewrite (concat_push ls1 j lj x Hj). unfold ls1. by rewrite (concat_cut ls i l1 x rest Hi).
Qed.


Lemma concat_slot (ls : list (list Z)) i l : ls !! i = Some l → concat ls ≡ₚ l ++ concat (<[i := []]> ls).
Proof.
  intros Hl. pose proof (concat_insert ls i l [] Hl) as H. rewrite app_nil_r in H. rewrite <-H. apply Permutation_app_comm.
Qed.

Lemma wheel_size s ls hd out z : wheel s ls [(hd, out, z)] → (length (concat ls) + length out < size s)%nat.
Proof.
  intros [HG HW HL]. pose proof (nodes_size _ _ _ _ HG HW) as H. change (nodes ([(hd, out, z)] ++ slots_of a ls)) with (hd :: out ++ nodes (slots_of a ls)) in H.
  cbn [length] in H. rewrite length_app in H. assert (length (concat ls) ≤ length (nodes (slots_of a ls)))%nat; [|lia].
  unfold nodes, slots_of. clear. generalize a. induction ls as [|l ls IH]; intros b; cbn; [lia|]. rewrite !length_app.
  specialize (IH (b + 1)). rewrite (imap_ext _ (λ i l, (b + 1 + Z.of_nat i, l, 0))) by (intros j x _; cbn; do 2 f_equal; lia). lia.
Qed.

Lemma walking_first T k time hd i s ls l1 run rest out z w :
  walking T k time hd i s ls l1 run rest out z w → (first w =? 0) = match run with [] => true | _ => false end.
Proof.
  intros [HW Hi Hf _ _ _ _ _ _ _]. rewrite Hf. destruct run as [|f run]; [done|]. cbn [head default]. unfold id. apply Z.eqb_neq.
  by destruct (wheel_entry _ _ _ _ _ _ _ HW Hi).
Qed.

Lemma slot_loop_ok T k time hd i : base ≤ k → T < k + 1 → k + 1 ≤ time → time < 2 ^ 62 → Z.of_nat i = idx k →
  ∀ rest fuel s ls l1 run out z w, walking T k time hd i s ls l1 run rest out z w → (length rest ≤ fuel)%nat → Z.of_nat (size s) ≤ INT_MAX →
  returns (slot_loop fuel (mkTimer n base (k + 1) a) time w (default 0 (head rest)) s)
    (λ '(w', s'), ∃ ls' l1' run' out' z', walking T k time hd i s' ls' l1' run' [] out' z' w' ∧ kept s ls out s' ls' out').
Proof using Hn Hbase.
  intros Hk HT Hkt Htime Hik. induction rest as [|x rest IH]; intros fuel s ls l1 run out z w HW Hfuel Hsize.
  { destruct fuel; cbn; by exists ls, l1, run, out, z. }
  pose proof (walking_first _ _ _ _ _ _ _ _ _ _ _ _ _ HW) as Hfirst. pose proof HW as [HWh Hi _ Hlast Htail Hcount Hrest Hdone Hdue Hend].
  rewrite app_assoc in Hi. destruct (wheel_entry _ _ _ _ _ _ _ HWh Hi) as (Hx0 & Hx12 & Hxn & Hnd & Hxj & ex & Hex & Hnext).
  rewrite <-app_assoc in Hi. cbn [head default]. unfold id. destruct fuel as [|fuel]; [cbn in Hfuel; lia|]. cbn in Hfuel.
  cbn [slot_loop]. rewrite (proj2 (Z.eqb_neq x 0)) by done. rewrite (at_ok s x ex Hex). cbn [mbind res_bind].
  destruct (Hrest x) as (e & d & r & Hx & He & Hpl); [by left|]. pose proof (info_lookup _ _ _ Hex) as Hx'. rewrite Hx in Hx'. injection Hx' as -> -> Er.
  assert (∀ s' : store, dom s' = dom s → Z.of_nat (size s') ≤ INT_MAX) as Hsz by (intros s' ED; by rewrite <-size_dom, ED, size_dom).
  (* the walk goes on *)
  assert (∀ s' ls' l1' run' out' z' w', walking T k time hd i s' ls' l1' run' rest out' z' w' → kept s ls out s' ls' out' →
    returns (slot_loop fuel (mkTimer n base (k + 1) a) time w' (default 0 (head rest)) s')
      (λ '(w', s'), ∃ ls' l1' run' out' z', walking T k time hd i s' ls' l1' run' [] out' z' w' ∧ kept s ls out s' ls' out')) as Hgo.
  { intros s' ls' l1' run' out' z' w' HW' HK'. eapply returns_mono; [apply (IH fuel s' ls' l1' run' out' z' w' HW'); [lia|by eapply Hsz, k_dom]|].
    intros [w2 s2] (ls2 & l2 & run2 & out2 & z2 & HW2 & HK2). exists ls2, l2, run2, out2, z2. split; [done|]. by eapply kept_trans. }
  destruct (time <=? expires ex) eqn:Ee; propify.
  - (* not due *)
    assert (∀ s' ls' l1' out' z' w', walking T k time hd i s' ls' l1' [] (x :: rest) out' z' w' → kept s ls out s' ls' out' → info s' = info s →
      returns (e ← at_ s' x;
        if rehash e then
          s ← set_rehash x false s';
          '(_, s) ← fast_timer_remove x s;
          '(_, s) ← fast_timer_add (mkTimer n base (k + 1) a) x s;
          slot_loop fuel (mkTimer n base (k + 1) a) time (mkWalk (first w') x (tail w') (count w')) (next e) s
        else slot_loop fuel (mkTimer n base (k + 1) a) time (mkWalk (first w') x (tail w') (count w')) (next e) s')
      (λ '(w', s'), ∃ ls' l1' run' out' z', walking T k time hd i s' ls' l1' run' [] out' z' w' ∧ kept s ls out s' ls' out')) as Hstay.
    { intros s' ls' l1' out' z' w' HW' HK' EI. pose proof HW' as [HWh' Hi' Hf' Hlast' Htail' Hcount' Hrest' Hdone' Hdue' Hend'].
      destruct (wheel_entry _ _ _ _ _ _ _ HWh' Hi') as (_ & _ & _ & _ & _ & ex' & Hex' & Hnext').
      assert (rehash ex' = r) as Er'. { pose proof (info_lookup _ _ _ Hex') as H. rewrite EI, Hx in H. congruence. }
      destruct r.
      - pose proof (step_rehash_entry T k time hd i s' ls' l1' x rest out' z' w' (expires ex) (data ex)
          (λ en s, slot_loop fuel (mkTimer n base (k + 1) a) time (mkWalk (first w') x (tail w') (count w')) en s)) as Hre.
        rewrite (at_ok s' x ex' Hex') in *. cbn [mbind res_bind] in *. rewrite Er'. apply Hre; [done|by rewrite EI|done|lia|done|done|done|].
        intros s2 ls2 l2 w2 -> HW2 HK2. eapply Hgo; [exact HW2|]. by eapply kept_trans.
      - rewrite (at_ok s' x ex' Hex'). cbn [mbind res_bind]. rewrite Er', Hnext'. apply (Hgo s' ls' (l1' ++ [x]) [] out' z'); [|done].
        cbn [app] in *. split; cbn [first last tail count]; try done.
        + by rewrite Hi', <-app_assoc.
        + intros y Hy. apply Hrest'. by right.
        + intros j l y Hj Hy [Hne|Hy1]; [eapply Hdone'; [done|done|by left]|]. apply elem_of_app in Hy1 as [Hy1|Hy1%list_elem_of_singleton].
          * eapply Hdone'; [done|done|by right].
          * subst y. assert (j = i) as ->.
            { destruct (decide (j = i)) as [|Hne]; [done|exfalso]. destruct (wheel_entry _ _ _ _ _ _ _ HWh' Hi') as (_ & _ & _ & _ & Hxj' & _). by eapply Hxj'. }
            exists (expires ex), (data ex), false. split_and!; [by rewrite EI|lia|lia|]. destruct Hpl as [_ [?|[?|Hidx]]]; [done|lia|].
            split; [exists (expires ex); split; [lia|done]|by right; right]. }
    rewrite Hfirst. destruct run as [|f run]; cbn [negb].
    + apply (Hstay s ls l1 out z w); [done|apply kept_refl|done].
    + apply (step_flush_run T k time hd i s ls l1 f run (x :: rest) out z w); [done|]. intros s' ls' z' w' HW' HK' EI. by eapply Hstay.
  - (* due *)
    pose proof (wheel_size _ _ _ _ _ HWh) as Hws. rewrite (concat_slot ls i _ Hi), !length_app in Hws. cbn in Hws.
    rewrite Hcount. rewrite cint_ok. 2: { unfold zlen. rewrite length_app. int_lia. }
    cbn [mbind res_bind]. rewrite Hnext. apply (Hgo s ls l1 (run ++ [x]) out z); [|apply kept_refl]. split; cbn [first last tail count]; try done.
    + by rewrite Hi, <-app_assoc.
    + rewrite Hfirst. destruct run as [|f run]; [done|]. by rewrite (wk_first _ _ _ _ _ _ _ _ _ _ _ _ _ HW).
    + intros f run' E. destruct run as [|f0 run]; cbn in E; injection E as -> <-; [done|]. by rewrite lst_app.
    + rewrite app_assoc. rewrite (zlen_app (out ++ run)). done.
    + intros y Hy. apply Hrest. by right.
    + rewrite app_assoc. intros y Hy. apply elem_of_app in Hy as [Hy|Hy%list_elem_of_singleton]; [by apply Hdue|]. subst y.
      exists (expires ex), (data ex), r. split; [done|lia].
Qed.


(** ** All slots whose time has come *)

Record ready (T k time hd : Z) s ls out z (w : walk) : Prop := {
  rd_wheel : wheel s ls [(hd, out, z)];
  rd_first : first w = 0;
  rd_tail : tail w = lst hd out;
  rd_count : count w = zlen out;
  rd_timely : ∀ j l x, ls !! j = Some l → x ∈ l → stays T s k (Z.of_nat j) x;
  rd_due : ∀ x, x ∈ out → ∃ e d r, info s !! x = Some (e, d, r) ∧ e < time;
  rd_end : out = [] → z = 0 }.

Lemma slot_head s ls extra i l : wheel s ls extra → ls !! i = Some l →
  ∃ h, s !! (a + Z.of_nat i) = Some h ∧ next h = default 0 (head l).
Proof.
  intros HW Hi. destruct (wheel_focus _ _ _ _ _ HW Hi) as (others & E & _). destruct HW as [HG _ _]. rewrite E in HG.
  apply good_cons in HG as (Hl & _). assert (nxt s !! (a + Z.of_nat i) = Some (default 0 (head l))) as Hn0 by (destruct l as [|y l]; [exact Hl|exact (proj1 Hl)]).
  apply nxt_lookup in Hn0 as (h & Hh & E'). by exists h.
Qed.

Lemma slot_length s ls hd out z i l : wheel s ls [(hd, out, z)] → ls !! i = Some l → (length l ≤ size s)%nat.
Proof. intros HW Hi. pose proof (wheel_size _ _ _ _ _ HW) as H. rewrite (concat_slot ls i l Hi), length_app in H. lia. Qed.

Lemma time_loop_ok T time hd : time < 2 ^ 62 →
  ∀ m k s ls out z w, ready T k time hd s ls out z w → base ≤ k → T ≤ k → k + Z.of_nat m = time → Z.of_nat (size s) ≤ INT_MAX →
  returns (time_loop m (mkTimer n base k a) time w s)
    (λ '(t', w', s'), t' = mkTimer n base time a ∧ ∃ ls' out' z', ready T time time hd s' ls' out' z' w' ∧ kept s ls out s' ls' out').
Proof using Hn Hbase.
  intros Htime. induction m as [|m IH]; intros k s ls out z w HR Hk HT Hm Hsize.
  { cbn. replace time with k by lia. split; [done|]. exists ls, out, z. split; [|apply kept_refl]. by replace k with time at 2 by lia. }
  cbn [time_loop]. cbn [current_time slot_count base_time slots]. rewrite slot_pointer by lia. cbn [mbind res_bind].
  destruct HR as [HW Hf Ht Hc Hty Hdue Hend]. destruct (slot_exists _ _ _ k HW) as (i & l & Hi & Ei).
  destruct (slot_head _ _ _ _ _ HW Hi) as (h & Hh & Enext). rewrite <-Ei, (at_ok _ _ _ Hh). cbn [mbind res_bind]. rewrite Enext.
  assert (walking T k time hd i s ls [] [] l out z w) as HWk.
  { split; try done.
    - by rewrite app_nil_r.
    - intros x Hx. by apply (Hty i l).
    - intros j l' x Hj Hx [Hne|Hx0]; [|by apply elem_of_nil in Hx0]. destruct (Hty j l' x Hj Hx) as (e & d & r & ? & ? & Hp).
      exists e, d, r. split_and!; [done|lia|lia|]. apply placed_later; [lia|lia|done].
    - rewrite app_nil_r. done. }
  apply returns_bind. eapply returns_mono.
  { apply (slot_loop_ok T k time hd i Hk ltac:(lia) ltac:(lia) Htime Ei l (size s) s ls [] [] out z w HWk); [by eapply slot_length|done]. }
  intros [w1 s1] (ls1 & l1 & run & out1 & z1 & HW1 & HK1). cbv beta iota.
  assert (Z.of_nat (size s1) ≤ INT_MAX) as Hsize1 by (destruct HK1 as [_ ED _]; by rewrite <-size_dom, ED, size_dom).
  (* the rest of the run *)
  assert (∀ w2 s2 ls2 l2 out2 z2, walking T k time hd i s2 ls2 l2 [] [] out2 z2 w2 → kept s ls out s2 ls2 out2 →
    returns (time_loop m (mkTimer n base (k + 1) a) time w2 s2)
      (λ '(t', w', s'), t' = mkTimer n base time a ∧ ∃ ls' out' z', ready T time time hd s' ls' out' z' w' ∧ kept s ls out s' ls' out')) as Hgo.
  { intros w2 s2 ls2 l2 out2 z2 [HW2 Hi2 Hf2 _ Ht2 Hc2 _ Hd2 Hdue2 Hend2] HK2. rewrite app_nil_r in Hc2, Hdue2. cbn [app] in Hi2. rewrite app_nil_r in Hi2.
    eapply returns_mono; [apply (IH (k + 1) s2 ls2 out2 z2 w2); [split; try done|lia|lia|lia|]|].
    - intros j l' x Hj Hx. eapply Hd2; [done|done|]. destruct (decide (j = i)) as [->|]; [right; congruence|by left].
    - destruct HK2 as [_ ED _]. by rewrite <-size_dom, ED, size_dom.
    - intros [[t' w'] s'] (-> & ls' & out' & z' & HR' & HK'). split; [done|]. exists ls', out', z'. split; [done|]. by eapply kept_trans. }
  rewrite (walking_first _ _ _ _ _ _ _ _ _ _ _ _ _ HW1). destruct run as [|f run]; cbn [negb].
  - by eapply Hgo.
  - apply (step_flush_run T k time hd i s1 ls1 l1 f run [] out1 z1 w1); [done|]. intros s2 ls2 z2 w2 HW2 HK2 _. eapply Hgo; [done|]. by eapply kept_trans.
Qed.

(** ** What holds between calls *)

(** Every entry is linked into a slot that is looked at in time. *)
Record timely (k : Z) s ls : Prop := {
  tm_wheel : wheel s ls [];
  tm_stays : ∀ j l x, ls !! j = Some l → x ∈ l → stays k s k (Z.of_nat j) x;
  tm_base : base ≤ k }.

(** The entries of the wheel and when they expire. *)
Definition pending s ls (x e : Z) : Prop := x ∈ concat ls ∧ ∃ d, pay s !! x = Some (e, d).

Lemma in_slot (ls : list (list Z)) x : x ∈ concat ls ↔ ∃ j l, ls !! j = Some l ∧ x ∈ l.
Proof.
  rewrite list_elem_of_In, in_concat. split.
  - intros (l & Hl & Hx). apply list_elem_of_In, list_elem_of_lookup in Hl as [j Hj]. exists j, l. split; [done|by apply list_elem_of_In].
  - intros (j & l & Hj & Hx). exists l. split; [apply list_elem_of_In, list_elem_of_lookup; by exists j|by apply list_elem_of_In].
Qed.

Lemma pay_lookup s x e d r : info s !! x = Some (e, d, r) → pay s !! x = Some (e, d).
Proof. intros Hx. apply info_entry in Hx as (en & He & <- & <- & _). unfold pay. by rewrite lookup_fmap, He. Qed.


Lemma timeouts_ok k s ls time head : timely k s ls → head ∈ dom s → head ≠ 0 → head ∉ nodes (slots_of a ls) →
  time < 2 ^ 62 → Z.of_nat (size s) ≤ INT_MAX →
  returns (fast_timer_timeouts_get (mkTimer n base k a) time head s)
    (λ '(c, t', s'), t' = mkTimer n base (Z.max k time) a ∧ pay s' = pay s ∧ dom s' = dom s ∧
      ∃ ls' out, timely (Z.max k time) s' ls' ∧ linked (nxt s') (prv s') head out 0 ∧ c = zlen out ∧ concat ls' ++ out ≡ₚ concat ls ∧
      head ∉ nodes (slots_of a ls') ∧
      if time <=? k then out = [] ∧ ls' = ls
      else (∀ x, x ∈ out → ∃ e d, pay s !! x = Some (e, d) ∧ e < time) ∧ (∀ x, x ∈ concat ls' → ∃ e d, pay s !! x = Some (e, d) ∧ time ≤ e)).
Proof using Hn Hbase.
  intros [HW Hst Hk] Hhd Hh0 Hhn Htime Hsize. unfold fast_timer_timeouts_get. pose proof (relinked_refl s) as HR.
  eapply (step_set_prev s s _ _ head); [eassumption|done|]. intros s1 HR1. eapply (step_set_next s s1 _ _ head); [eassumption|done|].
  intros s2 (EN & EP & EI & ED). destruct HW as [HG HWi HL]. cbn [app] in HG, HWi.
  assert (wheel s2 ls [(head, [], 0)]) as HW2.
  { split; [|intros x Hx; rewrite ED; apply elem_nodes in Hx as [->|[Hx|Hx]]; [done|by apply elem_of_nil in Hx|by apply HWi]|done].
    cbn [app]. rewrite EN, EP. apply good_cons. split_and!.
    - cbn. by rewrite lookup_insert_eq.
    - apply good_next; [done|]. by apply good_prev.
    - apply NoDup_singleton.
    - intros H%list_elem_of_singleton. congruence.
    - by intros x ->%list_elem_of_singleton. }
  assert (∀ j l x, ls !! j = Some l → x ∈ l → stays k s2 k (Z.of_nat j) x) as Hst2.
  { intros j l x Hj Hx. eapply stays_info; [by rewrite EI|by eapply Hst]. }
  destruct (time <=? k) eqn:Etime; propify; cbn [current_time]; rewrite ?(proj2 (Z.leb_le time k)), ?(proj2 (Z.leb_gt time k)) by lia.
  { apply returns_mret. rewrite Z.max_l by lia. split_and!; [done|by apply pay_info|done|]. exists ls, []. split_and!; try done.
    - split; [|done|done]. destruct HW2 as [HG2 HWi2 HL2]. split; [|intros x Hx; apply HWi2, elem_nodes; by right; right|done]. cbn [app] in *. by apply good_cons in HG2 as (_ & ? & _).
    - cbn. by rewrite EN, lookup_insert_eq.
    - by rewrite app_nil_r. }
  apply returns_bind. eapply returns_mono.
  { apply (time_loop_ok k time head Htime (Z.to_nat (time - k)) k s2 ls [] 0 (mkWalk 0 0 head 0)); [|done|done|lia|by rewrite <-size_dom, ED, size_dom].
    split; try done. by intros x Hx%elem_of_nil. }
  intros [[t' w'] s'] (-> & ls' & out & z' & [HW' Hf Ht Hc Hst' Hdue Hend] & HK). cbv beta iota. rewrite Z.max_r by lia.
  destruct HK as [Epay Edom Eperm]. rewrite app_nil_r in Eperm.
  assert (pay s2 = pay s) as Epay2 by by apply pay_info.
  (* the last link *)
  assert (∀ s3, (nxt s3, prv s3) = (if 0 <? count w' then (<[lst head out := 0]> (nxt s'), prv s') else (nxt s', prv s')) → info s3 = info s' → dom s3 = dom s' →
    returns (mret (count w', mkTimer n base time a, s3)) (λ '(c, t', s'), t' = mkTimer n base time a ∧ pay s' = pay s ∧ dom s' = dom s ∧
      ∃ ls' out, timely time s' ls' ∧ linked (nxt s') (prv s') head out 0 ∧ c = zlen out ∧ concat ls' ++ out ≡ₚ concat ls ∧ head ∉ nodes (slots_of a ls') ∧
      (∀ x, x ∈ out → ∃ e d, pay s !! x = Some (e, d) ∧ e < time) ∧ (∀ x, x ∈ concat ls' → ∃ e d, pay s !! x = Some (e, d) ∧ time ≤ e))) as Hfin.
  { intros s3 Es3 Ei3 Ed3. apply returns_mret. split_and!; [done|rewrite (pay_info _ _ Ei3); congruence|congruence|].
    exists ls', out. destruct HW' as [HG' HWi' HL']. cbn [app] in HG', HWi'. apply good_cons in HG' as (Hl' & HG' & Hnd' & Hz' & Hdis').
    assert (linked (nxt s3) (prv s3) head out 0 ∧ good (nxt s3) (prv s3) (slots_of a ls')) as [Hl3 HG3].
    { rewrite Hc in Es3. destruct (Z.ltb_spec 0 (zlen out)) as [Hpos|Hpos]; injection Es3 as -> ->.
      - split; [by eapply linked_end|]. apply good_next; [|done]. apply Hdis'. apply lst_in.
      - assert (out = []) as -> by (destruct out; [done|rewrite zlen_cons in Hpos; pose proof (zlen_nonneg out); lia]).
        rewrite Hend in Hl' by done. done. }
    assert (∀ x, x ∈ concat ls' → ∃ e d, pay s !! x = Some (e, d) ∧ time ≤ e) as Hlate.
    { intros x (j & l & Hj & Hx)%in_slot. destruct (Hst' j l x Hj Hx) as (e & d & r & Hi & _ & (t & Ht' & _) & _).
      exists e, d. rewrite <-Epay2, <-Epay, (pay_lookup _ _ _ _ _ Hi). split; [done|lia]. }
    split_and!; [|done|done|done|by apply Hdis'; left| |done].
    - split; [split; [done|intros x Hx; rewrite Ed3; apply HWi', elem_nodes; by right; right|done]| |lia].
      intros j l x Hj Hx. eapply stays_info; [by rewrite Ei3|]. destruct (Hst' j l x Hj Hx) as (e & d & r & Hi & He & (t & Ht' & Et) & Hr).
      exists e, d, r. split_and!; [done|lia|lia|]. split; [|done]. exists t. split; [lia|done].
    - intros x Hx. destruct (Hdue x Hx) as (e & d & r & Hi & He). exists e, d. by rewrite <-Epay2, <-Epay, (pay_lookup _ _ _ _ _ Hi). }
  destruct (0 <? count w') eqn:Ec.
  - pose proof (relinked_refl s') as HR'. eapply (step_set_next s' s' _ _ (tail w')); [eassumption| |].
    { apply (wh_within _ _ _ HW'). cbn [app]. rewrite Ht. apply elem_nodes. destruct (proj1 (elem_of_cons _ _ _) (lst_in head out)) as [->|?]; tauto. }
    intros s3 (EN3 & EP3 & EI3 & ED3). apply Hfin; [by rewrite EN3, EP3, Ht|done|done].
  - apply (Hfin s'); done.
Qed.


Lemma timely_add k s ls x e d r :
  timely k s ls → k < 2 ^ 62 → info s !! x = Some (e, d, r) → - 2 ^ 62 < e < 2 ^ 62 → x ≠ 0 → x ∉ nodes (slots_of a ls) →
  returns (fast_timer_add (mkTimer n base k a) x s) (λ '(c, s'), c = 0 ∧ pay s' = pay s ∧ dom s' = dom s ∧
    ∃ ls', timely k s' ls' ∧ concat ls' ≡ₚ x :: concat ls).
Proof using Hn Hbase.
  intros [HW Hst Hk] Hkmax Hx He Hx0 Hnin. destruct (slot_exists _ _ _ (Z.max e k) HW) as (j & l & Hj & Ej).
  assert (fast_timer_add (mkTimer n base k a) x s = (fast_timer_add (mkTimer n base k a) x s ≫= mret)) as -> by (by destruct (fast_timer_add _ _ _)).
  apply (step_wheel_add (mkTimer n base k a) s ls [] j l x e d r); [done|done|done|done|done| |].
  { cbn [current_time]. by rewrite slot_pointer, Ej by lia. }
  intros s' HW' ED EI. apply returns_mret. split_and!; [done|by eapply pay_flag|done|]. exists (<[j := x :: l]> ls). split; [|by apply concat_push].
  split; [done| |done]. intros j' l' y Hj' Hy. destruct (decide (y = x)) as [->|Hyx].
  - assert (j' = j) as ->.
    { destruct (decide (j' = j)) as [|Hne]; [done|exfalso]. rewrite list_lookup_insert_ne in Hj' by done. apply Hnin, slots_nodes. right. apply in_slot. by exists j', l'. }
    exists e, d, false. split_and!; [by rewrite EI, lookup_insert_eq|lia|lia|]. split; [exists (Z.max e k); split; [lia|done]|]. right.
    destruct (decide (e ≤ k)); [by left|right]. by rewrite Z.max_l in Ej by lia.
  - eapply stays_info; [by rewrite EI, lookup_insert_ne by congruence|].
    destruct (lookup_slot ls j j' _ _ y Hj (ex_intro _ l' (conj Hj' Hy))) as [(l2 & Hl2 & Hy2 & _)|[-> Hy2]]; [by eapply Hst|].
    apply elem_of_cons in Hy2 as [?|Hy2]; [done|by eapply Hst].
Qed.

Lemma timely_remove k s ls x : timely k s ls → x ∈ concat ls →
  returns (fast_timer_remove x s) (λ '(c, s'), c = 0 ∧ info s' = info s ∧ dom s' = dom s ∧
    ∃ ls', timely k s' ls' ∧ x :: concat ls' ≡ₚ concat ls ∧ x ≠ 0 ∧ x ∉ nodes (slots_of a ls')).
Proof.
  intros [HW Hst Hk] (j & l & Hj & Hx)%in_slot. apply list_elem_of_split in Hx as (l1 & l2 & ->).
  destruct (wheel_entry _ _ _ _ _ _ _ HW Hj) as (Hx0 & _ & Hxn & _).
  assert (fast_timer_remove x s = (fast_timer_remove x s ≫= mret)) as -> by (by destruct (fast_timer_remove _ _)).
  apply (step_wheel_remove s ls [] j l1 x l2); [done|done|]. intros s' HW' ED EI. apply returns_mret. split_and!; [done..|].
  exists (<[j := l1 ++ l2]> ls). split_and!; [|by apply concat_cut|done|done]. split; [done| |done].
  intros j' l' y Hj' Hy. eapply stays_info; [by rewrite EI|].
  destruct (lookup_slot ls j j' _ _ y Hj (ex_intro _ l' (conj Hj' Hy))) as [(l3 & Hl3 & Hy3 & _)|[-> Hy3]]; [by eapply Hst|].
  eapply Hst; [exact Hj|]. rewrite !elem_of_app, elem_of_cons in *. tauto.
Qed.

Lemma set_expires_ok s x en e : s !! x = Some en → ∃ s', set_expires x e s = Done s' ∧ nxt s' = nxt s ∧ prv s' = prv s ∧ dom s' = dom s ∧
  info s' = <[x := (e, data en, rehash en)]> (info s) ∧ pay s' = <[x := (e, data en)]> (pay s).
Proof.
  intros He. unfold set_expires. rewrite (at_ok s x en He). eexists. split; [done|]. unfold nxt, prv, info, pay. rewrite !fmap_insert. cbn.
  split_and!; [apply insert_id; by rewrite lookup_fmap, He..| |done|done]. rewrite dom_insert_L. apply elem_of_dom_2 in He. set_solver.
Qed.

Lemma slot_index k e : - 2 ^ 62 < e < 2 ^ 62 → base < 2 ^ 62 → TIMER_GET_SLOT_INDEX (mkTimer n base k a) e = Done (Z.rem (e - base) n).
Proof using Hn Hbase.
  intros He Hb. unfold TIMER_GET_SLOT_INDEX, clong. cbn [base_time slot_count].
  rewrite (proj2 (Z.leb_le _ _)), (proj2 (Z.ltb_lt _ _)) by lia. cbn [andb mbind res_bind]. by rewrite (proj2 (Z.eqb_neq n 0)) by lia.
Qed.

Lemma timely_modify k s ls x e0 d r e :
  timely k s ls → k < 2 ^ 62 → x ∈ concat ls → info s !! x = Some (e0, d, r) → - 2 ^ 62 < e < 2 ^ 62 →
  (e0 < e → Z.rem (e - base) n ≠ Z.rem (e0 - base) n ∨ r = false ∧ k < e0) →
  returns (fast_timer_modify (mkTimer n base k a) x e s) (λ '(c, s'), c = 0 ∧ dom s' = dom s ∧ pay s' = <[x := (e, d)]> (pay s) ∧
    ∃ ls', timely k s' ls' ∧ concat ls' ≡ₚ concat ls).
Proof using Hn Hbase.
  intros HT Hkmax Hin Hx He Hsafe. pose proof HT as [HW Hst Hk]. pose proof Hx as Hx'. apply info_entry in Hx' as (en & Hen & <- & <- & <-).
  unfold fast_timer_modify. rewrite (at_ok s x en Hen). cbn [mbind res_bind].
  destruct (Z.eqb_spec e (expires en)) as [->|Hne].
  { apply returns_mret. split_and!; [done|done|symmetry; apply insert_id; by apply pay_lookup in Hx|]. by exists ls. }
  destruct (Z.ltb_spec e (expires en)) as [Hlt|Hge].
  - apply returns_bind. eapply returns_mono; [by apply (timely_remove k s ls x)|]. intros [c1 s1] (-> & EI1 & ED1 & ls1 & HT1 & Hp1 & Hx0 & Hxn).
    cbv beta iota. rewrite <-EI1 in Hx. apply info_entry in Hx as (en1 & Hen1 & Ee1 & Ed1 & Er1).
    destruct (set_expires_ok s1 x en1 e Hen1) as (s2 & Es2 & EN2 & EP2 & ED2 & EI2 & Epay2). rewrite Es2. cbn [mbind res_bind].
    assert (timely k s2 ls1) as HT2.
    { destruct HT1 as [HW1 Hst1 _]. split; [by apply (wheel_same s1)| |done]. intros j l y Hj Hy. eapply stays_info; [|by eapply Hst1].
      rewrite EI2, lookup_insert_ne; [done|]. intros ->. apply Hxn, slots_nodes. right. apply in_slot. by exists j, l. }
    eapply returns_mono; [apply (timely_add k s2 ls1 x e (data en1) (rehash en1)); [done|done|by rewrite EI2, lookup_insert_eq|done|done|done]|].
    intros [c s'] (-> & Epay & Edom & ls' & HT' & Hp'). split_and!; [done|congruence| |exists ls'; by rewrite Hp'].
    rewrite Epay, Epay2, Ed1. f_equal. by apply pay_info.
  - assert (- 2 ^ 62 < expires en < 2 ^ 62) as Hr0.
    { destruct (proj1 (in_slot ls x) Hin) as (j & l & Hj & Hxl). destruct (Hst j l x Hj Hxl) as (e1 & d1 & r1 & Hi & Hr & _). rewrite Hx in Hi. by injection Hi as <- <- <-. }
    rewrite !slot_index by lia.
    cbn [mbind res_bind]. set (r' := negb _). destruct (set_rehash_ok s x en r' Hen) as (s1 & Es1 & EN1 & EP1 & ED1 & EI1). rewrite Es1. cbn [mbind res_bind].
    assert (info s1 !! x = Some (expires en, data en, r')) as Hx1 by by rewrite EI1, lookup_insert_eq.
    apply info_entry in Hx1 as (en1 & Hen1 & Ee1 & Ed1 & Er1).
    destruct (set_expires_ok s1 x en1 e Hen1) as (s2 & Es2 & EN2 & EP2 & ED2 & EI2 & Epay2). rewrite Es2. cbn [mbind res_bind]. apply returns_mret.
    assert (pay s1 = pay s) as Epay1.
    { assert (∀ s0, pay s0 = fst <$> info s0) as H by (intros s0; unfold pay, info; by rewrite <-map_fmap_compose).
      rewrite !H, EI1, fmap_insert. apply insert_id. by rewrite lookup_fmap, Hx. }
    split_and!; [done|congruence|by rewrite Epay2, Epay1, Ed1|]. exists ls. split; [|done]. split; [apply (wheel_same s1); [done..|]; by apply (wheel_same s)| |done].
    intros j l y Hj Hy. destruct (decide (y = x)) as [->|Hyx].
    + destruct (Hst j l x Hj Hy) as (e1 & d1 & r1 & Hi & Hr & (t & Ht & Et) & Hpl). rewrite Hx in Hi. injection Hi as <- <- <-.
      exists e, (data en), r'. split_and!; [by rewrite EI2, lookup_insert_eq, Ed1, Er1|lia|lia|]. split; [exists t; split; [lia|done]|].
      destruct r' eqn:Er'; [by left|right; right]. unfold r' in Er'. apply negb_false_iff, Z.eqb_eq in Er'.
      destruct Hsafe as [?|[Hr1 Hk1]]; [lia|done|]. destruct Hpl as [?|[?|Hidx]]; [congruence|lia|].
      unfold idx in *. rewrite !Z.rem_mod_nonneg in Er' by lia. congruence.
    + eapply stays_info; [|by eapply Hst]. rewrite EI2, EI1, !lookup_insert_ne by congruence. done.
Qed.

End timing.

(** * Properties *)

(** C27. No entry is late and none is early: a call of the time [time] lists exactly the
    entries of the wheel that expire before it, once each, and counts them; the others
    stay, expire when they did, and the wheel is in order for the next call. *)
Theorem fast_timer_timeouts_get_correct a n base k s ls time head :
  0 < n → 0 < base → timely a n base k s ls → head ∈ dom s → head ≠ 0 → head ∉ nodes (slots_of a ls) →
  k < time < 2 ^ 62 → Z.of_nat (size s) ≤ INT_MAX →
  returns (fast_timer_timeouts_get (mkTimer n base k a) time head s)
    (λ '(c, t', s'), t' = mkTimer n base time a ∧ pay s' = pay s ∧ ∃ ls' out, timely a n base time s' ls' ∧
      linked (nxt s') (prv s') head out 0 ∧ c = zlen out ∧ concat ls' ++ out ≡ₚ concat ls ∧
      ∀ x, x ∈ out ↔ ∃ e, pending s ls x e ∧ e < time).
Proof.
  intros Hn Hb HT Hhd Hh0 Hhn Htime Hsize.
  eapply returns_mono; [by apply (timeouts_ok a n base Hn Hb k s ls time head); try done; lia|].
  intros [[c t'] s'] (-> & Epay & Edom & ls' & out & HT' & Hl & Hc & Hp & _ & Hdue). rewrite Z.max_r by lia.
  rewrite (proj2 (Z.leb_gt time k)) in Hdue by lia. rewrite Z.max_r in HT' by lia. destruct Hdue as [Hdue Hlate].
  split_and!; [done|done|]. exists ls', out. split_and!; [done..|]. intros x. split.
  - intros Hx. destruct (Hdue x Hx) as (e & d & He & Hlt). exists e. split; [|done]. split; [rewrite <-Hp, elem_of_app; by right|by exists d].
  - intros (e & (Hin & d & He) & Hlt). rewrite <-Hp, elem_of_app in Hin. destruct Hin as [Hin|?]; [|done].
    destruct (Hlate x Hin) as (e' & d' & He' & Hge). rewrite He in He'. injection He' as <- <-. lia.
Qed.

(** C28. Changing the time of an entry keeps the wheel in order: an earlier time moves it
    at once, a later one marks it. For a later time whose slot is that of the old one,
    the entry must not be marked or overdue already. *)
Theorem fast_timer_modify_correct a n base k s ls x e0 d r e :
  0 < n → 0 < base → timely a n base k s ls → k < 2 ^ 62 → x ∈ concat ls → info s !! x = Some (e0, d, r) → - 2 ^ 62 < e < 2 ^ 62 →
  (e0 < e → Z.rem (e - base) n ≠ Z.rem (e0 - base) n ∨ r = false ∧ k < e0) →
  returns (fast_timer_modify (mkTimer n base k a) x e s) (λ '(c, s'), c = 0 ∧ pay s' = <[x := (e, d)]> (pay s) ∧
    ∃ ls', timely a n base k s' ls' ∧ concat ls' ≡ₚ concat ls).
Proof.
  intros Hn Hb HT Hk Hin Hx He Hsafe. eapply returns_mono; [by apply (timely_modify a n base Hn Hb k s ls x e0 d r e)|].
  intros [c s'] (-> & _ & Epay & Hls). by split_and!.
Qed.

(** Adding an entry that is in no list puts it into the wheel, in order; taking it
    out again leaves the others. *)
Theorem fast_timer_add_remove a n base k s ls x e d r :
  0 < n → 0 < base → timely a n base k s ls → k < 2 ^ 62 → info s !! x = Some (e, d, r) → - 2 ^ 62 < e < 2 ^ 62 → x ≠ 0 → x ∉ nodes (slots_of a ls) →
  returns ('(_, s1) ← fast_timer_add (mkTimer n base k a) x s; '(c, s2) ← fast_timer_remove x s1; mret (c, s1, s2)) (λ '(c, s1, s2), c = 0 ∧
    (∃ ls1, timely a n base k s1 ls1 ∧ concat ls1 ≡ₚ x :: concat ls) ∧ (∃ ls2, timely a n base k s2 ls2 ∧ concat ls2 ≡ₚ concat ls) ∧ pay s2 = pay s).
Proof.
  intros Hn Hb HT Hk Hx He Hx0 Hnin. apply returns_bind. eapply returns_mono; [by eapply timely_add|].
  intros [c1 s1] (-> & Epay1 & _ & ls1 & HT1 & Hp1). cbv beta iota. apply returns_bind.
  eapply returns_mono; [apply (timely_remove a n base k s1 ls1 x); [done|]; rewrite Hp1; by left|].
  intros [c2 s2] (-> & EI2 & _ & ls2 & HT2 & Hp2 & _). apply returns_mret. split_and!; [done|by exists ls1| |by rewrite (pay_info _ _ EI2)].
  exists ls2. split; [done|]. apply (Permutation_cons_inv (a := x)). by rewrite Hp2.
Qed.

Lemma clear_slots_lookup a m (s : store) x : 0 ≤ m →
  foldr (λ i (s : store), <[a + i := zero_entry]> s) s (seqZ 0 m) !! x = if (a <=? x) && (x <? a + m) then Some zero_entry else s !! x.
Proof.
  intros Hm. rewrite <-(Z2Nat.id m) by done. generalize (Z.to_nat m). clear m Hm. intros m.
  assert (∀ b, foldr (λ i (s : store), <[a + i := zero_entry]> s) s (seqZ b (Z.of_nat m)) !! x = if (a + b <=? x) && (x <? a + b + Z.of_nat m) then Some zero_entry else s !! x) as H.
  2: { rewrite H, !Z.add_0_r. done. }
  induction m as [|m IH]; intros b.
  - change (seqZ b (Z.of_nat 0)) with (@nil Z). cbn [foldr]. destruct (Z.leb_spec (a + b) x), (Z.ltb_spec x (a + b + Z.of_nat 0)); cbn [andb]; (lia || done).
  - rewrite Nat2Z.inj_succ, seqZ_cons by lia. cbn [foldr]. replace (Z.pred (Z.succ (Z.of_nat m))) with (Z.of_nat m) by lia.
    destruct (decide (a + b = x)) as [<-|Hne].
    + rewrite lookup_insert_eq, Z.leb_refl. by rewrite (proj2 (Z.ltb_lt _ _)) by lia.
    + rewrite lookup_insert_ne, IH by done. replace (Z.succ b) with (b + 1) by lia.
      destruct (Z.leb_spec (a + (b + 1)) x), (Z.leb_spec (a + b) x), (Z.ltb_spec x (a + (b + 1) + Z.of_nat m)), (Z.ltb_spec x (a + b + Z.succ (Z.of_nat m))); cbn; (done || lia).
Qed.

(** A new wheel is in order and empty, when the array's size is an int and memory is
    there. *)
Theorem fast_timer_init_correct malloc errno timer n k s a :
  0 < n → 0 < k → sizeof_slot * n < 2 ^ 31 → malloc (sizeof_slot * n) = Some a → 0 < a →
  fast_timer_init malloc errno timer n k s = (0, mkTimer n k k a, clear_slots a (sizeof_slot * n) s) ∧
  timely a n k k (clear_slots a (sizeof_slot * n) s) (replicate (Z.to_nat n) []).
Proof.
  intros Hn Hk Hmax Hmal Ha. unfold sizeof_slot in *. split.
  - unfold fast_timer_init, sizeof_slot. rewrite (proj2 (Z.leb_gt n 0)), (proj2 (Z.leb_gt k 0)) by lia. cbn [orb].
    assert (sext 32 (u64 (40 * n)) = 40 * n) as ->.
    { unfold sext, u64. change (2 ^ 64) with 18446744073709551616. change (2 ^ 32) with 4294967296. change (2 ^ (32 - 1)) with 2147483648.
      rewrite (Z.mod_small (40 * n) 18446744073709551616), Z.mod_small by lia. by rewrite (proj2 (Z.ltb_lt _ _)) by lia. }
    assert (u64 (40 * n) = 40 * n) as -> by (unfold u64; rewrite Z.mod_small by lia; done). by rewrite Hmal.
  - assert (40 * n / sizeof_slot = n) as Ediv by (unfold sizeof_slot; rewrite Z.mul_comm, Z.div_mul by done; done).
    assert (∀ x, clear_slots a (40 * n) s !! x = if (a <=? x) && (x <? a + n) then Some zero_entry else s !! x) as Hlook.
    { intros x. unfold clear_slots. rewrite Ediv. apply clear_slots_lookup. lia. }
    assert (∀ x, x ∈ nodes (slots_of a (replicate (Z.to_nat n) [])) ↔ a ≤ x < a + n) as Hnodes.
    { intros x. rewrite slots_nodes, length_replicate. split.
      - intros [(i & Hi & ->)|Hx]; [lia|]. apply in_slot in Hx as (j & l & Hj & Hx). apply lookup_replicate in Hj as [-> _]. by apply elem_of_nil in Hx.
      - intros Hx. left. exists (Z.to_nat (x - a)). lia. }
    assert (∀ m b, nodes (imap (λ i l, (b + Z.of_nat i, l, 0)) (replicate m [])) = seqZ b (Z.of_nat m)) as Hseq.
    { induction m as [|m IH]; intros b; [done|]. rewrite Nat2Z.inj_succ, seqZ_cons by lia. cbn [replicate imap]. rewrite Z.add_0_r.
      change (b :: nodes (imap (λ i l, (b + Z.of_nat (S i), l, 0)) (replicate m [])) = b :: seqZ (Z.succ b) (Z.pred (Z.succ (Z.of_nat m)))).
      replace (Z.pred (Z.succ (Z.of_nat m))) with (Z.of_nat m) by lia. f_equal. rewrite <-IH. f_equal. apply imap_ext. intros i l _. do 2 f_equal. lia. }
    split; [split|..].
    + cbn [app]. split.
      * intros h l z Hin. unfold slots_of in Hin. apply elem_of_lookup_imap in Hin as (i & l' & [= -> -> ->] & Hi).
        apply lookup_replicate in Hi as [-> Hi]. cbn. unfold nxt. rewrite lookup_fmap, Hlook.
        rewrite (proj2 (Z.leb_le a _)), (proj2 (Z.ltb_lt _ _)) by lia. done.
      * unfold slots_of. rewrite Hseq. apply NoDup_seqZ.
      * rewrite Hnodes. lia.
    + cbn [app]. intros x Hx%Hnodes. apply elem_of_dom. rewrite Hlook. rewrite (proj2 (Z.leb_le a _)), (proj2 (Z.ltb_lt _ _)) by lia. by eexists.
    + by rewrite length_replicate.
    + intros j l x Hj Hx. apply lookup_replicate in Hj as [-> _]. by apply elem_of_nil in Hx.
    + lia.
Qed.

(** The size of the array is cut to an int: so many slots ask for 24 bytes, the call
    reports success, and the first entry added is linked outside the array. *)
Theorem fast_timer_init_overflow malloc errno timer k s a x :
  0 < k < 2 ^ 62 → malloc 24 = Some a → s !! a = None → (∃ e, s !! x = Some e ∧ expires e ≤ k) →
  ∃ t s', fast_timer_init malloc errno timer 107374183 k s = (0, t, s') ∧ fast_timer_add t x s' = Undef.
Proof.
  intros Hk Hmal Ha (e & He & Hle). exists (mkTimer 107374183 k k a), s. split.
  - unfold fast_timer_init. change (107374183 <=? 0) with false. rewrite (proj2 (Z.leb_gt k 0)) by lia. cbn [orb].
    change (u64 (sext 32 (u64 (sizeof_slot * 107374183)))) with 24. by rewrite Hmal.
  - unfold fast_timer_add. rewrite (at_ok s x e He). cbn [mbind res_bind current_time]. rewrite (proj2 (Z.ltb_ge k (expires e))) by lia.
    rewrite (slot_pointer a 107374183 k) by lia. unfold idx. rewrite Z.sub_diag. change (0 mod 107374183) with 0. rewrite Z.add_0_r.
    cbn [mbind res_bind]. assert (at_ s a = Undef) as -> by (unfold at_; by rewrite Ha). done.
Qed.

(** * Witnesses *)

(** A wheel of two slots at 1 and 2, an entry that expires at 101 in the second one,
    an entry outside and a list head. *)
Definition sample_wheel : store :=
  <[1 := zero_entry]> (<[2 := mkEntry 0 0 0 3 false]> (<[3 := mkEntry 101 7 2 0 false]> (<[4 := zero_entry]> {[5 := mkEntry 107 8 0 0 true]}))).

Lemma sample_timely : timely 1 2 100 100 sample_wheel [[]; [3]].
Proof.
  split; [split|..].
  - cbn. apply good_cons. split_and!; [done|apply good_cons; split_and!|..]; cbn; try done.
    + apply good_nil.
    + apply NoDup_cons. split; [set_solver|apply NoDup_singleton].
    + set_solver.
    + intros x _. apply not_elem_of_nil.
    + apply NoDup_singleton.
    + set_solver.
    + set_solver.
  - intros x Hx. cbn in Hx. apply elem_of_dom. unfold sample_wheel. rewrite !elem_of_cons, elem_of_nil in Hx. destruct Hx as [->|[->|[->|[]]]]; by eexists.
  - done.
  - intros [|[|j]] l x Hj Hx; [injection Hj as <-; by apply elem_of_nil in Hx| |done]. injection Hj as <-. apply list_elem_of_singleton in Hx as ->.
    exists 101, 7, false. split_and!; [done|lia|lia|]. split; [by exists 101|by right; right].
  - done.
Qed.

Lemma sample_outside x : x ∉ [1; 2; 3] → x ∉ nodes (slots_of 1 [[]; [3]]).
Proof. done. Qed.

Lemma fast_timer_timeouts_get_correct_witness :
  returns (fast_timer_timeouts_get (mkTimer 2 100 100 1) 103 4 sample_wheel)
    (λ '(c, t', s'), t' = mkTimer 2 100 103 1 ∧ pay s' = pay sample_wheel ∧ ∃ ls' out, timely 1 2 100 103 s' ls' ∧
      linked (nxt s') (prv s') 4 out 0 ∧ c = zlen out ∧ concat ls' ++ out ≡ₚ concat [[]; [3]] ∧
      ∀ x, x ∈ out ↔ ∃ e, pending sample_wheel [[]; [3]] x e ∧ e < 103).
Proof.
  apply (fast_timer_timeouts_get_correct 1 2 100 100 sample_wheel [[]; [3]] 103 4); [lia|lia|exact sample_timely| |lia| |lia|by vm_compute].
  - apply elem_of_dom. by eexists.
  - apply sample_outside. set_solver.
Defined.

Lemma fast_timer_modify_correct_witness :
  returns (fast_timer_modify (mkTimer 2 100 100 1) 3 105 sample_wheel) (λ '(c, s'), c = 0 ∧ pay s' = <[3 := (105, 7)]> (pay sample_wheel) ∧
    ∃ ls', timely 1 2 100 100 s' ls' ∧ concat ls' ≡ₚ concat [[]; [3]]).
Proof.
  apply (fast_timer_modify_correct 1 2 100 100 sample_wheel [[]; [3]] 3 101 7 false 105); [lia|lia|exact sample_timely|lia|set_solver|done|lia|].
  intros _. right. split; [done|lia].
Defined.

Lemma fast_timer_add_remove_witness :
  returns ('(_, s1) ← fast_timer_add (mkTimer 2 100 100 1) 5 sample_wheel; '(c, s2) ← fast_timer_remove 5 s1; mret (c, s1, s2)) (λ '(c, s1, s2), c = 0 ∧
    (∃ ls1, timely 1 2 100 100 s1 ls1 ∧ concat ls1 ≡ₚ 5 :: concat [[]; [3]]) ∧ (∃ ls2, timely 1 2 100 100 s2 ls2 ∧ concat ls2 ≡ₚ concat [[]; [3]]) ∧
    pay s2 = pay sample_wheel).
Proof.
  apply (fast_timer_add_remove 1 2 100 100 sample_wheel [[]; [3]] 5 107 8 true); [lia|lia|exact sample_timely|lia|done|lia|lia|].
  apply sample_outside. set_solver.
Defined.

Lemma fast_timer_init_correct_witness :
  fast_timer_init (λ _, Some 1) 0 (mkTimer 0 0 0 0) 2 100 ∅ = (0, mkTimer 2 100 100 1, clear_slots 1 80 ∅) ∧
  timely 1 2 100 100 (clear_slots 1 80 ∅) [[]; []].
Proof. apply (fast_timer_init_correct (λ _, Some 1) 0 (mkTimer 0 0 0 0) 2 100 ∅ 1); [lia|lia|unfold sizeof_slot; lia|done|lia]. Defined.

(** An entry whose time is put off twice, the second time to the slot of the first
    new time: it expires at 115 and is listed only by the call of 122. *)
Definition put_off_twice : res (list Z) :=
  let s := <[20 := mkEntry 101 0 0 0 false]> (<[30 := zero_entry]> (clear_slots 1 400 ∅)) in
  let t := mkTimer 10 100 100 1 in
  '(_, s) ← fast_timer_add t 20 s;
  '(_, s) ← fast_timer_modify t 20 105 s;
  '(_, s) ← fast_timer_modify t 20 115 s;
  '(c1, t, s) ← fast_timer_timeouts_get t 102 30 s;
  '(c2, t, s) ← fast_timer_timeouts_get t 112 30 s;
  '(c3, t, s) ← fast_timer_timeouts_get t 117 30 s;
  '(c4, t, s) ← fast_timer_timeouts_get t 122 30 s;
  mret [c1; c2; c3; c4].

(** The second change clears the mark although the entry is not in its slot. *)
Theorem put_off_twice_late : put_off_twice = Done [0; 0; 0; 1].
Proof. by vm_compute. Qed.
