(* ===== verification/SkipList.v ===== *)
(** libs/fastcommon/src/skiplist_set.c: a sorted set as a skip list.

    Nodes are objects of the heap of CMemory.v, with their array of links. The values
    of rand() during an insertion and the results of setting up the node allocators are
    given; that there is a next block when an allocator is asked for one is an outcome
    of the heap's allocations. *)
From S2P Require Import Prelude SortedSet CMemory.

(** * Code *)

Record SkiplistSetNode := mkNode { data : Z; links : list Z }.

Abbreviation nheap := (heap SkiplistSetNode).
Abbreviation NM := (M SkiplistSetNode).

(** [free_func] tells whether there is one, [mblocks] whether the allocators exist;
    [tmp_previous] is the array. *)
Record SkiplistSet := mkSet {
  level_count : Z;
  top_level_index : Z;
  compare_func : Z → Z → Z;
  free_func : bool;
  mblocks : bool;
  top : Z;
  tail : Z;
  tmp_previous : list Z }.

Definition EINVAL : Z := 22.
Definition E2BIG : Z := 7.
Definition ENOMEM : Z := 12.
Definition EEXIST : Z := 17.
Definition ENOENT : Z := 2.

(** An object of the allocator of level [i] has room for [i] + 1 links; it is only
    given back to that allocator. *)
Definition fast_mblock_alloc_object (i : nat) : NM Z := λ h,
  malloc_struct (mkNode (junk h) (replicate (S i) (junk h))) h.

Definition fast_mblock_free_object (i : nat) (x : Z) : NM unit :=
  n ← deref x; if decide (length (links n) = S i) then free_struct x else undef.

(** [p->links[i]] *)
Definition link (p : Z) (i : nat) : NM Z := n ← deref p; lift (of_opt (links n !! i)).

Definition set_link (p : Z) (i : nat) (x : Z) : NM unit :=
  n ← deref p;
  if decide (i < length (links n))%nat then put p (mkNode (data n) (<[i := x]> (links n))) else undef.

Fixpoint link_tail (n i : nat) (top tail : Z) : NM unit :=
  match n with O => mret () | S n => set_link top i tail;; link_tail n (S i) top tail end.

Definition set_arrays (sl : SkiplistSet) (m : bool) (tmp : list Z) : SkiplistSet :=
  mkSet (level_count sl) (top_level_index sl) (compare_func sl) (free_func sl) m (top sl) (tail sl) tmp.

Definition set_top (sl : SkiplistSet) (top_level_index top : Z) : SkiplistSet :=
  mkSet (level_count sl) top_level_index (compare_func sl) (free_func sl) (mblocks sl) top (tail sl) (tmp_previous sl).

Definition set_tail (sl : SkiplistSet) (tail : Z) : SkiplistSet :=
  mkSet (level_count sl) (top_level_index sl) (compare_func sl) (free_func sl) (mblocks sl) (top sl) tail (tmp_previous sl).

(** What [malloc] gives for the two arrays, the content of the first being
    indeterminate; what [fast_mblock_init_ex] returns for the levels from the highest
    down; [errno] is what a failed malloc leaves. *)
Definition skiplist_set_init_ex (previous : option (list Z)) (mblocks_ok : bool) (errno : Z) (inits : list Z)
    (sl : SkiplistSet) (level_count : Z) (compare_func : Z → Z → Z) (free_func : bool) : NM (Z * SkiplistSet) :=
  if level_count <=? 0 then mret (EINVAL, sl) else
  if 30 <? level_count then mret (E2BIG, sl) else
  let no_memory := if negb (errno =? 0) then errno else ENOMEM in
  match previous with
  | None => mret (no_memory, set_arrays sl (mblocks sl) [])
  | Some previous =>
      let sl := set_arrays sl mblocks_ok (take (Z.to_nat level_count) previous) in
      if negb mblocks_ok then mret (no_memory, sl) else
      match list_find (λ r, r ≠ 0) (take (Z.to_nat level_count) inits) with
      | Some (_, r) => mret (r, sl)
      | None =>
          let top_level_index := level_count - 1 in
          top ← fast_mblock_alloc_object (Z.to_nat top_level_index);
          let sl := set_top sl top_level_index top in
          if top =? 0 then mret (ENOMEM, sl) else
          put top (mkNode 0 (replicate (S (Z.to_nat top_level_index)) 0));;
          tail ← fast_mblock_alloc_object 0;
          let sl := set_tail sl tail in
          if tail =? 0 then mret (ENOMEM, sl) else
          put tail (mkNode 0 [0]);;
          link_tail (Z.to_nat level_count) 0 top tail;;
          mret (0, mkSet level_count top_level_index compare_func free_func true top tail (tmp_previous sl))
      end
  end.

(** The nodes from [node] on, by the links of level 0. *)
Fixpoint nodes_from (fuel : nat) (sl : SkiplistSet) (node : Z) : NM (list Z) :=
  if node =? tail sl then mret [] else
  match fuel with
  | O => λ _, OutOfFuel
  | S fuel => next ← link node 0; ns ← nodes_from fuel sl next; mret (node :: ns)
  end.

Fixpoint data_of (ns : list Z) : NM (list Z) :=
  match ns with
  | [] => mret []
  | x :: ns => n ← deref x; ds ← data_of ns; mret (data n :: ds)
  end.

Fixpoint free_structs (ns : list Z) : NM unit :=
  match ns with [] => mret () | x :: ns => free_struct x;; free_structs ns end.

(** The data given to [free_func], in order. The objects the allocators have given out
    are the nodes linked and the two ends; destroying the allocators ends them. *)
Definition skiplist_set_destroy (sl : SkiplistSet) : NM (list Z * SkiplistSet) := λ h,
  (if negb (mblocks sl) then mret ([], sl) else
   node ← link (top sl) 0;
   ns ← nodes_from (size (structs h)) sl node;
   ds ← data_of ns;
   free_structs (top sl :: tail sl :: ns);;
   mret (if free_func sl then ds else [], set_arrays sl false (tmp_previous sl)) : NM (list Z * SkiplistSet)) h.

Definition RAND_MAX : Z := 2 ^ 31 - 1.

(** [rands] are the values of [rand()], one for each level tried. *)
Fixpoint get_level_index (n i : nat) (rands : nat → Z) : nat :=
  match n with
  | O => i
  | S n => if rands i <? RAND_MAX / 2 then i else get_level_index n (S i) rands
  end.

Definition skiplist_set_get_level_index (sl : SkiplistSet) (rands : nat → Z) : nat :=
  get_level_index (Z.to_nat (top_level_index sl)) 0 rands.

(** The loop over the nodes of a level that all searches share: the node it stops at,
    and whether the next one compares equal. *)
Fixpoint walk_level (fuel : nat) (sl : SkiplistSet) (key : Z) (i : nat) (previous : Z) : NM (Z * bool) :=
  match fuel with
  | O => λ _, OutOfFuel
  | S fuel =>
      y ← link previous i;
      if y =? tail sl then mret (previous, false) else
      n ← deref y;
      let cmp := compare_func sl key (data n) in
      if cmp <? 0 then mret (previous, false)
      else if cmp =? 0 then mret (previous, true)
      else walk_level fuel sl key i y
  end.

Definition walk (sl : SkiplistSet) (key : Z) (i : nat) (previous : Z) : NM (Z * bool) := λ h,
  walk_level (size (structs h)) sl key i previous h.

(** The loops over the levels of the searches: the last node, and the level at which
    the next one compares equal. *)
Fixpoint descend (sl : SkiplistSet) (key : Z) (i : nat) (previous : Z) : NM (Z * option nat) :=
  '(previous, found) ← walk sl key i previous;
  if (found : bool) then mret (previous, Some i)
  else match i with O => mret (previous, None) | S i => descend sl key i previous end.

(** The levels of an insertion: from [level_index] down, the nodes are recorded.
    The flag tells whether the key is there. *)
Fixpoint descend_record (sl : SkiplistSet) (key : Z) (level_index i : nat) (previous : Z) (tmp : list Z) : NM (list Z * bool) :=
  '(previous, found) ← walk sl key i previous;
  if (found : bool) then mret (tmp, true) else
  tmp ← lift (if decide (i ≤ level_index)%nat then store tmp (Z.of_nat i) previous else mret tmp);
  match i with O => mret (tmp, false) | S i => descend_record sl key level_index i previous tmp end.

(** The new node is linked into the levels from 0 on, [n] of them. *)
Fixpoint link_levels (n i : nat) (node : Z) (tmp : list Z) : NM unit :=
  match n with
  | O => mret ()
  | S n =>
      p ← lift (load tmp (Z.of_nat i));
      x ← link p i;
      set_link node i x;;
      set_link p i node;;
      link_levels n (S i) node tmp
  end.

Definition skiplist_set_insert (rands : nat → Z) (sl : SkiplistSet) (key : Z) : NM (Z * SkiplistSet) :=
  let level_index := skiplist_set_get_level_index sl rands in
  '(tmp, found) ← descend_record sl key level_index (Z.to_nat (top_level_index sl)) (top sl) (tmp_previous sl);
  let sl := set_arrays sl (mblocks sl) tmp in
  if (found : bool) then mret (EEXIST, sl) else
  node ← fast_mblock_alloc_object level_index;
  if node =? 0 then mret (ENOMEM, sl) else
  n ← deref node;
  put node (mkNode key (links n));;
  link_levels (S level_index) 0 node tmp;;
  mret (0, sl).

(** The node before the equal one, and the level. *)
Definition skiplist_set_get_equal_previous (sl : SkiplistSet) (key : Z) : NM (option (Z * nat)) :=
  '(previous, found) ← descend sl key (Z.to_nat (top_level_index sl)) (top sl);
  mret (match found with Some i => Some (previous, i) | None => None end).

Definition skiplist_set_get_first_larger_or_equal (sl : SkiplistSet) (key : Z) : NM Z :=
  '(previous, found) ← descend sl key (Z.to_nat (top_level_index sl)) (top sl);
  match found with Some i => link previous i | None => link previous 0 end.

Definition skiplist_set_get_first_larger (sl : SkiplistSet) (key : Z) : NM Z :=
  '(previous, found) ← descend sl key (Z.to_nat (top_level_index sl)) (top sl);
  match found with
  | Some i => node ← link previous i; link node 0
  | None => link previous 0
  end.

(** To the node of level [i] before [deleted]. *)
Fixpoint find_deleted (fuel : nat) (sl : SkiplistSet) (deleted : Z) (i : nat) (previous : Z) : NM Z :=
  match fuel with
  | O => λ _, OutOfFuel
  | S fuel =>
      y ← link previous i;
      if (y =? tail sl) || (y =? deleted) then mret previous else find_deleted fuel sl deleted i y
  end.

(** A failed assertion ends the program. *)
Fixpoint unlink_levels (fuel : nat) (sl : SkiplistSet) (deleted : Z) (i : nat) (previous : Z) : NM unit :=
  previous ← find_deleted fuel sl deleted i previous;
  y ← link previous i;
  if negb (y =? deleted) then undef else
  x ← link y i;
  set_link previous i x;;
  match i with O => mret () | S i => unlink_levels fuel sl deleted i previous end.

(** The result and the data given to [free_func]. *)
Definition skiplist_set_delete (sl : SkiplistSet) (key : Z) : NM (Z * list Z) :=
  r ← skiplist_set_get_equal_previous sl key;
  match r with
  | None => mret (ENOENT, [])
  | Some (previous, level_index) =>
      deleted ← link previous level_index;
      (λ h, unlink_levels (size (structs h)) sl deleted level_index previous h);;
      n ← deref deleted;
      fast_mblock_free_object level_index deleted;;
      mret (0, if free_func sl then [data n] else [])
  end.

Definition skiplist_set_find (sl : SkiplistSet) (key : Z) : NM Z :=
  r ← skiplist_set_get_equal_previous sl key;
  match r with
  | None => mret 0
  | Some (previous, level_index) => y ← link previous level_index; n ← deref y; mret (data n)
  end.

Record SkiplistSetIterator := mkIterator { it_tail : Z; current : Z }.

Definition skiplist_set_find_all (sl : SkiplistSet) (key : Z) : NM (Z * SkiplistSetIterator) :=
  r ← skiplist_set_get_equal_previous sl key;
  match r with
  | None => mret (ENOENT, mkIterator (tail sl) (tail sl))
  | Some (previous, level_index) =>
      current ← link previous level_index;
      t ← link current 0;
      mret (0, mkIterator t current)
  end.

Definition skiplist_set_find_range (sl : SkiplistSet) (start_data end_data : Z) : NM (Z * SkiplistSetIterator) :=
  if 0 <? compare_func sl start_data end_data then mret (EINVAL, mkIterator (tail sl) (tail sl)) else
  current ← skiplist_set_get_first_larger_or_equal sl start_data;
  if current =? tail sl then mret (ENOENT, mkIterator (tail sl) current) else
  t ← skiplist_set_get_first_larger sl end_data;
  mret (if negb (current =? t) then 0 else ENOENT, mkIterator t current).

Definition skiplist_set_iterator (sl : SkiplistSet) : NM SkiplistSetIterator :=
  current ← link (top sl) 0; mret (mkIterator (tail sl) current).

(** The data, NULL at the end, and the iterator. *)
Definition skiplist_set_next (iterator : SkiplistSetIterator) : NM (Z * SkiplistSetIterator) :=
  if current iterator =? it_tail iterator then mret (0, iterator) else
  n ← deref (current iterator);
  x ← link (current iterator) 0;
  mret (data n, mkIterator (it_tail iterator) x).

Definition skiplist_set_empty (sl : SkiplistSet) : NM bool :=
  x ← link (top sl) 0; mret (x =? tail sl).

(** Everything an iterator returns until NULL. *)
Fixpoint drain (fuel : nat) (iterator : SkiplistSetIterator) : NM (list Z) :=
  match fuel with
  | O => λ _, OutOfFuel
  | S fuel =>
      '(d, iterator) ← skiplist_set_next iterator;
      if d =? 0 then mret [] else ds ← drain fuel iterator; mret (d :: ds)
  end.

(** * The nodes in memory *)

Abbreviation nodes := (gmap Z SkiplistSetNode).

(** Field [links[i]] of node [a], its data, and how many links it has. *)
Definition lnk (s : nodes) (i : nat) (a : Z) : option Z := n ← s !! a; links n !! i.
Definition key (s : nodes) (a : Z) : Z := match s !! a with Some n => data n | None => 0 end.
Definition height (s : nodes) (a : Z) : nat := match s !! a with Some n => length (links n) | None => 0%nat end.

Definition upd (s : nodes) (a : Z) (i : nat) (x : Z) : nodes :=
  alter (λ n, mkNode (data n) (<[i := x]> (links n))) a s.

(** Two stores with the same nodes, up to their links. *)
Definition same_shape (s s' : nodes) : Prop :=
  dom s' = dom s ∧ (∀ a, key s' a = key s a) ∧ (∀ a, height s' a = height s a).

Lemma same_shape_refl s : same_shape s s.
Proof. done. Qed.

Lemma same_shape_trans s1 s2 s3 : same_shape s1 s2 → same_shape s2 s3 → same_shape s1 s3.
Proof. intros (E1 & K1 & H1) (E2 & K2 & H2). split_and!; [congruence|intros; by rewrite K2|intros; by rewrite H2]. Qed.

Lemma lnk_height s i a : is_Some (lnk s i a) ↔ (i < height s a)%nat.
Proof.
  unfold lnk, height. destruct (s !! a) as [n|]; cbn; [apply lookup_lt_is_Some|].
  split; [by intros []|lia].
Qed.

Lemma lnk_upd s a i x j b :
  (i < height s a)%nat → lnk (upd s a i x) j b = if decide (b = a ∧ j = i) then Some x else lnk s j b.
Proof.
  unfold lnk, upd, height. intros Hi. case_decide as Hd.
  - destruct Hd as [-> ->]. rewrite lookup_alter_eq. destruct (s !! a) as [n|]; cbn in *; [|lia].
    by rewrite list_lookup_insert_eq.
  - destruct (decide (b = a)) as [->|Hb]; [|by rewrite lookup_alter_ne].
    rewrite lookup_alter_eq. destruct (s !! a) as [n|]; cbn in *; [|lia].
    rewrite list_lookup_insert_ne; [done|]. intros ->. by apply Hd.
Qed.

Lemma upd_shape s a i x : same_shape s (upd s a i x).
Proof.
  unfold same_shape, upd, key, height. split_and!; [by rewrite dom_alter_L| |]; intros b;
    (destruct (decide (b = a)) as [->|Hb]; [rewrite lookup_alter_eq|by rewrite lookup_alter_ne]);
    destruct (s !! a) as [n|]; cbn; try done. by rewrite length_insert.
Qed.

Lemma height_dom s a : (0 < height s a)%nat → is_Some (s !! a).
Proof. unfold height. destruct (s !! a); [done|lia]. Qed.

Lemma M_ret_eq {A} (x : A) (h : nheap) : (mret x : NM A) h = Done (x, h).
Proof. done. Qed.

Lemma lift_ok {A} (m : res A) x (h : nheap) : m = Done x → (lift m : NM A) h = Done (x, h).
Proof. by intros ->. Qed.

(** One step of a computation whose next operation's result is known. *)
Ltac m_step E := rewrite M_bind_eq, E; cbn [mbind res_bind].

Section reads.
Implicit Types (h : nheap) (s : nodes).

Lemma link_ok h p i x : lnk (structs h) i p = Some x → link p i h = Done (x, h).
Proof.
  unfold lnk, link. intros E. rewrite M_bind_eq. unfold deref.
  destruct (structs h !! p) as [n|]; [|done]. cbn in *. by rewrite E.
Qed.

Lemma set_link_ok h p i x :
  (i < height (structs h) p)%nat → set_link p i x h = Done (tt, with_structs h (upd (structs h) p i x)).
Proof.
  unfold height, set_link. intros Hi. destruct (structs h !! p) as [n|] eqn:E; [|lia].
  rewrite M_bind_eq, (deref_ok _ n) by done. cbn [mbind res_bind]. rewrite decide_True by done.
  rewrite (put_ok _ n) by done. unfold upd. do 2 f_equal. unfold with_structs. f_equal.
  apply map_eq. intros b. destruct (decide (b = p)) as [->|].
  - by rewrite lookup_insert_eq, lookup_alter_eq, E.
  - by rewrite lookup_insert_ne, lookup_alter_ne.
Qed.

Lemma deref_node h p : is_Some (structs h !! p) → ∃ n, deref p h = Done (n, h) ∧ data n = key (structs h) p
  ∧ length (links n) = height (structs h) p.
Proof. intros [n E]. exists n. rewrite (deref_ok p n) by done. unfold key, height. by rewrite E. Qed.
End reads.

(** ** Lists of nodes along the links of a level *)

Fixpoint path (s : nodes) (i : nat) (a : Z) (xs : list Z) (b : Z) : Prop :=
  match xs with
  | [] => lnk s i a = Some b
  | x :: xs => lnk s i a = Some x ∧ path s i x xs b
  end.

Fixpoint last_of (a : Z) (xs : list Z) : Z :=
  match xs with [] => a | x :: xs => last_of x xs end.

Lemma last_of_app a xs ys : last_of a (xs ++ ys) = last_of (last_of a xs) ys.
Proof. revert a. induction xs; intros; cbn; [done|by rewrite IHxs]. Qed.

Lemma last_of_elem a xs : last_of a xs = a ∧ xs = [] ∨ last_of a xs ∈ xs.
Proof.
  revert a. induction xs as [|x xs IH]; intros a; [by left|]. right. cbn.
  destruct (IH x) as [[-> ->]|]; [left|by right].
Qed.

Lemma last_of_in a xs : last_of a xs ∈ a :: xs.
Proof. destruct (last_of_elem a xs) as [[-> _]|]; [left|by right]. Qed.

Lemma path_app s i a xs y ys b : path s i a (xs ++ y :: ys) b ↔ path s i a xs y ∧ path s i y ys b.
Proof. revert a. induction xs as [|x xs IH]; intros a; cbn; [done|]. rewrite IH. tauto. Qed.

(** The list is split at its end. *)
Lemma path_split s i a xs ys b :
  path s i a (xs ++ ys) b ↔ path s i a xs (hd b ys) ∧ (ys = [] ∨ path s i (last_of a xs) ys b).
Proof.
  destruct ys as [|y ys]; cbn [hd]; [rewrite app_nil_r; tauto|]. rewrite path_app. split.
  - intros [H1 H2]. split; [done|]. right. cbn. split; [|done].
    clear H2. revert a H1. induction xs as [|x xs IH]; intros a; cbn; [done|]. intros [_ ?]. by apply IH.
  - intros [H1 [?|H2]]; [done|]. split; [done|]. by destruct H2.
Qed.

Lemma path_last s i a xs b : path s i a xs b → lnk s i (last_of a xs) = Some b.
Proof. revert a. induction xs as [|x xs IH]; intros a; cbn; [done|]. intros [_ ?]. by apply IH. Qed.

Lemma path_drop s i a xs ys b : path s i a (xs ++ ys) b → path s i (last_of a xs) ys b.
Proof. revert a. induction xs as [|x xs IH]; intros a; cbn; [done|]. intros [_ ?]. by apply IH. Qed.

Lemma path_ext s s' i a xs b :
  (∀ c, c ∈ a :: xs → lnk s' i c = lnk s i c) → path s i a xs b → path s' i a xs b.
Proof.
  revert a. induction xs as [|x xs IH]; intros a E; cbn.
  - by rewrite E by left.
  - intros [H1 H2]. split; [by rewrite E by left|]. apply IH; [|done]. intros c Hc. apply E. by right.
Qed.

Lemma path_change s s' i a xs b b' :
  NoDup (a :: xs) → (∀ c, c ∈ a :: xs → c ≠ last_of a xs → lnk s' i c = lnk s i c) →
  lnk s' i (last_of a xs) = Some b' → path s i a xs b → path s' i a xs b'.
Proof.
  revert a. induction xs as [|x xs IH]; intros a Hnd E Hl; cbn; [done|].
  intros [H1 H2]. pose proof (proj1 (NoDup_cons a (x :: xs)) Hnd) as [Ha Hnd']. split.
  - rewrite E; [done|left|]. cbn. intros Eq. apply Ha. rewrite Eq. apply last_of_in.
  - apply IH; [done| |done|done]. intros c Hc Hne. apply E; [by right|done].
Qed.

(** Inserting a node between two others, and taking one out. *)
Lemma path_insert s s' i a xs ys b x :
  NoDup (a :: xs ++ ys) → x ∉ a :: xs ++ ys →
  lnk s' i (last_of a xs) = Some x → lnk s' i x = lnk s i (last_of a xs) →
  (∀ c, c ∈ a :: xs ++ ys → c ≠ last_of a xs → lnk s' i c = lnk s i c) →
  path s i a (xs ++ ys) b → path s' i a (xs ++ x :: ys) b.
Proof.
  intros Hnd Hx H1 H2 E HP. rewrite app_comm_cons in Hnd, Hx, E. apply path_app. split.
  - apply (path_change s _ _ _ _ (hd b ys)); [by apply NoDup_app in Hnd as (? & _)| |done|].
    + intros c Hc. apply E. apply elem_of_app. by left.
    + by apply path_split in HP as [? _].
  - apply path_drop in HP. destruct ys as [|y ys]; cbn [path] in HP |- *; [congruence|].
    destruct HP as [HP1 HP2]. split; [congruence|]. apply (path_ext s); [|done].
    intros c Hc. apply E; [apply elem_of_app; by right|]. intros ->.
    apply NoDup_app in Hnd as (_ & Hd & _). apply (Hd (last_of a xs)); [apply last_of_in|done].
Qed.

Lemma path_remove s s' i a xs ys b x :
  NoDup (a :: xs ++ x :: ys) →
  lnk s' i (last_of a xs) = lnk s i x →
  (∀ c, c ∈ a :: xs ++ ys → c ≠ last_of a xs → lnk s' i c = lnk s i c) →
  path s i a (xs ++ x :: ys) b → path s' i a (xs ++ ys) b.
Proof.
  intros Hnd H1 E HP. rewrite app_comm_cons in Hnd, E. apply path_app in HP as [HP1 HP2].
  apply NoDup_app in Hnd as (Hnd1 & Hd & Hnd2). apply path_split.
  destruct ys as [|y ys]; cbn [hd path] in HP2 |- *.
  - split; [|by left]. apply (path_change s _ _ _ _ x); [done| |by rewrite H1|done].
    intros c Hc. apply E. apply elem_of_app. by left.
  - destruct HP2 as [HP2 HP3]. split.
    + apply (path_change s _ _ _ _ x); [done| |by rewrite H1|done].
      intros c Hc. apply E. apply elem_of_app. by left.
    + right. split; [by rewrite H1|]. apply (path_ext s); [|done]. intros c Hc.
      apply E; [apply elem_of_app; by right|]. intros ->.
      apply (Hd (last_of a xs)); [apply last_of_in|by right].
Qed.

Lemma path_elem s i a xs b c : path s i a xs b → c ∈ a :: xs → is_Some (lnk s i c).
Proof.
  revert a. induction xs as [|x xs IH]; intros a; cbn.
  - intros E ->%list_elem_of_singleton. by exists b.
  - intros [E HP] [->|Hc]%elem_of_cons; [by exists x|]. by apply (IH x).
Qed.

(** * The invariant *)

(** The nodes that have level [i]. *)
Definition level (s : nodes) (i : nat) (xs : list Z) : list Z := filter (λ x, (i < height s x)%nat) xs.

(** The set's nodes are [xs]: those of each level are linked in order from the top
    node to the tail, their data increase, and there are no other objects. *)
Record skip_ok (s : nodes) (sl : SkiplistSet) (xs : list Z) : Prop := {
  sk_count : 0 < level_count sl ∧ top_level_index sl = level_count sl - 1;
  sk_arrays : mblocks sl = true ∧ zlen (tmp_previous sl) = level_count sl;
  sk_nodup : NoDup (top sl :: tail sl :: xs);
  sk_top : height s (top sl) = Z.to_nat (level_count sl);
  sk_heights : Forall (λ x, 0 < height s x ≤ Z.to_nat (level_count sl))%nat xs;
  sk_path i : (i < Z.to_nat (level_count sl))%nat → path s i (top sl) (level s i xs) (tail sl);
  sk_sorted : sorted (compare_func sl) (key s <$> xs);
  sk_dom : dom s = list_to_set (top sl :: tail sl :: xs);
  sk_data : 0 ∉ key s <$> xs }.

Lemma level_shape s s' i xs : same_shape s s' → level s' i xs = level s i xs.
Proof. intros (_ & _ & Hh). unfold level. apply list_filter_iff. intros x. by rewrite Hh. Qed.

Lemma level_elem s i x xs : x ∈ level s i xs ↔ (i < height s x)%nat ∧ x ∈ xs.
Proof. unfold level. by rewrite list_elem_of_filter. Qed.

Lemma level_single s i x : level s i [x] = if decide (i < height s x)%nat then [x] else [].
Proof. unfold level. rewrite filter_cons. by case_decide. Qed.

Lemma level_ext s s' i xs : (∀ c, c ∈ xs → height s' c = height s c) → level s' i xs = level s i xs.
Proof.
  unfold level. induction xs as [|x xs IH]; intros E; [done|]. rewrite !filter_cons, IH by (intros; apply E; by right).
  by rewrite E by left.
Qed.

Section searches.
Context (sl : SkiplistSet) (xs : list Z) (k : Z) `{!TotalCompare (compare_func sl)}.
Abbreviation cmp := (compare_func sl).
Abbreviation lo s l := (lower cmp (key s) k l).
Abbreviation eqs s l := (equal cmp (key s) k l).
Abbreviation hi s l := (upper cmp (key s) k l).

Lemma walk_level_spec fuel i p post h :
  path (structs h) i p post (tail sl) → tail sl ∉ post → sorted cmp (key (structs h) <$> post) →
  (length post < fuel)%nat →
  walk_level fuel sl k i p h =
    Done ((last_of p (lo (structs h) post), bool_decide (eqs (structs h) post ≠ [])), h).
Proof using All.
  revert p post. induction fuel as [|fuel IH]; intros p post HP Ht Hs Hf; [lia|].
  cbn [walk_level]. rewrite M_bind_eq. destruct post as [|y post]; cbn [path] in HP.
  - rewrite (link_ok _ _ _ _ HP). cbn [mbind res_bind]. by rewrite Z.eqb_refl.
  - pose proof (keyed_cons cmp (key (structs h)) k y post Hs) as (H1 & H2 & H3).
    destruct HP as [Hl HP]. rewrite (link_ok _ _ _ _ Hl). cbn [mbind res_bind].
    apply not_elem_of_cons in Ht as [Hty Ht]. rewrite (proj2 (Z.eqb_neq y (tail sl))) by congruence.
    destruct (deref_node h y) as (n & En & Ed & _).
    { apply height_dom. pose proof (path_elem _ _ _ _ _ y HP ltac:(left)) as Hy. apply lnk_height in Hy. lia. }
    m_step En. rewrite Ed.
    destruct (Z.ltb_spec (cmp k (key (structs h) y)) 0) as [Hc|Hc].
    { apply compare_swap in Hc. destruct (H1 Hc) as (-> & -> & _). by rewrite bool_decide_false by auto. }
    destruct (Z.eqb_spec (cmp k (key (structs h) y)) 0) as [Hc0|Hc0].
    { apply compare_eq_sym in Hc0; [|done]. destruct (H2 Hc0) as (-> & -> & _). by rewrite bool_decide_true by done. }
    destruct H3 as (-> & -> & _); [apply compare_swap; lia|].
    rewrite (IH y post); [done|done|done| |cbn in Hf; lia]. by apply StronglySorted_cons in Hs as [_ ?].
Qed.

(** The nodes from which a search at level [i] may go on. *)
Definition before (s : nodes) (i : nat) (p : Z) : Prop :=
  p = top sl ∨ p ∈ level s i xs ∧ cmp (key s p) k < 0.

(** Such a node splits the level. *)
Lemma before_split s i p :
  skip_ok s sl xs → before s i p →
  ∃ pre post, level s i xs = pre ++ post ∧ p = last_of (top sl) pre ∧
    lo s (level s i xs) = pre ++ lo s post ∧ eqs s (level s i xs) = eqs s post.
Proof using All.
  intros OK [->|[Hp Hk]]; [by exists [], (level s i xs)|].
  pose proof (sorted_fmap_filter cmp (key s) (λ x, i < height s x)%nat xs (sk_sorted _ _ _ OK)) as Hs.
  apply list_elem_of_split in Hp as (l1 & l2 & E). fold (level s i xs) in Hs. rewrite E in *.
  destruct (keyed_elem cmp (key s) k l1 p l2 Hs Hk) as [-> ->].
  exists (l1 ++ [p]), l2. rewrite last_of_app, <-!app_assoc. done.
Qed.

Lemma skip_size s : skip_ok s sl xs → size s = S (S (length xs)).
Proof.
  intros OK. rewrite <-size_dom, (sk_dom _ _ _ OK). rewrite size_list_to_set by apply (sk_nodup _ _ _ OK). done.
Qed.

Lemma tail_level s i : skip_ok s sl xs → tail sl ∉ level s i xs.
Proof.
  intros OK [_ Hx]%level_elem. pose proof (sk_nodup _ _ _ OK) as Hnd.
  apply NoDup_cons in Hnd as [_ Hnd]. by apply NoDup_cons in Hnd as [? _].
Qed.

Lemma walk_spec i p h :
  skip_ok (structs h) sl xs → (i < Z.to_nat (level_count sl))%nat → before (structs h) i p →
  walk sl k i p h = Done ((last_of (top sl) (lo (structs h) (level (structs h) i xs)),
    bool_decide (eqs (structs h) (level (structs h) i xs) ≠ [])), h).
Proof using All.
  intros OK Hi Hp. destruct (before_split _ _ _ OK Hp) as (pre & post & E & -> & -> & ->).
  unfold walk. pose proof (tail_level (structs h) i OK) as Ht.
  pose proof (sk_path _ _ _ OK i Hi) as HP. rewrite E in HP, Ht.
  rewrite (walk_level_spec _ _ _ post).
  - by rewrite last_of_app.
  - by apply path_drop in HP.
  - intros ?. apply Ht. apply elem_of_app. by right.
  - pose proof (sorted_fmap_filter cmp (key (structs h)) (λ x, i < height (structs h) x)%nat xs (sk_sorted _ _ _ OK)) as Hs.
    fold (level (structs h) i xs) in Hs. rewrite E, fmap_app in Hs. apply StronglySorted_app in Hs as (_ & _ & ?). done.
  - rewrite skip_size by done. pose proof (length_filter (λ x, i < height (structs h) x)%nat xs) as Hl.
    fold (level (structs h) i xs) in Hl. rewrite E, length_app in Hl. lia.
Qed.

(** Where a level was left, the next one goes on. *)
Lemma before_next s i :
  before s i (last_of (top sl) (lo s (level s (S i) xs))).
Proof.
  destruct (last_of_elem (top sl) (lo s (level s (S i) xs))) as [[-> _]|Hp]; [by left|]. right.
  apply list_elem_of_filter in Hp as [Hk [Hh Hx]%level_elem]. split; [|done]. apply level_elem. split; [lia|done].
Qed.

Lemma level_0 s : skip_ok s sl xs → level s 0 xs = xs.
Proof.
  intros OK. pose proof (sk_heights _ _ _ OK) as Hh. clear OK. unfold level. induction Hh as [|x l [Hx _] _ IH]; [done|].
  rewrite filter_cons_True by done. by rewrite IH.
Qed.

Lemma filter_comm {A} (P Q : A → Prop) `{!∀ x, Decision (P x)} `{!∀ x, Decision (Q x)} (l : list A) :
  filter P (filter Q l) = filter Q (filter P l).
Proof. rewrite !list_filter_filter. apply list_filter_iff. intros. tauto. Qed.

Lemma eqs_level s i : eqs s (level s i xs) = level s i (eqs s xs).
Proof. apply filter_comm. Qed.
Lemma lo_level s i : lo s (level s i xs) = level s i (lo s xs).
Proof. apply filter_comm. Qed.
Lemma hi_level s i : hi s (level s i xs) = level s i (hi s xs).
Proof. apply filter_comm. Qed.

Lemma eqs_none s : skip_ok s sl xs → eqs s xs = [] → xs = lo s xs ++ hi s xs.
Proof using All. intros OK E. rewrite (keyed_split cmp (key s) k xs) at 1 by apply OK. by rewrite E. Qed.

Lemma eqs_one s m : skip_ok s sl xs → eqs s xs = [m] → xs = lo s xs ++ m :: hi s xs.
Proof using All. intros OK E. rewrite (keyed_split cmp (key s) k xs) at 1 by apply OK. by rewrite E. Qed.

Lemma eqs_cases s : skip_ok s sl xs → eqs s xs = [] ∨ ∃ m, eqs s xs = [m].
Proof using All. intros OK. apply (keyed_equal cmp). apply OK. Qed.

(** The level of the equal node, split at it. *)
Lemma level_one s m i :
  skip_ok s sl xs → eqs s xs = [m] → (i < height s m)%nat →
  level s i xs = lo s (level s i xs) ++ m :: hi s (level s i xs).
Proof using All.
  intros OK E Hi. rewrite lo_level, hi_level. rewrite (eqs_one s m OK E) at 1. unfold level.
  by rewrite filter_app, filter_cons_True.
Qed.

Lemma level_zero s i :
  skip_ok s sl xs → eqs s xs = [] → level s i xs = lo s (level s i xs) ++ hi s (level s i xs).
Proof using All. intros OK E. rewrite lo_level, hi_level. rewrite (eqs_none s OK E) at 1. unfold level. by rewrite filter_app. Qed.

Lemma one_elem s m : eqs s xs = [m] → m ∈ xs ∧ cmp (key s m) k = 0.
Proof. intros E. assert (m ∈ eqs s xs) as Hm by (rewrite E; left). by apply list_elem_of_filter in Hm as [? ?]. Qed.

Lemma one_height s m : skip_ok s sl xs → m ∈ xs → (0 < height s m ≤ Z.to_nat (level_count sl))%nat.
Proof. intros OK Hm. pose proof (sk_heights _ _ _ OK) as Hh. rewrite Forall_forall in Hh. by apply Hh. Qed.

(** The loops find the node before the place of the target, on the highest level of
    an equal node if there is one. *)
Lemma descend_spec i p h :
  skip_ok (structs h) sl xs → (i < Z.to_nat (level_count sl))%nat → before (structs h) i p →
  match eqs (structs h) xs with
  | [] => descend sl k i p h = Done ((last_of (top sl) (lo (structs h) xs), None), h)
  | m :: _ => (height (structs h) m ≤ S i)%nat →
      let j := (height (structs h) m - 1)%nat in
      descend sl k i p h = Done ((last_of (top sl) (lo (structs h) (level (structs h) j xs)), Some j), h)
  end.
Proof using All.
  intros OK. revert p. induction i as [|i IH]; intros p Hi Hp; cbn [descend];
    rewrite M_bind_eq, (walk_spec _ _ _ OK Hi Hp); cbn [mbind res_bind]; rewrite eqs_level.
  - destruct (eqs_cases _ OK) as [E|[m E]]; rewrite E; cbn [bool_decide].
    + by rewrite bool_decide_false, level_0 by auto.
    + intros Hm. destruct (one_height (structs h) m OK) as [Hm0 _]; [by apply (one_elem _ m E)|].
      rewrite level_single, decide_True, bool_decide_true by done.
      by replace (height (structs h) m - 1)%nat with 0%nat by lia.
  - pose proof (before_next (structs h) i) as Hn. specialize (IH _ ltac:(lia) Hn).
    destruct (eqs_cases _ OK) as [E|[m E]]; rewrite E in *.
    + by rewrite bool_decide_false by auto.
    + intros Hm. rewrite level_single. destruct (decide (S i < height (structs h) m)%nat).
      * rewrite bool_decide_true by done. by replace (height (structs h) m - 1)%nat with (S i) by lia.
      * rewrite bool_decide_false by auto. apply IH. lia.
Qed.

Lemma record_spec (tmp : list Z) i lv q :
  Z.of_nat i < zlen tmp →
  ∃ tmp', (if decide (i ≤ lv)%nat then store tmp (Z.of_nat i) q else mret tmp) = Done tmp' ∧
    zlen tmp' = zlen tmp ∧ (∀ j, j ≠ i → tmp' !! j = tmp !! j) ∧ ((i ≤ lv)%nat → tmp' !! i = Some q).
Proof.
  intros Hi. case_decide as Hd.
  - rewrite store_ok by lia. exists (zupd tmp (Z.of_nat i) q). rewrite zlen_zupd. unfold zupd. rewrite Nat2Z.id.
    split_and!; [done|done| |].
    + intros j Hj. by rewrite list_lookup_insert_ne.
    + intros _. apply list_lookup_insert_eq. unfold zlen in Hi. lia.
  - exists tmp. done.
Qed.

(** An insertion records those nodes. *)
Lemma descend_record_spec lv i p tmp h :
  skip_ok (structs h) sl xs → (i < Z.to_nat (level_count sl))%nat → before (structs h) i p →
  zlen tmp = level_count sl → (eqs (structs h) xs ≠ [] → ∀ m, eqs (structs h) xs = [m] → height (structs h) m ≤ S i)%nat →
  ∃ tmp', descend_record sl k lv i p tmp h = Done ((tmp', bool_decide (eqs (structs h) xs ≠ [])), h) ∧
    zlen tmp' = level_count sl ∧
    (∀ j, (i < j)%nat → tmp' !! j = tmp !! j) ∧
    (eqs (structs h) xs = [] → ∀ j, (j ≤ lv)%nat → (j ≤ i)%nat →
       tmp' !! j = Some (last_of (top sl) (lo (structs h) (level (structs h) j xs)))).
Proof using All.
  intros OK. revert p tmp. induction i as [|i IH]; intros p tmp Hi Hp Ht Hm; cbn [descend_record].
  - set (q := last_of (top sl) (lo (structs h) (level (structs h) 0 xs))).
    destruct (record_spec tmp 0 lv q) as (tmp1 & E1 & Hl1 & Hne1 & Heq1); [lia|].
    rewrite M_bind_eq, (walk_spec _ _ _ OK Hi Hp). cbn [mbind res_bind]. rewrite level_0 by done.
    destruct (eqs_cases _ OK) as [E|[m E]]; rewrite E.
    + rewrite bool_decide_false by auto. exists tmp1. rewrite M_bind_eq. unfold lift.
      subst q. rewrite level_0 in * by done. rewrite E1. cbn [mbind res_bind]. split_and!; [done|lia| |].
      * intros j Hj. apply Hne1. lia.
      * intros _ j Hj Hj0. replace j with 0%nat by lia. rewrite level_0 by done. apply Heq1. lia.
    + rewrite bool_decide_true by done. exists tmp. by split_and!.
  - set (q := last_of (top sl) (lo (structs h) (level (structs h) (S i) xs))).
    destruct (record_spec tmp (S i) lv q) as (tmp1 & E1 & Hl1 & Hne1 & Heq1); [lia|].
    rewrite M_bind_eq, (walk_spec _ _ _ OK Hi Hp). cbn [mbind res_bind]. rewrite eqs_level.
    destruct (bool_decide (level (structs h) (S i) (eqs (structs h) xs) ≠ [])) eqn:Hf.
    + apply bool_decide_eq_true in Hf. assert (eqs (structs h) xs ≠ []) as E by (intros E; rewrite E in Hf; done).
      exists tmp. rewrite bool_decide_true by done. by split_and!.
    + apply bool_decide_eq_false, dec_stable in Hf.
      destruct (IH q tmp1) as (tmp2 & E2 & Hl2 & Hgt2 & Hle2); [lia|apply before_next|lia| |].
      { intros _ m E. rewrite E, level_single in Hf. case_decide; [done|]. lia. }
      exists tmp2. rewrite M_bind_eq. unfold lift. fold q. rewrite E1. cbn [mbind res_bind]. split_and!; [done|done| |].
      * intros j Hj. rewrite Hgt2 by lia. apply Hne1. lia.
      * intros E j Hj Hji. destruct (decide (j = S i)) as [->|]; [|apply Hle2; done || lia].
        rewrite Hgt2 by lia. by apply Heq1.
Qed.

(** ** The searches *)

(** The link of the node found. *)
Lemma one_link s m i :
  skip_ok s sl xs → eqs s xs = [m] → (i < height s m)%nat →
  lnk s i (last_of (top sl) (lo s (level s i xs))) = Some m ∧
  path s i m (hi s (level s i xs)) (tail sl).
Proof using All.
  intros OK E Hi. destruct (one_height s m OK) as [_ Hm]; [by apply (one_elem _ m E)|].
  pose proof (sk_path _ _ _ OK i ltac:(lia)) as HP. rewrite (level_one s m i OK E Hi) in HP.
  apply path_app in HP as [HP1 HP2]. split; [by apply path_last in HP1|done].
Qed.

Lemma zero_link s i :
  skip_ok s sl xs → eqs s xs = [] → (i < Z.to_nat (level_count sl))%nat →
  lnk s i (last_of (top sl) (lo s (level s i xs))) = Some (hd (tail sl) (hi s (level s i xs))).
Proof using All.
  intros OK E Hi. pose proof (sk_path _ _ _ OK i Hi) as HP. rewrite (level_zero s i OK E) in HP.
  apply path_split in HP as [HP _]. by apply path_last in HP.
Qed.

Lemma top_level s : skip_ok s sl xs → (Z.to_nat (top_level_index sl) < Z.to_nat (level_count sl))%nat ∧
  S (Z.to_nat (top_level_index sl)) = Z.to_nat (level_count sl).
Proof. intros OK. destruct (sk_count _ _ _ OK) as [? ->]. lia. Qed.

Lemma descend_top h :
  skip_ok (structs h) sl xs →
  match eqs (structs h) xs with
  | [] => descend sl k (Z.to_nat (top_level_index sl)) (top sl) h =
            Done ((last_of (top sl) (lo (structs h) xs), None), h)
  | m :: _ =>
      let j := (height (structs h) m - 1)%nat in
      descend sl k (Z.to_nat (top_level_index sl)) (top sl) h =
        Done ((last_of (top sl) (lo (structs h) (level (structs h) j xs)), Some j), h)
  end.
Proof using All.
  intros OK. destruct (top_level _ OK) as [Hi1 Hi2].
  pose proof (descend_spec _ (top sl) h OK Hi1 ltac:(by left)) as Hd.
  destruct (eqs_cases _ OK) as [E|[m E]]; rewrite E in *; [done|]. apply Hd.
  rewrite Hi2. apply one_height; [done|]. by apply (one_elem _ m E).
Qed.

Lemma one_data h m : skip_ok (structs h) sl xs → m ∈ xs → ∃ n, deref m h = Done (n, h) ∧ data n = key (structs h) m
  ∧ length (links n) = height (structs h) m.
Proof. intros OK Hm. apply deref_node, height_dom. by apply one_height. Qed.

Lemma find_ok h :
  skip_ok (structs h) sl xs → skiplist_set_find sl k h = Done (hd 0 (same cmp k (key (structs h) <$> xs)), h).
Proof using All.
  intros OK. pose proof (descend_top h OK) as Hd. unfold skiplist_set_find, skiplist_set_get_equal_previous.
  rewrite !M_bind_eq. rewrite <-(fmap_equal cmp (key (structs h))).
  destruct (eqs_cases _ OK) as [E|[m E]]; rewrite E in *; rewrite Hd; cbn [mbind res_bind]; [done|].
  destruct (one_elem _ m E) as [Hm _]. destruct (one_height _ m OK Hm).
  destruct (one_link _ m (height (structs h) m - 1)%nat OK E) as [Hl _]; [lia|].
  rewrite M_ret_eq. cbn [mbind res_bind]. m_step (link_ok _ _ _ _ Hl).
  destruct (one_data h m OK Hm) as (n & En & Ed & _). m_step En. by rewrite Ed.
Qed.

Lemma first_larger_or_equal_ok h :
  skip_ok (structs h) sl xs →
  skiplist_set_get_first_larger_or_equal sl k h =
    Done (hd (tail sl) (eqs (structs h) xs ++ hi (structs h) xs), h).
Proof using All.
  intros OK. pose proof (descend_top h OK) as Hd. destruct (top_level _ OK).
  unfold skiplist_set_get_first_larger_or_equal. rewrite !M_bind_eq.
  destruct (eqs_cases _ OK) as [E|[m E]]; rewrite E in *; rewrite Hd; cbn [mbind res_bind].
  - pose proof (zero_link _ 0 OK E ltac:(lia)) as Hl. rewrite level_0 in Hl by done. by apply link_ok.
  - destruct (one_elem _ m E) as [Hm _]. destruct (one_height _ m OK Hm).
    destruct (one_link _ m (height (structs h) m - 1)%nat OK E) as [Hl _]; [lia|]. by apply link_ok.
Qed.

Lemma path_first s i a ys b : path s i a ys b → lnk s i a = Some (hd b ys).
Proof. destruct ys; [done|]. by intros [? _]. Qed.

Lemma first_larger_ok h :
  skip_ok (structs h) sl xs →
  skiplist_set_get_first_larger sl k h = Done (hd (tail sl) (hi (structs h) xs), h).
Proof using All.
  intros OK. pose proof (descend_top h OK) as Hd. destruct (top_level _ OK).
  unfold skiplist_set_get_first_larger. rewrite !M_bind_eq.
  destruct (eqs_cases _ OK) as [E|[m E]]; rewrite E in *; rewrite Hd; cbn [mbind res_bind].
  - pose proof (zero_link _ 0 OK E ltac:(lia)) as Hl. rewrite level_0 in Hl by done. by apply link_ok.
  - destruct (one_elem _ m E) as [Hm _]. destruct (one_height _ m OK Hm).
    destruct (one_link _ m (height (structs h) m - 1)%nat OK E) as [Hl _]; [lia|].
    m_step (link_ok _ _ _ _ Hl).
    destruct (one_link _ m 0 OK E) as [_ HP]; [lia|]. rewrite level_0 in HP by done.
    by apply link_ok, path_first.
Qed.

Lemma find_all_ok h :
  skip_ok (structs h) sl xs →
  skiplist_set_find_all sl k h =
    Done (match eqs (structs h) xs with
          | [] => (ENOENT, mkIterator (tail sl) (tail sl))
          | m :: _ => (0, mkIterator (hd (tail sl) (hi (structs h) xs)) m)
          end, h).
Proof using All.
  intros OK. pose proof (descend_top h OK) as Hd. unfold skiplist_set_find_all, skiplist_set_get_equal_previous.
  rewrite !M_bind_eq. destruct (eqs_cases _ OK) as [E|[m E]]; rewrite E in *; rewrite Hd; cbn [mbind res_bind]; [done|].
  destruct (one_elem _ m E) as [Hm _]. destruct (one_height _ m OK Hm).
  destruct (one_link _ m (height (structs h) m - 1)%nat OK E) as [Hl _]; [lia|].
  rewrite M_ret_eq. cbn [mbind res_bind]. m_step (link_ok _ _ _ _ Hl).
  destruct (one_link _ m 0 OK E) as [_ HP]; [lia|]. rewrite level_0 in HP by done.
  by m_step (link_ok _ _ _ _ (path_first _ _ _ _ _ HP)).
Qed.
End searches.

(** ** Iterators *)

(** An iterator stands before the nodes [ns] of the bottom level. *)
Definition iterates (s : nodes) (it : SkiplistSetIterator) (ns : list Z) : Prop :=
  current it = hd (it_tail it) ns ∧ it_tail it ∉ ns ∧
  match ns with [] => True | x :: ns => path s 0 x ns (it_tail it) end.

Lemma iterates_end s t : iterates s (mkIterator t t) [].
Proof. split_and!; [done|apply not_elem_of_nil|done]. Qed.

Lemma next_ok h it ns :
  iterates (structs h) it ns →
  match ns with
  | [] => skiplist_set_next it h = Done ((0, it), h)
  | x :: ns => ∃ it', skiplist_set_next it h = Done ((key (structs h) x, it'), h) ∧ iterates (structs h) it' ns
  end.
Proof.
  destruct it as [t c]. intros (Hc & Ht & HP). cbn [current it_tail] in *. unfold skiplist_set_next.
  cbn [current it_tail]. destruct ns as [|x ns]; cbn [hd] in *; subst c; [by rewrite Z.eqb_refl|].
  apply not_elem_of_cons in Ht as [Hne Ht]. rewrite (proj2 (Z.eqb_neq x t)) by congruence.
  destruct (deref_node h x) as (n & En & Ed & _).
  { apply height_dom. pose proof (path_elem _ _ _ _ _ x HP ltac:(left)) as Hy. apply lnk_height in Hy. lia. }
  m_step En. pose proof (path_first _ _ _ _ _ HP) as Hl. m_step (link_ok _ _ _ _ Hl). rewrite Ed.
  eexists. split; [done|]. split_and!; [done|done|]. cbn [it_tail]. destruct ns; [done|]. by destruct HP.
Qed.

Lemma drain_ok fuel h it ns :
  iterates (structs h) it ns → 0 ∉ key (structs h) <$> ns → (length ns < fuel)%nat →
  drain fuel it h = Done (key (structs h) <$> ns, h).
Proof.
  revert it ns. induction fuel as [|fuel IH]; intros it ns Hit H0 Hf; [lia|]. cbn [drain].
  pose proof (next_ok h it ns Hit) as Hn. destruct ns as [|x ns].
  - by m_step Hn.
  - destruct Hn as (it' & En & Hit'). m_step En. rewrite fmap_cons in H0 |- *.
    apply not_elem_of_cons in H0 as [Hx H0]. rewrite (proj2 (Z.eqb_neq _ 0)) by congruence.
    by m_step (IH _ _ Hit' H0 ltac:(cbn in Hf; lia)).
Qed.

Section ranges.
Context (sl : SkiplistSet) (xs : list Z) `{!TotalCompare (compare_func sl)}.
Abbreviation cmp := (compare_func sl).

(** A stretch of the nodes. *)
Lemma stretch_iterates s l1 ns l2 :
  skip_ok s sl xs → xs = l1 ++ ns ++ l2 →
  iterates s (mkIterator (hd (tail sl) l2) (hd (tail sl) (ns ++ l2))) ns.
Proof.
  intros OK E. destruct (sk_count _ _ _ OK) as [Hc _].
  pose proof (sk_path _ _ _ OK 0 ltac:(lia)) as HP. rewrite (level_0 sl xs _ OK) in HP.
  pose proof (sk_nodup _ _ _ OK) as Hnd. apply NoDup_cons in Hnd as [_ [Ht Hnd]%NoDup_cons].
  rewrite E in *. split_and!; cbn [current it_tail].
  - by destruct ns.
  - apply NoDup_app in Hnd as (_ & _ & Hnd). apply NoDup_app in Hnd as (_ & Hd & _).
    destruct l2 as [|y l2]; cbn [hd]; [|intros Hy; apply (Hd y Hy); left].
    intros Hy. apply Ht. rewrite !elem_of_app. tauto.
  - destruct ns as [|x ns]; [done|]. apply path_drop, path_split in HP as [HP _].
    cbn [path] in HP. by destruct HP.
Qed.

Lemma iterator_ok h :
  skip_ok (structs h) sl xs →
  ∃ it, skiplist_set_iterator sl h = Done (it, h) ∧ iterates (structs h) it xs.
Proof.
  intros OK. destruct (sk_count _ _ _ OK) as [Hc _].
  pose proof (sk_path _ _ _ OK 0 ltac:(lia)) as HP. rewrite (level_0 sl xs _ OK) in HP.
  unfold skiplist_set_iterator. m_step (link_ok _ _ _ _ (path_first _ _ _ _ _ HP)).
  eexists. split; [done|]. pose proof (stretch_iterates _ [] xs [] OK) as Hi. rewrite app_nil_r in Hi. by apply Hi.
Qed.

Lemma find_range_ok a b h :
  skip_ok (structs h) sl xs →
  ∃ it, skiplist_set_find_range sl a b h =
    Done ((if 0 <? cmp a b then EINVAL
           else match between cmp a b (key (structs h) <$> xs) with [] => ENOENT | _ => 0 end, it), h) ∧
    iterates (structs h) it (if 0 <? cmp a b then [] else keyed_between cmp (key (structs h)) a b xs).
Proof using All.
  intros OK. unfold skiplist_set_find_range. destruct (Z.ltb_spec 0 (cmp a b)) as [Hab|Hab].
  { eexists. split; [done|]. split_and!; cbn; [done|apply not_elem_of_nil|done]. }
  m_step (first_larger_or_equal_ok sl xs a h OK).
  rewrite <-(fmap_between cmp (key (structs h))).
  pose proof (sk_sorted _ _ _ OK) as Hs. pose proof (sk_nodup _ _ _ OK) as Hnd.
  apply NoDup_cons in Hnd as [_ [Ht Hnd]%NoDup_cons].
  pose proof (keyed_split cmp (key (structs h)) a xs Hs) as E.
  rewrite (keyed_range cmp (key (structs h)) a b xs Hs Hab) in E |- *.
  set (mid := keyed_between cmp (key (structs h)) a b xs) in *.
  set (up := upper cmp (key (structs h)) b xs) in *.
  pose proof (stretch_iterates _ _ mid up OK E) as Hit. rewrite E in Ht, Hnd.
  apply NoDup_app in Hnd as (_ & _ & Hnd). rewrite !elem_of_app in Ht.
  destruct (Z.eqb_spec (hd (tail sl) (mid ++ up)) (tail sl)) as [Hc|Hc].
  { assert (mid = []) as Hmid.
    { destruct mid as [|y mid]; [done|]. cbn in Hc. subst y. exfalso. apply Ht. right. left. left. }
    rewrite Hmid in *. eexists. split; [done|]. split_and!; [done|apply not_elem_of_nil|done]. }
  m_step (first_larger_ok sl xs b h OK). fold up. eexists. split; [|done]. rewrite M_ret_eq. do 3 f_equal.
  destruct mid as [|y mid]; cbn [app fmap list_fmap hd]; [by rewrite Z.eqb_refl|].
  rewrite (proj2 (Z.eqb_neq _ _)); [done|]. intros ->. apply NoDup_app in Hnd as (_ & Hd & _).
  destruct up as [|z up]; cbn [hd] in *; [|apply (Hd z); left]. apply Ht. right. left. left.
Qed.
End ranges.

(** ** Insertion *)

Lemma link_levels_spec n i node (tmp : list Z) (p q : nat → Z) (h : nheap) :
  (∀ j, i ≤ j < i + n → tmp !! j = Some (p j) ∧ lnk (structs h) j (p j) = Some (q j) ∧ p j ≠ node ∧
     j < height (structs h) node)%nat →
  ∃ s', link_levels n i node tmp h = Done (tt, with_structs h s') ∧ same_shape (structs h) s' ∧
    (∀ j, (i ≤ j < i + n)%nat → lnk s' j node = Some (q j) ∧ lnk s' j (p j) = Some node) ∧
    (∀ j c, ((i ≤ j < i + n)%nat → c ≠ node ∧ c ≠ p j) → lnk s' j c = lnk (structs h) j c).
Proof.
  revert i h. induction n as [|n IH]; intros i h Hpre; cbn [link_levels].
  { exists (structs h). split_and!; [by destruct h|apply same_shape_refl|lia|done]. }
  destruct (Hpre i ltac:(lia)) as (Et & El & Hne & Hh).
  assert (load tmp (Z.of_nat i) = Done (p i)) as Eld.
  { apply load_ok. unfold zget. rewrite Nat2Z.id. by case_if; [|lia_bool]. }
  m_step (lift_ok _ _ h Eld).
  m_step (link_ok _ _ _ _ El). m_step (set_link_ok h node i (q i) Hh).
  set (s1 := upd (structs h) node i (q i)).
  assert (i < height s1 (p i))%nat as Hp1.
  { subst s1. destruct (upd_shape (structs h) node i (q i)) as (_ & _ & ->). apply lnk_height. by exists (q i). }
  m_step (set_link_ok (with_structs h s1) (p i) i node Hp1). cbn [structs with_structs].
  set (s2 := upd s1 (p i) i node). assert (same_shape (structs h) s2) as Hsh2.
  { eapply same_shape_trans; apply upd_shape. }
  assert (∀ j c, lnk s2 j c = if decide (c = p i ∧ j = i) then Some node else
    if decide (c = node ∧ j = i) then Some (q i) else lnk (structs h) j c) as El2.
  { intros j c. subst s2 s1. rewrite !lnk_upd by done. done. }
  destruct (IH (S i) (with_structs (with_structs h s1) s2)) as (s' & E' & Hsh' & Hin & Hout).
  { cbn [structs with_structs]. intros j Hj. destruct (Hpre j ltac:(lia)) as (Etj & Elj & Hnej & Hhj).
    rewrite El2, !decide_False by lia. destruct Hsh2 as (_ & _ & ->). done. }
  cbn [structs with_structs] in *. exists s'. split_and!.
  - rewrite E'. done.
  - by eapply same_shape_trans.
  - intros j Hj. destruct (decide (j = i)) as [->|]; [|apply Hin; lia].
    rewrite !Hout by lia. rewrite !El2. rewrite (decide_False (P := node = p i ∧ i = i)) by (intros [? _]; congruence).
    by rewrite !decide_True by done.
  - intros j c Hj. rewrite Hout by (intros; apply Hj; lia). rewrite El2.
    destruct (decide (j = i)) as [->|]; [|by rewrite !decide_False by tauto].
    destruct Hj as [? ?]; [lia|]. by rewrite !decide_False by tauto.
Qed.

Lemma get_level_index_bound n i rands : (i ≤ get_level_index n i rands ≤ i + n)%nat.
Proof. revert i. induction n as [|n IH]; intros i; cbn; [lia|]. case_match; [lia|]. specialize (IH (S i)). lia. Qed.

Lemma skip_ok_arrays s sl xs tmp :
  skip_ok s sl xs → zlen tmp = level_count sl → skip_ok s (set_arrays sl (mblocks sl) tmp) xs.
Proof. intros [[? ?] [? ?] ? ? ? ? ? ? ?] ?. by split. Qed.

Section insertion.
Context (sl : SkiplistSet) (xs : list Z) (k : Z) `{!TotalCompare (compare_func sl)}.
Abbreviation cmp := (compare_func sl).
Abbreviation lo s l := (lower cmp (key s) k l).
Abbreviation hi s l := (upper cmp (key s) k l).

(** A node of levels up to [lv] linked between its neighbours. *)
Lemma skip_ok_insert s s' node lv js :
  skip_ok s sl xs → equal cmp (key s) k xs = [] → s !! node = None → k ≠ 0 →
  (lv < Z.to_nat (level_count sl))%nat → length js = S lv →
  same_shape (<[node := mkNode k js]> s) s' →
  (∀ i, (i ≤ lv)%nat → lnk s' i node = lnk s i (last_of (top sl) (lo s (level s i xs))) ∧
     lnk s' i (last_of (top sl) (lo s (level s i xs))) = Some node) →
  (∀ i c, c ∈ top sl :: xs → ((i ≤ lv)%nat → c ≠ last_of (top sl) (lo s (level s i xs))) → lnk s' i c = lnk s i c) →
  skip_ok s' sl (lo s xs ++ node :: hi s xs) ∧
  key s' <$> (lo s xs ++ node :: hi s xs) = below cmp k (key s <$> xs) ++ k :: above cmp k (key s <$> xs).
Proof using All.
  intros OK E Hfresh Hk Hlv Hjs (Hd & Hkey & Hh) Hin Hout.
  pose proof (eqs_none sl xs k s OK E) as Exs.
  assert (lo s xs ++ node :: hi s xs ≡ₚ node :: xs) as Hperm.
  { rewrite <-Permutation_middle. by rewrite <-Exs. }
  assert (∀ c, c ∈ top sl :: tail sl :: xs → c ≠ node) as Hne.
  { intros c Hc ->. apply not_elem_of_dom in Hfresh. apply Hfresh. rewrite (sk_dom _ _ _ OK). by apply elem_of_list_to_set. }
  assert (∀ c, c ≠ node → key s' c = key s c ∧ height s' c = height s c) as Hold.
  { intros c Hc. rewrite Hkey, Hh. unfold key, height. by rewrite lookup_insert_ne. }
  assert (key s' node = k ∧ height s' node = S lv) as [Hkn Hhn].
  { rewrite Hkey, Hh. unfold key, height. rewrite lookup_insert_eq. done. }
  assert (∀ l : list Z, (∀ c, c ∈ l → c ∈ xs) → key s' <$> l = key s <$> l) as Hfm.
  { intros l Hl. apply list_fmap_ext. intros i c Hc. apply Hold, Hne. right. right. apply Hl. by apply list_elem_of_lookup_2 in Hc. }
  assert (∀ c, c ∈ lo s xs → c ∈ xs) as Hlo by (intros c [_ ?]%list_elem_of_filter; done).
  assert (∀ c, c ∈ hi s xs → c ∈ xs) as Hhi by (intros c [_ ?]%list_elem_of_filter; done).
  assert (key s' <$> (lo s xs ++ node :: hi s xs) = below cmp k (key s <$> xs) ++ k :: above cmp k (key s <$> xs)) as Ekeys.
  { rewrite fmap_app, fmap_cons, Hkn, (Hfm _ Hlo), (Hfm _ Hhi). by rewrite fmap_lower, fmap_upper. }
  split; [|done]. split.
  - apply OK.
  - apply OK.
  - rewrite Hperm. rewrite !NoDup_cons. pose proof (sk_nodup _ _ _ OK) as Hnd.
    apply NoDup_cons in Hnd as [H1 [H2 H3]%NoDup_cons]. rewrite !elem_of_cons in H1 |- *.
    rewrite !elem_of_cons. split_and!; [| | |done].
    + intros [?|[?|?]]; [tauto| |tauto]. by apply (Hne (top sl)); [left|].
    + intros [?|?]; [|done]. by apply (Hne (tail sl)); [right; left|].
    + intros ?. by apply (Hne node); [right; right|].
  - rewrite (proj2 (Hold _ (Hne (top sl) ltac:(left)))). apply OK.
  - rewrite Hperm. constructor; [lia|]. pose proof (sk_heights _ _ _ OK) as Hf. rewrite Forall_forall in Hf |- *.
    intros c Hc. rewrite (proj2 (Hold c (Hne c ltac:(right; by right)))). by apply Hf.
  - intros i Hi. pose proof (sk_path _ _ _ OK i Hi) as HP.
    rewrite (level_zero sl xs k s i OK E) in HP.
    assert (level s' i (lo s xs ++ node :: hi s xs) = lo s (level s i xs) ++
      (if decide (i < S lv)%nat then [node] else []) ++ hi s (level s i xs)) as ->.
    { rewrite lo_level, hi_level. change (node :: hi s xs) with ([node] ++ hi s xs).
      unfold level at 1. rewrite !filter_app. fold (level s' i (lo s xs)) (level s' i [node]) (level s' i (hi s xs)).
      rewrite level_single, Hhn. f_equal; [|f_equal]; apply level_ext; intros c Hc; apply Hold, Hne; right; right; auto. }
    assert (∀ c, c ∈ lo s (level s i xs) ++ hi s (level s i xs) → c ∈ xs) as Hsub.
    { rewrite <-(level_zero sl xs k s i OK E). intros c [_ ?]%level_elem. done. }
    case_decide as Hil.
    + destruct (Hin i ltac:(lia)) as [Hin1 Hin2]. apply (path_insert s); [| |done|done| |done].
      * apply NoDup_cons. pose proof (sk_nodup _ _ _ OK) as Hnd.
        apply NoDup_cons in Hnd as [H1 [H2 H3]%NoDup_cons]. split.
        { intros ?%Hsub. apply H1. by right. }
        rewrite <-(level_zero sl xs k s i OK E). by apply NoDup_filter.
      * intros [Et|Hc%Hsub]%elem_of_cons; [by apply (Hne (top sl)); [left|]|].
        by apply (Hne node); [right; right|].
      * intros c [->|Hc%Hsub]%elem_of_cons Hl; (apply Hout; [|done]); [left|by right].
    + cbn [app]. apply (path_ext s); [|done]. intros c [->|Hc%Hsub]%elem_of_cons; (apply Hout; [|lia]); [left|by right].
  - rewrite Ekeys. apply sorted_around; [done|apply OK].
  - rewrite Hd, dom_insert_L, (sk_dom _ _ _ OK). apply set_eq. intros c.
    rewrite elem_of_union, elem_of_singleton, !elem_of_list_to_set, !elem_of_cons, Hperm, elem_of_cons. tauto.
  - rewrite Ekeys. pose proof (sk_data _ _ _ OK) as H0. intros [?|[?|?]%elem_of_cons]%elem_of_app; try done;
      apply H0; by eapply list_elem_of_filter.
Qed.
End insertion.

(** The set stands for the sorted list [l] of its data; [os] are the outcomes of the
    allocations to come. *)
Record set_rep (cmp : Z → Z → Z) (given : bool) (h : nheap) (sl : SkiplistSet) (l : list Z) (os : list bool) : Prop := {
  sr_heap : heap_ok h;
  sr_cmp : compare_func sl = cmp;
  sr_free : free_func sl = given;
  sr_nodes : ∃ xs, skip_ok (structs h) sl xs ∧ key (structs h) <$> xs = l;
  sr_outcomes : outcomes h = os }.

(** The next outcome and those after it. *)
Definition next_outcome (os : list bool) : bool * list bool :=
  match os with [] => (true, []) | o :: os => (o, os) end.

Definition spec_insert (cmp : Z → Z → Z) (x : Z) (l : list Z) (os : list bool) : list Z * list bool * Z :=
  match same cmp x l with
  | _ :: _ => (l, os, EEXIST)
  | [] =>
      let '(ok, os) := next_outcome os in
      if ok then (below cmp x l ++ x :: above cmp x l, os, 0) else (l, os, ENOMEM)
  end.

Lemma alloc_ok i (h : nheap) :
  heap_ok h →
  let '(ok, os) := next_outcome (outcomes h) in
  ∃ h', fast_mblock_alloc_object i h = Done (if ok then next h else 0, h') ∧ heap_ok h' ∧ outcomes h' = os ∧
    structs h' = if ok then <[next h := mkNode (junk h) (replicate (S i) (junk h))]> (structs h) else structs h.
Proof.
  intros [Hn Hs Hb H0]. unfold fast_mblock_alloc_object, malloc_struct, outcome.
  destruct h as [s b n os j f]. cbn [structs blocks next outcomes junk] in *.
  assert (∀ os f, heap_ok (Heap (<[n := mkNode j (replicate (S i) j)]> s) b (n + 1) os j f)).
  { intros os' f'. split; cbn; [lia| |intros; apply Hb; lia|by rewrite lookup_insert_ne by lia].
    intros a Ha. rewrite lookup_insert_ne by lia. apply Hs. lia. }
  destruct os as [|[] os]; cbn [next_outcome]; eexists; (split; [done|]); split_and!; done.
Qed.

Lemma with_structs_twice (h : nheap) s1 s2 : with_structs (with_structs h s1) s2 = with_structs h s2.
Proof. done. Qed.

Lemma heap_ok_shape (h : nheap) s : heap_ok h → dom s = dom (structs h) → heap_ok (with_structs h s).
Proof.
  intros [Hn Hs Hb H0] E. assert (∀ a, structs h !! a = None → s !! a = None) as HE.
  { intros a Ha. apply not_elem_of_dom in Ha. apply not_elem_of_dom. by rewrite E. }
  split; cbn; auto.
Qed.

Lemma insert_ok cmp given rands k h sl l os :
  TotalCompare cmp → set_rep cmp given h sl l os → k ≠ 0 →
  ∃ h' sl', skiplist_set_insert rands sl k h = Done (((spec_insert cmp k l os).2, sl'), h') ∧
    set_rep cmp given h' sl' (spec_insert cmp k l os).1.1 (spec_insert cmp k l os).1.2.
Proof.
  intros Hcmp [Hh <- Hf (xs & OK & <-) Ho] Hk. unfold skiplist_set_insert.
  pose proof (get_level_index_bound (Z.to_nat (top_level_index sl)) 0 rands) as Hlv.
  fold (skiplist_set_get_level_index sl rands) in Hlv. set (lv := skiplist_set_get_level_index sl rands) in *.
  destruct (top_level _ _ _ OK) as [Ht1 Ht2].
  destruct (descend_record_spec sl xs k lv (Z.to_nat (top_level_index sl)) (top sl) (tmp_previous sl) h OK Ht1)
    as (tmp & E & Hlen & _ & Hrec); [by left|apply OK| |].
  { intros _ m Em. rewrite Ht2. apply (one_height sl xs _ m OK). by apply (one_elem sl xs k _ m Em). }
  m_step E. unfold spec_insert. rewrite <-(fmap_equal (compare_func sl) (key (structs h))).
  pose proof (skip_ok_arrays _ _ _ tmp OK Hlen) as OK'.
  destruct (eqs_cases sl xs k _ OK) as [Ee|[m Ee]]; rewrite Ee in *; cbn [fmap list_fmap].
  2: { rewrite bool_decide_true by done. exists h. eexists. split; [done|]. split; try done. by exists xs. }
  rewrite bool_decide_false by auto. pose proof (alloc_ok lv h Hh) as Ha. rewrite Ho in Ha.
  destruct (next_outcome os) as [ok os'] eqn:Hos. destruct Ha as (h1 & Ea & Hh1 & Ho1 & Es1).
  cbn [fst snd]. m_step Ea. destruct ok; cbn [fst snd].
  2: { exists h1. eexists. split; [done|]. split; try done. exists xs. by rewrite Es1. }
  destruct (heap_ok_fresh h Hh) as [Hfresh _]. pose proof (ok_next _ Hh).
  rewrite (proj2 (Z.eqb_neq (next h) 0)) by lia.
  set (node := next h) in *. set (js := replicate (S lv) (junk h)) in *.
  assert (structs h1 !! node = Some (mkNode (junk h) js)) as En by by rewrite Es1, lookup_insert_eq.
  m_step (deref_ok node _ h1 En). cbn [links]. m_step (put_ok node _ (mkNode k js) h1 En).
  rewrite Es1, insert_insert_eq. set (s1 := <[node := mkNode k js]> (structs h)).
  set (p := λ i, last_of (top sl) (lower (compare_func sl) (key (structs h)) k (level (structs h) i xs))).
  set (q := λ i, hd (tail sl) (upper (compare_func sl) (key (structs h)) k (level (structs h) i xs))).
  assert (∀ i c, c ∈ top sl :: xs → c ≠ node ∧ lnk s1 i c = lnk (structs h) i c) as Hold.
  { intros i c Hc. assert (c ≠ node) as Hne.
    { intros ->. apply not_elem_of_dom in Hfresh. apply Hfresh. rewrite (sk_dom _ _ _ OK).
      apply elem_of_list_to_set. apply elem_of_cons in Hc as [->|?]; [left|right; by right]. }
    split; [done|]. unfold lnk. subst s1. by rewrite lookup_insert_ne. }
  assert (∀ i, p i ∈ top sl :: xs) as Hp.
  { intros i. subst p. cbn beta. destruct (last_of_elem (top sl) (lower (compare_func sl) (key (structs h)) k (level (structs h) i xs)))
      as [[-> _]|Hq]; [left|]. right. apply list_elem_of_filter in Hq as [_ [_ Hq]%level_elem]. done. }
  destruct (link_levels_spec (S lv) 0 node tmp p q (with_structs h1 s1)) as (s' & El & Hsh & Hin & Hout).
  { intros j Hj. cbn [structs with_structs]. destruct (Hold j _ (Hp j)) as [Hne ->]. split_and!.
    - apply Hrec; [done|lia|lia].
    - apply (zero_link sl xs k _ j OK Ee). lia.
    - done.
    - unfold height. subst s1. rewrite lookup_insert_eq. cbn [links]. subst js. rewrite length_replicate. lia. }
  cbn [structs with_structs] in *. m_step El. rewrite with_structs_twice in *.
  destruct (skip_ok_insert sl xs k (structs h) s' node lv js) as [OK2 Ek]; try done.
  - lia.
  - apply length_replicate.
  - intros i Hi. destruct (Hin i ltac:(lia)) as [-> ?]. split; [|done].
    symmetry. apply (zero_link sl xs k _ i OK Ee). lia.
  - intros i c Hc Hne. destruct (Hold i c Hc) as [Hcn <-]. apply Hout. intros Hi. split; [done|]. apply Hne. lia.
  - exists (with_structs h1 s'). eexists. split; [by rewrite M_ret_eq|]. split; try done.
    + apply heap_ok_shape; [done|]. destruct Hsh as (-> & _ & _). rewrite Es1. subst s1. by rewrite !dom_insert_L.
    + eexists. split; [by apply skip_ok_arrays; [exact OK2|]|]. done.
Qed.

(** ** Deletion *)

Lemma find_deleted_ok fuel sl m i p l r (h : nheap) :
  path (structs h) i p (l ++ m :: r) (tail sl) → m ∉ l → tail sl ∉ l → (length l < fuel)%nat →
  find_deleted fuel sl m i p h = Done (last_of p l, h).
Proof.
  revert p l. induction fuel as [|fuel IH]; intros p l HP Hm Ht Hf; [lia|]. cbn [find_deleted].
  destruct l as [|y l]; destruct HP as [Hl HP]; m_step (link_ok _ _ _ _ Hl).
  - by rewrite Z.eqb_refl, orb_true_r.
  - apply not_elem_of_cons in Hm as [? Hm]. apply not_elem_of_cons in Ht as [? Ht].
    rewrite !(proj2 (Z.eqb_neq _ _)) by congruence. cbn [orb last_of]. apply IH; [done..|cbn in Hf; lia].
Qed.

Section deletion.
Context (sl : SkiplistSet) (xs : list Z) (k : Z) `{!TotalCompare (compare_func sl)}.
Abbreviation cmp := (compare_func sl).
Abbreviation lo s l := (lower cmp (key s) k l).
Abbreviation hi s l := (upper cmp (key s) k l).

(** The node before the place of the target on a level. *)
Definition left_of (s : nodes) (i : nat) : Z := last_of (top sl) (lo s (level s i xs)).

Lemma unlink_level_ok fuel s m i p (h : nheap) :
  skip_ok s sl xs → equal cmp (key s) k xs = [m] → (i < height s m)%nat → before sl xs k s i p →
  same_shape s (structs h) → (∀ c, lnk (structs h) i c = lnk s i c) → (length xs < fuel)%nat →
  ∃ x, find_deleted fuel sl m i p h = Done (left_of s i, h) ∧ lnk (structs h) i (left_of s i) = Some m ∧
    lnk (structs h) i m = Some x.
Proof using All.
  intros OK E Hi Hp Hsh Hold Hf. destruct (one_elem sl xs k s m E) as [Hm Hmk].
  destruct (one_height sl xs s m OK Hm) as [_ Hml].
  pose proof (level_one sl xs k s m i OK E Hi) as El. pose proof (sk_path _ _ _ OK i ltac:(lia)) as HP.
  destruct (one_link sl xs k s m i OK E Hi) as [Hlink HPm].
  set (r := hi s (level s i xs)) in *. exists (hd (tail sl) r). rewrite !Hold. split_and!; [|done|by apply path_first].
  destruct (before_split sl xs k s i p OK Hp) as (pre & post & Ep & -> & Elo & _). unfold left_of. rewrite Elo, last_of_app.
  rewrite Elo, Ep, <-app_assoc in El. apply app_inv_head in El. rewrite Ep, El in HP. apply path_drop in HP.
  pose proof (sk_nodup _ _ _ OK) as Hnd. apply NoDup_cons in Hnd as [_ [Ht Hnd]%NoDup_cons].
  assert (NoDup (level s i xs)) as Hndl by by apply NoDup_filter.
  rewrite Ep, El in Hndl. apply NoDup_app in Hndl as (_ & _ & Hndl). apply NoDup_app in Hndl as (_ & Hd & _).
  assert (∀ c, c ∈ lo s post → c ∈ level s i xs) as Hsub.
  { intros c Hc. rewrite Ep, El, !elem_of_app. tauto. }
  apply (find_deleted_ok _ _ _ _ _ _ r).
  - apply (path_ext s); [|done]. intros c _. apply Hold.
  - intros Hc. apply (Hd m Hc). left.
  - intros [_ Hc]%Hsub%level_elem. done.
  - pose proof (length_filter (λ x, i < height s x)%nat xs) as Hlen. fold (level s i xs) in Hlen.
    rewrite Ep, El, !length_app in Hlen. lia.
Qed.

(** One level is unlinked; the state reached is as before on the lower ones. *)
Lemma unlink_levels_spec fuel s m i p (h : nheap) :
  skip_ok s sl xs → equal cmp (key s) k xs = [m] → (i < height s m)%nat → before sl xs k s i p →
  same_shape s (structs h) → (∀ j c, (j ≤ i)%nat → lnk (structs h) j c = lnk s j c) → (length xs < fuel)%nat →
  ∃ s', unlink_levels fuel sl m i p h = Done (tt, with_structs h s') ∧ same_shape s s' ∧
    (∀ j c, (j ≤ i)%nat → lnk s' j c = if decide (c = left_of s j) then lnk s j m else lnk s j c) ∧
    (∀ j c, (i < j)%nat → lnk s' j c = lnk (structs h) j c).
Proof using All.
  intros OK E. revert p h. induction i as [|i IH]; intros p h Hi Hp Hsh Hold Hf; cbn [unlink_levels].
  all: destruct (unlink_level_ok fuel s m _ p h OK E Hi Hp Hsh (λ c, Hold _ c (le_n _)) Hf) as (x & Ef & Hl1 & Hl2);
    m_step Ef; m_step (link_ok _ _ _ _ Hl1); rewrite Z.eqb_refl; cbn [negb]; m_step (link_ok _ _ _ _ Hl2).
  all: pose proof (proj1 (lnk_height _ _ _) (ex_intro _ _ Hl1 : is_Some _)) as Hh; m_step (set_link_ok h _ _ x Hh).
  all: rewrite Hold in Hl2 by lia.
  - eexists. split; [done|]. split; [by eapply same_shape_trans, upd_shape|]. split; intros j c Hj; rewrite lnk_upd by done.
    + replace j with 0%nat by lia. rewrite Hold by lia. repeat case_decide; try done; tauto.
    + rewrite decide_False by lia. done.
  - set (s1 := upd (structs h) (left_of s (S i)) (S i) x).
    assert (same_shape s s1) as Hsh1 by by eapply same_shape_trans, upd_shape.
    assert (∀ j c, (j ≤ i)%nat → lnk s1 j c = lnk s j c) as Hold1.
    { intros j c Hj. subst s1. rewrite lnk_upd, decide_False, Hold by (done || lia). done. }
    destruct (IH (left_of s (S i)) (with_structs h s1)) as (s' & E' & Hsh' & Hle & Hgt); try done; [lia|apply before_next|].
    exists s'. rewrite E', with_structs_twice. split_and!; [done|done| |].
    + intros j c Hj. destruct (decide (j = S i)) as [->|]; [|apply Hle; lia].
      rewrite Hgt by lia. cbn [structs with_structs]. subst s1. rewrite lnk_upd by done.
      rewrite Hold by lia. repeat case_decide; try done; tauto.
    + intros j c Hj. rewrite Hgt by lia. cbn [structs with_structs]. subst s1. by rewrite lnk_upd, decide_False by (done || lia).
Qed.

Lemma skip_ok_delete s s' m :
  skip_ok s sl xs → equal cmp (key s) k xs = [m] → same_shape s s' →
  (∀ j c, (j < height s m)%nat → lnk s' j c = if decide (c = left_of s j) then lnk s j m else lnk s j c) →
  (∀ j c, (height s m ≤ j)%nat → lnk s' j c = lnk s j c) →
  skip_ok (delete m s') sl (lo s xs ++ hi s xs) ∧
  key (delete m s') <$> (lo s xs ++ hi s xs) = below cmp k (key s <$> xs) ++ above cmp k (key s <$> xs).
Proof using All.
  intros OK E (Hd & Hkey & Hh) Hlow Hhigh. destruct (one_elem sl xs k s m E) as [Hm Hmk].
  pose proof (eqs_one sl xs k s m OK E) as Exs.
  assert (xs ≡ₚ m :: lo s xs ++ hi s xs) as Hperm by (rewrite Exs at 1; by rewrite <-Permutation_middle).
  pose proof (sk_nodup _ _ _ OK) as Hnd. apply NoDup_cons in Hnd as [H1 [H2 H3]%NoDup_cons].
  assert (m ≠ top sl ∧ m ≠ tail sl) as [Hmt Hml] by (split; intros ->; [apply H1; by right|done]).
  rewrite Hperm in H3. apply NoDup_cons in H3 as [H3 H4].
  assert (∀ c, c ∈ lo s xs ++ hi s xs → c ∈ xs ∧ c ≠ m) as Hsub.
  { intros c Hc. split; [|by intros ->]. rewrite Hperm. by right. }
  assert (∀ c, c ≠ m → key (delete m s') c = key s c ∧ height (delete m s') c = height s c ∧
    ∀ i, lnk (delete m s') i c = lnk s' i c) as Hold.
  { intros c Hc. rewrite <-Hkey, <-Hh. unfold key, height, lnk. by rewrite lookup_delete_ne. }
  assert (key (delete m s') <$> (lo s xs ++ hi s xs) = below cmp k (key s <$> xs) ++ above cmp k (key s <$> xs)) as Ekeys.
  { rewrite <-fmap_lower, <-fmap_upper, <-fmap_app. apply list_fmap_ext. intros i c Hc. apply Hold.
    apply Hsub. by apply list_elem_of_lookup_2 in Hc. }
  split; [|done]. split.
  - apply OK.
  - apply OK.
  - rewrite !NoDup_cons, elem_of_cons in *. split_and!; [|by intros [? _]%Hsub|done].
    intros [?|[? _]%Hsub]; tauto.
  - destruct (Hold (top sl)) as (_ & -> & _); [done|]. apply OK.
  - apply Forall_forall. intros c [Hc Hcm]%Hsub. destruct (Hold c Hcm) as (_ & -> & _).
    by apply (one_height sl xs s c OK).
  - intros i Hi. pose proof (sk_path _ _ _ OK i Hi) as HP.
    assert (level (delete m s') i (lo s xs ++ hi s xs) = lo s (level s i xs) ++ hi s (level s i xs)) as ->.
    { rewrite lo_level, hi_level. unfold level at 2 3. rewrite <-filter_app. apply level_ext.
      intros c [Hc Hcm]%Hsub. by apply Hold. }
    assert (∀ c, c ∈ lo s (level s i xs) ++ hi s (level s i xs) → c ∈ xs ∧ c ≠ m) as Hsubl.
    { rewrite lo_level, hi_level. unfold level. rewrite <-filter_app. intros c [_ Hc]%list_elem_of_filter. by apply Hsub. }
    destruct (decide (i < height s m)%nat) as [Him|Him].
    + rewrite (level_one sl xs k s m i OK E Him) in HP.
      assert (left_of s i ≠ m) as Hlm.
      { unfold left_of. destruct (last_of_elem (top sl) (lo s (level s i xs))) as [[-> _]|Hq]; [done|].
        apply Hsubl. apply elem_of_app. by left. }
      apply (path_remove s _ _ _ _ _ _ m); [| | |done].
      * rewrite <-(level_one sl xs k s m i OK E Him). apply NoDup_cons. split.
        { intros [_ ?]%level_elem. apply H1. by right. }
        apply NoDup_filter. rewrite Hperm. by apply NoDup_cons.
      * fold (left_of s i). destruct (Hold _ Hlm) as (_ & _ & ->). rewrite Hlow by done. by rewrite decide_True.
      * fold (left_of s i). intros c Hc Hcl. assert (c ≠ m) as Hcm.
        { apply elem_of_cons in Hc as [->|Hc]; [done|by apply Hsubl]. }
        destruct (Hold _ Hcm) as (_ & _ & ->). rewrite Hlow by done. by rewrite decide_False.
    + assert (level s i xs = lo s (level s i xs) ++ hi s (level s i xs)) as El.
      { rewrite lo_level, hi_level. rewrite Exs at 1. unfold level. rewrite !filter_app, filter_cons_False by done. done. }
      rewrite El in HP at 1. apply (path_ext s); [|done]. intros c Hc. assert (c ≠ m) as Hcm.
      { apply elem_of_cons in Hc as [->|Hc]; [done|by apply Hsubl]. }
      destruct (Hold _ Hcm) as (_ & _ & ->). apply Hhigh. lia.
  - rewrite Ekeys. apply sorted_without; [done|apply OK].
  - rewrite dom_delete_L, Hd, (sk_dom _ _ _ OK). apply set_eq. intros c.
    rewrite elem_of_difference, elem_of_singleton, !elem_of_list_to_set, !elem_of_cons. rewrite Hperm at 1.
    rewrite elem_of_cons. split; [tauto|]. intros [->|[->|Hc]]; split; auto. by apply Hsub.
  - rewrite Ekeys. pose proof (sk_data _ _ _ OK) as H0. intros [?|?]%elem_of_app;
      apply H0; by eapply list_elem_of_filter.
Qed.
End deletion.

(** The new content, the result and the data freed. *)
Definition spec_delete (cmp : Z → Z → Z) (given : bool) (x : Z) (l : list Z) : list Z * Z * list Z :=
  match same cmp x l with
  | [] => (l, ENOENT, [])
  | y :: _ => (below cmp x l ++ above cmp x l, 0, if given then [y] else [])
  end.

Lemma free_object_ok i x (h : nheap) :
  is_Some (structs h !! x) → height (structs h) x = S i →
  fast_mblock_free_object i x h = Done (tt, with_structs h (delete x (structs h))).
Proof.
  intros Hx Hi. destruct (deref_node h x Hx) as (n & En & _ & El). unfold fast_mblock_free_object.
  m_step En. rewrite decide_True by lia. unfold free_struct. by destruct Hx as [y ->].
Qed.

Lemma delete_ok cmp given k h sl l os :
  TotalCompare cmp → set_rep cmp given h sl l os →
  ∃ h', skiplist_set_delete sl k h = Done ((spec_delete cmp given k l).1.2, (spec_delete cmp given k l).2, h') ∧
    set_rep cmp given h' sl (spec_delete cmp given k l).1.1 os.
Proof.
  intros Hcmp Hrep. destruct Hrep as [Hh Hc Hf (xs & OK & Hl) Ho]. subst cmp given l.
  pose proof (descend_top sl xs k h OK) as Hd. unfold skiplist_set_delete, skiplist_set_get_equal_previous, spec_delete.
  rewrite !M_bind_eq. rewrite <-(fmap_equal (compare_func sl) (key (structs h))).
  destruct (eqs_cases sl xs k _ OK) as [E|[m E]]; rewrite E in *; rewrite Hd; cbn [mbind res_bind fmap list_fmap fst snd].
  { exists h. split; [done|]. split; try done. by exists xs. }
  destruct (one_elem sl xs k _ m E) as [Hm _]. destruct (one_height sl xs _ m OK Hm).
  set (j := (height (structs h) m - 1)%nat) in *.
  destruct (one_link sl xs k _ m j OK E) as [Hlink _]; [lia|].
  rewrite M_ret_eq. cbn [mbind res_bind]. m_step (link_ok _ _ _ _ Hlink).
  destruct (unlink_levels_spec sl xs k (size (structs h)) (structs h) m j (left_of sl xs k (structs h) j) h OK E)
    as (s' & Eu & Hsh & Hlow & Hhigh); try done; [lia| |by rewrite (skip_size sl xs _ OK); lia|].
  { unfold before, left_of. destruct (last_of_elem (top sl) (lower (compare_func sl) (key (structs h)) k (level (structs h) j xs)))
      as [[-> _]|Hq]; [by left|]. right. by apply list_elem_of_filter in Hq as [? ?]. }
  unfold left_of in Eu. m_step Eu.
  assert (is_Some (s' !! m)) as Hms.
  { apply height_dom. destruct Hsh as (_ & _ & ->). lia. }
  destruct (deref_node (with_structs h s') m Hms) as (n & En & Ed & _). m_step En. rewrite Ed.
  m_step (free_object_ok j m (with_structs h s') Hms ltac:(destruct Hsh as (_ & _ & Hx); cbn; rewrite Hx; lia)).
  destruct (skip_ok_delete sl xs k (structs h) s' m) as [OK2 Ek]; try done.
  { intros i c Hi. apply Hlow. lia. }
  { intros i c Hi. apply Hhigh. lia. }
  eexists. split.
  - rewrite M_ret_eq. cbn [structs with_structs]. destruct Hsh as (_ & -> & _). done.
  - cbn [structs with_structs]. split; try done; [|by eexists]. apply (heap_ok_smaller h); [done|].
    destruct Hsh as (Edom & _ & _). rewrite dom_delete_L, Edom. set_solver.
Qed.

(** ** Destruction *)

Lemma nodes_from_ok fuel sl x ns (h : nheap) :
  iterates (structs h) (mkIterator (tail sl) x) ns → (length ns ≤ fuel)%nat →
  nodes_from fuel sl x h = Done (ns, h).
Proof.
  revert x ns. induction fuel as [|fuel IH]; intros x ns (Hx & Ht & HP) Hf; cbn [current it_tail] in *; subst x.
  - destruct ns; [|cbn in Hf; lia]. cbn [nodes_from hd]. by rewrite Z.eqb_refl.
  - destruct ns as [|x ns]; cbn [nodes_from hd]; [by rewrite Z.eqb_refl|].
    apply not_elem_of_cons in Ht as [Hne Ht]. rewrite (proj2 (Z.eqb_neq x _)) by congruence.
    m_step (link_ok _ _ _ _ (path_first _ _ _ _ _ HP)). rewrite M_bind_eq, (IH _ ns); [done| |cbn in Hf; lia].
    split_and!; [done|done|]. destruct ns; [done|]. by destruct HP.
Qed.

Lemma data_of_ok ns (h : nheap) :
  (∀ x, x ∈ ns → is_Some (structs h !! x)) → data_of ns h = Done (key (structs h) <$> ns, h).
Proof.
  induction ns as [|x ns IH]; intros Hns; [done|]. cbn [data_of].
  destruct (deref_node h x) as (n & En & Ed & _); [apply Hns; left|]. m_step En.
  rewrite M_bind_eq, IH by (intros; apply Hns; by right). cbn [mbind res_bind]. by rewrite M_ret_eq, Ed.
Qed.

Lemma free_structs_ok ns (h : nheap) :
  NoDup ns → (∀ x, x ∈ ns → is_Some (structs h !! x)) →
  ∃ s', free_structs ns h = Done (tt, with_structs h s') ∧ dom s' = dom (structs h) ∖ list_to_set ns.
Proof.
  revert h. induction ns as [|x ns IH]; intros h Hnd Hns; cbn [free_structs].
  - exists (structs h). split; [by destruct h|]. cbn. by rewrite difference_empty_L.
  - apply NoDup_cons in Hnd as [Hx Hnd]. destruct (Hns x) as [n En]; [left|].
    assert (free_struct x h = Done (tt, with_structs h (delete x (structs h)))) as Ef by (unfold free_struct; by rewrite En).
    m_step Ef. destruct (IH (with_structs h (delete x (structs h)))) as (s' & E & Hdom); [done| |].
    { intros y Hy. cbn [structs with_structs]. rewrite lookup_delete_ne by (intros ->; done). apply Hns. by right. }
    exists s'. rewrite E. split; [done|]. cbn [structs with_structs] in Hdom. rewrite Hdom, dom_delete_L.
    cbn [list_to_set]. set_solver.
Qed.

Lemma destroy_ok cmp given h sl l os :
  set_rep cmp given h sl l os →
  ∃ h', skiplist_set_destroy sl h =
      Done ((if given then l else [], set_arrays sl false (tmp_previous sl)), h') ∧ structs h' = ∅.
Proof.
  intros [Hh Hc Hf (xs & OK & Hl) Ho]. subst cmp given l. destruct (sk_count _ _ _ OK) as [Hc _].
  pose proof (sk_path _ _ _ OK 0 ltac:(lia)) as HP. rewrite (level_0 sl xs _ OK) in HP.
  pose proof (stretch_iterates sl xs _ [] xs [] OK) as Hi. rewrite app_nil_r in Hi. specialize (Hi eq_refl).
  assert (∀ x, x ∈ top sl :: tail sl :: xs → is_Some (structs h !! x)) as Hdom.
  { intros x Hx. apply elem_of_dom. rewrite (sk_dom _ _ _ OK). by apply elem_of_list_to_set. }
  unfold skiplist_set_destroy. destruct (sk_arrays _ _ _ OK) as [-> _]. cbn [negb].
  m_step (link_ok _ _ _ _ (path_first _ _ _ _ _ HP)).
  m_step (nodes_from_ok (size (structs h)) sl _ xs h Hi ltac:(rewrite (skip_size sl xs _ OK); lia)).
  m_step (data_of_ok xs h ltac:(intros; apply Hdom; right; by right)).
  destruct (free_structs_ok (top sl :: tail sl :: xs) h (sk_nodup _ _ _ OK) Hdom) as (s' & Ef & Es).
  m_step Ef. eexists. split; [by rewrite M_ret_eq|]. cbn [structs with_structs].
  apply dom_empty_inv_L. rewrite Es, (sk_dom _ _ _ OK). apply difference_diag_L.
Qed.

(** ** Initialisation *)

Lemma link_tail_ok n i a t (h : nheap) :
  (i + n ≤ height (structs h) a)%nat →
  ∃ s', link_tail n i a t h = Done (tt, with_structs h s') ∧ same_shape (structs h) s' ∧
    ∀ j, (i ≤ j < i + n)%nat → lnk s' j a = Some t.
Proof.
  intros Ha. assert (∀ n i h, (i + n ≤ height (structs h) a)%nat →
    ∃ s', link_tail n i a t h = Done (tt, with_structs h s') ∧ same_shape (structs h) s' ∧
      ∀ j, ((i ≤ j < i + n)%nat → lnk s' j a = Some t) ∧ ((j < i)%nat → lnk s' j a = lnk (structs h) j a)) as Hall.
  { clear. induction n as [|n IH]; intros i h Ha; cbn [link_tail].
    - exists (structs h). split_and!; [by destruct h|apply same_shape_refl|]. intros j. split; [lia|done].
    - m_step (set_link_ok h a i t ltac:(lia)). destruct (upd_shape (structs h) a i t) as (E1 & E2 & E3).
      destruct (IH (S i) (with_structs h (upd (structs h) a i t))) as (s' & E & Hsh & Hj).
      { cbn [structs with_structs]. rewrite E3. lia. }
      cbn [structs with_structs] in *. exists s'. rewrite E. split_and!; [done|by eapply same_shape_trans|].
      intros j. destruct (Hj j) as [Hj1 Hj2]. split; intros Hlt.
      + destruct (decide (j = i)) as [->|]; [|apply Hj1; lia]. rewrite Hj2, lnk_upd by lia. by rewrite decide_True.
      + rewrite Hj2, lnk_upd by lia. by rewrite decide_False by lia. }
  destruct (Hall n i h Ha) as (s' & E & Hsh & Hj). exists s'. split_and!; [done|done|]. intros j. by apply Hj.
Qed.

Lemma next_outcome_drop os : (next_outcome os).2 = drop 1 os.
Proof. by destruct os. Qed.

Lemma init_ok previous mblocks_ok errno inits sl count cmp given (h : nheap) :
  heap_ok h → structs h = ∅ → (∀ p, previous = Some p → zlen p = count) →
  ∃ r sl' h', skiplist_set_init_ex previous mblocks_ok errno inits sl count cmp given h = Done ((r, sl'), h') ∧
    (r = 0 → set_rep cmp given h' sl' [] (drop 2 (outcomes h))) ∧
    (r = 0 ↔ 0 < count ≤ 30 ∧ is_Some previous ∧ mblocks_ok = true ∧
       Forall (λ r, r = 0) (take (Z.to_nat count) inits) ∧ false ∉ take 2 (outcomes h)).
Proof.
  intros Hh Hs Hp. unfold skiplist_set_init_ex.
  assert ((if negb (errno =? 0) then errno else ENOMEM) ≠ 0) as Hnm.
  { destruct (Z.eqb_spec errno 0); cbn [negb]; [unfold ENOMEM; lia|done]. }
  destruct (Z.leb_spec count 0).
  { eexists _, _, _. split; [done|]. split; [discriminate|]. split; [discriminate|lia]. }
  destruct (Z.ltb_spec 30 count).
  { eexists _, _, _. split; [done|]. split; [discriminate|]. split; [discriminate|lia]. }
  destruct previous as [previous|].
  2: { eexists _, _, _. split; [done|]. split; [done|]. split; [done|]. intros (_ & [? ?] & _). done. }
  destruct mblocks_ok; cbn [negb].
  2: { eexists _, _, _. split; [done|]. split; [done|]. split; [done|]. intros (_ & _ & ? & _). done. }
  destruct (list_find (λ r, r ≠ 0) (take (Z.to_nat count) inits)) as [[i r]|] eqn:Ei.
  { apply list_find_Some in Ei as (Er & Hr & _). eexists _, _, _. split; [done|]. split; [done|]. split; [done|].
    intros (_ & _ & _ & Hf & _). rewrite Forall_lookup in Hf. by apply Hf in Er. }
  apply list_find_None in Ei.
  assert (Forall (λ r, r = 0) (take (Z.to_nat count) inits)) as Hinits.
  { eapply Forall_impl; [exact Ei|]. cbn. intros r Hr. by apply dec_stable. }
  clear Ei. pose proof (alloc_ok (Z.to_nat (count - 1)) h Hh) as Ha. pose proof (ok_next _ Hh).
  assert (false ∉ take 2 (outcomes h) ↔ (next_outcome (outcomes h)).1 = true ∧
    (next_outcome (next_outcome (outcomes h)).2).1 = true) as Hout.
  { destruct (outcomes h) as [|[] [|[] os]]; cbn; split; try tauto; try set_solver. }
  assert (drop 2 (outcomes h) = (next_outcome (next_outcome (outcomes h)).2).2) as ->.
  { by rewrite !next_outcome_drop, drop_drop. }
  destruct (next_outcome (outcomes h)) as [ok1 os1]. destruct Ha as (h1 & Ea1 & Hh1 & Ho1 & Es1). m_step Ea1.
  cbn [fst snd] in Hout |- *. destruct ok1.
  2: { eexists _, _, _. split; [done|]. split; [done|]. split; [done|]. intros (_ & _ & _ & _ & Hf). by apply Hout in Hf as [? _]. }
  rewrite (proj2 (Z.eqb_neq (next h) 0)) by lia. set (t := next h) in *.
  set (node := mkNode 0 (replicate (S (Z.to_nat (count - 1))) 0)).
  m_step (put_ok t _ node h1 ltac:(rewrite Es1; apply lookup_insert_eq)). rewrite Es1, insert_insert_eq, Hs.
  set (h2 := with_structs h1 (<[t := node]> ∅)).
  assert (heap_ok h2) as Hh2. { apply heap_ok_shape; [done|]. rewrite Es1, Hs. by rewrite !dom_insert_L. }
  pose proof (alloc_ok 0 h2 Hh2) as Ha. change (outcomes h2) with (outcomes h1) in Ha. rewrite Ho1 in Ha.
  destruct (next_outcome os1) as [ok2 os2]. destruct Ha as (h3 & Ea3 & Hh3 & Ho3 & Es3). m_step Ea3. cbn [fst snd] in Hout.
  destruct ok2.
  2: { eexists _, _, _. split; [done|]. split; [done|]. split; [done|]. intros (_ & _ & _ & _ & Hf). by apply Hout in Hf as [_ ?]. }
  pose proof (ok_next _ Hh2). rewrite (proj2 (Z.eqb_neq (next h2) 0)) by lia.
  destruct (heap_ok_fresh h2 Hh2) as [Hfresh _]. set (t2 := next h2) in *.
  assert (t2 ≠ t) as Hne. { intros E. rewrite E in Hfresh. cbn in Hfresh. by rewrite lookup_insert_eq in Hfresh. }
  m_step (put_ok t2 _ (mkNode 0 [0]) h3 ltac:(rewrite Es3; apply lookup_insert_eq)). rewrite Es3, insert_insert_eq.
  set (s4 := <[t2 := mkNode 0 [0]]> (structs h2)).
  assert (height s4 t = Z.to_nat count) as Ht.
  { unfold height. subst s4. rewrite lookup_insert_ne by done. cbn [structs h2 with_structs]. rewrite lookup_insert_eq.
    cbn [links node]. rewrite length_replicate. lia. }
  destruct (link_tail_ok (Z.to_nat count) 0 t t2 (with_structs h3 s4)) as (s' & El & Hsh & Hl); [cbn [structs with_structs]; lia|].
  m_step El. eexists _, _, _. split; [by rewrite M_ret_eq|]. split; [|split; [|done]].
  - intros _. cbn [structs with_structs] in *. destruct Hsh as (Edom & _ & Eh). split; try done.
    + apply (heap_ok_shape h3); [done|]. rewrite Edom, Es3. subst s4. by rewrite !dom_insert_L.
    + exists []. split; [|done]. cbn [structs with_structs]. split; cbn [level_count top_level_index mblocks tmp_previous top tail set_arrays set_top set_tail compare_func].
      * lia.
      * split; [done|]. specialize (Hp _ eq_refl). unfold zlen in *. rewrite length_take. lia.
      * apply NoDup_cons. split; [|apply NoDup_singleton]. intros ?%list_elem_of_singleton. congruence.
      * by rewrite Eh.
      * constructor.
      * intros i Hi. cbn. apply Hl. lia.
      * constructor.
      * rewrite Edom. subst s4. cbn [h2 structs with_structs]. rewrite !dom_insert_L, dom_empty_L. cbn. set_solver.
      * apply not_elem_of_nil.
  - intros _. split_and!; [lia|lia|by eexists|done|done|by apply Hout].
Qed.

(** * Refinement *)

(** What a program does with a set; each insertion with the values [rand()] gives. *)
Inductive set_op :=
| OpInsert (rands : nat → Z) (x : Z) | OpDelete (x : Z) | OpFind (x : Z) | OpFindAll (x : Z)
| OpRange (a b : Z) | OpIterate | OpEmpty.

Definition drain_all (it : SkiplistSetIterator) : NM (list Z) := λ h, drain (S (size (structs h))) it h.

(** The new set, the result, and the data freed or iterated over. *)
Definition run_op (op : set_op) (sl : SkiplistSet) : NM (SkiplistSet * Z * list Z) :=
  match op with
  | OpInsert rands x => '(r, sl) ← skiplist_set_insert rands sl x; mret (sl, r, [])
  | OpDelete x => '(r, freed) ← skiplist_set_delete sl x; mret (sl, r, freed)
  | OpFind x => d ← skiplist_set_find sl x; mret (sl, d, [])
  | OpFindAll x => '(r, it) ← skiplist_set_find_all sl x; ds ← drain_all it; mret (sl, r, ds)
  | OpRange a b => '(r, it) ← skiplist_set_find_range sl a b; ds ← drain_all it; mret (sl, r, ds)
  | OpIterate => it ← skiplist_set_iterator sl; ds ← drain_all it; mret (sl, 0, ds)
  | OpEmpty => b ← skiplist_set_empty sl; mret (sl, Z.b2z b, [])
  end.

(** The same on a sorted list. *)
Definition spec_op (cmp : Z → Z → Z) (given : bool) (op : set_op) (l : list Z) (os : list bool)
    : list Z * list bool * (Z * list Z) :=
  match op with
  | OpInsert _ x => let '(l, os, r) := spec_insert cmp x l os in (l, os, (r, []))
  | OpDelete x => let '(l, r, freed) := spec_delete cmp given x l in (l, os, (r, freed))
  | OpFind x => (l, os, (hd 0 (same cmp x l), []))
  | OpFindAll x => (l, os, (if decide (same cmp x l = []) then ENOENT else 0, same cmp x l))
  | OpRange a b =>
      let ds := if 0 <? cmp a b then [] else between cmp a b l in
      (l, os, (if 0 <? cmp a b then EINVAL else if decide (ds = []) then ENOENT else 0, ds))
  | OpIterate => (l, os, (0, l))
  | OpEmpty => (l, os, (if decide (l = []) then 1 else 0, []))
  end.

Fixpoint run_ops (ops : list set_op) (sl : SkiplistSet) : NM (SkiplistSet * list (Z * list Z)) :=
  match ops with
  | [] => mret (sl, [])
  | op :: ops =>
      '(sl, r, ds) ← run_op op sl;
      '(sl, trace) ← run_ops ops sl;
      mret (sl, (r, ds) :: trace)
  end.

Fixpoint spec_ops (cmp : Z → Z → Z) (given : bool) (ops : list set_op) (l : list Z) (os : list bool)
    : list Z * list (Z * list Z) :=
  match ops with
  | [] => (l, [])
  | op :: ops =>
      let '(l, os, r) := spec_op cmp given op l os in
      let '(l, trace) := spec_ops cmp given ops l os in
      (l, r :: trace)
  end.

(** NULL is not stored. *)
Definition op_ok (op : set_op) : Prop := match op with OpInsert _ x => x ≠ 0 | _ => True end.

Lemma drain_all_ok (h : nheap) sl xs it ns :
  skip_ok (structs h) sl xs → iterates (structs h) it ns → (∀ x, x ∈ ns → x ∈ xs) → (length ns ≤ length xs)%nat →
  drain_all it h = Done (key (structs h) <$> ns, h).
Proof.
  intros OK Hit Hsub Hlen. unfold drain_all. apply drain_ok; [done| |rewrite (skip_size sl xs _ OK); lia].
  pose proof (sk_data _ _ _ OK) as H0. intros (x & E & Hx)%list_elem_of_fmap. apply H0, list_elem_of_fmap. eauto.
Qed.

Section refinement.
Context (cmp : Z → Z → Z) (given : bool) `{!TotalCompare cmp}.

Lemma set_op_refines op h sl l os :
  set_rep cmp given h sl l os → op_ok op →
  ∃ h' sl', run_op op sl h = Done (sl', (spec_op cmp given op l os).2.1, (spec_op cmp given op l os).2.2, h') ∧
    set_rep cmp given h' sl' (spec_op cmp given op l os).1.1 (spec_op cmp given op l os).1.2.
Proof using All.
  intros Hrep Hop. destruct op as [rands x|x|x|x|a b| |]; cbn [run_op spec_op op_ok] in *.
  - destruct (insert_ok cmp given rands x h sl l os _ Hrep Hop) as (h' & sl' & E & Hrep').
    destruct (spec_insert cmp x l os) as [[l' os'] r]. m_step E. by exists h', sl'.
  - destruct (delete_ok cmp given x h sl l os _ Hrep) as (h' & E & Hrep').
    destruct (spec_delete cmp given x l) as [[l' r] freed]. m_step E. by exists h', sl.
  - exists h, sl. split; [|done]. destruct Hrep as [_ <- _ (xs & OK & <-) _]. m_step (find_ok sl xs x h OK). done.
  - exists h, sl. split; [|done]. destruct Hrep as [_ <- _ (xs & OK & <-) _]. m_step (find_all_ok sl xs x h OK).
    rewrite <-(fmap_equal (compare_func sl) (key (structs h))). destruct (eqs_cases sl xs x _ OK) as [E|[m E]]; rewrite E.
    + rewrite M_bind_eq, (drain_all_ok h sl xs _ [] OK (iterates_end _ _)); [done|by intros ? ?%not_elem_of_nil|cbn; lia].
    + pose proof (eqs_one sl xs x _ m OK E) as Exs.
      pose proof (stretch_iterates sl xs _ (lower (compare_func sl) (key (structs h)) x xs) [m] _ OK Exs) as Hit.
      destruct (one_elem sl xs x _ m E) as [Hm _].
      rewrite M_bind_eq, (drain_all_ok h sl xs _ [m]); try done.
      * by intros ? ->%list_elem_of_singleton.
      * destruct xs; [by apply not_elem_of_nil in Hm|cbn; lia].
  - exists h, sl. split; [|done]. destruct Hrep as [_ <- _ (xs & OK & <-) _].
    destruct (find_range_ok sl xs a b h OK) as (it & E & Hit). m_step E.
    rewrite <-(fmap_between (compare_func sl) (key (structs h))). destruct (0 <? compare_func sl a b) eqn:Hab.
    + rewrite M_bind_eq, (drain_all_ok h sl xs _ [] OK Hit); [done|by intros ? ?%not_elem_of_nil|cbn; lia].
    + rewrite M_bind_eq, (drain_all_ok h sl xs _ _ OK Hit); cycle 1.
      { intros y [_ ?]%list_elem_of_filter. done. }
      { apply length_filter. }
      cbn [mbind res_bind fst snd]. rewrite M_ret_eq. by destruct (keyed_between _ _ a b xs).
  - exists h, sl. split; [|done]. destruct Hrep as [_ <- _ (xs & OK & <-) _].
    destruct (iterator_ok sl xs h OK) as (it & E & Hit). m_step E.
    rewrite M_bind_eq, (drain_all_ok h sl xs _ _ OK Hit); done.
  - exists h, sl. split; [|done]. destruct Hrep as [_ <- _ (xs & OK & <-) _].
    destruct (sk_count _ _ _ OK) as [Hc _].
    pose proof (sk_path _ _ _ OK 0 ltac:(lia)) as HP. rewrite (level_0 sl xs _ OK) in HP.
    unfold skiplist_set_empty. rewrite M_bind_eq. m_step (link_ok _ _ _ _ (path_first _ _ _ _ _ HP)).
    rewrite M_ret_eq. cbn [mbind res_bind]. rewrite M_ret_eq. destruct xs as [|x xs]; cbn [hd fmap list_fmap].
    + by rewrite Z.eqb_refl.
    + rewrite (proj2 (Z.eqb_neq _ _)); [done|]. intros ->. pose proof (sk_nodup _ _ _ OK) as Hnd.
      apply NoDup_cons in Hnd as [_ [Ht _]%NoDup_cons]. apply Ht. left.
Qed.

Lemma set_ops_refines ops h sl l os :
  set_rep cmp given h sl l os → Forall op_ok ops →
  ∃ h' sl' os', run_ops ops sl h = Done (sl', (spec_ops cmp given ops l os).2, h') ∧
    set_rep cmp given h' sl' (spec_ops cmp given ops l os).1 os'.
Proof using All.
  revert h sl l os. induction ops as [|op ops IH]; intros h sl l os Hrep Hops; cbn [run_ops spec_ops].
  { by exists h, sl, os. }
  apply Forall_cons in Hops as [Hop Hops]. destruct (set_op_refines op h sl l os Hrep Hop) as (h1 & sl1 & E & Hrep1).
  destruct (spec_op cmp given op l os) as [[l1 os1] [r ds]]. cbn [fst snd] in *. m_step E.
  destruct (IH h1 sl1 l1 os1 Hrep1 Hops) as (h2 & sl2 & os2 & E2 & Hrep2).
  destruct (spec_ops cmp given ops l1 os1) as [l2 trace]. cbn [fst snd] in *. m_step E2. by exists h2, sl2, os2.
Qed.
End refinement.

(** The life of a set, from its initialisation on: the code of the initialisation,
    what the operations returned, and the data freed at the end. *)
Definition skiplist_life (previous : option (list Z)) (mblocks_ok : bool) (errno : Z) (inits : list Z) (sl : SkiplistSet)
    (count : Z) (cmp : Z → Z → Z) (given : bool) (ops : list set_op) : NM (Z * list (Z * list Z) * list Z) :=
  '(r, sl) ← skiplist_set_init_ex previous mblocks_ok errno inits sl count cmp given;
  if r =? 0 then
    '(sl, trace) ← run_ops ops sl;
    '(freed, _) ← skiplist_set_destroy sl;
    mret (r, trace, freed)
  else mret (r, [], []).

(** C4. For every total comparison and all values of rand(), the operations on a set,
    from its initialisation to its destruction, never misbehave: links are followed
    only to nodes that exist, nodes are given back to the allocator they came from, and
    the loops end. What they return, free and iterate over is what the sorted list gives,
    allocation failures included, and destroying the set frees the rest and leaves no
    node allocated. *)
Theorem skiplist_refines_sorted_set previous mblocks_ok errno inits sl count cmp given ops (h : nheap) :
  TotalCompare cmp → heap_ok h → structs h = ∅ → (∀ p, previous = Some p → zlen p = count) → Forall op_ok ops →
  returns (skiplist_life previous mblocks_ok errno inits sl count cmp given ops h) (λ '(r, trace, freed, h'),
    (r = 0 ↔ 0 < count ≤ 30 ∧ is_Some previous ∧ mblocks_ok = true ∧
       Forall (λ r, r = 0) (take (Z.to_nat count) inits) ∧ false ∉ take 2 (outcomes h)) ∧
    (r = 0 → let '(l, trace') := spec_ops cmp given ops [] (drop 2 (outcomes h)) in
       trace = trace' ∧ sorted cmp l ∧ freed = (if given then l else []) ∧ structs h' = ∅)).
Proof.
  intros Hcmp Hh Hs Hp Hops. unfold skiplist_life.
  destruct (init_ok previous mblocks_ok errno inits sl count cmp given h Hh Hs Hp) as (r & sl1 & h1 & E & Hrep & Hr).
  m_step E. destruct (Z.eqb_spec r 0) as [->|Hne]; [|by split].
  destruct (set_ops_refines cmp given ops h1 sl1 [] _ (Hrep eq_refl) Hops) as (h2 & sl2 & os2 & E2 & Hrep2).
  m_step E2. destruct (destroy_ok cmp given h2 sl2 _ os2 Hrep2) as (h3 & E3 & Hs3). m_step E3. rewrite M_ret_eq.
  split; [done|]. intros _. destruct (spec_ops cmp given ops [] (drop 2 (outcomes h))) as [l trace].
  cbn [fst snd] in Hrep2. split_and!; try done. destruct (sr_nodes _ _ _ _ _ _ Hrep2) as (xs & OK & <-).
  rewrite <-(sr_cmp _ _ _ _ _ _ Hrep2). apply OK.
Qed.

(** ** Reachable states *)

(** The states a program comes to, by an initialisation and any operations. *)
Inductive reachable (cmp : Z → Z → Z) (given : bool) : nheap → SkiplistSet → Prop :=
| reach_init previous errno inits sl count sl' h h' :
    heap_ok h → structs h = ∅ → zlen previous = count →
    skiplist_set_init_ex (Some previous) true errno inits sl count cmp given h = Done ((0, sl'), h') →
    reachable cmp given h' sl'
| reach_op op sl sl' r ds h h' :
    reachable cmp given h sl → op_ok op → run_op op sl h = Done (sl', r, ds, h') → reachable cmp given h' sl'.

(** In every state reached, the links of each level lead from the top node to the
    tail through the nodes that have the level, in increasing order of their data: each
    level is the bottom one without the nodes that are too low. The nodes on the bottom
    level, with the two ends, are all the nodes there are. *)
Theorem skiplist_levels_sorted cmp given h sl :
  TotalCompare cmp → reachable cmp given h sl →
  ∃ xs, NoDup xs ∧ sorted cmp (key (structs h) <$> xs) ∧
    dom (structs h) = list_to_set (top sl :: tail sl :: xs) ∧
    ∀ i : nat, Z.of_nat i < level_count sl →
      path (structs h) i (top sl) (filter (λ x, i < height (structs h) x)%nat xs) (tail sl).
Proof.
  intros Hcmp Hr. assert (∃ l os, set_rep cmp given h sl l os) as (l & os & [_ <- _ (xs & OK & _) _]).
  { induction Hr as [previous errno inits sl count sl' h h' Hh Hs Hp E|op sl sl' r ds h h' _ (l & os & Hrep) Hop E].
    - destruct (init_ok (Some previous) true errno inits sl count cmp given h Hh Hs) as (r & sl1 & h1 & E1 & Hrep & _).
      { intros p [= <-]. done. }
      rewrite E in E1. injection E1 as <- <- <-. eexists _, _. by apply Hrep.
    - destruct (set_op_refines cmp given op h sl l os Hrep Hop) as (h1 & sl1 & E1 & Hrep').
      rewrite E in E1. injection E1 as -> _ _ ->. eauto. }
  exists xs. pose proof (sk_nodup _ _ _ OK) as Hnd. split_and!.
  - apply NoDup_cons in Hnd as [_ Hnd]. by apply NoDup_cons in Hnd as [_ ?].
  - apply OK.
  - apply OK.
  - intros i Hi. apply OK. lia.
Qed.

(** * Witnesses *)

Definition sample_heap : nheap := mkHeap ∅ ∅ 1 [true; true; true; false] 77.

Definition sample_set : SkiplistSet := mkSet 0 0 Z.sub false false 0 0 [].

(** Coins that fall so that nodes of several levels appear. *)
Definition sample_rands (n : nat) : nat → Z := λ i, if decide (i < n)%nat then RAND_MAX else 0.

Definition sample_ops : list set_op :=
  [OpEmpty; OpInsert (sample_rands 2) 30; OpInsert (sample_rands 0) 10; OpInsert (sample_rands 1) 20;
   OpInsert (sample_rands 2) 40; OpInsert (sample_rands 0) 20; OpRange 15 35; OpDelete 30; OpFind 20; OpFindAll 40;
   OpRange 21 29; OpDelete 35; OpIterate].

Lemma sample_nodes_ok : heap_ok sample_heap.
Proof. by split. Qed.

Lemma skiplist_refines_sorted_set_witness :
  returns (skiplist_life (Some [7; 7; 7]) true 0 [0; 0; 0] sample_set 3 Z.sub true sample_ops sample_heap) (λ '(r, trace, freed, h'),
    (r = 0 ↔ 0 < 3 ≤ 30 ∧ is_Some (Some [7; 7; 7]) ∧ true = true ∧
       Forall (λ r, r = 0) (take (Z.to_nat 3) [0; 0; 0]) ∧ false ∉ take 2 (outcomes sample_heap)) ∧
    (r = 0 → let '(l, trace') := spec_ops Z.sub true sample_ops [] (drop 2 (outcomes sample_heap)) in
       trace = trace' ∧ sorted Z.sub l ∧ freed = (if true then l else []) ∧ structs h' = ∅)).
Proof.
  apply skiplist_refines_sorted_set.
  - apply Zsub_compare.
  - apply sample_nodes_ok.
  - done.
  - intros p [= <-]. done.
  - unfold sample_ops. repeat (constructor; [done|]). constructor.
Defined.

(** The state after the first insertion. *)
Definition sample_state : option (SkiplistSet * nheap) :=
  match skiplist_set_init_ex (Some [7; 7; 7]) true 0 [0; 0; 0] sample_set 3 Z.sub true sample_heap with
  | Done (_, sl, h) =>
      match run_op (OpInsert (sample_rands 1) 30) sl h with Done (sl, _, _, h) => Some (sl, h) | _ => None end
  | _ => None
  end.

Lemma skiplist_levels_sorted_witness :
  match sample_state with
  | Some (sl, h) =>
      ∃ xs, NoDup xs ∧ sorted Z.sub (key (structs h) <$> xs) ∧
        dom (structs h) = list_to_set (top sl :: tail sl :: xs) ∧
        ∀ i : nat, Z.of_nat i < level_count sl →
          path (structs h) i (top sl) (filter (λ x, i < height (structs h) x)%nat xs) (tail sl)
  | None => False
  end.
Proof.
  unfold sample_state.
  destruct (skiplist_set_init_ex (Some [7; 7; 7]) true 0 [0; 0; 0] sample_set 3 Z.sub true sample_heap)
    as [[[r sl] h]| |] eqn:E; [|by vm_compute in E..].
  destruct (run_op (OpInsert (sample_rands 1) 30) sl h) as [[[[sl' r'] ds] h']| |] eqn:E'.
  2-3: by vm_compute in E; injection E as <- <- <-; vm_compute in E'.
  apply (skiplist_levels_sorted Z.sub true); [apply Zsub_compare|].
  eapply (reach_op _ _ (OpInsert (sample_rands 1) 30)); [|done|exact E']. eapply (reach_init _ _ [7; 7; 7]); [apply sample_nodes_ok|done| |].
  - by instantiate (1 := 3).
  - assert (r = 0) as -> by (vm_compute in E; by injection E as <- _ _). exact E.
Defined.

Example sample_life :
  (a ← skiplist_life (Some [7; 7; 7]) true 0 [0; 0; 0] sample_set 3 Z.sub true sample_ops sample_heap; mret a.1) =
  Done (0, [(1, []); (0, []); (ENOMEM, []); (0, []); (0, []); (EEXIST, []); (0, [20; 30]); (0, [30]); (20, []); (0, [40]);
            (ENOENT, []); (ENOENT, []); (0, [20; 40])], [20; 40]).
Proof. vm_compute. reflexivity. Qed.
