(* ===== verification/CString.v ===== *)
(** The functions of the C library on strings that libs/fastcommon/src/shared_func.c
    calls: a string argument that is only read is the list of its characters, without
    the terminator; a buffer holds the terminator. *)
From S2P Require Import Prelude.
From Stdlib Require Import DecimalFacts DecimalZ DecimalPos.

(** * Strings *)

(** A C string: bytes other than 0. *)
Definition cstr (s : list Z) : Prop := Forall (λ x, 0 < x < 256) s.

#[global] Instance cstr_dec s : Decision (cstr s).
Proof. apply Forall_dec. intros x. apply _. Defined.

(** [s[i]] of a string that is only read; behind the characters is the terminator. *)
Definition char_at (s : list Z) (i : Z) : res Z := load (s ++ [0]) i.

(** The string at the beginning of a buffer. *)
Fixpoint cstring (b : list Z) : res (list Z) :=
  match b with
  | [] => Undef
  | x :: b => if x =? 0 then mret [] else s ← cstring b; mret (x :: s)
  end.

(** [strlen(b + p)] and [strchr(b + p, c)] of a buffer; the index found. *)
Definition strlen (b : list Z) (p : Z) : res Z :=
  if 0 <=? p then s ← cstring (drop (Z.to_nat p) b); mret (zlen s) else Undef.

Definition find_char (c : Z) (s : list Z) : option Z := Z.of_nat ∘ fst <$> list_find (λ x, x = c) s.

Definition strchr (b : list Z) (p c : Z) : res (option Z) :=
  if 0 <=? p then
    s ← cstring (drop (Z.to_nat p) b);
    mret (Z.add p <$> find_char c (if c =? 0 then s ++ [0] else s))
  else Undef.

(** The first index at which [needle] stands in [s]. *)
Fixpoint find_sub (needle s : list Z) : option Z :=
  if decide (needle `prefix_of` s) then Some 0
  else match s with [] => None | _ :: s => Z.succ <$> find_sub needle s end.

(** [strstr(s + p, needle)] on strings that are only read. *)
Definition strstr (s : list Z) (p : Z) (needle : list Z) : res (option Z) :=
  if (0 <=? p) && (p <=? zlen s) then mret (Z.add p <$> find_sub needle (drop (Z.to_nat p) s)) else Undef.

(** [memcmp(s + p, t, n) == 0] *)
Definition memeq (s : list Z) (p : Z) (t : list Z) (n : Z) : res bool :=
  if (0 <=? p) && (0 <=? n) && (p + n <=? zlen s + 1) && (n <=? zlen t + 1)
  then mret (bool_decide (zslice (s ++ [0]) p n = take (Z.to_nat n) (t ++ [0])))
  else Undef.

(** * Numbers *)

Definition isspace (c : Z) : bool := (c =? 32) || (9 <=? c) && (c <=? 13).

(** The value of a digit in bases up to 36. *)
Definition digit_of (base c : Z) : Z :=
  if (48 <=? c) && (c <=? 57) then c - 48
  else if (97 <=? c) && (c <=? 122) then c - 87
  else if (65 <=? c) && (c <=? 90) then c - 55 else base.

Definition digit_value (base c : Z) : option Z :=
  if digit_of base c <? base then Some (digit_of base c) else None.

Fixpoint take_digits (base : Z) (s : list Z) : list Z :=
  match s with
  | [] => []
  | c :: s => match digit_value base c with Some v => v :: take_digits base s | None => [] end
  end.

Fixpoint drop_spaces (s : list Z) : list Z :=
  match s with [] => [] | c :: t => if isspace c then drop_spaces t else s end.

Definition number (base : Z) (ds : list Z) : Z := foldl (λ v d, v * base + d) 0 ds.

Definition LONG_MAX : Z := 2 ^ 63 - 1.
Definition LONG_MIN : Z := - 2 ^ 63.

(** Whether a text in base 16 begins with 0x and a digit. *)
Definition hex_prefix (base : Z) (s : list Z) : bool :=
  match s with
  | c :: x :: d :: _ =>
      (base =? 16) && (c =? 48) && ((x =? 120) || (x =? 88)) && bool_decide (is_Some (digit_value 16 d))
  | _ => false
  end.

(** The value and the rest behind it; the whole string when there is no number. *)
Definition strtol (s : list Z) (base : Z) : Z * list Z :=
  let s1 := drop_spaces s in
  let '(negative, s2) :=
    match s1 with
    | [] => (false, s1)
    | c :: t => if c =? 45 then (true, t) else if c =? 43 then (false, t) else (false, s1)
    end in
  let s3 := if hex_prefix base s2 then drop 2 s2 else s2 in
  match take_digits base s3 with
  | [] => (0, s)
  | ds => let v := number base ds in
          (Z.max LONG_MIN (Z.min LONG_MAX (if negative then - v else v)), drop (length ds) s3)
  end.

(** A value an int cannot hold is undefined. *)
Definition atoi (s : list Z) : res Z := cint (strtol s 10).1.

(** What [sprintf] with a decimal format writes. *)
Fixpoint uint_chars (u : Decimal.uint) : list Z :=
  match u with
  | Decimal.Nil => []
  | Decimal.D0 u => 48 :: uint_chars u | Decimal.D1 u => 49 :: uint_chars u
  | Decimal.D2 u => 50 :: uint_chars u | Decimal.D3 u => 51 :: uint_chars u
  | Decimal.D4 u => 52 :: uint_chars u | Decimal.D5 u => 53 :: uint_chars u
  | Decimal.D6 u => 54 :: uint_chars u | Decimal.D7 u => 55 :: uint_chars u
  | Decimal.D8 u => 56 :: uint_chars u | Decimal.D9 u => 57 :: uint_chars u
  end.

Definition decimal (n : Z) : list Z :=
  match Z.to_int n with
  | Decimal.Pos u => uint_chars u
  | Decimal.Neg u => 45 :: uint_chars u
  end.

(** * Lemmas *)

Lemma cstr_app s t : cstr (s ++ t) ↔ cstr s ∧ cstr t.
Proof. apply Forall_app. Qed.

Lemma cstring_ok s r : cstr s → cstring (s ++ 0 :: r) = Done s.
Proof.
  induction 1 as [|x s Hx _ IH]; [done|]. cbn [app cstring]. rewrite (proj2 (Z.eqb_neq x 0)) by lia. by rewrite IH.
Qed.

Lemma strlen_mid l s r : cstr s → strlen (l ++ s ++ 0 :: r) (zlen l) = Done (zlen s).
Proof.
  intros Hs. unfold strlen. pose proof (zlen_nonneg l). case_if; [|lia_bool].
  replace (Z.to_nat (zlen l)) with (length l) by (unfold zlen; lia).
  by rewrite drop_app_length, cstring_ok.
Qed.

Lemma char_at_ok s i x : zget s i = Some x → char_at s i = Done x.
Proof. intros Hx. apply load_ok. pose proof (zget_Some_range _ _ _ Hx). by rewrite zget_app_l by lia. Qed.

Lemma char_at_end s : char_at s (zlen s) = Done 0.
Proof. apply load_app_mid. Qed.

Lemma char_at_mid l x r : char_at (l ++ x :: r) (zlen l) = Done x.
Proof. apply char_at_ok, zget_app_mid. Qed.

Lemma digit_value_range base c v : digit_value base c = Some v → v < base ∧ (0 < base → 0 ≤ v).
Proof. unfold digit_value, digit_of. case_if; intros [= <-]. repeat case_if; lia_bool. Qed.

Lemma digit_value_dec base d : 0 ≤ d ≤ 9 → 9 < base → digit_value base (48 + d) = Some d.
Proof.
  intros. unfold digit_value. assert (digit_of base (48 + d) = d) as -> by (unfold digit_of; case_if; lia_bool).
  by rewrite (proj2 (Z.ltb_lt d base)) by lia.
Qed.

Lemma number_app base ds1 ds2 :
  number base (ds1 ++ ds2) = number base ds1 * base ^ zlen ds2 + number base ds2.
Proof.
  unfold number. rewrite foldl_app. generalize (foldl (λ v d, v * base + d) 0 ds1). intros v.
  assert (∀ v w, foldl (λ v d, v * base + d) (v + w) ds2 = v * base ^ zlen ds2 + foldl (λ v d, v * base + d) w ds2) as H.
  { induction ds2 as [|d ds2 IH]; intros v' w; cbn [foldl]; [change (zlen []) with 0; lia|].
    replace ((v' + w) * base + d) with (v' * base + (w * base + d)) by lia. rewrite IH, zlen_cons.
    rewrite Z.pow_add_r by (pose proof (zlen_nonneg ds2); lia). lia. }
  rewrite <-(Z.add_0_r v) at 1. apply H.
Qed.

Lemma store_mid (l : list Z) x r p y : p = zlen l → store (l ++ x :: r) p y = Done (l ++ y :: r).
Proof. intros ->. apply store_app_mid. Qed.

Lemma load_mid (l : list Z) x r p : p = zlen l → load (l ++ x :: r) p = Done x.
Proof. intros ->. apply load_app_mid. Qed.

(** ** Decimal numbers *)

Fixpoint uint_digits (u : Decimal.uint) : list Z :=
  match u with
  | Decimal.Nil => []
  | Decimal.D0 u => 0 :: uint_digits u | Decimal.D1 u => 1 :: uint_digits u
  | Decimal.D2 u => 2 :: uint_digits u | Decimal.D3 u => 3 :: uint_digits u
  | Decimal.D4 u => 4 :: uint_digits u | Decimal.D5 u => 5 :: uint_digits u
  | Decimal.D6 u => 6 :: uint_digits u | Decimal.D7 u => 7 :: uint_digits u
  | Decimal.D8 u => 8 :: uint_digits u | Decimal.D9 u => 9 :: uint_digits u
  end.

Lemma uint_chars_digits u : uint_chars u = (λ d, 48 + d) <$> uint_digits u.
Proof. induction u; cbn [uint_chars uint_digits fmap list_fmap]; [done|rewrite IHu; done..]. Qed.

Lemma uint_digits_range u : Forall (λ d, 0 ≤ d ≤ 9) (uint_digits u).
Proof. induction u; cbn [uint_digits]; constructor; done || lia. Qed.

Lemma of_uint_acc_number u p :
  Z.pos (Pos.of_uint_acc u p) = foldl (λ v d, v * 10 + d) (Z.pos p) (uint_digits u).
Proof. revert p. induction u; intros p; cbn [Pos.of_uint_acc uint_digits foldl]; [done|rewrite IHu; f_equal; lia..]. Qed.

Lemma of_uint_number u : Z.of_uint u = number 10 (uint_digits u).
Proof.
  unfold Z.of_uint, number. induction u; cbn [Pos.of_uint uint_digits foldl Z.of_N]; try done;
    by rewrite of_uint_acc_number.
Qed.

Lemma take_digits_10 ds : Forall (λ d, 0 ≤ d ≤ 9) ds → take_digits 10 ((λ d, 48 + d) <$> ds) = ds.
Proof.
  induction 1 as [|d ds Hd _ IH]; [done|]. cbn [fmap list_fmap take_digits].
  by rewrite digit_value_dec, IH by lia.
Qed.

(** The characters of a number: a sign and its digits. *)
Definition decimal_sign (n : Z) : list Z := if n <? 0 then [45] else [].
Definition decimal_digits (n : Z) : list Z := uint_chars (match Z.to_int n with Decimal.Pos u | Decimal.Neg u => u end).

Lemma decimal_split n : decimal n = decimal_sign n ++ decimal_digits n.
Proof. unfold decimal, decimal_sign, decimal_digits. by destruct n. Qed.

Lemma decimal_number n : decimal_digits n = (λ d, 48 + d) <$> uint_digits (match Z.to_int n with Decimal.Pos u | Decimal.Neg u => u end).
Proof. apply uint_chars_digits. Qed.

Lemma decimal_abs n : number 10 (take_digits 10 (decimal_digits n)) = Z.abs n.
Proof.
  rewrite decimal_number, take_digits_10 by apply uint_digits_range. rewrite <-of_uint_number.
  pose proof (DecimalZ.of_to n) as E. destruct n as [|p|p]; cbn [Z.to_int Z.of_int Z.abs] in *; [done|done|].
  rewrite <-(Z.opp_involutive (Z.of_uint _)). by rewrite E.
Qed.

Lemma decimal_nonempty n : uint_digits (match Z.to_int n with Decimal.Pos u | Decimal.Neg u => u end) ≠ [].
Proof.
  destruct n as [|p|p]; cbn [Z.to_int]; [done|..]; intros E; pose proof (decimal_abs (Z.pos p)) as H;
    rewrite decimal_number in H; cbn [Z.to_int] in H; rewrite E in H; cbn in H; lia.
Qed.

Lemma hex_prefix_10 s : hex_prefix 10 s = false.
Proof. unfold hex_prefix. repeat (case_match; try done). Qed.

Lemma take_digits_app ds r :
  Forall (λ d, 0 ≤ d ≤ 9) ds → take_digits 10 r = [] → take_digits 10 (((λ d, 48 + d) <$> ds) ++ r) = ds.
Proof.
  intros Hds Hr. induction Hds as [|d ds Hd _ IH]; [done|]. cbn [fmap list_fmap app take_digits].
  by rewrite digit_value_dec, IH by lia.
Qed.

(** Reading back a decimal number. *)
Lemma strtol_decimal n r :
  LONG_MIN ≤ n ≤ LONG_MAX → take_digits 10 r = [] → strtol (decimal n ++ r) 10 = (n, r).
Proof.
  intros Hn Hr. pose proof (decimal_abs n) as Habs. rewrite decimal_number in Habs.
  rewrite take_digits_10 in Habs by apply uint_digits_range. rewrite decimal_split, decimal_number.
  pose proof (decimal_nonempty n) as Hne. pose proof (uint_digits_range (match Z.to_int n with Decimal.Pos u | Decimal.Neg u => u end)) as Hds.
  set (ds := uint_digits _) in *. clearbody ds.
  pose proof (take_digits_app ds r Hds Hr) as Ht. destruct ds as [|d ds]; [done|].
  assert (0 ≤ d ≤ 9) as Hd by by apply Forall_cons in Hds as [? _].
  unfold strtol, decimal_sign.
  assert (∀ t, drop_spaces ((48 + d) :: t) = (48 + d) :: t) as Hsp.
  { intros t. cbn [drop_spaces]. unfold isspace. case_if; [lia_bool|done]. }
  assert (drop (length (d :: ds)) (((λ d, 48 + d) <$> d :: ds) ++ r) = r) as Hdrop.
  { rewrite <-(length_fmap (λ d, 48 + d)). apply drop_app_length. }
  unfold LONG_MIN, LONG_MAX in *. destruct (Z.ltb_spec n 0).
  - change (drop_spaces (([45] ++ ((λ d, 48 + d) <$> d :: ds)) ++ r)) with (45 :: (((λ d, 48 + d) <$> d :: ds) ++ r)).
    cbn [Z.eqb Pos.eqb]. rewrite hex_prefix_10, Ht, Hdrop, Habs. f_equal. lia.
  - cbn [app fmap list_fmap]. rewrite Hsp. cbn [fmap list_fmap app] in Ht, Hdrop.
    rewrite !(proj2 (Z.eqb_neq _ _)), hex_prefix_10, Ht, Hdrop, Habs by lia. f_equal. lia.
Qed.
