(* ===== verification/SharedCodec.v ===== *)
(** Conversions of libs/fastcommon/src/shared_func.c: integers and bytes, hexadecimal
    and URL encodings, numbers with separators, sizes with units, networks of addresses.

    A buffer that is written is a list of its cells; a string that is only read is a
    list of its characters (CString.v). *)
From S2P Require Import Prelude CString.

(** * Code *)

Definition ENOMEM : Z := 12.
Definition EINVAL : Z := 22.

(** Arithmetic on int64_t. *)
Definition clong (z : Z) : res Z := if (LONG_MIN <=? z) && (z <=? LONG_MAX) then Done z else Undef.

(** [*p++ = x] for each of [xs]. *)
Fixpoint store_all (b : list Z) (p : Z) (xs : list Z) : res (list Z) :=
  match xs with [] => mret b | x :: xs => b ← store b p x; store_all b (p + 1) xs end.

Fixpoint load_all (b : list Z) (p : Z) (n : nat) : res (list Z) :=
  match n with O => mret [] | S n => x ← load b p; xs ← load_all b (p + 1) n; mret (x :: xs) end.

Definition short2buff (n : Z) (buff : list Z) : res (list Z) :=
  store_all buff 0 [Z.land (Z.shiftr n 8) 255; Z.land n 255].

(** The conversion to short wraps. *)
Definition buff2short (buff : list Z) : res Z :=
  xs ← load_all buff 0 2;
  match xs with
  | [a; b] => mret (sext 16 (Z.lor (Z.shiftl a 8) b))
  | _ => Undef
  end.

Definition int2buff (n : Z) (buff : list Z) : res (list Z) :=
  store_all buff 0 [Z.land (Z.shiftr n 24) 255; Z.land (Z.shiftr n 16) 255; Z.land (Z.shiftr n 8) 255; Z.land n 255].

(** The first byte is shifted as an int. *)
Definition buff2int (buff : list Z) : res Z :=
  xs ← load_all buff 0 4;
  match xs with
  | [a; b; c; d] =>
      a ← cint (Z.shiftl a 24);
      mret (Z.lor (Z.lor (Z.lor a (Z.shiftl b 16)) (Z.shiftl c 8)) d)
  | _ => Undef
  end.

Definition long2buff (n : Z) (buff : list Z) : res (list Z) :=
  store_all buff 0 [Z.land (Z.shiftr n 56) 255; Z.land (Z.shiftr n 48) 255; Z.land (Z.shiftr n 40) 255;
    Z.land (Z.shiftr n 32) 255; Z.land (Z.shiftr n 24) 255; Z.land (Z.shiftr n 16) 255;
    Z.land (Z.shiftr n 8) 255; Z.land n 255].

Definition buff2long (buff : list Z) : res Z :=
  xs ← load_all buff 0 8;
  match xs with
  | [a; b; c; d; e; f; g; h] =>
      a ← clong (Z.shiftl a 56);
      mret (Z.lor (Z.lor (Z.lor (Z.lor (Z.lor (Z.lor (Z.lor a (Z.shiftl b 48)) (Z.shiftl c 40)) (Z.shiftl d 32))
        (Z.shiftl e 24)) (Z.shiftl f 16)) (Z.shiftl g 8)) h)
  | _ => Undef
  end.

(** A digit of ["%02x"]. *)
Definition hex_char (v : Z) : Z := if v <? 10 then 48 + v else 87 + v.

(** [sprintf] writes the two digits and a terminator. *)
Definition bin2hex (s : list Z) (len : Z) (szHexBuff : list Z) : res (list Z) :=
  '(b, nLen) ← for_up 0 len (λ p '(b, nLen),
    x ← load s p;
    b ← store_all b nLen [hex_char (Z.shiftr x 4); hex_char (Z.land x 15); 0];
    nLen ← cint (nLen + 2);
    mret (b, nLen)) (szHexBuff, 0);
  store b nLen 0.

(** The buffer and [*nDestLen]. *)
Definition hex2bin (s : list Z) (szBinBuff : list Z) : res (list Z * Z) :=
  let nSrcLen := zlen s in
  if nSrcLen =? 0 then b ← store szBinBuff 0 0; mret (b, 0) else
  let nDestLen := Z.quot nSrcLen 2 in
  b ← for_up 0 nDestLen (λ i b,
    x ← char_at s (2 * i);
    y ← char_at s (2 * i + 1);
    store b i (u8 (strtol [x; y] 16).1)) szBinBuff;
  b ← store b nDestLen 0;
  mret (b, nDestLen).

Definition url_plain (c : Z) : bool :=
  (48 <=? c) && (c <=? 57) || (97 <=? c) && (c <=? 122) || (65 <=? c) && (c <=? 90) ||
  (c =? 95) || (c =? 45) || (c =? 46).

(** [hex_chars[v]] *)
Definition HEX_CHARS (v : Z) : Z := if v <? 10 then 48 + v else 55 + v.

(** The buffer and [*dest_len]. *)
Definition urlencode (src : list Z) (src_len : Z) (dest : list Z) : res (list Z * Z) :=
  '(dest, p) ← for_up 0 src_len (λ i '(dest, p),
    c ← load src i;
    if url_plain c then dest ← store dest p c; mret (dest, p + 1)
    else if c =? 32 then dest ← store dest p 43; mret (dest, p + 1)
    else
      dest ← store_all dest p [37; HEX_CHARS (Z.shiftr c 4); HEX_CHARS (Z.land c 15)];
      mret (dest, p + 3)) (dest, 0);
  dest ← store dest p 0;
  mret (dest, p).

Definition IS_HEX_CHAR (c : Z) : bool :=
  (48 <=? c) && (c <=? 57) || (65 <=? c) && (c <=? 70) || (97 <=? c) && (c <=? 102).

Definition HEX_VALUE (c : Z) : Z :=
  if (48 <=? c) && (c <=? 57) then c - 48
  else if (97 <=? c) && (c <=? 102) then c - 97 + 10 else c - 65 + 10.

Fixpoint urldecode_loop (fuel : nat) (src : list Z) (src_len : Z) (i : Z) (dest : list Z) (p : Z) : res (list Z * Z) :=
  match fuel with
  | O => OutOfFuel
  | S fuel =>
      if i <? src_len then
        c ← load src i;
        if (c =? 37) && (i + 2 <? src_len) then
          cHigh ← load src (i + 1);
          cLow ← load src (i + 2);
          if IS_HEX_CHAR cHigh && IS_HEX_CHAR cLow then
            dest ← store dest p (u8 (Z.lor (Z.shiftl (HEX_VALUE cHigh) 4) (HEX_VALUE cLow)));
            urldecode_loop fuel src src_len (i + 3) dest (p + 1)
          else
            dest ← store dest p c; urldecode_loop fuel src src_len (i + 1) dest (p + 1)
        else if c =? 43 then dest ← store dest p 32; urldecode_loop fuel src src_len (i + 1) dest (p + 1)
        else dest ← store dest p c; urldecode_loop fuel src src_len (i + 1) dest (p + 1)
      else mret (dest, p)
  end.

Definition urldecode_ex (src : list Z) (src_len : Z) (dest : list Z) : res (list Z * Z) :=
  urldecode_loop (S (Z.to_nat src_len)) src src_len 0 dest 0.

Definition urldecode (src : list Z) (src_len : Z) (dest : list Z) : res (list Z * Z) :=
  '(dest, dest_len) ← urldecode_ex src src_len dest;
  dest ← store dest dest_len 0;
  mret (dest, dest_len).

(** The while loop of [add_thousands_separator]. *)
Fixpoint separator_loop (fuel : nat) (str : list Z) (first addings src dest chars add_count : Z) : res (list Z) :=
  match fuel with
  | O => OutOfFuel
  | S fuel =>
      if first <=? src then
        c ← load str src;
        str ← store str dest c;
        let src := src - 1 in let dest := dest - 1 in
        let chars := chars + 1 in
        if Z.rem chars 3 =? 0 then
          if add_count =? addings then mret str
          else
            str ← store str dest 44;
            separator_loop fuel str first addings src (dest - 1) chars (add_count + 1)
        else separator_loop fuel str first addings src dest chars add_count
      else mret str
  end.

Definition add_thousands_separator (str : list Z) (len : Z) : res (list Z) :=
  if len <=? 3 then mret str else
  c ← load str 0;
  let '(first, sub) := if c =? 45 then (1, 2) else (0, 1) in
  let addings := Z.quot (len - sub) 3 in
  let new_len := len + addings in
  str ← store str new_len 0;
  separator_loop (S (Z.to_nat len)) str first addings (len - 1) (new_len - 1) 0 0.

(** [int2str] and [long2str], which differ in the type of [n]. *)
Definition int2str (n : Z) (buff : list Z) (thousands_separator : bool) : res (list Z) :=
  let text := decimal n in
  buff ← store_all buff 0 (text ++ [0]);
  if thousands_separator then add_thousands_separator buff (zlen text) else mret buff.

(** The result and [*bytes]. *)
Definition parse_bytes (pStr : list Z) (default_unit_bytes : Z) : res (Z * Z) :=
  let '(bytes, pReservedEnd) := strtol pStr 10 in
  if bytes <? 0 then mret (EINVAL, bytes) else
  bytes ← match pReservedEnd with
          | [] => clong (bytes * default_unit_bytes)
          | c :: _ =>
              if (c =? 71) || (c =? 103) then clong (bytes * (1024 * 1024 * 1024))
              else if (c =? 77) || (c =? 109) then clong (bytes * (1024 * 1024))
              else if (c =? 75) || (c =? 107) then clong (bytes * 1024)
              else mret bytes
          end;
  mret (0, bytes).

Definition is_power2 (n : Z) : res bool :=
  if n =? 0 then mret false else m ← clong (n - 1); mret (Z.land n m =? 0).

(** * Buffers *)

(** What has been written to a buffer from its beginning: [out], the rest as before. *)
Lemma store_next (b out : list Z) x :
  zlen out < zlen b → store (zwrite b 0 out) (zlen out) x = Done (zwrite b 0 (out ++ [x])).
Proof. intros. by apply (store_zwrite b 0 out x). Qed.

Lemma store_all_next (b out xs : list Z) :
  zlen out + zlen xs ≤ zlen b → store_all (zwrite b 0 out) (zlen out) xs = Done (zwrite b 0 (out ++ xs)).
Proof.
  revert out. induction xs as [|x xs IH]; intros out Hl; cbn [store_all]; [by rewrite app_nil_r|].
  rewrite zlen_cons in Hl. pose proof (zlen_nonneg xs). rewrite store_next by lia. cbn [mbind res_bind].
  replace (zlen out + 1) with (zlen (out ++ [x])) by (by rewrite zlen_app).
  rewrite IH by (rewrite zlen_app; change (zlen [x]) with 1; lia). by rewrite <-app_assoc.
Qed.

Lemma store_all_start (b xs : list Z) : zlen xs ≤ zlen b → store_all b 0 xs = Done (zwrite b 0 xs).
Proof. intros Hl. pose proof (store_all_next b [] xs) as Hs. rewrite zwrite_nil in Hs. apply Hs. change (zlen []) with 0. lia. Qed.

Lemma load_all_mid (l xs r : list Z) : load_all (l ++ xs ++ r) (zlen l) (length xs) = Done xs.
Proof.
  revert l. induction xs as [|x xs IH]; intros l; cbn [length load_all app]; [done|].
  rewrite load_app_mid. cbn [mbind res_bind]. specialize (IH (l ++ [x])). rewrite <-app_assoc in IH. cbn [app] in IH.
  replace (zlen l + 1) with (zlen (l ++ [x])) by (by rewrite zlen_app). by rewrite IH.
Qed.

Lemma load_all_start (b xs : list Z) n : length xs = n → load_all (zwrite b 0 xs) 0 n = Done xs.
Proof. intros <-. rewrite zwrite_zero_app. apply (load_all_mid [] xs). Qed.

(** * Integers in big-endian bytes *)

Lemma octet_at n k : 0 ≤ k → Z.land (Z.shiftr n k) 255 = (n / 2 ^ k) mod 256.
Proof. intros. rewrite Z.shiftr_div_pow2 by done. change 255 with (2 ^ 8 - 1). by rewrite land_ones_mod by done. Qed.

Lemma byte_low n : Z.land n 255 = n mod 256.
Proof. change 255 with (2 ^ 8 - 1). by rewrite land_ones_mod by done. Qed.

(** The next byte of a number. *)
Lemma byte_step n k : 0 ≤ k → n / 2 ^ k = (n / 2 ^ (k + 8)) * 256 + (n / 2 ^ k) mod 256.
Proof.
  intros. rewrite Z.pow_add_r, <-Z.div_div by lia. change (2 ^ 8) with 256.
  pose proof (Z.div_mod (n / 2 ^ k) 256 ltac:(lia)). lia.
Qed.

Theorem short_roundtrip n buff :
  - 2 ^ 15 ≤ n < 2 ^ 15 → 2 ≤ zlen buff →
  (b ← short2buff n buff; buff2short b) = Done n.
Proof.
  intros Hn Hb. unfold short2buff, buff2short. rewrite store_all_start by exact Hb. cbn [mbind res_bind].
  rewrite load_all_start by done. cbn [mbind res_bind]. rewrite octet_at, byte_low by done.
  rewrite lor_shiftl_add by lia. unfold mret, res_ret, sext. f_equal. case_if; lia_bool.
Qed.

Lemma byte_range x : 0 ≤ x mod 256 < 256.
Proof. apply Z.mod_pos_bound. lia. Qed.

(** The highest byte tells the sign. *)
Lemma top_byte n k :
  0 ≤ k → - 2 ^ (k + 7) ≤ n < 2 ^ (k + 7) →
  (0 ≤ n → (n / 2 ^ k) mod 256 = n / 2 ^ k ∧ 0 ≤ n / 2 ^ k < 128) ∧ (n < 0 → 128 ≤ (n / 2 ^ k) mod 256).
Proof.
  intros Hk Hn. rewrite Z.pow_add_r in Hn by lia. assert (0 < 2 ^ k) by (apply Z.pow_pos_nonneg; lia).
  change (2 ^ 7) with 128 in Hn. split; intros H0.
  - assert (0 ≤ n / 2 ^ k < 128) by (split; [apply Z.div_pos|apply Z.div_lt_upper_bound]; lia).
    split; [apply Z.mod_small|]; lia.
  - assert (-128 ≤ n / 2 ^ k < 0) by (split; [apply Z.div_le_lower_bound|apply Z.div_lt_upper_bound]; lia).
    rewrite <-(Z.mod_add _ 1), Z.mod_small by lia. lia.
Qed.

(** An int that is not negative comes back from its four bytes; the bytes of a
    negative one are read by a shift into the sign, which C does not define. *)
Theorem int_roundtrip n buff :
  INT_MIN ≤ n ≤ INT_MAX → 4 ≤ zlen buff →
  (b ← int2buff n buff; buff2int b) = if decide (0 ≤ n) then Done n else Undef.
Proof.
  intros Hn Hb. unfold int2buff, buff2int. rewrite store_all_start by exact Hb. cbn [mbind res_bind].
  rewrite load_all_start by done. cbn [mbind res_bind]. rewrite !octet_at, byte_low by done.
  rewrite (Z.shiftl_mul_pow2 _ 24) by done. unfold INT_MIN, INT_MAX in Hn.
  pose proof (byte_step n 0 ltac:(done)) as B0. rewrite Z.pow_0_r, Z.div_1_r in B0.
  pose proof (byte_step n 8 ltac:(done)) as B1. pose proof (byte_step n 16 ltac:(done)) as B2.
  change (0 + 8) with 8 in *. change (8 + 8) with 16 in *. change (16 + 8) with 24 in *. pose proof (byte_range n). pose proof (byte_range (n / 2 ^ 8)).
  pose proof (byte_range (n / 2 ^ 16)). destruct (top_byte n 24 ltac:(done) ltac:(change (24 + 7) with 31; lia)) as [Htop Hneg].
  unfold cint, in_int, INT_MIN, INT_MAX. case_decide as Hnn.
  - destruct (Htop Hnn) as [-> ?]. case_if; [|lia_bool]. cbn [mbind res_bind]. unfold mret, res_ret. f_equal.
    rewrite <-!Z.lor_assoc, <-(Z.shiftl_mul_pow2 _ 24) by done. rewrite (lor_shiftl_add _ _ 8) by lia. rewrite (lor_shiftl_add _ _ 16) by lia.
    rewrite (lor_shiftl_add _ _ 24) by lia. lia.
  - specialize (Hneg ltac:(lia)). case_if; [lia_bool|done].
Qed.

Theorem long_roundtrip n buff :
  LONG_MIN ≤ n ≤ LONG_MAX → 8 ≤ zlen buff →
  (b ← long2buff n buff; buff2long b) = if decide (0 ≤ n) then Done n else Undef.
Proof.
  intros Hn Hb. unfold long2buff, buff2long. rewrite store_all_start by exact Hb. cbn [mbind res_bind].
  rewrite load_all_start by done. cbn [mbind res_bind]. rewrite !octet_at, byte_low by done.
  rewrite (Z.shiftl_mul_pow2 _ 56) by done. unfold LONG_MIN, LONG_MAX in Hn.
  pose proof (byte_step n 0 ltac:(done)) as B0. rewrite Z.pow_0_r, Z.div_1_r in B0.
  pose proof (byte_step n 8 ltac:(done)) as B1. pose proof (byte_step n 16 ltac:(done)) as B2.
  pose proof (byte_step n 24 ltac:(done)) as B3. pose proof (byte_step n 32 ltac:(done)) as B4.
  pose proof (byte_step n 40 ltac:(done)) as B5. pose proof (byte_step n 48 ltac:(done)) as B6.
  change (0 + 8) with 8 in *. change (8 + 8) with 16 in *. change (16 + 8) with 24 in *. change (24 + 8) with 32 in *.
  change (32 + 8) with 40 in *. change (40 + 8) with 48 in *. change (48 + 8) with 56 in *.
  pose proof (byte_range n). pose proof (byte_range (n / 2 ^ 8)). pose proof (byte_range (n / 2 ^ 16)).
  pose proof (byte_range (n / 2 ^ 24)). pose proof (byte_range (n / 2 ^ 32)). pose proof (byte_range (n / 2 ^ 40)).
  pose proof (byte_range (n / 2 ^ 48)). destruct (top_byte n 56 ltac:(done) ltac:(change (56 + 7) with 63; lia)) as [Htop Hneg].
  revert B0 B1 B2 B3 B4 B5 B6 Htop Hneg.
  set (q1 := n / 2 ^ 8) in *. set (q2 := n / 2 ^ 16) in *. set (q3 := n / 2 ^ 24) in *. set (q4 := n / 2 ^ 32) in *.
  set (q5 := n / 2 ^ 40) in *. set (q6 := n / 2 ^ 48) in *. set (q7 := n / 2 ^ 56) in *.
  clearbody q1 q2 q3 q4 q5 q6 q7.
  set (r0 := n mod 256) in *. set (r1 := q1 mod 256) in *. set (r2 := q2 mod 256) in *. set (r3 := q3 mod 256) in *.
  set (r4 := q4 mod 256) in *. set (r5 := q5 mod 256) in *. set (r6 := q6 mod 256) in *. set (r7 := q7 mod 256) in *.
  clearbody r0 r1 r2 r3 r4 r5 r6 r7. intros B0 B1 B2 B3 B4 B5 B6 Htop Hneg.
  unfold clong, LONG_MIN, LONG_MAX. case_decide as Hnn.
  - destruct (Htop Hnn) as [-> ?]. case_if; [|lia_bool]. cbn [mbind res_bind]. unfold mret, res_ret. f_equal.
    rewrite <-!Z.lor_assoc, <-(Z.shiftl_mul_pow2 _ 56) by done.
    rewrite (lor_shiftl_add _ _ 8) by lia.
    rewrite (lor_shiftl_add _ _ 16) by lia. rewrite (lor_shiftl_add _ _ 24) by lia. rewrite (lor_shiftl_add _ _ 32) by lia. rewrite (lor_shiftl_add _ _ 40) by lia. rewrite (lor_shiftl_add _ _ 48) by lia. rewrite (lor_shiftl_add _ _ 56) by lia. lia.
  - specialize (Hneg ltac:(lia)). case_if; [lia_bool|done].
Qed.

(** * Texts written to a buffer *)

Lemma zwrite_over (b out junk xs : list Z) :
  zlen junk ≤ zlen xs → zlen out + zlen xs ≤ zlen b →
  zwrite (zwrite b 0 (out ++ junk)) (zlen out) xs = zwrite b 0 (out ++ xs).
Proof.
  intros Hj Hl. rewrite !zwrite_zero_app. unfold zwrite at 1. unfold zlen in *. rewrite !Nat2Z.id, <-app_assoc.
  rewrite take_app_length, <-app_assoc. do 2 f_equal. rewrite !length_app.
  replace (Z.to_nat (Z.of_nat (length out) + Z.of_nat (length xs))) with (length out + length xs)%nat by lia.
  rewrite <-drop_drop, drop_app_length, drop_app_ge, drop_drop by lia. f_equal. lia.
Qed.

Lemma store_all_ok (b : list Z) p xs : 0 ≤ p → p + zlen xs ≤ zlen b → store_all b p xs = Done (zwrite b p xs).
Proof.
  revert b p. induction xs as [|x xs IH]; intros b p Hp Hl; cbn [store_all]; [by rewrite zwrite_nil|].
  rewrite zlen_cons in Hl. pose proof (zlen_nonneg xs). rewrite store_ok by lia. cbn [mbind res_bind].
  rewrite IH by (rewrite ?zlen_zupd; lia). by rewrite zwrite_cons by lia.
Qed.

Lemma store_one (b : list Z) p x : 0 ≤ p < zlen b → store b p x = Done (zwrite b p [x]).
Proof.
  intros Hp. pose proof (store_all_ok b p [x]) as Hs. cbn [store_all] in Hs. change (zlen [x]) with 1 in Hs.
  rewrite <-Hs by lia. by rewrite store_ok.
Qed.

(** Properties of single bytes are decided by trying them all. *)
Lemma byte_forall (P : Z → bool) : forallb P (seqZ 0 256) = true → ∀ c, is_byte c → P c = true.
Proof.
  intros Hall c Hc. rewrite forallb_forall in Hall. apply Hall. apply list_elem_of_In, elem_of_seqZ. unfold is_byte in Hc. lia.
Qed.

Lemma take_snoc {A} (l : list A) i x : zget l i = Some x → 0 ≤ i → take (Z.to_nat (i + 1)) l = take (Z.to_nat i) l ++ [x].
Proof.
  intros Hx Hi. replace (Z.to_nat (i + 1)) with (S (Z.to_nat i)) by lia. apply take_S_r.
  by rewrite zget_of_lookup in Hx.
Qed.

(** ** Hexadecimal *)

Definition hex_pair (x : Z) : list Z := [hex_char (Z.shiftr x 4); hex_char (Z.land x 15)].
Definition hex_text (s : list Z) : list Z := s ≫= hex_pair.

Lemma zlen_hex_text s : zlen (hex_text s) = 2 * zlen s.
Proof.
  induction s as [|x s IH]; [done|]. unfold hex_text in *. rewrite bind_cons, zlen_app, IH, zlen_cons.
  change (zlen (hex_pair x)) with 2. lia.
Qed.

Lemma hex_text_snoc s x : hex_text (s ++ [x]) = hex_text s ++ hex_pair x.
Proof. unfold hex_text. by rewrite bind_app, bind_singleton. Qed.

Lemma bin2hex_ok s buff :
  2 * zlen s + 1 ≤ zlen buff → 2 * zlen s ≤ INT_MAX →
  bin2hex s (zlen s) buff = Done (zwrite buff 0 (hex_text s ++ [0])).
Proof.
  intros Hb Hmax. unfold bin2hex. pose proof (zlen_nonneg s). apply returns_eq, returns_bind.
  eapply returns_mono; [apply for_up_inv with (P := λ i '(b, n), n = 2 * i ∧
    ∃ junk, zlen junk ≤ 1 ∧ b = zwrite buff 0 (hex_text (take (Z.to_nat i) s) ++ junk))|].
  - done.
  - split; [done|]. exists []. split; [by vm_compute|]. symmetry; apply zwrite_nil.
  - intros i [b n] Hi [-> (junk & Hj & ->)]. destruct (zget_is_Some s i Hi) as [x Hx].
    rewrite (load_ok s i x) by done. cbn [mbind res_bind].
    assert (zlen (hex_text (take (Z.to_nat i) s)) = 2 * i) as Hl by (rewrite zlen_hex_text, zlen_take by lia; lia).
    set (out := hex_text (take (Z.to_nat i) s)) in *. pose proof (zlen_nonneg junk).
    rewrite store_all_ok; [|lia|rewrite zlen_zwrite; rewrite ?zlen_app; zlen_simpl; lia].
    rewrite <-Hl, zwrite_over by (zlen_simpl; lia). cbn [mbind res_bind]. rewrite cint_ok by (unfold INT_MIN; lia).
    cbn [mbind res_bind returns mret res_ret]. split; [lia|]. exists [0]. split; [by vm_compute|].
    by rewrite (take_snoc s i x), hex_text_snoc, <-app_assoc by (done || lia).
  - intros [b n] [-> (junk & Hj & ->)]. pose proof (zlen_nonneg junk). pose proof (zlen_hex_text s) as Hl.
    rewrite <-Hl. replace (Z.to_nat (zlen s)) with (length s) by (unfold zlen; lia). rewrite firstn_all.
    rewrite store_one by (rewrite ?zlen_zwrite; rewrite ?zlen_app; lia). by rewrite zwrite_over by (zlen_simpl; lia).
Qed.

Lemma zwrite_next (b out xs : list Z) :
  zlen out + zlen xs ≤ zlen b → zwrite (zwrite b 0 out) (zlen out) xs = zwrite b 0 (out ++ xs).
Proof. intros. pose proof (zwrite_over b out [] xs) as Ho. rewrite app_nil_r in Ho. apply Ho; [apply zlen_nonneg|done]. Qed.

Lemma hex_pair_value x : is_byte x → (strtol (hex_pair x) 16).1 = x.
Proof.
  intros Hx. apply Z.eqb_eq. revert x Hx. apply byte_forall. by vm_compute.
Qed.

Lemma hex_text_get s i x :
  zget s i = Some x →
  zget (hex_text s) (2 * i) = Some (hex_char (Z.shiftr x 4)) ∧ zget (hex_text s) (2 * i + 1) = Some (hex_char (Z.land x 15)).
Proof.
  intros Hx. pose proof (zget_Some_range _ _ _ Hx) as Hi. rewrite zget_of_lookup in Hx by lia.
  apply list_elem_of_split_length in Hx as (l1 & l2 & -> & Hl).
  assert (2 * i = zlen (hex_text l1)) as -> by (rewrite zlen_hex_text; unfold zlen; lia).
  unfold hex_text at 1 3. rewrite bind_app, bind_cons. fold (hex_text l1). unfold hex_pair. cbn [app]. split.
  - apply zget_app_mid.
  - rewrite cons_middle, app_assoc. replace (zlen (hex_text l1) + 1) with (zlen (hex_text l1 ++ [hex_char (x ≫ 4)])) by (by rewrite zlen_app).
    apply zget_app_mid.
Qed.

Lemma hex2bin_ok s b :
  Forall is_byte s → zlen s + 1 ≤ zlen b → hex2bin (hex_text s) b = Done (zwrite b 0 (s ++ [0]), zlen s).
Proof.
  intros Hs Hb. unfold hex2bin. rewrite zlen_hex_text. pose proof (zlen_nonneg s).
  destruct (Z.eqb_spec (2 * zlen s) 0) as [E|E].
  { destruct s as [|x s]; [|rewrite zlen_cons in E; pose proof (zlen_nonneg s); lia].
    rewrite zlen_nil in Hb. by rewrite store_one by lia. }
  rewrite (Z.mul_comm 2), Z.quot_mul by lia. apply returns_eq, returns_bind.
  eapply returns_mono; [apply for_up_inv with (P := λ i b', b' = zwrite b 0 (take (Z.to_nat i) s))|].
  - done.
  - symmetry. apply zwrite_nil.
  - intros i b' Hi ->. destruct (zget_is_Some s i Hi) as [x Hx]. destruct (hex_text_get s i x Hx) as [H1 H2].
    rewrite (char_at_ok _ _ _ H1). cbn [mbind res_bind]. rewrite (char_at_ok _ _ _ H2). cbn [mbind res_bind].
    fold (hex_pair x). rewrite hex_pair_value by (rewrite Forall_lookup in Hs; rewrite zget_of_lookup in Hx by lia; by eapply Hs).
    pose proof (zlen_take s i ltac:(lia)) as Hl.
    rewrite store_one by (rewrite zlen_zwrite by lia; lia). cbn [returns]. rewrite <-Hl at 2.
    rewrite zwrite_next by (change (zlen [u8 x]) with 1; lia). rewrite (take_snoc s i x) by (done || lia).
    rewrite Forall_lookup in Hs. rewrite zget_of_lookup in Hx by lia. apply Hs in Hx. unfold is_byte in Hx.
    unfold u8. by rewrite Z.mod_small by lia.
  - intros b' ->. replace (Z.to_nat (zlen s)) with (length s) by (unfold zlen; lia). rewrite firstn_all.
    rewrite store_one by (rewrite zlen_zwrite by lia; lia). by rewrite zwrite_next by (change (zlen [0]) with 1; lia).
Qed.

Lemma hex_text_cstr s : Forall is_byte s → cstr (hex_text s).
Proof.
  unfold hex_text. induction 1 as [|x s Hx _ IH]; [constructor|]. rewrite bind_cons. apply cstr_app. split; [|done].
  apply (bool_decide_eq_true (cstr (hex_pair x))). revert x Hx. apply byte_forall. by vm_compute.
Qed.

(** The hexadecimal text [bin2hex] writes is read back by [hex2bin]: any bytes,
    zeros included, through any buffers that are large enough. *)
Theorem hex_roundtrip s text bin :
  Forall is_byte s → 2 * zlen s + 1 ≤ zlen text → 2 * zlen s ≤ INT_MAX → zlen s + 1 ≤ zlen bin →
  returns (b ← bin2hex s (zlen s) text; t ← cstring b; hex2bin t bin) (λ '(out, n),
    n = zlen s ∧ take (length s) out = s ∧ zget out n = Some 0).
Proof.
  intros Hs Ht Hmax Hb. rewrite bin2hex_ok by done. cbn [mbind res_bind]. rewrite zwrite_zero_app, <-app_assoc. cbn [app].
  rewrite cstring_ok by by apply hex_text_cstr. cbn [mbind res_bind]. rewrite hex2bin_ok by done. cbn [returns].
  rewrite zwrite_zero_app, <-app_assoc. split_and!; [done|apply take_app_length|apply zget_app_mid].
Qed.

(** ** URL encoding *)

Definition url_chars (c : Z) : list Z :=
  if url_plain c then [c] else if c =? 32 then [43] else [37; HEX_CHARS (Z.shiftr c 4); HEX_CHARS (Z.land c 15)].
Definition url_text (s : list Z) : list Z := s ≫= url_chars.

Lemma url_text_snoc s x : url_text (s ++ [x]) = url_text s ++ url_chars x.
Proof. unfold url_text. by rewrite bind_app, bind_singleton. Qed.

Lemma zlen_url_chars c : 1 ≤ zlen (url_chars c) ≤ 3.
Proof. unfold url_chars. repeat case_if; rewrite ?zlen_cons, ?zlen_nil; lia. Qed.

Lemma zlen_url_text_take s i : zlen (url_text (take i s)) ≤ zlen (url_text s).
Proof.
  rewrite <-(take_drop i s) at 2. unfold url_text. rewrite bind_app, zlen_app. pose proof (zlen_nonneg (drop i s ≫= url_chars)). lia.
Qed.

Lemma urlencode_ok s dest :
  zlen (url_text s) + 1 ≤ zlen dest →
  urlencode s (zlen s) dest = Done (zwrite dest 0 (url_text s ++ [0]), zlen (url_text s)).
Proof.
  intros Hd. unfold urlencode. pose proof (zlen_nonneg s). apply returns_eq, returns_bind.
  eapply returns_mono; [apply for_up_inv with (P := λ i '(b, p), b = zwrite dest 0 (url_text (take (Z.to_nat i) s)) ∧
    p = zlen (url_text (take (Z.to_nat i) s)))|].
  - done.
  - split; [symmetry; apply zwrite_nil|done].
  - intros i [b p] Hi [-> ->]. destruct (zget_is_Some s i Hi) as [x Hx]. rewrite (load_ok s i x) by done. cbn [mbind res_bind].
    pose proof (zlen_url_text_take s (Z.to_nat (i + 1))) as Hl. rewrite (take_snoc s i x), url_text_snoc, zlen_app in Hl |- * by (done || lia).
    set (out := url_text (take (Z.to_nat i) s)) in *. pose proof (zlen_nonneg out). unfold url_chars in *.
    destruct (url_plain x); [|destruct (x =? 32)].
    all: rewrite ?store_one, ?store_all_ok by (rewrite ?zlen_zwrite; rewrite ?zlen_cons, ?zlen_nil in *; lia); cbn [mbind res_bind returns mret res_ret].
    all: rewrite zwrite_next by (rewrite ?zlen_cons, ?zlen_nil in *; lia); by rewrite ?zlen_app.
  - intros [b p] [-> ->]. replace (Z.to_nat (zlen s)) with (length s) by (unfold zlen; lia). rewrite firstn_all.
    pose proof (zlen_nonneg (url_text s)).
    rewrite store_one by (rewrite ?zlen_zwrite; lia). by rewrite zwrite_next by (change (zlen [0]) with 1; lia).
Qed.

(** What a text decodes to. *)
Fixpoint url_decoded (s : list Z) : list Z :=
  match s with
  | [] => []
  | c :: t =>
      match t with
      | h :: l :: u =>
          if (c =? 37) && (IS_HEX_CHAR h && IS_HEX_CHAR l)
          then u8 (Z.lor (Z.shiftl (HEX_VALUE h) 4) (HEX_VALUE l)) :: url_decoded u
          else (if c =? 43 then 32 else c) :: url_decoded t
      | _ => (if c =? 43 then 32 else c) :: url_decoded t
      end
  end.

Lemma url_decoded_step c h l u :
  url_decoded (c :: h :: l :: u) =
    if (c =? 37) && (IS_HEX_CHAR h && IS_HEX_CHAR l)
    then u8 (Z.lor (Z.shiftl (HEX_VALUE h) 4) (HEX_VALUE l)) :: url_decoded u
    else (if c =? 43 then 32 else c) :: url_decoded (h :: l :: u).
Proof. done. Qed.

Lemma urldecode_loop_ok fuel pre s r d out :
  zlen out + zlen s ≤ zlen d → (length s < fuel)%nat →
  urldecode_loop fuel (pre ++ s ++ r) (zlen (pre ++ s)) (zlen pre) (zwrite d 0 out) (zlen out) =
    Done (zwrite d 0 (out ++ url_decoded s), zlen (out ++ url_decoded s)).
Proof.
  revert pre s out. induction fuel as [|fuel IH]; intros pre s out Hd Hf; [lia|]. cbn [urldecode_loop].
  destruct s as [|c t].
  { cbn [url_decoded]. rewrite !app_nil_r. by rewrite Z.ltb_irrefl. }
  rewrite zlen_cons in Hd. pose proof (zlen_nonneg t). rewrite zlen_app, zlen_cons.
  rewrite (proj2 (Z.ltb_lt _ _)) by lia. change ((c :: t) ++ r) with (c :: t ++ r). rewrite load_app_mid. cbn [mbind res_bind].
  assert (∀ y, zlen out < zlen d → urldecode_loop fuel (pre ++ c :: t ++ r) (zlen pre + (zlen t + 1)) (zlen pre + 1)
    (zwrite d 0 (out ++ [y])) (zlen out + 1) =
    Done (zwrite d 0 (out ++ y :: url_decoded t), zlen (out ++ y :: url_decoded t))) as Hone.
  { intros y _. pose proof (IH (pre ++ [c]) t (out ++ [y])) as H1. rewrite !zlen_app, <-!app_assoc in H1.
    change (zlen [c]) with 1 in H1. change (zlen [y]) with 1 in H1. cbn [app] in H1.
    replace (zlen pre + 1 + zlen t) with (zlen pre + (zlen t + 1)) in H1 by lia.
    rewrite H1 by (cbn in Hf; lia). do 2 f_equal. rewrite zlen_app, zlen_cons. lia. }
  assert ((if c =? 43 then dest ← store (zwrite d 0 out) (zlen out) 32;
             urldecode_loop fuel (pre ++ c :: t ++ r) (zlen pre + (zlen t + 1)) (zlen pre + 1) dest (zlen out + 1)
           else dest ← store (zwrite d 0 out) (zlen out) c;
             urldecode_loop fuel (pre ++ c :: t ++ r) (zlen pre + (zlen t + 1)) (zlen pre + 1) dest (zlen out + 1)) =
    Done (zwrite d 0 (out ++ (if c =? 43 then 32 else c) :: url_decoded t),
          zlen (out ++ (if c =? 43 then 32 else c) :: url_decoded t))) as Hplain.
  { destruct (c =? 43); rewrite store_next by lia; cbn [mbind res_bind]; apply Hone; lia. }
  destruct t as [|h [|l u]].
  - rewrite (proj2 (Z.ltb_ge _ _)) by (rewrite zlen_nil; lia). rewrite andb_false_r. exact Hplain.
  - rewrite (proj2 (Z.ltb_ge _ _)) by (rewrite zlen_cons, zlen_nil; lia). rewrite andb_false_r. exact Hplain.
  - rewrite !zlen_cons in *. pose proof (zlen_nonneg u). rewrite (proj2 (Z.ltb_lt _ _)) by lia. rewrite andb_true_r.
    rewrite url_decoded_step.
    destruct (Z.eqb_spec c 37) as [->|Hc]; [|exact Hplain].
    assert (load (pre ++ 37 :: (h :: l :: u) ++ r) (zlen pre + 1) = Done h) as Hh.
    { change (pre ++ 37 :: (h :: l :: u) ++ r) with (pre ++ [37] ++ h :: l :: u ++ r). rewrite app_assoc.
      replace (zlen pre + 1) with (zlen (pre ++ [37])) by (by rewrite zlen_app).
      apply load_app_mid. }
    assert (load (pre ++ 37 :: (h :: l :: u) ++ r) (zlen pre + 2) = Done l) as Hl.
    { change (pre ++ 37 :: (h :: l :: u) ++ r) with (pre ++ [37; h] ++ l :: u ++ r). rewrite app_assoc.
      replace (zlen pre + 2) with (zlen (pre ++ [37; h])) by (by rewrite zlen_app). apply load_app_mid. }
    rewrite Hh, Hl. cbn [mbind res_bind andb].
    destruct (IS_HEX_CHAR h && IS_HEX_CHAR l).
    + rewrite store_next by lia. cbn [mbind res_bind]. set (y := u8 _). change ((h :: l :: u) ++ r) with (h :: l :: u ++ r).
      pose proof (IH (pre ++ [37; h; l]) u (out ++ [y])) as H1. rewrite !zlen_app, <-!app_assoc in H1.
      change (zlen [37; h; l]) with 3 in H1. change (zlen [y]) with 1 in H1. cbn [app] in H1.
      replace (zlen pre + 3 + zlen u) with (zlen pre + (zlen u + 1 + 1 + 1)) in H1 by lia.
      rewrite H1 by (cbn in Hf; lia). do 2 f_equal. rewrite zlen_app, zlen_cons. lia.
    + rewrite store_next by lia. cbn [mbind res_bind]. apply Hone. lia.
Qed.

Lemma zlen_url_decoded s : zlen (url_decoded s) ≤ zlen s.
Proof.
  enough (∀ n s, (length s ≤ n)%nat → zlen (url_decoded s) ≤ zlen s) as H by by apply (H (length s)).
  clear s. induction n as [|n IH]; intros s Hn; [by destruct s; [|cbn in Hn; lia]|].
  destruct s as [|c [|h [|l u]]]; [done|cbn [url_decoded]; rewrite !zlen_cons; lia..|].
  pose proof (IH (h :: l :: u) ltac:(cbn in Hn |- *; lia)) as H1. pose proof (IH u ltac:(cbn in Hn; lia)) as H2.
  rewrite url_decoded_step.
  case_if; rewrite !zlen_cons in *; lia.
Qed.

Lemma urldecode_ok s r dest :
  zlen s + 1 ≤ zlen dest →
  urldecode (s ++ r) (zlen s) dest = Done (zwrite dest 0 (url_decoded s ++ [0]), zlen (url_decoded s)).
Proof.
  intros Hd. unfold urldecode, urldecode_ex. pose proof (zlen_nonneg s). pose proof (zlen_url_decoded s). pose proof (zlen_nonneg (url_decoded s)).
  pose proof (urldecode_loop_ok (S (Z.to_nat (zlen s))) [] s r dest []) as Hl. cbn [app] in Hl. rewrite zwrite_nil, zlen_nil in Hl.
  rewrite Hl by (unfold zlen in *; lia). cbn [mbind res_bind]. by rewrite store_next by lia.
Qed.

Lemma url_escape_value c : is_byte c →
  IS_HEX_CHAR (HEX_CHARS (Z.shiftr c 4)) && IS_HEX_CHAR (HEX_CHARS (Z.land c 15)) &&
    (u8 (Z.lor (Z.shiftl (HEX_VALUE (HEX_CHARS (Z.shiftr c 4))) 4) (HEX_VALUE (HEX_CHARS (Z.land c 15)))) =? c) = true.
Proof. revert c. apply byte_forall. by vm_compute. Qed.

Lemma url_char_back c s : is_byte c → url_decoded (url_chars c ++ s) = c :: url_decoded s.
Proof.
  intros Hc. unfold url_chars. destruct (url_plain c) eqn:Hp.
  - assert (negb (c =? 37) && negb (c =? 43) = true) as [H1 H2]%andb_true_iff.
    { unfold url_plain in Hp. lia_bool. }
    cbn [app url_decoded]. rewrite (proj1 (negb_true_iff _) H1), (proj1 (negb_true_iff _) H2). cbn [andb].
    by destruct s as [|? [|? ?]].
  - destruct (Z.eqb_spec c 32) as [->|Hne]; [by destruct s as [|? [|? ?]]|]. cbn [app url_decoded andb Z.eqb Pos.eqb].
    destruct (proj1 (andb_true_iff _ _) (url_escape_value c Hc)) as [-> E].
    apply Z.eqb_eq in E. by rewrite E.
Qed.

Lemma url_text_back s : Forall is_byte s → url_decoded (url_text s) = s.
Proof.
  induction 1 as [|c s Hc _ IH]; [done|]. unfold url_text in *. by rewrite bind_cons, url_char_back, IH.
Qed.

(** C36. Decoding a text in URL encoding gives back the bytes that were encoded. *)
Theorem url_roundtrip s text out :
  Forall is_byte s → zlen (url_text s) + 1 ≤ zlen text → zlen (url_text s) + 1 ≤ zlen out →
  returns ('(b, n) ← urlencode s (zlen s) text; urldecode b n out) (λ '(b, n),
    n = zlen s ∧ take (length s) b = s ∧ zget b n = Some 0).
Proof.
  intros Hs Ht Ho. rewrite urlencode_ok by done. cbn [mbind res_bind]. rewrite zwrite_zero_app, <-app_assoc.
  rewrite urldecode_ok, url_text_back by done. cbn [returns].
  rewrite zwrite_zero_app, <-app_assoc. split_and!; [done|apply take_app_length|apply zget_app_mid].
Qed.

(** ** Thousands separators *)

(** A comma stands behind each digit that a positive multiple of three digits follows. *)
Fixpoint thousands (ds : list Z) : list Z :=
  match ds with
  | [] => []
  | d :: ds => d :: if (0 <? zlen ds) && (zlen ds mod 3 =? 0) then 44 :: thousands ds else thousands ds
  end.

(** What has been moved to its place: with the comma in front, if one is due. *)
Definition placed (ds : list Z) : list Z :=
  if (0 <? zlen ds) && (zlen ds mod 3 =? 0) then 44 :: thousands ds else thousands ds.

(** The digits [d1] are still in their place, [gap] is free, [d2] is done. *)
Lemma separator_loop_ok fuel sign d1 gap d2 r addings :
  addings = (zlen d1 + zlen d2 - 1) / 3 → 0 < zlen d1 + zlen d2 → zlen gap = addings - zlen d2 / 3 →
  (length d1 < fuel)%nat →
  (d1 = [] → gap = [] ∧ zlen d2 mod 3 ≠ 0) →
  separator_loop fuel (sign ++ d1 ++ gap ++ placed d2 ++ r) (zlen sign) addings (zlen sign + zlen d1 - 1)
    (zlen sign + zlen d1 - 1 + zlen gap) (zlen d2) (zlen d2 / 3) = Done (sign ++ thousands (d1 ++ d2) ++ r).
Proof.
  revert d1 gap d2. induction fuel as [|fuel IH]; intros d1 gap d2 Ha Hpos Hg Hf Hend; [lia|].
  cbn [separator_loop]. pose proof (zlen_nonneg d2). pose proof (zlen_nonneg sign).
  destruct (decide (d1 = [])) as [->|Hne].
  { destruct (Hend eq_refl) as [-> Hm]. rewrite zlen_nil. rewrite (proj2 (Z.leb_gt _ _)) by lia.
    unfold placed. rewrite (proj2 (Z.eqb_neq _ _) Hm), andb_false_r. done. }
  destruct (exists_last Hne) as (d & x & ->). clear Hne Hend. rewrite zlen_app in *. change (zlen [x]) with 1 in *.
  pose proof (zlen_nonneg d). pose proof (zlen_nonneg gap). rewrite (proj2 (Z.leb_le _ _)) by lia. rewrite <-!app_assoc. cbn [app].
  rewrite app_assoc, (load_mid _ _ _ _) by (rewrite zlen_app; lia). cbn [mbind res_bind].
  (* the last digit is copied to the end of the gap *)
  assert (∃ gap', zlen gap' = zlen gap ∧
    store ((sign ++ d) ++ x :: gap ++ placed d2 ++ r) (zlen sign + (zlen d + 1) - 1 + zlen gap) x =
    Done (sign ++ d ++ gap' ++ x :: placed d2 ++ r)) as (gap' & Hg' & ->).
  { destruct (decide (gap = [])) as [->|Hgn].
    - exists []. split; [done|]. rewrite (store_mid _ _ _ _ x) by (rewrite zlen_app, zlen_nil; lia). by rewrite <-app_assoc.
    - destruct (exists_last Hgn) as (g & y & ->). exists (x :: g). split; [by rewrite zlen_cons, zlen_app|].
      replace ((sign ++ d) ++ x :: (g ++ [y]) ++ placed d2 ++ r) with (((sign ++ d) ++ x :: g) ++ y :: placed d2 ++ r)
        by (rewrite <-!app_assoc; cbn [app]; by rewrite <-?app_assoc).
      rewrite (store_mid _ _ _ _ x); [by rewrite <-!app_assoc|]. rewrite !zlen_app, !zlen_cons, zlen_nil. lia. }
  cbn [mbind res_bind]. assert (x :: placed d2 = thousands (x :: d2)) as Ex by done.
  assert (zlen (x :: d2) = zlen d2 + 1) as El by apply zlen_cons.
  rewrite Z.rem_mod_nonneg by lia. destruct (Z.eqb_spec ((zlen d2 + 1) mod 3) 0) as [Hm|Hm].
  - destruct (Z.eqb_spec (zlen d2 / 3) addings) as [Hd|Hd].
    + assert (gap' = []) as -> by (apply length_zero_iff_nil; unfold zlen in *; lia).
      assert (d = []) as -> by (apply length_zero_iff_nil; unfold zlen in *; lia). cbn [app]. done.
    + destruct (decide (gap' = [])) as [->|Hgn]; [rewrite zlen_nil in Hg'; lia|].
      destruct (exists_last Hgn) as (g & y & ->). rewrite zlen_app in Hg'. change (zlen [y]) with 1 in Hg'.
      rewrite <-app_assoc. cbn [app]. rewrite !app_assoc.
      rewrite (store_mid _ _ _ _ 44) by (rewrite !zlen_app; lia). cbn [mbind res_bind]. rewrite <-!app_assoc.
      pose proof (IH d g (x :: d2)) as HI. rewrite El in HI.
      assert (placed (x :: d2) = 44 :: thousands (x :: d2)) as Ep.
      { unfold placed. rewrite El, (proj2 (Z.ltb_lt _ _)), (proj2 (Z.eqb_eq _ _) Hm) by lia. done. }
      rewrite Ep in HI. cbn [app] in HI. rewrite <-Ex in HI. cbn [app] in HI.
      replace (zlen d2 / 3 + 1) with ((zlen d2 + 1) / 3) by lia.
      replace (zlen sign + (zlen d + 1) - 1 - 1) with (zlen sign + zlen d - 1) by lia.
      replace (zlen sign + (zlen d + 1) - 1 + zlen gap - 1 - 1) with (zlen sign + zlen d - 1 + zlen g) by lia.
      change (d ++ [x] ++ d2) with (d ++ x :: d2).
      apply HI; [lia..|rewrite length_app in Hf; cbn in Hf; lia|]. intros ->. rewrite zlen_nil in *. lia.
  - pose proof (IH d gap' (x :: d2)) as HI. rewrite El in HI.
    assert (placed (x :: d2) = thousands (x :: d2)) as Ep.
    { unfold placed. by rewrite El, (proj2 (Z.eqb_neq _ _) Hm), andb_false_r. }
    rewrite Ep, <-Ex in HI. cbn [app] in HI.
    replace (zlen d2 / 3) with ((zlen d2 + 1) / 3) by lia.
    replace (zlen sign + (zlen d + 1) - 1 - 1) with (zlen sign + zlen d - 1) by lia.
    replace (zlen sign + (zlen d + 1) - 1 + zlen gap - 1) with (zlen sign + zlen d - 1 + zlen gap') by lia.
    change (d ++ [x] ++ d2) with (d ++ x :: d2).
    apply HI; [lia..|rewrite length_app in Hf; cbn in Hf; lia|]. intros ->. rewrite zlen_nil in *. split; [|done].
    apply length_zero_iff_nil. unfold zlen in *. lia.
Qed.

Lemma thousands_short ds : zlen ds ≤ 3 → thousands ds = ds.
Proof.
  induction ds as [|d ds IH]; [done|]. rewrite zlen_cons. intros Hl. pose proof (zlen_nonneg ds). cbn [thousands].
  rewrite IH by lia. destruct (Z.ltb_spec 0 (zlen ds)); [|done]. by rewrite (proj2 (Z.eqb_neq _ _)) by lia.
Qed.

Lemma zlen_thousands ds : 0 < zlen ds → zlen (thousands ds) = zlen ds + (zlen ds - 1) / 3.
Proof.
  induction ds as [|d ds IH]; [discriminate|]. intros _. cbn [thousands]. rewrite !zlen_cons.
  pose proof (zlen_nonneg ds). destruct (Z.ltb_spec 0 (zlen ds)).
  - destruct (Z.eqb_spec (zlen ds mod 3) 0); cbn [andb]; rewrite ?zlen_cons, IH by done; lia.
  - replace ds with (@nil Z) by (symmetry; apply length_zero_iff_nil; unfold zlen in *; lia). done.
Qed.

Lemma decimal_digits_range n : Forall (λ c, 48 ≤ c ≤ 57) (decimal_digits n).
Proof.
  rewrite decimal_number, Forall_fmap. eapply Forall_impl; [apply uint_digits_range|]. cbn. lia.
Qed.

Lemma decimal_digits_pos n : 0 < zlen (decimal_digits n).
Proof.
  pose proof (decimal_nonempty n) as Hne. rewrite decimal_number. rewrite zlen_fmap.
  destruct (uint_digits _); [done|]. rewrite zlen_cons. pose proof (zlen_nonneg l). lia.
Qed.

Lemma thousands_Forall (P : Z → Prop) ds : P 44 → Forall P ds → Forall P (thousands ds).
Proof. intros Hc. induction 1 as [|d ds Hd _ IH]; [constructor|]. cbn [thousands]. constructor; [done|]. case_if; [by constructor|done]. Qed.

(** Without its commas the text is that of the number. *)
Lemma thousands_filter ds : Forall (λ c, c ≠ 44) ds → filter (λ c, c ≠ 44) (thousands ds) = ds.
Proof.
  induction 1 as [|d ds Hd _ IH]; [done|]. cbn [thousands]. rewrite filter_cons_True by done. f_equal.
  case_if; [|done]. by rewrite filter_cons_False by (intros ?; lia).
Qed.

Lemma int2str_ok n buff :
  zlen (decimal_sign n ++ thousands (decimal_digits n)) < zlen buff →
  ∃ r, int2str n buff true = Done (decimal_sign n ++ thousands (decimal_digits n) ++ 0 :: r).
Proof.
  intros Hb. pose proof (decimal_digits_pos n) as Hd. pose proof (decimal_digits_range n) as Hr. rewrite zlen_app, zlen_thousands in Hb by done.
  unfold int2str. rewrite decimal_split. set (sign := decimal_sign n) in *. set (ds := decimal_digits n) in *.
  assert (sign = [] ∨ sign = [45]) as Hsign by (subst sign; unfold decimal_sign; case_if; tauto).
  clearbody sign ds. assert (0 ≤ (zlen ds - 1) / 3) by (apply Z.div_pos; lia). pose proof (zlen_nonneg sign).
  rewrite store_all_start by (rewrite !zlen_app; change (zlen [0]) with 1; lia). cbn [mbind res_bind].
  rewrite zwrite_zero_app, <-!app_assoc. cbn [app]. set (rest := drop _ buff).
  assert (zlen rest = zlen buff - zlen sign - zlen ds - 1) as Hrest.
  { subst rest. rewrite zlen_drop; rewrite !zlen_app; change (zlen [0]) with 1; lia. }
  unfold add_thousands_separator. rewrite zlen_app. destruct (Z.leb_spec (zlen sign + zlen ds) 3) as [H3|H3].
  { rewrite (thousands_short ds) by lia. by eexists. }
  (* the first character tells whether there is a sign *)
  assert (∃ c, load (sign ++ ds ++ 0 :: rest) 0 = Done c ∧ (if c =? 45 then (1, 2) else (0, 1)) = (zlen sign, zlen sign + 1))
    as (c & -> & Ec).
  { destruct Hsign as [->| ->]; [|by exists 45]. destruct ds as [|d ds]; [discriminate Hd|].
    exists d. split; [done|]. apply Forall_cons in Hr as [? _]. by rewrite (proj2 (Z.eqb_neq _ _)) by lia. }
  cbn [mbind res_bind]. rewrite Ec. replace (zlen sign + zlen ds - (zlen sign + 1)) with (zlen ds - 1) by lia.
  rewrite Z.quot_div_nonneg by lia. set (a := (zlen ds - 1) / 3) in *.
  (* the new end of the text *)
  assert (∃ gap r, zlen gap = a ∧ store (sign ++ ds ++ 0 :: rest) (zlen sign + zlen ds + a) 0 = Done (sign ++ ds ++ gap ++ 0 :: r))
    as (gap & r & Hg & ->).
  { assert (0 ≤ a < zlen (0 :: rest)) as Ha by (rewrite zlen_cons; lia).
    destruct (zget_is_Some (0 :: rest) a Ha) as [y Hy]. rewrite zget_of_lookup in Hy by lia.
    apply list_elem_of_split_length in Hy as (gap & r & E & Hl). rewrite E. exists gap, r.
    assert (zlen gap = a) as Hg by (unfold zlen; lia). split; [done|]. rewrite 2app_assoc.
    rewrite (store_mid _ _ _ _ 0) by (rewrite !zlen_app; lia). by rewrite <-!app_assoc. }
  cbn [mbind res_bind].
  pose proof (separator_loop_ok (S (Z.to_nat (zlen sign + zlen ds))) sign ds gap [] (0 :: r) a) as HL.
  rewrite zlen_nil, app_nil_r in HL. cbn [app] in HL. change (placed []) with (@nil Z) in HL. cbn [app] in HL.
  change (0 / 3) with 0 in HL. exists r. rewrite <-HL.
  - f_equal; lia.
  - subst a. f_equal. lia.
  - lia.
  - lia.
  - unfold zlen. lia.
  - intros ->. discriminate Hd.
Qed.

(** The text [int2str] and [long2str] write has a comma behind each digit that a
    positive multiple of three digits follows, and reading it back without the commas
    gives the number, for all values and any buffer large enough. *)
Theorem int2str_roundtrip n buff :
  LONG_MIN ≤ n ≤ LONG_MAX → zlen (decimal_sign n ++ thousands (decimal_digits n)) < zlen buff →
  returns (b ← int2str n buff true; cstring b) (λ t,
    t = decimal_sign n ++ thousands (decimal_digits n) ∧ strtol (filter (λ c, c ≠ 44) t) 10 = (n, [])).
Proof.
  intros Hn Hb. destruct (int2str_ok n buff Hb) as [r ->]. cbn [mbind res_bind]. rewrite app_assoc.
  pose proof (decimal_digits_range n) as Hr.
  assert (cstr (decimal_sign n)) as Hs by (unfold decimal_sign; case_if; repeat constructor).
  assert (Forall (λ c, c ≠ 44) (decimal_sign n)) as Hs' by (unfold decimal_sign; case_if; repeat constructor; lia).
  rewrite cstring_ok.
  - split; [done|]. rewrite filter_app, thousands_filter by (eapply Forall_impl; [exact Hr|]; cbn; lia).
    assert (∀ l : list Z, Forall (λ c, c ≠ 44) l → filter (λ c, c ≠ 44) l = l) as Hf.
    { induction 1 as [|c l Hc _ IH]; [done|]. by rewrite filter_cons_True, IH. }
    rewrite Hf by done. rewrite <-decimal_split, <-(app_nil_r (decimal n)). by apply strtol_decimal.
  - apply cstr_app. split; [done|]. apply thousands_Forall; [lia|]. eapply Forall_impl; [exact Hr|]. cbn. lia.
Qed.

(** * Sizes with units *)

(** The factor a suffix stands for: any suffix but the known letters counts as 1. *)
Definition unit_factor (default_unit_bytes : Z) (suffix : list Z) : Z :=
  match suffix with
  | [] => default_unit_bytes
  | c :: _ =>
      if (c =? 71) || (c =? 103) then 2 ^ 30
      else if (c =? 77) || (c =? 109) then 2 ^ 20
      else if (c =? 75) || (c =? 107) then 2 ^ 10 else 1
  end.

(** C38. A size is its number times the unit behind it, or the default unit when nothing
    follows; a negative number is refused, and a product that an int64_t cannot hold is
    an overflow, which the code does not look for. *)
Theorem parse_bytes_correct n suffix default_unit_bytes :
  LONG_MIN ≤ n ≤ LONG_MAX → take_digits 10 suffix = [] → 0 ≤ default_unit_bytes →
  parse_bytes (decimal n ++ suffix) default_unit_bytes =
    if decide (n < 0) then Done (EINVAL, n)
    else if decide (n * unit_factor default_unit_bytes suffix ≤ LONG_MAX)
    then Done (0, n * unit_factor default_unit_bytes suffix) else Undef.
Proof.
  intros Hn Hs Hd. unfold parse_bytes. rewrite strtol_decimal by done. case_decide as Hneg.
  { by rewrite (proj2 (Z.ltb_lt n 0)). }
  rewrite (proj2 (Z.ltb_ge n 0)) by lia.
  assert (∀ f, 0 ≤ f → (b ← clong (n * f); mret (0, b)) = if decide (n * f ≤ LONG_MAX) then Done (0, n * f) else Undef) as Hf.
  { intros f Hf. assert (0 ≤ n * f) by lia. unfold clong, LONG_MIN in *. case_decide; case_if; lia_bool; done. }
  destruct suffix as [|c suffix]; cbn [unit_factor]; [by apply Hf|].
  change (1024 * 1024 * 1024) with (2 ^ 30). change (1024 * 1024) with (2 ^ 20). change 1024 with (2 ^ 10).
  destruct ((c =? 71) || (c =? 103)); [by apply Hf|]. destruct ((c =? 77) || (c =? 109)); [by apply Hf|].
  destruct ((c =? 75) || (c =? 107)); [by apply Hf|]. rewrite Z.mul_1_r. by rewrite decide_True by lia.
Qed.

(** A unit that is not known is taken for bytes, without an error. *)
Example unknown_unit_accepted : parse_bytes [49; 48; 84; 66] 1024 = Done (0, 10).
Proof. reflexivity. Qed.

Lemma log2_bit n k : 2 ^ k ≤ n < 2 ^ (k + 1) → 0 ≤ k → Z.testbit n k = true.
Proof. intros Hn Hk. assert (k = Z.log2 n) as -> by (symmetry; by apply Z.log2_unique). apply Z.bit_log2. lia. Qed.

(** [is_power2] tells the powers of two, and overflows on the least number. *)
Theorem is_power2_correct n :
  LONG_MIN ≤ n ≤ LONG_MAX →
  if decide (n = LONG_MIN) then is_power2 n = Undef
  else ∃ b, is_power2 n = Done b ∧ (b = true ↔ ∃ k, 0 ≤ k ∧ n = 2 ^ k).
Proof.
  intros Hn. unfold is_power2, clong. case_decide as Hmin; [by subst|].
  destruct (Z.eqb_spec n 0) as [->|H0].
  { exists false. split; [done|]. split; [done|]. intros (k & Hk & E). pose proof (Z.pow_pos_nonneg 2 k). lia. }
  case_if; [|unfold LONG_MIN, LONG_MAX in *; lia_bool]. eexists. split; [done|]. rewrite Z.eqb_eq. split.
  - intros E. assert (0 < n) as Hp.
    { destruct (Z_lt_dec n 0) as [Hneg|]; [|lia]. pose proof (proj2 (Z.land_neg n (n - 1)) ltac:(lia)). lia. }
    pose proof (Z.log2_nonneg n). destruct (Z.log2_spec n Hp) as [Hlo Hhi]. exists (Z.log2 n). split; [done|].
    destruct (decide (n = 2 ^ Z.log2 n)) as [|Hne]; [done|]. exfalso.
    assert (Z.testbit (Z.land n (n - 1)) (Z.log2 n) = true) as Hb.
    { rewrite Z.land_spec, !log2_bit; [done|lia..]. }
    rewrite E, Z.bits_0 in Hb. done.
  - intros (k & Hk & ->). rewrite land_ones_mod by done. apply Z.mod_same. lia.
Qed.

(** * Witnesses *)

Lemma short_roundtrip_witness : (b ← short2buff (-2) [7; 7; 7]; buff2short b) = Done (-2).
Proof. apply (short_roundtrip (-2) [7; 7; 7]); [lia|done]. Defined.

Lemma int_roundtrip_witness : (b ← int2buff 305419896 [0; 0; 0; 0]; buff2int b) = Done 305419896.
Proof. apply (int_roundtrip 305419896 [0; 0; 0; 0]); [int_lia|done]. Defined.

Lemma long_roundtrip_witness : (b ← long2buff (-1) (replicate 8 0); buff2long b) = Undef.
Proof. apply (long_roundtrip (-1) (replicate 8 0)); [unfold LONG_MIN, LONG_MAX; lia|done]. Defined.

Lemma int2str_roundtrip_witness :
  returns (b ← int2str (-1234567) (replicate 20 0) true; cstring b) (λ t,
    t = [45; 49; 44; 50; 51; 52; 44; 53; 54; 55] ∧ strtol (filter (λ c, c ≠ 44) t) 10 = (-1234567, [])).
Proof. apply (int2str_roundtrip (-1234567) (replicate 20 0)); [unfold LONG_MIN, LONG_MAX; lia|vm_compute; done]. Defined.

Lemma parse_bytes_correct_witness : parse_bytes (decimal 12 ++ [77; 66]) 1 = Done (0, 12 * 2 ^ 20).
Proof. apply (parse_bytes_correct 12 [77; 66] 1); [unfold LONG_MIN, LONG_MAX; lia|done|lia]. Defined.

Lemma is_power2_correct_witness : ∃ b, is_power2 64 = Done b ∧ (b = true ↔ ∃ k, 0 ≤ k ∧ 64 = 2 ^ k).
Proof. apply (is_power2_correct 64). unfold LONG_MIN, LONG_MAX. lia. Defined.

Lemma hex_roundtrip_witness :
  returns (b ← bin2hex [0; 255; 16] 3 (replicate 8 1); t ← cstring b; hex2bin t (replicate 5 1)) (λ '(out, n),
    n = 3 ∧ take 3 out = [0; 255; 16] ∧ zget out n = Some 0).
Proof.
  apply (hex_roundtrip [0; 255; 16] (replicate 8 1) (replicate 5 1)); [repeat (constructor; [unfold is_byte; lia|]); constructor|done..].
Defined.

Lemma url_roundtrip_witness :
  returns ('(b, n) ← urlencode [97; 32; 38] 3 (replicate 8 1); urldecode b n (replicate 8 1)) (λ '(b, n),
    n = 3 ∧ take 3 b = [97; 32; 38] ∧ zget b n = Some 0).
Proof. apply (url_roundtrip [97; 32; 38] (replicate 8 1) (replicate 8 1)); [repeat (constructor; [unfold is_byte; lia|]); constructor|done|done]. Defined.
