(* ===== verification/SharedText.v ===== *)
(** Texts in libs/fastcommon/src/shared_func.c: changing, trimming, splitting and
    replacing in buffers, and tests on names and addresses.

    A buffer that is changed in place is the list of its cells and a pointer into it an
    index; a string that is only read is the list of its characters (CString.v). *)
From S2P Require Import Prelude CString.

(** * Code *)

(** [p += 2] for a byte above 127 that another one follows. *)
Fixpoint getCharLen_loop (fuel : nat) (s : list Z) (p count : Z) : res Z :=
  match fuel with
  | O => OutOfFuel
  | S fuel =>
      c ← char_at s p;
      if c =? 0 then mret count else
      p ← (if 127 <? c then d ← char_at s (p + 1); mret (if d =? 0 then p + 1 else p + 2) else mret (p + 1));
      count ← cint (count + 1);
      getCharLen_loop fuel s p count
  end.

Definition getCharLen (s : list Z) : res Z := getCharLen_loop (S (length s)) s 0 0.

(** The loop of the next three functions: each character up to the terminator. *)
Fixpoint change_loop (f : Z → Z) (fuel : nat) (s : list Z) (p : Z) : res (list Z) :=
  match fuel with
  | O => OutOfFuel
  | S fuel => c ← load s p; if c =? 0 then mret s else s ← store s p (f c); change_loop f fuel s (p + 1)
  end.

Definition replaceCRLF2Space (s : list Z) : res (list Z) :=
  change_loop (λ c, if (c =? 13) || (c =? 10) then 32 else c) (length s) s 0.
Definition toLowercase (src : list Z) : res (list Z) :=
  change_loop (λ c, if (65 <=? c) && (c <=? 90) then c + 32 else c) (length src) src 0.
Definition toUppercase (src : list Z) : res (list Z) :=
  change_loop (λ c, if (97 <=? c) && (c <=? 122) then c - 32 else c) (length src) src 0.

Definition trimmed (c : Z) : bool := (c =? 32) || (c =? 10) || (c =? 13) || (c =? 9).

(** [for (p=...; p<pEnd; p++)] up to a character that is not trimmed; and downwards. *)
Fixpoint skip_up (n : nat) (b : list Z) (p : Z) : res Z :=
  match n with
  | O => mret p
  | S n => c ← load b p; if trimmed c then skip_up n b (p + 1) else mret p
  end.

Fixpoint skip_down (n : nat) (b : list Z) (p : Z) : res Z :=
  match n with
  | O => mret p
  | S n => c ← load b p; if trimmed c then skip_down n b (p - 1) else mret p
  end.

Definition memmove_within (b : list Z) (d s n : Z) : res (list Z) :=
  if (0 <=? d) && (0 <=? s) && (0 <=? n) && (d + n <=? zlen b) && (s + n <=? zlen b)
  then mret (zwrite b d (zslice b s n)) else Undef.

Definition trim_left (pStr : list Z) : res (list Z) :=
  pEnd ← strlen pStr 0;
  p ← skip_up (Z.to_nat pEnd) pStr 0;
  if p =? 0 then mret pStr else memmove_within pStr 0 p (pEnd - p + 1).

Definition trim_right (pStr : list Z) : res (list Z) :=
  len ← strlen pStr 0;
  if len =? 0 then mret pStr else
  p ← skip_down (Z.to_nat len) pStr (len - 1);
  if negb (p =? len - 1) then store pStr (p + 1) 0 else mret pStr.

Definition trim (pStr : list Z) : res (list Z) :=
  pStr ← trim_right pStr; trim_left pStr.

(** A [string_t]: where it begins in its buffer, and its length. *)
Record string_t := mkString { str : Z; len : Z }.

Definition string_ltrim (b : list Z) (s : string_t) : res string_t :=
  p ← skip_up (Z.to_nat (len s)) b (str s);
  mret (if negb (p =? str s) then mkString p (str s + len s - p) else s).

Definition string_rtrim (b : list Z) (s : string_t) : res string_t :=
  if len s =? 0 then mret s else
  let last := str s + len s - 1 in
  p ← skip_down (Z.to_nat (len s)) b last;
  mret (if negb (p =? last) then mkString (str s) (p + 1 - str s) else s).

(** The loop that counts a separator: [p] is where the last one was found. *)
Fixpoint count_loop (fuel : nat) (b : list Z) (seperator : Z) (p : option Z) (count : Z) : res Z :=
  match p with
  | None => mret count
  | Some p =>
      match fuel with
      | O => OutOfFuel
      | S fuel =>
          count ← cint (count + 1);
          p ← strchr b (p + 1) seperator;
          count_loop fuel b seperator p count
      end
  end.

Definition getOccurCount (b : list Z) (seperator : Z) : res Z :=
  p ← strchr b 0 seperator; count_loop (length b) b seperator p 0.

(** The columns found so far are the pointers in front. *)
Fixpoint split_loop (n : nat) (b : list Z) (seperator p : Z) (cols : list Z) : res (list Z * list Z) :=
  match n with
  | O => mret (b, cols)
  | S O => _ ← strchr b p seperator; mret (b, cols ++ [p])
  | S n =>
      q ← strchr b p seperator;
      match q with
      | None => Undef
      | Some q => b ← store b q 0; split_loop n b seperator (q + 1) (cols ++ [p])
      end
  end.

(** The buffer, the columns ([None] for NULL) and [*nColCount]. *)
Definition split (malloc_ok : bool) (src : option (list Z)) (seperator nMaxCols : Z)
    : res (option (list Z) * option (list Z) * Z) :=
  match src with
  | None => mret (None, None, 0)
  | Some b =>
      p ← strchr b 0 seperator;
      nColCount ← count_loop (length b) b seperator p 1;
      let nColCount := if (0 <? nMaxCols) && (nMaxCols <? nColCount) then nMaxCols else nColCount in
      if negb malloc_ok then mret (Some b, None, nColCount) else
      '(b, cols) ← split_loop (Z.to_nat nColCount) b seperator 0 [];
      mret (Some b, Some cols, nColCount)
  end.

Fixpoint splitEx_loop (fuel : nat) (b : list Z) (seperator nMaxCols p count : Z) (cols : list Z) : res (list Z * list Z * Z) :=
  match fuel with
  | O => OutOfFuel
  | S fuel =>
      let cols := cols ++ [p] in
      let count := count + 1 in
      if nMaxCols <=? count then mret (b, cols, count) else
      q ← strchr b p seperator;
      match q with
      | None => mret (b, cols, count)
      | Some q => b ← store b q 0; splitEx_loop fuel b seperator nMaxCols (q + 1) count cols
      end
  end.

Definition splitEx (b : list Z) (seperator nMaxCols : Z) : res (list Z * list Z * Z) :=
  if nMaxCols <=? 0 then mret (b, [], 0) else splitEx_loop (S (length b)) b seperator nMaxCols 0 0 [].

(** Whether every character of the string at [p] is in [delim]. *)
Definition fc_match_delim (b : list Z) (p : Z) (delim : list Z) : res bool :=
  if 0 <=? p then
    s ← cstring (drop (Z.to_nat p) b);
    mret (forallb (λ c, existsb (Z.eqb c) delim) s)
  else Undef.

(** [strsep]: the buffer, the token, and the new string pointer. *)
Definition strsep (b : list Z) (stringp : option Z) (delim : list Z) : res (list Z * option Z * option Z) :=
  match stringp with
  | None => mret (b, None, None)
  | Some p =>
      if 0 <=? p then
        s ← cstring (drop (Z.to_nat p) b);
        match list_find (λ c, c ∈ delim) s with
        | None => mret (b, Some p, None)
        | Some (i, _) => b ← store b (p + Z.of_nat i) 0; mret (b, Some p, Some (p + Z.of_nat i + 1))
        end
      else Undef
  end.

Fixpoint fc_split_loop (fuel : nat) (b : list Z) (stringp : option Z) (delim : list Z) (nMaxCols : Z) (cols : list Z) (count : Z)
    : res (list Z * list Z * Z) :=
  match fuel with
  | O => OutOfFuel
  | S fuel =>
      '(b, token, stringp) ← strsep b stringp delim;
      match token with
      | None => mret (b, cols, count)
      | Some token =>
          if nMaxCols <=? count then mret (b, cols, count) else
          m ← fc_match_delim b token delim;
          if (m : bool) then fc_split_loop fuel b stringp delim nMaxCols cols count
          else fc_split_loop fuel b stringp delim nMaxCols (cols ++ [token]) (count + 1)
      end
  end.

(** The buffer, the columns and their number. *)
Definition fc_split_string (src : list Z) (delim : list Z) (nMaxCols : Z) : res (list Z * list Z * Z) :=
  fc_split_loop (length src + 2) src (Some 0) delim nMaxCols [] 0.

(** Past the delimiters at the beginning. *)
Fixpoint strtok_skip (fuel : nat) (b delim : list Z) (p : Z) : res Z :=
  match fuel with
  | O => OutOfFuel
  | S fuel =>
      c ← load b p;
      if c =? 0 then mret p else if negb (existsb (Z.eqb c) delim) then mret p else strtok_skip fuel b delim (p + 1)
  end.

Fixpoint strtok_loop (fuel : nat) (b delim : list Z) (nMaxCols p count : Z) (cols : list Z) (bWordEnd : bool)
    : res (list Z * list Z * Z) :=
  match fuel with
  | O => OutOfFuel
  | S fuel =>
      c ← load b p;
      if c =? 0 then mret (b, cols, count) else
      if existsb (Z.eqb c) delim then
        b ← store b p 0; strtok_loop fuel b delim nMaxCols (p + 1) count cols true
      else if bWordEnd then
        if nMaxCols <=? count + 1 then mret (b, cols ++ [p], count + 1)
        else strtok_loop fuel b delim nMaxCols (p + 1) (count + 1) (cols ++ [p]) false
      else strtok_loop fuel b delim nMaxCols (p + 1) count cols bWordEnd
  end.

(** The buffer, the columns and the result; [pCols] tells whether it is not NULL. *)
Definition my_strtok (src : option (list Z)) (delim : list Z) (pCols : bool) (nMaxCols : Z)
    : res (option (list Z) * list Z * Z) :=
  match src with
  | None => mret (None, [], -1)
  | Some b =>
      if negb pCols then mret (Some b, [], -1) else
      if nMaxCols <=? 0 then mret (Some b, [], 0) else
      p ← strtok_skip (length b) b delim 0;
      c ← load b p;
      if c =? 0 then mret (Some b, [], 0) else
      if nMaxCols <=? 1 then mret (Some b, [p], 1) else
      '(b, cols, count) ← strtok_loop (length b) b delim nMaxCols p 1 [p] false;
      mret (Some b, cols, count)
  end.

(** [memcpy(dest + p, s + q, n)] between two buffers. *)
Definition copy_to (dest : list Z) (p : Z) (s : list Z) (q n : Z) : res (list Z) :=
  if (0 <=? p) && (0 <=? q) && (0 <=? n) && (p + n <=? zlen dest) && (q + n <=? zlen s)
  then mret (zwrite dest p (zslice s q n)) else Undef.

(** The while loop of [str_replace]: at an occurrence that still fits. The result is
    the buffer with what is left to do, or with the returned length. *)
Fixpoint str_replace_loop (fuel : nat) (s replaced new_str dest : list Z) (pStart pDest remain_len : Z)
    : res (list Z * (Z * Z * Z + Z)) :=
  match fuel with
  | O => OutOfFuel
  | S fuel =>
      p ← strstr s pStart replaced;
      match p with
      | None => mret (dest, inl (pStart, pDest, remain_len))
      | Some p =>
          let len := p - pStart in
          if (0 <? len) && negb (len <? remain_len) then
            dest ← copy_to dest pDest s pStart remain_len;
            dest ← store dest (pDest + remain_len) 0;
            mret (dest, inr (pDest + remain_len))
          else
            dest ← (if 0 <? len then copy_to dest pDest s pStart len else mret dest);
            let pDest := if 0 <? len then pDest + len else pDest in
            let remain_len := if 0 <? len then remain_len - len else remain_len in
            if zlen new_str <? remain_len then
              dest ← copy_to dest pDest new_str 0 (zlen new_str);
              str_replace_loop fuel s replaced new_str dest (p + zlen replaced) (pDest + zlen new_str) (remain_len - zlen new_str)
            else
              dest ← copy_to dest pDest new_str 0 remain_len;
              dest ← store dest (pDest + remain_len) 0;
              mret (dest, inr (pDest + remain_len))
      end
  end.

(** The buffer and the length of the text in it. *)
Definition str_replace (s : list Z) (src_len : Z) (replaced new_str dest : list Z) (dest_size : Z) : res (list Z * Z) :=
  if dest_size <=? 0 then mret (dest, 0) else
  let max_dest_len := dest_size - 1 in
  if zlen replaced =? 0 then
    let len := if src_len <? max_dest_len then src_len else max_dest_len in
    dest ← copy_to dest 0 s 0 len;
    dest ← store dest len 0;
    mret (dest, len)
  else
    '(dest, r) ← str_replace_loop (S (length s)) s replaced new_str dest 0 0 max_dest_len;
    match r with
    | inr n => mret (dest, n)
    | inl (pStart, pDest, remain_len) =>
        let len := src_len - pStart in
        if 0 <? len then
          let len := if remain_len <? len then remain_len else len in
          dest ← copy_to dest pDest s pStart len;
          dest ← store dest (pDest + len) 0;
          mret (dest, pDest + len)
        else dest ← store dest pDest 0; mret (dest, pDest)
    end.

Definition chopPath (filePath : list Z) : res (list Z) :=
  c ← load filePath 0;
  if c =? 0 then mret filePath else
  n ← strlen filePath 0;
  c ← load filePath (n - 1);
  if c =? 47 then store filePath (n - 1) 0 else mret filePath.

Definition starts_with (str needle : list Z) : res bool :=
  if zlen str <? zlen needle then mret false else memeq str 0 needle (zlen needle).

Definition ends_with (str needle : list Z) : res bool :=
  let start_offset := zlen str - zlen needle in
  if start_offset <? 0 then mret false else memeq str start_offset needle (zlen needle).

(** [memcmp] of fewer characters than the name's length may read behind its end. *)
Definition is_filename_secure (filename : list Z) (len : Z) : res bool :=
  if len <? 3 then mret true else
  up ← memeq filename 0 [46; 46; 47] 3;
  if (up : bool) then mret false else
  p ← strstr filename 0 [47; 46; 46; 47];
  mret (match p with None => true | Some _ => false end).

Definition is_private_ip (ip : option (list Z)) : res bool :=
  match ip with
  | None => mret false
  | Some ip =>
      if zlen ip <? 8 then mret false else
      a ← memeq ip 0 [49; 48; 46] 3;
      b ← (if (a : bool) then mret true else memeq ip 0 [49; 57; 50; 46; 49; 54; 56; 46] 8);
      if (b : bool) then mret true else
      c ← memeq ip 0 [49; 55; 50; 46] 4;
      if (c : bool) then v ← atoi (drop 4 ip); mret ((16 <=? v) && (v <? 32)) else mret false
  end.

(** A copy in a fresh block, [None] when there is no memory. *)
Definition fc_strdup (malloc_ok : bool) (junk : Z) (str : list Z) (len : Z) : res (option (list Z)) :=
  if negb malloc_ok then mret None else
  let output := replicate (Z.to_nat (len + 1)) junk in
  output ← (if 0 <? len then copy_to output 0 str 0 len else mret output);
  output ← store output len 0;
  mret (Some output).

(** The inner loop compares from [ps] on; [ps] runs while a match can begin. *)
Fixpoint memmem_match (str needle : list Z) (ps : Z) : res bool :=
  match needle with
  | [] => mret true
  | c :: needle => x ← load str ps; if x =? c then memmem_match str needle (ps + 1) else mret false
  end.

Fixpoint memmem_loop (n : nat) (str needle : list Z) (ps : Z) : res (option Z) :=
  match n with
  | O => mret None
  | S n => m ← memmem_match str needle ps; if (m : bool) then mret (Some ps) else memmem_loop n str needle (ps + 1)
  end.

Definition fc_memmem (str needle : list Z) : res (option Z) :=
  let loop := zlen str - zlen needle in
  if loop <? 0 then mret None else memmem_loop (S (Z.to_nat loop)) str needle 0.

(** [snprintf(dest, size, "%s", text)] *)
Definition snprintf_text (dest : list Z) (size : Z) (text : list Z) : res (list Z) :=
  if size <=? 0 then mret dest else
  let n := Z.min (zlen text) (size - 1) in
  dest ← copy_to dest 0 text 0 n; store dest n 0.

Definition resolve_path (from filename full_filename : list Z) (size : Z) : res (list Z) :=
  c ← char_at filename 0;
  if c =? 47 then snprintf_text full_filename size filename else
  match find_char 47 (rev from) with
  | Some i => snprintf_text full_filename size (take (length from - 1 - Z.to_nat i) from ++ 47 :: filename)
  | None => snprintf_text full_filename size filename
  end.

Definition blank (c : Z) : bool := (c =? 32) || (c =? 9).

(** Down to the beginning of the text, and up to its end. *)
Fixpoint leading_loop (n : nat) (content : list Z) (p : Z) : res bool :=
  match n with
  | O => mret true
  | S n => c ← load content p; if negb (blank c) then mret (c =? 10) else leading_loop n content (p - 1)
  end.

Definition isLeadingSpacesLine (content : list Z) (current : Z) : res bool :=
  leading_loop (Z.to_nat current) content (current - 1).

Fixpoint trailing_loop (n : nat) (content : list Z) (p : Z) : res bool :=
  match n with
  | O => mret true
  | S n => c ← load content p; if negb (blank c) then mret (c =? 10) else trailing_loop n content (p + 1)
  end.

Definition isTrailingSpacesLine (content : list Z) (tail end_ : Z) : res bool :=
  trailing_loop (Z.to_nat (end_ - tail)) content tail.

(** * Changing and trimming *)

Lemma change_loop_ok f fuel l c r :
  cstr c → (length c < fuel)%nat →
  change_loop f fuel (l ++ c ++ 0 :: r) (zlen l) = Done (l ++ (f <$> c) ++ 0 :: r).
Proof.
  revert l c. induction fuel as [|fuel IH]; intros l c Hc Hf; [lia|]. cbn [change_loop].
  destruct Hc as [|x c Hx Hc].
  - cbn [app fmap list_fmap]. rewrite load_app_mid. done.
  - cbn [app fmap list_fmap]. rewrite load_app_mid. cbn [mbind res_bind]. rewrite (proj2 (Z.eqb_neq x 0)) by lia.
    rewrite store_app_mid. cbn [mbind res_bind]. specialize (IH (l ++ [f x]) c Hc). rewrite zlen_app in IH.
    change (zlen [f x]) with 1 in IH. rewrite <-!app_assoc in IH. cbn [app length] in *. apply IH. lia.
Qed.

Lemma change_all f c r :
  cstr c → change_loop f (length (c ++ 0 :: r)) (c ++ 0 :: r) 0 = Done ((f <$> c) ++ 0 :: r).
Proof. intros Hc. apply (change_loop_ok f _ [] c r Hc). rewrite length_app. cbn. lia. Qed.

Definition lower (c : Z) : Z := if (65 <=? c) && (c <=? 90) then c + 32 else c.
Definition upper (c : Z) : Z := if (97 <=? c) && (c <=? 122) then c - 32 else c.

Lemma upper_cstr c : cstr c → cstr (upper <$> c).
Proof. intros Hc. apply Forall_fmap. eapply Forall_impl; [exact Hc|]. intros x Hx. cbn in Hx |- *. unfold upper. case_if; lia_bool. Qed.

(** [toUppercase] and then [toLowercase] change exactly the ASCII letters of a text
    to small ones, and nothing behind its end. *)
Theorem case_correct c r :
  cstr c →
  (b ← toUppercase (c ++ 0 :: r); toLowercase b) = Done ((lower <$> c) ++ 0 :: r) ∧
  toUppercase (c ++ 0 :: r) = Done ((upper <$> c) ++ 0 :: r) ∧
  toLowercase (c ++ 0 :: r) = Done ((lower <$> c) ++ 0 :: r).
Proof.
  intros Hc. unfold toUppercase, toLowercase. rewrite !change_all by done. cbn [mbind res_bind].
  split; [|done]. rewrite change_all by (by apply upper_cstr). do 2 f_equal. rewrite <-list_fmap_compose.
  apply list_fmap_ext. intros _ x _. unfold compose, upper, lower. repeat case_if; lia_bool.
Qed.

Fixpoint drop_while (p : Z → bool) (s : list Z) : list Z :=
  match s with [] => [] | c :: t => if p c then drop_while p t else s end.

(** A text without the characters that are trimmed at its two ends. *)
Definition ltrimmed (c : list Z) : list Z := drop_while trimmed c.
Definition rtrimmed (c : list Z) : list Z := rev (drop_while trimmed (rev c)).

Lemma skip_up_ok n l c r : cstr c → n = length c →
  skip_up n (l ++ c ++ r) (zlen l) = Done (zlen l + zlen c - zlen (ltrimmed c)).
Proof.
  revert l c. induction n as [|n IH]; intros l c Hc Hn.
  - destruct c; [|done]. cbn. f_equal. change (zlen []) with 0. lia.
  - destruct c as [|x c]; [done|]. apply Forall_cons in Hc as [Hx Hc]. cbn [skip_up app]. rewrite load_app_mid.
    cbn [mbind res_bind ltrimmed drop_while]. unfold ltrimmed. cbn [drop_while]. destruct (trimmed x); [|unfold mret, res_ret; f_equal; lia].
    specialize (IH (l ++ [x]) c Hc). rewrite zlen_app in IH. change (zlen [x]) with 1 in IH.
    rewrite <-app_assoc in IH. cbn [app] in IH. rewrite IH by (cbn in Hn; lia). rewrite zlen_cons. f_equal. unfold ltrimmed. lia.
Qed.

Lemma skip_down_ok n l c r : n = length c →
  skip_down n (l ++ c ++ r) (zlen l + zlen c - 1) = Done (zlen l + zlen (rtrimmed c) - 1).
Proof.
  revert r c. induction n as [|n IH]; intros r c Hn.
  - by destruct c.
  - destruct (exists_last (l := c)) as (d & x & ->); [by intros ->|]. cbn [skip_down].
    rewrite zlen_app. change (zlen [x]) with 1. rewrite <-app_assoc. cbn [app].
    rewrite app_assoc, (load_mid _ _ _ _) by (rewrite zlen_app; lia). cbn [mbind res_bind]. unfold rtrimmed.
    rewrite rev_app_distr. cbn [rev app drop_while]. destruct (trimmed x).
    + rewrite <-app_assoc. replace (zlen l + (zlen d + 1) - 1 - 1) with (zlen l + zlen d - 1) by lia.
      rewrite IH by (rewrite length_app in Hn; cbn in Hn; lia). done.
    + cbn [rev]. rewrite rev_involutive, zlen_app. change (zlen [x]) with 1. done.
Qed.

Lemma drop_while_suffix p c : ∃ d, c = d ++ drop_while p c ∧ Forall p d.
Proof.
  induction c as [|x c [d [E Hd]]]; [by exists []|]. cbn [drop_while]. destruct (p x) eqn:Ep; [|by exists []].
  exists (x :: d). cbn [app]. split; [by f_equal|]. constructor; [by rewrite Ep|done].
Qed.

Lemma ltrimmed_split c : ∃ d, c = d ++ ltrimmed c ∧ Forall trimmed d.
Proof. apply drop_while_suffix. Qed.

Lemma rtrimmed_split c : ∃ d, c = rtrimmed c ++ d ∧ Forall trimmed d.
Proof.
  destruct (drop_while_suffix trimmed (rev c)) as (d & E & Hd). exists (rev d). unfold rtrimmed.
  split; [by rewrite <-rev_app_distr, <-E, rev_involutive|]. by apply Forall_rev.
Qed.

Lemma strlen_start c r : cstr c → strlen (c ++ 0 :: r) 0 = Done (zlen c).
Proof. apply (strlen_mid []). Qed.

Lemma ltrimmed_cstr c : cstr c → cstr (ltrimmed c).
Proof. destruct (ltrimmed_split c) as (d & E & _). rewrite E at 1. by intros [_ ?]%cstr_app. Qed.

Lemma rtrimmed_cstr c : cstr c → cstr (rtrimmed c).
Proof. destruct (rtrimmed_split c) as (d & E & _). rewrite E at 1. by intros [? _]%cstr_app. Qed.

Lemma trim_right_ok c r : cstr c → ∃ r', trim_right (c ++ 0 :: r) = Done (rtrimmed c ++ 0 :: r').
Proof.
  intros Hc. unfold trim_right. rewrite strlen_start by done. cbn [mbind res_bind].
  destruct (Z.eqb_spec (zlen c) 0) as [H0|H0].
  { assert (c = []) as -> by (destruct c; [done|rewrite zlen_cons in H0; pose proof (zlen_nonneg c); lia]). by exists r. }
  pose proof (skip_down_ok (Z.to_nat (zlen c)) [] c (0 :: r)) as HS. cbn [app] in HS.
  change (zlen [] + zlen c - 1) with (zlen c - 1) in HS. rewrite HS by (unfold zlen; lia). cbn [mbind res_bind].
  change (zlen []) with 0. destruct (rtrimmed_split c) as (d & E & _). destruct d as [|x d].
  - rewrite app_nil_r in E. exists r. rewrite <-E. rewrite Z.eqb_refl. done.
  - exists (d ++ 0 :: r). assert (zlen c = zlen (rtrimmed c) + zlen d + 1) as El.
    { rewrite E at 1. rewrite zlen_app, zlen_cons. lia. }
    pose proof (zlen_nonneg d). rewrite (proj2 (Z.eqb_neq _ _)) by lia. cbn [negb].
    replace (c ++ 0 :: r) with (rtrimmed c ++ x :: d ++ 0 :: r) by (rewrite E at 2; by rewrite <-app_assoc).
    apply store_mid. lia.
Qed.

Lemma zslice_mid (l m r : list Z) p n : p = zlen l → n = zlen m → zslice (l ++ m ++ r) p n = m.
Proof.
  intros -> ->. unfold zslice, zlen. rewrite !Nat2Z.id. rewrite drop_app_length. apply take_app_length.
Qed.

Lemma trim_left_ok c r : cstr c → ∃ r', trim_left (c ++ 0 :: r) = Done (ltrimmed c ++ 0 :: r').
Proof.
  intros Hc. unfold trim_left. rewrite strlen_start by done. cbn [mbind res_bind].
  pose proof (skip_up_ok (Z.to_nat (zlen c)) [] c (0 :: r)) as HS. cbn [app] in HS. change (zlen []) with 0 in HS.
  rewrite HS by (done || unfold zlen; lia). clear HS. cbn [mbind res_bind].
  destruct (ltrimmed_split c) as (d & E & _). assert (zlen c = zlen d + zlen (ltrimmed c)) as El by (rewrite E at 1; apply zlen_app).
  pose proof (zlen_nonneg (ltrimmed c)). pose proof (zlen_nonneg d). pose proof (zlen_nonneg r).
  replace (0 + zlen c - zlen (ltrimmed c)) with (zlen d) by lia. destruct (Z.eqb_spec (zlen d) 0) as [Hz|Hz].
  { exists r. destruct d; [|rewrite zlen_cons in Hz; pose proof (zlen_nonneg d); lia]. cbn [app] in E. by rewrite <-E. }
  unfold memmove_within. assert (zlen (c ++ 0 :: r) = zlen c + zlen r + 1) as Eb by (rewrite zlen_app, zlen_cons; lia).
  rewrite Eb. case_if; [|lia_bool]. eexists. unfold mret, res_ret. f_equal.
  replace (c ++ 0 :: r) with (d ++ (ltrimmed c ++ [0]) ++ r) by (rewrite E at 2; by rewrite <-!app_assoc).
  rewrite (zslice_mid d) by (rewrite ?zlen_app; change (zlen [0]) with 1; lia).
  by rewrite zwrite_zero_app, <-app_assoc.
Qed.

(** [trim] leaves in the buffer the text without the spaces, tabs and line ends at
    its two ends. *)
Theorem trim_correct c r :
  cstr c → (b ← trim (c ++ 0 :: r); cstring b) = Done (ltrimmed (rtrimmed c)).
Proof.
  intros Hc. unfold trim. destruct (trim_right_ok c r Hc) as [r1 ->]. cbn [mbind res_bind].
  pose proof (rtrimmed_cstr c Hc) as Hr. destruct (trim_left_ok (rtrimmed c) r1 Hr) as [r2 ->]. cbn [mbind res_bind].
  by apply cstring_ok, ltrimmed_cstr.
Qed.

(** * Splitting *)

Lemma find_char_Some x c i :
  find_char x c = Some i → ∃ a d, c = a ++ x :: d ∧ i = zlen a ∧ x ∉ a.
Proof.
  unfold find_char. intros ([k y] & E & Hj)%fmap_Some_1.
  apply list_find_Some in E as (Hk & -> & Hmin). exists (take k c), (drop (S k) c). split_and!.
  - by rewrite take_drop_middle.
  - rewrite Hj. cbn. unfold zlen. rewrite length_take_le; [done|]. apply lookup_lt_Some in Hk. lia.
  - intros (m & Hm)%list_elem_of_lookup. apply lookup_take_Some in Hm as [Hm Hlt]. by apply (Hmin m x).
Qed.

Lemma find_char_None x c : find_char x c = None → x ∉ c.
Proof.
  unfold find_char. intros E%fmap_None. apply list_find_None in E. intros Hx.
  rewrite Forall_forall in E. by apply (E x).
Qed.

Lemma strchr_ok l c r x :
  cstr c → x ≠ 0 → strchr (l ++ c ++ 0 :: r) (zlen l) x = Done (Z.add (zlen l) <$> find_char x c).
Proof.
  intros Hc Hx. unfold strchr. pose proof (zlen_nonneg l). rewrite (proj2 (Z.leb_le _ _)) by lia.
  replace (Z.to_nat (zlen l)) with (length l) by (unfold zlen; lia). rewrite drop_app_length, cstring_ok by done.
  cbn [mbind res_bind]. by rewrite (proj2 (Z.eqb_neq x 0)).
Qed.

(** The pieces of a text between separators, at most [n] of them; where they begin when
    the first begins at [p]; and the pieces with a character between them. *)
Fixpoint fields (n : nat) (sep : Z) (c : list Z) : list (list Z) :=
  match n with
  | O => []
  | S n =>
      match n, find_char sep c with
      | S _, Some i => take (Z.to_nat i) c :: fields n sep (drop (Z.to_nat (i + 1)) c)
      | _, _ => [c]
      end
  end.

Fixpoint offsets (p : Z) (fs : list (list Z)) : list Z :=
  match fs with [] => [] | f :: fs => p :: offsets (p + zlen f + 1) fs end.

Fixpoint join (sep : Z) (fs : list (list Z)) : list Z :=
  match fs with
  | [] => []
  | f :: fs => f ++ match fs with [] => [] | _ => sep :: join sep fs end
  end.

Definition occurrences (sep : Z) (c : list Z) : Z := zlen (filter (λ x, x = sep) c).

Lemma fields_one sep c : fields 1 sep c = [c].
Proof. done. Qed.

Lemma fields_none n sep c : find_char sep c = None → fields (S n) sep c = [c].
Proof. intros E. cbn [fields]. rewrite E. by destruct n. Qed.

Lemma fields_some n sep a d :
  find_char sep (a ++ sep :: d) = Some (zlen a) → fields (S (S n)) sep (a ++ sep :: d) = a :: fields (S n) sep d.
Proof.
  intros E. change (fields (S (S n)) sep (a ++ sep :: d)) with
    (match find_char sep (a ++ sep :: d) with
     | Some i => take (Z.to_nat i) (a ++ sep :: d) :: fields (S n) sep (drop (Z.to_nat (i + 1)) (a ++ sep :: d))
     | None => [a ++ sep :: d] end).
  rewrite E. replace (Z.to_nat (zlen a)) with (length a) by (unfold zlen; lia).
  replace (Z.to_nat (zlen a + 1)) with (S (length a)) by (unfold zlen; lia).
  rewrite take_app_length. f_equal. f_equal. replace (S (length a)) with (length (a ++ [sep])) by (rewrite length_app; cbn; lia).
  replace (a ++ sep :: d) with ((a ++ [sep]) ++ d) by (by rewrite <-app_assoc). apply drop_app_length.
Qed.

Lemma fields_not_nil n sep c : fields (S n) sep c ≠ [].
Proof. destruct n; [done|]. cbn [fields]. by destruct (find_char sep c). Qed.

Lemma join_cons sep f fs : fs ≠ [] → join sep (f :: fs) = f ++ sep :: join sep fs.
Proof. by destruct fs. Qed.

(** The pieces are those of the text. *)
Lemma join_fields n sep c : join sep (fields (S n) sep c) = c.
Proof.
  revert c. induction n as [|n IH]; intros c; [apply app_nil_r|].
  destruct (find_char sep c) as [i|] eqn:E; [|rewrite fields_none by done; apply app_nil_r].
  destruct (find_char_Some _ _ _ E) as (a & d & -> & -> & _). rewrite fields_some by done.
  by rewrite join_cons, IH by apply fields_not_nil.
Qed.

Lemma occurrences_cons sep x c : occurrences sep (x :: c) = occurrences sep c + if x =? sep then 1 else 0.
Proof.
  unfold occurrences. rewrite filter_cons. case_decide as Hx.
  - rewrite zlen_cons, (proj2 (Z.eqb_eq x sep)) by done. done.
  - rewrite (proj2 (Z.eqb_neq x sep)) by done. lia.
Qed.

Lemma occurrences_app sep a d : occurrences sep (a ++ d) = occurrences sep a + occurrences sep d.
Proof. unfold occurrences. by rewrite filter_app, zlen_app. Qed.

Lemma occurrences_none sep a : sep ∉ a → occurrences sep a = 0.
Proof.
  intros Ha. unfold occurrences. replace (filter _ a) with (@nil Z); [done|]. symmetry.
  induction a as [|x a IH]; [done|]. apply not_elem_of_cons in Ha as [Hx Ha].
  rewrite filter_cons_False by congruence. by apply IH.
Qed.

Lemma occurrences_split sep a d : sep ∉ a → occurrences sep (a ++ sep :: d) = occurrences sep d + 1.
Proof. intros Ha. rewrite occurrences_app, occurrences_none, occurrences_cons, Z.eqb_refl by done. lia. Qed.

(** There are as many pieces as asked for, or one more than there are separators. *)
Lemma zlen_fields n sep c : zlen (fields (S n) sep c) = Z.min (Z.of_nat n) (occurrences sep c) + 1.
Proof.
  revert c. induction n as [|n IH]; intros c.
  - rewrite fields_one. change (zlen [c]) with 1. pose proof (zlen_nonneg (filter (λ x, x = sep) c)). unfold occurrences. lia.
  - destruct (find_char sep c) as [i|] eqn:E.
    + destruct (find_char_Some _ _ _ E) as (a & d & -> & -> & Ha). rewrite fields_some, zlen_cons, IH by done.
      rewrite occurrences_split by done. lia.
    + rewrite fields_none, occurrences_none by (done || by apply find_char_None). done.
Qed.

Lemma fields_min n m sep c : occurrences sep c ≤ Z.of_nat n → occurrences sep c ≤ Z.of_nat m → fields (S n) sep c = fields (S m) sep c.
Proof.
  revert m c. induction n as [|n IH]; intros m c Hn Hm.
  - destruct (find_char sep c) as [i|] eqn:E; [|by rewrite !fields_none].
    destruct (find_char_Some _ _ _ E) as (a & d & -> & -> & Ha). rewrite occurrences_split in Hn by done.
    pose proof (zlen_nonneg (filter (λ x, x = sep) d)). unfold occurrences in Hn. lia.
  - destruct (find_char sep c) as [i|] eqn:E; [|by rewrite !fields_none].
    destruct (find_char_Some _ _ _ E) as (a & d & -> & -> & Ha). rewrite occurrences_split in Hn, Hm by done.
    pose proof (zlen_nonneg (filter (λ x, x = sep) d)) as Hd. fold (occurrences sep d) in Hd. destruct m as [|m]; [lia|].
    rewrite !fields_some by done. f_equal. apply IH; lia.
Qed.

Lemma cstr_split l d x : cstr (l ++ x :: d) → cstr l ∧ 0 < x < 256 ∧ cstr d.
Proof. intros [? [? ?]%Forall_cons]%cstr_app. done. Qed.

Lemma splitEx_loop_ok n fuel sep l c r count cols nMaxCols :
  sep ≠ 0 → cstr c → (length c < fuel)%nat → nMaxCols = count + Z.of_nat (S n) →
  splitEx_loop fuel (l ++ c ++ 0 :: r) sep nMaxCols (zlen l) count cols =
    Done (l ++ join 0 (fields (S n) sep c) ++ 0 :: r, cols ++ offsets (zlen l) (fields (S n) sep c),
          count + zlen (fields (S n) sep c)).
Proof.
  intros Hs. revert fuel l c count cols. induction n as [|n IH]; intros fuel l c count cols Hc Hf Hm;
    (destruct fuel as [|fuel]; [lia|]); cbn [splitEx_loop].
  - rewrite (proj2 (Z.leb_le _ _)) by lia. rewrite fields_one. cbn [join offsets]. by rewrite app_nil_r.
  - rewrite (proj2 (Z.leb_gt _ _)) by lia. rewrite strchr_ok by done. cbn [mbind res_bind].
    destruct (find_char sep c) as [i|] eqn:E; cbn [fmap option_fmap option_map].
    2: { rewrite fields_none by done. cbn [join offsets]. by rewrite app_nil_r. }
    destruct (find_char_Some _ _ _ E) as (a & d & -> & -> & _). apply cstr_split in Hc as (_ & _ & Hd).
    rewrite fields_some, join_cons by (done || apply fields_not_nil). rewrite <-app_assoc. cbn [app].
    rewrite app_assoc, (store_mid _ _ _ _ 0) by (by rewrite zlen_app). cbn [mbind res_bind].
    specialize (IH fuel ((l ++ a) ++ [0]) d (count + 1) (cols ++ [zlen l]) Hd).
    rewrite !zlen_app in IH. change (zlen [0]) with 1 in IH. rewrite <-!app_assoc in IH. cbn [app] in IH.
    rewrite <-app_assoc. change (Z.add (zlen l) (zlen a)) with (zlen l + zlen a).
    rewrite IH by (rewrite ?length_app in Hf; cbn in Hf; lia). cbn [offsets]. rewrite zlen_cons, <-!app_assoc. cbn [app].
    f_equal. f_equal. lia.
Qed.

Lemma splitEx_ok n sep c r :
  sep ≠ 0 → cstr c → splitEx (c ++ 0 :: r) sep (Z.of_nat (S n)) =
    Done (join 0 (fields (S n) sep c) ++ 0 :: r, offsets 0 (fields (S n) sep c), zlen (fields (S n) sep c)).
Proof.
  intros Hs Hc. unfold splitEx. rewrite (proj2 (Z.leb_gt _ _)) by lia.
  pose proof (splitEx_loop_ok n (S (length (c ++ 0 :: r))) sep [] c r 0 [] (Z.of_nat (S n)) Hs Hc) as HS.
  cbn [app] in HS. apply HS; [rewrite length_app; lia|lia].
Qed.

Lemma count_loop_ok fuel sep l c r count :
  sep ≠ 0 → cstr c → (length c < fuel)%nat → INT_MIN ≤ count → count + occurrences sep c ≤ INT_MAX →
  (p ← strchr (l ++ c ++ 0 :: r) (zlen l) sep; count_loop fuel (l ++ c ++ 0 :: r) sep p count) = Done (count + occurrences sep c).
Proof.
  intros Hs. revert l c count. induction fuel as [|fuel IH]; intros l c count Hc Hf Hlo Hhi; [lia|].
  rewrite strchr_ok by done. cbn [mbind res_bind]. destruct (find_char sep c) as [i|] eqn:E; cbn [fmap option_fmap option_map].
  - destruct (find_char_Some _ _ _ E) as (a & d & -> & -> & Ha). apply cstr_split in Hc as (_ & _ & Hd).
    rewrite occurrences_split in * by done. pose proof (zlen_nonneg (filter (λ x, x = sep) d)) as Hocc.
    fold (occurrences sep d) in Hocc. cbn [count_loop]. rewrite cint_ok by lia. cbn [mbind res_bind].
    specialize (IH ((l ++ a) ++ [sep]) d (count + 1) Hd). rewrite !zlen_app in IH. change (zlen [sep]) with 1 in IH.
    rewrite <-!app_assoc in IH. cbn [app] in IH. rewrite <-app_assoc. cbn [app].
    rewrite IH by (rewrite ?length_app in Hf; cbn in Hf; lia). f_equal. lia.
  - rewrite occurrences_none by (by apply find_char_None). cbn [count_loop]. by rewrite Z.add_0_r.
Qed.

Lemma split_columns_ok n sep l c r cols :
  sep ≠ 0 → cstr c → Z.of_nat n ≤ occurrences sep c →
  split_loop (S n) (l ++ c ++ 0 :: r) sep (zlen l) cols =
    Done (l ++ join 0 (fields (S n) sep c) ++ 0 :: r, cols ++ offsets (zlen l) (fields (S n) sep c)).
Proof.
  intros Hs. revert l c cols. induction n as [|n IH]; intros l c cols Hc Ho.
  - cbn [split_loop]. rewrite strchr_ok by done. cbn [mbind res_bind]. rewrite fields_one. cbn [join offsets].
    by rewrite app_nil_r.
  - change (split_loop (S (S n)) (l ++ c ++ 0 :: r) sep (zlen l) cols) with
      (q ← strchr (l ++ c ++ 0 :: r) (zlen l) sep;
       match q with
       | None => Undef
       | Some q => b ← store (l ++ c ++ 0 :: r) q 0; split_loop (S n) b sep (q + 1) (cols ++ [zlen l])
       end).
    rewrite strchr_ok by done. cbn [mbind res_bind]. destruct (find_char sep c) as [i|] eqn:E; cbn [fmap option_fmap option_map].
    2: { rewrite occurrences_none in Ho by (by apply find_char_None). lia. }
    destruct (find_char_Some _ _ _ E) as (a & d & -> & -> & Ha). apply cstr_split in Hc as (_ & _ & Hd).
    rewrite occurrences_split in Ho by done.
    rewrite fields_some, join_cons by (done || apply fields_not_nil). rewrite <-app_assoc. cbn [app].
    rewrite app_assoc, (store_mid _ _ _ _ 0) by (by rewrite zlen_app). cbn [mbind res_bind].
    specialize (IH ((l ++ a) ++ [0]) d (cols ++ [zlen l]) Hd).
    rewrite !zlen_app in IH. change (zlen [0]) with 1 in IH. rewrite <-!app_assoc in IH. cbn [app] in IH.
    rewrite <-app_assoc. rewrite IH by lia. cbn [offsets]. by rewrite <-!app_assoc.
Qed.

(** The number of columns [split] makes. *)
Definition columns (sep nMaxCols : Z) (c : list Z) : nat :=
  let n := occurrences sep c + 1 in Z.to_nat (if (0 <? nMaxCols) && (nMaxCols <? n) then nMaxCols else n).

Lemma occurrences_nonneg sep c : 0 ≤ occurrences sep c.
Proof. apply zlen_nonneg. Qed.

Lemma columns_pos sep nMaxCols c : ∃ n, columns sep nMaxCols c = S n ∧ Z.of_nat n ≤ occurrences sep c.
Proof.
  pose proof (occurrences_nonneg sep c). exists (pred (columns sep nMaxCols c)). unfold columns. case_if; propify; lia.
Qed.

Lemma split_ok sep nMaxCols c r :
  sep ≠ 0 → cstr c → occurrences sep c < INT_MAX →
  split true (Some (c ++ 0 :: r)) sep nMaxCols =
    let fs := fields (columns sep nMaxCols c) sep c in
    Done (Some (join 0 fs ++ 0 :: r), Some (offsets 0 fs), zlen fs).
Proof.
  intros Hs Hc Ho. unfold split. pose proof (occurrences_nonneg sep c).
  assert ((p ← strchr (c ++ 0 :: r) 0 sep; count_loop (length (c ++ 0 :: r)) (c ++ 0 :: r) sep p 1) = Done (1 + occurrences sep c)) as Hcount.
  { apply (count_loop_ok (length (c ++ 0 :: r)) sep [] c r 1 Hs Hc); [rewrite length_app; cbn; lia|int_lia..]. }
  assert (∀ (B : Type) (f : Z → res B), (p ← strchr (c ++ 0 :: r) 0 sep; n ← count_loop (length (c ++ 0 :: r)) (c ++ 0 :: r) sep p 1; f n) = f (1 + occurrences sep c)) as Hbind.
  { intros B f. destruct (strchr (c ++ 0 :: r) 0 sep) as [p| |]; try discriminate. cbn [mbind res_bind] in *. by rewrite Hcount. }
  rewrite Hbind. cbn [negb]. rewrite (Z.add_comm 1). fold (columns sep nMaxCols c).
  destruct (columns_pos sep nMaxCols c) as (n & En & Hn). unfold columns in *. cbv zeta in *. rewrite En.
  pose proof (split_columns_ok n sep [] c r [] Hs Hc Hn) as HS. cbn [app] in HS. change (zlen []) with 0 in HS. rewrite HS.
  cbn [mbind res_bind]. unfold mret, res_ret. rewrite zlen_fields, Z.min_l by done. do 2 f_equal. lia.
Qed.

Definition string_at (b : list Z) (p : Z) (t : list Z) : Prop := 0 ≤ p ∧ cstring (drop (Z.to_nat p) b) = Done t.

Lemma string_at_ok l t r p : p = zlen l → cstr t → string_at (l ++ t ++ 0 :: r) p t.
Proof.
  intros -> Ht. split; [apply zlen_nonneg|]. replace (Z.to_nat (zlen l)) with (length l) by (unfold zlen; lia).
  by rewrite drop_app_length, cstring_ok.
Qed.

Lemma offsets_strings l fs r :
  Forall cstr fs → fs ≠ [] → Forall2 (string_at (l ++ join 0 fs ++ 0 :: r)) (offsets (zlen l) fs) fs.
Proof.
  intros Hfs. revert l. induction Hfs as [|f fs Hf Hfs IH]; intros l Hne; [done|]. cbn [offsets].
  destruct (decide (fs = [])) as [->|Hn].
  - constructor; [|constructor]. cbn [join]. rewrite app_nil_r. by apply string_at_ok.
  - rewrite join_cons by done. rewrite <-app_assoc. cbn [app]. constructor; [by apply string_at_ok|].
    specialize (IH ((l ++ f) ++ [0]) Hn). rewrite !zlen_app in IH. change (zlen [0]) with 1 in IH.
    by rewrite <-!app_assoc in IH.
Qed.

Lemma fields_cstr n sep c : cstr c → Forall cstr (fields n sep c).
Proof.
  revert c. induction n as [|n IH]; intros c Hc; [constructor|]. destruct n as [|n]; [by repeat constructor|].
  destruct (find_char sep c) as [i|] eqn:E; [|rewrite fields_none by done; by repeat constructor].
  destruct (find_char_Some _ _ _ E) as (a & d & -> & -> & Ha). rewrite fields_some by done.
  apply cstr_split in Hc as (? & _ & ?). constructor; [done|]. by apply IH.
Qed.

Lemma fields_separated n sep c : Forall (λ f, sep ∉ f) (removelast (fields n sep c)).
Proof.
  revert c. induction n as [|n IH]; intros c; [constructor|]. destruct n as [|n]; [constructor|].
  destruct (find_char sep c) as [i|] eqn:E; [|rewrite fields_none by done; constructor].
  destruct (find_char_Some _ _ _ E) as (a & d & -> & -> & Ha). rewrite fields_some by done.
  pose proof (fields_not_nil n sep d) as Hne. specialize (IH d). destruct (fields (S n) sep d); [done|].
  cbn [removelast]. by constructor.
Qed.

(** [split] makes as many columns as there are separators and one, or as many as
    are allowed; the strings of the columns, joined with the separator, are the text,
    and none but the last has a separator in it. *)
Theorem split_correct sep nMaxCols c r :
  sep ≠ 0 → cstr c → occurrences sep c < INT_MAX →
  returns (split true (Some (c ++ 0 :: r)) sep nMaxCols) (λ '(b, cols, n),
    n = (if (0 <? nMaxCols) then Z.min nMaxCols (occurrences sep c + 1) else occurrences sep c + 1) ∧
    ∃ b' ps ts, b = Some b' ∧ cols = Some ps ∧ Forall2 (string_at b') ps ts ∧ zlen ts = n ∧
      join sep ts = c ∧ Forall (λ t, sep ∉ t) (removelast ts)).
Proof.
  intros Hs Hc Ho. rewrite split_ok by done. cbv zeta. destruct (columns_pos sep nMaxCols c) as (n & En & Hn).
  assert (zlen (fields (columns sep nMaxCols c) sep c) = Z.of_nat (S n)) as El.
  { rewrite En, zlen_fields, Z.min_l by done. lia. }
  cbn [returns]. split.
  - rewrite El, <-En. unfold columns. pose proof (occurrences_nonneg sep c). case_if; case_if; propify; lia.
  - eexists _, _, (fields (columns sep nMaxCols c) sep c). do 2 (split; [done|]). split_and!.
    + apply (offsets_strings []); [by apply fields_cstr|]. rewrite En. apply fields_not_nil.
    + done.
    + by rewrite En, join_fields.
    + apply fields_separated.
Qed.

(** [splitEx], which looks for each separator once and stops when the columns are
    full, does to the buffer what [split] does after counting the separators. *)
Theorem splitEx_split sep nMaxCols c r :
  sep ≠ 0 → cstr c → occurrences sep c < INT_MAX → 0 < nMaxCols →
  split true (Some (c ++ 0 :: r)) sep nMaxCols =
    ('(b, cols, n) ← splitEx (c ++ 0 :: r) sep nMaxCols; mret (Some b, Some cols, n)).
Proof.
  intros Hs Hc Ho Hn. rewrite split_ok by done. cbv zeta. pose proof (splitEx_ok (Z.to_nat nMaxCols - 1) sep c r Hs Hc) as HS.
  replace (Z.of_nat (S (Z.to_nat nMaxCols - 1))) with nMaxCols in HS by lia. rewrite HS. cbn [mbind res_bind].
  assert (fields (columns sep nMaxCols c) sep c = fields (S (Z.to_nat nMaxCols - 1)) sep c) as ->; [|done].
  destruct (columns_pos sep nMaxCols c) as (n & En & Hle). rewrite En.
  unfold columns in En. cbv zeta in En. rewrite (proj2 (Z.ltb_lt 0 nMaxCols)) in En by done. cbn [andb] in En.
  destruct (Z.ltb_spec nMaxCols (occurrences sep c + 1)); [by replace (S (Z.to_nat nMaxCols - 1)) with (S n) by lia|].
  apply fields_min; lia.
Qed.

(** ** Words *)

Section words.
Context (delim : list Z).

(** The pieces of a text between any of the delimiters, and those that are not empty. *)
Fixpoint pieces (c : list Z) : list (list Z) :=
  match c with
  | [] => [[]]
  | x :: c => if decide (x ∈ delim) then [] :: pieces c
              else match pieces c with [] => [[x]] | p :: ps => (x :: p) :: ps end
  end.

Definition words (c : list Z) : list (list Z) := filter (λ p, p ≠ []) (pieces c).

Lemma pieces_split a x d : Forall (λ y, y ∉ delim) a → x ∈ delim → pieces (a ++ x :: d) = a :: pieces d.
Proof using.
  intros Ha Hx. induction Ha as [|y a Hy _ IH]; cbn [app pieces]; [by rewrite decide_True|].
  by rewrite decide_False, IH.
Qed.

Lemma pieces_last a : Forall (λ y, y ∉ delim) a → pieces a = [a].
Proof using. induction 1 as [|y a Hy _ IH]; [done|]. cbn [pieces]. by rewrite decide_False, IH. Qed.

Lemma words_split a x d :
  Forall (λ y, y ∉ delim) a → x ∈ delim → words (a ++ x :: d) = (if decide (a = []) then [] else [a]) ++ words d.
Proof using.
  intros Ha Hx. unfold words. rewrite pieces_split, filter_cons by done. by repeat case_decide; subst.
Qed.

Lemma words_last a : Forall (λ y, y ∉ delim) a → words a = if decide (a = []) then [] else [a].
Proof using. intros Ha. unfold words. rewrite pieces_last, filter_cons by done. by repeat case_decide; subst. Qed.

Lemma existsb_delim x : existsb (Z.eqb x) delim = bool_decide (x ∈ delim).
Proof using.
  apply eq_true_iff_eq. rewrite existsb_exists, bool_decide_eq_true. split.
  - intros (y & Hy & ->%Z.eqb_eq). by apply list_elem_of_In.
  - intros Hx. exists x. split; [by apply list_elem_of_In|apply Z.eqb_refl].
Qed.

(** Where the first delimiter is. *)
Lemma first_delim c :
  (list_find (λ x, x ∈ delim) c = None ∧ Forall (λ y, y ∉ delim) c) ∨
  ∃ a x d, c = a ++ x :: d ∧ list_find (λ x, x ∈ delim) c = Some (length a, x) ∧ x ∈ delim ∧ Forall (λ y, y ∉ delim) a.
Proof using.
  destruct (list_find (λ x, x ∈ delim) c) as [[i x]|] eqn:E; [right|left; split; [done|by apply list_find_None in E]].
  apply list_find_Some in E as (Hi & Hx & Hmin). exists (take i c), x, (drop (S i) c).
  pose proof (lookup_lt_Some _ _ _ Hi). rewrite length_take_le by lia. split_and!; [by rewrite take_drop_middle|done..|].
  apply Forall_forall. intros y (m & Hm)%list_elem_of_lookup. apply lookup_take_Some in Hm as [Hm Hlt].
  by eapply Hmin.
Qed.

Lemma match_delim_ok l a r :
  cstr a → Forall (λ y, y ∉ delim) a → fc_match_delim (l ++ a ++ 0 :: r) (zlen l) delim = Done (bool_decide (a = [])).
Proof using.
  intros Ha Hd. unfold fc_match_delim. pose proof (zlen_nonneg l). rewrite (proj2 (Z.leb_le _ _)) by lia.
  replace (Z.to_nat (zlen l)) with (length l) by (unfold zlen; lia). rewrite drop_app_length, cstring_ok by done.
  cbn [mbind res_bind]. unfold mret, res_ret. f_equal. destruct Hd as [|y a Hy _]; [done|]. cbn [forallb].
  by rewrite existsb_delim, bool_decide_eq_false_2 by done.
Qed.

Lemma string_at_app b d p t : string_at b p t → string_at (b ++ d) p t.
Proof using.
  intros [Hp Hc]. split; [done|]. destruct (decide (Z.to_nat p ≤ length b)%nat) as [Hle|Hgt].
  - rewrite drop_app_le by done. revert Hc. generalize (drop (Z.to_nat p) b). intros c. revert t.
    induction c as [|x c IH]; intros t; [done|]. cbn [cstring app]. case_if; [done|].
    destruct (cstring c) as [s| |]; try discriminate. cbn [mbind res_bind]. intros [= <-]. by rewrite (IH s).
  - rewrite drop_ge in Hc by lia. discriminate Hc.
Qed.

Lemma strings_app b d ps ts : Forall2 (string_at b) ps ts → Forall2 (string_at (b ++ d)) ps ts.
Proof using. intros Hs. eapply Forall2_impl; [exact Hs|]. intros. by apply string_at_app. Qed.

(** The columns found so far are in what is left of the string pointer. *)
Lemma fc_split_loop_ok fuel l c r nMaxCols cols ts :
  cstr c → (length c + 1 < fuel)%nat → Forall2 (string_at l) cols ts → zlen ts ≤ nMaxCols →
  returns (fc_split_loop fuel (l ++ c ++ 0 :: r) (Some (zlen l)) delim nMaxCols cols (zlen ts)) (λ '(b, cols, n),
    Forall2 (string_at b) cols (ts ++ take (Z.to_nat (nMaxCols - zlen ts)) (words c)) ∧
    n = Z.min nMaxCols (zlen ts + zlen (words c))).
Proof using.
  revert l c cols ts. induction fuel as [|fuel IH]; intros l c cols ts Hc Hf Hts Hn; [lia|].
  cbn [fc_split_loop strsep]. pose proof (zlen_nonneg l). rewrite (proj2 (Z.leb_le 0 (zlen l))) by lia.
  replace (Z.to_nat (zlen l)) with (length l) by (unfold zlen; lia). rewrite drop_app_length, cstring_ok by done.
  cbn [mbind res_bind]. pose proof (zlen_nonneg (words c)).
  assert (∀ b, nMaxCols <= zlen ts → b = l ++ drop (length l) b → Forall2 (string_at b) cols (ts ++ take (Z.to_nat (nMaxCols - zlen ts)) (words c)) ∧
    zlen ts = Z.min nMaxCols (zlen ts + zlen (words c))) as Hfull.
  { intros b Hm ->. replace (Z.to_nat (nMaxCols - zlen ts)) with O by lia. rewrite take_0, app_nil_r. split; [by apply strings_app|lia]. }
  destruct (first_delim c) as [[-> Hd]|(a & x & d & -> & -> & Hx & Hd)].
  - cbn [mbind res_bind mret res_ret]. destruct (Z.leb_spec nMaxCols (zlen ts)).
    { apply Hfull; [done|]. by rewrite drop_app_length. }
    rewrite match_delim_ok by done. cbn [mbind res_bind]. destruct fuel as [|fuel]; [lia|]. rewrite words_last by done.
    case_bool_decide as Hne; cbn [fc_split_loop strsep mbind res_bind mret res_ret returns].
    + subst c. rewrite decide_True by done. rewrite take_nil, app_nil_r. change (zlen (@nil (list Z))) with 0. split; [|lia]. by apply strings_app.
    + rewrite decide_False by done. change (zlen [c]) with 1. split; [|lia].
      rewrite take_ge by (cbn; lia). apply Forall2_app; [by apply strings_app|]. repeat constructor; [lia|].
      by apply (string_at_ok l c r).
  - apply cstr_split in Hc as (Ha & _ & Hdc). rewrite <-app_assoc. cbn [app].
    rewrite app_assoc, (store_mid _ _ _ _ 0) by (by rewrite zlen_app). cbn [mbind res_bind mret res_ret].
    destruct (Z.leb_spec nMaxCols (zlen ts)).
    { apply Hfull; [done|]. rewrite <-!app_assoc. by rewrite drop_app_length. }
    rewrite <-!app_assoc. cbn [app]. rewrite match_delim_ok by done. cbn [mbind res_bind]. rewrite words_split by done.
    case_bool_decide as Hne.
    + subst a. rewrite decide_True by done. cbn [app length] in *. change (zlen l + Z.of_nat 0 + 1) with (zlen l + 0 + 1). rewrite Z.add_0_r.
      specialize (IH (l ++ [0]) d cols ts Hdc). rewrite zlen_app in IH. change (zlen [0]) with 1 in IH. rewrite <-app_assoc in IH.
      apply IH; [lia|by apply strings_app|done].
    + rewrite decide_False by done. specialize (IH ((l ++ a) ++ [0]) d (cols ++ [zlen l]) (ts ++ [a]) Hdc).
      rewrite !zlen_app in IH. change (zlen [0]) with 1 in IH. change (zlen [a]) with 1 in IH. rewrite <-!app_assoc in IH.
      cbn [app] in IH. change (Z.of_nat (length a)) with (zlen a).
      rewrite zlen_app. change (zlen [a]) with 1.
      replace (Z.to_nat (nMaxCols - zlen ts)) with (S (Z.to_nat (nMaxCols - (zlen ts + 1)))) by lia. cbn [app take].
      replace (zlen ts + (1 + zlen (words d))) with (zlen ts + 1 + zlen (words d)) by lia.
      apply IH; [rewrite length_app in Hf; cbn in Hf; lia| |lia].
      apply Forall2_app; [by apply strings_app|]. repeat constructor; [lia|].
      by apply (string_at_ok l a []).
Qed.
Lemma words_delim x d : x ∈ delim → words (x :: d) = words d.
Proof using. intros Hx. by apply (words_split [] x d). Qed.

Lemma words_pos x d : x ∉ delim → 1 ≤ zlen (words (x :: d)).
Proof using.
  intros Hx. unfold words. cbn [pieces]. rewrite decide_False by done. destruct (pieces d) as [|p ps];
    rewrite filter_cons_True, zlen_cons by done; match goal with |- 1 ≤ zlen ?l + 1 => pose proof (zlen_nonneg l); lia end.
Qed.

(** What [my_strtok] promises: the strings of the columns are the words, but the last
    of as many columns as are allowed is not ended. *)
Definition tokens (nMaxCols : Z) (ws : list (list Z)) (r : list Z * list Z * Z) : Prop :=
  let '(b, cols, n) := r in
  n = Z.min nMaxCols (zlen ws) ∧ zlen cols = n ∧
  Forall2 (string_at b) (take (Z.to_nat (nMaxCols - 1)) cols) (take (Z.to_nat (nMaxCols - 1)) ws).

Lemma tokens_short nMaxCols b cols ws :
  Forall2 (string_at b) cols ws → zlen ws ≤ nMaxCols → tokens nMaxCols ws (b, cols, zlen ws).
Proof using.
  intros Hs Hn. unfold tokens. split; [lia|]. split; [unfold zlen; by rewrite (Forall2_length _ _ _ Hs)|].
  by apply Forall2_take.
Qed.

(** In a word [w] that is not ended yet, and between words. *)
Lemma strtok_loop_ok c fuel r nMaxCols :
  cstr c → (length c < fuel)%nat →
  (∀ l w cols ts, Forall2 (string_at l) cols ts → cstr w → Forall (λ y, y ∉ delim) w → w ≠ [] → zlen ts + 1 < nMaxCols →
    returns (strtok_loop fuel (l ++ w ++ c ++ 0 :: r) delim nMaxCols (zlen l + zlen w) (zlen ts + 1) (cols ++ [zlen l]) false)
      (tokens nMaxCols (ts ++ words (w ++ c)))) ∧
  (∀ l cols ts, Forall2 (string_at l) cols ts → zlen ts < nMaxCols →
    returns (strtok_loop fuel (l ++ c ++ 0 :: r) delim nMaxCols (zlen l) (zlen ts) cols true)
      (tokens nMaxCols (ts ++ words c))).
Proof using.
  revert fuel. induction c as [|x c IH]; intros fuel Hc Hf; (destruct fuel as [|fuel]; [lia|]).
  - split.
    + intros l w cols ts Hts Hw Hd Hne Hn. cbn [strtok_loop app]. rewrite app_assoc, (load_mid _ _ _ _) by (by rewrite zlen_app).
      cbn [mbind res_bind mret res_ret returns]. rewrite app_nil_r, words_last, decide_False by done.
      rewrite <-app_assoc. replace (zlen ts + 1) with (zlen (ts ++ [w])) by (by rewrite zlen_app).
      apply tokens_short; [|rewrite zlen_app; change (zlen [w]) with 1; lia].
      apply Forall2_app; [by apply strings_app|]. repeat constructor; [apply zlen_nonneg|]. by apply (string_at_ok l w r).
    + intros l cols ts Hts Hn. cbn [strtok_loop app]. rewrite load_app_mid.
      cbn [mbind res_bind mret res_ret returns]. rewrite words_last, decide_True, app_nil_r by done.
      apply tokens_short; [by apply strings_app|lia].
  - apply Forall_cons in Hc as [Hx Hc]. cbn [length] in Hf. destruct (IH fuel Hc ltac:(lia)) as [IHw IHb]. clear IH. split.
    + intros l w cols ts Hts Hw Hd Hne Hn. cbn [strtok_loop app]. rewrite app_assoc, (load_mid _ _ _ _) by (by rewrite zlen_app).
      cbn [mbind res_bind]. rewrite (proj2 (Z.eqb_neq x 0)) by lia. rewrite existsb_delim. case_bool_decide as Hxd.
      * rewrite (store_mid _ _ _ _ 0) by (by rewrite zlen_app). cbn [mbind res_bind]. rewrite words_split, decide_False by done.
        specialize (IHb ((l ++ w) ++ [0]) (cols ++ [zlen l]) (ts ++ [w])). rewrite !zlen_app in IHb.
        change (zlen [0]) with 1 in IHb. change (zlen [w]) with 1 in IHb. rewrite <-!app_assoc in IHb. cbn [app] in IHb.
        rewrite <-app_assoc. apply IHb; [|lia]. apply Forall2_app; [by apply strings_app|].
        repeat constructor; [apply zlen_nonneg|]. by apply (string_at_ok l w []).
      * specialize (IHw l (w ++ [x]) cols ts Hts). rewrite !zlen_app in IHw. change (zlen [x]) with 1 in IHw.
        rewrite <-!app_assoc in IHw. cbn [app] in IHw. rewrite <-app_assoc.
        replace (zlen l + zlen w + 1) with (zlen l + (zlen w + 1)) by lia.
        apply IHw; [apply cstr_app; split; [done|by constructor]|apply Forall_app; split; [done|by constructor]|by destruct w|done].
    + intros l cols ts Hts Hn. cbn [strtok_loop app]. rewrite load_app_mid. cbn [mbind res_bind].
      rewrite (proj2 (Z.eqb_neq x 0)) by lia. rewrite existsb_delim. case_bool_decide as Hxd.
      * rewrite store_app_mid. cbn [mbind res_bind]. rewrite words_delim by done.
        specialize (IHb (l ++ [0]) cols ts). rewrite zlen_app in IHb. change (zlen [0]) with 1 in IHb.
        rewrite <-app_assoc in IHb. apply IHb; [by apply strings_app|done].
      * destruct (Z.leb_spec nMaxCols (zlen ts + 1)) as [Hm|Hm].
        -- pose proof (words_pos x c Hxd). pose proof (Forall2_length _ _ _ Hts) as El. pose proof (zlen_nonneg ts).
           cbn [returns tokens mret res_ret]. split; [rewrite zlen_app; lia|].
           split; [rewrite zlen_app; change (zlen [zlen l]) with 1; unfold zlen in *; lia|].
           replace (Z.to_nat (nMaxCols - 1)) with (length ts) by (unfold zlen in *; lia).
           rewrite take_app_length, <-El, take_app_length. by apply strings_app.
        -- specialize (IHw l [x] cols ts Hts). change (zlen [x]) with 1 in IHw.
           apply IHw; [by repeat constructor; lia|by repeat constructor|done|lia].
Qed.

Lemma strtok_skip_ok c fuel l r :
  cstr c → (length c < fuel)%nat →
  ∃ a d, c = a ++ d ∧ strtok_skip fuel (l ++ c ++ 0 :: r) delim (zlen l) = Done (zlen l + zlen a) ∧
    words c = words d ∧ match d with [] => True | x :: _ => x ∉ delim end.
Proof using.
  revert fuel l. induction c as [|x c IH]; intros fuel l Hc Hf; (destruct fuel as [|fuel]; [lia|]); cbn [strtok_skip app];
    rewrite load_app_mid; cbn [mbind res_bind].
  - exists [], []. split_and!; [done|by rewrite Z.add_0_r|done..].
  - apply Forall_cons in Hc as [Hx Hc]. rewrite (proj2 (Z.eqb_neq x 0)) by lia. rewrite existsb_delim.
    case_bool_decide as Hxd; cbn [negb].
    + destruct (IH fuel (l ++ [x]) Hc ltac:(cbn in Hf; lia)) as (a & d & -> & E & Hw & Hd). exists (x :: a), d.
      rewrite zlen_app, <-app_assoc in E. change (zlen [x]) with 1 in E. cbn [app] in E. rewrite <-app_assoc in E.
      split_and!; [done| |by rewrite words_delim|done]. cbn [app]. rewrite <-app_assoc, E, zlen_cons. f_equal. lia.
    + exists [], (x :: c). split_and!; [done|by rewrite Z.add_0_r|done..].
Qed.
End words.

(** C37. [fc_split_string] ends, and its columns are the words of the text between the
    delimiters, in order and without empty ones, up to the number allowed. *)
Theorem fc_split_string_correct delim nMaxCols c r :
  cstr c → 0 ≤ nMaxCols →
  returns (fc_split_string (c ++ 0 :: r) delim nMaxCols) (λ '(b, cols, n),
    Forall2 (string_at b) cols (take (Z.to_nat nMaxCols) (words delim c)) ∧ n = Z.min nMaxCols (zlen (words delim c))).
Proof.
  intros Hc Hn. pose proof (fc_split_loop_ok delim (length (c ++ 0 :: r) + 2) [] c r nMaxCols [] [] Hc) as HS.
  change (zlen (@nil (list Z))) with 0 in HS. rewrite Z.sub_0_r in HS. cbn [app] in HS. change (zlen []) with 0 in HS.
  apply HS; [rewrite length_app; cbn; lia|constructor|done].
Qed.

(** [my_strtok] finds the same words; when there are as many as allowed or more, the
    last column runs on. *)
Theorem my_strtok_correct delim nMaxCols c r :
  cstr c → 0 < nMaxCols →
  returns (my_strtok (Some (c ++ 0 :: r)) delim true nMaxCols) (λ '(b, cols, n),
    ∃ b', b = Some b' ∧ tokens nMaxCols (words delim c) (b', cols, n)).
Proof.
  intros Hc Hn. unfold my_strtok. cbn [negb]. rewrite (proj2 (Z.leb_gt _ _)) by lia.
  destruct (strtok_skip_ok delim c (length (c ++ 0 :: r)) [] r Hc) as (a & d & -> & E & Hw & Hd); [rewrite length_app; cbn; lia|].
  cbn [app] in E. change (zlen [] + zlen a) with (zlen a) in E. change (zlen []) with 0 in E. rewrite E. cbn [mbind res_bind]. rewrite Hw. apply cstr_app in Hc as [Ha Hc]. clear E Hw.
  rewrite <-app_assoc. destruct d as [|x d].
  - cbn [app]. rewrite load_app_mid. cbn [mbind res_bind mret res_ret returns]. eexists. split; [done|].
    apply (tokens_short nMaxCols _ [] []); [constructor|change (zlen (@nil (list Z))) with 0; lia].
  - apply Forall_cons in Hc as [Hx Hc]. cbn [app]. rewrite load_app_mid. cbn [mbind res_bind].
    rewrite (proj2 (Z.eqb_neq x 0)) by lia. destruct (Z.leb_spec nMaxCols 1) as [Hm|Hm].
    + cbn [mret res_ret returns]. eexists. split; [done|]. pose proof (words_pos delim x d Hd). unfold tokens.
      replace (nMaxCols - 1) with 0 by lia. cbn [Z.to_nat take]. split; [lia|]. split; [done|constructor].
    + (* the first step of the loop only passes the first letter *)
      replace (length (a ++ x :: d ++ 0 :: r)) with (S (length a + length (d ++ 0 :: r))) by (rewrite !length_app; cbn [length]; rewrite !length_app; cbn [length]; lia).
      cbn [strtok_loop]. rewrite load_app_mid. cbn [mbind res_bind]. rewrite (proj2 (Z.eqb_neq x 0)) by lia.
      rewrite existsb_delim, bool_decide_eq_false_2 by done.
      destruct (strtok_loop_ok delim d (length a + length (d ++ 0 :: r)) r nMaxCols Hc) as [HL _].
      { rewrite length_app. cbn. lia. }
      specialize (HL a [x] [] []). change (zlen (@nil (list Z))) with 0 in HL. change (zlen [x]) with 1 in HL. cbn [app] in HL.
      eapply returns_bind, returns_mono; [apply HL; [constructor|by repeat constructor; lia|by repeat constructor|done|lia]|].
      intros [[b cols] n] Ht. cbn [mret res_ret returns]. by eexists.
Qed.

(** * Searching and replacing *)

Lemma find_sub_bounds needle s i : find_sub needle s = Some i → 0 ≤ i ∧ i + zlen needle ≤ zlen s.
Proof.
  revert i. induction s as [|x s IH]; intros i; cbn [find_sub]; case_decide as Hp.
  - intros [= <-]. apply prefix_length in Hp. unfold zlen. cbn in *. lia.
  - done.
  - intros [= <-]. apply prefix_length in Hp. unfold zlen. lia.
  - intros (j & Hj & ->)%fmap_Some_1. apply IH in Hj. rewrite zlen_cons. lia.
Qed.

Lemma find_sub_split needle s i :
  find_sub needle s = Some i → ∃ a d, s = a ++ needle ++ d ∧ i = zlen a.
Proof.
  revert i. induction s as [|x s IH]; intros i; cbn [find_sub]; case_decide as Hp.
  - intros [= <-]. destruct Hp as [d E]. by exists [], d.
  - done.
  - intros [= <-]. destruct Hp as [d E]. by exists [], d.
  - intros (j & Hj & ->)%fmap_Some_1. destruct (IH j Hj) as (a & d & -> & ->). exists (x :: a), d. by rewrite zlen_cons.
Qed.

(** A text with each occurrence of [old] replaced, from left to right; the first [skip]
    characters belong to an occurrence that has been replaced. *)
Fixpoint replaced_from (old new : list Z) (skip : nat) (s : list Z) : list Z :=
  match s with
  | [] => []
  | x :: s' =>
      match skip with
      | S skip => replaced_from old new skip s'
      | O => if decide (old `prefix_of` s) then new ++ replaced_from old new (pred (length old)) s'
             else x :: replaced_from old new 0 s'
      end
  end.

Definition replaced_all (old new s : list Z) : list Z := replaced_from old new 0 s.

Lemma replaced_skip old new l s : replaced_from old new (length l) (l ++ s) = replaced_all old new s.
Proof. induction l as [|x l IH]; [done|]. exact IH. Qed.

Lemma replaced_none old new s : old ≠ [] → find_sub old s = None → replaced_all old new s = s.
Proof.
  intros Ho. unfold replaced_all. induction s as [|x s IH]; [done|]. cbn [find_sub replaced_from]. case_decide; [done|].
  intros E%fmap_None. by rewrite IH.
Qed.

Lemma replaced_some old new a d :
  old ≠ [] → find_sub old (a ++ old ++ d) = Some (zlen a) →
  replaced_all old new (a ++ old ++ d) = a ++ new ++ replaced_all old new d.
Proof.
  intros Ho. unfold replaced_all at 1. induction a as [|x a IH]; cbn [app].
  - intros _. destruct old as [|o old]; [done|]. cbn [app replaced_from length pred].
    rewrite decide_True by (by exists d). by rewrite replaced_skip.
  - cbn [find_sub replaced_from]. rewrite zlen_cons. pose proof (zlen_nonneg a). case_decide as Hp; [intros [= E]; lia|].
    intros (j & Hj & Ej)%fmap_Some_1. f_equal. apply IH. rewrite Hj. f_equal. lia.
Qed.

Lemma strstr_ok l t needle : strstr (l ++ t) (zlen l) needle = Done (Z.add (zlen l) <$> find_sub needle t).
Proof.
  unfold strstr. pose proof (zlen_nonneg l). pose proof (zlen_nonneg t). rewrite zlen_app. case_if; [|lia_bool].
  replace (Z.to_nat (zlen l)) with (length l) by (unfold zlen; lia). by rewrite drop_app_length.
Qed.

(** What is copied goes behind what is there. *)
Lemma copy_to_next (dest out l m r : list Z) n :
  zlen m = n → zlen out + n ≤ zlen dest →
  copy_to (zwrite dest 0 out) (zlen out) (l ++ m ++ r) (zlen l) n = Done (zwrite dest 0 (out ++ m)).
Proof.
  intros <- Hd. unfold copy_to. pose proof (zlen_nonneg out). pose proof (zlen_nonneg l). pose proof (zlen_nonneg m).
  pose proof (zlen_nonneg r). rewrite zlen_zwrite by lia. rewrite !zlen_app. case_if; [|lia_bool].
  rewrite zslice_mid by done. pose proof (zwrite_app dest 0 out m ltac:(lia) ltac:(lia)) as HW. rewrite Z.add_0_l in HW. by rewrite HW.
Qed.

Lemma store_end (dest out : list Z) x :
  zlen out < zlen dest → store (zwrite dest 0 out) (zlen out) x = Done (zwrite dest 0 (out ++ [x])).
Proof. intros. by apply (store_zwrite dest 0 out x). Qed.

Section replace.
Context (s old new dest : list Z) (max : Z).
Context (Hold : old ≠ []) (Hdest : max < zlen dest).

(** The text that fits, and the end of it. *)
Definition fitted (t : list Z) : list Z * Z :=
  let t := take (Z.to_nat max) t in (zwrite dest 0 (t ++ [0]), zlen t).

Lemma copy_fits out l m r t n :
  0 ≤ n → zlen out + n = max → n ≤ zlen m →
  (d ← copy_to (zwrite dest 0 out) (zlen out) (l ++ m ++ r) (zlen l) n; d ← store d (zlen out + n) 0;
   mret (d, inr (zlen out + n))) = Done ((fitted (out ++ m ++ t)).1, inr (A := Z * Z * Z) (fitted (out ++ m ++ t)).2).
Proof using Hdest.
  intros Hn Ho Hm. pose proof (zlen_nonneg out). rewrite <-(take_drop (Z.to_nat n) m). rewrite <-!app_assoc.
  set (m1 := take _ m). assert (zlen m1 = n) as E1 by (subst m1; by apply zlen_take).
  rewrite copy_to_next by lia. cbn [mbind res_bind]. rewrite <-E1 at 1. rewrite <-zlen_app, store_end by (rewrite zlen_app; lia).
  cbn [mbind res_bind]. unfold mret, res_ret, fitted. f_equal.
  assert (take (Z.to_nat max) (out ++ m1 ++ drop (Z.to_nat n) m ++ t) = out ++ m1) as ->.
  { rewrite app_assoc. apply take_app_length'. rewrite length_app. unfold zlen in *. lia. }
  cbn [fst snd]. by rewrite zlen_app, E1.
Qed.

Lemma str_replace_loop_ok fuel l t out :
  s = l ++ t → (length t < fuel)%nat → zlen out ≤ max →
  match str_replace_loop fuel s old new (zwrite dest 0 out) (zlen l) (zlen out) (max - zlen out) with
  | Done (d, inr n) => (d, n) = fitted (out ++ replaced_all old new t)
  | Done (d, inl (pStart, pDest, remain)) => ∃ l' t' out', s = l' ++ t' ∧ pStart = zlen l' ∧
      pDest = zlen out' ∧ remain = max - zlen out' ∧ d = zwrite dest 0 out' ∧ zlen out' ≤ max ∧
      out ++ replaced_all old new t = out' ++ t'
  | _ => False
  end.
Proof using Hold Hdest.
  revert l t out. induction fuel as [|fuel IH]; intros l t out Hs Hf Ho; [lia|]. cbn [str_replace_loop].
  rewrite Hs, strstr_ok. cbn [mbind res_bind]. destruct (find_sub old t) as [i|] eqn:E; cbn [fmap option_fmap option_map].
  2: { rewrite replaced_none by done. exists l, t, out. done. }
  destruct (find_sub_split _ _ _ E) as (a & d & -> & ->). rewrite replaced_some by done.
  replace (zlen l + zlen a - zlen l) with (zlen a) by lia. pose proof (zlen_nonneg a). pose proof (zlen_nonneg out).
  destruct ((0 <? zlen a) && negb (zlen a <? max - zlen out)) eqn:Efull; propify.
  { replace (zlen out + (max - zlen out)) with (zlen out + (max - zlen out)) by done.
    rewrite (copy_fits out l a (old ++ d) (new ++ replaced_all old new d)) by lia. by destruct (fitted _). }
  (* what stands before the occurrence *)
  assert ((if 0 <? zlen a then copy_to (zwrite dest 0 out) (zlen out) (l ++ a ++ old ++ d) (zlen l) (zlen a) else mret (zwrite dest 0 out)) =
    Done (zwrite dest 0 (out ++ a))) as ->.
  { case_if; propify; [apply copy_to_next; lia|]. assert (a = []) as -> by (apply length_zero_iff_nil; unfold zlen in *; lia). by rewrite app_nil_r. }
  cbn [mbind res_bind].
  assert ((if 0 <? zlen a then zlen out + zlen a else zlen out) = zlen (out ++ a)) as -> by (rewrite zlen_app; case_if; lia_bool).
  assert ((if 0 <? zlen a then max - zlen out - zlen a else max - zlen out) = max - zlen (out ++ a)) as -> by (rewrite zlen_app; case_if; lia_bool).
  assert (zlen (out ++ a) ≤ max) as Ho' by (rewrite zlen_app; lia_bool).
  replace (out ++ a ++ new ++ replaced_all old new d) with ((out ++ a) ++ new ++ replaced_all old new d) by (by rewrite <-app_assoc).
  set (o := out ++ a) in *. destruct (Z.ltb_spec (zlen new) (max - zlen o)) as [Hn|Hn].
  - pose proof (copy_to_next dest o [] new [] (zlen new) eq_refl ltac:(lia)) as HC. rewrite app_nil_r in HC. cbn [app] in HC.
    change (zlen []) with 0 in HC. rewrite HC. cbn [mbind res_bind].
    specialize (IH (l ++ a ++ old) d (o ++ new)). rewrite !zlen_app in IH. rewrite Hs in IH.
    replace (zlen l + zlen a + zlen old) with (zlen l + (zlen a + zlen old)) by lia.
    replace (max - zlen o - zlen new) with (max - (zlen o + zlen new)) by lia. rewrite <-!app_assoc in IH.
    apply IH; [done| |lia]. rewrite !length_app in Hf. destruct old; [done|]. cbn in Hf. lia.
  - pose proof (copy_fits o [] new [] (replaced_all old new d) (max - zlen o) ltac:(lia) ltac:(lia) Hn) as HC.
    rewrite app_nil_r in HC. cbn [app] in HC. change (zlen []) with 0 in HC. rewrite HC. by destruct (fitted _).
Qed.
End replace.

(** C14. [str_replace] writes the text with each occurrence replaced, from left to right,
    cut to what the buffer holds, ends it and returns its length. *)
Theorem str_replace_correct s old new dest dest_size :
  old ≠ [] → 0 < dest_size ≤ zlen dest →
  str_replace s (zlen s) old new dest dest_size =
    let t := take (Z.to_nat (dest_size - 1)) (replaced_all old new s) in
    Done (zwrite dest 0 (t ++ [0]), zlen t).
Proof.
  intros Ho Hd. unfold str_replace. rewrite (proj2 (Z.leb_gt _ _)) by lia.
  assert (zlen old ≠ 0) as Hz by (destruct old; [done|rewrite zlen_cons; pose proof (zlen_nonneg old); lia]).
  rewrite (proj2 (Z.eqb_neq _ _) Hz).
  pose proof (str_replace_loop_ok s old new dest (dest_size - 1) Ho ltac:(lia) (S (length s)) [] s [] eq_refl ltac:(lia)) as HL.
  change (zlen []) with 0 in HL. rewrite zwrite_nil, Z.sub_0_r in HL. specialize (HL ltac:(lia)).
  destruct (str_replace_loop _ _ _ _ _ _ _ _) as [[d [[[pStart pDest] remain]|n]]| |]; [|by injection HL as -> ->|done..].
  destruct HL as (l & t & out & -> & -> & -> & -> & -> & Hout & E). cbn [mbind res_bind].
  cbn [app] in E. rewrite E. rewrite zlen_app. replace (zlen l + zlen t - zlen l) with (zlen t) by lia.
  pose proof (zlen_nonneg t). pose proof (zlen_nonneg out). cbv zeta. destruct (Z.ltb_spec 0 (zlen t)).
  - set (n := if dest_size - 1 - zlen out <? zlen t then dest_size - 1 - zlen out else zlen t).
    assert (0 ≤ n ≤ zlen t ∧ zlen out + n ≤ dest_size - 1 ∧ (n = zlen t ∨ zlen out + n = dest_size - 1)) as (Hn & Hle & Hor) by (subst n; case_if; lia_bool).
    clearbody n. assert (take (Z.to_nat (dest_size - 1)) (out ++ t) = out ++ take (Z.to_nat n) t) as ->.
    { rewrite take_app. rewrite (take_ge out) by (unfold zlen in *; lia). f_equal. destruct Hor as [->|Hn'].
      - rewrite !take_ge by (unfold zlen in *; lia). done.
      - f_equal. unfold zlen in *. lia. }
    pose proof (zlen_take t n Hn) as El. rewrite <-(take_drop (Z.to_nat n) t) at 1.
    rewrite copy_to_next by lia. cbn [mbind res_bind].
    replace (zlen out + n) with (zlen (out ++ take (Z.to_nat n) t)) by (rewrite zlen_app; lia).
    rewrite store_end by (rewrite zlen_app; lia). done.
  - assert (t = []) as -> by (apply length_zero_iff_nil; unfold zlen in *; lia). rewrite app_nil_r, take_ge by (unfold zlen in *; lia).
    rewrite store_end by lia. done.
Qed.

Lemma find_sub_None needle s : find_sub needle s = None ↔ ¬ ∃ a d, s = a ++ needle ++ d.
Proof.
  split.
  - induction s as [|x s IH]; cbn [find_sub]; case_decide as Hp; try done.
    + intros _ (a & d & E). apply Hp. destruct a; [|done]. by exists d.
    + intros E%fmap_None (a & d & E'). destruct a as [|y a].
      * apply Hp. by exists d.
      * injection E' as -> ->. by apply (IH E); exists a, d.
  - intros Hn. destruct (find_sub needle s) as [i|] eqn:E; [|done]. destruct Hn.
    destruct (find_sub_split _ _ _ E) as (a & d & -> & _). by exists a, d.
Qed.

Lemma find_sub_short needle s : zlen s < zlen needle → find_sub needle s = None.
Proof.
  intros Hl. apply find_sub_None. intros (a & d & ->). rewrite !zlen_app in Hl.
  pose proof (zlen_nonneg a). pose proof (zlen_nonneg d). lia.
Qed.

Lemma memmem_match_ok l t r needle :
  zlen needle ≤ zlen t → memmem_match (l ++ t ++ r) needle (zlen l) = Done (bool_decide (needle `prefix_of` t)).
Proof.
  revert l t. induction needle as [|c needle IH]; intros l t Hl; cbn [memmem_match].
  - rewrite bool_decide_eq_true_2 by apply prefix_nil. done.
  - destruct t as [|x t]; [rewrite zlen_cons in Hl; pose proof (zlen_nonneg needle); change (zlen []) with 0 in Hl; lia|].
    rewrite !zlen_cons in Hl. cbn [app]. rewrite load_app_mid. cbn [mbind res_bind]. destruct (Z.eqb_spec x c) as [->|Hne].
    + specialize (IH (l ++ [c]) t ltac:(lia)). rewrite zlen_app, <-app_assoc in IH. change (zlen [c]) with 1 in IH. cbn [app] in IH.
      rewrite IH. f_equal. apply bool_decide_ext. split; [apply prefix_cons|apply prefix_cons_inv_2].
    + rewrite bool_decide_eq_false_2; [done|]. intros Hp. by apply Hne; symmetry; eapply prefix_cons_inv_1.
Qed.

Lemma memmem_loop_ok n l t needle :
  zlen t = zlen needle + Z.of_nat n →
  memmem_loop (S n) (l ++ t) needle (zlen l) = Done (Z.add (zlen l) <$> find_sub needle t).
Proof.
  revert l t. induction n as [|n IH]; intros l t Hl.
  - cbn [memmem_loop]. pose proof (memmem_match_ok l t [] needle ltac:(lia)) as HM. rewrite app_nil_r in HM. rewrite HM.
    cbn [mbind res_bind]. destruct t as [|x t]; cbn [find_sub].
    + case_bool_decide as Hp; case_decide; try done. cbn. by rewrite Z.add_0_r.
    + case_bool_decide as Hp; case_decide; try done; cbn [fmap option_fmap option_map]; [by rewrite Z.add_0_r|].
      rewrite zlen_cons in Hl. by rewrite find_sub_short by lia.
  - pose proof (memmem_match_ok l t [] needle ltac:(lia)) as HM. rewrite app_nil_r in HM.
    change (memmem_loop (S (S n)) (l ++ t) needle (zlen l)) with
      (m ← memmem_match (l ++ t) needle (zlen l); if (m : bool) then mret (Some (zlen l)) else memmem_loop (S n) (l ++ t) needle (zlen l + 1)).
    rewrite HM. cbn [mbind res_bind]. destruct t as [|x t]; [change (zlen []) with 0 in Hl; pose proof (zlen_nonneg needle); lia|].
    cbn [find_sub]. case_bool_decide as Hp; case_decide; try done; [cbn [fmap option_fmap option_map]; by rewrite Z.add_0_r|].
    rewrite zlen_cons in Hl. specialize (IH (l ++ [x]) t ltac:(lia)). rewrite zlen_app, <-app_assoc in IH. change (zlen [x]) with 1 in IH.
    cbn [app] in IH. rewrite IH. destruct (find_sub needle t); [|done]. cbn [fmap option_fmap option_map]. do 2 f_equal. lia.
Qed.

(** [fc_memmem] finds the first place at which the needle stands in the text, the
    last possible one and an empty needle included, and nothing when there is none. *)
Theorem fc_memmem_correct str needle : fc_memmem str needle = Done (find_sub needle str).
Proof.
  unfold fc_memmem. destruct (Z.ltb_spec (zlen str - zlen needle) 0).
  - by rewrite find_sub_short by lia.
  - rewrite (memmem_loop_ok _ [] str) by lia. change (zlen []) with 0. by destruct (find_sub needle str).
Qed.

Lemma memeq_ok l t r needle :
  zlen t = zlen needle → memeq (l ++ t ++ r) (zlen l) needle (zlen needle) = Done (bool_decide (t = needle)).
Proof.
  intros Hl. unfold memeq. pose proof (zlen_nonneg l). pose proof (zlen_nonneg r). pose proof (zlen_nonneg needle).
  rewrite !zlen_app. case_if; [|lia_bool]. rewrite <-!app_assoc, (zslice_mid l t (r ++ [0])) by done.
  replace (Z.to_nat (zlen needle)) with (length needle) by (unfold zlen; lia). by rewrite take_app_length.
Qed.

(** [starts_with] and [ends_with] tell prefixes and suffixes. *)
Lemma starts_with_ok str needle : starts_with str needle = Done (bool_decide (needle `prefix_of` str)).
Proof.
  unfold starts_with. destruct (Z.ltb_spec (zlen str) (zlen needle)) as [Hlt|Hge].
  - rewrite bool_decide_eq_false_2; [done|]. intros Hp%prefix_length. unfold zlen in *. lia.
  - pose proof (zlen_nonneg needle). pose proof (zlen_take str (zlen needle) ltac:(lia)) as El.
    pose proof (memeq_ok [] (take (Z.to_nat (zlen needle)) str) (drop (Z.to_nat (zlen needle)) str) needle El) as HM.
    cbn [app] in HM. rewrite take_drop in HM. change (zlen []) with 0 in HM. rewrite HM. f_equal.
    apply bool_decide_ext. replace (Z.to_nat (zlen needle)) with (length needle) by (unfold zlen; lia). split.
    + intros E. exists (drop (length needle) str). rewrite <-E at 1. by rewrite take_drop.
    + intros [d ->]. apply take_app_length.
Qed.

Lemma ends_with_ok str needle : ends_with str needle = Done (bool_decide (needle `suffix_of` str)).
Proof.
  unfold ends_with. destruct (Z.ltb_spec (zlen str - zlen needle) 0) as [Hlt|Hge].
  - rewrite bool_decide_eq_false_2; [done|]. intros Hp%suffix_length. unfold zlen in *. lia.
  - pose proof (zlen_nonneg needle). set (n := zlen str - zlen needle) in *.
    pose proof (zlen_take str n ltac:(lia)) as El. pose proof (zlen_drop str n ltac:(lia)) as Ed.
    pose proof (memeq_ok (take (Z.to_nat n) str) (drop (Z.to_nat n) str) [] needle ltac:(lia)) as HM.
    rewrite app_nil_r, take_drop, El in HM. rewrite HM. f_equal. apply bool_decide_ext. split.
    + intros E. exists (take (Z.to_nat n) str). rewrite <-E. by rewrite take_drop.
    + intros [d E]. rewrite E. apply drop_app_length'. apply (f_equal length) in E. rewrite length_app in E. unfold n, zlen. lia.
Qed.

(** A name passes [is_filename_secure], given its length, just when it does not
    begin with ../ and has no /../ in it. *)
Theorem is_filename_secure_correct name :
  ∃ ok, is_filename_secure name (zlen name) = Done ok ∧
    (ok = true ↔ ¬ [46; 46; 47] `prefix_of` name ∧ ¬ ∃ a d, name = a ++ [47; 46; 46; 47] ++ d).
Proof.
  unfold is_filename_secure. destruct (Z.ltb_spec (zlen name) 3) as [Hlt|Hge].
  - exists true. split; [done|]. split; [intros _|done]. split.
    + intros Hp%prefix_length. unfold zlen in *. cbn in *. lia.
    + intros (a & d & ->). rewrite !zlen_app in Hlt. change (zlen [47; 46; 46; 47]) with 4 in Hlt.
      pose proof (zlen_nonneg a). pose proof (zlen_nonneg d). lia.
  - pose proof (starts_with_ok name [46; 46; 47]) as HS. unfold starts_with in HS. change (zlen [46; 46; 47]) with 3 in HS.
    rewrite (proj2 (Z.ltb_ge _ _)) in HS by done. rewrite HS. cbn [mbind res_bind].
    case_bool_decide as Hp; [exists false; split; [done|]; split; [done|tauto]|].
    pose proof (strstr_ok [] name [47; 46; 46; 47]) as HF. cbn [app] in HF. change (zlen []) with 0 in HF. rewrite HF.
    cbn [mbind res_bind]. destruct (find_sub [47; 46; 46; 47] name) as [i|] eqn:E; cbn [fmap option_fmap option_map];
      (eexists; split; [reflexivity|]).
    + split; [done|]. intros [_ Hn]. apply find_sub_None in Hn. congruence.
    + split; [intros _|done]. split; [done|]. by apply find_sub_None.
Qed.

(** The parent directory itself passes, alone and at the end of a name. *)
Example parent_passes :
  is_filename_secure [46; 46] 2 = Done true ∧ is_filename_secure [97; 47; 46; 46] 4 = Done true.
Proof. split; reflexivity. Qed.

(** * Witnesses *)

Lemma case_correct_witness :
  cstr [97; 66; 33] ∧ toUppercase ([97; 66; 33] ++ [0]) = Done [65; 66; 33; 0].
Proof. split; [repeat constructor; lia|]. destruct (case_correct [97; 66; 33] []) as (_ & E & _); [repeat constructor; lia|exact E]. Defined.

Lemma trim_correct_witness :
  cstr [32; 97; 32; 98; 10] ∧ (b ← trim ([32; 97; 32; 98; 10] ++ [0]); cstring b) = Done [97; 32; 98].
Proof. split; [repeat constructor; lia|]. apply (trim_correct [32; 97; 32; 98; 10] []). repeat constructor; lia. Defined.

Lemma split_correct_witness :
  returns (split true (Some ([97; 44; 98; 44; 99] ++ [0])) 44 2) (λ '(b, cols, n),
    n = 2 ∧ ∃ b' ps ts, b = Some b' ∧ cols = Some ps ∧ Forall2 (string_at b') ps ts ∧ zlen ts = n ∧
      join 44 ts = [97; 44; 98; 44; 99] ∧ Forall (λ t, 44 ∉ t) (removelast ts)).
Proof. apply (split_correct 44 2 [97; 44; 98; 44; 99] []); [lia|repeat constructor; lia|done]. Defined.

Lemma splitEx_split_witness :
  split true (Some ([97; 44; 98; 44; 99] ++ [0])) 44 2 =
    ('(b, cols, n) ← splitEx ([97; 44; 98; 44; 99] ++ [0]) 44 2; mret (Some b, Some cols, n)).
Proof. apply (splitEx_split 44 2 [97; 44; 98; 44; 99] []); [lia|repeat constructor; lia|done|lia]. Defined.

Lemma fc_split_string_correct_witness :
  returns (fc_split_string ([32; 97; 9; 32; 98; 99] ++ [0]) [32; 9] 4) (λ '(b, cols, n),
    Forall2 (string_at b) cols [[97]; [98; 99]] ∧ n = 2).
Proof. apply (fc_split_string_correct [32; 9] 4 [32; 97; 9; 32; 98; 99] []); [repeat constructor; lia|lia]. Defined.

Lemma my_strtok_correct_witness :
  returns (my_strtok (Some ([32; 97; 32; 98; 99] ++ [0])) [32] true 3) (λ '(b, cols, n),
    ∃ b', b = Some b' ∧ tokens 3 [[97]; [98; 99]] (b', cols, n)).
Proof. apply (my_strtok_correct [32] 3 [32; 97; 32; 98; 99] []); [repeat constructor; lia|lia]. Defined.

Lemma str_replace_correct_witness :
  str_replace [97; 98; 97; 98; 99] 5 [97; 98] [120; 121; 122] (replicate 6 0) 6 =
    Done ([120; 121; 122; 120; 121; 0], 5).
Proof. apply (str_replace_correct [97; 98; 97; 98; 99] [97; 98] [120; 121; 122] (replicate 6 0) 6); [done|split; [lia|done]]. Defined.
