(* ===== verification/SharedIo.v ===== *)
(** Input and output in libs/fastcommon/src/shared_func.c: complete reads and writes on
    descriptors, lines, whole files, replacing a file, and growing buffers.

    What the system calls do is given: the results of the calls of [read] and [write]
    in order, the files, and which calls fail. *)
From stdpp Require Import gmap.
From S2P Require Import Prelude CString.

(** * Code *)

Definition EINTR : Z := 4.
Definition EIO : Z := 5.
Definition ENOENT : Z := 2.
Definition ENOMEM : Z := 12.
Definition EINVAL : Z := 22.
Definition EACCES : Z := 13.

(** A call of [read] or [write] moves some bytes or fails with an errno. *)
Inductive moved := Moved (n : Z) | Failed (errno : Z).

(** ** Writing everything *)

(** The loop, with the results of the calls to come: the returned value and what has
    gone out; without another result the call does not return. *)
Fixpoint write_loop (buf : list Z) (p remain nbyte : Z) (os : list moved) (out : list Z) : res (Z * list Z * list moved) :=
  if 0 <? remain then
    match os with
    | [] => OutOfFuel
    | Failed e :: os =>
        if e =? EINTR then write_loop buf p remain nbyte os out
        else let written := nbyte - remain in mret (if 0 <? written then written else -1, out, os)
    | Moved n :: os => write_loop buf (p + n) (remain - n) nbyte os (out ++ zslice buf p n)
    end
  else mret (nbyte, out, os).

Definition fc_safe_write (buf : list Z) (nbyte : Z) (os : list moved) : res (Z * list Z * list moved) :=
  match os with
  | [] => OutOfFuel
  | Failed e :: os => if negb (e =? EINTR) then mret (-1, [], os) else write_loop buf 0 nbyte nbyte os []
  | Moved n :: os =>
      if n =? nbyte then mret (nbyte, zslice buf 0 n, os)
      else write_loop buf n (nbyte - n) nbyte os (zslice buf 0 n)
  end.

(** ** Reading until the end *)

(** [data] is what the descriptor still has; [Moved 0] is its end. *)
Fixpoint read_loop (buf : list Z) (p remain count : Z) (data : list Z) (os : list moved) : res (Z * list Z * list Z) :=
  if 0 <? remain then
    match os with
    | [] => OutOfFuel
    | Failed e :: os =>
        if e =? EINTR then read_loop buf p remain count data os
        else let done := count - remain in mret (if 0 <? done then done else -1, buf, data)
    | Moved n :: os =>
        if n =? 0 then mret (count - remain, buf, data)
        else read_loop (zwrite buf p (take (Z.to_nat n) data)) (p + n) (remain - n) count (drop (Z.to_nat n) data) os
    end
  else mret (count - remain, buf, data).

Definition fc_safe_read (buf : list Z) (count : Z) (data : list Z) (os : list moved) : res (Z * list Z * list Z) :=
  match os with
  | [] => OutOfFuel
  | Failed e :: os => if negb (e =? EINTR) then mret (-1, buf, data) else read_loop buf 0 count count data os
  | Moved n :: os =>
      let buf := zwrite buf 0 (take (Z.to_nat n) data) in
      if (n =? 0) || (n =? count) then mret (n, buf, drop (Z.to_nat n) data)
      else read_loop buf n (count - n) count (drop (Z.to_nat n) data) os
  end.

(** ** Lines *)

(** The newline of what was read last, if there is one. *)
Fixpoint line_end (n : nat) (buff : list Z) (p : Z) : res (option Z) :=
  match n with
  | O => mret None
  | S n => c ← load buff p; if c =? 10 then mret (Some p) else line_end n buff (p + 1)
  end.

(** The file, the position in it, and the results of the calls of [read]; [lseek_ok]
    tells whether going back works. The result, the buffer and the new position. *)
Fixpoint fd_gets_loop (fuel : nat) (file : list Z) (pos : Z) (lseek_ok : bool) (buff : list Z) (pDest remain_bytes once_bytes : Z)
    (os : list moved) : res (option Z * list Z * Z) :=
  match fuel with
  | O => OutOfFuel
  | S fuel =>
      if 0 <? remain_bytes then
        let once_bytes := if remain_bytes <? once_bytes then remain_bytes else once_bytes in
        match os with
        | [] => OutOfFuel
        | Failed e :: _ => mret (None, buff, pos)
        | Moved n :: os =>
            if n =? 0 then mret (Some pDest, buff, pos)
            else
              let buff := zwrite buff pDest (zslice file pos n) in
              let pos := pos + n in
              e ← line_end (Z.to_nat n) buff pDest;
              match e with
              | Some p =>
                  if (lseek_ok : bool) then mret (Some (p + 1), buff, pos - (pDest + n - (p + 1)))
                  else mret (None, buff, pos)
              | None => fd_gets_loop fuel file pos lseek_ok buff (pDest + n) (remain_bytes - n) once_bytes os
              end
        end
      else mret (Some pDest, buff, pos)
  end.

Definition fd_gets (file : list Z) (pos : Z) (lseek_ok : bool) (buff : list Z) (size once_bytes : Z) (os : list moved)
    : res (Z * list Z * Z) :=
  let once_bytes := if once_bytes <=? 0 then 1 else once_bytes in
  '(r, buff, pos) ← fd_gets_loop (S (Z.to_nat size)) file pos lseek_ok buff 0 (size - 1) once_bytes os;
  match r with
  | None => mret (-1, buff, pos)
  | Some pDest => buff ← store buff pDest 0; mret (pDest, buff, pos)
  end.

(** ** Whole files *)

(** The regular files by their names. *)
Abbreviation files := (gmap (list Z) (list Z)).

(** The errno a failing call leaves, which may be 0. *)
Definition errno_or (errno otherwise : Z) : Z := if negb (errno =? 0) then errno else otherwise.

(** What the calls [isFile], [open], [lseek], [malloc], [lseek] and [read] of
    [getFileContent] do: an errno for those that fail, and the errno that is left when
    [malloc] fails or [read] gives too little. *)
Record read_calls := { stat_errno : option Z; read_open_errno : option Z; seek_end_errno : option Z;
  malloc_ok : bool; seek_set_errno : option Z; read_moves : moved; read_left_errno : Z }.

Section content.
Context (garbage : Z → Z).

(** What [malloc] gives. *)
Definition block (n : Z) : list Z := garbage <$> seqZ 0 n.

(** The result, [*buff], [*file_size] and the number of blocks that stay allocated: when
    going back to the beginning fails the block is forgotten, not freed. *)
Definition getFileContent (content : list Z) (c : read_calls) : res (Z * option (list Z) * Z * Z) :=
  match stat_errno c with
  | Some e => mret (errno_or e EINVAL, None, 0, 0)
  | None =>
      match read_open_errno c with
      | Some e => mret (errno_or e ENOENT, None, 0, 0)
      | None =>
          match seek_end_errno c with
          | Some e => mret (errno_or e EIO, None, 0, 0)
          | None =>
              let file_size := zlen content in
              if negb (malloc_ok c) then mret (errno_or (read_left_errno c) ENOMEM, None, 0, 0) else
              let buff := block (file_size + 1) in
              match seek_set_errno c with
              | Some e => mret (errno_or e EIO, None, 0, 1)
              | None =>
                  match read_moves c with
                  | Failed e => mret (errno_or e EIO, None, 0, 0)
                  | Moved n =>
                      if negb (n =? file_size) then mret (errno_or (read_left_errno c) EIO, None, 0, 0) else
                      buff ← store (zwrite buff 0 (take (Z.to_nat n) content)) file_size 0;
                      mret (0, Some buff, file_size, 1)
                  end
              end
          end
      end
  end.
End content.

(** [open] for reading, [lseek] and [read] of [getFileContentEx]: the result, the buffer
    and [*size]. The number of bytes [read] returns is kept in an int. *)
Definition getFileContentEx (content : list Z) (c : read_calls) (buff : list Z) (offset size : Z) : res (Z * list Z * Z) :=
  if size <=? 0 then mret (EINVAL, buff, size) else
  match read_open_errno c with
  | Some e => mret (errno_or e ENOENT, buff, 0)
  | None =>
      match (if 0 <? offset then seek_set_errno c else None) with
      | Some e => mret (errno_or e EIO, buff, 0)
      | None =>
          match read_moves c with
          | Failed e => mret (errno_or e EIO, buff, 0)
          | Moved n =>
              let buff := zwrite buff 0 (zslice content (if 0 <? offset then offset else 0) n) in
              let read_bytes := sext 32 n in
              if read_bytes <? 0 then mret (errno_or (read_left_errno c) EIO, buff, 0) else
              buff ← store buff read_bytes 0;
              mret (0, buff, read_bytes)
          end
      end
  end.

(** What [open], [write], [fsync] and [rename] do: an errno where they fail, and the one
    that is left when [write] moves too little. *)
Record write_calls := { open_errno : option Z; write_moves : moved; left_errno : Z; fsync_errno : option Z; rename_errno : option Z }.

(** [O_TRUNC] empties the file, [write] puts what it moves into it. *)
Definition writeToFile (fs : files) (filename buff : list Z) (file_size : Z) (c : write_calls) : Z * files :=
  match open_errno c with
  | Some e => (errno_or e EIO, fs)
  | None =>
      let fs := <[filename := []]> fs in
      match write_moves c with
      | Failed e => (errno_or e EIO, fs)
      | Moved n =>
          let fs := <[filename := take (Z.to_nat n) buff]> fs in
          if negb (n =? file_size) then (errno_or (left_errno c) EIO, fs)
          else match fsync_errno c with Some e => (errno_or e EIO, fs) | None => (0, fs) end
      end
  end.

Definition MAX_PATH_SIZE : Z := 256.

(** The name [snprintf] makes of ["%s.tmp"]. *)
Definition tmp_name (filename : list Z) : list Z := take (Z.to_nat (MAX_PATH_SIZE - 1)) (filename ++ [46; 116; 109; 112]).

Definition rename (fs : files) (old new : list Z) : files :=
  match fs !! old with Some content => if decide (old = new) then fs else <[new := content]> (delete old fs) | None => fs end.

Definition safeWriteToFile (fs : files) (filename buff : list Z) (file_size : Z) (c : write_calls) : Z * files :=
  let tmpFilename := tmp_name filename in
  let '(result, fs) := writeToFile fs tmpFilename buff file_size c in
  if negb (result =? 0) then (result, fs) else
  match rename_errno c with
  | Some e => (errno_or e EIO, fs)
  | None => (0, rename fs tmpFilename filename)
  end.

(** ** Growing buffers *)

Module Buffers.

Record BufferInfo := mkBufferInfo { buff : option (list Z); alloc_size : Z; length : Z }.

Section buffers.
Context (garbage : Z → Z).

(** [alloc_size <= length] and [malloc] of the new size; [buff] of [free] is lost. *)
Definition buffer_copy (pBuff : BufferInfo) (size : Z) (malloc_ok : bool) (errno : Z) (text : list Z) : res (Z * BufferInfo) :=
  if alloc_size pBuff <=? length pBuff then
    if malloc_ok then
      b ← (if zlen text <=? size then mret (zwrite (block garbage size) 0 text) else Undef);
      mret (0, mkBufferInfo (Some b) size (length pBuff))
    else mret (errno_or errno ENOMEM, mkBufferInfo None 0 (length pBuff))
  else
    match buff pBuff with
    | None => Undef
    | Some b => if zlen text <=? zlen b then mret (0, mkBufferInfo (Some (zwrite b 0 text)) (alloc_size pBuff) (length pBuff)) else Undef
    end.

Definition buffer_strcpy (pBuff : BufferInfo) (str : list Z) (malloc_ok : bool) (errno : Z) : res (Z * BufferInfo) :=
  let pBuff := mkBufferInfo (buff pBuff) (alloc_size pBuff) (zlen str) in
  buffer_copy pBuff (length pBuff + 1) malloc_ok errno (str ++ [0]).

Definition buffer_memcpy (pBuff : BufferInfo) (b : list Z) (len : Z) (malloc_ok : bool) (errno : Z) : res (Z * BufferInfo) :=
  let pBuff := mkBufferInfo (buff pBuff) (alloc_size pBuff) len in
  buffer_copy pBuff (length pBuff) malloc_ok errno (take (Z.to_nat len) b).
End buffers.

End Buffers.

(** * Writing and reading everything *)

(** The calls move at most what they are asked for. *)
Fixpoint allowed (remain : Z) (os : list moved) : Prop :=
  match os with
  | [] => True
  | Failed _ :: os => allowed remain os
  | Moved n :: os => 0 ≤ n ≤ remain ∧ allowed (remain - n) os
  end.

(** All that the calls move. *)
Fixpoint moved_total (os : list moved) : Z :=
  match os with [] => 0 | Failed _ :: os => moved_total os | Moved n :: os => n + moved_total os end.

(** No call has failed but for signals. *)
Definition quiet (os : list moved) : Prop := ∀ e, Failed e ∈ os → e = EINTR.

(** The calls [pre] up to the first that fails for another reason than a signal. *)
Definition interrupted (e : Z) (os pre rest : list moved) : Prop :=
  e ≠ EINTR ∧ os = pre ++ Failed e :: rest ∧ quiet pre.

Lemma quiet_nil : quiet [].
Proof. by intros e ?%elem_of_nil. Qed.

Lemma quiet_cons o os : match o with Moved _ => True | Failed e => e = EINTR end → quiet os → quiet (o :: os).
Proof. intros Ho Hq e [<-|He]%elem_of_cons; [done|by apply Hq]. Qed.

Lemma interrupted_cons e o os pre rest :
  match o with Moved _ => True | Failed e => e = EINTR end → interrupted e os pre rest → interrupted e (o :: os) (o :: pre) rest.
Proof. intros Ho (He & -> & Hq). split; [done|]. split; [done|by apply quiet_cons]. Qed.

Lemma allowed_total remain os : 0 ≤ remain → allowed remain os → 0 ≤ moved_total os ≤ remain.
Proof.
  revert remain. induction os as [|[n|e] os IH]; intros remain Hr; cbn [allowed moved_total]; [lia| |by apply IH].
  intros [Hn Ha]. specialize (IH (remain - n) ltac:(lia) Ha). lia.
Qed.

(** What has gone out, and what is returned, when a call has failed. *)
Definition partial_result (out : list Z) : Z := if 0 <? zlen out then zlen out else -1.

Lemma zslice_start (buf : list Z) n : zslice buf 0 n = take (Z.to_nat n) buf.
Proof. done. Qed.

Lemma take_zslice (buf : list Z) p n : 0 ≤ p → 0 ≤ n → take (Z.to_nat p) buf ++ zslice buf p n = take (Z.to_nat (p + n)) buf.
Proof. intros. unfold zslice. rewrite Z2Nat.inj_add by lia. apply take_take_drop. Qed.

(** What is right when [p] bytes have gone out before: the loop ends after the call
    that moves the last byte, or the first that fails for another reason than a signal,
    and waits for more calls only if neither has come. *)
Definition write_result (buf : list Z) (p : Z) (os : list moved) (m : res (Z * list Z * list moved)) : Prop :=
  match m with
  | Done (r, out, rest) =>
      (∃ pre, os = pre ++ rest ∧ quiet pre ∧ p + moved_total pre = zlen buf ∧ r = zlen buf ∧ out = buf) ∨
      (∃ e pre, interrupted e os pre rest ∧ (buf = [] ∨ p + moved_total pre < zlen buf) ∧
         out = take (Z.to_nat (p + moved_total pre)) buf ∧ r = partial_result out)
  | OutOfFuel => quiet os ∧ p + moved_total os < zlen buf
  | Undef => False
  end.

Lemma write_result_cons buf p o os m :
  match o with Moved _ => True | Failed e => e = EINTR end → write_result buf (p + moved_total [o]) os m → write_result buf p (o :: os) m.
Proof.
  intros Ho. unfold write_result. assert (∀ l, p + moved_total [o] + moved_total l = p + moved_total (o :: l)) as E.
  { intros l. destruct o; cbn [moved_total]; lia. }
  destruct m as [[[r out] rest]| |]; [|done|rewrite E; intros [? ?]; split; [by apply quiet_cons|done]].
  intros [(pre & -> & Hq & Hm & ?)|(e & pre & Hi & Hm & ?)]; rewrite E in *.
  - left. exists (o :: pre). split; [done|]. split; [by apply quiet_cons|done].
  - right. exists e, (o :: pre). split; [by apply interrupted_cons|done].
Qed.

Lemma write_loop_ok buf p os :
  0 ≤ p ≤ zlen buf → allowed (zlen buf - p) os →
  write_result buf p os (write_loop buf p (zlen buf - p) (zlen buf) os (take (Z.to_nat p) buf)).
Proof.
  revert p. induction os as [|o os IH]; intros p Hp Ha; cbn [write_loop].
  - destruct (Z.ltb_spec 0 (zlen buf - p)); [split; [apply quiet_nil|cbn; lia]|]. left. exists [].
    split_and!; [done|apply quiet_nil|cbn; lia|done|]. apply take_ge. unfold zlen in *. lia.
  - destruct (Z.ltb_spec 0 (zlen buf - p)) as [Hr|Hr].
    2: { left. exists []. split_and!; [done|apply quiet_nil|cbn; lia|done|]. apply take_ge. unfold zlen in *. lia. }
    destruct o as [n|e]; cbn [allowed] in *.
    + destruct Ha as [Hn Ha]. rewrite take_zslice by lia. apply write_result_cons; [done|]. cbn [moved_total]. rewrite Z.add_0_r.
      replace (zlen buf - p - n) with (zlen buf - (p + n)) in * by lia. apply IH; [lia|done].
    + destruct (Z.eqb_spec e EINTR) as [->|He].
      * apply write_result_cons; [done|]. cbn [moved_total]. rewrite Z.add_0_r. by apply IH.
      * right. exists e, []. split; [split; [done|split; [done|apply quiet_nil]]|]. cbn [moved_total]. rewrite Z.add_0_r.
        split; [right; lia|]. split; [done|]. unfold partial_result. rewrite zlen_take by lia.
        by replace (zlen buf - (zlen buf - p)) with p by lia.
Qed.

(** C35. [fc_safe_write] returns after the call of [write] that moves the last byte, with
    the length, or after the first that fails for another reason than a signal, with the
    number of bytes moved so far, -1 for none; what has gone out is the beginning of the
    buffer of that length. It goes on only while neither has happened. *)
Theorem fc_safe_write_correct buf os :
  allowed (zlen buf) os → os ≠ [] → write_result buf 0 os (fc_safe_write buf (zlen buf) os).
Proof.
  intros Ha Hne. unfold fc_safe_write. pose proof (zlen_nonneg buf). destruct os as [|[n|e] os]; [done|..]; cbn [allowed] in *.
  - destruct Ha as [Hn Ha]. destruct (Z.eqb_spec n (zlen buf)) as [->|Hz].
    + left. exists [Moved (zlen buf)]. split_and!; [done|by apply quiet_cons; [|apply quiet_nil]|cbn; lia|done|].
      rewrite zslice_start. apply take_ge. unfold zlen. lia.
    + rewrite zslice_start. apply write_result_cons; [done|]. cbn [moved_total]. rewrite Z.add_0_r. by apply write_loop_ok.
  - destruct (Z.eqb_spec e EINTR) as [->|He]; cbn [negb].
    + apply write_result_cons; [done|]. pose proof (write_loop_ok buf 0 os) as HL. rewrite Z.sub_0_r in HL. by apply HL.
    + right. exists e, []. split; [split; [done|split; [done|apply quiet_nil]]|]. cbn [moved_total].
      split; [|done]. destruct buf; [by left|right; rewrite zlen_cons; pose proof (zlen_nonneg buf); lia].
Qed.

Lemma fc_safe_write_correct_witness :
  write_result [1; 2; 3] 0 [Moved 1; Failed EINTR; Moved 0; Moved 2] (fc_safe_write [1; 2; 3] 3 [Moved 1; Failed EINTR; Moved 0; Moved 2]) ∧
  write_result [1; 2; 3] 0 [Moved 1; Failed EINVAL; Moved 2] (fc_safe_write [1; 2; 3] 3 [Moved 1; Failed EINVAL; Moved 2]) ∧
  fc_safe_write [1; 2; 3] 3 [Moved 1; Failed EINVAL; Moved 2] = Done (1, [1], [Moved 2]).
Proof.
  split; [|split; [|done]].
  - apply (fc_safe_write_correct [1; 2; 3] [Moved 1; Failed EINTR; Moved 0; Moved 2]); [|done].
    cbn [allowed]. change (zlen [1; 2; 3]) with 3. lia.
  - apply (fc_safe_write_correct [1; 2; 3] [Moved 1; Failed EINVAL; Moved 2]); [|done].
    cbn [allowed]. change (zlen [1; 2; 3]) with 3. lia.
Defined.

(** The calls of [read] give what there is, up to what is asked for, and nothing only at
    the end. *)
Fixpoint honest (ask have : Z) (os : list moved) : Prop :=
  match os with
  | [] => True
  | Failed _ :: os => honest ask have os
  | Moved n :: os => 0 ≤ n ≤ ask ∧ n ≤ have ∧ (n = 0 → have = 0 ∨ ask = 0) ∧ honest (ask - n) (have - n) os
  end.

(** What [n] bytes read leave. *)
Definition after_read (buf data : list Z) (n : Z) (r : list Z * list Z) : Prop :=
  r = (zwrite buf 0 (take (Z.to_nat n) data), drop (Z.to_nat n) data).

(** What is right when [p] bytes have been read before. *)
Definition read_result (count p : Z) (buf data : list Z) (os : list moved) (m : res (Z * list Z * list Z)) : Prop :=
  match m with
  | Done (r, buf', data') =>
      (r = Z.min count (zlen data) ∧ after_read buf data r (buf', data')) ∨
      ∃ e pre rest, let n := p + moved_total pre in
        interrupted e os pre rest ∧ after_read buf data n (buf', data') ∧ r = if 0 <? n then n else -1
  | OutOfFuel => quiet os ∧ p + moved_total os < count ∧ Moved 0 ∉ os
  | Undef => False
  end.

Lemma read_more (buf data : list Z) p n :
  0 ≤ p → 0 ≤ n → p + n ≤ zlen data → p + n ≤ zlen buf →
  zwrite (zwrite buf 0 (take (Z.to_nat p) data)) p (take (Z.to_nat n) (drop (Z.to_nat p) data)) =
    zwrite buf 0 (take (Z.to_nat (p + n)) data) ∧
  drop (Z.to_nat n) (drop (Z.to_nat p) data) = drop (Z.to_nat (p + n)) data.
Proof.
  intros. split; [|rewrite drop_drop; f_equal; lia].
  rewrite <-(take_zslice data p n) by lia. pose proof (zlen_take data p ltac:(lia)) as El.
  rewrite <-(zwrite_app buf 0); [|lia|].
  - by rewrite El.
  - rewrite El, zlen_zslice by lia. lia.
Qed.

Lemma read_result_cons count p buf data o os m :
  match o with Moved n => n ≠ 0 | Failed e => e = EINTR end →
  read_result count (p + moved_total [o]) buf data os m →
  read_result count p buf data (o :: os) m.
Proof.
  intros Ho. unfold read_result. assert (∀ l, p + moved_total [o] + moved_total l = p + moved_total (o :: l)) as E.
  { intros l. destruct o; cbn [moved_total]; lia. }
  assert (match o with Moved _ => True | Failed e => e = EINTR end) as Ho' by by destruct o.
  destruct m as [[[r b] d]| |]; [|done|].
  - intros [?|(e & pre & rest & He & ?)]; [by left|right]. rewrite E in *. exists e, (o :: pre), rest. split; [by apply interrupted_cons|done].
  - rewrite E. intros (Hq & Hm & Hn). split; [by apply quiet_cons|]. split; [done|]. apply not_elem_of_cons. split; [|done].
    destruct o; [by intros [= <-]|done].
Qed.

Lemma read_loop_ok count buf data p os :
  0 ≤ p ≤ count → p ≤ zlen data → count ≤ zlen buf → honest (count - p) (zlen data - p) os →
  read_result count p buf data os
    (read_loop (zwrite buf 0 (take (Z.to_nat p) data)) p (count - p) count (drop (Z.to_nat p) data) os).
Proof.
  revert p. induction os as [|o os IH]; intros p Hp Hd Hb Ha; cbn [read_loop].
  - destruct (Z.ltb_spec 0 (count - p)); [split; [apply quiet_nil|]; split; [cbn; lia|by intros ?%elem_of_nil]|].
    left. assert (p = count) as -> by lia. split; [lia|]. by replace (count - (count - count)) with count by lia.
  - destruct (Z.ltb_spec 0 (count - p)) as [Hr|Hr].
    2: { left. assert (p = count) as -> by lia. split; [lia|]. by replace (count - (count - count)) with count by lia. }
    destruct o as [n|e]; cbn [honest] in *.
    + destruct Ha as (Hn & Hh & Hz & Ha). destruct (Z.eqb_spec n 0) as [->|Hn0].
      { left. replace (count - (count - p)) with p by lia. destruct (Hz eq_refl); [|lia]. split; [lia|done]. }
      destruct (read_more buf data p n) as [-> ->]; [lia..|]. specialize (IH (p + n)).
      replace (count - (p + n)) with (count - p - n) in IH by lia. replace (zlen data - (p + n)) with (zlen data - p - n) in IH by lia.
      apply read_result_cons; [done|]. cbn [moved_total]. rewrite Z.add_0_r. apply IH; [lia..|done].
    + destruct (Z.eqb_spec e EINTR) as [->|He].
      * apply read_result_cons; [done|]. cbn [moved_total]. rewrite Z.add_0_r. by apply IH.
      * right. exists e, [], os. cbn [moved_total]. rewrite Z.add_0_r. split; [split; [done|split; [done|apply quiet_nil]]|]. split; [done|].
        replace (count - (count - p)) with p by lia. done.
Qed.

(** [fc_safe_read] returns as soon as the calls of [read] have given all bytes asked
    for or the end of the file, or one has failed for another reason than a signal; the
    buffer then begins with the bytes that are gone from the file, which are counted. *)
Theorem fc_safe_read_correct count buf data os :
  0 ≤ count ≤ zlen buf → honest count (zlen data) os → os ≠ [] →
  read_result count 0 buf data os (fc_safe_read buf count data os).
Proof.
  intros Hc Ha Hne. unfold fc_safe_read. pose proof (zlen_nonneg data). destruct os as [|[n|e] os]; [done|..]; cbn [honest] in *.
  - destruct Ha as (Hn & Hh & Hz & Ha). destruct (Z.eqb_spec n 0) as [->|Hn0]; cbn [orb].
    { left. destruct (Hz eq_refl); (split; [lia|done]). }
    destruct (Z.eqb_spec n count) as [->|Hnc]; [left; split; [lia|done]|].
    apply read_result_cons; [done|]. cbn [moved_total]. rewrite Z.add_0_r. apply read_loop_ok; [lia..|done].
  - destruct (Z.eqb_spec e EINTR) as [->|He]; cbn [negb].
    + apply read_result_cons; [done|]. pose proof (read_loop_ok count buf data 0 os ltac:(lia) ltac:(lia) ltac:(lia)) as HL.
      rewrite !Z.sub_0_r in HL. change (take (Z.to_nat 0) data) with (@nil Z) in HL. rewrite zwrite_nil in HL. by apply HL.
    + right. exists e, [], os. split; [split; [done|split; [done|apply quiet_nil]]|]. split; [|done].
      unfold after_read. cbn [moved_total]. change (take (Z.to_nat (0 + 0)) data) with (@nil Z). by rewrite zwrite_nil.
Qed.

Lemma fc_safe_read_correct_witness :
  read_result 4 0 [0; 0; 0; 0] [1; 2; 3] [Moved 2; Failed EINTR; Moved 1; Moved 0]
    (fc_safe_read [0; 0; 0; 0] 4 [1; 2; 3] [Moved 2; Failed EINTR; Moved 1; Moved 0]).
Proof.
  apply (fc_safe_read_correct 4 [0; 0; 0; 0] [1; 2; 3]); [|cbn [honest]|done].
  - change (zlen [0; 0; 0; 0]) with 4. lia.
  - change (zlen [1; 2; 3]) with 3. lia.
Defined.

(** * Lines *)

(** A text up to its first newline. *)
Fixpoint line (s : list Z) : list Z :=
  match s with [] => [] | c :: s => if c =? 10 then [10] else c :: line s end.

Lemma line_app a s : 10 ∉ a → line (a ++ s) = a ++ line s.
Proof.
  induction a as [|c a IH]; [done|]. intros [Hc Ha]%not_elem_of_cons. cbn [app line].
  rewrite (proj2 (Z.eqb_neq c 10)) by congruence. by rewrite IH.
Qed.

Lemma line_all a : 10 ∉ a → line a = a.
Proof. intros Ha. rewrite <-(app_nil_r a) at 1. rewrite line_app by done. apply app_nil_r. Qed.

Lemma line_end_ok l m r :
  (10 ∉ m ∧ line_end (length m) (l ++ m ++ r) (zlen l) = Done None) ∨
  ∃ a d, m = a ++ 10 :: d ∧ 10 ∉ a ∧ line_end (length m) (l ++ m ++ r) (zlen l) = Done (Some (zlen l + zlen a)).
Proof.
  revert l. induction m as [|c m IH]; intros l; cbn [line_end length app].
  - left. split; [apply not_elem_of_nil|done].
  - rewrite load_app_mid. cbn [mbind res_bind]. destruct (Z.eqb_spec c 10) as [->|Hc].
    + right. exists [], m. split; [done|]. split; [apply not_elem_of_nil|]. by rewrite Z.add_0_r.
    + specialize (IH (l ++ [c])). rewrite zlen_app, <-app_assoc in IH. change (zlen [c]) with 1 in IH. cbn [app] in IH.
      destruct IH as [[Hm ->]|(a & d & -> & Ha & ->)].
      * left. split; [|done]. apply not_elem_of_cons. split; [congruence|done].
      * right. exists (c :: a), d. split; [done|]. split; [apply not_elem_of_cons; split; [congruence|done]|].
        rewrite zlen_cons. do 2 f_equal. lia.
Qed.

Section lines.
Context (file : list Z) (pos size : Z) (buff : list Z) (lseek_ok : bool).
Context (Hpos : 0 ≤ pos ≤ zlen file) (Hsize : 0 < size ≤ zlen buff).

(** What is left of the file, and the line that fits. *)
Definition unread : list Z := drop (Z.to_nat pos) file.
Definition wanted : list Z := take (Z.to_nat (size - 1)) (line unread).

Definition gets_result (p : Z) (os : list moved) (m : res (option Z * list Z * Z)) : Prop :=
  match m with
  | Done (Some r, b, pos') => r = zlen wanted ∧ pos' = pos + r ∧ zlen b = zlen buff ∧ take (Z.to_nat r) b = wanted
  | Done (None, _, _) => lseek_ok = false ∨ ∃ e, Failed e ∈ os
  | OutOfFuel => p + moved_total os < size - 1 ∧ Moved 0 ∉ os
  | Undef => False
  end.

Lemma zlen_unread : zlen unread = zlen file - pos.
Proof using Hpos. unfold unread. apply zlen_drop. lia. Qed.

Lemma fd_gets_stop p :
  0 ≤ p ≤ size - 1 → p ≤ zlen unread → 10 ∉ take (Z.to_nat p) unread → (p = size - 1 ∨ p = zlen unread) →
  gets_result p [] (Done (Some p, zwrite buff 0 (take (Z.to_nat p) unread), pos + p)).
Proof using Hsize.
  intros Hp Hu Hn Hor. pose proof (zlen_take unread p ltac:(lia)) as El.
  assert (wanted = take (Z.to_nat p) unread) as Ew.
  { unfold wanted. rewrite <-(take_drop (Z.to_nat p) unread) at 1. rewrite line_app by done. destruct Hor as [->| ->].
    - apply take_app_length'. unfold zlen in El. lia.
    - rewrite drop_ge by (unfold zlen; lia). cbn [line]. rewrite app_nil_r. apply take_ge. unfold zlen in *. lia. }
  unfold gets_result. rewrite Ew, El. split_and!; [done|done|rewrite zlen_zwrite; lia|].
  rewrite zwrite_zero_app. apply take_app_length'. unfold zlen in El. lia.
Qed.

Lemma fd_gets_loop_ok fuel p once os :
  0 ≤ p ≤ size - 1 → p ≤ zlen unread → size - 1 - p < Z.of_nat fuel → 10 ∉ take (Z.to_nat p) unread →
  honest (size - 1 - p) (zlen unread - p) os →
  gets_result p os (fd_gets_loop fuel file (pos + p) lseek_ok (zwrite buff 0 (take (Z.to_nat p) unread)) p (size - 1 - p) once os).
Proof using Hpos Hsize.
  revert p once os. induction fuel as [|fuel IH]; intros p once os Hp Hu Hf Hn Ha; [lia|]. cbn [fd_gets_loop].
  destruct (Z.ltb_spec 0 (size - 1 - p)) as [Hr|Hr].
  2: { apply (fd_gets_stop p Hp Hu Hn). left. lia. }
  destruct os as [|[n|e] os]; cbn [honest] in *.
  - cbn. split; [lia|apply not_elem_of_nil].
  - destruct Ha as (Hn' & Hh & Hz & Ha). destruct (Z.eqb_spec n 0) as [->|Hn0].
    { apply (fd_gets_stop p Hp Hu Hn). right. destruct (Hz eq_refl); lia. }
    assert (zslice file (pos + p) n = take (Z.to_nat n) (drop (Z.to_nat p) unread)) as ->.
    { unfold zslice, unread. rewrite drop_drop. do 2 f_equal. lia. }
    destruct (read_more buff unread p n) as [-> _]; [lia..|].
    pose proof (zlen_take unread p ltac:(lia)) as El. rewrite <-(take_zslice unread p n) by lia.
    set (m := zslice unread p n) in *. assert (zlen m = n) as Em by (apply zlen_zslice; lia).
    rewrite zwrite_zero_app, <-app_assoc. set (tail := drop _ buff).
    replace (Z.to_nat n) with (length m) by (unfold zlen in Em; lia).
    destruct (line_end_ok (take (Z.to_nat p) unread) m tail) as [[Hm HE]|(a & d & Emd & Hna & HE)]; rewrite El in HE; rewrite HE; cbn [mbind res_bind].
    + rewrite app_assoc. unfold tail. rewrite <-zwrite_zero_app. unfold m. rewrite take_zslice by lia.
      replace (pos + p + n) with (pos + (p + n)) by lia. replace (size - 1 - p - n) with (size - 1 - (p + n)) by lia.
      specialize (IH (p + n) (if size - 1 - p <? once then size - 1 - p else once) os ltac:(lia) ltac:(lia) ltac:(lia)).
      replace (size - 1 - (p + n)) with (size - 1 - p - n) in * by lia. replace (zlen unread - (p + n)) with (zlen unread - p - n) in IH by lia.
      rewrite <-(take_zslice unread p n) in IH at 1 by lia. specialize (IH ltac:(intros [?|?]%elem_of_app; done) Ha).
      destruct (fd_gets_loop _ _ _ _ _ _ _ _) as [[[[r|] b] q]| |]; cbn [gets_result] in *; [done| |done| ].
      * destruct IH as [?|[e He]]; [by left|right]. exists e. by apply list_elem_of_further.
      * destruct IH as [Hlt Hni]. cbn [moved_total]. split; [lia|]. apply not_elem_of_cons. split; [by intros [= <-]|done].
    + destruct lseek_ok eqn:Ek; [|left; exact Ek]. cbn [mret res_ret gets_result].
      assert (zlen a + 1 ≤ n) as Hla by (rewrite Emd, zlen_app, zlen_cons in Em; pose proof (zlen_nonneg d); lia).
      assert (line unread = (take (Z.to_nat p) unread ++ a) ++ [10]) as El'.
      { rewrite <-(take_drop (Z.to_nat (p + n)) unread) at 1. rewrite <-(take_zslice unread p n) by lia. fold m. rewrite Emd.
        rewrite <-!app_assoc. cbn [app]. rewrite app_assoc, line_app; [by rewrite <-app_assoc|]. by intros [?|?]%elem_of_app. }
      assert (wanted = (take (Z.to_nat p) unread ++ a) ++ [10]) as Ew.
      { unfold wanted. rewrite El'. pose proof (zlen_nonneg a). apply take_ge.
        rewrite !length_app. unfold zlen in *. cbn [length]. lia. }
      assert (zlen wanted = p + zlen a + 1) as Elw by (rewrite Ew, !zlen_app, El; change (zlen [10]) with 1; lia).
      split_and!; [done|lia| |].
      * unfold tail. clear - El Em Hp Hn' Hsize. unfold zlen in *. rewrite !length_app, length_drop. rewrite ?length_app. lia.
      * rewrite Ew. replace (take (Z.to_nat p) unread ++ m ++ tail) with (((take (Z.to_nat p) unread ++ a) ++ [10]) ++ (d ++ tail))
          by (rewrite Emd, <-!app_assoc; done).
        apply take_app_length'. rewrite <-Ew. unfold zlen in Elw. unfold zlen. lia.
  - right. exists e. apply list_elem_of_here.
Qed.
End lines.

(** However the calls of [read] cut the file, and whatever number of bytes is asked
    for at once, [fd_gets] gives the next line, or as much of it as the buffer holds, and
    leaves the file behind just that. *)
Theorem fd_gets_correct file pos size buff lseek_ok once os :
  0 ≤ pos ≤ zlen file → 0 < size ≤ zlen buff → honest (size - 1) (zlen file - pos) os →
  match fd_gets file pos lseek_ok buff size once os with
  | Done (r, b, pos') =>
      (r = zlen (wanted file pos size) ∧ pos' = pos + r ∧ take (Z.to_nat r) b = wanted file pos size ∧ zget b r = Some 0) ∨
      r = -1 ∧ (lseek_ok = false ∨ ∃ e, Failed e ∈ os)
  | OutOfFuel => moved_total os < size - 1 ∧ Moved 0 ∉ os
  | Undef => False
  end.
Proof.
  intros Hpos Hsize Ha. unfold fd_gets. set (o := if once <=? 0 then 1 else once). clearbody o.
  pose proof (fd_gets_loop_ok file pos size buff lseek_ok Hpos Hsize (S (Z.to_nat size)) 0 o os) as HL.
  rewrite zlen_unread, !Z.sub_0_r, Z.add_0_r in HL by done. change (take (Z.to_nat 0) (unread file pos)) with (@nil Z) in HL.
  rewrite zwrite_nil in HL. specialize (HL ltac:(lia) ltac:(lia) ltac:(lia) (not_elem_of_nil _) Ha).
  destruct (fd_gets_loop _ _ _ _ _ _ _ _ _) as [[[[r|] b] q]| |]; cbn [gets_result mbind res_bind] in *; [| |done|lia || done].
  - destruct HL as (-> & -> & Hl & Ht). pose proof (zlen_nonneg (wanted file pos size)) as Hw.
    assert (zlen (wanted file pos size) ≤ size - 1) as Hle by (unfold wanted, zlen; rewrite length_take; lia).
    rewrite store_ok by lia. cbn [mbind res_bind]. left. split_and!; [done|done| |apply zget_zupd_eq; lia].
    unfold zupd. by rewrite take_insert_ge by lia.
  - by right.
Qed.

Lemma fd_gets_correct_witness :
  match fd_gets [97; 98; 10; 99] 0 true (replicate 8 1) 8 2 [Moved 2; Moved 2] with
  | Done (r, b, pos') =>
      (r = zlen (wanted [97; 98; 10; 99] 0 8) ∧ pos' = 0 + r ∧ take (Z.to_nat r) b = wanted [97; 98; 10; 99] 0 8 ∧ zget b r = Some 0) ∨
      r = -1 ∧ (true = false ∨ ∃ e, Failed e ∈ [Moved 2; Moved 2])
  | OutOfFuel => moved_total [Moved 2; Moved 2] < 8 - 1 ∧ Moved 0 ∉ [Moved 2; Moved 2]
  | Undef => False
  end.
Proof.
  apply (fd_gets_correct [97; 98; 10; 99] 0 8 (replicate 8 1) true 2 [Moved 2; Moved 2]).
  - change (zlen [97; 98; 10; 99]) with 4. lia.
  - change (zlen (replicate 8 1)) with 8. lia.
  - change (zlen [97; 98; 10; 99]) with 4. cbn [honest]. lia.
Defined.

(** * Replacing a file *)

Lemma tmp_name_short filename :
  zlen filename + 4 < MAX_PATH_SIZE → tmp_name filename = filename ++ [46; 116; 109; 112].
Proof. intros Hl. unfold tmp_name. apply take_ge. rewrite length_app. unfold zlen in Hl. cbn. unfold MAX_PATH_SIZE in *. lia. Qed.

Lemma tmp_name_differs filename : zlen filename + 4 < MAX_PATH_SIZE → tmp_name filename ≠ filename.
Proof.
  intros Hl. rewrite tmp_name_short by done. intros E%(f_equal length). rewrite length_app in E. cbn in E. lia.
Qed.

Lemma writeToFile_other fs filename buff n c other :
  other ≠ filename → (writeToFile fs filename buff n c).2 !! other = fs !! other.
Proof.
  intros Hne. unfold writeToFile. repeat (case_match; cbn [snd]; try done); by rewrite !lookup_insert_ne by congruence.
Qed.

Lemma writeToFile_ok fs filename buff c r fs' :
  writeToFile fs filename buff (zlen buff) c = (r, fs') → r = 0 → fs' !! filename = Some buff.
Proof.
  assert (∀ e d, d ≠ 0 → errno_or e d ≠ 0) as He by (intros e d Hd; unfold errno_or; case_if; lia_bool).
  unfold writeToFile. destruct (open_errno c); [intros [= <- <-] E; by apply He in E|].
  destruct (write_moves c) as [m|e]; [|intros [= <- <-] E; by apply He in E].
  destruct (Z.eqb_spec m (zlen buff)) as [->|]; cbn [negb]; [|intros [= <- <-] E; by apply He in E].
  destruct (fsync_errno c); [intros [= <- <-] E; by apply He in E|]. intros [= <- <-] _.
  rewrite lookup_insert_eq. f_equal. apply take_ge. unfold zlen. lia.
Qed.

(** C13. Whatever fails, [safeWriteToFile] leaves the file as it was unless it returns 0,
    and then the file has the new content in full; no other file but the temporary one is
    touched. The name has to leave room for the suffix in the path buffer. *)
Theorem safeWriteToFile_atomic fs filename buff c :
  zlen filename + 4 < MAX_PATH_SIZE →
  let '(r, fs') := safeWriteToFile fs filename buff (zlen buff) c in
  fs' !! filename = (if decide (r = 0) then Some buff else fs !! filename) ∧
  ∀ other, other ≠ filename → other ≠ tmp_name filename → fs' !! other = fs !! other.
Proof.
  intros Hl. pose proof (tmp_name_differs filename Hl) as Hne. unfold safeWriteToFile.
  set (t := tmp_name filename) in *. clearbody t.
  pose proof (writeToFile_other fs t buff (zlen buff) c) as Hother.
  pose proof (writeToFile_ok fs t buff c) as Hok.
  destruct (writeToFile fs t buff (zlen buff) c) as [r fs1]. cbn [snd] in Hother.
  destruct (Z.eqb_spec r 0) as [->|Hr]; cbn [negb].
  - assert (fs1 !! t = Some buff) as Ht.
    { by apply (Hok 0 fs1). }
    destruct (rename_errno c) as [e|].
    + assert (errno_or e EIO ≠ 0) by (unfold errno_or, EIO; case_if; lia_bool). rewrite decide_False by done.
      split; [by apply Hother|]. intros other _ Ho. by apply Hother.
    + rewrite decide_True by done. unfold rename. rewrite Ht, decide_False by done.
      split; [apply lookup_insert_eq|]. intros other Ho Ho'. rewrite lookup_insert_ne, lookup_delete_ne by congruence. by apply Hother.
  - rewrite decide_False by done. split; [by apply Hother|]. intros other _ Ho. by apply Hother.
Qed.

Lemma safeWriteToFile_atomic_witness :
  let c := {| open_errno := None; write_moves := Moved 1; left_errno := 28; fsync_errno := None; rename_errno := None |} in
  let '(r, fs') := safeWriteToFile {[ [97] := [1] ]} [97] [2; 3] 2 c in
  fs' !! [97] = (if decide (r = 0) then Some [2; 3] else ({[ [97] := [1] ]} : files) !! [97]) ∧
  ∀ other, other ≠ [97] → other ≠ tmp_name [97] → fs' !! other = ({[ [97] := [1] ]} : files) !! other.
Proof. intros c. apply (safeWriteToFile_atomic {[ [97] := [1] ]} [97] [2; 3] c). done. Defined.

(** With a name that fills the path buffer the temporary file is the file itself: when
    writing fails the old content is lost. *)
Theorem long_name_not_atomic fs filename buff e :
  zlen filename = MAX_PATH_SIZE - 1 →
  let c := {| open_errno := None; write_moves := Failed e; left_errno := 0; fsync_errno := None; rename_errno := None |} in
  let '(r, fs') := safeWriteToFile fs filename buff (zlen buff) c in r ≠ 0 ∧ fs' !! filename = Some [].
Proof.
  intros Hl c. unfold safeWriteToFile. assert (tmp_name filename = filename) as ->.
  { unfold tmp_name. apply take_app_length'. unfold zlen in Hl. lia. }
  assert (errno_or e EIO ≠ 0) as He by (unfold errno_or, EIO; case_if; lia_bool).
  unfold writeToFile. cbn [open_errno write_moves c]. rewrite (proj2 (Z.eqb_neq _ _) He). cbn [negb].
  split; [done|apply lookup_insert_eq].
Qed.

(** The whole content of a file, ended by 0, and its size, when no call fails. *)
Lemma getFileContent_ok garbage content c :
  stat_errno c = None → read_open_errno c = None → seek_end_errno c = None → malloc_ok c = true → seek_set_errno c = None →
  read_moves c = Moved (zlen content) →
  getFileContent garbage content c = Done (0, Some (content ++ [0]), zlen content, 1).
Proof.
  intros H1 H2 H3 H4 H5 H6. unfold getFileContent. rewrite H1, H2, H3, H4, H5, H6, Z.eqb_refl. cbn [negb].
  pose proof (zlen_nonneg content). rewrite take_ge by (unfold zlen; lia).
  assert (zlen (block garbage (zlen content + 1)) = zlen content + 1) as Eb by (unfold block; rewrite zlen_fmap, zlen_seqZ; lia).
  assert (store (zwrite (block garbage (zlen content + 1)) 0 content) (zlen content) 0 = Done (content ++ [0])) as ->; [|done].
  etransitivity; [apply (store_zwrite (block garbage (zlen content + 1)) 0 content 0); lia|].
  f_equal. rewrite zwrite_zero_app, drop_ge by (rewrite zlen_app; change (zlen [0]) with 1; unfold zlen in *; lia). by rewrite app_nil_r.
Qed.

(** What [safeWriteToFile] has written with success, [getFileContent] reads back. *)
Theorem file_roundtrip garbage fs filename buff c fs' cr content :
  zlen filename + 4 < MAX_PATH_SIZE → safeWriteToFile fs filename buff (zlen buff) c = (0, fs') →
  fs' !! filename = Some content →
  stat_errno cr = None → read_open_errno cr = None → seek_end_errno cr = None → malloc_ok cr = true → seek_set_errno cr = None →
  read_moves cr = Moved (zlen content) →
  getFileContent garbage content cr = Done (0, Some (buff ++ [0]), zlen buff, 1).
Proof.
  intros Hl Hw Hc. intros. pose proof (writeToFile_ok fs (tmp_name filename) buff c) as Hok.
  assert (content = buff) as ->; [|by apply getFileContent_ok].
  revert Hw. unfold safeWriteToFile. pose proof (tmp_name_differs filename Hl) as Hne. set (t := tmp_name filename) in *. clearbody t.
  destruct (writeToFile fs t buff (zlen buff) c) as [r fs1].
  destruct (Z.eqb_spec r 0) as [->|Hr]; cbn [negb]; [|by intros [= -> _]].
  assert (fs1 !! t = Some buff) as Ht.
  { by apply (Hok 0 fs1). }
  destruct (rename_errno c) as [e|].
  - assert (errno_or e EIO ≠ 0) by (unfold errno_or, EIO; case_if; lia_bool). by intros [= ? _].
  - intros [= <-]. unfold rename in Hc. rewrite Ht, decide_False, lookup_insert_eq in Hc by done. congruence.
Qed.

Lemma file_roundtrip_witness :
  let c := {| open_errno := None; write_moves := Moved 2; left_errno := 0; fsync_errno := None; rename_errno := None |} in
  let cr := {| stat_errno := None; read_open_errno := None; seek_end_errno := None; malloc_ok := true; seek_set_errno := None;
    read_moves := Moved 2; read_left_errno := 0 |} in
  (safeWriteToFile ∅ [97] [5; 6] 2 c).1 = 0 ∧ getFileContent (λ i, i) [5; 6] cr = Done (0, Some [5; 6; 0], 2, 1).
Proof.
  intros c cr. split; [reflexivity|].
  apply (file_roundtrip (λ i, i) ∅ [97] [5; 6] c (safeWriteToFile ∅ [97] [5; 6] 2 c).2 cr [5; 6]); done.
Defined.

Lemma long_name_not_atomic_witness :
  let c := {| open_errno := None; write_moves := Failed 28; left_errno := 0; fsync_errno := None; rename_errno := None |} in
  let '(r, fs') := safeWriteToFile ∅ (replicate 255 97) [5; 6] 2 c in r ≠ 0 ∧ fs' !! replicate 255 97 = Some [].
Proof. apply (long_name_not_atomic ∅ (replicate 255 97) [5; 6] 28). done. Defined.
