(* ===== verification/FastBuffer.v ===== *)
(** The growing text buffer of libs/fastcommon/src/fast_buffer.c and fast_buffer.h.

    The block the buffer points to is the list of its cells; the outcomes of [malloc] are
    given one by one. Formatting belongs to the C library: [fast_buffer_append] gets what
    [vsnprintf] makes of the format, a text or an error. *)
From S2P Require Import Prelude CString SharedIo.
From Stdlib Require Import DecimalFacts DecimalZ DecimalPos.

(** * Code *)

Record FastBuffer := mkFastBuffer { data : option (list Z); alloc_size : Z; length : Z }.

Section buffer.
Context (garbage : Z → Z).

Definition fast_buffer_init_ex (init_capacity : Z) (malloc_ok : bool) : res (Z * FastBuffer) :=
  let alloc_size := if 0 <? init_capacity then init_capacity else 256 in
  if negb malloc_ok then mret (ENOMEM, mkFastBuffer None alloc_size 0) else
  d ← store (block garbage alloc_size) 0 0;
  mret (0, mkFastBuffer (Some d) alloc_size 0).

Definition fast_buffer_init (malloc_ok : bool) : res (Z * FastBuffer) := fast_buffer_init_ex 0 malloc_ok.

Definition fast_buffer_reset (b : FastBuffer) : res FastBuffer :=
  match data b with
  | None => Undef
  | Some d => d ← store d 0 0; mret (mkFastBuffer (Some d) (alloc_size b) 0)
  end.

(** [alloc_size] stays as it was. *)
Definition fast_buffer_destroy (b : FastBuffer) : FastBuffer :=
  match data b with None => b | Some _ => mkFastBuffer None (alloc_size b) 0 end.

(** [while (alloc_size <= buffer->length + inc_len) alloc_size *= 2] *)
Fixpoint double_loop (fuel : nat) (alloc_size need : Z) : res Z :=
  match fuel with
  | O => OutOfFuel
  | S fuel => if alloc_size <=? need then n ← cint (alloc_size * 2); double_loop fuel n need else mret alloc_size
  end.

(** The first [n] cells of one block copied to another. *)
Definition copy_cells (from to : list Z) (n : Z) : res (list Z) :=
  if (0 <=? n) && (n <=? zlen from) && (n <=? zlen to) then mret (zwrite to 0 (take (Z.to_nat n) from)) else Undef.

(** The result, the buffer, and whether the old block has been given back. *)
Definition fast_buffer_check (b : FastBuffer) (inc_len : Z) (malloc_ok : bool) : res (Z * FastBuffer * bool) :=
  need ← cint (length b + inc_len);
  if need <? alloc_size b then mret (0, b, false) else
  a ← cint (alloc_size b * 2);
  a ← double_loop 32 a need;
  if negb malloc_ok then mret (ENOMEM, b, false) else
  let buff := block garbage a in
  buff ← (if 0 <? length b then match data b with None => Undef | Some d => copy_cells d buff (length b) end else mret buff);
  mret (0, mkFastBuffer (Some buff) a (length b), true).

(** [memcpy], or the formatting functions, at the end of the text. *)
Definition put_text (b : FastBuffer) (text : list Z) : res (list Z) :=
  match data b with
  | None => Undef
  | Some d => if (0 <=? length b) && (length b + zlen text <=? zlen d) then mret (zwrite d (length b) text) else Undef
  end.

(** [inside] tells that the source lies in the buffer's own block. *)
Definition fast_buffer_append_buff (b : FastBuffer) (inside : bool) (text : list Z) (len : Z) (malloc_ok : bool)
    : res (Z * FastBuffer) :=
  if len <=? 0 then mret (0, b) else
  '(result, b, moved) ← fast_buffer_check b len malloc_ok;
  if negb (result =? 0) then mret (result, b) else
  if inside && moved then Undef else
  if zlen text <? len then Undef else
  d ← put_text b (take (Z.to_nat len) text);
  let n := length b + len in
  d ← store d n 0;
  mret (0, mkFastBuffer (Some d) (alloc_size b) n).

Definition fast_buffer_append_string (b : FastBuffer) (str : list Z) (malloc_ok : bool) : res (Z * FastBuffer) :=
  fast_buffer_append_buff b false (str ++ [0]) (zlen str) malloc_ok.

Definition fast_buffer_append_buffer (b : FastBuffer) (src : FastBuffer) (same : bool) (malloc_ok : bool) : res (Z * FastBuffer) :=
  match data src with
  | None => if 0 <? length src then Undef else mret (0, b)
  | Some d => fast_buffer_append_buff b same d (length src) malloc_ok
  end.

Definition fast_buffer_append_int (b : FastBuffer) (n : Z) (malloc_ok : bool) : res (Z * FastBuffer) :=
  '(result, b, _) ← fast_buffer_check b 16 malloc_ok;
  if negb (result =? 0) then mret (result, b) else
  d ← put_text b (decimal n ++ [0]);
  mret (0, mkFastBuffer (Some d) (alloc_size b) (length b + zlen (decimal n))).

Definition fast_buffer_append_int64 (b : FastBuffer) (n : Z) (malloc_ok : bool) : res (Z * FastBuffer) :=
  '(result, b, _) ← fast_buffer_check b 32 malloc_ok;
  if negb (result =? 0) then mret (result, b) else
  d ← put_text b (decimal n ++ [0]);
  mret (0, mkFastBuffer (Some d) (alloc_size b) (length b + zlen (decimal n))).

(** What [vsnprintf] makes of a format and its arguments: a text, or a negative
    result after it has written some cells. *)
Inductive formatted := Text (text : list Z) | FormatError (n : Z) (cells : list Z).

Definition format_len (f : formatted) : Z := match f with Text text => zlen text | FormatError n _ => n end.

(** It writes what fits and a terminator; in case of an error what it wrote is
    within its bounds. *)
Definition put_formatted (b : FastBuffer) (f : formatted) : res (list Z) :=
  let size := alloc_size b - length b in
  if size <=? 0 then of_opt (data b) else
  match f with
  | Text text => put_text b (take (Z.to_nat (size - 1)) text ++ [0])
  | FormatError _ cells => put_text b (take (Z.to_nat size) cells)
  end.

Definition fast_buffer_append (b : FastBuffer) (f : formatted) (malloc_ok malloc_ok2 : bool) : res (Z * FastBuffer) :=
  '(result, b, _) ← fast_buffer_check b 64 malloc_ok;
  if negb (result =? 0) then mret (result, b) else
  let len := format_len f in
  d ← put_formatted b f;
  let b := mkFastBuffer (Some d) (alloc_size b) (length b) in
  if len <? alloc_size b - length b then mret (result, mkFastBuffer (data b) (alloc_size b) (length b + len)) else
  '(result, b, _) ← fast_buffer_check b len malloc_ok2;
  if result =? 0 then
    d ← put_formatted b f;
    mret (result, mkFastBuffer (Some d) (alloc_size b) (length b + format_len f))
  else
    match data b with
    | None => Undef
    | Some d => d ← store d (length b) 0; mret (result, mkFastBuffer (Some d) (alloc_size b) (length b))
    end.

(** [stat] gives an errno or whether the file is regular; the size is that of its
    content, and is passed on as an int. *)
Definition fast_buffer_append_file (b : FastBuffer) (stat : option Z) (regular : bool) (content : list Z) (c : read_calls)
    (malloc_ok : bool) : res (Z * FastBuffer) :=
  match stat with
  | Some e => mret (errno_or e ENOENT, b)
  | None =>
      if negb regular then mret (EINVAL, b) else
      let file_size := zlen content + 1 in
      '(result, b, _) ← fast_buffer_check b (sext 32 file_size) malloc_ok;
      if negb (result =? 0) then mret (result, b) else
      match data b with
      | None => Undef
      | Some d =>
          '(result, tail, size) ← getFileContentEx content c (drop (Z.to_nat (length b)) d) 0 file_size;
          let d := take (Z.to_nat (length b)) d ++ tail in
          if negb (result =? 0) then mret (result, mkFastBuffer (Some d) (alloc_size b) (length b)) else
          n ← cint (length b + size);
          mret (0, mkFastBuffer (Some d) (alloc_size b) n)
      end
  end.
End buffer.

(** * The length of numbers *)

Lemma number_pos ds : Forall (λ d, 0 ≤ d ≤ 9) ds → 0 ≤ number 10 ds.
Proof.
  induction ds as [|d ds IH] using rev_ind; [done|]. intros [Hds [Hd _]%Forall_cons]%Forall_app.
  rewrite number_app. specialize (IH Hds). change (zlen [d]) with 1. change (number 10 [d]) with d. lia.
Qed.

Lemma number_lower d ds : 1 ≤ d → Forall (λ d, 0 ≤ d ≤ 9) ds → 10 ^ zlen ds ≤ number 10 (d :: ds).
Proof.
  intros Hd Hds. change (d :: ds) with ([d] ++ ds). rewrite number_app. change (number 10 [d]) with d.
  pose proof (number_pos ds Hds). assert (0 < 10 ^ zlen ds) by (apply Z.pow_pos_nonneg; [lia|apply zlen_nonneg]). nia.
Qed.

Lemma nzhead_head u : match uint_digits (Decimal.nzhead u) with [] => True | d :: _ => 1 ≤ d end.
Proof. induction u; cbn [Decimal.nzhead uint_digits]; done || lia. Qed.

Lemma normal_digits p : uint_digits (Pos.to_uint p) = uint_digits (Decimal.nzhead (Pos.to_uint p)).
Proof.
  pose proof (DecimalPos.Unsigned.to_of (Pos.to_uint p)) as E. rewrite DecimalPos.Unsigned.of_to in E. cbn [N.to_uint] in E.
  rewrite E at 1. unfold Decimal.unorm. destruct (Decimal.nzhead (Pos.to_uint p)) eqn:Ez; try done. exfalso.
  unfold Decimal.unorm in E. rewrite Ez in E. pose proof (DecimalPos.Unsigned.of_to p) as Ep. rewrite E in Ep. done.
Qed.

Lemma zlen_decimal n k : 0 < k → Z.abs n < 10 ^ k → zlen (decimal n) ≤ k + 1.
Proof.
  intros Hk Hn. rewrite decimal_split, zlen_app.
  assert (zlen (decimal_sign n) ≤ 1) as Hs by (unfold decimal_sign; case_if; [change (zlen [45]) with 1|change (zlen (@nil Z)) with 0]; lia).
  enough (zlen (decimal_digits n) ≤ k) by lia. destruct (decide (n = 0)) as [->|Hz]; [change (zlen (decimal_digits 0)) with 1; lia|].
  pose proof (decimal_abs n) as Ha. rewrite decimal_number, zlen_fmap in *. rewrite take_digits_10 in Ha by apply uint_digits_range.
  assert (∃ p, match Z.to_int n with Decimal.Pos u | Decimal.Neg u => u end = Pos.to_uint p) as [p Ep] by (destruct n as [|p|p]; [done|by exists p..]).
  rewrite Ep in *. rewrite normal_digits in *. pose proof (nzhead_head (Pos.to_uint p)) as Hh.
  pose proof (uint_digits_range (Decimal.nzhead (Pos.to_uint p))) as Hr. destruct (uint_digits _) as [|d ds]; [change (zlen (@nil Z)) with 0; lia|].
  apply Forall_cons in Hr as [_ Hr]. pose proof (number_lower d ds Hh Hr) as Hlow. rewrite Ha in Hlow. rewrite zlen_cons.
  pose proof (zlen_nonneg ds). destruct (Z_lt_le_dec (zlen ds) k); [lia|].
  assert (10 ^ k ≤ 10 ^ zlen ds) by (apply Z.pow_le_mono_r; lia). lia.
Qed.

(** * Buffers and their texts *)

(** The text stands at the beginning of the block; and it is ended by 0. *)
Definition begins (b : FastBuffer) (t : list Z) : Prop :=
  ∃ r, data b = Some (t ++ r) ∧ zlen (t ++ r) = alloc_size b ∧ length b = zlen t ∧ 0 < alloc_size b ≤ INT_MAX.

Definition holds (b : FastBuffer) (t : list Z) : Prop :=
  ∃ r, data b = Some (t ++ 0 :: r) ∧ zlen (t ++ 0 :: r) = alloc_size b ∧ length b = zlen t ∧ 0 < alloc_size b ≤ INT_MAX.

Lemma holds_begins b t : holds b t → begins b t.
Proof. intros (r & ?). by exists (0 :: r). Qed.

Lemma double_loop_ok fuel a need :
  0 < a ≤ INT_MAX → need < 2 ^ 30 → need < a * 2 ^ Z.of_nat fuel →
  returns (double_loop (S fuel) a need) (λ a', need < a' ≤ INT_MAX).
Proof.
  revert a. induction fuel as [|fuel IH]; intros a Ha Hn Hf.
  - cbn [double_loop]. destruct (Z.leb_spec a need); [lia|]. cbn. lia.
  - change (double_loop (S (S fuel)) a need) with (if a <=? need then n ← cint (a * 2); double_loop (S fuel) n need else mret a).
    destruct (Z.leb_spec a need); [|cbn; lia]. rewrite cint_ok by int_lia. cbn [mbind res_bind]. apply IH; [int_lia|done|].
    rewrite Nat2Z.inj_succ, Z.pow_succ_r in Hf by lia. lia.
Qed.

Lemma put_text_ok b t x :
  begins b t → zlen t + zlen x ≤ alloc_size b →
  ∃ r, put_text b x = Done (t ++ x ++ r) ∧ zlen (t ++ x ++ r) = alloc_size b.
Proof.
  intros (r & Hd & Hl & Hlen & Ha) Hx. unfold put_text. rewrite Hd, Hlen, Hl. pose proof (zlen_nonneg t).
  case_if; [|lia_bool]. eexists. unfold mret, res_ret.
  assert (zwrite (t ++ r) (zlen t) x = t ++ x ++ drop (Z.to_nat (zlen t + zlen x)) (t ++ r)) as ->.
  { unfold zwrite. rewrite take_app_length' by (unfold zlen; lia). done. }
  split; [done|]. rewrite !zlen_app. rewrite zlen_drop by (rewrite Hl; pose proof (zlen_nonneg x); lia). rewrite Hl. lia.
Qed.

(** A text that is printed behind the text there is. *)
Lemma printed b t x :
  begins b t → zlen t + zlen x < alloc_size b →
  ∃ d, put_text b (x ++ [0]) = Done d ∧ holds (mkFastBuffer (Some d) (alloc_size b) (length b + zlen x)) (t ++ x).
Proof.
  intros Hb Hx. destruct (put_text_ok b t (x ++ [0]) Hb) as (rest & -> & Hrest); [rewrite zlen_app; change (zlen [0]) with 1; lia|].
  destruct Hb as (r0 & _ & _ & Hlen & Ha). eexists. split; [done|]. exists rest. cbn [data alloc_size length].
  rewrite <-app_assoc in Hrest. cbn [app] in Hrest. rewrite Hlen.
  split_and!; [by rewrite <-!app_assoc|by rewrite <-app_assoc|by rewrite zlen_app|lia..].
Qed.

Lemma put_formatted_ok b t text :
  begins b t → zlen t < alloc_size b →
  let x := take (Z.to_nat (alloc_size b - length b - 1)) text in
  zlen x ≤ alloc_size b - length b - 1 ∧
  ∃ d, put_formatted b (Text text) = Done d ∧ holds (mkFastBuffer (Some d) (alloc_size b) (length b + zlen x)) (t ++ x).
Proof.
  intros Hb Ht x. pose proof Hb as (r & _ & _ & Hlen & Ha).
  assert (zlen x ≤ alloc_size b - length b - 1) as Hx by (subst x; unfold zlen; rewrite length_take; lia).
  split; [done|]. unfold put_formatted. cbv zeta. rewrite (proj2 (Z.leb_gt _ _)) by lia. apply printed; [done|lia].
Qed.

Section proofs.
Context (garbage : Z → Z).

Lemma zlen_block n : 0 ≤ n → zlen (block garbage n) = n.
Proof using. intros. unfold block. by rewrite zlen_fmap, zlen_seqZ. Qed.

(** After a successful check there is room for [inc_len] characters and a terminator. *)
Lemma fast_buffer_check_ok b t inc_len m :
  begins b t → 0 ≤ inc_len → zlen t + inc_len < 2 ^ 30 →
  returns (fast_buffer_check garbage b inc_len m) (λ '(r, b', _),
    (r = 0 ∧ begins b' t ∧ zlen t + inc_len < alloc_size b' ∧ alloc_size b ≤ alloc_size b' ∧
      (zlen t + inc_len < alloc_size b → alloc_size b' = alloc_size b)) ∨
    (r = ENOMEM ∧ m = false ∧ alloc_size b ≤ zlen t + inc_len ∧ b' = b)).
Proof using.
  intros Hb Hi Hn. pose proof Hb as (r & Hd & Hl & Hlen & Ha). unfold fast_buffer_check. pose proof (zlen_nonneg t).
  rewrite Hlen. rewrite (cint_ok (zlen t + inc_len)) by int_lia. cbn [mbind res_bind].
  destruct (Z.ltb_spec (zlen t + inc_len) (alloc_size b)); [cbn; left; by split_and!|].
  rewrite cint_ok by int_lia. cbn [mbind res_bind]. eapply returns_bind, returns_mono; [apply (double_loop_ok 31)|].
  - int_lia.
  - done.
  - change (Z.of_nat 31) with 31. change (2 ^ 31) with 2147483648. lia.
  - intros a Ha'. cbn beta in Ha'. destruct m; cbn [negb]; [|cbn; right; by split_and!].
    assert (zlen (block garbage a) = a) as Eb by (apply zlen_block; lia).
    assert ((if 0 <? zlen t then match data b with None => Undef | Some d => copy_cells d (block garbage a) (zlen t) end else mret (block garbage a)) =
      Done (zwrite (block garbage a) 0 t)) as ->.
    { destruct (Z.ltb_spec 0 (zlen t)).
      - rewrite Hd. unfold copy_cells. rewrite zlen_app, Eb. pose proof (zlen_nonneg r).
        rewrite !(proj2 (Z.leb_le _ _)) by lia. cbn [andb]. unfold mret, res_ret. do 2 f_equal. apply take_app_length'. unfold zlen. lia.
      - assert (t = []) as -> by (destruct t; [done|rewrite zlen_cons in *; pose proof (zlen_nonneg t); lia]). by rewrite zwrite_nil. }
    cbn [mbind res_bind]. cbn. left. split; [done|]. split; [|split_and!; lia]. unfold begins. cbn [data alloc_size length].
    rewrite zwrite_zero_app. eexists. split; [done|]. split_and!; [|done|lia|int_lia].
    rewrite <-zwrite_zero_app, zlen_zwrite; lia.
Qed.

(** A call that appends [x] and asks for room for [n] characters: it answers 0
    and has appended [x], or ENOMEM, when an allocation failed, as [lack] says, that
    the call needed. The block grows only when the room is missing. *)
Definition appended (b : FastBuffer) (t x : list Z) (n : Z) (lack : Prop) (m : res (Z * FastBuffer)) : Prop :=
  returns m (λ '(r, b'), alloc_size b ≤ alloc_size b' ∧ (zlen t + n < alloc_size b → alloc_size b' = alloc_size b) ∧
    ((r = 0 ∧ holds b' (t ++ x)) ∨ (r = ENOMEM ∧ holds b' t ∧ lack ∧ alloc_size b ≤ zlen t + n))).

Lemma fast_buffer_append_buff_ok b t text len m :
  holds b t → 0 < len ≤ zlen text → zlen t + len < 2 ^ 30 →
  appended b t (take (Z.to_nat len) text) len (m = false) (fast_buffer_append_buff garbage b false text len m).
Proof using.
  intros Hb Hl Hn. unfold appended, fast_buffer_append_buff. rewrite (proj2 (Z.leb_gt _ _)) by lia.
  eapply returns_bind, returns_mono; [apply (fast_buffer_check_ok b t len m (holds_begins _ _ Hb)); lia|].
  intros [[r b'] mv] [(-> & Hb' & Hroom & Hup & Hsame)|(-> & -> & Hsmall & ->)]; [|cbn; split_and!; [lia|lia|right; split_and!; naive_solver lia]].
  cbn [negb Z.eqb andb].
  rewrite (proj2 (Z.ltb_ge _ _)) by lia. pose proof (zlen_take text len ltac:(lia)) as El.
  destruct (put_text_ok b' t (take (Z.to_nat len) text) Hb' ltac:(lia)) as (rest & -> & Hrest). cbn [mbind res_bind].
  destruct Hb' as (r0 & _ & _ & Hlen & Ha). rewrite Hlen.
  destruct rest as [|c rest]; [rewrite List.app_nil_r, zlen_app in Hrest; lia|]. rewrite app_assoc.
  rewrite (store_mid _ _ _ _ 0) by (rewrite zlen_app; lia). cbn. split; [done|]. split; [done|]. left. split; [done|].
  exists rest. cbn [data alloc_size length]. split_and!; [done| |rewrite zlen_app; lia|lia..].
  rewrite app_assoc, zlen_app, zlen_cons in Hrest. by rewrite zlen_app, zlen_cons.
Qed.

Lemma fast_buffer_append_int_ok b t n m :
  holds b t → INT_MIN ≤ n ≤ INT_MAX → zlen t + 16 < 2 ^ 30 →
  appended b t (decimal n) 16 (m = false) (fast_buffer_append_int garbage b n m).
Proof using.
  intros Hb Hr Hn. unfold appended, fast_buffer_append_int.
  eapply returns_bind, returns_mono; [apply (fast_buffer_check_ok b t 16 m (holds_begins _ _ Hb)); lia|].
  intros [[r b'] mv] [(-> & Hb' & Hroom & Hup & Hsame)|(-> & -> & Hsmall & ->)]; [|cbn; split_and!; [lia|lia|right; split_and!; naive_solver lia]].
  cbn [negb Z.eqb].
  pose proof (zlen_decimal n 10 ltac:(lia) ltac:(int_lia)).
  destruct (printed b' t (decimal n) Hb' ltac:(lia)) as (d & -> & Hd). cbn. split_and!; [done..|by left].
Qed.

Lemma fast_buffer_append_int64_ok b t n m :
  holds b t → LONG_MIN ≤ n ≤ LONG_MAX → zlen t + 32 < 2 ^ 30 →
  appended b t (decimal n) 32 (m = false) (fast_buffer_append_int64 garbage b n m).
Proof using.
  intros Hb Hr Hn. unfold appended, fast_buffer_append_int64.
  eapply returns_bind, returns_mono; [apply (fast_buffer_check_ok b t 32 m (holds_begins _ _ Hb)); lia|].
  intros [[r b'] mv] [(-> & Hb' & Hroom & Hup & Hsame)|(-> & -> & Hsmall & ->)]; [|cbn; split_and!; [lia|lia|right; split_and!; naive_solver lia]].
  cbn [negb Z.eqb].
  pose proof (zlen_decimal n 19 ltac:(lia) ltac:(unfold LONG_MIN, LONG_MAX in *; lia)).
  destruct (printed b' t (decimal n) Hb' ltac:(lia)) as (d & -> & Hd). cbn. split_and!; [done..|by left].
Qed.

Lemma fast_buffer_append_ok b t text m m2 :
  holds b t → zlen t + zlen text + 64 < 2 ^ 30 →
  appended b t text (Z.max 64 (zlen text)) (m = false ∨ m2 = false) (fast_buffer_append garbage b (Text text) m m2).
Proof using.
  intros Hb Hn. unfold appended, fast_buffer_append. pose proof (zlen_nonneg text).
  eapply returns_bind, returns_mono; [apply (fast_buffer_check_ok b t 64 m (holds_begins _ _ Hb)); lia|].
  intros [[r b'] mv] [(-> & Hb' & Hroom & Hup & Hsame)|(-> & -> & Hsmall & ->)]; [|cbn; split_and!; [lia|lia|right; split_and!; naive_solver lia]].
  cbn [negb Z.eqb].
  pose proof Hb' as (r0 & _ & _ & Hlen & Ha). destruct (put_formatted_ok b' t text Hb' ltac:(lia)) as (Hx & d & -> & Hd). cbn [format_len].
  set (x := take (Z.to_nat (alloc_size b' - length b' - 1)) text) in *. cbn [mbind res_bind data alloc_size length]. cbv zeta.
  destruct (Z.ltb_spec (zlen text) (alloc_size b' - length b')) as [Hfit|Hfull].
  { cbn. split_and!; [lia..|]. left. split; [done|]. assert (x = text) as Ex by (apply take_ge; unfold zlen in *; lia). rewrite Ex in Hd. exact Hd. }
  set (b2 := mkFastBuffer (Some d) (alloc_size b') (length b')).
  assert (begins b2 t) as Hb2.
  { destruct Hd as (r1 & Ed & El & _ & _). cbn [data alloc_size] in Ed, El. injection Ed as Ed. exists (x ++ 0 :: r1). subst b2. cbn [data alloc_size length].
    rewrite Ed. rewrite <-!app_assoc in *. split_and!; [done|exact El|done|lia..]. }
  eapply returns_bind, returns_mono; [apply (fast_buffer_check_ok b2 t (zlen text) m2 Hb2); lia|].
  change (alloc_size b2) with (alloc_size b').
  intros [[r b3] mv2] [(-> & Hb3 & Hroom3 & Hup3 & Hsame3)|(-> & -> & Hsmall3 & ->)]; cbn [Z.eqb].
  - pose proof Hb3 as (r3 & _ & _ & Hlen3 & _). destruct (put_formatted_ok b3 t text Hb3 ltac:(lia)) as (_ & d3 & -> & Hd3).
    rewrite take_ge in Hd3 by (unfold zlen in *; lia). cbn. split_and!; [lia..|by left].
  - destruct Hb2 as (r2 & Ed & El & El2 & Ha2). change (ENOMEM =? 0) with false. cbn iota. rewrite Ed. rewrite El2.
    destruct r2 as [|c r2]; [rewrite List.app_nil_r in El; subst b2; cbn in El; lia|].
    rewrite store_app_mid. cbn. split_and!; [lia..|]. right. split; [done|]. split; [|split; [by right|lia]]. exists r2. cbn [data alloc_size length].
    rewrite zlen_app, zlen_cons in *. split_and!; [done|done|done|lia..].
Qed.
End proofs.

(** * Sessions *)

Inductive op :=
  | AppendBuff (text : list Z) | AppendString (str : list Z) | AppendInt (n : Z) | AppendInt64 (n : Z)
  | Append (text : list Z) | Reset.

(** A call, with the outcomes of up to two requests for memory. *)
Definition run (garbage : Z → Z) (b : FastBuffer) (c : op * bool * bool) : res (Z * FastBuffer) :=
  let '(o, m, m2) := c in
  match o with
  | AppendBuff text => fast_buffer_append_buff garbage b false text (zlen text) m
  | AppendString str => fast_buffer_append_string garbage b str m
  | AppendInt n => fast_buffer_append_int garbage b n m
  | AppendInt64 n => fast_buffer_append_int64 garbage b n m
  | Append text => fast_buffer_append garbage b (Text text) m m2
  | Reset => b ← fast_buffer_reset b; mret (0, b)
  end.

Fixpoint run_all (garbage : Z → Z) (b : FastBuffer) (cs : list (op * bool * bool)) : res (list Z * FastBuffer) :=
  match cs with
  | [] => mret ([], b)
  | c :: cs => '(r, b) ← run garbage b c; '(rs, b) ← run_all garbage b cs; mret (r :: rs, b)
  end.

(** What the buffer promises. *)
Definition text_of (o : op) : list Z :=
  match o with AppendBuff t | AppendString t | Append t => t | AppendInt n | AppendInt64 n => decimal n | Reset => [] end.

Definition result_text (t : list Z) (o : op) : list Z :=
  match o with Reset => [] | _ => t ++ text_of o end.

(** The room that a call asks for, besides a terminator. *)
Definition wants (o : op) : Z :=
  match o with
  | AppendInt _ => 16 | AppendInt64 _ => 32 | Append text => Z.max 64 (zlen text)
  | Reset => 0 | AppendBuff text | AppendString text => zlen text
  end.

(** A request for memory of the call fails. *)
Definition lacks (c : op * bool * bool) : Prop :=
  let '(o, m, m2) := c in
  match o with Append _ => m = false ∨ m2 = false | Reset => False | _ => m = false end.

(** A call on the text [t] in a block of [cap] bytes: its answer, and the text and
    the block afterwards. It fails only when the block is too small and a request
    for memory fails; a block with the room stays. *)
Inductive spec (t : list Z) (cap : Z) (c : op * bool * bool) : Z → list Z → Z → Prop :=
| spec_done cap' : cap ≤ cap' → (zlen t + wants c.1.1 < cap → cap' = cap) → spec t cap c 0 (result_text t c.1.1) cap'
| spec_lack cap' : cap ≤ cap' → cap ≤ zlen t + wants c.1.1 → lacks c → spec t cap c ENOMEM t cap'.

Inductive specs : list Z → Z → list (op * bool * bool) → list Z → list Z → Z → Prop :=
| specs_nil t cap : specs t cap [] [] t cap
| specs_cons t cap c cs r rs t1 cap1 t2 cap2 :
    spec t cap c r t1 cap1 → specs t1 cap1 cs rs t2 cap2 → specs t cap (c :: cs) (r :: rs) t2 cap2.

(** Numbers are of their types, and the buffer is never asked to hold 2^30 bytes. *)
Definition in_type (o : op) : Prop :=
  match o with AppendInt n => INT_MIN ≤ n ≤ INT_MAX | AppendInt64 n => LONG_MIN ≤ n ≤ LONG_MAX | _ => True end.

Fixpoint added (cs : list (op * bool * bool)) : Z :=
  match cs with [] => 0 | (o, _, _) :: cs => zlen (text_of o) + added cs end.

Lemma added_nonneg cs : 0 ≤ added cs.
Proof. induction cs as [|[[o m] m2] cs IH]; cbn [added]; [lia|pose proof (zlen_nonneg (text_of o)); lia]. Qed.

Lemma run_ok garbage b t o m m2 :
  holds b t → in_type o → zlen t + zlen (text_of o) + 64 < 2 ^ 30 →
  returns (run garbage b (o, m, m2)) (λ '(r, b'), ∃ t', spec t (alloc_size b) (o, m, m2) r t' (alloc_size b') ∧ holds b' t').
Proof.
  intros Hb Ht Hn.
  assert (∀ mm, o ≠ Reset → appended b t (text_of o) (wants o) (lacks (o, m, m2)) mm →
    returns mm (λ '(r, b'), ∃ t', spec t (alloc_size b) (o, m, m2) r t' (alloc_size b') ∧ holds b' t')) as Happ.
  { intros mm Hr Hm. eapply returns_mono; [exact Hm|]. intros [r b'] (Hup & Hsame & [[-> Hh]|(-> & Hh & Hlack & Hsmall)]).
    - exists (t ++ text_of o). split; [|done]. assert (t ++ text_of o = result_text t o) as -> by by destruct o. by constructor.
    - exists t. split; [by constructor|done]. }
  assert (∀ r b', r = 0 → b' = b → o ≠ Reset → text_of o = [] → ∃ t', spec t (alloc_size b) (o, m, m2) r t' (alloc_size b') ∧ holds b' t') as Hnil.
  { intros r b' -> -> Hr Ho. exists t. split; [|done]. assert (t = result_text t o) as Et by (destruct o; cbn in *; try done; by rewrite Ho, List.app_nil_r).
    rewrite Et at 2. by constructor. }
  destruct o as [text|str|n|n|text|]; cbn [run text_of] in *.
  - destruct text as [|x text].
    + cbn. by apply Hnil.
    + eapply Happ; [done|]. pose proof (fast_buffer_append_buff_ok garbage b t (x :: text) (zlen (x :: text)) m Hb) as HA.
      rewrite take_ge in HA by (unfold zlen; lia). apply HA; [rewrite zlen_cons; pose proof (zlen_nonneg text)|]; lia.
  - unfold fast_buffer_append_string. destruct str as [|x str].
    + cbn. by apply Hnil.
    + eapply Happ; [done|]. pose proof (fast_buffer_append_buff_ok garbage b t ((x :: str) ++ [0]) (zlen (x :: str)) m Hb) as HA.
      rewrite take_app_length' in HA by (unfold zlen; lia).
      apply HA; [rewrite zlen_app, zlen_cons; pose proof (zlen_nonneg str); change (zlen [0]) with 1|]; lia.
  - eapply Happ; [done|]. apply fast_buffer_append_int_ok; [done|done|pose proof (zlen_nonneg (decimal n)); lia].
  - eapply Happ; [done|]. apply fast_buffer_append_int64_ok; [done|done|pose proof (zlen_nonneg (decimal n)); lia].
  - eapply Happ; [done|]. by apply fast_buffer_append_ok.
  - destruct Hb as (r & Hd & Hl & Hlen & Ha). unfold fast_buffer_reset. rewrite Hd.
    assert (∃ r', store (t ++ 0 :: r) 0 0 = Done (0 :: r') ∧ zlen (0 :: r') = alloc_size b) as (r' & -> & El).
    { rewrite <-Hl. destruct t as [|x t]; [exists r; split; [apply (store_app_mid [] 0 0 r)|done]|].
      exists (t ++ 0 :: r). split; [apply (store_app_mid [] x 0 (t ++ 0 :: r))|done]. }
    cbn. exists []. split; [by constructor|]. exists r'. cbn [data alloc_size length app]. split_and!; [done|done|done|lia..].
Qed.

Lemma spec_length t cap c r t' cap' : spec t cap c r t' cap' → zlen t' ≤ zlen t + zlen (text_of c.1.1).
Proof.
  pose proof (zlen_nonneg t). pose proof (zlen_nonneg (text_of c.1.1)). intros [? _ _|? _ _ _]; [|lia].
  unfold result_text. destruct c.1.1; rewrite ?zlen_app; cbn [text_of] in *; lia.
Qed.

Lemma run_all_ok garbage cs b t :
  holds b t → Forall (λ c, in_type c.1.1) cs → zlen t + added cs + 64 < 2 ^ 30 →
  returns (run_all garbage b cs) (λ '(rs, b'), ∃ t', specs t (alloc_size b) cs rs t' (alloc_size b') ∧ holds b' t').
Proof.
  revert b t. induction cs as [|[[o m] m2] cs IH]; intros b t Hb Hcs Hn; [by exists t; split; [constructor|]|].
  apply Forall_cons in Hcs as [Ho Hcs]. cbn [added] in Hn. pose proof (added_nonneg cs).
  cbn [run_all]. eapply returns_bind, returns_mono; [apply (run_ok garbage b t o m m2 Hb Ho); lia|].
  intros [r b'] (t1 & Hr & Hb'). pose proof (spec_length _ _ _ _ _ _ Hr) as Hlen. cbn [fst] in Hlen.
  eapply returns_bind, returns_mono; [apply (IH b' t1 Hb' Hcs); lia|].
  intros [rs b''] (t2 & Hrs & Hh). cbn. exists t2. split; [by econstructor|done].
Qed.

Lemma fast_buffer_init_size garbage n b :
  fast_buffer_init_ex garbage n true = Done (0, b) → alloc_size b = if 0 <? n then n else 256.
Proof. unfold fast_buffer_init_ex. cbn [negb]. destruct (store _ 0 0); cbn; [|done..]. by intros [= <-]. Qed.

Lemma fast_buffer_init_ok garbage n b : n ≤ INT_MAX → fast_buffer_init_ex garbage n true = Done (0, b) → holds b [].
Proof.
  intros Hn. unfold fast_buffer_init_ex. cbn [negb]. set (a := if 0 <? n then n else 256).
  assert (0 < a ≤ INT_MAX) as Ha by (subst a; case_if; propify; int_lia). clearbody a.
  pose proof (zlen_block garbage a ltac:(lia)) as Eb. destruct (block garbage a) as [|x r] eqn:E; [change (zlen (@nil Z)) with 0 in Eb; lia|].
  pose proof (store_app_mid [] x 0 r) as HS. cbn [app] in HS. change (zlen (@nil Z)) with 0 in HS. rewrite HS. cbn. intros [= <-]. by exists r.
Qed.

(** C12. A session on a buffer, from its initialisation, whose formats do not fail:
    every call returns. It answers 0 and has added its text, or reset the buffer; or it
    answers ENOMEM and has added nothing, only if the block was too small for it and a
    request for memory failed. The text is within its block and ended by 0. *)
Theorem fast_buffer_refines_text garbage n b cs :
  n ≤ INT_MAX → fast_buffer_init_ex garbage n true = Done (0, b) →
  Forall (λ c, in_type c.1.1) cs → added cs + 64 < 2 ^ 30 →
  returns (run_all garbage b cs) (λ '(rs, b'),
    ∃ t, specs [] (if 0 <? n then n else 256) cs rs t (alloc_size b') ∧ holds b' t).
Proof.
  intros Hn Hi Hcs Ha. rewrite <-(fast_buffer_init_size garbage n b Hi).
  apply run_all_ok; [by eapply fast_buffer_init_ok|done|]. change (zlen (@nil Z)) with 0. lia.
Qed.

Lemma fast_buffer_refines_text_witness :
  let cs := [(Append [97; 98; 99], true, true); (AppendInt (-12), true, true); (AppendBuff [7; 8], false, true);
             (AppendBuff (replicate 200 9), false, true); (AppendInt64 5, true, true)] in
  returns (fast_buffer_init_ex (λ i, i) 2 true) (λ '(_, b), returns (run_all (λ i, i) b cs) (λ '(rs, b'),
    ∃ t, specs [] (if 0 <? 2 then 2 else 256) cs rs t (alloc_size b') ∧ holds b' t) ∧
    returns (run_all (λ i, i) b cs) (λ '(rs, _), rs = [0; 0; 0; ENOMEM; 0])).
Proof.
  cbn [returns]. split; [|vm_compute; reflexivity].
  eapply (fast_buffer_refines_text (λ i, i) 2); [done|reflexivity| |done].
  repeat constructor; cbn; unfold LONG_MIN, LONG_MAX; int_lia.
Defined.

(** When the format fails, its negative result is added to the length: the call answers 0
    and characters of the text before it are lost. *)
Theorem append_format_error garbage b t n cells m m2 :
  holds b t → zlen t + 64 < alloc_size b → n < 0 → zlen t < 2 ^ 29 →
  returns (fast_buffer_append garbage b (FormatError n cells) m m2) (λ '(r, b'), r = 0 ∧ length b' = zlen t + n).
Proof.
  intros Hb Ha Hn Ht. pose proof Hb as (r & Hd & Hl & Hlen & Hal). pose proof (zlen_nonneg t).
  unfold fast_buffer_append. eapply returns_bind, returns_mono.
  { apply (fast_buffer_check_ok garbage b t 64 m (holds_begins _ _ Hb)); lia. }
  intros [[r0 b'] mv] [(-> & Hb' & Hroom & _)|(_ & _ & ? & _)]; [|lia]. cbn [negb Z.eqb format_len].
  destruct (put_text_ok b' t (take (Z.to_nat (alloc_size b' - length b')) cells) Hb') as (rest & E & _).
  { destruct Hb' as (_ & _ & _ & Hlen' & _). unfold zlen in *. rewrite length_take. lia. }
  destruct Hb' as (_ & _ & _ & Hlen' & _). unfold put_formatted. rewrite (proj2 (Z.leb_gt _ _)) by lia. rewrite E.
  cbn [mbind res_bind alloc_size length data]. rewrite (proj2 (Z.ltb_lt _ _)) by lia. cbn. split; [done|lia].
Qed.

Lemma append_format_error_witness :
  returns (fast_buffer_append (λ i, i) (mkFastBuffer (Some (97 :: replicate 99 0)) 100 1) (FormatError (-1) []) true true)
    (λ '(r, b'), r = 0 ∧ length b' = 1 + -1).
Proof.
  apply (append_format_error (λ i, i) _ [97] (-1) [] true true); [|by vm_compute..].
  exists (replicate 98 0). by vm_compute.
Defined.

(** A buffer appended to itself is read from the block that has been given back, when it
    has to grow for that. *)
Theorem append_itself_reads_freed garbage b t :
  holds b t → 0 < zlen t < 2 ^ 29 → alloc_size b ≤ 2 * zlen t →
  fast_buffer_append_buffer garbage b b true true = Undef.
Proof.
  intros Hb Ht Ha. pose proof Hb as (r & Hd & Hl & Hlen & Hal). unfold fast_buffer_append_buffer, fast_buffer_append_buff. rewrite Hd, Hlen.
  rewrite (proj2 (Z.leb_gt _ _)) by lia.
  pose proof (fast_buffer_check_ok garbage b t (zlen t) true (holds_begins _ _ Hb) ltac:(lia) ltac:(lia)) as HC.
  destruct (fast_buffer_check garbage b (zlen t) true) as [[[r' b'] mv]| |] eqn:E; [|done|done].
  destruct HC as [(-> & _ & Hroom & _)|(_ & ? & _)]; [|done]. cbn [mbind res_bind negb Z.eqb andb].
  destruct mv; [done|]. exfalso. revert E. unfold fast_buffer_check. rewrite Hlen.
  rewrite (cint_ok (zlen t + zlen t)) by int_lia. cbn [mbind res_bind].
  rewrite (proj2 (Z.ltb_ge _ _)) by lia. rewrite cint_ok by int_lia. cbn [mbind res_bind negb].
  destruct (double_loop _ _ _); [|done|done]. cbn [mbind res_bind].
  destruct (if 0 <? zlen t then _ else _); done.
Qed.
