(* ===== verification/HashCount.v ===== *)
(** Counters in the hash table: [hash_inc_value] of libs/fastcommon/src/hash.c, the
    function that [hash_inc] passes to [hash_inc_ex] (HashTable.v). It keeps a number as
    its decimal text. *)
From S2P Require Import Prelude CMemory CString HashTable.

(** * Code *)

(** The string at a pointer. *)
Definition read_string (p : ptr) : HM (list Z) := λ h,
  match blocks h !! p.1 with
  | Some buf => if 0 <=? p.2 then s ← cstring (drop (Z.to_nat p.2) buf); mret (s, h) else Undef
  | None => Undef
  end.

(** [sprintf] ends the text; [strtoll] is [strtol] where both types have 64 bits. The
    result and [*new_value_len]. *)
Definition hash_inc_value (old_data : option HashData) (inc : Z) (new_value : ptr) (new_value_len : Z) : HM (Z * Z) :=
  n ← match old_data with
      | Some d =>
          if value_len d <? new_value_len then
            memcpy new_value (value d) (value_len d);;
            write_byte (padd new_value (value_len d)) 0;;
            s ← read_string new_value;
            lift (cint64 ((strtol s 10).1 + inc))
          else mret inc
      | None => mret inc
      end;
  store_bytes new_value (decimal n ++ [0]);;
  mret (n, zlen (decimal n)).

(** The call of [hash_inc]. *)
Definition hash_inc (hash_func : list Z → Z) (t : HashArray) (k : list Z) (inc : Z) (buf : ptr) (len : Z) : HM (Z * Z * HashArray) :=
  hash_inc_ex hash_func (λ d inc buf, r ← hash_inc_value d inc buf len; mret (r.2)) t k inc buf.

(** * Theorems *)

(** [t] has been printed at [p], nothing else has changed. *)
Definition printed (h : hheap) (p : ptr) (t : list Z) (h' : hheap) : Prop :=
  text h' p (t ++ [0]) ∧ ∀ b, b ≠ p.1 → blocks h' !! b = blocks h !! b.

Lemma print_number h p n buf :
  blocks h !! p.1 = Some buf → 0 ≤ p.2 → p.2 + zlen (decimal n) + 1 ≤ zlen buf →
  returns ((store_bytes p (decimal n ++ [0]);; mret (n, zlen (decimal n))) h) (λ '((r, len), h'),
    r = n ∧ len = zlen (decimal n) ∧ printed h p (decimal n) h').
Proof.
  intros Hb Hp Hl. assert (zlen (decimal n ++ [0]) = zlen (decimal n) + 1) as El by (by rewrite zlen_app).
  rewrite M_bind_eq, (store_bytes_ok _ _ buf) by (done || lia). cbn. split_and!; [done..|]. split.
  - eexists. cbn [blocks with_blocks]. rewrite lookup_insert_eq. split; [done|]. split; [done|].
    rewrite zlen_zwrite by lia. split; [lia|]. apply zslice_zwrite; lia.
  - intros b Hne. cbn [blocks with_blocks]. by rewrite lookup_insert_ne.
Qed.

Lemma decimal_cstr n : cstr (decimal n).
Proof.
  rewrite decimal_split. apply cstr_app. split.
  - unfold decimal_sign. case_if; repeat constructor; lia.
  - rewrite decimal_number. unfold cstr. rewrite Forall_fmap. eapply Forall_impl; [apply uint_digits_range|]. cbn. lia.
Qed.

(** A number kept as its text becomes the number and the increment, and a counter
    that does not exist begins with the increment, in a buffer that has room for the
    result; other blocks stay as they are. *)
Theorem hash_inc_value_correct h old m inc p new_value_len buf :
  blocks h !! p.1 = Some buf → 0 ≤ p.2 → p.2 + new_value_len ≤ zlen buf →
  match old with
  | Some d => value_len d = zlen (decimal m) ∧ zlen (decimal m) < new_value_len ∧ (value d).1 ≠ p.1 ∧
      LONG_MIN ≤ m ≤ LONG_MAX ∧ text h (value d) (decimal m)
  | None => m = 0
  end →
  LONG_MIN ≤ m + inc ≤ LONG_MAX → zlen (decimal (m + inc)) < new_value_len →
  returns (hash_inc_value old inc p new_value_len h) (λ '((r, len), h'),
    r = m + inc ∧ len = zlen (decimal (m + inc)) ∧ printed h p (decimal (m + inc)) h').
Proof.
  intros Hb Hp Hl Hold Hn Hroom. unfold hash_inc_value. destruct old as [d|].
  - destruct Hold as (Hlen & Hlt & Hne & Hm & b & Hvb & Hv0 & Hvl & Hv). rewrite Hlen, (proj2 (Z.ltb_lt _ _)) by done.
    pose proof (zlen_nonneg (decimal m)) as Hd. apply step_assoc.
    eapply step_memcpy; [exact Hb|exact Hvb|congruence|lia..|]. rewrite Hv. apply step_assoc.
    unfold write_byte. rewrite M_bind_eq. erewrite store_bytes_ok; cycle 1.
    { cbn [padd fst blocks with_blocks]. apply lookup_insert_eq. }
    { cbn. lia. }
    { cbn [padd snd]. rewrite zlen_zwrite by lia. change (zlen [u8 0]) with 1. lia. }
    cbn [mbind res_bind]. cbn [padd fst snd blocks with_blocks]. change (u8 0) with 0.
    rewrite zwrite_app by (change (zlen [0]) with 1; lia). rewrite insert_insert_eq.
    set (buf' := zwrite buf p.2 (decimal m ++ [0])).
    assert (zlen (decimal m ++ [0]) = zlen (decimal m) + 1) as El by (by rewrite zlen_app).
    assert (zlen buf' = zlen buf) as Eb by (apply zlen_zwrite; lia).
    (* the old number is read from the copy *)
    assert (∀ h', blocks h' !! p.1 = Some buf' → read_string p h' = Done (decimal m, h')) as Hread.
    { intros h' E. unfold read_string. rewrite E, (proj2 (Z.leb_le _ _)) by done. subst buf'.
      assert (drop (Z.to_nat p.2) (zwrite buf p.2 (decimal m ++ [0])) = (decimal m ++ [0]) ++ drop (Z.to_nat (p.2 + zlen (decimal m ++ [0]))) buf) as ->.
      { unfold zwrite. apply drop_app_length'. rewrite length_take. unfold zlen in *. lia. }
      rewrite <-app_assoc. cbn [app]. by rewrite cstring_ok by apply decimal_cstr. }
    apply step_assoc. rewrite M_bind_eq, Hread by apply lookup_insert_eq. cbn [mbind res_bind].
    assert ((strtol (decimal m) 10).1 = m) as ->.
    { rewrite <-(List.app_nil_r (decimal m)). by rewrite strtol_decimal. }
    assert (cint64 (m + inc) = Done (m + inc)) as E64.
    { unfold cint64, in_int64. unfold LONG_MIN, LONG_MAX, INT64_MAX in *. case_if; [done|lia_bool]. }
    eapply step_lift; [exact E64|]. eapply returns_mono.
    + eapply print_number; [apply lookup_insert_eq|done|lia].
    + intros [[r len] h'] (-> & -> & Ht & Ho). split_and!; [done..|]. split; [done|]. intros c Hc. rewrite Ho by done.
      cbn [blocks with_blocks]. by rewrite lookup_insert_ne.
  - subst m. rewrite Z.add_0_l in *. rewrite M_bind_eq. cbn [mret M_ret mbind res_bind]. eapply print_number; [done|done|lia].
Qed.

Definition counter_heap : hheap := mkHeap ∅ {[ 1 := [57; 57]; 2 := replicate 8 0 ]} 3 [] 0.

Lemma hash_inc_value_correct_witness :
  returns (hash_inc_value (Some (mkData 1 [] 2 2 (1, 0))) 1 (2, 0) 8 counter_heap) (λ '((r, len), h'),
    r = 100 ∧ len = 3 ∧ printed counter_heap (2, 0) [49; 48; 48] h').
Proof.
  apply (hash_inc_value_correct counter_heap (Some (mkData 1 [] 2 2 (1, 0))) 99 1 (2, 0) 8 (replicate 8 0)); try done.
  split_and!; try done. exists [57; 57]. split_and!; done.
Defined.

(** The length that is announced is not looked at when the number is printed: the text of
    10 and its end do not fit into two bytes. *)
Theorem hash_inc_value_overflow :
  let h : hheap := mkHeap ∅ {[ 1 := [57]; 2 := [0; 0] ]} 3 [] 0 in
  hash_inc_value (Some (mkData 1 [] 1 1 (1, 0))) 1 (2, 0) 2 h = Undef ∧
  returns (hash_inc_value (Some (mkData 1 [] 1 1 (1, 0))) (-1) (2, 0) 2 h) (λ '((r, _), _), r = 8).
Proof. split; reflexivity. Qed.
