(* ===== verification/BlockedQueue.v ===== *)
(** The queues between threads of libs/fastcommon/src/common_blocked_queue.c and
    fast_blocked_queue.c.

    What a thread does while it holds the lock is a function on the queue and the heap of
    its nodes; around it stands a step relation for threads that take the lock, wait on
    the condition and signal it. Mutexes and conditions are those of POSIX: one thread
    holds the lock, waiting gives it back, a signal wakes one waiting thread if there is
    one, and a waiting thread may wake without a signal. Calls on a mutex do not fail. *)
From S2P Require Import Prelude CMemory.

(** * Code *)

Record common_blocked_node := mkNode { data : Z; next : Z }.

Abbreviation qheap := (heap common_blocked_node).
Abbreviation QM := (M common_blocked_node).

(** The list; the lock, the condition and the node allocator are not part of it. *)
Record common_blocked_queue := mkQueue { head : Z; tail : Z }.

Definition ENOMEM : Z := 12.

(** What [common_blocked_queue_init_ex] returns when setting up the lock, the condition
    and the allocator gives these results. *)
Definition common_blocked_queue_init_ex (lock_result cond_result mblock_result : Z) (queue : common_blocked_queue)
    : Z * common_blocked_queue :=
  if negb (lock_result =? 0) then (lock_result, queue) else
  if negb (cond_result =? 0) then (cond_result, queue) else
  if negb (mblock_result =? 0) then (mblock_result, queue) else (0, mkQueue 0 0).

Definition fast_mblock_alloc_object : QM Z := λ h, malloc_struct (mkNode (junk h) (junk h)) h.

(** From [pthread_mutex_lock] to [pthread_mutex_unlock]: the result, the queue, and
    [notify]. *)
Definition common_blocked_queue_push (queue : common_blocked_queue) (d : Z) : QM (Z * common_blocked_queue * bool) :=
  node ← fast_mblock_alloc_object;
  if node =? 0 then mret (ENOMEM, queue, false) else
  put node (mkNode d 0);;
  if tail queue =? 0 then mret (0, mkQueue node node, true)
  else
    t ← deref (tail queue);
    put (tail queue) (mkNode (data t) node);;
    mret (0, mkQueue (head queue) node, false).

(** The part of [common_blocked_queue_pop_ex] behind the wait: the data, NULL when there
    is no node, and whether there was one. *)
Definition common_blocked_queue_take (queue : common_blocked_queue) : QM (Z * common_blocked_queue * bool) :=
  let node := head queue in
  if negb (node =? 0) then
    n ← deref node;
    let queue := mkQueue (next n) (if next n =? 0 then 0 else tail queue) in
    free_struct node;;
    mret (data n, queue, true)
  else mret (0, queue, false).

(** ** Tasks

    [fast_blocked_queue.c] is the same with the objects of its clients as nodes, which
    nobody allocates or frees. *)

Definition blocked_queue_init (lock_result cond_result : Z) (pQueue : common_blocked_queue) : Z * common_blocked_queue :=
  if negb (lock_result =? 0) then (lock_result, pQueue) else
  if negb (cond_result =? 0) then (cond_result, pQueue) else (0, mkQueue 0 0).

Definition blocked_queue_push (pQueue : common_blocked_queue) (pTask : Z) : QM (common_blocked_queue * bool) :=
  n ← deref pTask;
  put pTask (mkNode (data n) 0);;
  if tail pQueue =? 0 then mret (mkQueue pTask pTask, true)
  else
    t ← deref (tail pQueue);
    put (tail pQueue) (mkNode (data t) pTask);;
    mret (mkQueue (head pQueue) pTask, false).

(** The task, NULL when there is none. *)
Definition blocked_queue_take (pQueue : common_blocked_queue) : QM (Z * common_blocked_queue) :=
  let pTask := head pQueue in
  if negb (pTask =? 0) then
    n ← deref pTask;
    mret (pTask, mkQueue (next n) (if next n =? 0 then 0 else tail pQueue))
  else mret (0, pQueue).

(** ** Threads *)

(** Where a thread is: between calls; before and behind [pthread_mutex_lock]; before
    [pthread_cond_signal]; in [pthread_cond_wait], before it has the lock again, and
    behind it. *)
Inductive pc :=
  | Idle | PushWants (d : Z) | PushHas (d : Z) | Signals
  | PopWants (blocked : bool) | PopHas (blocked : bool) | Waits | Woken | PopWoken.

(** The threads by number, and what has been put into and taken from the queue. *)
Record system := mkSystem {
  mem : qheap; queue : common_blocked_queue; lock : option nat; threads : gmap nat pc;
  pushed : list Z; popped : list Z }.

Definition at_pc (s : system) (t : nat) (p : pc) : system :=
  mkSystem (mem s) (queue s) (lock s) (<[t := p]> (threads s)) (pushed s) (popped s).

Definition locked (s : system) (l : option nat) : system :=
  mkSystem (mem s) (queue s) l (threads s) (pushed s) (popped s).

(** The end of the locked part of a push and of a pop. *)
Definition did_push (s : system) (t : nat) (h : qheap) (q : common_blocked_queue) (d : Z) (r : Z) (notify : bool) : system :=
  mkSystem h q None (<[t := if notify then Signals else Idle]> (threads s))
    (if r =? 0 then pushed s ++ [d] else pushed s) (popped s).

Definition did_pop (s : system) (t : nat) (h : qheap) (q : common_blocked_queue) (d : Z) (some : bool) : system :=
  mkSystem h q None (<[t := Idle]> (threads s)) (pushed s) (if some then popped s ++ [d] else popped s).

Section threads.
(** The threads that call [common_blocked_queue_pop_ex]. *)
Context (consumer : nat → Prop).

Inductive step : system → system → Prop :=
| call_push s t d : threads s !! t = Some Idle → step s (at_pc s t (PushWants d))
| push_lock s t d : threads s !! t = Some (PushWants d) → lock s = None → step s (locked (at_pc s t (PushHas d)) (Some t))
| push_body s t d r q notify h :
  threads s !! t = Some (PushHas d) → lock s = Some t →
  common_blocked_queue_push (queue s) d (mem s) = Done (r, q, notify, h) →
  step s (did_push s t h q d r notify)
| call_terminate s t : threads s !! t = Some Idle → step s (at_pc s t Signals)
| signal_one s t w : threads s !! t = Some Signals → threads s !! w = Some Waits → step s (at_pc (at_pc s w Woken) t Idle)
| signal_none s t : threads s !! t = Some Signals → (∀ w, threads s !! w ≠ Some Waits) → step s (at_pc s t Idle)
| call_pop s t blocked : threads s !! t = Some Idle → consumer t → step s (at_pc s t (PopWants blocked))
| pop_lock s t blocked : threads s !! t = Some (PopWants blocked) → lock s = None →
  step s (locked (at_pc s t (PopHas blocked)) (Some t))
| pop_wait s t : threads s !! t = Some (PopHas true) → lock s = Some t → head (queue s) = 0 →
  step s (locked (at_pc s t Waits) None)
| pop_body s t blocked d q some h :
  threads s !! t = Some (PopHas blocked) → lock s = Some t → (head (queue s) ≠ 0 ∨ blocked = false) →
  common_blocked_queue_take (queue s) (mem s) = Done (d, q, some, h) → step s (did_pop s t h q d some)
| relock s t : threads s !! t = Some Woken → lock s = None → step s (locked (at_pc s t PopWoken) (Some t))
| woken_body s t d q some h :
  threads s !! t = Some PopWoken → lock s = Some t →
  common_blocked_queue_take (queue s) (mem s) = Done (d, q, some, h) → step s (did_pop s t h q d some).

(** POSIX lets a waiting thread wake up for no reason. *)
Inductive spurious : system → system → Prop :=
| wake s t : threads s !! t = Some Waits → spurious s (at_pc s t Woken).

Definition any_step (s s' : system) : Prop := step s s' ∨ spurious s s'.
End threads.

(** A queue that has been set up, and threads that have called nothing yet. *)
Definition initial (n : nat) (h : qheap) : system :=
  mkSystem h (mkQueue 0 0) None (gset_to_gmap Idle (set_seq 0 n)) [] [].

(** * The list in the heap *)

Record list_rep (h : qheap) (q : common_blocked_queue) (ns ds : list Z) : Prop := {
  lr_heap : heap_ok h;
  lr_length : length ns = length ds;
  lr_nodup : NoDup (0 :: ns);
  lr_head : head q = hd 0 ns;
  lr_tail : tail q = List.last ns 0;
  lr_dom : dom (structs h) = list_to_set ns;
  lr_nodes i n d : ns !! i = Some n → ds !! i = Some d → structs h !! n = Some (mkNode d (default 0 (ns !! S i))) }.

Lemma list_rep_empty (h : qheap) : heap_ok h → structs h = ∅ → list_rep h (mkQueue 0 0) [] [].
Proof.
  intros Hh Hs. split; try done.
  - apply NoDup_singleton.
  - by rewrite Hs, dom_empty_L.
Qed.

Lemma rep_head_nil h q ns ds : list_rep h q ns ds → (head q = 0 ↔ ds = []).
Proof.
  intros [_ Hl Hnd Hh _ _ _]. rewrite Hh. destruct ns as [|n ns], ds as [|d ds]; try done. cbn. split; [|done].
  intros ->. apply NoDup_cons in Hnd as [Hn _]. destruct Hn. left.
Qed.

Lemma rep_tail_nil h q ns ds : list_rep h q ns ds → (tail q = 0 ↔ ds = []).
Proof.
  intros [_ Hl Hnd _ Ht _ _]. rewrite Ht. destruct ns as [|n ns], ds as [|d ds]; try done. split; [|done].
  intros E. apply NoDup_cons in Hnd as [Hn _]. destruct Hn. rewrite <-E.
  destruct (exists_last (l := n :: ns)) as (l & x & El); [done|]. rewrite El, List.last_last.
  apply elem_of_app. right. left.
Qed.

Lemma heap_ok_set (h : qheap) a n : heap_ok h → is_Some (structs h !! a) → heap_ok (with_structs h (<[a := n]> (structs h))).
Proof. intros Hh Ha. apply heap_ok_smaller; [done|]. rewrite dom_insert_L. apply elem_of_dom in Ha. set_solver. Qed.

Lemma rep_last h q ns ds : list_rep h q ns ds → ds ≠ [] →
  ∃ ns' t, ns = ns' ++ [t] ∧ tail q = t ∧ ∃ d, ds !! length ns' = Some d ∧ structs h !! t = Some (mkNode d 0).
Proof.
  intros [_ Hl _ _ Ht _ Hn] Hne. destruct (exists_last (l := ns)) as (ns' & t & ->); [by destruct ns, ds|].
  exists ns', t. split; [done|]. rewrite List.last_last in Ht. split; [done|].
  rewrite length_app in Hl. cbn in Hl. destruct (lookup_lt_is_Some_2 ds (length ns') ltac:(lia)) as [d Hd]. exists d.
  split; [done|]. rewrite (Hn _ t d (list_lookup_middle ns' [] t _ eq_refl) Hd).
  rewrite lookup_ge_None_2; [done|]. rewrite length_app. cbn. lia.
Qed.

(** A new node behind the last one. *)
Lemma rep_snoc h q ns ds d h' a q' :
  list_rep h q ns ds → heap_ok h' → a ∉ 0 :: ns → structs h !! a = None →
  head q' = hd 0 (ns ++ [a]) → tail q' = a →
  (∀ x, structs h' !! x = if decide (x = a) then Some (mkNode d 0)
     else if decide (last ns = Some x) then (λ n, mkNode (data n) a) <$> structs h !! x else structs h !! x) →
  list_rep h' q' (ns ++ [a]) (ds ++ [d]).
Proof.
  intros [_ Hl Hnd _ _ Hdom Hn] Hh' Ha Hfresh Hhead Htail Hs'. split; try done.
  - rewrite !length_app. cbn. lia.
  - change (0 :: ns ++ [a]) with ((0 :: ns) ++ [a]). apply NoDup_app. split; [done|].
    split; [|apply NoDup_singleton]. intros x Hx ->%list_elem_of_singleton. done.
  - by rewrite Htail, List.last_last.
  - apply set_eq. intros x. rewrite elem_of_list_to_set, elem_of_dom, Hs', elem_of_app, list_elem_of_singleton.
    assert (x ∈ dom (structs h) ↔ x ∈ ns) as Hx by (by rewrite Hdom, elem_of_list_to_set). rewrite elem_of_dom in Hx.
    case_decide; [naive_solver|]. case_decide; [rewrite fmap_is_Some|]; naive_solver.
  - intros i n e Hi He. rewrite Hs'. destruct (decide (i < length ns)%nat) as [Hlt|Hge].
    + rewrite lookup_app_l in Hi by done. rewrite lookup_app_l in He by lia.
      assert (n ∈ ns) as Hin by (by eapply list_elem_of_lookup_2).
      rewrite decide_False by (intros ->; apply Ha; by right). rewrite (Hn _ _ _ Hi He). case_decide as El.
      * rewrite last_lookup in El. assert (i = pred (length ns)) as ->.
        { apply NoDup_cons in Hnd as [_ Hnd]. by eapply NoDup_lookup. }
        replace (S (pred (length ns))) with (length ns) by lia. by rewrite list_lookup_middle.
      * destruct (decide (S i < length ns)%nat); [by rewrite lookup_app_l|]. destruct El. rewrite last_lookup.
        by replace (pred (length ns)) with i by lia.
    + assert (i = length ns) as -> by (apply lookup_lt_Some in Hi; rewrite length_app in Hi; cbn in Hi; lia).
      rewrite list_lookup_middle in Hi by done. rewrite Hl, list_lookup_middle in He by done. injection Hi as <-. injection He as <-.
      rewrite decide_True by done. rewrite lookup_ge_None_2; [done|]. rewrite length_app. cbn. lia.
Qed.

(** A push adds the datum at the end, or changes nothing when there is no memory. *)
Lemma push_ok h q ns ds d :
  list_rep h q ns ds →
  returns (common_blocked_queue_push q d h) (λ '((r, q', notify), h'),
    (r = 0 ∧ notify = bool_decide (ds = []) ∧ ∃ n, list_rep h' q' (ns ++ [n]) (ds ++ [d])) ∨
    (r = ENOMEM ∧ notify = false ∧ q' = q ∧ list_rep h' q ns ds)).
Proof.
  intros Hrep. pose proof Hrep as [Hh Hl Hnd Hhd Htl Hdom Hn]. unfold common_blocked_queue_push, fast_mblock_alloc_object.
  apply (step_malloc_struct (mkNode (junk h) (junk h))); [done|..].
  - intros h' [(Hs & _ & Hh') _]. cbn. right. split_and!; [done..|]. split; try done; [by rewrite Hs|].
    intros i n e Hi He. rewrite Hs. by apply Hn.
  - intros h' Hs _ Hh' _. set (a := CMemory.next h) in *. pose proof (ok_next h Hh) as Ha0. fold a in Ha0.
    pose proof (ok_structs h Hh a ltac:(lia)) as Hfresh. rewrite (proj2 (Z.eqb_neq a 0)) by lia.
    assert (a ∉ 0 :: ns) as Han.
    { apply not_elem_of_cons. split; [lia|]. intros Hin. apply not_elem_of_dom in Hfresh. apply Hfresh.
      by rewrite Hdom, elem_of_list_to_set. }
    rewrite M_bind_eq. erewrite put_ok by (by rewrite Hs, lookup_insert_eq). cbn [mbind res_bind].
    assert (∀ x, x ≠ a → structs h' !! x = structs h !! x) as Hother by (intros; by rewrite Hs, lookup_insert_ne).
    destruct (Z.eqb_spec (tail q) 0) as [Ht|Ht].
    + assert (ds = []) as -> by (by apply (rep_tail_nil _ _ _ _ Hrep)). destruct ns; [|done]. cbn. left.
      split_and!; [done..|]. exists a. eapply (rep_snoc h q [] []); try done.
      * apply heap_ok_set; [done|]. by rewrite Hs, lookup_insert_eq.
      * intros x. cbn. case_decide as E; [subst; by rewrite lookup_insert_eq|]. rewrite lookup_insert_ne by congruence. by apply Hother.
    + assert (ds ≠ []) as Hne by (by intros ?%(rep_tail_nil _ _ _ _ Hrep)).
      destruct (rep_last _ _ _ _ Hrep Hne) as (ns' & t & -> & Et & e & He & Hte). rewrite Et.
      assert (t ≠ a) as Hta by congruence.
      rewrite M_bind_eq. erewrite deref_ok by (cbn; rewrite lookup_insert_ne, Hother by congruence; exact Hte).
      cbn [mbind res_bind]. rewrite M_bind_eq. erewrite put_ok by (cbn; rewrite lookup_insert_ne, Hother by congruence; exact Hte).
      cbn. left. split; [done|]. split; [by rewrite bool_decide_eq_false_2|]. exists a. eapply (rep_snoc h q); try done.
      * apply heap_ok_set; [apply heap_ok_set; [done|by rewrite Hs, lookup_insert_eq]|].
        cbn. rewrite lookup_insert_ne, Hother by congruence. by rewrite Hte.
      * cbn. rewrite Hhd. by destruct ns'.
      * intros x. cbn. rewrite last_snoc. destruct (decide (x = t)) as [->|Hxt].
        -- rewrite lookup_insert_eq, decide_False, decide_True by congruence. by rewrite Hte.
        -- rewrite lookup_insert_ne by congruence. destruct (decide (x = a)) as [->|Hxa]; [by rewrite lookup_insert_eq|].
           rewrite lookup_insert_ne by congruence. rewrite decide_False by congruence. by apply Hother.
Qed.

(** Taking gives the first datum and its node back, or NULL from an empty queue. *)
Lemma take_ok h q ns ds :
  list_rep h q ns ds →
  returns (common_blocked_queue_take q h) (λ '((d, q', some), h'),
    match ds with
    | [] => d = 0 ∧ some = false ∧ q' = q ∧ h' = h
    | x :: ds' => d = x ∧ some = true ∧ list_rep h' q' (List.tl ns) ds'
    end).
Proof.
  intros Hrep. pose proof Hrep as [Hh Hl Hnd Hhd Htl Hdom Hn]. unfold common_blocked_queue_take.
  destruct ds as [|x ds].
  - rewrite (proj2 (rep_head_nil _ _ _ _ Hrep) eq_refl). done.
  - destruct ns as [|n ns]; [done|]. rewrite Hhd. cbn [hd List.tl]. cbn in Hl.
    pose proof Hnd as [H0 [Hnn Hnd']%NoDup_cons]%NoDup_cons. apply not_elem_of_cons in H0 as [H0n H0].
    rewrite (proj2 (Z.eqb_neq n 0)) by congruence. cbn [negb].
    assert (structs h !! n = Some (mkNode x (hd 0 ns))) as E0.
    { rewrite (Hn 0%nat n x eq_refl eq_refl). by destruct ns. }
    rewrite M_bind_eq, (deref_ok _ _ _ E0). cbn [mbind res_bind next data].
    rewrite M_bind_eq. unfold free_struct. rewrite E0. cbn. split_and!; [done..|].
    split.
    + apply heap_ok_smaller; [done|]. rewrite dom_delete_L. set_solver.
    + lia.
    + by apply NoDup_cons.
    + done.
    + cbn. destruct ns as [|m ns]; [done|]. cbn [hd]. rewrite (proj2 (Z.eqb_neq m 0)); [exact Htl|].
      intros ->. apply H0. left.
    + cbn. rewrite dom_delete_L, Hdom. apply set_eq. intros y. rewrite elem_of_difference, elem_of_singleton, !elem_of_list_to_set, elem_of_cons.
      naive_solver.
    + intros i m e Hi He. cbn. rewrite lookup_delete_ne; [by apply (Hn (S i))|].
      intros ->. apply Hnn. by eapply list_elem_of_lookup_2.
Qed.

(** * All interleavings *)

(** Between [pthread_mutex_lock] and [pthread_mutex_unlock]. *)
Definition in_section (p : pc) : Prop :=
  match p with PushHas _ | PopHas _ | PopWoken => True | _ => False end.

(** What holds in every state: the queue has what was put in and not taken, in that
    order, in as many nodes; only the thread that has the lock is in a locked part. *)
Record queue_inv (s : system) (ds : list Z) : Prop := {
  qi_rep : ∃ ns, list_rep (mem s) (queue s) ns ds;
  qi_fifo : popped s ++ ds = pushed s;
  qi_lock t p : threads s !! t = Some p → in_section p → lock s = Some t }.

Lemma at_pc_inv s t p ds : queue_inv s ds → ¬ in_section p → queue_inv (at_pc s t p) ds.
Proof.
  intros [Hr Hf Hl] Hp. split; [done|done|]. cbn. intros t' p' [[-> <-]|[_ Ht]]%lookup_insert_Some Hs; [done|by eapply Hl].
Qed.

Lemma take_lock_inv s t p ds : queue_inv s ds → lock s = None → queue_inv (locked (at_pc s t p) (Some t)) ds.
Proof.
  intros [Hr Hf Hl] Hn. split; [done|done|]. cbn. intros t' p' [[-> _]|[_ Ht]]%lookup_insert_Some Hs; [done|].
  specialize (Hl _ _ Ht Hs). congruence.
Qed.

(** A thread that leaves its locked part; the others are not in one. *)
Lemma leave_section s t p :
  (∀ t p, threads s !! t = Some p → in_section p → lock s = Some t) → lock s = Some t → ¬ in_section p →
  ∀ t' p' l, <[t := p]> (threads s) !! t' = Some p' → in_section p' → l = Some t'.
Proof.
  intros Hl Ht Hp t' p' l [[-> <-]|[Hne Ht']]%lookup_insert_Some Hs; [done|]. specialize (Hl _ _ Ht' Hs). congruence.
Qed.

Lemma push_inv s t d r q notify h ds :
  queue_inv s ds → lock s = Some t → common_blocked_queue_push (queue s) d (mem s) = Done (r, q, notify, h) →
  queue_inv (did_push s t h q d r notify) (if r =? 0 then ds ++ [d] else ds) ∧ (notify = true ↔ ds = [] ∧ r = 0).
Proof.
  intros [[ns Hr] Hf Hl] Ht E. pose proof (push_ok _ _ _ _ d Hr) as HP. rewrite E in HP.
  destruct HP as [(-> & -> & n & Hr')|(-> & -> & -> & Hr')].
  - cbn [Z.eqb]. split; [|rewrite bool_decide_eq_true; tauto]. split; cbn; [by exists (ns ++ [n])|by rewrite app_assoc, Hf|].
    intros t' p' H1 H2. eapply leave_section; [exact Hl|exact Ht| |exact H1|exact H2]. destruct (bool_decide _); tauto.
  - change (ENOMEM =? 0) with false. cbn iota. split; [|naive_solver]. split; cbn; [by exists ns|done|].
    intros t' p' H1 H2. eapply leave_section; [exact Hl|exact Ht| |exact H1|exact H2]. tauto.
Qed.

Lemma pop_inv s t d q some h ds :
  queue_inv s ds → lock s = Some t → common_blocked_queue_take (queue s) (mem s) = Done (d, q, some, h) →
  queue_inv (did_pop s t h q d some) (List.tl ds).
Proof.
  intros [[ns Hr] Hf Hl] Ht E. pose proof (take_ok _ _ _ _ Hr) as HP. rewrite E in HP.
  assert (∀ t' p', <[t := Idle]> (threads s) !! t' = Some p' → in_section p' → None = Some t') as Hl'.
  { intros t' p' H1 H2. eapply leave_section; [exact Hl|exact Ht| |exact H1|exact H2]. tauto. }
  destruct ds as [|x ds].
  - destruct HP as (-> & -> & -> & ->). by split; [exists ns| |].
  - destruct HP as (-> & -> & Hr'). split; cbn; [by eexists|by rewrite <-app_assoc|exact Hl'].
Qed.

Lemma step_inv consumer s s' ds : queue_inv s ds → any_step consumer s s' → ∃ ds', queue_inv s' ds'.
Proof.
  intros Hi [Hs|Hs]; [|destruct Hs; exists ds; apply at_pc_inv; tauto].
  destruct Hs as [s t d|s t d Hp Hl|s t d r q notify h Hp Hl E|s t|s t w|s t|s t b|s t b Hp Hl|s t Hp Hl Hq|s t b d q some h Hp Hl Hq E|s t Hp Hl|s t d q some h Hp Hl E].
  - exists ds. apply at_pc_inv; tauto.
  - exists ds. by apply take_lock_inv.
  - eexists. by eapply push_inv.
  - exists ds. apply at_pc_inv; tauto.
  - exists ds. apply at_pc_inv; [apply at_pc_inv; tauto|tauto].
  - exists ds. apply at_pc_inv; tauto.
  - exists ds. apply at_pc_inv; tauto.
  - exists ds. by apply take_lock_inv.
  - exists ds. destruct Hi as [Hr Hf Hlk]. split; [done|done|]. cbn. intros t' p' H1 H2.
    eapply leave_section; [exact Hlk|exact Hl| |exact H1|exact H2]. tauto.
  - eexists. by eapply pop_inv.
  - exists ds. by apply take_lock_inv.
  - eexists. by eapply pop_inv.
Qed.

Lemma initial_pc n h t p : threads (initial n h) !! t = Some p → p = Idle.
Proof. cbn. by intros [_ ?]%lookup_gset_to_gmap_Some. Qed.

Lemma initial_inv n h : heap_ok h → structs h = ∅ → queue_inv (initial n h) [].
Proof.
  intros Hh Hs. split; [exists []; by apply list_rep_empty|done|]. intros t p Hp. apply initial_pc in Hp as ->. done.
Qed.

Lemma reachable_inv consumer n h s :
  heap_ok h → structs h = ∅ → rtc (any_step consumer) (initial n h) s → ∃ ds, queue_inv s ds.
Proof.
  intros Hh Hs. assert (∃ ds, queue_inv (initial n h) ds) as H0 by (exists []; by apply initial_inv).
  revert H0. generalize (initial n h). intros s0 H0 Hr. induction Hr as [|s1 s2 s3 Hst _ IH]; [done|]. apply IH.
  destruct H0 as [ds Hi]. by eapply step_inv.
Qed.

(** C16. However any number of threads interleave, the data come out of the queue in the
    order in which they were put in, none lost, doubled or invented; the nodes allocated
    are those of the data still in the queue; and what a thread does under the lock is
    defined and done by one thread at a time. *)
Theorem common_blocked_queue_fifo consumer n h s :
  heap_ok h → structs h = ∅ → rtc (any_step consumer) (initial n h) s →
  ∃ ds, popped s ++ ds = pushed s ∧ size (structs (mem s)) = length ds ∧
    (head (queue s) = 0 ↔ ds = []) ∧
    (∀ t p, threads s !! t = Some p → in_section p → lock s = Some t) ∧
    (∀ d, is_Some (match common_blocked_queue_push (queue s) d (mem s) with Done r => Some r | _ => None end)) ∧
    is_Some (match common_blocked_queue_take (queue s) (mem s) with Done r => Some r | _ => None end).
Proof.
  intros Hh Hs Hr. destruct (reachable_inv consumer n h s Hh Hs Hr) as (ds & [[ns Hrep] Hf Hl]). exists ds. split; [done|]. split_and!.
  - rewrite <-(lr_length _ _ _ _ Hrep), <-size_dom, (lr_dom _ _ _ _ Hrep). apply size_list_to_set.
    by pose proof (lr_nodup _ _ _ _ Hrep) as [_ ?]%NoDup_cons.
  - by eapply rep_head_nil.
  - exact Hl.
  - intros d. pose proof (push_ok _ _ _ _ d Hrep) as HP. by destruct (common_blocked_queue_push _ _ _).
  - pose proof (take_ok _ _ _ _ Hrep) as HP. by destruct (common_blocked_queue_take _ _).
Qed.

(** * Sleeping and waking *)

(** A push into a queue that is not empty does not signal. *)
Lemma push_silent h q ns ds d r q' notify h' :
  list_rep h q ns ds → ds ≠ [] → common_blocked_queue_push q d h = Done (r, q', notify, h') → notify = false.
Proof.
  intros Hr Hne E. pose proof (push_ok _ _ _ _ d Hr) as HP. rewrite E in HP.
  destruct HP as [(_ & -> & _)|(_ & -> & _)]; [by apply bool_decide_eq_false_2|done].
Qed.

(** What only the consumers are in. *)
Definition popping (p : pc) : Prop :=
  match p with PopWants _ | PopHas _ | Waits | Woken | PopWoken => True | _ => False end.

(** With one consumer: while it sleeps a queue that is not empty has a signal to come. *)
Record awake_inv (c : nat) (s : system) (ds : list Z) : Prop := {
  ai_queue : queue_inv s ds;
  ai_only t p : threads s !! t = Some p → popping p → t = c;
  ai_signal : threads s !! c = Some Waits → ds ≠ [] → ∃ t, threads s !! t = Some Signals }.

(** A step of another thread that neither ends a signal nor fills the queue. *)
Lemma awake_keep c s s' ds t p p' :
  awake_inv c s ds → queue_inv s' ds → threads s !! t = Some p → p ≠ Signals →
  threads s' = <[t := p']> (threads s) → (popping p' → t = c) → (p' = Waits → ds = []) → awake_inv c s' ds.
Proof.
  intros [_ Ho Hsig] Hq Ht Hp Es Hpop Hw. split; [done|..]; rewrite Es.
  - intros t' q [[-> <-]|[_ H]]%lookup_insert_Some Hpp; [by apply Hpop|by eapply Ho].
  - intros [[-> Ew]|[Hne H]]%lookup_insert_Some Hne'; [by specialize (Hw Ew)|]. destruct (Hsig H Hne') as [u Hu].
    exists u. rewrite lookup_insert_ne; [done|]. intros ->. congruence.
Qed.

Lemma awake_step c s s' ds :
  awake_inv c s ds → any_step (λ t, t = c) s s' → ∃ ds', awake_inv c s' ds'.
Proof.
  intros Hi Hst. pose proof Hi as [Hq Ho Hsig].
  assert (∀ t p, threads s !! t = Some p → popping p → t = c) as Hc by exact Ho.
  destruct Hst as [Hs|Hs].
  2: { destruct Hs as [s t Hp]. exists ds. eapply (awake_keep c s _ ds t Waits Woken); try done.
       - apply at_pc_inv; tauto.
       - intros _. by eapply Hc. }
  destruct Hs as [s t d Hp|s t d Hp Hl|s t d r q notify h Hp Hl E|s t Hp|s t w Hp Hw|s t Hp Hn|s t b Hp Ht|s t b Hp Hl|s t Hp Hl Hz|s t b d q some h Hp Hl Hz E|s t Hp Hl|s t d q some h Hp Hl E].
  - exists ds. eapply (awake_keep c s _ ds t Idle (PushWants d)); try done. apply at_pc_inv; tauto.
  - exists ds. eapply (awake_keep c s _ ds t (PushWants d) (PushHas d)); try done. by apply take_lock_inv.
  - destruct (push_inv s t d r q notify h ds Hq Hl E) as [Hq' Hnot]. eexists. split; [exact Hq'|..]; cbn.
    + intros t' p [[-> <-]|[_ H]]%lookup_insert_Some Hpp; [by destruct notify|by eapply Ho].
    + intros [[-> Hw]|[Hne H]]%lookup_insert_Some Hne'; [by destruct notify|].
      destruct (decide (ds = [] ∧ r = 0)) as [Hd|Hd].
      * apply Hnot in Hd as ->. exists t. apply lookup_insert_eq.
      * assert (ds ≠ []) as Hds by (intros ->; apply Hd; destruct (Z.eqb_spec r 0); naive_solver).
        destruct (Hsig H Hds) as [u Hu]. exists u. rewrite lookup_insert_ne; [done|]. intros ->. congruence.
  - exists ds. split; [apply at_pc_inv; tauto|..]; cbn.
    + intros t' p [[-> <-]|[_ H]]%lookup_insert_Some Hpp; [done|by eapply Ho].
    + intros _ _. exists t. apply lookup_insert_eq.
  - assert (w = c) as -> by (by eapply Hc). exists ds. split; [apply at_pc_inv; [apply at_pc_inv; tauto|tauto]|..]; cbn.
    + intros t' p [[-> <-]|[_ [[-> <-]|[_ H]]%lookup_insert_Some]]%lookup_insert_Some Hpp; [done..|by eapply Ho].
    + intros [[-> ?]|[_ [[_ ?]|[? _]]%lookup_insert_Some]]%lookup_insert_Some; done.
  - exists ds. split; [apply at_pc_inv; tauto|..]; cbn.
    + intros t' p [[-> <-]|[_ H]]%lookup_insert_Some Hpp; [done|by eapply Ho].
    + intros [[-> ?]|[_ H]]%lookup_insert_Some; [done|]. by apply Hn in H.
  - exists ds. eapply (awake_keep c s _ ds t Idle (PopWants b)); try done. apply at_pc_inv; tauto.
  - exists ds. eapply (awake_keep c s _ ds t (PopWants b) (PopHas b)); try done; [by apply take_lock_inv|]. intros _. by eapply Hc.
  - destruct (step_inv (λ t, t = c) s _ ds Hq (or_introl (pop_wait _ s t Hp Hl Hz))) as [ds' Hq'].
    assert (ds' = ds) as ->.
    { pose proof (qi_fifo _ _ Hq') as F'. pose proof (qi_fifo _ _ Hq) as F. cbn in F'. rewrite <-F in F'. by apply app_inv_head in F'. }
    exists ds. eapply (awake_keep c s _ ds t (PopHas true) Waits); try done; intros _; [by eapply Hc|].
    destruct Hq as [[ns Hr] _ _]. by eapply rep_head_nil.
  - assert (t = c) as -> by (by eapply Hc). exists (List.tl ds). split; [by eapply pop_inv|..]; cbn.
    + intros t' p [[-> <-]|[_ H]]%lookup_insert_Some Hpp; [done|by eapply Ho].
    + rewrite lookup_insert_eq. done.
  - exists ds. eapply (awake_keep c s _ ds t Woken PopWoken); try done; [by apply take_lock_inv|]. intros _. by eapply Hc.
  - assert (t = c) as -> by (by eapply Hc). exists (List.tl ds). split; [by eapply pop_inv|..]; cbn.
    + intros t' p [[-> <-]|[_ H]]%lookup_insert_Some Hpp; [done|by eapply Ho].
    + rewrite lookup_insert_eq. done.
Qed.

(** C17. With one consumer no wake-up is lost: in every state in which it sleeps on a
    queue that is not empty, some thread is about to signal, and with no other thread
    asleep that signal is for the consumer. *)
Theorem single_consumer_woken c n h s :
  heap_ok h → structs h = ∅ → rtc (any_step (λ t, t = c)) (initial n h) s →
  threads s !! c = Some Waits → head (queue s) ≠ 0 →
  ∃ t, threads s !! t = Some Signals ∧ ∀ s', step (λ t, t = c) s s' → threads s' !! t = Some Idle → threads s' !! c = Some Woken.
Proof.
  intros Hh Hs Hr. assert (∃ ds, awake_inv c (initial n h) ds) as H0.
  { exists []. split; [by apply initial_inv| |done]. intros t p Hp%initial_pc. by subst. }
  assert (∃ ds, awake_inv c s ds) as (ds & [[[ns Hrep] _ _] Ho Hsig]).
  { revert H0 Hr. generalize (initial n h). intros s0 H0 Hr. induction Hr as [|s1 s2 s3 Hst _ IH]; [done|]. apply IH.
    destruct H0 as [ds Hi]. by eapply awake_step. }
  intros Hw Hne. destruct (Hsig Hw) as [t Ht]; [intros Eds; apply Hne; by eapply rep_head_nil|]. exists t. split; [done|].
  assert (t ≠ c) as Htc by congruence.
  intros s' Hstep Hidle.
  assert (∀ u p, u ≠ t → (<[u := p]> (threads s)) !! t = Some Signals) as Hother by (intros; by rewrite lookup_insert_ne).
  destruct Hstep as [s u d Hp|s u d Hp Hl|s u d r q notify h' Hp Hl E|s u Hp|s u w Hp Hw'|s u Hp Hn|s u b Hp Hu|s u b Hp Hl|s u Hp Hl Hz|s u b d q some h' Hp Hl Hz E|s u Hp Hl|s u d q some h' Hp Hl E];
    cbn in Hidle |- *; try (rewrite Hother in Hidle by congruence; discriminate).
  - assert (w = c) as -> by (by eapply Ho).
    destruct (decide (u = t)) as [->|Hut]; [by rewrite lookup_insert_ne, lookup_insert_eq|].
    rewrite lookup_insert_ne, lookup_insert_ne in Hidle by congruence. congruence.
Qed.

(** ** Two consumers *)

Definition two_and_one : system := initial 3 (mkHeap ∅ ∅ 1 [] 0).

(** A step of a given kind; its conditions hold by computation. *)
Tactic Notation "thread_step" uconstr(c) := eapply rtc_l; [eapply c; first [reflexivity|done|vm_compute; reflexivity]|].

Lemma two_pushes :
  ∃ s, rtc (step (λ t, t ≠ 2%nat)) two_and_one s ∧
    threads s !! 0%nat = Some Idle ∧ threads s !! 1%nat = Some Waits ∧ threads s !! 2%nat = Some Idle ∧
    pushed s = [7; 8] ∧ popped s = [7] ∧ head (queue s) ≠ 0.
Proof.
  eexists. split.
  { unfold two_and_one.
    thread_step (call_pop (λ t, t ≠ 2%nat) _ 0 true). thread_step (pop_lock (λ t, t ≠ 2%nat) _ 0 true). thread_step (pop_wait (λ t, t ≠ 2%nat) _ 0).
    thread_step (call_pop (λ t, t ≠ 2%nat) _ 1 true). thread_step (pop_lock (λ t, t ≠ 2%nat) _ 1 true). thread_step (pop_wait (λ t, t ≠ 2%nat) _ 1).
    thread_step (call_push (λ t, t ≠ 2%nat) _ 2 7). thread_step (push_lock (λ t, t ≠ 2%nat) _ 2 7).
    thread_step (push_body (λ t, t ≠ 2%nat) _ 2 7). thread_step (signal_one (λ t, t ≠ 2%nat) _ 2 0).
    thread_step (call_push (λ t, t ≠ 2%nat) _ 2 8). thread_step (push_lock (λ t, t ≠ 2%nat) _ 2 8).
    thread_step (push_body (λ t, t ≠ 2%nat) _ 2 8).
    thread_step (relock (λ t, t ≠ 2%nat) _ 0). thread_step (woken_body (λ t, t ≠ 2%nat) _ 0).
    apply rtc_refl. }
  split_and!; try reflexivity; done.
Qed.

(** With two consumers a wake-up is lost: both sleep; of two pushes only the first
    signals; the consumer it wakes takes one datum, and the other goes on sleeping
    although the queue has a datum, no thread is about to signal, and no push will. No
    spurious wake-up is needed. *)
Theorem lost_wakeup :
  ∃ s, rtc (step (λ t, t ≠ 2%nat)) two_and_one s ∧
    threads s !! 0%nat = Some Idle ∧ threads s !! 1%nat = Some Waits ∧ threads s !! 2%nat = Some Idle ∧
    pushed s = [7; 8] ∧ popped s = [7] ∧ head (queue s) ≠ 0 ∧
    ∀ d r q notify h, common_blocked_queue_push (queue s) d (mem s) = Done (r, q, notify, h) → notify = false.
Proof.
  destruct two_pushes as (s & Hr & H0 & H1 & H2 & Hpu & Hpo & Hh). exists s. split_and!; try done.
  destruct (reachable_inv (λ t, t ≠ 2%nat) 3 (mkHeap ∅ ∅ 1 [] 0) s) as (ds & [[ns Hrep] _ _]); [by split|done| |].
  - eapply rtc_subrel; [|exact Hr]. intros s1 s2 Hs. by left.
  - intros d r q notify h E. eapply push_silent; [exact Hrep| |exact E]. intros Eds. by apply Hh, (rep_head_nil _ _ _ _ Hrep).
Qed.

(** * Tasks as nodes *)

Lemma put_again a n (h h' : qheap) : put a n h = Done (tt, h') → structs h' !! a = Some n ∧ put a n h' = Done (tt, h').
Proof.
  unfold put. destruct (structs h !! a); [|done]. intros [= <-]. cbn. rewrite lookup_insert_eq. split; [done|].
  unfold with_structs. cbn. by rewrite insert_insert_eq.
Qed.

(** The two queues do the same: a push of the common one is that of the task queue on
    a node it has allocated and filled, and what it takes is what the task queue takes,
    with the node's datum read and the node freed. *)
Theorem task_queue_same (q : common_blocked_queue) d (h : qheap) :
  common_blocked_queue_push q d h =
    (node ← fast_mblock_alloc_object;
     if node =? 0 then mret (ENOMEM, q, false) else
     put node (mkNode d 0);; '(q, notify) ← blocked_queue_push q node; mret (0, q, notify)) h ∧
  common_blocked_queue_take q h =
    ('(node, q') ← blocked_queue_take q;
     if node =? 0 then mret (0, q, false) else n ← deref node; free_struct node;; mret (data n, q', true)) h.
Proof.
  split.
  - unfold common_blocked_queue_push. rewrite !M_bind_eq. destruct (fast_mblock_alloc_object h) as [[node h1]| |]; [|done..].
    cbn [mbind res_bind]. destruct (node =? 0); [done|]. rewrite !M_bind_eq.
    destruct (put node (mkNode d 0) h1) as [[[] h2]| |] eqn:Ep; [|done..]. destruct (put_again _ _ _ _ Ep) as [En Ep2].
    cbn [mbind res_bind]. unfold blocked_queue_push. rewrite !M_bind_eq, (deref_ok _ _ _ En). cbn [mbind res_bind data].
    rewrite M_bind_eq, Ep2. cbn [mbind res_bind]. destruct (tail q =? 0); [done|].
    rewrite !M_bind_eq. destruct (deref (tail q) h2) as [[t h3]| |]; [|done..].
    cbn [mbind res_bind]. rewrite !M_bind_eq. by destruct (put (tail q) _ h3) as [[[] h4]| |].
  - unfold common_blocked_queue_take, blocked_queue_take. destruct (Z.eqb_spec (head q) 0) as [E|E]; cbn [negb]; [done|].
    rewrite !M_bind_eq. destruct (structs h !! head q) as [n|] eqn:En; [|by unfold deref; rewrite En].
    rewrite (deref_ok _ _ _ En). cbn. rewrite (proj2 (Z.eqb_neq _ _) E). by rewrite (M_bind_eq (deref _)), (deref_ok _ _ _ En).
Qed.

(** * Witnesses *)

Lemma common_blocked_queue_fifo_witness :
  ∃ s, pushed s = [7; 8] ∧ popped s = [7] ∧
  ∃ ds, popped s ++ ds = pushed s ∧ size (structs (mem s)) = length ds ∧
    (head (queue s) = 0 ↔ ds = []) ∧
    (∀ t p, threads s !! t = Some p → in_section p → lock s = Some t) ∧
    (∀ d, is_Some (match common_blocked_queue_push (queue s) d (mem s) with Done r => Some r | _ => None end)) ∧
    is_Some (match common_blocked_queue_take (queue s) (mem s) with Done r => Some r | _ => None end).
Proof.
  destruct two_pushes as (s & Hr & _ & _ & _ & Hpu & Hpo & _). exists s. do 2 (split; [done|]).
  apply (common_blocked_queue_fifo (λ t, t ≠ 2%nat) 3 (mkHeap ∅ ∅ 1 [] 0)); [by split|done|].
  eapply rtc_subrel; [|exact Hr]. intros s1 s2 Hs. by left.
Defined.

Lemma sleeping_consumer :
  ∃ s, rtc (any_step (λ t, t = 0%nat)) (initial 2 (mkHeap ∅ ∅ 1 [] 0)) s ∧
    threads s !! 0%nat = Some Waits ∧ head (queue s) ≠ 0.
Proof.
  assert (∃ s, rtc (step (λ t, t = 0%nat)) (initial 2 (mkHeap ∅ ∅ 1 [] 0)) s ∧ threads s !! 0%nat = Some Waits ∧ head (queue s) ≠ 0)
    as (s & Hr & Hs).
  { eexists. split.
    { thread_step (call_pop (λ t, t = 0%nat) _ 0 true). thread_step (pop_lock (λ t, t = 0%nat) _ 0 true).
      thread_step (pop_wait (λ t, t = 0%nat) _ 0). thread_step (call_push (λ t, t = 0%nat) _ 1 7).
      thread_step (push_lock (λ t, t = 0%nat) _ 1 7). thread_step (push_body (λ t, t = 0%nat) _ 1 7). apply rtc_refl. }
    split; [reflexivity|done]. }
  exists s. split; [|done]. eapply rtc_subrel; [|exact Hr]. intros s1 s2 H. by left.
Qed.

Lemma single_consumer_woken_witness :
  ∃ s t, threads s !! 0%nat = Some Waits ∧ threads s !! t = Some Signals ∧
    ∀ s', step (λ t, t = 0%nat) s s' → threads s' !! t = Some Idle → threads s' !! 0%nat = Some Woken.
Proof.
  destruct sleeping_consumer as (s & Hr & Hw & Hh). exists s.
  destruct (single_consumer_woken 0 2 (mkHeap ∅ ∅ 1 [] 0) s) as (t & Ht & Hs); [by split|done|exact Hr|exact Hw|exact Hh|].
  by exists t.
Defined.
