(* ===== verification/Mpool.v ===== *)
(** The region allocator of libs/fastcommon/src/fast_mpool.c.

    A trunk is one allocation: a header and behind it the bytes that are handed out. In
    the model the header is an object of the heap and the bytes are the block of the same
    address. Regions are never given back one by one; a reset takes all of them back. *)
From S2P Require Import Prelude CMemory CString.

(** * Code *)

Record fast_mpool_malloc := mkMalloc {
  alloc_size : Z; base_ptr : ptr; end_ptr : ptr; free_ptr : ptr; malloc_next : Z; free_next : Z }.

Record fast_mpool_man := mkMan {
  malloc_chain_head : Z; free_chain_head : Z; alloc_size_once : Z; discard_size : Z }.

Record fast_mpool_stats := mkStats {
  total_bytes : Z; free_bytes : Z; total_trunk_count : Z; free_trunk_count : Z }.

Record string_t := mkString { str : option ptr; len : Z }.

Abbreviation pheap := (heap fast_mpool_malloc).
Abbreviation PM := (M fast_mpool_malloc).

Definition ENOMEM : Z := 12.
Definition sizeof_malloc : Z := 48.

Definition with_free_ptr (p : ptr) (t : fast_mpool_malloc) : fast_mpool_malloc :=
  mkMalloc (alloc_size t) (base_ptr t) (end_ptr t) p (malloc_next t) (free_next t).
Definition with_free_next (a : Z) (t : fast_mpool_malloc) : fast_mpool_malloc :=
  mkMalloc (alloc_size t) (base_ptr t) (end_ptr t) (free_ptr t) (malloc_next t) a.
Definition with_free_head (a : Z) (m : fast_mpool_man) : fast_mpool_man :=
  mkMan (malloc_chain_head m) a (alloc_size_once m) (discard_size m).

(** The difference of two pointers into one block, as an int; an int64_t sum. *)
Definition pdiff (p q : ptr) : res Z := if p.1 =? q.1 then Done (sext 32 (p.2 - q.2)) else Undef.
Definition c64 (z : Z) : res Z := if (LONG_MIN <=? z) && (z <=? LONG_MAX) then Done z else Undef.

(** [p += n], which stays inside the block or points to its end. *)
Definition advance (p : ptr) (n : Z) : PM ptr := λ h,
  match blocks h !! p.1 with
  | Some b => if (0 <=? p.2 + n) && (p.2 + n <=? zlen b) then Done (padd p n, h) else Undef
  | None => Undef
  end.

(** [malloc(bytes)] for a header and the bytes behind it; [bytes] is an int that becomes a
    size_t, and no object is larger than PTRDIFF_MAX. *)
Definition malloc_node (bytes : Z) : PM Z := λ h,
  '(ok, h) ← outcome h;
  if ok && (u64 bytes <=? LONG_MAX) then
    let header := mkMalloc (junk h) (0, junk h) (0, junk h) (0, junk h) (junk h) (junk h) in
    Done (next h, Heap (<[next h := header]> (structs h))
      (<[next h := replicate (Z.to_nat (bytes - sizeof_malloc)) (junk h)]> (blocks h)) (next h + 1) (outcomes h) (junk h) (oom h))
  else Done (0, h).

Definition free_node (a : Z) : PM unit := free_struct a;; free (a, 0).

Definition out_of_fuel {A} : PM A := λ _, OutOfFuel.

(** No chain has more nodes than there are. *)
Definition chain_fuel : PM nat := λ h, Done (S (size (structs h)), h).

Definition fast_mpool_init (alloc_size_once discard_size : Z) : Z * fast_mpool_man :=
  (0, mkMan 0 0 (if 0 <? alloc_size_once then alloc_size_once else 1024 * 1024)
        (if 0 <? discard_size then discard_size else 64)).

Definition fast_mpool_prealloc (mpool : fast_mpool_man) (alloc_size : Z) : PM (Z * fast_mpool_man) :=
  let bytes := sext 32 (sizeof_malloc + alloc_size) in
  pMallocNode ← malloc_node bytes;
  if pMallocNode =? 0 then mret (ENOMEM, mpool) else
  let base_ptr := (pMallocNode, 0) in
  put pMallocNode (mkMalloc alloc_size base_ptr (padd base_ptr alloc_size) base_ptr
    (malloc_chain_head mpool) (free_chain_head mpool));;
  mret (0, mkMan pMallocNode pMallocNode (alloc_size_once mpool) (discard_size mpool)).

Fixpoint destroy_loop (fuel : nat) (pMallocNode : Z) : PM unit :=
  match fuel with
  | O => out_of_fuel
  | S fuel =>
      if pMallocNode =? 0 then mret tt else
      n ← deref pMallocNode;
      free_node pMallocNode;;
      destroy_loop fuel (malloc_next n)
  end.

Definition fast_mpool_destroy (mpool : fast_mpool_man) : PM fast_mpool_man :=
  if malloc_chain_head mpool =? 0 then mret mpool else
  fuel ← chain_fuel;
  destroy_loop fuel (malloc_chain_head mpool);;
  mret (mkMan 0 0 (alloc_size_once mpool) (discard_size mpool)).

Fixpoint remove_loop (fuel : nat) (previous pMallocNode : Z) : PM unit :=
  match fuel with
  | O => out_of_fuel
  | S fuel =>
      p ← deref previous;
      if free_next p =? 0 then mret tt else
      if free_next p =? pMallocNode then
        n ← deref pMallocNode; put previous (with_free_next (free_next n) p)
      else remove_loop fuel (free_next p) pMallocNode
  end.

Definition fast_mpool_remove_free_node (mpool : fast_mpool_man) (pMallocNode : Z) : PM fast_mpool_man :=
  if free_chain_head mpool =? pMallocNode then
    n ← deref pMallocNode; mret (with_free_head (free_next n) mpool)
  else
    fuel ← chain_fuel;
    remove_loop fuel (free_chain_head mpool) pMallocNode;;
    mret mpool.

Definition fast_mpool_do_alloc (mpool : fast_mpool_man) (pMallocNode size : Z) : PM (option ptr * fast_mpool_man) :=
  n ← deref pMallocNode;
  room ← lift (pdiff (end_ptr n) (free_ptr n));
  if size <=? room then
    let p := free_ptr n in
    q ← advance p size;
    put pMallocNode (with_free_ptr q n);;
    rest ← lift (pdiff (end_ptr n) q);
    mpool ← (if rest <=? discard_size mpool then fast_mpool_remove_free_node mpool pMallocNode else mret mpool);
    mret (Some p, mpool)
  else mret (None, mpool).

Fixpoint alloc_loop (fuel : nat) (mpool : fast_mpool_man) (pMallocNode size : Z) : PM (option ptr * fast_mpool_man) :=
  match fuel with
  | O => out_of_fuel
  | S fuel =>
      if pMallocNode =? 0 then mret (None, mpool) else
      '(p, mpool) ← fast_mpool_do_alloc mpool pMallocNode size;
      match p with
      | Some p => mret (Some p, mpool)
      | None => n ← deref pMallocNode; alloc_loop fuel mpool (free_next n) size
      end
  end.

Definition fast_mpool_alloc (mpool : fast_mpool_man) (size : Z) : PM (option ptr * fast_mpool_man) :=
  fuel ← chain_fuel;
  '(p, mpool) ← alloc_loop fuel mpool (free_chain_head mpool) size;
  match p with
  | Some p => mret (Some p, mpool)
  | None =>
      let alloc_size := if size <? alloc_size_once mpool then alloc_size_once mpool else size in
      '(result, mpool) ← fast_mpool_prealloc mpool alloc_size;
      if result =? 0 then fast_mpool_do_alloc mpool (free_chain_head mpool) size else mret (None, mpool)
  end.

Definition fast_mpool_strdup_ex (mpool : fast_mpool_man) (dest : string_t) (src : ptr) (n : Z)
    : PM (Z * string_t * fast_mpool_man) :=
  '(p, mpool) ← fast_mpool_alloc mpool n;
  match p with
  | None => mret (ENOMEM, mkString None (len dest), mpool)
  | Some p =>
      (if 0 <? n then memcpy p src n else mret tt);;
      mret (0, mkString (Some p) n, mpool)
  end.

(** [src] is NULL or ended by 0; its length becomes an int. *)
Definition fast_mpool_strdup (mpool : fast_mpool_man) (dest : string_t) (src : option ptr)
    : PM (Z * string_t * fast_mpool_man) :=
  match src with
  | None => fast_mpool_strdup_ex mpool dest (0, 0) 0
  | Some s => λ h,
      match blocks h !! s.1 with
      | Some b => n ← strlen b s.2; fast_mpool_strdup_ex mpool dest s (sext 32 n) h
      | None => Undef
      end
  end.

Definition fast_mpool_strdup2 (mpool : fast_mpool_man) (dest src : string_t) : PM (Z * string_t * fast_mpool_man) :=
  fast_mpool_strdup_ex mpool dest (default (0, 0) (str src)) (len src).

Fixpoint reset_loop (fuel : nat) (mpool : fast_mpool_man) (pMallocNode : Z) : PM fast_mpool_man :=
  match fuel with
  | O => out_of_fuel
  | S fuel =>
      if pMallocNode =? 0 then mret mpool else
      n ← deref pMallocNode;
      put pMallocNode (with_free_next (free_chain_head mpool) (with_free_ptr (base_ptr n) n));;
      reset_loop fuel (with_free_head pMallocNode mpool) (malloc_next n)
  end.

Definition fast_mpool_reset (mpool : fast_mpool_man) : PM fast_mpool_man :=
  fuel ← chain_fuel;
  reset_loop fuel (with_free_head 0 mpool) (malloc_chain_head mpool).

Fixpoint trunk_stats (fuel : nat) (stats : fast_mpool_stats) (pMallocNode : Z) : PM fast_mpool_stats :=
  match fuel with
  | O => out_of_fuel
  | S fuel =>
      if pMallocNode =? 0 then mret stats else
      n ← deref pMallocNode;
      t ← lift (c64 (total_bytes stats + alloc_size n));
      room ← lift (pdiff (end_ptr n) (free_ptr n));
      f ← lift (c64 (free_bytes stats + room));
      c ← lift (cint (total_trunk_count stats + 1));
      trunk_stats fuel (mkStats t f c (free_trunk_count stats)) (malloc_next n)
  end.

Fixpoint free_stats (fuel : nat) (stats : fast_mpool_stats) (pMallocNode : Z) : PM fast_mpool_stats :=
  match fuel with
  | O => out_of_fuel
  | S fuel =>
      if pMallocNode =? 0 then mret stats else
      c ← lift (cint (free_trunk_count stats + 1));
      n ← deref pMallocNode;
      free_stats fuel (mkStats (total_bytes stats) (free_bytes stats) (total_trunk_count stats) c) (free_next n)
  end.

Definition fast_mpool_get_stats (mpool : fast_mpool_man) : PM fast_mpool_stats :=
  fuel ← chain_fuel;
  stats ← trunk_stats fuel (mkStats 0 0 0 0) (malloc_chain_head mpool);
  free_stats fuel stats (free_chain_head mpool).

(** * Chains *)

Section linked.
Context (get : fast_mpool_malloc → Z).
Implicit Types (s : gmap Z fast_mpool_malloc) (l : list Z).

(** From [a] on the links [get] go through [l] to NULL. *)
Fixpoint linked s (a : Z) l : Prop :=
match l with
| [] => a = 0
| x :: l => a = x ∧ x ≠ 0 ∧ ∃ t, s !! x = Some t ∧ linked s (get t) l
end.

Lemma linked_same_ext s s' a l :
(∀ x, x ∈ l → get <$> s !! x = get <$> s' !! x) → linked s a l → linked s' a l.
Proof.
revert a. induction l as [|x l IH]; intros a Hs; [done|]. intros (-> & Hx & t & Ht & Hl). split; [done|]. split; [done|].
specialize (Hs x ltac:(left)) as E. rewrite Ht in E. cbn in E. destruct (s' !! x) as [t'|]; [|done].
injection E as E. exists t'. split; [done|]. rewrite <-E. apply IH; [|done]. intros y Hy. apply Hs. by right.
Qed.

Lemma linked_insert_ne s a l x t : x ∉ l → linked s a l → linked (<[x := t]> s) a l.
Proof. intros Hx. apply linked_same_ext. intros y Hy. rewrite lookup_insert_ne; [done|]. by intros ->. Qed.

Lemma linked_insert_same s a l x t t' : s !! x = Some t → get t' = get t → linked s a l → linked (<[x := t']> s) a l.
Proof.
intros Hx E. apply linked_same_ext. intros y Hy. destruct (decide (x = y)) as [->|Hne].
- rewrite lookup_insert_eq, Hx. cbn. by rewrite E.
- by rewrite lookup_insert_ne.
Qed.

Lemma linked_zero s l : linked s 0 l → l = [].
Proof. destruct l; [done|]. intros (<- & ? & _). done. Qed.
End linked.

(** * The trunks of a pool *)

(** How much of a trunk has been handed out. *)
Definition used (s : gmap Z fast_mpool_malloc) (a : Z) : Z :=
  match s !! a with Some t => (free_ptr t).2 | None => 0 end.

(** The pointers of a trunk: into its own block, within its size. *)
Record trunk_ok (h : pheap) (a : Z) (t : fast_mpool_malloc) : Prop := {
  to_base : base_ptr t = (a, 0);
  to_end : end_ptr t = (a, alloc_size t);
  to_free : (free_ptr t).1 = a;
  to_used : 0 ≤ (free_ptr t).2 ≤ alloc_size t;
  to_size : alloc_size t ≤ INT_MAX;
  to_block : ∃ b, blocks h !! a = Some b ∧ zlen b = alloc_size t }.

Lemma trunk_ok_blocks h h' a t : blocks h' !! a = blocks h !! a → trunk_ok h a t → trunk_ok h' a t.
Proof. intros E [? ? ? ? ? ?]. split; try done. by rewrite E. Qed.

(** [ns] are the trunks, newest first; [fs] those with room left. *)
Record trunks (h : pheap) (m : fast_mpool_man) (ns fs : list Z) : Prop := {
  tr_heap : heap_ok h;
  tr_once : 0 < alloc_size_once m ≤ INT_MAX;
  tr_nodup : NoDup ns;
  tr_free_nodup : NoDup fs;
  tr_sub : fs ⊆ ns;
  tr_dom : dom (structs h) = list_to_set ns;
  tr_malloc : linked malloc_next (structs h) (malloc_chain_head m) ns;
  tr_free : linked free_next (structs h) (free_chain_head m) fs;
  tr_nodes a t : structs h !! a = Some t → trunk_ok h a t }.

Lemma trunks_lookup h m ns fs a : trunks h m ns fs → a ∈ ns ↔ is_Some (structs h !! a).
Proof. intros Ht. by rewrite <-elem_of_dom, (tr_dom _ _ _ _ Ht), elem_of_list_to_set. Qed.

Lemma trunks_node h m ns fs a : trunks h m ns fs → a ∈ ns → ∃ t, structs h !! a = Some t ∧ trunk_ok h a t ∧ used (structs h) a = (free_ptr t).2.
Proof.
  intros Ht [t Et]%(trunks_lookup _ _ _ _ _ Ht). exists t. split; [done|]. split; [by apply (tr_nodes _ _ _ _ Ht)|]. unfold used. by rewrite Et.
Qed.

Lemma trunks_zero h m ns fs : trunks h m ns fs → 0 ∉ ns.
Proof. intros Ht [t Et]%(trunks_lookup _ _ _ _ _ Ht). by rewrite (ok_null _ (tr_heap _ _ _ _ Ht)) in Et. Qed.

(** A chain has at most as many nodes as the heap. *)
Lemma trunks_fuel h m ns fs l : trunks h m ns fs → NoDup l → l ⊆ ns → (length l ≤ size (structs h))%nat.
Proof.
  intros Ht Hl Hs. rewrite <-size_dom, (tr_dom _ _ _ _ Ht), <-(size_list_to_set (C := gset Z) l) by done.
  apply subseteq_size. intros x. rewrite !elem_of_list_to_set. apply Hs.
Qed.

Lemma trunks_size h m ns fs : trunks h m ns fs → size (structs h) = length ns.
Proof. intros Ht. rewrite <-size_dom, (tr_dom _ _ _ _ Ht). apply size_list_to_set, (tr_nodup _ _ _ _ Ht). Qed.

(** Objects that differ in their links between free trunks at most. *)
Definition same_trunks (s s' : gmap Z fast_mpool_malloc) : Prop :=
  ∀ x, with_free_next 0 <$> s !! x = with_free_next 0 <$> s' !! x.

Lemma same_trunks_refl s : same_trunks s s.
Proof. done. Qed.

Lemma same_trunks_insert s a t n : s !! a = Some t → same_trunks s (<[a := with_free_next n t]> s).
Proof.
  intros Ea x. destruct (decide (a = x)) as [->|Hne]; [by rewrite lookup_insert_eq, Ea|by rewrite lookup_insert_ne].
Qed.

Lemma same_trunks_get {A} (get : fast_mpool_malloc → A) s s' x :
  (∀ t, get (with_free_next 0 t) = get t) → same_trunks s s' → get <$> s !! x = get <$> s' !! x.
Proof.
  intros Hg Hs. specialize (Hs x). destruct (s !! x) as [t|], (s' !! x) as [t'|]; try done.
  change (Some (with_free_next 0 t) = Some (with_free_next 0 t')) in Hs. apply (inj Some) in Hs as E. cbn. by rewrite <-(Hg t), E, Hg.
Qed.

Lemma same_trunks_used s s' a : same_trunks s s' → used s' a = used s a.
Proof.
  intros Hs. pose proof (same_trunks_get (λ t, (free_ptr t).2) s s' a ltac:(done) Hs) as E.
  unfold used. destruct (s !! a), (s' !! a); try done. by injection E.
Qed.

Lemma same_trunks_trunks h m ns fs s' fs' c :
  trunks h m ns fs → same_trunks (structs h) s' → NoDup fs' → fs' ⊆ ns → linked free_next s' c fs' →
  trunks (with_structs h s') (with_free_head c m) ns fs'.
Proof.
  intros Ht Hs Hn Hsub Hl. pose proof Ht as [? ? ? ? ? Hdom Hm ? Hnodes].
  assert (dom s' = dom (structs h)) as Ed.
  { apply set_eq. intros x. rewrite !elem_of_dom. specialize (Hs x). by destruct (s' !! x), (structs h !! x). }
  split; try done; cbn.
  - apply heap_ok_smaller; [done|]. by rewrite Ed.
  - by rewrite Ed.
  - eapply linked_same_ext; [|exact Hm]. intros x _. by apply same_trunks_get.
  - intros a t' Et'. specialize (Hs a). rewrite Et' in Hs. destruct (structs h !! a) as [t|] eqn:Et; [|done].
    injection Hs as E1 E2 E3 E4 E5. destruct (Hnodes a t Et) as [B1 B2 B3 B4 B5 B6].
    split; cbn; rewrite <-?E1, <-?E2, <-?E3, <-?E4; done.
Qed.

(** ** Taking a trunk off the free chain *)

Lemma remove_loop_ok fuel previous l1 a l2 (h : pheap) :
  linked free_next (structs h) previous (previous :: l1 ++ a :: l2) → NoDup (previous :: l1 ++ a :: l2) →
  (length l1 < fuel)%nat →
  returns (remove_loop fuel previous a h) (λ '(_, h'), ∃ s', h' = with_structs h s' ∧ same_trunks (structs h) s' ∧
    linked free_next s' previous (previous :: l1 ++ l2) ∧ ∀ x, x ∉ previous :: l1 → s' !! x = structs h !! x).
Proof.
  revert previous l1. induction fuel as [|fuel IH]; intros x l1 (_ & Hx & t & Et & Hl) Hnd Hf; [lia|].
  cbn [remove_loop]. rewrite M_bind_eq, (deref_ok _ _ _ Et). cbn [mbind res_bind].
  apply NoDup_cons in Hnd as [Hxn Hnd]. destruct l1 as [|y l1].
  - destruct Hl as (E & Ha & ta & Eta & Hl). rewrite E, (proj2 (Z.eqb_neq a 0)), Z.eqb_refl by done.
    rewrite M_bind_eq, (deref_ok _ _ _ Eta). cbn [mbind res_bind]. rewrite (put_ok _ _ _ _ Et). cbn.
    eexists. split; [done|]. split; [by apply same_trunks_insert|]. split.
    + split; [done|]. split; [done|]. eexists. split; [apply lookup_insert_eq|]. cbn. apply linked_insert_ne; [|done].
      intros Hin. apply Hxn. by right.
    + intros z Hz. rewrite lookup_insert_ne; [done|]. intros ->. apply Hz. left.
  - pose proof Hl as (E & Hy & _). rewrite E in Hl |- *. rewrite (proj2 (Z.eqb_neq y 0)) by done.
    pose proof Hnd as [Hya _]%NoDup_cons. rewrite (proj2 (Z.eqb_neq y a)).
    2: { intros ->. apply Hya. apply elem_of_app. right. left. }
    cbn [length] in Hf. eapply returns_mono; [apply (IH y l1 Hl); [done|lia]|].
    intros [[] h'] (s' & -> & Hs & Hl' & Hk). exists s'. split; [done|]. split; [done|]. split.
    + split; [done|]. split; [done|]. exists t. split; [|by rewrite E]. rewrite Hk; [done|]. intros Hin. apply Hxn.
      change (x ∈ (y :: l1) ++ a :: l2). apply elem_of_app. by left.
    + intros z [_ Hz]%not_elem_of_cons. by apply Hk.
Qed.

Lemma remove_free_node_ok h m ns fs a :
  trunks h m ns fs → a ∈ fs →
  returns (fast_mpool_remove_free_node m a h) (λ '(m', h'), ∃ s' c fs', h' = with_structs h s' ∧ m' = with_free_head c m ∧
    same_trunks (structs h) s' ∧ trunks h' m' ns fs').
Proof.
  intros Ht Ha. pose proof (tr_free _ _ _ _ Ht) as Hl. pose proof (tr_free_nodup _ _ _ _ Ht) as Hnd.
  pose proof (tr_sub _ _ _ _ Ht) as Hsub. apply list_elem_of_split in Ha as (l1 & l2 & ->).
  assert (l1 ++ l2 ⊆ l1 ++ a :: l2) as Hs12 by set_solver.
  assert (NoDup (l1 ++ l2)) as Hnd12 by (apply NoDup_app in Hnd as (? & ? & [? ?]%NoDup_cons); apply NoDup_app; set_solver).
  unfold fast_mpool_remove_free_node. destruct l1 as [|x l1].
  - destruct Hl as (-> & Hx & t & Et & Hl). rewrite Z.eqb_refl, M_bind_eq, (deref_ok _ _ _ Et). cbn.
    exists (structs h), (free_next t), l2. split; [by destruct h|]. split; [done|]. split; [done|].
    pose proof (same_trunks_trunks h m ns _ (structs h) l2 (free_next t) Ht (same_trunks_refl _)) as HT. destruct h. apply HT; [done|set_solver|done].
  - pose proof Hl as (E & Hx & _). rewrite E in Hl |- *. rewrite (proj2 (Z.eqb_neq x a)).
    2: { intros ->. apply NoDup_cons in Hnd as [Hn _]. apply Hn. set_solver. }
    unfold chain_fuel. rewrite M_bind_eq. cbn [mbind res_bind]. apply M_returns_bind.
    eapply returns_mono; [apply (remove_loop_ok _ x l1 a l2); [done|done|]|].
    { pose proof (trunks_fuel _ _ _ _ _ Ht Hnd Hsub) as Hf. cbn [length app] in Hf. rewrite length_app in Hf. cbn in Hf. lia. }
    intros [[] h'] (s' & -> & Hs & Hl' & _). cbn. exists s', x, (x :: l1 ++ l2).
    assert (with_free_head x m = m) as Em by (destruct m; cbn in *; by subst).
    split; [done|]. split; [done|]. split; [done|]. rewrite <-Em. apply (same_trunks_trunks _ _ _ _ _ _ _ Ht); [done|done|set_solver|done].
Qed.

(** ** Handing out *)

Lemma pdiff_ok a x y : 0 ≤ x - y ≤ INT_MAX → pdiff (a, x) (a, y) = Done (x - y).
Proof. intros Hxy. unfold pdiff. cbn. by rewrite Z.eqb_refl, sext32_id. Qed.

(** The trunk [a] has handed out its next [size] bytes. *)
Record handed (h : pheap) (ns : list Z) (size : Z) (a : Z) (m' : fast_mpool_man) (h' : pheap) : Prop := {
  ha_in : a ∈ ns;
  ha_blocks : blocks h' = blocks h;
  ha_outcomes : outcomes h' = outcomes h;
  ha_used x : used (structs h') x = if decide (x = a) then used (structs h) a + size else used (structs h) x;
  ha_trunks : ∃ fs, trunks h' m' ns fs }.

Lemma trunks_bump h m ns fs a t size :
  trunks h m ns fs → structs h !! a = Some t → 0 ≤ size → used (structs h) a + size ≤ alloc_size t →
  trunks (with_structs h (<[a := with_free_ptr (a, used (structs h) a + size) t]> (structs h))) m ns fs.
Proof.
  intros Ht Ea Hs Hu. pose proof Ht as [Hh ? ? ? ? Hdom Hm Hf Hnodes].
  assert (dom (<[a := with_free_ptr (a, used (structs h) a + size) t]> (structs h)) = dom (structs h)) as Ed.
  { rewrite dom_insert_L. apply elem_of_dom_2 in Ea. set_solver. }
  pose proof (to_used _ _ _ (Hnodes a t Ea)) as Hu0. assert (used (structs h) a = (free_ptr t).2) as Eu by (unfold used; by rewrite Ea).
  split; try done; cbn.
  - apply heap_ok_smaller; [done|]. by rewrite Ed.
  - by rewrite Ed.
  - by eapply linked_insert_same.
  - by eapply linked_insert_same.
  - intros x tx [[<- <-]|[_ Ex]]%lookup_insert_Some; [|by eapply trunk_ok_blocks, Hnodes].
    destruct (Hnodes a t Ea). split; cbn; try done. lia.
Qed.

Lemma do_alloc_ok h m ns fs a size :
  trunks h m ns fs → a ∈ fs → 0 ≤ size →
  returns (fast_mpool_do_alloc m a size h) (λ '((r, m'), h'),
    (r = None ∧ m' = m ∧ h' = h ∧ ∃ t, structs h !! a = Some t ∧ alloc_size t < used (structs h) a + size) ∨
    (r = Some (a, used (structs h) a) ∧ handed h ns size a m' h' ∧ alloc_size_once m' = alloc_size_once m)).
Proof.
  intros Ht Ha Hs. pose proof (tr_sub _ _ _ _ Ht a Ha) as Han. destruct (trunks_node _ _ _ _ _ Ht Han) as (t & Ea & Hok & Eu).
  pose proof Hok as [Hb He Hf Hu Hsz (b & Eb & El)]. unfold fast_mpool_do_alloc. rewrite M_bind_eq, (deref_ok _ _ _ Ea). cbn [mbind res_bind].
  assert (free_ptr t = (a, used (structs h) a)) as Ef by (rewrite Eu, <-Hf; by destruct (free_ptr t)).
  rewrite <-Eu in Hu. eapply step_lift; [rewrite He, Ef; apply pdiff_ok; lia|].
  destruct (Z.leb_spec size (alloc_size t - used (structs h) a)) as [Hroom|Hroom].
  2: { left. split_and!; [done..|]. exists t. split; [done|lia]. }
  rewrite Ef, He. unfold advance. rewrite M_bind_eq. cbn [fst snd]. rewrite Eb. rewrite El.
  case_if; [|lia_bool]. cbn [mbind res_bind]. rewrite M_bind_eq, (put_ok _ _ _ _ Ea). cbn [mbind res_bind].
  change (padd (a, used (structs h) a) size) with (a, used (structs h) a + size).
  eapply step_lift; [apply pdiff_ok; lia|].
  pose proof (trunks_bump _ _ _ _ _ _ size Ht Ea Hs ltac:(lia)) as Ht1. set (h1 := with_structs h _) in *.
  assert (∀ x, used (structs h1) x = if decide (x = a) then used (structs h) a + size else used (structs h) x) as Eu1.
  { intros x. unfold used at 1. subst h1. cbn. case_decide as E; [subst; by rewrite lookup_insert_eq|].
    rewrite lookup_insert_ne by congruence. done. }
  case_if.
  - apply M_returns_bind. eapply returns_mono; [by apply (remove_free_node_ok h1 m ns fs a)|].
    intros [m' h'] (s' & c & fs' & -> & -> & Hst & Ht'). cbn. right. split; [done|]. split; [|done].
    split; [done..| |by exists fs']. intros x. cbn. by rewrite (same_trunks_used _ _ _ Hst).
  - cbn. right. split; [done|]. split; [|done]. split; try done. by exists fs.
Qed.

Lemma alloc_loop_ok fuel h m ns fs node l size :
  trunks h m ns fs → linked free_next (structs h) node l → l ⊆ fs → 0 ≤ size → (length l < fuel)%nat →
  returns (alloc_loop fuel m node size h) (λ '((r, m'), h'),
    (r = None ∧ m' = m ∧ h' = h) ∨
    (∃ a, r = Some (a, used (structs h) a) ∧ handed h ns size a m' h' ∧ alloc_size_once m' = alloc_size_once m)).
Proof.
  intros Ht. revert node l. induction fuel as [|fuel IH]; intros node l Hl Hsub Hs Hf; [lia|]. cbn [alloc_loop].
  destruct l as [|x l]; [cbn in Hl; rewrite Hl; by left|]. destruct Hl as (-> & Hx & t & Et & Hl).
  rewrite (proj2 (Z.eqb_neq x 0)) by done. apply M_returns_bind.
  eapply returns_mono; [apply (do_alloc_ok h m ns fs x size Ht); [apply Hsub; left|done]|].
  intros [[r m'] h'] [(-> & -> & -> & _)|(-> & Hh & Ho)].
  - rewrite M_bind_eq, (deref_ok _ _ _ Et). cbn [mbind res_bind]. apply (IH _ l); [done|set_solver|done|cbn in Hf; lia].
  - right. by exists x.
Qed.

(** The memory a pool has asked for: one more block, or none. *)
Definition grown (h : pheap) (ns : list Z) (h' : pheap) (ns' : list Z) : Prop :=
  (ns' = ns ∧ blocks h' = blocks h) ∨
  (∃ a b, ns' = a :: ns ∧ blocks h !! a = None ∧ blocks h' = <[a := b]> (blocks h)).

Lemma prealloc_ok h m ns fs n :
  trunks h m ns fs → 0 < n ≤ INT_MAX →
  returns (fast_mpool_prealloc m n h) (λ '((r, m'), h'),
    (outcomes h = [] → outcomes h' = []) ∧ alloc_size_once m' = alloc_size_once m ∧
    ((r = ENOMEM ∧ m' = m ∧ structs h' = structs h ∧ blocks h' = blocks h ∧ trunks h' m ns fs ∧
       (outcomes h = [] → INT_MAX - sizeof_malloc < n)) ∨
     (r = 0 ∧ ∃ a t, free_chain_head m' = a ∧ structs h' !! a = Some t ∧ alloc_size t = n ∧ (∀ x, used (structs h') x = used (structs h) x) ∧
       used (structs h) a = 0 ∧ grown h ns h' (a :: ns) ∧ trunks h' m' (a :: ns) (a :: fs)))).
Proof.
  intros Ht Hn. pose proof Ht as [[Hnx Hst Hbl H0] Ho Hnd Hfnd Hsub Hdom Hm Hf Hnodes].
  pose proof (heap_ok_fresh h (tr_heap _ _ _ _ Ht)) as [Hfs Hfb]. unfold fast_mpool_prealloc. rewrite M_bind_eq. unfold malloc_node.
  set (bytes := sext 32 (sizeof_malloc + n)).
  assert (∀ os f, trunks (Heap (structs h) (blocks h) (next h) os (junk h) f) m ns fs) as Hsame.
  { intros os f. split; try done. intros a t Ea. by eapply trunk_ok_blocks, Hnodes. }
  assert ((u64 bytes <=? LONG_MAX = true ∧ bytes = sizeof_malloc + n) ∨ (u64 bytes <=? LONG_MAX = false ∧ INT_MAX - sizeof_malloc < n)) as Hbytes.
  { subst bytes. unfold sizeof_malloc. destruct (decide (48 + n ≤ INT_MAX)).
    - left. rewrite sext32_id by int_lia. split; [|done]. apply Z.leb_le. unfold u64, LONG_MAX. rewrite Z.mod_small; int_lia.
    - right. split; [|lia]. apply Z.leb_gt. unfold sext, u64, LONG_MAX. rewrite (Z.mod_small (48 + n)) by int_lia. case_if; [propify; int_lia|].
      replace ((48 + n - 2 ^ 32) mod 2 ^ 64) with (48 + n - 2 ^ 32 + 2 ^ 64); [int_lia|].
      symmetry. rewrite <-(Z_mod_plus_full _ 1). apply Z.mod_small. int_lia. }
  assert (∃ ok os f, outcome h = Done (ok, Heap (structs h) (blocks h) (next h) os (junk h) f) ∧ (outcomes h = [] → ok = true ∧ os = [])) as (ok & os & f & -> & Hos).
  { unfold outcome. destruct (outcomes h) as [|o os] eqn:E; [exists true, [], (oom h)|exists o, os, (oom h || negb o)]; (split; [|done]); [|done].
    destruct h; cbn in *; by subst. }
  cbn [mbind res_bind]. destruct ok; cbn [andb].
  2: { cbn. split; [intros E; by apply Hos in E as [_ ->]|]. split; [done|]. left. split_and!; try done. intros E. by apply Hos in E as [? _]. }
  destruct Hbytes as [(-> & ->)|(-> & Hbig)].
  2: { cbn. split; [intros E; by apply Hos in E as [_ ->]|]. split; [done|]. left. by split_and!. }
  cbn [mbind res_bind structs blocks next outcomes junk]. rewrite (proj2 (Z.eqb_neq _ 0)) by lia.
  rewrite M_bind_eq. erewrite put_ok by (cbn; apply lookup_insert_eq). cbn. split; [intros E; by apply Hos in E as [_ ->]|]. split; [done|]. right. split; [done|].
  exists (next h). eexists. split; [done|]. split; [by rewrite !lookup_insert_eq|]. split; [done|]. rewrite insert_insert_eq.
  replace (sizeof_malloc + n - sizeof_malloc) with n by lia.
  assert (next h ∉ ns) as Hni.
  { intros Hin. apply (trunks_lookup _ _ _ _ _ Ht) in Hin as [? ?]. congruence. }
  assert (used (structs h) (next h) = 0) as Hu0 by (unfold used; by rewrite Hfs).
  split_and!.
  - intros x. destruct (decide (x = next h)) as [->|Hne]; [by rewrite Hu0; unfold used; rewrite lookup_insert_eq|].
    unfold used. by rewrite lookup_insert_ne by congruence.
  - done.
  - right. eauto.
  - split; cbn.
    + split; cbn; [lia| | |].
      * intros a Ha. rewrite lookup_insert_ne by lia. apply Hst. lia.
      * intros a Ha. rewrite lookup_insert_ne by lia. apply Hbl. lia.
      * by rewrite lookup_insert_ne by lia.
    + done.
    + by constructor.
    + constructor; [|done]. intros Hin. by apply Hni, Hsub.
    + set_solver.
    + rewrite dom_insert_L, Hdom. done.
    + split; [done|]. split; [lia|]. eexists. split; [apply lookup_insert_eq|]. by apply linked_insert_ne.
    + split; [done|]. split; [lia|]. eexists. split; [apply lookup_insert_eq|]. apply linked_insert_ne; [|done]. intros Hin. by apply Hni, Hsub.
    + intros a t [[<- <-]|[Hne Ea]]%lookup_insert_Some.
      * split; cbn; try done; try lia. eexists. split; [apply lookup_insert_eq|]. rewrite zlen_replicate. lia.
      * eapply trunk_ok_blocks; [|by apply Hnodes]. cbn. by rewrite lookup_insert_ne.
Qed.

(** A region of [size] bytes: where its trunk had got to. *)
Record allocated (h : pheap) (ns : list Z) (size : Z) (p : ptr) (m' : fast_mpool_man) (h' : pheap) (ns' : list Z) : Prop := {
  al_grown : grown h ns h' ns';
  al_in : p.1 ∈ ns';
  al_at : p.2 = used (structs h) p.1;
  al_used x : used (structs h') x = if decide (x = p.1) then p.2 + size else used (structs h) x;
  al_trunks : ∃ fs, trunks h' m' ns' fs }.

Lemma fast_mpool_alloc_ok h m ns fs size :
  trunks h m ns fs → 0 ≤ size ≤ INT_MAX →
  returns (fast_mpool_alloc m size h) (λ '((r, m'), h'),
    (outcomes h = [] → outcomes h' = []) ∧ alloc_size_once m' = alloc_size_once m ∧
    match r with
    | None => structs h' = structs h ∧ blocks h' = blocks h ∧ trunks h' m' ns fs ∧
        (outcomes h = [] → INT_MAX - sizeof_malloc < Z.max size (alloc_size_once m))
    | Some p => ∃ ns', allocated h ns size p m' h' ns'
    end).
Proof.
  intros Ht Hs. unfold fast_mpool_alloc, chain_fuel. rewrite M_bind_eq. cbn [mbind res_bind]. apply M_returns_bind.
  eapply returns_mono.
  { apply (alloc_loop_ok _ h m ns fs (free_chain_head m) fs size Ht); [apply (tr_free _ _ _ _ Ht)|done|lia|].
    pose proof (trunks_fuel _ _ _ _ _ Ht (tr_free_nodup _ _ _ _ Ht) (tr_sub _ _ _ _ Ht)). lia. }
  intros [[r m1] h1] [(-> & -> & ->)|(a & -> & Hh & Ho)].
  2: { cbn. destruct Hh as [Hin Hb Hout Hu [fs' Ht']]. rewrite Hout. split_and!; try done. exists ns. split; cbn; try done; [by left|by exists fs']. }
  pose proof (tr_once _ _ _ _ Ht) as Hon. set (n := if size <? alloc_size_once m then alloc_size_once m else size).
  assert (n = Z.max size (alloc_size_once m)) as En by (subst n; case_if; propify; lia). rewrite <-En. clearbody n.
  apply M_returns_bind. eapply returns_mono; [apply (prealloc_ok h m ns fs n Ht); lia|].
  intros [[r m1] h1] (Hout & Honce & [(-> & -> & Es & Eb & Ht1 & Hbig)|(-> & a & t & Eh & Ea & En' & Hu & Hu0 & Hg & Ht1)]).
  { change (ENOMEM =? 0) with false. cbn. by split_and!. }
  cbn [Z.eqb]. rewrite Eh.
  eapply returns_mono; [apply (do_alloc_ok h1 m1 _ _ a size Ht1); [left|lia]|].
  intros [[r m2] h2] [(_ & _ & _ & t' & Et' & Hfull)|(-> & [Hin Hb Hout2 Hu2 [fs' Ht2]] & Ho2)].
  { exfalso. rewrite Hu, Hu0 in Hfull. assert (t' = t) as -> by congruence. lia. }
  rewrite Hout2. split; [done|]. split; [congruence|]. exists (a :: ns). split; cbn.
  - destruct Hg as [[? _]|(a' & b & [= <-] & ? & ?)]; [by apply (f_equal length) in H; cbn in H; lia|]. right. exists a, b. split_and!; congruence.
  - done.
  - by rewrite Hu.
  - intros x. by rewrite Hu2, !Hu.
  - by exists fs'.
Qed.

(** ** Reset *)

Lemma with_structs_id (h : pheap) : with_structs h (structs h) = h.
Proof. by destruct h. Qed.

Lemma reset_loop_ok fuel h m ns done_ rest node :
  trunks h m ns done_ → (∃ pre, ns = pre ++ rest) → linked malloc_next (structs h) node rest →
  (∀ x, x ∈ rest → x ∉ done_) → NoDup rest → (length rest < fuel)%nat →
  returns (reset_loop fuel m node h) (λ '(m', h'), ∃ s' fs', h' = with_structs h s' ∧ trunks h' m' ns fs' ∧
    alloc_size_once m' = alloc_size_once m ∧ ∀ x, used s' x = if decide (x ∈ rest) then 0 else used (structs h) x).
Proof.
  revert h m done_ rest node. induction fuel as [|fuel IH]; intros h m ds rest node Ht [pre Epre] Hl Hdisj Hnd Hf; [lia|].
  cbn [reset_loop]. destruct rest as [|x rest].
  - cbn in Hl. rewrite Hl. cbn. exists (structs h), ds. split; [by destruct h|]. by split_and!.
  - destruct Hl as (-> & Hx & t & Et & Hl). rewrite (proj2 (Z.eqb_neq x 0)) by done.
    rewrite M_bind_eq, (deref_ok _ _ _ Et). cbn [mbind res_bind]. rewrite M_bind_eq, (put_ok _ _ _ _ Et). cbn [mbind res_bind].
    apply NoDup_cons in Hnd as [Hxr Hnd].
    pose proof (tr_nodes _ _ _ _ Ht x t Et) as [Hb He Hfr Hu Hsz Hblk].
    set (t1 := with_free_next _ _). set (s1 := <[x := t1]> (structs h)).
    assert (∀ y, used s1 y = if decide (y = x) then 0 else used (structs h) y) as Hus.
    { intros y. unfold used at 1. subst s1. case_decide as E; [subst; rewrite lookup_insert_eq; cbn; by rewrite Hb|]. by rewrite lookup_insert_ne by congruence. }
    eapply returns_mono.
    { apply (IH (with_structs h s1) (with_free_head x m) (x :: ds) rest (malloc_next t)).
      - destruct Ht as [Hh Ho Hnn Hfn Hsub Hdom Hm Hfc Hnodes]. assert (dom s1 = dom (structs h)) as Ed.
        { subst s1. rewrite dom_insert_L. apply elem_of_dom_2 in Et. set_solver. }
        split; try done; cbn.
        + apply heap_ok_smaller; [done|]. by rewrite Ed.
        + constructor; [|done]. apply Hdisj. left.
        + intros y [->|Hy]%elem_of_cons; [|by apply Hsub]. rewrite Epre. apply elem_of_app. right. left.
        + by rewrite Ed.
        + by eapply linked_insert_same.
        + split; [done|]. split; [done|]. exists t1. split; [apply lookup_insert_eq|]. cbn. apply linked_insert_ne; [|done]. apply Hdisj. left.
        + intros y ty [[<- <-]|[_ Ey]]%lookup_insert_Some; [|by eapply trunk_ok_blocks, Hnodes].
          subst t1. split; cbn; rewrite ?Hb; cbn; try done. lia.
      - exists (pre ++ [x]). by rewrite <-app_assoc.
      - cbn. by eapply linked_insert_same.
      - intros y Hy [->|Hyd]%elem_of_cons; [done|]. revert Hyd. apply Hdisj. by right.
      - done.
      - cbn in Hf. lia. }
    intros [m' h'] (s' & fs' & -> & Ht' & Ho & Hus'). exists s', fs'. split; [done|]. split; [done|]. split; [done|].
    intros y. rewrite Hus'. cbn. rewrite Hus. destruct (decide (y ∈ rest)); [by rewrite decide_True by by right|].
    destruct (decide (y = x)) as [->|]; [by rewrite decide_True by left|]. rewrite decide_False; [done|]. by intros [?|?]%elem_of_cons.
Qed.

Lemma fast_mpool_reset_ok h m ns fs :
  trunks h m ns fs →
  returns (fast_mpool_reset m h) (λ '(m', h'), blocks h' = blocks h ∧ outcomes h' = outcomes h ∧ alloc_size_once m' = alloc_size_once m ∧
    (∀ x, used (structs h') x = 0) ∧ ∃ fs', trunks h' m' ns fs').
Proof.
  intros Ht. unfold fast_mpool_reset, chain_fuel. rewrite M_bind_eq. cbn [mbind res_bind]. eapply returns_mono.
  { apply (reset_loop_ok _ h (with_free_head 0 m) ns [] ns).
    - rewrite <-(with_structs_id h). apply (same_trunks_trunks h m ns fs); try done; [apply NoDup_nil_2|set_solver].
    - by exists [].
    - apply (tr_malloc _ _ _ _ Ht).
    - intros x _. apply not_elem_of_nil.
    - apply (tr_nodup _ _ _ _ Ht).
    - rewrite (trunks_size _ _ _ _ Ht). lia. }
  intros [m' h'] (s' & fs' & -> & Ht' & Ho & Hu). split_and!; try done; [|by exists fs'].
  intros x. cbn. rewrite Hu. case_decide as Hx; [done|]. unfold used. destruct (structs h !! x) eqn:E; [|done].
  destruct Hx. apply (trunks_lookup _ _ _ _ _ Ht). by eexists.
Qed.

(** ** Statistics *)

Definition size_of (s : gmap Z fast_mpool_malloc) (a : Z) : Z := match s !! a with Some t => alloc_size t | None => 0 end.

Lemma trunk_stats_ok fuel st node h m ns fs rest :
  trunks h m ns fs → linked malloc_next (structs h) node rest → (length rest < fuel)%nat →
  0 ≤ free_bytes st ≤ total_bytes st → total_bytes st ≤ INT_MAX * total_trunk_count st →
  0 ≤ total_trunk_count st → total_trunk_count st + zlen rest ≤ INT_MAX →
  returns (trunk_stats fuel st node h) (λ '(st', h'), h' = h ∧
    st' = mkStats (total_bytes st + zsum (size_of (structs h) <$> rest))
      (free_bytes st + zsum (size_of (structs h) <$> rest) - zsum (used (structs h) <$> rest))
      (total_trunk_count st + zlen rest) (free_trunk_count st)).
Proof.
  intros Ht. revert st node rest. induction fuel as [|fuel IH]; intros st node rest Hl Hf Hfr Htot Hc Hn; [lia|].
  cbn [trunk_stats]. destruct rest as [|x rest].
  - cbn in Hl. rewrite Hl. split; [done|]. destruct st. unfold zlen. cbn. f_equal; lia.
  - destruct Hl as (-> & Hx & t & Et & Hl). rewrite (proj2 (Z.eqb_neq x 0)) by done. rewrite M_bind_eq, (deref_ok _ _ _ Et). cbn [mbind res_bind].
    pose proof (tr_nodes _ _ _ _ Ht x t Et) as [Hb He Hp Hu Hsz _]. rewrite zlen_cons in *. pose proof (zlen_nonneg rest).
    assert (used (structs h) x = (free_ptr t).2) as Eu by (unfold used; by rewrite Et).
    assert (size_of (structs h) x = alloc_size t) as Es by (unfold size_of; by rewrite Et).
    assert (free_ptr t = (x, used (structs h) x)) as Ef by (rewrite Eu, <-Hp; by destruct (free_ptr t)). rewrite <-Eu in Hu.
    assert (∀ z, 0 ≤ z ≤ INT_MAX * (total_trunk_count st + 1) → c64 z = Done z) as Hc64.
    { intros z Hz. unfold c64, LONG_MIN, LONG_MAX. case_if; [done|]. propify. int_lia. }
    eapply step_lift; [apply Hc64; int_lia|]. eapply step_lift; [rewrite He, Ef; apply pdiff_ok; lia|].
    eapply step_lift; [apply Hc64; int_lia|]. eapply step_lift; [apply cint_ok; int_lia|].
    eapply returns_mono; [apply (IH _ _ rest Hl); cbn; try (cbn in Hf; lia)|].
    intros [st' h'] (-> & ->). split; [done|]. rewrite !fmap_cons, !zsum_cons, Es. cbn. f_equal; lia.
Qed.

Lemma free_stats_ok fuel st node h rest :
  linked free_next (structs h) node rest → (length rest < fuel)%nat →
  0 ≤ free_trunk_count st → free_trunk_count st + zlen rest ≤ INT_MAX →
  returns (free_stats fuel st node h) (λ '(st', h'), h' = h ∧
    st' = mkStats (total_bytes st) (free_bytes st) (total_trunk_count st) (free_trunk_count st + zlen rest)).
Proof.
  revert st node rest. induction fuel as [|fuel IH]; intros st node rest Hl Hf Hc Hn; [lia|].
  cbn [free_stats]. destruct rest as [|x rest].
  - cbn in Hl. rewrite Hl. split; [done|]. destruct st. unfold zlen. cbn. f_equal; lia.
  - destruct Hl as (-> & Hx & t & Et & Hl). rewrite (proj2 (Z.eqb_neq x 0)) by done. rewrite zlen_cons in *. pose proof (zlen_nonneg rest).
    eapply step_lift; [apply cint_ok; int_lia|]. rewrite M_bind_eq, (deref_ok _ _ _ Et). cbn [mbind res_bind].
    eapply returns_mono; [apply (IH _ _ rest Hl); cbn; try (cbn in Hf; lia)|].
    intros [st' h'] (-> & ->). split; [done|]. cbn. f_equal; lia.
Qed.

Lemma fast_mpool_stats_ok h m ns fs :
  trunks h m ns fs → zlen ns ≤ INT_MAX →
  returns (fast_mpool_get_stats m h) (λ '(st, h'), h' = h ∧
    st = mkStats (zsum (size_of (structs h) <$> ns)) (zsum (size_of (structs h) <$> ns) - zsum (used (structs h) <$> ns)) (zlen ns) (zlen fs)).
Proof.
  intros Ht Hn. unfold fast_mpool_get_stats, chain_fuel. rewrite M_bind_eq. cbn [mbind res_bind]. apply M_returns_bind.
  pose proof (trunks_fuel _ _ _ _ _ Ht (tr_free_nodup _ _ _ _ Ht) (tr_sub _ _ _ _ Ht)) as Hf. pose proof (trunks_size _ _ _ _ Ht) as Hsz.
  eapply returns_mono; [apply (trunk_stats_ok _ _ _ _ _ _ _ ns Ht (tr_malloc _ _ _ _ Ht)); cbn; lia|].
  intros [st h'] (-> & ->). eapply returns_mono; [apply (free_stats_ok _ _ _ _ fs (tr_free _ _ _ _ Ht)); cbn; unfold zlen in *; lia|].
  intros [st h'] (-> & ->). cbn. split; [done|]. by f_equal; lia.
Qed.

(** ** Destruction *)

Lemma lookup_delete_rest {A} (s : gmap Z A) x rest y :
  (if decide (y ∈ rest) then None else delete x s !! y) = (if decide (y ∈ x :: rest) then None else s !! y).
Proof.
  destruct (decide (y ∈ rest)); [by rewrite decide_True by by right|]. destruct (decide (y = x)) as [->|Hne].
  - by rewrite lookup_delete_eq, decide_True by left.
  - rewrite lookup_delete_ne, decide_False by (congruence || by intros [?|?]%elem_of_cons). done.
Qed.

Lemma destroy_loop_ok fuel node h rest :
  linked malloc_next (structs h) node rest → NoDup rest → (∀ x, x ∈ rest → is_Some (blocks h !! x)) → (length rest < fuel)%nat →
  returns (destroy_loop fuel node h) (λ '(_, h'),
    (∀ x, structs h' !! x = if decide (x ∈ rest) then None else structs h !! x) ∧
    (∀ x, blocks h' !! x = if decide (x ∈ rest) then None else blocks h !! x)).
Proof.
  revert node h rest. induction fuel as [|fuel IH]; intros node h rest Hl Hnd Hb Hf; [lia|].
  cbn [destroy_loop]. destruct rest as [|x rest]; [cbn in Hl; by rewrite Hl|].
  destruct Hl as (-> & Hx & t & Et & Hl). rewrite (proj2 (Z.eqb_neq x 0)) by done. rewrite M_bind_eq, (deref_ok _ _ _ Et). cbn [mbind res_bind].
  apply NoDup_cons in Hnd as [Hxr Hnd]. destruct (Hb x ltac:(left)) as [b Eb]. apply M_returns_bind.
  unfold free_node. rewrite M_bind_eq. unfold free_struct. rewrite Et. cbn [mbind res_bind]. unfold free. cbn [fst snd blocks with_structs]. rewrite Eb. cbn [Z.eqb returns].
  eapply returns_mono.
  { apply (IH _ _ rest); cbn; [|done| |cbn in Hf; lia].
    - eapply linked_same_ext; [|exact Hl]. intros y Hy. rewrite lookup_delete_ne; [done|]. by intros ->.
    - intros y Hy. rewrite lookup_delete_ne; [apply Hb; by right|]. by intros ->. }
  intros [[] h'] [Hs' Hb']. split; intros y; [rewrite Hs'|rewrite Hb']; apply lookup_delete_rest.
Qed.

Lemma fast_mpool_destroy_ok h m ns fs :
  trunks h m ns fs →
  returns (fast_mpool_destroy m h) (λ '(m', h'), structs h' = ∅ ∧ m' = mkMan 0 0 (alloc_size_once m) (discard_size m) ∧
    ∀ x, blocks h' !! x = if decide (x ∈ ns) then None else blocks h !! x).
Proof.
  intros Ht. pose proof Ht as [_ _ Hnd _ Hsub Hdom Hm Hf Hnodes]. unfold fast_mpool_destroy. destruct ns as [|a ns].
  - cbn in Hm. rewrite Hm. cbn. split; [by apply dom_empty_iff_L|].
    assert (fs = []) as -> by (destruct fs as [|x fs]; [done|]; by specialize (Hsub x ltac:(left)) as ?%elem_of_nil).
    cbn in Hf. split; [destruct m; cbn in *; by subst|done].
  - pose proof Hm as (E & Ha & _). rewrite E in Hm |- *. rewrite (proj2 (Z.eqb_neq a 0)) by done.
    unfold chain_fuel. rewrite M_bind_eq. cbn [mbind res_bind]. apply M_returns_bind. eapply returns_mono.
    { apply (destroy_loop_ok _ _ _ _ Hm Hnd); [|rewrite (trunks_size _ _ _ _ Ht); lia].
      intros x Hx. destruct (trunks_node _ _ _ _ _ Ht Hx) as (t & _ & [_ _ _ _ _ (b & -> & _)] & _). done. }
    intros [[] h'] [Hs Hb]. cbn. split; [|done]. apply map_empty. intros x. rewrite Hs. case_decide as Hx; [done|].
    apply not_elem_of_dom. by rewrite Hdom, elem_of_list_to_set.
Qed.

(** * Regions *)

Lemma zlen_le_0 (l : list Z) : zlen l ≤ 0 → l = [].
Proof. destruct l as [|x l]; [done|]. rewrite zlen_cons. pose proof (zlen_nonneg l). lia. Qed.

(** Two regions with no byte in common. *)
Definition apart (p : ptr) (n : Z) (q : ptr) (k : Z) : Prop := p.1 ≠ q.1 ∨ p.2 + n ≤ q.2 ∨ q.2 + k ≤ p.2.

Lemma text_bytes (h : pheap) p c :
  text h p c ↔ ∃ b, blocks h !! p.1 = Some b ∧ 0 ≤ p.2 ∧ p.2 + zlen c ≤ zlen b ∧ ∀ i, 0 ≤ i < zlen c → zget b (p.2 + i) = zget c i.
Proof.
  split; intros (b & Hb & Hp & Hl & Hc); exists b; (split_and!; [done..|]).
  - intros i Hi. rewrite <-Hc, zget_zslice by lia. done.
  - pose proof (zlen_nonneg c). assert (zlen (zslice b p.2 (zlen c)) = zlen c) as El by (rewrite zlen_zslice; lia).
    apply zlist_eq; [done|]. intros i Hi. rewrite zget_zslice by lia. apply Hc. lia.
Qed.

Lemma text_here (h : pheap) p b n : blocks h !! p.1 = Some b → 0 ≤ p.2 → 0 ≤ n → p.2 + n ≤ zlen b → text h p (zslice b p.2 n) ∧ zlen (zslice b p.2 n) = n.
Proof.
  intros Hb Hp Hn Hl. assert (zlen (zslice b p.2 n) = n) as El by (rewrite zlen_zslice; lia).
  split; [|done]. exists b. rewrite El. by split_and!.
Qed.

(** Bytes written elsewhere, and bytes written into a text. *)
Lemma text_write_apart (h : pheap) p c q b xs :
  text h p c → blocks h !! q.1 = Some b → 0 ≤ q.2 → q.2 + zlen xs ≤ zlen b → apart p (zlen c) q (zlen xs) →
  text (with_blocks h (<[q.1 := zwrite b q.2 xs]> (blocks h))) p c.
Proof.
  intros (b' & Hb' & Hp & Hl & Hc)%text_bytes Hb Hq Hlq Ha. apply text_bytes. cbn. destruct (decide (q.1 = p.1)) as [E|E].
  - assert (b' = b) as -> by congruence. exists (zwrite b q.2 xs). rewrite E, lookup_insert_eq, zlen_zwrite by lia.
    split_and!; [done..|]. intros i Hi. pose proof (zlen_nonneg xs). rewrite zget_zwrite_out; [by apply Hc|lia|lia|]. destruct Ha as [?|?]; [congruence|lia].
  - exists b'. rewrite lookup_insert_ne by done. by split_and!.
Qed.

Lemma text_write_in (h : pheap) p c b off xs :
  text h p c → blocks h !! p.1 = Some b → 0 ≤ off → off + zlen xs ≤ zlen c →
  text (with_blocks h (<[p.1 := zwrite b (p.2 + off) xs]> (blocks h))) p (zwrite c off xs).
Proof.
  intros (b' & Hb' & Hp & Hl & Hc)%text_bytes Hb Hoff Hlx. assert (b' = b) as -> by congruence. apply text_bytes. cbn.
  exists (zwrite b (p.2 + off) xs). pose proof (zlen_nonneg xs). rewrite lookup_insert_eq, !zlen_zwrite by lia. split_and!; [done..|].
  intros i Hi. destruct (decide (off ≤ i < off + zlen xs)).
  - replace (p.2 + i) with (p.2 + off + (i - off)) by lia. replace i with (off + (i - off)) at 2 by lia. by rewrite !zget_zwrite_in by lia.
  - rewrite !zget_zwrite_out by lia. by apply Hc.
Qed.

Lemma text_heap (h h' : pheap) p c : blocks h' !! p.1 = blocks h !! p.1 → text h p c → text h' p c.
Proof. intros E (b & Hb & Hr). exists b. by rewrite E. Qed.

Lemma step_memcpy_text {A} d s c b (k : unit → PM A) h Q :
  text h s c → 0 < zlen c → blocks h !! d.1 = Some b → 0 ≤ d.2 → d.2 + zlen c ≤ zlen b → apart s (zlen c) d (zlen c) →
  returns (k tt (with_blocks h (<[d.1 := zwrite b d.2 c]> (blocks h)))) Q → returns ((memcpy d s (zlen c) ≫= k) h) Q.
Proof.
  intros (bs & Hs & Hs0 & Hsl & Ec) Hc Hd Hd0 Hdl Ha HQ. unfold memcpy. case_if; [propify; unfold apart in Ha; lia|]. unfold memmove.
  rewrite (proj2 (Z.eqb_neq _ 0)) by lia. rewrite M_bind_eq, M_bind_eq, (load_bytes_ok _ _ bs) by (done || lia).
  cbn [mbind res_bind]. rewrite Ec, (store_bytes_ok _ _ b) by done. done.
Qed.

(** * Sessions *)

(** What a client does: allocate and fill, write into a region it has, copy the beginning
    of one, copy a text from elsewhere, reset. It does nothing outside its regions. *)
Inductive op :=
  | Alloc (bs : list Z) | Write (i : nat) (off : Z) (bs : list Z) | Dup (i : nat) (n : Z) | DupText (src : ptr) (c : list Z) | Reset.

Definition within (off n size : Z) : bool := (0 <=? off) && (off + n <=? size).

(** Whether there was memory; the pool; the regions with their sizes. *)
Definition dup (m : fast_mpool_man) (regs : list (ptr * Z)) (src : ptr) (n : Z) : PM (bool * fast_mpool_man * list (ptr * Z)) :=
  '(r, s, m) ← fast_mpool_strdup_ex m (mkString None 0) src n;
  match str s with
  | Some p => mret (r =? 0, m, regs ++ [(p, len s)])
  | None => mret (r =? 0, m, regs)
  end.

Definition run (m : fast_mpool_man) (regs : list (ptr * Z)) (o : op) : PM (bool * fast_mpool_man * list (ptr * Z)) :=
  match o with
  | Alloc bs =>
      '(p, m) ← fast_mpool_alloc m (zlen bs);
      match p with
      | Some p => store_bytes p bs;; mret (true, m, regs ++ [(p, zlen bs)])
      | None => mret (false, m, regs)
      end
  | Write i off bs =>
      match regs !! i with
      | Some (p, n) => (if within off (zlen bs) n then store_bytes (padd p off) bs else mret tt);; mret (true, m, regs)
      | None => mret (true, m, regs)
      end
  | Dup i n =>
      match regs !! i with
      | Some (p, k) => if within 0 n k && (0 <=? n) then dup m regs p n else mret (true, m, regs)
      | None => mret (true, m, regs)
      end
  | DupText src c => dup m regs src (zlen c)
  | Reset => m ← fast_mpool_reset m; mret (true, m, [])
  end.

Fixpoint run_all (m : fast_mpool_man) (regs : list (ptr * Z)) (os : list op) : PM (list bool * fast_mpool_man * list (ptr * Z)) :=
  match os with
  | [] => mret ([], m, regs)
  | o :: os => '(r, m, regs) ← run m regs o; '(rs, m, regs) ← run_all m regs os; mret (r :: rs, m, regs)
  end.

(** The contents of the regions, as the client sees them. *)
Definition spec (cs : list (list Z)) (o : op) (r : bool) : list (list Z) :=
  match o with
  | Alloc bs | DupText _ bs => if r then cs ++ [bs] else cs
  | Write i off bs =>
      match cs !! i with Some c => if within off (zlen bs) (zlen c) then <[i := zwrite c off bs]> cs else cs | None => cs end
  | Dup i n =>
      match cs !! i with
      | Some c => if within 0 n (zlen c) && (0 <=? n) then if r then cs ++ [take (Z.to_nat n) c] else cs else cs
      | None => cs
      end
  | Reset => []
  end.

Fixpoint replay (cs : list (list Z)) (os : list op) (rs : list bool) : list (list Z) :=
  match os, rs with o :: os, r :: rs => replay (spec cs o r) os rs | _, _ => cs end.

(** Sizes are ints; a text from elsewhere is there before the pool is. *)
Definition op_ok (h0 : pheap) (o : op) : Prop :=
  match o with Alloc bs => zlen bs ≤ INT_MAX | DupText src c => text h0 src c ∧ zlen c ≤ INT_MAX | _ => True end.

(** What malloc can give with the header. *)
Definition fits (o : op) : Prop :=
  match o with Alloc bs | DupText _ bs => zlen bs ≤ INT_MAX - sizeof_malloc | Dup _ n => n ≤ INT_MAX - sizeof_malloc | _ => True end.

Record pool_inv (h0 h : pheap) (m : fast_mpool_man) (ns : list Z) (regs : list (ptr * Z)) (cs : list (list Z)) : Prop := {
  pi_trunks : ∃ fs, trunks h m ns fs;
  pi_old b : blocks h0 !! b = if decide (b ∈ ns) then None else blocks h !! b;
  pi_length : length regs = length cs;
  pi_regs i p n c : regs !! i = Some (p, n) → cs !! i = Some c → p.1 ∈ ns ∧ n = zlen c ∧ p.2 + n ≤ used (structs h) p.1 ∧ text h p c;
  pi_apart i j p n q k : i ≠ j → regs !! i = Some (p, n) → regs !! j = Some (q, k) → apart p n q k;
  pi_sum : zsum (used (structs h) <$> ns) = zsum (zlen <$> cs) }.

Lemma zsum_app l l' : zsum (l ++ l') = zsum l + zsum l'.
Proof. induction l as [|x l IH]; [done|]. cbn [app]. rewrite !zsum_cons, IH. lia. Qed.

Lemma zsum_update f f' (ns : list Z) a k :
  NoDup ns → a ∈ ns → (∀ x, f' x = if decide (x = a) then f a + k else f x) → zsum (f' <$> ns) = zsum (f <$> ns) + k.
Proof.
  intros Hnd Ha Hf. induction ns as [|x ns IH]; [by apply elem_of_nil in Ha|]. apply NoDup_cons in Hnd as [Hx Hnd].
  rewrite !fmap_cons, !zsum_cons, Hf. case_decide as E.
  - subst x. replace (f' <$> ns) with (f <$> ns); [lia|]. apply list_fmap_ext. intros i y Hy. rewrite Hf, decide_False; [done|].
    intros ->. apply Hx. by eapply list_elem_of_lookup_2.
  - apply elem_of_cons in Ha as [->|Ha]; [done|]. rewrite IH by done. lia.
Qed.

Lemma pool_init once discard h0 :
  heap_ok h0 → structs h0 = ∅ → once ≤ INT_MAX → pool_inv h0 h0 (fast_mpool_init once discard).2 [] [] [].
Proof.
  intros Hh Hs Ho. split; try done. exists []. split; try done; cbn.
  - case_if; propify; int_lia.
  - apply NoDup_nil_2.
  - apply NoDup_nil_2.
  - by rewrite Hs, dom_empty_L.
  - intros a t. rewrite Hs. by rewrite lookup_empty.
Qed.

(** A region that has been handed out and holds [c], whatever that is. *)
Lemma inv_alloc h0 h m ns regs cs m' h' ns' p c :
  pool_inv h0 h m ns regs cs → allocated h ns (zlen c) p m' h' ns' → text h' p c →
  pool_inv h0 h' m' ns' (regs ++ [(p, zlen c)]) (cs ++ [c]).
Proof.
  intros [[fs Ht] Hold Hlen Hregs Hap Hsum] [Hg Hin Hat Hu Ht'] Hp. pose proof (zlen_nonneg c).
  assert (ns ⊆ ns') as Hsub by (destruct Hg as [[-> _]|(a & b & -> & _)]; set_solver).
  assert (∀ a, a ∈ ns → blocks h' !! a = blocks h !! a) as Hblk.
  { intros a Ha. destruct Hg as [[_ ->]|(a' & b & _ & Hn & ->)]; [done|]. rewrite lookup_insert_ne; [done|]. intros ->.
    destruct (trunks_node _ _ _ _ _ Ht Ha) as (t & _ & [_ _ _ _ _ (b' & Eb & _)] & _). congruence. }
  assert (∀ i q k, regs !! i = Some (q, k) → apart p (zlen c) q k) as Hnew.
  { intros i q k Hi. destruct (lookup_lt_is_Some_2 cs i) as [d Hd]; [rewrite <-Hlen; by eapply lookup_lt_Some|].
    destruct (Hregs i q k d Hi Hd) as (Hq & -> & Hle & _). unfold apart. destruct (decide (p.1 = q.1)) as [E|]; [|by left]. rewrite Hat, E. lia. }
  split.
  - done.
  - intros b. rewrite Hold. destruct Hg as [[-> ->]|(a & x & -> & Hn & ->)]; [done|]. destruct (decide (b ∈ ns)); [by rewrite decide_True by by right|].
    destruct (decide (b = a)) as [->|]; [by rewrite decide_True by left|]. rewrite decide_False by by intros [?|?]%elem_of_cons. by rewrite lookup_insert_ne by congruence.
  - rewrite !length_app. cbn. lia.
  - intros i q k d [Hi|[Hi E]]%lookup_app_Some Hd.
    + rewrite lookup_app_l in Hd by (rewrite <-Hlen; by eapply lookup_lt_Some). destruct (Hregs i q k d Hi Hd) as (Hq & -> & Hle & Hx).
      split; [by apply Hsub|]. split; [done|]. split; [|eapply text_heap; [|exact Hx]; by apply Hblk].
      rewrite Hu. case_decide as E; [|done]. rewrite Hat, <-E. lia.
    + rewrite lookup_app_r in Hd by lia. rewrite Hlen in E. destruct (i - length cs)%nat; [|done]. injection E as <- <-. injection Hd as <-.
      split_and!; [done..| |done]. rewrite Hu, decide_True by done. lia.
  - intros i j q k q' k' Hne [Hi|[Hi Ei]]%lookup_app_Some [Hj|[Hj Ej]]%lookup_app_Some.
    + by eapply Hap.
    + destruct (j - length regs)%nat; [|done]. injection Ej as <- <-. destruct (Hnew i q k Hi) as [?|?]; unfold apart; [left; congruence|tauto].
    + destruct (i - length regs)%nat; [|done]. injection Ei as <- <-. by eapply Hnew.
    + destruct (i - length regs)%nat eqn:Ei1; [|done]. destruct (j - length regs)%nat eqn:Ej1; [|done]. lia.
  - destruct Ht' as [fs' Ht']. rewrite fmap_app. rewrite (zsum_update (used (structs h)) _ ns' p.1 (zlen c)); [|by apply (tr_nodup _ _ _ _ Ht')|done|].
    2: { intros x. rewrite Hu, Hat. done. }
    assert (zsum (used (structs h) <$> ns') = zsum (used (structs h) <$> ns)) as ->.
    { destruct Hg as [[-> _]|(a & b & -> & Hn & _)]; [done|]. rewrite fmap_cons, zsum_cons. replace (used (structs h) a) with 0; [lia|].
      unfold used. destruct (structs h !! a) eqn:E; [|done]. destruct (to_block _ _ _ (tr_nodes _ _ _ _ Ht a _ E)) as (x & Ex & _). congruence. }
    rewrite Hsum, zsum_app. cbn. lia.
Qed.

(** Writing into a region changes that one only. *)
Lemma inv_write h0 h m ns regs cs i p n c off xs :
  pool_inv h0 h m ns regs cs → regs !! i = Some (p, n) → cs !! i = Some c → 0 ≤ off → off + zlen xs ≤ zlen c →
  ∃ b, blocks h !! p.1 = Some b ∧ 0 ≤ p.2 ∧ p.2 + zlen c ≤ zlen b ∧
    pool_inv h0 (with_blocks h (<[p.1 := zwrite b (p.2 + off) xs]> (blocks h))) m ns regs (<[i := zwrite c off xs]> cs).
Proof.
  intros [[fs Ht] Hold Hlen Hregs Hap Hsum] Hi Hc Hoff Hx. destruct (Hregs i p n c Hi Hc) as (Hin & -> & Hle & Htx).
  pose proof Htx as (b & Hb & Hp & Hpl & _). exists b. split; [done|]. split; [done|]. split; [done|].
  pose proof (zlen_nonneg xs) as Hxs.
  assert (zlen (zwrite c off xs) = zlen c) as Elc by (apply zlen_zwrite; lia).
  split.
  - exists fs. destruct Ht as [Hh ? ? ? ? ? ? ? Hnodes]. split; try done.
    + apply heap_ok_with_blocks; [done|]. by eexists.
    + intros a t Ea. destruct (Hnodes a t Ea) as [? ? ? ? ? (b' & Eb' & El)]. split; try done. cbn. destruct (decide (a = p.1)) as [->|].
      * exists (zwrite b (p.2 + off) xs). rewrite lookup_insert_eq. split; [done|]. rewrite zlen_zwrite by lia. congruence.
      * exists b'. by rewrite lookup_insert_ne by congruence.
  - intros x. rewrite Hold. case_decide; [done|]. cbn. rewrite lookup_insert_ne; [done|]. by intros <-.
  - by rewrite length_insert.
  - intros j q k d Hj Hd. destruct (decide (i = j)) as [<-|Hne].
    + rewrite list_lookup_insert_eq in Hd by (by eapply lookup_lt_Some). injection Hd as <-. rewrite Hi in Hj. injection Hj as <- <-. rewrite Elc.
      split_and!; [done|done|done|]. by apply text_write_in.
    + rewrite list_lookup_insert_ne in Hd by done. destruct (Hregs j q k d Hj Hd) as (? & -> & ? & Htq). split_and!; try done.
      apply (text_write_apart h q d (padd p off)); try done; cbn; [lia|lia|].
      destruct (Hap i j p (zlen c) q (zlen d) Hne Hi Hj); unfold apart; cbn; [left; congruence|lia].
  - done.
  - rewrite list_fmap_insert, Elc, list_insert_id; [exact Hsum|]. by rewrite list_lookup_fmap, Hc.
Qed.

(** ** Single calls *)

(** A call leaves a good pool; without memory it says so and changes nothing. *)
Definition outcome_ok (h0 : pheap) (m : fast_mpool_man) (h : pheap) (ns : list Z) (size : Z) (spec : bool → list (list Z))
    (x : bool * fast_mpool_man * list (ptr * Z) * pheap) : Prop :=
  let '(r, m', regs', h') := x in
  ∃ ns', zlen ns' ≤ zlen ns + 1 ∧ pool_inv h0 h' m' ns' regs' (spec r) ∧ alloc_size_once m' = alloc_size_once m ∧
    (outcomes h = [] → outcomes h' = [] ∧ (Z.max size (alloc_size_once m) ≤ INT_MAX - sizeof_malloc → r = true)).

Lemma inv_same h0 h m ns regs cs m' h' :
  pool_inv h0 h m ns regs cs → structs h' = structs h → blocks h' = blocks h → (∃ fs, trunks h' m' ns fs) →
  pool_inv h0 h' m' ns regs cs.
Proof.
  intros [_ Hold ? Hregs ? ?] Es Eb Ht. split; rewrite ?Es, ?Eb; try done. intros i p n c Hi Hc.
  destruct (Hregs i p n c Hi Hc) as (? & ? & ? & ?). split_and!; try done. eapply text_heap; [|done]. by rewrite Eb.
Qed.

Lemma alloc_region_ok h0 h m ns regs cs size :
  pool_inv h0 h m ns regs cs → 0 ≤ size ≤ INT_MAX →
  returns (fast_mpool_alloc m size h) (λ '((r, m'), h'),
    (outcomes h = [] → outcomes h' = [] ∧ (Z.max size (alloc_size_once m) ≤ INT_MAX - sizeof_malloc → is_Some r)) ∧
    alloc_size_once m' = alloc_size_once m ∧
    match r with
    | None => pool_inv h0 h' m' ns regs cs
    | Some p => ∃ ns' c, zlen c = size ∧ zlen ns' ≤ zlen ns + 1 ∧ pool_inv h0 h' m' ns' (regs ++ [(p, size)]) (cs ++ [c])
    end).
Proof.
  intros Hi Hs. destruct (pi_trunks _ _ _ _ _ _ Hi) as [fs Ht]. eapply returns_mono; [by apply (fast_mpool_alloc_ok h m ns fs size Ht)|].
  intros [[[p|] m'] h'] (Hout & Ho & HR).
  - split; [by intros ?; split; [apply Hout|]|]. split; [done|]. destruct HR as (ns' & Ha). pose proof Ha as [Hg Hin Hat Hu [fs' Ht']].
    destruct (trunks_node _ _ _ _ _ Ht' Hin) as (t & _ & [_ _ _ Hut _ (b & Eb & El)] & Eu). rewrite Hu, decide_True in Eu by done.
    assert (0 ≤ p.2) as Hp.
    { rewrite Hat. unfold used. destruct (structs h !! p.1) as [tp|] eqn:E; [|done]. apply (to_used _ _ _ (tr_nodes _ _ _ _ Ht _ _ E)). }
    destruct (text_here h' p b size Eb Hp) as [Htx Hlx]; [lia|lia|]. exists ns', (zslice b p.2 size). split; [done|]. split.
    + destruct Hg as [[-> _]|(a & x & -> & _)]; [|rewrite zlen_cons]; lia.
    + rewrite <-Hlx at 1. eapply inv_alloc; [done|by rewrite Hlx|done].
  - destruct HR as (Es & Eb & Ht' & Hbig). split.
    { intros Eo. split; [by apply Hout|]. intros ?. specialize (Hbig Eo). lia. }
    split; [done|]. eapply inv_same; [done..|by exists fs].
Qed.

(** Filling a new region. *)
Lemma fill_inv h0 h m ns regs cs p c0 c :
  pool_inv h0 h m ns (regs ++ [(p, zlen c)]) (cs ++ [c0]) → zlen c0 = zlen c →
  ∃ b, blocks h !! p.1 = Some b ∧ 0 ≤ p.2 ∧ p.2 + zlen c ≤ zlen b ∧
    pool_inv h0 (with_blocks h (<[p.1 := zwrite b p.2 c]> (blocks h))) m ns (regs ++ [(p, zlen c)]) (cs ++ [c]).
Proof.
  intros Hi El. assert (length regs = length cs) as Hlen by (pose proof (pi_length _ _ _ _ _ _ Hi) as E; rewrite !length_app in E; cbn in E; lia).
  destruct (inv_write h0 h m ns _ _ (length regs) p (zlen c) c0 0 c Hi) as (b & Hb & Hp & Hl & Hi').
  - by apply list_lookup_middle.
  - by apply list_lookup_middle.
  - done.
  - lia.
  - exists b. split_and!; [done|done|lia|]. rewrite Z.add_0_r in Hi'. replace (<[length regs := zwrite c0 0 c]> (cs ++ [c0])) with (cs ++ [c]) in Hi'; [done|].
    rewrite Hlen, insert_app_r_alt, Nat.sub_diag by done. cbn. f_equal. f_equal.
    unfold zwrite. rewrite take_0, drop_ge by (unfold zlen in *; lia). by rewrite List.app_nil_r.
Qed.

Lemma client_alloc_ok h0 h m ns regs cs c :
  pool_inv h0 h m ns regs cs → zlen c ≤ INT_MAX →
  returns (run m regs (Alloc c) h) (outcome_ok h0 m h ns (zlen c) (spec cs (Alloc c))).
Proof.
  intros Hi Hc. cbn [run]. pose proof (zlen_nonneg c). apply M_returns_bind. eapply returns_mono; [by apply (alloc_region_ok h0 h m ns regs cs (zlen c))|].
  intros [[[p|] m'] h'] (Hout & Ho & HR).
  - destruct HR as (ns' & c0 & El & Hns & Hi'). destruct (fill_inv _ _ _ _ _ _ _ _ _ Hi' El) as (b & Hb & Hp & Hl & Hi2).
    rewrite M_bind_eq, (store_bytes_ok _ _ b) by done. cbn. exists ns'. split_and!; try done. intros E. by split; [apply Hout|].
  - cbn. exists ns. split_and!; [lia|done|done|]. intros E. specialize (Hout E) as [? Hs]. split; [done|]. intros Hz. by apply Hs in Hz as [? ?].
Qed.

Lemma dup_ok h0 h m ns regs cs src c :
  pool_inv h0 h m ns regs cs → zlen c ≤ INT_MAX →
  (∀ h' m' ns' p c0, pool_inv h0 h' m' ns' (regs ++ [(p, zlen c)]) (cs ++ [c0]) → text h' src c ∧ apart src (zlen c) p (zlen c)) →
  returns (dup m regs src (zlen c) h) (outcome_ok h0 m h ns (zlen c) (λ r, if r then cs ++ [c] else cs)).
Proof.
  intros Hi Hc Hsrc. pose proof (zlen_nonneg c). unfold dup, fast_mpool_strdup_ex. rewrite M_bind_eq. apply returns_bind. apply M_returns_bind.
  eapply returns_mono; [by apply (alloc_region_ok h0 h m ns regs cs (zlen c))|].
  intros [[[p|] m'] h'] (Hout & Ho & HR).
  - destruct HR as (ns' & c0 & El & Hns & Hi'). destruct (Hsrc _ _ _ _ _ Hi') as [Htx Hap].
    destruct (fill_inv _ _ _ _ _ _ _ _ _ Hi' El) as (b & Hb & Hp & Hl & Hi2).
    assert (∀ h2, pool_inv h0 h2 m' ns' (regs ++ [(p, zlen c)]) (cs ++ [c]) → outcomes h2 = outcomes h' →
      outcome_ok h0 m h ns (zlen c) (λ r, if r then cs ++ [c] else cs) (true, m', regs ++ [(p, zlen c)], h2)) as Hdone.
    { intros h2 Hi3 E2. exists ns'. split_and!; try done. intros E. rewrite E2. by split; [apply Hout|]. }
    destruct (Z.ltb_spec 0 (zlen c)) as [Hpos|Hz].
    + eapply (step_memcpy_text p src c b); try done. cbn. by apply (Hdone _ Hi2).
    + assert (c = []) as -> by (apply zlen_le_0; lia). assert (c0 = []) as -> by (by apply zlen_le_0; rewrite El).
      cbn. by apply Hdone.
  - cbn. exists ns. split_and!; [lia|done|done|]. intros E. specialize (Hout E) as [? Hs]. split; [done|]. intros Hz. by apply Hs in Hz as [? ?].
Qed.

Definition op_size (cs : list (list Z)) (o : op) : Z :=
  match o with Alloc c | DupText _ c => zlen c | Dup _ n => n | _ => 0 end.

(** A source among the regions stays apart from the new one. *)
Lemma region_source h0 h m ns regs cs i p k c n :
  pool_inv h0 h m ns regs cs → regs !! i = Some (p, k) → cs !! i = Some c → 0 ≤ n ≤ zlen c →
  ∀ h' m' ns' q c0, pool_inv h0 h' m' ns' (regs ++ [(q, n)]) (cs ++ [c0]) →
    text h' p (take (Z.to_nat n) c) ∧ apart p n q n.
Proof.
  intros Hi Hr Hc Hn h' m' ns' q c0 Hi'. pose proof (lookup_lt_Some _ _ _ Hr) as Hlt.
  assert ((regs ++ [(q, n)]) !! i = Some (p, k)) as Hr' by (by rewrite lookup_app_l).
  assert ((cs ++ [c0]) !! i = Some c) as Hc' by (rewrite lookup_app_l; [done|by rewrite <-(pi_length _ _ _ _ _ _ Hi)]).
  destruct (pi_regs _ _ _ _ _ _ Hi' i p k c Hr' Hc') as (_ & -> & _ & Htx). split.
  - apply text_bytes in Htx as (b & Hb & Hp & Hl & Hg). apply text_bytes. exists b. rewrite zlen_take by done. split_and!; [done|done|lia|].
    intros j Hj. rewrite zget_take by lia. apply Hg. lia.
  - destruct (pi_apart _ _ _ _ _ _ Hi' i (length regs) p (zlen c) q n) as [?|?]; [lia|done|by apply list_lookup_middle|by left|].
    unfold apart. lia.
Qed.

Lemma client_call_ok h0 h m ns regs cs o :
  pool_inv h0 h m ns regs cs → op_ok h0 o → returns (run m regs o h) (outcome_ok h0 m h ns (op_size cs o) (spec cs o)).
Proof.
  intros Hi Ho. pose proof (pi_length _ _ _ _ _ _ Hi) as Hlen.
  assert (∀ h' cs', pool_inv h0 h' m ns regs cs' → outcomes h' = outcomes h → ∀ size, outcome_ok h0 m h ns size (λ _, cs') (true, m, regs, h')) as Hkeep.
  { intros h' cs' Hi' E size. exists ns. split_and!; [lia|done|done|]. intros Eo. by rewrite E. }
  assert (∀ i, (∃ p n c, regs !! i = Some (p, n) ∧ cs !! i = Some c ∧ n = zlen c) ∨ (regs !! i = None ∧ cs !! i = None)) as Hlook.
  { intros i. destruct (regs !! i) as [[p n]|] eqn:E.
    - left. destruct (lookup_lt_is_Some_2 cs i) as [c Hc]; [rewrite <-Hlen; by eapply lookup_lt_Some|].
      exists p, n, c. by destruct (pi_regs _ _ _ _ _ _ Hi i p n c E Hc) as (_ & ? & _).
    - right. split; [done|]. apply lookup_ge_None in E. apply lookup_ge_None. lia. }
  destruct o as [c|i off xs|i n|src c|]; cbn [run op_size].
  - by apply client_alloc_ok.
  - unfold spec. destruct (Hlook i) as [(p & n & c & Er & Ec & ->)|[-> ->]]; [|by apply Hkeep]. rewrite Er, Ec.
    destruct (within off (zlen xs) (zlen c)) eqn:Ew; [|by apply Hkeep]. unfold within in Ew. propify.
    destruct (inv_write h0 h m ns regs cs i p (zlen c) c off xs Hi Er Ec) as (b & Hb & Hp & Hl & Hi'); [lia..|].
    pose proof (zlen_nonneg xs). rewrite M_bind_eq, (store_bytes_ok _ _ b) by (cbn; done || lia). by apply Hkeep.
  - unfold spec. destruct (Hlook i) as [(p & k & c & Er & Ec & ->)|[-> ->]]; [|by apply Hkeep]. rewrite Er, Ec.
    destruct (within 0 n (zlen c) && (0 <=? n)) eqn:Ew; [|by apply Hkeep]. unfold within in Ew. propify.
    assert (zlen (take (Z.to_nat n) c) = n) as En by (rewrite zlen_take; lia).
    pose proof (dup_ok h0 h m ns regs cs p (take (Z.to_nat n) c) Hi) as HD. rewrite En in HD. apply HD.
    + destruct (pi_regs _ _ _ _ _ _ Hi i p _ c Er Ec) as (Hin & _ & Hle & _). destruct (pi_trunks _ _ _ _ _ _ Hi) as [fs Ht].
      destruct (trunks_node _ _ _ _ _ Ht Hin) as (t & _ & [_ _ _ Hu Hs _] & Eu). destruct (pi_regs _ _ _ _ _ _ Hi i p _ c Er Ec) as (_ & _ & _ & (b & _ & Hp & _)). lia.
    + eapply region_source; [done..|lia].
  - destruct Ho as [Htx Hc]. apply (dup_ok h0 h m ns regs cs src c Hi Hc). intros h' m' ns' p c0 Hi'.
    pose proof (pi_old _ _ _ _ _ _ Hi' src.1) as Hold. destruct Htx as (b & Hb & Hr). rewrite Hb in Hold. case_decide as Hin; [done|].
    split; [by exists b|]. left. intros E. apply Hin. rewrite E.
    assert (length regs = length cs) as El by done.
    by destruct (pi_regs _ _ _ _ _ _ Hi' (length regs) p (zlen c) c0) as (? & _); [by apply list_lookup_middle..|].
  - destruct (pi_trunks _ _ _ _ _ _ Hi) as [fs Ht]. apply M_returns_bind. eapply returns_mono; [by apply (fast_mpool_reset_ok h m ns fs)|].
    intros [m' h'] (Eb & Eo & Eon & Hu & Ht'). cbn. exists ns. split; [lia|]. split; [|split; [done|]].
    + split; try done; [intros b; rewrite Eb; apply (pi_old _ _ _ _ _ _ Hi)|]. cbn.
      clear -Hu. induction ns as [|a ns IH]; [done|]. rewrite fmap_cons, zsum_cons, Hu, IH. done.
    + intros E. by rewrite Eo.
Qed.

Lemma client_session_ok h0 os h m ns regs cs :
  pool_inv h0 h m ns regs cs → Forall (op_ok h0) os →
  returns (run_all m regs os h) (λ '((rs, m', regs'), h'),
    length rs = length os ∧
    (∃ ns', zlen ns' ≤ zlen ns + zlen os ∧ pool_inv h0 h' m' ns' regs' (replay cs os rs)) ∧
    (outcomes h = [] → Forall fits os → alloc_size_once m ≤ INT_MAX - sizeof_malloc → Forall (eq true) rs)).
Proof.
  revert h m ns regs cs. induction os as [|o os IH]; intros h m ns regs cs Hi Hos.
  { cbn. split; [done|]. split; [|done]. exists ns. split; [change (zlen (@nil op)) with 0; lia|done]. }
  apply Forall_cons in Hos as [Ho Hos]. cbn [run_all]. apply M_returns_bind. eapply returns_mono; [by apply (client_call_ok h0 h m ns regs cs o)|].
  intros [[[r m1] regs1] h1] (ns1 & Hns & Hi1 & Hon & Hout). apply M_returns_bind. eapply returns_mono; [by apply (IH h1 m1 ns1 regs1 (spec cs o r))|].
  intros [[[rs m2] regs2] h2] (Hl & (ns2 & Hns2 & Hi2) & Htrue). cbn. split; [by f_equal|]. split.
  - exists ns2. rewrite zlen_cons. split; [lia|done].
  - intros E [Hf Hfs]%Forall_cons Hsz. destruct (Hout E) as [E1 Hr]. constructor.
    + symmetry. apply Hr. destruct o; cbn [op_size fits] in *; unfold sizeof_malloc in *; int_lia.
    + apply Htrue; [done|done|lia].
Qed.

(** * What the pool promises *)

(** C15. A client's session with a pool, from its initialisation: every call returns; the
    regions it has been given since the last reset lie apart and hold what the client has
    put into them; the blocks of others are untouched; the statistics count exactly the
    bytes handed out; destroying the pool gives back all its memory; and while malloc
    gives memory no call fails. *)
Theorem fast_mpool_regions once discard h0 os :
  heap_ok h0 → structs h0 = ∅ → once ≤ INT_MAX → zlen os ≤ INT_MAX → Forall (op_ok h0) os →
  returns (run_all (fast_mpool_init once discard).2 [] os h0) (λ '((rs, m, regs), h),
    let cs := replay [] os rs in
    length rs = length os ∧ length regs = length cs ∧
    (∀ i p n c, regs !! i = Some (p, n) → cs !! i = Some c → n = zlen c ∧ text h p c) ∧
    (∀ i j p n q k, i ≠ j → regs !! i = Some (p, n) → regs !! j = Some (q, k) → apart p n q k) ∧
    (∀ b x, blocks h0 !! b = Some x → blocks h !! b = Some x) ∧
    returns (fast_mpool_get_stats m h) (λ '(st, h'), h' = h ∧ total_bytes st - free_bytes st = zsum (zlen <$> cs)) ∧
    returns (fast_mpool_destroy m h) (λ '(_, h'), structs h' = ∅ ∧ blocks h' = blocks h0) ∧
    (outcomes h0 = [] → Forall fits os → once ≤ INT_MAX - sizeof_malloc → Forall (eq true) rs)).
Proof.
  intros Hh Hs Ho Hn Hos. eapply returns_mono; [by apply (client_session_ok h0 os h0 _ [] [] [] (pool_init once discard h0 Hh Hs Ho))|].
  intros [[[rs m] regs] h] (Hl & (ns & Hns & Hi) & Htrue). destruct Hi as [[fs Ht] Hold Hlen Hregs Hap Hsum].
  split; [done|]. split; [done|]. split; [intros i p n c Hr Hc; by destruct (Hregs i p n c Hr Hc) as (_ & ? & _ & ?)|].
  split; [done|]. split; [intros b x Hb; rewrite Hold in Hb; by case_decide|]. split; [|split].
  - change (zlen (@nil Z)) with 0 in Hns. eapply returns_mono; [apply (fast_mpool_stats_ok h m ns fs Ht); lia|].
    intros [st h'] (-> & ->). split; [done|]. cbn. lia.
  - eapply returns_mono; [by apply (fast_mpool_destroy_ok h m ns fs)|]. intros [m' h'] (Es & _ & Eb). split; [done|].
    apply map_eq. intros b. by rewrite Eb, Hold.
  - intros E Hf Hsz. apply Htrue; [done|done|]. cbn. case_if; [done|]. unfold sizeof_malloc. int_lia.
Qed.

Definition busy_heap : pheap := mkHeap ∅ {[1 := [104; 105; 33]]} 2 [true; false] 0.

Definition busy_session : list op :=
  [Alloc [1; 2; 3; 4; 5]; Alloc [6; 7; 8; 9]; DupText (1, 0) [104; 105]; Write 0 1 [0; 0]; Dup 0 3; Reset; Alloc [9]; Dup 0 1].

Lemma busy_run :
  returns (run_all (fast_mpool_init 8 1).2 [] busy_session busy_heap) (λ '((rs, m, regs), h),
    rs = [true; false; true; true; true; true; true; true] ∧ regs = [((2, 0), 1); ((2, 1), 1)]).
Proof. vm_compute. done. Qed.

Lemma fast_mpool_regions_witness :
  returns (run_all (fast_mpool_init 8 1).2 [] busy_session busy_heap) (λ '((rs, m, regs), h),
    (rs = [true; false; true; true; true; true; true; true] ∧ regs = [((2, 0), 1); ((2, 1), 1)]) ∧
    returns (fast_mpool_destroy m h) (λ '(_, h'), structs h' = ∅ ∧ blocks h' = blocks busy_heap)).
Proof.
  assert (heap_ok busy_heap) as Hh.
  { split; cbn; try done. intros b Hb. rewrite lookup_singleton_ne; [done|lia]. }
  assert (Forall (op_ok busy_heap) busy_session) as Hos.
  { repeat constructor; try (vm_compute; done). exists [104; 105; 33]. by split_and!. }
  pose proof (fast_mpool_regions 8 1 busy_heap busy_session Hh eq_refl ltac:(int_lia) ltac:(vm_compute; done) Hos) as HR.
  pose proof busy_run as HC. destruct (run_all _ _ _ _) as [[[[rs m] regs] h]| |]; [|done..].
  split; [exact HC|apply HR].
Defined.

(** A text that is ended by 0 is copied up to there. *)
Lemma fast_mpool_strdup_text m dest (h : pheap) l c r b :
  blocks h !! b = Some (l ++ c ++ 0 :: r) → cstr c → zlen c ≤ INT_MAX →
  fast_mpool_strdup m dest (Some (b, zlen l)) h = fast_mpool_strdup_ex m dest (b, zlen l) (zlen c) h.
Proof.
  intros Hb Hc Hl. unfold fast_mpool_strdup. cbn [fst snd]. rewrite Hb, strlen_mid by done. cbn [mbind res_bind].
  by rewrite sext32_id by (pose proof (zlen_nonneg c); lia).
Qed.
